(* ===== verification/_CoqProject ===== *)
-Q . S2P
Prelude.v
Utf8.v
BTree.v
Sorting.v
RuntimeErrors.v
RequestTarget.v
Capability.v
Syntax.v
Patterns.v
PatternFacts.v
Values.v
ValueFacts.v
Construction.v
Evaluator.v
Samples.v
EvaluatorFacts.v
DataFacts.v
Cache.v
CacheFacts.v
Sql.v
Store.v
Jobs.v
Replay.v
StoreFacts.v
CommitFacts.v
JobsFacts.v
ScheduleFacts.v
ReplayFacts.v
History.v
Invocation.v
InvocationFacts.v
InvocationBounds.v
Tokens.v
Lexer.v
LexerFacts.v
LexComplete.v
Canonical.v
Habits.v
Parser.v
ParserSpec.v
ParserLogic.v
ParserTypes.v
ParserExprs.v
ParserBlocks.v
ParserOperands.v
ParserGrammar.v
ParserFacts.v
Positions.v
DurableOps.v
Manifest.v
Permissions.v
PermissionFacts.v
HostLimits.v
Webhook.v
HostPolicy.v
RateFacts.v
Idempotency.v
IdempotencyFacts.v
Types.v
Infer.v
InferWf.v
OccursFacts.v
TypeTrees.v
UnifyParts.v
UnifyVars.v
UnifyFacts.v
UnifyComplete.v
UnifyTotal.v
UnifyResults.v
Builtins.v
Normalize.v
Analyzer.v
Requirements.v
Analysis.v
Typing.v
ValueTypes.v
TypeSafety.v
AnalyzerFacts.v
Soundness.v
Accepted.v
