(* ===== verification/Prelude.v ===== *)
(** * Krit: a verification development of the language core and its host

    Krit is a small language for durable agents.  Its repository is a Rust
    workspace: [crates/krit] holds the language (lexer, parser, formatter,
    analysis and the direct evaluator), [crates/krit-capability] the names, origins and request
    targets a program may be given authority over, [crates/krit-cache] the
    bounded in-memory cache and [crates/krit-state] the durable store the host
    gives to programs; the remaining crates compile to Wasm, run components,
    and serve editors and the command line.

    ** The parts and how they interact

    A program text is lexed into tokens, which the parser makes a syntax tree
    of, within limits the later stages rely on, and the formatter spells
    canonically.  Analysis decides which match arms may stand together and
    whether they cover every value; the evaluator relies on it
    when it selects an arm, and shares the check of named construction with
    it.  The evaluator's built-ins call the encoders of request targets, and
    every path and query a program sends is judged again by the host with the
    rules of the same module.  At run time the host keeps two kinds of state
    for a program: a cache whose entries expire, and a store whose changes are
    staged by an invocation and applied by one commit, together with the
    acknowledgement of the queue job or schedule fire the invocation was
    delivered.  Calls to the outside are recorded under a lease, so that a
    repeated invocation replays their results.

    ** Files

    Shared:
    - [Prelude] (this file): results and their binding, machine integers,
      bytes and texts, searching and splitting, tactics and hints;
    - [Utf8]: the UTF-8 encoding of characters;
    - [BTree]: [BTreeMap] as a sorted list, keys compared through [Cmp];
    - [Sorting]: sorting and [dedup] in those orders.

    Authority ([krit-capability/src]):
    - [RequestTarget]: [request_target.rs], every function;
    - [Capability]: [lib.rs], names and exact origins.

    Language ([krit/src]):
    - [Tokens]: [token.rs], characters and slices of texts;
    - [Lexer], [LexerFacts], [LexComplete]: [lexer.rs] over lists
      of characters, the lexical grammar as relations
      ([Spells], [Trivia], [Decodes]), and that the lexer reads it;
    - [Canonical]: the spelling of tokens in [formatter.rs];
    - [Habits]: [habits.rs], the hints for constructs of other languages;
    - [Parser]: [parser.rs] and the limits of [limits.rs], in a monad over the
      parser's mutable fields whose outcomes are a tree, a diagnostic, a panic
      or no fuel; [ParserSpec]: the grammar as relations between tokens and
      trees, and the levels of a tree; [ParserLogic]: the judgement [spec] the
      parser is verified with; [ParserTypes] (types and patterns),
      [ParserExprs] (what contains expressions), [ParserBlocks] (what looks
      ahead, and statements), [ParserOperands] (conditionals,
      functions, matches), [ParserGrammar] (operands, links, operators and the
      recursion): that it holds of every function; [ParserFacts]: programs,
      and the tokens of a lexed text;
    - [Syntax]: [ast.rs], the spans of [source.rs] and the data of
      [diagnostic.rs]; [Positions]: their positions and
      renderings, and the editor's line index ([krit-lsp/src/position.rs]);
    - [Patterns], [PatternFacts]: [patterns.rs], the arm checks;
    - [Construction]: [check_construction_fields] of [analysis.rs] and the
      closest name of [habits.rs];
    - [Values], [ValueFacts], [DataFacts]: the values of [evaluator.rs], its
      pure helpers, their invariant, equality and JSON, and that checked arms
      meet the matching of values;
    - [Evaluator], [EvaluatorFacts]: [evaluator.rs] from [execute] down, in a
      monad over the output sink and the two depth counters whose outcomes are
      a value, a diagnostic, an early exit, a panic, or no fuel;
    - [Types]: the types of [analysis.rs], inferred and reported, and their
      display; [Infer]: the inference state and unification, as computations
      that keep the state they have reached when they fail; [InferWf],
      [OccursFacts]: well-formed states, exact heights and acyclicity;
      [TypeTrees]: types as possibly open trees, valuations and the solutions
      of a state; [UnifyParts], [UnifyVars], [UnifyFacts]: that unification is
      exact; [UnifyComplete]: that it rejects only what it must; [UnifyTotal]:
      that it ends; [UnifyResults]: the theorems;
    - [Builtins]: [builtin.rs], the names, categories and signatures of the
      built-ins; [Analyzer], [Requirements], [Analysis]: the [Analyzer] of
      [analysis.rs] as computations over its fields that keep the state they
      have reached when they reject -- scopes, the types of built-ins, fields
      and patterns, the resources calls and entrypoints name, and the walk over
      a program down to the analysis it returns; [Normalize]: what it reads
      off a finished inference state, effects, reported types and the search
      for opaque types;
    - [Typing]: the type system as rules between syntax and type trees;
      [ValueTypes], [TypeSafety]: typed values, and that the evaluator runs
      what the rules type without going wrong; [AnalyzerFacts]: what each step
      of the analyzer means under a valuation of its variables; [Soundness]:
      that the walk types what it accepts; [Accepted]: the valuation of a
      finished analysis, and what acceptance promises;
    - [DurableOps]: [durable.rs], the durable operations of a program;
    - [Samples]: a concrete host and programs for the witnesses.

    Cache ([krit-cache/src]):
    - [Cache], [CacheFacts]: [config.rs], [error.rs], [store.rs]; a cache is a
      record of namespaces, counters and the poison flag, an operation is a
      function from a cache to a cache and a result.

    Durable store ([krit-state/src]):
    - [Sql]: tables, statements, transactions with rollback, and the judgement
      [wp] the facts are proved with;
    - [Store]: [lib.rs] (errors, limits, validation, reads) and the commit of
      [jobs.rs]; [Jobs]: queues, dead letters, schedules and listings of
      [jobs.rs]; [Replay]: replay and idempotency records of [lib.rs];
    - [StoreFacts]: the invariant [store_ok] of the tables and the budgets
      [within] of a configuration; [CommitFacts], [JobsFacts],
      [ScheduleFacts], [ReplayFacts]: the operations, one area each;
    - [History]: sequences of all operations.

    Host ([krit-runtime/src]):
    - [Invocation]: [state.rs] and the errors it answers: the configuration of
      stores, queues, schedules and buckets, and one invocation's transaction
      as computations over its state and the sessions of all database files;
    - [InvocationFacts], [InvocationBounds]: runs of calls interleaved with
      operations of the rest of the host;
    - [RuntimeErrors]: [error.rs]; [HostLimits]: [limits.rs]; [Webhook]:
      [webhook.rs], the validation of requests and responses;
    - [Manifest]: the manifest of a package
      ([krit-package/src/lib.rs]) and what its validation accepts;
      [Permissions], [PermissionFacts]: [permissions.rs], the grants, the
      authorization of artifacts and the binding of secrets;
    - [HostPolicy], [RateFacts]: [policy.rs] without idempotency (approvals,
      retries, rate limits); [Idempotency], [IdempotencyFacts]: its
      idempotency, in memory and through the store.

    ** What the theorems show

    - Lexing decides every text and covers it with trivia and the spellings of
      its tokens ([lex_covers]), and the formatter's spelling of the tokens
      lexes back to them ([canonical_tokens_relex]).
    - Parsing the tokens of a text always decides, without a panic
      ([parse_decides]); a program it accepts is derived by the grammar from
      all of them ([parse_sound]) and nests no deeper than the passes over it
      allow ([parsed_tree_depth]).
    - Positions count line feeds and characters ([position_counts]), the
      editor's positions come back ([index_position_offset]), and texts
      rendered as JSON read back ([escape_json_content]).
    - The durable operations reported of a program are exactly the calls in its
      tree ([durable_operations_exact]).
    - Unification of inferred types keeps exactly the solutions that make its
      types equal, ends, and fails only when there are none or a type would
      nest too deeply ([unify_exact], [unify_terminates], [unify_complete]);
      jobs and events never unify with themselves ([queue_job_mismatch]).
    - A program the lexer, the parser and the analyzer accept runs without
      going wrong, with no effect the analysis does not report
      ([accepted_program_safe]): what is accepted is typed by the rules
      ([accepted_typed]), the rules are respected by evaluation
      ([typed_program_runs]), and the reported effects are the least closed
      sets ([expand_sets_least]).  Programs that use [json_decode] are
      analyzed, and left out of this theorem: the type of what it returns is
      known only from its use.
    - Evaluation ends, without a panic, with both counters restored, and only
      well-formed values arise ([execute_total], [expression_preserves],
      [fuel_irrelevant], [division_law]).
    - The arm checks accept exactly the arms that are pairwise disjoint,
      [missing] is exactly their complement, and a checked match selects its
      one arm in any order ([check_arms_accepts_iff], [missing_partitions],
      [check_exhaustive_iff], [checked_match_selects]).
    - Equality of data is equality of canonical forms, and JSON keeps it where
      no record has a shape reserved for variants ([value_equal_canonical],
      [json_roundtrip], [json_encoding_deterministic]).
    - An accepted request path is read the same way by every server that
      decodes and resolves it, and the encoders produce exactly accepted
      targets that decode back ([accepted_path_addresses_itself],
      [encode_path_segment_contract], [encode_query_decodes],
      [accepted_segment_composes]); names and origins ([canonical_name_iff],
      [resource_name_iff_key], [http_origin_exact]).
    - The cache keeps exact indexes, exact accounting and every budget, evicts
      the least recently used entry, gives back what was written until its
      deadline, and refuses guest writes where it is read-only
      ([cache_invariant], [evict_globally_lru], [write_then_get],
      [read_only_refuses]).
    - The store: every history keeps the invariant and the budgets whatever
      fails ([store_invariant]); a commit refines one atomic change of an
      abstract store ([commit_plan_refines], [commit_succeeds]); no update is
      lost and no lease is shared ([no_lost_update], [lease_exclusive]);
      deliveries are in order and end as documented ([reserve_job_fifo],
      [fail_job_disposition], [dead_letters_keep_newest]); a tick materializes
      what is due and never twice ([tick_materializes],
      [tick_never_repeats]), except after the start of a schedule is moved
      past its cursor ([moved_start_misread]); in every history a recorded
      call is executed once at a time and its result replayed until it expires
      or is displaced ([replay_exclusive], [replay_returns_result],
      [idempotency_once], [completion_ends]).
    - An invocation behaves as a run alone on private copies of one snapshot
      of its store, installed at its commit ([invocation_atomic]); it stays
      within the limits of the store and never panics
      ([calls_stay_within_limits]), and the store accepts the keys and
      checkpoints it staged ([staged_keys_validate]).

    - The host grants what the permission plan shows, an artifact is authorized
      exactly when the manifest grants what it requires and the report says
      so, and a secret reaches only its origins ([grants_exact],
      [authorize_exact], [report_decides_authorization], [bearer_confined],
      [validate_manifest_iff]).  Limits are only lowered
      ([narrowing_lowers]), accepted requests are safe and bounded
      ([request_validate_iff]), rate limits hold ([rate_limit_holds]), what is
      hashed determines the request, and the records of completed idempotent
      requests answer as a list in order of use ([digest_covers_request],
      [records_are_recency_list]).

    ** Conventions, bounds and fuel

    Machine integers are [Z] with their width written out where it can be
    exceeded: [i64_checked], [usize_checked] and [u64_checked] are the checked
    operations of the source, saturation and wrapping are spelled.  Texts are
    byte strings.  The evaluator's fuel is spent where the code counts its
    evaluation depth, so [MAX_EVALUATION_DEPTH] and one more are enough
    ([fuel_irrelevant]); the lexer's loops have one round more than there are
    characters left, and [lex_covers] says they never run out; the parser's
    loops have one round more than there are tokens and its recursion spends
    fuel where the code opens a nesting level, so [DEPTH_FUEL], two more than
    [MAX_NESTING_DEPTH], is enough ([parse_decides]); the analyzer's
    walk spends fuel where the code counts its depth, so that
    [MAX_TREE_DEPTH] and one more are enough, and the steps of one unification
    are an argument of the analysis, any number of which is enough for the
    unifications it finishes; the cache's eviction loop has one round
    more than there are stored entries and the store's retention loop one more
    than there are rows, and both are proved to end within them.

    ** Parameters

    Code outside the repository is a parameter: the [url] crate's parser
    ([url_parse]), the version parser ([version_error]), the [http] crate
    ([HttpCrate]), the hash and the JSON form of a response; the output sink, the JSON text format and the debug form of
    texts ([Platform], whose documented laws are [PlatformOk]); and which SQL
    statements fail ([Faults], an arbitrary function, so that the theorems
    hold for every failure; [no_faults] is the instance of the theorems about
    success).

    ** Not modelled

    The layout of the formatter, the lints, the Core language
    and the Wasm compiler, the runtime around wasmtime apart from its durable
    state, permissions and policy, external databases,
    assistance, the language server and the command line; of the modelled
    crates, the bounded display of types, reading a manifest from disk, opening and migrating the database file,
    and the release of environments.  Next are
    an inductive semantics the evaluator refines and the layout of the
    formatter. *)

From Stdlib Require Export ZArith NArith Ascii Bool Lia.
From stdpp Require Export base option strings pretty gmap sorting list.

#[global] Open Scope Z_scope.
Declare Scope krit_scope.
Delimit Scope krit_scope with krit.
#[global] Open Scope krit_scope.

Create HintDb krit.

(** ** Results

    Rust's [Result<A, E>], with the [?] operator as a binding notation. *)

Inductive result (A E : Type) : Type :=
| Ok (a : A)
| Err (e : E).
Arguments Ok {A E} a.
Arguments Err {A E} e.

Definition result_bind {A B E} (r : result A E) (k : A -> result B E) : result B E :=
  match r with Ok a => k a | Err e => Err e end.

Notation "'let?' x := c 'in' k" := (result_bind c (fun x => k))
  (at level 10, x pattern, c at level 100, k at level 200,
   format "'[v' 'let?'  x  :=  c  'in' '/' k ']'") : krit_scope.

Definition result_map {A B E} (f : A -> B) (r : result A E) : result B E :=
  match r with Ok a => Ok (f a) | Err e => Err e end.

Definition ok_or {A E} (o : option A) (e : E) : result A E :=
  match o with Some a => Ok a | None => Err e end.

Definition is_ok {A E} (r : result A E) : bool :=
  match r with Ok _ => true | Err _ => false end.

Definition is_some {A} (o : option A) : bool :=
  match o with Some _ => true | None => false end.

(** [collect::<Result<Vec<_>, _>>()] over a mapped iterator: the first error
    wins and nothing after it is mapped. *)
Definition try_map {A B E} (f : A -> result B E) : list A -> result (list B) E :=
  fix go l :=
    match l with
    | [] => Ok []
    | a :: l' => let? b := f a in let? bs := go l' in Ok (b :: bs)
    end.

Lemma result_bind_Ok {A B E} (r : result A E) (k : A -> result B E) b :
  result_bind r k = Ok b <-> exists a, r = Ok a /\ k a = Ok b.
Proof. destruct r; simpl; naive_solver. Qed.

Lemma result_map_Ok {A B E} (f : A -> B) (r : result A E) b :
  result_map f r = Ok b <-> exists a, r = Ok a /\ b = f a.
Proof. destruct r; simpl; naive_solver. Qed.

Lemma ok_or_Ok {A E} (o : option A) (e : E) a : ok_or o e = Ok a <-> o = Some a.
Proof. destruct o; simpl; naive_solver. Qed.

Lemma try_map_Ok {A B E} (f : A -> result B E) l bs :
  try_map f l = Ok bs <-> Forall2 (fun a b => f a = Ok b) l bs.
Proof.
  revert bs; induction l as [|a l IH]; intros bs; simpl.
  - split; [intros [= <-]; constructor | by inversion 1].
  - setoid_rewrite result_bind_Ok. setoid_rewrite result_bind_Ok. split.
    + intros (b & Hb & bs' & Hbs & [= <-]). constructor; [done | by apply IH].
    + inversion 1; subst. eexists; split; [done|]. eexists; split; [by apply IH|done].
Qed.

(** ** Machine integers

    A machine integer is a [Z]; checked operations return [None] exactly when
    the mathematical result leaves the type's range. *)

Definition i64_min : Z := - 2 ^ 63.
Definition i64_max : Z := 2 ^ 63 - 1.
Definition u64_max : Z := 2 ^ 64 - 1.
(** The targets the code supports have a 64-bit [usize]. *)
Definition usize_max : Z := 2 ^ 64 - 1.

Definition in_i64 (z : Z) : bool := (i64_min <=? z) && (z <=? i64_max).
Definition i64_checked (z : Z) : option Z := if in_i64 z then Some z else None.
Definition u64_checked (z : Z) : option Z :=
  if (0 <=? z) && (z <=? u64_max) then Some z else None.
Definition usize_checked (z : Z) : option Z :=
  if (0 <=? z) && (z <=? usize_max) then Some z else None.
Definition u64_saturating_add (a b : Z) : Z := Z.min (a + b) u64_max.
Definition usize_saturating_add (a b : Z) : Z := Z.min (a + b) usize_max.
Definition usize_saturating_sub (a b : Z) : Z := Z.max (a - b) 0.

Lemma in_i64_spec z : in_i64 z = true <-> i64_min <= z <= i64_max.
Proof. unfold in_i64. rewrite andb_true_iff, !Z.leb_le. done. Qed.

Lemma i64_checked_Some z z' :
  i64_checked z = Some z' <-> z' = z /\ i64_min <= z <= i64_max.
Proof.
  unfold i64_checked. destruct (in_i64 z) eqn:E.
  - apply in_i64_spec in E. naive_solver.
  - split; [done|]. intros [_ H%in_i64_spec]. congruence.
Qed.

Lemma i64_checked_None z : i64_checked z = None <-> z < i64_min \/ i64_max < z.
Proof.
  unfold i64_checked. destruct (in_i64 z) eqn:E.
  - apply in_i64_spec in E. split; [done|lia].
  - split; [|done]. intros _. assert (~ (i64_min <= z <= i64_max)); [|lia].
    intros H%in_i64_spec. congruence.
Qed.

Lemma usize_checked_Some z z' :
  usize_checked z = Some z' <-> z' = z /\ 0 <= z <= usize_max.
Proof.
  unfold usize_checked. destruct ((0 <=? z) && (z <=? usize_max)) eqn:E.
  - apply andb_true_iff in E as [?%Z.leb_le ?%Z.leb_le]. naive_solver lia.
  - split; [done|]. intros [_ [?%Z.leb_le ?%Z.leb_le]].
    rewrite andb_false_iff in E. destruct E; congruence.
Qed.

(** ** Bytes and byte strings

    A [u8] is an [ascii] (eight bits); a [&[u8]] is a [list ascii]; a [&str]
    is a [string], whose characters are the bytes of its UTF-8 encoding. *)

Abbreviation byte := ascii.
Abbreviation bytes := (list ascii).

Definition bytes_of (s : string) : bytes := String.list_ascii_of_string s.
Definition str_of (b : bytes) : string := String.string_of_list_ascii b.

Definition byte_val (b : byte) : N := N_of_ascii b.
Definition byte_eqb (a b : byte) : bool := bool_decide (a = b).

(** [u8::is_ascii_control] and the other ASCII classes. *)
Definition is_ascii_control (b : byte) : bool :=
  ((byte_val b <? 32) || (byte_val b =? 127))%N.
Definition is_ascii_lowercase (b : byte) : bool :=
  ((97 <=? byte_val b) && (byte_val b <=? 122))%N.
Definition is_ascii_uppercase (b : byte) : bool :=
  ((65 <=? byte_val b) && (byte_val b <=? 90))%N.
Definition is_ascii_digit (b : byte) : bool :=
  ((48 <=? byte_val b) && (byte_val b <=? 57))%N.
Definition is_ascii_alphanumeric (b : byte) : bool :=
  is_ascii_lowercase b || is_ascii_uppercase b || is_ascii_digit b.

Lemma str_of_bytes_of s : str_of (bytes_of s) = s.
Proof. apply String.string_of_list_ascii_of_string. Qed.
Lemma bytes_of_str_of b : bytes_of (str_of b) = b.
Proof. apply String.list_ascii_of_string_of_list_ascii. Qed.

(** The length in bytes of a [&str] ([str::len]). *)
Definition str_len (s : string) : Z := Z.of_nat (String.length s).

(** Proves a closed statement about every byte by evaluating it on each. *)
Ltac by_all_bytes b := destruct b as [[] [] [] [] [] [] [] []]; vm_compute; done.

(** ** Slices: [starts_with], [contains], [ends_with], [split] and [windows] *)

Section Slices.
Context {A : Type} `{EqDecision A}.

Fixpoint starts_with (p l : list A) : bool :=
  match p, l with
  | [], _ => true
  | x :: p', y :: l' => bool_decide (x = y) && starts_with p' l'
  | _ :: _, [] => false
  end.

Definition ends_with (s l : list A) : bool := starts_with (reverse s) (reverse l).

Fixpoint contains (p l : list A) : bool :=
  starts_with p l || match l with [] => false | _ :: l' => contains p l' end.

(** [slice::split] / [str::split]: the pieces between separators, one more
    than there are separators. *)
Fixpoint split_by (sep : A -> bool) (l : list A) : list (list A) :=
  match l with
  | [] => [[]]
  | x :: l' =>
      if sep x then [] :: split_by sep l'
      else match split_by sep l' with
           | [] => [[x]]
           | piece :: rest => (x :: piece) :: rest
           end
  end.

(** [slice.windows(2).any(f)]. *)
Fixpoint any_pair (f : A -> A -> bool) (l : list A) : bool :=
  match l with
  | x :: ((y :: _) as l') => f x y || any_pair f l'
  | _ => false
  end.

Fixpoint take_while (f : A -> bool) (l : list A) : list A :=
  match l with
  | [] => []
  | x :: l' => if f x then x :: take_while f l' else []
  end.

Fixpoint drop_while (f : A -> bool) (l : list A) : list A :=
  match l with
  | [] => []
  | x :: l' => if f x then drop_while f l' else l
  end.

Lemma starts_with_spec p l : starts_with p l = true <-> p `prefix_of` l.
Proof.
  revert l; induction p as [|x p IH]; intros [|y l]; simpl.
  - split; [intros _; apply prefix_nil | done].
  - split; [intros _; apply prefix_nil | done].
  - split; [done | intros H; by apply prefix_nil_inv in H].
  - rewrite andb_true_iff, bool_decide_eq_true, IH. split.
    + intros [-> H]. by apply prefix_cons.
    + intros H. split; [by eapply prefix_cons_inv_1 | by eapply prefix_cons_inv_2].
Qed.

Lemma starts_with_app p l : starts_with p (p ++ l) = true.
Proof. apply starts_with_spec. by eexists. Qed.

Lemma contains_spec p l : contains p l = true <-> exists u v, l = u ++ p ++ v.
Proof.
  induction l as [|x l IH]; simpl.
  - rewrite orb_false_r, starts_with_spec. split.
    + intros [v Hv]. exists [], v. done.
    + intros (u & v & H). destruct u; simplify_eq/=. by exists v.
  - rewrite orb_true_iff, starts_with_spec, IH. split.
    + intros [[v Hv]|(u & v & ->)]; [exists [], v | exists (x :: u), v]; done.
    + intros (u & v & H). destruct u as [|y u]; simplify_eq/=.
      * left. by exists v.
      * right. eauto.
Qed.

Lemma any_pair_spec f l :
  any_pair f l = true <-> exists u x y v, l = u ++ x :: y :: v /\ f x y = true.
Proof.
  induction l as [|x l IH]; [split; [done|]|].
  { intros (u & ? & ? & ? & H & _). destruct u; done. }
  destruct l as [|y l].
  { split; [done|]. intros (u & ? & ? & ? & H & _). by destruct u as [|? [|]]. }
  change (any_pair f (x :: y :: l)) with (f x y || any_pair f (y :: l)).
  rewrite orb_true_iff, IH. split.
  - intros [H|(u & a & b & v & -> & H)].
    + by exists [], x, y, l.
    + by exists (x :: u), a, b, v.
  - intros (u & a & b & v & H & Hf). destruct u as [|z u]; simplify_eq/=; [by left|right].
    by exists u, a, b, v.
Qed.

Lemma split_by_nonempty sep l : split_by sep l <> [].
Proof. destruct l; simpl; [done|]. destruct (sep a); [done|]. by destruct (split_by sep l). Qed.

Lemma split_by_no_sep sep l :
  Forall (fun x => sep x = false) l -> split_by sep l = [l].
Proof. induction 1 as [|x l Hx Hl IH]; simpl; [done|]. by rewrite Hx, IH. Qed.

(** Splitting distributes over a separator. *)
Lemma split_by_app_sep sep l x r :
  sep x = true -> split_by sep (l ++ x :: r) = split_by sep l ++ split_by sep r.
Proof.
  intros Hx. induction l as [|y l IH]; simpl; [by rewrite Hx|].
  destruct (sep y); [by rewrite IH|]. rewrite IH.
  destruct (split_by sep l) eqn:E; [by apply split_by_nonempty in E | done].
Qed.

Lemma split_by_pieces sep l :
  Forall (Forall (fun x => sep x = false)) (split_by sep l).
Proof.
  induction l as [|x l IH]; simpl; [by repeat constructor|].
  destruct (sep x) eqn:E; [by repeat constructor|].
  destruct (split_by sep l); [by repeat constructor|].
  inversion IH; subst. repeat constructor; done.
Qed.

Lemma take_while_spec f l :
  Forall (fun x => f x = true) (take_while f l).
Proof. induction l; simpl; [done|]. destruct (f a) eqn:E; by repeat constructor. Qed.
End Slices.

(** Induction on the length of a list, for functions that consume several
    elements at a time. *)
Lemma list_length_ind {A} (P : list A -> Prop) :
  (forall l, (forall l', (length l' < length l)%nat -> P l') -> P l) -> forall l, P l.
Proof.
  intros H. assert (forall n l, (length l < n)%nat -> P l) as Hn; [|eauto].
  induction n as [|n IH]; intros l Hl; [lia|]. apply H. intros l' Hl'. apply IH. lia.
Qed.

Lemma existsb_False {A} (f : A -> bool) l :
  existsb f l = false <-> Forall (fun x => f x = false) l.
Proof.
  induction l as [|x l IH]; simpl; [done|].
  rewrite orb_false_iff, IH, Forall_cons. done.
Qed.

Create Rewrite HintDb krit_bool.
#[export] Hint Rewrite @andb_true_iff @orb_true_iff @negb_true_iff @orb_false_iff
  @negb_false_iff @bool_decide_eq_true @bool_decide_eq_false : krit_bool.

(** Splits a hypothesis or goal made of boolean connectives into facts. *)
Ltac bool_facts :=
  repeat match goal with
  | H : (_ && _)%bool = true |- _ => apply andb_true_iff in H as [? ?]
  | H : (_ || _)%bool = false |- _ => apply orb_false_iff in H as [? ?]
  | H : negb _ = true |- _ => apply negb_true_iff in H
  | H : negb _ = false |- _ => apply negb_false_iff in H
  | H : bool_decide _ = true |- _ => apply bool_decide_eq_true in H
  | H : bool_decide _ = false |- _ => apply bool_decide_eq_false in H
  end.

(** Turns boolean comparisons of integers into facts for [lia]. *)
Ltac z_facts :=
  repeat match goal with
  | H : (_ <=? _) = true |- _ => apply Z.leb_le in H
  | H : (_ <=? _) = false |- _ => apply Z.leb_gt in H
  | H : (_ <? _) = true |- _ => apply Z.ltb_lt in H
  | H : (_ <? _) = false |- _ => apply Z.ltb_ge in H
  | H : (_ =? _) = true |- _ => apply Z.eqb_eq in H
  | H : (_ =? _) = false |- _ => apply Z.eqb_neq in H
  end.
