(* ===== verification/Utf8.v ===== *)
(** * UTF-8

    Rust strings are UTF-8: the bytes of a [&str] are the concatenated
    encodings of its characters.  This file defines that encoding, used
    wherever a component's behaviour depends on a text being valid UTF-8, and
    the byte classes of a character's encoding. *)

From S2P Require Import Prelude.

(** A Unicode scalar value: a [char]. *)
Definition is_char (c : N) : bool :=
  ((c <? 0xD800) || ((0xE000 <=? c) && (c <? 0x110000)))%N.

Lemma is_char_bound c : is_char c = true -> (c < 0x110000)%N.
Proof.
  unfold is_char. rewrite orb_true_iff, andb_true_iff, !N.ltb_lt, N.leb_le. lia.
Qed.

Definition byte_of (n : N) : byte := ascii_of_N n.

Lemma byte_val_of n : (n < 256)%N -> byte_val (byte_of n) = n.
Proof. apply N_ascii_embedding. Qed.

Lemma byte_val_bound b : (byte_val b < 256)%N.
Proof. apply N_ascii_bounded. Qed.

Lemma byte_of_val b : byte_of (byte_val b) = b.
Proof. apply ascii_N_embedding. Qed.

Lemma byte_val_inj a b : byte_val a = byte_val b -> a = b.
Proof. intros H. rewrite <- (byte_of_val a), <- (byte_of_val b). by f_equal. Qed.

(** Decides a boolean property of every byte by evaluating it on all 256. *)
Lemma byte_forall (P : byte -> bool) :
  forallb P (map byte_of (map N.of_nat (seq 0 256))) = true -> forall b, P b = true.
Proof.
  intros H b. rewrite forallb_forall in H. apply H.
  rewrite <- (byte_of_val b). apply in_map. rewrite <- (N2Nat.id (byte_val b)).
  apply in_map, in_seq. pose proof (byte_val_bound b). lia.
Qed.

(** [lia] with division and remainder by constants. *)
Ltac divlia := zify; Z.to_euclidean_division_equations; lia.

(** [char::encode_utf8]. *)
Definition utf8_char (c : N) : bytes :=
  (if c <? 0x80 then [byte_of c]
   else if c <? 0x800 then [byte_of (0xC0 + c / 64); byte_of (0x80 + c mod 64)]
   else if c <? 0x10000 then
     [byte_of (0xE0 + c / 4096); byte_of (0x80 + (c / 64) mod 64); byte_of (0x80 + c mod 64)]
   else
     [byte_of (0xF0 + c / 262144); byte_of (0x80 + (c / 4096) mod 64);
      byte_of (0x80 + (c / 64) mod 64); byte_of (0x80 + c mod 64)])%N.

Definition utf8 (cs : list N) : bytes := flat_map utf8_char cs.

(** The invariant of [str]. *)
Definition valid_utf8 (b : bytes) : Prop :=
  exists cs, Forall (fun c => is_char c = true) cs /\ b = utf8 cs.

Lemma valid_utf8_nil : valid_utf8 [].
Proof. by exists []. Qed.

Lemma valid_utf8_app a b : valid_utf8 a -> valid_utf8 b -> valid_utf8 (a ++ b).
Proof.
  intros (ca & Ha & ->) (cb & Hb & ->). exists (ca ++ cb). split.
  - by apply Forall_app.
  - unfold utf8. by rewrite flat_map_app.
Qed.

(** ASCII text is valid UTF-8. *)
Lemma valid_utf8_ascii b : Forall (fun x => (byte_val x < 0x80)%N) b -> valid_utf8 b.
Proof.
  induction 1 as [|x b Hx _ IH]; [apply valid_utf8_nil|].
  change (x :: b) with ([x] ++ b). apply valid_utf8_app; [|done].
  exists [byte_val x]. unfold is_char, utf8, utf8_char; simpl.
  destruct (N.ltb_spec (byte_val x) 0x80); [|lia].
  rewrite byte_of_val. split; [|done]. constructor; [|done].
  destruct (N.ltb_spec (byte_val x) 0xD800); [done|lia].
Qed.

(** ** [String::from_utf8]

    The check of the standard library: the lead byte gives the length of a
    character and the range of the second byte, every later byte is a
    continuation. *)

Definition continuation (b : byte) : bool := ((0x80 <=? byte_val b) && (byte_val b <=? 0xBF))%N.

(** The second byte after a lead byte of three, and of four. *)
Definition second_of_three (a b : byte) : bool :=
  (continuation b && (negb (byte_val a =? 0xE0) || (0xA0 <=? byte_val b))
   && (negb (byte_val a =? 0xED) || (byte_val b <=? 0x9F)))%N.
Definition second_of_four (a b : byte) : bool :=
  (continuation b && (negb (byte_val a =? 0xF0) || (0x90 <=? byte_val b))
   && (negb (byte_val a =? 0xF4) || (byte_val b <=? 0x8F)))%N.

Fixpoint from_utf8 (text : bytes) : bool :=
  match text with
  | [] => true
  | a :: rest =>
      if (byte_val a <? 0x80)%N then from_utf8 rest
      else if ((0xC2 <=? byte_val a) && (byte_val a <=? 0xDF))%N then
        match rest with
        | b :: rest => continuation b && from_utf8 rest
        | _ => false
        end
      else if ((0xE0 <=? byte_val a) && (byte_val a <=? 0xEF))%N then
        match rest with
        | b :: c :: rest => second_of_three a b && continuation c && from_utf8 rest
        | _ => false
        end
      else if ((0xF0 <=? byte_val a) && (byte_val a <=? 0xF4))%N then
        match rest with
        | b :: c :: d :: rest =>
            second_of_four a b && continuation c && continuation d && from_utf8 rest
        | _ => false
        end
      else false
  end.

Ltac n_facts :=
  repeat match goal with
  | H : (_ && _)%bool = true |- _ => apply andb_true_iff in H as [? ?]
  | H : (_ && _)%bool = false |- _ => apply andb_false_iff in H
  | H : (_ || _)%bool = true |- _ => apply orb_true_iff in H
  | H : (_ <=? _)%N = true |- _ => apply N.leb_le in H
  | H : (_ <=? _)%N = false |- _ => apply N.leb_gt in H
  | H : (_ <? _)%N = true |- _ => apply N.ltb_lt in H
  | H : (_ <? _)%N = false |- _ => apply N.ltb_ge in H
  | H : negb _ = true |- _ => apply negb_true_iff in H
  | H : (_ =? _)%N = false |- _ => apply N.eqb_neq in H
  | H : _ \/ _ |- _ => destruct H
  end.

Ltac n_bool :=
  repeat first [apply andb_true_iff; split | apply (proj2 (N.leb_le _ _)) | apply (proj2 (N.ltb_lt _ _))].

Lemma continuation_of n : (0x80 <= n <= 0xBF)%N -> continuation (byte_of n) = true.
Proof. intros H. unfold continuation. rewrite byte_val_of by lia. n_bool; lia. Qed.

Ltac n_cases :=
  repeat match goal with
  | |- context [(?a <=? ?b)%N] => destruct (N.leb_spec a b); try lia
  | |- context [(?a <? ?b)%N] => destruct (N.ltb_spec a b); try lia
  | |- context [(?a =? ?b)%N] => destruct (N.eqb_spec a b); try lia
  end.

(** One character of two, three and four bytes. *)
Lemma from_utf8_two a b rest : (0xC2 <= a <= 0xDF)%N -> (0x80 <= b <= 0xBF)%N ->
  from_utf8 (byte_of a :: byte_of b :: rest) = from_utf8 rest.
Proof.
  intros Ha Hb. cbn [from_utf8]. rewrite continuation_of by done. rewrite byte_val_of by lia.
  n_cases; done.
Qed.

Lemma from_utf8_three a b c rest : (0xE0 <= a <= 0xEF)%N -> (0x80 <= b <= 0xBF)%N ->
  (0x80 <= c <= 0xBF)%N -> (a = 0xE0 -> 0xA0 <= b)%N -> (a = 0xED -> b <= 0x9F)%N ->
  from_utf8 (byte_of a :: byte_of b :: byte_of c :: rest) = from_utf8 rest.
Proof.
  intros Ha Hb Hc H1 H2. cbn [from_utf8]. unfold second_of_three. rewrite !continuation_of by done.
  rewrite !byte_val_of by lia. n_cases; done.
Qed.

Lemma from_utf8_four a b c d rest : (0xF0 <= a <= 0xF4)%N -> (0x80 <= b <= 0xBF)%N ->
  (0x80 <= c <= 0xBF)%N -> (0x80 <= d <= 0xBF)%N ->
  (a = 0xF0 -> 0x90 <= b)%N -> (a = 0xF4 -> b <= 0x8F)%N ->
  from_utf8 (byte_of a :: byte_of b :: byte_of c :: byte_of d :: rest) = from_utf8 rest.
Proof.
  intros Ha Hb Hc Hd H1 H2. cbn [from_utf8]. unfold second_of_four. rewrite !continuation_of by done.
  rewrite !byte_val_of by lia. n_cases; done.
Qed.

(** The check accepts the encoding of a character and goes on after it. *)
Lemma from_utf8_char c rest : is_char c = true -> from_utf8 (utf8_char c ++ rest) = from_utf8 rest.
Proof.
  intros Hc. pose proof (is_char_bound c Hc) as Hb. unfold is_char in Hc. apply orb_true_iff in Hc.
  unfold utf8_char. destruct (N.ltb_spec c 0x80); [|destruct (N.ltb_spec c 0x800);
    [|destruct (N.ltb_spec c 0x10000)]]; cbn [app].
  - cbn [from_utf8]. rewrite byte_val_of by lia. by destruct (N.ltb_spec c 0x80); [|lia].
  - apply from_utf8_two; divlia.
  - apply from_utf8_three; [divlia..|]. n_facts; divlia.
  - apply from_utf8_four; divlia.
Qed.

Lemma valid_utf8_char c rest : is_char c = true -> valid_utf8 rest -> valid_utf8 (utf8_char c ++ rest).
Proof. intros Hc (cs & Hcs & ->). exists (c :: cs). split; [by constructor|done]. Qed.

Lemma valid_utf8_cons c head rest :
  is_char c = true -> utf8_char c = head -> valid_utf8 rest -> valid_utf8 (head ++ rest).
Proof. intros Hc <-. by apply valid_utf8_char. Qed.

Lemma continuation_bounds b : continuation b = true -> (0x80 <= byte_val b <= 0xBF)%N.
Proof. unfold continuation. intros ?. n_facts. lia. Qed.

Lemma decode_two a b : (0xC2 <= byte_val a <= 0xDF)%N -> continuation b = true ->
  exists c, is_char c = true /\ utf8_char c = [a; b].
Proof.
  intros Ha Hb%continuation_bounds. exists ((byte_val a - 0xC0) * 64 + (byte_val b - 0x80))%N.
  set (c := (_ + _)%N). split; [unfold is_char, c; apply orb_true_iff; left; apply N.ltb_lt; lia|].
  unfold utf8_char. destruct (N.ltb_spec c 0x80); [unfold c in *; lia|].
  destruct (N.ltb_spec c 0x800); [|unfold c in *; lia].
  f_equal; [|f_equal]; rewrite <- byte_of_val; f_equal; unfold c; divlia.
Qed.

Lemma decode_three a b c : (0xE0 <= byte_val a <= 0xEF)%N -> second_of_three a b = true ->
  continuation c = true -> exists n, is_char n = true /\ utf8_char n = [a; b; c].
Proof.
  intros Ha Hb Hc%continuation_bounds. unfold second_of_three in Hb.
  apply andb_true_iff in Hb as [[Hb%continuation_bounds H1]%andb_true_iff H2].
  exists ((byte_val a - 0xE0) * 4096 + (byte_val b - 0x80) * 64 + (byte_val c - 0x80))%N.
  set (n := (_ + _)%N).
  assert (0x800 <= n < 0x10000 /\ ~ (0xD800 <= n < 0xE000))%N as [Hn Hs].
  { unfold n. destruct (N.eqb_spec (byte_val a) 0xE0), (N.eqb_spec (byte_val a) 0xED); simpl in H1, H2; n_facts; lia. }
  split; [unfold is_char; apply orb_true_iff; rewrite andb_true_iff, !N.ltb_lt, N.leb_le; lia|].
  unfold utf8_char. destruct (N.ltb_spec n 0x80); [lia|]. destruct (N.ltb_spec n 0x800); [lia|].
  destruct (N.ltb_spec n 0x10000); [|lia].
  f_equal; [|f_equal; [|f_equal]]; rewrite <- byte_of_val; f_equal; unfold n; divlia.
Qed.

Lemma decode_four a b c d : (0xF0 <= byte_val a <= 0xF4)%N -> second_of_four a b = true ->
  continuation c = true -> continuation d = true ->
  exists n, is_char n = true /\ utf8_char n = [a; b; c; d].
Proof.
  intros Ha Hb Hc%continuation_bounds Hd%continuation_bounds. unfold second_of_four in Hb.
  apply andb_true_iff in Hb as [[Hb%continuation_bounds H1]%andb_true_iff H2].
  exists ((byte_val a - 0xF0) * 262144 + (byte_val b - 0x80) * 4096 + (byte_val c - 0x80) * 64
          + (byte_val d - 0x80))%N.
  set (n := (_ + _)%N).
  assert (0x10000 <= n < 0x110000)%N as Hn.
  { unfold n. destruct (N.eqb_spec (byte_val a) 0xF0), (N.eqb_spec (byte_val a) 0xF4); simpl in H1, H2; n_facts; lia. }
  split; [unfold is_char; apply orb_true_iff; rewrite andb_true_iff, !N.ltb_lt, N.leb_le; lia|].
  unfold utf8_char. destruct (N.ltb_spec n 0x80); [lia|]. destruct (N.ltb_spec n 0x800); [lia|].
  destruct (N.ltb_spec n 0x10000); [lia|].
  f_equal; [|f_equal; [|f_equal; [|f_equal]]]; rewrite <- byte_of_val; f_equal; unfold n; divlia.
Qed.

(** [from_utf8] decides the invariant of [str]. *)
Lemma from_utf8_iff text : from_utf8 text = true <-> valid_utf8 text.
Proof.
  split.
  - remember (length text) as n eqn:Hn. revert text Hn.
    induction n as [n IH] using lt_wf_ind. intros text -> Hv.
    destruct text as [|a rest]; [apply valid_utf8_nil|]. cbn [from_utf8] in Hv.
    assert (forall l, (length l < length (a :: rest))%nat -> from_utf8 l = true -> valid_utf8 l) as IH'
      by (intros l Hl; by apply (IH (length l))). clear IH.
    destruct (N.ltb_spec (byte_val a) 0x80).
    { change (a :: rest) with ([a] ++ rest). apply valid_utf8_app; [|by apply IH'; [simpl; lia|]].
      apply valid_utf8_ascii. by constructor. }
    destruct (_ && _) eqn:E2 in Hv.
    { destruct rest as [|b rest]; [done|]. n_facts. destruct (decode_two a b) as (c & Hc & E); [done..|].
      apply (valid_utf8_cons c [a; b] rest Hc E), IH'; [simpl; lia|done]. }
    destruct (_ && _) eqn:E3 in Hv.
    { destruct rest as [|b [|c rest]]; [done..|]. apply andb_true_iff in E3 as [?%N.leb_le ?%N.leb_le].
      apply andb_true_iff in Hv as [[? ?]%andb_true_iff Hv].
      destruct (decode_three a b c) as (n & Hc & E); [done..|].
      apply (valid_utf8_cons n [a; b; c] rest Hc E), IH'; [simpl; lia|done]. }
    destruct (_ && _) eqn:E4 in Hv; [|done].
    destruct rest as [|b [|c [|d rest]]]; [done..|]. apply andb_true_iff in E4 as [?%N.leb_le ?%N.leb_le].
    apply andb_true_iff in Hv as [[[? ?]%andb_true_iff ?]%andb_true_iff Hv].
    destruct (decode_four a b c d) as (n & Hc & E); [done..|].
    apply (valid_utf8_cons n [a; b; c; d] rest Hc E), IH'; [simpl; lia|done].
  - intros (cs & Hcs & ->). induction Hcs as [|c cs Hc _ IH]; [done|].
    change (utf8 (c :: cs)) with (utf8_char c ++ utf8 cs). by rewrite from_utf8_char.
Qed.
