(* ===== verification/BTree.v ===== *)
(** * Ordered maps

    [std::collections::BTreeMap] as a list of bindings in strictly increasing
    key order, so that iteration order, [first], [range] and [keys] are the
    list's.  Keys are compared with Rust's derived [Ord], given as an instance
    of the class [Cmp]; the laws of a total order are the class [CmpOk]. *)

From S2P Require Import Prelude.

Class Cmp (K : Type) : Type := cmp : K -> K -> comparison.

Class CmpOk (K : Type) `{Cmp K} : Prop := {
  cmp_eq_iff : forall a b, cmp a b = Eq <-> a = b;
  cmp_antisym : forall a b, cmp b a = CompOpp (cmp a b);
  cmp_trans : forall a b c, cmp a b = Lt -> cmp b c = Lt -> cmp a c = Lt;
}.

(** ** Orders *)

#[export] Instance Cmp_Z : Cmp Z := Z.compare.
#[export] Instance CmpOk_Z : CmpOk Z.
Proof.
  split; unfold cmp, Cmp_Z.
  - apply Z.compare_eq_iff.
  - apply Z.compare_antisym.
  - intros a b c. rewrite !Z.compare_lt_iff. lia.
Qed.

#[export] Instance Cmp_N : Cmp N := N.compare.
#[export] Instance CmpOk_N : CmpOk N.
Proof.
  split; unfold cmp, Cmp_N.
  - apply N.compare_eq_iff.
  - apply N.compare_antisym.
  - intros a b c. rewrite !N.compare_lt_iff. lia.
Qed.

(** Lexicographic order of slices: a proper prefix orders first. *)
Fixpoint list_cmp {A} `{Cmp A} (a b : list A) : comparison :=
  match a, b with
  | [], [] => Eq
  | [], _ :: _ => Lt
  | _ :: _, [] => Gt
  | x :: a', y :: b' => match cmp x y with Eq => list_cmp a' b' | c => c end
  end.

#[export] Instance Cmp_list {A} `{Cmp A} : Cmp (list A) := list_cmp.

(** Lexicographic order of pairs. *)
#[export] Instance Cmp_prod {A B} `{Cmp A} `{Cmp B} : Cmp (A * B) :=
  fun p q => match cmp (fst p) (fst q) with Eq => cmp (snd p) (snd q) | c => c end.

(** Strings compare by their bytes. *)
#[export] Instance Cmp_byte : Cmp byte := fun a b => N.compare (byte_val a) (byte_val b).
#[export] Instance Cmp_string : Cmp string := fun a b => list_cmp (bytes_of a) (bytes_of b).

#[export] Instance CmpOk_byte : CmpOk byte.
Proof.
  split; unfold cmp, Cmp_byte.
  - intros a b. rewrite N.compare_eq_iff. split; [|by intros ->].
    intros H. rewrite <- (ascii_N_embedding a), <- (ascii_N_embedding b). by f_equal.
  - intros a b. apply N.compare_antisym.
  - intros a b c. rewrite !N.compare_lt_iff. lia.
Qed.

Section Lexicographic.
Context {A : Type} `{CmpOk A}.

Lemma cmp_refl (a : A) : cmp a a = Eq.
Proof. by apply cmp_eq_iff. Qed.

Lemma list_cmp_eq (a b : list A) : list_cmp a b = Eq <-> a = b.
Proof.
  revert b; induction a as [|x a IH]; intros [|y b]; simpl; try naive_solver.
  destruct (cmp x y) eqn:E.
  - apply cmp_eq_iff in E as ->. rewrite IH. naive_solver.
  - split; [done|]. intros [= <- <-]. by rewrite cmp_refl in E.
  - split; [done|]. intros [= <- <-]. by rewrite cmp_refl in E.
Qed.

Lemma list_cmp_antisym (a b : list A) : list_cmp b a = CompOpp (list_cmp a b).
Proof.
  revert b; induction a as [|x a IH]; intros [|y b]; simpl; try done.
  rewrite (cmp_antisym x y). destruct (cmp x y); simpl; auto.
Qed.

Lemma list_cmp_trans (a b c : list A) :
  list_cmp a b = Lt -> list_cmp b c = Lt -> list_cmp a c = Lt.
Proof.
  revert b c; induction a as [|x a IH]; intros [|y b] [|z c]; simpl; try done.
  destruct (cmp x y) eqn:E1; [apply cmp_eq_iff in E1 as ->| |done].
  - destruct (cmp y z); [by apply IH|done|done].
  - destruct (cmp y z) eqn:E2; [apply cmp_eq_iff in E2 as <-| |done]; intros _ _.
    + by rewrite E1.
    + by rewrite (cmp_trans x y z).
Qed.

#[global] Instance CmpOk_list : CmpOk (list A).
Proof. split; [apply list_cmp_eq | apply list_cmp_antisym | apply list_cmp_trans]. Qed.
End Lexicographic.

#[export] Instance CmpOk_string : CmpOk string.
Proof.
  split; unfold cmp, Cmp_string.
  - intros a b. rewrite list_cmp_eq. split; [|by intros ->].
    intros E. rewrite <- (str_of_bytes_of a), <- (str_of_bytes_of b). by f_equal.
  - intros a b. apply list_cmp_antisym.
  - intros a b c. apply list_cmp_trans.
Qed.

#[export] Instance CmpOk_prod {A B} `{CmpOk A} `{CmpOk B} : CmpOk (A * B).
Proof.
  split; unfold cmp, Cmp_prod.
  - intros [a1 b1] [a2 b2]; simpl. destruct (cmp a1 a2) eqn:E.
    + apply cmp_eq_iff in E as ->. rewrite cmp_eq_iff. naive_solver.
    + split; [done|]. intros [= <- <-]. by rewrite cmp_refl in E.
    + split; [done|]. intros [= <- <-]. by rewrite cmp_refl in E.
  - intros [a1 b1] [a2 b2]; simpl. rewrite (cmp_antisym a1 a2).
    destruct (cmp a1 a2); simpl; [apply cmp_antisym|done|done].
  - intros [a1 b1] [a2 b2] [a3 b3]; simpl.
    destruct (cmp a1 a2) eqn:E1; [apply cmp_eq_iff in E1 as ->| |done].
    + destruct (cmp a2 a3); [by apply cmp_trans|done|done].
    + destruct (cmp a2 a3) eqn:E2; [apply cmp_eq_iff in E2 as <-| |done]; intros _ _.
      * by rewrite E1.
      * by rewrite (cmp_trans a1 a2 a3).
Qed.

(** ** Operations *)

Abbreviation btree K V := (list (K * V)).

Section Operations.
Context {K : Type} `{Cmp K} {V : Type}.

Fixpoint bt_get (k : K) (m : btree K V) : option V :=
  match m with
  | [] => None
  | (k', v) :: m' => match cmp k k' with Lt => None | Eq => Some v | Gt => bt_get k m' end
  end.

Fixpoint bt_insert (k : K) (v : V) (m : btree K V) : btree K V :=
  match m with
  | [] => [(k, v)]
  | (k', v') :: m' =>
      match cmp k k' with
      | Lt => (k, v) :: m
      | Eq => (k, v) :: m'
      | Gt => (k', v') :: bt_insert k v m'
      end
  end.

Fixpoint bt_remove (k : K) (m : btree K V) : btree K V :=
  match m with
  | [] => []
  | (k', v') :: m' =>
      match cmp k k' with Lt => m | Eq => m' | Gt => (k', v') :: bt_remove k m' end
  end.

(** [entry(k).or_insert(v)]. *)
Definition bt_or_insert (k : K) (v : V) (m : btree K V) : btree K V :=
  match bt_get k m with Some _ => m | None => bt_insert k v m end.

Definition bt_keys (m : btree K V) : list K := map fst m.

(** [range((Bound::Excluded(k), Bound::Unbounded))]. *)
Definition bt_above (k : K) (m : btree K V) : btree K V :=
  List.filter (fun kv => match cmp k (fst kv) with Lt => true | _ => false end) m.

(** The invariant: strictly increasing keys. *)
Fixpoint bt_sorted (m : btree K V) : Prop :=
  match m with
  | [] => True
  | (k, _) :: m' => Forall (fun kv => cmp k (fst kv) = Lt) m' /\ bt_sorted m'
  end.
End Operations.

Section Facts.
Context {K : Type} `{CmpOk K} {V : Type}.
Implicit Types (k : K) (v : V) (m : btree K V).

Lemma cmp_lt_irrefl k : cmp k k <> Lt.
Proof. by rewrite cmp_refl. Qed.

Lemma cmp_gt_lt k k' : cmp k k' = Gt <-> cmp k' k = Lt.
Proof. rewrite (cmp_antisym k k'). by destruct (cmp k k'). Qed.

Lemma bt_get_In k v m : bt_sorted m -> bt_get k m = Some v <-> In (k, v) m.
Proof.
  induction m as [|[k' v'] m IH]; simpl; [done|]. intros [Hlt Hs].
  rewrite Forall_forall in Hlt. destruct (cmp k k') eqn:E.
  - apply cmp_eq_iff in E as ->. split; [intros [= ->]; by left|].
    intros [[= ->]|Hin]; [done|]. apply list_elem_of_In in Hin.
    specialize (Hlt _ Hin). by apply cmp_lt_irrefl in Hlt.
  - split; [done|]. intros [[= -> ->]|Hin]; [by apply cmp_lt_irrefl in E|].
    apply list_elem_of_In in Hin. specialize (Hlt _ Hin). simpl in Hlt.
    exfalso. apply (cmp_lt_irrefl k). by eapply cmp_trans.
  - rewrite IH by done. split; [by right|]. intros [[= -> ->]|]; [|done].
    by rewrite cmp_refl in E.
Qed.

Lemma bt_get_insert k v m k' :
  bt_sorted m -> bt_get k' (bt_insert k v m) = if decide (cmp k' k = Eq) then Some v else bt_get k' m.
Proof.
  induction m as [|[k1 v1] m IH]; simpl.
  - intros _. destruct (cmp k' k) eqn:E; case_decide; done.
  - intros [Hlt Hs]. specialize (IH Hs). destruct (cmp k k1) eqn:E1; simpl.
    + apply cmp_eq_iff in E1 as ->. destruct (cmp k' k1) eqn:E; case_decide; done.
    + destruct (cmp k' k) eqn:E; case_decide; try done.
      assert (cmp k' k1 = Lt) as ->; [by eapply cmp_trans|done].
    + rewrite IH. destruct (cmp k' k1) eqn:E; case_decide as D; try done.
      * apply cmp_eq_iff in E, D. subst. by rewrite cmp_refl in E1.
      * apply cmp_eq_iff in D as ->. congruence.
Qed.

Lemma bt_get_insert_eq k v m : bt_sorted m -> bt_get k (bt_insert k v m) = Some v.
Proof. intros Hs. rewrite bt_get_insert, decide_True by (done || apply cmp_refl). done. Qed.

Lemma bt_get_insert_ne k v m k' :
  bt_sorted m -> k' <> k -> bt_get k' (bt_insert k v m) = bt_get k' m.
Proof. intros Hs Hne. rewrite bt_get_insert, decide_False; [done| |done]. by rewrite cmp_eq_iff. Qed.

Lemma bt_insert_In k v m kv : In kv (bt_insert k v m) -> kv = (k, v) \/ In kv m.
Proof.
  induction m as [|[k1 v1] m IH]; simpl; [naive_solver|].
  destruct (cmp k k1); simpl; naive_solver.
Qed.

Lemma bt_insert_sorted k v m : bt_sorted m -> bt_sorted (bt_insert k v m).
Proof.
  induction m as [|[k1 v1] m IH]; simpl; [done|]. intros [Hlt Hs].
  destruct (cmp k k1) eqn:E; simpl.
  - by apply cmp_eq_iff in E as ->.
  - repeat split; try done. constructor; [done|]. eapply Forall_impl; [exact Hlt|].
    intros kv Hkv. by eapply cmp_trans.
  - split; [|by apply IH]. apply Forall_forall. intros kv Hin%list_elem_of_In%bt_insert_In.
    destruct Hin as [->|Hin]; [by apply cmp_gt_lt|].
    rewrite Forall_forall in Hlt. by apply Hlt, list_elem_of_In.
Qed.

Lemma bt_get_remove k m k' :
  bt_sorted m -> bt_get k' (bt_remove k m) = if decide (cmp k' k = Eq) then None else bt_get k' m.
Proof.
  assert (forall k m, Forall (fun kv => cmp k (fst kv) = Lt) m -> bt_get k m = None) as Hnone.
  { intros k0 [|[k1 v1] m1] Hf; [done|]. apply Forall_cons in Hf as [Hf _]. simpl in *. by rewrite Hf. }
  induction m as [|[k1 v1] m IH]; simpl.
  - intros _. by case_decide.
  - intros [Hlt Hs]. specialize (IH Hs). destruct (cmp k k1) eqn:E1; simpl.
    + apply cmp_eq_iff in E1 as ->. destruct (cmp k' k1) eqn:E; case_decide; try done.
      * apply cmp_eq_iff in E as ->. by apply Hnone.
      * apply Hnone. eapply Forall_impl; [exact Hlt|]. intros kv Hkv. by eapply cmp_trans.
    + case_decide as D; [|done]. apply cmp_eq_iff in D as ->. by rewrite E1.
    + rewrite IH. destruct (cmp k' k1) eqn:E; case_decide as D; try done.
      apply cmp_eq_iff in E, D. subst. by rewrite cmp_refl in E1.
Qed.

Lemma bt_remove_In k m kv : In kv (bt_remove k m) -> In kv m.
Proof.
  induction m as [|[k1 v1] m IH]; simpl; [done|]. destruct (cmp k k1); simpl; naive_solver.
Qed.

Lemma bt_remove_sorted k m : bt_sorted m -> bt_sorted (bt_remove k m).
Proof.
  induction m as [|[k1 v1] m IH]; simpl; [done|]. intros [Hlt Hs].
  destruct (cmp k k1); simpl; try done. split; [|by apply IH].
  apply Forall_forall. intros kv Hin%list_elem_of_In%bt_remove_In.
  rewrite Forall_forall in Hlt. by apply Hlt, list_elem_of_In.
Qed.

Lemma bt_or_insert_sorted k v m : bt_sorted m -> bt_sorted (bt_or_insert k v m).
Proof. unfold bt_or_insert. case_match; [done|]. apply bt_insert_sorted. Qed.

Lemma bt_get_or_insert k v m k' :
  bt_sorted m ->
  bt_get k' (bt_or_insert k v m)
  = match bt_get k' m with
    | Some v' => Some v'
    | None => if decide (cmp k' k = Eq) then Some v else None
    end.
Proof.
  intros Hs. unfold bt_or_insert. destruct (bt_get k m) eqn:E.
  - destruct (bt_get k' m) eqn:E'; [done|]. case_decide as D; [|done].
    apply cmp_eq_iff in D. congruence.
  - rewrite bt_get_insert by done. case_decide as D.
    + apply cmp_eq_iff in D as ->. by rewrite E.
    + by destruct (bt_get k' m).
Qed.

(** The first binding has the least key. *)
Lemma bt_first_least k v m k' v' :
  bt_sorted ((k, v) :: m) -> bt_get k' ((k, v) :: m) = Some v' -> k' = k \/ cmp k k' = Lt.
Proof.
  intros Hs Hg. apply bt_get_In in Hg; [|done]. destruct Hg as [[= -> ->]|Hin]; [by left|right].
  destruct Hs as [Hlt _]. rewrite Forall_forall in Hlt.
  apply (Hlt (k', v')). by apply list_elem_of_In.
Qed.

Lemma bt_sorted_NoDup m : bt_sorted m -> NoDup (bt_keys m).
Proof.
  induction m as [|[k v] m IH]; simpl; [constructor|]. intros [Hlt Hs].
  constructor; [|by apply IH]. intros Hin. apply list_elem_of_fmap in Hin as ([k' v'] & -> & Hin).
  rewrite Forall_forall in Hlt. specialize (Hlt _ Hin). by apply cmp_lt_irrefl in Hlt.
Qed.

(** A map is determined by its entries. *)
Lemma bt_sorted_perm m1 m2 : bt_sorted m1 -> bt_sorted m2 -> m1 ≡ₚ m2 -> m1 = m2.
Proof.
  revert m2. induction m1 as [|[k v] m1 IH]; intros m2 H1 H2 Hp; [by apply Permutation_nil in Hp|].
  destruct m2 as [|[k' v'] m2]; [by symmetry in Hp; apply Permutation_nil in Hp|].
  destruct H1 as [Hlt1 Hs1], H2 as [Hlt2 Hs2]. rewrite Forall_forall in Hlt1, Hlt2.
  assert ((k, v) = (k', v')) as E.
  { assert ((k, v) ∈ (k', v') :: m2) as Hin by (rewrite <- Hp; by left).
    apply elem_of_cons in Hin as [|Hin]; [done|]. specialize (Hlt2 _ Hin). simpl in Hlt2.
    assert ((k', v') ∈ (k, v) :: m1) as Hin' by (rewrite Hp; by left).
    apply elem_of_cons in Hin' as [|Hin']; [done|]. specialize (Hlt1 _ Hin'). simpl in Hlt1.
    rewrite cmp_antisym, Hlt1 in Hlt2. done. }
  rewrite E in *. f_equal. apply IH; [done|done|]. by apply Permutation_cons_inv in Hp.
Qed.

Lemma bt_insert_fresh k v m : bt_sorted m -> bt_get k m = None -> bt_insert k v m ≡ₚ (k, v) :: m.
Proof.
  induction m as [|[k1 v1] m IH]; simpl; [done|]. intros [Hlt Hs]. destruct (cmp k k1) eqn:E; [done|done|].
  intros Hg. rewrite IH by done. apply Permutation_swap.
Qed.

(** Inserting the entries of a list one by one. *)
Definition bt_extend (l : list (K * V)) (m : btree K V) : btree K V :=
  fold_left (fun m '(k, v) => bt_insert k v m) l m.

Lemma bt_extend_sorted l m : bt_sorted m -> bt_sorted (bt_extend l m).
Proof.
  unfold bt_extend. revert m. induction l as [|[k v] l IH]; intros m Hs; simpl; [done|].
  by apply IH, bt_insert_sorted.
Qed.

Lemma bt_extend_fresh l m :
  bt_sorted m -> NoDup (map fst l) -> (forall k, k ∈ map fst l -> bt_get k m = None) ->
  bt_extend l m ≡ₚ l ++ m.
Proof.
  unfold bt_extend. revert m. induction l as [|[k v] l IH]; intros m Hs Hd Hf; simpl; [done|].
  rewrite map_cons in Hd, Hf. apply NoDup_cons in Hd as [Hn Hd]. rewrite IH.
  - rewrite bt_insert_fresh by (done || (apply Hf; by left)). by rewrite Permutation_middle.
  - by apply bt_insert_sorted.
  - done.
  - intros k' Hk'. rewrite bt_get_insert_ne; [apply Hf; by right|done|]. by intros ->.
Qed.

Lemma bt_extend_nil l : NoDup (map fst l) -> bt_extend l [] ≡ₚ l.
Proof. intros Hd. rewrite bt_extend_fresh by done. by rewrite app_nil_r. Qed.
End Facts.

#[export] Hint Resolve bt_insert_sorted bt_remove_sorted bt_or_insert_sorted : krit.
