(* ===== verification/Sorting.v ===== *)
(** * Sorting

    [slice::sort] over the orders of [BTree], [Vec::dedup], and the search of
    a pair of neighbours; shared by the manifest and the permissions. *)

From S2P Require Import Prelude BTree.

#[export] Instance Cmp_option {A} `{Cmp A} : Cmp (option A) :=
  fun a b => match a, b with
  | None, None => Eq
  | None, Some _ => Lt
  | Some _, None => Gt
  | Some x, Some y => cmp x y
  end.

#[export] Instance CmpOk_option {A} `{CmpOk A} : CmpOk (option A).
Proof.
  split; unfold cmp, Cmp_option.
  - intros [a|] [b|]; [rewrite cmp_eq_iff|..]; naive_solver.
  - intros [a|] [b|]; [apply cmp_antisym|done..].
  - intros [a|] [b|] [c|]; try done. apply cmp_trans.
Qed.

Section Sort.
Context {A : Type} `{CmpOk A}.
Implicit Types (a b : A) (l : list A).

Definition cmp_le a b : Prop := cmp a b <> Gt.
#[global] Instance cmp_le_dec a b : Decision (cmp_le a b).
Proof. unfold cmp_le. destruct (cmp a b); [left|left|right]; auto. Defined.

Definition sort l : list A := merge_sort cmp_le l.

(** [dedup]: drops each element equal to the one before it. *)
Fixpoint dedup (eqb : A -> A -> bool) l : list A :=
  match l with
  | a :: ((b :: _) as l') => if eqb a b then dedup eqb l' else a :: dedup eqb l'
  | l => l
  end.

(** [windows(2).find(..)]. *)
Fixpoint find_pair (f : A -> A -> bool) l : option (A * A) :=
  match l with
  | a :: ((b :: _) as l') => if f a b then Some (a, b) else find_pair f l'
  | _ => None
  end.

#[global] Instance cmp_le_trans : Transitive cmp_le.
Proof.
  intros a b c. unfold cmp_le. intros Hab Hbc.
  destruct (cmp a b) eqn:E1; [apply cmp_eq_iff in E1 as ->; done| |done].
  destruct (cmp b c) eqn:E2; [apply cmp_eq_iff in E2 as ->; by rewrite E1| |done].
  by rewrite (cmp_trans a b c).
Qed.
#[global] Instance cmp_le_total : Total cmp_le.
Proof. intros a b. unfold cmp_le. rewrite (cmp_antisym a b). destruct (cmp a b); [left|left|right]; done. Qed.
#[global] Instance cmp_le_antisym : AntiSymm (=) cmp_le.
Proof.
  intros a b. unfold cmp_le. rewrite (cmp_antisym a b). intros H1 H2. apply cmp_eq_iff.
  by destruct (cmp a b).
Qed.

Lemma sort_perm l : sort l ≡ₚ l.
Proof. apply merge_sort_Permutation. Qed.
Lemma sort_sorted l : StronglySorted cmp_le (sort l).
Proof. apply StronglySorted_merge_sort; apply _. Qed.
(** A sorted list is determined by its elements. *)
Lemma sort_unique l1 l2 : l1 ≡ₚ l2 -> sort l1 = sort l2.
Proof.
  intros HP. apply (StronglySorted_unique cmp_le); [apply sort_sorted..|]. by rewrite !sort_perm.
Qed.
Lemma elem_of_sort a l : a ∈ sort l <-> a ∈ l.
Proof. by rewrite sort_perm. Qed.

Section Dedup.
Context (eqb : A -> A -> bool) (Heqb : forall a b, eqb a b = true <-> a = b).

Lemma dedup_cons a b l : dedup eqb (a :: b :: l) = if eqb a b then dedup eqb (b :: l) else a :: dedup eqb (b :: l).
Proof. done. Qed.

Lemma elem_of_dedup a l : a ∈ dedup eqb l <-> a ∈ l.
Proof using All.
  induction l as [|b [|c l] IH]; [done|done|]. rewrite dedup_cons. destruct (eqb b c) eqn:E.
  - apply Heqb in E as ->. rewrite IH, !elem_of_cons. naive_solver.
  - rewrite (elem_of_cons (dedup _ _)), IH. by rewrite (elem_of_cons (c :: l) a b).
Qed.

(** In a sorted list equal elements are neighbours. *)
Lemma dedup_NoDup l : StronglySorted cmp_le l -> NoDup (dedup eqb l).
Proof using All.
  induction l as [|b [|c l] IH]; intros HS; [constructor|apply NoDup_singleton|].
  rewrite dedup_cons. inversion_clear HS as [|? ? HS' HF]. destruct (eqb b c) eqn:E; [by apply IH|].
  apply NoDup_cons. split; [|by apply IH]. rewrite elem_of_dedup. intros Hin.
  apply elem_of_cons in Hin as [->|Hin]; [by rewrite (proj2 (Heqb c c)) in E|].
  inversion_clear HF as [|? ? Hbc _]. inversion_clear HS' as [|? ? _ HF'].
  rewrite Forall_forall in HF'. specialize (HF' b).
  assert (b = c) as -> by (apply (anti_symm cmp_le); auto). by rewrite (proj2 (Heqb c c)) in E.
Qed.

Lemma dedup_sorted l : StronglySorted cmp_le l -> StronglySorted cmp_le (dedup eqb l).
Proof using All.
  induction l as [|b [|c l] IH]; intros HS; [done|done|]. rewrite dedup_cons.
  inversion_clear HS as [|? ? HS' HF]. destruct (eqb b c); [by apply IH|].
  constructor; [by apply IH|]. apply Forall_forall. intros x Hx.
  rewrite Forall_forall in HF. apply HF. by apply elem_of_dedup.
Qed.
End Dedup.

Lemma find_pair_None f l : find_pair f l = None <->
  forall i a b, l !! i = Some a -> l !! S i = Some b -> f a b = false.
Proof.
  induction l as [|a [|b l] IH]; [done| |].
  - split; [intros _ [|i] ? ? [=]; done|done].
  - cbn [find_pair]. destruct (f a b) eqn:E.
    + split; [done|]. intros Hall. by rewrite (Hall 0%nat a b) in E.
    + fold (find_pair f (b :: l)). rewrite IH. split.
      * intros Hall [|i] x y; cbn; [by intros [= <-] [= <-]|]. apply (Hall i).
      * intros Hall i x y. apply (Hall (S i)).
Qed.
End Sort.
