(* ===== verification/RuntimeErrors.v ===== *)
(** * Errors of the host

    Models [krit-runtime/src/error.rs]: the kinds of runtime errors and the
    constructors the modelled parts use. *)

From S2P Require Import Prelude.

Inductive RuntimeErrorKind : Type :=
| InvalidArtifact | DigestMismatch | Authorization | ImportMismatch | FuelExhausted
| DeadlineExceeded | Cancelled | ResourceLimit | HostCallLimit | OutputLimit | DivisionByZero
| IntegerOverflow | InvalidJson | GuestTrap | RuntimeSetup | KindDurableState | StateConflict
| KindReplay | DurableIdempotency | Delivery | KindDatabase | DatabaseTransaction | DatabaseLimit
| KindCache | KindCacheLimit | KindCacheUnavailable | KindSearch.

(** The log events an error carries are attached when an invocation ends. *)
Record RuntimeError : Type := mkRuntimeError {
  runtime_code : string;
  runtime_kind : RuntimeErrorKind;
  runtime_message : string;
}.

Definition authorization (message : string) : RuntimeError :=
  mkRuntimeError "K5001" Authorization message.
Definition durable_state (message : string) : RuntimeError :=
  mkRuntimeError "K5201" KindDurableState message.
Definition state_conflict (message : string) : RuntimeError :=
  mkRuntimeError "K5202" StateConflict message.
Definition runtime_replay (message : string) : RuntimeError :=
  mkRuntimeError "K5203" KindReplay message.
Definition delivery (message : string) : RuntimeError :=
  mkRuntimeError "K5205" Delivery message.
Definition durable_idempotency (message : string) : RuntimeError :=
  mkRuntimeError "K5204" DurableIdempotency message.
Definition import_mismatch (message : string) : RuntimeError :=
  mkRuntimeError "K5002" ImportMismatch message.
(** Only identifiers are named, never the bytes of the secret. *)
Definition unbound_secret (secret origin : string) : RuntimeError :=
  mkRuntimeError "K5006" Authorization
    ("secret `" +:+ secret +:+ "` is not bound to origin `" +:+ origin +:+ "`").
Definition resource_error (message : string) : RuntimeError :=
  mkRuntimeError "K5103" ResourceLimit message.
Definition setup_error (message : string) : RuntimeError :=
  mkRuntimeError "K7003" RuntimeSetup message.

Definition map_err {A E F} (f : E -> F) (r : result A E) : result A F :=
  match r with Ok a => Ok a | Err e => Err (f e) end.

Definition guest_error (code message : string) : RuntimeError :=
  mkRuntimeError code
    (if bool_decide (code = "K4004") then DivisionByZero
     else if bool_decide (code = "K4005") then IntegerOverflow
     else if bool_decide (code = "K4009") then InvalidJson
     else GuestTrap) message.
