(* ===== verification/RequestTarget.v ===== *)
(** * Request paths and queries

    Models [krit-capability/src/request_target.rs]: the rule the host applies
    to every request path and query, and the percent-encoding builders
    [url_path_segment] and [url_query] use.

    Strings are the lists of bytes of their UTF-8 encoding. *)

From S2P Require Import Prelude Utf8.

Definition slash : byte := "/"%char.
Definition percent : byte := "%"%char.
Definition dot : byte := "."%char.

(** ** The path rule *)

Definition hex_digit (b : byte) : option N :=
  let n := byte_val b in
  (if (48 <=? n) && (n <=? 57) then Some (n - 48)
   else if (97 <=? n) && (n <=? 102) then Some (n - 97 + 10)
   else if (65 <=? n) && (n <=? 70) then Some (n - 65 + 10)
   else None)%N.

(** The byte a decoder reads for two hex digits: [(high << 4) | low]. *)
Definition hex_byte (high low : N) : byte := byte_of (N.lor (N.shiftl high 4) low).

(** [matches!(byte, b'.' | b'/' | b'\\') || byte.is_ascii_control()]. *)
Definition refused_escape (b : byte) : bool :=
  byte_eqb b dot || byte_eqb b slash || byte_eqb b "\" || is_ascii_control b.

(** [decode_segment]: [None] for the [false] the code returns, in which case
    its output buffer is not used. *)
Fixpoint decode_segment (segment : bytes) : option bytes :=
  match segment with
  | [] => Some []
  | b :: rest =>
      if negb (byte_eqb b percent) then cons b <$> decode_segment rest
      else match rest with
           | h :: l :: rest' =>
               match hex_digit h, hex_digit l with
               | Some high, Some low =>
                   let b := hex_byte high low in
                   if refused_escape b then None else cons b <$> decode_segment rest'
               | _, _ => None
               end
           | _ => None
           end
  end.

Definition is_ascii_space (b : byte) : bool :=
  bool_decide (b ∈ [" "; "009"; "010"; "012"; "013"]%char).

(** [<[u8]>::trim_ascii]. *)
Definition trim_ascii (b : bytes) : bytes :=
  reverse (drop_while is_ascii_space (reverse (drop_while is_ascii_space b))).

Definition ends_name (b : byte) : bool := bool_decide (b ∈ [";"; "?"; "#"]%char).

Definition is_dot_segment (decoded : bytes) : bool :=
  let name := from_option id [] (head (split_by ends_name decoded)) in
  bool_decide (trim_ascii name ∈ [[dot]; [dot; dot]]).

Definition begins_escape (b : byte) : bool :=
  is_some (hex_digit b) || bool_decide (b ∈ ["u"; "U"]%char).

Definition holds_escape (decoded : bytes) : bool :=
  any_pair (fun a b => byte_eqb a percent && begins_escape b) decoded.

(** The overlong forms of two bytes, the second read by its low six bits. *)
Definition overlong_pair (a b : byte) : bool :=
  let bits := N.land (byte_val b) 0x3F in
  (if byte_val a =? 0xE0 then bits <? 0x20
   else if byte_val a =? 0xF0 then bits <? 0x10
   else if byte_val a =? 0xF8 then bits <? 0x08
   else if byte_val a =? 0xFC then bits <? 0x04
   else false)%N.

Definition holds_overlong_utf8 (decoded : bytes) : bool :=
  existsb (fun b => (byte_val b =? 0xC0) || (byte_val b =? 0xC1))%N decoded
  || any_pair overlong_pair decoded.

Definition is_slash (b : byte) : bool := byte_eqb b slash.

Definition refused_segment (segment : bytes) : bool :=
  match decode_segment segment with
  | None => true
  | Some decoded =>
      is_dot_segment decoded || holds_escape decoded || holds_overlong_utf8 decoded
  end.

Definition has_traversal_form (path : bytes) : bool :=
  existsb refused_segment (split_by is_slash path).

(** The bytes no request target holds: control bytes and the listed ones. *)
Definition unsendable (listed : list byte) (b : byte) : bool :=
  is_ascii_control b || bool_decide (b ∈ listed).

Definition has_origin_form_shape (path : bytes) : bool :=
  starts_with [slash] path
  && negb (starts_with [slash; slash] path)
  && negb (contains [":"%char; slash; slash] path)
  && negb (existsb (unsendable [" "; "\"; "?"; "#"]%char) path).

Definition is_origin_form_path (path : bytes) : bool :=
  has_origin_form_shape path && negb (has_traversal_form path).

Definition is_valid_query (query : bytes) : bool :=
  negb (starts_with ["?"%char] query)
  && negb (existsb (unsendable [" "; "#"; "\"]%char) query).

(** ** The builders *)

Definition is_unreserved (b : byte) : bool :=
  is_ascii_alphanumeric b || bool_decide (b ∈ ["-"; "."; "_"; "~"]%char).

Definition HEX : bytes := bytes_of "0123456789ABCDEF".

Definition encode_byte (b : byte) : bytes :=
  if is_unreserved b then [b]
  else [percent;
        nth (N.to_nat (N.shiftr (byte_val b) 4)) HEX "0"%char;
        nth (N.to_nat (N.land (byte_val b) 0x0F)) HEX "0"%char].

(** Appends to [output], as the code's [&mut String] argument. *)
Definition percent_encode (text output : bytes) : bytes :=
  fold_left (fun out b => out ++ encode_byte b) text output.

Inductive PathSegmentError : Type :=
| SegmentEmpty
| SegmentForbiddenByte
| SegmentEscapeLike
| SegmentDotSegment.

#[export] Instance PathSegmentError_eq_dec : EqDecision PathSegmentError.
Proof. solve_decision. Defined.

Definition forbidden_byte (b : byte) : bool :=
  byte_eqb b slash || byte_eqb b "\" || is_ascii_control b.

Definition path_segment_check (text : bytes) : option PathSegmentError :=
  match text with
  | [] => Some SegmentEmpty
  | _ =>
      if existsb forbidden_byte text then Some SegmentForbiddenByte
      else if holds_escape text then Some SegmentEscapeLike
      else if is_dot_segment text then Some SegmentDotSegment
      else None
  end.

Definition path_segment_message (e : PathSegmentError) : string :=
  match e with
  | SegmentEmpty => "path segment is empty"
  | SegmentForbiddenByte => "path segment contains `/`, `\`, or an ASCII control character"
  | SegmentEscapeLike => "path segment contains `%` followed by a hex digit, `u`, or `U`"
  | SegmentDotSegment => "path segment reads as `.` or `..`"
  end.

Definition encode_path_segment (text : bytes) : result bytes PathSegmentError :=
  match path_segment_check text with
  | Some error => Err error
  | None => Ok (percent_encode text [])
  end.

(** The loop of [encode_query], from pair number [index]. *)
Fixpoint encode_query_from (index : nat) (pairs : list (bytes * bytes)) (query : bytes) : bytes :=
  match pairs with
  | [] => query
  | (name, value) :: rest =>
      let query := if Nat.ltb 0 index then query ++ ["&"%char] else query in
      let query := percent_encode name query in
      let query := query ++ ["="%char] in
      encode_query_from (S index) rest (percent_encode value query)
  end.

Definition encode_query (pairs : list (bytes * bytes)) : bytes :=
  encode_query_from 0 pairs [].

Example encode_path_segment_ex :
  encode_path_segment (bytes_of "a b;c") = Ok (bytes_of "a%20b%3Bc").
Proof. reflexivity. Qed.
Example encode_query_ex :
  encode_query [(bytes_of "a&b", bytes_of "c=d#e?"); (bytes_of "k", [])]
  = bytes_of "a%26b=c%3Dd%23e%3F&k=".
Proof. reflexivity. Qed.
Example refused_ex :
  map (fun s => is_origin_form_path (bytes_of s))
    ["/a/..%3B"; "/a/.%20/b"; "/a/%2e%2e"; "/a/%25%32%65"; "/%C0%AE"; "/a:b/c%3Fd"; "/a://b"]
  = [false; false; false; false; false; true; false].
Proof. reflexivity. Qed.

(** ** Encoding and decoding one text *)

Lemma percent_encode_app text output :
  percent_encode text output = output ++ flat_map encode_byte text.
Proof.
  unfold percent_encode. revert output; induction text as [|b text IH]; intros output; simpl.
  - by rewrite app_nil_r.
  - by rewrite IH, <- app_assoc.
Qed.

(** The bytes the encoding writes. *)
Definition encoded_byte (b : byte) : bool := is_unreserved b || byte_eqb b percent.

Lemma encode_byte_encoded b : forallb encoded_byte (encode_byte b) = true.
Proof. by_all_bytes b. Qed.

Lemma encode_byte_nonempty b : negb (Nat.eqb (length (encode_byte b)) 0) = true.
Proof. by_all_bytes b. Qed.

Lemma percent_encode_encoded text :
  Forall (fun b => encoded_byte b = true) (percent_encode text []).
Proof.
  rewrite percent_encode_app; simpl. induction text as [|b text IH]; simpl; [done|].
  apply Forall_app; split; [|done]. apply Forall_forall. intros x Hx.
  pose proof (encode_byte_encoded b) as H. rewrite forallb_forall in H.
  apply H. by apply list_elem_of_In.
Qed.

(** Decoding undoes the encoding of one byte, or refuses its escape. *)
Lemma decode_encode_byte b rest :
  decode_segment (encode_byte b ++ rest)
  = if forbidden_byte b then None else cons b <$> decode_segment rest.
Proof. destruct b as [[] [] [] [] [] [] [] []]; reflexivity. Qed.

Lemma decode_percent_encode text :
  decode_segment (percent_encode text [])
  = if existsb forbidden_byte text then None else Some text.
Proof.
  rewrite percent_encode_app; simpl. induction text as [|b text IH]; [done|].
  simpl. rewrite decode_encode_byte, IH. destruct (forbidden_byte b); [done|]. simpl.
  by destruct (existsb forbidden_byte text).
Qed.

(** Encoded text holds no byte that another class excludes. *)
Lemma encoded_none f text :
  (forall b, encoded_byte b && f b = false) -> existsb f (percent_encode text []) = false.
Proof.
  intros Hf. apply existsb_False. eapply Forall_impl; [apply percent_encode_encoded|].
  intros b Hb. specialize (Hf b). rewrite Hb in Hf. done.
Qed.

Lemma encoded_not_slash b : encoded_byte b && is_slash b = false.
Proof. by_all_bytes b. Qed.
Lemma encoded_not_colon b : encoded_byte b && byte_eqb ":" b = false.
Proof. by_all_bytes b. Qed.
Lemma encoded_sendable b : encoded_byte b && unsendable [" "; "\"; "?"; "#"]%char b = false.
Proof. by_all_bytes b. Qed.
Lemma encoded_query_sendable b : encoded_byte b && unsendable [" "; "#"; "\"]%char b = false.
Proof. by_all_bytes b. Qed.
Lemma encoded_not_separator b :
  encoded_byte b && (byte_eqb b "&" || byte_eqb b "=" || byte_eqb b "?") = false.
Proof. by_all_bytes b. Qed.

(** ** UTF-8 is never overlong *)

Lemma overlong_pair_other a b :
  (byte_val a <> 0xE0 -> byte_val a <> 0xF0 -> byte_val a <> 0xF8 -> byte_val a <> 0xFC ->
   overlong_pair a b = false)%N.
Proof.
  intros H1 H2 H3 H4. unfold overlong_pair.
  apply N.eqb_neq in H1, H2, H3, H4. by rewrite H1, H2, H3, H4.
Qed.

Lemma any_pair_cons_false {A} (f : A -> A -> bool) x l :
  (forall y, f x y = false) -> any_pair f (x :: l) = any_pair f l.
Proof. intros H. destruct l as [|y l]; [done|]. simpl. by rewrite H. Qed.

Lemma any_pair_cons2_false {A} (f : A -> A -> bool) x y l :
  f x y = false -> any_pair f (x :: y :: l) = any_pair f (y :: l).
Proof. intros H. simpl. by rewrite H. Qed.

Lemma N_land_63 n : N.land n 0x3F = (n mod 64)%N.
Proof. change 0x3F%N with (N.ones 6). by rewrite N.land_ones. Qed.

(** The lead byte of a character's encoding never begins an overlong form,
    whatever follows the character. *)
Lemma utf8_char_pairs c rest :
  is_char c = true -> any_pair overlong_pair (utf8_char c ++ rest) = any_pair overlong_pair rest.
Proof.
  unfold utf8_char. intros Hb%is_char_bound.
  assert (forall n l, (n < 0xC0)%N -> any_pair overlong_pair (byte_of n :: l) = any_pair overlong_pair l)
    as Hcont.
  { intros n l Hn. apply any_pair_cons_false. intros y.
    apply overlong_pair_other; rewrite byte_val_of; lia. }
  destruct (N.ltb_spec c 0x80); [simpl app; rewrite Hcont; [done|lia]|].
  destruct (N.ltb_spec c 0x800); [|destruct (N.ltb_spec c 0x10000)]; simpl app.
  - rewrite any_pair_cons_false, Hcont; [done|divlia|].
    intros y. apply overlong_pair_other; rewrite byte_val_of; divlia.
  - rewrite any_pair_cons2_false, !Hcont; [done|divlia|divlia|].
    unfold overlong_pair. rewrite N_land_63, !byte_val_of by divlia.
    repeat case_match; try done; try (apply N.ltb_ge); rewrite ?N.eqb_eq in *; divlia.
  - rewrite any_pair_cons2_false, !Hcont; [done|divlia|divlia|divlia|].
    unfold overlong_pair. rewrite N_land_63, !byte_val_of by divlia.
    repeat case_match; try done; try (apply N.ltb_ge); rewrite ?N.eqb_eq in *; divlia.
Qed.

Lemma utf8_char_no_c0_c1 c :
  is_char c = true ->
  existsb (fun b => (byte_val b =? 0xC0) || (byte_val b =? 0xC1))%N (utf8_char c) = false.
Proof.
  unfold utf8_char. intros Hb%is_char_bound.
  apply existsb_False.
  destruct (N.ltb_spec c 0x80); [|destruct (N.ltb_spec c 0x800);
    [|destruct (N.ltb_spec c 0x10000)]];
    repeat constructor; rewrite orb_false_iff, !N.eqb_neq, byte_val_of; divlia.
Qed.

Lemma utf8_not_overlong b : valid_utf8 b -> holds_overlong_utf8 b = false.
Proof.
  intros (cs & Hcs & ->). unfold holds_overlong_utf8, utf8.
  induction Hcs as [|c cs Hc Hcs IH]; [done|]. simpl.
  rewrite existsb_app, utf8_char_no_c0_c1, utf8_char_pairs by done. simpl. done.
Qed.

(** ** The segment contract *)

Lemma percent_encode_nil text : percent_encode text [] = [] <-> text = [].
Proof.
  rewrite percent_encode_app; simpl. destruct text as [|b text]; [done|].
  simpl. pose proof (encode_byte_nonempty b) as H. by destruct (encode_byte b).
Qed.

Lemma split_slash_encoded text :
  split_by is_slash (percent_encode text []) = [percent_encode text []].
Proof.
  apply split_by_no_sep. apply existsb_False, encoded_none, encoded_not_slash.
Qed.

Lemma contains_none (x : byte) p l :
  existsb (byte_eqb x) l = false -> contains (x :: p) l = false.
Proof.
  intros H. apply not_true_is_false. rewrite contains_spec. intros (u & v & ->).
  rewrite existsb_app in H. simpl in H.
  rewrite orb_false_iff in H. destruct H as [_ H]. unfold byte_eqb in H at 1.
  by rewrite bool_decide_eq_true_2 in H.
Qed.

Lemma byte_eqb_sym a b : byte_eqb a b = byte_eqb b a.
Proof. unfold byte_eqb. by apply bool_decide_ext. Qed.

Lemma encoded_origin_shape text : has_origin_form_shape (slash :: percent_encode text []) = true.
Proof.
  pose proof (encoded_none is_slash text encoded_not_slash) as Hs.
  pose proof (encoded_none _ text encoded_sendable) as Hu.
  pose proof (encoded_none _ text encoded_not_colon) as Hc.
  unfold has_origin_form_shape. rewrite contains_none by done.
  destruct (percent_encode text []) as [|x l]; [done|].
  cbn [existsb] in Hs, Hu |- *. apply orb_false_iff in Hs as [Hx _], Hu as [Hu1 Hu2].
  rewrite Hu1, Hu2. unfold is_slash in Hx. rewrite byte_eqb_sym in Hx.
  unfold byte_eqb in Hx. simpl. by rewrite Hx.
Qed.

(** The verdict of the path rule on an encoded segment: decoding gives the
    text back, so the rule's checks are the builder's. *)
Lemma refused_encoded text :
  valid_utf8 text ->
  refused_segment (percent_encode text [])
  = existsb forbidden_byte text || holds_escape text || is_dot_segment text.
Proof.
  intros Hv. unfold refused_segment. rewrite decode_percent_encode.
  destruct (existsb forbidden_byte text); [done|].
  rewrite utf8_not_overlong by done. by destruct (holds_escape text), (is_dot_segment text).
Qed.

Lemma check_None text :
  valid_utf8 text ->
  path_segment_check text = None <->
  text <> [] /\ refused_segment (percent_encode text []) = false.
Proof.
  intros Hv. rewrite refused_encoded by done. unfold path_segment_check.
  destruct text as [|b text]; [naive_solver|].
  destruct (existsb _ _), (holds_escape _), (is_dot_segment _); naive_solver.
Qed.

Lemma origin_form_encoded text :
  is_origin_form_path (slash :: percent_encode text [])
  = negb (refused_segment (percent_encode text [])).
Proof.
  unfold is_origin_form_path, has_traversal_form. rewrite encoded_origin_shape.
  simpl. rewrite split_slash_encoded. simpl. by rewrite orb_false_r.
Qed.

Lemma encode_path_segment_Ok text segment : valid_utf8 text -> encode_path_segment text = Ok segment ->
  text <> [] /\ segment = percent_encode text [] /\ refused_segment segment = false.
Proof.
  intros Hv. unfold encode_path_segment. destruct (path_segment_check text) eqn:E; [done|]. intros [= <-].
  by apply check_None in E as [Hne Hr].
Qed.

(** C35: [url_path_segment] accepts a text exactly when it is not empty
    and the host's path rule accepts its percent-encoding as a segment, and
    the segment it returns decodes, once, to exactly that text. *)
Theorem encode_path_segment_contract text :
  valid_utf8 text ->
  match encode_path_segment text with
  | Ok segment =>
      text <> [] /\ segment = percent_encode text []
      /\ is_origin_form_path (slash :: segment) = true
      /\ decode_segment segment = Some text
  | Err error =>
      (error = SegmentEmpty <-> text = [])
      /\ (text <> [] -> is_origin_form_path (slash :: percent_encode text []) = false)
  end.
Proof.
  intros Hv. unfold encode_path_segment.
  destruct (path_segment_check text) as [error|] eqn:E.
  - split.
    + unfold path_segment_check in E. destruct text; [naive_solver|].
      repeat case_match; naive_solver.
    + intros Hne. rewrite origin_form_encoded. apply negb_false_iff.
      destruct (refused_segment (percent_encode text [])) eqn:R; [done|].
      assert (path_segment_check text = None) by by apply check_None. congruence.
  - apply check_None in E as [Hne Hr]; [|done].
    rewrite origin_form_encoded, Hr, decode_percent_encode.
    rewrite refused_encoded in Hr by done.
    apply orb_false_iff in Hr as [[Hf _]%orb_false_iff _]. by rewrite Hf.
Qed.

Lemma encode_path_segment_contract_witness :
  exists segment, encode_path_segment (bytes_of "a b;c") = Ok segment
  /\ decode_segment segment = Some (bytes_of "a b;c").
Proof.
  pose proof (encode_path_segment_contract (bytes_of "a b;c")) as H.
  eexists. split; [reflexivity|]. refine (proj2 (proj2 (proj2 (H _)))).
  apply valid_utf8_ascii. repeat constructor.
Defined.

(** ** Composing paths from accepted segments *)

Lemma existsb_app_false {A} (f : A -> bool) l r :
  existsb f (l ++ r) = false <-> existsb f l = false /\ existsb f r = false.
Proof. by rewrite existsb_app, orb_false_iff. Qed.

(** No scheme delimiter appears where a path is continued by a segment. *)
Lemma contains_scheme_join (P rest : bytes) s0 :
  contains [":"%char; slash; slash] P = false ->
  last P <> Some slash -> s0 <> slash ->
  contains [":"%char; slash; slash] (s0 :: rest) = false ->
  contains [":"%char; slash; slash] (P ++ slash :: s0 :: rest) = false.
Proof.
  intros HP Hlast Hs0 Hrest. induction P as [|x P IH]; [done|].
  cbn [contains app] in HP |- *. rewrite orb_false_iff in HP |- *. destruct HP as [Hx HP].
  destruct P as [|y [|z P]].
  - split; [|apply IH; done]. simpl. rewrite (bool_decide_eq_false_2 (slash = s0)) by congruence.
    by destruct (bool_decide _).
  - split; [|apply IH; done]. simpl. simpl in Hlast.
    rewrite (bool_decide_eq_false_2 (slash = y)) by congruence. by destruct (bool_decide _).
  - split; [exact Hx|]. apply IH; done.
Qed.

(** The path rule as separate conditions on a path [/q]. *)
Lemma origin_form_iff p :
  is_origin_form_path p = true <->
  exists q, p = slash :: q /\ head q <> Some slash
  /\ contains [":"%char; slash; slash] q = false
  /\ existsb (unsendable [" "; "\"; "?"; "#"]%char) q = false
  /\ existsb refused_segment (split_by is_slash q) = false.
Proof.
  unfold is_origin_form_path, has_origin_form_shape, has_traversal_form.
  rewrite !andb_true_iff, !negb_true_iff. split.
  - intros [[[[Hs Hss] Hc] Hu] Ht]. destruct p as [|x q]; [done|].
    simpl in Hs. rewrite andb_true_r in Hs. apply bool_decide_eq_true in Hs as <-.
    exists q. cbn [contains existsb] in Hc, Hu. rewrite orb_false_iff in Hc, Hu.
    repeat split; try tauto. intros Hq. by destruct q as [|y q]; simplify_eq/=.
  - intros (q & -> & Hq & Hc & Hu & Ht). repeat split.
    + destruct q as [|y q]; [done|]. simpl.
      rewrite (bool_decide_eq_false_2 (slash = y)); [done|].
      intros Hy. apply Hq. by rewrite Hy.
    + cbn [contains]. by rewrite Hc.
    + cbn [existsb]. by rewrite Hu.
    + exact Ht.
Qed.

Lemma encoded_head text : head (percent_encode text []) <> Some slash.
Proof.
  pose proof (encoded_none is_slash text encoded_not_slash) as Hs. intros H.
  destruct (percent_encode text []) as [|x l]; simplify_eq/=.
Qed.

(** A path is an accepted prefix continued by [/body]. *)
Lemma origin_form_join prefix body :
  prefix = [] \/ (is_origin_form_path prefix = true /\ last prefix <> Some slash) ->
  body <> [] -> head body <> Some slash ->
  contains [":"%char; slash; slash] body = false ->
  existsb (unsendable [" "; "\"; "?"; "#"]%char) body = false ->
  existsb refused_segment (split_by is_slash body) = false ->
  is_origin_form_path (prefix ++ slash :: body) = true.
Proof.
  intros HP Hne Hh Hc Hu Hr. apply origin_form_iff. destruct HP as [->|[HP Hlast]].
  { exists body. done. }
  apply origin_form_iff in HP as (q & -> & Hq & Hqc & Hqu & Hqr).
  exists (q ++ slash :: body). destruct body as [|s0 body]; [done|].
  rewrite split_by_app_sep, !existsb_app_false by done. repeat split; try done.
  - destruct q; [|done]. done.
  - apply contains_scheme_join; try done.
    + destruct q; [done|]. exact Hlast.
    + intros ->. done.
Qed.

Lemma contains_skip (x : byte) p l r :
  existsb (byte_eqb x) l = false -> contains (x :: p) (l ++ r) = contains (x :: p) r.
Proof.
  induction l as [|y l IH]; intros H; [done|]. cbn [existsb] in H.
  apply orb_false_iff in H as [Hy H]. cbn [contains app starts_with].
  unfold byte_eqb in Hy. by rewrite Hy, IH.
Qed.

(** An accepted segment, followed by an accepted path or by nothing, meets
    the conditions on a path's body. *)
Lemma encoded_body text suffix :
  refused_segment (percent_encode text []) = false ->
  suffix = [] \/ is_origin_form_path suffix = true ->
  contains [":"%char; slash; slash] (percent_encode text [] ++ suffix) = false
  /\ existsb (unsendable [" "; "\"; "?"; "#"]%char) (percent_encode text [] ++ suffix) = false
  /\ existsb refused_segment (split_by is_slash (percent_encode text [] ++ suffix)) = false.
Proof.
  intros Hr HS. pose proof (encoded_none _ text encoded_not_colon) as Hcol.
  pose proof (encoded_none _ text encoded_sendable) as Hu.
  rewrite contains_skip, existsb_app_false by done. destruct HS as [->|HS].
  - rewrite app_nil_r, split_slash_encoded. simpl. by rewrite Hr.
  - apply origin_form_iff in HS as (q & -> & _ & Hqc & Hqu & Hqr).
    rewrite split_by_app_sep, existsb_app_false, split_slash_encoded by done.
    cbn [contains existsb]. rewrite Hqu, Hqr, Hr, Hqc. simpl. done.
Qed.

(** A path built around an accepted segment is accepted: for a
    prefix that is empty or an accepted path not ending in [/], and a suffix
    that is empty or an accepted path, [prefix/segment suffix] passes the
    path rule, so untrusted text never changes the verdict on the rest. *)
Theorem accepted_segment_composes text segment prefix suffix :
  valid_utf8 text ->
  encode_path_segment text = Ok segment ->
  prefix = [] \/ (is_origin_form_path prefix = true /\ last prefix <> Some slash) ->
  suffix = [] \/ is_origin_form_path suffix = true ->
  is_origin_form_path (prefix ++ slash :: segment ++ suffix) = true.
Proof.
  intros Hv Henc HP HS. apply encode_path_segment_Ok in Henc as (Hne & -> & Hseg); [|done].
  destruct (encoded_body text suffix Hseg HS) as (Hc & Hu & Hr).
  assert (percent_encode text [] <> []) as Hn by by rewrite percent_encode_nil.
  pose proof (encoded_head text) as Hh.
  apply origin_form_join; try done; by destruct (percent_encode text []).
Qed.

Lemma accepted_segment_composes_witness :
  is_origin_form_path (bytes_of "/repos" ++ slash :: bytes_of "a%20b" ++ bytes_of "/issues") = true.
Proof.
  apply (accepted_segment_composes (bytes_of "a b")).
  - apply valid_utf8_ascii. repeat constructor.
  - reflexivity.
  - right. split; [reflexivity|discriminate].
  - right. reflexivity.
Defined.

(** ** What a server reads from an accepted path

    A reference server: it percent-decodes leniently (a malformed escape is
    left as it is), before or after splitting the path at [/], possibly twice,
    reads each segment's name whole, cut at [;], [?] or [#], or cut and
    trimmed, and resolves the names [.] and [..]. *)

Fixpoint lenient_decode (l : bytes) : bytes :=
  match l with
  | [] => []
  | b :: rest =>
      match rest with
      | h :: lo :: rest' =>
          match hex_digit h, hex_digit lo with
          | Some high, Some low =>
              if byte_eqb b percent then hex_byte high low :: lenient_decode rest'
              else b :: lenient_decode rest
          | _, _ => b :: lenient_decode rest
          end
      | _ => b :: lenient_decode rest
      end
  end.

Definition cut_name (segment : bytes) : bytes :=
  from_option id [] (head (split_by ends_name segment)).

Definition readers : list (bytes -> bytes) :=
  [id; cut_name; fun segment => trim_ascii (cut_name segment)].

Definition resolve_dots (reader : bytes -> bytes) (segments : list bytes) : list bytes :=
  fold_left
    (fun stack segment =>
       if bool_decide (reader segment = [dot]) then stack
       else if bool_decide (reader segment = [dot; dot]) then take (pred (length stack)) stack
       else stack ++ [segment])
    segments [].

Lemma lenient_decode_segment s d : decode_segment s = Some d -> lenient_decode s = d.
Proof.
  revert d. induction s as [s IH] using list_length_ind.
  intros d H. destruct s as [|b rest]; [by injection H|]. cbn [decode_segment lenient_decode] in H |- *.
  destruct (byte_eqb b percent) eqn:Hb; cbn [negb] in H.
  - destruct rest as [|h [|lo rest']]; [done..|].
    destruct (hex_digit h), (hex_digit lo); try done. destruct (refused_escape _); [done|].
    apply fmap_Some in H as (d' & Hd & ->). f_equal. apply IH; [simpl; lia|done].
  - apply fmap_Some in H as (d' & Hd & ->). apply IH in Hd as <-; [|simpl; lia].
    repeat case_match; done.
Qed.

Definition starts_escape (b : byte) (rest : bytes) : bool :=
  match rest with
  | h :: lo :: _ => byte_eqb b percent && is_some (hex_digit h) && is_some (hex_digit lo)
  | _ => false
  end.

Lemma lenient_decode_cons b rest :
  starts_escape b rest = false -> lenient_decode (b :: rest) = b :: lenient_decode rest.
Proof.
  intros H. cbn [lenient_decode]. destruct rest as [|h [|lo rest]]; [done..|].
  cbn [starts_escape] in H. destruct (hex_digit h), (hex_digit lo); try done.
  simpl in H. rewrite !andb_true_r in H. by rewrite H.
Qed.

Lemma lenient_decode_slash a r :
  lenient_decode (a ++ slash :: r) = lenient_decode a ++ slash :: lenient_decode r.
Proof.
  assert (lenient_decode (slash :: r) = slash :: lenient_decode r) as Hslash.
  { apply lenient_decode_cons. by destruct r as [|? [|]]. }
  induction a as [a IH] using list_length_ind.
  destruct a as [|b [|h [|lo a]]]; [exact Hslash| | |].
  - simpl app. rewrite lenient_decode_cons, Hslash; [done|]. destruct r; [done|]. simpl.
    change (hex_digit slash) with (@None N). by rewrite andb_false_r.
  - simpl app. rewrite lenient_decode_cons.
    + change (h :: slash :: r) with ([h] ++ slash :: r). by rewrite IH by (simpl; lia).
    + cbn [starts_escape]. change (hex_digit slash) with (@None N). by rewrite andb_false_r.
  - change ((b :: h :: lo :: a) ++ slash :: r) with (b :: (h :: lo :: a) ++ slash :: r).
    destruct (starts_escape b (h :: lo :: a)) eqn:E.
    + cbn [starts_escape] in E. bool_facts. cbn [lenient_decode app].
      destruct (hex_digit h), (hex_digit lo); try done. case_match; [|congruence].
      by rewrite IH by (simpl; lia).
    + rewrite !lenient_decode_cons by done. by rewrite IH by (simpl; lia).
Qed.

Lemma any_pair_cons2 {A} (f : A -> A -> bool) x y l :
  any_pair f (x :: y :: l) = f x y || any_pair f (y :: l).
Proof. done. Qed.

Lemma lenient_decode_id l : holds_escape l = false -> lenient_decode l = l.
Proof.
  unfold holds_escape. induction l as [|b [|h l] IH]; [done..|].
  rewrite any_pair_cons2. intros [Hb H]%orb_false_iff.
  rewrite lenient_decode_cons, IH; [done..|]. unfold starts_escape, begins_escape in *.
  destruct l; [done|]. destruct (hex_digit h); simpl in *; [|by rewrite andb_false_r].
  rewrite andb_true_r in Hb |- *. by rewrite Hb.
Qed.

(** A list has no separator, or is split at its first one. *)
Lemma split_first {A} (sep : A -> bool) l :
  Forall (fun x => sep x = false) l
  \/ exists s x r, l = s ++ x :: r /\ Forall (fun x => sep x = false) s /\ sep x = true.
Proof.
  induction l as [|y l IH]; [by left|]. destruct (sep y) eqn:E.
  - right. exists [], y, l. by repeat constructor.
  - destruct IH as [IH|(s & x & r & -> & Hs & Hx)]; [left; by constructor|].
    right. exists (y :: s), x, r. by repeat constructor.
Qed.

Lemma holds_escape_slash a r :
  holds_escape (a ++ slash :: r) = holds_escape a || holds_escape r.
Proof.
  unfold holds_escape. induction a as [|x [|y a] IH].
  - simpl app. by rewrite any_pair_cons_false.
  - simpl app. rewrite any_pair_cons2, any_pair_cons_false by done. simpl.
    by rewrite andb_false_r.
  - simpl app in *. rewrite !any_pair_cons2, IH. by rewrite orb_assoc.
Qed.

(** What acceptance says of one segment: it decodes, to bytes that hold no
    separator, backslash, control byte or escape, and its name is no dot
    segment. *)
Lemma decode_segment_clean s d :
  decode_segment s = Some d ->
  Forall (fun b => is_slash b = false) s ->
  existsb (unsendable [" "; "\"; "?"; "#"]%char) s = false ->
  Forall (fun b => forbidden_byte b = false) d.
Proof.
  revert d. induction s as [s IH] using list_length_ind.
  intros d H Hs Hu. destruct s as [|b rest]; [injection H as <-; constructor|].
  cbn [decode_segment existsb] in H, Hu. apply orb_false_iff in Hu as [Hb Hu].
  apply Forall_cons in Hs as [Hsl Hs].
  destruct (byte_eqb b percent) eqn:Hp; cbn [negb] in H.
  - destruct rest as [|h [|lo rest']]; [done..|].
    destruct (hex_digit h) as [high|], (hex_digit lo) as [low|]; try done.
    destruct (refused_escape (hex_byte high low)) eqn:Hr; [done|].
    apply fmap_Some in H as (d' & Hd & ->). cbn [existsb] in Hu. rewrite !orb_false_iff in Hu.
    constructor; [|apply (IH rest'); [simpl; lia|done|by do 2 apply Forall_inv_tail in Hs|tauto]].
    unfold refused_escape in Hr. unfold forbidden_byte. rewrite !orb_false_iff in Hr. rewrite !orb_false_iff.
    by destruct Hr as [[[_ ?] ?] ?].
  - apply fmap_Some in H as (d' & Hd & ->).
    constructor; [|apply (IH rest); [simpl; lia|done..]].
    unfold unsendable in Hb. unfold is_slash in Hsl. apply orb_false_iff in Hb as [Hc Hb].
    unfold forbidden_byte. rewrite Hsl, Hc. unfold byte_eqb.
    rewrite bool_decide_eq_false_2; [done|]. intros ->. by vm_compute in Hb.
Qed.

(** Induction over a path segment by segment. *)
Lemma path_segments_ind (P : bytes -> Prop) :
  (forall s, Forall (fun x => is_slash x = false) s -> P s) ->
  (forall s r, Forall (fun x => is_slash x = false) s -> P r -> P (s ++ slash :: r)) ->
  forall p, P p.
Proof.
  intros Hone Hcons. apply list_length_ind. intros p IH.
  destruct (split_first is_slash p) as [Hp|(s & x & r & -> & Hs & Hx)]; [by apply Hone|].
  unfold is_slash, byte_eqb in Hx. apply bool_decide_eq_true in Hx as ->.
  apply Hcons; [done|]. apply IH. rewrite length_app. simpl. lia.
Qed.

(** One segment of an accepted path, as the reference server reads it. *)
Definition clean_segment (s : bytes) : Prop :=
  Forall (fun b => forbidden_byte b = false) (lenient_decode s)
  /\ holds_escape (lenient_decode s) = false
  /\ is_dot_segment (lenient_decode s) = false.

Lemma accepted_segment_clean s :
  Forall (fun b => is_slash b = false) s ->
  existsb (unsendable [" "; "\"; "?"; "#"]%char) s = false ->
  refused_segment s = false -> clean_segment s.
Proof.
  unfold refused_segment. intros Hs Hu Hr. destruct (decode_segment s) as [d|] eqn:Hd; [|done].
  rewrite !orb_false_iff in Hr. unfold clean_segment.
  rewrite (lenient_decode_segment s d Hd). split; [by eapply decode_segment_clean|tauto].
Qed.

Lemma accepted_path_clean p :
  existsb (unsendable [" "; "\"; "?"; "#"]%char) p = false ->
  existsb refused_segment (split_by is_slash p) = false ->
  Forall clean_segment (split_by is_slash p).
Proof.
  induction p as [s Hs|s r Hs IH] using path_segments_ind.
  - rewrite split_by_no_sep by done. cbn [existsb]. rewrite orb_false_r. intros Hu Hr.
    constructor; [|constructor]. by apply accepted_segment_clean.
  - rewrite split_by_app_sep, !existsb_app_false by done.
    rewrite (split_by_no_sep _ s) by done. cbn [existsb]. rewrite orb_false_r.
    intros [Hu [_ Hur]%orb_false_iff] [Hr Hrr]. constructor; [|by apply IH].
    by apply accepted_segment_clean.
Qed.

Lemma forbidden_not_slash d :
  Forall (fun b => forbidden_byte b = false) d -> Forall (fun b => is_slash b = false) d.
Proof.
  intros H. eapply Forall_impl; [exact H|]. intros b. unfold forbidden_byte, is_slash.
  rewrite !orb_false_iff. tauto.
Qed.

(** Decoding a clean path and splitting it commute, a second decoding pass
    changes nothing, and no byte is forbidden. *)
Lemma clean_path_decode p :
  Forall clean_segment (split_by is_slash p) ->
  split_by is_slash (lenient_decode p) = map lenient_decode (split_by is_slash p)
  /\ holds_escape (lenient_decode p) = false
  /\ existsb (fun b => is_ascii_control b || byte_eqb b "\") (lenient_decode p) = false.
Proof.
  assert (forall d, Forall (fun b => forbidden_byte b = false) d ->
    existsb (fun b => is_ascii_control b || byte_eqb b "\") d = false) as Hbytes.
  { intros d Hd. apply existsb_False. eapply Forall_impl; [exact Hd|].
    intros b. unfold forbidden_byte. rewrite !orb_false_iff. tauto. }
  induction p as [s Hs|s r Hs IH] using path_segments_ind.
  - rewrite (split_by_no_sep _ s) by done. intros [(Hf & He & _) _]%Forall_cons.
    rewrite split_by_no_sep by by apply forbidden_not_slash. auto.
  - rewrite lenient_decode_slash, !split_by_app_sep, (split_by_no_sep _ s) by done.
    intros [(Hf & He & _) Hr]%Forall_cons. destruct (IH Hr) as (H1 & H2 & H3).
    rewrite H1, (split_by_no_sep _ (lenient_decode s)) by by apply forbidden_not_slash.
    rewrite holds_escape_slash, He, H2, existsb_app, Hbytes by done. cbn [existsb].
    by rewrite H3.
Qed.

Lemma reader_dot reader d :
  reader ∈ readers -> reader d = [dot] \/ reader d = [dot; dot] -> is_dot_segment d = true.
Proof.
  unfold readers. intros Hin Hd. unfold is_dot_segment. fold (cut_name d).
  apply bool_decide_eq_true. rewrite !elem_of_cons in *.
  destruct Hin as [->|[->|[->|Hin]]]; [| | |by apply not_elem_of_nil in Hin].
  - unfold id in Hd. destruct Hd as [->| ->]; [left|right; left]; reflexivity.
  - destruct Hd as [->| ->]; [left|right; left]; reflexivity.
  - destruct Hd as [->| ->]; [left|right; left]; reflexivity.
Qed.

Lemma resolve_dots_id reader ds :
  reader ∈ readers -> Forall (fun d => is_dot_segment d = false) ds -> resolve_dots reader ds = ds.
Proof.
  intros Hin Hds. unfold resolve_dots.
  assert (forall stack, fold_left
    (fun stack segment =>
       if bool_decide (reader segment = [dot]) then stack
       else if bool_decide (reader segment = [dot; dot]) then take (pred (length stack)) stack
       else stack ++ [segment]) ds stack = stack ++ ds) as H; [|by rewrite H].
  induction Hds as [|d ds Hd Hds IH]; intros stack; simpl; [by rewrite app_nil_r|].
  rewrite !bool_decide_eq_false_2.
  - rewrite IH, <- app_assoc. done.
  - intros E. rewrite (reader_dot reader d) in Hd; auto. done.
  - intros E. rewrite (reader_dot reader d) in Hd; auto. done.
Qed.

(** C34: An accepted path addresses exactly the resource it spells: for
    a server that percent-decodes it before or after splitting it at [/], once
    or twice, and that reads segment names whole, cut at a delimiter, or cut
    and trimmed, decoding yields the same segments either way, a second
    decoding pass and dot-segment resolution change nothing, and no decoded
    byte is a control byte or a backslash. *)
Theorem accepted_path_addresses_itself path reader :
  is_origin_form_path path = true ->
  reader ∈ readers ->
  let served := map lenient_decode (split_by is_slash path) in
  split_by is_slash (lenient_decode path) = served
  /\ lenient_decode (lenient_decode path) = lenient_decode path
  /\ resolve_dots reader served = served
  /\ existsb (fun b => is_ascii_control b || byte_eqb b "\") (lenient_decode path) = false.
Proof.
  intros (q & -> & _ & _ & Hu & Hr)%origin_form_iff Hin served.
  assert (Forall clean_segment (split_by is_slash (slash :: q))) as Hclean.
  { apply accepted_path_clean; cbn [existsb]; [by rewrite Hu|exact Hr]. }
  destruct (clean_path_decode _ Hclean) as (H1 & H2 & H3).
  split; [done|]. split; [by apply lenient_decode_id|]. split; [|done].
  apply resolve_dots_id; [done|]. unfold served. apply Forall_fmap.
  eapply Forall_impl; [exact Hclean|]. intros s (_ & _ & Hs). exact Hs.
Qed.

Lemma accepted_path_addresses_itself_witness :
  resolve_dots (fun segment => trim_ascii (cut_name segment))
    (map lenient_decode (split_by is_slash (bytes_of "/a%20b/..c;x/%3Fq")))
  = [[]; bytes_of "a b"; bytes_of "..c;x"; bytes_of "?q"].
Proof.
  refine (proj1 (proj2 (proj2 (accepted_path_addresses_itself
    (bytes_of "/a%20b/..c;x/%3Fq") (fun segment => trim_ascii (cut_name segment)) _ _)))).
  - reflexivity.
  - unfold readers. do 2 right. left.
Defined.

(** ** Queries *)

Lemma unreserved_not_percent b : negb (is_unreserved b && byte_eqb b percent) = true.
Proof. by_all_bytes b. Qed.

Lemma lenient_decode_encode_byte b rest :
  lenient_decode (encode_byte b ++ rest) = b :: lenient_decode rest.
Proof.
  unfold encode_byte. pose proof (unreserved_not_percent b) as Hp.
  destruct (is_unreserved b) eqn:E; simpl app.
  - apply lenient_decode_cons. apply negb_true_iff in Hp. simpl in Hp.
    destruct rest as [|? [|? ?]]; [done..|]. simpl. by rewrite Hp.
  - clear Hp. destruct b as [[] [] [] [] [] [] [] []]; first [discriminate E | reflexivity].
Qed.

Lemma lenient_decode_encode text : lenient_decode (percent_encode text []) = text.
Proof.
  rewrite percent_encode_app; simpl. induction text as [|b text IH]; [done|].
  simpl. by rewrite lenient_decode_encode_byte, IH.
Qed.

(** One [name=value] pair of a query. *)
Definition query_pair (pair : bytes * bytes) : bytes :=
  percent_encode (fst pair) [] ++ "="%char :: percent_encode (snd pair) [].

Lemma encode_query_from_S i pairs query :
  encode_query_from (S i) pairs query
  = query ++ flat_map (fun pair => "&"%char :: query_pair pair) pairs.
Proof.
  revert i query. induction pairs as [|[name value] pairs IH]; intros i query; simpl.
  - by rewrite app_nil_r.
  - rewrite IH. unfold query_pair. simpl. rewrite !percent_encode_app. simpl.
    by rewrite <- !app_assoc.
Qed.

Lemma encode_query_cons pair pairs :
  encode_query (pair :: pairs)
  = query_pair pair ++ flat_map (fun pair => "&"%char :: query_pair pair) pairs.
Proof.
  destruct pair as [name value]. unfold encode_query. simpl.
  rewrite encode_query_from_S. unfold query_pair. simpl. rewrite !percent_encode_app. simpl.
  by rewrite <- (app_assoc _ [_]).
Qed.

Definition is_ampersand (b : byte) : bool := byte_eqb b "&".
Definition is_equals (b : byte) : bool := byte_eqb b "=".

Lemma query_pair_no_ampersand pair : Forall (fun b => is_ampersand b = false) (query_pair pair).
Proof.
  assert (forall text, Forall (fun b => is_ampersand b = false) (percent_encode text [])) as H.
  { intros text. apply existsb_False, encoded_none. intros b.
    pose proof (encoded_not_separator b). destruct (encoded_byte b); [|done].
    simpl in *. rewrite !orb_false_iff in *. unfold is_ampersand. tauto. }
  apply Forall_app; split; [apply H|]. constructor; [done|apply H].
Qed.

Lemma query_pair_split pair :
  split_by is_equals (query_pair pair) = [percent_encode (fst pair) []; percent_encode (snd pair) []].
Proof.
  assert (forall text, Forall (fun b => is_equals b = false) (percent_encode text [])) as H.
  { intros text. apply existsb_False, encoded_none. intros b.
    pose proof (encoded_not_separator b). destruct (encoded_byte b); [|done].
    simpl in *. rewrite !orb_false_iff in *. unfold is_equals. tauto. }
  unfold query_pair. rewrite split_by_app_sep, !split_by_no_sep by done. done.
Qed.

Lemma encode_query_split pairs :
  pairs <> [] -> split_by is_ampersand (encode_query pairs) = map query_pair pairs.
Proof.
  destruct pairs as [|pair pairs]; [done|]. intros _. rewrite encode_query_cons. simpl.
  revert pair. induction pairs as [|pair' pairs IH]; intros pair; simpl.
  - rewrite app_nil_r, split_by_no_sep by apply query_pair_no_ampersand. done.
  - rewrite split_by_app_sep, IH by done. by rewrite split_by_no_sep by apply query_pair_no_ampersand.
Qed.

Lemma query_pair_sendable pair :
  existsb (unsendable [" "; "#"; "\"]%char) (query_pair pair) = false.
Proof.
  unfold query_pair. rewrite existsb_app_false. cbn [existsb].
  rewrite !(encoded_none _ _ encoded_query_sendable). done.
Qed.

Lemma query_head pair rest : starts_with ["?"%char] (query_pair pair ++ rest) = false.
Proof.
  unfold query_pair. pose proof (percent_encode_encoded (fst pair)) as H.
  destruct (percent_encode (fst pair) []) as [|x l]; [done|]. apply Forall_cons in H as [Hx _].
  pose proof (encoded_not_separator x) as Hs. rewrite Hx in Hs. simpl in Hs |- *.
  apply orb_false_iff in Hs as [_ Hs]. unfold byte_eqb in Hs. bool_facts.
  by rewrite bool_decide_eq_false_2.
Qed.

(** Every query the builder writes passes the query rule, and it
    is uniquely decodable: splitting it at [&] and [=] and decoding the parts
    gives back exactly the pairs, in order. *)
Theorem encode_query_decodes pairs :
  is_valid_query (encode_query pairs) = true
  /\ (pairs <> [] ->
      map (fun piece => map lenient_decode (split_by is_equals piece))
        (split_by is_ampersand (encode_query pairs))
      = map (fun pair => [fst pair; snd pair]) pairs).
Proof.
  split.
  - destruct pairs as [|pair pairs]; [done|]. rewrite encode_query_cons. unfold is_valid_query.
    rewrite query_head, existsb_app, query_pair_sendable. simpl.
    induction pairs as [|pair' pairs IH]; [done|]. simpl.
    by rewrite existsb_app, query_pair_sendable.
  - intros Hne. rewrite encode_query_split by done. rewrite !map_map. apply map_ext.
    intros pair. rewrite query_pair_split. simpl. by rewrite !lenient_decode_encode.
Qed.

Lemma encode_query_decodes_witness :
  map (fun piece => map lenient_decode (split_by is_equals piece))
    (split_by is_ampersand (encode_query [(bytes_of "a&b", bytes_of "c=d")]))
  = [[bytes_of "a&b"; bytes_of "c=d"]].
Proof. apply (proj2 (encode_query_decodes [(bytes_of "a&b", bytes_of "c=d")])). discriminate. Defined.
