(* ===== verification/Capability.v ===== *)
(** * Resource names and HTTP origins

    Models [krit-capability/src/lib.rs]: the grammar of resource names and
    configuration keys, and the exact HTTP origins that are the authority of
    an outbound request.  The URL parser is the [url] crate: it is a parameter
    of the model, [url_parse], of which nothing is assumed. *)

From Stdlib Require Import DecimalString.
From S2P Require Import Prelude.

(** ** Names *)

Definition separators : list byte := ["."; "-"; "_"]%char.

(** A byte of the grammar: [byte.is_ascii_lowercase() || ...]. *)
Definition name_byte (allow_underscore : bool) (b : byte) : bool :=
  is_ascii_lowercase b || is_ascii_digit b || bool_decide (b ∈ ["."; "-"]%char)
  || (allow_underscore && byte_eqb b "_").

Definition is_canonical_name (name : bytes) (allow_underscore : bool) : bool :=
  negb (bool_decide (name = []))
  && (Z.of_nat (length name) <=? 64)
  && negb (existsb (fun c => starts_with [c] name) separators)
  && negb (existsb (fun c => ends_with [c] name) separators)
  && negb (contains (bytes_of "..") name)
  && negb (contains (bytes_of "--") name)
  && negb (contains (bytes_of "__") name)
  && forallb (name_byte allow_underscore) name.

Definition is_valid_resource_name (name : bytes) : bool := is_canonical_name name false.
Definition is_valid_config_key (name : bytes) : bool := is_canonical_name name true.

Example resource_names :
  map (fun s => is_valid_resource_name (bytes_of s))
    ["a"; "agent.model"; "github-token"; ""; ".agent"; "token-"; "agent..model"; "github_token"; "Agent"]
  = [true; true; true; false; false; false; false; false; false].
Proof. reflexivity. Qed.
Example config_keys :
  map (fun s => is_valid_config_key (bytes_of s))
    ["agent.timeout_ms"; "a_b-c.d"; "_agent"; "agent_"; "agent__model"]
  = [true; true; false; false; false].
Proof. reflexivity. Qed.

(** ** Origins *)

Inductive HttpScheme : Type := Http | Https.

#[export] Instance HttpScheme_eq_dec : EqDecision HttpScheme.
Proof. solve_decision. Defined.

Definition scheme_str (s : HttpScheme) : string :=
  match s with Http => "http" | Https => "https" end.
Definition default_port (s : HttpScheme) : Z :=
  match s with Http => 80 | Https => 443 end.

Record HttpOrigin : Type := mkHttpOrigin {
  origin_scheme : HttpScheme;
  origin_host : string;
  origin_port : Z;
  origin_normalized : string;
}.

(** The two messages of [HttpOriginError]. *)
Inductive HttpOriginError : Type := invalid | not_normalized.

Definition origin_message (error : HttpOriginError) : string :=
  match error with
  | invalid => "origin must be lowercase `http[s]://host[:port]` without userinfo, path, query, or fragment"
  | not_normalized =>
      "origin must use its normalized spelling (lowercase host and no default port or trailing slash)"
  end.

(** A parsed host; an address is given by its canonical text. *)
Inductive Host : Type :=
| HostDomain (host : string)
| HostIpv4 (address : string)
| HostIpv6 (address : string).

(** What [parse_exact] reads of a parsed URL. *)
Record Url : Type := mkUrl {
  url_scheme : string;
  url_username : string;
  url_password : option string;
  url_query : option string;
  url_fragment : option string;
  url_path : string;
  url_host : option Host;
  url_port_or_known_default : option Z;
}.

(** Decimal formatting of an integer ([to_string], [format!]). *)
Definition decimal (z : Z) : string := NilZero.string_of_int (Z.to_int z).

Definition label_byte (b : byte) : bool :=
  is_ascii_lowercase b || is_ascii_digit b || byte_eqb b "-".

Definition bad_label (label : bytes) : bool :=
  bool_decide (label = []) || (63 <? Z.of_nat (length label))
  || starts_with ["-"%char] label || ends_with ["-"%char] label
  || negb (forallb label_byte label).

Definition bad_domain (host : bytes) : bool :=
  bool_decide (host = []) || (253 <? Z.of_nat (length host))
  || existsb bad_label (split_by (fun b => byte_eqb b ".") host).

(** The host text of an origin, or [None] for a refused domain. *)
Definition host_text (host : Host) : option string :=
  match host with
  | HostDomain host => if bad_domain (bytes_of host) then None else Some host
  | HostIpv4 address => Some address
  | HostIpv6 address => Some ("[" +:+ address +:+ "]")
  end.

Definition normalized_origin (scheme : HttpScheme) (host : string) (port : Z) : string :=
  if port =? default_port scheme then scheme_str scheme +:+ "://" +:+ host
  else scheme_str scheme +:+ "://" +:+ host +:+ ":" +:+ decimal port.

Section Origin.
Context (url_parse : string -> option Url).

Definition parse_exact (value : string) : result HttpOrigin HttpOriginError :=
  let b := bytes_of value in
  if bool_decide (b = []) || (2048 <? Z.of_nat (length b))
     || existsb (fun x => (128 <=? byte_val x)%N) b || existsb is_ascii_control b
  then Err invalid
  else
    let? parsed := ok_or (url_parse value) invalid in
    let? scheme :=
      (if bool_decide (url_scheme parsed = "http") then Ok Http
       else if bool_decide (url_scheme parsed = "https") then Ok Https
       else Err invalid) in
    if negb (bool_decide (url_username parsed = "")) || is_some (url_password parsed)
       || is_some (url_query parsed) || is_some (url_fragment parsed)
       || negb (bool_decide (url_path parsed = "/"))
    then Err invalid
    else
      let? host := ok_or (url_host parsed) invalid in
      let? host := ok_or (host_text host) invalid in
      let? port := ok_or (url_port_or_known_default parsed) invalid in
      if port =? 0 then Err invalid
      else
        let normalized := normalized_origin scheme host port in
        if negb (bool_decide (value = normalized)) then Err not_normalized
        else Ok (mkHttpOrigin scheme host port normalized).
End Origin.

(** ** The name grammar, position by position *)

Lemma ends_with_one (c : byte) l : ends_with [c] l = true <-> last l = Some c.
Proof.
  unfold ends_with. rewrite starts_with_spec. split.
  - intros [k Hk]. apply (f_equal reverse) in Hk. rewrite reverse_involutive in Hk.
    rewrite Hk. simpl. by rewrite reverse_cons, last_snoc.
  - intros H. apply last_Some in H as [l' ->]. rewrite reverse_snoc. by exists (reverse l').
Qed.

Lemma starts_with_one (c : byte) l : starts_with [c] l = true <-> head l = Some c.
Proof.
  destruct l as [|x l]; simpl; [done|].
  rewrite andb_true_r, bool_decide_eq_true. split; congruence.
Qed.

Lemma contains_double (c : byte) l :
  contains [c; c] l = true <-> exists i, l !! i = Some c /\ l !! S i = Some c.
Proof.
  rewrite contains_spec. split.
  - intros (u & v & ->). exists (length u).
    split; rewrite lookup_app_r by lia; [by rewrite Nat.sub_diag|].
    by replace (S (length u) - length u)%nat with 1%nat by lia.
  - intros (i & H1 & H2). exists (take i l), (drop (S (S i)) l).
    rewrite <- (take_drop i l) at 1. f_equal.
    rewrite (drop_S l c i H1). simpl. by rewrite (drop_S l c (S i) H2).
Qed.

(** Where a separator may stand: inside the name, and not doubled. *)
Definition separator_placed (name : bytes) (i : nat) (c : byte) : Prop :=
  (0 < i)%nat /\ (S i < length name)%nat /\ name !! S i <> Some c.

Lemma separators_placed name :
  existsb (fun c => starts_with [c] name) separators = false ->
  existsb (fun c => ends_with [c] name) separators = false ->
  (forall c, c ∈ separators -> contains [c; c] name = false) ->
  forall i c, c ∈ separators -> name !! i = Some c -> separator_placed name i c.
Proof.
  rewrite !existsb_False, !Forall_forall. intros Hs He Hc i c Hin Hi.
  specialize (Hs c Hin). specialize (He c Hin). specialize (Hc c Hin).
  apply not_true_iff_false in Hs, He, Hc.
  rewrite starts_with_one in Hs. rewrite ends_with_one in He. rewrite contains_double in Hc.
  pose proof (lookup_lt_Some _ _ _ Hi). repeat split.
  - destruct i; [|lia]. destruct name; simplify_eq/=.
  - destruct (decide (S i = length name)) as [E|]; [|lia]. exfalso. apply He.
    rewrite last_lookup. by rewrite <- E.
  - intros Hd. apply Hc. eauto.
Qed.

(** A canonical name is one to sixty-four bytes of the grammar's
    alphabet in which every separator stands strictly inside the name and is
    not followed by itself; nothing else is accepted. *)
Theorem canonical_name_iff name allow_underscore :
  is_canonical_name name allow_underscore = true <->
  (1 <= length name <= 64)%nat
  /\ forall i c, name !! i = Some c ->
       name_byte allow_underscore c = true
       /\ (c ∈ separators -> separator_placed name i c).
Proof.
  unfold is_canonical_name. rewrite !andb_true_iff, !negb_true_iff, Z.leb_le, forallb_forall.
  split.
  - intros [[[[[[[Hne%bool_decide_eq_false Hlen] Hs] He] H1] H2] H3] Hall].
    split; [destruct name; [done|simpl in *; lia]|]. intros i c Hi. split.
    + apply Hall. apply list_elem_of_In. by eapply list_elem_of_lookup_2.
    + intros Hin. eapply separators_placed; try done. intros c' Hin'.
      unfold separators in Hin'. rewrite !elem_of_cons, elem_of_nil in Hin'.
      destruct Hin' as [->|[->|[->|[]]]]; done.
  - intros [Hlen Hall]. repeat split.
    + apply bool_decide_eq_false. destruct name; [simpl in *; lia|done].
    + lia.
    + apply existsb_False, Forall_forall. intros c Hin. apply not_true_iff_false.
      rewrite starts_with_one. intros Hh. destruct name as [|x name]; simplify_eq/=.
      destruct (Hall 0%nat c eq_refl) as [_ [H _]]; [done|lia].
    + apply existsb_False, Forall_forall. intros c Hin. apply not_true_iff_false.
      rewrite ends_with_one, last_lookup. intros Hl.
      destruct (Hall _ c Hl) as [_ (_ & H & _)]; [done|lia].
    + apply not_true_iff_false. intros (i & Hi & Hd)%contains_double.
      destruct (Hall _ _ Hi) as [_ (_ & _ & H)]; [by vm_compute; left|done].
    + apply not_true_iff_false. intros (i & Hi & Hd)%contains_double.
      destruct (Hall _ _ Hi) as [_ (_ & _ & H)]; [by right; left|done].
    + apply not_true_iff_false. intros (i & Hi & Hd)%contains_double.
      destruct (Hall _ _ Hi) as [_ (_ & _ & H)]; [by right; right; left|done].
    + intros c Hin. apply list_elem_of_In, list_elem_of_lookup in Hin as [i Hi].
      by destruct (Hall _ _ Hi).
Qed.

(** Every resource name is a configuration key, and a
    configuration key is a resource name exactly when it holds no
    underscore. *)
Theorem resource_name_iff_key name :
  is_valid_resource_name name = true <->
  is_valid_config_key name = true /\ "_"%char ∉ name.
Proof.
  unfold is_valid_resource_name, is_valid_config_key, is_canonical_name.
  rewrite !andb_true_iff, !forallb_forall. split.
  - intros [H Hall]. split; [split; [exact H|]|].
    + intros b Hb. specialize (Hall b Hb). unfold name_byte in *. simpl in Hall.
      rewrite orb_false_r in Hall. by rewrite Hall.
    + intros Hin%list_elem_of_In. by specialize (Hall _ Hin).
  - intros [[H Hall] Hno]. split; [exact H|]. intros b Hb. specialize (Hall b Hb).
    unfold name_byte, byte_eqb in *. rewrite (bool_decide_eq_false_2 (b = "_"%char)) in Hall; [done|].
    intros ->. apply Hno. by apply list_elem_of_In.
Qed.

(** ** Origins are their spelling *)

Lemma parse_exact_Ok url_parse value o :
  parse_exact url_parse value = Ok o ->
  origin_normalized o = value
  /\ value = normalized_origin (origin_scheme o) (origin_host o) (origin_port o)
  /\ origin_port o <> 0.
Proof.
  unfold parse_exact. case_match; [done|].
  rewrite result_bind_Ok. intros (parsed & _ & Hp). revert Hp.
  rewrite result_bind_Ok. intros (scheme & _ & Hs). case_match; [done|]. revert Hs.
  rewrite result_bind_Ok. intros (h & _ & Hh). revert Hh.
  rewrite result_bind_Ok. intros (host & _ & Hh). revert Hh.
  rewrite result_bind_Ok. intros (port & _ & Hq). revert Hq.
  destruct (Z.eqb_spec port 0); [done|]. case_match; [done|]. intros [= <-]. simpl.
  bool_facts. done.
Qed.

(** An accepted origin is exactly its spelling: its text is the
    value that was parsed, that text is the normal form of its scheme, host
    and port (so a default port is never written), and two accepted values
    denote the same scheme, host and port exactly when they are the same
    text.  This holds whatever the URL parser returns. *)
Theorem http_origin_exact url_parse v1 v2 o1 o2 :
  parse_exact url_parse v1 = Ok o1 ->
  parse_exact url_parse v2 = Ok o2 ->
  origin_normalized o1 = v1
  /\ v1 = normalized_origin (origin_scheme o1) (origin_host o1) (origin_port o1)
  /\ origin_port o1 <> 0
  /\ ((origin_scheme o1, origin_host o1, origin_port o1)
      = (origin_scheme o2, origin_host o2, origin_port o2) <-> v1 = v2).
Proof.
  intros H1 H2. destruct (parse_exact_Ok _ _ _ H1) as (N1 & E1 & P1).
  destruct (parse_exact_Ok _ _ _ H2) as (N2 & E2 & P2).
  split; [done|]. split; [done|]. split; [done|]. split.
  - intros [= Hs Hh Hp]. rewrite E1, E2. by rewrite Hs, Hh, Hp.
  - intros ->. rewrite H1 in H2. by injection H2 as ->.
Qed.

(** A URL parser that knows two origins. *)
Definition example_url_parse (value : string) : option Url :=
  if bool_decide (value = "https://api.example.com") then
    Some (mkUrl "https" "" None None None "/" (Some (HostDomain "api.example.com")) (Some 443))
  else if bool_decide (value = "http://[::1]:8080") then
    Some (mkUrl "http" "" None None None "/" (Some (HostIpv6 "::1")) (Some 8080))
  else None.

Lemma http_origin_exact_witness :
  exists o, parse_exact example_url_parse "http://[::1]:8080" = Ok o
  /\ origin_normalized o = "http://[::1]:8080" /\ origin_port o <> 0.
Proof.
  eexists. split; [reflexivity|].
  destruct (http_origin_exact example_url_parse "http://[::1]:8080" "https://api.example.com"
    _ _ eq_refl eq_refl) as (H1 & _ & H2 & _).
  exact (conj H1 H2).
Defined.
