(* ===== verification/Syntax.v ===== *)
(** * Source spans, diagnostics and the syntax tree

    Models [krit/src/source.rs] (spans), [krit/src/diagnostic.rs] (error
    diagnostics and their notes) and the data types of [krit/src/ast.rs].
    Constructor names carry a letter for their type where the source's enum
    path distinguishes them: [ELiteral] is [ExpressionKind::Literal], [SLet]
    is [StatementKind::Let], [PBinder] is [PatternKind::Binder], [TyInt] is
    [TypeKind::Int], [VSome] is [VariantName::Some]. *)

From S2P Require Import Prelude.

(** ** Spans and diagnostics *)

Record Span : Type := mkSpan { span_start : Z; span_end : Z }.

#[export] Instance Span_eq_dec : EqDecision Span.
Proof. solve_decision. Defined.

Definition span_join (a b : Span) : Span := mkSpan (span_start a) (span_end b).

Inductive Severity : Type := SeverityError | SeverityWarning.

#[export] Instance Severity_eq_dec : EqDecision Severity.
Proof. solve_decision. Defined.

Record Diagnostic : Type := mkDiagnostic {
  diag_severity : Severity;
  diag_code : string;
  diag_message : string;
  diag_span : Span;
  diag_notes : list string;
}.

#[export] Instance Diagnostic_eq_dec : EqDecision Diagnostic.
Proof. solve_decision. Defined.

(** [Diagnostic::new]. *)
Definition diagnostic (code message : string) (span : Span) : Diagnostic :=
  mkDiagnostic SeverityError code message span [].

Definition with_note (d : Diagnostic) (note : string) : Diagnostic :=
  mkDiagnostic (diag_severity d) (diag_code d) (diag_message d) (diag_span d)
    (diag_notes d ++ [note]).

(** ** Variants *)

Inductive VariantName : Type := VSome | VNone | VOk | VErr.
Inductive VariantFamily : Type := FamilyOption | FamilyResult.

#[export] Instance VariantName_eq_dec : EqDecision VariantName.
Proof. solve_decision. Defined.
#[export] Instance VariantFamily_eq_dec : EqDecision VariantFamily.
Proof. solve_decision. Defined.

Definition variant_str (v : VariantName) : string :=
  match v with VSome => "Some" | VNone => "None" | VOk => "Ok" | VErr => "Err" end.

Definition variant_family (v : VariantName) : VariantFamily :=
  match v with VSome | VNone => FamilyOption | VOk | VErr => FamilyResult end.

Definition variant_complement (v : VariantName) : VariantName :=
  match v with VSome => VNone | VNone => VSome | VOk => VErr | VErr => VOk end.

(** ** Patterns *)

Inductive Pattern : Type :=
| mkPattern (kind : PatternKind) (span : Span)
with PatternKind : Type :=
| PBinder (name : string)
| PWildcard
| PVariant (variant : VariantName) (payload : option Pattern)
| PEmptyList
| PCons (head tail : Pattern).

Definition pattern_kind (p : Pattern) : PatternKind := match p with mkPattern k _ => k end.
Definition pattern_span (p : Pattern) : Span := match p with mkPattern _ s => s end.

Definition is_catch_all (p : Pattern) : bool :=
  match pattern_kind p with PBinder _ | PWildcard => true | _ => false end.

(** Induction along the path of a pattern: through the payloads of variants. *)
Lemma pattern_path_ind (P : Pattern -> Prop) :
  (forall k s, (forall n q, k = PVariant n (Some q) -> P q) -> P (mkPattern k s)) -> forall p, P p.
Proof.
  intros H. fix IH 1. intros [k s]. apply H. intros n q Hk.
  destruct k as [| |n' [q'|]| |]; try discriminate. injection Hk as _ Hq. rewrite <- Hq. apply IH.
Qed.

(** [Pattern::constructor_depth]. *)
Fixpoint constructor_depth (p : Pattern) : Z :=
  match p with
  | mkPattern kind _ =>
      match kind with
      | PBinder _ | PWildcard => 0
      | PEmptyList | PCons _ _ => 1
      | PVariant _ None => 1
      | PVariant _ (Some payload) => 1 + constructor_depth payload
      end
  end.

(** [impl Display for Pattern].  The code writes the closing parentheses after
    the path, as many as it opened. *)
Fixpoint pattern_display (p : Pattern) : string :=
  match p with
  | mkPattern kind _ =>
      match kind with
      | PBinder name => name
      | PWildcard => "_"
      | PEmptyList => "[]"
      | PCons head tail => "[" +:+ pattern_display head +:+ ", .." +:+ pattern_display tail +:+ "]"
      | PVariant variant None => variant_str variant
      | PVariant variant (Some payload) =>
          variant_str variant +:+ "(" +:+ pattern_display payload +:+ ")"
      end
  end.

(** ** Types as written *)

Inductive TypeAnnotation : Type :=
| mkTypeAnnotation (kind : TypeKind) (span : Span)
with TypeKind : Type :=
| TyInt | TyBool | TyString | TyUnit
| TyHttpHeader | TyHttpRequest | TyHttpResponse | TyLogField
| TyQueueJob | TyScheduleEvent | TyDatabaseTransaction | TySecret
| TyList (element : TypeAnnotation)
| TyOption (element : TypeAnnotation)
| TyResult (value error : TypeAnnotation)
| TyRecord (fields : list RecordTypeField)
with RecordTypeField : Type :=
| mkRecordTypeField (name : string) (annotation : TypeAnnotation) (span : Span).

Record DocComment : Type := mkDocComment { doc_text : string; doc_span : Span }.

Record FnParameter : Type := mkFnParameter {
  parameter_name : string;
  parameter_annotation : option TypeAnnotation;
  parameter_span : Span;
}.

(** ** Contract records *)

Inductive ContractRecord : Type := HttpRequest | HttpResponse | HttpHeader | LogField.
Inductive FieldDefault : Type := EmptyStringDefault | EmptyListDefault.

Record ContractField : Type := mkContractField {
  contract_field_name : string;
  contract_field_default : option FieldDefault;
}.

Definition required (name : string) : ContractField := mkContractField name None.
Definition defaulted (name : string) (d : FieldDefault) : ContractField :=
  mkContractField name (Some d).

Definition contract_fields (c : ContractRecord) : list ContractField :=
  match c with
  | HttpRequest =>
      [required "method"; required "path"; defaulted "query" EmptyStringDefault;
       defaulted "headers" EmptyListDefault; defaulted "body" EmptyStringDefault]
  | HttpResponse =>
      [required "status"; defaulted "headers" EmptyListDefault;
       defaulted "body" EmptyStringDefault]
  | HttpHeader | LogField => [required "name"; required "value"]
  end.

Definition contract_name (c : ContractRecord) : string :=
  match c with
  | HttpRequest => "HttpRequest"
  | HttpResponse => "HttpResponse"
  | HttpHeader => "HttpHeader"
  | LogField => "LogField"
  end.

(** [ContractRecord::field]. *)
Definition contract_field (c : ContractRecord) (name : string) : option ContractField :=
  find (fun field => bool_decide (contract_field_name field = name)) (contract_fields c).

(** ** Expressions and statements *)

Inductive UnaryOperator : Type := Not | Negate.
Inductive BinaryOperator : Type :=
| Add | Subtract | Multiply | Divide | Remainder
| Equal | NotEqual | Less | LessEqual | Greater | GreaterEqual
| And | Or.

#[export] Instance UnaryOperator_eq_dec : EqDecision UnaryOperator.
Proof. solve_decision. Defined.
#[export] Instance BinaryOperator_eq_dec : EqDecision BinaryOperator.
Proof. solve_decision. Defined.

(** An integer literal is an [i128]; the sign is never part of it. *)
Inductive ValueLiteral : Type :=
| LInteger (value : Z)
| LBoolean (value : bool)
| LString (value : string).

(** [Some(name)], [Ok(name)], [Err(name)] or [None], after [let]. *)
Record VariantPattern : Type := mkVariantPattern {
  vp_variant : VariantName;
  vp_binding : option string;
  vp_span : Span;
}.

Inductive Expression : Type :=
| mkExpression (kind : ExpressionKind) (span : Span)
with ExpressionKind : Type :=
| ELiteral (literal : ValueLiteral)
| EInterpolation (parts : list StringPart)
| EUnit
| EVariable (name : string)
| EList (elements : list Expression)
| EEntryList (entries : list ListEntry)
| ERecord (fields : list RecordField)
| EConstruct (contract : ContractRecord) (contract_span : Span) (fields : list ConstructField)
| EFieldAccess (value : Expression) (field : string)
| EBlock (block : Block)
| EIf (condition : Expression) (consequent : Block) (alternative : Expression)
| EFunction (parameters : list FnParameter) (return_type : option TypeAnnotation) (body : Block)
| ECall (callee : Expression) (arguments : list Expression)
| EPropagate (operand : Expression) (question : Span)
| EMatch (subject : Expression) (arms : list MatchArm)
| EUnary (operator : UnaryOperator) (operand : Expression)
| EBinary (left : Expression) (operator : BinaryOperator) (right : Expression)
with StringPart : Type :=
| PartText (value : string) (span : Span)
| PartHole (value : Expression) (span : Span)
with ListEntry : Type :=
| mkListEntry (key value : Expression) (span : Span)
with RecordField : Type :=
| mkRecordField (name : string) (value : Expression) (span : Span)
with ConstructField : Type :=
| mkConstructField (name : string) (name_span : Span) (value : Expression) (span : Span)
with MatchArm : Type :=
| mkMatchArm (pattern : Pattern) (value : Expression) (span : Span)
with Block : Type :=
| mkBlock (statements : list Statement) (tail : option Expression) (span : Span)
with Statement : Type :=
| mkStatement (kind : StatementKind) (span : Span)
with StatementKind : Type :=
| SLet (name : string) (annotation : option TypeAnnotation) (value : Expression)
| SLetElse (pattern : VariantPattern) (annotation : option TypeAnnotation) (value : Expression)
    (else_span : Span) (arm : VariantArm)
| SFunction (name : string) (parameters : list FnParameter) (return_type : option TypeAnnotation)
    (body : Block) (doc : option DocComment)
| SWebhook (name : string) (parameters : list FnParameter) (return_type : option TypeAnnotation)
    (body : Block) (doc : option DocComment)
| SQueueConsumer (queue : string) (queue_span : Span) (name : string) (parameters : list FnParameter)
    (return_type : option TypeAnnotation) (body : Block) (doc : option DocComment)
| SScheduleHandler (schedule : string) (schedule_span : Span) (name : string)
    (parameters : list FnParameter) (return_type : option TypeAnnotation) (body : Block)
    (doc : option DocComment)
| SExpression (expression : Expression)
with VariantArm : Type :=
| mkVariantArm (variant : VariantName) (binding : option string) (value : Expression) (span : Span).

Record Program : Type := mkProgram { program_statements : list Statement }.

Definition expression_kind (e : Expression) : ExpressionKind := match e with mkExpression k _ => k end.
Definition expression_span (e : Expression) : Span := match e with mkExpression _ s => s end.
Definition arm_pattern (a : MatchArm) : Pattern := match a with mkMatchArm p _ _ => p end.
Definition arm_value (a : MatchArm) : Expression := match a with mkMatchArm _ v _ => v end.
Definition block_span (b : Block) : Span := match b with mkBlock _ _ s => s end.
Definition construct_field_name (f : ConstructField) : string :=
  match f with mkConstructField n _ _ _ => n end.
Definition construct_field_value (f : ConstructField) : Expression :=
  match f with mkConstructField _ _ v _ => v end.
