(* ===== verification/Patterns.v ===== *)
(** * Which match arms may stand together

    Models [krit/src/patterns.rs]: the path of a pattern, the checks analysis
    applies to the arms of a [match], and the patterns missing from them.  The
    theorems about these definitions are in [PatternFacts] and, together with
    the evaluator's own pattern matching, in [ValueFacts]. *)

From S2P Require Import Prelude BTree Syntax.

Inductive Constructor : Type := CSome | CNone | COk | CErr | CEmpty | CCons.

#[export] Instance Constructor_eq_dec : EqDecision Constructor.
Proof. solve_decision. Defined.

(** The derived [Ord] of [Constructor]: declaration order. *)
Definition constructor_rank (c : Constructor) : N :=
  match c with CSome => 0 | CNone => 1 | COk => 2 | CErr => 3 | CEmpty => 4 | CCons => 5 end.

#[export] Instance Cmp_Constructor : Cmp Constructor :=
  fun a b => N.compare (constructor_rank a) (constructor_rank b).

#[export] Instance CmpOk_Constructor : CmpOk Constructor.
Proof.
  split; unfold cmp, Cmp_Constructor.
  - intros [] []; vm_compute; naive_solver.
  - intros a b. apply N.compare_antisym.
  - intros a b c. rewrite !N.compare_lt_iff. lia.
Qed.

Inductive Family : Type := FOption | FResult | FList.

#[export] Instance Family_eq_dec : EqDecision Family.
Proof. solve_decision. Defined.

Definition family_constructors (f : Family) : list Constructor :=
  match f with
  | FOption => [CSome; CNone]
  | FResult => [COk; CErr]
  | FList => [CEmpty; CCons]
  end.

Definition described (f : Family) : string :=
  match f with
  | FOption => "an `Option`"
  | FResult => "a `Result`"
  | FList => "a `List`"
  end.

Definition from_variant (v : VariantName) : Constructor :=
  match v with VSome => CSome | VNone => CNone | VOk => COk | VErr => CErr end.

Definition constructor_variant (c : Constructor) : option VariantName :=
  match c with
  | CSome => Some VSome
  | CNone => Some VNone
  | COk => Some VOk
  | CErr => Some VErr
  | CEmpty | CCons => None
  end.

Definition constructor_family (c : Constructor) : Family :=
  match c with CSome | CNone => FOption | COk | CErr => FResult | CEmpty | CCons => FList end.

Definition open_pattern (c : Constructor) : string :=
  match c with
  | CSome => "Some(_)"
  | CNone => "None"
  | COk => "Ok(_)"
  | CErr => "Err(_)"
  | CEmpty => "[]"
  | CCons => "[_, .._]"
  end.

Definition constructor_name (c : Constructor) : string :=
  match c with
  | CSome => "Some"
  | CNone => "None"
  | COk => "Ok"
  | CErr => "Err"
  | CEmpty => "[]"
  | CCons => "[_, .._]"
  end.

(** [patterns::constructor]. *)
Definition pattern_constructor (p : Pattern) : option Constructor :=
  match pattern_kind p with
  | PBinder _ | PWildcard => None
  | PEmptyList => Some CEmpty
  | PCons _ _ => Some CCons
  | PVariant variant _ => Some (from_variant variant)
  end.

Record Step : Type := mkStep { step_constructor : Constructor; step_span : Span }.

(** [patterns::path].  The loop walks into a variant's payload; its result on
    an error does not hold the steps it had pushed. *)
Fixpoint pattern_path (p : Pattern) : result (list Step) Diagnostic :=
  match p with
  | mkPattern kind span =>
      match kind with
      | PBinder _ | PWildcard => Ok []
      | PEmptyList => Ok [mkStep CEmpty span]
      | PCons head tail =>
          if negb (is_catch_all head) || negb (is_catch_all tail) then
            Err (diagnostic "K1003" "the head and tail of a list pattern are names or `_`" span)
          else Ok [mkStep CCons span]
      | PVariant variant payload =>
          let step := mkStep (from_variant variant) span in
          match variant, payload with
          | VNone, None => Ok [step]
          | VNone, Some _ => Err (diagnostic "K1003" "`None` does not bind a value" span)
          | _, Some payload => result_map (cons step) (pattern_path payload)
          | _, None =>
              Err (diagnostic "K1003" ("`" +:+ variant_str variant +:+ "` must bind one value") span)
          end
      end
  end.

Definition constructors (steps : list Step) : list Constructor := map step_constructor steps.

Abbreviation path := (list Constructor).

(** [")".repeat(n)]. *)
Fixpoint str_repeat (s : string) (n : nat) : string :=
  match n with O => "" | S n' => s +:+ str_repeat s n' end.

Definition str_concat (l : list string) : string := fold_right String.append "" l.

(** [slice.join(sep)]. *)
Fixpoint str_join (sep : string) (l : list string) : string :=
  match l with
  | [] => ""
  | [s] => s
  | s :: l' => s +:+ sep +:+ str_join sep l'
  end.

Definition render_path (p : path) : string :=
  match last p with
  | None => "_"
  | Some c =>
      let outer := removelast p in
      str_concat (map (fun c => constructor_name c +:+ "(") outer)
      +:+ open_pattern c +:+ str_repeat ")" (length outer)
  end.

(** [patterns::missing]. *)
Definition add_prefixes (acc : btree path Family * btree path unit) (p : path)
  : btree path Family * btree path unit :=
  fold_left
    (fun '(prefixes, continued) (length : nat) =>
       match p !! length with
       | None => (prefixes, continued)
       | Some c =>
           (bt_or_insert (take length p) (constructor_family c) prefixes,
            bt_insert (take (S length) p) tt continued)
       end)
    (seq 0 (length p)) acc.

Definition path_le (a b : path) : Prop := cmp a b <> Gt.
#[export] Instance path_le_dec : RelDecision path_le.
Proof. intros a b. unfold path_le. apply _. Defined.

Definition missing (paths : list path) : list path :=
  let '(prefixes, continued) := fold_left add_prefixes paths ([], []) in
  let missing :=
    flat_map
      (fun '(prefix, family) =>
         List.filter (fun candidate => negb (is_some (bt_get candidate continued)))
           (map (fun c => prefix ++ [c]) (family_constructors family)))
      prefixes in
  merge_sort path_le missing.

Definition quoted_list (paths : list path) : string :=
  str_join ", " (map (fun p => "`" +:+ render_path p +:+ "`") paths).

Definition arm_list (paths : list path) : string :=
  let arms := map (fun p => "`" +:+ render_path p +:+ " => ...`") paths in
  match arms with
  | [] => ""
  | [only] => only
  | _ => str_join ", " (removelast arms) +:+ " and " +:+ from_option id "" (last arms)
  end.

(** The sub-pattern [depth] steps down the path. *)
Fixpoint sub_pattern (p : Pattern) (depth : nat) : Pattern :=
  match depth with
  | O => p
  | S depth' =>
      match pattern_kind p with
      | PVariant _ (Some payload) => sub_pattern payload depth'
      | _ => p
      end
  end.

(** ** [check_arms] *)

Abbreviation ends_map := (btree path (nat * MatchArm)).
Abbreviation families_map := (btree path (Family * MatchArm)).

Definition duplicate_arm (arm other : MatchArm) : Diagnostic :=
  with_note
    (diagnostic "K1003"
       ("duplicate match arm: `" +:+ pattern_display (arm_pattern arm)
        +:+ "` matches exactly what the earlier arm `" +:+ pattern_display (arm_pattern other)
        +:+ "` matches")
       (pattern_span (arm_pattern arm)))
    "remove one of the two arms".

Definition unreachable_arm (arm other : MatchArm) : Diagnostic :=
  with_note
    (diagnostic "K1003"
       ("unreachable match arm: the earlier arm `" +:+ pattern_display (arm_pattern other)
        +:+ "` already matches every value `" +:+ pattern_display (arm_pattern arm) +:+ "` matches")
       (pattern_span (arm_pattern arm)))
    "remove this arm".

Definition family_clash (arm other : MatchArm) (depth : nat) (own family : Family) (span : Span)
  : Diagnostic :=
  with_note
    (diagnostic "K1003"
       ("`" +:+ pattern_display (sub_pattern (arm_pattern arm) depth) +:+ "` is " +:+ described own
        +:+ " pattern, but the earlier arm `" +:+ pattern_display (arm_pattern other)
        +:+ "` matches " +:+ described family +:+ " value here")
       span)
    "each position of a match takes the patterns of one family: `Some` and `None`, `Ok` and `Err`, or `[]` and `[head, ..tail]`".

(** The body of [for depth in 0..=own.len()]. *)
Definition check_depth (ends : ends_map) (families : families_map) (arm : MatchArm)
    (steps : list Step) (own : path) (depth : nat) : result unit Diagnostic :=
  let prefix := take depth own in
  match bt_get prefix ends with
  | Some (_, other) =>
      Err (if Nat.eqb depth (length own) then duplicate_arm arm other else unreachable_arm arm other)
  | None =>
      match own !! depth, steps !! depth with
      | Some c, Some step =>
          match bt_get prefix families with
          | Some (family, other) =>
              if bool_decide (family = constructor_family c) then Ok tt
              else Err (family_clash arm other depth (constructor_family c) family (step_span step))
          | None => Ok tt
          end
      | _, _ => Ok tt
      end
  end.

(** [min_by_key]: the first of the least. *)
Definition min_by_key {A} (key : A -> nat) (l : list A) : option A :=
  fold_left
    (fun best a =>
       match best with
       | None => Some a
       | Some b => if Nat.ltb (key a) (key b) then Some a else Some b
       end) l None.

(** Earlier arms whose paths extend [own], in path order. *)
Definition narrower (own : path) (ends : ends_map) : ends_map :=
  take_while (fun kv => starts_with own (fst kv)) (bt_above own ends).

Definition overlap_error (arm first : MatchArm) (own : path) (paths : list path) : Diagnostic :=
  let remainder := List.filter (starts_with own) (missing paths) in
  let shown := pattern_display (arm_pattern arm) in
  match remainder with
  | [] =>
      with_note
        (diagnostic "K1003"
           ("unreachable match arm: earlier arms already match every value `" +:+ shown +:+ "` matches")
           (pattern_span (arm_pattern arm)))
        "remove this arm"
  | _ =>
      with_note
        (diagnostic "K1003"
           ("match arm `" +:+ shown +:+ "` overlaps the earlier arm `"
            +:+ pattern_display (arm_pattern first) +:+ "`: arms may not overlap")
           (pattern_span (arm_pattern arm)))
        ("name each remaining outcome instead: replace `" +:+ shown +:+ " => ...` with "
         +:+ arm_list remainder)
  end.

Definition add_families (own : path) (arm : MatchArm) (families : families_map) : families_map :=
  fold_left
    (fun families (depth : nat) =>
       match own !! depth with
       | None => families
       | Some c => bt_or_insert (take depth own) (constructor_family c, arm) families
       end)
    (seq 0 (length own)) families.

(** One iteration of the loop over the arms. *)
Definition check_arm (ends : ends_map) (families : families_map) (index : nat) (arm : MatchArm)
  : result (ends_map * families_map) Diagnostic :=
  if is_catch_all (arm_pattern arm) then Ok (ends, families)
  else
    let? steps := pattern_path (arm_pattern arm) in
    let own := constructors steps in
    let? _ := try_map (check_depth ends families arm steps own) (seq 0 (S (length own))) in
    let narrow := narrower own ends in
    match min_by_key (fun kv => fst (snd kv)) narrow with
    | Some (_, (_, first)) => Err (overlap_error arm first own (map fst narrow))
    | None => Ok (bt_insert own (index, arm) ends, add_families own arm families)
    end.

Fixpoint check_arms_loop (ends : ends_map) (families : families_map) (index : nat)
    (arms : list MatchArm) : result ends_map Diagnostic :=
  match arms with
  | [] => Ok ends
  | arm :: arms' =>
      let? (ends, families) := check_arm ends families index arm in
      check_arms_loop ends families (S index) arms'
  end.

Definition catch_all_error (catch_all : MatchArm) (named : list path) (subject : option Family)
  : Diagnostic :=
  let shown := pattern_display (arm_pattern catch_all) in
  let remainder :=
    match named with
    | [] => (fun family => map (fun c => [c]) (family_constructors family)) <$> subject
    | _ => Some (missing named)
    end in
  let note :=
    match remainder with
    | Some [] =>
        "name every outcome: the other arms already do, so remove `" +:+ shown +:+ " => ...`"
    | Some remainder =>
        "name every outcome: replace `" +:+ shown +:+ " => ...` with " +:+ arm_list remainder
    | None =>
        "name every outcome with its own arm, such as `Some(value)` and `None`, `Ok(value)` and `Err(error)`, or `[]` and `[head, ..tail]`"
    end in
  let what :=
    match pattern_kind (arm_pattern catch_all) with
    | PWildcard => "`_`"
    | _ => "the name `" +:+ shown +:+ "`"
    end in
  with_note
    (diagnostic "K3005"
       ("a match arm cannot match every value: " +:+ what
        +:+ " would stand for outcomes it does not name")
       (pattern_span (arm_pattern catch_all)))
    note.

Definition check_arms (arms : list MatchArm) (subject : option Family) : result unit Diagnostic :=
  let? ends := check_arms_loop [] [] 0 arms in
  match find (fun arm => is_catch_all (arm_pattern arm)) arms with
  | None => Ok tt
  | Some catch_all => Err (catch_all_error catch_all (bt_keys ends) subject)
  end.

Definition check_exhaustive (arms : list MatchArm) (span : Span) : result unit Diagnostic :=
  let? paths :=
    try_map (fun arm => result_map constructors (pattern_path (arm_pattern arm))) arms in
  match missing paths with
  | [] => Ok tt
  | missing =>
      Err (with_note
             (diagnostic "K3005" ("non-exhaustive match; missing: " +:+ quoted_list missing) span)
             ("add an arm for each missing pattern: " +:+ arm_list missing))
  end.

(** The cases of the module's unit test. *)
Example missing_ok_some : map render_path (missing [[COk; CSome]]) = ["Ok(None)"; "Err(_)"].
Proof. reflexivity. Qed.
Example missing_err_cons : map render_path (missing [[CErr; CCons]; [COk]]) = ["Err([])"].
Proof. reflexivity. Qed.
Example missing_none : missing [[CSome; COk]; [CSome; CErr; CEmpty]; [CSome; CErr; CCons]; [CNone]] = [].
Proof. reflexivity. Qed.
