(* ===== verification/PatternFacts.v ===== *)
(** * Arm checks: disjointness, missing patterns, exhaustiveness

    What the checks of [Patterns] decide, stated on the paths of the arms:
    [check_arms] accepts exactly the pairwise disjoint, family-consistent
    paths, and [missing] is exactly the complement of such a set. *)

From S2P Require Import Prelude BTree Syntax Patterns.

(** ** Prefixes *)

Lemma prefix_take_iff {A} (p l : list A) : p `prefix_of` l <-> p = take (length p) l.
Proof.
  split.
  - intros [k ->]. by rewrite take_app_length.
  - intros ->. rewrite <- (take_drop (length p) l) at 2. by eexists.
Qed.

Lemma prefix_snoc_lookup {A} (pre l : list A) c :
  pre ++ [c] `prefix_of` l <-> pre `prefix_of` l /\ l !! length pre = Some c.
Proof.
  split.
  - intros [k ->]. split; [by exists ([c] ++ k); rewrite app_assoc|].
    rewrite <- app_assoc, lookup_app_r by lia. by rewrite Nat.sub_diag.
  - intros [[k ->] H]. rewrite lookup_app_r, Nat.sub_diag in H by lia.
    destruct k; simplify_eq/=. exists k. by rewrite <- app_assoc.
Qed.

Lemma prefix_of_snoc {A} (k l : list A) c :
  k `prefix_of` l ++ [c] -> k `prefix_of` l \/ k = l ++ [c].
Proof.
  intros [k' E]. destruct k' as [|x k' _] using rev_ind; [right; by rewrite E, app_nil_r|].
  left. rewrite app_assoc in E. apply app_inj_tail in E as [-> _]. by eexists.
Qed.

Lemma take_prefix {A} n (l : list A) : take n l `prefix_of` l.
Proof. rewrite <- (take_drop n l) at 2. by eexists. Qed.

(** Two prefixes of one list are comparable. *)
Lemma prefix_comparable {A} (a b l : list A) :
  a `prefix_of` l -> b `prefix_of` l -> a `prefix_of` b \/ b `prefix_of` a.
Proof. intros Ha Hb. destruct (prefix_weak_total a b l); auto. Qed.

(** Lexicographic order is convex around a prefix: what lies between a path
    and one of its extensions extends it too. *)
Lemma prefix_convex (own x k : path) :
  own `prefix_of` k -> cmp own x <> Gt -> cmp x k <> Gt -> own `prefix_of` x.
Proof.
  unfold cmp, Cmp_list. revert x k.
  induction own as [|a own IH]; intros x k Hk Hx Hxk; [apply prefix_nil|].
  destruct k as [|a' k]; [by apply prefix_nil_inv in Hk|].
  assert (a' = a) as -> by (symmetry; by eapply prefix_cons_inv_1).
  apply prefix_cons_inv_2 in Hk. destruct x as [|b x]; [done|]. simpl in Hx, Hxk.
  rewrite (cmp_antisym a b) in Hxk. destruct (cmp a b) eqn:E; simpl in Hxk; try done.
  apply cmp_eq_iff in E as ->. apply prefix_cons. by eapply IH.
Qed.

(** ** Sets of paths *)

(** Neither path is a prefix of the other. *)
Definition disjoint_paths (p q : path) : Prop := ~ p `prefix_of` q /\ ~ q `prefix_of` p.

(** Where two paths continue the same prefix, they do so with constructors of
    one family. *)
Definition same_families (p q : path) : Prop :=
  forall pre c d, pre ++ [c] `prefix_of` p -> pre ++ [d] `prefix_of` q ->
    constructor_family c = constructor_family d.

Definition compatible (own : path) (ps : list path) : Prop :=
  Forall (fun q => disjoint_paths own q /\ same_families own q) ps.

(** A set of arms that name disjoint outcomes. *)
Fixpoint disjoint_set (ps : list path) : Prop :=
  match ps with
  | [] => True
  | p :: ps' => compatible p ps' /\ disjoint_set ps'
  end.

Lemma disjoint_paths_sym p q : disjoint_paths p q -> disjoint_paths q p.
Proof. unfold disjoint_paths. tauto. Qed.

Lemma same_families_sym p q : same_families p q -> same_families q p.
Proof. intros H pre c d Hc Hd. symmetry. by eapply H. Qed.

Lemma same_families_refl p : same_families p p.
Proof.
  intros pre c d [_ Hc]%prefix_snoc_lookup [_ Hd]%prefix_snoc_lookup. congruence.
Qed.

Lemma disjoint_set_elem ps p q :
  disjoint_set ps -> p ∈ ps -> q ∈ ps -> same_families p q /\ (p = q \/ disjoint_paths p q).
Proof.
  induction ps as [|r ps IH]; simpl; [by intros _ H%elem_of_nil|].
  intros [Hr Hs] Hp Hq. unfold compatible in Hr. rewrite Forall_forall in Hr.
  apply elem_of_cons in Hp as [->|Hp], Hq as [->|Hq].
  - split; [apply same_families_refl|by left].
  - destruct (Hr q Hq). auto.
  - destruct (Hr p Hp). auto using same_families_sym, disjoint_paths_sym.
  - auto.
Qed.

Lemma disjoint_set_prefix ps p q :
  disjoint_set ps -> p ∈ ps -> q ∈ ps -> p `prefix_of` q -> p = q.
Proof. intros Hs Hp Hq Hpre. by destruct (disjoint_set_elem ps p q Hs Hp Hq) as [_ [|[? _]]]. Qed.

(** ** The tables of [check_arms] *)

(** The tables describe the paths of the arms accepted so far. *)
Record tables (ps : list path) (ends : ends_map) (families : families_map) : Prop := {
  ends_sorted : bt_sorted ends;
  families_sorted : bt_sorted families;
  ends_paths : forall k, is_Some (bt_get k ends) <-> k ∈ ps;
  families_sound : forall pre f a, bt_get pre families = Some (f, a) ->
    exists p c, p ∈ ps /\ pre ++ [c] `prefix_of` p /\ constructor_family c = f;
  families_complete : forall p pre c, p ∈ ps -> pre ++ [c] `prefix_of` p ->
    is_Some (bt_get pre families);
}.

Lemma tables_nil : tables [] [] [].
Proof.
  split; try done.
  - intros k. split; [by intros [? ?]|by intros ?%elem_of_nil].
  - intros p pre c H. by apply elem_of_nil in H.
Qed.

Lemma narrower_nil own ps ends families :
  tables ps ends families ->
  narrower own ends = [] <-> forall q, q ∈ ps -> own `prefix_of` q -> q = own.
Proof.
  intros T. unfold narrower. split.
  - intros Hn q Hq Hpre. destruct (decide (q = own)) as [|Hne]; [done|]. exfalso.
    apply (ends_paths _ _ _ T) in Hq as [v Hv].
    apply bt_get_In in Hv; [|apply T].
    assert (In (q, v) (bt_above own ends)) as Hin.
    { apply List.filter_In. split; [done|]. simpl. destruct (cmp own q) eqn:E; [|done|].
      - apply cmp_eq_iff in E. congruence.
      - exfalso. apply cmp_gt_lt in E. destruct Hpre as [k ->].
        assert (cmp own (own ++ k) <> Gt) as Hle; [|by rewrite cmp_antisym, E in Hle].
        clear. unfold cmp, Cmp_list. induction own as [|a own IH]; simpl; [by destruct k|].
        by rewrite cmp_refl. }
    pose proof (ends_sorted _ _ _ T) as Hs. revert Hn Hin. unfold bt_above.
    clear T Hv. induction ends as [|[x vx] ends IH]; [done|]. simpl. destruct Hs as [Hlt Hs].
    destruct (cmp own x) eqn:E; try by apply IH.
    simpl. intros Hn Hin. destruct (starts_with own x) eqn:Ex; [done|].
    apply not_true_iff_false in Ex. apply Ex, starts_with_spec.
    destruct Hin as [[= -> ->]|[Hin _]%List.filter_In]; [done|].
    apply (prefix_convex own x q); [done|congruence|].
    rewrite Forall_forall in Hlt. apply list_elem_of_In in Hin. specialize (Hlt _ Hin).
    simpl in Hlt. congruence.
  - intros H. destruct (bt_above own ends) as [|[x v] l] eqn:E; [done|]. simpl.
    destruct (starts_with own x) eqn:Ex; [|done]. exfalso.
    assert (In (x, v) (bt_above own ends)) as Hin by (rewrite E; by left).
    apply List.filter_In in Hin as [Hin Hlt]. simpl in Hlt.
    assert (x = own) as ->.
    { apply H; [|by apply starts_with_spec]. apply (ends_paths _ _ _ T).
      exists v. apply bt_get_In; [apply T|done]. }
    by rewrite cmp_refl in Hlt.
Qed.

Lemma check_depth_Ok ps ends families arm steps own depth :
  tables ps ends families -> disjoint_set ps -> length steps = length own ->
  (depth <= length own)%nat ->
  check_depth ends families arm steps own depth = Ok tt <->
  take depth own ∉ ps
  /\ forall c, own !! depth = Some c ->
       forall q d, q ∈ ps -> take depth own ++ [d] `prefix_of` q ->
         constructor_family c = constructor_family d.
Proof.
  intros T D Hlen Hd. unfold check_depth.
  destruct (bt_get (take depth own) ends) as [[i other]|] eqn:E.
  { split; [done|]. intros [H _]. exfalso. apply H, (ends_paths _ _ _ T). by eexists. }
  assert (take depth own ∉ ps) as Hnot.
  { intros Hin%(ends_paths _ _ _ T). rewrite E in Hin. by destruct Hin. }
  destruct (own !! depth) as [c|] eqn:Ec; [|by split; [intros _; split|]].
  destruct (steps !! depth) as [step|] eqn:Es.
  2:{ apply lookup_ge_None in Es. apply lookup_lt_Some in Ec. lia. }
  destruct (bt_get (take depth own) families) as [[f other]|] eqn:Ef.
  - destruct (families_sound _ _ _ T _ _ _ Ef) as (p & d & Hp & Hpre & <-).
    case_bool_decide as Hfam.
    + split; [intros _|done]. split; [done|]. intros c' [= <-] q d' Hq Hpre'.
      rewrite <- Hfam. destruct (disjoint_set_elem ps p q D Hp Hq) as [Hsame _].
      by apply (Hsame (take depth own)).
    + split; [done|]. intros [_ H]. exfalso. apply Hfam. symmetry. by eapply H.
  - split; [intros _|done]. split; [done|]. intros c' [= <-] q d Hq Hpre.
    destruct (families_complete _ _ _ T q _ d Hq Hpre) as [? ?]. congruence.
Qed.

Lemma try_map_unit {A E} (f : A -> result unit E) l :
  is_ok (try_map f l) = true <-> Forall (fun a => f a = Ok tt) l.
Proof.
  induction l as [|a l IH]; simpl; [done|]. rewrite Forall_cons, <- IH.
  destruct (f a) as [[]|]; simpl; [|naive_solver]. destruct (try_map f l); simpl; naive_solver.
Qed.

Lemma min_by_key_None {A} (key : A -> nat) l : min_by_key key l = None <-> l = [].
Proof.
  unfold min_by_key. split; [|by intros ->]. destruct l as [|a l]; [done|]. simpl.
  assert (forall b, fold_left (fun best a => match best with
    | None => Some a | Some b => if Nat.ltb (key a) (key b) then Some a else Some b end) l (Some b)
    <> None) as H; [|by intros ?%H].
  induction l as [|a' l IH]; intros b; simpl; [done|]. by destruct (Nat.ltb _ _).
Qed.

(** The depth checks hold at every depth exactly when the arm's path is
    compatible with the earlier ones, except for earlier longer paths. *)
Lemma depths_compatible ps ends families arm steps own :
  tables ps ends families -> disjoint_set ps -> length steps = length own ->
  is_ok (try_map (check_depth ends families arm steps own) (seq 0 (S (length own)))) = true <->
  Forall (fun q => ~ q `prefix_of` own /\ same_families own q) ps.
Proof.
  intros T D Hlen. rewrite try_map_unit, !Forall_forall. split.
  - intros H q Hq. split.
    + intros Hpre. specialize (H (length q)). rewrite check_depth_Ok in H; try done.
      * destruct H as [H _]; [|by rewrite <- (proj1 (prefix_take_iff q own) Hpre) in H].
        apply elem_of_seq. apply prefix_length in Hpre. lia.
      * by apply prefix_length.
    + intros pre c d Hc Hd. apply prefix_snoc_lookup in Hc as [Hpre Hc].
      pose proof (lookup_lt_Some _ _ _ Hc) as Hlt. specialize (H (length pre)).
      rewrite check_depth_Ok in H; try done; [|lia]. destruct H as [_ H]; [apply elem_of_seq; lia|].
      apply (H c Hc q d Hq). by rewrite <- (proj1 (prefix_take_iff pre own) Hpre).
  - intros H depth [_ Hd]%elem_of_seq. apply (check_depth_Ok ps); try done; [lia|]. split.
    + intros Hin. destruct (H _ Hin) as [Hno _]. apply Hno.
      apply take_prefix.
    + intros c Hc q d Hq Hpre. destruct (H q Hq) as [_ Hsame]. eapply Hsame; [|exact Hpre].
      apply prefix_snoc_lookup. split; [apply take_prefix|].
      rewrite length_take, Nat.min_l; [done|]. apply lookup_lt_Some in Hc. lia.
Qed.

Lemma add_families_get own arm families pre :
  bt_sorted families ->
  bt_sorted (add_families own arm families)
  /\ bt_get pre (add_families own arm families)
     = match bt_get pre families with
       | Some v => Some v
       | None => if decide (pre `prefix_of` own)
                 then (fun c => (constructor_family c, arm)) <$> own !! length pre
                 else None
       end.
Proof.
  unfold add_families. intros Hs.
  assert (forall n, (n <= length own)%nat ->
    let r := fold_left (fun families (depth : nat) =>
       match own !! depth with
       | None => families
       | Some c => bt_or_insert (take depth own) (constructor_family c, arm) families
       end) (seq 0 n) families in
    bt_sorted r /\ bt_get pre r = match bt_get pre families with
       | Some v => Some v
       | None => if decide (pre `prefix_of` own /\ (length pre < n)%nat)
                 then (fun c => (constructor_family c, arm)) <$> own !! length pre else None
       end) as H.
  { induction n as [|n IH]; intros Hn r; unfold r; clear r.
    - simpl. split; [done|]. rewrite decide_False by lia. by destruct (bt_get pre families).
    - rewrite seq_S, fold_left_app. destruct IH as [IHs IHg]; [lia|]. simpl.
      destruct (lookup_lt_is_Some_2 own n) as [c Hc]; [lia|]. rewrite Hc.
      split; [by apply bt_or_insert_sorted|]. rewrite bt_get_or_insert, IHg by done.
      destruct (bt_get pre families); [done|]. destruct (decide (cmp pre (take n own) = Eq)) as [E|E].
      + apply cmp_eq_iff in E. assert (length pre = n) as Hl by (rewrite E, length_take; lia).
        rewrite decide_False by lia. rewrite decide_True; [by rewrite Hl, Hc|].
        split; [|lia]. rewrite E. apply take_prefix.
      + case_decide as D1; [rewrite decide_True by (destruct D1; split; [done|lia])|].
        * destruct D1 as [D1 D2]. destruct (lookup_lt_is_Some_2 own (length pre)) as [c' ->]; [lia|done].
        * rewrite decide_False; [done|]. intros [D2 D3]. apply D1. split; [done|].
          destruct (decide (length pre = n)) as [<-|]; [|lia]. exfalso. apply E, cmp_eq_iff.
          by apply prefix_take_iff. }
  specialize (H (length own) (le_n _)). simpl in H. destruct H as [H1 H2]. split; [done|].
  rewrite H2. destruct (bt_get pre families); [done|].
  destruct (decide (pre `prefix_of` own)) as [Hp|Hp].
  - destruct (decide (pre `prefix_of` own /\ (length pre < length own)%nat)) as [|Hn]; [done|].
    assert (own !! length pre = None) as ->; [|done]. apply lookup_ge_None.
    destruct (decide (length pre < length own)%nat); [tauto|lia].
  - rewrite decide_False by tauto. done.
Qed.

(** Recording an accepted arm extends the tables by its path. *)
Lemma tables_extend ps ends families own index arm :
  tables ps ends families ->
  tables (own :: ps) (bt_insert own (index, arm) ends) (add_families own arm families).
Proof.
  intros T. pose proof (fun pre => add_families_get own arm families pre (families_sorted _ _ _ T)) as HF.
  split.
  - apply bt_insert_sorted, T.
  - apply (HF []).
  - intros k. rewrite bt_get_insert by apply T. rewrite elem_of_cons, <- (ends_paths _ _ _ T).
    case_decide as D; [apply cmp_eq_iff in D as ->|].
    + split; [by left|by eexists].
    + rewrite cmp_eq_iff in D. naive_solver.
  - intros pre f a Hg. rewrite (proj2 (HF pre)) in Hg.
    destruct (bt_get pre families) as [[f' a']|] eqn:E.
    + injection Hg as -> ->. destruct (families_sound _ _ _ T _ _ _ E) as (p & c & ? & ? & ?).
      exists p, c. rewrite elem_of_cons. auto.
    + case_decide as D; [|done]. apply fmap_Some in Hg as (c & Hc & [= -> ->]).
      exists own, c. rewrite elem_of_cons, prefix_snoc_lookup. auto.
  - intros p pre c Hp Hpre. rewrite (proj2 (HF pre)).
    destruct (bt_get pre families) eqn:E; [by eexists|].
    apply elem_of_cons in Hp as [->|Hp].
    + apply prefix_snoc_lookup in Hpre as [Hpre Hc]. rewrite decide_True by done. rewrite Hc. by eexists.
    + destruct (families_complete _ _ _ T p pre c Hp Hpre) as [? ?]. congruence.
Qed.

(** ** What [check_arms] accepts *)

Lemma compatible_perm own ps qs : ps ≡ₚ qs -> compatible own ps -> compatible own qs.
Proof. intros Hp. unfold compatible. by rewrite Hp. Qed.

Lemma disjoint_set_perm ps qs : ps ≡ₚ qs -> disjoint_set ps -> disjoint_set qs.
Proof.
  induction 1 as [|p ps qs Hp IH|p q ps|ps qs rs _ IH1 _ IH2]; simpl; [done| | |by auto].
  - intros [Hc Hs]. split; [by eapply compatible_perm|auto].
  - unfold compatible. rewrite !Forall_cons. intros [[[Hd Hf] Hq] [Hp Hs]].
    auto using disjoint_paths_sym, same_families_sym.
Qed.

(** The path of an arm, as [check_exhaustive] computes it. *)
Definition arm_path (arm : MatchArm) : result path Diagnostic :=
  result_map constructors (pattern_path (arm_pattern arm)).

Definition is_named (arm : MatchArm) : bool := negb (is_catch_all (arm_pattern arm)).

(** An arm that matches every value leaves the tables as they are; any other
    arm is accepted exactly when its path exists and is compatible with the
    earlier ones, and then the tables gain that path. *)
Lemma check_arm_catch_all ends families index arm :
  is_named arm = false -> check_arm ends families index arm = Ok (ends, families).
Proof. unfold is_named, check_arm. by destruct (is_catch_all _). Qed.

Lemma check_arm_named ps ends families index arm r :
  tables ps ends families -> disjoint_set ps -> is_named arm = true ->
  check_arm ends families index arm = Ok r <->
  exists own, arm_path arm = Ok own /\ compatible own ps
    /\ r = (bt_insert own (index, arm) ends, add_families own arm families).
Proof.
  intros T D Hn. unfold check_arm, arm_path, is_named in *.
  destruct (is_catch_all _); [done|]. clear Hn.
  destruct (pattern_path (arm_pattern arm)) as [steps|e]; cbn [result_map result_bind]; [|naive_solver].
  set (own := constructors steps).
  assert (length steps = length own) as Hlen by (unfold own, constructors; by rewrite length_map).
  pose proof (depths_compatible ps ends families arm steps own T D Hlen) as HD.
  pose proof (narrower_nil own ps ends families T) as HN.
  rewrite <- (min_by_key_None (fun kv => fst (snd kv))) in HN. unfold compatible, disjoint_paths.
  destruct (try_map _ _) as [u|e] eqn:Et; cbn [result_bind is_ok] in *.
  - destruct (min_by_key _ _) as [[k [i first]]|] eqn:Em.
    + split; [done|]. intros (own' & [= <-] & Hc & _). exfalso.
      enough (Some (k, (i, first)) = None) by done. apply HN. intros q Hq Hpre.
      rewrite Forall_forall in Hc. by destruct (Hc q Hq) as [[? _] _].
    + split; [|by intros (own' & [= <-] & _ & ->)]. intros [= <-]. exists own. split; [done|].
      split; [|done]. rewrite Forall_forall. intros q Hq.
      destruct HD as [HD _]. specialize (HD eq_refl). rewrite Forall_forall in HD.
      destruct (HD q Hq) as [H1 H2]. split; [split; [|done]|done]. intros Hpre.
      rewrite (proj1 HN eq_refl q Hq Hpre) in H1. by apply H1.
  - split; [done|]. intros (own' & [= <-] & Hc & _). exfalso.
    enough (false = true) by done. apply HD. rewrite Forall_forall in Hc |- *.
    intros q Hq. destruct (Hc q Hq) as [[? ?] ?]. auto.
Qed.

Lemma check_arms_loop_Ok ps ends families index arms :
  tables ps ends families -> disjoint_set ps ->
  is_ok (check_arms_loop ends families index arms) = true <->
  exists qs, try_map arm_path (List.filter is_named arms) = Ok qs /\ disjoint_set (reverse qs ++ ps).
Proof.
  revert ps ends families index. induction arms as [|arm arms IH]; intros ps ends families index T D; simpl.
  { split; [|done]. intros _. by exists []. }
  destruct (is_named arm) eqn:En.
  2:{ rewrite check_arm_catch_all by done. simpl. by apply IH. }
  pose proof (fun r => check_arm_named ps ends families index arm r T D En) as HA.
  destruct (check_arm ends families index arm) as [[ends' families']|e]; simpl.
  - destruct (proj1 (HA _) eq_refl) as (own & Ho & Hc & [= -> ->]). rewrite Ho. simpl.
    rewrite (IH (own :: ps)); [|by apply tables_extend|done].
    split; intros (qs & Hq & Hd).
    + exists (own :: qs). rewrite Hq. split; [done|]. rewrite reverse_cons, <- app_assoc. exact Hd.
    + destruct (try_map _ _) as [qs'|]; simplify_eq/=. exists qs'. split; [done|].
      by rewrite reverse_cons, <- app_assoc in Hd.
  - split; [done|]. intros (qs & Hq & Hd). exfalso.
    destruct (arm_path arm) as [own|] eqn:Eo; [|done]. simpl in Hq.
    destruct (try_map _ _) as [qs'|]; simplify_eq/=. rewrite reverse_cons, <- app_assoc in Hd.
    enough (Err e = Ok (bt_insert own (index, arm) ends, add_families own arm families)) by done.
    apply HA. exists own. split; [done|]. split; [|done].
    clear -Hd. induction (reverse qs') as [|q l IHl]; simpl in Hd; [apply Hd|]. apply IHl, Hd.
Qed.

Lemma check_arms_accepted (arms : list MatchArm) (subject : option Family) :
  check_arms arms subject = Ok tt <->
  Forall (fun arm => is_catch_all (arm_pattern arm) = false) arms
  /\ exists paths, try_map arm_path arms = Ok paths /\ disjoint_set paths.
Proof.
  unfold check_arms. pose proof (check_arms_loop_Ok [] [] [] 0 arms tables_nil I) as HL.
  assert (find (fun arm => is_catch_all (arm_pattern arm)) arms = None <->
          Forall (fun arm => is_catch_all (arm_pattern arm) = false) arms) as HF.
  { rewrite Forall_forall. split.
    - intros H a Ha%list_elem_of_In. by apply (find_none _ _ H).
    - intros H. destruct (find _ _) as [a|] eqn:E; [|done].
      apply find_some in E as [E1%list_elem_of_In E2]. by rewrite (H a E1) in E2. }
  rewrite <- HF.
  assert (find (fun arm => is_catch_all (arm_pattern arm)) arms = None ->
          List.filter is_named arms = arms) as HN.
  { intros H. apply forallb_filter_id, forallb_forall. intros a Ha.
    unfold is_named. by rewrite (find_none _ _ H). }
  destruct (check_arms_loop [] [] 0 arms) as [ends|e]; simpl in *.
  - destruct (find _ arms); [naive_solver|]. split; [|done]. intros _. split; [done|].
    destruct (proj1 HL eq_refl) as (qs & Hq & Hd). rewrite app_nil_r in Hd. exists qs.
    rewrite <- HN by done. split; [done|]. eapply disjoint_set_perm; [|exact Hd]. apply reverse_Permutation.
  - split; [done|]. intros (Hf & qs & Hq & Hd). exfalso. enough (false = true) by done. apply HL.
    exists qs. rewrite HN by done. split; [done|]. rewrite app_nil_r.
    eapply disjoint_set_perm; [|exact Hd]. symmetry. apply reverse_Permutation.
Qed.

(** C32: [check_arms] accepts a list of arms exactly when no arm matches every
    value, every arm has a path (its variants bind what they must, its list
    patterns nest nothing), and the paths are pairwise disjoint -- no arm's
    path is a prefix of another's -- with one family of constructors at each
    position.  In particular the answer does not depend on the subject hint,
    and the ordered-table search for an overlapping earlier arm misses none. *)
Theorem check_arms_accepts_iff (arms : list MatchArm) (subject : option Family) :
  check_arms arms subject = Ok tt <->
  Forall (fun arm => is_catch_all (arm_pattern arm) = false) arms
  /\ exists paths, try_map arm_path arms = Ok paths /\ disjoint_set paths.
Proof. apply check_arms_accepted. Qed.

Lemma try_map_nil_inv {A B E} (f : A -> result B E) l : l <> [] -> try_map f l <> Ok [].
Proof. destruct l; [done|]. simpl. destruct (f a); [|done]. by destruct (try_map f l). Qed.

(** ** What [missing] returns *)

(** The tables of [missing] after the paths [ps]. *)
Record prefix_tables (ps : list path) (prefixes : btree path Family) (continued : btree path unit)
  : Prop := {
  pt_prefixes_sorted : bt_sorted prefixes;
  pt_continued_sorted : bt_sorted continued;
  pt_continued : forall k, is_Some (bt_get k continued) <-> k <> [] /\ exists p, p ∈ ps /\ k `prefix_of` p;
  pt_sound : forall pre f, bt_get pre prefixes = Some f ->
    exists p c, p ∈ ps /\ pre ++ [c] `prefix_of` p /\ constructor_family c = f;
  pt_complete : forall p pre c, p ∈ ps -> pre ++ [c] `prefix_of` p -> is_Some (bt_get pre prefixes);
}.

Lemma prefix_tables_nil : prefix_tables [] [] [].
Proof.
  split; try done.
  - intros k. split; [by intros [? ?]|by intros [_ (p & ?%elem_of_nil & _)]].
  - by intros p pre c ?%elem_of_nil.
Qed.

(** The tables only depend on the paths through their prefixes, so a path may
    enter one step at a time. *)
Lemma prefix_tables_step ps l c prefixes continued :
  prefix_tables (l :: ps) prefixes continued ->
  prefix_tables ((l ++ [c]) :: ps) (bt_or_insert l (constructor_family c) prefixes)
    (bt_insert (l ++ [c]) tt continued).
Proof.
  intros T. split.
  - apply bt_or_insert_sorted, T.
  - apply bt_insert_sorted, T.
  - intros k. rewrite bt_get_insert by apply T. case_decide as D.
    + apply cmp_eq_iff in D as ->. split; [|by eexists]. intros _. split; [by destruct l|].
      exists (l ++ [c]). split; [by left|done].
    + rewrite cmp_eq_iff in D. rewrite (pt_continued _ _ _ T). setoid_rewrite elem_of_cons.
      split; intros (Hk & q & [->|Hq] & Hpre); (split; [done|]); eauto.
      * exists (l ++ [c]). auto using prefix_app_r.
      * apply prefix_of_snoc in Hpre as [|]; [eauto|done].
  - intros pre f. rewrite bt_get_or_insert by apply T. setoid_rewrite elem_of_cons.
    destruct (bt_get pre prefixes) as [f'|] eqn:E.
    + intros [= ->]. destruct (pt_sound _ _ _ T _ _ E) as (p & d & [->|Hp]%elem_of_cons & Hpre & Hf).
      * exists (l ++ [c]), d. auto using prefix_app_r.
      * exists p, d. auto.
    + case_decide as D; [|done]. apply cmp_eq_iff in D as ->. intros [= <-].
      exists (l ++ [c]), c. auto.
  - intros p pre d [->|Hp]%elem_of_cons Hpre; rewrite bt_get_or_insert by apply T.
    + destruct (bt_get pre prefixes) eqn:E; [by eexists|].
      apply prefix_of_snoc in Hpre as [Hpre|[-> ->]%app_inj_tail].
      * destruct (pt_complete _ _ _ T l pre d) as [? ?]; [by left|done|congruence].
      * rewrite decide_True by apply cmp_refl. by eexists.
    + destruct (pt_complete _ _ _ T p pre d) as [f ->]; [by right|done|by eexists].
Qed.

Lemma prefix_tables_start ps prefixes continued :
  prefix_tables ps prefixes continued -> prefix_tables ([] :: ps) prefixes continued.
Proof.
  intros T. split; try apply T.
  - intros k. rewrite (pt_continued _ _ _ T). setoid_rewrite elem_of_cons.
    split; intros (Hk & p & Hp & Hpre); (split; [done|]); [eauto|].
    destruct Hp as [->|Hp]; [by apply prefix_nil_inv in Hpre|eauto].
  - intros pre f Hf. destruct (pt_sound _ _ _ T _ _ Hf) as (p & c & ? & ?).
    exists p, c. rewrite elem_of_cons. auto.
  - intros p pre c [->|Hp]%elem_of_cons Hpre; [|by eapply T].
    apply prefix_nil_inv in Hpre. by destruct pre.
Qed.

Lemma add_prefixes_tables ps p prefixes continued :
  prefix_tables ps prefixes continued ->
  let '(prefixes', continued') := add_prefixes (prefixes, continued) p in
  prefix_tables (p :: ps) prefixes' continued'.
Proof.
  intros T%prefix_tables_start. unfold add_prefixes.
  match goal with |- context [fold_left ?f _ _] => set (step := f) end.
  assert (forall n, (n <= length p)%nat ->
    let '(a, b) := fold_left step (seq 0 n) (prefixes, continued) in
    prefix_tables (take n p :: ps) a b) as H.
  { induction n as [|n IH]; intros Hn; [done|]. specialize (IH ltac:(lia)).
    rewrite seq_S, fold_left_app. destruct (fold_left step _ _) as [a b]. simpl.
    destruct (lookup_lt_is_Some_2 p n) as [c Hc]; [lia|]. rewrite Hc, (take_S_r p n c Hc).
    by apply prefix_tables_step. }
  specialize (H (length p) (le_n _)). destruct (fold_left step _ _) as [a b].
  by rewrite firstn_all in H.
Qed.

Lemma prefix_tables_all ps qs acc :
  prefix_tables qs (fst acc) (snd acc) ->
  prefix_tables (reverse ps ++ qs) (fst (fold_left add_prefixes ps acc)) (snd (fold_left add_prefixes ps acc)).
Proof.
  revert qs acc. induction ps as [|p ps IH]; intros qs acc T; [done|]. simpl.
  rewrite reverse_cons, <- app_assoc. apply IH. destruct acc as [a b].
  pose proof (add_prefixes_tables qs p a b T) as H. by destruct (add_prefixes (a, b) p).
Qed.

Lemma family_constructors_In c f : In c (family_constructors f) <-> constructor_family c = f.
Proof. destruct c, f; simpl; naive_solver. Qed.

(** [missing ps] lists the constructors no path continues with, at each
    position where some path goes on with another constructor of the family. *)
Definition missing_from (ps : list path) (m : path) : Prop :=
  exists pre d, m = pre ++ [d]
    /\ (exists p c, p ∈ ps /\ pre ++ [c] `prefix_of` p /\ constructor_family c = constructor_family d)
    /\ ~ exists p, p ∈ ps /\ m `prefix_of` p.

Lemma missing_spec ps m : disjoint_set ps -> m ∈ missing ps <-> missing_from ps m.
Proof.
  intros D. unfold missing, missing_from.
  pose proof (prefix_tables_all ps [] ([], []) prefix_tables_nil) as T.
  destruct (fold_left add_prefixes ps ([], [])) as [prefixes continued]. simpl in T.
  rewrite app_nil_r in T. rewrite merge_sort_Permutation, list_elem_of_In, in_flat_map.
  assert (forall c, negb (is_some (bt_get c continued)) = true <->
            (c <> [] -> ~ exists p, p ∈ ps /\ c `prefix_of` p)) as HC.
  { intros c. pose proof (pt_continued _ _ _ T c) as H. setoid_rewrite elem_of_reverse in H.
    destruct (bt_get c continued); simpl.
    - split; [done|]. intros Hn. destruct (proj1 H) as [? ?]; [by eexists|]. naive_solver.
    - split; [|done]. intros _ Hc Hp. by destruct (proj2 H (conj Hc Hp)). }
  split.
  - intros ([pre f] & Hin & Hm). apply List.filter_In in Hm as [Hm Hcont].
    apply in_map_iff in Hm as (d & <- & Hd). apply family_constructors_In in Hd as <-.
    exists pre, d. split; [done|]. rewrite HC in Hcont. split; [|apply Hcont; by destruct pre].
    apply bt_get_In in Hin; [|apply T]. destruct (pt_sound _ _ _ T _ _ Hin) as (p & c & Hp & ? & ?).
    exists p, c. by rewrite elem_of_reverse in Hp.
  - intros (pre & d & -> & (p & c & Hp & Hpre & Hf) & Hno).
    destruct (pt_complete _ _ _ T p pre c) as [f Hg]; [by apply elem_of_reverse|done|].
    destruct (pt_sound _ _ _ T _ _ Hg) as (p' & c' & Hp' & Hpre' & <-).
    rewrite elem_of_reverse in Hp'.
    exists (pre, constructor_family c'). split; [by apply bt_get_In; [apply T|]|].
    apply List.filter_In. rewrite HC. split; [|done]. apply in_map_iff. exists d. split; [done|].
    apply family_constructors_In. rewrite <- Hf. by apply (proj1 (disjoint_set_elem ps p p' D Hp Hp') pre).
Qed.

(** ** Exhaustiveness *)

(** A value, seen from the subject down, is a path [w]; it fits the arms when
    it goes on, at every position the arms inspect, with a constructor of the
    family they inspect there. *)
Definition fits (ps : list path) (w : path) : Prop :=
  forall p pre c, p ∈ ps -> pre ++ [c] `prefix_of` p -> pre `prefix_of` w ->
    exists d, constructor_family d = constructor_family c /\ pre ++ [d] `prefix_of` w.

Lemma missing_not_matched ps p m w :
  disjoint_set ps -> missing_from ps m -> p ∈ ps -> p `prefix_of` w -> m `prefix_of` w -> False.
Proof.
  intros D (pre & d & -> & (q & c & Hq & Hpre & _) & Hno) Hp Hpw Hmw.
  destruct (prefix_comparable _ _ _ Hpw Hmw) as [H|H]; [|by eauto].
  apply prefix_of_snoc in H as [H| ->]; [|by eauto].
  assert (p `prefix_of` q) as Hpq by (etrans; [exact H|]; etrans; [|exact Hpre]; by eexists).
  rewrite (disjoint_set_prefix _ _ _ D Hp Hq Hpq) in H.
  apply (prefix_snoc_not pre c). by etrans.
Qed.

Lemma missing_unique ps m n w :
  missing_from ps m -> missing_from ps n -> m `prefix_of` w -> n `prefix_of` w -> m = n.
Proof.
  assert (forall m n, missing_from ps m -> missing_from ps n -> m `prefix_of` n -> m = n) as H.
  { clear. intros m n (pre & d & -> & _ & Hno) (pre' & d' & -> & (q & c & Hq & Hpre & _) & _) Hmn.
    apply prefix_of_snoc in Hmn as [Hmn|]; [|done]. exfalso. apply Hno. exists q. split; [done|].
    etrans; [exact Hmn|]. etrans; [|exact Hpre]. by eexists. }
  intros Hm Hn Hmw Hnw. destruct (prefix_comparable _ _ _ Hmw Hnw); [auto|symmetry; auto].
Qed.

Lemma matched_or_missing ps w :
  ps <> [] -> fits ps w -> exists p, (p ∈ ps \/ missing_from ps p) /\ p `prefix_of` w.
Proof.
  intros Hne F.
  assert (forall n pre, (length w - length pre <= n)%nat -> pre `prefix_of` w ->
            (exists p, p ∈ ps /\ pre `prefix_of` p) ->
            exists p, (p ∈ ps \/ missing_from ps p) /\ p `prefix_of` w) as H.
  { induction n as [|n IH]; intros pre Hn Hw (p & Hp & [k ->]).
    - destruct k as [|c k]; [rewrite app_nil_r in Hp; by eauto|]. exfalso.
      destruct (F _ pre c Hp) as (d & _ & Hd); [by exists k; rewrite <- app_assoc|done|].
      apply prefix_length in Hd. rewrite length_app in Hd. simpl in Hd. lia.
    - destruct k as [|c k]; [rewrite app_nil_r in Hp; by eauto|].
      assert (pre ++ [c] `prefix_of` pre ++ c :: k) as Hpre by (exists k; by rewrite <- app_assoc).
      destruct (F _ pre c Hp Hpre Hw) as (d & Hf & Hd).
      destruct (decide (Exists (fun q => pre ++ [d] `prefix_of` q) ps)) as [E|E];
        rewrite Exists_exists in E.
      + apply (IH (pre ++ [d])); [rewrite length_app; simpl; lia|done|done].
      + exists (pre ++ [d]). split; [right|done]. exists pre, d. split; [done|]. split; [|done].
        eexists _, c. eauto. }
  destruct ps as [|p ps]; [done|]. apply (H (length w) []); [simpl; lia|apply prefix_nil|].
  exists p. split; [by left|apply prefix_nil].
Qed.

(** A missing path is itself a value the arms could meet. *)
Lemma missing_fits ps m : disjoint_set ps -> missing_from ps m -> fits ps m.
Proof.
  intros D (pre & d & -> & (q & c & Hq & Hpre & Hf) & Hno) p pre' c' Hp Hpre' Hw.
  apply prefix_of_snoc in Hw as [Hw| ->].
  2:{ exfalso. apply Hno. exists p. split; [done|]. etrans; [|exact Hpre']. by eexists. }
  destruct Hw as [[|e k] ->].
  - rewrite app_nil_r in *. exists d. split; [|done]. rewrite <- Hf. symmetry.
    by apply (proj1 (disjoint_set_elem ps p q D Hp Hq) pre').
  - exists e. split; [|exists (k ++ [d]); by rewrite <- !app_assoc]. symmetry.
    apply (proj1 (disjoint_set_elem ps p q D Hp Hq) pre'); [done|].
    etrans; [|exact Hpre]. exists (k ++ [c]). by rewrite <- !app_assoc.
Qed.

(** C33: for arms [check_arms] accepts, [missing] is exactly the complement:
    every value that fits the arms is matched by exactly one path among the
    arms' paths and the missing ones. *)
Theorem missing_partitions (arms : list MatchArm) (subject : option Family) (w : path) :
  check_arms arms subject = Ok tt -> arms <> [] ->
  exists paths, try_map arm_path arms = Ok paths /\
  (fits paths w ->
   exists p, p ∈ paths ++ missing paths /\ p `prefix_of` w
     /\ forall q, q ∈ paths ++ missing paths -> q `prefix_of` w -> q = p).
Proof.
  rewrite check_arms_accepted. intros (_ & ps & Hps & D) Hne. exists ps. split; [done|]. intros F.
  assert (ps <> []) as Hps' by (intros ->; by apply try_map_nil_inv in Hps).
  destruct (matched_or_missing ps w Hps' F) as (p & Hp & Hpw). exists p.
  assert (forall q, q ∈ ps ++ missing ps <-> q ∈ ps \/ missing_from ps q) as HI
    by (intros q; by rewrite elem_of_app, missing_spec).
  setoid_rewrite HI. split; [done|]. split; [done|]. intros q Hq Hqw.
  destruct Hp as [Hp|Hp], Hq as [Hq|Hq].
  - destruct (disjoint_set_elem ps q p D Hq Hp) as [_ [|[H1 H2]]]; [done|].
    by destruct (prefix_comparable _ _ _ Hqw Hpw).
  - destruct (missing_not_matched ps p q w D Hq Hp Hpw Hqw).
  - destruct (missing_not_matched ps q p w D Hp Hq Hqw Hpw).
  - by apply (missing_unique ps q p w).
Qed.

Lemma exhaustive_iff arms subject span paths :
  check_arms arms subject = Ok tt -> arms <> [] -> try_map arm_path arms = Ok paths ->
  check_exhaustive arms span = Ok tt <->
  forall w, fits paths w -> exists p, p ∈ paths /\ p `prefix_of` w.
Proof.
  rewrite check_arms_accepted. intros (_ & ps & Hps & D) Hne Hp. rewrite Hps in Hp. injection Hp as ->.
  assert (paths <> []) as Hne' by (intros ->; by apply try_map_nil_inv in Hps).
  change (check_exhaustive arms span) with
    (let? paths := try_map arm_path arms in
     match missing paths with
     | [] => Ok tt
     | missing =>
         Err (with_note
                (diagnostic "K3005" ("non-exhaustive match; missing: " +:+ quoted_list missing) span)
                ("add an arm for each missing pattern: " +:+ arm_list missing))
     end).
  rewrite Hps. cbn [result_bind].
  destruct (missing paths) as [|m l] eqn:E.
  - split; [intros _ w F|done]. destruct (matched_or_missing paths w Hne' F) as (p & [Hp|Hp] & Hw);
      [by eauto|]. apply missing_spec in Hp; [|done]. by rewrite E in Hp; apply elem_of_nil in Hp.
  - split; [done|]. intros H. exfalso.
    assert (missing_from paths m) as Hm by (apply missing_spec; [done|]; rewrite E; by left).
    destruct (H m) as (p & Hp & Hpm); [by apply missing_fits|].
    by apply (missing_not_matched paths p m m).
Qed.

Lemma exhaustive_matches arms subject span paths :
  check_arms arms subject = Ok tt -> arms <> [] -> try_map arm_path arms = Ok paths ->
  check_exhaustive arms span = Ok tt ->
  forall w, fits paths w -> exists p, p ∈ paths /\ p `prefix_of` w.
Proof. intros HC Hne HP HE. by apply (exhaustive_iff arms subject span paths HC Hne HP). Qed.

(** Arms that [check_arms] and then [check_exhaustive] accept match every
    value that fits them, and when [check_exhaustive] refuses there is a value
    that fits the arms and that no arm matches. *)
Theorem check_exhaustive_iff (arms : list MatchArm) (subject : option Family) (span : Span)
    (paths : list path) :
  check_arms arms subject = Ok tt -> arms <> [] -> try_map arm_path arms = Ok paths ->
  check_exhaustive arms span = Ok tt <->
  forall w, fits paths w -> exists p, p ∈ paths /\ p `prefix_of` w.
Proof. apply exhaustive_iff. Qed.

(** Witnesses: [Ok(Some(_))], [Ok(None)], [Err(_)] and the value [Ok(None)]. *)
Definition variant_pattern (v : VariantName) (payload : option Pattern) : Pattern :=
  mkPattern (PVariant v payload) (mkSpan 0 0).

Definition wildcard : Pattern := mkPattern PWildcard (mkSpan 0 0).

Definition sample_arm (p : Pattern) : MatchArm := mkMatchArm p (mkExpression EUnit (mkSpan 0 0)) (mkSpan 0 0).

Definition sample_arms : list MatchArm :=
  map sample_arm
    [variant_pattern VOk (Some (variant_pattern VSome (Some wildcard)));
     variant_pattern VOk (Some (variant_pattern VNone None));
     variant_pattern VErr (Some wildcard)].

Lemma missing_partitions_witness :
  check_arms sample_arms None = Ok tt /\
  exists paths, try_map arm_path sample_arms = Ok paths /\
  (fits paths [COk; CNone] ->
   exists p, p ∈ paths ++ missing paths /\ p `prefix_of` [COk; CNone]
     /\ forall q, q ∈ paths ++ missing paths -> q `prefix_of` [COk; CNone] -> q = p).
Proof.
  split; [vm_compute; reflexivity|].
  apply (missing_partitions sample_arms None [COk; CNone]); [vm_compute; reflexivity|discriminate].
Defined.

Lemma check_exhaustive_iff_witness :
  check_exhaustive sample_arms (mkSpan 0 0) = Ok tt <->
  forall w, fits [[COk; CSome]; [COk; CNone]; [CErr]] w ->
    exists p, p ∈ [[COk; CSome]; [COk; CNone]; [CErr]] /\ p `prefix_of` w.
Proof.
  apply (check_exhaustive_iff sample_arms None (mkSpan 0 0) _);
    [vm_compute; reflexivity|discriminate|vm_compute; reflexivity].
Defined.
