(* ===== verification/Values.v ===== *)
(** * Values of the direct evaluator

    Models the data and the pure helpers of [krit/src/evaluator.rs]: values
    with their recorded nesting depth, rendering, structural equality, the
    checked operators, JSON conversion, and pattern matching.  The evaluator
    itself is in [Evaluator]; the theorems are in [ValueFacts] and
    [EvaluatorFacts]. *)

From S2P Require Import Prelude BTree Syntax Patterns RequestTarget.

(** ** Limits ([krit/src/limits.rs]) *)

Definition MAX_CALL_DEPTH : Z := 10000.
Definition MAX_EVALUATION_DEPTH : Z := 100000.
Definition MAX_VALUE_DEPTH : Z := 10000.

(** ** Values *)

Inductive BuiltinFunction : Type :=
| BAiInvoke | BPrint | BPrintln | BSome | BOk | BErr
| BJsonEncode | BJsonDecode | BConfigString | BSecret | BHttpRequest | BLogInfo
| BLogError | BStateGet | BStatePut | BStateDelete | BCheckpointGet | BCheckpointPut
| BReplayHttp | BReplayAi | BQueuePublish | BCacheGet | BCachePut | BCacheDelete
| BSearchQuery | BVectorSearch | BObjectGet | BObjectPut | BObjectDelete | BDatabaseBeginRead
| BDatabaseBeginWrite | BDatabaseQuery | BDatabaseExecute | BDatabaseCommit | BDatabaseRollback | BIntToString
| BUrlPathSegment | BUrlQuery | BStringByteLen | BStringIsEmpty | BStringContains | BStringStartsWith
| BStringEndsWith.

#[export] Instance BuiltinFunction_eq_dec : EqDecision BuiltinFunction.
Proof. solve_decision. Defined.

(** Lists, records and variant payloads carry the depth recorded when they
    were built.  An environment is the chain of its bindings, innermost
    first; values are immutable, so sharing them is not observable. *)
Inductive Value : Type :=
| VInteger (value : Z)
| VBoolean (value : bool)
| VString (value : string)
| VUnit
| VList (elements : list Value) (depth : Z)
| VRecord (fields : list (string * Value)) (depth : Z)
| VVariant (name : VariantName) (payload : option (Value * Z))
| VFunction (name : option string) (parameters : list string) (body : Block)
    (environment : list (string * Value))
| VBuiltin (builtin : BuiltinFunction).

Abbreviation Environment := (list (string * Value)).

(** [Environment::extend] and [Environment::lookup]. *)
Definition env_extend (environment : Environment) (name : string) (value : Value) : Environment :=
  (name, value) :: environment.

Fixpoint env_lookup (environment : Environment) (name : string) : option Value :=
  match environment with
  | [] => None
  | (bound, value) :: parent =>
      if bool_decide (bound = name) then Some value else env_lookup parent name
  end.

(** [FunctionValue], as the evaluator's calls take it apart. *)
Record FunctionValue : Type := mkFunctionValue {
  fn_name : option string;
  fn_parameters : list string;
  fn_body : Block;
  fn_environment : Environment;
}.

Definition function_value (f : FunctionValue) : Value :=
  VFunction (fn_name f) (fn_parameters f) (fn_body f) (fn_environment f).

Definition closure (name : option string) (parameters : list FnParameter) (body : Block)
    (environment : Environment) : Value :=
  VFunction name (map parameter_name parameters) body environment.

(** ** The host of the evaluator

    What the evaluator takes from elsewhere: the [io::Write] it prints to
    (with the text of the error a failed write reports), [serde_json]'s
    numbers and text codec, and the standard library's quoting of a string
    ([str]'s [Debug]), whose escapes follow the Unicode tables. *)

Inductive Json (Number : Type) : Type :=
| JNull
| JBool (value : bool)
| JNumber (value : Number)
| JString (value : string)
| JArray (values : list (Json Number))
| JObject (fields : btree string (Json Number)).
Arguments JNull {_}.
Arguments JBool {_} value.
Arguments JNumber {_} value.
Arguments JString {_} value.
Arguments JArray {_} values.
Arguments JObject {_} fields.

Class Platform : Type := {
  Sink : Type;
  write_all : Sink -> string -> Sink * option string;
  Number : Type;
  number_from_i64 : Z -> Number;
  number_as_i64 : Number -> option Z;
  json_to_string : Json Number -> result string string;
  json_from_str : string -> result (Json Number) string;
  str_debug : string -> string;
}.

(** What [serde_json] documents of numbers: a number made from an [i64] reads
    back as that [i64], and reading a number as an [i64] gives one. *)
Class PlatformOk `{Platform} : Prop := {
  number_roundtrip : forall z, in_i64 z = true -> number_as_i64 (number_from_i64 z) = Some z;
  number_range : forall n z, number_as_i64 n = Some z -> in_i64 z = true;
}.

(** ** Rendering *)

(** [Value::render] on a built-in. *)
Definition builtin_render (builtin : BuiltinFunction) : string :=
  match builtin with
  | BAiInvoke => "<function ai_invoke>"
  | BPrint => "<function print>"
  | BPrintln => "<function println>"
  | BSome => "<function Some>"
  | BOk => "<function Ok>"
  | BErr => "<function Err>"
  | BJsonEncode => "<function json_encode>"
  | BJsonDecode => "<function json_decode>"
  | BConfigString => "<function config_string>"
  | BSecret => "<function secret>"
  | BHttpRequest => "<function http_request>"
  | BLogInfo => "<function log_info>"
  | BLogError => "<function log_error>"
  | BStateGet => "<function state_get>"
  | BStatePut => "<function state_put>"
  | BStateDelete => "<function state_delete>"
  | BCheckpointGet => "<function checkpoint_get>"
  | BCheckpointPut => "<function checkpoint_put>"
  | BReplayHttp => "<function replay_http>"
  | BReplayAi => "<function replay_ai>"
  | BQueuePublish => "<function queue_publish>"
  | BCacheGet => "<function cache_get>"
  | BCachePut => "<function cache_put>"
  | BCacheDelete => "<function cache_delete>"
  | BSearchQuery => "<function search_query>"
  | BVectorSearch => "<function vector_search>"
  | BObjectGet => "<function object_get>"
  | BObjectPut => "<function object_put>"
  | BObjectDelete => "<function object_delete>"
  | BDatabaseBeginRead => "<function db_begin_read>"
  | BDatabaseBeginWrite => "<function db_begin_write>"
  | BDatabaseQuery => "<function db_query>"
  | BDatabaseExecute => "<function db_execute>"
  | BDatabaseCommit => "<function db_commit>"
  | BDatabaseRollback => "<function db_rollback>"
  | BIntToString => "<function int_to_string>"
  | BUrlPathSegment => "<function url_path_segment>"
  | BUrlQuery => "<function url_query>"
  | BStringByteLen => "<function string_byte_len>"
  | BStringIsEmpty => "<function string_is_empty>"
  | BStringContains => "<function string_contains>"
  | BStringStartsWith => "<function string_starts_with>"
  | BStringEndsWith => "<function string_ends_with>"
  end.

Definition bool_str (b : bool) : string := if b then "true" else "false".

Section Render.
Context `{Platform}.

(** [Value::render]; [render_nested] quotes a string. *)
Fixpoint render (v : Value) : string :=
  let render_nested (v : Value) : string :=
    match v with VString value => str_debug value | _ => render v end in
  match v with
  | VInteger value => pretty value
  | VBoolean value => bool_str value
  | VString value => value
  | VUnit => "()"
  | VList values _ => "[" +:+ str_join ", " (map render_nested values) +:+ "]"
  | VRecord [] _ => "record {}"
  | VRecord fields _ =>
      "record { "
      +:+ str_join ", " (map (fun '(name, value) => name +:+ ": " +:+ render_nested value) fields)
      +:+ " }"
  | VVariant name None => variant_str name
  | VVariant name (Some (payload, _)) => variant_str name +:+ "(" +:+ render_nested payload +:+ ")"
  | VFunction None _ _ _ => "<function>"
  | VFunction (Some name) _ _ _ => "<function " +:+ name +:+ ">"
  | VBuiltin builtin => builtin_render builtin
  end.
End Render.

(** ** Depth-checked construction *)

Definition value_depth (v : Value) : Z :=
  match v with
  | VList _ depth => depth
  | VRecord _ depth => depth
  | VVariant _ payload => match payload with None => 1 | Some (_, depth) => depth end
  | VInteger _ | VBoolean _ | VString _ | VUnit | VFunction _ _ _ _ | VBuiltin _ => 0
  end.

(** [children.map(Value::depth).max().unwrap_or(0)]. *)
Definition max_depth (children : list Value) : Z := fold_right Z.max 0 (map value_depth children).

Definition container_depth (children : list Value) (span : Span) : result Z Diagnostic :=
  let depth := 1 + max_depth children in
  if MAX_VALUE_DEPTH <? depth then
    Err (diagnostic "K4010"
           ("value depth limit exceeded: lists, records, and variants may nest at most "
            +:+ pretty MAX_VALUE_DEPTH +:+ " levels") span)
  else Ok depth.

(** [Value::list], [Value::record], [Value::variant]. *)
Definition value_list (elements : list Value) (span : Span) : result Value Diagnostic :=
  let? depth := container_depth elements span in Ok (VList elements depth).

Definition value_record (fields : list (string * Value)) (span : Span) : result Value Diagnostic :=
  let? depth := container_depth (map snd fields) span in Ok (VRecord fields depth).

Definition value_variant (name : VariantName) (payload : Value) (span : Span)
  : result Value Diagnostic :=
  let? depth := container_depth [payload] span in Ok (VVariant name (Some (payload, depth))).

Definition kind (v : Value) : string :=
  match v with
  | VInteger _ => "integer"
  | VBoolean _ => "boolean"
  | VString _ => "string"
  | VUnit => "unit"
  | VList _ _ => "list"
  | VRecord _ _ => "record"
  | VVariant name _ =>
      match name with VSome | VNone => "option" | VOk | VErr => "result" end
  | VFunction _ _ _ _ | VBuiltin _ => "function"
  end.

Fixpoint contains_function (v : Value) : bool :=
  match v with
  | VFunction _ _ _ _ | VBuiltin _ => true
  | VList values _ => existsb contains_function values
  | VRecord fields _ => existsb (fun '(_, value) => contains_function value) fields
  | VVariant _ (Some (payload, _)) => contains_function payload
  | _ => false
  end.

(** ** Built-ins *)

Definition builtin_table : list (string * Value) :=
  [
   ("ai_invoke", VBuiltin BAiInvoke); ("print", VBuiltin BPrint); ("println", VBuiltin BPrintln);
   ("Some", VBuiltin BSome); ("None", VVariant VNone None); ("Ok", VBuiltin BOk);
   ("Err", VBuiltin BErr); ("json_encode", VBuiltin BJsonEncode);
   ("json_decode", VBuiltin BJsonDecode); ("config_string", VBuiltin BConfigString);
   ("secret", VBuiltin BSecret); ("http_request", VBuiltin BHttpRequest);
   ("log_info", VBuiltin BLogInfo); ("log_error", VBuiltin BLogError);
   ("state_get", VBuiltin BStateGet); ("state_put", VBuiltin BStatePut);
   ("state_delete", VBuiltin BStateDelete); ("checkpoint_get", VBuiltin BCheckpointGet);
   ("checkpoint_put", VBuiltin BCheckpointPut); ("replay_http", VBuiltin BReplayHttp);
   ("replay_ai", VBuiltin BReplayAi); ("queue_publish", VBuiltin BQueuePublish);
   ("cache_get", VBuiltin BCacheGet); ("cache_put", VBuiltin BCachePut);
   ("cache_delete", VBuiltin BCacheDelete); ("search_query", VBuiltin BSearchQuery);
   ("vector_search", VBuiltin BVectorSearch); ("object_get", VBuiltin BObjectGet);
   ("object_put", VBuiltin BObjectPut); ("object_delete", VBuiltin BObjectDelete);
   ("db_begin_read", VBuiltin BDatabaseBeginRead);
   ("db_begin_write", VBuiltin BDatabaseBeginWrite); ("db_query", VBuiltin BDatabaseQuery);
   ("db_execute", VBuiltin BDatabaseExecute); ("db_commit", VBuiltin BDatabaseCommit);
   ("db_rollback", VBuiltin BDatabaseRollback); ("int_to_string", VBuiltin BIntToString);
   ("url_path_segment", VBuiltin BUrlPathSegment); ("url_query", VBuiltin BUrlQuery);
   ("string_byte_len", VBuiltin BStringByteLen); ("string_is_empty", VBuiltin BStringIsEmpty);
   ("string_contains", VBuiltin BStringContains);
   ("string_starts_with", VBuiltin BStringStartsWith);
   ("string_ends_with", VBuiltin BStringEndsWith)].

Definition builtin_value (name : string) : option Value :=
  snd <$> find (fun '(reserved, _) => bool_decide (reserved = name)) builtin_table.

Definition builtin_arity (builtin : BuiltinFunction) : nat :=
  match builtin with
  | BReplayHttp | BReplayAi | BCachePut => 4
  | BHttpRequest | BStatePut | BCheckpointPut | BObjectPut | BSearchQuery | BVectorSearch
  | BDatabaseQuery | BDatabaseExecute => 3
  | BAiInvoke | BLogInfo | BLogError | BStateGet | BStateDelete | BCheckpointGet | BQueuePublish
  | BObjectGet | BCacheGet | BCacheDelete | BObjectDelete | BStringContains | BStringStartsWith
  | BStringEndsWith => 2
  | _ => 1
  end.

Definition unavailable_builtin_message (builtin : BuiltinFunction) : option string :=
  match builtin with
  | BHttpRequest => Some "HTTP host operations are unavailable in direct source execution"
  | BAiInvoke => Some "AI invocation is unavailable in direct source execution"
  | BLogInfo | BLogError => Some "structured logging is unavailable in direct source execution"
  | BStateGet | BStatePut | BStateDelete | BCheckpointGet | BCheckpointPut | BReplayHttp | BReplayAi
  | BQueuePublish | BObjectGet | BObjectPut | BObjectDelete | BDatabaseBeginRead
  | BDatabaseBeginWrite | BDatabaseQuery | BDatabaseExecute | BDatabaseCommit | BDatabaseRollback
  | BCacheGet | BCachePut | BCacheDelete | BSearchQuery | BVectorSearch =>
      Some "durable state, queue, schedule, object, database, cache, search, and replay operations are unavailable in direct source execution"
  | BConfigString => Some "configuration host operations are unavailable in direct source execution"
  | BSecret => Some "secret host operations are unavailable in direct source execution"
  | BPrint | BPrintln | BSome | BOk | BErr | BJsonEncode | BJsonDecode | BIntToString
  | BUrlPathSegment | BUrlQuery | BStringByteLen | BStringIsEmpty | BStringContains
  | BStringStartsWith | BStringEndsWith => None
  end.

(** ** Errors *)

Definition not_callable (value : Value) (span : Span) : Diagnostic :=
  diagnostic "K4002" ("cannot call " +:+ kind value) span.

Definition arity_error (expected actual : nat) (span : Span) : Diagnostic :=
  diagnostic "K4003"
    ("function expects " +:+ pretty (N.of_nat expected) +:+ " argument(s), found "
     +:+ pretty (N.of_nat actual)) span.

Definition kind_pair_error (operation : string) (lhs rhs : Value) (span : Span) : Diagnostic :=
  diagnostic "K4001"
    (operation +:+ " does not accept " +:+ kind lhs +:+ " and " +:+ kind rhs) span.

Definition expected (what : string) (value : Value) (span : Span) : Diagnostic :=
  diagnostic "K4001" ("expected " +:+ what +:+ ", found " +:+ kind value) span.

Definition expect_boolean (value : Value) (span : Span) : result bool Diagnostic :=
  match value with VBoolean value => Ok value | _ => Err (expected "boolean" value span) end.

Definition expect_integer (value : Value) (span : Span) : result Z Diagnostic :=
  match value with VInteger value => Ok value | _ => Err (expected "integer" value span) end.

Definition expect_string (value : Value) (span : Span) : result string Diagnostic :=
  match value with VString value => Ok value | _ => Err (expected "string" value span) end.

Definition integer_pair (lhs rhs : Value) (span : Span) : result (Z * Z) Diagnostic :=
  match lhs, rhs with
  | VInteger lhs, VInteger rhs => Ok (lhs, rhs)
  | _, _ => Err (kind_pair_error "integer operator" lhs rhs span)
  end.

Definition overflow (span : Span) : Diagnostic := diagnostic "K4005" "integer overflow" span.

(** [operation] is [i64::checked_sub] or [i64::checked_mul]. *)
Definition checked_integer_operation (lhs rhs : Value) (span : Span)
    (operation : Z -> Z -> option Z) : result Value Diagnostic :=
  match lhs, rhs with
  | VInteger lhs, VInteger rhs => ok_or (VInteger <$> operation lhs rhs) (overflow span)
  | _, _ => Err (kind_pair_error "integer operator" lhs rhs span)
  end.

(** ** Names, fields, structural equality *)

Definition variable (name : string) (environment : Environment) (span : Span)
  : result Value Diagnostic :=
  ok_or (match env_lookup environment name with Some v => Some v | None => builtin_value name end)
    (diagnostic "K2001" ("undefined name `" +:+ name +:+ "`") span).

(** [fields.iter().find(|(name, _)| name == field)]. *)
Fixpoint find_field (field : string) (fields : list (string * Value)) : option Value :=
  match fields with
  | [] => None
  | (name, value) :: fields' =>
      if bool_decide (name = field) then Some value else find_field field fields'
  end.

Definition field_value (value : Value) (field : string) (span : Span) : result Value Diagnostic :=
  match value with
  | VRecord fields _ =>
      ok_or (find_field field fields)
        (diagnostic "K4001" ("record has no field `" +:+ field +:+ "`") span)
  | _ =>
      Err (diagnostic "K4001" ("expected record for field access, found " +:+ kind value) span)
  end.

(** [for (left, right) in left.iter().zip(right.iter())]. *)
Definition elements_equal (equal : Value -> Value -> result bool Diagnostic)
  : list Value -> list Value -> result bool Diagnostic :=
  fix go lhs rhs :=
    match lhs, rhs with
    | l :: lhs', r :: rhs' =>
        let? equal := equal l r in
        if negb equal then Ok false else go lhs' rhs'
    | _, _ => Ok true
    end.

(** [for (name, left_value) in left.iter()]. *)
Definition fields_equal (equal : Value -> Value -> result bool Diagnostic)
    (rhs : list (string * Value)) : list (string * Value) -> result bool Diagnostic :=
  fix go lhs :=
    match lhs with
    | [] => Ok true
    | (name, left_value) :: lhs' =>
        match find_field name rhs with
        | None => Ok false
        | Some right_value =>
            let? equal := equal left_value right_value in
            if negb equal then Ok false else go lhs'
        end
    end.

Fixpoint value_equal (lhs rhs : Value) (span : Span) : result bool Diagnostic :=
  if contains_function lhs || contains_function rhs then
    Err (diagnostic "K4006" "functions cannot be compared" span)
  else
    match lhs, rhs with
    | VInteger lhs, VInteger rhs => Ok (lhs =? rhs)
    | VBoolean lhs, VBoolean rhs => Ok (Bool.eqb lhs rhs)
    | VString lhs, VString rhs => Ok (bool_decide (lhs = rhs))
    | VUnit, VUnit => Ok true
    | VList lhs _, VList rhs _ =>
        if negb (Nat.eqb (length lhs) (length rhs)) then Ok false
        else elements_equal (fun l r => value_equal l r span) lhs rhs
    | VRecord lhs _, VRecord rhs _ =>
        if negb (Nat.eqb (length lhs) (length rhs)) then Ok false
        else fields_equal (fun l r => value_equal l r span) rhs lhs
    | VVariant left_name left_payload, VVariant right_name right_payload =>
        if negb (bool_decide (left_name = right_name)) then Ok false
        else
          match left_payload, right_payload with
          | None, None => Ok true
          | Some (lhs, _), Some (rhs, _) => value_equal lhs rhs span
          | _, _ => Ok false
          end
    | _, _ => Ok false
    end.

(** ** Operators *)

(** Rust's integer division truncates, and [checked_div] and [checked_rem]
    fail exactly on a zero divisor and on [i64::MIN] by [-1]. *)
Definition i64_checked_div (a b : Z) : option Z :=
  if b =? 0 then None else i64_checked (Z.quot a b).
Definition i64_checked_rem (a b : Z) : option Z :=
  if b =? 0 then None
  else if (a =? i64_min) && (b =? -1) then None else Some (Z.rem a b).

Definition divide_by_zero (what : string) (span : Span) : Diagnostic :=
  diagnostic "K4004" (what +:+ " by zero") span.

(** [None] is the [unreachable!] of the short-circuit operators. *)
Definition apply_binary (operator : BinaryOperator) (lhs rhs : Value) (span : Span)
  : option (result Value Diagnostic) :=
  match operator with
  | Add =>
      Some match lhs, rhs with
           | VInteger lhs, VInteger rhs =>
               ok_or (VInteger <$> i64_checked (lhs + rhs)) (overflow span)
           | VString lhs, VString rhs => Ok (VString (lhs +:+ rhs))
           | _, _ => Err (kind_pair_error "`+`" lhs rhs span)
           end
  | Subtract =>
      Some (checked_integer_operation lhs rhs span (fun a b => i64_checked (a - b)))
  | Multiply =>
      Some (checked_integer_operation lhs rhs span (fun a b => i64_checked (a * b)))
  | Divide =>
      Some (let? (lhs, rhs) := integer_pair lhs rhs span in
            if rhs =? 0 then Err (divide_by_zero "division" span)
            else ok_or (VInteger <$> i64_checked_div lhs rhs) (overflow span))
  | Remainder =>
      Some (let? (lhs, rhs) := integer_pair lhs rhs span in
            if rhs =? 0 then Err (divide_by_zero "remainder" span)
            else ok_or (VInteger <$> i64_checked_rem lhs rhs) (overflow span))
  | Equal | NotEqual =>
      Some (let? equal := value_equal lhs rhs span in
            Ok (VBoolean (if bool_decide (operator = Equal) then equal else negb equal)))
  | Less | LessEqual | Greater | GreaterEqual =>
      Some (let? ordering :=
              match lhs, rhs with
              | VInteger lhs, VInteger rhs => Ok (lhs ?= rhs)
              | VString lhs, VString rhs => Ok (cmp (bytes_of lhs) (bytes_of rhs))
              | _, _ => Err (kind_pair_error "comparison operator" lhs rhs span)
              end in
            Ok (VBoolean
                  match operator, ordering with
                  | Less, Lt | LessEqual, (Lt | Eq) | Greater, Gt | GreaterEqual, (Gt | Eq) => true
                  | _, _ => false
                  end))
  | And | Or => None
  end.

Definition negation_overflow (span : Span) : Diagnostic :=
  diagnostic "K4005" "integer overflow during negation" span.

Definition apply_unary (operator : UnaryOperator) (value : Value) (span : Span)
  : result Value Diagnostic :=
  match operator with
  | Not => let? value := expect_boolean value span in Ok (VBoolean (negb value))
  | Negate =>
      let? value := expect_integer value span in
      ok_or (VInteger <$> i64_checked (- value)) (negation_overflow span)
  end.

Definition i128_min : Z := - 2 ^ 127.
Definition i128_max : Z := 2 ^ 127 - 1.

Definition negate_literal (value : Z) (span : Span) : result Value Diagnostic :=
  let? negated :=
    ok_or (if (i128_min <=? - value) && (- value <=? i128_max) then Some (- value) else None)
      (negation_overflow span) in
  ok_or (VInteger <$> i64_checked negated) (negation_overflow span).

Definition literal (l : ValueLiteral) (span : Span) : result Value Diagnostic :=
  match l with
  | LInteger value =>
      ok_or (VInteger <$> i64_checked value)
        (diagnostic "K4005" "integer literal is out of range" span)
  | LBoolean value => Ok (VBoolean value)
  | LString value => Ok (VString value)
  end.

(** ** URL built-ins *)

Definition url_path_segment (value : Value) (span : Span) : result Value Diagnostic :=
  let? text := expect_string value span in
  let '(variant, payload) :=
    match encode_path_segment (bytes_of text) with
    | Ok segment => (VOk, str_of segment)
    | Err error => (VErr, path_segment_message error)
    end in
  value_variant variant (VString payload) span.

Definition url_query_entry (span : Span) (entry : Value) : result (bytes * bytes) Diagnostic :=
  let? name := field_value entry "name" span in
  let? name := expect_string name span in
  let? value := field_value entry "value" span in
  let? value := expect_string value span in
  Ok (bytes_of name, bytes_of value).

Definition url_query (value : Value) (span : Span) : result Value Diagnostic :=
  match value with
  | VList entries _ =>
      let? pairs := try_map (url_query_entry span) entries in
      Ok (VString (str_of (encode_query pairs)))
  | _ => Err (expected "list" value span)
  end.

(** ** JSON *)

Definition key_le (a b : string) : Prop := cmp a b <> Gt.
#[export] Instance key_le_dec : RelDecision key_le.
Proof. intros a b. unfold key_le. apply _. Defined.

(** [fields.sort_by(|(left, _), (right, _)| left.cmp(right))], stable. *)
Definition sort_fields {A} (fields : list (string * A)) : list (string * A) :=
  merge_sort (fun a b => key_le (fst a) (fst b)) fields.

(** Inserts the fields in order; the first field that does not convert stops
    the loop. *)
Fixpoint object_of {A} (fields : list (string * result A Diagnostic)) (object : btree string A)
  : result (btree string A) Diagnostic :=
  match fields with
  | [] => Ok object
  | (name, value) :: fields' => let? value := value in object_of fields' (bt_insert name value object)
  end.

Section JsonConversion.
Context `{Platform}.

Fixpoint value_to_json (value : Value) (span : Span) : result (Json Number) Diagnostic :=
  match value with
  | VInteger value => Ok (JNumber (number_from_i64 value))
  | VBoolean value => Ok (JBool value)
  | VString value => Ok (JString value)
  | VUnit => Ok JNull
  | VList values _ => result_map JArray (try_map (fun value => value_to_json value span) values)
  | VRecord fields _ =>
      let fields := map (fun '(name, value) => (name, value_to_json value span)) fields in
      result_map JObject (object_of (sort_fields fields) [])
  | VVariant name payload =>
      let? payload :=
        match payload with None => Ok JNull | Some (value, _) => value_to_json value span end in
      Ok (JObject (bt_insert (variant_str name) payload []))
  | VFunction _ _ _ _ | VBuiltin _ =>
      Err (diagnostic "K4008" "functions cannot be encoded as JSON" span)
  end.

Definition json_encode (value : Value) (span : Span) : result Value Diagnostic :=
  let? json := value_to_json value span in
  match json_to_string json with
  | Ok json => Ok (VString json)
  | Err error => Err (diagnostic "K4008" ("JSON encoding failed: " +:+ error) span)
  end.

(** The tags tried, in order, on an object of one field. *)
Definition json_tags : list (string * VariantName) :=
  [("Some", VSome); ("None", VNone); ("Ok", VOk); ("Err", VErr)].

Definition is_null {N} (j : Json N) : bool := match j with JNull => true | _ => false end.

Fixpoint json_to_value (value : Json Number) (span : Span) : result Value Diagnostic :=
  match value with
  | JNull => Ok VUnit
  | JBool value => Ok (VBoolean value)
  | JNumber value =>
      ok_or (VInteger <$> number_as_i64 value)
        (diagnostic "K4009" "JSON number is not a signed 64-bit integer" span)
  | JString value => Ok (VString value)
  | JArray values =>
      let? values := try_map (fun value => json_to_value value span) values in
      value_list values span
  | JObject fields =>
      let as_record :=
        let? fields :=
          try_map (fun '(name, value) => result_map (pair name) (json_to_value value span)) fields in
        value_record (sort_fields fields) span in
      match fields with
      | [(key, payload)] =>
          match snd <$> find (fun '(tag, _) => bool_decide (tag = key)) json_tags with
          | Some VNone =>
              if negb (is_null payload) then
                Err (diagnostic "K4009" "the JSON `None` tag must contain null" span)
              else Ok (VVariant VNone None)
          | Some name =>
              let? payload := json_to_value payload span in value_variant name payload span
          | None => as_record
          end
      | _ => as_record
      end
  end.

Definition json_decode (value : Value) (span : Span) : result Value Diagnostic :=
  match value with
  | VString text =>
      match json_from_str text with
      | Ok json => json_to_value json span
      | Err error => Err (diagnostic "K4009" ("invalid JSON: " +:+ error) span)
      end
  | _ => Err (expected "string" value span)
  end.
End JsonConversion.

(** ** Pattern matching *)

Definition variant_family_name (family : VariantFamily) : string :=
  match family with FamilyOption => "option" | FamilyResult => "result" end.

Definition binder_name (p : Pattern) : string :=
  match pattern_kind p with PBinder name => name | _ => "_" end.

Definition variant_match_error (family : VariantFamily) (found : string) (span : Span) : Diagnostic :=
  diagnostic "K4001"
    ("expected " +:+ variant_family_name family +:+ " for variant match, found " +:+ found) span.

(** The loop follows the pattern's path. *)
Fixpoint match_pattern (pattern : Pattern) (value : Value) (span : Span) (environment : Environment)
  : result (option Environment) Diagnostic :=
  match pattern with
  | mkPattern pkind _ =>
      match pkind with
      | PBinder _ | PWildcard => Ok (Some (env_extend environment (binder_name pattern) value))
      | PEmptyList =>
          match value with
          | VList values _ =>
              Ok match values with [] => Some environment | _ :: _ => None end
          | _ => Err (expected "list" value span)
          end
      | PCons head tail =>
          match value with
          | VList [] _ => Ok None
          | VList (first :: others) _ =>
              let? rest := value_list others span in
              Ok (Some (env_extend (env_extend environment (binder_name head) first)
                          (binder_name tail) rest))
          | _ => Err (expected "list" value span)
          end
      | PVariant variant payload =>
          let family := variant_family variant in
          match value with
          | VVariant name carried =>
              if negb (bool_decide (variant_family name = family)) then
                Err (variant_match_error family (variant_family_name (variant_family name)) span)
              else if negb (bool_decide (name = variant)) then Ok None
              else
                match payload, carried with
                | Some payload, Some (carried, _) => match_pattern payload carried span environment
                | None, None => Ok (Some environment)
                | _, _ =>
                    Err (diagnostic "K4001"
                           ("`" +:+ variant_str name +:+ "` pattern has the wrong payload shape") span)
                end
          | _ => Err (variant_match_error family (kind value) span)
          end
      end
  end.

Definition no_arm_shape (value : Value) : string :=
  match value with
  | VVariant name _ => "`" +:+ variant_str name +:+ "`"
  | VList [] _ => "an empty list"
  | VList _ _ => "a non-empty list"
  | _ => kind value
  end.

Fixpoint select_match_arm (subject_value : Value) (subject_span : Span) (arms : list MatchArm)
    (environment : Environment) : result (Expression * Environment) Diagnostic :=
  match arms with
  | [] =>
      Err (diagnostic "K4001" ("no match arm matches " +:+ no_arm_shape subject_value) subject_span)
  | arm :: arms' =>
      let? bound := match_pattern (arm_pattern arm) subject_value subject_span environment in
      match bound with
      | Some bound => Ok (arm_value arm, bound)
      | None => select_match_arm subject_value subject_span arms' environment
      end
  end.
