(* ===== verification/ValueFacts.v ===== *)
(** * Well-formed values

    The invariant of runtime values -- integers in range, payloads where the
    variant has one, recorded depths exact and bounded -- and that every pure
    operation of [Values] keeps it. *)

From S2P Require Import Prelude BTree Syntax Patterns RequestTarget Values PatternFacts.

(** ** Induction on values *)

(** [Forall], as a function so that it can recurse into a value. *)
Definition All {A} (P : A -> Prop) : list A -> Prop :=
  fix go l := match l with [] => True | x :: l' => P x /\ go l' end.

Lemma All_Forall {A} (P : A -> Prop) l : All P l <-> Forall P l.
Proof. induction l as [|x l IH]; simpl; [done|]. by rewrite Forall_cons, IH. Qed.

Section ValueInd.
Variable P : Value -> Prop.
Hypothesis HInteger : forall z, P (VInteger z).
Hypothesis HBoolean : forall b, P (VBoolean b).
Hypothesis HString : forall s, P (VString s).
Hypothesis HUnit : P VUnit.
Hypothesis HList : forall es d, Forall P es -> P (VList es d).
Hypothesis HRecord : forall fs d, Forall (fun f => P (snd f)) fs -> P (VRecord fs d).
Hypothesis HNoPayload : forall n, P (VVariant n None).
Hypothesis HPayload : forall n p d, P p -> P (VVariant n (Some (p, d))).
Hypothesis HFunction : forall n ps b env, Forall (fun f => P (snd f)) env -> P (VFunction n ps b env).
Hypothesis HBuiltin : forall b, P (VBuiltin b).

Fixpoint value_ind' (v : Value) : P v :=
  match v with
  | VInteger z => HInteger z
  | VBoolean b => HBoolean b
  | VString s => HString s
  | VUnit => HUnit
  | VList es d =>
      HList es d ((fix go es : Forall P es :=
        match es with
        | [] => Forall_nil_2 P
        | e :: es' => Forall_cons_2 P e es' (value_ind' e) (go es')
        end) es)
  | VRecord fs d =>
      HRecord fs d ((fix go fs : Forall (fun f => P (snd f)) fs :=
        match fs with
        | [] => Forall_nil_2 _
        | f :: fs' => Forall_cons_2 _ f fs' (value_ind' (snd f)) (go fs')
        end) fs)
  | VVariant n None => HNoPayload n
  | VVariant n (Some (p, d)) => HPayload n p d (value_ind' p)
  | VFunction n ps b env =>
      HFunction n ps b env ((fix go fs : Forall (fun f => P (snd f)) fs :=
        match fs with
        | [] => Forall_nil_2 _
        | f :: fs' => Forall_cons_2 _ f fs' (value_ind' (snd f)) (go fs')
        end) env)
  | VBuiltin b => HBuiltin b
  end.
End ValueInd.

(** ** The invariant *)

(** How deeply lists, records and variants really nest. *)
Fixpoint nesting (v : Value) : Z :=
  match v with
  | VList es _ => 1 + fold_right Z.max 0 (map nesting es)
  | VRecord fs _ => 1 + fold_right Z.max 0 (map (fun f => nesting (snd f)) fs)
  | VVariant _ None => 1
  | VVariant _ (Some (p, _)) => 1 + Z.max (nesting p) 0
  | _ => 0
  end.

(** A container's recorded depth is one more than its children's, and within
    the limit. *)
Definition depth_ok (children : list Value) (depth : Z) : Prop :=
  depth = 1 + max_depth children /\ depth <= MAX_VALUE_DEPTH.

Fixpoint wf_value (v : Value) : Prop :=
  match v with
  | VInteger z => in_i64 z = true
  | VBoolean _ | VString _ | VUnit | VBuiltin _ => True
  | VList es d => All wf_value es /\ depth_ok es d
  | VRecord fs d => All (fun f => wf_value (snd f)) fs /\ depth_ok (map snd fs) d
  | VVariant n None => n = VNone
  | VVariant n (Some (p, d)) => n <> VNone /\ wf_value p /\ depth_ok [p] d
  | VFunction _ _ _ env => All (fun f => wf_value (snd f)) env
  end.

Definition wf_env (environment : Environment) : Prop := Forall (fun f => wf_value (snd f)) environment.

Lemma max_depth_nonneg vs : 0 <= max_depth vs.
Proof. unfold max_depth. induction vs; simpl; lia. Qed.

(** The recorded depth of a well-formed value is its real nesting, and is
    within the limit. *)
Lemma wf_value_depth v : wf_value v -> value_depth v = nesting v /\ 0 <= nesting v <= MAX_VALUE_DEPTH.
Proof.
  assert (forall vs, Forall (fun v => wf_value v -> value_depth v = nesting v /\ 0 <= nesting v <= MAX_VALUE_DEPTH) vs ->
    Forall wf_value vs -> max_depth vs = fold_right Z.max 0 (map nesting vs)) as HM.
  { induction 1 as [|x vs Hx _ IH]; intros Hw; [done|]. apply Forall_cons in Hw as [H1 H2].
    unfold max_depth in *. simpl. rewrite IH by done. by rewrite (proj1 (Hx H1)). }
  assert (0 <= MAX_VALUE_DEPTH) as HP by done.
  assert (1 <= MAX_VALUE_DEPTH) as HP1 by done.
  induction v as [| | | |es d IH|fs d IH|n|n p d IH|n ps b env IH|] using value_ind'; simpl; try (intros; lia).
  - rewrite All_Forall. intros [Hw [-> Hd]]. rewrite <- (HM es) by done.
    pose proof (max_depth_nonneg es). lia.
  - rewrite All_Forall. intros [Hw [-> Hd]]. pose proof (max_depth_nonneg (map snd fs)).
    assert (max_depth (map snd fs) = fold_right Z.max 0 (map (fun f => nesting (snd f)) fs)) as <-; [|lia].
    rewrite (HM (map snd fs)); [by rewrite map_map|by apply Forall_map|by apply Forall_map].
  - intros (_ & Hw & -> & Hd). destruct (IH Hw) as [E ?]. unfold max_depth in *. simpl in *. lia.
Qed.

(** ** Construction *)

Lemma container_depth_Ok children span d :
  container_depth children span = Ok d <-> depth_ok children d.
Proof.
  unfold container_depth, depth_ok. destruct (Z.ltb_spec MAX_VALUE_DEPTH (1 + max_depth children));
    split; try done; [lia| |]; [by intros [= <-]|by intros [-> _]].
Qed.

Lemma value_list_wf es span v :
  Forall wf_value es -> value_list es span = Ok v -> wf_value v.
Proof.
  unfold value_list. rewrite result_bind_Ok. intros Hw (d & Hd%container_depth_Ok & [= <-]).
  simpl. by rewrite All_Forall.
Qed.

Lemma value_record_wf fs span v :
  Forall (fun f => wf_value (snd f)) fs -> value_record fs span = Ok v -> wf_value v.
Proof.
  unfold value_record. rewrite result_bind_Ok. intros Hw (d & Hd%container_depth_Ok & [= <-]).
  simpl. by rewrite All_Forall.
Qed.

Lemma value_variant_wf n p span v :
  n <> VNone -> wf_value p -> value_variant n p span = Ok v -> wf_value v.
Proof.
  unfold value_variant. rewrite result_bind_Ok. intros Hn Hw (d & Hd%container_depth_Ok & [= <-]). done.
Qed.

Lemma max_depth_tail v vs : max_depth vs <= max_depth (v :: vs).
Proof. unfold max_depth. simpl. lia. Qed.

(** Taking the tail of a list never fails. *)
Lemma value_list_tail e es d span :
  wf_value (VList (e :: es) d) -> exists d', value_list es span = Ok (VList es d') /\ depth_ok es d'.
Proof.
  simpl. intros [_ [-> Hd]]. exists (1 + max_depth es).
  assert (depth_ok es (1 + max_depth es)) as HD.
  { split; [done|]. pose proof (max_depth_tail e es). lia. }
  split; [|done]. unfold value_list. by rewrite (proj2 (container_depth_Ok es span _) HD).
Qed.

(** ** Names and fields *)

Lemma wf_env_extend environment name v :
  wf_env environment -> wf_value v -> wf_env (env_extend environment name v).
Proof. intros. by constructor. Qed.
#[export] Hint Resolve wf_env_extend : krit.

Lemma env_lookup_wf environment name v :
  wf_env environment -> env_lookup environment name = Some v -> wf_value v.
Proof.
  induction 1 as [|[n x] environment Hx _ IH]; simpl; [done|]. case_bool_decide; [|done].
  by intros [= <-].
Qed.

Lemma builtin_value_wf name v : builtin_value name = Some v -> wf_value v.
Proof.
  unfold builtin_value. destruct (find _ _) as [[n x]|] eqn:E; [|done]. intros [= <-].
  apply find_some in E as [E _]. simpl.
  assert (Forall (fun f => wf_value (snd f)) builtin_table) as H by (repeat constructor).
  rewrite Forall_forall in H. apply (H (n, x)). by apply list_elem_of_In.
Qed.

Lemma variable_wf name environment span v :
  wf_env environment -> variable name environment span = Ok v -> wf_value v.
Proof.
  intros Hw. unfold variable. rewrite ok_or_Ok. destruct (env_lookup environment name) eqn:E.
  - intros [= <-]. by eapply env_lookup_wf.
  - apply builtin_value_wf.
Qed.

Lemma find_field_wf field fs v :
  Forall (fun f => wf_value (snd f)) fs -> find_field field fs = Some v -> wf_value v.
Proof.
  induction 1 as [|[n x] fs Hx _ IH]; simpl; [done|]. case_bool_decide; [|done]. by intros [= <-].
Qed.

Lemma field_value_wf value field span v :
  wf_value value -> field_value value field span = Ok v -> wf_value v.
Proof.
  destruct value; try done. simpl. rewrite All_Forall, ok_or_Ok. intros [Hw _]. by apply find_field_wf.
Qed.

Lemma closure_wf name parameters body environment :
  wf_env environment -> wf_value (closure name parameters body environment).
Proof. intros H. simpl. by apply All_Forall. Qed.
#[export] Hint Resolve closure_wf : krit.

(** ** Operators *)

Lemma i64_checked_wf z z' : i64_checked z = Some z' -> in_i64 z' = true.
Proof. unfold i64_checked. destruct (in_i64 z) eqn:E; [|done]. by intros [= <-]. Qed.

Lemma checked_integer_wf {E} (o : option Z) (d : E) v :
  (forall z, o = Some z -> in_i64 z = true) -> ok_or (VInteger <$> o) d = Ok v -> wf_value v.
Proof. intros H. rewrite ok_or_Ok. intros (z & Hz & ->)%fmap_Some. by apply H. Qed.

Lemma i64_rem_range a b : in_i64 a = true -> in_i64 b = true -> b <> 0 -> in_i64 (Z.rem a b) = true.
Proof.
  rewrite !in_i64_spec. intros Ha Hb Hn. pose proof (Z.rem_bound_abs a b Hn).
  unfold i64_min, i64_max in *. pose proof (Z.rem_sign_mul a b Hn). nia.
Qed.

Lemma apply_binary_wf operator lhs rhs span r v :
  wf_value lhs -> wf_value rhs -> apply_binary operator lhs rhs span = Some r -> r = Ok v -> wf_value v.
Proof.
  intros Hl Hr E ->. destruct operator; simpl in E; try done; injection E as E.
  - destruct lhs, rhs; try done; [|by injection E as <-].
    eapply checked_integer_wf, E. apply i64_checked_wf.
  - destruct lhs, rhs; try done. eapply checked_integer_wf, E. apply i64_checked_wf.
  - destruct lhs, rhs; try done. eapply checked_integer_wf, E. apply i64_checked_wf.
  - destruct lhs, rhs; try done. simpl in E. destruct (Z.eqb_spec value0 0); [done|].
    eapply checked_integer_wf, E. intros z. unfold i64_checked_div. case_match; [done|].
    apply i64_checked_wf.
  - destruct lhs, rhs; try done. simpl in E. destruct (Z.eqb_spec value0 0); [done|].
    eapply checked_integer_wf, E. intros z. unfold i64_checked_rem. case_match; [done|].
    case_match; [done|]. intros [= <-]. by apply i64_rem_range.
  - apply result_bind_Ok in E as (b & _ & [= <-]). done.
  - apply result_bind_Ok in E as (b & _ & [= <-]). done.
  - apply result_bind_Ok in E as (b & _ & [= <-]). done.
  - apply result_bind_Ok in E as (b & _ & [= <-]). done.
  - apply result_bind_Ok in E as (b & _ & [= <-]). done.
  - apply result_bind_Ok in E as (b & _ & [= <-]). done.
Qed.

Lemma apply_unary_wf operator value span v : apply_unary operator value span = Ok v -> wf_value v.
Proof.
  destruct operator; simpl; rewrite result_bind_Ok.
  - intros (b & _ & [= <-]). done.
  - intros (z & _ & E). eapply checked_integer_wf, E. apply i64_checked_wf.
Qed.

Lemma negate_literal_wf z span v : negate_literal z span = Ok v -> wf_value v.
Proof.
  unfold negate_literal. rewrite result_bind_Ok. intros (z' & _ & E).
  eapply checked_integer_wf, E. apply i64_checked_wf.
Qed.

Lemma literal_wf l span v : literal l span = Ok v -> wf_value v.
Proof.
  destruct l; simpl; [|by intros [= <-]|by intros [= <-]].
  intros E. eapply checked_integer_wf, E. apply i64_checked_wf.
Qed.

(** ** Built-ins and JSON *)

Lemma url_path_segment_wf value span v : url_path_segment value span = Ok v -> wf_value v.
Proof.
  unfold url_path_segment. rewrite result_bind_Ok. intros (text & _ & E).
  destruct (encode_path_segment _); by apply value_variant_wf in E.
Qed.

Lemma url_query_wf value span v : url_query value span = Ok v -> wf_value v.
Proof.
  unfold url_query. destruct value; try done. rewrite result_bind_Ok. intros (ps & _ & [= <-]). done.
Qed.

Section JsonInd.
Context {N : Type}.
Variable P : Json N -> Prop.
Hypothesis HNull : P JNull.
Hypothesis HBool : forall b, P (JBool b).
Hypothesis HNumber : forall n, P (JNumber n).
Hypothesis HString : forall s, P (JString s).
Hypothesis HArray : forall js, Forall P js -> P (JArray js).
Hypothesis HObject : forall fs, Forall (fun f => P (snd f)) fs -> P (JObject fs).

Fixpoint json_ind' (j : Json N) : P j :=
  match j with
  | JNull => HNull
  | JBool b => HBool b
  | JNumber n => HNumber n
  | JString s => HString s
  | JArray js =>
      HArray js ((fix go js : Forall P js :=
        match js with
        | [] => Forall_nil_2 P
        | e :: es' => Forall_cons_2 P e es' (json_ind' e) (go es')
        end) js)
  | JObject fs =>
      HObject fs ((fix go fs : Forall (fun f => P (snd f)) fs :=
        match fs with
        | [] => Forall_nil_2 _
        | f :: fs' => Forall_cons_2 _ f fs' (json_ind' (snd f)) (go fs')
        end) fs)
  end.
End JsonInd.

Lemma sort_fields_Permutation {A} (fs : list (string * A)) : sort_fields fs ≡ₚ fs.
Proof. apply merge_sort_Permutation. Qed.

(** What a decoded value may be, whatever the object. *)
Lemma json_object_cases `{Platform} fs span v :
  json_to_value (JObject fs) span = Ok v ->
  (exists fs', try_map (fun '(name, value) => result_map (pair name) (json_to_value value span)) fs = Ok fs'
     /\ value_record (sort_fields fs') span = Ok v)
  \/ v = VVariant VNone None
  \/ (exists k j name p, fs = [(k, j)] /\ name <> VNone /\ json_to_value j span = Ok p
        /\ value_variant name p span = Ok v).
Proof.
  cbn [json_to_value]. destruct fs as [|[k j] [|f fs]]; try (rewrite result_bind_Ok; by left).
  destruct (snd <$> find _ json_tags) as [name|]; [|rewrite result_bind_Ok; by left].
  destruct (decide (name = VNone)) as [->|Hn].
  - destruct (negb (is_null j)); [done|]. intros [= <-]. by right; left.
  - intros E. right; right. exists k, j, name.
    assert ((let? payload := json_to_value j span in value_variant name payload span) = Ok v) as E'
      by (by destruct name).
    apply result_bind_Ok in E' as (p & Hp & Hv). by exists p.
Qed.

Lemma json_to_value_wf `{PlatformOk} j span v : json_to_value j span = Ok v -> wf_value v.
Proof.
  revert v. induction j as [|b|n|s|js IH|fs IH] using json_ind'; intros v.
  - by intros [= <-].
  - by intros [= <-].
  - intros E. eapply checked_integer_wf, E. apply number_range.
  - by intros [= <-].
  - simpl. rewrite result_bind_Ok. intros (vs & Hvs%try_map_Ok & E). eapply value_list_wf, E.
    clear E. induction Hvs; [done|]. apply Forall_cons in IH as [? ?]. constructor; auto.
  - intros [(fs' & Hfs%try_map_Ok & E)|[->|(k & j & name & p & -> & Hn & Hp & E)]]%json_object_cases.
    + eapply value_record_wf, E. rewrite sort_fields_Permutation. clear E.
      induction Hfs as [|[k j] [k' w] fs fs' Hj _ IH']; [done|].
      apply Forall_cons in IH as [IH1 IH2]. apply result_map_Ok in Hj as (x & Hx & [= -> ->]).
      constructor; [by apply IH1|auto].
    + done.
    + apply Forall_cons in IH as [IH _]. eapply value_variant_wf, E; [done|]. by apply IH.
Qed.

Lemma json_decode_wf `{PlatformOk} value span v : json_decode value span = Ok v -> wf_value v.
Proof.
  unfold json_decode. destruct value; try done. destruct (json_from_str _); [|done].
  apply json_to_value_wf.
Qed.

Lemma json_encode_wf `{Platform} value span v : json_encode value span = Ok v -> wf_value v.
Proof.
  unfold json_encode. rewrite result_bind_Ok. intros (j & _ & E).
  destruct (json_to_string j); [|done]. by injection E as <-.
Qed.

(** ** Pattern matching *)

Lemma match_pattern_wf p v span environment bound :
  wf_value v -> wf_env environment ->
  match_pattern p v span environment = Ok (Some bound) -> wf_env bound.
Proof.
  revert v. induction p as [k sp IH] using pattern_path_ind. intros v Hv He.
  destruct k as [name| |n payload| |h t]; simpl.
  - intros [= <-]. auto with krit.
  - intros [= <-]. auto with krit.
  - destruct v as [| | | | | |name carried| |]; try done. case_bool_decide; simpl; [|done].
    case_bool_decide; simpl; [|done]. destruct payload as [payload|], carried as [[carried d]|]; try done.
    + apply (IH n); [done| |done]. by destruct Hv as (_ & Hv & _).
    + by intros [= <-].
  - destruct v as [| | | |[|]| | | |]; try done. by intros [= <-].
  - destruct v as [| | | |[|e es] d| | | |]; try done. intros E.
    destruct (value_list_tail e es d span Hv) as (d' & HE & HD). rewrite HE in E. simpl in E.
    injection E as <-. destruct Hv as [[He1 He2] _].
    apply wf_env_extend; [by apply wf_env_extend|]. done.
Qed.

Lemma select_match_arm_wf v span arms environment e bound :
  wf_value v -> wf_env environment ->
  select_match_arm v span arms environment = Ok (e, bound) -> wf_env bound.
Proof.
  intros Hv He. induction arms as [|arm arms IH]; simpl; [done|]. rewrite result_bind_Ok.
  intros ([b|] & Hm & E); [|auto]. injection E as <- <-. by eapply match_pattern_wf.
Qed.

(** ** Division *)

Lemma i64_quot_range a b :
  in_i64 a = true -> in_i64 b = true -> b <> 0 -> ~ (a = i64_min /\ b = -1) -> in_i64 (Z.quot a b) = true.
Proof.
  rewrite !in_i64_spec. intros Ha Hb Hn Hm.
  assert (Z.abs (Z.quot a b) * Z.abs b <= Z.abs a) as HQ.
  { rewrite <- Z.quot_abs by done. rewrite Z.mul_comm. apply Z.mul_quot_le; lia. }
  unfold i64_min, i64_max in *. destruct (decide (Z.abs b = 1)) as [H1|H1]; [|nia].
  destruct (decide (b = 1)) as [->|]; [rewrite Z.quot_1_r; lia|].
  assert (b = -1) as -> by lia. change (-1) with (- (1)). rewrite Z.quot_opp_r, Z.quot_1_r by lia. lia.
Qed.

(** division of 64-bit integers.  On a zero divisor, and on the least
    integer divided by [-1], [/] and [%] fail with the same code; on every
    other pair both succeed, the quotient truncates toward zero, and dividend
    = divisor * quotient + remainder with a remainder smaller than the divisor
    and of the dividend's sign. *)
Theorem division_law (a b : Z) (span : Span) :
  in_i64 a = true -> in_i64 b = true ->
  if (b =? 0) || ((a =? i64_min) && (b =? -1)) then
    exists d d', apply_binary Divide (VInteger a) (VInteger b) span = Some (Err d)
      /\ apply_binary Remainder (VInteger a) (VInteger b) span = Some (Err d') /\ diag_code d = diag_code d'
  else
    exists q r, apply_binary Divide (VInteger a) (VInteger b) span = Some (Ok (VInteger q))
      /\ apply_binary Remainder (VInteger a) (VInteger b) span = Some (Ok (VInteger r))
      /\ a = b * q + r /\ Z.abs r < Z.abs b /\ 0 <= r * a.
Proof.
  intros Ha Hb. cbn [apply_binary integer_pair result_bind]. unfold i64_checked_div, i64_checked_rem, i64_checked.
  destruct (Z.eqb_spec b 0) as [->|Hn]; cbn [orb].
  { by eexists _, _. }
  destruct ((a =? i64_min) && (b =? -1)) eqn:E.
  - apply andb_true_iff in E as [->%Z.eqb_eq ->%Z.eqb_eq]. by eexists _, _.
  - rewrite i64_quot_range; [|done|done|done|].
    + exists (Z.quot a b), (Z.rem a b). split; [done|]. split; [done|]. split; [apply Z.quot_rem'|].
      split; [by apply Z.rem_bound_abs|by apply Z.rem_sign_mul].
    + intros [-> ->]. done.
Qed.

Lemma division_law_witness :
  in_i64 (-7) = true /\ exists q r,
    apply_binary Divide (VInteger (-7)) (VInteger 2) (mkSpan 0 0) = Some (Ok (VInteger q))
    /\ apply_binary Remainder (VInteger (-7)) (VInteger 2) (mkSpan 0 0) = Some (Ok (VInteger r))
    /\ -7 = 2 * q + r /\ Z.abs r < Z.abs 2 /\ 0 <= r * -7.
Proof. split; [reflexivity|]. apply (division_law (-7) 2 (mkSpan 0 0)); reflexivity. Defined.

(** * Checked matches at run time

    Joins the arm checks of analysis ([Patterns], [PatternFacts]) with the
    evaluator's pattern matching ([Values]): for arms the checks accept, a
    match on a value of the right shape selects exactly one arm. *)

(** The constructors of a value, from the outside in. *)
Fixpoint value_path (v : Value) : path :=
  match v with
  | VList [] _ => [CEmpty]
  | VList (_ :: _) _ => [CCons]
  | VVariant n None => [from_variant n]
  | VVariant n (Some (p, _)) => from_variant n :: value_path p
  | _ => []
  end.

(** ** One pattern *)

Lemma fits_head own w c :
  fits [c :: own] w -> exists d w', w = d :: w' /\ constructor_family d = constructor_family c.
Proof.
  intros H. destruct (H (c :: own) [] c) as (d & Hd & [w' ->]); [by left|by exists own|apply prefix_nil|].
  by exists d, w'.
Qed.

Lemma fits_tail own w c : fits [c :: own] (c :: w) -> fits [own] w.
Proof.
  intros H p pre d Hp Hpre Hw. apply list_elem_of_singleton in Hp as ->.
  destruct (H (c :: own) (c :: pre) d) as (e & He & Hpe); [by left|by apply prefix_cons|by apply prefix_cons|].
  exists e. split; [done|]. by apply prefix_cons_inv_2 in Hpe.
Qed.

Lemma from_variant_inj m n : from_variant m = from_variant n -> m = n.
Proof. by destruct m, n. Qed.

Lemma from_variant_family m n :
  constructor_family (from_variant m) = constructor_family (from_variant n) <->
  variant_family m = variant_family n.
Proof. by destruct m, n. Qed.

(** A value whose outermost constructor is a variant's. *)
Lemma value_path_variant v n d w :
  value_path v = d :: w -> constructor_family d = constructor_family (from_variant n) ->
  exists m payload, v = VVariant m payload /\ d = from_variant m
    /\ w = match payload with Some (p, _) => value_path p | None => [] end.
Proof.
  destruct v as [| | | |[|] | |m [[p dp]|]| |]; simpl; intros E Hf; simplify_eq/=;
    try (by destruct n); by eexists _, _.
Qed.

Lemma value_path_list v d w :
  value_path v = d :: w -> constructor_family d = FList ->
  exists es depth, v = VList es depth /\ w = [] /\ d = (match es with [] => CEmpty | _ => CCons end).
Proof.
  destruct v as [| | | |[|] | |m [[p dp]|]| |]; simpl; intros E Hf; simplify_eq/=;
    try (by destruct m); by eexists _, _.
Qed.

Lemma prefix_singleton (c d : Constructor) (w : path) : [c] `prefix_of` d :: w <-> c = d.
Proof.
  split; [by intros ?%prefix_cons_inv_1|]. intros ->. apply prefix_cons, prefix_nil.
Qed.

(** Matching a well-formed value that fits the pattern's path never fails, and
    succeeds exactly when the path leads into the value. *)
Lemma match_pattern_decides p steps v span environment :
  pattern_path p = Ok steps -> wf_value v -> fits [constructors steps] (value_path v) ->
  exists o, match_pattern p v span environment = Ok o
    /\ (is_Some o <-> constructors steps `prefix_of` value_path v).
Proof.
  revert steps v. induction p as [k sp IH] using pattern_path_ind. intros steps v Hp Hv F.
  destruct k as [name| |n payload| |h t]; simpl in Hp.
  - injection Hp as <-. eexists. split; [done|]. split; [intros _; apply prefix_nil|by eexists].
  - injection Hp as <-. eexists. split; [done|]. split; [intros _; apply prefix_nil|by eexists].
  - assert (exists rest, constructors steps = from_variant n :: rest
      /\ match payload with
         | Some q => exists s', pattern_path q = Ok s' /\ rest = constructors s' /\ n <> VNone
         | None => rest = [] /\ n = VNone
         end) as (rest & Hsteps & Hrest).
    { destruct n, payload as [q|]; try done; try (by injection Hp as <-; exists []);
        apply result_map_Ok in Hp as (s' & Hs' & ->); eexists; (split; [done|]); by exists s'. }
    rewrite Hsteps in F |- *. destruct (fits_head _ _ _ F) as (d & w & Hw & Hd).
    destruct (value_path_variant v n d w Hw Hd) as (m & carried & -> & -> & ->).
    cbn [match_pattern]. apply from_variant_family in Hd. rewrite bool_decide_eq_true_2 by done.
    cbn [negb]. rewrite Hw. case_bool_decide as Hmn; cbn [negb].
    + subst m. rewrite Hw in F. apply fits_tail in F. destruct payload as [q|].
      * destruct Hrest as (s' & Hs' & -> & Hn). destruct carried as [[p dp]|]; [|by simpl in Hv].
        destruct Hv as (_ & Hv & _). destruct (IH n q eq_refl s' p Hs' Hv F) as (o & Ho & Hiff).
        exists o. split; [done|]. rewrite Hiff. split; [apply prefix_cons|apply prefix_cons_inv_2].
      * destruct Hrest as [-> ->]. destruct carried as [[p dp]|]; [by destruct Hv|].
        eexists. split; [done|]. split; [done|by eexists].
    + exists None. split; [done|]. split; [by intros []|]. intros Hc%prefix_cons_inv_1.
      apply from_variant_inj in Hc. congruence.
  - injection Hp as <-. destruct (fits_head _ _ _ F) as (d & w & Hw & Hd).
    destruct (value_path_list v d w Hw Hd) as (es & depth & -> & -> & ->). rewrite Hw. simpl.
    eexists. split; [done|]. rewrite prefix_singleton. destruct es; split; try done; by eexists.
  - destruct (negb (is_catch_all h) || negb (is_catch_all t)); [done|]. injection Hp as <-.
    destruct (fits_head _ _ _ F) as (d & w & Hw & Hd).
    destruct (value_path_list v d w Hw Hd) as (es & depth & -> & -> & ->). rewrite Hw. cbn [match_pattern].
    destruct es as [|e es]; [exists None; split; [done|]; simpl; rewrite prefix_singleton; split; [by intros []|done]|].
    destruct (value_list_tail e es depth span Hv) as (d' & -> & _). simpl. eexists. split; [done|].
    rewrite prefix_singleton. by split; [|by eexists].
Qed.

(** ** A list of arms *)

Lemma disjoint_set_lookup ps i j p q :
  disjoint_set ps -> i <> j -> ps !! i = Some p -> ps !! j = Some q -> disjoint_paths p q.
Proof.
  revert i j. induction ps as [|r ps IH]; intros i j D Hne Hi Hj; [done|]. destruct D as [Hr Hs].
  unfold compatible in Hr. rewrite Forall_forall in Hr.
  destruct i as [|i], j as [|j]; simplify_eq/=.
  - by apply Hr, list_elem_of_lookup_2 with j.
  - apply disjoint_paths_sym. by apply Hr, list_elem_of_lookup_2 with i.
  - eapply IH; [done| |exact Hi|exact Hj]. congruence.
Qed.

Lemma fits_elem ps p w : p ∈ ps -> fits ps w -> fits [p] w.
Proof. intros Hp F q pre c Hq%list_elem_of_singleton. subst. by apply F. Qed.

(** With exactly one arm that matches, and none that fails, that arm is
    selected, wherever it stands. *)
Lemma select_unique v span arms environment arm bound :
  Forall (fun a => exists o, match_pattern (arm_pattern a) v span environment = Ok o) arms ->
  arm ∈ arms -> match_pattern (arm_pattern arm) v span environment = Ok (Some bound) ->
  (forall a b, a ∈ arms -> match_pattern (arm_pattern a) v span environment = Ok (Some b) -> a = arm) ->
  select_match_arm v span arms environment = Ok (arm_value arm, bound).
Proof.
  intros HF Hin Hm Hu. induction HF as [|a arms [o Ho] _ IH]; [by apply elem_of_nil in Hin|]. simpl.
  rewrite Ho. simpl. destruct o as [b|].
  - assert (a = arm) as -> by (eapply Hu; [by left|exact Ho]). rewrite Ho in Hm. by injection Hm as ->.
  - apply elem_of_cons in Hin as [<-|Hin]; [congruence|]. apply IH; [done|].
    intros a' b' Ha'. apply Hu. by right.
Qed.

(** C4: when the arms of a match pass both checks, a well-formed subject of
    the arms' shape is matched by exactly one arm; the evaluator selects that
    arm without error, whatever the order of the arms. *)
Theorem checked_match_selects (arms arms' : list MatchArm) (subject : option Family) (at_span : Span)
    (paths : list path) (v : Value) (span : Span) (environment : Environment) :
  check_arms arms subject = Ok tt -> check_exhaustive arms at_span = Ok tt -> arms <> [] ->
  try_map arm_path arms = Ok paths -> wf_value v -> fits paths (value_path v) -> arms' ≡ₚ arms ->
  exists arm bound,
    arm ∈ arms /\ match_pattern (arm_pattern arm) v span environment = Ok (Some bound)
    /\ (forall a b, a ∈ arms -> match_pattern (arm_pattern a) v span environment = Ok (Some b) -> a = arm)
    /\ select_match_arm v span arms' environment = Ok (arm_value arm, bound).
Proof.
  intros HC HE Hne HP Hv F Hperm. pose proof HC as (_ & ps & Hps & D)%check_arms_accepted.
  rewrite Hps in HP. injection HP as ->. pose proof (proj1 (try_map_Ok _ _ _) Hps) as H2.
  assert (forall i a, arms !! i = Some a -> exists p o, paths !! i = Some p
    /\ match_pattern (arm_pattern a) v span environment = Ok o
    /\ (is_Some o <-> p `prefix_of` value_path v)) as HD.
  { intros i a Ha. destruct (Forall2_lookup_l _ _ _ _ _ H2 Ha) as (p & Hp & Hpath).
    apply result_map_Ok in Hpath as (steps & Hs & ->).
    destruct (match_pattern_decides (arm_pattern a) steps v span environment Hs Hv) as (o & Ho & Hi).
    { eapply fits_elem, F. by eapply list_elem_of_lookup_2. }
    by exists (constructors steps), o. }
  destruct (exhaustive_matches arms subject at_span paths HC Hne Hps HE (value_path v) F)
    as (p & [i Hp]%list_elem_of_lookup_1 & Hpre).
  destruct (Forall2_lookup_r _ _ _ _ _ H2 Hp) as (arm & Ha & _).
  destruct (HD i arm Ha) as (p' & o & Hp' & Ho & Hiff). rewrite Hp in Hp'. injection Hp' as <-.
  destruct (proj2 Hiff Hpre) as [bound ->].
  assert (forall a b, a ∈ arms -> match_pattern (arm_pattern a) v span environment = Ok (Some b) -> a = arm) as HU.
  { intros a b [j Hj]%list_elem_of_lookup_1 Hab. destruct (HD j a Hj) as (q & o & Hq & Hoq & Hqi).
    rewrite Hab in Hoq. injection Hoq as <-. destruct (decide (i = j)) as [<-|Hij]; [congruence|].
    exfalso. destruct (disjoint_set_lookup paths i j p q D Hij Hp Hq) as [H1 H3].
    by destruct (prefix_comparable p q (value_path v) Hpre (proj1 Hqi ltac:(by eexists))). }
  exists arm, bound. split; [by eapply list_elem_of_lookup_2|]. split; [done|]. split; [done|].
  apply select_unique; [|rewrite Hperm; by eapply list_elem_of_lookup_2|done|].
  - rewrite Hperm. apply Forall_lookup. intros j a Hj. destruct (HD j a Hj) as (_ & o & _ & Hoq & _). by exists o.
  - intros a b. rewrite Hperm. apply HU.
Qed.

Lemma checked_match_selects_witness :
  exists arm bound,
    arm ∈ sample_arms
    /\ match_pattern (arm_pattern arm) (VVariant VOk (Some (VVariant VNone None, 2))) (mkSpan 0 0) [] = Ok (Some bound)
    /\ (forall a b, a ∈ sample_arms ->
          match_pattern (arm_pattern a) (VVariant VOk (Some (VVariant VNone None, 2))) (mkSpan 0 0) [] = Ok (Some b) -> a = arm)
    /\ select_match_arm (VVariant VOk (Some (VVariant VNone None, 2))) (mkSpan 0 0) (reverse sample_arms) []
       = Ok (arm_value arm, bound).
Proof.
  apply (checked_match_selects sample_arms (reverse sample_arms) None (mkSpan 0 0)
           [[COk; CSome]; [COk; CNone]; [CErr]] (VVariant VOk (Some (VVariant VNone None, 2)))
           (mkSpan 0 0) []).
  - vm_compute; reflexivity.
  - vm_compute; reflexivity.
  - discriminate.
  - vm_compute; reflexivity.
  - vm_compute. intuition discriminate.
  - intros p pre c Hp Hpre Hw.
    destruct pre as [|x [|y pre]].
    + exists COk. split; [|by eexists].
      repeat (apply elem_of_cons in Hp as [->|Hp]; [apply prefix_cons_inv_1 in Hpre; by subst|]).
      by apply elem_of_nil in Hp.
    + apply prefix_cons_inv_1 in Hw as ->. exists CNone. split; [|done].
      repeat (apply elem_of_cons in Hp as [->|Hp];
        [first [ apply prefix_cons_inv_2, prefix_cons_inv_1 in Hpre; by subst
               | apply prefix_cons_inv_1 in Hpre; discriminate ]|]).
      by apply elem_of_nil in Hp.
    + exfalso. apply prefix_length in Hpre. rewrite length_app in Hpre. simpl in Hpre.
      repeat (apply elem_of_cons in Hp as [->|Hp]; [simpl in Hpre; lia|]). by apply elem_of_nil in Hp.
  - apply reverse_Permutation.
Defined.
