(* ===== verification/Construction.v ===== *)
(** * Named construction: which fields may be written

    Models [check_construction_fields] of [krit/src/analysis.rs], which the
    evaluator runs before it builds a contract record, and the did-you-mean
    search of [krit/src/habits.rs] its note uses. *)

From S2P Require Import Prelude BTree Syntax Patterns.

(** ** The closest name ([habits.rs]) *)

Definition MAX_SUGGESTION_DISTANCE : nat := 2.

(** [left.iter().zip(right).take_while(|(l, r)| l == r).count()], and what is
    left of both sides after it. *)
Fixpoint skip_common (lhs rhs : bytes) : bytes * bytes :=
  match lhs, rhs with
  | l :: lhs', r :: rhs' => if byte_eqb l r then skip_common lhs' rhs' else (lhs, rhs)
  | _, _ => (lhs, rhs)
  end.

Definition abs_diff (a b : nat) : nat := ((a - b) + (b - a))%nat.

Fixpoint within_edits (lhs rhs : bytes) (edits : nat) : bool :=
  if Nat.ltb edits (abs_diff (length lhs) (length rhs)) then false
  else
    let '(lhs, rhs) := skip_common lhs rhs in
    match lhs, rhs, edits with
    | [], [], _ => true
    | _, _, O => false
    | _, _, S remaining =>
        match lhs, rhs with _ :: l, _ :: r => within_edits l r remaining | _, _ => false end
        || match lhs with _ :: l => within_edits l rhs remaining | [] => false end
        || match rhs with _ :: r => within_edits lhs r remaining | [] => false end
        || match lhs, rhs with
           | l0 :: l1 :: l, r0 :: r1 :: r =>
               byte_eqb l0 r1 && byte_eqb l1 r0 && within_edits l r remaining
           | _, _ => false
           end
    end.

Definition edit_distance (lhs rhs : bytes) (limit : nat) : option nat :=
  find (fun edits => within_edits lhs rhs edits) (seq 0 (S limit)).

(** [(distance, candidate) < current]. *)
Definition closer (a b : nat * string) : bool :=
  match Nat.compare (fst a) (fst b) with
  | Lt => true
  | Eq => match cmp (bytes_of (snd a)) (bytes_of (snd b)) with Lt => true | _ => false end
  | Gt => false
  end.

Definition closest_step (name : string) (best : option (nat * string)) (candidate : string)
  : option (nat * string) :=
  if bool_decide (candidate = name) || bool_decide (candidate = "_") then best
  else
    match edit_distance (bytes_of name) (bytes_of candidate) MAX_SUGGESTION_DISTANCE with
    | None => best
    | Some distance =>
        if Nat.ltb distance (String.length name)
           && match best with None => true | Some current => closer (distance, candidate) current end
        then Some (distance, candidate)
        else best
    end.

Definition closest_name (name : string) (candidates : list string) : option string :=
  snd <$> fold_left (closest_step name) candidates None.

(** ** The written fields *)

(** Joins phrases in an English list with a serial comma. *)
Definition prose_list (items : list string) : string :=
  match items with
  | [] => ""
  | [only] => only
  | [first; second] => first +:+ " and " +:+ second
  | _ => str_join ", " (removelast items) +:+ ", and " +:+ from_option id "" (last items)
  end.

Definition quote (name : string) : string := "`" +:+ name +:+ "`".

Definition code_list (names : list string) : string := prose_list (map quote names).

Definition double_quote : ascii := Ascii.ascii_of_nat 34.

(** [FieldDefault::as_source]. *)
Definition as_source (d : FieldDefault) : string :=
  match d with
  | EmptyStringDefault => str_of [double_quote; double_quote]
  | EmptyListDefault => "[]"
  end.

Definition field_names (contract : ContractRecord) : list string :=
  map contract_field_name (contract_fields contract).

Definition all_fields (contract : ContractRecord) : string :=
  quote (contract_name contract) +:+ " has the fields " +:+ code_list (field_names contract).

Definition unknown_field (contract : ContractRecord) (name : string) (span : Span) : Diagnostic :=
  with_note
    (diagnostic "K3016"
       (quote (contract_name contract) +:+ " has no field " +:+ quote name) span)
    match closest_name name (field_names contract) with
    | Some candidate => "did you mean " +:+ quote candidate +:+ "? " +:+ all_fields contract
    | None => all_fields contract
    end.

Definition repeated_field (contract : ContractRecord) (name : string) (span : Span) : Diagnostic :=
  with_note
    (diagnostic "K3016"
       ("field " +:+ quote name +:+ " is written more than once in `"
        +:+ contract_name contract +:+ " { ... }`") span)
    ("write each field once; " +:+ all_fields contract).

(** The loop over the written fields; [written] is the set of their names. *)
Fixpoint check_written (contract : ContractRecord) (written : btree string unit)
    (fields : list ConstructField) : result (btree string unit) Diagnostic :=
  match fields with
  | [] => Ok written
  | mkConstructField name name_span _ _ :: fields' =>
      match contract_field contract name with
      | None => Err (unknown_field contract name name_span)
      | Some _ =>
          if is_some (bt_get name written) then Err (repeated_field contract name name_span)
          else check_written contract (bt_insert name tt written) fields'
      end
  end.

Definition is_required (field : ContractField) : bool := negb (is_some (contract_field_default field)).

Definition required_fields (contract : ContractRecord) : list ContractField :=
  List.filter is_required (contract_fields contract).

Definition default_notes (contract : ContractRecord) : list string :=
  flat_map
    (fun field =>
       match contract_field_default field with
       | Some default =>
           [quote (contract_field_name field) +:+ " defaults to " +:+ quote (as_source default)]
       | None => []
       end)
    (contract_fields contract).

Definition missing_fields (contract : ContractRecord) (written : btree string unit) : list string :=
  map contract_field_name
    (List.filter
       (fun field => negb (is_some (bt_get (contract_field_name field) written)))
       (required_fields contract)).

Definition missing_error (contract : ContractRecord) (contract_span : Span) (missing : list string)
  : Diagnostic :=
  let name := contract_name contract in
  let required := map contract_field_name (required_fields contract) in
  let note :=
    match default_notes contract with
    | [] => quote name +:+ " requires " +:+ code_list required +:+ " and has no defaults"
    | defaults => quote name +:+ " requires " +:+ code_list required +:+ "; " +:+ prose_list defaults
    end in
  with_note
    (diagnostic "K3016"
       ("`" +:+ name +:+ " { ... }` is missing required "
        +:+ (match missing with [_] => "field" | _ => "fields" end) +:+ " " +:+ code_list missing)
       contract_span)
    note.

Definition check_construction_fields (contract : ContractRecord) (contract_span : Span)
    (fields : list ConstructField) : result unit Diagnostic :=
  let? written := check_written contract [] fields in
  match missing_fields contract written with
  | [] => Ok tt
  | missing => Err (missing_error contract contract_span missing)
  end.

(** ** What the check accepts *)

Lemma check_written_Ok contract written fields written' :
  bt_sorted written ->
  check_written contract written fields = Ok written' ->
  bt_sorted written'
  /\ NoDup (map construct_field_name fields)
  /\ Forall (fun f => is_some (contract_field contract (construct_field_name f)) = true) fields
  /\ (forall f, f ∈ fields -> bt_get (construct_field_name f) written = None)
  /\ forall n, is_Some (bt_get n written') <->
       is_Some (bt_get n written) \/ n ∈ map construct_field_name fields.
Proof.
  revert written. induction fields as [|[name ns v sp] fields IH]; intros written Hs Hw; simpl in *.
  { injection Hw as <-. split; [done|]. split; [constructor|]. split; [done|].
    split; [by intros f ?%elem_of_nil|]. intros n. set_solver. }
  destruct (contract_field contract name) eqn:Ef; [|done].
  destruct (bt_get name written) eqn:Eg; simpl in Hw; [done|].
  destruct (IH _ (bt_insert_sorted name tt written Hs) Hw) as (H1 & H2 & H3 & H4 & H5).
  assert (forall n, bt_get n (bt_insert name tt written)
            = if decide (cmp n name = Eq) then Some tt else bt_get n written) as HG
    by (intros n; by apply bt_get_insert).
  assert (name ∉ map construct_field_name fields) as Hn.
  { intros (f & Hf & Hin)%list_elem_of_fmap. specialize (H4 f Hin). rewrite <- Hf, HG in H4.
    by rewrite decide_True in H4 by apply cmp_refl. }
  split; [done|]. split; [by constructor|]. split; [constructor; [simpl; by rewrite Ef|done]|]. split.
  - intros f [->|Hin]%elem_of_cons; [done|]. specialize (H4 f Hin). rewrite HG in H4.
    by case_decide.
  - intros n. rewrite H5, HG. case_decide as D.
    + apply cmp_eq_iff in D as ->. split; [right; by left|left; by eexists].
    + rewrite cmp_eq_iff in D. rewrite elem_of_cons. naive_solver.
Qed.

(** An accepted construction writes known fields, each once, and every field
    without a default. *)
Lemma check_construction_accepts contract span fields :
  check_construction_fields contract span fields = Ok tt ->
  NoDup (map construct_field_name fields)
  /\ Forall (fun f => is_some (contract_field contract (construct_field_name f)) = true) fields
  /\ Forall (fun f => contract_field_default f = None ->
                      contract_field_name f ∈ map construct_field_name fields)
       (contract_fields contract).
Proof.
  unfold check_construction_fields. destruct (check_written contract [] fields) as [written|] eqn:E; [|done].
  simpl. destruct (missing_fields contract written) eqn:Em; [intros _|done].
  apply check_written_Ok in E as (_ & HD & HF & _ & HW); [|done]. split; [done|]. split; [done|].
  apply Forall_forall. intros f Hf Hreq.
  assert (is_Some (bt_get (contract_field_name f) written)) as Hg.
  2:{ apply HW in Hg as [[? H]|H]; [done|done]. }
  destruct (bt_get (contract_field_name f) written) eqn:Eg; [by eexists|]. exfalso.
  assert (In (contract_field_name f) []) as []. rewrite <- Em. apply in_map. unfold required_fields.
  rewrite !List.filter_In. rewrite Eg. unfold is_required. rewrite Hreq. by apply list_elem_of_In in Hf.
Qed.
