(* ===== verification/Evaluator.v ===== *)
(** * The direct evaluator

    Models [krit/src/evaluator.rs] from [execute] down: an explicit state (the
    output sink and the two depth counters), early exits and diagnostics as
    outcomes, and panics ([unreachable!], [expect]) as an outcome of their own.

    The Rust functions recurse through [expression] and [block] only; both
    call [enter], which refuses past [MAX_EVALUATION_DEPTH].  The model's fuel
    is spent at exactly those two functions, and every function between them
    is defined once, over the two recursive calls it is given. *)

From S2P Require Import Prelude BTree Syntax Patterns RequestTarget Values Construction.

(** ** State and outcomes *)

Inductive Exit : Type := Question (span : Span) | LetElse (span : Span).

Inductive Interrupt : Type :=
| IError (diagnostic : Diagnostic)
| IExit (value : Value) (exit : Exit).

Inductive Outcome (A : Type) : Type :=
| Done (a : A)
| Stopped (interrupt : Interrupt)
| Panicked
| NoFuel.
Arguments Done {A} a.
Arguments Stopped {A} interrupt.
Arguments Panicked {A}.
Arguments NoFuel {A}.

Record Evaluator `{Platform} : Type := mkEvaluator {
  ev_output : Sink;
  ev_depth : Z;
  ev_calls : Z;
}.

(** A [Flow<A>]-returning method of the evaluator. *)
Definition M `{Platform} (A : Type) : Type := Evaluator -> Evaluator * Outcome A.

Section Monad.
Context `{Platform}.

Definition ret {A} (a : A) : M A := fun s => (s, Done a).

Definition bind {A B} (m : M A) (k : A -> M B) : M B :=
  fun s =>
    match m s with
    | (s', Done a) => k a s'
    | (s', Stopped i) => (s', Stopped i)
    | (s', Panicked) => (s', Panicked)
    | (s', NoFuel) => (s', NoFuel)
    end.

Definition stop {A} (i : Interrupt) : M A := fun s => (s, Stopped i).
Definition fail {A} (d : Diagnostic) : M A := stop (IError d).
Definition panic {A} : M A := fun s => (s, Panicked).
Definition no_fuel {A} : M A := fun s => (s, NoFuel).

(** [From<Diagnostic> for Interrupt], at a [?]. *)
Definition lift {A} (r : result A Diagnostic) : M A :=
  match r with Ok a => ret a | Err d => fail d end.

(** The same for a function with an [unreachable!] in it. *)
Definition lift_reachable {A} (r : option (result A Diagnostic)) : M A :=
  match r with Some r => lift r | None => panic end.
End Monad.

Notation "'let!' x := c 'in' k" := (bind c (fun x => k))
  (at level 10, x pattern, c at level 100, k at level 200,
   format "'[v' 'let!'  x  :=  c  'in' '/' k ']'") : krit_scope.

Section Evaluator.
Context `{Platform}.

(** ** [enter], and a counted evaluation *)

Definition set_depth (s : Evaluator) (depth : Z) : Evaluator :=
  mkEvaluator _ (ev_output s) depth (ev_calls s).
Definition set_calls (s : Evaluator) (calls : Z) : Evaluator :=
  mkEvaluator _ (ev_output s) (ev_depth s) calls.
Definition set_output (s : Evaluator) (output : Sink) : Evaluator :=
  mkEvaluator _ output (ev_depth s) (ev_calls s).

Definition depth_error (span : Span) : Diagnostic :=
  diagnostic "K4010"
    ("evaluation depth limit exceeded: more than " +:+ pretty MAX_EVALUATION_DEPTH
     +:+ " nested evaluations") span.

Definition enter (span : Span) : M unit :=
  fun s =>
    if MAX_EVALUATION_DEPTH <=? ev_depth s then (s, Stopped (IError (depth_error span)))
    else (set_depth s (ev_depth s + 1), Done tt).

(** [self.enter(span)?; let value = contents; self.depth -= 1; value]. *)
Definition nested {A} (span : Span) (contents : M A) : M A :=
  let! _ := enter span in
  fun s => let '(s', value) := contents s in (set_depth s' (ev_depth s' - 1), value).

(** ** Output and built-ins *)

Definition write (text : string) (span : Span) : M unit :=
  fun s =>
    let '(output, error) := write_all (ev_output s) text in
    (set_output s output,
     match error with
     | None => Done tt
     | Some error => Stopped (IError (diagnostic "K4007" ("output failed: " +:+ error) span))
     end).

Definition newline : string := String "010" "".

(** [argument()]: the next evaluated argument. *)
Definition argument (values : list Value) : M (Value * list Value) :=
  match values with
  | [] => panic
  | value :: values' => ret (value, values')
  end.

Definition string_test (builtin : BuiltinFunction) (text part : string) : bool :=
  match builtin with
  | BStringContains => contains (bytes_of part) (bytes_of text)
  | BStringStartsWith => starts_with (bytes_of part) (bytes_of text)
  | _ => ends_with (bytes_of part) (bytes_of text)
  end.

Definition apply_builtin (builtin : BuiltinFunction) (values : list Value) (span : Span) : M Value :=
  match builtin with
  | BPrint | BPrintln =>
      let! (value, _) := argument values in
      let! _ := write (render value) span in
      let! _ := (if bool_decide (builtin = BPrintln) then write newline span else ret tt) in
      ret VUnit
  | BSome => let! (value, _) := argument values in lift (value_variant VSome value span)
  | BOk => let! (value, _) := argument values in lift (value_variant VOk value span)
  | BErr => let! (value, _) := argument values in lift (value_variant VErr value span)
  | BJsonEncode => let! (value, _) := argument values in lift (json_encode value span)
  | BJsonDecode => let! (value, _) := argument values in lift (json_decode value span)
  | BIntToString =>
      let! (value, _) := argument values in
      let! value := lift (expect_integer value span) in ret (VString (pretty value))
  | BUrlPathSegment => let! (value, _) := argument values in lift (url_path_segment value span)
  | BUrlQuery => let! (value, _) := argument values in lift (url_query value span)
  | BStringByteLen =>
      let! (value, _) := argument values in
      let! text := lift (expect_string value span) in
      lift (ok_or (VInteger <$> i64_checked (str_len text))
              (diagnostic "K4005" "string byte length overflow" span))
  | BStringIsEmpty =>
      let! (value, _) := argument values in
      let! text := lift (expect_string value span) in ret (VBoolean (str_len text =? 0))
  | BStringContains | BStringStartsWith | BStringEndsWith =>
      let! (value, values) := argument values in
      let! text := lift (expect_string value span) in
      let! (value, _) := argument values in
      let! part := lift (expect_string value span) in
      ret (VBoolean (string_test builtin text part))
  | BAiInvoke | BConfigString | BSecret | BHttpRequest | BLogInfo | BLogError | BStateGet | BStatePut
  | BStateDelete | BCheckpointGet | BCheckpointPut | BReplayHttp | BReplayAi | BQueuePublish
  | BObjectGet | BObjectPut | BObjectDelete | BDatabaseBeginRead | BDatabaseBeginWrite
  | BDatabaseQuery | BDatabaseExecute | BDatabaseCommit | BDatabaseRollback | BCacheGet | BCachePut
  | BCacheDelete | BSearchQuery | BVectorSearch => panic
  end.

(** ** [?] *)

Definition propagate (value : Value) (question : Span) : M Value :=
  match value with
  | VVariant (VOk | VSome) (Some (payload, _)) => ret payload
  | VVariant (VErr | VNone) _ => stop (IExit value (Question question))
  | _ =>
      fail (diagnostic "K4001" ("expected result or option for `?`, found " +:+ kind value) question)
  end.

(** ** The functions between [expression] and [block] *)

Section Contents.
Variable expression : Expression -> Environment -> M Value.
Variable block : Block -> Environment -> M Value.

(** The loops that evaluate operands and arguments left to right. *)
Fixpoint expressions (es : list Expression) (environment : Environment) : M (list Value) :=
  match es with
  | [] => ret []
  | e :: es' =>
      let! value := expression e environment in
      let! values := expressions es' environment in
      ret (value :: values)
  end.

Fixpoint record_fields (fields : list RecordField) (environment : Environment)
  : M (list (string * Value)) :=
  match fields with
  | [] => ret []
  | mkRecordField name e _ :: fields' =>
      let! value := expression e environment in
      let! values := record_fields fields' environment in
      ret ((name, value) :: values)
  end.

Fixpoint entries (es : list ListEntry) (environment : Environment) : M (list Value) :=
  match es with
  | [] => ret []
  | mkListEntry key value entry_span :: es' =>
      let! name := expression key environment in
      let! value := expression value environment in
      let! entry := lift (value_record [("name", name); ("value", value)] entry_span) in
      let! values := entries es' environment in
      ret (entry :: values)
  end.

(** [text] is the string built so far. *)
Fixpoint interpolation_from (text : string) (parts : list StringPart) (environment : Environment)
  : M Value :=
  match parts with
  | [] => ret (VString text)
  | PartText value _ :: parts' => interpolation_from (text +:+ value) parts' environment
  | PartHole hole span :: parts' =>
      let! value := expression hole environment in
      match value with
      | VString value => interpolation_from (text +:+ value) parts' environment
      | other =>
          fail (diagnostic "K4001"
                  ("an interpolation hole must be a string, found " +:+ kind other) span)
      end
  end.

Definition interpolation (parts : list StringPart) (environment : Environment) : M Value :=
  interpolation_from "" parts environment.

(** Named construction: the written values in source order... *)
Fixpoint written_values (fields : list ConstructField) (environment : Environment)
  : M (list (string * option Value)) :=
  match fields with
  | [] => ret []
  | mkConstructField name _ e _ :: fields' =>
      let! value := expression e environment in
      let! values := written_values fields' environment in
      ret ((name, Some value) :: values)
  end.

(** ... then each contract field takes its written value out of the list... *)
Fixpoint take_written (name : string) (written : list (string * option Value))
  : option Value * list (string * option Value) :=
  match written with
  | [] => (None, [])
  | (n, value) :: written' =>
      if bool_decide (n = name) then (value, (n, None) :: written')
      else let '(taken, written') := take_written name written' in (taken, (n, value) :: written')
  end.

(** ... or its default. *)
Fixpoint fill_fields (fields : list ContractField) (written : list (string * option Value))
    (span : Span) : M (list (string * Value)) :=
  match fields with
  | [] => ret []
  | field :: fields' =>
      let '(taken, written) := take_written (contract_field_name field) written in
      let! value :=
        match taken, contract_field_default field with
        | Some value, _ => ret value
        | None, Some EmptyStringDefault => ret (VString "")
        | None, Some EmptyListDefault => lift (value_list [] span)
        | None, None => panic
        end in
      let! values := fill_fields fields' written span in
      ret ((contract_field_name field, value) :: values)
  end.

Definition construction (contract : ContractRecord) (contract_span : Span)
    (fields : list ConstructField) (environment : Environment) (span : Span) : M Value :=
  let! _ := lift (check_construction_fields contract contract_span fields) in
  let! written := written_values fields environment in
  let! values := fill_fields (contract_fields contract) written span in
  lift (value_record values span).

Definition match_expression (subject : Expression) (arms : list MatchArm) (environment : Environment)
  : M Value :=
  let! subject_value := expression subject environment in
  let! (arm, arm_environment) :=
    lift (select_match_arm subject_value (expression_span subject) arms environment) in
  expression arm arm_environment.

(** The loop down an [else if] chain. *)
Fixpoint if_chain (current : Expression) (environment : Environment) : M Value :=
  match current with
  | mkExpression (EIf condition consequent alternative) _ =>
      let! condition_value := expression condition environment in
      let! truth := lift (expect_boolean condition_value (expression_span condition)) in
      if truth : bool then block consequent environment
      else if_chain alternative environment
  | _ => expression current environment
  end.

Definition binary (operator : BinaryOperator) (left_value : Value) (rhs : Expression)
    (environment : Environment) (span : Span) : M Value :=
  match operator with
  | And =>
      let! truth := lift (expect_boolean left_value span) in
      if truth : bool then
        let! rhs := expression rhs environment in
        let! rhs := lift (expect_boolean rhs span) in ret (VBoolean rhs)
      else ret (VBoolean false)
  | Or =>
      let! truth := lift (expect_boolean left_value span) in
      if truth : bool then ret (VBoolean true)
      else
        let! rhs := expression rhs environment in
        let! rhs := lift (expect_boolean rhs span) in ret (VBoolean rhs)
  | _ =>
      let! right_value := expression rhs environment in
      lift_reachable (apply_binary operator left_value right_value span)
  end.

(** The binary nodes down the left spine, the lowest first, and the operand
    below them: the [Vec] the code pushes the nodes to and pops them from. *)
Fixpoint binary_spine (current : Expression) (spine : list Expression)
  : Expression * list Expression :=
  match current with
  | mkExpression (EBinary lhs _ _) _ => binary_spine lhs (current :: spine)
  | _ => (current, spine)
  end.

Fixpoint binary_unwind (spine : list Expression) (value : Value) (environment : Environment)
  : M Value :=
  match spine with
  | [] => ret value
  | mkExpression (EBinary _ operator rhs) span :: spine' =>
      let! value := binary operator value rhs environment span in
      binary_unwind spine' value environment
  | _ :: _ => panic
  end.

Definition binary_chain (e : Expression) (environment : Environment) : M Value :=
  let '(lowest, spine) := binary_spine e [] in
  let! value := expression lowest environment in
  binary_unwind spine value environment.

Definition unary (operator : UnaryOperator) (operand : Expression) (environment : Environment)
    (span : Span) : M Value :=
  match operator, expression_kind operand with
  | Negate, ELiteral (LInteger value) => lift (negate_literal value span)
  | _, _ =>
      let! value := expression operand environment in
      lift (apply_unary operator value span)
  end.

Definition bind_parameters (environment : Environment) (bound : list (string * Value)) : Environment :=
  fold_left (fun environment '(parameter, value) => env_extend environment parameter value)
    bound environment.

Definition call_depth_error (span : Span) : Diagnostic :=
  diagnostic "K4010"
    ("call depth limit exceeded: more than " +:+ pretty MAX_CALL_DEPTH +:+ " nested function calls")
    span.

(** The counted call of the body, which an exit inside it ends. *)
Definition call_body (body : Block) (environment : Environment) (span : Span) : M Value :=
  fun s =>
    if MAX_CALL_DEPTH <=? ev_calls s then (s, Stopped (IError (call_depth_error span)))
    else
      let '(s', value) := block body environment (set_calls s (ev_calls s + 1)) in
      (set_calls s' (ev_calls s' - 1),
       match value with Stopped (IExit value _) => Done value | value => value end).

Definition call_function (function : FunctionValue) (arguments : list Expression)
    (environment : Environment) (span : Span) : M Value :=
  if negb (Nat.eqb (length arguments) (length (fn_parameters function))) then
    fail (arity_error (length (fn_parameters function)) (length arguments) span)
  else
    let! values := expressions arguments environment in
    let call_environment :=
      match fn_name function with
      | Some name => env_extend (fn_environment function) name (function_value function)
      | None => fn_environment function
      end in
    call_body (fn_body function)
      (bind_parameters call_environment (zip (fn_parameters function) values)) span.

Definition call_builtin (builtin : BuiltinFunction) (arguments : list Expression)
    (environment : Environment) (span : Span) : M Value :=
  if negb (Nat.eqb (length arguments) (builtin_arity builtin)) then
    fail (arity_error (builtin_arity builtin) (length arguments) span)
  else
    match unavailable_builtin_message builtin with
    | Some message =>
        let! _ := expressions arguments environment in
        fail (diagnostic "K5003" message span)
    | None =>
        let! values := expressions arguments environment in
        apply_builtin builtin values span
    end.

Definition call (callee : Expression) (arguments : list Expression) (environment : Environment)
    (span : Span) : M Value :=
  let! callee_value := expression callee environment in
  match callee_value with
  | VFunction name parameters body closed =>
      call_function (mkFunctionValue name parameters body closed) arguments environment span
  | VBuiltin builtin => call_builtin builtin arguments environment span
  | value => fail (not_callable value (expression_span callee))
  end.

Definition let_else_mismatch (family : VariantFamily) (found : string) (span : Span) : Diagnostic :=
  diagnostic "K4001"
    ("expected " +:+ variant_family_name family +:+ " for let-else, found " +:+ found) span.

Definition let_else (head : Span) (pattern : VariantPattern) (value : Expression) (arm : VariantArm)
    (environment : Environment) : M Environment :=
  let! subject := expression value environment in
  let family := variant_family (vp_variant pattern) in
  match subject, arm with
  | VVariant name payload, mkVariantArm arm_variant arm_binding arm_body _ =>
      let bind_payload (binding : option string) : Environment :=
        match binding, payload with
        | Some binding, Some (payload, _) => env_extend environment binding payload
        | _, _ => environment
        end in
      if bool_decide (name = vp_variant pattern) then ret (bind_payload (vp_binding pattern))
      else if negb (bool_decide (name = arm_variant)) then
        fail (if bool_decide (variant_family name = family) then
                diagnostic "K4001" ("no let-else pattern matches `" +:+ variant_str name +:+ "`")
                  (expression_span value)
              else
                let_else_mismatch family (variant_family_name (variant_family name))
                  (expression_span value))
      else
        let! value := expression arm_body (bind_payload arm_binding) in
        stop (IExit value (LetElse head))
  | _, _ => fail (let_else_mismatch family (kind subject) (expression_span value))
  end.

Definition statement (st : Statement) (environment : Environment) : M Environment :=
  match st with
  | mkStatement st_kind span =>
      match st_kind with
      | SLet name _ value =>
          let! value := expression value environment in
          ret (env_extend environment name value)
      | SLetElse pattern _ value _ arm =>
          let_else (mkSpan (span_start span) (span_end (vp_span pattern))) pattern value arm environment
      | SFunction name parameters _ body _
      | SWebhook name parameters _ body _
      | SQueueConsumer _ _ name parameters _ body _
      | SScheduleHandler _ _ name parameters _ body _ =>
          ret (env_extend environment name (closure (Some name) parameters body environment))
      | SExpression e => let! _ := expression e environment in ret environment
      end
  end.

Fixpoint statements (sts : list Statement) (environment : Environment) : M Environment :=
  match sts with
  | [] => ret environment
  | st :: sts' => let! environment := statement st environment in statements sts' environment
  end.

Definition block_contents (b : Block) (environment : Environment) : M Value :=
  match b with
  | mkBlock sts tail _ =>
      let! local := statements sts environment in
      match tail with None => ret VUnit | Some tail => expression tail local end
  end.

Definition expression_contents (e : Expression) (environment : Environment) : M Value :=
  match e with
  | mkExpression ekind span =>
      match ekind with
      | ELiteral l => lift (literal l span)
      | EInterpolation parts => interpolation parts environment
      | EUnit => ret VUnit
      | EVariable name => lift (variable name environment span)
      | EList elements =>
          let! values := expressions elements environment in lift (value_list values span)
      | ERecord fields =>
          let! values := record_fields fields environment in lift (value_record values span)
      | EEntryList es => let! values := entries es environment in lift (value_list values span)
      | EConstruct contract contract_span fields =>
          construction contract contract_span fields environment span
      | EFieldAccess value field =>
          let! value := expression value environment in lift (field_value value field span)
      | EBlock b => block b environment
      | EIf _ _ _ => if_chain e environment
      | EFunction parameters _ body => ret (closure None parameters body environment)
      | ECall callee arguments => call callee arguments environment span
      | EPropagate operand question =>
          let! value := expression operand environment in propagate value question
      | EMatch subject arms => match_expression subject arms environment
      | EUnary operator operand => unary operator operand environment span
      | EBinary _ _ _ => binary_chain e environment
      end
  end.
End Contents.

(** ** The recursion *)

(** [Evaluator::expression] and [Evaluator::block]. *)
Fixpoint expression (fuel : nat) (e : Expression) (environment : Environment) : M Value :=
  match fuel with
  | O => no_fuel
  | S fuel =>
      nested (expression_span e)
        (expression_contents (expression fuel) (block fuel) e environment)
  end
with block (fuel : nat) (b : Block) (environment : Environment) : M Value :=
  match fuel with
  | O => no_fuel
  | S fuel => nested (block_span b) (block_contents (expression fuel) b environment)
  end.

(** [Evaluator::program]: the statements in order, each in the environment of
    the ones before; an exit that no function call ended is an error. *)
Fixpoint run_statements (fuel : nat) (sts : list Statement) (environment : Environment) : M Value :=
  match sts with
  | [] => ret VUnit
  | st :: sts' =>
      fun s =>
        match statement (expression fuel) st environment s with
        | (s', Done environment) => run_statements fuel sts' environment s'
        | (s', Stopped (IError diagnostic)) => (s', Stopped (IError diagnostic))
        | (s', Stopped (IExit _ (Question question))) =>
            (s', Stopped (IError (diagnostic "K3012" "`?` is not allowed at the top level" question)))
        | (s', Stopped (IExit _ (LetElse head))) =>
            (s', Stopped (IError
              (diagnostic "K3014" "let-else is not allowed at the top level" head)))
        | (s', Panicked) => (s', Panicked)
        | (s', NoFuel) => (s', NoFuel)
        end
  end.

Definition program (fuel : nat) (p : Program) : M Value :=
  run_statements fuel (program_statements p) [].

Definition initial (output : Sink) : Evaluator := mkEvaluator _ output 0 0.

(** Enough for every program: [enter] refuses before it is spent. *)
Definition execute_fuel : nat := Z.to_nat (MAX_EVALUATION_DEPTH + 1).

Definition execute (p : Program) (output : Sink) : Evaluator * Outcome Value :=
  program execute_fuel p (initial output).
End Evaluator.
