(* ===== verification/Samples.v ===== *)
(** * A concrete host and concrete programs

    The instance of [Platform] the witnesses of the evaluator's theorems run
    on -- an output that collects text, and numbers that are integers -- and
    small programs written as syntax trees. *)

From S2P Require Import Prelude BTree Syntax Patterns RequestTarget Values Construction Evaluator.

#[export] Instance SamplePlatform : Platform := {|
  Sink := string;
  write_all o text := (o +:+ text, None);
  Number := Z;
  number_from_i64 z := z;
  number_as_i64 z := i64_checked z;
  json_to_string _ := Err "no text codec";
  json_from_str _ := Err "no text codec";
  str_debug s := s;
|}.

#[export] Instance SamplePlatformOk : PlatformOk.
Proof.
  split; simpl; unfold i64_checked.
  - by intros z ->.
  - intros n z. destruct (in_i64 n) eqn:E; [|done]. by intros [= <-].
Qed.

Definition at0 : Span := mkSpan 0 0.
Definition ex (k : ExpressionKind) : Expression := mkExpression k at0.
Definition var (name : string) : Expression := ex (EVariable name).
Definition int (z : Z) : Expression := ex (ELiteral (LInteger z)).
Definition str (s : string) : Expression := ex (ELiteral (LString s)).
Definition app (f : Expression) (args : list Expression) : Expression := ex (ECall f args).
Definition bin (l : Expression) (o : BinaryOperator) (r : Expression) : Expression := ex (EBinary l o r).
Definition st (k : StatementKind) : Statement := mkStatement k at0.
Definition body (e : Expression) : Block := mkBlock [] (Some e) at0.
Definition param (name : string) : FnParameter := mkFnParameter name None at0.

(** The output and the outcome of a run. *)
Definition run (p : Program) : string * Outcome Value :=
  let '(s, outcome) := execute p "" in (ev_output s, outcome).

(** [fn sum(n) { if n == 0 { 0 } else { n + sum(n - 1) } }  println(sum(10));] *)
Definition sum_program : Program :=
  mkProgram
    [st (SFunction "sum" [param "n"] None
           (body (ex (EIf (bin (var "n") Equal (int 0)) (body (int 0))
                        (ex (EBlock (body (bin (var "n") Add
                           (app (var "sum") [bin (var "n") Subtract (int 1)])))))))) None);
     st (SExpression (app (var "println") [app (var "sum") [int 10]]))].

Example sum_runs : run sum_program = ("55" +:+ newline, Done VUnit).
Proof. vm_compute. reflexivity. Qed.

(** [let x = 9223372036854775807 + 1;]: checked arithmetic. *)
Example overflow_stops :
  snd (run (mkProgram [st (SLet "x" None (bin (int i64_max) Add (int 1)))])) 
  = Stopped (IError (overflow at0)).
Proof. vm_compute. reflexivity. Qed.

(** [fn f(x) { println(x?); Some(1) }  println(f(None));]: the [?] returns. *)
Example question_returns :
  run (mkProgram
    [st (SFunction "f" [param "x"] None
       (mkBlock [st (SExpression (app (var "println") [ex (EPropagate (var "x") at0)]))]
          (Some (app (var "Some") [int 1])) at0) None);
     st (SExpression (app (var "println") [app (var "f") [var "None"]]))]) 
  = ("None" +:+ newline, Done VUnit).
Proof. vm_compute. reflexivity. Qed.

(** [HttpResponse { status: 204 }] takes its defaults. *)
Example construction_defaults :
  snd (run (mkProgram
    [st (SExpression (app (var "println")
       [ex (EConstruct HttpResponse at0 [mkConstructField "status" at0 (int 204) at0])]))])) 
  = Done VUnit.
Proof. vm_compute. reflexivity. Qed.

(** [fn f(n) { f(n + 1) }  f(0);] stops at the call depth limit. *)
Definition spin_program : Program :=
  mkProgram
    [st (SFunction "f" [param "n"] None
           (body (app (var "f") [bin (var "n") Add (int 1)])) None);
     st (SExpression (app (var "f") [int 0]))].

Example spin_stops : snd (run spin_program) = Stopped (IError (call_depth_error at0)).
Proof. vm_compute. reflexivity. Qed.
