(* ===== verification/EvaluatorFacts.v ===== *)
(** * The evaluator is total, balanced and keeps values well formed

    One judgement, [safe], carries the whole argument: from a state within its
    bounds and with fuel above the remaining evaluation depth, a computation
    never runs out of fuel, never panics, restores both counters, only appends
    to the output, and yields well-formed results. *)

From S2P Require Import Prelude BTree Syntax Patterns RequestTarget Values Construction Evaluator ValueFacts Samples.

Section Facts.
Context `{PlatformOk}.

(** Reachable by writing. *)
Inductive writes : Sink -> Sink -> Prop :=
| writes_nil o : writes o o
| writes_snoc o o' text : writes o o' -> writes o (fst (write_all o' text)).

Lemma writes_trans a b c : writes a b -> writes b c -> writes a c.
Proof. intros Hab. induction 1; [done|]. constructor. auto. Qed.

(** The bounds of the counters. *)
Definition in_bounds (s : Evaluator) : Prop :=
  0 <= ev_depth s <= MAX_EVALUATION_DEPTH /\ 0 <= ev_calls s <= MAX_CALL_DEPTH.

(** What a computation leaves of the state it started from. *)
Definition framed (s s' : Evaluator) : Prop :=
  ev_depth s' = ev_depth s /\ ev_calls s' = ev_calls s /\ writes (ev_output s) (ev_output s').

Definition outcome_ok {A} (Q : A -> Prop) (o : Outcome A) : Prop :=
  match o with
  | Done a => Q a
  | Stopped (IError _) => True
  | Stopped (IExit v _) => wf_value v
  | Panicked | NoFuel => False
  end.

Definition safe {A} (fuel : nat) (m : M A) (Q : A -> Prop) : Prop :=
  forall s, in_bounds s -> MAX_EVALUATION_DEPTH - ev_depth s < Z.of_nat fuel ->
    framed s (fst (m s)) /\ outcome_ok Q (snd (m s)).

Lemma framed_refl s : framed s s.
Proof. split; [done|]. split; [done|constructor]. Qed.

Lemma framed_trans a b c : framed a b -> framed b c -> framed a c.
Proof.
  intros (H1 & H2 & H3) (H4 & H5 & H6). split; [congruence|]. split; [congruence|].
  by eapply writes_trans.
Qed.

Lemma framed_bounds s s' : framed s s' -> in_bounds s -> in_bounds s'.
Proof. intros (H1 & H2 & _). unfold in_bounds. by rewrite H1, H2. Qed.

(** ** Rules of the judgement *)

Lemma safe_ret {A} n (a : A) (Q : A -> Prop) : Q a -> safe n (ret a) Q.
Proof. intros HQ s _ _. split; [apply framed_refl|done]. Qed.

Lemma safe_fail {A} n d (Q : A -> Prop) : safe n (fail d) Q.
Proof. intros s _ _. split; [apply framed_refl|done]. Qed.

Lemma safe_exit {A} n v exit (Q : A -> Prop) : wf_value v -> safe n (stop (IExit v exit)) Q.
Proof. intros Hv s _ _. split; [apply framed_refl|done]. Qed.

Lemma safe_lift {A} n (r : result A Diagnostic) (Q : A -> Prop) :
  (forall a, r = Ok a -> Q a) -> safe n (lift r) Q.
Proof. intros HQ. destruct r; [by apply safe_ret, HQ|apply safe_fail]. Qed.

Lemma safe_bind {A B} n (m : M A) (k : A -> M B) (Q : A -> Prop) (R : B -> Prop) :
  safe n m Q -> (forall a, Q a -> safe n (k a) R) -> safe n (bind m k) R.
Proof.
  intros Hm Hk s Hs Hn. destruct (Hm s Hs Hn) as [Hf Ho]. unfold bind.
  destruct (m s) as [s' o]. simpl in *. pose proof (framed_bounds _ _ Hf Hs) as Hs'.
  destruct o as [a|i| |]; simpl in *; try done.
  destruct (Hk a Ho s' Hs') as [Hf' Ho']; [by rewrite (proj1 Hf)|].
  split; [by eapply framed_trans|done].
Qed.

Lemma safe_weaken {A} n (m : M A) (Q R : A -> Prop) :
  (forall a, Q a -> R a) -> safe n m Q -> safe n m R.
Proof.
  intros HQ Hm s Hs Hn. destruct (Hm s Hs Hn) as [Hf Ho]. split; [done|].
  destruct (snd (m s)); simpl in *; auto.
Qed.

(** Entering spends one unit of fuel and one level of depth. *)
Lemma safe_nested {A} n span (m : M A) (Q : A -> Prop) : safe n m Q -> safe (S n) (nested span m) Q.
Proof.
  intros Hm s [Hd Hc] Hn. unfold nested, bind, enter.
  destruct (Z.leb_spec MAX_EVALUATION_DEPTH (ev_depth s)) as [Hmax|Hmax]; simpl.
  { split; [apply framed_refl|done]. }
  destruct (Hm (set_depth s (ev_depth s + 1))) as [(H1 & H2 & H3) Ho].
  { split; simpl; lia. }
  { simpl. lia. }
  destruct (m _) as [s' o]. simpl in *. split; [|done]. split; [simpl; lia|]. by split.
Qed.

Lemma safe_write n text span : safe n (write text span) (fun _ => True).
Proof.
  intros s _ _. unfold write. destruct (write_all (ev_output s) text) as [o e] eqn:E. simpl.
  split; [|by destruct e]. split; [done|]. split; [done|]. simpl.
  change o with (fst (o, e)). rewrite <- E. constructor. constructor.
Qed.

Lemma safe_bind_lift {A B} n (r : result A Diagnostic) (k : A -> M B) (R : B -> Prop) :
  (forall a, r = Ok a -> safe n (k a) R) -> safe n (bind (lift r) k) R.
Proof.
  intros Hk. apply (safe_bind _ _ _ (fun a => r = Ok a)); [by apply safe_lift|done].
Qed.

Lemma safe_bind_ret {A B} n (a : A) (k : A -> M B) (R : B -> Prop) :
  safe n (k a) R -> safe n (bind (ret a) k) R.
Proof. done. Qed.

Lemma safe_bind_write {B} n text span (k : unit -> M B) (R : B -> Prop) :
  safe n (k tt) R -> safe n (bind (write text span) k) R.
Proof. intros Hk. eapply safe_bind; [apply safe_write|]. by intros [] _. Qed.

(** One step of a computation, by its head. *)
Ltac safe_step :=
  lazymatch goal with
  | |- safe _ (ret _) _ => apply safe_ret
  | |- safe _ (fail _) _ => apply safe_fail
  | |- safe _ (lift _) _ => apply safe_lift; let E := fresh "E" in intros ? E
  | |- safe _ (bind (lift _) _) _ => apply safe_bind_lift; let E := fresh "E" in intros ? E
  | |- safe _ (bind (ret _) _) _ => apply safe_bind_ret
  | |- safe _ (bind (write _ _) _) _ => apply safe_bind_write
  | |- safe _ (bind (argument (_ :: _)) _) _ => cbn [argument]
  | |- safe _ (bind (if ?b then _ else _) _) _ => destruct b
  end.

(** ** Built-ins *)

Lemma apply_builtin_safe n builtin values span :
  unavailable_builtin_message builtin = None -> length values = builtin_arity builtin ->
  Forall wf_value values -> safe n (apply_builtin builtin values span) wf_value.
Proof.
  intros Hb Hlen Hw.
  destruct builtin; try done; simpl in Hlen;
    (destruct values as [|v [|v' [|]]]; try done); apply Forall_cons in Hw as [Hv Hw'];
    cbn [apply_builtin argument]; apply safe_bind_ret; try (repeat safe_step; done).
  - safe_step. by apply value_variant_wf in E.
  - safe_step. by apply value_variant_wf in E.
  - safe_step. by apply value_variant_wf in E.
  - safe_step. by apply json_encode_wf in E.
  - safe_step. by apply json_decode_wf in E.
  - safe_step. by apply url_path_segment_wf in E.
  - safe_step. by apply url_query_wf in E.
  - do 2 safe_step. eapply checked_integer_wf, E0. apply i64_checked_wf.
Qed.

Lemma propagate_safe n v question : wf_value v -> safe n (propagate v question) wf_value.
Proof.
  intros Hv. unfold propagate. destruct v as [| | | | | |[] [[p d]|]| |]; try apply safe_fail;
    try (by apply safe_exit); apply safe_ret; by destruct Hv as (_ & ? & _).
Qed.

(** ** The functions between [expression] and [block] *)

Section Contents.
Variables (expr : Expression -> Environment -> M Value) (blk : Block -> Environment -> M Value).
Variable n : nat.
Hypothesis expr_safe : forall e environment, wf_env environment -> safe n (expr e environment) wf_value.
Hypothesis blk_safe : forall b environment, wf_env environment -> safe n (blk b environment) wf_value.

(** An evaluated operand is well formed. *)
Lemma safe_operand {B} e environment (k : Value -> M B) (R : B -> Prop) :
  wf_env environment -> (forall v, wf_value v -> safe n (k v) R) ->
  safe n (bind (expr e environment) k) R.
Proof. intros He Hk. eapply safe_bind; [by apply expr_safe|done]. Qed.

Ltac operand := apply safe_operand; [by auto with krit|intros ? ?].

Lemma expressions_safe es environment :
  wf_env environment ->
  safe n (expressions expr es environment) (fun vs => Forall wf_value vs /\ length vs = length es).
Proof.
  intros He. induction es as [|e es IH]; simpl; [by apply safe_ret|]. operand.
  eapply safe_bind; [exact IH|]. intros vs [? ?]. apply safe_ret. simpl. auto.
Qed.

Lemma record_fields_safe fs environment :
  wf_env environment ->
  safe n (record_fields expr fs environment) (Forall (fun f => wf_value (snd f))).
Proof.
  intros He. induction fs as [|[name e sp] fs IH]; simpl; [by apply safe_ret|]. operand.
  eapply safe_bind; [exact IH|]. intros vs ?. apply safe_ret. auto.
Qed.

Lemma entries_safe es environment :
  wf_env environment -> safe n (entries expr es environment) (Forall wf_value).
Proof.
  intros He. induction es as [|[key value sp] es IH]; simpl; [by apply safe_ret|]. operand. operand.
  safe_step. eapply safe_bind; [exact IH|]. intros vs ?. apply safe_ret. constructor; [|done].
  eapply value_record_wf, E. by repeat constructor.
Qed.

Lemma interpolation_safe parts environment :
  wf_env environment -> safe n (interpolation expr parts environment) wf_value.
Proof.
  intros He. unfold interpolation. generalize "". induction parts as [|[text sp|hole sp] parts IH];
    intros t; simpl; [by apply safe_ret|apply IH|]. operand. destruct v; try apply safe_fail. apply IH.
Qed.

(** ** Named construction *)

Definition written_ok (written : list (string * option Value)) : Prop :=
  Forall (fun f => forall v, snd f = Some v -> wf_value v) written.

Lemma written_values_safe fs environment :
  wf_env environment ->
  safe n (written_values expr fs environment) (fun written =>
    written_ok written /\ map fst written = map construct_field_name fs
    /\ Forall (fun f => snd f <> None) written).
Proof.
  intros He. induction fs as [|[name ns e sp] fs IH]; simpl; [by apply safe_ret; repeat constructor|].
  operand. eapply safe_bind; [exact IH|]. intros vs (? & ? & ?). apply safe_ret. simpl. split.
  - constructor; [|done]. by intros w [= <-].
  - split; [by f_equal|by constructor].
Qed.

Lemma take_written_ok name written taken written' :
  take_written name written = (taken, written') -> written_ok written ->
  written_ok written' /\ (forall v, taken = Some v -> wf_value v)
  /\ map fst written' = map fst written.
Proof.
  revert taken written'. induction written as [|[m v] written IH]; intros taken written' E Hw; simpl in E.
  { by injection E as <- <-. }
  apply Forall_cons in Hw as [Hv Hw]. case_bool_decide; simpl in E.
  - injection E as <- <-. split; [by constructor|]. done.
  - destruct (take_written name written) as [t w]. injection E as <- <-.
    destruct (IH t w eq_refl Hw) as (? & ? & ?). split; [by constructor|].
    split; [done|]. simpl. by f_equal.
Qed.

(** A field whose written value is still there. *)
Definition available (written : list (string * option Value)) (name : string) : Prop :=
  is_Some (fst (take_written name written)).

Lemma available_initially written name :
  name ∈ map fst written -> Forall (fun f => snd f <> None) written -> available written name.
Proof.
  unfold available. intros Hin Hs. induction written as [|[m v] written IH]; simpl in *;
    [by apply elem_of_nil in Hin|]. apply Forall_cons in Hs as [Hv Hs]. simpl in Hv.
  case_bool_decide; simpl; [by apply not_eq_None_Some|].
  apply elem_of_cons in Hin as [->|Hin]; [done|]. specialize (IH Hin Hs).
  by destruct (take_written name written).
Qed.

Lemma available_other written name other :
  name <> other -> available written name -> available (snd (take_written other written)) name.
Proof.
  unfold available. intros Hne. induction written as [|[m v] written IH]; simpl; [done|].
  repeat case_bool_decide; subst; simpl; try done.
  - destruct (take_written other written) as [t w]. simpl. by rewrite bool_decide_eq_true_2.
  - rewrite bool_decide_eq_false_2 by done. by destruct (take_written name written).
  - destruct (take_written other written) as [t w], (take_written name written) as [t' w'].
    simpl in *. rewrite bool_decide_eq_false_2 by done. intros Ha. specialize (IH Ha).
    by destruct (take_written name w).
Qed.

Lemma fill_fields_safe fields written span :
  NoDup (map contract_field_name fields) -> written_ok written ->
  Forall (fun f => contract_field_default f = None -> available written (contract_field_name f)) fields ->
  safe n (fill_fields fields written span) (Forall (fun f => wf_value (snd f))).
Proof.
  revert written. induction fields as [|field fields IH]; intros written Hd Hw Ha;
    cbn [fill_fields]; [by apply safe_ret|].
  rewrite map_cons in Hd. apply NoDup_cons in Hd as [Hn Hd]. apply Forall_cons in Ha as [Ha1 Ha2].
  destruct (take_written _ written) as [taken written'] eqn:E.
  destruct (take_written_ok _ _ _ _ E Hw) as (Hw' & Ht & _).
  eapply (safe_bind _ _ _ wf_value).
  - destruct taken as [v|]; [by apply safe_ret, Ht|].
    destruct (contract_field_default field) as [[]|]; [by apply safe_ret| |].
    + apply safe_lift. intros v. by apply value_list_wf.
    + specialize (Ha1 eq_refl). unfold available in Ha1. rewrite E in Ha1. by destruct Ha1.
  - intros v Hv. eapply safe_bind; [apply IH; [done|done|]|].
    + rewrite Forall_forall in Ha2 |- *. intros f Hf Hdef.
      change written' with (snd (taken, written')). rewrite <- E. apply available_other; [|by apply Ha2].
      intros Heq. apply Hn. rewrite <- Heq. by apply list_elem_of_fmap_2.
    + intros vs Hvs. apply safe_ret. by constructor.
Qed.

Lemma contract_fields_NoDup contract : NoDup (map contract_field_name (contract_fields contract)).
Proof. apply (bool_decide_unpack _). by destruct contract. Qed.

Lemma construction_safe contract cs fields environment span :
  wf_env environment -> safe n (construction expr contract cs fields environment span) wf_value.
Proof.
  intros He. unfold construction. safe_step. destruct a.
  apply check_construction_accepts in E as (_ & _ & Hreq).
  eapply safe_bind; [by apply written_values_safe|]. intros written (Hw & Hn & Hs).
  eapply safe_bind; [apply fill_fields_safe|].
  - apply contract_fields_NoDup.
  - done.
  - rewrite Forall_forall in Hreq |- *. intros f Hf Hdef. apply available_initially; [|done].
    rewrite Hn. by apply Hreq.
  - intros vs Hvs. safe_step. by eapply value_record_wf.
Qed.

(** ** Control *)

Lemma match_expression_safe subject arms environment :
  wf_env environment -> safe n (match_expression expr subject arms environment) wf_value.
Proof.
  intros He. unfold match_expression. operand. safe_step. destruct a as [arm bound].
  apply expr_safe. by eapply select_match_arm_wf.
Qed.

Lemma if_chain_safe e environment :
  wf_env environment -> safe n (if_chain expr blk e environment) wf_value.
Proof.
  intros He. revert e. fix IH 1. intros [[] sp]; simpl; try by apply expr_safe.
  operand. safe_step. destruct a; [by apply blk_safe|apply IH].
Qed.

Lemma apply_binary_safe operator lhs rhs span :
  wf_value lhs -> wf_value rhs -> operator <> And -> operator <> Or ->
  safe n (lift_reachable (apply_binary operator lhs rhs span)) wf_value.
Proof.
  intros Hl Hr Ha Ho. destruct (apply_binary operator lhs rhs span) as [r|] eqn:E.
  - simpl. apply safe_lift. intros v ->. by apply (apply_binary_wf operator lhs rhs span (Ok v)).
  - by destruct operator.
Qed.

Lemma binary_safe operator v rhs environment span :
  wf_value v -> wf_env environment -> safe n (binary expr operator v rhs environment span) wf_value.
Proof.
  intros Hv He. unfold binary. destruct operator;
    try (operand; apply apply_binary_safe; [done|done|discriminate|discriminate]).
  - safe_step. destruct a; [operand; safe_step; by apply safe_ret|by apply safe_ret].
  - safe_step. destruct a; [by apply safe_ret|operand; safe_step; by apply safe_ret].
Qed.

(** Every node of a spine is a binary expression. *)
Definition is_binary (e : Expression) : Prop :=
  match e with mkExpression (EBinary _ _ _) _ => True | _ => False end.

Lemma binary_spine_binary e spine :
  Forall is_binary spine -> Forall is_binary (snd (binary_spine e spine)).
Proof.
  revert e spine. fix IH 1. intros [[] sp] spine Hs; simpl; try done. apply IH. by constructor.
Qed.

Lemma binary_unwind_safe spine v environment :
  Forall is_binary spine -> wf_value v -> wf_env environment ->
  safe n (binary_unwind expr spine v environment) wf_value.
Proof.
  intros Hs Hv He. revert v Hv. induction Hs as [|[[] sp] spine Hb _ IH]; intros v Hv; simpl; try done.
  - by apply safe_ret.
  - eapply safe_bind; [by apply binary_safe|]. auto.
Qed.

Lemma binary_chain_safe e environment :
  wf_env environment -> safe n (binary_chain expr e environment) wf_value.
Proof.
  intros He. unfold binary_chain. pose proof (binary_spine_binary e [] (Forall_nil_2 _)) as Hs.
  destruct (binary_spine e []) as [lowest spine]. operand. by apply binary_unwind_safe.
Qed.

Lemma unary_safe operator operand environment span :
  wf_env environment -> safe n (unary expr operator operand environment span) wf_value.
Proof.
  intros He. unfold unary.
  assert (safe n (let! value := expr operand environment in lift (apply_unary operator value span)) wf_value).
  { operand. safe_step. by eapply apply_unary_wf. }
  destruct operator; [done|]. destruct (expression_kind operand) as [[]| | | | | | | | | | | | | | | |]; try done.
  safe_step. by eapply negate_literal_wf.
Qed.

(** ** Calls *)

Lemma bind_parameters_wf environment bound :
  wf_env environment -> Forall (fun f => wf_value (snd f)) bound ->
  wf_env (bind_parameters environment bound).
Proof.
  intros He Hb. unfold bind_parameters. revert environment He.
  induction Hb as [|[m v] bound Hv _ IH]; intros environment He; simpl; [done|]. apply IH. auto with krit.
Qed.

Lemma call_body_safe body environment span :
  wf_env environment -> safe n (call_body blk body environment span) wf_value.
Proof.
  intros He s [Hd Hc] Hn. unfold call_body.
  destruct (Z.leb_spec MAX_CALL_DEPTH (ev_calls s)) as [Hm|Hm]; simpl.
  { split; [apply framed_refl|done]. }
  destruct (blk_safe body environment He (set_calls s (ev_calls s + 1))) as [(H1 & H2 & H3) Ho].
  { split; simpl; lia. }
  { done. }
  destruct (blk body environment _) as [s' o]. simpl in *. split.
  - split; [done|]. split; [simpl; lia|done].
  - by destruct o as [|[]| |].
Qed.

Lemma call_function_safe function arguments environment span :
  wf_value (function_value function) -> wf_env environment ->
  safe n (call_function expr blk function arguments environment span) wf_value.
Proof.
  intros Hf He. unfold call_function. destruct (negb _); [apply safe_fail|].
  eapply safe_bind; [by apply expressions_safe|]. intros vs [Hvs _]. apply call_body_safe.
  apply bind_parameters_wf.
  - assert (wf_env (fn_environment function)) by (by apply All_Forall).
    destruct (fn_name function); [by apply wf_env_extend|done].
  - clear -Hvs. revert vs Hvs. induction (fn_parameters function) as [|p ps IH]; intros [|v vs] Hvs; simpl; auto.
    apply Forall_cons in Hvs as [? ?]. constructor; auto.
Qed.

Lemma call_builtin_safe builtin arguments environment span :
  wf_env environment -> safe n (call_builtin expr builtin arguments environment span) wf_value.
Proof.
  intros He. unfold call_builtin. destruct (Nat.eqb_spec (length arguments) (builtin_arity builtin)) as [Hl|];
    simpl; [|apply safe_fail].
  destruct (unavailable_builtin_message builtin) eqn:Eu.
  - eapply safe_bind; [by apply expressions_safe|]. intros. apply safe_fail.
  - eapply safe_bind; [by apply expressions_safe|]. intros vs [Hvs Hlen].
    apply apply_builtin_safe; [done|congruence|done].
Qed.

Lemma call_safe callee arguments environment span :
  wf_env environment -> safe n (call expr blk callee arguments environment span) wf_value.
Proof.
  intros He. unfold call. operand. destruct v; try apply safe_fail.
  - by apply call_function_safe.
  - by apply call_builtin_safe.
Qed.

(** ** Statements, blocks, expressions *)

Lemma let_else_safe head pattern value arm environment :
  wf_env environment -> safe n (let_else expr head pattern value arm environment) wf_env.
Proof.
  intros He. unfold let_else. operand. destruct v as [| | | | | |name payload| |]; try apply safe_fail.
  destruct arm as [av ab abody asp].
  assert (forall b, wf_env match b, payload with
    | Some b, Some (p, _) => env_extend environment b p | _, _ => environment end) as Hb.
  { intros [b|]; [|done]. destruct payload as [[p d]|]; [|done]. apply wf_env_extend; [done|].
    by destruct H1 as (_ & ? & _). }
  case_bool_decide; [by apply safe_ret|]. destruct (negb _); [apply safe_fail|].
  eapply safe_bind; [by apply expr_safe|]. intros. by apply safe_exit.
Qed.

Lemma statement_safe st environment :
  wf_env environment -> safe n (statement expr st environment) wf_env.
Proof.
  intros He. destruct st as [[] sp]; simpl; try (apply safe_ret; by auto with krit).
  - operand. apply safe_ret. auto with krit.
  - by apply let_else_safe.
  - operand. by apply safe_ret.
Qed.

Lemma block_contents_safe b environment :
  wf_env environment -> safe n (block_contents expr b environment) wf_value.
Proof.
  intros He. destruct b as [sts tail sp]. simpl. apply (safe_bind _ _ _ wf_env).
  - revert environment He. induction sts as [|st sts IH]; intros environment He; simpl; [by apply safe_ret|].
    eapply safe_bind; [by apply statement_safe|auto].
  - intros local Hl. destruct tail; [by apply expr_safe|by apply safe_ret].
Qed.

Lemma expression_contents_safe e environment :
  wf_env environment -> safe n (expression_contents expr blk e environment) wf_value.
Proof.
  intros He. destruct e as [k sp]. unfold expression_contents.
  destruct k; try (apply safe_ret; by auto with krit).
  - safe_step. by eapply literal_wf.
  - by apply interpolation_safe.
  - safe_step. by eapply variable_wf.
  - eapply safe_bind; [by apply expressions_safe|]. intros vs [? _]. safe_step. by eapply value_list_wf.
  - eapply safe_bind; [by apply entries_safe|]. intros vs ?. safe_step. by eapply value_list_wf.
  - eapply safe_bind; [by apply record_fields_safe|]. intros vs ?. safe_step. by eapply value_record_wf.
  - by apply construction_safe.
  - operand. safe_step. by eapply field_value_wf.
  - by apply blk_safe.
  - by apply if_chain_safe.
  - by apply call_safe.
  - operand. by apply propagate_safe.
  - by apply match_expression_safe.
  - by apply unary_safe.
  - by apply binary_chain_safe.
Qed.
End Contents.

(** ** The whole evaluator *)

Lemma evaluator_safe fuel :
  (forall e environment, wf_env environment -> safe fuel (expression fuel e environment) wf_value)
  /\ (forall b environment, wf_env environment -> safe fuel (block fuel b environment) wf_value).
Proof.
  induction fuel as [|fuel [IHe IHb]].
  { split; intros x environment _ s [Hs _] Hn; lia. }
  split; intros x environment He; simpl; apply safe_nested.
  - by apply expression_contents_safe.
  - by apply block_contents_safe.
Qed.

Lemma run_statements_safe fuel sts environment :
  wf_env environment -> safe fuel (run_statements fuel sts environment) (fun v => v = VUnit).
Proof.
  revert environment. induction sts as [|st sts IH]; intros environment He; simpl; [by apply safe_ret|].
  intros s Hs Hn.
  destruct (statement_safe (expression fuel) fuel (proj1 (evaluator_safe fuel)) st environment He s Hs Hn)
    as [Hf Ho].
  destruct (statement _ st environment s) as [s' o]. simpl in *.
  destruct o as [environment'|[d|v [q|q]]| |]; simpl in *; try done.
  destruct (IH environment' Ho s') as [Hf' Ho']; [by eapply framed_bounds|by rewrite (proj1 Hf)|].
  split; [by eapply framed_trans|done].
Qed.

Lemma run_statements_no_exit fuel sts environment s v x :
  snd (run_statements fuel sts environment s) <> Stopped (IExit v x).
Proof.
  revert environment s. induction sts as [|st sts IH]; intros environment s; simpl; [done|].
  destruct (statement _ _ _ _) as [s' [e|[d|w [q|q]]| |]]; simpl; done || apply IH.
Qed.

(** ** Fuel is not observable *)

(** Wherever [m] does not run out of fuel, [m'] does the same. *)
Definition agree {A} (m m' : M A) : Prop := forall s, snd (m s) <> NoFuel -> m' s = m s.

Lemma agree_refl {A} (m : M A) : agree m m.
Proof. by intros s _. Qed.

Lemma agree_bind {A B} (m m' : M A) (k k' : A -> M B) :
  agree m m' -> (forall a, agree (k a) (k' a)) -> agree (bind m k) (bind m' k').
Proof.
  intros Hm Hk s. unfold bind. specialize (Hm s). destruct (m s) as [s' o]. simpl in Hm.
  destruct o as [a|i| |]; intros Hn; try (rewrite Hm by done; done).
  rewrite Hm by done. by apply Hk.
Qed.

Lemma agree_nested {A} span (m m' : M A) : agree m m' -> agree (nested span m) (nested span m').
Proof.
  intros Hm. apply agree_bind; [apply agree_refl|]. intros _ s Hn.
  specialize (Hm s). destruct (m s) as [s' o]. simpl in *. by rewrite Hm.
Qed.

Section Agree.
Variables (e1 e2 : Expression -> Environment -> M Value) (b1 b2 : Block -> Environment -> M Value).
Hypothesis e_agree : forall e environment, agree (e1 e environment) (e2 e environment).
Hypothesis b_agree : forall b environment, agree (b1 b environment) (b2 b environment).

(** Descends through the common structure of two computations. *)
Ltac agreeing :=
  repeat first
    [ apply agree_refl
    | apply e_agree
    | apply b_agree
    | apply agree_bind; [|intros ?]
    | match goal with |- agree (match ?x with _ => _ end) _ => destruct x end ].

Lemma expressions_agree es environment : agree (expressions e1 es environment) (expressions e2 es environment).
Proof. induction es; simpl; agreeing; done. Qed.

Lemma record_fields_agree fs environment :
  agree (record_fields e1 fs environment) (record_fields e2 fs environment).
Proof. induction fs as [|[]]; simpl; agreeing; done. Qed.

Lemma entries_agree es environment : agree (entries e1 es environment) (entries e2 es environment).
Proof. induction es as [|[]]; simpl; agreeing; done. Qed.

Lemma interpolation_agree parts environment :
  agree (interpolation e1 parts environment) (interpolation e2 parts environment).
Proof.
  unfold interpolation. generalize "". induction parts as [|[] parts IH]; intros t; simpl; agreeing; apply IH.
Qed.

Lemma written_values_agree fs environment :
  agree (written_values e1 fs environment) (written_values e2 fs environment).
Proof. induction fs as [|[]]; simpl; agreeing; done. Qed.

Lemma if_chain_agree e environment : agree (if_chain e1 b1 e environment) (if_chain e2 b2 e environment).
Proof. revert e. fix IH 1. intros [[] sp]; simpl; agreeing; apply IH. Qed.

Lemma binary_agree operator v rhs environment span :
  agree (binary e1 operator v rhs environment span) (binary e2 operator v rhs environment span).
Proof. destruct operator; simpl; agreeing. Qed.

Lemma binary_unwind_agree spine v environment :
  agree (binary_unwind e1 spine v environment) (binary_unwind e2 spine v environment).
Proof.
  revert v. induction spine as [|[[] sp] spine IH]; intros v; simpl; try apply agree_refl.
  apply agree_bind; [apply binary_agree|apply IH].
Qed.

Lemma call_body_agree body environment span :
  agree (call_body b1 body environment span) (call_body b2 body environment span).
Proof.
  intros s. unfold call_body. destruct (MAX_CALL_DEPTH <=? ev_calls s); [done|].
  pose proof (b_agree body environment (set_calls s (ev_calls s + 1))) as Hb.
  destruct (b1 body environment _) as [s' o]. simpl in *. intros Hn. rewrite Hb; [done|].
  intros ->. by apply Hn.
Qed.

Lemma call_agree callee arguments environment span :
  agree (call e1 b1 callee arguments environment span) (call e2 b2 callee arguments environment span).
Proof.
  unfold call. agreeing; unfold call_function, call_builtin; agreeing;
    first [apply expressions_agree|apply call_body_agree].
Qed.

Lemma statement_agree st environment : agree (statement e1 st environment) (statement e2 st environment).
Proof. destruct st as [[] sp]; simpl; agreeing. unfold let_else. agreeing. Qed.

Lemma block_contents_agree b environment :
  agree (block_contents e1 b environment) (block_contents e2 b environment).
Proof.
  destruct b as [sts tail sp]. simpl. apply agree_bind; [|intros local; destruct tail; agreeing].
  revert environment. induction sts as [|st sts IH]; intros environment; simpl; [apply agree_refl|].
  apply agree_bind; [apply statement_agree|apply IH].
Qed.

Lemma expression_contents_agree e environment :
  agree (expression_contents e1 b1 e environment) (expression_contents e2 b2 e environment).
Proof.
  destruct e as [k sp]. unfold expression_contents.
  destruct k; try (agreeing; fail).
  - apply interpolation_agree.
  - apply agree_bind; [apply expressions_agree|intros; apply agree_refl].
  - apply agree_bind; [apply entries_agree|intros; apply agree_refl].
  - apply agree_bind; [apply record_fields_agree|intros; apply agree_refl].
  - unfold construction. agreeing. apply written_values_agree.
  - apply if_chain_agree.
  - apply call_agree.
  - unfold unary. agreeing.
  - unfold binary_chain. destruct (binary_spine _ _). agreeing. apply binary_unwind_agree.
Qed.
End Agree.

Lemma fuel_agree fuel more :
  (forall e environment, agree (expression fuel e environment) (expression (fuel + more) e environment))
  /\ (forall b environment, agree (block fuel b environment) (block (fuel + more) b environment)).
Proof.
  induction fuel as [|fuel [IHe IHb]]; [split; by intros x environment s []|].
  split; intros x environment; simpl; apply agree_nested.
  - by apply expression_contents_agree.
  - by apply block_contents_agree.
Qed.

(** How a run ends. *)
Lemma execute_ends (p : Program) (output : Sink) :
  let '(s, outcome) := execute p output in
  (outcome = Done VUnit \/ exists d, outcome = Stopped (IError d))
  /\ ev_depth s = 0 /\ ev_calls s = 0 /\ writes output (ev_output s).
Proof.
  pose proof (run_statements_safe execute_fuel (program_statements p) [] (Forall_nil_2 _)
                (initial output)) as HS.
  pose proof (run_statements_no_exit execute_fuel (program_statements p) [] (initial output)) as HX.
  unfold execute, program in *. destruct HS as [(H1 & H2 & H3) Ho].
  { split; simpl; unfold MAX_EVALUATION_DEPTH, MAX_CALL_DEPTH; lia. }
  { unfold execute_fuel. simpl. lia. }
  destruct (run_statements _ _ _ _) as [s o]. simpl in *.
  split; [|by split; [|split]].
  destruct o as [v|[d|v x]| |]; simpl in *; [left; by subst|right; eauto|by destruct (HX v x)|done|done].
Qed.

(** C2: running a program always ends, and ends well: for every program and
    every output, evaluation with the fuel of [execute] neither runs out of
    fuel nor panics; it ends with the unit value or with a diagnostic, both
    counters are back at zero, and the output only gained writes. *)
Theorem execute_total (p : Program) (output : Sink) :
  let '(s, outcome) := execute p output in
  (outcome = Done VUnit \/ exists d, outcome = Stopped (IError d))
  /\ ev_depth s = 0 /\ ev_calls s = 0 /\ writes output (ev_output s).
Proof. apply execute_ends. Qed.

(** C17: evaluating an expression, at any point of a run and with any fuel
    above the remaining evaluation depth, ends without panicking, restores
    both counters, and produces only well-formed values -- integers within 64
    bits, variants with exactly the payload they have, and lists, records and
    variants whose recorded depth is exact and at most [MAX_VALUE_DEPTH]. *)
Theorem expression_preserves (fuel : nat) (e : Expression) (environment : Environment) (s : Evaluator) :
  in_bounds s -> MAX_EVALUATION_DEPTH - ev_depth s < Z.of_nat fuel -> wf_env environment ->
  let '(s', outcome) := expression fuel e environment s in
  ev_depth s' = ev_depth s /\ ev_calls s' = ev_calls s
  /\ match outcome with
     | Done v | Stopped (IExit v _) =>
         wf_value v /\ value_depth v = nesting v /\ nesting v <= MAX_VALUE_DEPTH
     | Stopped (IError _) => True
     | Panicked | NoFuel => False
     end.
Proof.
  intros Hs Hn He. destruct (proj1 (evaluator_safe fuel) e environment He s Hs Hn) as [(H1 & H2 & _) Ho].
  destruct (expression fuel e environment s) as [s' o]. simpl in *. split; [done|]. split; [done|].
  destruct o as [v|[d|v x]| |]; simpl in *; try done;
    destruct (wf_value_depth v Ho); (split; [done|]; split; [done|lia]).
Qed.

(** The fuel of the model is not observable: above the remaining
    evaluation depth, every amount of fuel gives the same state and outcome. *)
Theorem fuel_irrelevant (fuel fuel' : nat) (e : Expression) (environment : Environment) (s : Evaluator) :
  in_bounds s -> MAX_EVALUATION_DEPTH - ev_depth s < Z.of_nat fuel -> (fuel <= fuel')%nat ->
  wf_env environment ->
  expression fuel' e environment s = expression fuel e environment s.
Proof.
  intros Hs Hn Hle He. replace fuel' with (fuel + (fuel' - fuel))%nat by lia.
  apply fuel_agree. destruct (proj1 (evaluator_safe fuel) e environment He s Hs Hn) as [_ Ho].
  by destruct (snd _).
Qed.
End Facts.

(** ** Witnesses *)

Definition sample_state : Evaluator := @initial SamplePlatform "".

Lemma execute_total_witness :
  let '(s, outcome) := @execute SamplePlatform sum_program "" in
  (outcome = Done VUnit \/ exists d, outcome = Stopped (IError d))
  /\ ev_depth s = 0 /\ ev_calls s = 0 /\ @writes SamplePlatform "" (ev_output s).
Proof. apply (@execute_total SamplePlatform SamplePlatformOk sum_program ""). Defined.

Lemma sample_in_bounds : in_bounds sample_state.
Proof. vm_compute. intuition discriminate. Qed.

Lemma sample_fuel (n : nat) :
  MAX_EVALUATION_DEPTH < Z.of_nat n -> MAX_EVALUATION_DEPTH - ev_depth sample_state < Z.of_nat n.
Proof. simpl. lia. Qed.

Lemma expression_preserves_witness :
  let '(s', outcome) := expression execute_fuel (app (var "Some") [int 1]) [] sample_state in
  ev_depth s' = ev_depth sample_state /\ ev_calls s' = ev_calls sample_state
  /\ match outcome with
     | Done v | Stopped (IExit v _) =>
         wf_value v /\ value_depth v = nesting v /\ nesting v <= MAX_VALUE_DEPTH
     | Stopped (IError _) => True
     | Panicked | NoFuel => False
     end.
Proof.
  apply (expression_preserves execute_fuel (app (var "Some") [int 1]) [] sample_state);
    [apply sample_in_bounds|apply sample_fuel; unfold execute_fuel; rewrite Z2Nat.id; vm_compute; congruence|constructor].
Defined.

Lemma fuel_irrelevant_witness :
  expression (S execute_fuel) (app (var "Some") [int 1]) [] sample_state
  = expression execute_fuel (app (var "Some") [int 1]) [] sample_state.
Proof.
  apply (fuel_irrelevant execute_fuel (S execute_fuel) (app (var "Some") [int 1]) [] sample_state);
    [apply sample_in_bounds|apply sample_fuel; unfold execute_fuel; rewrite Z2Nat.id; vm_compute; congruence
    |lia|constructor].
Defined.
