(* ===== verification/DataFacts.v ===== *)
(** * Data: equality and JSON

    Structural equality of values without functions is equality of canonical
    forms (record fields sorted by name), and JSON conversion keeps the
    canonical form. *)

From S2P Require Import Prelude BTree Syntax Patterns RequestTarget Values ValueFacts Samples.

(** ** Data and its canonical form *)

(** No function anywhere, and the fields of every record named apart. *)
Fixpoint data (v : Value) : Prop :=
  match v with
  | VInteger _ | VBoolean _ | VString _ | VUnit | VVariant _ None => True
  | VList es _ => All data es
  | VRecord fs _ => NoDup (map fst fs) /\ All (fun f => data (snd f)) fs
  | VVariant _ (Some (p, _)) => data p
  | VFunction _ _ _ _ | VBuiltin _ => False
  end.

Definition map_snd {A B} (f : A -> B) (l : list (string * A)) : list (string * B) :=
  map (fun kv => (fst kv, f (snd kv))) l.

(** Fields in name order, recorded depths erased. *)
Fixpoint canon (v : Value) : Value :=
  match v with
  | VList es _ => VList (map canon es) 0
  | VRecord fs _ => VRecord (bt_extend (map (fun f => (fst f, canon (snd f))) fs) []) 0
  | VVariant n (Some (p, _)) => VVariant n (Some (canon p, 0))
  | v => v
  end.

Lemma map_snd_keys {A B} (f : A -> B) l : map fst (map_snd f l) = map fst l.
Proof. unfold map_snd. rewrite map_map. done. Qed.

Lemma data_no_function v : data v -> contains_function v = false.
Proof.
  induction v as [| | | |es d IH|fs d IH| |n p d IH| |] using value_ind'; simpl; try done.
  - rewrite All_Forall. intros Hd. apply existsb_False. rewrite Forall_forall in *. auto.
  - rewrite All_Forall. intros [_ Hd]. apply existsb_False. rewrite Forall_forall in *.
    intros [k v] Hin. apply (IH (k, v) Hin), (Hd (k, v) Hin).
Qed.

(** ** Fields *)

Lemma find_field_In k x fs : NoDup (map fst fs) -> find_field k fs = Some x <-> (k, x) ∈ fs.
Proof.
  induction fs as [|[k' x'] fs IH]; simpl; [by rewrite elem_of_nil|]. intros [Hn Hd]%NoDup_cons.
  rewrite elem_of_cons. case_bool_decide as Hk.
  - subst k'. split; [intros [= <-]; by left|]. intros [[= ->]|Hin]; [done|].
    exfalso. apply Hn. by apply (list_elem_of_fmap_2 fst) in Hin.
  - rewrite IH by done. split; [by right|]. by intros [[= -> ->]|?].
Qed.

(** Lists of fields named apart, of one length, with one inside the other,
    hold the same fields. *)
Lemma fields_perm {A} (l1 l2 : list (string * A)) :
  NoDup (map fst l1) -> length l1 = length l2 -> (forall f, f ∈ l1 -> f ∈ l2) -> l1 ≡ₚ l2.
Proof.
  intros Hd Hl Hin. apply submseteq_length_Permutation; [|by rewrite Hl].
  apply NoDup_submseteq; [by eapply NoDup_fmap_1|done].
Qed.

Lemma record_canon_eq fs gs :
  NoDup (map fst fs) -> NoDup (map fst gs) ->
  bt_extend (map_snd canon fs) [] = bt_extend (map_snd canon gs) [] <-> map_snd canon fs ≡ₚ map_snd canon gs.
Proof.
  intros Hf Hg. assert (forall fs, NoDup (map fst fs) -> bt_extend (map_snd canon fs) [] ≡ₚ map_snd canon fs) as HP
    by (intros; apply bt_extend_nil; by rewrite map_snd_keys).
  split.
  - intros E. by rewrite <- (HP fs), <- (HP gs), E.
  - intros E. apply bt_sorted_perm; [by apply bt_extend_sorted..|]. by rewrite HP, HP.
Qed.

(** ** Equality *)

(** [value_equal v w] decides [canon v = canon w]. *)
Definition decides (v w : Value) (span : Span) : Prop :=
  exists b, value_equal v w span = Ok b /\ (b = true <-> canon v = canon w).

Lemma elements_equal_decides span es fs :
  Forall2 (fun v w => decides v w span) es fs ->
  exists b, elements_equal (fun l r => value_equal l r span) es fs = Ok b
    /\ (b = true <-> map canon es = map canon fs).
Proof.
  induction 1 as [|v w es fs (b & Hb & Hiff) _ (b' & Hb' & Hiff')]; simpl; [by exists true|].
  rewrite Hb. simpl. destruct b; simpl.
  - exists b'. split; [done|]. rewrite Hiff', (proj1 Hiff eq_refl). split; [by intros ->|by intros [= ->]].
  - exists false. split; [done|]. split; [done|]. intros [= E _]. by apply Hiff in E.
Qed.

Lemma fields_equal_decides span fs gs :
  NoDup (map fst gs) ->
  Forall (fun f => forall w, w ∈ map snd gs -> decides (snd f) w span) fs ->
  exists b, fields_equal (fun l r => value_equal l r span) gs fs = Ok b
    /\ (b = true <-> forall f, f ∈ map_snd canon fs -> f ∈ map_snd canon gs).
Proof.
  intros Hg. induction 1 as [|[k v] fs Hd _ (b' & Hb' & Hiff')]; simpl.
  { exists true. split; [done|]. split; [by intros _ f ?%elem_of_nil|done]. }
  assert (forall x, (k, x) ∈ map_snd canon gs <-> exists w, (k, w) ∈ gs /\ x = canon w) as HG.
  { intros x. unfold map_snd. rewrite list_elem_of_fmap. split.
    - intros ([k' w] & [= -> ->] & Hin). by exists w.
    - intros (w & Hin & ->). by exists (k, w). }
  destruct (find_field k gs) as [w|] eqn:E; simpl.
  - apply find_field_In in E; [|done].
    destruct (Hd w) as (b & Hb & Hiff); [by apply (list_elem_of_fmap_2 snd) in E|]. simpl in Hb.
    rewrite Hb. simpl. destruct b; simpl.
    + exists b'. split; [done|]. rewrite Hiff'. setoid_rewrite elem_of_cons. split; [|naive_solver].
      intros H f [->|Hin]; [|by apply H]. apply HG. exists w. split; [done|]. by apply Hiff.
    + exists false. split; [done|]. split; [done|]. intros H.
      destruct (proj1 (HG (canon v))) as (w' & Hw' & Ew); [apply H; by left|].
      assert (w' = w) as ->; [|by apply Hiff in Ew].
      apply find_field_In in E, Hw'; [congruence|done|done].
  - exists false. split; [done|]. split; [done|]. intros H.
    destruct (proj1 (HG (canon v))) as (w' & Hw' & _); [apply H; by left|].
    apply find_field_In in Hw'; [congruence|done].
Qed.

Lemma value_equal_decides v w span : data v -> data w -> decides v w span.
Proof.
  revert w. induction v as [z|b|s| |es d IH|fs d IH|n|n p d IH| |] using value_ind'; intros w Hv Hw;
    pose proof (data_no_function _ Hv) as Fv; pose proof (data_no_function _ Hw) as Fw;
    unfold decides; try done; destruct w as [z'|b'|s'| |es' d'|fs' d'|n' [[p' d']|]| |]; try done;
    cbn [value_equal]; rewrite ?Fv, ?Fw; cbn [orb]; try (exists false; split; [done|]; by split).
  - eexists. split; [done|]. rewrite Z.eqb_eq. simpl. naive_solver.
  - eexists. split; [done|]. rewrite eqb_true_iff. simpl. naive_solver.
  - eexists. split; [done|]. rewrite bool_decide_eq_true. simpl. naive_solver.
  - by exists true.
  - simpl in Hv, Hw. rewrite All_Forall in Hv, Hw. rewrite Forall_forall in IH, Hv, Hw.
    destruct (Nat.eqb_spec (length es) (length es')) as [Hl|Hl]; simpl.
    + destruct (elements_equal_decides span es es') as (b & Hb & Hiff).
      { apply Forall2_same_length_lookup_2; [done|]. intros i x y Hx Hy.
        apply list_elem_of_lookup_2 in Hx, Hy. by apply IH; [|apply Hv|apply Hw]. }
      exists b. split; [done|]. rewrite Hiff. split; [by intros ->|by intros [= ->]].
    + exists false. split; [done|]. split; [done|]. intros [= E].
      apply (f_equal length) in E. by rewrite !length_map in E.
  - simpl in Hv, Hw. destruct Hv as [Nv Hv], Hw as [Nw Hw]. rewrite All_Forall in Hv, Hw.
    pose proof (record_canon_eq fs fs' Nv Nw) as HR. rewrite Forall_forall in IH, Hv, Hw.
    destruct (Nat.eqb_spec (length fs) (length fs')) as [Hl|Hl]; simpl.
    + destruct (fields_equal_decides span fs fs' Nw) as (b & Hb & Hiff).
      { apply Forall_forall. intros f Hf w (g & -> & Hg)%list_elem_of_fmap.
        by apply IH; [|apply Hv|apply Hw]. }
      exists b. split; [done|]. rewrite Hiff. unfold map_snd in HR. split.
      * intros Hin. f_equal. apply HR. apply (fields_perm (map_snd canon fs) (map_snd canon fs')); [by rewrite map_snd_keys| |done].
        unfold map_snd. by rewrite !length_map.
      * intros [= E] f. apply HR in E. unfold map_snd. by rewrite E.
    + exists false. split; [done|]. split; [done|]. intros [= E]. apply HR in E.
      apply Permutation_length in E. unfold map_snd in E. by rewrite !length_map in E.
  - case_bool_decide; simpl; exists false; (split; [done|]); by split.
  - case_bool_decide as Hn; simpl; [exists true|exists false]; (split; [done|]); naive_solver.
  - case_bool_decide as Hn; simpl.
    + destruct (IH p' Hv Hw) as (b & Hb & Hiff). exists b. split; [done|]. rewrite Hiff.
      subst. split; [by intros ->|by intros [= ->]].
    + exists false. split; [done|]. split; [done|]. by intros [= ? _].
  - case_bool_decide; simpl; exists false; (split; [done|]); by split.
Qed.

(** C37: on data -- values without functions whose records name their fields
    apart -- [==] never fails and is equality of canonical forms: it ignores
    the order of record fields and nothing else, so it is an equivalence. *)
Theorem value_equal_canonical (v w : Value) (span : Span) :
  data v -> data w ->
  (value_equal v w span = Ok true /\ canon v = canon w)
  \/ (value_equal v w span = Ok false /\ canon v <> canon w).
Proof.
  intros Hv Hw. destruct (value_equal_decides v w span Hv Hw) as (b & Hb & Hiff).
  destruct b; [left|right]; (split; [done|]); [by apply Hiff|]. intros E. by apply Hiff in E.
Qed.

(** ** JSON *)

Definition is_tag (key : string) : bool := existsb (fun t => bool_decide (fst t = key)) json_tags.

(** No record could be read back as a variant: a record of one field is not
    named like a variant. *)
Fixpoint untagged (v : Value) : Prop :=
  match v with
  | VList es _ => All untagged es
  | VRecord fs _ =>
      (match fs with [(k, _)] => is_tag k = false | _ => True end) /\ All (fun f => untagged (snd f)) fs
  | VVariant _ (Some (p, _)) => untagged p
  | _ => True
  end.

Lemma find_tag_None key : is_tag key = false -> find (fun '(tag, _) => bool_decide (tag = key)) json_tags = None.
Proof.
  unfold is_tag. intros H%existsb_False. induction H as [|[t n] l Ht _ IH]; [done|]. simpl in *.
  by rewrite Ht.
Qed.

Lemma find_tag_variant n :
  find (fun '(tag, _) => bool_decide (tag = variant_str n)) json_tags = Some (variant_str n, n).
Proof. by destruct n. Qed.

Lemma max_depth_perm vs ws : vs ≡ₚ ws -> max_depth vs = max_depth ws.
Proof. unfold max_depth. induction 1; simpl; lia. Qed.

Lemma max_depth_map (vs ws : list Value) :
  map value_depth vs = map value_depth ws -> max_depth vs = max_depth ws.
Proof. unfold max_depth. by intros ->. Qed.

Lemma value_list_ok es span d :
  depth_ok es d -> value_list es span = Ok (VList es d).
Proof. intros H. unfold value_list. by rewrite (proj2 (container_depth_Ok _ span _) H). Qed.

Lemma value_record_ok fs span d :
  depth_ok (map snd fs) d -> value_record fs span = Ok (VRecord fs d).
Proof. intros H. unfold value_record. by rewrite (proj2 (container_depth_Ok _ span _) H). Qed.

Lemma object_of_ok {A} (l : list (string * A)) m :
  object_of (map (fun f => (fst f, Ok (snd f))) l) m = Ok (bt_extend l m).
Proof. revert m. induction l as [|[k a] l IH]; intros m; simpl; [done|]. apply IH. Qed.

(** Encoding the fields of a record, in any order, gives one object. *)
Lemma object_of_fields {A} (l : list (string * A)) :
  NoDup (map fst l) ->
  exists obj, object_of (sort_fields (map (fun f => (fst f, Ok (snd f))) l)) [] = Ok obj
    /\ bt_sorted obj /\ obj ≡ₚ l.
Proof.
  intros Hd. pose proof (sort_fields_Permutation (map (fun f => (fst f, @Ok A Diagnostic (snd f))) l)) as HP.
  apply Permutation_map_inv in HP as (l2 & E & HP). rewrite E, object_of_ok.
  eexists. split; [done|]. split; [by apply bt_extend_sorted|]. rewrite HP in Hd |- *.
  by apply bt_extend_nil.
Qed.

Section Json.
Context `{PlatformOk}.

(** What conversion to JSON and back makes of a value. *)
Definition converts (span : Span) (v : Value) (j : Json Number) (v' : Value) : Prop :=
  value_to_json v span = Ok j /\ json_to_value j span = Ok v' /\ canon v' = canon v
  /\ value_depth v' = value_depth v.

Lemma converts_all {A} (value : A -> Value) span (l : list A) :
  Forall (fun a => exists j v', converts span (value a) j v') l ->
  exists c : list (A * (Json Number * Value)),
    l = map fst c /\ Forall (fun x => converts span (value (fst x)) (fst (snd x)) (snd (snd x))) c.
Proof.
  induction 1 as [|a l (j & v' & Hc) _ (c & -> & Hl)]; [by exists []|].
  exists ((a, (j, v')) :: c). split; [done|]. by constructor.
Qed.

Lemma try_map_map {A B C E} (f : A -> result B E) (g : C -> A) (h : C -> B) l :
  Forall (fun x => f (g x) = Ok (h x)) l -> try_map f (map g l) = Ok (map h l).
Proof. induction 1 as [|x l Hx _ IH]; simpl; [done|]. rewrite Hx. simpl. by rewrite IH. Qed.

Lemma converts_depths {A} (value : A -> Value) span c :
  Forall (fun x : A * (Json Number * Value) => converts span (value (fst x)) (fst (snd x)) (snd (snd x))) c ->
  max_depth (map (fun x => snd (snd x)) c) = max_depth (map (fun x => value (fst x)) c).
Proof.
  intros Hc. apply max_depth_map. rewrite !map_map. induction Hc as [|x c (_ & _ & _ & Hd) _ IH]; simpl; [done|].
  by rewrite Hd, IH.
Qed.

Lemma json_object_record (obj : btree string (Json Number)) span :
  match obj with [(k, _)] => is_tag k = false | _ => True end ->
  json_to_value (JObject obj) span
  = (let? fields := try_map (fun '(name, value) => result_map (pair name) (json_to_value value span)) obj in
     value_record (sort_fields fields) span).
Proof.
  intros Hk. cbn [json_to_value]. destruct obj as [|[k j] [|f obj]]; [done| |done].
  by rewrite find_tag_None.
Qed.

Lemma converts_list span es d :
  depth_ok es d -> Forall (fun v => exists j v', converts span v j v') es ->
  exists j v', converts span (VList es d) j v'.
Proof.
  intros [-> Hd] (c & -> & Hc)%(converts_all (fun v => v)). set (vs := map (fun x => snd (snd x)) c).
  exists (JArray (map (fun x => fst (snd x)) c)), (VList vs (1 + max_depth (map fst c))).
  assert (max_depth vs = max_depth (map fst c)) as HM by (by apply (converts_depths (fun v => v) span)).
  unfold converts. cbn [value_to_json json_to_value].
  rewrite (try_map_map _ _ (fun x => fst (snd x))) by (eapply Forall_impl; [exact Hc|]; by intros x (? & _)).
  rewrite (try_map_map _ _ (fun x => snd (snd x))) by (eapply Forall_impl; [exact Hc|]; by intros x (_ & ? & _)).
  cbn [result_map result_bind]. split; [done|]. split; [apply value_list_ok; split; [by rewrite <- HM|done]|].
  split; [|done]. cbn [canon]. f_equal. unfold vs. rewrite !map_map. apply map_ext_Forall.
  eapply Forall_impl; [exact Hc|]. by intros x (_ & _ & ? & _).
Qed.

Lemma converts_record span fs d :
  NoDup (map fst fs) -> depth_ok (map snd fs) d ->
  match fs with [(k, _)] => is_tag k = false | _ => True end ->
  Forall (fun f => exists j v', converts span (snd f) j v') fs ->
  exists j v', converts span (VRecord fs d) j v'.
Proof.
  intros Hn [-> Hd] Ht (c & -> & Hc)%(converts_all snd).
  set (key := fun x : (string * Value) * (Json Number * Value) => fst (fst x)).
  set (js := map (fun x => (key x, fst (snd x))) c). rewrite map_map in Hn.
  assert (NoDup (map fst js)) as Hjs by (unfold js; by rewrite map_map).
  destruct (object_of_fields js Hjs) as (obj & Hobj & Hsorted & Hperm).
  apply Permutation_map_inv in Hperm as (c' & Eobj & Hcc).
  set (fields := map (fun x => (key x, snd (snd x))) c').
  assert (Forall (fun x => converts span (snd (fst x)) (fst (snd x)) (snd (snd x))) c') as Hc' by (by rewrite <- Hcc).
  assert (max_depth (map snd (sort_fields fields)) = max_depth (map snd (map fst c))) as HM.
  { transitivity (max_depth (map snd fields)); [apply max_depth_perm; by rewrite sort_fields_Permutation|].
    unfold fields. rewrite !map_map. simpl. rewrite (converts_depths snd span c' Hc').
    apply max_depth_perm. by rewrite Hcc. }
  exists (JObject obj), (VRecord (sort_fields fields) (1 + max_depth (map snd (map fst c)))).
  split; [|split; [|split; [|done]]].
  - cbn [value_to_json]. rewrite map_map.
    replace (map _ c) with (map (fun f => (fst f, @Ok (Json Number) Diagnostic (snd f))) js); [by rewrite Hobj|].
    unfold js. rewrite map_map. apply map_ext_Forall. eapply Forall_impl; [exact Hc|].
    intros [[k v] [j v']] (E & _). simpl in *. by rewrite E.
  - rewrite json_object_record.
    + rewrite Eobj, (try_map_map _ _ (fun x => (key x, snd (snd x)))).
      * cbn [result_bind]. apply value_record_ok. split; [by rewrite <- HM|done].
      * eapply Forall_impl; [exact Hc'|]. intros x (_ & E & _). by rewrite E.
    + rewrite Eobj. destruct c' as [|x [|]]; [done| |done].
      apply Permutation_singleton_r in Hcc. subst c. by destruct x as [[k v] jv].
  - cbn [canon]. f_equal. apply (record_canon_eq (sort_fields fields) (map fst c)).
    + rewrite sort_fields_Permutation. unfold fields. rewrite map_map. by rewrite <- Hcc.
    + by rewrite map_map.
    + unfold map_snd. rewrite sort_fields_Permutation. unfold fields. rewrite !map_map. rewrite <- Hcc.
      apply reflexive_eq, map_ext_Forall. eapply Forall_impl; [exact Hc|]. intros x (_ & _ & E & _).
      simpl. by rewrite E.
Qed.

Lemma json_converts v span :
  data v -> wf_value v -> untagged v -> exists j v', converts span v j v'.
Proof.
  induction v as [z|b|s| |es d IH|fs d IH|n|n p d IH| |] using value_ind'; simpl; try done.
  - intros _ Hz _. exists (JNumber (number_from_i64 z)), (VInteger z).
    split; [done|]. split; [|done]. simpl. by rewrite number_roundtrip.
  - intros _ _ _. by exists (JBool b), (VBoolean b).
  - intros _ _ _. by exists (JString s), (VString s).
  - intros _ _ _. by exists JNull, VUnit.
  - rewrite !All_Forall, !Forall_forall in *. intros Hd [Hw Hk] Hu. apply converts_list; [done|].
    apply Forall_forall. intros v Hv. auto.
  - rewrite !All_Forall, !Forall_forall in *. intros [Hn Hd] [Hw Hk] [Ht Hu]. apply converts_record; try done.
    apply Forall_forall. intros f Hf. auto.
  - intros _ -> _. by exists (JObject [("None", JNull)]), (VVariant VNone None).
  - intros Hd (Hn & Hw & [-> Hk]) Hu. destruct (IH Hd Hw Hu) as (j & p' & E1 & E2 & E3 & E4).
    exists (JObject [(variant_str n, j)]), (VVariant n (Some (p', 1 + max_depth [p]))).
    assert (value_variant n p' span = Ok (VVariant n (Some (p', 1 + max_depth [p])))) as E5.
    { unfold value_variant. rewrite (proj2 (container_depth_Ok [p'] span (1 + max_depth [p]))); [done|].
      split; [|done]. f_equal. apply max_depth_map. simpl. by rewrite E4. }
    split; [|split; [|split; [|done]]].
    + cbn [value_to_json]. by rewrite E1.
    + cbn [json_to_value]. rewrite find_tag_variant. cbn [fmap option_fmap option_map snd].
      rewrite E2. cbn [result_bind]. by destruct n.
    + cbn [canon]. by rewrite E3.
Qed.

(** C36: JSON round trip.  Data that is well formed and in which no record has
    one field only named [Some], [None], [Ok] or [Err], the shapes reserved for
    variants, converts to JSON and back without error; the value read back is
    well formed and equal ([==]) to the one written. *)
Theorem json_roundtrip (v : Value) (span : Span) :
  data v -> wf_value v -> untagged v ->
  exists j v', value_to_json v span = Ok j /\ json_to_value j span = Ok v'
    /\ wf_value v' /\ canon v' = canon v.
Proof.
  intros Hd Hw Hu. destruct (json_converts v span Hd Hw Hu) as (j & v' & E1 & E2 & E3 & _).
  exists j, v'. split; [done|]. split; [done|]. split; [by eapply json_to_value_wf|done].
Qed.

(** A value and its canonical form have the same JSON. *)
Definition same_json (span : Span) (v : Value) (j : Json Number) : Prop :=
  value_to_json v span = Ok j /\ value_to_json (canon v) span = Ok j.

Lemma same_json_all span es :
  Forall (fun v => exists j, same_json span v j) es -> exists js,
  try_map (fun v => value_to_json v span) es = Ok js
  /\ try_map (fun v => value_to_json v span) (map canon es) = Ok js.
Proof.
  intros HF. induction HF as [|v es (j & E1 & E2) _ (js & E3 & E4)]; simpl; [by eexists|].
  rewrite E1, E2. simpl. rewrite E3, E4. by eexists.
Qed.

(** The fields of a record beside the JSON of their values. *)
Lemma same_json_fields span (fs : list (string * Value)) :
  Forall (fun f => exists j, same_json span (snd f) j) fs -> exists c : list ((string * Value) * Json Number),
  fs = map fst c /\ Forall (fun x => same_json span (snd (fst x)) (snd x)) c.
Proof.
  intros HF. induction HF as [|f fs (j & E) _ (c & -> & Hc)]; [by exists []|].
  exists ((f, j) :: c). split; [done|]. by constructor.
Qed.

Definition json_fields (c : list ((string * Value) * Json Number)) : list (string * Json Number) :=
  map (fun x => (fst (fst x), snd x)) c.

Lemma fields_to_json span (g : Value -> Value) (l : list ((string * Value) * Json Number)) :
  Forall (fun x => value_to_json (g (snd (fst x))) span = Ok (snd x)) l ->
  map (fun '(name, value) => (name, value_to_json value span))
    (map (fun x => (fst (fst x), g (snd (fst x)))) l)
  = map (fun f => (fst f, @Ok (Json Number) Diagnostic (snd f))) (json_fields l).
Proof.
  intros Hl. unfold json_fields. rewrite !map_map. apply map_ext_Forall. eapply Forall_impl; [exact Hl|].
  intros x Hx. simpl. by rewrite Hx.
Qed.

(** Reordering the fields does not change the object they make. *)
Lemma object_of_perm (l l' : list (string * Json Number)) : NoDup (map fst l) -> l' ≡ₚ l ->
  exists obj, object_of (sort_fields (map (fun f => (fst f, @Ok (Json Number) Diagnostic (snd f))) l)) [] = Ok obj
    /\ object_of (sort_fields (map (fun f => (fst f, @Ok (Json Number) Diagnostic (snd f))) l')) [] = Ok obj.
Proof.
  intros Hn HP. assert (NoDup (map fst l')) as Hn' by (by rewrite HP).
  destruct (object_of_fields l Hn) as (obj & Hobj & Hs & Hp).
  destruct (object_of_fields l' Hn') as (obj' & Hobj' & Hs' & Hp').
  exists obj. split; [done|]. rewrite Hobj'. f_equal. apply bt_sorted_perm; [done|done|].
  by rewrite Hp, Hp', HP.
Qed.

Lemma canon_fields_perm (c : list ((string * Value) * Json Number)) :
  NoDup (map fst (map fst c)) -> exists c', c' ≡ₚ c /\
  bt_extend (map_snd canon (map fst c)) [] = map (fun x => (fst (fst x), canon (snd (fst x)))) c'.
Proof.
  intros Hn.
  assert (bt_extend (map_snd canon (map fst c)) []
          ≡ₚ map (fun x => (fst (fst x), canon (snd (fst x)))) c) as HP.
  { rewrite bt_extend_nil by (by rewrite map_snd_keys). unfold map_snd. by rewrite map_map. }
  apply Permutation_map_inv in HP as (c' & E & Hcc). by exists c'.
Qed.

Lemma value_to_json_canon v span : data v -> exists j, same_json span v j.
Proof.
  unfold same_json.
  induction v as [z|b|s| |es d IH|fs d IH|n|n p d IH| |] using value_ind'; simpl; try done;
    try (intros _; by eexists).
  - rewrite All_Forall. intros Hd. rewrite Forall_forall in IH, Hd.
    destruct (same_json_all span es) as (js & -> & ->); [apply Forall_forall; unfold same_json; auto|].
    by eexists.
  - rewrite All_Forall. intros [Hn Hd]. rewrite Forall_forall in IH, Hd.
    destruct (same_json_fields span fs) as (c & -> & Hc); [apply Forall_forall; unfold same_json; auto|].
    destruct (canon_fields_perm c Hn) as (c' & Hcc & E). unfold map_snd in E. rewrite E.
    destruct (object_of_perm (json_fields c) (json_fields c')) as (obj & Hobj & Hobj').
    { unfold json_fields. rewrite map_map. by rewrite map_map in Hn. }
    { unfold json_fields. by rewrite Hcc. }
    exists (JObject obj). split.
    + rewrite (map_ext fst (fun x : (string * Value) * Json Number => (fst (fst x), id (snd (fst x)))))
        by (intros x; by destruct (fst x)).
      rewrite (fields_to_json span id); [by rewrite Hobj|]. eapply Forall_impl; [exact Hc|]. by intros x [? _].
    + rewrite (fields_to_json span canon); [by rewrite Hobj'|]. rewrite Hcc. eapply Forall_impl; [exact Hc|].
      by intros x [_ ?].
  - intros Hd. destruct (IH Hd) as (j & -> & ->). by eexists.
Qed.

(** encoding is deterministic: two data values that are equal, whatever
    the order their record fields were written in, have the same JSON. *)
Theorem json_encoding_deterministic (v w : Value) (span : Span) :
  data v -> data w -> value_equal v w span = Ok true ->
  value_to_json v span = value_to_json w span.
Proof.
  intros Hv Hw E. destruct (value_equal_decides v w span Hv Hw) as (b & Hb & Hiff).
  rewrite E in Hb. injection Hb as <-. destruct (value_to_json_canon v span Hv) as (j & E1 & E2).
  destruct (value_to_json_canon w span Hw) as (j' & E3 & E4).
  rewrite (proj1 Hiff eq_refl) in E2. congruence.
Qed.
End Json.

(** ** Witnesses *)

Definition sample_record : Value :=
  VRecord [("b", VVariant VSome (Some (VInteger 1, 1))); ("a", VList [VUnit] 1)] 2.
Definition sample_record' : Value :=
  VRecord [("a", VList [VUnit] 1); ("b", VVariant VSome (Some (VInteger 1, 1)))] 2.

Lemma sample_data : data sample_record /\ data sample_record'.
Proof. split; (split; [apply (bool_decide_unpack _); by vm_compute|simpl; tauto]). Qed.

Lemma sample_wf : wf_value sample_record.
Proof. vm_compute. intuition discriminate. Qed.

Lemma value_equal_canonical_witness :
  (value_equal sample_record sample_record' at0 = Ok true /\ canon sample_record = canon sample_record')
  \/ (value_equal sample_record sample_record' at0 = Ok false /\ canon sample_record <> canon sample_record').
Proof. apply (value_equal_canonical sample_record sample_record' at0); apply sample_data. Defined.

Lemma json_roundtrip_witness :
  exists (j : Json Z) v', @value_to_json SamplePlatform sample_record at0 = Ok j
    /\ @json_to_value SamplePlatform j at0 = Ok v' /\ wf_value v' /\ canon v' = canon sample_record.
Proof.
  apply (@json_roundtrip SamplePlatform SamplePlatformOk sample_record at0);
    [apply sample_data|apply sample_wf|simpl; tauto].
Defined.

Lemma json_encoding_deterministic_witness :
  @value_to_json SamplePlatform sample_record at0 = @value_to_json SamplePlatform sample_record' at0.
Proof.
  apply (@json_encoding_deterministic SamplePlatform sample_record sample_record' at0);
    [apply sample_data|apply sample_data|vm_compute; reflexivity].
Defined.
