(* ===== verification/Cache.v ===== *)
(** * The bounded TTL cache

    Models [krit-cache/src/{config,error,store}.rs].  The mutex serialises the
    operations, so each is a function from one cache to the next; a poisoned
    mutex is a flag every operation checks.  The clock is an argument of the
    operations, as in the code.  Stamps are 64-bit and wrap. *)

From S2P Require Import Prelude BTree.

(** ** Errors ([error.rs]) *)

Inductive CacheErrorKind : Type := CacheNamespace | CacheLimit | CacheUnavailable.

Record CacheError : Type := mkCacheError {
  cache_error_kind : CacheErrorKind;
  cache_error_message : string;
}.

Definition namespace_error (message : string) : CacheError := mkCacheError CacheNamespace message.
Definition limit_error (message : string) : CacheError := mkCacheError CacheLimit message.
Definition unavailable_error (message : string) : CacheError := mkCacheError CacheUnavailable message.

Definition cache_error_code (e : CacheError) : string :=
  match cache_error_kind e with
  | CacheNamespace => "K5401"
  | CacheLimit => "K5402"
  | CacheUnavailable => "K5403"
  end.

(** ** Configuration ([config.rs]) *)

Definition MAX_NAMESPACES : Z := 16.
Definition MAX_ENTRIES_PER_NAMESPACE : Z := 4096.
Definition MAX_TOTAL_ENTRIES : Z := 16384.
Definition MAX_KEY_BYTES : Z := 512.
Definition MAX_VALUE_BYTES : Z := 64 * 1024.
Definition MAX_NAMESPACE_BYTES : Z := 8 * 1024 * 1024.
Definition MAX_TOTAL_BYTES : Z := 64 * 1024 * 1024.
Definition MIN_TTL_SECONDS : Z := 1.
Definition MAX_TTL_SECONDS : Z := 7 * 24 * 60 * 60.
Definition ENTRY_OVERHEAD_BYTES : Z := 64.

Inductive NamespaceMode : Type := ReadOnly | ReadWrite.

#[export] Instance NamespaceMode_eq_dec : EqDecision NamespaceMode.
Proof. solve_decision. Defined.

Record NamespacePolicy : Type := mkNamespacePolicy {
  mode : NamespaceMode;
  max_entries : Z;
  max_bytes : Z;
  max_key_bytes : Z;
  max_value_bytes : Z;
  max_ttl_seconds : Z;
}.

Definition policy_validate (p : NamespacePolicy) : result unit CacheError :=
  if (max_entries p =? 0) || (MAX_ENTRIES_PER_NAMESPACE <? max_entries p)
     || (max_bytes p =? 0) || (MAX_NAMESPACE_BYTES <? max_bytes p)
     || (max_key_bytes p =? 0) || (MAX_KEY_BYTES <? max_key_bytes p)
     || (max_value_bytes p =? 0) || (MAX_VALUE_BYTES <? max_value_bytes p)
     || (max_ttl_seconds p <? MIN_TTL_SECONDS) || (MAX_TTL_SECONDS <? max_ttl_seconds p)
  then Err (limit_error "cache namespace limits are outside the Phase 7 bounds")
  else
    let? largest :=
      ok_or (match usize_checked (max_key_bytes p + max_value_bytes p) with
             | Some bytes => usize_checked (bytes + ENTRY_OVERHEAD_BYTES)
             | None => None
             end)
        (limit_error "cache namespace limits overflowed") in
    if max_bytes p <? largest then
      Err (limit_error
             "cache namespace byte budget cannot hold one entry of its declared maximum size")
    else Ok tt.

Record CacheConfig : Type := mkCacheConfig {
  config_namespaces : btree string NamespacePolicy;
  config_max_total_entries : Z;
  config_max_total_bytes : Z;
}.

(** The loop over the namespaces' policies. *)
Fixpoint validate_policies (c : CacheConfig) (policies : list (string * NamespacePolicy))
  : result unit CacheError :=
  match policies with
  | [] => Ok tt
  | (_, policy) :: policies' =>
      let? _ := policy_validate policy in
      if (config_max_total_entries c <? max_entries policy)
         || (config_max_total_bytes c <? max_bytes policy)
      then Err (limit_error "a cache namespace budget exceeds the whole-cache budget")
      else validate_policies c policies'
  end.

Definition config_validate (c : CacheConfig) : result unit CacheError :=
  if MAX_NAMESPACES <? Z.of_nat (length (config_namespaces c)) then
    Err (limit_error "configured cache namespaces exceed the Phase 7 bound")
  else
    match config_namespaces c with
    | [] => Ok tt
    | policies =>
        if (config_max_total_entries c =? 0) || (MAX_TOTAL_ENTRIES <? config_max_total_entries c)
           || (config_max_total_bytes c =? 0) || (MAX_TOTAL_BYTES <? config_max_total_bytes c)
        then Err (limit_error "cache totals are outside the Phase 7 bounds")
        else validate_policies c policies
    end.

(** ** Namespaces ([store.rs]) *)

Definition MAX_SWEEP_PER_OPERATION : nat := 8.

Record Entry : Type := mkEntry {
  entry_value : string;
  expires_at_millis : Z;
  entry_stamp : Z;
}.

Record Namespace : Type := mkNamespace {
  policy : NamespacePolicy;
  entries : gmap string Entry;
  by_access : btree Z string;
  by_expiry : btree (Z * string) unit;
  ns_bytes : Z;
}.

Definition namespace_new (p : NamespacePolicy) : Namespace := mkNamespace p ∅ [] [] 0.

Definition charge (key value : string) : Z :=
  usize_saturating_add (usize_saturating_add (str_len key) (str_len value)) ENTRY_OVERHEAD_BYTES.

(** [Namespace::remove]: the entry, both index entries, and its bytes. *)
Definition ns_remove (ns : Namespace) (key : string) : option (Namespace * Z) :=
  match entries ns !! key with
  | None => None
  | Some entry =>
      let released := charge key (entry_value entry) in
      Some (mkNamespace (policy ns) (delete key (entries ns))
              (bt_remove (entry_stamp entry) (by_access ns))
              (bt_remove (expires_at_millis entry, key) (by_expiry ns))
              (usize_saturating_sub (ns_bytes ns) released),
            released)
  end.

Definition evict_one (ns : Namespace) : option (Namespace * Z) :=
  match by_access ns with
  | [] => None
  | (_, key) :: _ => ns_remove ns key
  end.

(** The loop of [sweep_expired]: [budget] more removals, and the counts so
    far. *)
Fixpoint sweep_from (budget : nat) (ns : Namespace) (now_millis removed released : Z)
  : Namespace * (Z * Z) :=
  match budget with
  | O => (ns, (removed, released))
  | S budget =>
      match by_expiry ns with
      | [] => (ns, (removed, released))
      | ((expires_at, key), _) :: _ =>
          if now_millis <? expires_at then (ns, (removed, released))
          else
            let '(ns, released) :=
              match ns_remove ns key with
              | Some (ns, bytes) => (ns, released + bytes)
              | None => (ns, released)
              end in
            sweep_from budget ns now_millis (removed + 1) released
      end
  end.

Definition sweep_expired (ns : Namespace) (now_millis : Z) : Namespace * (Z * Z) :=
  sweep_from MAX_SWEEP_PER_OPERATION ns now_millis 0 0.

(** ** The cache *)

Record State : Type := mkState {
  namespaces : btree string Namespace;
  total_entries : Z;
  total_bytes : Z;
  max_total_entries : Z;
  max_total_bytes : Z;
  hits : Z;
  misses : Z;
  expirations : Z;
  evictions : Z;
  puts : Z;
  deletes : Z;
}.

Record Cache : Type := mkCache {
  cache_state : State;
  cache_stamp : Z;
  cache_poisoned : bool;
}.

Definition cache_new (config : CacheConfig) : result Cache CacheError :=
  let? _ := config_validate config in
  Ok (mkCache
        (mkState (map (fun '(name, policy) => (name, namespace_new policy)) (config_namespaces config))
           0 0 (config_max_total_entries config) (config_max_total_bytes config) 0 0 0 0 0 0)
        0 false).

Definition cache_empty : Cache := mkCache (mkState [] 0 0 0 0 0 0 0 0 0 0) 0 false.

Definition is_empty (c : Cache) : bool :=
  cache_poisoned c || match namespaces (cache_state c) with [] => true | _ => false end.

Definition namespace_names (c : Cache) : list string :=
  if cache_poisoned c then [] else bt_keys (namespaces (cache_state c)).

Definition cache_mode (c : Cache) (name : string) : option NamespaceMode :=
  if cache_poisoned c then None
  else (fun ns => mode (policy ns)) <$> bt_get name (namespaces (cache_state c)).

(** [State::namespace] and, for an update through [namespace_mut], the store
    of the changed namespace. *)
Definition namespace (s : State) (name : string) : result Namespace CacheError :=
  ok_or (bt_get name (namespaces s)) (namespace_error "cache namespace is not configured").

Definition set_namespaces (s : State) (m : btree string Namespace) : State :=
  mkState m (total_entries s) (total_bytes s) (max_total_entries s) (max_total_bytes s)
    (hits s) (misses s) (expirations s) (evictions s) (puts s) (deletes s).

Definition set_namespace (s : State) (name : string) (ns : Namespace) : State :=
  set_namespaces s (bt_insert name ns (namespaces s)).

Definition release (s : State) (entries bytes : Z) : State :=
  mkState (namespaces s) (usize_saturating_sub (total_entries s) entries)
    (usize_saturating_sub (total_bytes s) bytes) (max_total_entries s) (max_total_bytes s)
    (hits s) (misses s) (expirations s) (evictions s) (puts s) (deletes s).

(** The saturating counters. *)
Definition count_hit (s : State) : State :=
  mkState (namespaces s) (total_entries s) (total_bytes s) (max_total_entries s) (max_total_bytes s)
    (u64_saturating_add (hits s) 1) (misses s) (expirations s) (evictions s) (puts s) (deletes s).
Definition count_miss (s : State) : State :=
  mkState (namespaces s) (total_entries s) (total_bytes s) (max_total_entries s) (max_total_bytes s)
    (hits s) (u64_saturating_add (misses s) 1) (expirations s) (evictions s) (puts s) (deletes s).
Definition count_expirations (s : State) (n : Z) : State :=
  mkState (namespaces s) (total_entries s) (total_bytes s) (max_total_entries s) (max_total_bytes s)
    (hits s) (misses s) (u64_saturating_add (expirations s) n) (evictions s) (puts s) (deletes s).
Definition count_eviction (s : State) : State :=
  mkState (namespaces s) (total_entries s) (total_bytes s) (max_total_entries s) (max_total_bytes s)
    (hits s) (misses s) (expirations s) (u64_saturating_add (evictions s) 1) (puts s) (deletes s).
Definition count_delete (s : State) : State :=
  mkState (namespaces s) (total_entries s) (total_bytes s) (max_total_entries s) (max_total_bytes s)
    (hits s) (misses s) (expirations s) (evictions s) (puts s) (u64_saturating_add (deletes s) 1).

(** The namespace whose first stamp is least, the first of them in name
    order. *)
Definition oldest_namespace (m : btree string Namespace) : option (Z * string) :=
  fold_left
    (fun best '(name, ns) =>
       match by_access ns with
       | [] => best
       | (stamp, _) :: _ =>
           match best with
           | Some (least, _) => if stamp <? least then Some (stamp, name) else best
           | None => Some (stamp, name)
           end
       end) m None.

Definition evict_globally (s : State) : option (State * Z) :=
  match oldest_namespace (namespaces s) with
  | None => None
  | Some (_, target) =>
      match bt_get target (namespaces s) with
      | None => None
      | Some ns =>
          match evict_one ns with
          | None => None
          | Some (ns, released) => Some (set_namespace s target ns, released)
          end
      end
  end.

(** [char::is_control] holds on U+0000..U+001F and U+007F..U+009F: in UTF-8,
    the ASCII control bytes and the pairs C2 80 .. C2 9F. *)
Definition control_pair (a b : byte) : bool :=
  ((byte_val a =? 194) && (128 <=? byte_val b) && (byte_val b <=? 159))%N.

Definition has_control (key : string) : bool :=
  existsb is_ascii_control (bytes_of key) || any_pair control_pair (bytes_of key).

Definition validate_key (key : string) (max_key_bytes : Z) : result unit CacheError :=
  if str_len key =? 0 then Err (limit_error "cache key must not be empty")
  else if max_key_bytes <? str_len key then
    Err (limit_error "cache key exceeds its configured byte bound")
  else if has_control key then Err (limit_error "cache key must not contain control characters")
  else Ok tt.

Definition next_stamp (c : Cache) : Z := (cache_stamp c + 1) mod 2 ^ 64.

(** ** Operations *)

Definition poisoned_error : CacheError := unavailable_error "cache backend is unavailable".

(** The cache after an operation that holds the lock: the counter always
    advances. *)
Definition advanced (c : Cache) (s : State) : Cache := mkCache s (next_stamp c) (cache_poisoned c).

Definition get (c : Cache) (name key : string) (now_millis : Z)
  : Cache * result (option string) CacheError :=
  if cache_poisoned c then (c, Err poisoned_error)
  else
    let s := cache_state c in
    let stamp := next_stamp c in
    match namespace s name with
    | Err e => (advanced c s, Err e)
    | Ok ns =>
        match validate_key key (max_key_bytes (policy ns)) with
        | Err e => (advanced c s, Err e)
        | Ok _ =>
            match entries ns !! key with
            | None => (advanced c (count_miss s), Ok None)
            | Some existing =>
                if expires_at_millis existing <=? now_millis then
                  let '(s, released) :=
                    match ns_remove ns key with
                    | Some (ns, released) => (set_namespace s name ns, released)
                    | None => (s, 0)
                    end in
                  (advanced c (count_miss (count_expirations (release s 1 released) 1)), Ok None)
                else
                  let ns' :=
                    mkNamespace (policy ns)
                      (<[key := mkEntry (entry_value existing) (expires_at_millis existing) stamp]>
                         (entries ns))
                      (bt_insert stamp key (bt_remove (entry_stamp existing) (by_access ns)))
                      (by_expiry ns) (ns_bytes ns) in
                  (advanced c (count_hit (set_namespace s name ns')), Ok (Some (entry_value existing)))
            end
        end
    end.

Inductive Writer : Type := Guest | Host.

(** The eviction loop of [write].  [None] is out of fuel: one unit is spent
    for each eviction. *)
Fixpoint make_room (fuel : nat) (s : State) (name : string) (cost : Z)
  : option (State * result unit CacheError) :=
  match fuel with
  | O => None
  | S fuel =>
      match namespace s name with
      | Err e => Some (s, Err e)
      | Ok ns =>
          if negb ((Z.of_nat (size (entries ns)) <? max_entries (policy ns))
                   && (usize_saturating_add (ns_bytes ns) cost <=? max_bytes (policy ns)))
          then
            match evict_one ns with
            | None => Some (s, Err (limit_error "cache entry cannot fit its namespace budget"))
            | Some (ns, released) =>
                make_room fuel (count_eviction (release (set_namespace s name ns) 1 released)) name cost
            end
          else if (total_entries s <? max_total_entries s)
                  && (usize_saturating_add (total_bytes s) cost <=? max_total_bytes s)
          then Some (s, Ok tt)
          else
            match evict_globally s with
            | None => Some (s, Err (limit_error "cache entry cannot fit the whole-cache budget"))
            | Some (s, released) => make_room fuel (count_eviction (release s 1 released)) name cost
            end
      end
  end.

(** Entries the access indexes still hold: what the loop can evict. *)
Definition indexed (m : btree string Namespace) : nat :=
  list_sum (map (fun kv => length (by_access (snd kv))) m).

Definition deadline (ttl_seconds now_millis : Z) : result Z CacheError :=
  ok_or (match u64_checked ttl_seconds with
         | None => None
         | Some seconds =>
             match u64_checked (seconds * 1000) with
             | None => None
             | Some millis => u64_checked (now_millis + millis)
             end
         end)
    (limit_error "cache deadline overflowed").

(** The checks of [write] before anything changes. *)
Definition write_checks (ns : Namespace) (key value : string) (ttl_seconds now_millis : Z)
    (writer : Writer) : result Z CacheError :=
  match mode (policy ns), writer with
  | ReadOnly, Guest => Err (namespace_error "cache namespace is configured read only")
  | _, _ =>
      let? _ := validate_key key (max_key_bytes (policy ns)) in
      if max_value_bytes (policy ns) <? str_len value then
        Err (limit_error "cache value exceeds its configured byte bound")
      else if (ttl_seconds <? MIN_TTL_SECONDS) || (max_ttl_seconds (policy ns) <? ttl_seconds) then
        Err (limit_error "cache time to live is outside its configured bounds")
      else deadline ttl_seconds now_millis
  end.

(** Sweeping and replacing in the destination, with the totals released. *)
Definition write_sweep (s : State) (name : string) (ns : Namespace) (now_millis : Z) : State * Namespace :=
  let '(ns, (swept, swept_bytes)) := sweep_expired ns now_millis in
  (count_expirations (release (set_namespace s name ns) swept swept_bytes) swept, ns).

Definition write_replace (s : State) (name : string) (ns : Namespace) (key : string) : State :=
  match ns_remove ns key with
  | Some (ns, released) => release (set_namespace s name ns) 1 released
  | None => s
  end.

(** Storing the new entry: in the namespace and its indexes... *)
Definition ns_store (ns : Namespace) (key value : string) (expires_at stamp cost : Z) : Namespace :=
  mkNamespace (policy ns)
    (<[key := mkEntry value expires_at stamp]> (entries ns))
    (bt_insert stamp key (by_access ns))
    (bt_insert (expires_at, key) tt (by_expiry ns))
    (usize_saturating_add (ns_bytes ns) cost).

(** ... and charged to the totals. *)
Definition write_store (s : State) (name : string) (ns : Namespace) (key value : string)
    (expires_at stamp cost : Z) : State :=
  mkState
    (bt_insert name (ns_store ns key value expires_at stamp cost) (namespaces s))
    (usize_saturating_add (total_entries s) 1) (usize_saturating_add (total_bytes s) cost)
    (max_total_entries s) (max_total_bytes s)
    (hits s) (misses s) (expirations s) (evictions s) (u64_saturating_add (puts s) 1) (deletes s).

Definition write (c : Cache) (name key value : string) (ttl_seconds now_millis : Z) (writer : Writer)
  : option (Cache * result unit CacheError) :=
  if cache_poisoned c then Some (c, Err poisoned_error)
  else
    let s := cache_state c in
    let stamp := next_stamp c in
    match namespace s name with
    | Err e => Some (advanced c s, Err e)
    | Ok ns =>
        match write_checks ns key value ttl_seconds now_millis writer with
        | Err e => Some (advanced c s, Err e)
        | Ok expires_at =>
            let cost := charge key value in
            let '(s, ns) := write_sweep s name ns now_millis in
            let s := write_replace s name ns key in
            match make_room (S (indexed (namespaces s))) s name cost with
            | None => None
            | Some (s, Err e) => Some (advanced c s, Err e)
            | Some (s, Ok _) =>
                match namespace s name with
                | Err e => Some (advanced c s, Err e)
                | Ok ns =>
                    Some (advanced c (write_store s name ns key value expires_at stamp cost), Ok tt)
                end
            end
        end
    end.

Definition put (c : Cache) (name key value : string) (ttl_seconds now_millis : Z)
  : option (Cache * result unit CacheError) := write c name key value ttl_seconds now_millis Guest.

Definition seed (c : Cache) (name key value : string) (ttl_seconds now_millis : Z)
  : option (Cache * result unit CacheError) := write c name key value ttl_seconds now_millis Host.

(** [delete] takes no stamp. *)
Definition delete_key (c : Cache) (name key : string) : Cache * result unit CacheError :=
  if cache_poisoned c then (c, Err poisoned_error)
  else
    let s := cache_state c in
    let same s := mkCache s (cache_stamp c) (cache_poisoned c) in
    match namespace s name with
    | Err e => (c, Err e)
    | Ok ns =>
        match mode (policy ns) with
        | ReadOnly => (c, Err (namespace_error "cache namespace is configured read only"))
        | ReadWrite =>
            match validate_key key (max_key_bytes (policy ns)) with
            | Err e => (c, Err e)
            | Ok _ =>
                let s :=
                  match ns_remove ns key with
                  | Some (ns, released) => release (set_namespace s name ns) 1 released
                  | None => s
                  end in
                (same (count_delete s), Ok tt)
            end
        end
    end.

Record CacheStats : Type := mkCacheStats {
  stat_hits : Z; stat_misses : Z; stat_expirations : Z; stat_evictions : Z;
  stat_puts : Z; stat_deletes : Z; stat_entries : Z; stat_bytes : Z;
}.

Definition stats (c : Cache) : CacheStats :=
  if cache_poisoned c then mkCacheStats 0 0 0 0 0 0 0 0
  else
    let s := cache_state c in
    mkCacheStats (hits s) (misses s) (expirations s) (evictions s) (puts s) (deletes s)
      (total_entries s) (total_bytes s).
