(* ===== verification/CacheFacts.v ===== *)
(** * Cache invariant: exact indexes, exact accounting, kept budgets

    Both indexes of a namespace list exactly its entries, the byte and entry
    counts are exact sums, every budget holds, and stamps are unique and not
    ahead of the counter.  Every operation keeps all of it, and the eviction
    loop always makes room. *)

From S2P Require Import Prelude BTree Cache.

(** ** Sums over the namespaces *)

Definition bt_sum {K V} (f : V -> Z) (m : btree K V) : Z := fold_right (fun kv acc => f (snd kv) + acc) 0 m.

Lemma bt_sum_insert {K V} `{CmpOk K} (f : V -> Z) (m : btree K V) k x y :
  bt_sorted m -> bt_get k m = Some x -> bt_sum f (bt_insert k y m) = bt_sum f m - f x + f y.
Proof.
  induction m as [|[k' v] m IH]; simpl; [done|]. intros [_ Hs].
  destruct (cmp k k') eqn:E; simpl; [|done|].
  - intros [= ->]. lia.
  - intros Hg. rewrite IH by done. lia.
Qed.

Lemma bt_sum_nonneg {K V} (f : V -> Z) (m : btree K V) :
  (forall kv, In kv m -> 0 <= f (snd kv)) -> 0 <= bt_sum f m.
Proof.
  induction m as [|kv m IH]; simpl; [done|]. intros Hf.
  pose proof (Hf kv (or_introl eq_refl)). assert (0 <= bt_sum f m) by (apply IH; auto). lia.
Qed.

Lemma bt_sum_zero {K V} (f : V -> Z) (m : btree K V) :
  (forall kv, In kv m -> f (snd kv) = 0) -> bt_sum f m = 0.
Proof.
  induction m as [|kv m IH]; simpl; [done|]. intros Hf. rewrite (Hf kv) by auto. by rewrite IH by auto.
Qed.

Lemma bt_sum_get {K V} `{CmpOk K} (f : V -> Z) (m : btree K V) k x :
  bt_sorted m -> (forall k v, bt_get k m = Some v -> 0 <= f v) -> bt_get k m = Some x -> f x <= bt_sum f m.
Proof.
  intros Hs Hf Hg. pose proof (bt_sum_insert f m k x x Hs Hg) as HI.
  assert (forall kv, In kv m -> 0 <= f (snd kv)) as HF.
  { intros [k' v] Hin. apply (Hf k'). by apply bt_get_In. }
  apply bt_get_In in Hg; [|done]. clear -Hg HF. induction m as [|kv m IH]; [done|]. simpl in *.
  destruct Hg as [->|Hg].
  - assert (0 <= bt_sum f m) by (apply bt_sum_nonneg; auto). simpl. lia.
  - pose proof (HF kv (or_introl eq_refl)). assert (f x <= bt_sum f m) by auto. lia.
Qed.

(** ** Namespaces *)

(** What [usize] fields and validation give of a policy. *)
Definition policy_ok (p : NamespacePolicy) : Prop :=
  1 <= max_entries p <= MAX_ENTRIES_PER_NAMESPACE
  /\ 1 <= max_bytes p <= MAX_NAMESPACE_BYTES
  /\ max_key_bytes p + max_value_bytes p + ENTRY_OVERHEAD_BYTES <= max_bytes p.

(** The accounted bytes of a set of entries. *)
Definition cost (es : gmap string Entry) : Z :=
  map_fold (fun key e acc => charge key (entry_value e) + acc) 0 es.

Lemma charge_range key value : 0 <= charge key value <= usize_max.
Proof.
  unfold charge, usize_saturating_add, str_len, ENTRY_OVERHEAD_BYTES, usize_max. lia.
Qed.

Lemma cost_insert es key e :
  es !! key = None -> cost (<[key := e]> es) = charge key (entry_value e) + cost es.
Proof.
  intros Hn. unfold cost. rewrite map_fold_insert_L; [done| |done]. intros. lia.
Qed.

Lemma cost_delete es key e :
  es !! key = Some e -> cost es = charge key (entry_value e) + cost (delete key es).
Proof.
  intros Hg. rewrite <- (insert_delete_id es key e) at 1 by done. by rewrite cost_insert by apply lookup_delete_eq.
Qed.

Lemma cost_nonneg es : 0 <= cost es.
Proof.
  unfold cost. apply (map_fold_weak_ind (fun r _ => 0 <= r)); [done|].
  intros k e m r _ Hr. pose proof (charge_range k (entry_value e)). lia.
Qed.

Record ns_ok (ns : Namespace) : Prop := {
  ok_policy : policy_ok (policy ns);
  access_sorted : bt_sorted (by_access ns);
  expiry_sorted : bt_sorted (by_expiry ns);
  access_iff : forall stamp key, bt_get stamp (by_access ns) = Some key <->
    exists e, entries ns !! key = Some e /\ entry_stamp e = stamp;
  expiry_iff : forall at_millis key, bt_get (at_millis, key) (by_expiry ns) = Some tt <->
    exists e, entries ns !! key = Some e /\ expires_at_millis e = at_millis;
  bytes_exact : ns_bytes ns = cost (entries ns);
  entries_bound : Z.of_nat (size (entries ns)) <= max_entries (policy ns);
  bytes_bound : ns_bytes ns <= max_bytes (policy ns);
}.

(** [ns'] is [ns] with [n] entries of [b] bytes together taken out. *)
Record shrunk (ns ns' : Namespace) (n b : Z) : Prop := {
  shrunk_ok : ns_ok ns';
  shrunk_policy : policy ns' = policy ns;
  shrunk_entries : entries ns' ⊆ entries ns;
  shrunk_size : Z.of_nat (size (entries ns)) = Z.of_nat (size (entries ns')) + n;
  shrunk_bytes : ns_bytes ns = ns_bytes ns' + b;
  shrunk_nonneg : 0 <= n /\ 0 <= b;
}.

Lemma shrunk_refl ns : ns_ok ns -> shrunk ns ns 0 0.
Proof. intros Hok. split; [done|done|done|lia|lia|lia]. Qed.

Lemma shrunk_trans ns1 ns2 ns3 n b n' b' :
  shrunk ns1 ns2 n b -> shrunk ns2 ns3 n' b' -> shrunk ns1 ns3 (n + n') (b + b').
Proof.
  intros [] []. split; [done|congruence|by etrans|lia|lia|lia].
Qed.

(** Removing an entry keeps both indexes exact. *)
Lemma ns_remove_ok ns key e :
  ns_ok ns -> entries ns !! key = Some e ->
  exists ns', ns_remove ns key = Some (ns', charge key (entry_value e))
    /\ shrunk ns ns' 1 (charge key (entry_value e)) /\ entries ns' = delete key (entries ns).
Proof.
  intros Hok Hg. unfold ns_remove. rewrite Hg. eexists. split; [done|]. split; [|done].
  pose proof (charge_range key (entry_value e)). pose proof (cost_delete _ _ _ Hg) as HC.
  pose proof (cost_nonneg (delete key (entries ns))). pose proof (map_size_delete_Some key (entries ns) ltac:(by rewrite Hg)) as HS.
  assert (0 < size (entries ns))%nat as HP.
  { destruct (size (entries ns)) eqn:E; [|lia]. apply map_size_empty_iff in E. by rewrite E in Hg. }
  destruct Hok as [Hp Ha He Hai Hei Hb Hn Hbb].
  split; simpl; [|done|by apply delete_subseteq|lia|unfold usize_saturating_sub; lia|lia].
  split; simpl; [done|by apply bt_remove_sorted|by apply bt_remove_sorted| | |unfold usize_saturating_sub; lia|lia|unfold usize_saturating_sub; lia].
  - intros stamp k. rewrite bt_get_remove by done. case_decide as D.
    + apply cmp_eq_iff in D as ->. split; [done|]. intros (e' & Hk & Hs).
      apply lookup_delete_Some in Hk as [Hne Hk]. exfalso. apply Hne.
      assert (bt_get (entry_stamp e) (by_access ns) = Some key) as H1 by (apply Hai; eauto).
      assert (bt_get (entry_stamp e) (by_access ns) = Some k) as H2 by (apply Hai; eauto). congruence.
    + rewrite cmp_eq_iff in D. rewrite Hai. split; intros (e' & Hk & Hs); exists e'; (split; [|done]).
      * rewrite lookup_delete_ne; [done|]. intros <-. congruence.
      * by apply lookup_delete_Some in Hk as [_ ?].
  - intros at_millis k. rewrite bt_get_remove by done. case_decide as D.
    + apply cmp_eq_iff in D as [= -> ->]. split; [done|]. intros (e' & Hk & _). by rewrite lookup_delete_eq in Hk.
    + rewrite cmp_eq_iff in D. rewrite Hei. split; intros (e' & Hk & Hs); exists e'; (split; [|done]).
      * rewrite lookup_delete_ne; [done|]. intros <-. congruence.
      * by apply lookup_delete_Some in Hk as [_ ?].
Qed.

(** An empty access index is an empty namespace. *)
Lemma by_access_nil ns : ns_ok ns -> by_access ns = [] -> entries ns = ∅.
Proof.
  intros Hok E. apply map_empty. intros key. destruct (entries ns !! key) as [e|] eqn:Eg; [|done].
  assert (bt_get (entry_stamp e) (by_access ns) = Some key) as H by (apply Hok; eauto).
  by rewrite E in H.
Qed.

(** The first of the access index is the least recently used entry, and it is
    what [evict_one] removes. *)
Lemma evict_one_ok ns stamp key rest :
  ns_ok ns -> by_access ns = (stamp, key) :: rest ->
  exists e ns', entries ns !! key = Some e /\ entry_stamp e = stamp
    /\ evict_one ns = Some (ns', charge key (entry_value e))
    /\ shrunk ns ns' 1 (charge key (entry_value e)) /\ entries ns' = delete key (entries ns)
    /\ by_access ns' = rest
    /\ forall k e', entries ns !! k = Some e' -> stamp <= entry_stamp e'.
Proof.
  intros Hok E. assert (bt_get stamp (by_access ns) = Some key) as Hg by (rewrite E; simpl; by rewrite cmp_refl).
  apply Hok in Hg as (e & He & Hs). destruct (ns_remove_ok ns key e Hok He) as (ns' & Hr & Hsh & Hd).
  exists e, ns'. split; [done|]. split; [done|]. unfold evict_one. rewrite E. split; [done|].
  split; [done|]. split; [done|]. split.
  - unfold ns_remove in Hr. rewrite He in Hr. injection Hr as <-. simpl. rewrite E, Hs. simpl. by rewrite cmp_refl.
  - intros k e' Hk. assert (bt_get (entry_stamp e') (by_access ns) = Some k) as Hg by (apply Hok; eauto).
    pose proof (access_sorted _ Hok) as Hsrt. rewrite E in Hg, Hsrt.
    destruct (bt_first_least _ _ _ _ _ Hsrt Hg) as [->|Hlt]; [lia|]. change (stamp < entry_stamp e') in Hlt. lia.
Qed.

Lemma sweep_from_ok budget ns now removed released ns' r b :
  ns_ok ns -> sweep_from budget ns now removed released = (ns', (r, b)) ->
  shrunk ns ns' (r - removed) (b - released).
Proof.
  revert ns removed released. induction budget as [|budget IH]; intros ns removed released Hok E; simpl in E.
  { injection E as <- <- <-. rewrite !Z.sub_diag. by apply shrunk_refl. }
  destruct (by_expiry ns) as [|[[at_millis key] []] rest] eqn:Ex.
  { injection E as <- <- <-. rewrite !Z.sub_diag. by apply shrunk_refl. }
  destruct (now <? at_millis).
  { injection E as <- <- <-. rewrite !Z.sub_diag. by apply shrunk_refl. }
  assert (bt_get (at_millis, key) (by_expiry ns) = Some tt) as Hg by (rewrite Ex; simpl; by rewrite cmp_refl).
  apply Hok in Hg as (e & He & _). destruct (ns_remove_ok ns key e Hok He) as (ns1 & Hr & Hsh & _).
  rewrite Hr in E. pose proof (IH ns1 _ _ (shrunk_ok _ _ _ _ Hsh) E) as Hsh'.
  pose proof (shrunk_trans _ _ _ _ _ _ _ Hsh Hsh') as H.
  assert (r - removed = 1 + (r - (removed + 1))) as -> by lia.
  by assert (b - released = charge key (entry_value e) + (b - (released + charge key (entry_value e)))) as -> by lia.
Qed.

(** ** The whole cache *)

Definition entry_count (ns : Namespace) : Z := Z.of_nat (size (entries ns)).

(** [bound] is the last stamp given out. *)
Record state_ok (bound : Z) (s : State) : Prop := {
  so_sorted : bt_sorted (namespaces s);
  so_ns : forall name ns, bt_get name (namespaces s) = Some ns -> ns_ok ns
    /\ max_entries (policy ns) <= max_total_entries s <= MAX_TOTAL_ENTRIES
    /\ max_bytes (policy ns) <= max_total_bytes s <= MAX_TOTAL_BYTES;
  so_entries : total_entries s = bt_sum entry_count (namespaces s);
  so_bytes : total_bytes s = bt_sum ns_bytes (namespaces s);
  so_entries_bound : total_entries s <= max_total_entries s;
  so_bytes_bound : total_bytes s <= max_total_bytes s;
  so_stamps : forall name ns key e, bt_get name (namespaces s) = Some ns ->
    entries ns !! key = Some e -> 0 <= entry_stamp e <= bound;
  so_unique : forall n1 ns1 k1 e1 n2 ns2 k2 e2,
    bt_get n1 (namespaces s) = Some ns1 -> entries ns1 !! k1 = Some e1 ->
    bt_get n2 (namespaces s) = Some ns2 -> entries ns2 !! k2 = Some e2 ->
    entry_stamp e1 = entry_stamp e2 -> n1 = n2 /\ k1 = k2;
}.

(** The counters play no part in the invariant. *)
Lemma state_ok_counters bound s s' :
  namespaces s' = namespaces s -> total_entries s' = total_entries s -> total_bytes s' = total_bytes s ->
  max_total_entries s' = max_total_entries s -> max_total_bytes s' = max_total_bytes s ->
  state_ok bound s -> state_ok bound s'.
Proof. intros E1 E2 E3 E4 E5 []. split; rewrite ?E1, ?E2, ?E3, ?E4, ?E5; done. Qed.

Lemma count_eviction_ok bound s : state_ok bound s -> state_ok bound (count_eviction s).
Proof. by apply state_ok_counters. Qed.
Lemma count_expirations_ok bound s n : state_ok bound s -> state_ok bound (count_expirations s n).
Proof. by apply state_ok_counters. Qed.
Lemma count_miss_ok bound s : state_ok bound s -> state_ok bound (count_miss s).
Proof. by apply state_ok_counters. Qed.
Lemma count_hit_ok bound s : state_ok bound s -> state_ok bound (count_hit s).
Proof. by apply state_ok_counters. Qed.
Lemma count_delete_ok bound s : state_ok bound s -> state_ok bound (count_delete s).
Proof. by apply state_ok_counters. Qed.
#[export] Hint Resolve count_eviction_ok count_expirations_ok count_miss_ok count_hit_ok count_delete_ok : krit.

Lemma ns_bytes_nonneg ns : ns_ok ns -> 0 <= ns_bytes ns.
Proof. intros Hok. rewrite (bytes_exact _ Hok). apply cost_nonneg. Qed.

Lemma get_set_namespace s name ns name' :
  bt_sorted (namespaces s) ->
  bt_get name' (namespaces (set_namespace s name ns))
  = if decide (name' = name) then Some ns else bt_get name' (namespaces s).
Proof.
  intros Hs. simpl. rewrite bt_get_insert by done. repeat case_decide; try done; by rewrite cmp_eq_iff in *.
Qed.

Lemma shrink_state bound s name ns ns' n b :
  state_ok bound s -> bt_get name (namespaces s) = Some ns -> shrunk ns ns' n b ->
  state_ok bound (release (set_namespace s name ns') n b).
Proof.
  intros Hok Hg [Hok' Hp He Hn Hb [Hn0 Hb0]]. destruct Hok as [Hs Hns Hte Htb Hbe Hbb Hst Hu].
  pose proof (bt_sum_insert entry_count _ name ns ns' Hs Hg) as S1.
  pose proof (bt_sum_insert ns_bytes _ name ns ns' Hs Hg) as S2. unfold entry_count at 3 4 in S1.
  assert (forall nm x, bt_get nm (bt_insert name ns' (namespaces s)) = Some x -> 
    exists y, bt_get nm (namespaces s) = Some y /\ ns_ok x /\ policy x = policy y /\ entries x ⊆ entries y) as HG.
  { intros nm x. rewrite bt_get_insert by done. case_decide as D.
    - apply cmp_eq_iff in D as ->. intros [= <-]. by exists ns.
    - intros Hx. exists x. by destruct (Hns _ _ Hx) as [? _]. }
  assert (0 <= bt_sum entry_count (bt_insert name ns' (namespaces s))) as P1
    by (apply bt_sum_nonneg; intros; unfold entry_count; lia).
  assert (0 <= bt_sum ns_bytes (bt_insert name ns' (namespaces s))) as P2.
  { apply bt_sum_nonneg. intros [nm x] Hin. apply bt_get_In in Hin; [|by apply bt_insert_sorted].
    destruct (HG nm x Hin) as (y & _ & Hx & _). by apply ns_bytes_nonneg. }
  split; simpl; unfold usize_saturating_sub; try lia.
  - by apply bt_insert_sorted.
  - intros nm x Hx. destruct (HG nm x Hx) as (y & Hy & Hxok & -> & _). by destruct (Hns nm y Hy).
  - intros nm x k e Hx Hk. destruct (HG nm x Hx) as (y & Hy & _ & _ & Hsub).
    eapply (Hst nm y k e Hy). by eapply lookup_weaken.
  - intros n1 x1 k1 e1 n2 x2 k2 e2 H1 K1 H2 K2.
    destruct (HG _ _ H1) as (y1 & Y1 & _ & _ & Sub1), (HG _ _ H2) as (y2 & Y2 & _ & _ & Sub2).
    eapply Hu; [done|by eapply lookup_weaken|done|by eapply lookup_weaken].
Qed.

(** ** Eviction *)

Definition oldest_step (best : option (Z * string)) (kv : string * Namespace) : option (Z * string) :=
  match by_access (snd kv) with
  | [] => best
  | (stamp, _) :: _ =>
      match best with
      | Some (least, _) => if stamp <? least then Some (stamp, fst kv) else best
      | None => Some (stamp, fst kv)
      end
  end.

Lemma oldest_namespace_step m : oldest_namespace m = fold_left oldest_step m None.
Proof.
  unfold oldest_namespace. generalize (@None (Z * string)). induction m as [|[n ns] m IH]; intros b; simpl; [done|].
  apply IH.
Qed.

(** First stamps of the namespaces of [m]. *)
Definition first_stamp (m : btree string Namespace) (name : string) (stamp : Z) : Prop :=
  exists ns key rest, In (name, ns) m /\ by_access ns = (stamp, key) :: rest.

Lemma oldest_fold m best :
  match fold_left oldest_step m best with
  | None => best = None /\ forall name ns, In (name, ns) m -> by_access ns = []
  | Some (stamp, name) =>
      (best = Some (stamp, name) \/ first_stamp m name stamp)
      /\ (forall n x, first_stamp m n x -> stamp <= x)
      /\ (forall x n, best = Some (x, n) -> stamp <= x)
  end.
Proof.
  revert best. induction m as [|[nm ns] m IH]; intros best; simpl.
  { destruct best as [[st n]|]; [|done]. split; [by left|]. split; [by intros n' x (? & ? & ? & [] & _)|].
    intros x n' [= -> ->]. lia. }
  specialize (IH (oldest_step best (nm, ns))). destruct (by_access ns) as [|[st key] rest] eqn:Ea.
  - replace (oldest_step best (nm, ns)) with best in * by (unfold oldest_step; simpl; by rewrite Ea).
    destruct (fold_left oldest_step m best) as [[s n]|].
    + destruct IH as (H1 & H2 & H3). split; [|split; [|done]].
      * destruct H1 as [|(x & k & r & Hin & Hx)]; [by left|right]. exists x, k, r. split; [by right|done].
      * intros n' x (y & k & r & [[= <- <-]|Hin] & Hy); [congruence|]. apply (H2 n'). by exists y, k, r.
    + destruct IH as [H1 H2]. split; [done|]. intros n x [[= <- <-]|Hin]; [done|by eapply H2].
  - set (best' := oldest_step best (nm, ns)) in *.
    assert (exists s' n', best' = Some (s', n') /\ s' <= st /\ (best = Some (s', n') \/ (s' = st /\ n' = nm))
      /\ forall x n, best = Some (x, n) -> s' <= x) as (s' & n' & -> & Hle & Hor & Hbest).
    { unfold best', oldest_step. simpl. rewrite Ea. destruct best as [[l n]|]; [|exists st, nm; split; [done|]; split; [lia|]; split; [by right|done]].
      destruct (Z.ltb_spec st l).
      - exists st, nm. split; [done|]. split; [lia|]. split; [by right|]. intros x n0 [= -> ->]. lia.
      - exists l, n. split; [done|]. split; [lia|]. split; [by left|]. intros x n0 [= -> ->]. lia. }
    destruct (fold_left oldest_step m _) as [[s n]|]; [|by destruct IH].
    destruct IH as (H1 & H2 & H3). pose proof (H3 s' n' eq_refl) as Hs'. split; [|split].
    + destruct H1 as [[= <- <-]|(x & k & r & Hin & Hx)].
      * destruct Hor as [|[-> ->]]; [by left|right]. exists ns, key, rest. split; [by left|done].
      * right. exists x, k, r. split; [by right|done].
    + intros n0 x (y & k & r & [[= <- <-]|Hin] & Hy); [rewrite Ea in Hy; injection Hy as <- _ _; lia|].
      apply (H2 n0). by exists y, k, r.
    + intros x n0 Hx. specialize (Hbest _ _ Hx). lia.
Qed.

(** [evict_globally] removes the least recently used entry of the whole cache;
    it removes nothing only when there is nothing. *)
Lemma evict_globally_ok bound s :
  state_ok bound s ->
  (evict_globally s = None /\ forall name ns, bt_get name (namespaces s) = Some ns -> by_access ns = [])
  \/ exists name ns key e ns' rest,
       bt_get name (namespaces s) = Some ns /\ entries ns !! key = Some e
       /\ by_access ns = (entry_stamp e, key) :: rest /\ by_access ns' = rest
       /\ evict_globally s = Some (set_namespace s name ns', charge key (entry_value e))
       /\ shrunk ns ns' 1 (charge key (entry_value e)) /\ entries ns' = delete key (entries ns)
       /\ forall n x k e', bt_get n (namespaces s) = Some x -> entries x !! k = Some e' ->
            entry_stamp e <= entry_stamp e'.
Proof.
  intros Hok. pose proof (so_sorted _ _ Hok) as Hs. unfold evict_globally. rewrite oldest_namespace_step.
  pose proof (oldest_fold (namespaces s) None) as HO.
  destruct (fold_left oldest_step _ None) as [[stamp name]|].
  - right. destruct HO as ([|(ns & key & rest & Hin & Ha)] & Hleast & _); [done|].
    apply bt_get_In in Hin; [|done]. destruct (so_ns _ _ Hok _ _ Hin) as [Hns _].
    destruct (evict_one_ok ns stamp key rest Hns Ha) as (e & ns' & He & Hst & Hev & Hsh & Hd & Hr & _).
    exists name, ns, key, e, ns', rest. rewrite Hin, Hev. subst stamp.
    repeat (split; [done|]). intros n x k e' Hx Hk. destruct (so_ns _ _ Hok _ _ Hx) as [Hxok _].
    destruct (by_access x) as [|[st' k'] rest'] eqn:Ex.
    + apply by_access_nil in Ex; [|done]. by rewrite Ex in Hk.
    + destruct (evict_one_ok x st' k' rest' Hxok Ex) as (_ & _ & _ & _ & _ & _ & _ & _ & Hmin).
      specialize (Hmin k e' Hk). assert (entry_stamp e <= st'); [|lia].
      apply (Hleast n). exists x, k', rest'. split; [by apply bt_get_In|done].
  - left. split; [done|]. destruct HO as [_ HO]. intros name ns Hg. apply bt_get_In in Hg; [|done]. by eapply HO.
Qed.

Lemma indexed_insert m name ns ns' :
  bt_sorted m -> bt_get name m = Some ns -> length (by_access ns) = S (length (by_access ns')) ->
  indexed m = S (indexed (bt_insert name ns' m)).
Proof.
  unfold indexed. induction m as [|[k x] m IH]; simpl; [done|]. intros [_ Hs].
  destruct (cmp name k) eqn:E; simpl; [|done|].
  - intros [= ->] Hl. lia.
  - intros Hg Hl. rewrite (IH Hs Hg Hl). lia.
Qed.

(** ** Making room *)

(** [s'] has the same namespaces as [s] with nothing but removals. *)
Definition only_removed (s s' : State) : Prop :=
  forall name, match bt_get name (namespaces s), bt_get name (namespaces s') with
               | Some ns, Some ns' => policy ns' = policy ns /\ entries ns' ⊆ entries ns
               | None, None => True
               | _, _ => False
               end.

Lemma only_removed_refl s : only_removed s s.
Proof. intros name. by destruct (bt_get name _). Qed.

Lemma only_removed_trans a b c : only_removed a b -> only_removed b c -> only_removed a c.
Proof.
  intros H1 H2 name. specialize (H1 name). specialize (H2 name).
  destruct (bt_get name (namespaces a)), (bt_get name (namespaces b)), (bt_get name (namespaces c)); try done.
  destruct H1, H2. split; [congruence|by etrans].
Qed.

Lemma only_removed_set s name ns ns' n b :
  bt_sorted (namespaces s) -> bt_get name (namespaces s) = Some ns -> shrunk ns ns' n b ->
  only_removed s (set_namespace s name ns').
Proof.
  intros Hs Hg Hsh name'. rewrite get_set_namespace by done. case_decide as D.
  - subst. rewrite Hg. split; apply Hsh.
  - by destruct (bt_get name' (namespaces s)).
Qed.

(** The new entry fits. *)
Definition has_room (s : State) (name : string) (c : Z) : Prop :=
  exists ns, bt_get name (namespaces s) = Some ns
    /\ Z.of_nat (size (entries ns)) < max_entries (policy ns) /\ ns_bytes ns + c <= max_bytes (policy ns)
    /\ total_entries s < max_total_entries s /\ total_bytes s + c <= max_total_bytes s.

Lemma saturating_le a b m : 0 <= a -> 0 <= b -> m < usize_max -> usize_saturating_add a b <= m <-> a + b <= m.
Proof. unfold usize_saturating_add. lia. Qed.

(** One eviction, whichever namespace it hits. *)
Lemma evicted_ok bound s name ns ns' c rest key stamp :
  state_ok bound s -> bt_get name (namespaces s) = Some ns -> shrunk ns ns' 1 c ->
  by_access ns = (stamp, key) :: rest -> by_access ns' = rest ->
  let s' := count_eviction (release (set_namespace s name ns') 1 c) in
  state_ok bound s' /\ only_removed s s' /\ indexed (namespaces s) = S (indexed (namespaces s')).
Proof.
  intros Hok Hg Hsh Ha Hr. split; [|split].
  - apply count_eviction_ok. by eapply shrink_state.
  - eapply only_removed_set; [apply Hok|done|done].
  - apply (indexed_insert _ _ ns); [apply Hok|done|]. by rewrite Ha, Hr.
Qed.

Lemma only_removed_get s s' name ns :
  only_removed s s' -> bt_get name (namespaces s) = Some ns ->
  exists ns', bt_get name (namespaces s') = Some ns' /\ policy ns' = policy ns /\ entries ns' ⊆ entries ns.
Proof.
  intros Hr Hg. specialize (Hr name). rewrite Hg in Hr.
  destruct (bt_get name (namespaces s')) as [ns'|]; [|done]. by exists ns'.
Qed.

(** In a valid cache, a cost that one entry may have always finds room: the
    loop ends, and ends well. *)
(** An empty namespace and an empty cache have room for any admissible cost,
    so the loop always finds something to evict. *)
Lemma empty_namespace_fits ns c :
  ns_ok ns -> by_access ns = [] -> 0 <= c <= max_bytes (policy ns) ->
  (Z.of_nat (size (entries ns)) <? max_entries (policy ns))
  && (usize_saturating_add (ns_bytes ns) c <=? max_bytes (policy ns)) = true.
Proof.
  intros Hns Ha Hc. pose proof (ok_policy _ Hns) as ([Hp1 _] & [_ Hp2] & _).
  apply (by_access_nil _ Hns) in Ha. rewrite (bytes_exact _ Hns), Ha. unfold cost.
  rewrite map_size_empty, map_fold_empty. apply andb_true_iff. split; [apply Z.ltb_lt; lia|].
  apply Z.leb_le. unfold usize_saturating_add, MAX_NAMESPACE_BYTES, usize_max in *. lia.
Qed.

Lemma empty_cache_fits bound s c :
  state_ok bound s -> (forall k x, bt_get k (namespaces s) = Some x -> by_access x = []) ->
  0 < max_total_entries s -> 0 <= c <= max_total_bytes s -> max_total_bytes s <= usize_max ->
  (total_entries s <? max_total_entries s)
  && (usize_saturating_add (total_bytes s) c <=? max_total_bytes s) = true.
Proof.
  intros Hok Hnil He Hc Hu. rewrite (so_entries _ _ Hok), (so_bytes _ _ Hok).
  assert (forall kv, In kv (namespaces s) -> entry_count (snd kv) = 0 /\ ns_bytes (snd kv) = 0) as Hz.
  { intros [k x] Hin. apply bt_get_In in Hin; [|apply Hok]. destruct (so_ns _ _ Hok _ _ Hin) as [Hx _].
    pose proof (by_access_nil _ Hx (Hnil _ _ Hin)) as E0. unfold entry_count. simpl.
    rewrite (bytes_exact _ Hx), E0. unfold cost. by rewrite map_size_empty, map_fold_empty. }
  rewrite (bt_sum_zero entry_count), (bt_sum_zero ns_bytes) by (intros; by apply Hz).
  apply andb_true_iff. split; [by apply Z.ltb_lt|]. apply Z.leb_le. unfold usize_saturating_add. lia.
Qed.

Lemma total_bytes_nonneg bound s : state_ok bound s -> 0 <= total_bytes s.
Proof.
  intros Hok. rewrite (so_bytes _ _ Hok). apply bt_sum_nonneg. intros [k x] Hin.
  apply bt_get_In in Hin; [|apply Hok]. apply ns_bytes_nonneg, (so_ns _ _ Hok _ _ Hin).
Qed.

Lemma make_room_ok fuel bound s name ns c :
  state_ok bound s -> bt_get name (namespaces s) = Some ns -> 0 <= c <= max_bytes (policy ns) ->
  (indexed (namespaces s) < fuel)%nat ->
  exists s', make_room fuel s name c = Some (s', Ok tt)
    /\ state_ok bound s' /\ only_removed s s' /\ has_room s' name c.
Proof.
  revert s ns. induction fuel as [|fuel IH]; intros s ns Hok Hg Hc Hf; [lia|]. simpl.
  unfold namespace. rewrite Hg. cbn [ok_or].
  destruct (so_ns _ _ Hok _ _ Hg) as (Hns & [HE HE'] & [HB HB']). pose proof (ns_bytes_nonneg ns Hns) as Hb0.
  pose proof (ok_policy _ Hns) as ([Hp1 _] & [_ Hp2] & _).
  assert (forall s1 name1 x x' b rest k st, bt_get name1 (namespaces s) = Some x -> shrunk x x' 1 b ->
    by_access x = (st, k) :: rest -> by_access x' = rest -> s1 = count_eviction (release (set_namespace s name1 x') 1 b) ->
    exists s', make_room fuel s1 name c = Some (s', Ok tt) /\ state_ok bound s' /\ only_removed s s' /\ has_room s' name c) as HR.
  { intros s1 name1 x x' b rest k st Hx Hsh Ha Hr ->.
    destruct (evicted_ok bound s name1 x x' b rest k st Hok Hx Hsh Ha Hr) as (Hok1 & Hrm & Hi).
    destruct (only_removed_get _ _ _ _ Hrm Hg) as (ns1 & Hg1 & Hpol & _).
    destruct (IH _ ns1 Hok1 Hg1) as (s' & Hm & Hok' & Hrm' & Hroom); [by rewrite Hpol|lia|].
    exists s'. split; [done|]. split; [done|]. split; [by eapply only_removed_trans|done]. }
  destruct ((Z.of_nat (size (entries ns)) <? max_entries (policy ns))
            && (usize_saturating_add (ns_bytes ns) c <=? max_bytes (policy ns))) eqn:En; cbn [negb].
  - apply andb_true_iff in En as [En1%Z.ltb_lt En2%Z.leb_le].
    rewrite saturating_le in En2 by (unfold MAX_NAMESPACE_BYTES, usize_max in *; lia).
    destruct ((total_entries s <? max_total_entries s)
              && (usize_saturating_add (total_bytes s) c <=? max_total_bytes s)) eqn:Eg.
    + apply andb_true_iff in Eg as [Eg1%Z.ltb_lt Eg2%Z.leb_le]. pose proof (total_bytes_nonneg _ _ Hok).
      rewrite saturating_le in Eg2 by (unfold MAX_TOTAL_BYTES, usize_max in *; lia).
      exists s. split; [done|]. split; [done|]. split; [apply only_removed_refl|]. by exists ns.
    + destruct (evict_globally_ok bound s Hok) as [[-> Hnil]|(n & x & k & e & x' & rest & Hx & Hk & Ha & Hr & -> & Hsh & _)].
      * exfalso. rewrite (empty_cache_fits bound s c) in Eg; [done|done|done|lia|lia|].
        unfold MAX_TOTAL_BYTES, usize_max in *. lia.
      * by eapply HR.
  - destruct (by_access ns) as [|[st k] rest] eqn:Ea.
    + exfalso. by rewrite (empty_namespace_fits ns c) in En.
    + destruct (evict_one_ok ns st k rest Hns Ea) as (e & ns' & _ & _ & -> & Hsh & _ & Hr & _).
      by eapply HR.
Qed.

(** ** Storing *)

Lemma ns_store_ok ns key value at_millis stamp :
  ns_ok ns -> entries ns !! key = None ->
  (forall k e, entries ns !! k = Some e -> entry_stamp e <> stamp) ->
  Z.of_nat (size (entries ns)) < max_entries (policy ns) ->
  ns_bytes ns + charge key value <= max_bytes (policy ns) ->
  ns_ok (ns_store ns key value at_millis stamp (charge key value)).
Proof.
  intros [Hp Ha He Hai Hei Hb Hn Hbb] Hnone Hfresh Hroom Hbytes.
  assert (usize_saturating_add (ns_bytes ns) (charge key value) = ns_bytes ns + charge key value) as Hsat.
  { destruct Hp as (_ & [_ Hp] & _). unfold usize_saturating_add, MAX_NAMESPACE_BYTES, usize_max in *. lia. }
  split; simpl; [done|by apply bt_insert_sorted|by apply bt_insert_sorted| | | | |by rewrite Hsat].
  - intros st k. rewrite bt_get_insert by done. case_decide as D.
    + apply cmp_eq_iff in D as ->. split.
      * intros [= <-]. exists (mkEntry value at_millis stamp). by rewrite lookup_insert_eq.
      * intros (e & Hk & Hs). apply lookup_insert_Some in Hk as [[-> _]|[_ Hk]]; [done|]. by apply Hfresh in Hk.
    + rewrite cmp_eq_iff in D. rewrite Hai. split; intros (e & Hk & Hs); exists e; (split; [|done]).
      * rewrite lookup_insert_ne; [done|]. intros <-. congruence.
      * apply lookup_insert_Some in Hk as [[_ <-]|[_ Hk]]; [|done]. by simpl in Hs.
  - intros at' k. rewrite bt_get_insert by done. case_decide as D.
    + apply cmp_eq_iff in D as [= -> ->]. split; [|done]. intros _. eexists. by rewrite lookup_insert_eq.
    + rewrite cmp_eq_iff in D. rewrite Hei. split; intros (e & Hk & Hs); exists e; (split; [|done]).
      * rewrite lookup_insert_ne; [done|]. intros <-. congruence.
      * apply lookup_insert_Some in Hk as [[-> <-]|[_ Hk]]; [|done]. simpl in Hs. congruence.
  - rewrite Hsat, cost_insert by done. simpl. lia.
  - rewrite map_size_insert_None by done. lia.
Qed.

Lemma state_ok_mono bound bound' s : bound <= bound' -> state_ok bound s -> state_ok bound' s.
Proof. intros Hle []. split; try done. intros. specialize (so_stamps0 _ _ _ _ H H0). lia. Qed.

(** Replacing one namespace by a valid one whose entries are the old ones or
    stamped with the new stamp. *)
Definition restamped (stamp : Z) (ns ns' : Namespace) : Prop :=
  ns_ok ns' /\ policy ns' = policy ns
  /\ forall k e, entries ns' !! k = Some e ->
       entry_stamp e = stamp \/ exists e0, entries ns !! k = Some e0 /\ entry_stamp e0 = entry_stamp e.

Lemma restamp_state bound s s' name ns ns' :
  state_ok bound s -> bt_get name (namespaces s) = Some ns -> restamped (bound + 1) ns ns' ->
  0 <= bound -> namespaces s' = bt_insert name ns' (namespaces s) ->
  max_total_entries s' = max_total_entries s -> max_total_bytes s' = max_total_bytes s ->
  total_entries s' = total_entries s - entry_count ns + entry_count ns' ->
  total_bytes s' = total_bytes s - ns_bytes ns + ns_bytes ns' ->
  total_entries s' <= max_total_entries s -> total_bytes s' <= max_total_bytes s ->
  (forall k1 e1 k2 e2, entries ns' !! k1 = Some e1 -> entries ns' !! k2 = Some e2 ->
     entry_stamp e1 = bound + 1 -> entry_stamp e2 = bound + 1 -> k1 = k2) ->
  state_ok (bound + 1) s'.
Proof.
  intros [Hs Hns Hte Htb Hbe Hbb Hst Hu] Hg (Hok' & Hpol & Hent) H0 EN EE EB ET ETB LE LB Hone.
  assert (forall nm x, bt_get nm (namespaces s') = Some x ->
    (nm = name /\ x = ns') \/ (nm <> name /\ bt_get nm (namespaces s) = Some x)) as HG.
  { intros nm x. rewrite EN, bt_get_insert by done. case_decide as D; rewrite cmp_eq_iff in D; [|by right].
    intros [= <-]. by left. }
  assert (forall nm x k e, bt_get nm (namespaces s') = Some x -> entries x !! k = Some e ->
    (nm = name /\ x = ns' /\ entry_stamp e = bound + 1)
    \/ exists y e0, bt_get nm (namespaces s) = Some y /\ entries y !! k = Some e0 /\ entry_stamp e0 = entry_stamp e) as HE.
  { intros nm x k e Hx Hk. destruct (HG nm x Hx) as [[-> ->]|[Hne Hy]]; [|right; eauto].
    destruct (Hent k e Hk) as [|(e0 & Hk0 & Hs0)]; [by left|right; eauto]. }
  split.
  - rewrite EN. by apply bt_insert_sorted.
  - intros nm x Hx. rewrite EE, EB. destruct (HG nm x Hx) as [[-> ->]|[_ Hy]]; [|by apply (Hns nm)].
    rewrite Hpol. by destruct (Hns _ _ Hg).
  - rewrite EN, (bt_sum_insert _ _ _ ns) by done. lia.
  - rewrite EN, (bt_sum_insert _ _ _ ns) by done. lia.
  - lia.
  - lia.
  - intros nm x k e Hx Hk. destruct (HE nm x k e Hx Hk) as [(_ & _ & ->)|(y & e0 & Hy & Hk0 & <-)]; [lia|].
    specialize (Hst _ _ _ _ Hy Hk0). lia.
  - intros n1 x1 k1 e1 n2 x2 k2 e2 G1 K1 G2 K2 Heq.
    destruct (HE _ _ _ _ G1 K1) as [(-> & -> & S1)|(y1 & f1 & Y1 & F1 & S1)],
             (HE _ _ _ _ G2 K2) as [(-> & -> & S2)|(y2 & f2 & Y2 & F2 & S2)].
    + split; [done|]. by eapply Hone.
    + specialize (Hst _ _ _ _ Y2 F2). lia.
    + specialize (Hst _ _ _ _ Y1 F1). lia.
    + eapply Hu; [done|done|done|done|lia].
Qed.

Lemma write_store_ok bound s name ns key value at_millis :
  state_ok bound s -> 0 <= bound -> bt_get name (namespaces s) = Some ns -> entries ns !! key = None ->
  has_room s name (charge key value) ->
  state_ok (bound + 1) (write_store s name ns key value at_millis (bound + 1) (charge key value)).
Proof.
  intros Hok H0 Hg Hnone (ns0 & Hg0 & R1 & R2 & R3 & R4). rewrite Hg in Hg0. injection Hg0 as <-.
  destruct (so_ns _ _ Hok _ _ Hg) as (Hns & [_ HE] & [_ HB]).
  assert (forall k e, entries ns !! k = Some e -> entry_stamp e <> bound + 1) as Hfresh.
  { intros k e Hk. specialize (so_stamps _ _ Hok _ _ _ _ Hg Hk). lia. }
  pose proof (ns_store_ok ns key value at_millis (bound + 1) Hns Hnone Hfresh R1 R2) as Hns'.
  pose proof (charge_range key value). pose proof (ns_bytes_nonneg ns Hns).
  pose proof (ok_policy _ Hns) as (_ & [_ Hp] & _).
  unfold MAX_TOTAL_ENTRIES, MAX_TOTAL_BYTES, MAX_NAMESPACE_BYTES in *.
  eapply (restamp_state bound s _ name ns); try done.
  - split; [done|]. split; [done|]. simpl. intros k e Hk.
    apply lookup_insert_Some in Hk as [[_ <-]|[_ Hk]]; [by left|right; eauto].
  - simpl. unfold entry_count. simpl. rewrite map_size_insert_None by done.
    unfold usize_saturating_add, usize_max. lia.
  - simpl. unfold usize_saturating_add, usize_max in *. lia.
  - simpl. unfold usize_saturating_add, usize_max. lia.
  - simpl. unfold usize_saturating_add, usize_max. lia.
  - simpl. intros k1 e1 k2 e2 K1 K2 S1 S2.
    apply lookup_insert_Some in K1 as [[-> _]|[_ K1]]; [|by apply Hfresh in K1].
    apply lookup_insert_Some in K2 as [[-> _]|[_ K2]]; [done|by apply Hfresh in K2].
Qed.

(** ** Operations *)

Definition cache_ok (c : Cache) : Prop :=
  0 <= cache_stamp c < 2 ^ 64 /\ state_ok (cache_stamp c) (cache_state c).

(** The live entry of a key, whatever its deadline. *)
Definition lookup (s : State) (name key : string) : option Entry :=
  match bt_get name (namespaces s) with Some ns => entries ns !! key | None => None end.

Lemma only_removed_lookup s s' name key e :
  only_removed s s' -> lookup s' name key = Some e -> lookup s name key = Some e.
Proof.
  unfold lookup. intros Hr. specialize (Hr name).
  destruct (bt_get name (namespaces s)), (bt_get name (namespaces s')); try done.
  destruct Hr as [_ Hr]. intros Hk. by eapply lookup_weaken.
Qed.

Lemma next_stamp_eq c : 0 <= cache_stamp c -> cache_stamp c + 1 < 2 ^ 64 -> next_stamp c = cache_stamp c + 1.
Proof. intros. unfold next_stamp. apply Z.mod_small. lia. Qed.

Lemma write_checks_charge ns key value ttl now writer at_millis :
  policy_ok (policy ns) -> write_checks ns key value ttl now writer = Ok at_millis ->
  0 <= charge key value <= max_bytes (policy ns).
Proof.
  intros (_ & _ & Hp) Hw. pose proof (charge_range key value). unfold write_checks in Hw.
  assert ((let? _ := validate_key key (max_key_bytes (policy ns)) in
      if max_value_bytes (policy ns) <? str_len value then
        Err (limit_error "cache value exceeds its configured byte bound")
      else if (ttl <? MIN_TTL_SECONDS) || (max_ttl_seconds (policy ns) <? ttl) then
        Err (limit_error "cache time to live is outside its configured bounds")
      else deadline ttl now) = Ok at_millis) as Hw' by (by destruct (mode (policy ns)), writer).
  apply result_bind_Ok in Hw' as (u & Hk & Hw').
  destruct (Z.ltb_spec (max_value_bytes (policy ns)) (str_len value)); [done|].
  unfold validate_key in Hk. destruct (str_len key =? 0); [done|].
  destruct (Z.ltb_spec (max_key_bytes (policy ns)) (str_len key)); [done|].
  unfold charge, usize_saturating_add, usize_max in *. lia.
Qed.

(** Sweeping and replacing only remove, and the key is then absent. *)
Lemma prepared_ok bound s name ns key now s1 ns1 :
  state_ok bound s -> bt_get name (namespaces s) = Some ns -> write_sweep s name ns now = (s1, ns1) ->
  let s2 := write_replace s1 name ns1 key in
  state_ok bound s2 /\ only_removed s s2 /\ lookup s2 name key = None.
Proof.
  intros Hok Hg E. unfold write_sweep in E. destruct (sweep_expired ns now) as [ns' [r b]] eqn:Es.
  injection E as <- <-. destruct (so_ns _ _ Hok _ _ Hg) as [Hns _].
  pose proof (sweep_from_ok _ _ _ _ _ _ _ _ Hns Es) as Hsh. rewrite !Z.sub_0_r in Hsh.
  set (s1 := count_expirations (release (set_namespace s name ns') r b) r).
  assert (state_ok bound s1) as Hok1 by (apply count_expirations_ok; by eapply shrink_state).
  assert (only_removed s s1) as Hr1 by (eapply only_removed_set; [apply Hok|done|done]).
  assert (bt_get name (namespaces s1) = Some ns') as Hg1 by (apply bt_get_insert_eq, Hok).
  unfold write_replace. destruct (entries ns' !! key) as [e|] eqn:Ek.
  - destruct (ns_remove_ok ns' key e (shrunk_ok _ _ _ _ Hsh) Ek) as (ns2 & -> & Hsh2 & Hd).
    split; [by eapply shrink_state|]. split.
    + eapply only_removed_trans; [exact Hr1|]. eapply only_removed_set; [apply Hok1|done|done].
    + unfold lookup. cbn [release set_namespace set_namespaces namespaces].
      rewrite bt_get_insert_eq by apply Hok1. by rewrite Hd, lookup_delete_eq.
  - assert (ns_remove ns' key = None) as -> by (unfold ns_remove; by rewrite Ek).
    split; [done|]. split; [done|]. unfold lookup. by rewrite Hg1.
Qed.

(** What a successful [write] does. *)
Record written (c : Cache) (name key value : string) (at_millis : Z) (c' : Cache) : Prop := {
  written_ok : cache_ok c';
  written_entry : lookup (cache_state c') name key = Some (mkEntry value at_millis (cache_stamp c'));
  written_others : forall n k e, (n, k) <> (name, key) ->
    lookup (cache_state c') n k = Some e -> lookup (cache_state c) n k = Some e;
  written_policies : forall n, policy <$> bt_get n (namespaces (cache_state c'))
                               = policy <$> bt_get n (namespaces (cache_state c));
  written_poisoned : cache_poisoned c' = cache_poisoned c;
}.

Lemma write_succeeds c name ns key value ttl now writer at_millis :
  cache_ok c -> cache_stamp c + 1 < 2 ^ 64 -> cache_poisoned c = false ->
  bt_get name (namespaces (cache_state c)) = Some ns ->
  write_checks ns key value ttl now writer = Ok at_millis ->
  exists c', write c name key value ttl now writer = Some (c', Ok tt) /\ written c name key value at_millis c'.
Proof.
  intros [[H0 _] Hok] Hst Hp Hg Hw. unfold write, namespace. rewrite Hp, Hg. cbn [ok_or]. rewrite Hw.
  destruct (write_sweep (cache_state c) name ns now) as [s1 ns1] eqn:E.
  destruct (prepared_ok _ _ _ _ key _ _ _ Hok Hg E) as (Hok2 & Hr2 & Hnone).
  set (s2 := write_replace s1 name ns1 key) in *.
  destruct (only_removed_get _ _ _ _ Hr2 Hg) as (ns2 & Hg2 & Hpol & _).
  destruct (so_ns _ _ Hok _ _ Hg) as [Hns _].
  destruct (make_room_ok (S (indexed (namespaces s2))) _ s2 name ns2 (charge key value) Hok2 Hg2)
    as (s3 & -> & Hok3 & Hr3 & Hroom); [rewrite Hpol; eapply write_checks_charge; [apply Hns|done]|lia|].
  pose proof Hroom as (ns3 & Hg3 & _). rewrite Hg3. cbn [ok_or].
  assert (entries ns3 !! key = None) as Hk3.
  { destruct (entries ns3 !! key) as [e|] eqn:Ek; [|done].
    assert (lookup s3 name key = Some e) as Hl by (unfold lookup; by rewrite Hg3).
    apply (only_removed_lookup _ _ _ _ _ Hr3) in Hl. congruence. }
  pose proof (only_removed_trans _ _ _ Hr2 Hr3) as Hr.
  eexists. split; [done|]. unfold advanced. rewrite next_stamp_eq by done.
  assert (forall n, bt_get n (namespaces (write_store s3 name ns3 key value at_millis (cache_stamp c + 1) (charge key value)))
    = if decide (n = name) then Some (ns_store ns3 key value at_millis (cache_stamp c + 1) (charge key value))
      else bt_get n (namespaces s3)) as HG
    by (intros n; apply (get_set_namespace s3); apply Hok3).
  split; simpl.
  - split; [simpl; lia|]. by apply write_store_ok.
  - unfold lookup. rewrite HG, decide_True by done. simpl. by rewrite lookup_insert_eq.
  - intros n k e Hne Hl. apply (only_removed_lookup _ _ _ _ _ Hr). unfold lookup in *. rewrite HG in Hl.
    case_decide as D; [|done]. subst n. rewrite Hg3. simpl in Hl.
    apply lookup_insert_Some in Hl as [[-> _]|[_ Hl]]; [done|done].
  - intros n. rewrite HG. specialize (Hr n). case_decide as D.
    + subst n. rewrite Hg3, Hg in Hr. rewrite Hg. simpl. f_equal. apply Hr.
    + destruct (bt_get n (namespaces (cache_state c))), (bt_get n (namespaces s3)); try done.
      simpl. f_equal. apply Hr.
  - done.
Qed.

Lemma advanced_ok c s :
  cache_ok c -> cache_stamp c + 1 < 2 ^ 64 -> state_ok (cache_stamp c + 1) s -> cache_ok (advanced c s).
Proof. intros [[H0 _] _] Hst Hs. unfold advanced, cache_ok. simpl. rewrite next_stamp_eq by done. split; [lia|done]. Qed.

Lemma write_ok c name key value ttl now writer :
  cache_ok c -> cache_stamp c + 1 < 2 ^ 64 ->
  exists c' r, write c name key value ttl now writer = Some (c', r) /\ cache_ok c'.
Proof.
  intros Hok Hst.
  assert (state_ok (cache_stamp c + 1) (cache_state c)) as Hok1
    by (eapply state_ok_mono; [|apply Hok]; lia).
  destruct (cache_poisoned c) eqn:Hp.
  { unfold write. rewrite Hp. eauto. }
  destruct (bt_get name (namespaces (cache_state c))) as [ns|] eqn:Hg.
  - destruct (write_checks ns key value ttl now writer) as [at_millis|e] eqn:Hw.
    + destruct (write_succeeds c name ns key value ttl now writer at_millis Hok Hst Hp Hg Hw) as (c' & -> & Hc).
      exists c', (Ok tt). split; [done|apply Hc].
    + unfold write, namespace. rewrite Hp, Hg. cbn [ok_or]. rewrite Hw. eexists _, _. split; [done|].
      by apply advanced_ok.
  - unfold write, namespace. rewrite Hp, Hg. cbn [ok_or]. eexists _, _. split; [done|]. by apply advanced_ok.
Qed.

(** A hit gives its entry the new stamp and changes nothing else. *)
Lemma ns_touch_ok ns key e stamp :
  ns_ok ns -> entries ns !! key = Some e -> (forall k e', entries ns !! k = Some e' -> entry_stamp e' <> stamp) ->
  ns_ok (mkNamespace (policy ns)
    (<[key := mkEntry (entry_value e) (expires_at_millis e) stamp]> (entries ns))
    (bt_insert stamp key (bt_remove (entry_stamp e) (by_access ns))) (by_expiry ns) (ns_bytes ns)).
Proof.
  intros [Hp Ha He Hai Hei Hb Hn Hbb] Hk Hfresh.
  split; simpl; [done|by apply bt_insert_sorted, bt_remove_sorted|done| | | | |done].
  - intros st k. rewrite bt_get_insert, bt_get_remove by (done || by apply bt_remove_sorted).
    case_decide as D1; [|case_decide as D2]; rewrite cmp_eq_iff in *; subst.
    + split; [intros [= <-]; eexists; by rewrite lookup_insert_eq|].
      intros (e' & Hk' & Hs). apply lookup_insert_Some in Hk' as [[-> _]|[_ Hk']]; [done|]. by apply Hfresh in Hk'.
    + split; [done|]. intros (e' & Hk' & Hs). apply lookup_insert_Some in Hk' as [[_ <-]|[Hne Hk']]; [by simpl in Hs|].
      exfalso. apply Hne. assert (bt_get (entry_stamp e) (by_access ns) = Some key) as H1 by (apply Hai; eauto).
      assert (bt_get (entry_stamp e) (by_access ns) = Some k) as H2 by (apply Hai; eauto). congruence.
    + rewrite Hai. split; intros (e' & Hk' & Hs).
      * exists e'. split; [|done]. rewrite lookup_insert_ne; [done|]. intros <-. congruence.
      * apply lookup_insert_Some in Hk' as [[_ <-]|[_ Hk']]; [by simpl in Hs|eauto].
  - intros at' k. rewrite Hei. destruct (decide (k = key)) as [->|Hne].
    + rewrite lookup_insert_eq. split; [intros (e' & Hk' & Hs); eexists; split; [done|]; simpl; congruence|].
      intros (e' & [= <-] & Hs). eauto.
    + rewrite lookup_insert_ne by done. done.
  - rewrite Hb. rewrite (cost_delete _ _ _ Hk).
    rewrite <- (insert_delete_eq (entries ns) key). rewrite cost_insert by apply lookup_delete_eq. done.
  - rewrite map_size_insert_Some by (by rewrite Hk). done.
Qed.

(** What [get] answers and what it leaves. *)
Lemma get_ok c name key now c' r :
  cache_ok c -> cache_stamp c + 1 < 2 ^ 64 -> get c name key now = (c', r) ->
  cache_ok c'
  /\ (forall v, r = Ok (Some v) <-> cache_poisoned c = false
        /\ (exists ns, bt_get name (namespaces (cache_state c)) = Some ns
              /\ validate_key key (max_key_bytes (policy ns)) = Ok tt)
        /\ exists e, lookup (cache_state c) name key = Some e /\ entry_value e = v /\ now < expires_at_millis e).
Proof.
  intros Hok Hst. pose proof Hok as [[H0 _] Hs].
  assert (state_ok (cache_stamp c + 1) (cache_state c)) as Hs1 by (eapply state_ok_mono; [|exact Hs]; lia).
  unfold get, namespace, lookup. destruct (cache_poisoned c) eqn:Hp; [intros [= <- <-]; split; [done|]; naive_solver|].
  destruct (bt_get name (namespaces (cache_state c))) as [ns|] eqn:Hg; cbn [ok_or].
  2:{ intros [= <- <-]. split; [by apply advanced_ok|]. naive_solver. }
  destruct (validate_key key (max_key_bytes (policy ns))) as [[]|e] eqn:Hk.
  2:{ intros [= <- <-]. split; [by apply advanced_ok|]. intros v. split; [done|]. intros (_ & (x & [= <-] & ?) & _). congruence. }
  destruct (entries ns !! key) as [e|] eqn:He.
  2:{ intros [= <- <-]. split; [apply advanced_ok; auto with krit|]. naive_solver. }
  destruct (so_ns _ _ Hs _ _ Hg) as [Hns _]. destruct (Z.leb_spec (expires_at_millis e) now) as [Hx|Hx].
  - destruct (ns_remove_ok ns key e Hns He) as (ns' & -> & Hsh & _). intros [= <- <-]. split.
    + apply advanced_ok; [done|done|]. apply count_miss_ok, count_expirations_ok. by eapply shrink_state.
    + intros v. split; [done|]. intros (_ & _ & e' & [= <-] & _ & ?). lia.
  - intros [= <- <-]. split.
    + apply advanced_ok; [done|done|]. apply count_hit_ok. rewrite next_stamp_eq by done.
      assert (forall k e', entries ns !! k = Some e' -> entry_stamp e' <> cache_stamp c + 1) as Hfresh
        by (intros k e' Hke; specialize (so_stamps _ _ Hs _ _ _ _ Hg Hke); lia).
      eapply (restamp_state _ (cache_state c) _ name ns); try done; simpl.
      * split; [by apply ns_touch_ok|]. split; [done|]. simpl. intros k e' Hke.
        apply lookup_insert_Some in Hke as [[_ <-]|[_ Hke]]; [by left|right; eauto].
      * unfold entry_count. simpl. rewrite map_size_insert_Some by (by rewrite He). lia.
      * lia.
      * apply Hs.
      * apply Hs.
      * intros k1 e1 k2 e2 K1 K2 S1 S2.
        apply lookup_insert_Some in K1 as [[-> _]|[_ K1]]; [|by apply Hfresh in K1].
        apply lookup_insert_Some in K2 as [[-> _]|[_ K2]]; [done|by apply Hfresh in K2].
    + intros v. split; [intros [= <-]|by intros (_ & _ & e' & [= <-] & <- & _)]. naive_solver.
Qed.

Lemma delete_ok c name key c' r :
  cache_ok c -> delete_key c name key = (c', r) ->
  cache_ok c' /\ cache_stamp c' = cache_stamp c /\ (r = Ok tt -> lookup (cache_state c') name key = None).
Proof.
  intros Hok. pose proof Hok as [H0 Hs]. unfold delete_key, namespace.
  destruct (cache_poisoned c) eqn:Hp; [by intros [= <- <-]|].
  destruct (bt_get name (namespaces (cache_state c))) as [ns|] eqn:Hg; cbn [ok_or]; [|by intros [= <- <-]].
  destruct (mode (policy ns)); [by intros [= <- <-]|].
  destruct (validate_key key (max_key_bytes (policy ns))) as [[]|e]; [|by intros [= <- <-]].
  destruct (so_ns _ _ Hs _ _ Hg) as [Hns _]. destruct (entries ns !! key) as [e|] eqn:He.
  - destruct (ns_remove_ok ns key e Hns He) as (ns' & -> & Hsh & Hd). intros [= <- <-].
    split; [|split; [done|]]; [split; [done|]; simpl; apply count_delete_ok; by eapply shrink_state|]. intros _.
    unfold lookup. cbn [cache_state count_delete release set_namespace set_namespaces namespaces].
    rewrite bt_get_insert_eq by apply Hs. by rewrite Hd, lookup_delete_eq.
  - assert (ns_remove ns key = None) as -> by (unfold ns_remove; by rewrite He). intros [= <- <-].
    split; [|split; [done|]]; [split; [done|]; simpl; by apply count_delete_ok|]. intros _.
    unfold lookup. simpl. by rewrite Hg.
Qed.

(** ** A new cache *)

(** The [usize] fields of a configuration, and its map in key order. *)
Definition config_typed (config : CacheConfig) : Prop :=
  bt_sorted (config_namespaces config)
  /\ 0 <= config_max_total_entries config /\ 0 <= config_max_total_bytes config
  /\ Forall (fun kv => 0 <= max_entries (snd kv) /\ 0 <= max_bytes (snd kv)
                       /\ 0 <= max_key_bytes (snd kv) /\ 0 <= max_value_bytes (snd kv))
       (config_namespaces config).

Lemma policy_validate_ok p :
  0 <= max_entries p -> 0 <= max_bytes p -> 0 <= max_key_bytes p -> 0 <= max_value_bytes p ->
  policy_validate p = Ok tt -> policy_ok p.
Proof.
  intros H1 H2 H3 H4 Hv. unfold policy_validate in Hv. case_match eqn:E; [done|].
  apply result_bind_Ok in Hv as (largest & Hl & Hv). apply ok_or_Ok in Hl.
  destruct (usize_checked (max_key_bytes p + max_value_bytes p)) as [b|] eqn:Eb; [|done].
  apply usize_checked_Some in Eb as [-> _]. apply usize_checked_Some in Hl as [-> _].
  destruct (Z.ltb_spec (max_bytes p) (max_key_bytes p + max_value_bytes p + ENTRY_OVERHEAD_BYTES)); [done|].
  repeat (apply orb_false_iff in E as [E ?]).
  repeat match goal with
  | H : (_ =? _) = false |- _ => apply Z.eqb_neq in H
  | H : (_ <? _) = false |- _ => apply Z.ltb_ge in H
  end.
  unfold policy_ok. lia.
Qed.

Lemma validate_policies_ok config ps :
  validate_policies config ps = Ok tt ->
  Forall (fun kv => policy_validate (snd kv) = Ok tt
    /\ max_entries (snd kv) <= config_max_total_entries config
    /\ max_bytes (snd kv) <= config_max_total_bytes config) ps.
Proof.
  induction ps as [|[n p] ps IH]; simpl; [done|]. rewrite result_bind_Ok. intros ([] & Hp & Hv).
  case_match eqn:E; [done|]. apply orb_false_iff in E as [?%Z.ltb_ge ?%Z.ltb_ge].
  constructor; [done|by apply IH].
Qed.

Lemma new_namespaces_get (ps : btree string NamespacePolicy) name ns :
  bt_get name (map (fun '(name, policy) => (name, namespace_new policy)) ps) = Some ns ->
  exists p, bt_get name ps = Some p /\ ns = namespace_new p.
Proof.
  induction ps as [|[k p] ps IH]; simpl; [done|]. destruct (cmp name k); [intros [= <-]; eauto|done|auto].
Qed.

Lemma new_namespaces_sum (f : Namespace -> Z) (ps : btree string NamespacePolicy) :
  (forall p, f (namespace_new p) = 0) ->
  bt_sum f (map (fun '(name, policy) => (name, namespace_new policy)) ps) = 0.
Proof.
  intros Hf. apply bt_sum_zero. intros kv Hin. apply in_map_iff in Hin as ([n p] & <- & _). apply Hf.
Qed.

Lemma new_namespaces_sorted (ps : btree string NamespacePolicy) :
  bt_sorted ps -> bt_sorted (map (fun '(name, policy) => (name, namespace_new policy)) ps).
Proof.
  induction ps as [|[k p] ps IH]; simpl; [done|]. intros [Hlt Hs]. split; [|auto].
  apply Forall_map. eapply Forall_impl; [exact Hlt|]. by intros [].
Qed.

Lemma namespace_new_ok p : policy_ok p -> ns_ok (namespace_new p).
Proof.
  intros Hp. destruct Hp as (? & ? & ?). split; simpl; try done; [| |rewrite map_size_empty; lia|lia].
  - intros st k. split; [done|]. by intros (e & ? & _).
  - intros a k. split; [done|]. by intros (e & ? & _).
Qed.

Lemma cache_new_ok config c : config_typed config -> cache_new config = Ok c -> cache_ok c /\ cache_stamp c = 0.
Proof.
  intros (Hsorted & He & Hb & Hf) Hn. unfold cache_new in Hn. apply result_bind_Ok in Hn as ([] & Hv & [= <-]).
  split; [|done]. split; [done|].
  assert (forall name p, bt_get name (config_namespaces config) = Some p -> policy_ok p
    /\ max_entries p <= config_max_total_entries config <= MAX_TOTAL_ENTRIES
    /\ max_bytes p <= config_max_total_bytes config <= MAX_TOTAL_BYTES) as HP.
  { intros name p Hg. apply bt_get_In in Hg; [|done]. apply list_elem_of_In in Hg.
    rewrite Forall_forall in Hf. destruct (Hf _ Hg) as (? & ? & ? & ?).
    unfold config_validate in Hv. case_match; [done|].
    destruct (config_namespaces config) as [|kv ps] eqn:Ec; [by apply elem_of_nil in Hg|].
    case_match eqn:Et; [done|]. apply validate_policies_ok in Hv. rewrite Forall_forall in Hv.
    destruct (Hv _ Hg) as (Hpv & ? & ?). repeat (apply orb_false_iff in Et as [Et ?]).
    repeat match goal with H : (_ <? _) = false |- _ => apply Z.ltb_ge in H end.
    split; [by apply policy_validate_ok|]. simpl in *. lia. }
  split; simpl.
  - by apply new_namespaces_sorted.
  - intros name ns (p & Hg & ->)%new_namespaces_get. destruct (HP name p Hg) as (? & ? & ?).
    split; [by apply namespace_new_ok|done].
  - by rewrite new_namespaces_sum.
  - by rewrite new_namespaces_sum.
  - done.
  - done.
  - intros name ns key e (p & _ & ->)%new_namespaces_get. by simpl.
  - intros n1 ns1 k1 e1 n2 ns2 k2 e2 (p & _ & ->)%new_namespaces_get. by simpl.
Qed.

(** ** Sequences of operations *)

Inductive Operation : Type :=
| OpGet (name key : string) (now : Z)
| OpWrite (name key value : string) (ttl now : Z) (writer : Writer)
| OpDelete (name key : string).

Definition run_operation (c : Cache) (op : Operation) : option Cache :=
  match op with
  | OpGet name key now => Some (fst (get c name key now))
  | OpWrite name key value ttl now writer => fst <$> write c name key value ttl now writer
  | OpDelete name key => Some (fst (delete_key c name key))
  end.

Fixpoint run_operations (c : Cache) (ops : list Operation) : option Cache :=
  match ops with
  | [] => Some c
  | op :: ops' =>
      match run_operation c op with Some c' => run_operations c' ops' | None => None end
  end.

(** Every operation advances the counter by at most one. *)
Lemma get_stamp c name key now :
  cache_stamp (fst (get c name key now)) = cache_stamp c \/ cache_stamp (fst (get c name key now)) = next_stamp c.
Proof.
  unfold get. destruct (cache_poisoned c); [by left|right].
  destruct (namespace _ _) as [ns|]; [|done]. destruct (validate_key _ _); [|done].
  destruct (entries ns !! key); [|done]. destruct (_ <=? _); [|done].
  by destruct (ns_remove ns key) as [[]|].
Qed.

Lemma write_stamp c name key value ttl now writer :
  match write c name key value ttl now writer with
  | Some (c', _) => cache_stamp c' = cache_stamp c \/ cache_stamp c' = next_stamp c
  | None => True
  end.
Proof.
  unfold write. destruct (cache_poisoned c); [by left|].
  destruct (namespace _ _) as [ns|]; [|by right]. destruct (write_checks _ _ _ _ _ _); [|by right].
  destruct (write_sweep _ _ _ _) as [s1 ns1]. destruct (make_room _ _ _ _) as [[s2 [u|e]]|]; [|by right|done].
  destruct (namespace _ _); by right.
Qed.

Lemma run_operation_ok c op :
  cache_ok c -> cache_stamp c + 1 < 2 ^ 64 ->
  exists c', run_operation c op = Some c' /\ cache_ok c' /\ cache_stamp c' <= cache_stamp c + 1.
Proof.
  intros Hok Hst. pose proof Hok as [[H0 _] _]. destruct op as [name key now|name key value ttl now writer|name key]; simpl.
  - destruct (get c name key now) as [c' r] eqn:E. exists c'. split; [done|].
    destruct (get_ok _ _ _ _ _ _ Hok Hst E) as [Hok' _]. split; [done|].
    pose proof (get_stamp c name key now) as Hs. rewrite E in Hs. simpl in Hs.
    rewrite next_stamp_eq in Hs by done. lia.
  - destruct (write_ok c name key value ttl now writer Hok Hst) as (c' & r & E & Hok').
    exists c'. rewrite E. split; [done|]. split; [done|]. pose proof (write_stamp c name key value ttl now writer) as Hs.
    rewrite E in Hs. rewrite next_stamp_eq in Hs by done. lia.
  - destruct (delete_key c name key) as [c' r] eqn:E. exists c'. split; [done|].
    destruct (delete_ok _ _ _ _ _ Hok E) as (? & -> & _). split; [done|lia].
Qed.

Lemma run_operations_ok c ops :
  cache_ok c -> cache_stamp c + Z.of_nat (length ops) < 2 ^ 64 ->
  exists c', run_operations c ops = Some c' /\ cache_ok c'.
Proof.
  revert c. induction ops as [|op ops IH]; intros c Hok Hst; simpl; [by exists c|]. simpl in Hst.
  destruct (run_operation_ok c op Hok) as (c1 & -> & Hok1 & Hst1); [lia|]. apply IH; [done|lia].
Qed.

(** What the invariant promises an operator: every budget holds, and the
    totals are the exact sums over the namespaces of what their entries cost. *)
Definition within_budgets (c : Cache) : Prop :=
  let s := cache_state c in
  total_entries s = bt_sum entry_count (namespaces s)
  /\ total_bytes s = bt_sum (fun ns => cost (entries ns)) (namespaces s)
  /\ total_entries s <= max_total_entries s /\ total_bytes s <= max_total_bytes s
  /\ forall name ns, bt_get name (namespaces s) = Some ns ->
       entry_count ns <= max_entries (policy ns) /\ cost (entries ns) <= max_bytes (policy ns)
       /\ (forall stamp key, bt_get stamp (by_access ns) = Some key <->
             exists e, entries ns !! key = Some e /\ entry_stamp e = stamp)
       /\ (forall at_millis key, bt_get (at_millis, key) (by_expiry ns) = Some tt <->
             exists e, entries ns !! key = Some e /\ expires_at_millis e = at_millis).

Lemma bt_sum_ext {K V} `{CmpOk K} (f g : V -> Z) (m : btree K V) :
  bt_sorted m -> (forall k v, bt_get k m = Some v -> f v = g v) -> bt_sum f m = bt_sum g m.
Proof.
  intros Hs Hfg. assert (forall kv, In kv m -> f (snd kv) = g (snd kv)) as HF.
  { intros [k v] Hin. apply (Hfg k). by apply bt_get_In. }
  clear Hs Hfg. induction m as [|kv m IH]; simpl; [done|]. rewrite HF by (by left). rewrite IH; [done|]. auto with datatypes.
Qed.

Lemma cache_ok_budgets c : cache_ok c -> within_budgets c.
Proof.
  intros [_ Hs]. split; [apply Hs|]. split.
  { rewrite (so_bytes _ _ Hs). apply bt_sum_ext; [apply Hs|]. intros k ns Hg. apply bytes_exact, (so_ns _ _ Hs _ _ Hg). }
  split; [apply Hs|]. split; [apply Hs|]. intros name ns Hg. destruct (so_ns _ _ Hs _ _ Hg) as [Hns _].
  split; [apply Hns|]. split; [rewrite <- (bytes_exact _ Hns); apply Hns|]. split; apply Hns.
Qed.

(** C7: from a validated configuration, every sequence of cache operations
    (fewer than 2^64 of them, the range of the access stamp) runs to its end --
    the eviction loop always ends -- and keeps the cache's promises: both
    indexes list exactly the entries, the counted entries and bytes are exact,
    and no namespace nor the whole cache exceeds its budget. *)
Theorem cache_invariant (config : CacheConfig) (c : Cache) (ops : list Operation) :
  config_typed config -> cache_new config = Ok c -> Z.of_nat (length ops) < 2 ^ 64 ->
  exists c', run_operations c ops = Some c' /\ within_budgets c'.
Proof.
  intros Ht Hn Hl. destruct (cache_new_ok config c Ht Hn) as [Hok Hst].
  destruct (run_operations_ok c ops Hok) as (c' & Hr & Hok'); [lia|].
  exists c'. split; [done|]. by apply cache_ok_budgets.
Qed.

(** C27: a write that passes its checks always succeeds, and is then read back
    until exactly its deadline; it may evict or sweep other entries but never
    changes one. *)
Theorem write_then_get (c : Cache) (name key value : string) (ns : Namespace) (ttl now at_millis later : Z)
    (writer : Writer) :
  cache_ok c -> cache_stamp c + 2 < 2 ^ 64 -> cache_poisoned c = false ->
  bt_get name (namespaces (cache_state c)) = Some ns ->
  write_checks ns key value ttl now writer = Ok at_millis ->
  exists c', write c name key value ttl now writer = Some (c', Ok tt)
    /\ snd (get c' name key later) = Ok (if later <? at_millis then Some value else None)
    /\ forall n k e, (n, k) <> (name, key) ->
         lookup (cache_state c') n k = Some e -> lookup (cache_state c) n k = Some e.
Proof.
  intros Hok Hst Hp Hg Hw.
  destruct (write_succeeds c name ns key value ttl now writer at_millis) as (c' & E & Hc); try done; [lia|].
  exists c'. split; [done|]. split; [|apply Hc].
  destruct Hc as [Hok' Hent _ Hpol Hpo]. specialize (Hpol name). rewrite Hg in Hpol.
  destruct (bt_get name (namespaces (cache_state c'))) as [ns'|] eqn:Hg'; [|done].
  injection Hpol as Hpol. unfold get, namespace, lookup in *. rewrite Hpo, Hp, Hg' in *. cbn [ok_or].
  assert (validate_key key (max_key_bytes (policy ns)) = Ok tt) as Hk.
  { unfold write_checks in Hw. destruct (validate_key key _) as [[]|] eqn:Hk; [done|]. by destruct (mode _), writer. }
  rewrite Hpol, Hk, Hent. simpl. destruct (Z.leb_spec at_millis later), (Z.ltb_spec later at_millis); try lia; [|done].
  by destruct (ns_remove ns' key) as [[]|].
Qed.

(** Eviction under whole-cache pressure is exact global recency: the entry
    removed is the least recently used one of all namespaces, and nothing is
    removed only when the cache is empty. *)
Theorem evict_globally_lru (bound : Z) (s : State) :
  state_ok bound s ->
  match evict_globally s with
  | None => forall name key, lookup s name key = None
  | Some (s', released) =>
      exists name key e, lookup s name key = Some e /\ released = charge key (entry_value e)
        /\ (forall n k e', lookup s n k = Some e' -> entry_stamp e <= entry_stamp e'
              /\ (entry_stamp e' = entry_stamp e -> (n, k) = (name, key)))
        /\ forall n k, lookup s' n k = if decide ((n, k) = (name, key)) then None else lookup s n k
  end.
Proof.
  intros Hok. destruct (evict_globally_ok bound s Hok)
    as [[-> Hnil]|(name & ns & key & e & ns' & rest & Hg & Hk & _ & _ & -> & Hsh & Hd & Hmin)].
  - intros name key. unfold lookup. destruct (bt_get name (namespaces s)) as [ns|] eqn:Hg; [|done].
    rewrite (by_access_nil ns); [by rewrite lookup_empty|apply (so_ns _ _ Hok _ _ Hg)|by eapply Hnil].
  - exists name, key, e. split; [unfold lookup; by rewrite Hg|]. split; [done|]. split.
    + intros n k e' Hl. unfold lookup in Hl. destruct (bt_get n (namespaces s)) as [x|] eqn:Hx; [|done].
      split; [by eapply Hmin|]. intros Heq. by destruct (so_unique _ _ Hok _ _ _ _ _ _ _ _ Hx Hl Hg Hk Heq) as [-> ->].
    + intros n k. unfold lookup. rewrite get_set_namespace by apply Hok. destruct (decide (n = name)) as [->|Hn].
      * rewrite Hd, Hg. destruct (decide (k = key)) as [->|Hne].
        -- by rewrite lookup_delete_eq, decide_True.
        -- rewrite lookup_delete_ne by done. rewrite decide_False by congruence. done.
      * rewrite decide_False by congruence. done.
Qed.

(** in a read-only namespace guest code changes nothing: its writes and
    deletes are refused and leave the stored state as it was, so only the host
    can fill it. *)
Theorem read_only_refuses (c : Cache) (name key value : string) (ns : Namespace) (ttl now : Z) :
  cache_poisoned c = false -> bt_get name (namespaces (cache_state c)) = Some ns -> mode (policy ns) = ReadOnly ->
  (exists e, put c name key value ttl now = Some (advanced c (cache_state c), Err e)
     /\ cache_error_code e = "K5401")
  /\ (exists e, delete_key c name key = (c, Err e) /\ cache_error_code e = "K5401").
Proof.
  intros Hp Hg Hm. unfold put, write, delete_key, namespace. rewrite Hp, Hg. cbn [ok_or].
  unfold write_checks. rewrite Hm. by split; eexists.
Qed.

(** ** Witnesses *)

Definition sample_policy (m : NamespaceMode) : NamespacePolicy := mkNamespacePolicy m 2 400 16 64 60.
Definition sample_config : CacheConfig :=
  mkCacheConfig [("a", sample_policy ReadWrite); ("b", sample_policy ReadOnly)] 3 500.
Definition sample_cache : Cache :=
  match cache_new sample_config with Ok c => c | Err _ => cache_empty end.

Lemma sample_typed : config_typed sample_config.
Proof. split; [by repeat constructor|]. split; [done|]. split; [done|]. by repeat constructor. Qed.

Lemma sample_cache_ok : cache_ok sample_cache.
Proof. by apply (cache_new_ok sample_config sample_cache sample_typed). Qed.

Lemma cache_invariant_witness :
  exists c', run_operations sample_cache
      [OpWrite "a" "x" "1" 1 0 Guest; OpWrite "a" "y" "2" 1 0 Guest; OpGet "a" "x" 5;
       OpWrite "a" "z" "3" 1 10 Guest; OpDelete "a" "x"; OpWrite "b" "k" "v" 5 20 Host] = Some c'
    /\ within_budgets c'.
Proof.
  apply (cache_invariant sample_config sample_cache); [apply sample_typed|reflexivity|vm_compute; reflexivity].
Defined.

Lemma write_then_get_witness :
  exists c', write sample_cache "a" "x" "1" 1 0 Guest = Some (c', Ok tt)
    /\ snd (get c' "a" "x" 999) = Ok (if 999 <? 1000 then Some "1" else None)
    /\ forall n k e, (n, k) <> ("a", "x") ->
         lookup (cache_state c') n k = Some e -> lookup (cache_state sample_cache) n k = Some e.
Proof.
  apply (write_then_get sample_cache "a" "x" "1" (namespace_new (sample_policy ReadWrite)) 1 0 1000 999 Guest);
    [apply sample_cache_ok|vm_compute; reflexivity|reflexivity|reflexivity|vm_compute; reflexivity].
Defined.

Lemma evict_globally_lru_witness :
  match evict_globally (cache_state sample_cache) with
  | None => forall name key, lookup (cache_state sample_cache) name key = None
  | Some (s', released) =>
      exists name key e, lookup (cache_state sample_cache) name key = Some e
        /\ released = charge key (entry_value e)
        /\ (forall n k e', lookup (cache_state sample_cache) n k = Some e' -> entry_stamp e <= entry_stamp e'
              /\ (entry_stamp e' = entry_stamp e -> (n, k) = (name, key)))
        /\ forall n k, lookup s' n k
             = if decide ((n, k) = (name, key)) then None else lookup (cache_state sample_cache) n k
  end.
Proof. apply (evict_globally_lru 0 (cache_state sample_cache)). apply sample_cache_ok. Defined.

Lemma read_only_refuses_witness :
  (exists e, put sample_cache "b" "k" "v" 5 0 = Some (advanced sample_cache (cache_state sample_cache), Err e)
     /\ cache_error_code e = "K5401")
  /\ (exists e, delete_key sample_cache "b" "k" = (sample_cache, Err e) /\ cache_error_code e = "K5401").
Proof.
  apply (read_only_refuses sample_cache "b" "k" "v" (namespace_new (sample_policy ReadOnly)) 5 0); reflexivity.
Defined.
