(* ===== verification/Sql.v ===== *)
(** * The SQL the durable store is written in

    [krit-state] keeps its state in SQLite tables and changes it with SQL
    statements inside rusqlite transactions.  This file gives that embedded
    language its meaning: a table is the list of its rows in insertion order,
    a [WHERE] clause is a boolean function of a row ([NULL] is [None], and a
    comparison with it does not hold), and a transaction works on a private
    view that becomes durable at [COMMIT] and is dropped on every other exit.

    Whether a statement fails for a reason outside the program (a full disk, a
    locked or damaged file) is not something the program decides: it is the
    parameter [fault], an arbitrary function of the position of the statement
    in the history of the connection. *)

From S2P Require Import Prelude.

(** ** Tables *)

Section Tables.
Context {row : Type}.
Implicit Types (p : row -> bool) (t : list row).

Definition where_ p t : list row := List.filter p t.
Definition count_where p t : Z := Z.of_nat (length (where_ p t)).
Definition sum_of (size : row -> Z) t : Z := foldr (fun r total => size r + total) 0 t.
Definition delete_where p t : list row := List.filter (fun r => negb (p r)) t.
Definition update_where p (f : row -> row) t : list row := map (fun r => if p r then f r else r) t.

(** [ORDER BY key ASC] and [ORDER BY key DESC]. *)
Definition asc (key : row -> Z) : relation row := fun a b => key a <= key b.
Definition desc (key : row -> Z) : relation row := fun a b => key b <= key a.

#[global] Instance asc_dec key : RelDecision (asc key).
Proof. intros a b. unfold asc. apply _. Defined.
#[global] Instance desc_dec key : RelDecision (desc key).
Proof. intros a b. unfold desc. apply _. Defined.
#[global] Instance asc_total key : Total (asc key).
Proof. intros a b. unfold asc. lia. Qed.
#[global] Instance desc_total key : Total (desc key).
Proof. intros a b. unfold desc. lia. Qed.
#[global] Instance asc_trans key : Transitive (asc key).
Proof. intros a b c. unfold asc. lia. Qed.
#[global] Instance desc_trans key : Transitive (desc key).
Proof. intros a b c. unfold desc. lia. Qed.

Definition order_asc (key : row -> Z) t : list row := merge_sort (asc key) t.
Definition order_desc (key : row -> Z) t : list row := merge_sort (desc key) t.

(** ** Facts about rows selected, removed and changed *)

Lemma where_In p t r : In r (where_ p t) <-> In r t /\ p r = true.
Proof. apply filter_In. Qed.

Lemma delete_where_In p t r : In r (delete_where p t) <-> In r t /\ p r = false.
Proof. unfold delete_where. rewrite filter_In, negb_true_iff. done. Qed.

Lemma count_where_nonneg p t : 0 <= count_where p t.
Proof. unfold count_where. lia. Qed.

Lemma count_where_app p t t' : count_where p (t ++ t') = count_where p t + count_where p t'.
Proof. unfold count_where, where_. rewrite List.filter_app, length_app. lia. Qed.

Lemma sum_of_app size t t' : sum_of size (t ++ t') = sum_of size t + sum_of size t'.
Proof. induction t as [|r t IH]; simpl; [done|]. rewrite IH. lia. Qed.

Lemma sum_of_nonneg size t : (forall r, In r t -> 0 <= size r) -> 0 <= sum_of size t.
Proof.
  induction t as [|r t IH]; simpl; [done|]. intros H.
  specialize (IH (fun r' Hr => H r' (or_intror Hr))). specialize (H r (or_introl eq_refl)). lia.
Qed.

Lemma where_app p t t' : where_ p (t ++ t') = where_ p t ++ where_ p t'.
Proof. apply List.filter_app. Qed.

Lemma where_ext p q t : (forall r, In r t -> p r = q r) -> where_ p t = where_ q t.
Proof. intros H. apply List.filter_ext_in. done. Qed.

Lemma where_none p t : (forall r, In r t -> p r = false) -> where_ p t = [].
Proof.
  induction t as [|r t IH]; simpl; [done|]. intros H. rewrite (H r (or_introl eq_refl)).
  auto.
Qed.

Lemma where_all p t : (forall r, In r t -> p r = true) -> where_ p t = t.
Proof.
  induction t as [|r t IH]; simpl; [done|]. intros H. rewrite (H r (or_introl eq_refl)).
  f_equal. auto.
Qed.

Lemma delete_where_sublist p t : delete_where p t `sublist_of` t.
Proof.
  induction t as [|r t IH]; simpl; [done|]. unfold delete_where in *. simpl.
  destruct (negb (p r)); [by apply sublist_skip | by apply sublist_cons].
Qed.

Lemma Forall_delete_where (P : row -> Prop) p t : Forall P t -> Forall P (delete_where p t).
Proof.
  rewrite !List.Forall_forall. intros HP r [Hr _]%delete_where_In. auto.
Qed.

Lemma delete_where_count_le p q t : count_where q (delete_where p t) <= count_where q t.
Proof.
  unfold count_where, where_, delete_where. induction t as [|r t IH]; simpl; [done|].
  destruct (negb (p r)); simpl; destruct (q r); simpl; lia.
Qed.

Lemma delete_where_sum_le p q size t :
  (forall r, In r t -> 0 <= size r) ->
  sum_of size (where_ q (delete_where p t)) <= sum_of size (where_ q t).
Proof.
  unfold where_, delete_where. induction t as [|r t IH]; simpl; [done|]. intros H.
  specialize (IH (fun r' Hr => H r' (or_intror Hr))). specialize (H r (or_introl eq_refl)).
  destruct (negb (p r)); simpl; destruct (q r); simpl; lia.
Qed.

(** An update that keeps what a clause looks at keeps what it selects. *)
Lemma update_where_where p f q t :
  (forall r, p r = true -> q (f r) = q r) ->
  where_ q (update_where p f t) = update_where p f (where_ q t).
Proof.
  intros H. unfold where_, update_where. induction t as [|r t IH]; simpl; [done|].
  destruct (p r) eqn:E; [rewrite H by done|]; destruct (q r); simpl; rewrite ?E, IH; done.
Qed.

Lemma update_where_map {B} (g : row -> B) p f t :
  (forall r, p r = true -> g (f r) = g r) -> map g (update_where p f t) = map g t.
Proof.
  intros H. unfold update_where. rewrite map_map. apply map_ext.
  intros r. destruct (p r) eqn:E; auto.
Qed.

Lemma update_where_length p f t : length (update_where p f t) = length t.
Proof. apply length_map. Qed.

Lemma update_where_sum size p f t :
  (forall r, p r = true -> size (f r) = size r) -> sum_of size (update_where p f t) = sum_of size t.
Proof.
  intros H. unfold update_where. induction t as [|r t IH]; simpl; [done|].
  destruct (p r) eqn:E; [rewrite H by done|]; rewrite IH; done.
Qed.

Lemma update_where_In p f t r' :
  In r' (update_where p f t) <-> exists r, In r t /\ r' = (if p r then f r else r).
Proof. unfold update_where. rewrite in_map_iff. naive_solver. Qed.

Lemma update_where_none p f t : (forall r, In r t -> p r = false) -> update_where p f t = t.
Proof.
  induction t as [|r t IH]; simpl; [done|]. intros H. rewrite (H r (or_introl eq_refl)).
  f_equal. auto.
Qed.

(** The first row of an ordered selection is a least one. *)
Lemma order_asc_head key t r rest :
  order_asc key t = r :: rest -> In r t /\ forall r', In r' t -> key r <= key r'.
Proof.
  unfold order_asc. intros E.
  pose proof (merge_sort_Permutation (asc key) t) as P.
  pose proof (StronglySorted_merge_sort (asc key) t) as S. rewrite E in P, S.
  inversion S as [|? ? _ Hle]; subst. split.
  - apply list_elem_of_In. rewrite <- P. apply list_elem_of_here.
  - intros r' Hr'%list_elem_of_In. rewrite <- P in Hr'.
    apply elem_of_cons in Hr' as [->|Hr']; [done|].
    rewrite Forall_forall in Hle. by apply Hle.
Qed.

Lemma order_asc_nil key t : order_asc key t = [] <-> t = [].
Proof.
  unfold order_asc. split; [|intros ->; done]. intros E.
  pose proof (merge_sort_Permutation (asc key) t) as P. rewrite E in P.
  by apply Permutation_nil.
Qed.

(** A row found by a query is a row of its table. *)
Lemma head_where p t r : head (where_ p t) = Some r -> In r t /\ p r = true.
Proof.
  intros E. apply where_In. destruct (where_ p t); [done|]. injection E as ->. by left.
Qed.

Lemma head_where_None p t : head (where_ p t) = None <-> forall r, In r t -> p r = false.
Proof.
  split; [|intros Hnone; by rewrite where_none].
  intros E r Hr. destruct (p r) eqn:Hp; [|done].
  assert (In r (where_ p t)) as Hin by (by apply where_In). by destruct (where_ p t).
Qed.

Lemma head_order_asc key p t r :
  head (order_asc key (where_ p t)) = Some r ->
  In r t /\ p r = true /\ forall r', In r' t -> p r' = true -> key r <= key r'.
Proof.
  intros E. destruct (order_asc key (where_ p t)) as [|r0 rest] eqn:O; [done|].
  injection E as ->. apply order_asc_head in O as [Hin Hle].
  apply where_In in Hin as [Hin Hp]. repeat split; [done..|].
  intros r' Hin' Hp'. apply Hle, where_In. done.
Qed.

Lemma head_order_asc_None key p t :
  head (order_asc key (where_ p t)) = None -> forall r, In r t -> p r = false.
Proof.
  intros E. apply head_where_None.
  destruct (order_asc key (where_ p t)) eqn:O; [|done]. apply order_asc_nil in O. by rewrite O.
Qed.

(** ** Selections do not depend on the order of the rows *)

#[global] Instance where_perm p : Proper ((≡ₚ) ==> (≡ₚ)) (where_ p).
Proof.
  unfold where_. induction 1; simpl; try done.
  - destruct (p x); [by f_equiv | done].
  - destruct (p x), (p y); try done. apply Permutation_swap.
  - by etrans.
Qed.

#[global] Instance sum_of_perm size : Proper ((≡ₚ) ==> eq) (sum_of size).
Proof. induction 1; simpl; try congruence; lia. Qed.

#[global] Instance update_where_proper p f : Proper ((≡ₚ) ==> (≡ₚ)) (update_where p f).
Proof. unfold update_where. intros t t' ->. done. Qed.

(** ** Unique columns *)

Lemma map_delete_sublist {B} (g : row -> B) p t :
  map g (delete_where p t) `sublist_of` map g t.
Proof.
  unfold delete_where. induction t as [|r t IH]; simpl; [done|].
  destruct (negb (p r)); simpl; [by apply sublist_skip | by apply sublist_cons].
Qed.

Lemma NoDup_map_delete {B} (g : row -> B) p t : NoDup (map g t) -> NoDup (map g (delete_where p t)).
Proof. intros Hnd. eapply sublist_NoDup; [done | apply map_delete_sublist]. Qed.

Section Unique.
Context {B} `{EqDecision B} (g : row -> B).

Lemma unique_column t r r' : NoDup (map g t) -> In r t -> In r' t -> g r = g r' -> r = r'.
Proof.
  induction t as [|x t IH]; simpl; [done|]. intros [Hx Hnd]%NoDup_cons.
  assert (forall y, In y t -> g y <> g x) as Hne.
  { intros y Hy E. apply Hx. apply list_elem_of_In. rewrite <- E. by apply in_map. }
  intros [->|Hr] [->|Hr'] E; try done; [by destruct (Hne r') | by destruct (Hne r) | by apply IH].
Qed.

(** A clause that looks up one value of a unique column. *)
Context (p : row -> bool) (r : row) (p_key : forall x, p x = true <-> g x = g r).

Lemma not_key t x : NoDup (map g (r :: t)) -> In x t -> p x = false.
Proof.
  intros [Hr _]%NoDup_cons Hx. apply not_true_iff_false. rewrite p_key. intros E.
  apply Hr, list_elem_of_In. rewrite <- E. by apply in_map.
Qed.

Lemma where_unique t : NoDup (map g t) -> In r t -> where_ p t = [r].
Proof.
  induction t as [|x t IH]; simpl; [done|]. intros Hnd [->|Hr].
  - rewrite (proj2 (p_key r)) by done. f_equal. apply where_none.
    intros y Hy. by eapply not_key.
  - apply NoDup_cons in Hnd as [Hx Hnd]. destruct (p x) eqn:E; [|by apply IH].
    apply p_key in E. destruct Hx. apply list_elem_of_In. rewrite E. by apply in_map.
Qed.

Lemma delete_where_perm t : NoDup (map g t) -> In r t -> t ≡ₚ r :: delete_where p t.
Proof.
  unfold delete_where. induction t as [|x t IH]; simpl; [done|]. intros Hnd [->|Hr].
  - rewrite (proj2 (p_key r)) by done. simpl. f_equiv.
    rewrite (List.filter_ext_in _ (fun _ => true)); [by rewrite filter_true|].
    intros y Hy. by rewrite (not_key t).
  - apply NoDup_cons in Hnd as [Hx Hnd]. destruct (p x) eqn:E; simpl.
    + apply p_key in E. destruct Hx. apply list_elem_of_In. rewrite E. by apply in_map.
    + rewrite IH at 1 by done. apply Permutation_swap.
Qed.

Lemma update_where_perm f t :
  NoDup (map g t) -> In r t -> update_where p f t ≡ₚ f r :: delete_where p t.
Proof.
  intros Hnd Hr. rewrite (delete_where_perm t) at 1 by done. simpl.
  rewrite (proj2 (p_key r)) by done. f_equiv.
  rewrite update_where_none; [done|]. by intros x [_ Hx]%delete_where_In.
Qed.
End Unique.

(** ** Surplus rows

    [DELETE .. WHERE id IN (SELECT id .. ORDER BY .. LIMIT -1 OFFSET n)] keeps
    the first [n] rows of the order. *)

Section Surplus.
Context {B} `{EqDecision B} (g : row -> B).

Definition not_surplus (n : nat) (ordered : list row) (r : row) : bool :=
  negb (bool_decide (g r ∈ map g (drop n ordered))).

Lemma surplus_In n ordered r : In r (drop n ordered) -> not_surplus n ordered r = false.
Proof.
  intros Hr. unfold not_surplus. rewrite bool_decide_true; [done|].
  apply list_elem_of_In. by apply in_map.
Qed.

Lemma keep_first_length n ordered :
  (length (where_ (not_surplus n ordered) ordered) <= n)%nat.
Proof.
  rewrite <- (take_drop n ordered) at 2. rewrite where_app, length_app.
  rewrite (where_none _ (drop n ordered)) by (intros; by apply surplus_In).
  pose proof (List.filter_length_le (not_surplus n ordered) (take n ordered)).
  rewrite length_take in H. simpl. unfold where_. lia.
Qed.

Lemma keep_first_exact n ordered :
  NoDup (map g ordered) -> where_ (not_surplus n ordered) ordered = take n ordered.
Proof.
  intros Hnd. rewrite <- (take_drop n ordered) at 2. rewrite where_app.
  rewrite (where_none _ (drop n ordered)) by (intros; by apply surplus_In).
  rewrite app_nil_r. apply where_all. intros r Hr. unfold not_surplus.
  rewrite bool_decide_false; [done|]. intros Hin.
  rewrite <- (take_drop n ordered), map_app in Hnd. apply NoDup_app in Hnd as (_ & Hdis & _).
  eapply Hdis; [|done]. apply list_elem_of_In. by apply in_map.
Qed.
End Surplus.

(** ** The order of a unique column is the only one *)

Lemma order_asc_perm key t : order_asc key t ≡ₚ t.
Proof. apply merge_sort_Permutation. Qed.
Lemma order_desc_perm key t : order_desc key t ≡ₚ t.
Proof. apply merge_sort_Permutation. Qed.

Lemma order_asc_unique key t t' :
  NoDup (map key t) -> t ≡ₚ t' -> StronglySorted (asc key) t' -> order_asc key t = t'.
Proof.
  intros Hnd Hp Hs. apply (StronglySorted_unique_strong (asc key)).
  - intros x y Hx Hy. unfold asc. intros ? ?. eapply (unique_column key t); [done| | |lia].
    + apply list_elem_of_In. by rewrite <- (order_asc_perm key t).
    + apply list_elem_of_In. by rewrite Hp.
  - apply StronglySorted_merge_sort; apply _.
  - done.
  - by rewrite order_asc_perm.
Qed.
End Tables.

(** ** Statements, transactions and failures *)

Inductive ErrorCode : Type :=
| DiskFull | TooBig | DatabaseBusy | DatabaseLocked | DatabaseCorrupt | NotADatabase.

(** rusqlite's error: its SQLite code when it is one of those above. *)
Abbreviation sqlite_error := (option ErrorCode).

(** Which statements fail, by their position in the connection's history. *)
Class Faults : Type := fault : nat -> option sqlite_error.

Definition no_faults : Faults := fun _ => None.

(** A connection: how many statements it has run, the durable contents, and
    the contents its open transaction sees. *)
Record Session (T : Type) : Type := mkSession {
  statements : nat;
  durable : T;
  working : T;
}.
Arguments mkSession {T} statements durable working.
Arguments statements {T} s.
Arguments durable {T} s.
Arguments working {T} s.

Section Session.
Context `{Faults} {T E : Type} (map_error : sqlite_error -> E).

(** A computation of the program on its connection. *)
Definition Sql (A : Type) : Type := Session T -> Session T * result A E.

Definition sql_ret {A} (a : A) : Sql A := fun s => (s, Ok a).
Definition sql_err {A} (e : E) : Sql A := fun s => (s, Err e).
Definition sql_lift {A} (r : result A E) : Sql A := fun s => (s, r).
Definition sql_bind {A B} (m : Sql A) (k : A -> Sql B) : Sql B :=
  fun s => match m s with (s', Ok a) => k a s' | (s', Err e) => (s', Err e) end.

Definition tick (s : Session T) : Session T :=
  mkSession (S (statements s)) (durable s) (working s).

(** One statement inside a transaction.  [None] is a failure of the statement
    itself (a constraint, an integer overflow), which has no listed code. *)
Definition statement {A} (run : T -> option (T * A)) : Sql A :=
  fun s =>
    match fault (statements s) with
    | Some code => (tick s, Err (map_error code))
    | None =>
        match run (working s) with
        | Some (t, a) => (mkSession (S (statements s)) (durable s) t, Ok a)
        | None => (tick s, Err (map_error None))
        end
    end.

Definition select {A} (run : T -> A) : Sql A := statement (fun t => Some (t, run t)).

(** [transaction.commit()]. *)
Definition commit_work : Sql unit :=
  fun s =>
    match fault (statements s) with
    | Some code => (tick s, Err (map_error code))
    | None => (mkSession (S (statements s)) (working s) (working s), Ok tt)
    end.

(** A transaction: its start, its body, and, when it goes out of scope, the
    return to what is durable. *)
Definition transaction {A} (map_begin : sqlite_error -> E) (body : Sql A) : Sql A :=
  fun s =>
    match fault (statements s) with
    | Some code => (tick s, Err (map_begin code))
    | None =>
        let '(s', r) := body (mkSession (S (statements s)) (durable s) (durable s)) in
        (mkSession (statements s') (durable s') (durable s'), r)
    end.

(** One statement outside a transaction, durable at once. *)
Definition autocommit {A} (run : T -> option (T * A)) : Sql A :=
  fun s =>
    match fault (statements s) with
    | Some code => (tick s, Err (map_error code))
    | None =>
        match run (durable s) with
        | Some (t, a) => (mkSession (S (statements s)) t t, Ok a)
        | None => (tick s, Err (map_error None))
        end
    end.
End Session.
Arguments Sql T E A : clear implicits.

Notation "'let*' x := c 'in' k" := (sql_bind c (fun x => k))
  (at level 10, x pattern, c at level 100, k at level 200,
   format "'[v' 'let*'  x  :=  c  'in' '/' k ']'") : krit_scope.

(** ** Reasoning about sessions

    [wp m Q s]: run from [s], [m] ends in a result and a session that satisfy
    [Q].  The rules cover every failure of a statement by one premise: what is
    durable stays as it was, whatever the private view. *)

(** Some statement of the connection's history fails. *)
Definition faulted `{Faults} : Prop := exists n code, fault n = Some code.

Lemma no_faults_not_faulted : ~ @faulted no_faults.
Proof. by intros (n & code & ?). Qed.

Section Reasoning.
Context `{Faults} {T E : Type} (map_error : sqlite_error -> E).
Implicit Types s : Session T.

Definition wp {A} (m : Sql T E A) (Q : result A E -> Session T -> Prop) s : Prop :=
  Q (m s).2 (m s).1.

Lemma wp_mono {A} (m : Sql T E A) (P Q : result A E -> Session T -> Prop) s :
  wp m P s -> (forall r s', P r s' -> Q r s') -> wp m Q s.
Proof. unfold wp. auto. Qed.

Lemma wp_ret {A} (a : A) (Q : result A E -> Session T -> Prop) s : Q (Ok a) s -> wp (sql_ret a) Q s.
Proof. done. Qed.

Lemma wp_err {A} (e : E) (Q : result A E -> Session T -> Prop) s : Q (Err e) s -> wp (sql_err e) Q s.
Proof. done. Qed.

Lemma wp_lift {A} (r : result A E) (Q : result A E -> Session T -> Prop) s :
  Q r s -> wp (sql_lift r) Q s.
Proof. done. Qed.

Lemma wp_bind {A B} (m : Sql T E A) (k : A -> Sql T E B) Q s :
  wp m (fun r s' => match r with Ok a => wp (k a) Q s' | Err e => Q (Err e) s' end) s ->
  wp (sql_bind m k) Q s.
Proof. unfold wp, sql_bind. destruct (m s) as [s' [a|e]]; done. Qed.

Lemma wp_statement {A} (run : T -> option (T * A)) Q s :
  (forall e n w, faulted \/ run (working s) = None -> Q (Err e) (mkSession n (durable s) w)) ->
  (forall n t a, run (working s) = Some (t, a) -> Q (Ok a) (mkSession n (durable s) t)) ->
  wp (statement map_error run) Q s.
Proof.
  intros Herr Hok. unfold wp, statement, tick.
  destruct (fault (statements s)) eqn:F; [apply Herr; left; by do 2 eexists|].
  destruct (run (working s)) as [[t a]|] eqn:R; [by apply Hok | apply Herr; by right].
Qed.

Lemma wp_select {A} (run : T -> A) Q s :
  (forall e n w, faulted -> Q (Err e) (mkSession n (durable s) w)) ->
  (forall n, Q (Ok (run (working s))) (mkSession n (durable s) (working s))) ->
  wp (select map_error run) Q s.
Proof.
  intros Herr Hok. apply wp_statement; [by intros e n w [?|?]; [apply Herr|]|].
  intros n t a [= <- <-]. apply Hok.
Qed.

Lemma wp_commit Q s :
  (forall e n w, faulted -> Q (Err e) (mkSession n (durable s) w)) ->
  (forall n, Q (Ok tt) (mkSession n (working s) (working s))) ->
  wp (commit_work map_error) Q s.
Proof.
  intros Herr Hok. unfold wp, commit_work, tick.
  destruct (fault (statements s)) eqn:F; [apply Herr; by do 2 eexists|apply Hok].
Qed.

(** Leaving a transaction forgets the private view. *)
Definition at_rest {A} (Q : result A E -> T -> Prop) : result A E -> Session T -> Prop :=
  fun r s => Q r (durable s).

Lemma wp_transaction {A} (map_begin : sqlite_error -> E) (body : Sql T E A) Q s :
  (forall e, faulted -> Q (Err e) (durable s)) ->
  (forall n, wp body (at_rest Q) (mkSession n (durable s) (durable s))) ->
  wp (transaction map_begin body) (at_rest Q) s.
Proof.
  intros Herr Hok. unfold wp, transaction, at_rest, tick.
  destruct (fault (statements s)) eqn:F; [apply Herr; by do 2 eexists|].
  specialize (Hok (S (statements s))). unfold wp, at_rest in Hok.
  destruct (body _) as [s' r]. done.
Qed.

Lemma wp_autocommit {A} (run : T -> option (T * A)) Q s :
  (forall e, faulted \/ run (durable s) = None -> Q (Err e) (durable s)) ->
  (forall t a, run (durable s) = Some (t, a) -> Q (Ok a) t) ->
  wp (autocommit map_error run) (at_rest Q) s.
Proof.
  intros Herr Hok. unfold wp, autocommit, at_rest, tick.
  destruct (fault (statements s)) eqn:F; [apply Herr; left; by do 2 eexists|].
  destruct (run (durable s)) as [[t a]|] eqn:R; [by apply Hok | apply Herr; by right].
Qed.

(** ** Invariants

    [keeps I m]: inside a transaction, [m] keeps [I] of what is durable, and of
    the private view when it succeeds.  [stable I m]: the same of a whole
    operation. *)

Definition keeps (I : T -> Prop) {A} (m : Sql T E A) : Prop :=
  forall s, I (durable s) -> I (working s) ->
    wp m (fun r s' => I (durable s') /\ (is_ok r = true -> I (working s'))) s.

Definition stable (I : T -> Prop) {A} (m : Sql T E A) : Prop :=
  forall s, I (durable s) -> I (durable (m s).1).

Section Keeps.
Context (I : T -> Prop).

Lemma keeps_ret {A} (a : A) : keeps I (sql_ret a).
Proof. done. Qed.
Lemma keeps_err {A} (e : E) : keeps I (@sql_err T E A e).
Proof. done. Qed.
Lemma keeps_lift {A} (r : result A E) : keeps I (sql_lift r).
Proof. done. Qed.

Lemma keeps_bind {A B} (m : Sql T E A) (k : A -> Sql T E B) :
  keeps I m -> (forall a, keeps I (k a)) -> keeps I (sql_bind m k).
Proof.
  intros Hm Hk s Hd Hw. apply wp_bind. eapply wp_mono; [by apply Hm|].
  intros [a|e] s' [Hd' Hw']; [|done]. apply Hk; auto.
Qed.

Lemma keeps_statement {A} (run : T -> option (T * A)) :
  (forall t t' a, I t -> run t = Some (t', a) -> I t') -> keeps I (statement map_error run).
Proof.
  intros Hrun s Hd Hw. apply wp_statement; [done|]. simpl. intros n t a R. split; [done|].
  intros _. by eapply Hrun.
Qed.

Lemma keeps_select {A} (run : T -> A) : keeps I (select map_error run).
Proof. apply keeps_statement. by intros t t' a ? [= <- _]. Qed.

Lemma keeps_commit : keeps I (commit_work map_error).
Proof. intros s Hd Hw. by apply wp_commit. Qed.

Lemma stable_transaction {A} (map_begin : sqlite_error -> E) (body : Sql T E A) :
  keeps I body -> stable I (transaction map_begin body).
Proof.
  intros Hb s Hd. apply (wp_transaction map_begin body (fun _ t => I t)); [done|].
  intros n. eapply wp_mono; [by apply Hb|]. by intros r s' [? _].
Qed.

Lemma stable_autocommit {A} (run : T -> option (T * A)) :
  (forall t t' a, I t -> run t = Some (t', a) -> I t') -> stable I (autocommit map_error run).
Proof.
  intros Hrun s Hd. apply (wp_autocommit run (fun _ t => I t)); [done|]. eauto.
Qed.

Lemma stable_read {A} (run : T -> A) : stable I (autocommit map_error (fun t => Some (t, run t))).
Proof. apply stable_autocommit. by intros t t' a ? [= <- _]. Qed.

Lemma stable_ret {A} (a : A) : stable I (sql_ret a).
Proof. by intros s. Qed.
Lemma stable_err {A} (e : E) : stable I (@sql_err T E A e).
Proof. by intros s. Qed.
Lemma stable_lift {A} (r : result A E) : stable I (sql_lift r).
Proof. by intros s. Qed.

Lemma stable_bind {A B} (m : Sql T E A) (k : A -> Sql T E B) :
  stable I m -> (forall a, stable I (k a)) -> stable I (sql_bind m k).
Proof.
  intros Hm Hk s Hd. specialize (Hm s Hd). unfold sql_bind.
  destruct (m s) as [s' [a|e]]; [|done]. by apply Hk.
Qed.
End Keeps.
End Reasoning.

Create HintDb krit_sql.
#[export] Hint Resolve keeps_ret keeps_err keeps_lift keeps_bind keeps_select keeps_commit
  stable_ret stable_err stable_lift stable_bind stable_read : krit_sql.
