(* ===== verification/Store.v ===== *)
(** * The durable store: limits, tables, reads and the commit

    Models [krit-state/src/lib.rs] and the data, the policies and the commit of
    [krit-state/src/jobs.rs]: the typed errors, the validation of limits,
    policies, keys and mutations, the tables of the schema, the reads, and
    [commit_plan], which applies staged mutations and an optional delivery
    acknowledgement in one transaction guarded by the store's revision.

    Byte vectors, texts and 16-byte identifiers are [string]s of bytes; a
    [Duration] is its whole number of nanoseconds; a clock reading is an [i64]
    of milliseconds.  The mutex serialises the operations of a process and
    SQLite's immediate transactions those of several, so each operation is a
    computation on one session. *)

From S2P Require Import Prelude BTree Sql.

(** ** Errors *)

Inductive StateErrorKind : Type := KDatabase | KConflict | KLimit | KReplay.

#[export] Instance StateErrorKind_eq_dec : EqDecision StateErrorKind.
Proof. solve_decision. Defined.

Record StateError : Type := mkStateError {
  error_kind : StateErrorKind;
  error_message : string;
}.

#[export] Instance StateError_eq_dec : EqDecision StateError.
Proof. solve_decision. Defined.

Definition database (message : string) : StateError := mkStateError KDatabase message.
Definition conflict (message : string) : StateError := mkStateError KConflict message.
Definition limit (message : string) : StateError := mkStateError KLimit message.
Definition replay_error (message : string) : StateError := mkStateError KReplay message.

Definition error_code (e : StateError) : string :=
  match error_kind e with
  | KDatabase => "K5201"
  | KConflict | KLimit => "K5202"
  | KReplay => "K5203"
  end.

Definition map_database (e : sqlite_error) : StateError :=
  match e with
  | Some (DiskFull | TooBig) => limit "durable database limit was exceeded"
  | Some (DatabaseBusy | DatabaseLocked) => conflict "durable database is busy"
  | Some (DatabaseCorrupt | NotADatabase) => database "durable database is corrupt"
  | None => database "durable database operation failed"
  end.

Definition map_transaction (e : sqlite_error) : StateError :=
  match e with
  | Some (DatabaseBusy | DatabaseLocked) => conflict "durable database is busy"
  | _ => map_database e
  end.

(** ** Durations *)

Abbreviation Duration := Z (only parsing).

Definition NANOS_PER_MILLI : Z := 1000000.
Definition from_millis (millis : Z) : Duration := millis * NANOS_PER_MILLI.
Definition from_secs (secs : Z) : Duration := secs * 1000000000.
Definition as_millis (d : Duration) : Z := d `div` NANOS_PER_MILLI.
Definition subsec_nanos (d : Duration) : Z := d `mod` 1000000000.
Definition DURATION_MAX : Duration := u64_max * 1000000000 + 999999999.
Definition duration_saturating_mul (d : Duration) (n : Z) : Duration := Z.min (d * n) DURATION_MAX.

(** [(low..=high).contains(&x)]. *)
Definition contains_range (low high x : Z) : bool := (low <=? x) && (x <=? high).

(** ** Protocol bounds *)

Definition MAX_RESOURCE_NAME_BYTES : Z := 64.
Definition MINIMUM_DATABASE_BYTES : Z := 1024 * 1024.
Definition MAX_STATE_OPERATIONS : Z := 1024.
Definition MAX_STATE_KEY_BYTES : Z := 4 * 1024.
Definition MAX_STATE_VALUE_BYTES : Z := 1024 * 1024.
Definition MAX_STATE_TRANSACTION_BYTES : Z := 16 * 1024 * 1024.
Definition MAX_STATE_DATABASE_BYTES : Z := 1024 * 1024 * 1024.
Definition MAX_STATE_BUSY_TIMEOUT : Duration := from_secs 5.
Definition MAX_REPLAY_ENTRIES : Z := 65536.
Definition MAX_REPLAY_BYTES : Z := 256 * 1024 * 1024.
Definition MAX_REPLAY_RESULT_BYTES : Z := 16 * 1024 * 1024.
Definition MAX_REPLAY_TTL : Duration := from_secs (30 * 24 * 60 * 60).
Definition MAX_REPLAY_LEASE : Duration := from_secs (5 * 60).
Definition MAX_RESERVATION_SCAN : Z := 1024.
Definition MAX_OBJECT_LIST_KEYS : Z := 1024.
Definition MAX_QUEUES : Z := 16.
Definition MAX_BUCKETS : Z := 16.
Definition MAX_QUEUE_DEPTH : Z := 65536.
Definition MAX_QUEUE_JOB_BYTES : Z := 1024 * 1024.
Definition MAX_QUEUE_BYTES : Z := 256 * 1024 * 1024.
Definition MAX_DELIVERY_ATTEMPTS : Z := 16.
Definition MAX_DELIVERY_LEASE : Duration := from_secs (5 * 60).
Definition MAX_DELIVERY_BACKOFF : Duration := from_secs (60 * 60).
Definition MAX_DEAD_LETTER_ENTRIES : Z := 4096.
Definition MAX_DEAD_LETTER_RETENTION : Duration := from_secs (30 * 24 * 60 * 60).
Definition MIN_SCHEDULE_INTERVAL : Duration := from_secs 1.
Definition MAX_SCHEDULE_INTERVAL : Duration := from_secs (365 * 24 * 60 * 60).
Definition MAX_SCHEDULE_CATCH_UP : Z := 64.
Definition MAX_SCHEDULE_RETENTION : Duration := from_secs (30 * 24 * 60 * 60).
Definition MAX_RETAINED_FIRES : Z := 4096.
Definition MAX_BUCKET_OBJECTS : Z := 65536.
Definition MAX_OBJECT_KEY_BYTES : Z := 1024.
Definition MAX_OBJECT_BYTES : Z := 4 * 1024 * 1024.
Definition MAX_BUCKET_BYTES : Z := 1024 * 1024 * 1024.

Definition valid_millis (duration maximum : Duration) : bool :=
  (from_millis 1 <=? duration) && (duration <=? maximum)
  && (subsec_nanos duration `mod` 1000000 =? 0).

(** [i64::try_from] of a count of milliseconds, and the checked deadline. *)
Definition checked_deadline (now_millis : Z) (duration : Duration) : result Z StateError :=
  let? millis := ok_or (i64_checked (as_millis duration)) (limit "durable deadline exceeds i64") in
  ok_or (i64_checked (now_millis + millis)) (limit "durable deadline overflowed").

(** ** Limits and policies *)

Record StoreLimits : Type := mkStoreLimits {
  busy_timeout : Duration;
  max_operations : Z;
  max_key_bytes : Z;
  max_value_bytes : Z;
  max_transaction_bytes : Z;
  max_database_bytes : Z;
  max_replay_entries : Z;
  max_replay_bytes : Z;
}.

Definition limits_validate (l : StoreLimits) : result unit StateError :=
  if negb (valid_millis (busy_timeout l) MAX_STATE_BUSY_TIMEOUT)
     || negb (contains_range 1 MAX_STATE_OPERATIONS (max_operations l))
     || negb (contains_range 1 MAX_STATE_KEY_BYTES (max_key_bytes l))
     || negb (contains_range 1 MAX_STATE_VALUE_BYTES (max_value_bytes l))
     || negb (contains_range 1 MAX_STATE_TRANSACTION_BYTES (max_transaction_bytes l))
     || negb (contains_range MINIMUM_DATABASE_BYTES MAX_STATE_DATABASE_BYTES (max_database_bytes l))
     || negb (contains_range 1 MAX_REPLAY_ENTRIES (max_replay_entries l))
     || negb (contains_range 1 MAX_REPLAY_BYTES (max_replay_bytes l))
  then Err (limit "durable store limits are invalid")
  else Ok tt.

Record RetentionPolicy : Type := mkRetentionPolicy {
  max_entries : Z;
  max_bytes : Z;
  ttl : Duration;
  retention_lease : Duration;
}.

Definition retention_validate (p : RetentionPolicy) (l : StoreLimits) : result unit StateError :=
  let? _ := limits_validate l in
  if negb (contains_range 1 (max_replay_entries l) (max_entries p))
     || negb (contains_range 1 (max_replay_bytes l) (max_bytes p))
     || negb (valid_millis (ttl p) MAX_REPLAY_TTL)
     || negb (valid_millis (retention_lease p) MAX_REPLAY_LEASE)
  then Err (limit "durable retention policy is invalid")
  else Ok tt.

Record QueuePolicy : Type := mkQueuePolicy {
  max_depth : Z;
  max_job_bytes : Z;
  max_queue_bytes : Z;
  queue_max_attempts : Z;
  queue_lease : Duration;
  queue_backoff : Duration;
  queue_max_backoff : Duration;
  dead_letter_max_entries : Z;
  dead_letter_ttl : Duration;
}.

Definition queue_validate (p : QueuePolicy) : result unit StateError :=
  if negb (contains_range 1 MAX_QUEUE_DEPTH (max_depth p))
     || negb (contains_range 1 MAX_QUEUE_JOB_BYTES (max_job_bytes p))
     || (max_queue_bytes p <? max_job_bytes p)
     || (MAX_QUEUE_BYTES <? max_queue_bytes p)
     || negb (contains_range 1 MAX_DELIVERY_ATTEMPTS (queue_max_attempts p))
     || negb (valid_millis (queue_lease p) MAX_DELIVERY_LEASE)
     || negb (valid_millis (queue_backoff p) MAX_DELIVERY_BACKOFF)
     || (queue_max_backoff p <? queue_backoff p)
     || negb (valid_millis (queue_max_backoff p) MAX_DELIVERY_BACKOFF)
     || negb (contains_range 1 MAX_DEAD_LETTER_ENTRIES (dead_letter_max_entries p))
     || negb (valid_millis (dead_letter_ttl p) MAX_DEAD_LETTER_RETENTION)
  then Err (limit "durable queue policy is invalid")
  else Ok tt.

Record BucketPolicy : Type := mkBucketPolicy {
  max_objects : Z;
  bucket_max_key_bytes : Z;
  max_object_bytes : Z;
  max_bucket_bytes : Z;
}.

Definition bucket_validate (p : BucketPolicy) : result unit StateError :=
  if negb (contains_range 1 MAX_BUCKET_OBJECTS (max_objects p))
     || negb (contains_range 1 MAX_OBJECT_KEY_BYTES (bucket_max_key_bytes p))
     || negb (contains_range 1 MAX_OBJECT_BYTES (max_object_bytes p))
     || (max_bucket_bytes p <? max_object_bytes p)
     || (MAX_BUCKET_BYTES <? max_bucket_bytes p)
  then Err (limit "durable bucket policy is invalid")
  else Ok tt.

(** ** Tables ([schema.rs]) *)

Record ObjectRow : Type := mkObjectRow {
  object_bucket : string;
  object_key : string;
  object_value : string;
  object_size : Z;
  object_updated_at : Z;
}.

Record JobRow : Type := mkJobRow {
  job_row_id : string;
  job_queue : string;
  job_sequence : Z;
  job_body : string;
  job_attempts : Z;
  job_visible_at : Z;
  job_lease_until : option Z;
  job_owner : option string;
  job_size : Z;
  job_enqueued_at : Z;
}.

Record DeadRow : Type := mkDeadRow {
  dead_id : string;
  dead_queue : string;
  dead_sequence : Z;
  dead_body : string;
  dead_attempts : Z;
  dead_reason : string;
  dead_size : Z;
  dead_failed_at : Z;
}.

Record FireRow : Type := mkFireRow {
  fire_schedule : string;
  fire_due_at : Z;
  fire_status : Z;
  fire_attempts : Z;
  fire_visible_at : Z;
  fire_lease_until : option Z;
  fire_owner : option string;
  fire_updated_at : Z;
}.

(** A row of [replay] or of [idempotency]: the tables differ only in their
    primary key and the names of their columns. *)
Record KeptRow (K : Type) : Type := mkKeptRow {
  kept_key : K;
  kept_digest : string;
  kept_status : Z;
  kept_owner : option string;
  kept_lease_until : option Z;
  kept_result : option string;
  kept_expires_at : option Z;
  kept_last_used : Z;
  kept_size : Z;
}.
Arguments mkKeptRow {K} kept_key kept_digest kept_status kept_owner kept_lease_until
  kept_result kept_expires_at kept_last_used kept_size.
Arguments kept_key {K} k.
Arguments kept_digest {K} k.
Arguments kept_status {K} k.
Arguments kept_owner {K} k.
Arguments kept_lease_until {K} k.
Arguments kept_result {K} k.
Arguments kept_expires_at {K} k.
Arguments kept_last_used {K} k.
Arguments kept_size {K} k.

(** The primary keys: [(artifact, kind, operation)] and [(artifact, request_key)]. *)
Abbreviation ReplayKey := (string * Z * string)%type.
Abbreviation IdempotencyKey := (string * string)%type.

(** [kv], [checkpoints] and [schedule_cursors] are only ever read and written
    at their primary key, so they are finite maps. *)
Record Tables : Type := mkTables {
  revision : Z;
  sequence : Z;
  kv : gmap string string;
  checkpoints : gmap string string;
  replay_table : list (KeptRow ReplayKey);
  idempotency_table : list (KeptRow IdempotencyKey);
  queue_jobs : list JobRow;
  queue_dead : list DeadRow;
  schedule_fires : list FireRow;
  schedule_cursors : gmap string (Z * Z);
  objects : list ObjectRow;
}.

(** A store that was just created. *)
Definition empty_tables : Tables := mkTables 0 0 ∅ ∅ [] [] [] [] [] ∅ [].

Definition set_revision (t : Tables) (x : Z) : Tables :=
  mkTables x (sequence t) (kv t) (checkpoints t) (replay_table t) (idempotency_table t)
    (queue_jobs t) (queue_dead t) (schedule_fires t) (schedule_cursors t) (objects t).
Definition set_sequence (t : Tables) (x : Z) : Tables :=
  mkTables (revision t) x (kv t) (checkpoints t) (replay_table t) (idempotency_table t)
    (queue_jobs t) (queue_dead t) (schedule_fires t) (schedule_cursors t) (objects t).
Definition set_kv (t : Tables) (x : gmap string string) : Tables :=
  mkTables (revision t) (sequence t) x (checkpoints t) (replay_table t) (idempotency_table t)
    (queue_jobs t) (queue_dead t) (schedule_fires t) (schedule_cursors t) (objects t).
Definition set_checkpoints (t : Tables) (x : gmap string string) : Tables :=
  mkTables (revision t) (sequence t) (kv t) x (replay_table t) (idempotency_table t)
    (queue_jobs t) (queue_dead t) (schedule_fires t) (schedule_cursors t) (objects t).
Definition set_replay (t : Tables) (x : list (KeptRow ReplayKey)) : Tables :=
  mkTables (revision t) (sequence t) (kv t) (checkpoints t) x (idempotency_table t)
    (queue_jobs t) (queue_dead t) (schedule_fires t) (schedule_cursors t) (objects t).
Definition set_idempotency (t : Tables) (x : list (KeptRow IdempotencyKey)) : Tables :=
  mkTables (revision t) (sequence t) (kv t) (checkpoints t) (replay_table t) x
    (queue_jobs t) (queue_dead t) (schedule_fires t) (schedule_cursors t) (objects t).
Definition set_jobs (t : Tables) (x : list JobRow) : Tables :=
  mkTables (revision t) (sequence t) (kv t) (checkpoints t) (replay_table t) (idempotency_table t)
    x (queue_dead t) (schedule_fires t) (schedule_cursors t) (objects t).
Definition set_dead (t : Tables) (x : list DeadRow) : Tables :=
  mkTables (revision t) (sequence t) (kv t) (checkpoints t) (replay_table t) (idempotency_table t)
    (queue_jobs t) x (schedule_fires t) (schedule_cursors t) (objects t).
Definition set_fires (t : Tables) (x : list FireRow) : Tables :=
  mkTables (revision t) (sequence t) (kv t) (checkpoints t) (replay_table t) (idempotency_table t)
    (queue_jobs t) (queue_dead t) x (schedule_cursors t) (objects t).
Definition set_cursors (t : Tables) (x : gmap string (Z * Z)) : Tables :=
  mkTables (revision t) (sequence t) (kv t) (checkpoints t) (replay_table t) (idempotency_table t)
    (queue_jobs t) (queue_dead t) (schedule_fires t) x (objects t).
Definition set_objects (t : Tables) (x : list ObjectRow) : Tables :=
  mkTables (revision t) (sequence t) (kv t) (checkpoints t) (replay_table t) (idempotency_table t)
    (queue_jobs t) (queue_dead t) (schedule_fires t) (schedule_cursors t) x.

(** ** Validation *)

Definition contains_nul (text : string) : bool := existsb (byte_eqb "000") (bytes_of text).

Definition validate_key (key : string) (l : StoreLimits) : result unit StateError :=
  if (str_len key =? 0) || (max_key_bytes l <? str_len key) || contains_nul key
  then Err (limit "durable state key is invalid or too large")
  else Ok tt.

Definition validate_identity (value : string) (max : Z) : result unit StateError :=
  if (str_len value =? 0) || (max <? str_len value) || contains_nul value
  then Err (limit "durable record identity is invalid or too large")
  else Ok tt.

Definition validate_digest (digest : string) : result unit StateError :=
  if negb (str_len digest =? 32) then Err (replay_error "durable record digest must be 32 bytes")
  else Ok tt.

Definition validate_owner (owner : string) : result unit StateError :=
  if negb (str_len owner =? 16) then Err (replay_error "durable lease owner must be 16 bytes")
  else Ok tt.

Definition validate_value (value : string) (l : StoreLimits) : result unit StateError :=
  if max_value_bytes l <? str_len value then Err (limit "durable state value exceeds its limit")
  else Ok tt.

Inductive Mutation : Type :=
| Put (key value : string)
| Delete (key : string)
| CheckpointPut (name value : string)
| ObjectPut (bucket key value : string)
| ObjectDelete (bucket key : string)
| QueuePublish (queue id body : string).

#[export] Instance Mutation_eq_dec : EqDecision Mutation.
Proof. solve_decision. Defined.

Definition advances_revision (mutation : Mutation) : bool :=
  match mutation with
  | Put _ _ | Delete _ | CheckpointPut _ _ | ObjectPut _ _ _ | ObjectDelete _ _ => true
  | QueuePublish _ _ _ => false
  end.

(** A chain of [checked_add]s. *)
Definition checked_total (total : Z) (lengths : list Z) : result Z StateError :=
  ok_or (foldl (fun sum n => match sum with Some sum => usize_checked (sum + n) | None => None end)
           (Some total) lengths)
    (limit "durable transaction byte count overflowed").

(** What one mutation adds to the transaction's byte count. *)
Definition validate_mutation (mutation : Mutation) (l : StoreLimits) (total : Z)
  : result Z StateError :=
  match mutation with
  | Put key value | CheckpointPut key value =>
      let? _ := validate_key key l in
      let? _ := validate_value value l in
      checked_total total [str_len key; str_len value]
  | Delete key =>
      let? _ := validate_key key l in
      checked_total total [str_len key]
  | ObjectPut bucket key value =>
      let? _ := validate_identity bucket MAX_RESOURCE_NAME_BYTES in
      let? _ := validate_key key l in
      checked_total total [str_len bucket; str_len key; str_len value]
  | ObjectDelete bucket key =>
      let? _ := validate_identity bucket MAX_RESOURCE_NAME_BYTES in
      let? _ := validate_key key l in
      checked_total total [str_len bucket; str_len key]
  | QueuePublish queue id body =>
      let? _ := validate_identity queue MAX_RESOURCE_NAME_BYTES in
      checked_total total [str_len queue; str_len body]
  end.

Fixpoint mutation_total (mutations : list Mutation) (l : StoreLimits) (total : Z)
  : result Z StateError :=
  match mutations with
  | [] => Ok total
  | mutation :: mutations' =>
      let? total := validate_mutation mutation l total in
      mutation_total mutations' l total
  end.

Definition validate_mutations (mutations : list Mutation) (l : StoreLimits)
  : result unit StateError :=
  if max_operations l <? Z.of_nat (length mutations) then
    Err (limit "durable state operation count exceeds its limit")
  else
    let? total := mutation_total mutations l 0 in
    if max_transaction_bytes l <? total then
      Err (limit "durable transaction bytes exceed their limit")
    else Ok tt.

(** ** The store and its connection *)

Record DurableStore : Type := mkDurableStore {
  limits : StoreLimits;
  poisoned : bool;
}.

(** [usize_of]: a stored count or size, never negative. *)
Definition usize_of (value : Z) : Z := Z.max value 0.

Section Operations.
Context `{Faults}.

Abbreviation Tx A := (Sql Tables StateError A).

Definition lock (self : DurableStore) : Tx unit :=
  if poisoned self then sql_err (database "durable database lock is unavailable") else sql_ret tt.

(** [connection.transaction_with_behavior(..)] and the code until its drop. *)
Definition in_transaction {A} (body : Tx A) : Tx A := transaction map_transaction body.

Definition execute {A} (run : Tables -> Tables * A) : Tx A :=
  statement map_database (fun t => Some (run t)).
Definition query {A} (run : Tables -> A) : Tx A := select map_database run.
Definition commit_transaction : Tx unit := commit_work map_database.

(** [SELECT COUNT] and [SUM(size)] of the rows a clause selects; SQLite's
    [SUM] fails when it leaves the 64-bit range. *)
Definition count_and_sum {row} (table : Tables -> list row) (clause : row -> bool)
    (size : row -> Z) : Tables -> option (Tables * (Z * Z)) :=
  fun t =>
    let rows := where_ clause (table t) in
    match i64_checked (sum_of size rows) with
    | Some sum => Some (t, (Z.of_nat (length rows), sum))
    | None => None
    end.

Definition query_revision : Tx Z :=
  let* revision := query revision in
  sql_lift (ok_or (u64_checked revision) (database "durable state revision is invalid")).

(** The sequence is an [i64] column: an addition that leaves the range does
    not store. *)
Definition next_sequence : Tx Z :=
  let* _ := statement map_database (fun t =>
    match i64_checked (sequence t + 1) with
    | Some next => Some (set_sequence t next, tt)
    | None => None
    end) in
  query sequence.

Definition store_revision (self : DurableStore) : Tx Z :=
  let* _ := lock self in
  let* revision := autocommit map_database (fun t => Some (t, revision t)) in
  sql_lift (ok_or (u64_checked revision) (database "durable state revision is invalid")).

(** ** Reads *)

Definition get (self : DurableStore) (key : string) : Tx (option string) :=
  let* _ := sql_lift (validate_key key (limits self)) in
  let* _ := lock self in
  autocommit map_database (fun t => Some (t, kv t !! key)).

Definition checkpoint (self : DurableStore) (name : string) : Tx (option string) :=
  let* _ := sql_lift (validate_key name (limits self)) in
  let* _ := lock self in
  autocommit map_database (fun t => Some (t, checkpoints t !! name)).

(** The shape the three [_at_revision] reads share. *)
Definition read_at_revision {A} (self : DurableStore) (expected_revision : Z) (message : string)
    (read : Tables -> A) : Tx A :=
  let* _ := lock self in
  in_transaction (
    let* current := query_revision in
    if negb (current =? expected_revision) then sql_err (conflict message)
    else
      let* value := query read in
      let* _ := commit_transaction in
      sql_ret value).

Definition get_at_revision (self : DurableStore) (key : string) (expected_revision : Z)
  : Tx (option string) :=
  let* _ := sql_lift (validate_key key (limits self)) in
  read_at_revision self expected_revision "durable state revision changed before read"
    (fun t => kv t !! key).

Definition checkpoint_at_revision (self : DurableStore) (name : string) (expected_revision : Z)
  : Tx (option string) :=
  let* _ := sql_lift (validate_key name (limits self)) in
  read_at_revision self expected_revision "durable state revision changed before checkpoint read"
    (fun t => checkpoints t !! name).

Definition in_bucket (bucket : string) (r : ObjectRow) : bool :=
  bool_decide (object_bucket r = bucket).
Definition is_object (bucket key : string) (r : ObjectRow) : bool :=
  bool_decide (object_bucket r = bucket) && bool_decide (object_key r = key).

(** [SELECT value FROM objects WHERE bucket = ?1 AND key = ?2]. *)
Definition find_object (t : Tables) (bucket key : string) : option ObjectRow :=
  head (where_ (is_object bucket key) (objects t)).

Definition object (self : DurableStore) (bucket key : string) : Tx (option string) :=
  let* _ := sql_lift (validate_identity bucket MAX_RESOURCE_NAME_BYTES) in
  let* _ := sql_lift (validate_key key (limits self)) in
  let* _ := lock self in
  autocommit map_database (fun t => Some (t, object_value <$> find_object t bucket key)).

Definition object_at_revision (self : DurableStore) (bucket key : string) (expected_revision : Z)
  : Tx (option string) :=
  let* _ := sql_lift (validate_identity bucket MAX_RESOURCE_NAME_BYTES) in
  let* _ := sql_lift (validate_key key (limits self)) in
  read_at_revision self expected_revision "durable state revision changed before object read"
    (fun t => object_value <$> find_object t bucket key).

Definition object_stats (self : DurableStore) (bucket : string) : Tx (Z * Z) :=
  let* _ := sql_lift (validate_identity bucket MAX_RESOURCE_NAME_BYTES) in
  let* _ := lock self in
  let* (count, bytes) := autocommit map_database
    (count_and_sum objects (in_bucket bucket) object_size) in
  sql_ret (usize_of count, usize_of bytes).

(** ** One staged mutation *)

(** [INSERT INTO objects .. ON CONFLICT(bucket, key) DO UPDATE]. *)
Definition upsert_object (bucket key value : string) (now_millis : Z) (t : Tables) : Tables :=
  set_objects t
    (match find_object t bucket key with
     | Some _ =>
         update_where (is_object bucket key)
           (fun r => mkObjectRow (object_bucket r) (object_key r) value (str_len value) now_millis)
           (objects t)
     | None => objects t ++ [mkObjectRow bucket key value (str_len value) now_millis]
     end).

Definition in_queue (queue : string) (r : JobRow) : bool := bool_decide (job_queue r = queue).
Definition has_id (id : string) (r : JobRow) : bool := bool_decide (job_row_id r = id).

(** [INSERT INTO queue_jobs .. ON CONFLICT(id) DO NOTHING], and the rows inserted. *)
Definition insert_job (queue id body : string) (sequence now_millis : Z) (t : Tables)
  : Tables * Z :=
  if existsb (has_id id) (queue_jobs t) then (t, 0)
  else (set_jobs t (queue_jobs t
          ++ [mkJobRow id queue sequence body 0 now_millis None None (str_len body) now_millis]), 1).

Definition put_object (policy : BucketPolicy) (bucket key value : string) (now_millis : Z)
  : Tx unit :=
  if (bucket_max_key_bytes policy <? str_len key) || (max_object_bytes policy <? str_len value) then
    sql_err (limit "durable object key or value exceeds its bucket bound")
  else
    let* previous := query (fun t => object_size <$> find_object t bucket key) in
    let* (count, bytes) := statement map_database
      (count_and_sum objects (in_bucket bucket) object_size) in
    if negb (is_some previous) && (max_objects policy <=? usize_of count) then
      sql_err (limit "durable object count exceeds its bucket bound")
    else
      let* retained := sql_lift (ok_or
        (match usize_checked (usize_of bytes - usize_of (default 0 previous)) with
         | Some retained => usize_checked (retained + str_len value)
         | None => None
         end) (limit "durable object accounting overflowed")) in
      if max_bucket_bytes policy <? retained then
        sql_err (limit "durable object bytes exceed their bucket bound")
      else
        let* _ := sql_lift (ok_or (i64_checked (str_len value))
          (limit "durable object size exceeds SQLite")) in
        execute (fun t => (upsert_object bucket key value now_millis t, tt)).

Definition publish_job (policy : QueuePolicy) (queue id body : string) (now_millis : Z) : Tx unit :=
  if max_job_bytes policy <? str_len body then
    sql_err (limit "durable queue job exceeds its byte bound")
  else
    let* (count, bytes) := statement map_database
      (count_and_sum queue_jobs (in_queue queue) job_size) in
    if max_depth policy <=? usize_of count then sql_err (limit "durable queue depth is exhausted")
    else if match usize_checked (usize_of bytes + str_len body) with
            | Some total => max_queue_bytes policy <? total
            | None => true
            end
    then sql_err (limit "durable queue bytes exceed their bound")
    else
      let* sequence := next_sequence in
      let* _ := sql_lift (ok_or (i64_checked (str_len body))
        (limit "durable queue job size exceeds SQLite")) in
      let* inserted := execute (insert_job queue id body sequence now_millis) in
      if negb (inserted =? 1) then
        sql_err (conflict "durable queue job identity is already present")
      else sql_ret tt.

Definition apply_mutation (mutation : Mutation) (queues : btree string QueuePolicy)
    (buckets : btree string BucketPolicy) (now_millis : Z) : Tx unit :=
  match mutation with
  | Put key value => execute (fun t => (set_kv t (<[key := value]> (kv t)), tt))
  | Delete key => execute (fun t => (set_kv t (delete key (kv t)), tt))
  | CheckpointPut name value =>
      execute (fun t => (set_checkpoints t (<[name := value]> (checkpoints t)), tt))
  | ObjectPut bucket key value =>
      let* policy := sql_lift (ok_or (bt_get bucket buckets)
        (limit "durable object bucket is not configured")) in
      put_object policy bucket key value now_millis
  | ObjectDelete bucket key =>
      if negb (is_some (bt_get bucket buckets)) then
        sql_err (limit "durable object bucket is not configured")
      else
        execute (fun t => (set_objects t (delete_where (is_object bucket key) (objects t)), tt))
  | QueuePublish queue id body =>
      let* policy := sql_lift (ok_or (bt_get queue queues)
        (limit "durable queue is not configured")) in
      publish_job policy queue id body now_millis
  end.

Fixpoint apply_mutations (mutations : list Mutation) (queues : btree string QueuePolicy)
    (buckets : btree string BucketPolicy) (now_millis : Z) : Tx unit :=
  match mutations with
  | [] => sql_ret tt
  | mutation :: mutations' =>
      let* _ := apply_mutation mutation queues buckets now_millis in
      apply_mutations mutations' queues buckets now_millis
  end.

(** ** Leases, completions and the commit *)

Record JobLease : Type := mkJobLease { lease_id : string; lease_queue : string; lease_owner : string }.
Record FireLease : Type := mkFireLease {
  lease_schedule : string;
  lease_due_at_millis : Z;
  fire_lease_owner : string;
}.

Inductive Completion : Type := CompleteJob (lease : JobLease) | CompleteFire (lease : FireLease).

Definition owned_job (lease : JobLease) (r : JobRow) : bool :=
  bool_decide (job_row_id r = lease_id lease) && bool_decide (job_queue r = lease_queue lease)
  && bool_decide (job_owner r = Some (lease_owner lease)).

Definition is_fire (schedule : string) (due_at : Z) (r : FireRow) : bool :=
  bool_decide (fire_schedule r = schedule) && (fire_due_at r =? due_at).
Definition owned_fire (lease : FireLease) (r : FireRow) : bool :=
  is_fire (lease_schedule lease) (lease_due_at_millis lease) r && (fire_status r =? 0)
  && bool_decide (fire_owner r = Some (fire_lease_owner lease)).

(** [SET status, owner = NULL, lease_until = NULL, updated_at]. *)
Definition close_fire (status now_millis : Z) (r : FireRow) : FireRow :=
  mkFireRow (fire_schedule r) (fire_due_at r) status (fire_attempts r) (fire_visible_at r)
    None None now_millis.

Definition complete (completion : option Completion) (now_millis : Z) : Tx unit :=
  match completion with
  | Some (CompleteJob lease) =>
      let* changed := execute (fun t =>
        (set_jobs t (delete_where (owned_job lease) (queue_jobs t)),
         count_where (owned_job lease) (queue_jobs t))) in
      if negb (changed =? 1) then sql_err (conflict "durable queue lease is stale or not owned")
      else sql_ret tt
  | Some (CompleteFire lease) =>
      let* changed := execute (fun t =>
        (set_fires t (update_where (owned_fire lease) (close_fire 1 now_millis) (schedule_fires t)),
         count_where (owned_fire lease) (schedule_fires t))) in
      if negb (changed =? 1) then sql_err (conflict "durable schedule lease is stale or not owned")
      else sql_ret tt
  | None => sql_ret tt
  end.

Record CommitPlan : Type := mkCommitPlan {
  expected_revision : Z;
  mutations : list Mutation;
  queues : btree string QueuePolicy;
  buckets : btree string BucketPolicy;
  now_millis : Z;
  completion : option Completion;
}.

Fixpoint validate_all {P} (validate : P -> result unit StateError) (policies : btree string P)
  : result unit StateError :=
  match policies with
  | [] => Ok tt
  | (_, policy) :: policies' =>
      let? _ := validate policy in
      validate_all validate policies'
  end.

Definition validate_plan (self : DurableStore) (plan : CommitPlan) : result unit StateError :=
  let? _ := validate_mutations (mutations plan) (limits self) in
  if (MAX_QUEUES <? Z.of_nat (length (queues plan)))
     || (MAX_BUCKETS <? Z.of_nat (length (buckets plan)))
  then Err (limit "configured queues or buckets exceed the protocol bounds")
  else
    let? _ := validate_all queue_validate (queues plan) in
    validate_all bucket_validate (buckets plan).

Definition revision_sensitive (plan : CommitPlan) : bool :=
  existsb advances_revision (mutations plan).

(** The body of the transaction. *)
Definition commit_body (plan : CommitPlan) : Tx Z :=
  let* current := query_revision in
  if revision_sensitive plan && negb (current =? expected_revision plan) then
    sql_err (conflict "durable state revision changed before commit")
  else
    let* _ := apply_mutations (mutations plan) (queues plan) (buckets plan) (now_millis plan) in
    let* _ := complete (completion plan) (now_millis plan) in
    if negb (revision_sensitive plan) then
      let* _ := commit_transaction in
      sql_ret current
    else
      let* next := sql_lift (ok_or (u64_checked (current + 1))
        (limit "durable state revision overflowed")) in
      let* next_sql := sql_lift (ok_or (i64_checked next)
        (limit "durable state revision exceeds SQLite")) in
      let* _ := execute (fun t => (set_revision t next_sql, tt)) in
      let* _ := commit_transaction in
      sql_ret next.

Definition commit_plan (self : DurableStore) (plan : CommitPlan) : Tx Z :=
  let* _ := sql_lift (validate_plan self plan) in
  let* _ := lock self in
  in_transaction (commit_body plan).

Definition commit (self : DurableStore) (expected_revision : Z) (mutations : list Mutation) : Tx Z :=
  commit_plan self (mkCommitPlan expected_revision mutations [] [] 0 None).
End Operations.
