(* ===== verification/Jobs.v ===== *)
(** * Queues, dead letters, schedules and object listings

    Models the operations of [krit-state/src/jobs.rs] other than the commit
    (see [Store]): the reservation of a queued job under a lease, its failure
    and retirement to the dead letters, the materialization of a schedule's
    occurrences, the reservation and the failure of a fire, and the bounded
    listings. *)

From S2P Require Import Prelude BTree Sql Store.

Definition u32_max : Z := 2 ^ 32 - 1.

(** [u32::try_from(value).unwrap_or(u32::MAX)]. *)
Definition u32_or_max (value : Z) : Z :=
  if (0 <=? value) && (value <=? u32_max) then value else u32_max.

(** ** Policies and instants *)

Record SchedulePolicy : Type := mkSchedulePolicy {
  interval : Duration;
  start_millis : Z;
  max_catch_up : Z;
  schedule_max_attempts : Z;
  schedule_lease : Duration;
  schedule_backoff : Duration;
  schedule_max_backoff : Duration;
  retention : Duration;
  max_retained_fires : Z;
}.

Definition schedule_validate (p : SchedulePolicy) : result unit StateError :=
  if (interval p <? MIN_SCHEDULE_INTERVAL)
     || negb (valid_millis (interval p) MAX_SCHEDULE_INTERVAL)
     || (start_millis p <? 0)
     || negb (contains_range 1 MAX_SCHEDULE_CATCH_UP (max_catch_up p))
     || negb (contains_range 1 MAX_DELIVERY_ATTEMPTS (schedule_max_attempts p))
     || negb (valid_millis (schedule_lease p) MAX_DELIVERY_LEASE)
     || negb (valid_millis (schedule_backoff p) MAX_DELIVERY_BACKOFF)
     || (schedule_max_backoff p <? schedule_backoff p)
     || negb (valid_millis (schedule_max_backoff p) MAX_DELIVERY_BACKOFF)
     || negb (valid_millis (retention p) MAX_SCHEDULE_RETENTION)
     || negb (contains_range 1 MAX_RETAINED_FIRES (max_retained_fires p))
  then Err (limit "durable schedule policy is invalid")
  else Ok tt.

Fixpoint preflight_instants (now_millis : Z) (durations : list Duration) : result unit StateError :=
  match durations with
  | [] => Ok tt
  | duration :: durations' =>
      let? _ := checked_deadline now_millis duration in
      let? millis := ok_or (i64_checked (as_millis duration))
        (limit "durable retention exceeds i64") in
      let? _ := ok_or (i64_checked (now_millis - millis))
        (limit "durable retention horizon overflowed") in
      preflight_instants now_millis durations'
  end.

Definition validate_instant (p : SchedulePolicy) (now_millis : Z) : result unit StateError :=
  let? _ := schedule_validate p in
  preflight_instants now_millis [schedule_lease p; schedule_max_backoff p; retention p].

Definition interval_millis (p : SchedulePolicy) : option Z :=
  match i64_checked (as_millis (interval p)) with
  | Some millis => if 0 <? millis then Some millis else None
  | None => None
  end.

(** [attempts.saturating_sub(1).clamp(0, 16)], then [2u32.saturating_pow]. *)
Definition backoff_exponent (attempts : Z) : Z :=
  Z.min (Z.max (Z.max (attempts - 1) i64_min) 0) 16.

Definition backoff_for (base maximum : Duration) (attempts : Z) : Duration :=
  Z.min (duration_saturating_mul base (Z.min (2 ^ backoff_exponent attempts) u32_max)) maximum.

(** ** Deliveries and dispositions *)

Record JobDelivery : Type := mkJobDelivery {
  delivery_lease : JobLease;
  delivery_body : string;
  delivery_attempt : Z;
  delivery_max_attempts : Z;
  delivery_enqueued_at : Z;
}.

Inductive JobDisposition : Type :=
| Retried (visible_at_millis : Z)
| DeadLettered
| Lost.

Record DeadLetterEntry : Type := mkDeadLetterEntry {
  entry_id : string;
  entry_attempts : Z;
  entry_reason : string;
  entry_failed_at : Z;
  entry_body : string;
}.

Record FireDelivery : Type := mkFireDelivery {
  fire_delivery_lease : FireLease;
  fire_delivery_attempt : Z;
  fire_delivery_max_attempts : Z;
}.

Record ScheduleCatchUp : Type := mkScheduleCatchUp {
  materialized : Z;
  skipped : Z;
  cursor_due_millis : Z;
}.

Record ObjectEntry : Type := mkObjectEntry {
  listed_key : string;
  listed_size : Z;
  listed_updated_at : Z;
}.

Definition job_id (bytes : string) : result string StateError :=
  if str_len bytes =? 16 then Ok bytes
  else Err (database "durable queue job identity is invalid").

(** ** Reasons *)

(** [is_char_boundary]: the ends, and every byte that does not continue a
    UTF-8 character. *)
Definition is_char_boundary (text : bytes) (index : nat) : bool :=
  match index with
  | O => true
  | _ =>
      match text !! index with
      | Some b => ((byte_val b <? 0x80) || (0xC0 <=? byte_val b))%N
      | None => (index =? length text)%nat
      end
  end.

(** [while end > 0 && !reason.is_char_boundary(end) { end -= 1 }]. *)
Fixpoint floor_boundary (text : bytes) (fin : nat) : nat :=
  match fin with
  | O => O
  | S fin' => if is_char_boundary text fin then fin else floor_boundary text fin'
  end.

Definition MAX_REASON_BYTES : nat := 256.

Definition one_line (b : byte) : byte :=
  if (byte_val b =? 10)%N || (byte_val b =? 13)%N || (byte_val b =? 0)%N then " "%char else b.

Definition bounded_reason (reason : string) : string :=
  let text := bytes_of reason in
  let fin := floor_boundary text (Nat.min (length text) MAX_REASON_BYTES) in
  str_of (map one_line (take fin text)).

Section Operations.
Context `{Faults}.

Abbreviation Tx A := (Sql Tables StateError A).

(** ** Dead letters *)

Definition dead_in (queue : string) (r : DeadRow) : bool := bool_decide (dead_queue r = queue).

(** The ids of [ORDER BY sequence DESC LIMIT -1 OFFSET limit]. *)
Definition surplus_dead (queue : string) (limit : Z) (rows : list DeadRow) : list string :=
  map dead_id (drop (Z.to_nat limit) (order_desc dead_sequence (where_ (dead_in queue) rows))).

Definition drop_surplus_dead (queue : string) (limit : Z) (rows : list DeadRow) : list DeadRow :=
  delete_where (fun r => dead_in queue r && bool_decide (dead_id r ∈ surplus_dead queue limit rows))
    rows.

Definition enforce_dead_letter_bounds (queue : string) (policy : QueuePolicy) : Tx unit :=
  let* bound := sql_lift (ok_or (i64_checked (dead_letter_max_entries policy))
    (limit "dead-letter entry bound exceeds i64")) in
  execute (fun t => (set_dead t (drop_surplus_dead queue bound (queue_dead t)), tt)).

Definition cleanup_dead_letters (queue : string) (policy : QueuePolicy) (now_millis : Z) : Tx unit :=
  let* ttl := sql_lift (ok_or (i64_checked (as_millis (dead_letter_ttl policy)))
    (limit "dead-letter retention exceeds i64")) in
  let* horizon := sql_lift (ok_or (i64_checked (now_millis - ttl))
    (limit "dead-letter retention horizon overflowed")) in
  let* _ := execute (fun t =>
    (set_dead t (delete_where (fun r => dead_in queue r && (dead_failed_at r <=? horizon))
                   (queue_dead t)), tt)) in
  enforce_dead_letter_bounds queue policy.

(** [INSERT INTO queue_dead .. ON CONFLICT(id) DO UPDATE]. *)
Definition upsert_dead (row : DeadRow) (rows : list DeadRow) : list DeadRow :=
  let same r := bool_decide (dead_id r = dead_id row) in
  if existsb same rows then
    update_where same (fun r =>
      mkDeadRow (dead_id r) (dead_queue r) (dead_sequence r) (dead_body r)
        (dead_attempts row) (dead_reason row) (dead_size r) (dead_failed_at row)) rows
  else rows ++ [row].

Definition dead_letter (row : DeadRow) (policy : QueuePolicy) : Tx unit :=
  let* _ := execute (fun t =>
    (set_jobs t (delete_where (has_id (dead_id row)) (queue_jobs t)), tt)) in
  let* _ := execute (fun t => (set_dead t (upsert_dead row (queue_dead t)), tt)) in
  enforce_dead_letter_bounds (dead_queue row) policy.

(** ** Reserving and failing a job *)

(** Visible, and not under a live lease. *)
Definition ready (queue : string) (now_millis : Z) (r : JobRow) : bool :=
  bool_decide (job_queue r = queue) && (job_visible_at r <=? now_millis)
  && match job_lease_until r with None => true | Some until => until <=? now_millis end.

Definition next_job (queue : string) (now_millis : Z) (t : Tables) : option JobRow :=
  head (order_asc job_sequence (where_ (ready queue now_millis) (queue_jobs t))).

(** [SET attempts = ?1, owner = ?2, lease_until = ?3]. *)
Definition lease_job (attempts : Z) (owner : string) (until : Z) (r : JobRow) : JobRow :=
  mkJobRow (job_row_id r) (job_queue r) (job_sequence r) (job_body r) attempts (job_visible_at r)
    (Some until) (Some owner) (job_size r) (job_enqueued_at r).

Definition exhausted_reason : string := "attempt limit exhausted before delivery".

Fixpoint reserve_scan (scan : nat) (queue : string) (policy : QueuePolicy) (owner : string)
    (now_millis : Z) : Tx (option JobDelivery) :=
  match scan with
  | O =>
      let* _ := commit_transaction in
      sql_ret None
  | S scan' =>
      let* candidate := query (next_job queue now_millis) in
      match candidate with
      | None =>
          let* _ := commit_transaction in
          sql_ret None
      | Some row =>
          let* id := sql_lift (job_id (job_row_id row)) in
          let* next_attempt := sql_lift (ok_or (i64_checked (job_attempts row + 1))
            (limit "durable queue attempt count overflowed")) in
          if queue_max_attempts policy <? next_attempt then
            let* _ := dead_letter
              (mkDeadRow id queue (job_sequence row) (job_body row) (job_attempts row)
                 exhausted_reason (job_size row) now_millis) policy in
            reserve_scan scan' queue policy owner now_millis
          else
            let* until := sql_lift (checked_deadline now_millis (queue_lease policy)) in
            let* _ := execute (fun t =>
              (set_jobs t (update_where (has_id id) (lease_job next_attempt owner until)
                             (queue_jobs t)), tt)) in
            let* _ := commit_transaction in
            sql_ret (Some (mkJobDelivery (mkJobLease id queue owner) (job_body row)
              (u32_or_max next_attempt) (queue_max_attempts policy) (job_enqueued_at row)))
      end
  end.

Definition queue_instants (policy : QueuePolicy) : list Duration :=
  [queue_lease policy; queue_max_backoff policy; dead_letter_ttl policy].

Definition reserve_job (self : DurableStore) (queue : string) (policy : QueuePolicy)
    (owner : string) (now_millis : Z) : Tx (option JobDelivery) :=
  let* _ := sql_lift (queue_validate policy) in
  let* _ := sql_lift (validate_identity queue MAX_RESOURCE_NAME_BYTES) in
  let* _ := sql_lift (preflight_instants now_millis (queue_instants policy)) in
  let* _ := lock self in
  in_transaction (
    let* _ := cleanup_dead_letters queue policy now_millis in
    reserve_scan (Z.to_nat (Z.min (max_depth policy) MAX_RESERVATION_SCAN))
      queue policy owner now_millis).

(** [SET visible_at = ?1, owner = NULL, lease_until = NULL]. *)
Definition retry_job (visible_at : Z) (r : JobRow) : JobRow :=
  mkJobRow (job_row_id r) (job_queue r) (job_sequence r) (job_body r) (job_attempts r) visible_at
    None None (job_size r) (job_enqueued_at r).

Definition fail_job (self : DurableStore) (lease : JobLease) (reason : string)
    (policy : QueuePolicy) (now_millis : Z) : Tx JobDisposition :=
  let* _ := sql_lift (queue_validate policy) in
  let* _ := sql_lift (preflight_instants now_millis (queue_instants policy)) in
  let reason := bounded_reason reason in
  let* _ := lock self in
  in_transaction (
    let* found := query (fun t => head (where_ (owned_job lease) (queue_jobs t))) in
    match found with
    | None =>
        let* _ := commit_transaction in
        sql_ret Lost
    | Some row =>
        if queue_max_attempts policy <=? job_attempts row then
          let* _ := dead_letter
            (mkDeadRow (lease_id lease) (lease_queue lease) (job_sequence row) (job_body row)
               (job_attempts row) reason (job_size row) now_millis) policy in
          let* _ := commit_transaction in
          sql_ret DeadLettered
        else
          let* visible_at := sql_lift (checked_deadline now_millis
            (backoff_for (queue_backoff policy) (queue_max_backoff policy) (job_attempts row))) in
          let* _ := execute (fun t =>
            (set_jobs t (update_where (owned_job lease) (retry_job visible_at) (queue_jobs t)),
             tt)) in
          let* _ := commit_transaction in
          sql_ret (Retried visible_at)
    end).

Definition queue_stats (self : DurableStore) (queue : string) : Tx (Z * Z) :=
  let* _ := sql_lift (validate_identity queue MAX_RESOURCE_NAME_BYTES) in
  let* _ := lock self in
  let* (count, bytes) := autocommit map_database
    (count_and_sum queue_jobs (in_queue queue) job_size) in
  sql_ret (usize_of count, usize_of bytes).

Definition dead_letter_entry (r : DeadRow) : result DeadLetterEntry StateError :=
  let? id := job_id (dead_id r) in
  Ok (mkDeadLetterEntry id (u32_or_max (dead_attempts r)) (dead_reason r) (dead_failed_at r)
        (dead_body r)).

Definition dead_letters (self : DurableStore) (queue : string) (limit_ : Z)
  : Tx (list DeadLetterEntry) :=
  let* _ := sql_lift (validate_identity queue MAX_RESOURCE_NAME_BYTES) in
  let* bound := sql_lift (ok_or (i64_checked (Z.min limit_ MAX_OBJECT_LIST_KEYS))
    (limit "dead-letter listing limit is invalid")) in
  let* _ := lock self in
  let* rows := autocommit map_database (fun t =>
    Some (t, take (Z.to_nat bound)
               (order_asc dead_sequence (where_ (dead_in queue) (queue_dead t))))) in
  sql_lift (try_map dead_letter_entry rows).

(** ** Schedules *)

Definition fire_in (schedule : string) (r : FireRow) : bool :=
  bool_decide (fire_schedule r = schedule).
Definition is_closed (r : FireRow) : bool := (fire_status r =? 1) || (fire_status r =? 2).

Definition surplus_fires (schedule : string) (limit : Z) (rows : list FireRow) : list Z :=
  map fire_due_at
    (drop (Z.to_nat limit)
       (order_desc fire_due_at (where_ (fun r => fire_in schedule r && is_closed r) rows))).

Definition drop_surplus_fires (schedule : string) (limit : Z) (rows : list FireRow)
  : list FireRow :=
  delete_where (fun r => fire_in schedule r && is_closed r
                         && bool_decide (fire_due_at r ∈ surplus_fires schedule limit rows)) rows.

Definition cleanup_schedule_fires (schedule : string) (policy : SchedulePolicy) (now_millis : Z)
  : Tx unit :=
  let* kept := sql_lift (ok_or (i64_checked (as_millis (retention policy)))
    (limit "schedule retention exceeds i64")) in
  let* horizon := sql_lift (ok_or (i64_checked (now_millis - kept))
    (limit "schedule retention horizon overflowed")) in
  let* _ := execute (fun t =>
    (set_fires t (delete_where (fun r => fire_in schedule r && is_closed r
                                         && (fire_updated_at r <=? horizon))
                    (schedule_fires t)), tt)) in
  let* bound := sql_lift (ok_or (i64_checked (max_retained_fires policy))
    (limit "schedule retention bound exceeds i64")) in
  execute (fun t => (set_fires t (drop_surplus_fires schedule bound (schedule_fires t)), tt)).

Record OccurrenceBounds : Type := mkOccurrenceBounds { current_index : Z; cursor_due : Z }.

Definition instant_overflow : StateError := limit "durable schedule instant overflowed".

Definition occurrence_instant (start index every : Z) : result Z StateError :=
  ok_or (match i64_checked (index * every) with
         | Some offset => i64_checked (start + offset)
         | None => None
         end) instant_overflow.

Definition occurrence_bounds (policy : SchedulePolicy) (every now_millis : Z)
  : result (option OccurrenceBounds) StateError :=
  if now_millis <? start_millis policy then Ok None
  else
    let? elapsed := ok_or (i64_checked (now_millis - start_millis policy)) instant_overflow in
    let index := elapsed `quot` every in
    let? due := occurrence_instant (start_millis policy) index every in
    Ok (Some (mkOccurrenceBounds index due)).

(** [INSERT INTO schedule_fires .. ON CONFLICT(schedule, due_at) DO NOTHING]. *)
Definition insert_fire (schedule : string) (due now_millis : Z) (t : Tables) : Tables * Z :=
  if existsb (is_fire schedule due) (schedule_fires t) then (t, 0)
  else (set_fires t (schedule_fires t ++ [mkFireRow schedule due 0 0 due None None now_millis]), 1).

(** [for index in first_index..=current_index], [count] occurrences. *)
Fixpoint materialize_from (count : nat) (index : Z) (schedule : string) (policy : SchedulePolicy)
    (every now_millis done : Z) : Tx Z :=
  match count with
  | O => sql_ret done
  | S count' =>
      let* due := sql_lift (occurrence_instant (start_millis policy) index every) in
      let* inserted := execute (insert_fire schedule due now_millis) in
      materialize_from count' (index + 1) schedule policy every now_millis
        (Z.min (done + inserted) u32_max)
  end.

(** The first occurrence not yet materialized. *)
Definition first_pending (cursor : option Z) (policy : SchedulePolicy) (every current : Z)
  : result Z StateError :=
  match cursor with
  | Some last_due =>
      let? elapsed := ok_or (i64_checked (last_due - start_millis policy))
        (limit "durable schedule cursor is invalid") in
      ok_or (i64_checked (elapsed `quot` every + 1)) (limit "durable schedule cursor overflowed")
  | None => Ok current
  end.

(** Bounds the catch-up: where it starts, and how many it skips. *)
Definition catch_up_from (policy : SchedulePolicy) (first current : Z) : Z * Z :=
  let pending := current - first + 1 in
  if max_catch_up policy <? pending
  then (current - max_catch_up policy + 1, pending - max_catch_up policy)
  else (first, 0).

Definition materialize_body (schedule : string) (policy : SchedulePolicy) (every : Z)
    (horizon : option OccurrenceBounds) (now_millis : Z) : Tx ScheduleCatchUp :=
  let* _ := cleanup_schedule_fires schedule policy now_millis in
  if now_millis <? start_millis policy then
    let* _ := commit_transaction in
    sql_ret (mkScheduleCatchUp 0 0 (start_millis policy))
  else
    let* bounds := sql_lift (ok_or horizon instant_overflow) in
    let* cursor := query (fun t => fst <$> schedule_cursors t !! schedule) in
    let* first := sql_lift (first_pending cursor policy every (current_index bounds)) in
    if current_index bounds <? first then
      let* _ := commit_transaction in
      sql_ret (mkScheduleCatchUp 0 0 (cursor_due bounds))
    else
      let '(from, missed) := catch_up_from policy first (current_index bounds) in
      let* made := materialize_from (Z.to_nat (current_index bounds - from + 1)) from
        schedule policy every now_millis 0 in
      let* _ := execute (fun t =>
        (set_cursors t (<[schedule := (cursor_due bounds, now_millis)]> (schedule_cursors t)),
         tt)) in
      let* _ := commit_transaction in
      sql_ret (mkScheduleCatchUp made (Z.max missed 0) (cursor_due bounds)).

Definition materialize_schedule (self : DurableStore) (schedule : string)
    (policy : SchedulePolicy) (now_millis : Z) : Tx ScheduleCatchUp :=
  let* _ := sql_lift (validate_instant policy now_millis) in
  let* _ := sql_lift (validate_identity schedule MAX_RESOURCE_NAME_BYTES) in
  let* every := sql_lift (ok_or (interval_millis policy)
    (limit "durable schedule interval is invalid")) in
  let* horizon := sql_lift (occurrence_bounds policy every now_millis) in
  let* _ := lock self in
  in_transaction (materialize_body schedule policy every horizon now_millis).

Definition fire_ready (schedule : string) (now_millis : Z) (r : FireRow) : bool :=
  fire_in schedule r && (fire_status r =? 0) && (fire_visible_at r <=? now_millis)
  && match fire_lease_until r with None => true | Some until => until <=? now_millis end.

Definition next_fire (schedule : string) (now_millis : Z) (t : Tables) : option FireRow :=
  head (order_asc fire_due_at (where_ (fire_ready schedule now_millis) (schedule_fires t))).

Definition lease_fire (attempts : Z) (owner : string) (until now_millis : Z) (r : FireRow)
  : FireRow :=
  mkFireRow (fire_schedule r) (fire_due_at r) (fire_status r) attempts (fire_visible_at r)
    (Some until) (Some owner) now_millis.

Fixpoint reserve_fire_scan (scan : nat) (schedule : string) (policy : SchedulePolicy)
    (owner : string) (now_millis : Z) : Tx (option FireDelivery) :=
  match scan with
  | O =>
      let* _ := commit_transaction in
      sql_ret None
  | S scan' =>
      let* candidate := query (next_fire schedule now_millis) in
      match candidate with
      | None =>
          let* _ := commit_transaction in
          sql_ret None
      | Some row =>
          let* next_attempt := sql_lift (ok_or (i64_checked (fire_attempts row + 1))
            (limit "durable schedule attempt overflowed")) in
          if schedule_max_attempts policy <? next_attempt then
            let* _ := execute (fun t =>
              (set_fires t (update_where (is_fire schedule (fire_due_at row))
                              (close_fire 2 now_millis) (schedule_fires t)), tt)) in
            reserve_fire_scan scan' schedule policy owner now_millis
          else
            let* until := sql_lift (checked_deadline now_millis (schedule_lease policy)) in
            let* _ := execute (fun t =>
              (set_fires t (update_where (is_fire schedule (fire_due_at row))
                              (lease_fire next_attempt owner until now_millis)
                              (schedule_fires t)), tt)) in
            let* _ := commit_transaction in
            sql_ret (Some (mkFireDelivery (mkFireLease schedule (fire_due_at row) owner)
              (u32_or_max next_attempt) (schedule_max_attempts policy)))
      end
  end.

Definition reserve_schedule_fire (self : DurableStore) (schedule : string)
    (policy : SchedulePolicy) (owner : string) (now_millis : Z) : Tx (option FireDelivery) :=
  let* _ := sql_lift (validate_instant policy now_millis) in
  let* _ := sql_lift (validate_identity schedule MAX_RESOURCE_NAME_BYTES) in
  let* _ := lock self in
  in_transaction (
    reserve_fire_scan (Z.to_nat (Z.min (max_retained_fires policy) MAX_RESERVATION_SCAN))
      schedule policy owner now_millis).

Definition retry_fire (visible_at now_millis : Z) (r : FireRow) : FireRow :=
  mkFireRow (fire_schedule r) (fire_due_at r) (fire_status r) (fire_attempts r) visible_at
    None None now_millis.

Definition fail_schedule_fire (self : DurableStore) (lease : FireLease) (policy : SchedulePolicy)
    (now_millis : Z) : Tx JobDisposition :=
  let* _ := sql_lift (validate_instant policy now_millis) in
  let* _ := lock self in
  in_transaction (
    let* found := query (fun t => head (where_ (owned_fire lease) (schedule_fires t))) in
    match found with
    | None =>
        let* _ := commit_transaction in
        sql_ret Lost
    | Some row =>
        let same := is_fire (lease_schedule lease) (lease_due_at_millis lease) in
        let* disposition :=
          (if schedule_max_attempts policy <=? fire_attempts row then
             let* _ := execute (fun t =>
               (set_fires t (update_where same (close_fire 2 now_millis) (schedule_fires t)),
                tt)) in
             sql_ret DeadLettered
           else
             let* visible_at := sql_lift (checked_deadline now_millis
               (backoff_for (schedule_backoff policy) (schedule_max_backoff policy)
                  (fire_attempts row))) in
             let* _ := execute (fun t =>
               (set_fires t (update_where same (retry_fire visible_at now_millis)
                               (schedule_fires t)), tt)) in
             sql_ret (Retried visible_at)) in
        let* _ := commit_transaction in
        sql_ret disposition
    end).

Definition schedule_stats (self : DurableStore) (schedule : string) : Tx (Z * Z * Z) :=
  let* _ := sql_lift (validate_identity schedule MAX_RESOURCE_NAME_BYTES) in
  let* _ := lock self in
  let with_status status t :=
    count_where (fun r => fire_in schedule r && (fire_status r =? status)) (schedule_fires t) in
  let* stats := autocommit map_database (fun t =>
    Some (t, (with_status 0 t, with_status 1 t, with_status 2 t))) in
  sql_ret (usize_of stats.1.1, usize_of stats.1.2, usize_of stats.2).

(** ** Object listings *)

(** SQLite's [substr(text, 1, n)]: the first [n] characters, a character being
    a byte and the continuation bytes after it. *)
Fixpoint sql_substr (text : bytes) (n : nat) : bytes :=
  match text with
  | [] => []
  | b :: text' =>
      if ((0x80 <=? byte_val b) && (byte_val b <? 0xC0))%N then b :: sql_substr text' n
      else match n with O => [] | S n' => b :: sql_substr text' n' end
  end.

(** [chars().count()]. *)
Definition chars_count (text : bytes) : nat :=
  length (List.filter (fun b => negb ((0x80 <=? byte_val b) && (byte_val b <? 0xC0))%N) text).

Definition key_at_least (prefix key : string) : bool :=
  match cmp prefix key with Gt => false | _ => true end.

Definition listed (bucket prefix : string) (r : ObjectRow) : bool :=
  in_bucket bucket r && key_at_least prefix (object_key r)
  && bool_decide (sql_substr (bytes_of (object_key r)) (chars_count (bytes_of prefix))
                  = bytes_of prefix).

(** [ORDER BY key ASC]: keys are compared byte by byte. *)
Definition by_key : relation ObjectRow := fun a b => cmp (object_key a) (object_key b) <> Gt.
#[global] Instance by_key_dec : RelDecision by_key.
Proof. intros a b. unfold by_key. apply _. Defined.

Definition object_entry (r : ObjectRow) : ObjectEntry :=
  mkObjectEntry (object_key r) (usize_of (object_size r)) (object_updated_at r).

Definition object_keys (self : DurableStore) (bucket prefix : string) (limit_ : Z)
  : Tx (list ObjectEntry) :=
  let* _ := sql_lift (validate_identity bucket MAX_RESOURCE_NAME_BYTES) in
  if (max_key_bytes (limits self) <? str_len prefix) || contains_nul prefix then
    sql_err (limit "durable object prefix is invalid")
  else if (limit_ =? 0) || (MAX_OBJECT_LIST_KEYS <? limit_) then
    sql_err (limit "durable object listing limit is outside its bound")
  else
    let* _ := lock self in
    autocommit map_database (fun t =>
      Some (t, map object_entry
                 (take (Z.to_nat limit_)
                    (merge_sort by_key (where_ (listed bucket prefix) (objects t)))))).
End Operations.
