(* ===== verification/Replay.v ===== *)
(** * Replay and idempotency records

    Models the retained outcomes of [krit-state/src/lib.rs]: [replay_decision],
    [complete_replay] and [abort_replay] for the external calls of a program,
    the same three for the idempotency keys of webhooks, and the retention
    bounds both tables are kept within. *)

From S2P Require Import Prelude Sql Store.

Inductive ReplayKind : Type := Http | Ai.

#[export] Instance ReplayKind_eq_dec : EqDecision ReplayKind.
Proof. solve_decision. Defined.

Definition as_i64 (kind : ReplayKind) : Z := match kind with Http => 1 | Ai => 2 end.

Record ReplayLease : Type := mkReplayLease {
  rl_artifact : string;
  rl_kind : ReplayKind;
  rl_operation : string;
  rl_input_digest : string;
  rl_owner : string;
}.

Inductive ReplayDecision : Type :=
| Execute (lease : ReplayLease)
| Replay (result : string)
| Conflict
| InProgress.

Record ReplayRequest : Type := mkReplayRequest {
  artifact : string;
  kind : ReplayKind;
  operation : string;
  input_digest : string;
  owner : string;
  now_millis : Z;
}.

Record IdempotencyLease : Type := mkIdempotencyLease {
  il_artifact : string;
  il_key : string;
  il_request_digest : string;
  il_owner : string;
}.

Inductive IdempotencyDecision : Type :=
| IdempotencyExecute (lease : IdempotencyLease)
| IdempotencyReplay (response : string)
| IdempotencyConflict
| IdempotencyInProgress.

(** ** The two tables

    The code writes each statement twice, once per table.  Here a statement is
    written once over the rows of either. *)

Section Rows.
Context {K : Type} `{EqDecision K}.

Definition at_key (key : K) (r : KeptRow K) : bool := bool_decide (kept_key r = key).

(** [WHERE <key> AND <digest> AND status = 0 AND owner = ?]. *)
Definition leased_by (key : K) (digest owner : string) (r : KeptRow K) : bool :=
  at_key key r && bool_decide (kept_digest r = digest) && (kept_status r =? 0)
  && bool_decide (kept_owner r = Some owner).

(** [(status = 1 AND expires_at <= ?1) OR (status = 0 AND lease_until <= ?1)]. *)
Definition outdated (now_millis : Z) (r : KeptRow K) : bool :=
  ((kept_status r =? 1)
   && match kept_expires_at r with Some at_ => at_ <=? now_millis | None => false end)
  || ((kept_status r =? 0)
      && match kept_lease_until r with Some until => until <=? now_millis | None => false end).

Definition touch (sequence : Z) (r : KeptRow K) : KeptRow K :=
  mkKeptRow (kept_key r) (kept_digest r) (kept_status r) (kept_owner r) (kept_lease_until r)
    (kept_result r) (kept_expires_at r) sequence (kept_size r).

(** [SET owner, lease_until, result = NULL, expires_at = NULL, size_bytes = 0]. *)
Definition take_over (owner : string) (until : Z) (r : KeptRow K) : KeptRow K :=
  mkKeptRow (kept_key r) (kept_digest r) (kept_status r) (Some owner) (Some until)
    None None (kept_last_used r) 0.

(** [VALUES(<key>, digest, 0, owner, until, NULL, NULL, sequence, 0)]. *)
Definition fresh_lease (key : K) (digest owner : string) (until sequence : Z) : KeptRow K :=
  mkKeptRow key digest 0 (Some owner) (Some until) None None sequence 0.

(** [SET status = 1, owner = NULL, lease_until = NULL, result, expires_at, ..]. *)
Definition close_with (result : string) (expires_at sequence : Z) (r : KeptRow K) : KeptRow K :=
  mkKeptRow (kept_key r) (kept_digest r) 1 None None (Some result) (Some expires_at) sequence
    (str_len result).

Definition is_complete (r : KeptRow K) : bool := kept_status r =? 1.

(** The row [ORDER BY last_used ASC LIMIT 1] names, and its removal: its rowid
    names the one row with its primary key. *)
Definition least_used (rows : list (KeptRow K)) : option (KeptRow K) :=
  head (order_asc kept_last_used (where_ is_complete rows)).

Definition evict_least_used (rows : list (KeptRow K)) : list (KeptRow K) * Z :=
  match least_used rows with
  | Some victim =>
      (delete_where (at_key (kept_key victim)) rows,
       count_where (at_key (kept_key victim)) rows)
  | None => (rows, 0)
  end.

(** [entries as usize <= policy.max_entries && bytes as usize <= policy.max_bytes]. *)
Definition within_policy (policy : RetentionPolicy) (entries bytes : Z) : bool :=
  (entries `mod` 2 ^ 64 <=? max_entries policy) && (bytes `mod` 2 ^ 64 <=? max_bytes policy).
End Rows.

Section Operations.
Context `{Faults}.

Abbreviation Tx A := (Sql Tables StateError A).

(** ** Retention *)

Section Table.
Context {K : Type} `{EqDecision K}.
Context (table : Tables -> list (KeptRow K)) (set_table : Tables -> list (KeptRow K) -> Tables).

(** [cleanup_replay] and [cleanup_idempotency]. *)
Definition cleanup (now_millis : Z) : Tx unit :=
  execute (fun t => (set_table t (delete_where (outdated now_millis) (table t)), tt)).

(** The loop of [enforce_table_limits]: every round but the last evicts a row,
    so one round more than the table has rows is enough.  [out_of_rounds] is
    what a loop that needed more would give. *)
Definition out_of_rounds : StateError := database "retention cleanup did not end".

Fixpoint enforce_rounds (rounds : nat) (policy : RetentionPolicy) : Tx unit :=
  match rounds with
  | O => sql_err out_of_rounds
  | S rounds' =>
      let* (entries, bytes) := statement map_database
        (count_and_sum table is_complete kept_size) in
      if within_policy policy entries bytes then sql_ret tt
      else
        let* evicted := execute (fun t =>
          let '(rows, evicted) := evict_least_used (table t) in (set_table t rows, evicted)) in
        if negb (evicted =? 1) then
          sql_err (database "durable retention cleanup could not evict a record")
        else enforce_rounds rounds' policy
  end.

Definition enforce_table_limits (policy : RetentionPolicy) : Tx unit :=
  fun s => enforce_rounds (S (length (table (working s)))) policy s.

(** What the row found for a key decides. *)
Inductive Decided : Type :=
| DExecute
| DReplay (result : option string)
| DConflict
| DInProgress.

Definition find_kept (key : K) (t : Tables) : option (KeptRow K) :=
  head (where_ (at_key key) (table t)).

Definition decide_kept (key : K) (digest owner : string) (now_millis : Z)
    (policy : RetentionPolicy) : Tx Decided :=
  let* _ := cleanup now_millis in
  let* found := query (find_kept key) in
  match found with
  | Some row =>
      if negb (bool_decide (kept_digest row = digest)) then
        let* _ := commit_transaction in
        sql_ret DConflict
      else if kept_status row =? 1 then
        let* sequence := next_sequence in
        let* _ := execute (fun t =>
          (set_table t (update_where (at_key key) (touch sequence) (table t)), tt)) in
        let* _ := commit_transaction in
        sql_ret (DReplay (kept_result row))
      else if match kept_lease_until row with
              | Some lease => now_millis <? lease
              | None => false
              end
      then
        let* _ := commit_transaction in
        sql_ret DInProgress
      else
        let* until := sql_lift (checked_deadline now_millis (retention_lease policy)) in
        let* _ := execute (fun t =>
          (set_table t (update_where (at_key key) (take_over owner until) (table t)), tt)) in
        let* _ := commit_transaction in
        sql_ret DExecute
  | None =>
      let* sequence := next_sequence in
      let* until := sql_lift (checked_deadline now_millis (retention_lease policy)) in
      let* _ := execute (fun t =>
        (set_table t (table t ++ [fresh_lease key digest owner until sequence]), tt)) in
      let* _ := commit_transaction in
      sql_ret DExecute
  end.

Definition complete_kept (key : K) (digest owner result : string) (now_millis : Z)
    (policy : RetentionPolicy) (stale : StateError) : Tx unit :=
  let* sequence := next_sequence in
  let* expires_at := sql_lift (checked_deadline now_millis (ttl policy)) in
  let* changed := execute (fun t =>
    (set_table t (update_where (leased_by key digest owner)
                    (close_with result expires_at sequence) (table t)),
     count_where (leased_by key digest owner) (table t))) in
  if negb (changed =? 1) then sql_err stale
  else
    let* _ := enforce_table_limits policy in
    commit_transaction.

Definition abort_kept (key : K) (digest owner : string) : Tx unit :=
  autocommit map_database (fun t =>
    Some (set_table t (delete_where (leased_by key digest owner) (table t)), tt)).

Definition kept_counts : Tx (Z * Z) :=
  let* (entries, bytes) := autocommit map_database (count_and_sum table is_complete kept_size) in
  sql_ret (entries `mod` 2 ^ 64, bytes `mod` 2 ^ 64).
End Table.

(** ** Replay *)

Definition request_key (request : ReplayRequest) : ReplayKey :=
  (artifact request, as_i64 (kind request), operation request).

Definition replay_decision (self : DurableStore) (request : ReplayRequest)
    (policy : RetentionPolicy) : Tx ReplayDecision :=
  let* _ := sql_lift (retention_validate policy (limits self)) in
  let* _ := sql_lift (validate_identity (operation request) (max_key_bytes (limits self))) in
  let* _ := sql_lift (validate_digest (artifact request)) in
  let* _ := sql_lift (validate_digest (input_digest request)) in
  let* _ := sql_lift (validate_owner (owner request)) in
  let* _ := lock self in
  in_transaction (
    let* decided := decide_kept replay_table set_replay (request_key request)
      (input_digest request) (owner request) (now_millis request) policy in
    match decided with
    | DExecute =>
        sql_ret (Execute (mkReplayLease (artifact request) (kind request) (operation request)
                            (input_digest request) (owner request)))
    | DReplay result =>
        sql_lift (ok_or (Replay <$> result) (database "completed replay record has no result"))
    | DConflict => sql_ret Conflict
    | DInProgress => sql_ret InProgress
    end).

Definition lease_key (lease : ReplayLease) : ReplayKey :=
  (rl_artifact lease, as_i64 (rl_kind lease), rl_operation lease).

Definition complete_replay (self : DurableStore) (lease : ReplayLease) (result : string)
    (now_millis : Z) (policy : RetentionPolicy) : Tx unit :=
  let* _ := sql_lift (retention_validate policy (limits self)) in
  if (MAX_REPLAY_RESULT_BYTES <? str_len result) || (max_bytes policy <? str_len result) then
    sql_err (limit "replay result exceeds the store byte limit")
  else
    let* _ := lock self in
    in_transaction (complete_kept replay_table set_replay (lease_key lease)
      (rl_input_digest lease) (rl_owner lease) result now_millis policy
      (replay_error "replay lease is stale or not owned")).

Definition abort_replay (self : DurableStore) (lease : ReplayLease) : Tx unit :=
  let* _ := lock self in
  abort_kept replay_table set_replay (lease_key lease) (rl_input_digest lease) (rl_owner lease).

Definition replay_counts (self : DurableStore) : Tx (Z * Z) :=
  let* _ := lock self in
  kept_counts replay_table.

(** ** Idempotency *)

Definition idempotency_decision (self : DurableStore)
    (artifact key request_digest owner : string) (now_millis : Z) (policy : RetentionPolicy)
  : Tx IdempotencyDecision :=
  let* _ := sql_lift (retention_validate policy (limits self)) in
  let* _ := sql_lift (validate_identity key (max_key_bytes (limits self))) in
  let* _ := sql_lift (validate_digest artifact) in
  let* _ := sql_lift (validate_digest request_digest) in
  let* _ := sql_lift (validate_owner owner) in
  let* _ := lock self in
  in_transaction (
    let* decided := decide_kept idempotency_table set_idempotency (artifact, key)
      request_digest owner now_millis policy in
    match decided with
    | DExecute =>
        sql_ret (IdempotencyExecute (mkIdempotencyLease artifact key request_digest owner))
    | DReplay response =>
        sql_lift (ok_or (IdempotencyReplay <$> response)
                    (database "completed idempotency record has no response"))
    | DConflict => sql_ret IdempotencyConflict
    | DInProgress => sql_ret IdempotencyInProgress
    end).

Definition complete_idempotency (self : DurableStore) (lease : IdempotencyLease)
    (response : string) (now_millis : Z) (policy : RetentionPolicy) : Tx unit :=
  let* _ := sql_lift (retention_validate policy (limits self)) in
  if max_bytes policy <? str_len response then
    sql_err (limit "idempotency response exceeds the retention byte limit")
  else
    let* _ := lock self in
    in_transaction (complete_kept idempotency_table set_idempotency
      (il_artifact lease, il_key lease) (il_request_digest lease) (il_owner lease)
      response now_millis policy (replay_error "idempotency lease is stale or not owned")).

Definition abort_idempotency (self : DurableStore) (lease : IdempotencyLease) : Tx unit :=
  let* _ := lock self in
  abort_kept idempotency_table set_idempotency (il_artifact lease, il_key lease)
    (il_request_digest lease) (il_owner lease).

Definition idempotency_counts (self : DurableStore) : Tx (Z * Z) :=
  let* _ := lock self in
  kept_counts idempotency_table.
End Operations.
