(* ===== verification/StoreFacts.v ===== *)
(** * What the durable store guarantees: well-formed tables and the commit

    The invariant of the tables ([store_ok]), the budgets of a configuration
    ([within]), that a commit keeps both whatever fails, and what a commit
    does: all of its mutations or none, guarded by the revision. *)

From S2P Require Import Prelude BTree Sql Store Jobs Replay.

(** ** The invariant *)

Definition job_ok (r : JobRow) : Prop :=
  job_size r = str_len (job_body r) /\ 0 <= job_attempts r
  /\ is_some (job_owner r) = is_some (job_lease_until r)
  /\ (is_some (job_owner r) = true -> 1 <= job_attempts r).

(** Identities are unique, and a sequence number names one job for its whole
    life, queued or dead. *)
Definition jobs_ok (sequence : Z) (jobs : list JobRow) (dead : list DeadRow) : Prop :=
  NoDup (map job_row_id jobs) /\ NoDup (map dead_id dead)
  /\ NoDup (map job_sequence jobs ++ map dead_sequence dead)
  /\ Forall (fun n => 0 < n <= sequence) (map job_sequence jobs ++ map dead_sequence dead)
  /\ Forall job_ok jobs.

Definition fire_key (r : FireRow) : string * Z := (fire_schedule r, fire_due_at r).

(** A closed fire is never leased. *)
Definition fire_ok (r : FireRow) : Prop :=
  (fire_status r = 0 \/ (fire_status r = 1 \/ fire_status r = 2) /\ fire_owner r = None)
  /\ 0 <= fire_attempts r /\ is_some (fire_owner r) = is_some (fire_lease_until r).

Definition fires_ok (fires : list FireRow) : Prop :=
  NoDup (map fire_key fires) /\ Forall fire_ok fires.

Definition object_id (r : ObjectRow) : string * string := (object_bucket r, object_key r).

Definition objects_ok (rows : list ObjectRow) : Prop :=
  NoDup (map object_id rows) /\ Forall (fun r => object_size r = str_len (object_value r)) rows.

(** A record is a lease in progress or a retained result. *)
Definition kept_ok {K} (r : KeptRow K) : Prop :=
  (kept_status r = 0 /\ kept_size r = 0 /\ kept_result r = None /\ kept_expires_at r = None
   /\ is_Some (kept_owner r) /\ is_Some (kept_lease_until r))
  \/ (kept_status r = 1 /\ kept_owner r = None /\ kept_lease_until r = None
      /\ is_Some (kept_expires_at r)
      /\ exists result, kept_result r = Some result /\ kept_size r = str_len result).

Definition kept_rows_ok {K} (sequence : Z) (rows : list (KeptRow K)) : Prop :=
  NoDup (map kept_key rows) /\ NoDup (map kept_last_used rows)
  /\ Forall (fun r => kept_ok r /\ kept_last_used r <= sequence) rows.

Record store_ok (t : Tables) : Prop := mk_store_ok {
  revision_ok : 0 <= revision t <= i64_max;
  sequence_ok : 0 <= sequence t <= i64_max;
  store_jobs_ok : jobs_ok (sequence t) (queue_jobs t) (queue_dead t);
  store_fires_ok : fires_ok (schedule_fires t);
  store_objects_ok : objects_ok (objects t);
  store_replay_ok : kept_rows_ok (sequence t) (replay_table t);
  store_idempotency_ok : kept_rows_ok (sequence t) (idempotency_table t);
}.

Lemma empty_store_ok : store_ok empty_tables.
Proof.
  split; simpl; try (repeat split; (constructor || done || (unfold i64_max; lia))).
Qed.

Lemma str_len_nonneg s : 0 <= str_len s.
Proof. unfold str_len. lia. Qed.
#[export] Hint Resolve str_len_nonneg : krit.

(** A later sequence number only makes room. *)
Lemma jobs_ok_mono n m jobs dead : n <= m -> jobs_ok n jobs dead -> jobs_ok m jobs dead.
Proof.
  intros Hnm (? & ? & ? & Hb & ?). repeat split; try done. eapply Forall_impl; [done|]. simpl. lia.
Qed.

Lemma kept_rows_ok_mono {K} n m (rows : list (KeptRow K)) :
  n <= m -> kept_rows_ok n rows -> kept_rows_ok m rows.
Proof.
  intros Hnm (? & ? & Hb). repeat split; try done. eapply Forall_impl; [done|]. simpl. intuition lia.
Qed.

Lemma set_sequence_ok t n : sequence t <= n <= i64_max -> store_ok t -> store_ok (set_sequence t n).
Proof.
  intros Hn []. split; simpl; try done; try lia;
    ((eapply jobs_ok_mono; [|done]) || (eapply kept_rows_ok_mono; [|done])); lia.
Qed.

(** ** Queue rows *)

Lemma jobs_ok_publish n jobs dead queue id body now :
  jobs_ok n jobs dead -> 0 <= n -> existsb (has_id id) jobs = false ->
  jobs_ok (n + 1) (jobs ++ [mkJobRow id queue (n + 1) body 0 now None None (str_len body) now]) dead.
Proof.
  intros (Hids & Hdids & Hseq & Hb & Hj) Hn Hfresh.
  apply existsb_False in Hfresh. rewrite List.Forall_forall in Hfresh.
  unfold jobs_ok. rewrite !map_app. simpl.
  assert ((map job_sequence jobs ++ [n + 1]) ++ map dead_sequence dead
          ≡ₚ (n + 1) :: map job_sequence jobs ++ map dead_sequence dead) as Hp
    by (rewrite <- app_assoc; simpl; apply Permutation_sym, Permutation_middle).
  repeat split.
  - apply NoDup_app. repeat split; [done| |apply NoDup_singleton].
    intros x Hx Hx1. apply list_elem_of_In, in_map_iff in Hx as (r & <- & Hr).
    apply list_elem_of_singleton in Hx1. apply Hfresh in Hr.
    unfold has_id in Hr. by apply bool_decide_eq_false in Hr.
  - done.
  - rewrite Hp. apply NoDup_cons. split; [|done]. intros Hin.
    rewrite Forall_forall in Hb. specialize (Hb _ Hin). lia.
  - rewrite Hp. apply Forall_cons. split; [lia|]. eapply Forall_impl; [done|]. simpl. lia.
  - apply Forall_app. split; [done|]. apply Forall_singleton. by repeat split.
Qed.

Lemma jobs_ok_delete n jobs dead p : jobs_ok n jobs dead -> jobs_ok n (delete_where p jobs) dead.
Proof.
  intros (Hids & Hdids & Hseq & Hb & Hj).
  assert (map job_sequence (delete_where p jobs) ++ map dead_sequence dead
          `sublist_of` map job_sequence jobs ++ map dead_sequence dead) as Hs
    by (apply sublist_app; [apply map_delete_sublist | done]).
  repeat split; [by apply NoDup_map_delete | done | by eapply sublist_NoDup | |].
  - rewrite Forall_app in *. destruct Hb as [Hb ?]. split; [|done].
    rewrite Forall_map in *. by apply Forall_delete_where.
  - by apply Forall_delete_where.
Qed.

Lemma jobs_ok_update n jobs dead p f :
  (forall r, job_row_id (f r) = job_row_id r /\ job_sequence (f r) = job_sequence r) ->
  (forall r, In r jobs -> p r = true -> job_ok r -> job_ok (f r)) ->
  jobs_ok n jobs dead -> jobs_ok n (update_where p f jobs) dead.
Proof.
  intros Hkeep Hok (Hids & Hdids & Hseq & Hb & Hj). unfold jobs_ok.
  rewrite !update_where_map by (intros; apply Hkeep). repeat split; try done.
  apply List.Forall_forall. intros r' Hr'. apply update_where_In in Hr' as (r & Hr & ->).
  rewrite List.Forall_forall in Hj. destruct (p r) eqn:E; auto.
Qed.

(** ** Objects *)

Lemma is_object_spec bucket key r : is_object bucket key r = true <-> object_id r = (bucket, key).
Proof. unfold is_object, object_id. rewrite andb_true_iff, !bool_decide_eq_true. naive_solver. Qed.

Lemma find_object_Some t bucket key r :
  find_object t bucket key = Some r -> In r (objects t) /\ object_id r = (bucket, key).
Proof. intros [? ?%is_object_spec]%head_where. done. Qed.

Lemma find_object_None t bucket key :
  find_object t bucket key = None -> forall r, In r (objects t) -> object_id r <> (bucket, key).
Proof.
  intros E r Hr Hid. pose proof (proj1 (head_where_None _ _) E r Hr) as F.
  apply is_object_spec in Hid. congruence.
Qed.

Lemma upsert_object_ok bucket key value now t :
  objects_ok (objects t) -> objects_ok (objects (upsert_object bucket key value now t)).
Proof.
  intros [Hnd Hsz]. unfold upsert_object. simpl.
  destruct (find_object t bucket key) as [r|] eqn:F; split.
  - by rewrite update_where_map.
  - apply List.Forall_forall. intros r' (r0 & Hr & ->)%update_where_In.
    rewrite List.Forall_forall in Hsz. destruct (is_object _ _ _); auto.
  - rewrite map_app. apply NoDup_app. repeat split; [done| |apply NoDup_singleton].
    intros x Hx%list_elem_of_In Hx1. apply list_elem_of_singleton in Hx1 as ->.
    apply in_map_iff in Hx as (r & Hid & Hr). by eapply find_object_None.
  - apply Forall_app. split; [done|]. by apply Forall_singleton.
Qed.

Lemma objects_ok_delete rows p : objects_ok rows -> objects_ok (delete_where p rows).
Proof.
  intros [Hnd Hsz]. split; [by apply NoDup_map_delete|].
  by apply Forall_delete_where.
Qed.

(** ** Budgets of a configuration *)

Definition job_count (t : Tables) (queue : string) : Z :=
  Z.of_nat (length (where_ (in_queue queue) (queue_jobs t))).
Definition job_bytes (t : Tables) (queue : string) : Z :=
  sum_of job_size (where_ (in_queue queue) (queue_jobs t)).
Definition object_count (t : Tables) (bucket : string) : Z :=
  Z.of_nat (length (where_ (in_bucket bucket) (objects t))).
Definition object_bytes (t : Tables) (bucket : string) : Z :=
  sum_of object_size (where_ (in_bucket bucket) (objects t)).

Definition dead_count (t : Tables) (queue : string) : Z :=
  count_where (fun r => bool_decide (dead_queue r = queue)) (queue_dead t).

(** The policies a host runs its store with. *)
Record Config : Type := mkConfig {
  config_queues : btree string QueuePolicy;
  config_buckets : btree string BucketPolicy;
  config_replay : RetentionPolicy;
  config_idempotency : RetentionPolicy;
}.

Definition queue_within (policy : QueuePolicy) (queue : string) (t : Tables) : Prop :=
  job_count t queue <= max_depth policy /\ job_bytes t queue <= max_queue_bytes policy
  /\ dead_count t queue <= dead_letter_max_entries policy.

Definition bucket_within (policy : BucketPolicy) (bucket : string) (t : Tables) : Prop :=
  object_count t bucket <= max_objects policy /\ object_bytes t bucket <= max_bucket_bytes policy.

Definition completed {K} (r : KeptRow K) : bool := kept_status r =? 1.

Definition kept_within {K} (policy : RetentionPolicy) (rows : list (KeptRow K)) : Prop :=
  Z.of_nat (length (where_ completed rows)) <= max_entries policy
  /\ sum_of kept_size (where_ completed rows) <= max_bytes policy.

(** Every queue, bucket and retained table is within its policy. *)
Record within (cfg : Config) (t : Tables) : Prop := mk_within {
  queues_within : forall queue policy,
    bt_get queue (config_queues cfg) = Some policy -> queue_within policy queue t;
  buckets_within : forall bucket policy,
    bt_get bucket (config_buckets cfg) = Some policy -> bucket_within policy bucket t;
  replay_within : kept_within (config_replay cfg) (replay_table t);
  idempotency_within : kept_within (config_idempotency cfg) (idempotency_table t);
}.

Definition inv (cfg : Config) (t : Tables) : Prop := store_ok t /\ within cfg t.

Lemma job_sizes_nonneg t r : store_ok t -> In r (queue_jobs t) -> 0 <= job_size r.
Proof.
  intros [_ _ (_ & _ & _ & _ & Hj) _ _ _ _] Hr. rewrite List.Forall_forall in Hj.
  destruct (Hj r Hr) as [-> _]. auto with krit.
Qed.

Lemma object_sizes_nonneg t r : store_ok t -> In r (objects t) -> 0 <= object_size r.
Proof.
  intros [_ _ _ _ [_ Hs] _ _] Hr. rewrite List.Forall_forall in Hs. rewrite Hs by done.
  auto with krit.
Qed.

(** ** Statements keep the invariant *)

Lemma inv_kv cfg t x : inv cfg t -> inv cfg (set_kv t x).
Proof. by intros [[] []]. Qed.
Lemma inv_checkpoints cfg t x : inv cfg t -> inv cfg (set_checkpoints t x).
Proof. by intros [[] []]. Qed.
Lemma inv_cursors cfg t x : inv cfg t -> inv cfg (set_cursors t x).
Proof. by intros [[] []]. Qed.
Lemma inv_revision cfg t x : 0 <= x <= i64_max -> inv cfg t -> inv cfg (set_revision t x).
Proof. by intros ? [[] []]. Qed.
Lemma inv_sequence cfg t n : sequence t <= n <= i64_max -> inv cfg t -> inv cfg (set_sequence t n).
Proof. intros Hn [Hok Hw]. split; [by apply set_sequence_ok | by destruct Hw]. Qed.

Lemma inv_delete_jobs cfg t p : inv cfg t -> inv cfg (set_jobs t (delete_where p (queue_jobs t))).
Proof.
  intros [Hok [Hq Hb Hr Hi]]. split.
  - pose proof Hok as []. split; simpl; try done. by apply jobs_ok_delete.
  - split; [|done..]. intros queue policy G. destruct (Hq queue policy G) as (Hc & Hs & Hd).
    repeat split; [| |done]; unfold job_count, job_bytes in *; simpl.
    + pose proof (delete_where_count_le p (in_queue queue) (queue_jobs t)).
      unfold count_where in *. lia.
    + pose proof (delete_where_sum_le p (in_queue queue) job_size (queue_jobs t)
        (fun r => job_sizes_nonneg t r Hok)). lia.
Qed.

Lemma inv_update_jobs cfg t p f :
  (forall r, job_row_id (f r) = job_row_id r /\ job_sequence (f r) = job_sequence r
             /\ job_queue (f r) = job_queue r /\ job_size (f r) = job_size r) ->
  (forall r, In r (queue_jobs t) -> p r = true -> job_ok r -> job_ok (f r)) ->
  inv cfg t -> inv cfg (set_jobs t (update_where p f (queue_jobs t))).
Proof.
  intros Hf Hj [Hok [Hq Hb Hr Hi]]. split.
  - pose proof Hok as []. split; simpl; try done. apply jobs_ok_update; [|done..].
    intros r. by destruct (Hf r) as (? & ? & _).
  - assert (forall queue, where_ (in_queue queue) (update_where p f (queue_jobs t))
                          = update_where p f (where_ (in_queue queue) (queue_jobs t))) as Hwh.
    { intros queue. apply update_where_where. intros r _. unfold in_queue.
      by destruct (Hf r) as (_ & _ & -> & _). }
    split; [|done..]. intros queue policy G. destruct (Hq queue policy G) as (Hc & Hs & Hd).
    repeat split; [| |done]; unfold job_count, job_bytes in *; simpl; rewrite Hwh.
    + by rewrite update_where_length.
    + rewrite update_where_sum; [done|]. intros r _. apply Hf.
Qed.

Lemma inv_publish cfg t queue policy id body now :
  bt_get queue (config_queues cfg) = Some policy ->
  job_count t queue < max_depth policy ->
  job_bytes t queue + str_len body <= max_queue_bytes policy ->
  existsb (has_id id) (queue_jobs t) = false -> sequence t + 1 <= i64_max ->
  inv cfg t ->
  let t' := set_sequence t (sequence t + 1) in
  inv cfg (set_jobs t' (queue_jobs t
    ++ [mkJobRow id queue (sequence t + 1) body 0 now None None (str_len body) now])).
Proof.
  intros G Hc Hs Hfresh Hmax Hinv. pose proof (inv_sequence cfg t (sequence t + 1)) as [Hok' Hw'];
    [lia|done|]. destruct Hinv as [Hok Hw]. split.
  - destruct Hok', Hok. split; simpl; try done. apply jobs_ok_publish; [done|lia|done].
  - destruct Hw' as [Hq Hb Hr Hi]. split; [|done..]. intros queue' policy' G'.
    destruct (Hq queue' policy' G') as (Hc' & Hs' & Hd').
    repeat split; [| |done]; unfold job_count, job_bytes in *; simpl in *;
      rewrite where_app; simpl; unfold in_queue at 2; simpl; case_bool_decide as Heq; subst; simplify_eq;
      rewrite ?app_nil_r; try done.
    + rewrite length_app. simpl. lia.
    + rewrite sum_of_app. simpl. lia.
Qed.

Lemma inv_set_objects cfg t rows :
  objects_ok rows ->
  (forall bucket policy, bt_get bucket (config_buckets cfg) = Some policy ->
     bucket_within policy bucket t -> bucket_within policy bucket (set_objects t rows)) ->
  inv cfg t -> inv cfg (set_objects t rows).
Proof.
  intros Hrows Hbk [[] [Hq Hb Hr Hi]]. split; [by split|]. split; try done. eauto.
Qed.

Lemma inv_delete_objects cfg t p :
  inv cfg t -> inv cfg (set_objects t (delete_where p (objects t))).
Proof.
  intros Hinv. pose proof Hinv as [Hok _]. apply inv_set_objects; [|clear Hinv|done].
  - by apply objects_ok_delete, store_objects_ok.
  - intros bucket policy _ [Hc Hs]. split; unfold object_count, object_bytes in *; simpl.
    + pose proof (delete_where_count_le p (in_bucket bucket) (objects t)).
      unfold count_where in *. lia.
    + pose proof (delete_where_sum_le p (in_bucket bucket) object_size (objects t)
        (fun r => object_sizes_nonneg t r Hok)). lia.
Qed.

Lemma in_bucket_sym bucket r : in_bucket bucket r = bool_decide (bucket = object_bucket r).
Proof. by apply bool_decide_ext. Qed.

(** What an upsert does to the count and the bytes of a bucket. *)
Lemma upsert_object_counts t bucket key value now bucket' :
  store_ok t ->
  let t' := upsert_object bucket key value now t in
  object_count t' bucket' = object_count t bucket'
    + (if bool_decide (bucket' = bucket) && negb (is_some (find_object t bucket key)) then 1 else 0)
  /\ object_bytes t' bucket' = object_bytes t bucket'
    + (if bool_decide (bucket' = bucket)
       then str_len value - default 0 (object_size <$> find_object t bucket key) else 0).
Proof.
  intros [_ _ _ _ [Hnd _] _ _]. simpl. unfold object_count, object_bytes, upsert_object. simpl.
  destruct (find_object t bucket key) as [r|] eqn:F.
  - apply find_object_Some in F as [Hr Hid].
    assert (forall x, is_object bucket key x = true <-> object_id x = object_id r) as Hp
      by (intros x; rewrite Hid; apply is_object_spec).
    rewrite (update_where_perm object_id _ r Hp) by done.
    rewrite (delete_where_perm object_id _ r Hp (objects t)) at 2 4 by done.
    simpl. rewrite andb_false_r, !in_bucket_sym. simpl. injection Hid as -> ->.
    case_bool_decide; simpl; lia.
  - rewrite !where_app, length_app, sum_of_app. simpl. rewrite andb_true_r.
    rewrite in_bucket_sym. simpl.
    case_bool_decide; simpl; lia.
Qed.

Lemma inv_put_object cfg t bucket policy key value now :
  bt_get bucket (config_buckets cfg) = Some policy ->
  (is_some (find_object t bucket key) = false -> object_count t bucket < max_objects policy) ->
  object_bytes t bucket - default 0 (object_size <$> find_object t bucket key) + str_len value
    <= max_bucket_bytes policy ->
  inv cfg t -> inv cfg (upsert_object bucket key value now t).
Proof.
  intros G Hc Hs Hinv. pose proof Hinv as [Hok _]. apply inv_set_objects; [|clear Hinv|done].
  - by apply (upsert_object_ok bucket key value now t), store_objects_ok.
  - intros bucket' policy' G' [Hc' Hs'].
    destruct (upsert_object_counts t bucket key value now bucket' Hok) as [Ec Es].
    unfold bucket_within. change (set_objects t _) with (upsert_object bucket key value now t).
    rewrite Ec, Es. case_bool_decide; simplify_eq; simpl; [|lia].
    destruct (is_some _); simpl; [|specialize (Hc eq_refl)]; lia.
Qed.

Lemma inv_set_fires cfg t fires : fires_ok fires -> inv cfg t -> inv cfg (set_fires t fires).
Proof. intros Hf [[] []]. by split. Qed.

Lemma fires_ok_update fires p f :
  (forall r, fire_key (f r) = fire_key r) ->
  (forall r, In r fires -> p r = true -> fire_ok r -> fire_ok (f r)) ->
  fires_ok fires -> fires_ok (update_where p f fires).
Proof.
  intros Hk Hf [Hnd Hok]. split; [by rewrite update_where_map|].
  apply List.Forall_forall. intros r' (r & Hr & ->)%update_where_In.
  rewrite List.Forall_forall in Hok. destruct (p r) eqn:E; auto.
Qed.

Lemma fires_ok_delete fires p : fires_ok fires -> fires_ok (delete_where p fires).
Proof. intros [Hnd Hok]. split; [by apply NoDup_map_delete | by apply Forall_delete_where]. Qed.

Lemma close_fire_ok status now r : status = 1 \/ status = 2 -> fire_ok r -> fire_ok (close_fire status now r).
Proof. intros Hs (_ & Ha & _). repeat split; simpl; auto. Qed.

(** ** A commit keeps the invariant *)

(** Steps through a computation inside a transaction, closing the failures. *)
Ltac wp_fail := intros; simpl; first [done | by split | by auto].
Ltac wp_step :=
  lazymatch goal with
  | |- wp (sql_bind _ _) _ _ => apply wp_bind
  | |- wp (sql_ret _) _ _ => apply wp_ret
  | |- wp (sql_err _) _ _ => apply wp_err
  | |- wp (sql_lift ?r) _ _ => apply wp_lift; let E := fresh "E" in destruct r eqn:E; [|wp_fail]
  | |- wp (query _) _ _ => apply wp_select; [wp_fail|]; intros ?; simpl
  | |- wp (statement _ _) _ _ => apply wp_statement; [wp_fail|]; simpl
  | |- wp (execute _) _ _ => apply wp_statement; [wp_fail|]; intros ? ? ? [= <- <-]; simpl
  | |- wp commit_transaction _ _ => apply wp_commit; [wp_fail|]; intros ?; simpl
  | |- wp (lock _) _ _ =>
      unfold lock; let P := fresh "P" in destruct (poisoned _) eqn:P; [wp_fail|]; apply wp_ret
  | |- wp (in_transaction _) (at_rest _) _ => apply wp_transaction; [wp_fail|]; intros ?
  | |- wp (if ?b then _ else _) _ _ => let E := fresh "E" in destruct b eqn:E
  end.

Section Commit.
Context `{Faults}.

Lemma count_and_sum_Some {row} (table : Tables -> list row) clause size t t' c b :
  count_and_sum table clause size t = Some (t', (c, b)) ->
  t' = t /\ c = Z.of_nat (length (where_ clause (table t))) /\ b = sum_of size (where_ clause (table t)).
Proof.
  unfold count_and_sum. destruct (i64_checked _) as [z|] eqn:E; [|done].
  apply i64_checked_Some in E as [-> _]. naive_solver.
Qed.

Lemma wp_next_sequence Q s :
  (forall e n w, faulted \/ i64_max < sequence (working s) + 1 \/ sequence (working s) + 1 < i64_min ->
     Q (Err e) (mkSession n (durable s) w)) ->
  (forall n, sequence (working s) + 1 <= i64_max ->
     Q (Ok (sequence (working s) + 1))
       (mkSession n (durable s) (set_sequence (working s) (sequence (working s) + 1)))) ->
  wp next_sequence Q s.
Proof.
  intros Herr Hok. unfold next_sequence. wp_step. apply wp_statement.
  { intros e n w [F|R]; apply Herr; [by left|]. right.
    destruct (i64_checked _) eqn:E; [done|]. apply i64_checked_None in E. lia. }
  intros n t a. destruct (i64_checked _) as [next|] eqn:E; [|done]. intros [= <- <-].
  apply i64_checked_Some in E as [-> E]. apply wp_select; [by auto|]. simpl. intros m. apply Hok. lia.
Qed.

Lemma keeps_put_object cfg policy bucket key value now :
  bt_get bucket (config_buckets cfg) = Some policy ->
  keeps (inv cfg) (put_object policy bucket key value now).
Proof.
  intros G s Hd Hw. unfold put_object. wp_step; [wp_step; wp_fail|]. do 4 wp_step.
  intros m t' [count bytes] Hcs. apply count_and_sum_Some in Hcs as (-> & -> & ->).
  wp_step; [wp_step; wp_fail|]. do 2 wp_step. wp_step; [wp_step; wp_fail|]. do 3 wp_step.
  split; [done|]. intros _.
  apply ok_or_Ok in E1. destruct (usize_checked _) as [kept|] eqn:E4; [|done].
  apply usize_checked_Some in E1 as [-> _], E4 as [-> _]. apply Z.ltb_ge in E2.
  eapply inv_put_object; [done| |unfold object_bytes|done].
  - intros Hnone. destruct (find_object _ _ _); [done|]. simpl in E0. apply Z.leb_gt in E0.
    unfold usize_of in E0. unfold object_count. lia.
  - assert (0 <= sum_of object_size (where_ (in_bucket bucket) (objects (working s)))).
    { apply sum_of_nonneg. intros r [Hr _]%where_In. destruct Hw. by eapply object_sizes_nonneg. }
    assert (0 <= default 0 (object_size <$> find_object (working s) bucket key)).
    { destruct (find_object _ _ _) as [r|] eqn:F; [|done]. apply find_object_Some in F as [Hr _].
      destruct Hw. by eapply object_sizes_nonneg. }
    unfold usize_of in *. lia.
Qed.

Lemma keeps_publish_job cfg policy queue id body now :
  bt_get queue (config_queues cfg) = Some policy ->
  keeps (inv cfg) (publish_job policy queue id body now).
Proof.
  intros G s Hd Hw. unfold publish_job. wp_step; [wp_step; wp_fail|]. do 2 wp_step.
  intros m t' [count bytes] Hcs. apply count_and_sum_Some in Hcs as (-> & -> & ->).
  wp_step; [wp_step; wp_fail|]. wp_step; [wp_step; wp_fail|]. wp_step.
  apply wp_next_sequence; [wp_fail|]. simpl. intros n Hmax. do 2 wp_step. wp_step.
  apply wp_statement; [wp_fail|]. simpl. intros k t' inserted. unfold insert_job. simpl.
  destruct (existsb _ _) eqn:Hfresh; intros [= <- <-]; [wp_fail|].
  change (negb (1 =? 1)) with false; cbv iota; wp_step. split; [done|]. intros _.
  apply Z.leb_gt in E0. destruct (usize_checked _) as [total|] eqn:E3; [|done].
  apply usize_checked_Some in E3 as [-> _]. apply Z.ltb_ge in E1. unfold usize_of in *.
  apply (inv_publish cfg (working s) queue policy id body now); try done; unfold job_count, job_bytes; lia.
Qed.

Lemma keeps_apply_mutation cfg mutation now :
  keeps (inv cfg) (apply_mutation mutation (config_queues cfg) (config_buckets cfg) now).
Proof.
  destruct mutation; simpl; intros s Hd Hw.
  - wp_step. split; [done|]. intros _. by apply inv_kv.
  - wp_step. split; [done|]. intros _. by apply inv_kv.
  - wp_step. split; [done|]. intros _. by apply inv_checkpoints.
  - do 2 wp_step. apply ok_or_Ok in E. by apply keeps_put_object.
  - wp_step; [wp_step; wp_fail|]. wp_step. split; [done|]. intros _. by apply inv_delete_objects.
  - do 2 wp_step. apply ok_or_Ok in E. by apply keeps_publish_job.
Qed.

Lemma keeps_apply_mutations cfg ms now :
  keeps (inv cfg) (apply_mutations ms (config_queues cfg) (config_buckets cfg) now).
Proof.
  induction ms as [|mutation ms IH]; simpl; eauto using keeps_apply_mutation with krit_sql.
Qed.

Lemma keeps_complete cfg completion now : keeps (inv cfg) (complete completion now).
Proof.
  destruct completion as [[lease|lease]|]; simpl; [| |auto with krit_sql]; intros s Hd Hw;
    do 2 wp_step; (wp_step; [wp_step; wp_fail|]); wp_step; (split; [done|]); intros _.
  - by apply inv_delete_jobs.
  - apply inv_set_fires; [|done]. destruct Hw as [Hok _].
    apply fires_ok_update; [done| |by apply store_fires_ok]. intros r _ _. apply close_fire_ok. auto.
Qed.

(** A plan made with the policies of a configuration. *)
Definition plan_for (cfg : Config) (plan : CommitPlan) : Prop :=
  queues plan = config_queues cfg /\ buckets plan = config_buckets cfg.

Lemma keeps_commit_body cfg plan : plan_for cfg plan -> keeps (inv cfg) (commit_body plan).
Proof.
  intros [Hq Hb]. unfold commit_body. rewrite Hq, Hb. apply keeps_bind.
  { unfold query_revision, query. eauto with krit_sql. }
  intros current. destruct (_ && _); [auto with krit_sql|].
  apply keeps_bind; [apply keeps_apply_mutations|]. intros _.
  apply keeps_bind; [apply keeps_complete|]. intros _.
  destruct (negb _); [unfold commit_transaction; auto with krit_sql|].
  intros s Hd Hw. do 6 wp_step. apply ok_or_Ok in E, E0.
  apply i64_checked_Some in E0 as [-> E0]. unfold u64_checked in E.
  destruct (_ && _) eqn:E1; [|done]. injection E as <-. bool_facts. do 2 wp_step.
  wp_step. assert (inv cfg (set_revision (working s) (current + 1))); [|done].
  apply inv_revision; [lia|done].
Qed.

Lemma stable_lock I self : stable I (lock self).
Proof. unfold lock. destruct (poisoned self); auto with krit_sql. Qed.

Lemma stable_commit_plan cfg self plan :
  plan_for cfg plan -> stable (inv cfg) (commit_plan self plan).
Proof.
  intros Hp. apply stable_bind; [auto with krit_sql|]. intros _.
  apply stable_bind; [apply stable_lock|]. intros _.
  by apply stable_transaction, keeps_commit_body.
Qed.
End Commit.

(** ** What an operation leaves alone *)

Section Frames.
Context `{Faults} (I : Tables -> Prop).

Lemma keeps_next_sequence : (forall t n, I t -> I (set_sequence t n)) -> keeps I next_sequence.
Proof.
  intros Hs. apply keeps_bind; [|intros _; apply keeps_select].
  apply keeps_statement. intros t t' a Ht. destruct (i64_checked _); [|done]. intros [= <- _]. auto.
Qed.

Lemma keeps_count_and_sum {row} (table : Tables -> list row) clause size :
  keeps I (statement map_database (count_and_sum table clause size)).
Proof.
  apply keeps_statement. intros t t' [c b] Ht (-> & _ & _)%count_and_sum_Some. done.
Qed.
End Frames.

(** Proves that a computation keeps a property none of its statements touches. *)
Ltac keeps_auto :=
  repeat match goal with
  | |- stable _ (sql_bind _ _) => apply stable_bind; [|intros ?]
  | |- stable _ (lock _) => apply stable_lock
  | |- stable _ (in_transaction _) => apply stable_transaction
  | |- stable _ (sql_lift _) => apply stable_lift
  | |- stable _ (sql_err _) => apply stable_err
  | |- stable _ (autocommit _ _) => apply stable_autocommit; intros ? ? ? ? [= <- _]; solve [auto]
  | |- keeps _ (sql_bind _ _) => apply keeps_bind; [|intros ?]
  | |- keeps _ (sql_ret _) => apply keeps_ret
  | |- keeps _ (sql_err _) => apply keeps_err
  | |- keeps _ (sql_lift _) => apply keeps_lift
  | |- keeps _ (query _) => apply keeps_select
  | |- keeps _ commit_transaction => apply keeps_commit
  | |- keeps _ next_sequence => apply keeps_next_sequence; solve [auto]
  | |- keeps _ (execute _) => apply keeps_statement; intros ? ? ? ? [= <- _]; solve [auto]
  | |- _ _ (if ?b then _ else _) => destruct b
  | |- _ _ (match ?x with _ => _ end) => destruct x
  end.

(** * A small store to run the operations on *)

Definition sample_limits : StoreLimits :=
  mkStoreLimits (from_millis 100) 16 64 256 4096 (2 * 1024 * 1024) 8 1024.
Definition sample_store : DurableStore := mkDurableStore sample_limits false.

Definition sample_queue : QueuePolicy :=
  mkQueuePolicy 4 64 128 2 (from_millis 30000) (from_millis 1000) (from_millis 8000) 2
    (from_secs 3600).
Definition sample_bucket : BucketPolicy := mkBucketPolicy 4 32 64 128.
Definition sample_retention : RetentionPolicy :=
  mkRetentionPolicy 2 64 (from_secs 60) (from_millis 5000).
Definition sample_schedule : SchedulePolicy :=
  mkSchedulePolicy (from_secs 60) 60000 3 2 (from_millis 30000) (from_millis 1000)
    (from_millis 8000) (from_secs 3600) 8.

Definition sample_cfg : Config :=
  mkConfig [("work", sample_queue)] [("files", sample_bucket)] sample_retention sample_retention.

Definition id1 : string := "0123456789abcdef".
Definition id2 : string := "fedcba9876543210".
Definition owner1 : string := "owner-number-one".
Definition owner2 : string := "owner-number-two".

Definition fresh : Session Tables := mkSession 0%nat empty_tables empty_tables.

(** Writes a key and an object, and publishes two jobs. *)
Definition sample_plan : CommitPlan :=
  mkCommitPlan 0
    [Put "greeting" "hello"; ObjectPut "files" "a.txt" "data"; QueuePublish "work" id1 "first";
     QueuePublish "work" id2 "second"]
    [("work", sample_queue)] [("files", sample_bucket)] 1000 None.

Lemma sample_cfg_queue : bt_get "work" (config_queues sample_cfg) = Some sample_queue.
Proof. reflexivity. Qed.

(** The tables after [sample_plan]. *)
Definition published : Session Tables := (@commit_plan no_faults sample_store sample_plan fresh).1.
(** The first job leased to [owner1] at 2000. *)
Definition leased : Session Tables :=
  (@reserve_job no_faults sample_store "work" sample_queue owner1 2000 published).1.

Lemma sample_cfg_only queue policy : bt_get queue (config_queues sample_cfg) = Some policy -> policy = sample_queue.
Proof. simpl. by destruct (cmp queue "work"); intros [= <-]. Qed.

Lemma sample_bucket_only bucket policy :
  bt_get bucket (config_buckets sample_cfg) = Some policy -> policy = sample_bucket.
Proof. simpl. by destruct (cmp bucket "files"); intros [= <-]. Qed.

Lemma sample_inv_fresh : inv sample_cfg (durable fresh).
Proof.
  split; [apply empty_store_ok|]. split.
  - intros queue policy ->%sample_cfg_only. by repeat split.
  - intros bucket policy ->%sample_bucket_only. by split.
  - by split.
  - by split.
Qed.

Lemma sample_plan_for : plan_for sample_cfg sample_plan.
Proof. by split. Qed.

Lemma sample_inv_published : inv sample_cfg (durable published).
Proof. apply stable_commit_plan; [apply sample_plan_for | apply sample_inv_fresh]. Qed.

(** ** A call that is executed, completed and replayed *)

Definition digest1 : string := "0123456789abcdef0123456789abcdef".
Definition digest2 : string := "fedcba9876543210fedcba9876543210".

Definition request_at (digest owner : string) (now : Z) : ReplayRequest :=
  mkReplayRequest digest1 Http "charge" digest owner now.
Definition call_lease : ReplayLease := mkReplayLease digest1 Http "charge" digest1 owner1.

Definition executing : Session Tables :=
  (@replay_decision no_faults sample_store (request_at digest1 owner1 1000) sample_retention fresh).1.
Definition recorded : Session Tables :=
  (@complete_replay no_faults sample_store call_lease "receipt" 2000 sample_retention executing).1.

Definition webhook_executing : Session Tables :=
  (@idempotency_decision no_faults sample_store digest1 "order-7" digest1 owner1 1000 sample_retention
     fresh).1.
Definition webhook_recorded : Session Tables :=
  (@complete_idempotency no_faults sample_store (mkIdempotencyLease digest1 "order-7" digest1 owner1)
     "done" 2000 sample_retention webhook_executing).1.
