(* ===== verification/CommitFacts.v ===== *)
(** * The commit against its abstract specification

    The abstract store is what its readers see: the key/value map, the
    checkpoints, the objects, the queued jobs in order and the revision.  A
    commit applies every mutation and the completion to it, in order, or
    nothing; a read taken at a revision is still true when a commit expecting
    that revision succeeds. *)

From S2P Require Import Prelude BTree Sql Store StoreFacts.

(** ** The abstract store *)

Record View : Type := mkView {
  view_revision : Z;
  view_kv : gmap string string;
  view_checkpoints : gmap string string;
  view_objects : gmap (string * string) string;
  (** Identity, queue and body of the jobs, oldest first. *)
  view_jobs : list (string * string * string);
  view_fires : list FireRow;
  (** What no commit changes. *)
  view_rest : list DeadRow * gmap string (Z * Z)
    * list (KeptRow ReplayKey) * list (KeptRow IdempotencyKey);
}.

Definition job_view (r : JobRow) : string * string * string := (job_row_id r, job_queue r, job_body r).

Definition object_view (rows : list ObjectRow) : gmap (string * string) string :=
  list_to_map (map (fun r => (object_id r, object_value r)) rows).

Definition view (t : Tables) : View :=
  mkView (revision t) (kv t) (checkpoints t) (object_view (objects t))
    (map job_view (queue_jobs t)) (schedule_fires t)
    (queue_dead t, schedule_cursors t, replay_table t, idempotency_table t).

Definition view_mutate (v : View) (mutation : Mutation) : View :=
  let 'mkView rev kv ck objs jobs fires rest := v in
  match mutation with
  | Put key value => mkView rev (<[key := value]> kv) ck objs jobs fires rest
  | Delete key => mkView rev (delete key kv) ck objs jobs fires rest
  | CheckpointPut name value => mkView rev kv (<[name := value]> ck) objs jobs fires rest
  | ObjectPut bucket key value =>
      mkView rev kv ck (<[(bucket, key) := value]> objs) jobs fires rest
  | ObjectDelete bucket key => mkView rev kv ck (delete (bucket, key) objs) jobs fires rest
  | QueuePublish queue id body => mkView rev kv ck objs (jobs ++ [(id, queue, body)]) fires rest
  end.

Definition view_complete (completion : option Completion) (now : Z) (v : View) : View :=
  let 'mkView rev kv ck objs jobs fires rest := v in
  match completion with
  | Some (CompleteJob lease) =>
      mkView rev kv ck objs
        (delete_where (fun job => bool_decide (job.1.1 = lease_id lease)) jobs) fires rest
  | Some (CompleteFire lease) =>
      mkView rev kv ck objs jobs
        (update_where (is_fire (lease_schedule lease) (lease_due_at_millis lease))
           (close_fire 1 now) fires) rest
  | None => v
  end.

Definition view_commit (plan : CommitPlan) (v : View) : View :=
  let 'mkView rev kv ck objs jobs fires rest :=
    view_complete (completion plan) (now_millis plan) (foldl view_mutate v (mutations plan)) in
  mkView (if revision_sensitive plan then rev + 1 else rev) kv ck objs jobs fires rest.

(** ** The tables implement it *)

Lemma object_view_perm rows rows' :
  NoDup (map object_id rows) -> rows ≡ₚ rows' -> object_view rows = object_view rows'.
Proof.
  intros Hnd Hp. unfold object_view. apply list_to_map_proper; [|by rewrite Hp].
  change (fst <$> map (fun r => (object_id r, object_value r)) rows)
    with (map fst (map (fun r => (object_id r, object_value r)) rows)).
  by rewrite map_map.
Qed.

Lemma object_view_fresh rows id :
  (forall r, In r rows -> object_id r <> id) -> object_view rows !! id = None.
Proof.
  intros Hno. apply not_elem_of_list_to_map_1.
  change (fst <$> map (fun r => (object_id r, object_value r)) rows)
    with (map fst (map (fun r => (object_id r, object_value r)) rows)).
  rewrite map_map. intros Hin%list_elem_of_In. apply in_map_iff in Hin as (r & <- & Hr).
  by eapply Hno.
Qed.

Lemma object_view_upsert t bucket key value now :
  objects_ok (objects t) ->
  object_view (objects (upsert_object bucket key value now t))
  = <[(bucket, key) := value]> (object_view (objects t)).
Proof.
  intros Hok. pose proof (upsert_object_ok bucket key value now t Hok) as [Hnd' _].
  destruct Hok as [Hnd _]. unfold upsert_object in *. simpl in *.
  destruct (find_object t bucket key) as [r|] eqn:F.
  - apply find_object_Some in F as [Hr Hid].
    assert (forall x, is_object bucket key x = true <-> object_id x = object_id r) as Hp
      by (intros x; rewrite Hid; apply is_object_spec).
    rewrite (object_view_perm _ _ Hnd' (update_where_perm object_id _ r Hp _ _ Hnd Hr)).
    rewrite (object_view_perm _ _ Hnd (delete_where_perm object_id _ r Hp _ Hnd Hr)).
    unfold object_view. simpl. change (object_bucket r, object_key r) with (object_id r).
    unfold object_id at 1. simpl. change (object_bucket r, object_key r) with (object_id r).
    rewrite Hid. by rewrite insert_insert_eq.
  - rewrite (object_view_perm _ (mkObjectRow bucket key value (str_len value) now :: objects t));
      [done|done|]. apply Permutation_sym, Permutation_cons_append.
Qed.

Lemma object_view_delete t bucket key :
  objects_ok (objects t) ->
  object_view (delete_where (is_object bucket key) (objects t))
  = delete (bucket, key) (object_view (objects t)).
Proof.
  intros [Hnd _]. assert (object_view (delete_where (is_object bucket key) (objects t)) !! (bucket, key) = None)
    as Hno.
  { apply object_view_fresh. intros r [_ Hr]%delete_where_In Hid%is_object_spec. congruence. }
  destruct (find_object t bucket key) as [r|] eqn:F.
  - apply find_object_Some in F as [Hr Hid].
    assert (forall x, is_object bucket key x = true <-> object_id x = object_id r) as Hp
      by (intros x; rewrite Hid; apply is_object_spec).
    rewrite (object_view_perm _ _ Hnd (delete_where_perm object_id _ r Hp _ Hnd Hr)).
    unfold object_view at 2. simpl. rewrite Hid. rewrite delete_insert_id; [done|].
    exact Hno.
  - assert (delete_where (is_object bucket key) (objects t) = objects t) as E.
    { apply where_all. intros r Hr. pose proof (proj1 (head_where_None _ _) F r Hr) as ->. done. }
    rewrite E in *. symmetry. by apply delete_id.
Qed.

Section Refinement.
Context `{Faults}.

(** Nothing is durable yet, and on success the private view is [v]. *)
Definition viewed {A} (t0 : Tables) (v : A -> View) (r : result A StateError) (s : Session Tables)
  : Prop :=
  durable s = t0 /\ match r with Ok a => view (working s) = v a | Err _ => True end.

Lemma view_put_object t0 policy bucket key value now s :
  durable s = t0 -> store_ok (working s) ->
  wp (put_object policy bucket key value now)
    (viewed t0 (fun _ => view_mutate (view (working s)) (ObjectPut bucket key value))) s.
Proof.
  intros Hd Hok. unfold put_object, viewed. wp_step; [wp_step; wp_fail|]. do 4 wp_step.
  intros m t' [count bytes] (-> & -> & ->)%count_and_sum_Some.
  wp_step; [wp_step; wp_fail|]. do 2 wp_step. wp_step; [wp_step; wp_fail|]. do 3 wp_step.
  split; [done|]. unfold view. simpl. f_equal.
  apply object_view_upsert. by destruct Hok.
Qed.

Lemma view_publish_job t0 policy queue id body now s :
  durable s = t0 ->
  wp (publish_job policy queue id body now)
    (viewed t0 (fun _ => view_mutate (view (working s)) (QueuePublish queue id body))) s.
Proof.
  intros Hd. unfold publish_job, viewed. wp_step; [wp_step; wp_fail|]. do 2 wp_step.
  intros m t' [count bytes] (-> & -> & ->)%count_and_sum_Some.
  wp_step; [wp_step; wp_fail|]. wp_step; [wp_step; wp_fail|]. wp_step.
  apply wp_next_sequence; [wp_fail|]. simpl. intros n Hmax. do 3 wp_step.
  apply wp_statement; [wp_fail|]. simpl. intros k t' inserted. unfold insert_job. simpl.
  destruct (existsb _ _) eqn:Hfresh; intros [= <- <-]; [wp_fail|].
  split; [done|]. unfold view. simpl. f_equal. by rewrite map_app.
Qed.

Lemma view_apply_mutation t0 mutation qs bs now s :
  durable s = t0 -> store_ok (working s) ->
  wp (apply_mutation mutation qs bs now)
    (viewed t0 (fun _ => view_mutate (view (working s)) mutation)) s.
Proof.
  intros Hd Hok. destruct mutation; simpl; unfold viewed.
  - wp_step. by split.
  - wp_step. by split.
  - wp_step. by split.
  - do 2 wp_step. by apply view_put_object.
  - wp_step; [wp_step; wp_fail|]. wp_step. split; [done|]. unfold view. simpl. f_equal.
    apply object_view_delete. by destruct Hok.
  - do 2 wp_step. by apply view_publish_job.
Qed.

Lemma wp_and {A} (m : Sql Tables StateError A) P Q s :
  wp m P s -> wp m Q s -> wp m (fun r s' => P r s' /\ Q r s') s.
Proof. done. Qed.

Lemma view_apply_mutations cfg t0 ms now s :
  durable s = t0 -> inv cfg t0 -> inv cfg (working s) ->
  wp (apply_mutations ms (config_queues cfg) (config_buckets cfg) now)
    (fun r s' => viewed t0 (fun _ => foldl view_mutate (view (working s)) ms) r s'
                 /\ (is_ok r = true -> inv cfg (working s'))) s.
Proof.
  revert s. induction ms as [|mutation ms IH]; intros s Hd H0 Hw;
    cbn [apply_mutations foldl].
  - wp_step. by split.
  - wp_step. eapply wp_mono.
    { apply wp_and; [by apply (view_apply_mutation t0); [|destruct Hw]|].
      apply (keeps_apply_mutation cfg mutation now); [by rewrite Hd | done]. }
    intros [[]|e] s' [[Hd' Hv] [_ Hw']]; [|done].
    eapply wp_mono; [by apply IH; [..|apply Hw']|]. by rewrite Hv.
Qed.

Lemma owned_job_unique lease jobs n dead :
  jobs_ok n jobs dead -> count_where (owned_job lease) jobs = 1 ->
  forall r, In r jobs -> owned_job lease r = bool_decide (job_row_id r = lease_id lease).
Proof.
  intros (Hids & _) Hc r Hr. unfold count_where in Hc.
  destruct (where_ (owned_job lease) jobs) as [|x [|y l]] eqn:W; simpl in Hc; [lia| |lia].
  assert (In x jobs /\ owned_job lease x = true) as [Hx Hox].
  { apply where_In. rewrite W. by left. }
  case_bool_decide as E; [|unfold owned_job; by rewrite bool_decide_false].
  rewrite <- Hox. f_equal. eapply (unique_column job_row_id); try done.
  unfold owned_job in Hox. bool_facts. congruence.
Qed.

Lemma owned_fire_unique lease fires :
  fires_ok fires -> count_where (owned_fire lease) fires = 1 ->
  forall r, In r fires ->
    owned_fire lease r = is_fire (lease_schedule lease) (lease_due_at_millis lease) r.
Proof.
  intros [Hids _] Hc r Hr. unfold count_where in Hc.
  destruct (where_ (owned_fire lease) fires) as [|x [|y l]] eqn:W; simpl in Hc; [lia| |lia].
  assert (In x fires /\ owned_fire lease x = true) as [Hx Hox].
  { apply where_In. rewrite W. by left. }
  destruct (is_fire _ _ r) eqn:E; [|unfold owned_fire; by rewrite E].
  rewrite <- Hox. f_equal. eapply (unique_column fire_key); try done.
  unfold owned_fire, is_fire, fire_key in *. bool_facts.
  z_facts. congruence.
Qed.

Lemma map_delete_where {A B} (f : A -> B) (p : B -> bool) (q : A -> bool) l :
  (forall x, In x l -> q x = p (f x)) -> map f (delete_where q l) = delete_where p (map f l).
Proof.
  unfold delete_where. induction l as [|x l IH]; simpl; [done|]. intros Hq.
  rewrite Hq by (by left). destruct (negb (p (f x))); simpl; [f_equal|]; auto.
Qed.

Lemma view_complete_spec t0 completion now s :
  durable s = t0 -> store_ok (working s) ->
  wp (complete completion now)
    (viewed t0 (fun _ => view_complete completion now (view (working s)))) s.
Proof.
  intros Hd Hok. unfold viewed. destruct completion as [[lease|lease]|]; simpl; [| |by wp_step];
    do 2 wp_step; (wp_step; [wp_step; wp_fail|]); wp_step; (split; [done|]);
    apply negb_false_iff, Z.eqb_eq in E; unfold view; simpl; f_equal.
  - destruct Hok. apply map_delete_where. by eapply owned_job_unique.
  - destruct Hok. apply map_ext_in. intros r Hr. by rewrite (owned_fire_unique lease (schedule_fires (working s))).
Qed.

(** A row under a lease is one the transaction started with. *)
Lemma keeps_leased_rows jobs ms qs bs now :
  keeps (fun t => forall r, In r (queue_jobs t) -> is_Some (job_owner r) -> In r jobs)
    (apply_mutations ms qs bs now).
Proof.
  induction ms as [|mutation ms IH]; simpl; [keeps_auto|]. apply keeps_bind; [|done].
  destruct mutation; simpl; unfold put_object, publish_job; keeps_auto; try apply keeps_count_and_sum.
  apply keeps_statement. unfold insert_job. intros t t' inserted Ht.
  destruct (existsb _ _); intros [= <- _]; [done|]. simpl.
  intros r [Hr|[<-|[]]]%in_app_iff Ho; [auto|by destruct Ho].
Qed.

Lemma complete_leased lease now s :
  wp (complete (Some (CompleteJob lease)) now) (fun r _ =>
    is_ok r = true -> exists row, In row (queue_jobs (working s)) /\ owned_job lease row = true) s.
Proof.
  simpl. do 2 wp_step. wp_step; [by wp_step|]. wp_step. intros _.
  apply negb_false_iff, Z.eqb_eq in E. unfold count_where in E.
  destruct (where_ _ _) as [|row rest] eqn:W; [done|]. exists row. apply where_In. rewrite W. by left.
Qed.

(** The lease a plan completes was live when its transaction began. *)
Lemma commit_body_leased plan lease s :
  completion plan = Some (CompleteJob lease) -> durable s = working s ->
  wp (commit_body plan) (fun r _ =>
    is_ok r = true -> exists row, In row (queue_jobs (durable s)) /\ owned_job lease row = true) s.
Proof.
  intros Hc Hdw. unfold commit_body, query_revision. do 4 wp_step. wp_step; [by wp_step|]. wp_step.
  eapply wp_mono; [apply (keeps_leased_rows (queue_jobs (durable s))); simpl; rewrite <- ?Hdw; done|].
  intros [[]|e] s1 [_ Hrows]; [|done]. specialize (Hrows eq_refl). wp_step. rewrite Hc.
  eapply wp_mono; [apply complete_leased|]. intros [[]|e'] s2 Hrow; [|done].
  destruct (Hrow eq_refl) as (row & Hr & Hown).
  assert (exists row, In row (queue_jobs (durable s)) /\ owned_job lease row = true) as Hex.
  { exists row. split; [|done]. apply Hrows; [done|]. unfold owned_job in Hown. bool_facts. by eexists. }
  unfold wp. intros _. exact Hex.
Qed.

Lemma view_mutate_revision ms v : view_revision (foldl view_mutate v ms) = view_revision v.
Proof. revert v. induction ms as [|m ms IH]; intros v; simpl; [done|]. rewrite IH. by destruct v, m. Qed.

Lemma view_complete_revision completion now v :
  view_revision (view_complete completion now v) = view_revision v.
Proof. by destruct v, completion as [[]|]. Qed.

Lemma commit_body_spec cfg plan s :
  plan_for cfg plan -> durable s = working s -> inv cfg (durable s) ->
  wp (commit_body plan) (fun r s' =>
    match r with
    | Ok rev =>
        view (durable s') = view_commit plan (view (durable s)) /\ rev = revision (durable s')
        /\ (revision_sensitive plan = true -> revision (durable s) = expected_revision plan)
    | Err _ => durable s' = durable s
    end) s.
Proof.
  intros [Hq Hb] Hdw Hinv. unfold commit_body, query_revision. rewrite Hq, Hb.
  do 4 wp_step. apply ok_or_Ok in E. unfold u64_checked in E.
  destruct (_ && _); [|done]. injection E as <-. rewrite <- Hdw.
  wp_step; [wp_step; wp_fail|]. wp_step.
  eapply wp_mono; [apply (view_apply_mutations cfg (durable s)); [done|done|by rewrite <- ?Hdw]|].
  simpl. intros [[]|e] s1 [[Hd1 Hv1] Hw1]; [|done]. wp_step.
  eapply wp_mono; [apply (view_complete_spec (durable s)); [done|by apply Hw1]|].
  intros [[]|e] s2 [Hd2 Hv2]; [|done]. rewrite Hv1 in Hv2.
  assert (revision (durable s) = view_revision (view (working s2))) as Hrev.
  { by rewrite Hv2, view_complete_revision, view_mutate_revision. }
  simpl in Hrev. unfold view_commit. rewrite <- Hv2. unfold view at 2.
  destruct (revision_sensitive plan) eqn:Hsens; simpl in E |- *.
  - apply negb_false_iff, Z.eqb_eq in E.
    do 8 wp_step. wp_step. apply ok_or_Ok in E0, E1. unfold u64_checked in E0.
    destruct (_ && _); [|done]. injection E0 as <-. apply i64_checked_Some in E1 as [-> _].
    repeat split; [|done]. unfold view. simpl. by rewrite Hrev.
  - do 3 wp_step. by repeat split.
Qed.

(** What a commit leaves and answers. *)
Definition commit_post (t0 : Tables) (plan : CommitPlan) (r : result Z StateError) (t : Tables) : Prop :=
  match r with
  | Ok rev =>
      view t = view_commit plan (view t0) /\ rev = revision t
      /\ (revision_sensitive plan = true -> revision t0 = expected_revision plan)
      /\ (forall lease, completion plan = Some (CompleteJob lease) ->
           exists row, In row (queue_jobs t0) /\ owned_job lease row = true)
  | Err _ => t = t0
  end.

Lemma wp_commit_plan cfg self plan s :
  plan_for cfg plan -> inv cfg (durable s) ->
  wp (commit_plan self plan) (at_rest (commit_post (durable s) plan)) s.
Proof.
  intros Hp Hi. unfold commit_plan. do 5 wp_step.
  set (s0 := mkSession n (durable s) (durable s)).
  assert (forall lease, completion plan = Some (CompleteJob lease) ->
    wp (commit_body plan) (fun r _ => is_ok r = true ->
      exists row, In row (queue_jobs (durable s)) /\ owned_job lease row = true) s0) as Hl
    by (intros lease Hc; by apply (commit_body_leased plan lease s0)).
  pose proof (commit_body_spec cfg plan s0 Hp eq_refl Hi) as Hs.
  unfold wp, at_rest, commit_post in *. destruct (commit_body plan s0) as [s' [rev|e]]; simpl in *; [|done].
  destruct Hs as (? & ? & ?). by repeat split; auto.
Qed.
End Refinement.

(** C5: A commit is all or nothing.  Whatever statements fail, a commit that
    answers an error leaves the store exactly as it was; one that answers [Ok]
    has applied every mutation of its plan in order and its completion, and
    nothing else, to what readers see.  It advanced the revision by one when
    it wrote state, and then only from the revision the plan expected; and it
    completed a job only under a lease that was still the job's. *)
Theorem commit_plan_refines `{Faults} cfg self plan s s' r :
  plan_for cfg plan -> inv cfg (durable s) -> commit_plan self plan s = (s', r) ->
  match r with
  | Ok rev =>
      view (durable s') = view_commit plan (view (durable s)) /\ rev = revision (durable s')
      /\ (revision_sensitive plan = true -> revision (durable s) = expected_revision plan)
      /\ (forall lease, completion plan = Some (CompleteJob lease) ->
           exists row, In row (queue_jobs (durable s)) /\ owned_job lease row = true)
  | Err _ => durable s' = durable s
  end.
Proof.
  intros Hp Hi E. pose proof (wp_commit_plan cfg self plan s Hp Hi) as W.
  unfold wp, at_rest, commit_post in W. rewrite E in W. exact W.
Qed.

Lemma commit_plan_refines_witness :
  let out := @commit_plan no_faults sample_store sample_plan fresh in
  out.2 = Ok 1
  /\ view (durable out.1) = view_commit sample_plan (view empty_tables)
  /\ view_kv (view (durable out.1)) !! "greeting" = Some "hello".
Proof.
  cbv zeta. pose proof (@commit_plan_refines no_faults sample_cfg sample_store sample_plan fresh _ _
    sample_plan_for sample_inv_fresh (surjective_pairing _)) as W.
  assert ((@commit_plan no_faults sample_store sample_plan fresh).2 = Ok 1) as E by (vm_compute; reflexivity).
  rewrite E in W. split; [done|]. split; [apply W|]. vm_compute. reflexivity.
Defined.

(** ** Commits that must succeed *)

Definition plain_write (mutation : Mutation) : bool :=
  match mutation with Put _ _ | Delete _ | CheckpointPut _ _ => true | _ => false end.

Lemma plain_writes_succeed `{Faults} ms qs bs now s :
  ~ faulted -> forallb plain_write ms = true ->
  wp (apply_mutations ms qs bs now) (fun r _ => is_ok r = true) s.
Proof.
  intros Hno. revert s. induction ms as [|mutation ms IH]; intros s Hms; simpl; [by apply wp_ret|].
  simpl in Hms. bool_facts. apply wp_bind.
  destruct mutation; try done; simpl; apply wp_statement;
    try (by intros e n w [?|?]); intros n t a [= <- <-]; by apply IH.
Qed.

(** C40: A commit of key/value and checkpoint writes that passes validation at
    the current revision succeeds whenever no statement fails: the guard and
    the limits are its only refusals. *)
Theorem commit_succeeds `{Faults} self plan s :
  ~ faulted -> poisoned self = false -> validate_plan self plan = Ok tt ->
  forallb plain_write (mutations plan) = true -> completion plan = None ->
  revision (durable s) = expected_revision plan -> 0 <= expected_revision plan < i64_max ->
  is_ok (commit_plan self plan s).2 = true.
Proof.
  intros Hno Hpo Hval Hms Hc Hrev Hmax.
  change (wp (commit_plan self plan) (at_rest (fun r _ => is_ok r = true)) s).
  unfold commit_plan, lock. rewrite Hval, Hpo.
  apply wp_bind, wp_lift, wp_bind, wp_ret, wp_transaction; [done|]. intros n.
  unfold commit_body, query_revision. apply wp_bind, wp_bind, wp_select; [done|]. simpl. intros m.
  apply wp_lift. unfold u64_checked, u64_max, i64_max in *.
  rewrite (proj2 (andb_true_iff _ _)) by (rewrite !Z.leb_le; lia). cbn [ok_or].
  rewrite Hrev, Z.eqb_refl, andb_false_r. apply wp_bind.
  eapply wp_mono; [by apply plain_writes_succeed|]. intros [[]|e] s1 Hok; [|done].
  rewrite Hc. apply wp_bind, wp_ret. destruct (negb _).
  - apply wp_bind, wp_commit; [done|]. intros k. by apply wp_ret.
  - apply wp_bind, wp_lift. rewrite (proj2 (andb_true_iff _ _)) by (rewrite !Z.leb_le; lia).
    apply wp_bind, wp_lift. rewrite (proj2 (i64_checked_Some _ (expected_revision plan + 1)))
      by (unfold i64_min, i64_max; lia).
    cbn [ok_or]. apply wp_bind, wp_statement; [by intros e k w [?|?]|]. intros k t a [= <- <-].
    apply wp_bind, wp_commit; [done|]. intros j. by apply wp_ret.
Qed.

Lemma commit_succeeds_witness :
  is_ok (@commit_plan no_faults sample_store
    (mkCommitPlan 0 [Put "k" "v"; Delete "k"; CheckpointPut "step" "1"] [] [] 0 None) fresh).2 = true.
Proof.
  apply (@commit_succeeds no_faults); try reflexivity.
  - apply no_faults_not_faulted.
  - split; vm_compute; [discriminate|reflexivity].
Defined.
