(* ===== verification/JobsFacts.v ===== *)
(** * Queues and schedules keep the store's invariant

    Every queue and schedule operation keeps the tables well formed and every
    queue within its policy, its dead letters included, whatever fails. *)

From S2P Require Import Prelude BTree Sql Store Jobs StoreFacts.

(** ** Dead letters *)

Lemma jobs_ok_dead_delete n jobs dead p : jobs_ok n jobs dead -> jobs_ok n jobs (delete_where p dead).
Proof.
  intros (Hids & Hdids & Hseq & Hb & Hj).
  assert (map job_sequence jobs ++ map dead_sequence (delete_where p dead)
          `sublist_of` map job_sequence jobs ++ map dead_sequence dead) as Hs
    by (apply sublist_app; [done | apply map_delete_sublist]).
  repeat split; [done | by apply NoDup_map_delete | by eapply sublist_NoDup | | done].
  rewrite Forall_app in *. destruct Hb as [? Hb]. split; [done|].
  rewrite Forall_map in *. by apply Forall_delete_where.
Qed.

(** The job leaves the queue and its row joins the dead letters. *)
Lemma jobs_ok_dead_letter n jobs dead job row :
  In job jobs -> job_row_id job = dead_id row -> job_sequence job = dead_sequence row ->
  jobs_ok n jobs dead ->
  jobs_ok n (delete_where (has_id (dead_id row)) jobs) (upsert_dead row dead).
Proof.
  intros Hjob Hid Hsq Hok. unfold upsert_dead.
  destruct (existsb _ dead) eqn:X.
  - apply (jobs_ok_delete _ _ _ (has_id (dead_id row))) in Hok as (Hids & Hdids & Hseq & Hb & Hj).
    unfold jobs_ok. by rewrite !update_where_map.
  - pose proof (jobs_ok_delete _ _ _ (has_id (dead_id row)) Hok) as (Hids' & _ & _ & _ & Hj').
    destruct Hok as (Hids & Hdids & Hseq & Hb & Hj).
    assert (forall x, has_id (dead_id row) x = true <-> job_row_id x = job_row_id job) as Hp.
    { intros x. unfold has_id. by rewrite bool_decide_eq_true, Hid. }
    assert (map job_sequence (delete_where (has_id (dead_id row)) jobs)
            ++ map dead_sequence (dead ++ [row])
            ≡ₚ map job_sequence jobs ++ map dead_sequence dead) as Hperm.
    { rewrite map_app. rewrite (delete_where_perm job_row_id _ job Hp jobs) at 2 by done. simpl.
      rewrite Hsq, app_assoc. apply Permutation_sym, Permutation_cons_append. }
    repeat split; [done| |by rewrite Hperm|by rewrite Hperm|done].
    rewrite map_app. apply NoDup_app. repeat split; [done| |apply NoDup_singleton].
    intros x Hx Hx1. apply list_elem_of_singleton in Hx1 as ->.
    apply list_elem_of_In, in_map_iff in Hx as (r & E & Hr).
    apply existsb_False in X. rewrite List.Forall_forall in X. specialize (X r Hr).
    by apply bool_decide_eq_false in X.
Qed.

Lemma drop_surplus_dead_where queue bound rows queue' :
  where_ (dead_in queue') (drop_surplus_dead queue bound rows)
  = if decide (queue' = queue)
    then where_ (not_surplus dead_id (Z.to_nat bound) (order_desc dead_sequence (where_ (dead_in queue) rows)))
           (where_ (dead_in queue) rows)
    else where_ (dead_in queue') rows.
Proof.
  unfold drop_surplus_dead, surplus_dead, delete_where, where_, not_surplus.
  generalize (map dead_id (drop (Z.to_nat bound)
    (order_desc dead_sequence (List.filter (dead_in queue) rows)))).
  intros ids. unfold dead_in. case_decide as Hq; [subst queue'|];
    (induction rows as [|r rows IH]; simpl; [done|]).
  - destruct (bool_decide (dead_queue r = queue)) eqn:Q; simpl; [|by rewrite Q].
    destruct (negb _); simpl; [rewrite Q|]; by rewrite IH.
  - destruct (bool_decide (dead_queue r = queue)) eqn:Q; simpl.
    + apply bool_decide_eq_true in Q. rewrite (bool_decide_false (dead_queue r = queue')) by congruence.
      destruct (negb _); simpl; [rewrite bool_decide_false by congruence|]; done.
    + by rewrite IH.
Qed.

Lemma drop_surplus_dead_count queue bound rows queue' :
  0 <= bound ->
  count_where (dead_in queue') (drop_surplus_dead queue bound rows)
  <= if decide (queue' = queue) then bound else count_where (dead_in queue') rows.
Proof.
  intros Hb. unfold count_where. rewrite drop_surplus_dead_where. case_decide; [|done].
  set (rs := where_ (dead_in queue) rows). set (n := Z.to_nat bound).
  pose proof (keep_first_length dead_id n (order_desc dead_sequence rs)) as L.
  rewrite (Permutation_length (where_perm _ _ _ (order_desc_perm dead_sequence rs))) in L. lia.
Qed.

(** The invariant while a queue's dead letters are being bounded. *)
Definition inv_dead (cfg : Config) (queue : string) (t : Tables) : Prop :=
  store_ok t
  /\ (forall q policy, bt_get q (config_queues cfg) = Some policy ->
        job_count t q <= max_depth policy /\ job_bytes t q <= max_queue_bytes policy
        /\ (q <> queue -> dead_count t q <= dead_letter_max_entries policy))
  /\ (forall bucket policy, bt_get bucket (config_buckets cfg) = Some policy ->
        bucket_within policy bucket t)
  /\ kept_within (config_replay cfg) (replay_table t)
  /\ kept_within (config_idempotency cfg) (idempotency_table t).

Lemma inv_inv_dead cfg queue t : inv cfg t -> inv_dead cfg queue t.
Proof.
  intros [Hok [Hq Hb Hr Hi]]. split; [done|]. split; [|done]. intros q policy G.
  destruct (Hq q policy G) as (? & ? & ?). done.
Qed.

Lemma inv_dead_enforced cfg queue policy t bound :
  bt_get queue (config_queues cfg) = Some policy -> bound = dead_letter_max_entries policy ->
  0 <= bound -> inv_dead cfg queue t ->
  inv cfg (set_dead t (drop_surplus_dead queue bound (queue_dead t))).
Proof.
  intros G -> Hb (Hok & Hq & Hrest). split.
  - destruct Hok. split; simpl; try done. by apply jobs_ok_dead_delete.
  - destruct Hrest as (Hbk & Hr & Hi). split; [|done..].
    intros q policy' G'. destruct (Hq q policy' G') as (Hc & Hs & Hd). repeat split; [done..|].
    unfold dead_count. simpl.
    pose proof (drop_surplus_dead_count queue (dead_letter_max_entries policy) (queue_dead t) q Hb) as L.
    case_decide; subst; simplify_eq; [done|]. specialize (Hd ltac:(done)). unfold dead_count in Hd.
    unfold dead_in in *. lia.
Qed.

Lemma inv_dead_delete cfg t p : inv cfg t -> inv cfg (set_dead t (delete_where p (queue_dead t))).
Proof.
  intros [Hok [Hq Hb Hr Hi]]. split.
  - destruct Hok. split; simpl; try done. by apply jobs_ok_dead_delete.
  - split; [|done..]. intros q policy G. destruct (Hq q policy G) as (? & ? & Hd).
    repeat split; [done..|]. unfold dead_count in *. simpl.
    pose proof (delete_where_count_le p (fun r => bool_decide (dead_queue r = q)) (queue_dead t)). lia.
Qed.

Lemma upsert_dead_count queue row rows :
  queue <> dead_queue row ->
  count_where (fun r => bool_decide (dead_queue r = queue)) (upsert_dead row rows)
  = count_where (fun r => bool_decide (dead_queue r = queue)) rows.
Proof.
  intros Hne. unfold upsert_dead. destruct (existsb _ rows).
  - unfold count_where. by rewrite update_where_where, update_where_length.
  - rewrite count_where_app. unfold count_where at 2. simpl. rewrite bool_decide_false by done. simpl. lia.
Qed.

Lemma inv_dead_letter cfg t job row :
  In job (queue_jobs t) -> job_row_id job = dead_id row -> job_sequence job = dead_sequence row ->
  inv cfg t ->
  let t' := set_jobs t (delete_where (has_id (dead_id row)) (queue_jobs t)) in
  inv_dead cfg (dead_queue row) (set_dead t' (upsert_dead row (queue_dead t))).
Proof.
  intros Hjob Hid Hsq Hinv. pose proof (inv_delete_jobs cfg t (has_id (dead_id row)) Hinv) as [Hok' Hw'].
  destruct Hinv as [Hok _]. split.
  - destruct Hok', Hok. split; simpl in *; try done. by eapply jobs_ok_dead_letter.
  - destruct Hw' as [Hq Hb Hr Hi]. split; [|done]. intros q policy G.
    destruct (Hq q policy G) as (? & ? & Hd). repeat split; [done..|]. intros Hne.
    unfold dead_count in *. simpl in *. by rewrite upsert_dead_count.
Qed.

(** ** Operations *)

Section Keeps.
Context `{Faults} (cfg : Config).

(** A queue's policy is its configured one, and it is valid. *)
Definition queue_for (queue : string) (policy : QueuePolicy) : Prop :=
  bt_get queue (config_queues cfg) = Some policy /\ queue_validate policy = Ok tt.

Lemma queue_for_dead queue policy :
  queue_for queue policy -> 0 <= dead_letter_max_entries policy.
Proof.
  intros [_ V]. unfold queue_validate, contains_range in V. destruct (_ || _) eqn:E; [done|].
  bool_facts. rewrite !Z.leb_le in *. lia.
Qed.

Lemma wp_enforce queue policy s Q :
  queue_for queue policy -> inv_dead cfg queue (working s) ->
  (forall e n w, Q (Err e) (mkSession n (durable s) w)) ->
  (forall n t, inv cfg t -> queue_jobs t = queue_jobs (working s) ->
     Q (Ok tt) (mkSession n (durable s) t)) ->
  wp (enforce_dead_letter_bounds queue policy) Q s.
Proof.
  intros Hp Hinv Herr Hok. unfold enforce_dead_letter_bounds. apply wp_bind, wp_lift.
  destruct (ok_or _ _) as [bound|e] eqn:E; [|by destruct s; apply Herr].
  apply ok_or_Ok, i64_checked_Some in E as [-> _].
  apply wp_statement; [done|]. intros n t a [= <- <-]. apply Hok; [|done].
  eapply inv_dead_enforced; [by apply Hp|done| |done]. by eapply queue_for_dead.
Qed.

Lemma wp_dead_letter row policy job s Q :
  queue_for (dead_queue row) policy -> inv cfg (working s) ->
  In job (queue_jobs (working s)) -> job_row_id job = dead_id row -> job_sequence job = dead_sequence row ->
  (forall e n w, Q (Err e) (mkSession n (durable s) w)) ->
  (forall n t, inv cfg t ->
     queue_jobs t = delete_where (has_id (dead_id row)) (queue_jobs (working s)) ->
     Q (Ok tt) (mkSession n (durable s) t)) ->
  wp (dead_letter row policy) Q s.
Proof.
  intros Hp Hinv Hjob Hid Hsq Herr Hok. unfold dead_letter.
  apply wp_bind, wp_statement; [done|]. intros n t a [= <- <-].
  apply wp_bind, wp_statement; [done|]. simpl. intros m t a [= <- <-].
  apply wp_enforce; [done| |done|].
  - by eapply (inv_dead_letter cfg (working s)).
  - simpl. intros k t Ht Hj. by apply Hok.
Qed.

Lemma wp_cleanup_dead_letters queue policy now s Q :
  queue_for queue policy -> inv cfg (working s) ->
  (forall e n w, Q (Err e) (mkSession n (durable s) w)) ->
  (forall n t, inv cfg t -> queue_jobs t = queue_jobs (working s) ->
     Q (Ok tt) (mkSession n (durable s) t)) ->
  wp (cleanup_dead_letters queue policy now) Q s.
Proof.
  intros Hp Hinv Herr Hok. unfold cleanup_dead_letters.
  apply wp_bind, wp_lift. destruct (ok_or _ _) as [ttl|e]; [|by destruct s; apply Herr].
  apply wp_bind, wp_lift. destruct (ok_or _ _) as [horizon|e]; [|by destruct s; apply Herr].
  apply wp_bind, wp_statement; [done|]. intros n t a [= <- <-].
  apply wp_enforce; [done| |done|].
  - by apply inv_inv_dead, inv_dead_delete.
  - simpl. intros m t Ht Hj. by apply Hok.
Qed.
End Keeps.

(** ** What a reservation does

    The reference: of the ready jobs in sequence order, as many as the scan
    looks at, the leading ones without attempts left are retired and the next
    one is leased. *)

Definition ready_jobs (queue : string) (now : Z) (jobs : list JobRow) : list JobRow :=
  order_asc job_sequence (where_ (ready queue now) jobs).

Definition exhausted (policy : QueuePolicy) (r : JobRow) : bool :=
  queue_max_attempts policy <=? job_attempts r.

Definition without_ids (ids : list string) (jobs : list JobRow) : list JobRow :=
  delete_where (fun r => bool_decide (job_row_id r ∈ ids)) jobs.

Definition reserved (scan : nat) (queue : string) (policy : QueuePolicy) (now : Z)
    (jobs : list JobRow) : list JobRow * option JobRow :=
  let scanned := take scan (ready_jobs queue now jobs) in
  (without_ids (map job_row_id (take_while (exhausted policy) scanned)) jobs,
   head (drop_while (exhausted policy) scanned)).

Definition lease_row (policy : QueuePolicy) (owner : string) (now : Z) (row : JobRow)
    (jobs : list JobRow) : list JobRow :=
  update_where (has_id (job_row_id row))
    (lease_job (job_attempts row + 1) owner (now + as_millis (queue_lease policy))) jobs.

Definition delivery_of (queue : string) (policy : QueuePolicy) (owner : string) (row : JobRow)
  : JobDelivery :=
  mkJobDelivery (mkJobLease (job_row_id row) queue owner) (job_body row)
    (u32_or_max (job_attempts row + 1)) (queue_max_attempts policy) (job_enqueued_at row).

Lemma without_no_ids jobs : without_ids [] jobs = jobs.
Proof. apply where_all. intros r _. by rewrite bool_decide_false by apply not_elem_of_nil. Qed.

Lemma without_ids_cons id ids jobs :
  without_ids ids (delete_where (has_id id) jobs) = without_ids (id :: ids) jobs.
Proof.
  unfold without_ids, delete_where, has_id. induction jobs as [|r jobs IH]; simpl; [done|].
  destruct (bool_decide (job_row_id r = id)) eqn:E; simpl.
  - apply bool_decide_eq_true in E. rewrite (bool_decide_true (_ ∈ _ :: _)); [done|].
    rewrite E. apply list_elem_of_here.
  - apply bool_decide_eq_false in E. rewrite IH.
    rewrite (bool_decide_ext (job_row_id r ∈ id :: ids) (job_row_id r ∈ ids)); [done|].
    rewrite elem_of_cons. naive_solver.
Qed.

Lemma NoDup_where_map {A B} (g : A -> B) p l : NoDup (map g l) -> NoDup (map g (where_ p l)).
Proof.
  intros Hnd. rewrite (where_ext p (fun r => negb (negb (p r)))) by (intros; by rewrite negb_involutive).
  by apply (NoDup_map_delete g (fun r => negb (p r))).
Qed.

(** Retiring the first ready job leaves the others, in order. *)
Lemma ready_jobs_tail n dead queue now jobs r rest :
  jobs_ok n jobs dead -> ready_jobs queue now jobs = r :: rest ->
  ready_jobs queue now (delete_where (has_id (job_row_id r)) jobs) = rest.
Proof.
  intros (Hids & _ & Hseq & _) E. unfold ready_jobs in *.
  apply NoDup_app in Hseq as (Hseq & _ & _).
  pose proof (order_asc_head _ _ _ _ E) as [Hr _].
  apply where_In in Hr as [Hr Hready].
  assert (forall x, has_id (job_row_id r) x = true <-> job_row_id x = job_row_id r) as Hp
    by (intros x; apply bool_decide_eq_true).
  apply order_asc_unique.
  - by apply NoDup_where_map, NoDup_map_delete.
  - apply (Permutation_cons_inv (a := r)). rewrite <- E, order_asc_perm.
    rewrite (delete_where_perm job_row_id _ r Hp jobs) at 2 by done. simpl. by rewrite Hready.
  - pose proof (StronglySorted_merge_sort (asc job_sequence) (where_ (ready queue now) jobs)) as S.
    change (merge_sort _ _) with (order_asc job_sequence (where_ (ready queue now) jobs)) in S.
    rewrite E in S. by inversion S.
Qed.

Section Reserve.
Context `{Faults} (cfg : Config).

Definition reserve_post (t0 : Tables) (jobs : list JobRow) (scan : nat) queue policy owner now
    (r : result (option JobDelivery) StateError) (t : Tables) : Prop :=
  inv cfg t
  /\ match r with
     | Ok delivery =>
         let '(kept, row) := reserved scan queue policy now jobs in
         queue_jobs t = match row with
                        | Some row => lease_row policy owner now row kept
                        | None => kept
                        end
         /\ delivery = delivery_of queue policy owner <$> row
     | Err _ => t = t0
     end.

Lemma wp_reserve_scan scan queue policy owner now s :
  queue_for cfg queue policy -> inv cfg (durable s) -> inv cfg (working s) ->
  wp (reserve_scan scan queue policy owner now)
    (at_rest (reserve_post (durable s) (queue_jobs (working s)) scan queue policy owner now)) s.
Proof.
  intros Hp. revert s. induction scan as [|scan IH]; intros s Hd Hw; cbn [reserve_scan].
  { do 3 wp_step. split; [done|]. unfold reserved. simpl. by rewrite without_no_ids. }
  do 2 wp_step. unfold at_rest, reserve_post, reserved, next_job.
  change (order_asc job_sequence (where_ (ready queue now) (queue_jobs (working s))))
    with (ready_jobs queue now (queue_jobs (working s))).
  destruct (ready_jobs queue now (queue_jobs (working s))) as [|row rest] eqn:R; simpl.
  { do 3 wp_step. split; [done|]. by rewrite without_no_ids. }
  pose proof (order_asc_head _ _ _ _ R) as [[Hrow _]%where_In _].
  do 2 wp_step. unfold job_id in E. destruct (_ =? 16) eqn:L16; [|done]. injection E as <-.
  do 2 wp_step. apply ok_or_Ok, i64_checked_Some in E as [-> _].
  replace (queue_max_attempts policy <? job_attempts row + 1) with (exhausted policy row)
    by (unfold exhausted; lia).
  destruct (exhausted policy row) eqn:X.
  - wp_step. apply (wp_dead_letter cfg _ _ row); [done|done|done|done|done|wp_fail|].
    simpl. intros m t Ht Hj.
    eapply wp_mono; [apply IH; done|]. simpl. rewrite Hj. unfold at_rest, reserve_post, reserved.
    rewrite (ready_jobs_tail (sequence (working s)) (queue_dead (working s)) _ _ _ row rest);
      [|by destruct Hw as [[] _]|done].
    intros r s' [Hi Hr]. split; [done|]. destruct r; [|done].
    by rewrite without_ids_cons in Hr.
  - do 2 wp_step. unfold checked_deadline in E.
    apply result_bind_Ok in E as (lease & [-> _]%ok_or_Ok%i64_checked_Some & [-> _]%ok_or_Ok%i64_checked_Some).
    do 5 wp_step. simpl. rewrite without_no_ids. split; [|done].
    apply inv_update_jobs; [done| |done]. intros r Hr Hid (? & ? & ? & ?). split; [done|]. simpl.
    destruct Hw as [[_ _ (_ & _ & _ & _ & Hj) _ _ _ _] _]. rewrite List.Forall_forall in Hj.
    destruct (Hj row Hrow) as (_ & ? & _). split; [lia|]. split; [done|lia].
Qed.

Definition scan_limit (policy : QueuePolicy) : nat :=
  Z.to_nat (Z.min (max_depth policy) MAX_RESERVATION_SCAN).

Lemma wp_reserve_job self queue policy owner now s :
  bt_get queue (config_queues cfg) = Some policy -> inv cfg (durable s) ->
  wp (reserve_job self queue policy owner now)
    (at_rest (reserve_post (durable s) (queue_jobs (durable s)) (scan_limit policy) queue policy
                owner now)) s.
Proof.
  intros Hp Hd. unfold reserve_job. do 2 wp_step. destruct a.
  assert (queue_for cfg queue policy) as Hq by done. do 8 wp_step.
  apply (wp_cleanup_dead_letters cfg); [done|done|wp_fail|]. simpl. intros m t Ht <-.
  by apply (wp_reserve_scan _ _ _ _ _ (mkSession m (durable s) t)).
Qed.

(** ** What a failure does *)

Definition fail_post (t0 : Tables) lease policy now
    (r : result JobDisposition StateError) (t : Tables) : Prop :=
  inv cfg t
  /\ match r with
     | Err _ => t = t0
     | Ok Lost => t = t0 /\ forall row, In row (queue_jobs t0) -> owned_job lease row = false
     | Ok DeadLettered =>
         queue_jobs t = delete_where (has_id (lease_id lease)) (queue_jobs t0)
         /\ exists row, In row (queue_jobs t0) /\ owned_job lease row = true
              /\ queue_max_attempts policy <= job_attempts row
     | Ok (Retried at_) =>
         queue_jobs t = update_where (owned_job lease) (retry_job at_) (queue_jobs t0)
         /\ exists row, In row (queue_jobs t0) /\ owned_job lease row = true
              /\ job_attempts row < queue_max_attempts policy
              /\ at_ = now + as_millis (backoff_for (queue_backoff policy)
                                          (queue_max_backoff policy) (job_attempts row))
     end.

Lemma owned_job_id lease row :
  owned_job lease row = true -> job_row_id row = lease_id lease /\ job_queue row = lease_queue lease.
Proof. unfold owned_job. intros ?. by bool_facts. Qed.

Lemma checked_deadline_Ok now d z : checked_deadline now d = Ok z -> z = now + as_millis d.
Proof.
  unfold checked_deadline. intros (lease & [-> _]%ok_or_Ok%i64_checked_Some
    & [-> _]%ok_or_Ok%i64_checked_Some)%result_bind_Ok. done.
Qed.

Lemma wp_fail_job self lease reason policy now s :
  bt_get (lease_queue lease) (config_queues cfg) = Some policy -> inv cfg (durable s) ->
  wp (fail_job self lease reason policy now) (at_rest (fail_post (durable s) lease policy now)) s.
Proof.
  intros Hp Hd. unfold fail_job. do 2 wp_step. destruct a.
  assert (queue_for cfg (lease_queue lease) policy) as Hq by done. do 7 wp_step.
  destruct (head _) as [row|] eqn:Hrow.
  - apply head_where in Hrow as [Hrow Hown]. pose proof (owned_job_id _ _ Hown) as [Hid _].
    wp_step.
    + wp_step. apply (wp_dead_letter cfg _ _ row); [done..|wp_fail|].
      simpl. intros m t Ht Hj. do 3 wp_step. split; [done|]. split; [done|].
      exists row. apply Z.leb_le in E1. done.
    + do 2 wp_step. apply checked_deadline_Ok in E2 as ->. do 5 wp_step. split.
      * apply inv_update_jobs; [done| |done]. by intros r _ _ (? & ? & ? & ?).
      * split; [done|]. exists row. apply Z.leb_gt in E1. done.
  - do 3 wp_step. split; [done|]. split; [done|]. by apply head_where_None.
Qed.
End Reserve.

(** ** Deliveries *)

Lemma drop_while_head {A} (f : A -> bool) l x : head (drop_while f l) = Some x -> f x = false.
Proof. induction l as [|y l IH]; simpl; [done|]. destruct (f y) eqn:E; [done|]. by intros [= <-]. Qed.

Lemma take_drop_while {A} (f : A -> bool) l : l = take_while f l ++ drop_while f l.
Proof. induction l as [|y l IH]; simpl; [done|]. destruct (f y); simpl; by rewrite <- ?IH. Qed.

(** The delivered job is the first ready one with attempts left. *)
Lemma reserved_first scan queue policy now jobs kept row :
  reserved scan queue policy now jobs = (kept, Some row) ->
  In row jobs /\ ready queue now row = true /\ job_attempts row < queue_max_attempts policy
  /\ forall r, In r jobs -> ready queue now r = true -> job_sequence r < job_sequence row ->
       exhausted policy r = true /\ forall r', In r' kept -> job_row_id r' <> job_row_id r.
Proof.
  unfold reserved. intros [= <- Hhead].
  set (ordered := ready_jobs queue now jobs) in *. set (spent := take_while _ _) in *.
  pose proof (drop_while_head _ _ _ Hhead) as Hatt.
  destruct (drop_while (exhausted policy) (take scan ordered)) as [|x tail] eqn:D; [done|].
  injection Hhead as ->.
  assert (ordered = spent ++ row :: tail ++ drop scan ordered) as Hord.
  { rewrite <- (take_drop scan ordered) at 1. rewrite (take_drop_while (exhausted policy) (take scan ordered)).
    by rewrite D, <- app_assoc. }
  assert (forall r, In r ordered <-> In r jobs /\ ready queue now r = true) as Hin.
  { intros r. rewrite <- where_In, <- !list_elem_of_In. unfold ordered, ready_jobs. by rewrite order_asc_perm. }
  destruct (proj1 (Hin row)) as [Hr1 Hr2]; [rewrite Hord; apply in_app_iff; right; by left|].
  split; [done|]. split; [done|]. split; [unfold exhausted in Hatt; by z_facts|].
  intros r Hr Hready Hlt.
  assert (In r spent) as Hsp.
  { assert (In r ordered) as Ho by (by apply Hin). rewrite Hord in Ho.
    apply in_app_iff in Ho as [?|[<-|Ho]]; [done|lia|].
    pose proof (StronglySorted_merge_sort (asc job_sequence) (where_ (ready queue now) jobs)) as S.
    change (merge_sort _ _) with ordered in S. rewrite Hord in S.
    apply StronglySorted_app_1_r in S. inversion S as [|? ? _ Hle]; subst.
    rewrite List.Forall_forall in Hle. specialize (Hle r Ho). unfold asc in Hle. lia. }
  split.
  - pose proof (take_while_spec (exhausted policy) (take scan ordered)) as Hall.
    rewrite List.Forall_forall in Hall. by apply Hall.
  - intros r' [_ Hr']%delete_where_In E. apply bool_decide_eq_false in Hr'. apply Hr'.
    rewrite E. apply list_elem_of_In. by apply in_map.
Qed.

(** C26: Reservation is first in, first out.  Of the queue's visible, unleased
    jobs in publication order, as many as one scan inspects, a reservation
    retires the leading ones that have no attempt left and leases the next
    one; every other job stays exactly as it was.  The delivered job has an
    attempt left, is charged one, and no older ready job with attempts left
    was passed over.  An error changes nothing. *)
Theorem reserve_job_fifo `{Faults} cfg self queue policy owner now s s' r :
  bt_get queue (config_queues cfg) = Some policy -> inv cfg (durable s) ->
  reserve_job self queue policy owner now s = (s', r) ->
  let jobs := queue_jobs (durable s) in
  match r with
  | Err _ => durable s' = durable s
  | Ok None =>
      reserved (scan_limit policy) queue policy now jobs = (queue_jobs (durable s'), None)
  | Ok (Some delivery) =>
      exists kept row,
        reserved (scan_limit policy) queue policy now jobs = (kept, Some row)
        /\ delivery = delivery_of queue policy owner row
        /\ queue_jobs (durable s') = lease_row policy owner now row kept
        /\ In row jobs /\ ready queue now row = true
        /\ job_attempts row < queue_max_attempts policy
        /\ forall r, In r jobs -> ready queue now r = true -> job_sequence r < job_sequence row ->
             exhausted policy r = true /\ forall r', In r' kept -> job_row_id r' <> job_row_id r
  end.
Proof.
  intros G Hi E. pose proof (wp_reserve_job cfg self queue policy owner now s G Hi) as W.
  unfold wp, at_rest, reserve_post in W. rewrite E in W. destruct W as [_ W]. cbv zeta.
  destruct r as [delivery|e]; [|done].
  destruct (reserved _ _ _ _ _) as [kept [row|]] eqn:R; destruct W as [Hjobs ->]; simpl.
  - exists kept, row. split; [done|]. split; [done|]. split; [done|]. by eapply reserved_first.
  - simpl in Hjobs. by rewrite Hjobs.
Qed.

Lemma reserve_job_fifo_witness :
  exists kept row,
    reserved (scan_limit sample_queue) "work" sample_queue 2000 (queue_jobs (durable published))
      = (kept, Some row)
    /\ job_row_id row = id1
    /\ queue_jobs (durable leased) = lease_row sample_queue owner1 2000 row kept.
Proof.
  pose proof (@reserve_job_fifo no_faults sample_cfg sample_store "work" sample_queue owner1 2000
    published _ _ eq_refl sample_inv_published (surjective_pairing _)) as W. cbv zeta in W.
  assert ((@reserve_job no_faults sample_store "work" sample_queue owner1 2000 published).2
    = Ok (Some (mkJobDelivery (mkJobLease id1 "work" owner1) "first" 1 2 1000))) as E
    by (vm_compute; reflexivity).
  rewrite E in W. destruct W as (kept & row & R & D & J & _). exists kept, row.
  split; [exact R|]. split; [|exact J]. by injection D.
Defined.

(** ** Backoff *)

(** The rule of the specification. *)
Lemma backoff_rule base maximum attempts :
  valid_millis base MAX_DELIVERY_BACKOFF = true -> 1 <= attempts <= MAX_DELIVERY_ATTEMPTS ->
  backoff_for base maximum attempts = Z.min (base * 2 ^ (attempts - 1)) maximum.
Proof.
  unfold valid_millis, MAX_DELIVERY_BACKOFF, MAX_DELIVERY_ATTEMPTS, from_secs, from_millis, NANOS_PER_MILLI.
  intros Hb Ha. bool_facts. z_facts.
  unfold backoff_for, backoff_exponent, duration_saturating_mul, DURATION_MAX, u64_max, u32_max, i64_min.
  rewrite (Z.max_l (attempts - 1)), (Z.max_l (attempts - 1)), (Z.min_l (attempts - 1)) by lia.
  assert (2 ^ (attempts - 1) <= 2 ^ 15) by (apply Z.pow_le_mono_r; lia).
  assert (0 < 2 ^ (attempts - 1)) by (apply Z.pow_pos_nonneg; lia).
  rewrite (Z.min_l (2 ^ _)) by lia. rewrite (Z.min_l (base * _)); [done|]. nia.
Qed.

Lemma queue_validate_attempts policy :
  queue_validate policy = Ok tt ->
  1 <= queue_max_attempts policy <= MAX_DELIVERY_ATTEMPTS
  /\ valid_millis (queue_backoff policy) MAX_DELIVERY_BACKOFF = true.
Proof.
  unfold queue_validate, contains_range. destruct (_ || _) eqn:E; [done|]. intros _.
  bool_facts. by z_facts.
Qed.

(** A failed delivery is retried or retired, and only by its owner.  With
    an attempt left the job becomes visible again after
    [min(backoff * 2^(attempts - 1), max_backoff)]; without one it leaves the
    queue; a lease that no longer owns its job changes nothing and is told so.
    No other job is touched, and an error changes nothing. *)
Theorem fail_job_disposition `{Faults} cfg self lease reason policy now s s' r :
  bt_get (lease_queue lease) (config_queues cfg) = Some policy -> inv cfg (durable s) ->
  fail_job self lease reason policy now s = (s', r) ->
  let jobs := queue_jobs (durable s) in
  match r with
  | Err _ => durable s' = durable s
  | Ok Lost => durable s' = durable s /\ forall row, In row jobs -> owned_job lease row = false
  | Ok DeadLettered =>
      queue_jobs (durable s') = delete_where (owned_job lease) jobs
      /\ exists row, In row jobs /\ owned_job lease row = true
           /\ queue_max_attempts policy <= job_attempts row
  | Ok (Retried visible_at) =>
      queue_jobs (durable s') = update_where (owned_job lease) (retry_job visible_at) jobs
      /\ exists row, In row jobs /\ owned_job lease row = true
           /\ job_attempts row < queue_max_attempts policy
           /\ visible_at = now + as_millis (Z.min (queue_backoff policy * 2 ^ (job_attempts row - 1))
                                              (queue_max_backoff policy))
  end.
Proof.
  intros G Hi E. pose proof (wp_fail_job cfg self lease reason policy now s G Hi) as W.
  unfold wp, at_rest, fail_post in W. rewrite E in W. cbn [fst snd] in W. destruct W as [_ W]. cbv zeta.
  destruct (queue_validate policy) as [[]|e] eqn:V.
  2: { unfold fail_job, sql_bind, sql_lift in E. rewrite V in E. by injection E as <- <-. }
  destruct (queue_validate_attempts _ V) as [Hmax Hb].
  destruct r as [[visible_at| |]|e]; [| |done|done].
  - destruct W as [Hj (row & Hr & Ho & Ha & ->)]. split; [done|]. exists row. repeat split; try done.
    rewrite backoff_rule; [done|done|]. split; [|lia].
    destruct Hi as [[_ _ (_ & _ & _ & _ & Hj') _ _ _ _] _]. rewrite List.Forall_forall in Hj'.
    apply (Hj' row Hr). unfold owned_job in Ho. bool_facts. by match goal with Hx : job_owner row = _ |- _ => rewrite Hx end.
  - destruct W as [Hj (row & Hr & Ho & Ha)]. split; [|by exists row]. rewrite Hj.
    destruct Hi as [[_ _ (Hids & _) _ _ _ _] _]. apply owned_job_id in Ho as Hid. destruct Hid as [Hid _].
    apply List.filter_ext_in. intros x Hx. f_equal. unfold has_id.
    case_bool_decide as Eid.
    + rewrite <- Ho. f_equal. eapply (unique_column job_row_id); [done..|congruence].
    + symmetry. apply not_true_iff_false. intros [? _]%owned_job_id. done.
Qed.

Lemma sample_inv_leased : inv sample_cfg (durable leased).
Proof.
  pose proof (wp_reserve_job (H := no_faults) sample_cfg sample_store "work" sample_queue owner1 2000
    published eq_refl sample_inv_published) as W.
  unfold wp, at_rest, reserve_post in W. destruct W as [W _]. unfold leased. exact W.
Qed.

Lemma fail_job_disposition_witness :
  let lease := mkJobLease id1 "work" owner1 in
  let out := @fail_job no_faults sample_store lease "boom" sample_queue 3000 leased in
  out.2 = Ok (Retried 4000)
  /\ queue_jobs (durable out.1)
     = update_where (owned_job lease) (retry_job 4000) (queue_jobs (durable leased)).
Proof.
  cbv zeta.
  assert ((@fail_job no_faults sample_store (mkJobLease id1 "work" owner1) "boom" sample_queue 3000 leased).2
    = Ok (Retried 4000)) as E by (vm_compute; reflexivity).
  split; [exact E|].
  pose proof (@fail_job_disposition no_faults sample_cfg sample_store (mkJobLease id1 "work" owner1) "boom"
    sample_queue 3000 leased _ _ eq_refl sample_inv_leased (surjective_pairing _)) as W. cbv zeta in W.
  rewrite E in W. apply W.
Defined.

(** ** Which dead letters are kept *)

(** Bounding a queue's dead letters keeps exactly the most recently
    published ones, and touches no other queue's. *)
Theorem dead_letters_keep_newest queue bound rows queue' :
  NoDup (map dead_id rows) ->
  where_ (dead_in queue') (drop_surplus_dead queue bound rows)
  ≡ₚ if decide (queue' = queue)
     then take (Z.to_nat bound) (order_desc dead_sequence (where_ (dead_in queue) rows))
     else where_ (dead_in queue') rows.
Proof.
  intros Hnd. rewrite drop_surplus_dead_where. case_decide; [|done].
  set (rs := where_ (dead_in queue) rows).
  rewrite <- (keep_first_exact dead_id).
  - by rewrite <- (order_desc_perm dead_sequence rs) at 2.
  - rewrite (order_desc_perm dead_sequence rs). by apply NoDup_where_map.
Qed.

Lemma dead_letters_keep_newest_witness :
  let rows := [mkDeadRow id1 "work" 1 "a" 2 "r" 1 10; mkDeadRow id2 "work" 3 "b" 2 "r" 1 11;
               mkDeadRow owner1 "work" 2 "c" 2 "r" 1 12] in
  map dead_sequence (where_ (dead_in "work") (drop_surplus_dead "work" 2 rows)) ≡ₚ [3; 2].
Proof.
  cbv zeta.
  pose proof (dead_letters_keep_newest "work" 2
    [mkDeadRow id1 "work" 1 "a" 2 "r" 1 10; mkDeadRow id2 "work" 3 "b" 2 "r" 1 11;
     mkDeadRow owner1 "work" 2 "c" 2 "r" 1 12] "work") as W.
  rewrite W; [vm_compute; reflexivity|]. apply (bool_decide_unpack _). vm_compute. exact I.
Defined.
