(* ===== verification/ScheduleFacts.v ===== *)
(** * Schedules: what a tick materializes

    A tick materializes occurrences of the schedule's grid that lie after the
    cursor and not after the tick, at most the catch-up bound of them, and
    never moves the cursor back. *)

From S2P Require Import Prelude BTree Sql Store Jobs StoreFacts JobsFacts.

(** ** Retention touches closed fires only *)

Definition retained (fires kept : list FireRow) : Prop :=
  (forall r, In r kept -> In r fires)
  /\ (forall r, In r fires -> fire_status r = 0 -> In r kept).

Lemma retained_refl fires : retained fires fires.
Proof. by split. Qed.

Lemma retained_delete fires kept p :
  (forall r, fire_status r = 0 -> p r = false) ->
  retained fires kept -> retained fires (delete_where p kept).
Proof.
  intros Hp [Hin Hopen]. split.
  - intros r [Hr _]%delete_where_In. auto.
  - intros r Hr H0. apply delete_where_In. auto.
Qed.

Lemma open_not_closed r : fire_status r = 0 -> is_closed r = false.
Proof. unfold is_closed. by intros ->. Qed.

Section Schedule.
Context `{Faults} (cfg : Config).

Lemma wp_cleanup_schedule_fires schedule policy now s Q :
  inv cfg (working s) ->
  (forall e n w, Q (Err e) (mkSession n (durable s) w)) ->
  (forall n fires, let t := set_fires (working s) fires in
     inv cfg t -> retained (schedule_fires (working s)) fires -> Q (Ok tt) (mkSession n (durable s) t)) ->
  wp (cleanup_schedule_fires schedule policy now) Q s.
Proof.
  intros Hw Herr Hok. unfold cleanup_schedule_fires.
  apply wp_bind, wp_lift. destruct (ok_or _ _) as [kept|e]; [|by destruct s; apply Herr].
  apply wp_bind, wp_lift. destruct (ok_or _ _) as [horizon|e]; [|by destruct s; apply Herr].
  apply wp_bind, wp_statement; [done|]. intros n t a [= <- <-].
  apply wp_bind, wp_lift. destruct (ok_or _ _) as [bound|e]; [|apply Herr].
  apply wp_statement; [done|]. intros m t a [= <- <-].
  cbn [durable working schedule_fires set_fires].
  refine (Hok m (drop_surplus_fires schedule bound (delete_where _ (schedule_fires (working s)))) _ _).
  - apply inv_set_fires; [|done]. destruct Hw as [[] _]. by do 2 apply fires_ok_delete.
  - do 2 (apply retained_delete; [intros r Hr; rewrite (open_not_closed r Hr), ?andb_false_r; done|]).
    apply retained_refl.
Qed.

(** ** New fires *)

Definition new_fire (schedule : string) (now due : Z) : FireRow :=
  mkFireRow schedule due 0 0 due None None now.

Lemma is_fire_spec schedule due r : is_fire schedule due r = true <-> fire_key r = (schedule, due).
Proof.
  unfold is_fire, fire_key. rewrite andb_true_iff, bool_decide_eq_true, Z.eqb_eq. naive_solver.
Qed.

Lemma fires_ok_insert fires schedule now due :
  existsb (is_fire schedule due) fires = false -> fires_ok fires ->
  fires_ok (fires ++ [new_fire schedule now due]).
Proof.
  intros X [Hnd Hok]. apply existsb_False in X. rewrite List.Forall_forall in X. split.
  - rewrite map_app. apply NoDup_app. repeat split; [done| |apply NoDup_singleton].
    intros x Hx Hx1. apply list_elem_of_singleton in Hx1 as ->.
    apply list_elem_of_In, in_map_iff in Hx as (r & E & Hr).
    specialize (X r Hr). apply is_fire_spec in E. simpl in E. congruence.
  - apply Forall_app. split; [done|]. apply Forall_singleton. split; [by left | done].
Qed.

(** The occurrences [start + index * every] for [count] indexes. *)
Fixpoint instants (count : nat) (start index every : Z) : list Z :=
  match count with
  | O => []
  | S count' => (start + index * every) :: instants count' start (index + 1) every
  end.

Definition missing_dues (schedule : string) (fires : list FireRow) (dues : list Z) : list Z :=
  List.filter (fun due => negb (existsb (is_fire schedule due) fires)) dues.

Lemma instants_In count start index every due :
  In due (instants count start index every)
  <-> exists i, index <= i < index + Z.of_nat count /\ due = start + i * every.
Proof.
  revert index. induction count as [|count IH]; intros index; simpl.
  - split; [done|]. intros (i & ? & _). lia.
  - rewrite IH. split.
    + intros [<-|(i & ? & ->)]; [exists index | exists i]; (split; [lia|done]).
    + intros (i & ? & ->). destruct (Z.eq_dec i index) as [->|]; [by left|].
      right. exists i. split; [lia|done].
Qed.

Lemma missing_dues_insert schedule now fires due dues :
  ~ In due dues ->
  missing_dues schedule (fires ++ [new_fire schedule now due]) dues = missing_dues schedule fires dues.
Proof.
  intros Hno. apply List.filter_ext_in. intros d Hd. rewrite existsb_app. simpl.
  assert (is_fire schedule d (new_fire schedule now due) = false) as ->; [|by rewrite !orb_false_r].
  apply not_true_iff_false. rewrite is_fire_spec. intros [= ->]. done.
Qed.

(** The loop inserts exactly the occurrences that have no row yet. *)
Lemma wp_materialize_from count index schedule policy every now done_ s Q :
  0 < every -> 0 <= done_ -> done_ + Z.of_nat count <= u32_max -> inv cfg (working s) ->
  (forall e n w, Q (Err e) (mkSession n (durable s) w)) ->
  (forall n, let dues := instants count (start_millis policy) index every in
     let new := missing_dues schedule (schedule_fires (working s)) dues in
     let t := set_fires (working s) (schedule_fires (working s) ++ map (new_fire schedule now) new) in
     inv cfg t ->
     Q (Ok (done_ + Z.of_nat (length new))) (mkSession n (durable s) t)) ->
  wp (materialize_from count index schedule policy every now done_) Q s.
Proof.
  intros He. revert index done_ s.
  induction count as [|count IH]; intros index done_ s Hd Hmax Hw Herr Hok; cbn [materialize_from].
  - apply wp_ret. specialize (Hok (statements s)). simpl in Hok.
    rewrite app_nil_r, Z.add_0_r in Hok. destruct s as [n d []]. by apply Hok.
  - apply wp_bind, wp_lift. destruct (occurrence_instant _ _ _) as [due|e] eqn:E;
      [|by destruct s; apply Herr].
    assert (due = start_millis policy + index * every) as ->.
    { unfold occurrence_instant in E. apply ok_or_Ok in E.
      destruct (i64_checked _) as [o|] eqn:E1; [|done].
      apply i64_checked_Some in E1 as [-> _]. by apply i64_checked_Some in E as [-> _]. }
    apply wp_bind, wp_statement; [done|]. intros n t inserted. unfold insert_fire.
    destruct (existsb _ _) eqn:X; intros [= <- <-].
    + rewrite Z.add_0_r, Z.min_l by lia. apply IH; [done|lia|done|done|]. simpl. intros m Ht.
      specialize (Hok m). simpl in Hok. rewrite X in Hok. simpl in Hok. by apply Hok.
    + rewrite Z.min_l by lia.
      apply IH; [lia|lia| |done|].
      * apply inv_set_fires; [|done]. destruct Hw as [[] _]. by apply fires_ok_insert.
      * cbn [working schedule_fires set_fires durable]. intros m. cbv zeta.
        assert (~ In (start_millis policy + index * every)
                  (instants count (start_millis policy) (index + 1) every)) as Hno.
        { rewrite instants_In. intros (i & ? & ?). assert (index * every = i * every) by lia.
          apply Z.mul_reg_r in H2; lia. }
        change (mkFireRow schedule ?d 0 0 ?d None None now) with (new_fire schedule now d).
        rewrite missing_dues_insert by done.
        specialize (Hok m). cbv zeta in Hok. cbn [instants missing_dues List.filter] in Hok.
        unfold missing_dues in Hok. cbn [List.filter] in Hok. rewrite X in Hok. cbn [negb] in Hok.
        fold (missing_dues schedule (schedule_fires (working s))
               (instants count (start_millis policy) (index + 1) every)) in Hok.
        cbn [map length] in Hok. rewrite <- app_assoc. simpl. intros Ht.
        rewrite Nat2Z.inj_succ in Hok. rewrite (ltac:(lia) : forall n, done_ + 1 + n = done_ + Z.succ n).
        by apply Hok.
Qed.

(** ** A tick *)

Definition cursor_of (t : Tables) (schedule : string) : option Z :=
  fst <$> schedule_cursors t !! schedule.

Definition every_of (policy : SchedulePolicy) : Z := as_millis (interval policy).
(** The index of the last occurrence not after [now]. *)
Definition current_of (policy : SchedulePolicy) (now : Z) : Z :=
  (now - start_millis policy) `quot` every_of policy.
(** The first index after the cursor; without a cursor, the current one. *)
Definition first_of (policy : SchedulePolicy) (cursor : option Z) (now : Z) : Z :=
  match cursor with
  | Some last_due => (last_due - start_millis policy) `quot` every_of policy + 1
  | None => current_of policy now
  end.
(** Where the bounded catch-up starts. *)
Definition from_of (policy : SchedulePolicy) (cursor : option Z) (now : Z) : Z :=
  Z.max (first_of policy cursor now) (current_of policy now - max_catch_up policy + 1).

Definition dues_of (policy : SchedulePolicy) (cursor : option Z) (now : Z) : list Z :=
  instants (Z.to_nat (current_of policy now - from_of policy cursor now + 1))
    (start_millis policy) (from_of policy cursor now) (every_of policy).

(** The last occurrence not after [now]. *)
Definition last_due_of (policy : SchedulePolicy) (now : Z) : Z :=
  start_millis policy + current_of policy now * every_of policy.

Definition tick_post (t0 : Tables) schedule policy now
    (r : result ScheduleCatchUp StateError) (t : Tables) : Prop :=
  inv cfg t
  /\ match r with
     | Err _ => t = t0
     | Ok res =>
         exists kept, retained (schedule_fires t0) kept
         /\ (now < start_millis policy ->
              schedule_fires t = kept /\ schedule_cursors t = schedule_cursors t0
              /\ res = mkScheduleCatchUp 0 0 (start_millis policy))
         /\ (start_millis policy <= now ->
              let cursor := cursor_of t0 schedule in
              let first := first_of policy cursor now in
              let new := missing_dues schedule kept (dues_of policy cursor now) in
              schedule_fires t = kept ++ map (new_fire schedule now) new
              /\ cursor_of t schedule = (if current_of policy now <? first then cursor
                                         else Some (last_due_of policy now))
              /\ res = mkScheduleCatchUp (Z.of_nat (length new))
                         (from_of policy cursor now - first) (last_due_of policy now))
     end.

Lemma schedule_validate_Ok policy u :
  schedule_validate policy = Ok u -> 0 < every_of policy /\ 1 <= max_catch_up policy <= 64.
Proof.
  unfold schedule_validate, contains_range. destruct (_ || _) eqn:E; [done|]. intros _.
  bool_facts. unfold MIN_SCHEDULE_INTERVAL, from_secs, MAX_SCHEDULE_CATCH_UP in *.
  z_facts. split; [|done].
  unfold every_of, as_millis, NANOS_PER_MILLI. apply Z.div_str_pos. lia.
Qed.

Lemma occurrence_bounds_Ok policy now horizon :
  occurrence_bounds policy (every_of policy) now = Ok horizon -> start_millis policy <= now ->
  horizon = Some (mkOccurrenceBounds (current_of policy now) (last_due_of policy now)).
Proof.
  unfold occurrence_bounds. intros E Hs. rewrite (proj2 (Z.ltb_ge _ _)) in E by done.
  apply result_bind_Ok in E as (elapsed & [-> _]%ok_or_Ok%i64_checked_Some & E).
  apply result_bind_Ok in E as (due & Ed & [= <-]). do 2 f_equal.
  unfold occurrence_instant in Ed. apply ok_or_Ok in Ed.
  destruct (i64_checked (_ * _)) eqn:E1; [|done].
  apply i64_checked_Some in E1 as [-> _]. by apply i64_checked_Some in Ed as [-> _].
Qed.

Lemma first_pending_Ok cursor policy now first :
  first_pending cursor policy (every_of policy) (current_of policy now) = Ok first ->
  first = first_of policy cursor now.
Proof.
  unfold first_pending, first_of. destruct cursor as [last_due|]; [|by intros [= <-]].
  intros (elapsed & [-> _]%ok_or_Ok%i64_checked_Some & [-> _]%ok_or_Ok%i64_checked_Some)%result_bind_Ok.
  done.
Qed.

Lemma wp_materialize_schedule self schedule policy now s :
  inv cfg (durable s) ->
  wp (materialize_schedule self schedule policy now)
    (at_rest (tick_post (durable s) schedule policy now)) s.
Proof.
  intros Hd. unfold materialize_schedule. do 4 wp_step.
  assert (0 < every_of policy /\ 1 <= max_catch_up policy <= 64) as [He Hc].
  { unfold validate_instant in E. apply result_bind_Ok in E as (u & V & _).
    by eapply schedule_validate_Ok. }
  do 2 wp_step. assert (a1 = every_of policy) as ->.
  { apply ok_or_Ok in E1. unfold interval_millis in E1.
    destruct (i64_checked _) eqn:E2; [|done]. apply i64_checked_Some in E2 as [-> _].
    destruct (0 <? _); [|done]. by injection E1 as <-. }
  do 5 wp_step. unfold materialize_body.
  wp_step. apply wp_cleanup_schedule_fires; [done|wp_fail|].
  cbn [durable working]. intros m kept Hinv Hret. wp_step.
  { apply Z.ltb_lt in E3. do 3 wp_step. split; [done|]. exists kept. by split; [|split; [|lia]]. }
  apply Z.ltb_ge in E3. do 2 wp_step. apply ok_or_Ok in E4. apply occurrence_bounds_Ok in E2; [|done].
  rewrite E4 in E2. injection E2 as ->. cbn [current_index cursor_due].
  do 4 wp_step. apply first_pending_Ok in E2 as ->.
  fold (cursor_of (durable s) schedule).
  set (cursor := cursor_of (durable s) schedule). wp_step.
  { do 3 wp_step. apply Z.ltb_lt in E2. split; [done|]. exists kept. split; [done|]. split; [lia|].
    intros _. cbv zeta. fold cursor. rewrite (proj2 (Z.ltb_lt _ _) E2).
    assert (from_of policy cursor now = first_of policy cursor now) as Hf by (unfold from_of; lia).
    unfold dues_of. rewrite Hf, (Z2Nat.nonpos (_ - _ + 1)) by lia. simpl.
    rewrite app_nil_r, Z.sub_diag. done. }
  apply Z.ltb_ge in E2.
  assert (catch_up_from policy (first_of policy cursor now) (current_of policy now)
    = (from_of policy cursor now, from_of policy cursor now - first_of policy cursor now)) as ->.
  { unfold catch_up_from, from_of. case_match eqn:X; [apply Z.ltb_lt in X | apply Z.ltb_ge in X];
      f_equal; lia. }
  wp_step. apply wp_materialize_from; [done|done| |done|wp_fail|].
  { unfold from_of, u32_max. lia. }
  cbn [durable working]. intros k Hinv'. do 5 wp_step. split; [by apply inv_cursors|].
  exists kept. split; [done|]. split; [lia|]. intros _. cbv zeta. fold cursor.
  rewrite (proj2 (Z.ltb_ge _ _) E2). split; [done|]. split.
  - unfold cursor_of. simpl. by rewrite lookup_insert_eq.
  - f_equal. unfold from_of. lia.
Qed.

(** ** Reserving and failing a fire *)

Lemma inv_update_fires t p f :
  (forall r, fire_key (f r) = fire_key r) ->
  (forall r, In r (schedule_fires t) -> p r = true -> fire_ok r -> fire_ok (f r)) ->
  inv cfg t -> inv cfg (set_fires t (update_where p f (schedule_fires t))).
Proof.
  intros Hk Hf Hinv. apply inv_set_fires; [|done]. destruct Hinv as [[] _]. by apply fires_ok_update.
Qed.

Lemma inv_close_fires t p now : inv cfg t ->
  inv cfg (set_fires t (update_where p (close_fire 2 now) (schedule_fires t))).
Proof. apply inv_update_fires; [done|]. intros r _ _. apply close_fire_ok. auto. Qed.

Lemma fire_row_ok t r : inv cfg t -> In r (schedule_fires t) -> fire_ok r.
Proof. intros [[_ _ _ [_ Hok] _ _ _] _] Hr. rewrite List.Forall_forall in Hok. auto. Qed.

(** A row with the key of an open row is that row. *)
Lemma open_fire_key t r r' :
  inv cfg t -> In r (schedule_fires t) -> In r' (schedule_fires t) -> fire_key r = fire_key r' -> r = r'.
Proof. intros [[_ _ _ [Hnd _] _ _ _] _]. by apply unique_column. Qed.

Lemma keeps_reserve_fire_scan scan schedule policy owner now :
  keeps (inv cfg) (reserve_fire_scan scan schedule policy owner now).
Proof.
  induction scan as [|scan IH]; intros s Hd Hw; cbn [reserve_fire_scan]; [by do 3 wp_step|].
  do 2 wp_step. unfold next_fire. destruct (head _) as [row|] eqn:R; [|by do 3 wp_step].
  apply head_order_asc in R as (Hrow & Hready & _). unfold fire_ready, fire_in in Hready. bool_facts.
  do 3 wp_step.
  - do 2 wp_step. apply IH; [done|]. by apply inv_close_fires.
  - do 7 wp_step. apply ok_or_Ok, i64_checked_Some in E as [-> _].
    assert (inv cfg (set_fires (working s) (update_where (is_fire schedule (fire_due_at row))
      (lease_fire (fire_attempts row + 1) owner a0 now) (schedule_fires (working s))))) as Hi; [|done].
    apply inv_update_fires; [done| |done]. intros r Hr Hp _.
    assert (r = row) as -> by (eapply open_fire_key; [done..|]; apply is_fire_spec in Hp;
      unfold fire_key in *; congruence).
    destruct (fire_row_ok (working s) row Hw Hrow) as (Hs & Ha & _).
    split; [|by split; simpl; [lia|]]. left. simpl. by apply Z.eqb_eq.
Qed.

Lemma stable_reserve_schedule_fire self schedule policy owner now :
  stable (inv cfg) (reserve_schedule_fire self schedule policy owner now).
Proof.
  unfold reserve_schedule_fire. repeat (apply stable_bind; [auto using stable_lock with krit_sql|intros _]).
  apply stable_transaction, keeps_reserve_fire_scan.
Qed.

Lemma stable_fail_schedule_fire self lease policy now :
  stable (inv cfg) (fail_schedule_fire self lease policy now).
Proof.
  unfold fail_schedule_fire. repeat (apply stable_bind; [auto using stable_lock with krit_sql|intros _]).
  apply stable_transaction. intros s Hd Hw. do 2 wp_step.
  destruct (head _) as [row|] eqn:R; [|by do 3 wp_step].
  apply head_where in R as [Hrow Hown]. unfold owned_fire in Hown. bool_facts. wp_step.
  destruct (_ <=? _).
  - do 6 wp_step. assert (inv cfg (set_fires (working s) (update_where
      (is_fire (lease_schedule lease) (lease_due_at_millis lease)) (close_fire 2 now)
      (schedule_fires (working s))))); [|done]. by apply inv_close_fires.
  - do 8 wp_step. assert (inv cfg (set_fires (working s) (update_where
      (is_fire (lease_schedule lease) (lease_due_at_millis lease)) (retry_fire a now)
      (schedule_fires (working s))))); [|done].
    apply inv_update_fires; [done| |done]. intros r Hr Hp (Hs & Ha & _).
    assert (r = row) as ->.
    { eapply open_fire_key; [done..|]. apply is_fire_spec in Hp. rewrite Hp. symmetry.
      by apply is_fire_spec. }
    split; [|done]. left. simpl. by apply Z.eqb_eq.
Qed.
End Schedule.

(** ** The grid *)

Lemma quot_below x e : 0 < e -> 0 <= x -> 0 <= x `quot` e /\ x `quot` e * e <= x < (x `quot` e + 1) * e.
Proof.
  intros He Hx. rewrite Z.quot_div_nonneg by lia.
  pose proof (Z.div_mod x e ltac:(lia)). pose proof (Z.mod_pos_bound x e He).
  split; [by apply Z.div_pos|]. nia.
Qed.

Lemma quot_above x e : 0 < e -> x < (x `quot` e + 1) * e.
Proof.
  intros He. pose proof (Z.quot_rem x e ltac:(lia)). pose proof (Z.rem_bound_abs x e ltac:(lia)). nia.
Qed.

(** The occurrence with an index, and the instant a tick looks back to: the
    cursor, or one interval for a schedule seen for the first time. *)
Definition occurrence (policy : SchedulePolicy) (k : Z) : Z := start_millis policy + k * every_of policy.
Definition looks_back (policy : SchedulePolicy) (cursor : option Z) (now : Z) : Z :=
  match cursor with Some last_due => last_due | None => now - every_of policy end.
(** The later of a cursor, if there is one, and an instant. *)
Definition later_of (cursor : option Z) (instant : Z) : Z :=
  match cursor with Some last_due => Z.max last_due instant | None => instant end.

(** The cursor belongs to the policy's grid: it is not before its start.  True
    of every cursor the policy's own ticks leave. *)
Definition cursor_started (policy : SchedulePolicy) (cursor : option Z) : Prop :=
  forall c, cursor = Some c -> start_millis policy <= c.

Section Grid.
Context (policy : SchedulePolicy) (every_pos : 0 < every_of policy) (catch_up_pos : 1 <= max_catch_up policy).
Context (now : Z) (started : start_millis policy <= now).

Lemma current_bounds :
  occurrence policy (current_of policy now) <= now < occurrence policy (current_of policy now + 1).
Proof using every_pos started.
  pose proof (quot_below (now - start_millis policy) (every_of policy) every_pos ltac:(lia)) as (_ & H1 & H2).
  unfold occurrence, current_of. lia.
Qed.

(** An occurrence lies at or before an instant when its index does. *)
Lemma occurrence_le j k : occurrence policy j <= occurrence policy k <-> j <= k.
Proof using every_pos. unfold occurrence. nia. Qed.
Lemma occurrence_lt j k : occurrence policy j < occurrence policy k <-> j < k.
Proof using every_pos. unfold occurrence. nia. Qed.

Lemma occurrence_due k : occurrence policy k <= now <-> k <= current_of policy now.
Proof using every_pos started.
  pose proof current_bounds as [H1 H2]. split.
  - intros Hk. assert (k < current_of policy now + 1); [|lia]. apply occurrence_lt. lia.
  - intros Hk%occurrence_le. lia.
Qed.

Lemma not_looked_back cursor k :
  first_of policy cursor now <= k -> looks_back policy cursor now < occurrence policy k.
Proof using every_pos started.
  pose proof current_bounds as [_ H2]. unfold looks_back, occurrence in *.
  destruct cursor as [c|]; cbn [first_of]; [|nia]. intros Hk.
  pose proof (quot_above (c - start_millis policy) (every_of policy) every_pos). nia.
Qed.

(** The first pending index, when the cursor is on the grid. *)
Lemma first_of_spec cursor k : cursor_started policy cursor ->
  looks_back policy cursor now < occurrence policy k -> first_of policy cursor now <= k.
Proof using every_pos started.
  pose proof current_bounds as [H1 _]. unfold looks_back, occurrence in *. intros Hon.
  destruct cursor as [c|]; cbn [first_of]; [|nia]. specialize (Hon c eq_refl).
  pose proof (quot_below (c - start_millis policy) (every_of policy) every_pos ltac:(lia)) as (_ & Hq & _). nia.
Qed.

Lemma first_of_div cursor : cursor_started policy cursor ->
  first_of policy cursor now = (looks_back policy cursor now - start_millis policy) / every_of policy + 1.
Proof using every_pos started.
  unfold looks_back. intros Hon. destruct cursor as [c|]; cbn [first_of].
  - specialize (Hon c eq_refl). by rewrite Z.quot_div_nonneg by lia.
  - unfold current_of. rewrite Z.quot_div_nonneg by lia.
    replace (now - every_of policy - start_millis policy) with (now - start_millis policy + -1 * every_of policy) by lia.
    rewrite Z.div_add by lia. lia.
Qed.

(** The occurrences a tick materializes, without reference to indexes: those
    after the instant it looks back to, not after the tick, and not followed
    by as many others as the catch-up bound. *)
Lemma dues_of_sound cursor due : In due (dues_of policy cursor now) ->
  exists k, due = occurrence policy k /\ looks_back policy cursor now < due
    /\ due <= now < occurrence policy (k + max_catch_up policy).
Proof using every_pos catch_up_pos started.
  intros (k & Hk & ->)%instants_In. exists k. split; [done|]. unfold from_of in Hk.
  split; [apply not_looked_back; lia|]. split; [apply occurrence_due; lia|].
  pose proof current_bounds as [_ H2].
  assert (occurrence policy (current_of policy now + 1) <= occurrence policy (k + max_catch_up policy))
    by (apply occurrence_le; lia). lia.
Qed.

Lemma dues_of_complete cursor k : cursor_started policy cursor ->
  looks_back policy cursor now < occurrence policy k ->
  occurrence policy k <= now < occurrence policy (k + max_catch_up policy) ->
  In (occurrence policy k) (dues_of policy cursor now).
Proof using every_pos catch_up_pos started.
  intros Hon Hlb [Hk1%occurrence_due Hk2]. apply first_of_spec in Hlb; [|done].
  apply instants_In. exists k. split; [|done].
  assert (current_of policy now < k + max_catch_up policy).
  { apply occurrence_lt. pose proof current_bounds. lia. }
  unfold from_of. lia.
Qed.
End Grid.

Lemma instants_length n start i e : length (instants n start i e) = n.
Proof. revert i. induction n as [|n IH]; intros i; simpl; [done|]. by rewrite IH. Qed.

Lemma missing_dues_In schedule fires dues due :
  In due (missing_dues schedule fires dues) -> In due dues.
Proof. by intros [? _]%filter_In. Qed.

(** An occurrence of the list has a row after the tick. *)
Lemma materialized_row schedule now kept dues due :
  In due dues ->
  exists f, In f (kept ++ map (new_fire schedule now) (missing_dues schedule kept dues))
            /\ fire_key f = (schedule, due).
Proof.
  intros Hd. destruct (existsb (is_fire schedule due) kept) eqn:X.
  - apply existsb_exists in X as (f & Hf & Hk%is_fire_spec). exists f. split; [|done].
    apply in_app_iff. by left.
  - exists (new_fire schedule now due). split; [|done]. apply in_app_iff. right. apply in_map.
    apply filter_In. by rewrite X.
Qed.

Section Ticks.
Context `{Faults} (cfg : Config) (self : DurableStore) (schedule : string) (policy : SchedulePolicy).

Lemma tick_validated now s s' res :
  materialize_schedule self schedule policy now s = (s', Ok res) ->
  0 < every_of policy /\ 1 <= max_catch_up policy <= 64.
Proof.
  intros E. unfold materialize_schedule, validate_instant in E.
  destruct (schedule_validate policy) as [[]|e] eqn:V; [by eapply schedule_validate_Ok|].
  by unfold sql_bind, sql_lift in E.
Qed.

Lemma tick_spec now s s' r :
  inv cfg (durable s) -> materialize_schedule self schedule policy now s = (s', r) ->
  tick_post cfg (durable s) schedule policy now r (durable s').
Proof.
  intros Hi E. pose proof (wp_materialize_schedule cfg self schedule policy now s Hi) as W.
  unfold wp, at_rest in W. by rewrite E in W.
Qed.

(** Where a tick leaves the cursor. *)
Lemma tick_cursor now s s' res :
  inv cfg (durable s) -> cursor_started policy (cursor_of (durable s) schedule) ->
  materialize_schedule self schedule policy now s = (s', Ok res) -> start_millis policy <= now ->
  cursor_of (durable s') schedule
  = Some (later_of (cursor_of (durable s) schedule) (last_due_of policy now)).
Proof.
  intros Hi Hon E Hs. destruct (tick_validated _ _ _ _ E) as [He _].
  destruct (tick_spec _ _ _ _ Hi E) as [_ (kept & _ & _ & T)]. destruct (T Hs) as (_ & -> & _).
  change (last_due_of policy now) with (occurrence policy (current_of policy now)).
  destruct (cursor_of (durable s) schedule) as [c|] eqn:C.
  - cbn [later_of]. destruct (_ <? _) eqn:L; z_facts.
    + f_equal. assert (occurrence policy (current_of policy now) <= c); [|lia].
      apply Z.nlt_ge. intros Hlt. apply (first_of_spec policy He now Hs (Some c)) in Hlt; [lia|done].
    + f_equal. pose proof (not_looked_back policy He now Hs (Some c) _ L) as Hlt.
      cbn [looks_back] in Hlt. lia.
  - cbn [first_of]. by rewrite Z.ltb_irrefl.
Qed.

(** A tick never moves the cursor back, and leaves it on the grid. *)
Lemma tick_cursor_advances now s s' r :
  inv cfg (durable s) -> cursor_started policy (cursor_of (durable s) schedule) ->
  materialize_schedule self schedule policy now s = (s', r) ->
  cursor_started policy (cursor_of (durable s') schedule)
  /\ forall c, cursor_of (durable s) schedule = Some c ->
       exists c', cursor_of (durable s') schedule = Some c' /\ c <= c'.
Proof.
  intros Hi Hon E. destruct r as [res|e].
  - destruct (Z_lt_ge_dec now (start_millis policy)) as [Hlt|Hge].
    + destruct (tick_spec _ _ _ _ Hi E) as [_ (kept & _ & T & _)]. destruct (T Hlt) as (_ & Hc & _).
      unfold cursor_of in *. rewrite Hc. split; [done|]. intros c ->. by exists c.
    + rewrite (tick_cursor _ _ _ _ Hi Hon E) by lia.
      destruct (tick_validated _ _ _ _ E) as [He _].
      pose proof (quot_below (now - start_millis policy) (every_of policy) He ltac:(lia)) as (H0 & _).
      split.
      * intros c [= <-]. unfold last_due_of, current_of, later_of. case_match; nia.
      * intros c ->. eexists. split; [done|]. cbn [later_of]. lia.
  - destruct (tick_spec _ _ _ _ Hi E) as [_ T]. rewrite T. split; [done|]. intros c ->. by exists c.
Qed.

(** A tick adds no fire due at or before the cursor. *)
Lemma tick_after_cursor now s s' r c f :
  inv cfg (durable s) -> materialize_schedule self schedule policy now s = (s', r) ->
  cursor_of (durable s) schedule = Some c -> In f (schedule_fires (durable s')) ->
  In f (schedule_fires (durable s)) \/ c < fire_due_at f /\ exists k, fire_due_at f = occurrence policy k.
Proof.
  intros Hi E Hc Hf. destruct (tick_spec _ _ _ _ Hi E) as [_ T].
  destruct r as [res|e]; [|left; by rewrite <- T].
  destruct (tick_validated _ _ _ _ E) as [He Hm]. destruct T as (kept & [Hsub _] & Hbefore & Hafter).
  destruct (Z_lt_ge_dec now (start_millis policy)) as [Hlt|Hge].
  - destruct (Hbefore Hlt) as [Hk _]. rewrite Hk in Hf. auto.
  - destruct (Hafter ltac:(lia)) as [Hk _]. rewrite Hk in Hf.
    apply in_app_iff in Hf as [?|Hf]; [auto|]. right.
    apply in_map_iff in Hf as (due & <- & Hd%missing_dues_In).
    apply dues_of_sound in Hd as (k & -> & Hlb & _); [|lia..]. rewrite Hc in Hlb.
    split; [exact Hlb|by exists k].
Qed.
End Ticks.

(** C28: A tick at or after the start materializes what is due, once.  What is
    due lies after the cursor, or within the last interval for a schedule seen
    for the first time, and not after the tick; of that the newest
    occurrences up to the catch-up bound count.  Every row a tick adds is an
    open fire of such an occurrence that had no row, and is counted.  Unless
    the start has been moved past the stored cursor, every such occurrence has
    a row afterwards, the skipped ones are counted exactly, and the cursor is
    the later of the old one and the last occurrence.  Open fires stay as they
    are, and an error changes nothing. *)
Theorem tick_materializes `{Faults} cfg self schedule policy now s s' r :
  inv cfg (durable s) -> start_millis policy <= now ->
  materialize_schedule self schedule policy now s = (s', r) ->
  let cursor := cursor_of (durable s) schedule in
  let since := looks_back policy cursor now in
  match r with
  | Err _ => durable s' = durable s
  | Ok res =>
      (forall f, In f (schedule_fires (durable s)) -> fire_status f = 0 ->
         In f (schedule_fires (durable s')))
      /\ (exists kept dues,
           schedule_fires (durable s') = kept ++ map (new_fire schedule now) dues
           /\ (forall f, In f kept -> In f (schedule_fires (durable s)))
           /\ materialized res = Z.of_nat (length dues) /\ materialized res <= max_catch_up policy
           /\ forall due, In due dues ->
                (forall f, In f kept -> fire_key f <> (schedule, due))
                /\ exists k, due = occurrence policy k /\ since < due
                     /\ due <= now < occurrence policy (k + max_catch_up policy))
      /\ (cursor_started policy cursor ->
           (forall k, since < occurrence policy k ->
              occurrence policy k <= now < occurrence policy (k + max_catch_up policy) ->
              exists f, In f (schedule_fires (durable s')) /\ fire_key f = (schedule, occurrence policy k))
           /\ skipped res = Z.max 0 ((now - start_millis policy) / every_of policy
                                     - (since - start_millis policy) / every_of policy - max_catch_up policy)
           /\ exists k, occurrence policy k <= now < occurrence policy (k + 1)
                /\ cursor_of (durable s') schedule = Some (later_of cursor (occurrence policy k)))
  end.
Proof.
  intros Hi Hs E. cbv zeta. destruct (tick_spec cfg self schedule policy _ _ _ _ Hi E) as [_ T].
  destruct r as [res|e]; [|done]. destruct (tick_validated _ _ _ _ _ _ _ E) as [He [Hm1 Hm2]].
  destruct T as (kept & [Hsub Hopen] & _ & T). destruct (T Hs) as (Hf & _ & Hres).
  pose proof (tick_cursor cfg self schedule policy now s s' res Hi) as Hcur.
  set (cursor := cursor_of (durable s) schedule) in *. rewrite Hf. subst res. cbn [materialized skipped] in *.
  split; [|split].
  - intros f ? ?. apply in_app_iff. auto.
  - exists kept, (missing_dues schedule kept (dues_of policy cursor now)). split_and!; [done..| |].
    + unfold missing_dues.
      pose proof (List.filter_length_le (fun due => negb (existsb (is_fire schedule due) kept))
        (dues_of policy cursor now)) as L.
      unfold dues_of in L at 2. rewrite instants_length in L. unfold from_of in L. lia.
    + intros due Hd. split; [|apply missing_dues_In in Hd; by apply dues_of_sound].
      apply filter_In in Hd as [_ Hd%negb_true_iff%existsb_False]. rewrite List.Forall_forall in Hd.
      intros f Hin Hk. specialize (Hd f Hin). apply is_fire_spec in Hk. congruence.
  - intros Hon. split; [|split].
    + intros k Hk1 Hk2. apply materialized_row. by apply dues_of_complete.
    + unfold from_of. rewrite (first_of_div policy He now Hs cursor Hon).
      unfold current_of at 1. rewrite Z.quot_div_nonneg by lia. lia.
    + exists (current_of policy now). split; [by apply current_bounds|]. exact (Hcur Hon E Hs).
Qed.

(** The schedule's first tick, at ten minutes, and the tables it leaves. *)
Definition ticked : Session Tables :=
  (@materialize_schedule no_faults sample_store "tick" sample_schedule 605000 fresh).1.

Lemma tick_ok : (@materialize_schedule no_faults sample_store "tick" sample_schedule 605000 fresh).2
  = Ok (mkScheduleCatchUp 1 0 600000).
Proof. vm_compute. reflexivity. Qed.

Lemma sample_inv_ticked : inv sample_cfg (durable ticked).
Proof.
  exact (proj1 (tick_spec (H := no_faults) sample_cfg sample_store "tick" sample_schedule 605000 fresh _ _
    sample_inv_fresh (surjective_pairing _))).
Qed.

(** The second tick, six minutes on, adds the newest three occurrences; the
    first tick of all added the last one. *)
Lemma tick_materializes_witness :
  (exists f, In f (schedule_fires (durable
      (@materialize_schedule no_faults sample_store "tick" sample_schedule 965000 ticked).1))
    /\ fire_key f = ("tick", 960000))
  /\ exists f, In f (schedule_fires (durable ticked)) /\ fire_key f = ("tick", 600000).
Proof.
  split.
  - pose proof (@tick_materializes no_faults sample_cfg sample_store "tick" sample_schedule 965000 ticked _ _
      sample_inv_ticked ltac:(vm_compute; discriminate) (surjective_pairing _)) as W.
    assert ((@materialize_schedule no_faults sample_store "tick" sample_schedule 965000 ticked).2
      = Ok (mkScheduleCatchUp 3 3 960000)) as E by (vm_compute; reflexivity).
    rewrite E in W. destruct W as (_ & _ & W). destruct W as (W & _).
    + intros c Hc. vm_compute in Hc. injection Hc as <-. vm_compute. discriminate.
    + apply (W 15); [vm_compute; reflexivity|split; vm_compute; [discriminate|reflexivity]].
  - pose proof (@tick_materializes no_faults sample_cfg sample_store "tick" sample_schedule 605000 fresh _ _
      sample_inv_fresh ltac:(vm_compute; discriminate) (surjective_pairing _)) as W.
    rewrite tick_ok in W. destruct W as (_ & _ & W). destruct W as (W & _).
    + intros c Hc. vm_compute in Hc. discriminate.
    + apply (W 9); [vm_compute; reflexivity|split; vm_compute; [discriminate|reflexivity]].
Defined.

(** ** A schedule whose start is moved past its cursor

    The cursor is kept by the schedule's name, and the index of the first
    pending occurrence is computed by a division that rounds towards zero, so
    a cursor before the policy's start is misread: within one interval of the
    start, the start itself is never materialized; further before it,
    occurrences before the start are. *)

Definition moved_schedule (start : Z) : SchedulePolicy :=
  mkSchedulePolicy (from_secs 60) start 3 2 (from_millis 30000) (from_millis 1000)
    (from_millis 8000) (from_secs 3600) 8.

(** A start moved past the stored cursor is misread. The store has ticked
    to 600000 with a 60 second interval. With the start moved to 630000, a tick
    at that very instant reports nothing to do and stores no occurrence at
    630000, and the minute after it goes on from the next one; with the start
    moved to 780000, a tick at that instant also stores the occurrences at
    660000 and 720000, before the start. *)
Theorem moved_start_misread :
  let tick start now s :=
    @materialize_schedule no_faults sample_store "tick" (moved_schedule start) now s in
  let dues s := map fire_due_at (schedule_fires (durable s)) in
  cursor_of (durable ticked) "tick" = Some 600000
  /\ (tick 630000 630000 ticked).2 = Ok (mkScheduleCatchUp 0 0 630000)
  /\ 630000 ∉ dues (tick 630000 690000 (tick 630000 630000 ticked).1).1
  /\ 690000 ∈ dues (tick 630000 690000 (tick 630000 630000 ticked).1).1
  /\ dues (tick 780000 780000 ticked).1 = [600000; 660000; 720000; 780000].
Proof.
  cbv zeta. split; [vm_compute; reflexivity|]. split; [vm_compute; reflexivity|].
  split; [apply (bool_decide_unpack _); vm_compute; exact I|].
  split; [apply (bool_decide_unpack _); vm_compute; exact I|].
  vm_compute. reflexivity.
Qed.
