(* ===== verification/ReplayFacts.v ===== *)
(** * Retained outcomes: decisions, completions and retention

    The two retained tables behind one interface, what a decision and a
    completion do to them, and that retention ends within its bounds and never
    evicts the result just recorded. *)

From S2P Require Import Prelude BTree Sql Store Replay StoreFacts.

(** ** The interface of a retained table *)

Class KeptTable {K} (table : Tables -> list (KeptRow K))
    (set_table : Tables -> list (KeptRow K) -> Tables) (policy_of : Config -> RetentionPolicy)
    : Prop := {
  kt_get_set t rows : table (set_table t rows) = rows;
  kt_set_get t : set_table t (table t) = t;
  kt_set_set t rows rows' : set_table (set_table t rows) rows' = set_table t rows';
  kt_get_sequence t n : table (set_sequence t n) = table t;
  kt_sequence_set t rows : sequence (set_table t rows) = sequence t;
  kt_rows_ok t : store_ok t -> kept_rows_ok (sequence t) (table t);
  kt_within cfg t : within cfg t -> kept_within (policy_of cfg) (table t);
  kt_set_ok t rows : kept_rows_ok (sequence t) rows -> store_ok t -> store_ok (set_table t rows);
  kt_set_inv cfg t rows :
    kept_rows_ok (sequence t) rows -> kept_within (policy_of cfg) rows ->
    inv cfg t -> inv cfg (set_table t rows);
}.

#[export] Instance replay_kept : KeptTable replay_table set_replay config_replay.
Proof.
  split; try done.
  - by intros [].
  - by intros t [].
  - by intros cfg t [].
  - by intros t rows ? [].
  - by intros cfg t rows ? ? [[] []].
Qed.

#[export] Instance idempotency_kept :
  KeptTable idempotency_table set_idempotency config_idempotency.
Proof.
  split; try done.
  - by intros [].
  - by intros t [].
  - by intros cfg t [].
  - by intros t rows ? [].
  - by intros cfg t rows ? ? [[] []].
Qed.

Lemma checked_deadline_value now d z : checked_deadline now d = Ok z -> z = now + as_millis d.
Proof.
  unfold checked_deadline. intros (lease & [-> _]%ok_or_Ok%i64_checked_Some
    & [-> _]%ok_or_Ok%i64_checked_Some)%result_bind_Ok. done.
Qed.

(** ** Rows *)

Section Rows.
Context {K : Type} `{EqDecision K}.
Implicit Types rows : list (KeptRow K).

Lemma at_key_spec key (r : KeptRow K) : at_key key r = true <-> kept_key r = key.
Proof. apply bool_decide_eq_true. Qed.

Lemma kept_rows_ok_delete n rows p : kept_rows_ok n rows -> kept_rows_ok n (delete_where p rows).
Proof.
  intros (Hk & Hl & Hok). repeat split; [by apply NoDup_map_delete..|by apply Forall_delete_where].
Qed.

Lemma kept_rows_ok_add n rows row :
  kept_rows_ok n rows -> kept_ok row -> kept_last_used row = n + 1 ->
  (forall r, In r rows -> kept_key r <> kept_key row) -> kept_rows_ok (n + 1) (rows ++ [row]).
Proof.
  intros (Hk & Hl & Hok) Hrow Hn Hfresh. rewrite List.Forall_forall in Hok.
  unfold kept_rows_ok. rewrite !map_app. simpl. repeat split.
  - apply NoDup_app. repeat split; [done| |apply NoDup_singleton].
    intros x Hx%list_elem_of_In ->%list_elem_of_singleton. apply in_map_iff in Hx as (r & ? & Hr).
    by eapply Hfresh.
  - apply NoDup_app. repeat split; [done| |apply NoDup_singleton].
    intros x Hx%list_elem_of_In ->%list_elem_of_singleton. apply in_map_iff in Hx as (r & ? & Hr).
    destruct (Hok r Hr). lia.
  - apply Forall_app. split; [|apply Forall_singleton; split; [done|lia]].
    apply List.Forall_forall. intros r Hr. destruct (Hok r Hr). split; [done|lia].
Qed.

(** One row changes, and is the last used. *)
Lemma kept_rows_ok_update n rows p f row :
  (forall r, p r = true <-> kept_key r = kept_key row) -> In row rows ->
  kept_key (f row) = kept_key row -> kept_last_used (f row) = n + 1 -> kept_ok (f row) ->
  kept_rows_ok n rows -> kept_rows_ok (n + 1) (update_where p f rows).
Proof.
  intros Hp Hrow Hkey Hn Hf Hrows. pose proof Hrows as (Hk & _ & _).
  pose proof (update_where_perm kept_key p row Hp f rows Hk Hrow) as Hperm.
  assert (kept_rows_ok (n + 1) (delete_where p rows ++ [f row])) as (Hk' & Hl' & Hok').
  { apply kept_rows_ok_add; [by apply kept_rows_ok_delete|done|done|].
    intros r [_ Hr]%delete_where_In E. rewrite Hkey in E. apply Hp in E. congruence. }
  rewrite <- Permutation_cons_append, <- Hperm in Hk', Hl', Hok'. done.
Qed.

Lemma kept_sizes_nonneg n rows r : kept_rows_ok n rows -> In r rows -> 0 <= kept_size r.
Proof.
  intros (_ & _ & Hok) Hr. rewrite List.Forall_forall in Hok.
  destruct (Hok r Hr) as [[(_ & -> & _)|(_ & _ & _ & _ & x & _ & ->)] _]; [done | auto with krit].
Qed.

Lemma kept_within_delete policy n rows p :
  kept_rows_ok n rows -> kept_within policy rows -> kept_within policy (delete_where p rows).
Proof.
  intros Hok [Hc Hs]. split.
  - pose proof (delete_where_count_le p completed rows). unfold count_where in *. lia.
  - pose proof (delete_where_sum_le p completed kept_size rows
      (fun r => kept_sizes_nonneg n rows r Hok)). lia.
Qed.

Lemma kept_within_update policy rows p f :
  (forall r, p r = true -> completed (f r) = completed r /\ kept_size (f r) = kept_size r) ->
  kept_within policy rows -> kept_within policy (update_where p f rows).
Proof.
  intros Hf. unfold kept_within. rewrite update_where_where by (intros r Hr; by destruct (Hf r Hr)).
  rewrite update_where_length, update_where_sum; [done|]. intros r Hr. by destruct (Hf r Hr).
Qed.

Lemma kept_within_add policy rows row :
  completed row = false -> kept_within policy rows -> kept_within policy (rows ++ [row]).
Proof. intros E. unfold kept_within. rewrite where_app. simpl. by rewrite E, app_nil_r. Qed.

(** ** Eviction *)

Definition entries_of rows : Z := Z.of_nat (length (where_ completed rows)).
Definition bytes_in rows : Z := sum_of kept_size (where_ completed rows).

(** The reference of the retention loop: while over the policy, remove the
    completed record used least recently. *)
Fixpoint evict_rounds (rounds : nat) (policy : RetentionPolicy) rows : list (KeptRow K) :=
  match rounds with
  | O => rows
  | S rounds' =>
      if within_policy policy (entries_of rows) (bytes_in rows) then rows
      else evict_rounds rounds' policy (evict_least_used rows).1
  end.

Lemma evict_rounds_S rounds policy rows :
  evict_rounds (S rounds) policy rows
  = if within_policy policy (entries_of rows) (bytes_in rows) then rows
    else evict_rounds rounds policy (evict_least_used rows).1.
Proof. done. Qed.

Lemma within_policy_iff policy entries bytes :
  0 <= entries <= i64_max -> 0 <= bytes <= i64_max ->
  within_policy policy entries bytes = true
  <-> entries <= max_entries policy /\ bytes <= max_bytes policy.
Proof.
  unfold i64_max. intros He Hb. unfold within_policy.
  rewrite !Z.mod_small by lia. by rewrite andb_true_iff, !Z.leb_le.
Qed.

Lemma bytes_in_nonneg n rows : kept_rows_ok n rows -> 0 <= bytes_in rows.
Proof.
  intros Hok. apply sum_of_nonneg. intros r [Hr _]%where_In. by eapply kept_sizes_nonneg.
Qed.

(** A table with a completed record has a least recently used one. *)
Lemma evict_least_used_spec n rows :
  kept_rows_ok n rows -> 0 < entries_of rows ->
  exists victim, In victim rows /\ completed victim = true
    /\ (forall r, In r rows -> completed r = true -> kept_last_used victim <= kept_last_used r)
    /\ evict_least_used rows = (delete_where (at_key (kept_key victim)) rows, 1)
    /\ rows ≡ₚ victim :: delete_where (at_key (kept_key victim)) rows.
Proof.
  intros (Hk & _ & _) Hpos. unfold evict_least_used, least_used.
  change (where_ is_complete rows) with (where_ completed rows).
  destruct (head _) as [victim|] eqn:F.
  - apply head_order_asc in F as (Hin & Hc & Hle). exists victim.
    assert (forall x, at_key (kept_key victim) x = true <-> kept_key x = kept_key victim) as Hp
      by (intros x; apply at_key_spec).
    repeat split; [done..| |].
    + f_equal. unfold count_where. by rewrite (where_unique kept_key _ victim Hp).
    + by apply (delete_where_perm kept_key).
  - pose proof (head_order_asc_None _ _ _ F) as Hno. unfold entries_of in Hpos.
    rewrite where_none in Hpos by done. simpl in Hpos. lia.
Qed.

Lemma evict_counts n rows victim :
  kept_rows_ok n rows -> completed victim = true ->
  rows ≡ₚ victim :: delete_where (at_key (kept_key victim)) rows ->
  let rows' := delete_where (at_key (kept_key victim)) rows in
  entries_of rows = entries_of rows' + 1 /\ bytes_in rows = kept_size victim + bytes_in rows'.
Proof.
  intros Hok Hc Hp. simpl. unfold entries_of, bytes_in.
  rewrite Hp at 1 3. simpl. rewrite Hc. simpl. lia.
Qed.

(** The completed records used after the sequence number [q], and whether
    records exceed a policy. *)
Definition used_since (q : Z) rows : list (KeptRow K) :=
  where_ (fun r => completed r && (q <? kept_last_used r)) rows.
Definition exceeds (policy : RetentionPolicy) rows : Prop :=
  max_entries policy < Z.of_nat (length rows) \/ max_bytes policy < sum_of kept_size rows.

Lemma exceeds_delete policy n rows p q :
  kept_rows_ok n rows -> exceeds policy (used_since q (delete_where p rows)) -> exceeds policy (used_since q rows).
Proof.
  intros Hok [He|Hb]; [left|right]; unfold used_since in *.
  - pose proof (delete_where_count_le p (fun r => completed r && (q <? kept_last_used r)) rows).
    unfold count_where in *. lia.
  - pose proof (delete_where_sum_le p (fun r => completed r && (q <? kept_last_used r)) kept_size rows
      (fun r => kept_sizes_nonneg n rows r Hok)). lia.
Qed.

(** When every completed record was used since, all of them count. *)
Lemma used_since_all q rows :
  (forall r, In r rows -> completed r = true -> q < kept_last_used r) ->
  used_since q rows = where_ completed rows.
Proof.
  intros Hq. apply where_ext. intros r Hr. destruct (completed r) eqn:E; [|done].
  by apply Z.ltb_lt, Hq.
Qed.

(** What the retention loop leaves: everything it must keep, within the
    policy, and of the completed records the most recently used; a record it
    removes had no room beside those used since. *)
Record retention_result (policy : RetentionPolicy) (n : Z) rows (rest : list (KeptRow K)) : Prop := {
  rest_ok : kept_rows_ok n rest;
  rest_within : kept_within policy rest;
  rest_of : forall r, In r rest -> In r rows;
  rest_leases : forall r, In r rows -> completed r = false -> In r rest;
  rest_recent : forall r x, In r rest -> completed r = true -> In x rows -> ~ In x rest ->
    kept_last_used x <= kept_last_used r;
  rest_needed : forall x q, In x rows -> ~ In x rest -> q < kept_last_used x ->
    exceeds policy (used_since q rows);
}.

Definition countable_rows rows : Prop := entries_of rows <= i64_max /\ bytes_in rows <= i64_max.

Lemma countable_evict n rows victim :
  kept_rows_ok n rows -> completed victim = true ->
  rows ≡ₚ victim :: delete_where (at_key (kept_key victim)) rows ->
  countable_rows rows -> countable_rows (delete_where (at_key (kept_key victim)) rows).
Proof.
  intros Hok Hc Hp [He Hb]. destruct (evict_counts n rows victim Hok Hc Hp) as [E1 E2].
  assert (0 <= kept_size victim).
  { eapply kept_sizes_nonneg; [done|]. apply list_elem_of_In. rewrite Hp. apply list_elem_of_here. }
  unfold countable_rows. lia.
Qed.

Lemma over_policy_nonempty policy n rows :
  kept_rows_ok n rows -> countable_rows rows -> 0 <= max_entries policy -> 0 <= max_bytes policy ->
  within_policy policy (entries_of rows) (bytes_in rows) = false -> 0 < entries_of rows.
Proof.
  intros Hok [He Hb] Hme Hmb Hover. pose proof (bytes_in_nonneg n rows Hok).
  destruct (Z.eq_dec (entries_of rows) 0) as [Z0|]; [|unfold entries_of in *; lia].
  apply not_true_iff_false in Hover. destruct Hover. apply within_policy_iff; [lia..|].
  unfold entries_of, bytes_in in *. destruct (where_ completed rows); simpl in *; lia.
Qed.

Lemma evict_rounds_spec rounds policy n rows :
  kept_rows_ok n rows -> countable_rows rows -> 0 <= max_entries policy -> 0 <= max_bytes policy ->
  entries_of rows < Z.of_nat rounds -> retention_result policy n rows (evict_rounds rounds policy rows).
Proof.
  intros Hok Hc Hme Hmb. revert rows Hok Hc.
  induction rounds as [|rounds IH]; intros rows Hok Hc Hr; [unfold entries_of in Hr; lia|].
  simpl. destruct (within_policy _ _ _) eqn:W.
  - apply within_policy_iff in W as [? ?]; [|unfold entries_of in *; destruct Hc; unfold entries_of in *; lia
      |pose proof (bytes_in_nonneg n rows Hok); destruct Hc; lia].
    split; [done|by split|done|done| |]; intros; done.
  - pose proof (over_policy_nonempty policy n rows Hok Hc Hme Hmb W) as Hpos.
    destruct (evict_least_used_spec n rows Hok Hpos) as (victim & Hv & Hcv & Hle & -> & Hp). simpl.
    destruct (evict_counts n rows victim Hok Hcv Hp) as [E1 _].
    destruct (IH (delete_where (at_key (kept_key victim)) rows)) as [R1 R2 R3 R4 R5 R6];
      [by apply kept_rows_ok_delete|by eapply countable_evict|lia|].
    assert (forall x, In x rows -> x = victim \/ In x (delete_where (at_key (kept_key victim)) rows)) as Hsplit.
    { intros x Hx%list_elem_of_In. rewrite Hp in Hx. apply elem_of_cons in Hx as [->|Hx]; [by left|].
      right. by apply list_elem_of_In. }
    split; [done|done| | | |].
    + intros r Hrr. apply R3 in Hrr. by apply delete_where_In in Hrr as [? _].
    + intros r Hrr Hinc. apply R4; [|done]. destruct (Hsplit r Hrr) as [->|]; [congruence|done].
    + intros r x Hrr Hcr Hx Hno. destruct (Hsplit x Hx) as [->|Hx']; [|by apply R5].
      apply Hle; [|done]. apply R3, delete_where_In in Hrr. by destruct Hrr.
    + intros x q Hx Hno Hq. destruct (Hsplit x Hx) as [->|Hx']; [|eapply exceeds_delete, R6; done].
      rewrite used_since_all by (intros r Hin Hcr; specialize (Hle r Hin Hcr); lia).
      pose proof (bytes_in_nonneg n rows Hok). destruct Hc as [Hc1 Hc2].
      apply not_true_iff_false in W. rewrite within_policy_iff in W by (unfold entries_of in *; lia).
      unfold exceeds. fold (entries_of rows) (bytes_in rows). lia.
Qed.

Lemma entries_below rows : entries_of rows < Z.of_nat (S (length rows)).
Proof. unfold entries_of. pose proof (List.filter_length_le (@completed K) rows). unfold where_. lia. Qed.

(** One round per row, and the last that finds the table within its policy. *)
Definition enforced (policy : RetentionPolicy) rows : list (KeptRow K) :=
  evict_rounds (S (length rows)) policy rows.

Lemma enforced_spec policy n rows :
  kept_rows_ok n rows -> countable_rows rows -> 0 <= max_entries policy -> 0 <= max_bytes policy ->
  retention_result policy n rows (enforced policy rows).
Proof. intros. apply evict_rounds_spec; try done. apply entries_below. Qed.

(** A record used after all the others, that fits alone, is never evicted. *)
Lemma evict_rounds_newest rounds policy n rows row :
  kept_rows_ok n rows -> countable_rows rows -> 1 <= max_entries policy ->
  In row rows -> completed row = true -> kept_size row <= max_bytes policy ->
  (forall r, In r rows -> r <> row -> kept_last_used r < kept_last_used row) ->
  In row (evict_rounds rounds policy rows).
Proof.
  intros Hok Hc Hme. revert rows Hok Hc.
  induction rounds as [|rounds IH]; intros rows Hok Hc Hrow Hcr Hsz Hnew; [done|].
  simpl. destruct (within_policy _ _ _) eqn:W; [done|].
  pose proof (kept_sizes_nonneg n rows row Hok Hrow) as Hsz0.
  destruct (evict_least_used_spec n rows Hok) as (victim & Hv & Hcv & Hle & -> & Hp).
  { apply (over_policy_nonempty policy n); try done; lia. }
  simpl. destruct (evict_counts n rows victim Hok Hcv Hp) as [E1 E2].
  assert (victim <> row) as Hne.
  { intros ->. assert (where_ completed (delete_where (at_key (kept_key row)) rows) = []) as Hnil.
    { apply where_none. intros r Hr. apply delete_where_In in Hr as [Hr Hk].
      apply not_true_iff_false. intros Hcr'. specialize (Hle r Hr Hcr').
      assert (r <> row) as Hd.
      { intros ->. apply not_true_iff_false in Hk. destruct Hk. by apply at_key_spec. }
      specialize (Hnew r Hr Hd). lia. }
    unfold entries_of, bytes_in in E1, E2. rewrite Hnil in E1, E2. simpl in E1, E2.
    apply not_true_iff_false in W. apply W. unfold entries_of, bytes_in.
    destruct Hc as [Hc1 Hc2]. unfold entries_of, bytes_in in Hc1, Hc2. apply within_policy_iff; lia. }
  apply IH; try done; [by apply kept_rows_ok_delete|by eapply countable_evict| |].
  - apply delete_where_In. split; [done|]. apply not_true_iff_false. rewrite at_key_spec.
    intros E. destruct Hok as (Hk & _). destruct Hne. symmetry. by eapply (unique_column kept_key).
  - intros r Hr. apply delete_where_In in Hr as [Hr _]. by apply Hnew.
Qed.
End Rows.

Section Table.
Context `{Faults} {K : Type} `{EqDecision K}.
Context (table : Tables -> list (KeptRow K)) (set_table : Tables -> list (KeptRow K) -> Tables)
  (policy_of : Config -> RetentionPolicy) `{!KeptTable table set_table policy_of} (cfg : Config).
Implicit Types (t : Tables) (rows : list (KeptRow K)).

(** ** Decisions *)

Definition live (now : Z) t : list (KeptRow K) := delete_where (outdated now) (table t).

(** A record found after the cleanup decides by its digest and its state; the
    branch that takes over an expired lease is never reached, because the
    cleanup has removed every expired lease. *)
Definition decide_post (t0 : Tables) key digest owner now policy (r : result Decided StateError) t
  : Prop :=
  inv cfg t
  /\ match r with
     | Err _ => t = t0
     | Ok decided =>
         match head (where_ (at_key key) (live now t0)) with
         | None =>
             decided = DExecute
             /\ table t = live now t0 ++ [fresh_lease key digest owner
                  (now + as_millis (retention_lease policy)) (sequence t0 + 1)]
         | Some row =>
             if bool_decide (kept_digest row = digest) then
               if is_complete row then
                 decided = DReplay (kept_result row)
                 /\ table t = update_where (at_key key) (touch (sequence t0 + 1)) (live now t0)
               else decided = DInProgress /\ table t = live now t0
             else decided = DConflict /\ table t = live now t0
         end
     end.

Lemma kept_row_ok t r : store_ok t -> In r (table t) -> kept_ok r.
Proof.
  intros Hok Hr. apply kt_rows_ok in Hok as (_ & _ & Hall). rewrite List.Forall_forall in Hall.
  by apply Hall.
Qed.

Lemma outdated_lease now (row : KeptRow K) until :
  kept_status row = 0 -> kept_lease_until row = Some until -> outdated now row = false -> now < until.
Proof.
  intros Hs Hu. unfold outdated. rewrite Hs, Hu. simpl. intros ?%Z.leb_gt. lia.
Qed.

Lemma wp_decide_kept key digest owner now policy s :
  inv cfg (durable s) -> working s = durable s ->
  wp (decide_kept table set_table key digest owner now policy)
    (at_rest (decide_post (durable s) key digest owner now policy)) s.
Proof.
  intros Hd Hdw. unfold decide_kept, cleanup. do 4 wp_step. rewrite Hdw.
  pose proof Hd as [Hok Hw]. pose proof (kt_rows_ok _ Hok) as Hrows.
  set (rows := live now (durable s)). fold (live now (durable s)). fold rows.
  assert (kept_rows_ok (sequence (durable s)) rows) as Hlive by (by apply kept_rows_ok_delete).
  assert (kept_within (policy_of cfg) rows) as Hwithin
    by (eapply kept_within_delete; [done|by apply kt_within]).
  assert (inv cfg (set_table (durable s) rows)) as Hinv by (by apply kt_set_inv).
  unfold find_kept. rewrite kt_get_set. unfold decide_post. fold rows.
  destruct (head (where_ _ rows)) as [row|] eqn:F.
  - apply head_where in F as [Hrow Hkey]. case_bool_decide as Hdig; cbn [negb].
    2: { do 3 wp_step. split; [done|]. simpl. by rewrite kt_get_set. }
    assert (kept_ok row) as Hkept
      by (eapply kept_row_ok; [by apply kt_set_ok|by rewrite kt_get_set]).
    unfold is_complete.
    destruct Hkept as [(Hs & _ & _ & _ & _ & [until Hu])|(Hs & Ho & Hu & Hexp & Hres)]; rewrite Hs; simpl.
    + apply delete_where_In in Hrow as [_ Hout]. rewrite Hu.
      pose proof (outdated_lease _ _ _ Hs Hu Hout) as L. rewrite (proj2 (Z.ltb_lt _ _) L).
      do 3 wp_step. split; [done|]. simpl. by rewrite kt_get_set.
    + wp_step. apply wp_next_sequence; [wp_fail|]. simpl. intros m Hmax.
      rewrite kt_sequence_set in *. do 5 wp_step. rewrite kt_get_sequence, kt_get_set.
      split; [|simpl; by rewrite kt_get_set].
      cbn [durable]. apply kt_set_inv; [| |apply inv_sequence; [rewrite kt_sequence_set; lia|done]].
      * simpl. apply at_key_spec in Hkey. apply (kept_rows_ok_update _ _ _ _ row); try done.
        -- intros r. by rewrite at_key_spec, Hkey.
        -- right. by split_and!.
      * by apply kept_within_update.
  - wp_step. apply wp_next_sequence; [wp_fail|]. simpl. intros m Hmax.
    rewrite kt_sequence_set in *. do 2 wp_step. apply checked_deadline_value in E as ->.
    do 5 wp_step. rewrite kt_get_sequence, kt_get_set.
    split; [|simpl; by rewrite kt_get_set].
    cbn [durable]. apply kt_set_inv; [| |apply inv_sequence; [rewrite kt_sequence_set; lia|done]].
    + simpl. apply kept_rows_ok_add; [done| |done|].
      * left. simpl. repeat split; by eexists.
      * intros r Hr Hk. pose proof (proj1 (head_where_None _ _) F r Hr) as E.
        apply at_key_spec in Hk. simpl in Hk. congruence.
    + by apply kept_within_add.
Qed.

(** ** Retention and completions *)

Lemma wp_enforce_rounds rounds policy s Q :
  let rows := table (working s) in
  kept_rows_ok (sequence (working s)) rows -> countable_rows rows ->
  0 <= max_entries policy -> 0 <= max_bytes policy -> entries_of rows < Z.of_nat rounds ->
  (forall e n w, faulted -> Q (Err e) (mkSession n (durable s) w)) ->
  (forall n, Q (Ok tt) (mkSession n (durable s)
                          (set_table (working s) (evict_rounds rounds policy rows)))) ->
  wp (enforce_rounds table set_table rounds policy) Q s.
Proof.
  cbv zeta. intros Hok Hc Hme Hmb. revert s Hok Hc.
  induction rounds as [|rounds IH]; intros s Hok Hc Hr Herr Hdone; [unfold entries_of in Hr; lia|].
  cbn [enforce_rounds]. apply wp_bind. apply wp_statement.
  { intros e n w [F|R]; [by apply Herr|]. unfold count_and_sum in R.
    destruct (i64_checked _) eqn:E; [done|]. apply i64_checked_None in E.
    pose proof (bytes_in_nonneg _ _ Hok). destruct Hc as [_ Hb].
    change (where_ is_complete) with (where_ (@completed K)) in E.
    unfold bytes_in, i64_min in *. lia. }
  intros n t' [entries bytes] (-> & -> & ->)%count_and_sum_Some.
  change (where_ is_complete) with (where_ (@completed K)).
  fold (entries_of (table (working s))). fold (bytes_in (table (working s))).
  rewrite evict_rounds_S in Hdone. wp_step.
  { apply wp_ret. specialize (Hdone n). by rewrite kt_set_get in Hdone. }
  pose proof (over_policy_nonempty policy _ _ Hok Hc Hme Hmb E) as Hpos.
  destruct (evict_least_used_spec _ _ Hok Hpos) as (victim & Hv & Hcv & Hle & Hev & Hp).
  rewrite Hev in Hdone. cbn [fst] in Hdone.
  destruct (evict_counts _ _ victim Hok Hcv Hp) as [E1 _].
  apply wp_bind, wp_statement; [intros e m w [F|R]; [by apply Herr|done]|].
  cbn [working durable]. rewrite Hev. intros m t' evicted [= <- <-]. simpl (negb _). cbv iota.
  apply IH; cbn [working durable]; rewrite ?kt_get_set, ?kt_sequence_set.
  - by apply kept_rows_ok_delete.
  - by eapply countable_evict.
  - lia.
  - done.
  - intros k. by rewrite kt_set_set.
Qed.

Lemma wp_enforce_table_limits policy s Q :
  let rows := table (working s) in
  kept_rows_ok (sequence (working s)) rows -> countable_rows rows ->
  0 <= max_entries policy -> 0 <= max_bytes policy ->
  (forall e n w, faulted -> Q (Err e) (mkSession n (durable s) w)) ->
  (forall n, Q (Ok tt) (mkSession n (durable s) (set_table (working s) (enforced policy rows)))) ->
  wp (enforce_table_limits table set_table policy) Q s.
Proof.
  cbv zeta. intros Hok Hc Hme Hmb Herr Hdone.
  change (wp (enforce_rounds table set_table (S (length (table (working s)))) policy) Q s).
  apply wp_enforce_rounds; try done. apply entries_below.
Qed.

(** The row a completion writes. *)
Definition completed_row (key : K) (digest value : string) (expires_at sequence : Z) : KeptRow K :=
  mkKeptRow key digest 1 None None (Some value) (Some expires_at) sequence (str_len value).

Definition complete_post (t0 : Tables) key digest owner value now policy
    (r : result unit StateError) t : Prop :=
  inv cfg t
  /\ match r with
     | Err _ =>
         t = t0 /\ (faulted \/ i64_max < sequence t0 + 1 \/ i64_max < now + as_millis (ttl policy)
                    \/ now + as_millis (ttl policy) < i64_min
                    \/ forall row, In row (table t0) -> leased_by key digest owner row = false)
     | Ok _ =>
         let row := completed_row key digest value (now + as_millis (ttl policy)) (sequence t0 + 1) in
         In row (table t)
         /\ (exists lease, In lease (table t0) /\ leased_by key digest owner lease = true)
         /\ retention_result policy (sequence t0 + 1)
              (update_where (leased_by key digest owner)
                 (close_with value (now + as_millis (ttl policy)) (sequence t0 + 1)) (table t0))
              (table t)
     end.

Lemma leased_by_spec key digest owner (r : KeptRow K) :
  leased_by key digest owner r = true
  <-> kept_key r = key /\ kept_digest r = digest /\ kept_status r = 0 /\ kept_owner r = Some owner.
Proof.
  unfold leased_by. rewrite !andb_true_iff, at_key_spec, !bool_decide_eq_true, Z.eqb_eq. naive_solver.
Qed.

Lemma as_millis_bounded policy limits :
  retention_validate policy limits = Ok tt ->
  0 <= as_millis (ttl policy) <= i64_max /\ 1 <= max_entries policy <= 65536
  /\ 1 <= max_bytes policy <= MAX_REPLAY_BYTES.
Proof.
  unfold retention_validate. intros (u & L & V)%result_bind_Ok.
  unfold limits_validate, contains_range in *.
  destruct (_ || _) eqn:E1 in L; [done|]. destruct (_ || _) eqn:E2 in V; [done|].
  bool_facts. unfold valid_millis in *. bool_facts.
  z_facts.
  unfold MAX_REPLAY_TTL, from_secs, from_millis, NANOS_PER_MILLI, MAX_REPLAY_ENTRIES, MAX_REPLAY_BYTES in *.
  split; [|lia]. unfold as_millis, NANOS_PER_MILLI, i64_max.
  split; [apply Z.div_pos; lia|]. apply Z.div_le_upper_bound; lia.
Qed.

Lemma checked_deadline_fails now d e :
  0 <= as_millis d <= i64_max -> checked_deadline now d = Err e ->
  i64_max < now + as_millis d \/ now + as_millis d < i64_min.
Proof.
  intros Hd. unfold checked_deadline. rewrite (proj2 (i64_checked_Some _ (as_millis d))).
  - simpl. destruct (i64_checked _) eqn:E; [done|]. apply i64_checked_None in E. lia.
  - unfold i64_min. split; [done|lia].
Qed.

Lemma close_with_ok value expires_at n (r : KeptRow K) : kept_ok (close_with value expires_at n r).
Proof. right. simpl. split_and!; try done. by exists value. Qed.

(** Before a completion the table is within its policy; after it, one record
    more is complete. *)
Lemma countable_complete policy n rows p f row :
  kept_rows_ok n rows -> kept_within policy rows -> 1 <= max_entries policy <= 65536 ->
  max_bytes policy <= MAX_REPLAY_BYTES -> kept_size (f row) <= MAX_REPLAY_BYTES ->
  (forall r, p r = true <-> kept_key r = kept_key row) -> In row rows -> completed row = false ->
  countable_rows (update_where p f rows).
Proof.
  intros Hok [Hc Hs] Hme Hmb Hsz Hp Hrow Hinc. pose proof Hok as (Hk & _).
  unfold countable_rows, entries_of, bytes_in.
  rewrite (update_where_perm kept_key p row Hp f rows Hk Hrow). simpl.
  pose proof (kept_within_delete policy n rows p Hok (conj Hc Hs)) as [Hc' Hs'].
  unfold MAX_REPLAY_BYTES, i64_max in *. destruct (completed (f row)); simpl; lia.
Qed.

(** What the completing update does to the rows. *)
Record completion_step (policy : RetentionPolicy) (n : Z) key digest owner value expires_at rows : Prop := {
  step_count : count_where (leased_by key digest owner) rows = 1;
  step_ok : kept_rows_ok (n + 1)
    (update_where (leased_by key digest owner) (close_with value expires_at (n + 1)) rows);
  step_countable : countable_rows
    (update_where (leased_by key digest owner) (close_with value expires_at (n + 1)) rows);
  step_row : In (completed_row key digest value expires_at (n + 1))
    (update_where (leased_by key digest owner) (close_with value expires_at (n + 1)) rows);
  step_newest : forall r,
    In r (update_where (leased_by key digest owner) (close_with value expires_at (n + 1)) rows) ->
    r <> completed_row key digest value expires_at (n + 1) -> kept_last_used r < n + 1;
}.

Lemma completion_step_holds policy n key digest owner value expires_at rows lease :
  kept_rows_ok n rows -> kept_within policy rows -> 1 <= max_entries policy <= 65536 ->
  max_bytes policy <= MAX_REPLAY_BYTES -> str_len value <= max_bytes policy ->
  In lease rows -> leased_by key digest owner lease = true ->
  completion_step policy n key digest owner value expires_at rows.
Proof.
  intros Hok Hw Hme Hmb Hlen Hlease Hp. pose proof Hok as (Hnd & _ & Hall).
  rewrite List.Forall_forall in Hall.
  assert (forall r, In r rows -> leased_by key digest owner r = at_key key r) as Hkeyed.
  { intros r Hr. apply leased_by_spec in Hp as (Hk & Hdg & Hst & Hown).
    destruct (at_key key r) eqn:A; [|unfold leased_by; by rewrite A].
    apply at_key_spec in A.
    assert (r = lease) as -> by (eapply (unique_column kept_key); [done..|congruence]).
    by apply leased_by_spec. }
  pose proof Hp as (Hk & Hdg & Hst & _)%leased_by_spec.
  assert (forall r, at_key key r = true <-> kept_key r = kept_key lease) as Hkey
    by (intros r; by rewrite at_key_spec, Hk).
  assert (update_where (leased_by key digest owner) (close_with value expires_at (n + 1)) rows
    = update_where (at_key key) (close_with value expires_at (n + 1)) rows) as Hup.
  { apply map_ext_in. intros r Hr. by rewrite Hkeyed. }
  assert (completed_row key digest value expires_at (n + 1) = close_with value expires_at (n + 1) lease)
    as Hrow by (unfold completed_row, close_with; by rewrite Hk, Hdg).
  split; rewrite ?Hup, ?Hrow.
  - unfold count_where. rewrite (where_ext _ _ _ Hkeyed).
    by rewrite (where_unique kept_key _ lease Hkey).
  - apply (kept_rows_ok_update _ _ _ _ lease); try done. apply close_with_ok.
  - apply (countable_complete policy n _ _ _ lease); try done; [simpl; lia|].
    unfold completed. by rewrite Hst.
  - apply update_where_In. exists lease. by rewrite <- Hkeyed, Hp by done.
  - intros r (r0 & Hr0 & ->)%update_where_In Hne. destruct (at_key key r0) eqn:A.
    + destruct Hne. f_equal. apply at_key_spec in A. eapply (unique_column kept_key); [done..|congruence].
    + destruct (Hall r0 Hr0). lia.
Qed.

Lemma wp_complete_kept key digest owner value now policy stale limits s :
  policy = policy_of cfg -> retention_validate policy limits = Ok tt ->
  str_len value <= max_bytes policy -> inv cfg (durable s) -> working s = durable s ->
  wp (complete_kept table set_table key digest owner value now policy stale)
    (at_rest (complete_post (durable s) key digest owner value now policy)) s.
Proof.
  intros Hpol Hval Hlen Hd Hdw. destruct (as_millis_bounded _ _ Hval) as (Httl & Hme & Hmb).
  pose proof Hd as [Hok Hw]. unfold complete_kept. wp_step. apply wp_next_sequence.
  { intros e n w F. rewrite Hdw in F. split; [done|]. split; [done|].
    destruct F as [?|[?|F]]; [by left|by right; left|].
    destruct (sequence_ok _ Hok). unfold i64_min in F. lia. }
  rewrite Hdw. simpl. intros n Hmax. wp_step. apply wp_lift.
  destruct (checked_deadline _ _) as [expires_at|e] eqn:E.
  2: { apply checked_deadline_fails in E; [|done]. split; [done|]. simpl. split; [done|]. tauto. }
  apply checked_deadline_value in E as ->.
  apply wp_bind, wp_statement; [intros e m w [F|R]; [|done]; split; [done|]; simpl; by auto|].
  cbn [working durable]. rewrite kt_get_sequence. intros m t' changed [= <- <-].
  destruct (where_ (leased_by key digest owner) (table (durable s))) as [|lease rest] eqn:L.
  { assert (count_where (leased_by key digest owner) (table (durable s)) = 0) as ->
      by (unfold count_where; by rewrite L).
    simpl. apply wp_err. split; [done|]. split; [done|]. do 4 right. apply head_where_None.
    by rewrite L. }
  assert (In lease (table (durable s)) /\ leased_by key digest owner lease = true) as [Hlease Hp].
  { apply where_In. rewrite L. by left. }
  destruct (completion_step_holds policy (sequence (durable s)) key digest owner value
    (now + as_millis (ttl policy)) (table (durable s)) lease) as [-> S2 S3 S4 S5]; try done; try lia.
  { by apply kt_rows_ok. } { rewrite Hpol. by apply kt_within. }
  simpl (negb _). cbv iota. wp_step.
  apply wp_enforce_table_limits; cbn [working durable]; rewrite ?kt_get_set, ?kt_sequence_set;
    try done; try lia.
  { intros e k w F. split; [done|]. simpl. auto. }
  intros k. rewrite kt_set_set. apply wp_commit; [intros e j w F; split; [done|]; simpl; auto|].
  intros j. cbn [working durable].
  pose proof (enforced_spec policy _ _ S2 S3 ltac:(lia) ltac:(lia)) as Hres.
  split; simpl.
  - apply kt_set_inv; [by apply Hres|rewrite <- Hpol; by apply Hres|]. apply inv_sequence; [lia|done].
  - rewrite kt_get_set. split; [|split; [by exists lease|done]].
    eapply evict_rounds_newest; [done|done|lia|done|done|done|]. intros r Hr Hne. by apply S5.
Qed.

(** A completed record has a result. *)
Lemma replay_has_result t0 t key digest owner now policy value :
  inv cfg t0 -> decide_post t0 key digest owner now policy (Ok (DReplay value)) t -> is_Some value.
Proof.
  intros [Hok _] [_ Hdec]. destruct (head _) as [row|] eqn:F; [|by destruct Hdec].
  apply head_where in F as [Hrow _]. apply delete_where_In in Hrow as [Hrow _].
  destruct (bool_decide _); [|by destruct Hdec].
  destruct (is_complete row) eqn:Hc; destruct Hdec as [[= ->] _].
  destruct (kept_row_ok t0 row Hok Hrow) as [(Hs & _)|(_ & _ & _ & _ & x & -> & _)]; [|done].
  unfold is_complete in Hc. by rewrite Hs in Hc.
Qed.

(** ** One decision after another *)

(** A record that is not outdated is the one the next decision finds. *)
Lemma find_live now t key row :
  inv cfg t -> In row (table t) -> kept_key row = key -> outdated now row = false ->
  head (where_ (at_key key) (live now t)) = Some row.
Proof.
  intros [Hok _] Hrow <- Hout. pose proof (kt_rows_ok _ Hok) as (Hnd & _).
  rewrite (where_unique kept_key _ row); [done| |by apply NoDup_map_delete|by apply delete_where_In].
  intros x. apply at_key_spec.
Qed.

(** A call under a live lease is busy. *)
Lemma leased_busy t t' row key digest owner until_ digest' owner' now policy decided :
  inv cfg t -> In row (table t) -> leased_by key digest owner row = true ->
  kept_lease_until row = Some until_ -> now < until_ ->
  decide_post t key digest' owner' now policy (Ok decided) t' ->
  decided = if bool_decide (digest = digest') then DInProgress else DConflict.
Proof.
  intros Hi Hrow (Hk & <- & Hs & _)%leased_by_spec Hu Hnow [_ D].
  rewrite (find_live now t key row Hi Hrow Hk) in D.
  - unfold is_complete in D. rewrite Hs in D. simpl in D. case_bool_decide; by destruct D as [-> _].
  - unfold outdated. rewrite Hs, Hu. simpl. by apply Z.leb_gt.
Qed.

(** A call with a result that has not expired is answered with it. *)
Lemma recorded_answers t t' key digest value expires_at u digest' owner' now policy decided :
  inv cfg t -> In (completed_row key digest value expires_at u) (table t) -> now < expires_at ->
  decide_post t key digest' owner' now policy (Ok decided) t' ->
  decided = if bool_decide (digest = digest') then DReplay (Some value) else DConflict.
Proof.
  intros Hi Hrow Hnow [_ D]. rewrite (find_live now t key _ Hi Hrow) in D; [|done|].
  - simpl in D. case_bool_decide; by destruct D as [-> _].
  - unfold outdated. simpl. rewrite orb_false_r. by apply Z.leb_gt.
Qed.

Lemma stable_abort_kept key digest owner :
  stable (inv cfg) (abort_kept table set_table key digest owner).
Proof.
  apply stable_autocommit. intros t t' a [Hok Hw] [= <- _]. apply kt_set_inv; [| |done].
  - by apply kept_rows_ok_delete, kt_rows_ok.
  - eapply kept_within_delete; [by apply kt_rows_ok|by apply kt_within].
Qed.

(** ** What happens to the table, step by step *)

#[local] Instance KeptRow_eq_dec : EqDecision (KeptRow K).
Proof. solve_decision. Defined.

Inductive KeptEvent : Type :=
| Deciding (key : K) (digest owner : string) (now : Z) (policy : RetentionPolicy)
| Completing (key : K) (digest owner value : string) (now : Z) (policy : RetentionPolicy)
| Aborting (key : K) (digest owner : string)
| Elsewhere.

Definition kept_step (e : KeptEvent) t t' : Prop :=
  match e with
  | Deciding key digest owner now policy =>
      t' = t \/ exists decided, decide_post t key digest owner now policy (Ok decided) t'
  | Completing key digest owner value now policy =>
      policy = policy_of cfg
      /\ (t' = t \/ complete_post t key digest owner value now policy (Ok tt) t')
  | Aborting key digest owner =>
      table t' = table t \/ table t' = delete_where (leased_by key digest owner) (table t)
  | Elsewhere => table t' = table t
  end.

(** A step that ends the lease, or one that decides at or after an instant. *)
Definition ends_lease (key : K) (digest owner : string) (e : KeptEvent) : Prop :=
  match e with
  | Completing key' digest' owner' _ _ _ | Aborting key' digest' owner' =>
      key' = key /\ digest' = digest /\ owner' = owner
  | _ => False
  end.
Definition decided_before (instant : Z) (e : KeptEvent) : Prop :=
  match e with Deciding _ _ _ now _ => now < instant | _ => True end.
Definition completes_key (key : K) (e : KeptEvent) : Prop :=
  match e with Completing key' _ _ _ _ _ => key' = key | _ => False end.

(** What a decision leaves of a row that is not outdated. *)
Lemma decided_row t t' key digest owner now policy decided row :
  inv cfg t -> In row (table t) -> outdated now row = false ->
  decide_post t key digest owner now policy (Ok decided) t' ->
  In row (table t')
  \/ kept_key row = key /\ completed row = true /\ In (touch (sequence t + 1) row) (table t').
Proof.
  intros Hi Hrow Hout [_ D].
  assert (In row (live now t)) as Hlive by (by apply delete_where_In).
  destruct (head (where_ (at_key key) (live now t))) as [found|] eqn:F.
  - destruct (bool_decide _); [|destruct D as [_ ->]; by left].
    destruct (is_complete found) eqn:C; [|destruct D as [_ ->]; by left].
    destruct D as [_ ->]. destruct (at_key key row) eqn:A.
    + apply at_key_spec in A. right.
      rewrite (find_live now t key row Hi Hrow A Hout) in F. injection F as <-.
      split; [done|]. split; [done|]. apply update_where_In. exists row.
      by rewrite (proj2 (at_key_spec key row) A).
    + left. apply update_where_In. exists row. by rewrite A.
  - destruct D as [_ ->]. left. apply in_app_iff. by left.
Qed.

Lemma lease_step e t t' row key digest owner until_ :
  inv cfg t -> kept_step e t t' -> In row (table t) -> leased_by key digest owner row = true ->
  kept_lease_until row = Some until_ -> ~ ends_lease key digest owner e -> decided_before until_ e ->
  In row (table t').
Proof.
  intros Hi Hs Hrow Hl Hu Hends Hb. pose proof Hl as (Hk & Hd & Hst & Ho)%leased_by_spec.
  assert (forall key' digest' owner', ~ (key' = key /\ digest' = digest /\ owner' = owner) ->
    leased_by key' digest' owner' row = false) as Hother.
  { intros key' digest' owner' Hne. apply not_true_iff_false. rewrite leased_by_spec. naive_solver. }
  destruct e as [key' digest' owner' now policy|key' digest' owner' value now policy|key' digest' owner'|];
    simpl in *.
  - destruct Hs as [->|[decided D]]; [done|].
    assert (outdated now row = false) as Hout
      by (unfold outdated; rewrite Hst, Hu; simpl; by apply Z.leb_gt).
    destruct (decided_row _ _ _ _ _ _ _ _ row Hi Hrow Hout D) as [?|(_ & C & _)]; [done|].
    unfold completed in C. by rewrite Hst in C.
  - destruct Hs as [_ [->|[_ (_ & _ & R)]]]; [done|]. apply (rest_leases _ _ _ _ R).
    + apply update_where_In. exists row. by rewrite Hother.
    + unfold completed. by rewrite Hst.
  - destruct Hs as [->| ->]; [done|]. apply delete_where_In. split; [done|]. auto.
  - by rewrite Hs.
Qed.

(** A completion finds no room for a record last used after [q] beside the
    value it records and the records used since. *)
Definition crowded (policy : RetentionPolicy) (q : Z) rows (value : string) : Prop :=
  max_entries policy < Z.of_nat (length (used_since q rows)) + 1
  \/ max_bytes policy < sum_of kept_size (used_since q rows) + str_len value.

(** Closing a lease adds its value to the records used since. *)
Lemma used_since_closed n q rows key digest owner value expires_at lease :
  kept_rows_ok n rows -> q <= n -> In lease rows -> leased_by key digest owner lease = true ->
  let closed := update_where (leased_by key digest owner) (close_with value expires_at (n + 1)) rows in
  Z.of_nat (length (used_since q closed)) = Z.of_nat (length (used_since q rows)) + 1
  /\ sum_of kept_size (used_since q closed) = sum_of kept_size (used_since q rows) + str_len value.
Proof.
  intros (Hnd & _ & _) Hq Hin Hl. cbv zeta. pose proof Hl as (Hk & Hd & Hs & Ho)%leased_by_spec.
  assert (update_where (leased_by key digest owner) (close_with value expires_at (n + 1)) rows
    = update_where (at_key key) (close_with value expires_at (n + 1)) rows) as ->.
  { apply map_ext_in. intros r Hr. destruct (at_key key r) eqn:A; [|unfold leased_by; by rewrite A].
    apply at_key_spec in A. assert (r = lease) as -> by (eapply (unique_column kept_key); [done..|congruence]).
    by rewrite Hl. }
  assert (forall r, at_key key r = true <-> kept_key r = kept_key lease) as Hkey
    by (intros r; by rewrite at_key_spec, Hk).
  assert (completed lease = false) as Hc by (unfold completed; by rewrite Hs).
  unfold used_since. rewrite (update_where_perm kept_key _ lease Hkey _ rows Hnd Hin).
  rewrite (delete_where_perm kept_key _ lease Hkey rows Hnd Hin) at 2 4.
  cbn [where_ List.filter]. rewrite Hc. cbn [andb].
  assert (completed (close_with value expires_at (n + 1) lease)
    && (q <? kept_last_used (close_with value expires_at (n + 1) lease)) = true) as ->.
  { simpl. apply Z.ltb_lt. lia. }
  split; [cbn [length]; lia|]. change (sum_of kept_size (?x :: ?l)) with (kept_size x + sum_of kept_size l). cbn [kept_size close_with]. lia.
Qed.

Lemma result_step e t t' key digest value expires_at q u :
  inv cfg t -> kept_step e t t' -> In (completed_row key digest value expires_at u) (table t) -> q < u ->
  decided_before expires_at e ->
  (exists u', q < u' /\ In (completed_row key digest value expires_at u') (table t'))
  \/ exists key' digest' owner' value' now',
       e = Completing key' digest' owner' value' now' (policy_of cfg)
       /\ crowded (policy_of cfg) q (table t) value'.
Proof.
  intros Hi Hs Hrow Hq Hb. pose proof Hi as [Hok _]. pose proof (kt_rows_ok _ Hok) as Hrows.
  assert (u <= sequence t) as Hu.
  { destruct Hrows as (_ & _ & Hall). rewrite List.Forall_forall in Hall. by destruct (Hall _ Hrow). }
  assert (forall key' digest' owner', leased_by key' digest' owner'
    (completed_row key digest value expires_at u) = false) as Hnot.
  { intros. apply not_true_iff_false. rewrite leased_by_spec. simpl. naive_solver. }
  destruct e as [key' digest' owner' now policy|key' digest' owner' value' now policy|key' digest' owner'|];
    simpl in Hs, Hb.
  - left. destruct Hs as [->|[decided D]]; [by exists u|].
    assert (outdated now (completed_row key digest value expires_at u) = false) as Hout
      by (unfold outdated; simpl; rewrite orb_false_r; by apply Z.leb_gt).
    destruct (decided_row _ _ _ _ _ _ _ _ _ Hi Hrow Hout D) as [?|(_ & _ & Ht)]; [by exists u|].
    exists (sequence t + 1). split; [lia|exact Ht].
  - destruct Hs as [-> [->|[_ (_ & (lease & Hin & Hl) & R)]]]; [left; by exists u|].
    assert (In (completed_row key digest value expires_at u)
      (update_where (leased_by key' digest' owner')
         (close_with value' (now + as_millis (ttl (policy_of cfg))) (sequence t + 1)) (table t))) as Hin'.
    { apply update_where_In. eexists. split; [exact Hrow|]. by rewrite Hnot. }
    destruct (in_dec (fun a b : KeptRow K => decide (a = b)) (completed_row key digest value expires_at u) (table t'))
      as [?|Hno]; [left; by exists u|]. right. exists key', digest', owner', value', now. split; [done|].
    pose proof (rest_needed _ _ _ _ R _ q Hin' Hno Hq) as X.
    destruct (used_since_closed (sequence t) q (table t) key' digest' owner' value'
      (now + as_millis (ttl (policy_of cfg))) lease Hrows ltac:(lia) Hin Hl) as [E1 E2].
    unfold exceeds in X. rewrite E1, E2 in X. done.
  - left. exists u. split; [done|]. destruct Hs as [->| ->]; [done|]. apply delete_where_In. by rewrite Hnot.
  - left. exists u. by rewrite Hs.
Qed.

(** Every result recorded under the key is the one given. *)
Definition only_result (key : K) (digest value : string) (expires_at : Z) t : Prop :=
  forall r, In r (table t) -> kept_key r = key -> completed r = true ->
    kept_digest r = digest /\ kept_result r = Some value /\ kept_expires_at r = Some expires_at.

Lemma only_result_step e t t' key digest value expires_at :
  kept_step e t t' -> ~ completes_key key e ->
  only_result key digest value expires_at t -> only_result key digest value expires_at t'.
Proof.
  intros Hs Hne Ho. unfold only_result in *.
  destruct e as [key' digest' owner' now policy|key' digest' owner' value' now policy|key' digest' owner'|];
    simpl in Hs, Hne.
  - destruct Hs as [->|[decided [_ D]]]; [done|].
    assert (forall r, In r (live now t) -> kept_key r = key -> completed r = true ->
      kept_digest r = digest /\ kept_result r = Some value /\ kept_expires_at r = Some expires_at) as Hl.
    { intros r [Hr _]%delete_where_In. auto. }
    destruct (head _) as [found|].
    + destruct (bool_decide _); [|by destruct D as [_ ->]].
      destruct (is_complete found); destruct D as [_ ->]; [|done].
      intros r (r0 & Hr0 & ->)%update_where_In. destruct (at_key key' r0); exact (Hl r0 Hr0).
    + destruct D as [_ ->]. intros r [Hr|[<-|[]]]%in_app_iff; [by apply Hl|done].
  - destruct Hs as [_ [->|[_ (_ & _ & R)]]]; [done|].
    intros r (r0 & Hr0 & ->)%(rest_of _ _ _ _ R)%update_where_In.
    destruct (leased_by key' digest' owner' r0) eqn:L; [|by apply Ho]. simpl. intros Hk.
    apply leased_by_spec in L as (Hk' & _). congruence.
  - destruct Hs as [->| ->]; [done|]. intros r [Hr _]%delete_where_In. auto.
  - by rewrite Hs.
Qed.

(** A decision answers with a recorded result only before it expires. *)
Lemma only_result_answers t t' key digest value expires_at digest' owner' now policy found :
  only_result key digest value expires_at t ->
  decide_post t key digest' owner' now policy (Ok (DReplay found)) t' ->
  found = Some value /\ digest = digest' /\ now < expires_at.
Proof.
  intros Ho [_ D]. destruct (head _) as [row|] eqn:F; [|by destruct D].
  apply head_where in F as [Hrow Hk]. apply delete_where_In in Hrow as [Hrow Hout].
  case_bool_decide as Hd; [|by destruct D]. destruct (is_complete row) eqn:C; [|by destruct D].
  destruct D as [[= ->] _]. destruct (Ho row Hrow ltac:(by apply at_key_spec in Hk) C) as (<- & -> & He).
  split; [done|]. split; [done|]. unfold outdated in Hout. rewrite He in Hout.
  unfold is_complete in C. rewrite C in Hout. simpl in Hout. apply orb_false_iff in Hout as [?%Z.leb_gt _]. lia.
Qed.
End Table.

#[global] Arguments KeptEvent : clear implicits.

(** ** The operations *)

Section Operations.
Context `{Faults} (cfg : Config).

(** What an operation that decides leaves and answers. *)
Definition decision_post {K D} `{EqDecision K} (table : Tables -> list (KeptRow K)) (t0 : Tables)
    key digest owner now policy (answer : Decided -> D) (r : result D StateError) (t : Tables) : Prop :=
  inv cfg t
  /\ match r with
     | Err _ => t = t0
     | Ok decision => exists decided,
         decide_post table cfg t0 key digest owner now policy (Ok decided) t
         /\ decision = answer decided
     end.

Definition replay_answer (request : ReplayRequest) (decided : Decided) : ReplayDecision :=
  match decided with
  | DExecute => Execute (mkReplayLease (artifact request) (kind request) (operation request)
                           (input_digest request) (owner request))
  | DReplay value => Replay (default "" value)
  | DConflict => Conflict
  | DInProgress => InProgress
  end.

Lemma wp_replay_decision self request policy s :
  inv cfg (durable s) ->
  wp (replay_decision self request policy)
    (at_rest (decision_post replay_table (durable s) (request_key request) (input_digest request)
                (owner request) (now_millis request) policy (replay_answer request))) s.
Proof.
  intros Hd. unfold replay_decision. do 14 wp_step.
  eapply wp_mono; [apply (wp_decide_kept replay_table set_replay config_replay cfg); done|].
  simpl. intros [decided|e] s' D; [|done]. pose proof D as [Hi _].
  destruct decided as [|value| |]; try (wp_step; split; [done|]; by eexists).
  destruct (replay_has_result replay_table set_replay config_replay cfg _ _ _ _ _ _ _ _ Hd D)
    as [x ->].
  apply wp_lift. split; [done|]. by eexists.
Qed.

Definition idempotency_answer (artifact key digest owner : string) (decided : Decided)
  : IdempotencyDecision :=
  match decided with
  | DExecute => IdempotencyExecute (mkIdempotencyLease artifact key digest owner)
  | DReplay value => IdempotencyReplay (default "" value)
  | DConflict => IdempotencyConflict
  | DInProgress => IdempotencyInProgress
  end.

Lemma wp_idempotency_decision self artifact key digest owner now policy s :
  inv cfg (durable s) ->
  wp (idempotency_decision self artifact key digest owner now policy)
    (at_rest (decision_post idempotency_table (durable s) (artifact, key) digest owner now policy
                (idempotency_answer artifact key digest owner))) s.
Proof.
  intros Hd. unfold idempotency_decision. do 14 wp_step.
  eapply wp_mono; [apply (wp_decide_kept idempotency_table set_idempotency config_idempotency cfg); done|].
  simpl. intros [decided|e] s' D; [|done]. pose proof D as [Hi _].
  destruct decided as [|value| |]; try (wp_step; split; [done|]; by eexists).
  destruct (replay_has_result idempotency_table set_idempotency config_idempotency cfg
              _ _ _ _ _ _ _ _ Hd D) as [x ->].
  apply wp_lift. split; [done|]. by eexists.
Qed.

(** A completion either leaves the store as it was, or completes the lease. *)
Definition completion_post {K} `{EqDecision K} (table : Tables -> list (KeptRow K)) (t0 : Tables)
    key digest owner value now policy (r : result unit StateError) (t : Tables) : Prop :=
  inv cfg t
  /\ match r with
     | Err _ => t = t0
     | Ok _ => complete_post table cfg t0 key digest owner value now policy r t
     end.

Lemma wp_complete_replay self lease value now policy s :
  policy = config_replay cfg -> inv cfg (durable s) ->
  wp (complete_replay self lease value now policy)
    (at_rest (completion_post replay_table (durable s) (lease_key lease) (rl_input_digest lease)
                (rl_owner lease) value now policy)) s.
Proof.
  intros Hpol Hd. unfold complete_replay. do 2 wp_step. destruct a.
  wp_step; [wp_step; wp_fail|]. apply orb_false_iff in E0 as [_ Hlen%Z.ltb_ge]. do 3 wp_step.
  eapply wp_mono; [by eapply (wp_complete_kept replay_table set_replay config_replay cfg)|].
  simpl. intros [[]|e] s' Hp; pose proof Hp as [Hi He]; (split; [done|]); [done|by destruct He].
Qed.

Lemma wp_complete_idempotency self lease value now policy s :
  policy = config_idempotency cfg -> inv cfg (durable s) ->
  wp (complete_idempotency self lease value now policy)
    (at_rest (completion_post idempotency_table (durable s) (il_artifact lease, il_key lease)
                (il_request_digest lease) (il_owner lease) value now policy)) s.
Proof.
  intros Hpol Hd. unfold complete_idempotency. do 2 wp_step. destruct a.
  wp_step; [wp_step; wp_fail|]. apply Z.ltb_ge in E0. do 3 wp_step.
  eapply wp_mono; [by eapply (wp_complete_kept idempotency_table set_idempotency config_idempotency cfg)|].
  simpl. intros [[]|e] s' Hp; pose proof Hp as [Hi He]; (split; [done|]); [done|by destruct He].
Qed.

Lemma stable_abort_replay self lease : stable (inv cfg) (abort_replay self lease).
Proof.
  apply stable_bind; [apply stable_lock|]. intros _.
  by apply (stable_abort_kept replay_table set_replay config_replay).
Qed.

Lemma stable_abort_idempotency self lease : stable (inv cfg) (abort_idempotency self lease).
Proof.
  apply stable_bind; [apply stable_lock|]. intros _.
  by apply (stable_abort_kept idempotency_table set_idempotency config_idempotency).
Qed.
End Operations.

(** ** Decisions as their callers see them *)

Section Claims.
Context `{Faults} (cfg : Config) (self : DurableStore).

Lemma replay_decision_spec request policy s s' r :
  inv cfg (durable s) -> replay_decision self request policy s = (s', r) ->
  decision_post cfg replay_table (durable s) (request_key request) (input_digest request)
    (owner request) (now_millis request) policy (replay_answer request) r (durable s').
Proof.
  intros Hi E. pose proof (wp_replay_decision cfg self request policy s Hi) as W.
  unfold wp, at_rest in W. by rewrite E in W.
Qed.

Lemma complete_replay_spec lease value now policy s s' r :
  inv cfg (durable s) -> policy = config_replay cfg ->
  complete_replay self lease value now policy s = (s', r) ->
  completion_post cfg replay_table (durable s) (lease_key lease) (rl_input_digest lease)
    (rl_owner lease) value now policy r (durable s').
Proof.
  intros Hi Hp E. pose proof (wp_complete_replay cfg self lease value now policy s Hp Hi) as W.
  unfold wp, at_rest in W. by rewrite E in W.
Qed.

Lemma idempotency_decision_spec artifact key digest owner now policy s s' r :
  inv cfg (durable s) -> idempotency_decision self artifact key digest owner now policy s = (s', r) ->
  decision_post cfg idempotency_table (durable s) (artifact, key) digest owner now policy
    (idempotency_answer artifact key digest owner) r (durable s').
Proof.
  intros Hi E. pose proof (wp_idempotency_decision cfg self artifact key digest owner now policy s Hi) as W.
  unfold wp, at_rest in W. by rewrite E in W.
Qed.

Lemma complete_idempotency_spec lease value now policy s s' r :
  inv cfg (durable s) -> policy = config_idempotency cfg ->
  complete_idempotency self lease value now policy s = (s', r) ->
  completion_post cfg idempotency_table (durable s) (il_artifact lease, il_key lease)
    (il_request_digest lease) (il_owner lease) value now policy r (durable s').
Proof.
  intros Hi Hp E. pose proof (wp_complete_idempotency cfg self lease value now policy s Hp Hi) as W.
  unfold wp, at_rest in W. by rewrite E in W.
Qed.
End Claims.

Lemma executing_ok :
  @replay_decision no_faults sample_store (request_at digest1 owner1 1000) sample_retention fresh
  = (executing, Ok (Execute call_lease)).
Proof. apply injective_projections; [reflexivity|]. vm_compute. reflexivity. Qed.

Lemma sample_inv_executing : inv sample_cfg (durable executing).
Proof. exact (proj1 (replay_decision_spec (H := no_faults) _ _ _ _ _ _ _ sample_inv_fresh executing_ok)). Qed.

Lemma recorded_ok :
  @complete_replay no_faults sample_store call_lease "receipt" 2000 sample_retention executing
  = (recorded, Ok tt).
Proof. apply injective_projections; [reflexivity|]. vm_compute. reflexivity. Qed.

Lemma sample_inv_recorded : inv sample_cfg (durable recorded).
Proof.
  exact (proj1 (complete_replay_spec (H := no_faults) sample_cfg _ _ _ _ _ _ _ _
    sample_inv_executing eq_refl recorded_ok)).
Qed.

Lemma webhook_executing_ok :
  @idempotency_decision no_faults sample_store digest1 "order-7" digest1 owner1 1000 sample_retention fresh
  = (webhook_executing, Ok (IdempotencyExecute (mkIdempotencyLease digest1 "order-7" digest1 owner1))).
Proof. apply injective_projections; [reflexivity|]. vm_compute. reflexivity. Qed.

Lemma sample_inv_webhook : inv sample_cfg (durable webhook_executing).
Proof.
  exact (proj1 (idempotency_decision_spec (H := no_faults) sample_cfg _ _ _ _ _ _ _ _ _ _
    sample_inv_fresh webhook_executing_ok)).
Qed.

Lemma webhook_recorded_ok :
  @complete_idempotency no_faults sample_store (mkIdempotencyLease digest1 "order-7" digest1 owner1)
    "done" 2000 sample_retention webhook_executing = (webhook_recorded, Ok tt).
Proof. apply injective_projections; [reflexivity|]. vm_compute. reflexivity. Qed.

Lemma sample_inv_webhook_recorded : inv sample_cfg (durable webhook_recorded).
Proof.
  exact (proj1 (complete_idempotency_spec (H := no_faults) sample_cfg _ _ _ _ _ _ _ _
    sample_inv_webhook eq_refl webhook_recorded_ok)).
Qed.

(** A completion under a live lease ends and succeeds whenever no
    statement fails: its retention loop evicts at most the records the table
    holds, down to the policy, and neither the 64-bit sums nor the eviction
    can fail on the way. *)
Theorem completion_ends `{Faults} cfg self lease value now s row :
  let policy := config_replay cfg in
  ~ faulted -> poisoned self = false -> retention_validate policy (limits self) = Ok tt ->
  str_len value <= MAX_REPLAY_RESULT_BYTES -> str_len value <= max_bytes policy ->
  inv cfg (durable s) -> sequence (durable s) < i64_max ->
  i64_min <= now -> now + as_millis (ttl policy) <= i64_max ->
  In row (replay_table (durable s)) ->
  leased_by (lease_key lease) (rl_input_digest lease) (rl_owner lease) row = true ->
  is_ok (complete_replay self lease value now policy s).2 = true.
Proof.
  cbv zeta. intros Hno Hpo Hval Hl1 Hl2 Hi Hseq Hn1 Hn2 Hrow Hown.
  change (wp (complete_replay self lease value now (config_replay cfg)) (at_rest (fun r _ => is_ok r = true)) s).
  unfold complete_replay, lock. rewrite Hval, Hpo. apply wp_bind, wp_lift.
  rewrite (proj2 (Z.ltb_ge _ _) Hl1), (proj2 (Z.ltb_ge _ _) Hl2). apply wp_bind, wp_ret, wp_transaction; [done|].
  intros n. eapply wp_mono.
  { by eapply (wp_complete_kept replay_table set_replay config_replay cfg). }
  destruct (as_millis_bounded _ _ Hval) as (Httl & _).
  simpl. intros [[]|e] s' [_ P]; [done|]. exfalso. simpl in P.
  destruct P as [_ [?|[?|[?|[?|Hno']]]]]; [done|lia|lia|lia|]. specialize (Hno' row Hrow). congruence.
Qed.

Lemma completion_ends_witness :
  is_ok (@complete_replay no_faults sample_store call_lease "receipt" 2000 (config_replay sample_cfg)
           executing).2 = true.
Proof.
  apply (@completion_ends no_faults sample_cfg sample_store call_lease "receipt" 2000 executing
    (fresh_lease (lease_key call_lease) digest1 owner1 6000 1)).
  - apply no_faults_not_faulted.
  - reflexivity.
  - vm_compute. reflexivity.
  - vm_compute. discriminate.
  - vm_compute. discriminate.
  - apply sample_inv_executing.
  - vm_compute. reflexivity.
  - vm_compute. discriminate.
  - vm_compute. discriminate.
  - vm_compute. left. reflexivity.
  - vm_compute. reflexivity.
Defined.
