(* ===== verification/History.v ===== *)
(** * Histories of the durable store

    The operations of the store as one alphabet, histories as their sequences,
    whatever statements fail on the way, and what holds along every history:
    the invariant and the budgets, the truth of what was read at a revision
    when a commit expecting it succeeds, the exclusivity of a live lease, one
    execution at a time of a recorded call and the replay of its result, and
    that no occurrence of a schedule is materialized twice. *)

From S2P Require Import Prelude BTree Sql Store Jobs Replay StoreFacts CommitFacts.
From S2P Require Import JobsFacts ScheduleFacts ReplayFacts.

Inductive Op : Type :=
| OpCommit (plan : CommitPlan)
| OpReserveJob (queue : string) (policy : QueuePolicy) (owner : string) (now : Z)
| OpFailJob (lease : JobLease) (reason : string) (policy : QueuePolicy) (now : Z)
| OpMaterialize (schedule : string) (policy : SchedulePolicy) (now : Z)
| OpReserveFire (schedule : string) (policy : SchedulePolicy) (owner : string) (now : Z)
| OpFailFire (lease : FireLease) (policy : SchedulePolicy) (now : Z)
| OpReplay (request : ReplayRequest) (policy : RetentionPolicy)
| OpCompleteReplay (lease : ReplayLease) (value : string) (now : Z) (policy : RetentionPolicy)
| OpAbortReplay (lease : ReplayLease)
| OpIdempotency (artifact key digest owner : string) (now : Z) (policy : RetentionPolicy)
| OpCompleteIdempotency (lease : IdempotencyLease) (value : string) (now : Z)
    (policy : RetentionPolicy)
| OpAbortIdempotency (lease : IdempotencyLease).

(** An operation under the policies of a configuration. *)
Definition configured (cfg : Config) (op : Op) : Prop :=
  match op with
  | OpCommit plan => plan_for cfg plan
  | OpReserveJob queue policy _ _ => bt_get queue (config_queues cfg) = Some policy
  | OpFailJob lease _ policy _ => bt_get (lease_queue lease) (config_queues cfg) = Some policy
  | OpCompleteReplay _ _ _ policy => policy = config_replay cfg
  | OpCompleteIdempotency _ _ _ policy => policy = config_idempotency cfg
  | _ => True
  end.

Section History.
Context `{Faults} (self : DurableStore).

Definition run_op (op : Op) (s : Session Tables) : Session Tables :=
  match op with
  | OpCommit plan => (commit_plan self plan s).1
  | OpReserveJob queue policy owner now => (reserve_job self queue policy owner now s).1
  | OpFailJob lease reason policy now => (fail_job self lease reason policy now s).1
  | OpMaterialize schedule policy now => (materialize_schedule self schedule policy now s).1
  | OpReserveFire schedule policy owner now =>
      (reserve_schedule_fire self schedule policy owner now s).1
  | OpFailFire lease policy now => (fail_schedule_fire self lease policy now s).1
  | OpReplay request policy => (replay_decision self request policy s).1
  | OpCompleteReplay lease value now policy => (complete_replay self lease value now policy s).1
  | OpAbortReplay lease => (abort_replay self lease s).1
  | OpIdempotency artifact key digest owner now policy =>
      (idempotency_decision self artifact key digest owner now policy s).1
  | OpCompleteIdempotency lease value now policy =>
      (complete_idempotency self lease value now policy s).1
  | OpAbortIdempotency lease => (abort_idempotency self lease s).1
  end.

Definition run (ops : list Op) (s : Session Tables) : Session Tables :=
  foldl (fun s op => run_op op s) s ops.

Lemma run_snoc ops op s : run (ops ++ [op]) s = run_op op (run ops s).
Proof. unfold run. by rewrite foldl_app. Qed.

(** ** The invariant *)

Lemma wp_inv cfg {A} (m : Sql Tables StateError A) (Q : result A StateError -> Tables -> Prop) s :
  wp m (at_rest (fun r t => inv cfg t /\ Q r t)) s -> inv cfg (durable (m s).1).
Proof. by intros [? _]. Qed.

Lemma run_op_inv cfg op s :
  configured cfg op -> inv cfg (durable s) -> inv cfg (durable (run_op op s)).
Proof.
  intros Hc Hi. destruct op; simpl in *.
  - by apply stable_commit_plan.
  - eapply wp_inv, wp_reserve_job; done.
  - eapply wp_inv, wp_fail_job; done.
  - eapply wp_inv, wp_materialize_schedule; done.
  - by apply stable_reserve_schedule_fire.
  - by apply stable_fail_schedule_fire.
  - eapply wp_inv, wp_replay_decision; done.
  - eapply wp_inv, wp_complete_replay; done.
  - by apply stable_abort_replay.
  - eapply wp_inv, wp_idempotency_decision; done.
  - eapply wp_inv, wp_complete_idempotency; done.
  - by apply stable_abort_idempotency.
Qed.

Lemma run_inv cfg ops s :
  Forall (configured cfg) ops -> inv cfg (durable s) -> inv cfg (durable (run ops s)).
Proof.
  induction ops as [|op ops IH] using rev_ind; [done|]. rewrite Forall_app, Forall_singleton.
  intros [Hops Hop] Hi. rewrite run_snoc. apply run_op_inv; auto.
Qed.
End History.

(** A configuration the store accepts. *)
Definition config_valid (cfg : Config) (l : StoreLimits) : Prop :=
  (forall queue policy, bt_get queue (config_queues cfg) = Some policy -> queue_validate policy = Ok tt)
  /\ (forall bucket policy, bt_get bucket (config_buckets cfg) = Some policy ->
        bucket_validate policy = Ok tt)
  /\ retention_validate (config_replay cfg) l = Ok tt
  /\ retention_validate (config_idempotency cfg) l = Ok tt.

Lemma empty_inv cfg l : config_valid cfg l -> inv cfg empty_tables.
Proof.
  intros (Hq & Hb & Hr & Hi). split; [apply empty_store_ok|]. split.
  - intros queue policy G%Hq. unfold queue_validate, contains_range in G.
    destruct (_ || _) eqn:E in G; [done|]. bool_facts.
    z_facts.
    unfold queue_within, job_count, job_bytes, dead_count, count_where. simpl. lia.
  - intros bucket policy G%Hb. unfold bucket_validate, contains_range in G.
    destruct (_ || _) eqn:E in G; [done|]. bool_facts.
    z_facts.
    unfold bucket_within, object_count, object_bytes. simpl. lia.
  - apply as_millis_bounded in Hr. split; simpl; lia.
  - apply as_millis_bounded in Hi. split; simpl; lia.
Qed.

(** ** What an operation leaves alone *)

(** The operations on schedules and retained records, and a property that does
    not depend on their tables. *)
Section Quiet.
Context `{Faults} (self : DurableStore) (I : Tables -> Prop).
Context (I_fires : forall t x, I t -> I (set_fires t x)).
Context (I_cursors : forall t x, I t -> I (set_cursors t x)).
Context (I_sequence : forall t x, I t -> I (set_sequence t x)).
Context (I_replay : forall t x, I t -> I (set_replay t x)).
Context (I_idempotency : forall t x, I t -> I (set_idempotency t x)).

Lemma quiet_materialize_from count index schedule policy every now made :
  keeps I (materialize_from count index schedule policy every now made).
Proof.
  revert index made. induction count as [|count IH]; intros index made; simpl; keeps_auto; [|apply IH].
  apply keeps_statement. unfold insert_fire. intros t t' b Ht.
  destruct (existsb _ _); intros [= <- _]; auto.
Qed.

Lemma quiet_materialize schedule policy now : stable I (materialize_schedule self schedule policy now).
Proof.
  unfold materialize_schedule, materialize_body, cleanup_schedule_fires. keeps_auto.
  apply quiet_materialize_from.
Qed.

Lemma quiet_reserve_fire schedule policy owner now :
  stable I (reserve_schedule_fire self schedule policy owner now).
Proof.
  unfold reserve_schedule_fire. keeps_auto.
  induction (Z.to_nat _) as [|scan IH]; simpl; keeps_auto; auto.
Qed.

Lemma quiet_fail_fire lease policy now : stable I (fail_schedule_fire self lease policy now).
Proof. unfold fail_schedule_fire. keeps_auto. Qed.

Section Kept.
Context {K : Type} `{EqDecision K} (table : Tables -> list (KeptRow K))
  (set_table : Tables -> list (KeptRow K) -> Tables).
Context (I_table : forall t rows, I t -> I (set_table t rows)).

Lemma quiet_decide_kept key digest owner now policy :
  keeps I (decide_kept table set_table key digest owner now policy).
Proof. unfold decide_kept, cleanup. keeps_auto. Qed.

Lemma quiet_enforce_rounds rounds policy : keeps I (enforce_rounds table set_table rounds policy).
Proof.
  induction rounds as [|rounds IH]; simpl; keeps_auto; [apply keeps_count_and_sum| |apply IH].
  apply keeps_statement. intros t t' b Ht. destruct (evict_least_used _). intros [= <- _]. auto.
Qed.

Lemma quiet_complete_kept key digest owner value now policy stale :
  keeps I (complete_kept table set_table key digest owner value now policy stale).
Proof. unfold complete_kept. keeps_auto. intros s. apply quiet_enforce_rounds. Qed.
End Kept.

Lemma quiet_replay_decision request policy : stable I (replay_decision self request policy).
Proof. unfold replay_decision. keeps_auto. by apply quiet_decide_kept. Qed.
Lemma quiet_complete_replay lease value now policy : stable I (complete_replay self lease value now policy).
Proof. unfold complete_replay. keeps_auto. by apply quiet_complete_kept. Qed.
Lemma quiet_abort_replay lease : stable I (abort_replay self lease).
Proof. unfold abort_replay, abort_kept. keeps_auto. Qed.

Lemma quiet_idempotency_decision artifact key digest owner now policy :
  stable I (idempotency_decision self artifact key digest owner now policy).
Proof. unfold idempotency_decision. keeps_auto. by apply quiet_decide_kept. Qed.
Lemma quiet_complete_idempotency lease value now policy :
  stable I (complete_idempotency self lease value now policy).
Proof. unfold complete_idempotency. keeps_auto. by apply quiet_complete_kept. Qed.
Lemma quiet_abort_idempotency lease : stable I (abort_idempotency self lease).
Proof. unfold abort_idempotency, abort_kept. keeps_auto. Qed.

Definition quiet (op : Op) : bool :=
  match op with
  | OpCommit _ | OpReserveJob _ _ _ _ | OpFailJob _ _ _ _ => false
  | _ => true
  end.

Lemma quiet_run_op op s : quiet op = true -> I (durable s) -> I (durable (run_op self op s)).
Proof.
  destruct op; simpl; try done; intros _.
  - apply quiet_materialize.
  - apply quiet_reserve_fire.
  - apply quiet_fail_fire.
  - apply quiet_replay_decision.
  - apply quiet_complete_replay.
  - apply quiet_abort_replay.
  - apply quiet_idempotency_decision.
  - apply quiet_complete_idempotency.
  - apply quiet_abort_idempotency.
Qed.
End Quiet.

(** The part of the store a commit's revision guards. *)
Definition snapshot (t : Tables) : Z * gmap string string * gmap string string
    * gmap (string * string) string :=
  (revision t, kv t, checkpoints t, object_view (objects t)).

(** The operations on jobs and the commit, and a property that does not depend
    on what they write. *)
Section Working.
Context `{Faults} (self : DurableStore) (I : Tables -> Prop).
Context (I_jobs : forall t x, I t -> I (set_jobs t x)).
Context (I_dead : forall t x, I t -> I (set_dead t x)).
Context (I_sequence : forall t x, I t -> I (set_sequence t x)).

Lemma frame_dead_letter row policy : keeps I (dead_letter row policy).
Proof using I_jobs I_dead. unfold dead_letter, enforce_dead_letter_bounds. keeps_auto. Qed.

Lemma frame_reserve_job queue policy owner now : stable I (reserve_job self queue policy owner now).
Proof using I_jobs I_dead.
  unfold reserve_job, cleanup_dead_letters, enforce_dead_letter_bounds. keeps_auto.
  induction (Z.to_nat _) as [|scan IH]; simpl; keeps_auto; auto using frame_dead_letter.
Qed.

Lemma frame_fail_job lease reason policy now : stable I (fail_job self lease reason policy now).
Proof using I_jobs I_dead. unfold fail_job. keeps_auto. apply frame_dead_letter. Qed.

Context (I_fires : forall t x, I t -> I (set_fires t x)).
Context (I_kv : forall t x, I t -> I (set_kv t x)).
Context (I_checkpoints : forall t x, I t -> I (set_checkpoints t x)).
Context (I_objects : forall t x, I t -> I (set_objects t x)).
Context (I_revision : forall t x, I t -> I (set_revision t x)).

Lemma frame_commit plan : stable I (commit_plan self plan).
Proof using I_jobs I_sequence I_fires I_kv I_checkpoints I_objects I_revision.
  unfold commit_plan, commit_body, query_revision. keeps_auto.
  - induction (mutations plan) as [|mutation ms IH]; simpl; [keeps_auto|]. apply keeps_bind; [|done].
    destruct mutation; simpl; unfold put_object, publish_job; keeps_auto; try apply keeps_count_and_sum.
    all: apply keeps_statement; unfold insert_job, upsert_object; intros t t' written Ht E; repeat case_match; simplify_eq; auto.
  - destruct (completion plan) as [[lease|lease]|]; simpl; keeps_auto;
      apply keeps_statement; intros t t' changed Ht [= <- _]; auto.
Qed.
End Working.

(** Every operation but the commit keeps the snapshot. *)
Lemma snapshot_run_op `{Faults} self x op s :
  (forall plan, op <> OpCommit plan) -> snapshot (durable s) = x -> snapshot (durable (run_op self op s)) = x.
Proof.
  intros Hop. destruct (quiet op) eqn:Q; [by apply (quiet_run_op self (fun t => snapshot t = x))|].
  destruct op; try done; simpl; [by destruct (Hop plan)| |].
  - by apply (frame_reserve_job self (fun t => snapshot t = x)).
  - by apply (frame_fail_job self (fun t => snapshot t = x)).
Qed.

(** ** Claims *)

(** C3: The store stays well formed and within its budgets.  Whatever
    operations run, in whatever order, with whatever instants, identities and
    leases, and whichever statements fail: the tables satisfy their invariant
    (unique identities, one sequence number per job for its whole life, exact
    sizes, leases only on open rows, at most one record per call), and every
    queue, bucket, dead-letter list and retained table is within the policy it
    is configured with. *)
Theorem store_invariant `{Faults} cfg self ops :
  config_valid cfg (limits self) -> Forall (configured cfg) ops ->
  store_ok (durable (run self ops fresh)) /\ within cfg (durable (run self ops fresh)).
Proof. intros Hv Hops. apply run_inv; [done|]. by eapply empty_inv. Qed.

Definition sample_ops : list Op :=
  [OpCommit sample_plan; OpReserveJob "work" sample_queue owner1 2000;
   OpFailJob (mkJobLease id1 "work" owner1) "boom" sample_queue 3000;
   OpMaterialize "tick" sample_schedule 605000; OpReplay (request_at digest1 owner1 1000) sample_retention;
   OpCompleteReplay call_lease "receipt" 2000 sample_retention].

Lemma sample_config_valid : config_valid sample_cfg sample_limits.
Proof.
  split_and!; [| |reflexivity..].
  - by intros queue policy ->%sample_cfg_only.
  - by intros bucket policy ->%sample_bucket_only.
Qed.

Lemma sample_ops_configured : Forall (configured sample_cfg) sample_ops.
Proof. repeat constructor. Qed.

Lemma store_invariant_witness :
  within sample_cfg (durable (@run no_faults sample_store sample_ops fresh))
  /\ job_count (durable (@run no_faults sample_store sample_ops fresh)) "work" = 2.
Proof.
  split; [|vm_compute; reflexivity].
  apply (@store_invariant no_faults sample_cfg sample_store sample_ops sample_config_valid
    sample_ops_configured).
Defined.

(** *** Revisions *)

Definition advanced (t t' : Tables) : Prop :=
  revision t <= revision t' /\ (revision t = revision t' -> snapshot t = snapshot t').

Lemma advanced_trans t1 t2 t3 : advanced t1 t2 -> advanced t2 t3 -> advanced t1 t3.
Proof. intros [H1 E1] [H2 E2]. split; [lia|]. intros E. rewrite E1, E2 by lia. done. Qed.

(** A plan that only publishes leaves the snapshot. *)
Lemma publish_only_view ms v :
  existsb advances_revision ms = false ->
  let v' := foldl view_mutate v ms in
  view_kv v' = view_kv v /\ view_checkpoints v' = view_checkpoints v /\ view_objects v' = view_objects v.
Proof.
  revert v. induction ms as [|m ms IH]; intros v E; [done|]. cbn [existsb] in E. bool_facts.
  cbv zeta in *. cbn [foldl]. destruct (IH (view_mutate v m)) as (-> & -> & ->); [done|].
  by destruct v, m.
Qed.

Lemma view_complete_frame completion now v :
  let v' := view_complete completion now v in
  view_kv v' = view_kv v /\ view_checkpoints v' = view_checkpoints v /\ view_objects v' = view_objects v.
Proof. by destruct v, completion as [[]|]. Qed.

Lemma view_commit_snapshot plan v :
  view_revision (view_commit plan v)
    = view_revision v + (if revision_sensitive plan then 1 else 0)
  /\ (revision_sensitive plan = false ->
      view_kv (view_commit plan v) = view_kv v
      /\ view_checkpoints (view_commit plan v) = view_checkpoints v
      /\ view_objects (view_commit plan v) = view_objects v).
Proof.
  pose proof (view_mutate_revision (mutations plan) v) as R.
  pose proof (publish_only_view (mutations plan) v) as P. cbv zeta in P.
  pose proof (view_complete_revision (completion plan) (Store.now_millis plan)
    (foldl view_mutate v (mutations plan))) as R2.
  pose proof (view_complete_frame (completion plan) (Store.now_millis plan)
    (foldl view_mutate v (mutations plan))) as F. cbv zeta in F.
  unfold view_commit. destruct (view_complete _ _ _). simpl in *. fold (revision_sensitive plan) in P.
  split; [destruct (revision_sensitive plan); lia|]. intros E.
  destruct (P E) as (<- & <- & <-). done.
Qed.

Lemma run_op_advanced `{Faults} cfg self op s :
  configured cfg op -> inv cfg (durable s) -> advanced (durable s) (durable (run_op self op s)).
Proof.
  intros Hc Hi. assert ((exists plan, op = OpCommit plan) \/ forall plan, op <> OpCommit plan) as [[plan ->]|Hne]
    by (destruct op; eauto; by right).
  - simpl. pose proof (wp_commit_plan cfg self plan s Hc Hi) as W. unfold wp, at_rest, commit_post in W.
    destruct (commit_plan self plan s) as [s' [rev|e]]; simpl in *; [|by rewrite W].
    destruct W as (Hv & _). destruct (view_commit_snapshot plan (view (durable s))) as [R S].
    rewrite <- Hv in R, S. unfold view in R, S. simpl in R, S. split.
    + destruct (revision_sensitive plan); lia.
    + intros E. destruct (revision_sensitive plan); [lia|]. destruct (S eq_refl) as (K & C & O).
      unfold snapshot. by rewrite E, K, C, O.
  - pose proof (snapshot_run_op self _ op s Hne eq_refl) as E. split; [|done].
    unfold snapshot in E. injection E as -> _ _ _. done.
Qed.

Lemma run_advanced `{Faults} cfg self ops s :
  Forall (configured cfg) ops -> inv cfg (durable s) -> advanced (durable s) (durable (run self ops s)).
Proof.
  induction ops as [|op ops IH] using rev_ind; [done|]. rewrite Forall_app, Forall_singleton.
  intros [Hops Hop] Hi. rewrite run_snoc. eapply advanced_trans; [by apply IH|].
  apply (run_op_advanced cfg); [done|]. by apply run_inv.
Qed.

(** C16: No update is lost.  When a commit that writes state succeeds against
    the revision some earlier read was taken at, every key, checkpoint and
    object is still what it was at that read, whatever operations ran in
    between; and the commit then takes effect exactly on that state.  So of
    two commits prepared at one revision at most one succeeds. *)
Theorem no_lost_update `{Faults} cfg self ops plan s s' rev :
  inv cfg (durable s) -> Forall (configured cfg) ops -> plan_for cfg plan ->
  revision_sensitive plan = true -> expected_revision plan = revision (durable s) ->
  commit_plan self plan (run self ops s) = (s', Ok rev) ->
  let before := view (durable (run self ops s)) in
  view_kv before = kv (durable s) /\ view_checkpoints before = checkpoints (durable s)
  /\ view_objects before = object_view (objects (durable s))
  /\ view (durable s') = view_commit plan before /\ rev = revision (durable s) + 1.
Proof.
  intros Hi Hops Hp Hsens Hrev E. cbv zeta.
  pose proof (wp_commit_plan cfg self plan (run self ops s) Hp (run_inv self cfg ops s Hops Hi)) as W.
  unfold wp, at_rest, commit_post in W. rewrite E in W. cbn [fst snd] in W.
  destruct W as (Hv & -> & Hexp & _). specialize (Hexp Hsens).
  destruct (run_advanced cfg self ops s Hops Hi) as [_ Hsnap].
  assert (snapshot (durable s) = snapshot (durable (run self ops s))) as S by (apply Hsnap; lia).
  unfold snapshot in S. injection S as _ -> -> ->. repeat split; [done|].
  destruct (view_commit_snapshot plan (view (durable (run self ops s)))) as [R _].
  rewrite <- Hv, Hsens in R. simpl in R. lia.
Qed.

Lemma no_lost_update_witness :
  let ops := [OpReserveJob "work" sample_queue owner1 2000; OpMaterialize "tick" sample_schedule 605000] in
  let plan := mkCommitPlan 1 [Put "greeting" "bye"] (config_queues sample_cfg) (config_buckets sample_cfg)
                3000 None in
  let out := @commit_plan no_faults sample_store plan (@run no_faults sample_store ops published) in
  out.2 = Ok 2
  /\ view (durable out.1) = view_commit plan (view (durable (@run no_faults sample_store ops published))).
Proof.
  cbv zeta. set (plan := mkCommitPlan 1 _ _ _ _ _). set (ops := [OpReserveJob _ _ _ _; _]).
  assert ((@commit_plan no_faults sample_store plan (@run no_faults sample_store ops published)).2 = Ok 2)
    as E by (vm_compute; reflexivity).
  split; [exact E|].
  pose proof (surjective_pairing (@commit_plan no_faults sample_store plan
    (@run no_faults sample_store ops published))) as P. rewrite E in P.
  apply (@no_lost_update no_faults sample_cfg sample_store ops plan published _ 2 sample_inv_published
    ltac:(repeat constructor) ltac:(split; reflexivity) eq_refl ltac:(vm_compute; reflexivity) P).
Defined.

(** *** Leases *)

(** An operation by the holder of a lease. *)
Definition by_holder (lease : JobLease) (op : Op) : Prop :=
  match op with
  | OpCommit plan => completion plan = Some (CompleteJob lease)
  | OpFailJob lease' _ _ _ => lease' = lease
  | _ => False
  end.

(** A reservation happens before the instant. *)
Definition reserves_before (instant : Z) (op : Op) : Prop :=
  match op with OpReserveJob _ _ _ now => now < instant | _ => True end.

Section Leases.
Context `{Faults} (cfg : Config) (self : DurableStore) (row : JobRow) (lease : JobLease) (until_ : Z).
Context (row_lease : owned_job lease row = true) (row_until : job_lease_until row = Some until_).

Lemma other_lease lease' : lease' <> lease -> owned_job lease' row = false.
Proof.
  intros Hne. apply not_true_iff_false. intros Ho. destruct Hne. unfold owned_job in *.
  destruct lease, lease'. simpl in *. bool_facts. f_equal; congruence.
Qed.

Lemma not_ready queue now : now < until_ -> ready queue now row = false.
Proof.
  intros Hlt. unfold ready. rewrite row_until, (proj2 (Z.leb_gt until_ now)) by done. by rewrite andb_false_r.
Qed.

Lemma row_commit plan s :
  completion plan <> Some (CompleteJob lease) ->
  In row (queue_jobs (durable s)) -> In row (queue_jobs (durable (commit_plan self plan s).1)).
Proof.
  intros Hne. revert s. change (stable (fun t => In row (queue_jobs t)) (commit_plan self plan)).
  unfold commit_plan, commit_body, query_revision. keeps_auto.
  - induction (mutations plan) as [|mutation ms IH]; simpl; [keeps_auto|]. apply keeps_bind; [|done].
    destruct mutation; simpl; unfold put_object, publish_job; keeps_auto; try apply keeps_count_and_sum.
    apply keeps_statement. unfold insert_job. intros t t' inserted Ht.
    destruct (existsb _ _); intros [= <- _]; [done|]. simpl. apply in_app_iff. by left.
  - destruct (completion plan) as [[lease'|lease']|]; simpl; keeps_auto.
    apply keeps_statement. intros t t' changed Ht [= <- _]. simpl. apply delete_where_In.
    split; [done|]. apply other_lease. congruence.
Qed.

Lemma row_reserve queue policy owner now s :
  bt_get queue (config_queues cfg) = Some policy -> inv cfg (durable s) -> now < until_ ->
  In row (queue_jobs (durable s)) ->
  In row (queue_jobs (durable (reserve_job self queue policy owner now s).1))
  /\ forall delivery, (reserve_job self queue policy owner now s).2 = Ok (Some delivery) ->
       lease_id (delivery_lease delivery) <> job_row_id row.
Proof.
  intros G Hi Hlt Hrow. pose proof (wp_reserve_job cfg self queue policy owner now s G Hi) as W.
  unfold wp, at_rest, reserve_post in W. destruct W as [_ W].
  destruct (reserve_job self queue policy owner now s) as [s' [delivery|e]]; simpl in *; [|by rewrite W].
  pose proof Hi as [[_ _ (Hids & _) _ _ _ _] _].
  assert (forall r, In r (queue_jobs (durable s)) -> ready queue now r = true -> job_row_id r <> job_row_id row)
    as Hother.
  { intros r Hr Hready E. assert (r = row) as -> by (by eapply (unique_column job_row_id)).
    rewrite not_ready in Hready; done. }
  assert (forall r, In r (take (scan_limit policy) (ready_jobs queue now (queue_jobs (durable s)))) ->
    job_row_id r <> job_row_id row) as Hscan.
  { intros r Hr. apply list_elem_of_In, elem_of_take in Hr as (k & Hk & _).
    apply list_elem_of_lookup_2 in Hk. unfold ready_jobs in Hk. rewrite order_asc_perm in Hk.
    apply list_elem_of_In, where_In in Hk as [? ?]. by apply Hother. }
  unfold reserved in W. set (scanned := take _ _) in *.
  rewrite (take_drop_while (exhausted policy) scanned) in Hscan. setoid_rewrite in_app_iff in Hscan.
  assert (In row (without_ids (map job_row_id (take_while (exhausted policy) scanned)) (queue_jobs (durable s))))
    as Hkept.
  { apply delete_where_In. split; [done|]. apply bool_decide_eq_false. intros Hin%list_elem_of_In.
    apply in_map_iff in Hin as (r & E & Hr). eapply Hscan; [by left|done]. }
  destruct (head (drop_while (exhausted policy) scanned)) as [r|] eqn:D; destruct W as [-> ->].
  - assert (job_row_id r <> job_row_id row) as Hne.
    { apply Hscan. right. destruct (drop_while _ scanned); [done|]. injection D as ->. by left. }
    split; [|by intros delivery [= <-]].
    apply update_where_In. exists row. split; [done|]. unfold has_id. by rewrite bool_decide_false.
  - split; [done|]. by intros delivery [=].
Qed.

Lemma row_fail lease' reason policy now s :
  bt_get (lease_queue lease') (config_queues cfg) = Some policy -> inv cfg (durable s) -> lease' <> lease ->
  In row (queue_jobs (durable s)) ->
  In row (queue_jobs (durable (fail_job self lease' reason policy now s).1)).
Proof.
  intros G Hi Hne Hrow. pose proof (wp_fail_job cfg self lease' reason policy now s G Hi) as W.
  unfold wp, at_rest, fail_post in W. destruct W as [_ W].
  destruct (fail_job self lease' reason policy now s) as [s' [[at_| |]|e]]; simpl in *.
  - destruct W as [-> _]. apply update_where_In. exists row. by rewrite other_lease.
  - destruct W as [-> (r & Hr & Ho & _)]. apply delete_where_In. split; [done|].
    unfold has_id. apply bool_decide_eq_false. intros E. apply owned_job_id in Ho as Hid.
    destruct Hid as [Hid _]. pose proof Hi as [[_ _ (Hids & _) _ _ _ _] _].
    assert (r = row) as -> by (eapply (unique_column job_row_id); [done..|congruence]).
    by rewrite other_lease in Ho.
  - by destruct W as [-> _].
  - by rewrite W.
Qed.

Lemma row_run_op op s :
  configured cfg op -> inv cfg (durable s) -> ~ by_holder lease op -> reserves_before until_ op ->
  In row (queue_jobs (durable s)) -> In row (queue_jobs (durable (run_op self op s))).
Proof.
  intros Hc Hi Hby Hb Hrow. destruct (quiet op) eqn:Q.
  - by apply (quiet_run_op self (fun t => In row (queue_jobs t))).
  - destruct op; try done; simpl in *.
    + by apply row_commit.
    + by apply row_reserve.
    + by apply row_fail.
Qed.
End Leases.

(** C18: A live lease is exclusive.  From the moment a job is leased until its
    lease ends, whatever operations run, the job stays in its queue exactly as
    it was leased unless the holder itself completes or fails it: no other
    lease completes it, fails it or retires it, and no reservation delivers
    it to anyone. *)
Theorem lease_exclusive `{Faults} cfg self ops s row lease until_ :
  inv cfg (durable s) -> In row (queue_jobs (durable s)) ->
  owned_job lease row = true -> job_lease_until row = Some until_ ->
  Forall (fun op => configured cfg op /\ ~ by_holder lease op /\ reserves_before until_ op) ops ->
  In row (queue_jobs (durable (run self ops s)))
  /\ forall queue policy owner now delivery,
       bt_get queue (config_queues cfg) = Some policy -> now < until_ ->
       (reserve_job self queue policy owner now (run self ops s)).2 = Ok (Some delivery) ->
       lease_id (delivery_lease delivery) <> job_row_id row.
Proof.
  intros Hi Hrow Hown Huntil Hops.
  assert (forall ops', Forall (fun op => configured cfg op /\ ~ by_holder lease op /\ reserves_before until_ op)
    ops' -> inv cfg (durable (run self ops' s)) /\ In row (queue_jobs (durable (run self ops' s)))) as Hrun.
  { induction ops' as [|op ops' IH] using rev_ind; [done|]. rewrite Forall_app, Forall_singleton.
    intros [Hops' (Hc & Hby & Hb)]. destruct (IH Hops') as [Hi' Hr']. rewrite run_snoc. split.
    - by apply run_op_inv.
    - by eapply (row_run_op cfg self row lease until_). }
  destruct (Hrun ops Hops) as [Hi' Hr']. split; [done|].
  intros queue policy owner now delivery G Hlt E.
  by eapply (row_reserve cfg self row until_ Huntil queue policy owner now).
Qed.

Lemma lease_exclusive_witness :
  let row := mkJobRow id1 "work" 1 "first" 1 1000 (Some 32000) (Some owner1) 5 1000 in
  let ops := [OpReserveJob "work" sample_queue owner2 2500;
              OpFailJob (mkJobLease id1 "work" owner2) "not mine" sample_queue 2600] in
  In row (queue_jobs (durable (@run no_faults sample_store ops leased))).
Proof.
  cbv zeta.
  apply (@lease_exclusive no_faults sample_cfg sample_store
    [OpReserveJob "work" sample_queue owner2 2500;
     OpFailJob (mkJobLease id1 "work" owner2) "not mine" sample_queue 2600] leased
    (mkJobRow id1 "work" 1 "first" 1 1000 (Some 32000) (Some owner1) 5 1000)
    (mkJobLease id1 "work" owner1) 32000).
  - apply sample_inv_leased.
  - vm_compute. left. reflexivity.
  - vm_compute. reflexivity.
  - reflexivity.
  - repeat constructor; simpl; try discriminate; try lia; intros H; inversion H.
Defined.

(** *** Retained records *)

Definition replay_event (op : Op) : KeptEvent ReplayKey :=
  match op with
  | OpReplay request policy =>
      Deciding (request_key request) (input_digest request) (owner request) (Replay.now_millis request) policy
  | OpCompleteReplay lease value now policy =>
      Completing (lease_key lease) (rl_input_digest lease) (rl_owner lease) value now policy
  | OpAbortReplay lease => Aborting (lease_key lease) (rl_input_digest lease) (rl_owner lease)
  | _ => Elsewhere
  end.

Definition idempotency_event (op : Op) : KeptEvent IdempotencyKey :=
  match op with
  | OpIdempotency artifact key digest owner now policy => Deciding (artifact, key) digest owner now policy
  | OpCompleteIdempotency lease value now policy =>
      Completing (il_artifact lease, il_key lease) (il_request_digest lease) (il_owner lease) value now policy
  | OpAbortIdempotency lease =>
      Aborting (il_artifact lease, il_key lease) (il_request_digest lease) (il_owner lease)
  | _ => Elsewhere
  end.

(** What the operations of a store promise about one retained table: each
    does to it what its event says. *)
Class KeptHistory `{Faults} (self : DurableStore) (cfg : Config) {K : Type} `{EqDecision K}
    (table : Tables -> list (KeptRow K)) (policy_of : Config -> RetentionPolicy) (event : Op -> KeptEvent K)
    : Prop :=
  observed op s : configured cfg op -> inv cfg (durable s) ->
    kept_step table policy_of cfg (event op) (durable s) (durable (run_op self op s)).

(** Solves that an operation leaves a property alone. *)
Ltac untouched I :=
  solve [ by apply (frame_commit _ I) | by apply (frame_reserve_job _ I) | by apply (frame_fail_job _ I)
        | by apply (quiet_materialize _ I) | by apply (quiet_reserve_fire _ I) | by apply (quiet_fail_fire _ I)
        | by apply (quiet_replay_decision _ I) | by apply (quiet_complete_replay _ I)
        | by apply (quiet_abort_replay _ I) | by apply (quiet_idempotency_decision _ I)
        | by apply (quiet_complete_idempotency _ I) | by apply (quiet_abort_idempotency _ I) ].

#[export] Instance replay_history `{Faults} self cfg :
  KeptHistory self cfg replay_table config_replay replay_event.
Proof.
  intros op s Hc Hi. set (x := replay_table (durable s)).
  destruct op; cbn [replay_event run_op kept_step configured] in *;
    try untouched (fun t => replay_table t = x).
  - destruct (replay_decision self request policy s) as [s' r] eqn:E.
    destruct (replay_decision_spec cfg self _ _ _ _ _ Hi E) as [_ P].
    destruct r as [decision|e]; [|by left]. destruct P as (decided & P & _). right. by exists decided.
  - subst policy. destruct (complete_replay self lease value now (config_replay cfg) s) as [s' r] eqn:E.
    destruct (complete_replay_spec cfg self _ _ _ _ _ _ _ Hi eq_refl E) as [_ P].
    split; [done|]. destruct r as [[]|e]; [by right|by left].
  - unfold abort_replay, lock. destruct (poisoned self); [by left|].
    unfold sql_bind, sql_ret, abort_kept, autocommit, tick. by destruct (fault _); [left|right].
Qed.

#[export] Instance idempotency_history `{Faults} self cfg :
  KeptHistory self cfg idempotency_table config_idempotency idempotency_event.
Proof.
  intros op s Hc Hi. set (x := idempotency_table (durable s)).
  destruct op; cbn [idempotency_event run_op kept_step configured] in *;
    try untouched (fun t => idempotency_table t = x).
  - destruct (idempotency_decision self artifact key digest owner now policy s) as [s' r] eqn:E.
    destruct (idempotency_decision_spec cfg self _ _ _ _ _ _ _ _ _ Hi E) as [_ P].
    destruct r as [decision|e]; [|by left]. destruct P as (decided & P & _). right. by exists decided.
  - subst policy. destruct (complete_idempotency self lease value now (config_idempotency cfg) s) as [s' r] eqn:E.
    destruct (complete_idempotency_spec cfg self _ _ _ _ _ _ _ Hi eq_refl E) as [_ P].
    split; [done|]. destruct r as [[]|e]; [by right|by left].
  - unfold abort_idempotency, lock. destruct (poisoned self); [by left|].
    unfold sql_bind, sql_ret, abort_kept, autocommit, tick. by destruct (fault _); [left|right].
Qed.

Section Retained.
Context `{Faults} (self : DurableStore) (cfg : Config) {K : Type} `{EqDecision K}.
Context (table : Tables -> list (KeptRow K)) (set_table : Tables -> list (KeptRow K) -> Tables)
  (policy_of : Config -> RetentionPolicy) `{!KeptTable table set_table policy_of}.
Context (event : Op -> KeptEvent K) `{!KeptHistory self cfg table policy_of event}.

(** A lease stays as it was given until its holder ends it or it expires. *)
Lemma run_lease ops s row key digest owner until_ :
  inv cfg (durable s) -> In row (table (durable s)) -> leased_by key digest owner row = true ->
  kept_lease_until row = Some until_ ->
  Forall (fun op => configured cfg op /\ ~ ends_lease key digest owner (event op)
                    /\ decided_before until_ (event op)) ops ->
  In row (table (durable (run self ops s))).
Proof.
  intros Hi Hrow Hl Hu. induction ops as [|op ops IH] using rev_ind; [done|].
  rewrite Forall_app, Forall_singleton. intros [Hops (Hc & He & Hb)]. rewrite run_snoc.
  assert (inv cfg (durable (run self ops s))) as Hi'.
  { apply run_inv; [|done]. eapply Forall_impl; [exact Hops|]. by intros ? (? & _). }
  apply (lease_step table set_table policy_of cfg (event op) (durable (run self ops s))) with key digest owner until_;
    auto.
Qed.

(** A later completion had no room for the record beside those used since. *)
Definition displaced (q : Z) (ops : list Op) (s : Session Tables) : Prop :=
  exists before op after key digest owner value now,
    ops = before ++ op :: after /\ event op = Completing key digest owner value now (policy_of cfg)
    /\ crowded (policy_of cfg) q (table (durable (run self before s))) value.

Lemma displaced_app q ops more s : displaced q ops s -> displaced q (ops ++ more) s.
Proof.
  intros (before & op & after & key & digest & owner & value & now & -> & He & Hc).
  exists before, op, (after ++ more), key, digest, owner, value, now. by rewrite <- app_assoc.
Qed.

Lemma run_result ops s key digest value expires_at q u :
  inv cfg (durable s) -> In (completed_row key digest value expires_at u) (table (durable s)) -> q < u ->
  Forall (fun op => configured cfg op /\ decided_before expires_at (event op)) ops ->
  (exists u', q < u' /\ In (completed_row key digest value expires_at u') (table (durable (run self ops s))))
  \/ displaced q ops s.
Proof.
  intros Hi Hrow Hq. induction ops as [|op ops IH] using rev_ind; [intros _; left; by exists u|].
  rewrite Forall_app, Forall_singleton. intros [Hops (Hc & Hb)]. rewrite run_snoc.
  assert (inv cfg (durable (run self ops s))) as Hi'.
  { apply run_inv; [|done]. eapply Forall_impl; [exact Hops|]. by intros ? (? & _). }
  destruct (IH Hops) as [(u' & Hu' & Hin)|Hd]; [|right; by apply displaced_app].
  destruct (result_step table set_table policy_of cfg (event op) (durable (run self ops s))
    (durable (run_op self op (run self ops s))) key digest value expires_at q u')
    as [?|(key' & digest' & owner' & value' & now' & He & Hcr)]; auto.
  right. by exists ops, op, [], key', digest', owner', value', now'.
Qed.

Lemma run_only_result ops s key digest value expires_at :
  inv cfg (durable s) -> only_result table key digest value expires_at (durable s) ->
  Forall (fun op => configured cfg op /\ ~ completes_key key (event op)) ops ->
  only_result table key digest value expires_at (durable (run self ops s)).
Proof.
  intros Hi Ho. induction ops as [|op ops IH] using rev_ind; [done|].
  rewrite Forall_app, Forall_singleton. intros [Hops (Hc & Hn)]. rewrite run_snoc.
  assert (inv cfg (durable (run self ops s))) as Hi'.
  { apply run_inv; [|done]. eapply Forall_impl; [exact Hops|]. by intros ? (? & _). }
  apply (only_result_step table policy_of cfg (event op) (durable (run self ops s))); auto.
Qed.

(** The record a completion leaves is the only one under its key. *)
Lemma completed_only t t' key digest owner value now policy :
  inv cfg t' -> complete_post table cfg t key digest owner value now policy (Ok tt) t' ->
  let expires_at := now + as_millis (ttl policy) in
  In (completed_row key digest value expires_at (sequence t + 1)) (table t')
  /\ only_result table key digest value expires_at t'.
Proof.
  intros Hi [_ (Hin & _)]. cbv zeta. split; [done|]. intros r Hr Hk _.
  destruct Hi as [Hok _]. apply kt_rows_ok in Hok as (Hnd & _).
  assert (r = completed_row key digest value (now + as_millis (ttl policy)) (sequence t + 1)) as ->; [|done].
  by eapply (unique_column kept_key).
Qed.

(** The lease a decision to execute leaves. *)
Lemma executing_lease t t' key digest owner now policy :
  decide_post table cfg t key digest owner now policy (Ok DExecute) t' ->
  exists row, In row (table t') /\ leased_by key digest owner row = true
    /\ kept_lease_until row = Some (now + as_millis (retention_lease policy)).
Proof.
  intros [_ D]. destruct (head _) as [row|]; [repeat case_match; by destruct D|]. destruct D as [_ ->].
  eexists. split; [apply in_app_iff; right; by left|]. split; [|done]. by apply leased_by_spec.
Qed.
End Retained.

(** C31: One execution at a time.  After a decision to execute an external
    call, whatever operations run before its lease ends, decisions on other
    calls and failing statements included, unless the holder of that lease
    completes or aborts it: every decision on the same call that answers at
    all answers that it is in progress, or that it conflicts when the input
    differs; never another execution. *)
Theorem replay_exclusive `{Faults} cfg self request policy s s1 lease ops request' policy' s2 decision :
  let until_ := Replay.now_millis request + as_millis (retention_lease policy) in
  inv cfg (durable s) -> replay_decision self request policy s = (s1, Ok (Execute lease)) ->
  Forall (fun op => configured cfg op /\ decided_before until_ (replay_event op)
                    /\ ~ ends_lease (lease_key lease) (rl_input_digest lease) (rl_owner lease) (replay_event op)) ops ->
  request_key request' = request_key request -> Replay.now_millis request' < until_ ->
  replay_decision self request' policy' (run self ops s1) = (s2, Ok decision) ->
  decision = if bool_decide (input_digest request = input_digest request') then InProgress else Conflict.
Proof.
  cbv zeta. intros Hi E1 Hops Hkey Hnow E2.
  destruct (replay_decision_spec cfg self _ _ _ _ _ Hi E1) as [Hi1 (d1 & P1 & A1)]. destruct d1; try done.
  injection A1 as ->. destruct (executing_lease cfg replay_table _ _ _ _ _ _ _ P1) as (row & Hrow & Hl & Hu).
  assert (Forall (configured cfg) ops) as Hc.
  { eapply Forall_impl; [exact Hops|]. by intros ? (? & _). }
  pose proof (run_inv self cfg ops s1 Hc Hi1) as Hi2.
  destruct (replay_decision_spec cfg self _ _ _ _ _ Hi2 E2) as [_ (d2 & P2 & ->)]. rewrite Hkey in P2.
  assert (In row (replay_table (durable (run self ops s1)))) as Hrow2.
  { eapply (run_lease self cfg replay_table set_replay config_replay replay_event); try done.
    eapply Forall_impl; [exact Hops|]. intros op (? & ? & ?). done. }
  rewrite (leased_busy replay_table set_replay config_replay cfg _ _ _ _ _ _ _ _ _ _ _ _ Hi2 Hrow2 Hl Hu Hnow P2).
  by case_bool_decide.
Qed.

(** Between the decision and its lease's end: a decision on the call with
    another input, one on another call, and a completion by another owner. *)
Definition busy_ops : list Op :=
  [OpReplay (request_at digest2 owner2 1200) sample_retention;
   OpReplay (mkReplayRequest digest1 Http "refund" digest1 owner2 1300) sample_retention;
   OpCompleteReplay (mkReplayLease digest1 Http "charge" digest1 owner2) "forged" 1400 sample_retention].

Lemma replay_exclusive_witness :
  (@replay_decision no_faults sample_store (request_at digest1 owner2 1500) sample_retention
     (@run no_faults sample_store busy_ops executing)).2 = Ok InProgress.
Proof.
  pose proof (surjective_pairing (@replay_decision no_faults sample_store (request_at digest1 owner2 1500)
    sample_retention (@run no_faults sample_store busy_ops executing))) as E.
  assert (is_ok (@replay_decision no_faults sample_store (request_at digest1 owner2 1500)
    sample_retention (@run no_faults sample_store busy_ops executing)).2 = true) as Hok by (vm_compute; reflexivity).
  destruct ((@replay_decision no_faults sample_store (request_at digest1 owner2 1500)
    sample_retention (@run no_faults sample_store busy_ops executing)).2) as [decision|e] eqn:D; [|discriminate].
  f_equal. refine (eq_trans (@replay_exclusive no_faults sample_cfg sample_store (request_at digest1 owner1 1000)
    sample_retention fresh executing call_lease busy_ops (request_at digest1 owner2 1500) sample_retention
    _ decision sample_inv_fresh executing_ok _ eq_refl _ E) _); [|vm_compute; reflexivity..].
  unfold busy_ops. rewrite !Forall_cons, Forall_nil.
  split_and!; [exact I|vm_compute; reflexivity|intros []|exact I|vm_compute; reflexivity|intros []
    |reflexivity|exact I|intros (_ & _ & H); discriminate H|exact I].
Defined.

(** C30: A recorded result is replayed until it expires, room permitting.
    After a completion, and whatever operations run then: a decision on the
    call before the result expires that answers at all gives back exactly the
    recorded result, and with another input a conflict, unless some later
    completion had no room for it beside its own result and the results
    recorded or replayed since.  Without another completion of the call, a
    decision never answers with any other result, for another input, or when
    the recorded result has expired. *)
Theorem replay_returns_result `{Faults} cfg self lease value now ops s s1 request policy' s2 decision :
  let policy := config_replay cfg in
  let expires_at := now + as_millis (ttl policy) in
  inv cfg (durable s) -> complete_replay self lease value now policy s = (s1, Ok tt) ->
  Forall (configured cfg) ops -> request_key request = lease_key lease ->
  replay_decision self request policy' (run self ops s1) = (s2, Ok decision) ->
  (Forall (fun op => decided_before expires_at (replay_event op)) ops -> Replay.now_millis request < expires_at ->
     decision = (if bool_decide (rl_input_digest lease = input_digest request) then Replay value else Conflict)
     \/ displaced self cfg replay_table config_replay replay_event (sequence (durable s)) ops s1)
  /\ (Forall (fun op => ~ completes_key (lease_key lease) (replay_event op)) ops ->
      forall found, decision = Replay found ->
        found = value /\ rl_input_digest lease = input_digest request /\ Replay.now_millis request < expires_at).
Proof.
  cbv zeta. intros Hi E1 Hops Hkey E2.
  destruct (complete_replay_spec cfg self _ _ _ _ _ _ _ Hi eq_refl E1) as [Hi1 P1].
  destruct (completed_only cfg replay_table set_replay config_replay _ _ _ _ _ _ _ _ Hi1 P1) as [Hin Honly].
  pose proof (run_inv self cfg ops s1 Hops Hi1) as Hi2.
  destruct (replay_decision_spec cfg self _ _ _ _ _ Hi2 E2) as [_ (d2 & P2 & ->)]. rewrite Hkey in P2. split.
  - intros Hb Hnow.
    destruct (run_result self cfg replay_table set_replay config_replay replay_event ops s1 (lease_key lease)
      (rl_input_digest lease) value _ (sequence (durable s)) _ Hi1 Hin ltac:(lia)) as [(u & _ & Hu)|Hd];
      [apply Forall_and; by split| |by right]. left.
    rewrite (recorded_answers replay_table set_replay config_replay cfg _ _ _ _ _ _ _ _ _ _ _ _ Hi2 Hu Hnow P2).
    by case_bool_decide.
  - intros Hn found E. destruct d2 as [|answer| |]; try done. injection E as <-.
    assert (Forall (fun op => configured cfg op /\ ~ completes_key (lease_key lease) (replay_event op)) ops) as Hboth
      by (apply Forall_and; by split).
    pose proof (run_only_result self cfg replay_table config_replay replay_event _ _ _ _ _ _ Hi1 Honly Hboth) as Ho.
    by destruct (only_result_answers replay_table cfg _ _ _ _ _ _ _ _ _ _ _ Ho P2) as (-> & ? & ?).
Qed.

(** After the completion another call is executed and recorded, which fits. *)
Definition later_ops : list Op :=
  [OpReplay (mkReplayRequest digest1 Http "refund" digest1 owner2 3000) sample_retention;
   OpCompleteReplay (mkReplayLease digest1 Http "refund" digest1 owner2) "refunded" 4000 sample_retention].

Lemma later_ops_fit :
  ~ @displaced no_faults sample_store sample_cfg _ replay_table config_replay replay_event
      (sequence (durable executing)) later_ops recorded.
Proof.
  intros (before & op & after & key & digest & owner & value & now & Hops & He & Hc).
  unfold later_ops in Hops. destruct before as [|a [|b [|c before]]]; simpl in Hops; simplify_eq; simpl in He; simplify_eq.
  vm_compute in Hc. by destruct Hc.
Qed.

Lemma replay_returns_result_witness :
  (@replay_decision no_faults sample_store (request_at digest1 owner2 9000) sample_retention
     (@run no_faults sample_store later_ops recorded)).2 = Ok (Replay "receipt").
Proof.
  pose proof (surjective_pairing (@replay_decision no_faults sample_store (request_at digest1 owner2 9000)
    sample_retention (@run no_faults sample_store later_ops recorded))) as E.
  assert (is_ok (@replay_decision no_faults sample_store (request_at digest1 owner2 9000) sample_retention
     (@run no_faults sample_store later_ops recorded)).2 = true) as Hok by (vm_compute; reflexivity).
  destruct ((@replay_decision no_faults sample_store (request_at digest1 owner2 9000) sample_retention
     (@run no_faults sample_store later_ops recorded)).2) as [decision|e] eqn:D; [|discriminate].
  destruct (@replay_returns_result no_faults sample_cfg sample_store call_lease "receipt" 2000 later_ops
    executing recorded (request_at digest1 owner2 9000) sample_retention _ decision
    sample_inv_executing recorded_ok ltac:(repeat constructor) eq_refl E) as [W _].
  destruct W as [W|W].
  - unfold later_ops. rewrite !Forall_cons, Forall_nil. split_and!; [vm_compute; reflexivity|exact I|exact I].
  - vm_compute. reflexivity.
  - rewrite W. vm_compute. reflexivity.
  - destruct (later_ops_fit W).
Defined.

(** The same of webhooks in a durable store.  Under one key, a request that is
    executing is not executed a second time before its lease ends unless its
    holder ends it, and one that completed is answered with its recorded
    response until that expires or is displaced; another request under the key
    is a conflict. *)
Theorem idempotency_once `{Faults} cfg self artifact key digest owner now policy ops s s1 :
  inv cfg (durable s) -> Forall (configured cfg) ops ->
  forall digest' owner' now' policy' s2 decision,
  idempotency_decision self artifact key digest' owner' now' policy' (run self ops s1) = (s2, Ok decision) ->
  (forall lease, idempotency_decision self artifact key digest owner now policy s
                   = (s1, Ok (IdempotencyExecute lease)) ->
     let until_ := now + as_millis (retention_lease policy) in
     Forall (fun op => ~ ends_lease (artifact, key) digest owner (idempotency_event op)
                       /\ decided_before until_ (idempotency_event op)) ops ->
     now' < until_ ->
     decision = if bool_decide (digest = digest') then IdempotencyInProgress else IdempotencyConflict)
  /\ (forall response,
        complete_idempotency self (mkIdempotencyLease artifact key digest owner) response now
          (config_idempotency cfg) s = (s1, Ok tt) ->
        let expires_at := now + as_millis (ttl (config_idempotency cfg)) in
        Forall (fun op => decided_before expires_at (idempotency_event op)) ops -> now' < expires_at ->
        decision = (if bool_decide (digest = digest') then IdempotencyReplay response else IdempotencyConflict)
        \/ displaced self cfg idempotency_table config_idempotency idempotency_event (sequence (durable s)) ops s1).
Proof.
  intros Hi Hops digest' owner' now' policy' s2 decision E2. split.
  - intros lease E1. cbv zeta. intros Hev Hnow.
    destruct (idempotency_decision_spec cfg self _ _ _ _ _ _ _ _ _ Hi E1) as [Hi1 (d1 & P1 & A1)].
    destruct d1; try done. pose proof (run_inv self cfg ops s1 Hops Hi1) as Hi2.
    destruct (idempotency_decision_spec cfg self _ _ _ _ _ _ _ _ _ Hi2 E2) as [_ (d2 & P2 & ->)].
    destruct (executing_lease cfg idempotency_table _ _ _ _ _ _ _ P1) as (row & Hrow & Hl & Hu).
    assert (In row (idempotency_table (durable (run self ops s1)))) as Hrow2.
    { eapply (run_lease self cfg idempotency_table set_idempotency config_idempotency idempotency_event); try done.
      apply Forall_and. split; [done|exact Hev]. }
    rewrite (leased_busy idempotency_table set_idempotency config_idempotency cfg _ _ _ _ _ _ _ _ _ _ _ _
      Hi2 Hrow2 Hl Hu Hnow P2). by case_bool_decide.
  - intros response E1. cbv zeta. intros Hev Hnow.
    destruct (complete_idempotency_spec cfg self _ _ _ _ _ _ _ Hi eq_refl E1) as [Hi1 P1].
    cbn [il_artifact il_key il_request_digest il_owner] in P1.
    destruct (completed_only cfg idempotency_table set_idempotency config_idempotency _ _ _ _ _ _ _ _ Hi1 P1)
      as [Hin _]. pose proof (run_inv self cfg ops s1 Hops Hi1) as Hi2.
    destruct (idempotency_decision_spec cfg self _ _ _ _ _ _ _ _ _ Hi2 E2) as [_ (d2 & P2 & ->)].
    destruct (run_result self cfg idempotency_table set_idempotency config_idempotency idempotency_event ops s1
      _ _ _ _ (sequence (durable s)) _ Hi1 Hin ltac:(lia)) as [(u & _ & Hu)|Hd];
      [apply Forall_and; by split| |by right]. left.
    rewrite (recorded_answers idempotency_table set_idempotency config_idempotency cfg _ _ _ _ _ _ _ _ _ _ _ _
      Hi2 Hu Hnow P2). by case_bool_decide.
Qed.

Lemma idempotency_once_witness :
  (@idempotency_decision no_faults sample_store digest1 "order-7" digest1 owner2 3000 sample_retention
     (@run no_faults sample_store busy_ops webhook_executing)).2 = Ok IdempotencyInProgress.
Proof.
  pose proof (surjective_pairing (@idempotency_decision no_faults sample_store digest1 "order-7" digest1
    owner2 3000 sample_retention (@run no_faults sample_store busy_ops webhook_executing))) as E.
  assert (is_ok (@idempotency_decision no_faults sample_store digest1 "order-7" digest1
    owner2 3000 sample_retention (@run no_faults sample_store busy_ops webhook_executing)).2 = true)
    as Hok by (vm_compute; reflexivity).
  destruct ((@idempotency_decision no_faults sample_store digest1 "order-7" digest1 owner2 3000
    sample_retention (@run no_faults sample_store busy_ops webhook_executing)).2) as [decision|e] eqn:D;
    [|discriminate].
  f_equal. refine (eq_trans (proj1 (@idempotency_once no_faults sample_cfg sample_store digest1 "order-7" digest1
    owner1 1000 sample_retention busy_ops fresh webhook_executing sample_inv_fresh ltac:(repeat constructor)
    digest1 owner2 3000 sample_retention _ decision E) _ webhook_executing_ok _ _) _);
    [|vm_compute; reflexivity..].
  unfold busy_ops. rewrite !Forall_cons, Forall_nil. split_and!; try exact I; intros [].
Defined.

(** *** Cursors *)

(** Ticks of the schedule are under the policy. *)
Definition ticks_under (schedule : string) (policy : SchedulePolicy) (op : Op) : Prop :=
  match op with
  | OpMaterialize schedule' policy' _ => schedule' = schedule -> policy' = policy
  | _ => True
  end.

Section Cursors.
Context `{Faults} (self : DurableStore) (cfg : Config) (schedule : string) (policy : SchedulePolicy).

(** A tick of another schedule leaves the cursor. *)
Lemma cursor_other schedule' policy' now x : schedule' <> schedule ->
  stable (fun t => cursor_of t schedule = x) (materialize_schedule self schedule' policy' now).
Proof.
  intros Hne. set (P := fun t => cursor_of t schedule = x).
  assert (forall t v, P t -> P (set_cursors t (<[schedule' := v]> (schedule_cursors t)))) as Hother.
  { intros t v Ht. unfold P, cursor_of in *. simpl. by rewrite lookup_insert_ne. }
  unfold materialize_schedule, materialize_body, cleanup_schedule_fires. keeps_auto.
  by apply (quiet_materialize_from P).
Qed.

Lemma cursor_run_op op s :
  configured cfg op -> ticks_under schedule policy op -> inv cfg (durable s) ->
  cursor_started policy (cursor_of (durable s) schedule) ->
  cursor_started policy (cursor_of (durable (run_op self op s)) schedule)
  /\ forall c, cursor_of (durable s) schedule = Some c ->
       exists c', cursor_of (durable (run_op self op s)) schedule = Some c' /\ c <= c'.
Proof.
  intros Hc Hp Hi Hon. set (x := cursor_of (durable s) schedule) in *.
  assert (cursor_of (durable (run_op self op s)) schedule = x
    \/ exists now, op = OpMaterialize schedule policy now) as [->|[now ->]].
  { destruct op; cbn [run_op ticks_under] in *; try (left; untouched (fun t => cursor_of t schedule = x)).
    destruct (decide (schedule0 = schedule)) as [->|Hne]; [rewrite Hp by done; right; by eexists|].
    left. by apply cursor_other. }
  - split; [done|]. intros c ->. by exists c.
  - cbn [run_op]. destruct (materialize_schedule self schedule policy now s) as [s' r] eqn:E.
    by apply (tick_cursor_advances cfg self schedule policy now s s' r).
Qed.

Lemma cursor_run ops s :
  Forall (fun op => configured cfg op /\ ticks_under schedule policy op) ops -> inv cfg (durable s) ->
  cursor_started policy (cursor_of (durable s) schedule) ->
  cursor_started policy (cursor_of (durable (run self ops s)) schedule)
  /\ forall c, cursor_of (durable s) schedule = Some c ->
       exists c', cursor_of (durable (run self ops s)) schedule = Some c' /\ c <= c'.
Proof.
  intros Hops Hi Hon. induction ops as [|op ops IH] using rev_ind; [split; [done|]; intros c Hc; by exists c|].
  rewrite Forall_app, Forall_singleton in Hops. destruct Hops as [Hops [Hc Hp]]. rewrite run_snoc.
  destruct (IH Hops) as [Hon' Hadv].
  assert (inv cfg (durable (run self ops s))) as Hi'.
  { apply run_inv; [|done]. eapply Forall_impl; [exact Hops|]. by intros ? (? & _). }
  destruct (cursor_run_op op (run self ops s) Hc Hp Hi' Hon') as [Hon2 Hadv2]. split; [done|].
  intros c (c1 & Hc1 & Hle)%Hadv. destruct (Hadv2 c1 Hc1) as (c2 & -> & ?). exists c2. split; [done|lia].
Qed.
End Cursors.

(** C29: No occurrence is materialized twice.  In any history of a store whose
    ticks of a schedule are all under one policy, once a tick at an instant at
    or after the start has succeeded, no later tick of the schedule adds a fire
    due at or before that instant: whatever runs in between, ticks with earlier
    clocks, failed statements and the pruning of fires included. *)
Theorem tick_never_repeats `{Faults} cfg self schedule policy before now1 s1 res1 after now2 s2 r2 :
  config_valid cfg (limits self) ->
  Forall (fun op => configured cfg op /\ ticks_under schedule policy op) (before ++ after) ->
  start_millis policy <= now1 ->
  materialize_schedule self schedule policy now1 (run self before fresh) = (s1, Ok res1) ->
  materialize_schedule self schedule policy now2 (run self after s1) = (s2, r2) ->
  forall f, In f (schedule_fires (durable s2)) -> fire_due_at f <= now1 ->
    In f (schedule_fires (durable (run self after s1))).
Proof.
  intros Hv [Hb Ha]%Forall_app Hs E1 E2 f Hf Hdue.
  assert (forall ops, Forall (fun op => configured cfg op /\ ticks_under schedule policy op) ops ->
    Forall (configured cfg) ops) as Hcf by (intros ops Ho; eapply Forall_impl; [exact Ho|]; by intros ? (? & _)).
  pose proof (empty_inv cfg _ Hv : inv cfg (durable fresh)) as H0.
  pose proof (run_inv self cfg before fresh (Hcf _ Hb) H0) as Hi0.
  destruct (cursor_run self cfg schedule policy before fresh Hb H0) as [Hon _]; [done|].
  destruct (tick_spec cfg self schedule policy now1 _ _ _ Hi0 E1) as [Hi1 _].
  destruct (tick_cursor_advances cfg self schedule policy now1 _ _ _ Hi0 Hon E1) as [Hon1 _].
  destruct (cursor_run self cfg schedule policy after s1 Ha Hi1 Hon1) as [_ Hadv].
  destruct (Hadv _ (tick_cursor cfg self schedule policy now1 _ _ _ Hi0 Hon E1 Hs)) as (c & Hc & Hle).
  destruct (tick_validated self schedule policy _ _ _ _ E1) as [He _].
  destruct (tick_after_cursor cfg self schedule policy now2 _ _ _ c f (run_inv self cfg after s1 (Hcf _ Ha) Hi1) E2 Hc Hf)
    as [?|(Hlt & k & Hk)]; [done|].
  rewrite Hk in Hdue, Hlt. apply (occurrence_due policy He now1 Hs) in Hdue.
  apply (occurrence_le policy He) in Hdue. unfold later_of, last_due_of in Hle.
  unfold occurrence in *. case_match; lia.
Qed.

(** A tick with a clock five minutes behind, after the first tick. *)
Lemma tick_never_repeats_witness :
  let after := [OpMaterialize "tick" sample_schedule 305000; OpReserveFire "tick" sample_schedule owner1 606000] in
  let again := @materialize_schedule no_faults sample_store "tick" sample_schedule 606000
                 (@run no_faults sample_store after ticked) in
  again.2 = Ok (mkScheduleCatchUp 0 0 600000)
  /\ forall f, In f (schedule_fires (durable again.1)) -> fire_due_at f <= 605000 ->
       In f (schedule_fires (durable (@run no_faults sample_store after ticked))).
Proof.
  cbv zeta. split; [vm_compute; reflexivity|].
  pose proof (surjective_pairing (@materialize_schedule no_faults sample_store "tick" sample_schedule
    605000 fresh)) as E. rewrite tick_ok in E.
  apply (@tick_never_repeats no_faults sample_cfg sample_store "tick" sample_schedule [] 605000 ticked
    (mkScheduleCatchUp 1 0 600000)
    [OpMaterialize "tick" sample_schedule 305000; OpReserveFire "tick" sample_schedule owner1 606000] 606000 _
    (@materialize_schedule no_faults sample_store "tick" sample_schedule 606000 (@run no_faults sample_store
      [OpMaterialize "tick" sample_schedule 305000; OpReserveFire "tick" sample_schedule owner1 606000] ticked)).2).
  - exact sample_config_valid.
  - repeat constructor.
  - vm_compute. discriminate.
  - exact E.
  - apply surjective_pairing.
Defined.
