(* ===== verification/Invocation.v ===== *)
(** * One invocation's durable transaction

    Models [krit-runtime/src/state.rs]: the configuration of stores, queues,
    schedules and buckets ([DurableState]), its validation, and the state of one invocation
    ([InvocationState]), which binds itself to one store at the revision it
    first sees, answers reads from what it staged and otherwise from the store
    at that revision, and hands everything staged to one [commit_plan].

    A connection is a session on a database file; the sessions of all files
    are the world an invocation shares with the other operations of the host.
    [expect] on a missing store is the outcome [Panic].  The methods [get],
    [put], [delete] and [bind] are [state_get], [state_put], [state_delete]
    and [bind_store] here. *)

From S2P Require Import Prelude Utf8 BTree Capability RuntimeErrors Sql Store Jobs.

(** ** Errors *)

Definition map_state_error (error : StateError) : RuntimeError :=
  match error_kind error with
  | KDatabase => durable_state (error_message error)
  | KConflict | KLimit => state_conflict (error_message error)
  | KReplay => runtime_replay (error_message error)
  end.

(** ** Configuration *)

Inductive Durability : Type := Full | Normal.

Record DurableStoreDefinition : Type := mkStoreDefinition {
  definition_path : string;
  definition_durability : Durability;
  definition_limits : StoreLimits;
  definition_replay : RetentionPolicy;
}.

(** [QueueDefinition], [ScheduleDefinition], [BucketDefinition] and the
    [ResourceBinding] each becomes. *)
Record ResourceBinding (P : Type) : Type := mkResourceBinding {
  bound_store : string;
  bound_policy : P;
}.
Arguments mkResourceBinding {P} bound_store bound_policy.
Arguments bound_store {P} r.
Arguments bound_policy {P} r.

(** An open store; [binding_database] is the file its connection is open on. *)
Record StoreBinding : Type := mkStoreBinding {
  binding_store : DurableStore;
  binding_replay : RetentionPolicy;
  binding_database : string;
}.

Record DurableState : Type := mkDurableState {
  stores : btree string StoreBinding;
  durable_idempotency_store : option string;
  state_queues : btree string (ResourceBinding QueuePolicy);
  state_schedules : btree string (ResourceBinding SchedulePolicy);
  state_buckets : btree string (ResourceBinding BucketPolicy);
}.

Definition MAX_STORES : Z := 16.
Definition MAX_SCHEDULES : Z := 16.

Definition definition_validate (d : DurableStoreDefinition) : result unit RuntimeError :=
  map_err map_state_error (retention_validate (definition_replay d) (definition_limits d)).

Definition validate_resource_name (name : string) : result unit RuntimeError :=
  if is_valid_resource_name (bytes_of name) then Ok tt
  else Err (durable_state "durable resource name must use the canonical resource grammar").

(** [for (name, definition) in definitions { .. ?; }]. *)
Fixpoint try_each {V E} (check : string -> V -> result unit E) (m : btree string V) : result unit E :=
  match m with
  | [] => Ok tt
  | (name, v) :: m' => let? _ := check name v in try_each check m'
  end.

Definition require_store (known : list string) (name store : string) : result unit RuntimeError :=
  let? _ := validate_resource_name name in
  if negb (bool_decide (store ∈ known)) then
    Err (durable_state "durable job resource names an unconfigured store")
  else Ok tt.

Definition validate_definition {P} (validate : P -> result unit StateError) (known : list string)
    (name : string) (d : ResourceBinding P) : result unit RuntimeError :=
  let? _ := require_store known name (bound_store d) in
  map_err map_state_error (validate (bound_policy d)).

Definition validate_job_definitions (known : list string)
    (queues : btree string (ResourceBinding QueuePolicy))
    (schedules : btree string (ResourceBinding SchedulePolicy))
    (buckets : btree string (ResourceBinding BucketPolicy)) : result unit RuntimeError :=
  if (MAX_QUEUES <? Z.of_nat (length queues)) || (MAX_SCHEDULES <? Z.of_nat (length schedules))
     || (MAX_BUCKETS <? Z.of_nat (length buckets))
  then Err (state_conflict "configured queues, schedules, or buckets exceed the protocol bounds")
  else
    let? _ := try_each (validate_definition queue_validate known) queues in
    let? _ := try_each (validate_definition schedule_validate known) schedules in
    try_each (validate_definition bucket_validate known) buckets.

Definition store_names (self : DurableState) : list string := bt_keys (stores self).

(** [DurableState::validate_configuration]. *)
Definition validate_configuration (definitions : btree string DurableStoreDefinition)
    (idempotency_store : option string) (queues : btree string (ResourceBinding QueuePolicy))
    (schedules : btree string (ResourceBinding SchedulePolicy))
    (buckets : btree string (ResourceBinding BucketPolicy)) : result unit RuntimeError :=
  if MAX_STORES <? Z.of_nat (length definitions) then
    Err (state_conflict "configured durable stores exceed the protocol bound")
  else
    let? _ := try_each (fun name definition =>
      let? _ := validate_resource_name name in definition_validate definition) definitions in
    if match idempotency_store with
       | Some name => negb (is_some (bt_get name definitions))
       | None => false
       end
    then Err (durable_state "durable idempotency store is not configured")
    else validate_job_definitions (bt_keys definitions) queues schedules buckets.

(** [Duration::checked_add]. *)
Definition duration_checked_add (a b : Duration) : option Duration :=
  if a + b <=? DURATION_MAX then Some (a + b) else None.

Definition validate_lease (lease busy_timeout deadline : Duration) (resource : string)
  : result unit RuntimeError :=
  let? minimum := ok_or (duration_checked_add deadline busy_timeout)
    (durable_state "durable lease minimum overflowed") in
  if lease <? minimum then
    Err (durable_state ("durable " +:+ resource
           +:+ " lease must cover the runtime deadline and database busy timeout"))
  else Ok tt.

(** [validate_configuration_for_runtime]; [None] is the panic of indexing
    [definitions] with a store it does not have. *)
Definition resource_lease {P} (definitions : btree string DurableStoreDefinition)
    (lease_of : P -> Duration) (resource : string) (deadline : Duration)
    (d : ResourceBinding P) : option (result unit RuntimeError) :=
  match bt_get (bound_store d) definitions with
  | Some definition =>
      Some (validate_lease (lease_of (bound_policy d)) (busy_timeout (definition_limits definition))
              deadline resource)
  | None => None
  end.

Fixpoint leases_of {P} (definitions : btree string DurableStoreDefinition) (lease_of : P -> Duration)
    (resource : string) (deadline : Duration) (m : btree string (ResourceBinding P))
  : option (result unit RuntimeError) :=
  match m with
  | [] => Some (Ok tt)
  | (_, d) :: m' =>
      match resource_lease definitions lease_of resource deadline d with
      | Some (Ok _) => leases_of definitions lease_of resource deadline m'
      | other => other
      end
  end.

Definition and_then (first second : option (result unit RuntimeError))
  : option (result unit RuntimeError) :=
  match first with Some (Ok _) => second | other => other end.

Definition validate_configuration_for_runtime (definitions : btree string DurableStoreDefinition)
    (idempotency_store : option string) (queues : btree string (ResourceBinding QueuePolicy))
    (schedules : btree string (ResourceBinding SchedulePolicy))
    (buckets : btree string (ResourceBinding BucketPolicy)) (deadline : Duration)
  : option (result unit RuntimeError) :=
  and_then (Some (validate_configuration definitions idempotency_store queues schedules buckets))
    (and_then (Some (try_each (fun _ definition =>
        validate_lease (retention_lease (definition_replay definition))
          (busy_timeout (definition_limits definition)) deadline "replay") definitions))
      (and_then (leases_of definitions queue_lease "queue" deadline queues)
        (leases_of definitions schedule_lease "schedule" deadline schedules))).

(** [with_jobs]: the bindings of a state whose stores are open. *)
Definition with_jobs (self : DurableState) (queues : btree string (ResourceBinding QueuePolicy))
    (schedules : btree string (ResourceBinding SchedulePolicy))
    (buckets : btree string (ResourceBinding BucketPolicy)) : result DurableState RuntimeError :=
  let? _ := validate_job_definitions (store_names self) queues schedules buckets in
  Ok (mkDurableState (stores self) (durable_idempotency_store self)
        (bt_extend queues []) (bt_extend schedules []) (bt_extend buckets [])).

Definition binding (self : DurableState) (name : string) : result StoreBinding RuntimeError :=
  ok_or (bt_get name (stores self)) (authorization "durable state store is not configured").

Definition queue_binding (self : DurableState) (name : string)
  : result (StoreBinding * QueuePolicy) RuntimeError :=
  let? b := ok_or (bt_get name (state_queues self)) (authorization "durable queue is not configured") in
  let? s := binding self (bound_store b) in
  Ok (s, bound_policy b).

Definition schedule_binding (self : DurableState) (name : string)
  : result (StoreBinding * SchedulePolicy) RuntimeError :=
  let? b := ok_or (bt_get name (state_schedules self))
    (authorization "durable schedule is not configured") in
  let? s := binding self (bound_store b) in
  Ok (s, bound_policy b).

Definition bucket_binding (self : DurableState) (name : string)
  : result (string * BucketPolicy) RuntimeError :=
  let? b := ok_or (bt_get name (state_buckets self))
    (authorization "durable object bucket is not configured") in
  Ok (bound_store b, bound_policy b).

Definition schedule_store (self : DurableState) (name : string) : result string RuntimeError :=
  ok_or (bound_store <$> bt_get name (state_schedules self))
    (authorization "durable schedule is not configured").

Definition queue_store (self : DurableState) (name : string) : result string RuntimeError :=
  ok_or (bound_store <$> bt_get name (state_queues self))
    (authorization "durable queue is not configured").

Definition policies {P} (m : btree string (ResourceBinding P)) : btree string P :=
  bt_extend (map (fun '(name, b) => (name, bound_policy b)) m) [].
Definition queue_policies (self : DurableState) : btree string QueuePolicy :=
  policies (state_queues self).
Definition bucket_policies (self : DurableState) : btree string BucketPolicy :=
  policies (state_buckets self).

Definition idempotency_binding (self : DurableState) : option StoreBinding :=
  match durable_idempotency_store self with
  | Some name => bt_get name (stores self)
  | None => None
  end.

Fixpoint each_lease {P} (self : DurableState) (lease_of : P -> Duration) (resource : string)
    (deadline : Duration) (m : btree string (ResourceBinding P)) : result unit RuntimeError :=
  match m with
  | [] => Ok tt
  | (_, b) :: m' =>
      let? s := binding self (bound_store b) in
      let? _ := validate_lease (lease_of (bound_policy b)) (busy_timeout (limits (binding_store s)))
        deadline resource in
      each_lease self lease_of resource deadline m'
  end.

Definition validate_for_runtime (self : DurableState) (deadline : Duration)
  : result unit RuntimeError :=
  let? _ := try_each (fun _ b =>
    validate_lease (retention_lease (binding_replay b)) (busy_timeout (limits (binding_store b)))
      deadline "replay") (stores self) in
  let? _ := each_lease self queue_lease "queue" deadline (state_queues self) in
  each_lease self schedule_lease "schedule" deadline (state_schedules self).

(** ** The state of an invocation *)

Record ActiveStore : Type := mkActiveStore {
  active_name : string;
  active_binding : StoreBinding;
  active_revision : Z;
  active_values : btree string (option string);
  active_checkpoints : btree string string;
  active_objects : btree (string * string) (option string);
  active_publishes : list (string * string * string);
}.

Record InvocationState : Type := mkInvocationState {
  active : option ActiveStore;
  operations : Z;
  reads : Z;
  writes : Z;
  checkpoint_reads : Z;
  checkpoint_writes : Z;
  replay_hits : Z;
  replay_misses : Z;
  object_reads : Z;
  object_writes : Z;
  queue_publishes : Z;
}.

(** [InvocationState::default]. *)
Definition new_invocation : InvocationState := mkInvocationState None 0 0 0 0 0 0 0 0 0 0.

Definition set_active (i : InvocationState) (a : option ActiveStore) : InvocationState :=
  mkInvocationState a (operations i) (reads i) (writes i) (checkpoint_reads i) (checkpoint_writes i)
    (replay_hits i) (replay_misses i) (object_reads i) (object_writes i) (queue_publishes i).
Definition set_operations (i : InvocationState) (n : Z) : InvocationState :=
  mkInvocationState (active i) n (reads i) (writes i) (checkpoint_reads i) (checkpoint_writes i)
    (replay_hits i) (replay_misses i) (object_reads i) (object_writes i) (queue_publishes i).

(** The saturating counters. *)
Inductive Counter : Type :=
| Reads | Writes | CheckpointReads | CheckpointWrites | ReplayHits | ReplayMisses
| ObjectReads | ObjectWrites | QueuePublishes.

Definition bump (which : Counter) (i : InvocationState) : InvocationState :=
  let at_ (c : Counter) (n : Z) :=
    match c, which with
    | Reads, Reads | Writes, Writes | CheckpointReads, CheckpointReads
    | CheckpointWrites, CheckpointWrites | ReplayHits, ReplayHits | ReplayMisses, ReplayMisses
    | ObjectReads, ObjectReads | ObjectWrites, ObjectWrites | QueuePublishes, QueuePublishes =>
        u64_saturating_add n 1
    | _, _ => n
    end in
  mkInvocationState (active i) (operations i) (at_ Reads (reads i)) (at_ Writes (writes i))
    (at_ CheckpointReads (checkpoint_reads i)) (at_ CheckpointWrites (checkpoint_writes i))
    (at_ ReplayHits (replay_hits i)) (at_ ReplayMisses (replay_misses i))
    (at_ ObjectReads (object_reads i)) (at_ ObjectWrites (object_writes i))
    (at_ QueuePublishes (queue_publishes i)).

Definition stage_value (a : ActiveStore) (key : string) (value : option string) : ActiveStore :=
  mkActiveStore (active_name a) (active_binding a) (active_revision a)
    (bt_insert key value (active_values a)) (active_checkpoints a) (active_objects a)
    (active_publishes a).
Definition stage_checkpoint (a : ActiveStore) (name value : string) : ActiveStore :=
  mkActiveStore (active_name a) (active_binding a) (active_revision a) (active_values a)
    (bt_insert name value (active_checkpoints a)) (active_objects a) (active_publishes a).
Definition stage_object (a : ActiveStore) (bucket key : string) (value : option string)
  : ActiveStore :=
  mkActiveStore (active_name a) (active_binding a) (active_revision a) (active_values a)
    (active_checkpoints a) (bt_insert (bucket, key) value (active_objects a)) (active_publishes a).
Definition stage_publish (a : ActiveStore) (queue id body : string) : ActiveStore :=
  mkActiveStore (active_name a) (active_binding a) (active_revision a) (active_values a)
    (active_checkpoints a) (active_objects a) (active_publishes a ++ [(queue, id, body)]).

(** ** Computations of the host *)

(** The sessions of the database files. *)
Abbreviation World := (gmap string (Session Tables)).

(** A file nothing was written to yet holds empty tables. *)
Definition opened : Session Tables := mkSession 0%nat empty_tables empty_tables.

Definition session (w : World) (database : string) : Session Tables :=
  default opened (w !! database).

Inductive Outcome (A : Type) : Type :=
| Answer (a : A)
| Fail (e : RuntimeError)
| Panic.
Arguments Answer {A} a.
Arguments Fail {A} e.
Arguments Panic {A}.

Definition Host (A : Type) : Type :=
  InvocationState -> World -> InvocationState * World * Outcome A.

Definition host_ret {A} (a : A) : Host A := fun i w => (i, w, Answer a).
Definition host_fail {A} (e : RuntimeError) : Host A := fun i w => (i, w, Fail e).
Definition host_bind {A B} (m : Host A) (k : A -> Host B) : Host B :=
  fun i w =>
    match m i w with
    | (i, w, Answer a) => k a i w
    | (i, w, Fail e) => (i, w, Fail e)
    | (i, w, Panic) => (i, w, Panic)
    end.

Notation "'let+' x := c 'in' k" := (host_bind c (fun x => k))
  (at level 10, x pattern, c at level 100, k at level 200,
   format "'[v' 'let+'  x  :=  c  'in' '/' k ']'") : krit_scope.

Definition host_lift {A} (r : result A RuntimeError) : Host A :=
  match r with Ok a => host_ret a | Err e => host_fail e end.
Definition modify (f : InvocationState -> InvocationState) : Host unit :=
  fun i w => (f i, w, Answer tt).
Definition invocation : Host InvocationState := fun i w => (i, w, Answer i).

(** [self.active.as_mut().expect("active store was initialized")]. *)
Definition expect_active : Host ActiveStore :=
  fun i w => match active i with Some a => (i, w, Answer a) | None => (i, w, Panic) end.

(** An operation of a store on its connection, errors mapped. *)
Definition on_store {A} (b : StoreBinding) (m : Sql Tables StateError A) : Host A :=
  fun i w =>
    let '(s, r) := m (session w (binding_database b)) in
    (i, <[binding_database b := s]> w,
     match r with Ok a => Answer a | Err e => Fail (map_state_error e) end).

(** ** Operations of an invocation *)

Section Invocation.
Context `{Faults} (durable : DurableState).

Definition activate_checked (b : StoreBinding) (store : string) : Host unit :=
  let+ i := invocation in
  match active i with
  | Some a =>
      if negb (bool_decide (active_name a = store)) then
        host_fail (state_conflict "one invocation cannot transact across multiple durable stores")
      else host_ret tt
  | None =>
      let+ revision := on_store b (store_revision (binding_store b)) in
      modify (fun i => set_active i (Some (mkActiveStore store b revision [] [] [] [])))
  end.

Definition activate (store : string) : Host unit :=
  let+ b := host_lift (binding durable store) in
  activate_checked b store.

Definition bind_store (store : string) : Host unit := activate store.

Definition record_operation (store : string) : Host unit :=
  let+ b := host_lift (binding durable store) in
  let+ i := invocation in
  let+ next := host_lift (ok_or (u64_checked (operations i + 1))
    (state_conflict "state operation count overflowed")) in
  if max_operations (limits (binding_store b)) <? next then
    host_fail (state_conflict "state operation count exceeds the configured limit")
  else
    let+ _ := modify (fun i => set_operations i next) in
    activate_checked b store.

(** The bytes [validate_staged] counts: keys and values, names and
    checkpoints; objects and publishes have bounds of their own. *)
Definition staged_sizes (a : ActiveStore) : list Z :=
  map (fun '(key, value) => str_len key + match value with Some v => str_len v | None => 0 end)
    (active_values a)
  ++ map (fun '(name, value) => str_len name + str_len value) (active_checkpoints a).

Definition checked_sum (sizes : list Z) : option Z :=
  foldl (fun total n => match total with Some total => usize_checked (total + n) | None => None end)
    (Some 0) sizes.

Definition validate_staged : Host unit :=
  let+ a := expect_active in
  let+ total := host_lift (ok_or (checked_sum (staged_sizes a))
    (state_conflict "staged state byte count overflowed")) in
  if max_transaction_bytes (limits (binding_store (active_binding a))) <? total then
    host_fail (state_conflict "staged state exceeds the configured transaction byte limit")
  else host_ret tt.

Definition validate_key_value (b : StoreBinding) (key : string) (value : option string)
  : result unit RuntimeError :=
  let l := limits (binding_store b) in
  if (str_len key =? 0) || (max_key_bytes l <? str_len key) || contains_nul key then
    Err (state_conflict "durable state key is invalid or exceeds its configured limit")
  else if match value with Some value => max_value_bytes l <? str_len value | None => false end then
    Err (state_conflict "durable state value exceeds its configured limit")
  else Ok tt.

Definition validate_object_key_value (policy : BucketPolicy) (key : string) (value : option string)
  : result unit RuntimeError :=
  if (str_len key =? 0) || (bucket_max_key_bytes policy <? str_len key) || contains_nul key then
    Err (state_conflict "durable object key is invalid or exceeds its configured limit")
  else if match value with Some value => max_object_bytes policy <? str_len value | None => false end
  then Err (state_conflict "durable object value exceeds its configured limit")
  else Ok tt.

(** [value.map(String::from_utf8).transpose()]. *)
Definition text_of (message : string) (value : option string) : result (option string) RuntimeError :=
  match value with
  | Some v => if from_utf8 (bytes_of v) then Ok (Some v) else Err (durable_state message)
  | None => Ok None
  end.

Definition state_get (store key : string) : Host (option string) :=
  let+ _ := record_operation store in
  let+ _ := modify (bump Reads) in
  let+ a := expect_active in
  let+ value := match bt_get key (active_values a) with
                | Some value => host_ret value
                | None => on_store (active_binding a)
                    (get_at_revision (binding_store (active_binding a)) key (active_revision a))
                end in
  host_lift (text_of "durable state value is not UTF-8" value).

Definition stage (a : ActiveStore) : Host unit :=
  let+ _ := modify (fun i => set_active i (Some a)) in
  validate_staged.

Definition state_put (store key value : string) : Host unit :=
  let+ _ := record_operation store in
  let+ _ := modify (bump Writes) in
  let+ a := expect_active in
  let+ _ := host_lift (validate_key_value (active_binding a) key (Some value)) in
  stage (stage_value a key (Some value)).

Definition state_delete (store key : string) : Host unit :=
  let+ _ := record_operation store in
  let+ _ := modify (bump Writes) in
  let+ a := expect_active in
  let+ _ := host_lift (validate_key_value (active_binding a) key None) in
  stage (stage_value a key None).

Definition checkpoint_get (store name : string) : Host (option string) :=
  let+ _ := record_operation store in
  let+ _ := modify (bump CheckpointReads) in
  let+ a := expect_active in
  let+ value := match bt_get name (active_checkpoints a) with
                | Some value => host_ret (Some value)
                | None => on_store (active_binding a)
                    (checkpoint_at_revision (binding_store (active_binding a)) name
                       (active_revision a))
                end in
  host_lift (text_of "durable checkpoint value is not UTF-8" value).

Definition checkpoint_put (store name value : string) : Host unit :=
  let+ _ := record_operation store in
  let+ _ := modify (bump CheckpointWrites) in
  let+ a := expect_active in
  let+ _ := host_lift (validate_key_value (active_binding a) name (Some value)) in
  stage (stage_checkpoint a name value).

Definition object_get (bucket key : string) : Host (option string) :=
  let+ (store, _) := host_lift (bucket_binding durable bucket) in
  let+ _ := record_operation store in
  let+ _ := modify (bump ObjectReads) in
  let+ a := expect_active in
  let+ value := match bt_get (bucket, key) (active_objects a) with
                | Some value => host_ret value
                | None => on_store (active_binding a)
                    (object_at_revision (binding_store (active_binding a)) bucket key
                       (active_revision a))
                end in
  host_lift (text_of "durable object is not UTF-8" value).

Definition object_put (bucket key value : string) : Host unit :=
  let+ (store, policy) := host_lift (bucket_binding durable bucket) in
  let+ _ := record_operation store in
  let+ _ := modify (bump ObjectWrites) in
  let+ _ := host_lift (validate_object_key_value policy key (Some value)) in
  let+ a := expect_active in
  stage (stage_object a bucket key (Some value)).

Definition object_delete (bucket key : string) : Host unit :=
  let+ (store, policy) := host_lift (bucket_binding durable bucket) in
  let+ _ := record_operation store in
  let+ _ := modify (bump ObjectWrites) in
  let+ _ := host_lift (validate_object_key_value policy key None) in
  let+ a := expect_active in
  stage (stage_object a bucket key None).

Definition staged_in (queue : string) (publishes : list (string * string * string)) : Z :=
  Z.of_nat (length (filter (fun p => p.1.1 = queue) publishes)).

Definition queue_publish (queue body id : string) : Host unit :=
  let+ (_, policy) := host_lift (queue_binding durable queue) in
  let+ store := host_lift (queue_store durable queue) in
  let+ _ := record_operation store in
  let+ _ := modify (bump QueuePublishes) in
  if max_job_bytes policy <? str_len body then
    host_fail (state_conflict "durable queue job exceeds its configured byte limit")
  else
    let+ a := expect_active in
    if max_depth policy <=? staged_in queue (active_publishes a) then
      host_fail (state_conflict "durable queue publishes exceed the configured depth")
    else stage (stage_publish a queue id body).

Definition replay_binding (store : string) : Host StoreBinding :=
  let+ _ := record_operation store in
  let+ a := expect_active in
  host_ret (active_binding a).

Definition record_replay (replayed : bool) : Host unit :=
  modify (bump (if replayed then ReplayHits else ReplayMisses)).

Definition touched (i : InvocationState) : bool := is_some (active i).

(** The staged changes as the mutations of a commit, in the order of the maps. *)
Definition staged_mutations (a : ActiveStore) : list Mutation :=
  map (fun '(key, value) => match value with Some value => Put key value | None => Delete key end)
    (active_values a)
  ++ map (fun '(name, value) => CheckpointPut name value) (active_checkpoints a)
  ++ map (fun '((bucket, key), value) =>
       match value with Some value => ObjectPut bucket key value | None => ObjectDelete bucket key end)
       (active_objects a)
  ++ map (fun '(queue, id, body) => QueuePublish queue id body) (active_publishes a).

Definition staged_plan (a : ActiveStore) (completion : option Completion) (now_millis : Z)
  : CommitPlan :=
  mkCommitPlan (active_revision a) (staged_mutations a) (queue_policies durable)
    (bucket_policies durable) now_millis completion.

Definition commit_outcome (completion : option Completion) (now_millis : Z) : Host unit :=
  let+ i := invocation in
  match active i with
  | None =>
      match completion with
      | Some _ => host_fail (delivery "delivery acknowledgement has no active durable store")
      | None => host_ret tt
      end
  | Some a =>
      let+ _ := modify (fun i => set_active i None) in
      match staged_mutations a, completion with
      | [], None => host_ret tt
      | _, _ =>
          let+ _ := on_store (active_binding a)
            (commit_plan (binding_store (active_binding a)) (staged_plan a completion now_millis)) in
          host_ret tt
      end
  end.
End Invocation.
