(* ===== verification/InvocationFacts.v ===== *)
(** * An invocation is one atomic step

    Whatever the other operations of the host do between its calls, an
    invocation whose calls and commit succeed has read one snapshot of its
    store with its own writes on top, and its commit installs exactly those
    writes on that snapshot. *)

From S2P Require Import Prelude Utf8 BTree Sql Store Jobs Replay StoreFacts CommitFacts.
From S2P Require Import JobsFacts ScheduleFacts ReplayFacts History RuntimeErrors Invocation.

(** ** The specification: an invocation alone on private copies *)

Record Private : Type := mkPrivate {
  private_kv : gmap string string;
  private_checkpoints : gmap string string;
  private_objects : gmap (string * string) string;
  (** Identity, queue and body of the jobs published so far. *)
  private_jobs : list (string * string * string);
}.

Inductive Call : Type :=
| CallBind (store : string)
| CallGet (store key : string)
| CallPut (store key value : string)
| CallDelete (store key : string)
| CallCheckpointGet (store name : string)
| CallCheckpointPut (store name value : string)
| CallObjectGet (bucket key : string)
| CallObjectPut (bucket key value : string)
| CallObjectDelete (bucket key : string)
| CallPublish (queue body id : string)
| CallReplay (store : string).

(** Whether a call writes what the store's revision covers. *)
Definition writing (c : Call) : bool :=
  match c with
  | CallPut _ _ _ | CallDelete _ _ | CallCheckpointPut _ _ _ | CallObjectPut _ _ _
  | CallObjectDelete _ _ => true
  | _ => false
  end.

Definition spec_call (c : Call) (p : Private) : Private * option string :=
  let 'mkPrivate kv ck objs jobs := p in
  match c with
  | CallBind _ | CallReplay _ => (p, None)
  | CallGet _ key => (p, kv !! key)
  | CallPut _ key value => (mkPrivate (<[key := value]> kv) ck objs jobs, None)
  | CallDelete _ key => (mkPrivate (delete key kv) ck objs jobs, None)
  | CallCheckpointGet _ name => (p, ck !! name)
  | CallCheckpointPut _ name value => (mkPrivate kv (<[name := value]> ck) objs jobs, None)
  | CallObjectGet bucket key => (p, objs !! (bucket, key))
  | CallObjectPut bucket key value => (mkPrivate kv ck (<[(bucket, key) := value]> objs) jobs, None)
  | CallObjectDelete bucket key => (mkPrivate kv ck (delete (bucket, key) objs) jobs, None)
  | CallPublish queue body id => (mkPrivate kv ck objs (jobs ++ [(id, queue, body)]), None)
  end.

Fixpoint spec_run (calls : list Call) (p : Private) : Private * list (option string) :=
  match calls with
  | [] => (p, [])
  | c :: calls =>
      let '(p, answer) := spec_call c p in
      let '(p, answers) := spec_run calls p in
      (p, answer :: answers)
  end.

(** What readers of a store see, with nothing published yet. *)
Definition private_of (v : View) : Private :=
  mkPrivate (view_kv v) (view_checkpoints v) (view_objects v) [].

(** The commit of private copies. *)
Definition view_install (p : Private) (v : View) : View :=
  mkView (view_revision v + 1) (private_kv p) (private_checkpoints p) (private_objects p)
    (view_jobs v ++ private_jobs p) (view_fires v) (view_rest v).
Definition view_publish (p : Private) (v : View) : View :=
  mkView (view_revision v) (view_kv v) (view_checkpoints v) (view_objects v)
    (view_jobs v ++ private_jobs p) (view_fires v) (view_rest v).

(** ** Runs: the calls of one invocation among the operations of the host *)

Inductive Event : Type :=
| Guest (c : Call)
| Other (database : string) (self : DurableStore) (op : Op).

Definition guest_calls (events : list Event) : list Call :=
  omap (fun e => match e with Guest c => Some c | Other _ _ _ => None end) events.

Definition event_configured (cfg : Config) (e : Event) : Prop :=
  match e with Guest _ => True | Other _ _ op => configured cfg op end.

Section Runs.
Context `{Faults} (durable_st : DurableState).

Definition no_answer (m : Host unit) : Host (option string) := let+ _ := m in host_ret None.

Definition do_call (c : Call) : Host (option string) :=
  match c with
  | CallBind store => no_answer (bind_store durable_st store)
  | CallGet store key => state_get durable_st store key
  | CallPut store key value => no_answer (state_put durable_st store key value)
  | CallDelete store key => no_answer (state_delete durable_st store key)
  | CallCheckpointGet store name => checkpoint_get durable_st store name
  | CallCheckpointPut store name value => no_answer (checkpoint_put durable_st store name value)
  | CallObjectGet bucket key => object_get durable_st bucket key
  | CallObjectPut bucket key value => no_answer (object_put durable_st bucket key value)
  | CallObjectDelete bucket key => no_answer (object_delete durable_st bucket key)
  | CallPublish queue body id => no_answer (queue_publish durable_st queue body id)
  | CallReplay store => let+ _ := replay_binding durable_st store in host_ret None
  end.

(** A failing call ends the invocation: the guest traps. *)
Fixpoint run_events (events : list Event) : Host (list (option string)) :=
  match events with
  | [] => host_ret []
  | Guest c :: events =>
      let+ answer := do_call c in
      let+ answers := run_events events in
      host_ret (answer :: answers)
  | Other database self op :: events =>
      fun i w => run_events events i (<[database := run_op self op (session w database)]> w)
  end.
End Runs.

(** ** Staged maps over a snapshot *)

Definition overlay_step {K V} `{Countable K} (val : V -> option string) (m : gmap K string)
    (kv : K * V) : gmap K string :=
  match val kv.2 with Some v => <[kv.1 := v]> m | None => delete kv.1 m end.
Definition overlay {K V} `{Countable K} (val : V -> option string) (staged : btree K V)
    (base : gmap K string) : gmap K string :=
  foldl (overlay_step val) base staged.

Section Overlay.
Context {K V : Type} `{Countable K} `{CmpOk K} (val : V -> option string).
Implicit Types (staged : btree K V) (base : gmap K string).

Lemma lookup_overlay_step base k v k' :
  overlay_step val base (k, v) !! k' = if decide (k' = k) then val v else base !! k'.
Proof.
  unfold overlay_step. simpl. case_decide as D; [subst|]; destruct (val v) eqn:E.
  - by rewrite lookup_insert_eq.
  - by rewrite lookup_delete_eq.
  - by rewrite lookup_insert_ne.
  - by rewrite lookup_delete_ne.
Qed.

Lemma lookup_overlay staged base k : bt_sorted staged ->
  overlay val staged base !! k = match bt_get k staged with Some v => val v | None => base !! k end.
Proof.
  revert base. induction staged as [|[k1 v1] m IH]; intros base Hs; [done|].
  pose proof Hs as [Hlt Hm]. change (overlay val ((k1, v1) :: m) base)
    with (overlay val m (overlay_step val base (k1, v1))).
  rewrite IH by done. rewrite lookup_overlay_step. simpl. destruct (cmp k k1) eqn:E.
  - apply cmp_eq_iff in E as ->. destruct (bt_get k1 m) as [v|] eqn:G; [|by rewrite decide_True].
    exfalso. apply bt_get_In in G; [|done]. rewrite List.Forall_forall in Hlt.
    specialize (Hlt _ G). simpl in Hlt. by apply cmp_lt_irrefl in Hlt.
  - destruct (bt_get k m) as [v|] eqn:G.
    + exfalso. apply bt_get_In in G; [|done]. rewrite List.Forall_forall in Hlt.
      specialize (Hlt _ G). simpl in Hlt. apply (cmp_lt_irrefl k). by eapply cmp_trans.
    + rewrite decide_False; [done|]. intros ->. by apply cmp_lt_irrefl in E.
  - rewrite (decide_False (P := k = k1)); [done|]. intros ->. by rewrite cmp_refl in E.
Qed.

Lemma overlay_insert staged base k v : bt_sorted staged ->
  overlay val (bt_insert k v staged) base = overlay_step val (overlay val staged base) (k, v).
Proof.
  intros Hs. apply map_eq. intros k'. rewrite lookup_overlay by by apply bt_insert_sorted.
  rewrite lookup_overlay_step, lookup_overlay, bt_get_insert by done.
  destruct (decide (cmp k' k = Eq)) as [->%cmp_eq_iff|N]; [by rewrite decide_True|].
  rewrite decide_False; [done|]. intros ->. by rewrite cmp_refl in N.
Qed.
End Overlay.

(** ** What a successful call did *)

Lemma session_insert w db s db' :
  session (<[db := s]> w) db' = if decide (db' = db) then s else session w db'.
Proof.
  unfold session. case_decide as D; [subst; by rewrite lookup_insert_eq|].
  by rewrite lookup_insert_ne.
Qed.

(** Nothing durable changed. *)
Definition calm (w w' : World) : Prop := forall db, durable (session w' db) = durable (session w db).

Lemma calm_refl w : calm w w.
Proof. done. Qed.
Lemma calm_trans w1 w2 w3 : calm w1 w2 -> calm w2 w3 -> calm w1 w3.
Proof. intros H1 H2 db. by rewrite H2. Qed.
#[local] Hint Resolve calm_refl : core.

Lemma host_bind_Answer {A B} (m : Host A) (k : A -> Host B) i w i' w' b :
  host_bind m k i w = (i', w', Answer b) ->
  exists i1 w1 a, m i w = (i1, w1, Answer a) /\ k a i1 w1 = (i', w', Answer b).
Proof. unfold host_bind. destruct (m i w) as [[i1 w1] [a|e|]]; [eauto|done..]. Qed.

Lemma host_lift_Answer {A} (r : result A RuntimeError) i w i' w' a :
  host_lift r i w = (i', w', Answer a) -> r = Ok a /\ i' = i /\ w' = w.
Proof. unfold host_lift, host_ret, host_fail. destruct r; naive_solver. Qed.

Lemma expect_active_Answer i w i' w' a :
  expect_active i w = (i', w', Answer a) -> active i = Some a /\ i' = i /\ w' = w.
Proof. unfold expect_active. destruct (active i); naive_solver. Qed.

(** Takes apart the hypothesis that a sequence of host steps succeeded. *)
Ltac host_inv H :=
  lazymatch type of H with
  | host_bind _ _ _ _ = _ =>
      let i := fresh "i" in let w := fresh "w" in let a := fresh "a" in let E := fresh "E" in
      apply host_bind_Answer in H as (i & w & a & E & H); host_inv E; host_inv H
  | host_lift _ _ _ = _ => let R := fresh "R" in apply host_lift_Answer in H as (R & -> & ->)
  | host_ret _ _ _ = _ => unfold host_ret in H; first [injection H as <- <- <- | injection H as <- <-]
  | host_fail _ _ _ = _ => discriminate H
  | expect_active _ _ = _ =>
      let A := fresh "A" in apply expect_active_Answer in H as (A & -> & ->)
  | modify _ _ _ = _ => unfold modify in H; first [injection H as <- <- <- | injection H as <- <-]
  | invocation _ _ = _ => unfold invocation in H; first [injection H as <- <- <- | injection H as <- <-]
  | (if ?b then _ else _) _ _ = _ => let E := fresh "E" in destruct b eqn:E; host_inv H
  | (let '(_, _) := ?p in _) _ _ = _ => destruct p; host_inv H
  | _ => idtac
  end.

Section Steps.
Context `{Faults} (durable_st : DurableState).

Definition database_of (a : ActiveStore) : string := binding_database (active_binding a).

(** The transaction a call works in: the one under way, or a new one on the
    store as it is. *)
Definition opened_on (i : InvocationState) (w : World) (a : ActiveStore) : Prop :=
  match active i with
  | Some a0 => a = a0
  | None =>
      active_values a = [] /\ active_checkpoints a = [] /\ active_objects a = []
      /\ active_publishes a = [] /\ active_revision a = revision (durable (session w (database_of a)))
  end.

Lemma on_store_read {A} b (m : Sql Tables StateError A) (P : A -> Prop) i w i' w' v :
  wp m (at_rest (fun r t => t = durable (session w (binding_database b))
                         /\ forall a, r = Ok a -> P a)) (session w (binding_database b)) ->
  on_store b m i w = (i', w', Answer v) -> i' = i /\ calm w w' /\ P v.
Proof.
  unfold wp, at_rest, on_store. destruct (m _) as [s [a|e]]; simpl; intros [Hd HP]; [|done].
  intros [= <- <- <-]. split; [done|]. split; [|by apply HP].
  intros db. rewrite session_insert. case_decide as D; [by subst|done].
Qed.

Lemma store_revision_read self s :
  wp (store_revision self) (at_rest (fun r t => t = durable s
    /\ forall v, r = Ok v -> v = revision (durable s))) s.
Proof.
  unfold wp, at_rest, store_revision, sql_bind, lock, autocommit, sql_lift, sql_err, sql_ret, tick.
  destruct (poisoned self); [done|]. destruct (fault (statements s)); [done|]. simpl.
  split; [done|]. intros v Hv%ok_or_Ok. unfold u64_checked in Hv. case_match; naive_solver.
Qed.

Lemma read_at_revision_read {A} self r message (read : Tables -> A) s :
  wp (read_at_revision self r message read) (at_rest (fun res t => t = durable s
    /\ forall v, res = Ok v -> revision (durable s) = r /\ v = read (durable s))) s.
Proof.
  unfold read_at_revision. do 4 wp_step. unfold query_revision. wp_step. wp_step. wp_step. wp_step.
  { wp_step. by split. }
  do 4 wp_step. wp_step. split; [done|]. intros v [= <-].
  apply ok_or_Ok in E. unfold u64_checked in E. bool_facts. z_facts. case_match; naive_solver.
Qed.

Lemma activate_checked_opened b store i w i' w' :
  activate_checked b store i w = (i', w', Answer tt) ->
  exists a, active i' = Some a /\ opened_on i w a /\ calm w w'
    /\ operations i' = operations i.
Proof.
  unfold activate_checked, opened_on. intros E. host_inv E. destruct (active i) as [a0|] eqn:Ea.
  - host_inv E. by exists a0.
  - host_inv E. eapply on_store_read in E0 as (-> & Hc & Hr); [|apply store_revision_read].
    eexists. split; [done|]. by rewrite Hr.
Qed.

Lemma record_operation_opened store i w i' w' u :
  record_operation durable_st store i w = (i', w', Answer u) ->
  exists a, active i' = Some a /\ opened_on i w a /\ calm w w'.
Proof.
  unfold record_operation. intros E. host_inv E.
  destruct u. apply activate_checked_opened in E as (x & Ha & Ho & Hc & _). exists x. done.
Qed.

Lemma stage_Answer a i w i' w' u :
  stage a i w = (i', w', Answer u) -> active i' = Some a /\ w' = w.
Proof.
  unfold stage, validate_staged. intros E. host_inv E. done.
Qed.

(** ** Reads at the transaction's revision *)

Lemma find_object_view t bucket key : objects_ok (objects t) ->
  object_value <$> find_object t bucket key = object_view (objects t) !! (bucket, key).
Proof.
  intros [Hnd _]. destruct (find_object t bucket key) as [r|] eqn:F; simpl.
  - apply find_object_Some in F as [Hr Hid]. symmetry. unfold object_view.
    apply elem_of_list_to_map_1.
    + change (fst <$> ?l) with (map fst l). by rewrite map_map.
    + rewrite <- Hid. apply list_elem_of_In, in_map_iff. by exists r.
  - symmetry. apply object_view_fresh. by apply find_object_None.
Qed.

Lemma get_at_revision_read self key r s :
  wp (get_at_revision self key r) (at_rest (fun res t => t = durable s
    /\ forall v, res = Ok v -> revision (durable s) = r /\ v = kv (durable s) !! key)) s.
Proof. unfold get_at_revision. do 2 wp_step. apply read_at_revision_read. Qed.

Lemma checkpoint_at_revision_read self name r s :
  wp (checkpoint_at_revision self name r) (at_rest (fun res t => t = durable s
    /\ forall v, res = Ok v -> revision (durable s) = r /\ v = checkpoints (durable s) !! name)) s.
Proof. unfold checkpoint_at_revision. do 2 wp_step. apply read_at_revision_read. Qed.

Lemma object_at_revision_read self bucket key r s : objects_ok (objects (durable s)) ->
  wp (object_at_revision self bucket key r) (at_rest (fun res t => t = durable s
    /\ forall v, res = Ok v -> revision (durable s) = r
         /\ v = object_view (objects (durable s)) !! (bucket, key))) s.
Proof.
  intros Ho. unfold object_at_revision. do 4 wp_step. rewrite <- find_object_view by done.
  apply read_at_revision_read.
Qed.

Lemma text_of_Ok message value v : text_of message value = Ok v -> v = value.
Proof. unfold text_of. destruct value; [case_match|]; naive_solver. Qed.

(** ** One call against its specification *)

Definition snapshot_of (t : Tables) : Private := private_of (view t).

Definition staged_sorted (a : ActiveStore) : Prop :=
  bt_sorted (active_values a) /\ bt_sorted (active_checkpoints a) /\ bt_sorted (active_objects a).

(** The transaction works on the snapshot [base]: whenever the store is still
    at the transaction's revision, [base] is what it holds. *)
Definition tracks (base : Private) (a : ActiveStore) (w : World) : Prop :=
  let t := durable (session w (database_of a)) in
  staged_sorted a /\ active_revision a <= revision t
  /\ (revision t = active_revision a -> snapshot_of t = base).

Definition staged_job (p : string * string * string) : string * string * string :=
  let '(queue, id, body) := p in (id, queue, body).

Definition staged_private (base : Private) (a : ActiveStore) : Private :=
  mkPrivate (overlay id (active_values a) (private_kv base))
    (overlay Some (active_checkpoints a) (private_checkpoints base))
    (overlay id (active_objects a) (private_objects base))
    (private_jobs base ++ map staged_job (active_publishes a)).

Definition staged_writes (a : ActiveStore) : bool :=
  match active_values a, active_checkpoints a, active_objects a with
  | [], [], [] => false
  | _, _, _ => true
  end.

Definition same_transaction (a a' : ActiveStore) : Prop :=
  active_binding a' = active_binding a /\ active_revision a' = active_revision a.

(** What a call that answers [answer] did to the transaction [a] it found. *)
Definition performs (c : Call) (a a' : ActiveStore) (w w' : World) (answer : option string) : Prop :=
  same_transaction a a' /\ calm w w' /\ staged_writes a' = staged_writes a || writing c
  /\ forall base, tracks base a w ->
     tracks base a' w' /\ spec_call c (staged_private base a) = (staged_private base a', answer).

Lemma tracks_calm base a w w' : calm w w' -> tracks base a w -> tracks base a w'.
Proof. unfold tracks. intros Hc. by rewrite (Hc (database_of a)). Qed.

(** A call that only looks. *)
Lemma performs_look c a w w' answer :
  calm w w' -> writing c = false ->
  (forall base, tracks base a w -> spec_call c (staged_private base a) = (staged_private base a, answer)) ->
  performs c a a w w' answer.
Proof.
  intros Hc Hw Hs. split; [done|]. split; [done|]. split; [by rewrite Hw, orb_false_r|].
  intros base Hb. split; [by eapply tracks_calm|by apply Hs].
Qed.

Lemma bt_insert_nonempty {K V} `{Cmp K} (k : K) (v : V) m : bt_insert k v m <> [].
Proof. destruct m as [|[k1 v1] m]; simpl; [done|]. by destruct (cmp k k1). Qed.

(** A call that stages something more. *)
Lemma performs_stage c a a' w w' :
  same_transaction a a' -> calm w w' -> staged_writes a' = staged_writes a || writing c ->
  (staged_sorted a -> staged_sorted a'
     /\ forall base, spec_call c (staged_private base a) = (staged_private base a', None)) ->
  performs c a a' w w' None.
Proof.
  intros [Hb Hr] Hc Hw Hs. split; [done|]. split; [done|]. split; [done|].
  intros base (S & Hle & Hbase). destruct (Hs S) as [S' Hspec]. split; [|done].
  apply (tracks_calm _ _ w); [done|]. unfold tracks, database_of. by rewrite Hb, Hr.
Qed.

Lemma performs_value c a w w' key value :
  calm w w' -> writing c = true ->
  (forall kv ck objs jobs, spec_call c (mkPrivate kv ck objs jobs)
     = (mkPrivate (overlay_step id kv (key, value)) ck objs jobs, None)) ->
  performs c a (stage_value a key value) w w' None.
Proof.
  intros Hc Hw Hs. apply performs_stage; [done|done| |].
  - rewrite Hw, orb_true_r. unfold staged_writes. simpl.
    by destruct (bt_insert key value _) eqn:E; [apply bt_insert_nonempty in E|].
  - intros (S1 & S2 & S3). split; [by split; [apply bt_insert_sorted|]|].
    intros base. unfold staged_private. rewrite Hs. simpl. by rewrite overlay_insert.
Qed.

Lemma performs_checkpoint c a w w' name value :
  calm w w' -> writing c = true ->
  (forall kv ck objs jobs, spec_call c (mkPrivate kv ck objs jobs)
     = (mkPrivate kv (overlay_step Some ck (name, value)) objs jobs, None)) ->
  performs c a (stage_checkpoint a name value) w w' None.
Proof.
  intros Hc Hw Hs. apply performs_stage; [done|done| |].
  - rewrite Hw, orb_true_r. unfold staged_writes. simpl. destruct (active_values a); [|done].
    by destruct (bt_insert name value _) eqn:E; [apply bt_insert_nonempty in E|].
  - intros (S1 & S2 & S3). split; [by split; [|split; [apply bt_insert_sorted|]]|].
    intros base. unfold staged_private. rewrite Hs. simpl. by rewrite overlay_insert.
Qed.

Lemma performs_object c a w w' bucket key value :
  calm w w' -> writing c = true ->
  (forall kv ck objs jobs, spec_call c (mkPrivate kv ck objs jobs)
     = (mkPrivate kv ck (overlay_step id objs ((bucket, key), value)) jobs, None)) ->
  performs c a (stage_object a bucket key value) w w' None.
Proof.
  intros Hc Hw Hs. apply performs_stage; [done|done| |].
  - rewrite Hw, orb_true_r. unfold staged_writes. simpl.
    destruct (active_values a), (active_checkpoints a); [|done..].
    by destruct (bt_insert _ value _) eqn:E; [apply bt_insert_nonempty in E|].
  - intros (S1 & S2 & S3). split; [by split; [|split; [|apply bt_insert_sorted]]|].
    intros base. unfold staged_private. rewrite Hs. simpl. by rewrite overlay_insert.
Qed.

Lemma performs_publish a w w' queue body id :
  calm w w' -> performs (CallPublish queue body id) a (stage_publish a queue id body) w w' None.
Proof.
  intros Hc. apply performs_stage; [done|done|by rewrite orb_false_r|]. intros S. split; [done|].
  intros base. unfold staged_private. simpl. by rewrite map_app, app_assoc.
Qed.

(** A read is answered from the staged map or from the snapshot. *)
Lemma performs_read {K V} `{Countable K} `{CmpOk K} (val : V -> option string)
    (staged : ActiveStore -> btree K V) (of_private : Private -> gmap K string)
    (of_store : Tables -> gmap K string) (m : Sql Tables StateError (option string))
    c (k : K) a i w i' w' v :
  (forall base, staged_sorted a -> bt_sorted (staged a)
     /\ of_private (staged_private base a) = overlay val (staged a) (of_private base)) ->
  (forall t, of_private (snapshot_of t) = of_store t) ->
  (forall p, spec_call c p = (p, of_private p !! k)) -> writing c = false ->
  (let s := session w (database_of a) in
   wp m (at_rest (fun res t => t = durable s
     /\ forall v, res = Ok v -> revision (durable s) = active_revision a
          /\ v = of_store (durable s) !! k)) s) ->
  match bt_get k (staged a) with
  | Some x => host_ret (val x)
  | None => on_store (active_binding a) m
  end i w = (i', w', Answer v) ->
  i' = i /\ performs c a a w w' v.
Proof.
  intros Hp Ht Hspec Hw Hm E. destruct (bt_get k (staged a)) as [x|] eqn:G.
  - host_inv E. split; [done|]. apply performs_look; [done|done|]. intros base (S & _).
    destruct (Hp base S) as [Hs Ho]. rewrite Hspec, Ho. by rewrite lookup_overlay, G.
  - pose proof (on_store_read _ _ _ _ _ _ _ _ Hm E) as (-> & Hc & Hr & ->). split; [done|].
    apply performs_look; [done|done|]. intros base (S & _ & Hb). destruct (Hp base S) as [Hs Ho].
    rewrite Hspec, Ho. rewrite lookup_overlay, G by done. by rewrite <- (Hb Hr), Ht.
Qed.

Definition world_ok (cfg : Config) (w : World) : Prop :=
  forall db, inv cfg (durable (session w db)).

Lemma world_ok_calm cfg w w' : calm w w' -> world_ok cfg w -> world_ok cfg w'.
Proof. intros Hc Hw db. by rewrite Hc. Qed.

Lemma performs_before c a a' w w1 w' answer :
  calm w w1 -> performs c a a' w1 w' answer -> performs c a a' w w' answer.
Proof.
  intros Hc (Hs & Hc' & Hw & Hb). split; [done|]. split; [by eapply calm_trans|]. split; [done|].
  intros base Ht. apply Hb. by eapply tracks_calm.
Qed.

(** The transaction a successful [record_operation] leaves open, and the
    conclusion of a case. *)
Ltac settle E A :=
  let x := fresh "x" in let Ha := fresh "Ha" in let Ho := fresh "Ho" in let Hc := fresh "Hc" in
  apply record_operation_opened in E as (x & Ha & Ho & Hc);
  simpl in A; rewrite Ha in A; injection A as <-.
Ltac finish :=
  eexists _, _; split; [eassumption|]; split; [simpl; eassumption|];
  eapply performs_before; [eassumption|]; try eassumption.

(** Every successful call performs its specification on the transaction it
    found or opened. *)
Lemma call_performs cfg c i w i' w' answer :
  world_ok cfg w -> do_call durable_st c i w = (i', w', Answer answer) ->
  exists a a', opened_on i w a /\ active i' = Some a' /\ performs c a a' w w' answer.
Proof.
  intros Hok E. destruct c; cbn [do_call] in E; unfold no_answer in E.
  - unfold bind_store, activate in E. host_inv E.
    destruct a. apply activate_checked_opened in E0 as (a & Ha & Ho & Hc & _).
    exists a, a. split; [done|]. split; [done|]. by apply performs_look.
  - unfold state_get in E. host_inv E. settle E0 A. apply text_of_Ok in R as ->.
    apply (performs_read id active_values private_kv kv _ (CallGet store key)) in E1 as [-> P];
      [|by intros ? [? _]|done|by intros []|done|apply get_at_revision_read]. finish.
  - unfold state_put in E. host_inv E. settle E1 A. apply stage_Answer in E0 as [? ->].
    finish. by apply performs_value.
  - unfold state_delete in E. host_inv E. settle E1 A. apply stage_Answer in E0 as [? ->].
    finish. by apply performs_value.
  - unfold checkpoint_get in E. host_inv E. settle E0 A. apply text_of_Ok in R as ->.
    apply (performs_read Some active_checkpoints private_checkpoints checkpoints _
             (CallCheckpointGet store name)) in E1 as [-> P];
      [|by intros ? (_ & ? & _)|done|by intros []|done|apply checkpoint_at_revision_read]. finish.
  - unfold checkpoint_put in E. host_inv E. settle E1 A. apply stage_Answer in E0 as [? ->].
    finish. by apply performs_checkpoint.
  - unfold object_get in E. host_inv E. settle E0 A. apply text_of_Ok in R0 as ->.
    apply (performs_read id active_objects private_objects (fun t => object_view (objects t)) _
             (CallObjectGet bucket key)) in E1 as [-> P];
      [|by intros ? (_ & _ & ?)|done|by intros []|done|apply object_at_revision_read].
    + finish.
    + rewrite (Hc (database_of x)). destruct (Hok (database_of x)) as [[] _]. done.
  - unfold object_put in E. host_inv E. settle E1 A. apply stage_Answer in E0 as [? ->].
    finish. by apply performs_object.
  - unfold object_delete in E. host_inv E. settle E1 A. apply stage_Answer in E0 as [? ->].
    finish. by apply performs_object.
  - unfold queue_publish in E. host_inv E. settle E1 A. apply stage_Answer in E0 as [? ->].
    finish. by apply performs_publish.
  - unfold replay_binding in E. host_inv E. settle E1 A. finish. by apply performs_look.
Qed.

(** ** A run against its specification *)

Lemma tracks_other cfg base a w database self op :
  world_ok cfg w -> configured cfg op -> tracks base a w ->
  tracks base a (<[database := run_op self op (session w database)]> w).
Proof.
  intros Hok Hop (S & Hle & Hb). split; [done|]. rewrite session_insert.
  case_decide as D; [|done]. subst.
  destruct (run_op_advanced cfg self op (session w (database_of a)) Hop (Hok _)) as [Hr Hs].
  split; [lia|]. intros E. rewrite <- Hb by lia. symmetry.
  assert (snapshot (durable (session w (database_of a)))
          = snapshot (durable (run_op self op (session w (database_of a))))) as E' by (apply Hs; lia).
  unfold snapshot in E'. unfold snapshot_of, private_of, view. simpl. by injection E' as _ -> -> ->.
Qed.

Lemma world_ok_other cfg w database self op :
  world_ok cfg w -> configured cfg op ->
  world_ok cfg (<[database := run_op self op (session w database)]> w).
Proof.
  intros Hok Hop db. rewrite session_insert. case_decide; [|done]. by apply run_op_inv.
Qed.

(** A run that goes on in the transaction [a]. *)
Lemma run_performs cfg events : forall i w i' w' answers a base,
  world_ok cfg w -> Forall (event_configured cfg) events ->
  run_events durable_st events i w = (i', w', Answer answers) ->
  active i = Some a -> tracks base a w ->
  exists a', active i' = Some a' /\ same_transaction a a' /\ tracks base a' w' /\ world_ok cfg w'
    /\ staged_writes a' = staged_writes a || existsb writing (guest_calls events)
    /\ spec_run (guest_calls events) (staged_private base a) = (staged_private base a', answers).
Proof.
  induction events as [|e events IH]; intros i w i' w' answers a base Hok Hev E Ha Ht;
    cbn [run_events] in E; [|apply Forall_cons in Hev as [He Hev]; destruct e as [c|db self op]].
  - host_inv E. exists a. by rewrite orb_false_r.
  - host_inv E. pose proof (call_performs cfg c i w i0 w0 a0 Hok E0) as (x & x1 & Ho & Hx1 & P).
    unfold opened_on in Ho. rewrite Ha in Ho. subst x. destruct P as (Hs & Hc & Hw & Hb).
    destruct (Hb base Ht) as [Ht1 Hspec].
    destruct (IH _ _ _ _ _ x1 base (world_ok_calm _ _ _ Hc Hok) Hev E1 Hx1 Ht1)
      as (a' & Ha' & Hs' & Ht' & Hok' & Hw' & Hrun).
    exists a'. split; [done|]. split; [destruct Hs, Hs'; split; congruence|]. split; [done|].
    split; [done|]. change (guest_calls (Guest c :: events)) with (c :: guest_calls events).
    cbn [existsb spec_run]. split; [by rewrite Hw', Hw, orb_assoc|]. by rewrite Hspec, Hrun.
  - apply (IH i _ i' w' answers a base) in E; [done|by apply world_ok_other|done|done|].
    by eapply tracks_other.
Qed.

(** A run from a new invocation works on one snapshot from its first call. *)
Lemma run_snapshot cfg events : forall w i' w' answers a',
  world_ok cfg w -> Forall (event_configured cfg) events ->
  run_events durable_st events new_invocation w = (i', w', Answer answers) -> active i' = Some a' ->
  exists base, private_jobs base = [] /\ tracks base a' w' /\ world_ok cfg w'
    /\ staged_writes a' = existsb writing (guest_calls events)
    /\ spec_run (guest_calls events) base = (staged_private base a', answers).
Proof.
  induction events as [|e events IH]; intros w i' w' answers a' Hok Hev E Ha;
    cbn [run_events] in E; [|apply Forall_cons in Hev as [He Hev]; destruct e as [c|db self op]].
  - host_inv E. done.
  - host_inv E. pose proof (call_performs cfg c new_invocation w i w0 a Hok E0) as (x & x1 & Ho & Hx1 & P).
    destruct Ho as (V & C & O & J & Hr). destruct P as (Hs & Hc & Hw & Hb).
    set (base := snapshot_of (durable (session w (database_of x)))).
    assert (staged_private base x = base) as Hbase by (unfold staged_private; by rewrite V, C, O, J).
    assert (tracks base x w) as Ht.
    { unfold tracks, staged_sorted. rewrite V, C, O, Hr. by repeat split. }
    destruct (Hb base Ht) as [Ht1 Hspec].
    destruct (run_performs cfg events _ _ _ _ _ x1 base (world_ok_calm _ _ _ Hc Hok) Hev E1 Hx1 Ht1)
      as (a2 & Ha2 & Hs' & Ht' & Hok' & Hw' & Hrun).
    assert (a2 = a') as -> by congruence. exists base. split; [done|]. split; [done|]. split; [done|].
    change (guest_calls (Guest c :: events)) with (c :: guest_calls events). cbn [existsb spec_run].
    split; [rewrite Hw', Hw; unfold staged_writes; by rewrite V, C, O|].
    rewrite Hbase in Hspec. by rewrite Hspec, Hrun.
  - by apply (IH _ i' w' answers a') in E; [|apply world_ok_other|..].
Qed.

(** ** The commit *)

Lemma view_staged_values l : forall rev kv ck objs jobs fires rest,
  foldl view_mutate (mkView rev kv ck objs jobs fires rest)
    (map (fun '(key, value) => match value with Some v => Put key v | None => Delete key end) l)
  = mkView rev (overlay id l kv) ck objs jobs fires rest.
Proof. induction l as [|[k [v|]] l IH]; intros; [done|cbn; apply IH..]. Qed.

Lemma view_staged_checkpoints l : forall rev kv ck objs jobs fires rest,
  foldl view_mutate (mkView rev kv ck objs jobs fires rest)
    (map (fun '(name, value) => CheckpointPut name value) l)
  = mkView rev kv (overlay Some l ck) objs jobs fires rest.
Proof. induction l as [|[k v] l IH]; intros; [done|cbn; apply IH]. Qed.

Lemma view_staged_objects l : forall rev kv ck objs jobs fires rest,
  foldl view_mutate (mkView rev kv ck objs jobs fires rest)
    (map (fun '((bucket, key), value) =>
       match value with Some v => ObjectPut bucket key v | None => ObjectDelete bucket key end) l)
  = mkView rev kv ck (overlay id l objs) jobs fires rest.
Proof. induction l as [|[[b k] [v|]] l IH]; intros; [done|cbn; apply IH..]. Qed.

Lemma view_staged_publishes l : forall rev kv ck objs jobs fires rest,
  foldl view_mutate (mkView rev kv ck objs jobs fires rest)
    (map (fun '(queue, id, body) => QueuePublish queue id body) l)
  = mkView rev kv ck objs (jobs ++ map staged_job l) fires rest.
Proof.
  induction l as [|[[q d] b] l IH]; intros; cbn; [by rewrite app_nil_r|].
  rewrite IH. by rewrite <- app_assoc.
Qed.

Lemma view_staged a v :
  foldl view_mutate v (staged_mutations a)
  = mkView (view_revision v) (overlay id (active_values a) (view_kv v))
      (overlay Some (active_checkpoints a) (view_checkpoints v))
      (overlay id (active_objects a) (view_objects v))
      (view_jobs v ++ map staged_job (active_publishes a)) (view_fires v) (view_rest v).
Proof.
  destruct v. unfold staged_mutations. rewrite !foldl_app.
  by rewrite view_staged_values, view_staged_checkpoints, view_staged_objects, view_staged_publishes.
Qed.

Lemma staged_sensitive a completion now :
  revision_sensitive (staged_plan durable_st a completion now) = staged_writes a.
Proof.
  unfold revision_sensitive, staged_plan, staged_mutations, staged_writes. simpl.
  destruct (active_values a) as [|[k [v|]] l]; [|done..].
  destruct (active_checkpoints a) as [|[k v] l]; [|done].
  destruct (active_objects a) as [|[[b k] [v|]] l]; [|done..]. simpl.
  induction (active_publishes a) as [|[[q d] b] l IH]; [done|exact IH].
Qed.

(** What readers see after a successful commit of the transaction. *)
Definition committed (a : ActiveStore) (completion : option Completion) (now : Z) (v : View) : View :=
  view_complete completion now
    (if staged_writes a then view_install (staged_private (private_of v) a) v
     else view_publish (staged_private (private_of v) a) v).

Lemma view_complete_revised completion now rev v :
  view_complete completion now
    (mkView rev (view_kv v) (view_checkpoints v) (view_objects v) (view_jobs v) (view_fires v) (view_rest v))
  = let v' := view_complete completion now v in
    mkView rev (view_kv v') (view_checkpoints v') (view_objects v') (view_jobs v') (view_fires v') (view_rest v').
Proof. by destruct v, completion as [[]|]. Qed.

Lemma view_commit_staged a completion now v :
  view_commit (staged_plan durable_st a completion now) v = committed a completion now v.
Proof.
  pose proof (staged_sensitive a completion now) as Hs.
  unfold view_commit, committed. rewrite Hs. change (mutations (staged_plan _ a _ _)) with (staged_mutations a).
  cbn [Store.completion Store.now_millis staged_plan]. rewrite view_staged.
  destruct v as [rev kv ck objs jobs fires rest]. cbn.
  unfold view_install, view_publish, staged_private, private_of. cbn.
  destruct (staged_writes a) eqn:W; [by destruct completion as [[]|]|].
  unfold staged_writes in W. destruct (active_values a), (active_checkpoints a), (active_objects a);
    [|done..]. by destruct completion as [[]|].
Qed.

Definition commit_effect (a : ActiveStore) (completion : option Completion) (now : Z) (w w' : World)
  : Prop :=
  let t := durable (session w (database_of a)) in
  view (durable (session w' (database_of a))) = committed a completion now (view t)
  /\ (staged_writes a = true -> revision t = active_revision a)
  /\ (forall db, db <> database_of a -> session w' db = session w db).

Lemma on_store_commits cfg i w i' w' a completion now rev :
  world_ok cfg w -> config_queues cfg = queue_policies durable_st ->
  config_buckets cfg = bucket_policies durable_st ->
  on_store (active_binding a)
    (commit_plan (binding_store (active_binding a)) (staged_plan durable_st a completion now))
    i w = (i', w', Answer rev) -> commit_effect a completion now w w'.
Proof.
  intros Hok Hq Hb. unfold on_store. fold (database_of a).
  pose proof (wp_commit_plan cfg (binding_store (active_binding a))
    (staged_plan durable_st a completion now) (session w (database_of a)) (conj (eq_sym Hq) (eq_sym Hb)) (Hok _)) as W.
  unfold wp, at_rest, commit_post in W. destruct (commit_plan _ _ _) as [s [r|e]]; simpl in W; [|done].
  rewrite view_commit_staged, staged_sensitive in W. destruct W as (Hv & _ & Hs & _).
  intros [= <- <- <-]. split; [by rewrite session_insert, decide_True|]. split; [exact Hs|].
  intros db D. by rewrite session_insert, decide_False.
Qed.

Lemma nothing_staged a : staged_mutations a = [] ->
  active_values a = [] /\ active_checkpoints a = [] /\ active_objects a = [] /\ active_publishes a = [].
Proof.
  unfold staged_mutations. intros (V & (C & (O & P)%app_eq_nil)%app_eq_nil)%app_eq_nil.
  by apply map_eq_nil in V, C, O, P.
Qed.

Lemma commit_outcome_commits cfg i w i' w' a completion now :
  world_ok cfg w -> config_queues cfg = queue_policies durable_st ->
  config_buckets cfg = bucket_policies durable_st -> active i = Some a ->
  commit_outcome durable_st completion now i w = (i', w', Answer tt) ->
  commit_effect a completion now w w'.
Proof.
  intros Hok Hq Hb Ha E. unfold commit_outcome in E. host_inv E. rewrite Ha in E.
  host_inv E; [by eapply on_store_commits| |by eapply on_store_commits].
  apply nothing_staged in E0 as (V & C & O & J). unfold commit_effect, committed, staged_writes.
  rewrite V, C, O. split; [|done]. unfold view_publish, staged_private, private_of, view. simpl.
  by rewrite J, app_nil_r.
Qed.
End Steps.

(** ** A small host *)

Definition sample_binding : StoreBinding := mkStoreBinding sample_store sample_retention "main.db".
Definition sample_durable : DurableState :=
  mkDurableState [("main", sample_binding)] None [("work", mkResourceBinding "main" sample_queue)] []
    [("files", mkResourceBinding "main" sample_bucket)].
Definition sample_world : World := {["main.db" := published]}.

(** The guest reads, writes and reads back, and publishes a job, while a
    worker reserves another job and a second database is written. *)
Definition sample_events : list Event :=
  [Guest (CallBind "main"); Guest (CallGet "main" "greeting");
   Other "main.db" sample_store (OpReserveJob "work" sample_queue owner1 2000);
   Guest (CallPut "main" "greeting" "bye"); Guest (CallGet "main" "greeting");
   Other "other.db" sample_store (OpCommit sample_plan);
   Guest (CallPublish "work" "third" "another-job-id-3")].
Definition sample_answers : list (option string) := [None; Some "hello"; None; Some "bye"; None].
Definition sample_run : InvocationState * World * Outcome (list (option string)) :=
  @run_events no_faults sample_durable sample_events new_invocation sample_world.
Definition sample_active : ActiveStore :=
  mkActiveStore "main" sample_binding 1 [("greeting", Some "bye")] [] []
    [("work", "another-job-id-3", "third")].

Lemma sample_run_answers : sample_run = (sample_run.1.1, sample_run.1.2, Answer sample_answers).
Proof. vm_compute. reflexivity. Qed.

Lemma sample_world_ok : world_ok sample_cfg sample_world.
Proof.
  intros db. unfold sample_world, session. destruct (decide (db = "main.db")) as [->|D].
  - rewrite lookup_singleton_eq. apply sample_inv_published.
  - rewrite lookup_singleton_ne by done. apply sample_inv_fresh.
Qed.

(** ** Claims *)

(** C6: An invocation is atomic.  Take any interleaving of an invocation's
    calls with operations of the rest of the host on any database, whatever
    statements fail, in which the invocation's calls and its commit succeed.
    There is one snapshot of its store such that every answer the invocation
    got is the answer of a run alone on private copies of it.  When it wrote
    state, that snapshot is what the store held at the commit, and afterwards
    the store holds exactly the private copies; otherwise keys, checkpoints
    and objects are as before.  Its published jobs are appended in order, the
    delivery is acknowledged, and no other database is touched. *)
Theorem invocation_atomic `{Faults} cfg durable_st events completion now w i w1 answers a i' w2 :
  world_ok cfg w -> Forall (event_configured cfg) events ->
  config_queues cfg = queue_policies durable_st -> config_buckets cfg = bucket_policies durable_st ->
  run_events durable_st events new_invocation w = (i, w1, Answer answers) ->
  active i = Some a ->
  commit_outcome durable_st completion now i w1 = (i', w2, Answer tt) ->
  let before := view (durable (session w1 (database_of a))) in
  let after := view (durable (session w2 (database_of a))) in
  exists base final,
    spec_run (guest_calls events) base = (final, answers)
    /\ (if existsb writing (guest_calls events)
        then base = private_of before /\ after = view_complete completion now (view_install final before)
        else after = view_complete completion now (view_publish final before))
    /\ forall db, db <> database_of a -> session w2 db = session w1 db.
Proof.
  intros Hok Hev Hq Hb E Ha C. cbv zeta.
  destruct (run_snapshot durable_st cfg events w i w1 answers a Hok Hev E Ha)
    as (base & Hj & (_ & _ & Hbase) & Hok1 & Hw & Hrun).
  destruct (commit_outcome_commits durable_st cfg i w1 i' w2 a completion now Hok1 Hq Hb Ha C)
    as (Hv & Hr & Hf).
  exists base, (staged_private base a). split; [done|]. split; [|done].
  rewrite <- Hw. unfold committed in Hv. destruct (staged_writes a) eqn:W.
  - specialize (Hbase (Hr eq_refl)). unfold snapshot_of in Hbase. by rewrite <- Hbase.
  - rewrite Hv. f_equal. unfold view_publish, staged_private. simpl. by rewrite Hj.
Qed.

Lemma invocation_atomic_witness :
  let commit := @commit_outcome no_faults sample_durable None 3000 sample_run.1.1 sample_run.1.2 in
  kv (durable (session commit.1.2 "main.db")) = {["greeting" := "bye"]}
  /\ exists base final, spec_run (guest_calls sample_events) base = (final, sample_answers)
     /\ private_kv base = {["greeting" := "hello"]}.
Proof.
  cbv zeta. split; [vm_compute; reflexivity|].
  destruct (@invocation_atomic no_faults sample_cfg sample_durable sample_events None 3000 sample_world
    sample_run.1.1 sample_run.1.2 sample_answers sample_active
    (@commit_outcome no_faults sample_durable None 3000 sample_run.1.1 sample_run.1.2).1.1
    (@commit_outcome no_faults sample_durable None 3000 sample_run.1.1 sample_run.1.2).1.2
    sample_world_ok) as (base & final & Hrun & [Hb _] & _).
  - repeat constructor.
  - reflexivity.
  - reflexivity.
  - exact sample_run_answers.
  - vm_compute. reflexivity.
  - vm_compute. reflexivity.
  - exists base, final. split; [exact Hrun|]. rewrite Hb. vm_compute. reflexivity.
Defined.
