(* ===== verification/InvocationBounds.v ===== *)
(** * What an invocation may stage

    No call of an invocation panics or changes anything durable, and what a
    run of successful calls staged stays within the limits of its store, so
    that the store's own validation accepts the staged keys and checkpoints. *)

From S2P Require Import Prelude Utf8 BTree Sql Store Jobs Replay StoreFacts CommitFacts.
From S2P Require Import JobsFacts ScheduleFacts ReplayFacts History RuntimeErrors Invocation InvocationFacts.

(** ** A judgement on host computations

    From a state that satisfies [P], [m] leaves everything durable as it is
    and does not panic, and when it answers, the answer and the state satisfy
    [Q]. *)
Definition triple {A} (P : InvocationState -> Prop) (m : Host A)
    (Q : A -> InvocationState -> Prop) : Prop :=
  forall i w, P i ->
    let '(i', w', o) := m i w in
    calm w w' /\ match o with Answer a => Q a i' | Fail _ => True | Panic => False end.

Lemma triple_bind {A B} P (m : Host A) R (k : A -> Host B) Q :
  triple P m R -> (forall a, triple (R a) (k a) Q) -> triple P (host_bind m k) Q.
Proof.
  intros Hm Hk i w Hi. specialize (Hm i w Hi). unfold host_bind.
  destruct (m i w) as [[i1 w1] [a|e|]]; destruct Hm as [Hc Hr]; [|done|done].
  specialize (Hk a i1 w1 Hr). destruct (k a i1 w1) as [[i2 w2] o]. destruct Hk as [Hc' Ho].
  split; [by eapply calm_trans|done].
Qed.

Lemma triple_ret {A} P (a : A) (Q : A -> InvocationState -> Prop) :
  (forall i, P i -> Q a i) -> triple P (host_ret a) Q.
Proof. intros HQ i w Hi. simpl. auto using calm_refl. Qed.

Lemma triple_fail {A} P e (Q : A -> InvocationState -> Prop) : triple P (host_fail e) Q.
Proof. intros i w _. simpl. auto using calm_refl. Qed.

Lemma triple_lift {A} P (r : result A RuntimeError) (Q : A -> InvocationState -> Prop) :
  (forall a i, r = Ok a -> P i -> Q a i) -> triple P (host_lift r) Q.
Proof.
  intros HQ. destruct r as [a|e]; [|apply triple_fail]. apply triple_ret. intros i. by apply HQ.
Qed.

Lemma triple_modify P f (Q : unit -> InvocationState -> Prop) :
  (forall i, P i -> Q tt (f i)) -> triple P (modify f) Q.
Proof. intros HQ i w Hi. simpl. auto using calm_refl. Qed.

Lemma triple_invocation P (Q : InvocationState -> InvocationState -> Prop) :
  (forall i, P i -> Q i i) -> triple P invocation Q.
Proof. intros HQ i w Hi. simpl. auto using calm_refl. Qed.

Lemma triple_expect P (Q : ActiveStore -> InvocationState -> Prop) :
  (forall i, P i -> exists a, active i = Some a /\ Q a i) -> triple P expect_active Q.
Proof.
  intros HQ i w Hi. unfold expect_active. destruct (HQ i Hi) as (a & -> & ?). auto using calm_refl.
Qed.

Lemma triple_weaken {A} P P' (m : Host A) (Q Q' : A -> InvocationState -> Prop) :
  triple P' m Q' -> (forall i, P i -> P' i) -> (forall a i, Q' a i -> Q a i) -> triple P m Q.
Proof.
  intros Hm HP HQ i w Hi. specialize (Hm i w (HP i Hi)). destruct (m i w) as [[i' w'] [a|e|]]; naive_solver.
Qed.

Lemma triple_on_store {A} P b (m : Sql Tables StateError A) (Q : A -> InvocationState -> Prop) :
  (forall s, durable (m s).1 = durable s) -> (forall a i, P i -> Q a i) -> triple P (on_store b m) Q.
Proof.
  intros Hm HQ i w Hi. unfold on_store. specialize (Hm (session w (binding_database b))).
  destruct (m _) as [s r]. simpl in Hm. split; [|destruct r; auto].
  intros db. rewrite session_insert. case_decide as D; [by subst|done].
Qed.

Lemma reads_durable {A} `{Faults} (m : Sql Tables StateError A) (Q : A -> Tables -> Prop) s :
  wp m (at_rest (fun r t => t = durable s /\ forall v, r = Ok v -> Q v (durable s))) s ->
  durable (m s).1 = durable s.
Proof. by intros [? _]. Qed.

(** ** What may be staged *)

Section Bounds.
Context `{Faults} (durable_st : DurableState).

Definition store_limits (a : ActiveStore) : StoreLimits := limits (binding_store (active_binding a)).

Definition key_allowed (l : StoreLimits) (key : string) (value : option string) : Prop :=
  validate_key key l = Ok tt
  /\ match value with Some v => validate_value v l = Ok tt | None => True end.

Definition staged_count (a : ActiveStore) : Z :=
  Z.of_nat (length (active_values a) + length (active_checkpoints a) + length (active_objects a)
            + length (active_publishes a)).

Definition staged_total (a : ActiveStore) : Z := foldr Z.add 0 (staged_sizes a).

(** The transaction is bound to the store it names, and every staged key and
    checkpoint is allowed there. *)
Record entries_ok (a : ActiveStore) : Prop := mk_entries_ok {
  entries_binding : bt_get (active_name a) (stores durable_st) = Some (active_binding a);
  entries_values :
    Forall (fun kv => key_allowed (store_limits a) kv.1 kv.2) (active_values a);
  entries_checkpoints :
    Forall (fun kv => key_allowed (store_limits a) kv.1 (Some kv.2)) (active_checkpoints a);
}.

(** An open transaction within its limits, with [spare] operations counted
    beyond what is staged. *)
Definition ready (spare : Z) (i : InvocationState) : Prop :=
  exists a, active i = Some a /\ entries_ok a
    /\ staged_total a <= max_transaction_bytes (store_limits a)
    /\ staged_count a + spare <= operations i <= max_operations (store_limits a).

Definition within_limits (i : InvocationState) : Prop :=
  match active i with None => operations i = 0 | Some _ => ready 0 i end.

Hypothesis limits_valid : forall name b, bt_get name (stores durable_st) = Some b ->
  limits_validate (limits (binding_store b)) = Ok tt.

Lemma limits_positive name b : bt_get name (stores durable_st) = Some b ->
  0 < max_operations (limits (binding_store b)) /\ 0 < max_transaction_bytes (limits (binding_store b)).
Proof.
  intros Hb%limits_valid. unfold limits_validate, contains_range in Hb.
  destruct (_ || _) eqn:E in Hb; [done|]. bool_facts. z_facts. lia.
Qed.

Lemma ready_within i : ready 0 i -> within_limits i.
Proof. intros R. pose proof R as (a & Ha & _). unfold within_limits. by rewrite Ha. Qed.

Lemma ready_less n m i : m <= n -> ready n i -> ready m i.
Proof. intros Hm (a & Ha & He & Ht & Hc). exists a. split_and!; [done..|lia|lia]. Qed.

Lemma ready_bump n c i : ready n i -> ready n (bump c i).
Proof. done. Qed.

Lemma ready_operations n store b i :
  within_limits i -> bt_get store (stores durable_st) = Some b ->
  operations i + n <= max_operations (limits (binding_store b)) ->
  0 <= n -> match active i with Some a => active_name a = store | None => True end ->
  match active i with
  | Some _ => ready n (set_operations i (operations i + n))
  | None => operations i = 0
  end.
Proof.
  intros W Hb Hn Hpos Hs. unfold within_limits in W. destruct (active i) as [x|] eqn:Ea; [|done].
  destruct W as (a & Ha & He & Ht & Hc). rewrite Ea in Ha. injection Ha as ->.
  exists a. simpl. split; [done|]. split; [done|]. split; [done|].
  pose proof (entries_binding _ He) as Hb'. rewrite Hs, Hb in Hb'. injection Hb' as ->.
  unfold store_limits in *. lia.
Qed.

(** The transaction an activation leaves open. *)
Lemma triple_activate n store b :
  bt_get store (stores durable_st) = Some b ->
  triple (fun i => match active i with
                   | Some a => active_name a = store -> ready n i
                   | None => n <= operations i <= max_operations (limits (binding_store b))
                   end)
    (activate_checked b store) (fun _ => ready n).
Proof.
  intros Hb. unfold activate_checked. eapply triple_bind.
  { apply triple_invocation with (Q := fun i0 i => i0 = i /\ match active i with
      | Some a => active_name a = store -> ready n i
      | None => n <= operations i <= max_operations (limits (binding_store b)) end). by intros i. }
  intros i0. destruct (active i0) as [a|] eqn:Ea.
  - destruct (negb _) eqn:N; [apply triple_fail|]. bool_facts. apply triple_ret.
    intros i [<- Hi]. rewrite Ea in Hi. auto.
  - eapply triple_bind; [apply triple_on_store with (Q := fun r i => active i = None
        /\ n <= operations i <= max_operations (limits (binding_store b)))|].
    + intros s. apply (reads_durable _ (fun v t => v = revision t)). apply store_revision_read.
    + intros r i [<- Hi]. by rewrite Ea in Hi.
    + intros r. apply triple_modify. intros i [_ Hi]. eexists. split; [done|]. split; [by constructor|].
      pose proof (limits_positive _ _ Hb). unfold store_limits, staged_total, staged_count. simpl. lia.
Qed.

Lemma triple_bind_store store : triple within_limits (bind_store durable_st store) (fun _ => ready 0).
Proof.
  unfold bind_store, activate. eapply triple_bind.
  { apply triple_lift with (Q := fun b i => bt_get store (stores durable_st) = Some b /\ within_limits i).
    intros b i Hb%ok_or_Ok Hi. done. }
  intros b i w [Hb Hi]. apply (triple_activate 0 store b Hb). unfold within_limits in Hi.
  destruct (active i); [done|]. pose proof (limits_positive _ _ Hb). lia.
Qed.

Lemma triple_record store : triple within_limits (record_operation durable_st store) (fun _ => ready 1).
Proof.
  unfold record_operation. eapply triple_bind.
  { apply triple_lift with (Q := fun b i => bt_get store (stores durable_st) = Some b /\ within_limits i).
    intros b i Hb%ok_or_Ok Hi. done. }
  intros b i w [Hb Hi]. unfold host_bind at 1. simpl. unfold host_bind at 1.
  destruct (u64_checked (operations i + 1)) as [next|] eqn:N; simpl; [|by split].
  assert (next = operations i + 1) as -> by (unfold u64_checked in N; case_match; naive_solver).
  destruct (_ <? _) eqn:L; [by split|]. z_facts. unfold host_bind at 1. simpl.
  apply (triple_activate 1 store b Hb). simpl.
  pose proof (ready_operations 1 store b i Hi Hb) as R. unfold within_limits in Hi.
  destruct (active i) as [a|] eqn:Ea; [|lia]. intros Hs. apply R; [lia|lia|done].
Qed.

Lemma checked_sum_from sizes : forall total sum,
  foldl (fun total n => match total with Some total => usize_checked (total + n) | None => None end)
    (Some total) sizes = Some sum -> sum = total + foldr Z.add 0 sizes.
Proof.
  induction sizes as [|n sizes IH]; intros total sum; simpl; [intros [= <-]; lia|].
  destruct (usize_checked (total + n)) as [next|] eqn:E.
  - apply usize_checked_Some in E as [-> _]. intros ->%IH. lia.
  - intros F. exfalso. clear IH E. induction sizes; [done|exact (IHsizes F)].
Qed.

Lemma triple_stage a :
  triple (fun i => entries_ok a /\ staged_count a <= operations i <= max_operations (store_limits a))
    (stage a) (fun _ => ready 0).
Proof.
  intros i w [He Hc]. unfold stage, validate_staged, host_bind, modify, expect_active. simpl.
  destruct (checked_sum (staged_sizes a)) as [total|] eqn:S; simpl; [|by split].
  apply checked_sum_from in S. destruct (_ <? _) eqn:L; [by split|]. z_facts.
  split; [done|]. exists a. simpl. unfold staged_total, store_limits in *. split_and!; [done|done|lia..].
Qed.

Lemma length_bt_insert {K V} `{Cmp K} (k : K) (v : V) m : (length (bt_insert k v m) <= S (length m))%nat.
Proof. induction m as [|[k1 v1] m IH]; simpl; [lia|]. destruct (cmp k k1); simpl; lia. Qed.

Lemma Forall_bt_insert {K V} `{CmpOk K} (P : K * V -> Prop) k v m :
  P (k, v) -> Forall P m -> Forall P (bt_insert k v m).
Proof.
  rewrite !List.Forall_forall. intros Hk Hm kv Hin.
  apply bt_insert_In in Hin as [->|Hin]; auto.
Qed.

Lemma key_value_allowed b key value u :
  validate_key_value b key value = Ok u -> key_allowed (limits (binding_store b)) key value.
Proof.
  unfold validate_key_value, key_allowed, validate_key, validate_value.
  destruct (_ || _); [done|]. destruct value; [|done]. by destruct (_ <? _).
Qed.

Lemma triple_expect_ready :
  triple (ready 1) expect_active (fun a i => active i = Some a /\ ready 1 i).
Proof. apply triple_expect. intros i R. pose proof R as (a & Ha & _). by exists a. Qed.

(** Counting an operation and looking at the transaction it may work in. *)
Lemma triple_prologue {B} store c (k : ActiveStore -> Host B) Q :
  (forall a, triple (fun i => active i = Some a /\ ready 1 i) (k a) Q) ->
  triple within_limits (let+ _ := record_operation durable_st store in
                        let+ _ := modify (bump c) in let+ a := expect_active in k a) Q.
Proof.
  intros Hk. eapply triple_bind; [apply triple_record|]. intros u. eapply triple_bind.
  { apply triple_modify with (Q := fun _ => ready 1). by intros i. }
  intros u'. eapply triple_bind; [apply triple_expect_ready|exact Hk].
Qed.

(** Staging one more entry. *)
Lemma triple_stage_more {A} (check : result A RuntimeError) a a' :
  active_name a' = active_name a -> active_binding a' = active_binding a ->
  (forall x, check = Ok x -> entries_ok a -> entries_ok a') ->
  staged_count a' <= staged_count a + 1 ->
  triple (fun i => active i = Some a /\ ready 1 i) (let+ _ := host_lift check in stage a') (fun _ => ready 0).
Proof.
  intros Hn Hb He Hc. eapply triple_bind.
  { apply triple_lift with (Q := fun x i => check = Ok x /\ active i = Some a /\ ready 1 i).
    intros x i ?. done. }
  intros x. eapply triple_weaken; [apply triple_stage| |by auto].
  intros i (Hx & Ha & a0 & Ha0 & He0 & Ht & Ho). rewrite Ha in Ha0. injection Ha0 as <-.
  split; [by eapply He|]. unfold store_limits in *. rewrite Hb. lia.
Qed.

Lemma triple_stage_one a a' :
  active_name a' = active_name a -> active_binding a' = active_binding a ->
  (entries_ok a -> entries_ok a') -> staged_count a' <= staged_count a + 1 ->
  triple (fun i => active i = Some a /\ ready 1 i) (stage a') (fun _ => ready 0).
Proof.
  intros Hn Hb He Hc i w Hi. by apply (triple_stage_more (Ok tt) a a' Hn Hb (fun _ _ => He) Hc i w Hi).
Qed.

Lemma triple_look {A} a (m : Host A) (r : A -> result (option string) RuntimeError) :
  triple (fun i => active i = Some a /\ ready 1 i) m (fun _ => ready 1) ->
  triple (fun i => active i = Some a /\ ready 1 i) (let+ v := m in host_lift (r v)) (fun _ => ready 0).
Proof.
  intros Hm. eapply triple_bind; [exact Hm|]. intros v. apply triple_lift.
  intros x i _. by apply ready_less.
Qed.

Lemma triple_read {A V} a (staged : option V) (val : V -> A) (m : Sql Tables StateError A) :
  (forall s, durable (m s).1 = durable s) ->
  triple (fun i => active i = Some a /\ ready 1 i)
    (match staged with Some x => host_ret (val x) | None => on_store (active_binding a) m end)
    (fun _ => ready 1).
Proof.
  intros Hm. destruct staged; [apply triple_ret; by intros i []|].
  apply triple_on_store; [done|]. by intros x i [].
Qed.

Lemma get_at_revision_durable self key r s : durable (get_at_revision self key r s).1 = durable s.
Proof.
  apply (reads_durable _ (fun v t => revision t = r /\ v = kv t !! key)). apply get_at_revision_read.
Qed.

Lemma checkpoint_at_revision_durable self name r s :
  durable (checkpoint_at_revision self name r s).1 = durable s.
Proof.
  apply (reads_durable _ (fun v t => revision t = r /\ v = checkpoints t !! name)).
  apply checkpoint_at_revision_read.
Qed.

Lemma object_at_revision_durable self bucket key r s :
  durable (object_at_revision self bucket key r s).1 = durable s.
Proof.
  apply (reads_durable _ (fun v t => revision t = r /\ v = object_value <$> find_object t bucket key)).
  unfold object_at_revision. do 4 wp_step. apply read_at_revision_read.
Qed.

Lemma triple_value store key value :
  triple within_limits
    (let+ _ := record_operation durable_st store in
     let+ _ := modify (bump Writes) in
     let+ a := expect_active in
     let+ _ := host_lift (validate_key_value (active_binding a) key value) in
     stage (stage_value a key value)) (fun _ => ready 0).
Proof.
  apply triple_prologue. intros a. apply triple_stage_more; [done|done| |].
  - intros x Hx%key_value_allowed [Hb Hv Hc]. constructor; [done| |done]. by apply Forall_bt_insert.
  - unfold staged_count. simpl. pose proof (length_bt_insert key value (active_values a)). lia.
Qed.

Lemma triple_object bucket key value :
  triple within_limits
    (let+ (store, policy) := host_lift (bucket_binding durable_st bucket) in
     let+ _ := record_operation durable_st store in
     let+ _ := modify (bump ObjectWrites) in
     let+ _ := host_lift (validate_object_key_value policy key value) in
     let+ a := expect_active in
     stage (stage_object a bucket key value)) (fun _ => ready 0).
Proof.
  eapply triple_bind; [apply triple_lift with (Q := fun _ => within_limits); by intros x i _|].
  intros [store policy]. eapply triple_bind; [apply triple_record|]. intros u.
  eapply triple_bind; [apply triple_modify with (Q := fun _ => ready 1); by intros i|]. intros u'.
  eapply triple_bind; [apply triple_lift with (Q := fun _ => ready 1); by intros x i _|]. intros u''.
  eapply triple_bind; [apply triple_expect_ready|].
  intros a. apply triple_stage_one; [done|done|by intros []|].
  unfold staged_count. simpl. pose proof (length_bt_insert (bucket, key) value (active_objects a)). lia.
Qed.

Lemma triple_no_answer m : triple within_limits m (fun _ => ready 0) ->
  triple within_limits (no_answer m) (fun _ => ready 0).
Proof. intros Hm. eapply triple_bind; [exact Hm|]. intros u. by apply triple_ret. Qed.

Lemma triple_call c : triple within_limits (do_call durable_st c) (fun _ => ready 0).
Proof.
  destruct c; cbn [do_call]; try apply triple_no_answer; try apply triple_value; try apply triple_object.
  - apply triple_bind_store.
  - apply triple_prologue. intros a. apply triple_look, (triple_read a _ id), get_at_revision_durable.
  - apply triple_prologue. intros a. apply triple_look, (triple_read a _ Some), checkpoint_at_revision_durable.
  - apply triple_prologue. intros a. apply triple_stage_more; [done|done| |].
    + intros x Hx%key_value_allowed [Hb Hv Hc]. constructor; [done|done|]. by apply Forall_bt_insert.
    + unfold staged_count. simpl. pose proof (length_bt_insert name value (active_checkpoints a)). lia.
  - eapply triple_bind; [apply triple_lift with (Q := fun _ => within_limits); by intros x i _|].
    intros [store policy]. apply triple_prologue. intros a.
    apply triple_look, (triple_read a _ id), object_at_revision_durable.
  - unfold queue_publish.
    eapply triple_bind; [apply triple_lift with (Q := fun _ => within_limits); by intros x i _|].
    intros [b policy].
    eapply triple_bind; [apply triple_lift with (Q := fun _ => within_limits); by intros x i _|].
    intros store. eapply triple_bind; [apply triple_record|]. intros u.
    eapply triple_bind; [apply triple_modify with (Q := fun _ => ready 1); by intros i|]. intros u'.
    destruct (_ <? _); [apply triple_fail|]. eapply triple_bind; [apply triple_expect_ready|].
    intros a. destruct (_ <=? _); [apply triple_fail|]. apply triple_stage_one; [done|done|by intros []|].
    unfold staged_count. simpl. rewrite length_app. simpl. lia.
  - eapply triple_bind with (R := fun _ => ready 0); [|intros b; by apply triple_ret].
    unfold replay_binding. eapply triple_bind; [apply triple_record|]. intros u. eapply triple_bind; [apply triple_expect_ready|].
    intros a. apply triple_ret. intros i [_ R]. by eapply ready_less, R.
Qed.

Lemma run_within events : forall i w i' w' answers,
  within_limits i -> run_events durable_st events i w = (i', w', Answer answers) -> within_limits i'.
Proof.
  induction events as [|[c|db self op] events IH]; intros i w i' w' answers Hi E; cbn [run_events] in E.
  - by injection E as <- _ _.
  - apply host_bind_Answer in E as (i1 & w1 & a & E1 & E).
    apply host_bind_Answer in E as (i2 & w2 & a2 & E2 & E). injection E as <- <- <-.
    pose proof (triple_call c i w Hi) as T. rewrite E1 in T. destruct T as [_ R].
    by eapply IH, E2; apply ready_within.
  - by eapply IH, E.
Qed.

(** ** The store's own count *)

Definition mutation_size (m : Mutation) : Z :=
  match m with
  | Put key value | CheckpointPut key value => str_len key + str_len value
  | Delete key => str_len key
  | ObjectPut bucket key value => str_len bucket + str_len key + str_len value
  | ObjectDelete bucket key => str_len bucket + str_len key
  | QueuePublish queue _ body => str_len queue + str_len body
  end.

Definition key_mutation_allowed (l : StoreLimits) (m : Mutation) : Prop :=
  match m with
  | Put key value | CheckpointPut key value => key_allowed l key (Some value)
  | Delete key => key_allowed l key None
  | _ => False
  end.

Lemma mutation_size_nonneg m : 0 <= mutation_size m.
Proof. destruct m; unfold mutation_size, str_len; lia. Qed.

Lemma usize_checked_small z : 0 <= z <= usize_max -> usize_checked z = Some z.
Proof. intros Hz. by apply usize_checked_Some. Qed.

Lemma validate_mutation_Ok l m total :
  key_mutation_allowed l m -> 0 <= total -> total + mutation_size m <= usize_max ->
  validate_mutation m l total = Ok (total + mutation_size m).
Proof.
  intros Hm Ht Hu. destruct m as [key value|key|name value| | |]; try done;
    destruct Hm as [Hk Hv]; simpl in *; rewrite Hk; simpl; rewrite ?Hv; simpl;
    unfold checked_total; simpl; unfold str_len in *;
    repeat (rewrite usize_checked_small by lia; simpl); f_equal; lia.
Qed.

Lemma mutation_total_Ok l ms : Forall (key_mutation_allowed l) ms -> forall total,
  0 <= total -> total + foldr Z.add 0 (map mutation_size ms) <= usize_max ->
  mutation_total ms l total = Ok (total + foldr Z.add 0 (map mutation_size ms)).
Proof.
  induction 1 as [|m ms Hm Hms IH]; intros total Ht Hb; simpl in *; [f_equal; lia|].
  pose proof (mutation_size_nonneg m).
  assert (0 <= foldr Z.add 0 (map mutation_size ms))
    by (clear; induction ms as [|m ms IH]; simpl; [lia|pose proof (mutation_size_nonneg m); lia]).
  rewrite validate_mutation_Ok by (done || lia). simpl. rewrite IH by lia. f_equal. lia.
Qed.

Lemma staged_keys_total a : active_objects a = [] -> active_publishes a = [] ->
  map mutation_size (staged_mutations a) = staged_sizes a.
Proof.
  intros O P. unfold staged_mutations, staged_sizes. rewrite O, P. simpl. rewrite app_nil_r, map_app, !map_map.
  f_equal; apply map_ext; [intros [k [v|]]|intros [k v]]; simpl; lia.
Qed.

Lemma staged_keys_allowed a : entries_ok a -> active_objects a = [] -> active_publishes a = [] ->
  Forall (key_mutation_allowed (store_limits a)) (staged_mutations a).
Proof.
  intros [_ Hv Hc] O P. unfold staged_mutations. rewrite O, P. simpl. rewrite app_nil_r.
  apply Forall_app. split; apply List.Forall_map.
  - eapply Forall_impl; [exact Hv|]. by intros [k [v|]].
  - eapply Forall_impl; [exact Hc|]. by intros [k v].
Qed.
End Bounds.

(** ** Claims *)

(** C19: An invocation stays within its limits.  After any run of successful
    calls, among any operations of the rest of the host and whatever
    statements fail, at most as many entries are staged as calls were counted,
    those are at most the store's operation limit, and the staged keys,
    values, names and checkpoints hold at most its transaction bytes.  And
    from there no call, whether it succeeds or fails, panics or changes
    anything durable in any database. *)
Theorem calls_stay_within_limits `{Faults} durable_st events w i w' answers :
  (forall name b, bt_get name (stores durable_st) = Some b ->
     limits_validate (limits (binding_store b)) = Ok tt) ->
  run_events durable_st events new_invocation w = (i, w', Answer answers) ->
  (forall a, active i = Some a ->
     staged_count a <= operations i <= max_operations (store_limits a)
     /\ staged_total a <= max_transaction_bytes (store_limits a))
  /\ (forall c, let '(_, w'', o) := do_call durable_st c i w' in o <> Panic /\ calm w' w'').
Proof.
  intros Hl E. pose proof (run_within durable_st Hl events new_invocation w i w' answers eq_refl E) as W.
  split.
  - intros a Ha. unfold within_limits in W. rewrite Ha in W. destruct W as (a0 & Ha0 & _ & Ht & Hc).
    assert (a0 = a) as -> by congruence. split; lia.
  - intros c. pose proof (triple_call durable_st Hl c i w' W) as T.
    destruct (do_call durable_st c i w') as [[i2 w2] [x|e|]]; destruct T; by split.
Qed.

Lemma sample_limits_valid name b : bt_get name (stores sample_durable) = Some b ->
  limits_validate (limits (binding_store b)) = Ok tt.
Proof. simpl. by destruct (cmp name "main"); intros [= <-]. Qed.

Lemma calls_stay_within_limits_witness :
  staged_count sample_active = 2 /\ staged_count sample_active <= operations sample_run.1.1.
Proof.
  split; [reflexivity|].
  apply (@calls_stay_within_limits no_faults sample_durable sample_events sample_world sample_run.1.1
    sample_run.1.2 sample_answers sample_limits_valid sample_run_answers).
  vm_compute. reflexivity.
Defined.

(** What an invocation staged in keys and checkpoints is never refused by
    the store's own validation: the store counts the same bytes and checks the
    same bounds, so such a commit can fail only on the revision or on the
    database. *)
Theorem staged_keys_validate `{Faults} durable_st events w i w' answers a completion now :
  (forall name b, bt_get name (stores durable_st) = Some b ->
     limits_validate (limits (binding_store b)) = Ok tt) ->
  run_events durable_st events new_invocation w = (i, w', Answer answers) ->
  active i = Some a -> active_objects a = [] -> active_publishes a = [] ->
  validate_mutations (mutations (staged_plan durable_st a completion now)) (store_limits a) = Ok tt.
Proof.
  intros Hl E Ha O P. pose proof (run_within durable_st Hl events new_invocation w i w' answers eq_refl E) as W.
  unfold within_limits in W. rewrite Ha in W. destruct W as (a0 & Ha0 & He & Ht & Hc).
  assert (a0 = a) as -> by congruence. pose proof (entries_binding _ _ He) as Hb.
  pose proof (Hl _ _ Hb) as Hv. unfold limits_validate, contains_range in Hv.
  destruct (_ || _) eqn:V in Hv; [done|]. bool_facts. z_facts.
  unfold validate_mutations. cbn [mutations staged_plan]. fold (store_limits a) in *.
  pose proof (staged_keys_total a O P) as S. unfold staged_total in Ht.
  rewrite mutation_total_Ok; rewrite ?S; [|by apply (staged_keys_allowed durable_st)|lia|].
  - rewrite (proj2 (Z.ltb_ge _ _)); cbn [result_bind]; [rewrite (proj2 (Z.ltb_ge _ _)); [done|lia]|].
    unfold staged_count in Hc. unfold staged_mutations. rewrite O, P, !length_app, !length_map. simpl. lia.
  - unfold MAX_STATE_TRANSACTION_BYTES, usize_max in *. lia.
Qed.

Definition keys_run : InvocationState * World * Outcome (list (option string)) :=
  @run_events no_faults sample_durable
    [Guest (CallPut "main" "greeting" "bye"); Guest (CallDelete "main" "old");
     Guest (CallCheckpointPut "main" "step" "2")] new_invocation sample_world.
Definition keys_active : ActiveStore :=
  mkActiveStore "main" sample_binding 1 [("greeting", Some "bye"); ("old", None)] [("step", "2")] [] [].

Lemma staged_keys_validate_witness :
  mutations (staged_plan sample_durable keys_active None 3000)
    = [Put "greeting" "bye"; Delete "old"; CheckpointPut "step" "2"]
  /\ validate_mutations (mutations (staged_plan sample_durable keys_active None 3000))
       (store_limits keys_active) = Ok tt.
Proof.
  split; [reflexivity|].
  apply (@staged_keys_validate no_faults sample_durable
    [Guest (CallPut "main" "greeting" "bye"); Guest (CallDelete "main" "old");
     Guest (CallCheckpointPut "main" "step" "2")] sample_world keys_run.1.1 keys_run.1.2
    [None; None; None] keys_active None 3000 sample_limits_valid).
  all: vm_compute; reflexivity.
Defined.
