(* ===== verification/Tokens.v ===== *)
(** * Characters and tokens

    Models [krit/src/token.rs], and the characters and slices of a source text
    the lexer, the parser and the formatter share.  A text is the list of its
    characters; offsets are bytes, so a character has its [len_utf8]. *)

From S2P Require Import Prelude Utf8 Syntax.

(** ** Characters *)

Abbreviation char := N.
Abbreviation chars := (list N).

Definition ch (b : byte) : char := byte_val b.
(** The characters of an ASCII text. *)
Definition ascii_chars (s : string) : chars := map byte_val (bytes_of s).
(** The text of a list of characters. *)
Definition text_from (cs : chars) : string := str_of (utf8 cs).

Definition quote : char := 34%N.
Definition newline : char := 10%N.
Definition carriage_return : char := 13%N.
Definition tab : char := 9%N.
Definition backslash : char := ch "\".

(** The quote as a text, for messages that show it. *)
Definition q1 : string := String "034" EmptyString.
Definition q3 : string := q1 +:+ q1 +:+ q1.

Definition len_utf8 (c : char) : Z :=
  if (c <? 0x80)%N then 1 else if (c <? 0x800)%N then 2 else if (c <? 0x10000)%N then 3 else 4.
Definition width (cs : chars) : Z := foldr (fun c n => len_utf8 c + n) 0 cs.

(** [char::is_whitespace]: the White_Space property of Unicode. *)
Definition is_whitespace (c : char) : bool :=
  ((9 <=? c) && (c <=? 13) || (c =? 32) || (c =? 0x85) || (c =? 0xA0) || (c =? 0x1680)
   || (0x2000 <=? c) && (c <=? 0x200A) || (c =? 0x2028) || (c =? 0x2029) || (c =? 0x202F)
   || (c =? 0x205F) || (c =? 0x3000))%N.
Definition char_in (low high : char) (c : char) : bool := ((low <=? c) && (c <=? high))%N.
Definition is_digit : char -> bool := char_in 48 57.
Definition is_alphabetic (c : char) : bool := char_in 97 122 c || char_in 65 90 c.
Definition is_alphanumeric (c : char) : bool := is_alphabetic c || is_digit c.
Definition is_hexdigit (c : char) : bool := is_digit c || char_in 97 102 c || char_in 65 70 c.
Definition is_break (c : char) : bool := ((c =? newline) || (c =? carriage_return))%N.
Definition is_indent (c : char) : bool := ((c =? 32) || (c =? tab))%N.
Definition name_start (c : char) : bool := is_alphabetic c || (c =? ch "_")%N.
Definition name_char (c : char) : bool := is_alphanumeric c || (c =? ch "_")%N.

(** ** Tokens ([token.rs]) *)

Inductive TemplatePart : Type :=
| TextPart (value : string) (span : Span)
| HolePart (path : list (string * Span)) (span : Span).

Record Template : Type := mkTemplate {
  template_parts : list TemplatePart;
  text_block_lines : option (list string);
}.

Inductive TokenKind : Type :=
| TIdentifier (value : string) | TInteger (value : string) | TString (value : string)
| TTemplate (template : Template)
| TLet | TFn | TWebhook | TIf | TElse | TMatch | TRecord | TTrue | TFalse
| TLeftParen | TRightParen | TLeftBrace | TRightBrace | TLeftBracket | TRightBracket
| TComma | TColon | TSemicolon | TQuestion | TDot | TEqual | TEqualEqual | TBang | TBangEqual
| TLess | TLessEqual | TGreater | TGreaterEqual | TPlus | TMinus | TStar | TSlash | TPercent
| TAndAnd | TOrOr | TDotDot | TFatArrow | TThinArrow | TEof.

#[export] Instance TemplatePart_eq_dec : EqDecision TemplatePart.
Proof. solve_decision. Defined.
#[export] Instance Template_eq_dec : EqDecision Template.
Proof. solve_decision. Defined.
#[export] Instance TokenKind_eq_dec : EqDecision TokenKind.
Proof. solve_decision. Defined.

Record Token : Type := mkToken { token_kind : TokenKind; token_span : Span }.

#[export] Instance Token_eq_dec : EqDecision Token.
Proof. solve_decision. Defined.

Definition token_description (kind : TokenKind) : string :=
  match kind with
  | TIdentifier _ => "identifier"
  | TInteger _ => "integer"
  | TString _ | TTemplate _ => "string"
  | TLet => "`let`" | TFn => "`fn`" | TWebhook => "`webhook`" | TIf => "`if`" | TElse => "`else`"
  | TMatch => "`match`" | TRecord => "`record`" | TTrue => "`true`" | TFalse => "`false`"
  | TLeftParen => "`(`" | TRightParen => "`)`" | TLeftBrace => "`{`" | TRightBrace => "`}`"
  | TLeftBracket => "`[`" | TRightBracket => "`]`" | TComma => "`,`" | TColon => "`:`"
  | TSemicolon => "`;`" | TQuestion => "`?`" | TDot => "`.`" | TEqual => "`=`"
  | TEqualEqual => "`==`" | TBang => "`!`" | TBangEqual => "`!=`" | TLess => "`<`"
  | TLessEqual => "`<=`" | TGreater => "`>`" | TGreaterEqual => "`>=`" | TPlus => "`+`"
  | TMinus => "`-`" | TStar => "`*`" | TSlash => "`/`" | TPercent => "`%`" | TAndAnd => "`&&`"
  | TOrOr => "`||`" | TDotDot => "`..`" | TFatArrow => "`=>`" | TThinArrow => "`->`"
  | TEof => "end of file"
  end.

(** [text[span.start..span.end]]: the characters that start in the span. *)
Fixpoint slice_from (text : chars) (at_ : Z) (span : Span) : chars :=
  match text with
  | [] => []
  | c :: text =>
      let rest := slice_from text (at_ + len_utf8 c) span in
      if (span_start span <=? at_) && (at_ <? span_end span) then c :: rest else rest
  end.
Definition slice (text : chars) (span : Span) : chars := slice_from text 0 span.

(** [text.get(a..b)]: [None] when the range is reversed, ends past the text or
    splits a character; [&text[a..b]] panics there. *)
Fixpoint drop_bytes (text : chars) (n : Z) : option chars :=
  if n =? 0 then Some text
  else
    match text with
    | [] => None
    | c :: text => if n <? len_utf8 c then None else drop_bytes text (n - len_utf8 c)
    end.

Fixpoint take_bytes (text : chars) (n : Z) : option chars :=
  if n =? 0 then Some []
  else
    match text with
    | [] => None
    | c :: text => if n <? len_utf8 c then None else cons c <$> take_bytes text (n - len_utf8 c)
    end.

Definition text_get (text : chars) (from to : Z) : option chars :=
  if to <? from then None
  else match drop_bytes text from with Some rest => take_bytes rest (to - from) | None => None end.

(** [str::trim_start] and [str::trim_end]. *)
Definition trim_start (cs : chars) : chars := drop_while is_whitespace cs.
Definition trim_end (cs : chars) : chars := reverse (drop_while is_whitespace (reverse cs)).

(** ** Widths of slices *)

Lemma width_app a b : width (a ++ b) = width a + width b.
Proof. unfold width. induction a as [|x a IH]; simpl; [done|]. lia. Qed.
Lemma len_utf8_pos c : 0 < len_utf8 c.
Proof. unfold len_utf8. repeat case_match; lia. Qed.
Lemma width_nonneg cs : 0 <= width cs.
Proof. induction cs as [|c cs IH]; simpl; [lia|]. pose proof (len_utf8_pos c). lia. Qed.

Lemma len_utf8_width c cs : width (c :: cs) = len_utf8 c + width cs.
Proof. done. Qed.

Lemma drop_bytes_app a b : drop_bytes (a ++ b) (width a) = Some b.
Proof.
  induction a as [|c a IH]; [by destruct b|]. cbn [app drop_bytes]. rewrite len_utf8_width.
  pose proof (len_utf8_pos c). pose proof (width_nonneg a).
  rewrite (proj2 (Z.eqb_neq _ 0)), (proj2 (Z.ltb_ge _ _)) by lia. by replace (len_utf8 c + width a - len_utf8 c) with (width a) by lia.
Qed.

Lemma take_bytes_app a b : take_bytes (a ++ b) (width a) = Some a.
Proof.
  induction a as [|c a IH]; [by destruct b|]. cbn [app take_bytes]. rewrite len_utf8_width.
  pose proof (len_utf8_pos c). pose proof (width_nonneg a).
  rewrite (proj2 (Z.eqb_neq _ 0)), (proj2 (Z.ltb_ge _ _)) by lia.
  replace (len_utf8 c + width a - len_utf8 c) with (width a) by lia. by rewrite IH.
Qed.

Lemma text_get_app a b c : text_get (a ++ b ++ c) (width a) (width a + width b) = Some b.
Proof.
  unfold text_get. pose proof (width_nonneg b). rewrite (proj2 (Z.ltb_ge _ _)) by lia. rewrite drop_bytes_app.
  replace (width a + width b - width a) with (width b) by lia. apply take_bytes_app.
Qed.

#[global] Arguments ch : simpl never.
#[global] Arguments is_whitespace : simpl never.
#[global] Arguments is_break : simpl never.
#[global] Arguments is_digit : simpl never.
#[global] Arguments is_alphabetic : simpl never.
#[global] Arguments is_hexdigit : simpl never.
#[global] Arguments name_start : simpl never.
#[global] Arguments name_char : simpl never.
