(* ===== verification/Lexer.v ===== *)
(** * The lexer

    Models [krit/src/lexer.rs].  A source text is the
    list of its characters, and a cursor splits it into what was read and what
    is left, with the byte offset the code keeps; offsets advance by
    [len_utf8].  The loops of the lexer run on fuel, one unit for each
    character or line they can still meet; [OutOfFuel] is not reached (see
    [LexerFacts]). *)

From S2P Require Import Prelude Utf8 Syntax Tokens.

(** The token kind of a keyword. *)
Definition keyword (word : string) : option TokenKind :=
  if bool_decide (word = "let") then Some TLet
  else if bool_decide (word = "fn") then Some TFn
  else if bool_decide (word = "webhook") then Some TWebhook
  else if bool_decide (word = "if") then Some TIf
  else if bool_decide (word = "else") then Some TElse
  else if bool_decide (word = "match") then Some TMatch
  else if bool_decide (word = "record") then Some TRecord
  else if bool_decide (word = "true") then Some TTrue
  else if bool_decide (word = "false") then Some TFalse
  else None.

Record Comment : Type := mkComment {
  comment_text : string;
  comment_span : Span;
  comment_inline : bool;
}.

Record LexedSource : Type := mkLexedSource { lexed_tokens : list Token; lexed_comments : list Comment }.

(** ** Cursors *)

(** What was read, last character first; what is left; the byte offset. *)
Record Cursor : Type := mkCursor { cur_before : chars; cur_rest : chars; cur_at : Z }.

Definition cursor_at_start (text : chars) : Cursor := mkCursor [] text 0.

Definition peek (c : Cursor) : option char := head (cur_rest c).
Definition peek_next (c : Cursor) : option char := head (tail (cur_rest c)).
Definition peeks (c : Cursor) (expected : char) : bool :=
  match peek c with Some x => (x =? expected)%N | None => false end.

Definition step (c : Cursor) (x : char) (rest : chars) : Cursor :=
  mkCursor (x :: cur_before c) rest (cur_at c + len_utf8 x).

Definition advance (c : Cursor) : option (char * Cursor) :=
  match cur_rest c with [] => None | x :: rest => Some (x, step c x rest) end.

(** [advance] where the character does not matter. *)
Definition skip (c : Cursor) : Cursor :=
  match advance c with Some (_, c) => c | None => c end.

Fixpoint skip_many (n : nat) (c : Cursor) : Cursor :=
  match n with O => c | S n => skip_many n (skip c) end.

Definition consume (c : Cursor) (expected : char) : option Cursor :=
  if peeks c expected then Some (skip c) else None.

(** [while self.peek().is_some_and(p) { self.advance(); }], and what it read. *)
Definition advance_while (p : char -> bool) (c : Cursor) : chars * Cursor :=
  let taken := take_while p (cur_rest c) in (taken, skip_many (length taken) c).

(** ** Scans *)

Inductive Scan (A : Type) : Type :=
| Scanned (a : A)
| Rejected (d : Diagnostic)
| OutOfFuel.
Arguments Scanned {A} a.
Arguments Rejected {A} d.
Arguments OutOfFuel {A}.

Definition scan_bind {A B} (m : Scan A) (k : A -> Scan B) : Scan B :=
  match m with Scanned a => k a | Rejected d => Rejected d | OutOfFuel => OutOfFuel end.

Notation "'let%' x := c 'in' k" := (scan_bind c (fun x => k))
  (at level 10, x pattern, c at level 100, k at level 200,
   format "'[v' 'let%'  x  :=  c  'in' '/' k ']'") : krit_scope.

(** ** Trivia *)

(** Whether something other than whitespace precedes on the line. *)
Definition inline_at (c : Cursor) : bool :=
  existsb (fun x => negb (is_whitespace x)) (take_while (fun x => negb (is_break x)) (cur_before c)).

Fixpoint skip_trivia (fuel : nat) (c : Cursor) (comments : list Comment)
  : Scan (Cursor * list Comment) :=
  match fuel with
  | O => OutOfFuel
  | S fuel =>
      let '(_, c) := advance_while is_whitespace c in
      if peeks c (ch "/") && match peek_next c with Some x => (x =? ch "/")%N | None => false end then
        let '(text, c') := advance_while (fun x => negb (is_break x)) c in
        skip_trivia fuel c'
          (comments ++ [mkComment (text_from text) (mkSpan (cur_at c) (cur_at c')) (inline_at c)])
      else Scanned (c, comments)
  end.

(** ** Identifiers and integers *)

Definition identifier (start : Z) (first : char) (c : Cursor) : Token * Cursor :=
  let '(rest, c) := advance_while name_char c in
  let value := text_from (first :: rest) in
  (mkToken (default (TIdentifier value) (keyword value)) (mkSpan start (cur_at c)), c).

(** The loop of [integer]: what it read and whether a separator came last. *)
Fixpoint integer_loop (rest : chars) (start : Z) (previous_separator : bool) (c : Cursor)
  : Scan (chars * bool * Cursor) :=
  match rest with
  | [] => Scanned ([], previous_separator, c)
  | x :: rest' =>
      if is_digit x then
        let% (read, previous, c) := integer_loop rest' start false (step c x rest') in
        Scanned (x :: read, previous, c)
      else if (x =? ch "_")%N then
        if previous_separator then
          Rejected (diagnostic "K0001" "integer separators cannot be repeated"
                      (mkSpan start (cur_at c + 1)))
        else
          let% (read, previous, c) := integer_loop rest' start true (step c x rest') in
          Scanned (x :: read, previous, c)
      else if is_alphabetic x then
        Rejected (diagnostic "K0001" "an integer and identifier must be separated"
                    (mkSpan start (cur_at (step c x rest'))))
      else Scanned ([], previous_separator, c)
  end.

Definition integer (start : Z) (first : char) (c : Cursor) : Scan (Token * Cursor) :=
  let% (read, previous_separator, c) := integer_loop (cur_rest c) start false c in
  if previous_separator then
    Rejected (diagnostic "K0001" "an integer separator cannot be trailing" (mkSpan start (cur_at c)))
  else
    let normalized := List.filter (fun x => negb (x =? ch "_")%N) (first :: read) in
    Scanned (mkToken (TInteger (text_from normalized)) (mkSpan start (cur_at c)), c).

(** ** Escapes *)

(** [u32::from_str_radix(digits, 16)] of hexadecimal digits. *)
Definition hex_value (c : char) : N :=
  (if is_digit c then c - 48 else if char_in 97 102 c then c - 87 else c - 55)%N.
Definition from_hex (digits : chars) : N := foldl (fun n c => (16 * n + hex_value c)%N) 0%N digits.

Definition unicode_escape (escape_start : Z) (c : Cursor) : Scan (char * Cursor) :=
  match consume c (ch "{") with
  | None =>
      Rejected (diagnostic "K0003" "a Unicode escape must use `\u{...}`" (mkSpan escape_start (cur_at c)))
  | Some c =>
      let digits := take_while is_hexdigit (take 6 (cur_rest c)) in
      let c := skip_many (length digits) c in
      match digits, consume c (ch "}") with
      | _ :: _, Some c =>
          let scalar := from_hex digits in
          if is_char scalar then Scanned (scalar, c)
          else Rejected (diagnostic "K0003" "Unicode escape is not a valid scalar value"
                           (mkSpan escape_start (cur_at c)))
      | _, _ => Rejected (diagnostic "K0003" "invalid Unicode escape" (mkSpan escape_start (cur_at c)))
      end
  end.

(** The character a one-letter escape stands for. *)
Definition simple_escape (x : char) : option char :=
  if (x =? quote)%N then Some quote
  else if (x =? backslash)%N then Some backslash
  else if (x =? ch "n")%N then Some newline
  else if (x =? ch "r")%N then Some carriage_return
  else if (x =? ch "t")%N then Some tab
  else if (x =? ch "0")%N then Some 0%N
  else None.

(** The backslash at [escape_start] was read; its escape follows. *)
Definition escape (string_start : Z) (c : Cursor) : Scan (char * Cursor) :=
  let escape_start := usize_saturating_sub (cur_at c) 1 in
  match advance c with
  | None => Rejected (diagnostic "K0002" "unterminated string" (mkSpan string_start (cur_at c)))
  | Some (x, c) =>
      match simple_escape x with
      | Some escaped => Scanned (escaped, c)
      | None =>
          if (x =? ch "u")%N then unicode_escape escape_start c
          else Rejected (diagnostic "K0003" ("invalid string escape `\" +:+ text_from [x] +:+ "`")
                           (mkSpan escape_start (cur_at c)))
      end
  end.

(** ** Interpolation holes *)

Inductive HoleProblem : Type := HoleEmpty | HoleWhitespace | HoleNotAPath.

Definition hole_diagnostic (problem : HoleProblem) (span : Span) : Diagnostic :=
  let '(message, note) :=
    match problem with
    | HoleEmpty =>
        ("interpolation hole is empty",
         "write the name of a `String` value between `\(` and `)`, as in `\(name)`")
    | HoleWhitespace =>
        ("an interpolation hole cannot contain whitespace",
         "write the hole without spaces, as in `\(request.path)`")
    | HoleNotAPath =>
        ("an interpolation hole holds only a name and its field accesses, such as `\(name)` or `\(request.path)`",
         "bind the value to a name first (`let text = ...;`), then write `\(text)`")
    end in
  with_note (diagnostic "K3015" message span) note.

(** [str::trim]. *)
Definition trim (cs : chars) : chars :=
  reverse (drop_while is_whitespace (reverse (drop_while is_whitespace cs))).

Definition is_name (segment : chars) : bool :=
  match segment with [] => false | x :: _ => name_start x end
  && forallb name_char segment && negb (is_some (keyword (text_from segment))).

Definition segments (content : chars) : list chars := split_by (fun x => (x =? ch ".")%N) content.

(** [segments.join(".")]. *)
Fixpoint join_dots (parts : list chars) : chars :=
  match parts with
  | [] => []
  | [part] => part
  | part :: parts => part ++ ch "." :: join_dots parts
  end.

(** When [hole_path] answers [Ok] (see [hole_path_accepts]). *)
Definition accepts_path (content : chars) : bool :=
  negb (bool_decide (trim content = [])) && forallb is_name (segments content).

(** The loop over the segments; [None] at the first that is not a name. *)
Fixpoint path_names (parts : list chars) (at_ : Z) : option (list (string * Span)) :=
  match parts with
  | [] => Some []
  | part :: parts =>
      if is_name part then
        match path_names parts (at_ + width part + 1) with
        | Some path => Some ((text_from part, mkSpan at_ (at_ + width part)) :: path)
        | None => None
        end
      else None
  end.

Definition hole_path (content : chars) (start : Z) : result (list (string * Span)) HoleProblem :=
  if bool_decide (trim content = []) then Err HoleEmpty
  else
    match path_names (segments content) start with
    | Some path => Ok path
    | None =>
        let trimmed := join_dots (map trim (segments content)) in
        Err (if (width trimmed <? width content) && accepts_path trimmed then HoleWhitespace
             else HoleNotAPath)
    end.

(** Skips a quoted string inside a hole; [None] when its line ends first. *)
Fixpoint skip_quoted (fuel : nat) (c : Cursor) : Scan (option Cursor) :=
  match fuel with
  | O => OutOfFuel
  | S fuel =>
      match advance c with
      | None => Scanned None
      | Some (x, c) =>
          if is_break x then Scanned None
          else if (x =? quote)%N then Scanned (Some c)
          else if (x =? backslash)%N then
            match peek c with
            | None => skip_quoted fuel c
            | Some y => if is_break y then skip_quoted fuel c else skip_quoted fuel (skip c)
            end
          else skip_quoted fuel c
      end
  end.

(** The end of a hole: the cursor at its closing parenthesis. *)
Fixpoint hole_end (fuel : nat) (depth : Z) (c : Cursor) : Scan (option Cursor) :=
  match fuel with
  | O => OutOfFuel
  | S fuel =>
      match peek c with
      | None => Scanned None
      | Some x =>
          if is_break x then Scanned None
          else if (x =? ch ")")%N && (depth =? 0) then Scanned (Some c)
          else if (x =? quote)%N then
            let% after := skip_quoted (S (length (cur_rest c))) (skip c) in
            match after with
            | None => Scanned None
            | Some c => hole_end fuel depth c
            end
          else
            hole_end fuel
              (if (x =? ch "(")%N then depth + 1 else if (x =? ch ")")%N then depth - 1 else depth)
              (skip c)
      end
  end.

(** What was read between two cursors. *)
Definition between (from to : Cursor) : chars :=
  take (length (cur_rest from) - length (cur_rest to)) (cur_rest from).

(** A hole whose backslash starts at [hole_start]; [c] is at its parenthesis. *)
Definition hole (hole_start : Z) (c : Cursor) : Scan (list (string * Span) * Span * Cursor) :=
  let content := skip c in
  let% ended := hole_end (S (length (cur_rest content))) 0 content in
  match ended with
  | None =>
      Rejected (with_note
        (diagnostic "K3015" "interpolation hole is not closed" (mkSpan hole_start (cur_at content)))
        "end the hole with `)` right after the name, as in `\(name)`")
  | Some close =>
      let after := skip close in
      let span := mkSpan hole_start (cur_at after) in
      match hole_path (between content close) (cur_at content) with
      | Ok path => Scanned (path, span, after)
      | Err problem => Rejected (hole_diagnostic problem span)
      end
  end.

(** ** The parts of a string *)

Record PartsBuilder : Type := mkPartsBuilder {
  built_parts : list TemplatePart;
  built_text : chars;
  built_span : option Span;
}.

Definition no_parts : PartsBuilder := mkPartsBuilder [] [] None.

Definition push_text (b : PartsBuilder) (c : char) (span : Span) : PartsBuilder :=
  mkPartsBuilder (built_parts b) (built_text b ++ [c])
    (Some (match built_span b with Some text => span_join text span | None => span end)).

Definition flush_text (b : PartsBuilder) : PartsBuilder :=
  match built_span b with
  | Some span =>
      mkPartsBuilder (built_parts b ++ [TextPart (text_from (built_text b)) span]) [] None
  | None => b
  end.

Definition push_hole (b : PartsBuilder) (path : list (string * Span)) (span : Span) : PartsBuilder :=
  let b := flush_text b in
  mkPartsBuilder (built_parts b ++ [HolePart path span]) (built_text b) (built_span b).

Definition has_holes (b : PartsBuilder) : bool :=
  match built_parts b with [] => false | _ :: _ => true end.
Definition finish (b : PartsBuilder) : list TemplatePart := built_parts (flush_text b).

(** ** One-line strings *)

Fixpoint string_loop (fuel : nat) (start : Z) (b : PartsBuilder) (c : Cursor)
  : Scan (PartsBuilder * Cursor) :=
  match fuel with
  | O => OutOfFuel
  | S fuel =>
      let character_start := cur_at c in
      match advance c with
      | None => Rejected (diagnostic "K0002" "unterminated string" (mkSpan start (cur_at c)))
      | Some (x, c) =>
          if (x =? quote)%N then Scanned (b, c)
          else if is_break x then
            Rejected (diagnostic "K0002" "unterminated string" (mkSpan start (cur_at c)))
          else if (x =? backslash)%N then
            if peeks c (ch "(") then
              let% (path, span, c) := hole character_start c in
              string_loop fuel start (push_hole b path span) c
            else
              let% (escaped, c) := escape start c in
              string_loop fuel start (push_text b escaped (mkSpan character_start (cur_at c))) c
          else string_loop fuel start (push_text b x (mkSpan character_start (cur_at c))) c
      end
  end.

Definition string_token (start : Z) (c : Cursor) : Scan (Token * Cursor) :=
  let% (b, c) := string_loop (S (length (cur_rest c))) start no_parts c in
  let kind := if has_holes b then TTemplate (mkTemplate (finish b) None)
              else TString (text_from (built_text b)) in
  Scanned (mkToken kind (mkSpan start (cur_at c)), c).

(** ** Text blocks *)

Definition unterminated_text_block (opening : Span) : Diagnostic :=
  with_note (diagnostic "K0002" "unterminated text block" opening)
    ("close the text block with `" +:+ q3 +:+ "` on a line of its own").

Definition misplaced_closing_delimiter (start : Z) : Diagnostic :=
  with_note
    (diagnostic "K0004" ("the closing `" +:+ q3 +:+ "` of a text block must be on a line of its own")
       (mkSpan start (start + 3)))
    ("move the `" +:+ q3 +:+ "` to the next line, or write `\" +:+ q3
     +:+ "` for three quote characters in the text").

Definition quotes3 : chars := [quote; quote; quote].

(** The line break a text starts with, by its number of characters, which are
    one byte each. *)
Definition line_break_at (rest : chars) : option nat :=
  match rest with
  | x :: y :: _ =>
      if ((x =? carriage_return) && (y =? newline))%N then Some 2%nat
      else if is_break x then Some 1%nat else None
  | [x] => if is_break x then Some 1%nat else None
  | [] => None
  end.

(** The line at a cursor, without its break. *)
Definition line_of (c : Cursor) : chars := take_while (fun x => negb (is_break x)) (cur_rest c).

(** A content line: the cursor at its start, and its text. *)
Record Line : Type := mkLine { line_cursor : Cursor; line_text : chars }.
Definition line_start (l : Line) : Z := cur_at (line_cursor l).
Definition line_stop (l : Line) : Z := line_start l + width (line_text l).

(** The first delimiter inside a line that no backslash escapes. *)
Fixpoint find_delimiter (line : chars) (at_ : Z) : option Z :=
  match line with
  | [] => None
  | x :: rest =>
      if (x =? backslash)%N then
        match rest with
        | [] => None
        | y :: rest => find_delimiter rest (at_ + len_utf8 x + len_utf8 y)
        end
      else if (x =? quote)%N && starts_with quotes3 line then Some at_
      else find_delimiter rest (at_ + len_utf8 x)
  end.

Definition unclosed_text_block (opening : Span) (lines : list Line) : Diagnostic :=
  match list_find is_Some (map (fun l => find_delimiter (line_text l) (line_start l)) lines) with
  | Some (_, Some at_) => misplaced_closing_delimiter at_
  | _ => unterminated_text_block opening
  end.

(** The content lines, the closing indentation, and the cursor after it. *)
Fixpoint block_lines (fuel : nat) (opening : Span) (lines : list Line) (c : Cursor)
  : Scan (list Line * chars * Cursor) :=
  match fuel with
  | O => OutOfFuel
  | S fuel =>
      let line := line_of c in
      let indentation := take_while is_indent line in
      if starts_with quotes3 (drop (length indentation) line) then
        Scanned (lines, indentation, skip_many (length indentation) c)
      else
        let lines := lines ++ [mkLine c line] in
        let ended := skip_many (length line) c in
        match line_break_at (cur_rest ended) with
        | Some length => block_lines fuel opening lines (skip_many length ended)
        | None => Rejected (unclosed_text_block opening lines)
        end
  end.

(** Where the content of a line starts, after the closing indentation. *)
Definition content_of (indentation : chars) (l : Line) : Scan Cursor :=
  let c := line_cursor l in
  if starts_with indentation (line_text l) then Scanned (skip_many (length indentation) c)
  else if forallb is_indent (line_text l) then Scanned (skip_many (length (line_text l)) c)
  else
    let content := drop_while is_indent (line_text l) in
    let first := match content with [] => 0 | x :: _ => len_utf8 x end in
    Rejected (with_note
      (diagnostic "K0004" ("a text block line must start with the indentation of the closing `" +:+ q3 +:+ "`")
         (mkSpan (line_start l) (line_stop l - width content + first)))
      ("indent every line at least as far as the closing `" +:+ q3
       +:+ "`, with the same spaces and tabs; that indentation is removed from each line")).

(** The characters of one content line, up to [stop].  A content line is
    followed by its break, so the text ahead is the line's as far as quotes and
    parentheses go, and reading past the text, which the code excludes with
    [expect], counts as running out. *)
Fixpoint line_loop (fuel : nat) (start stop : Z) (b : PartsBuilder) (c : Cursor) : Scan PartsBuilder :=
  match fuel with
  | O => OutOfFuel
  | S fuel =>
      if stop <=? cur_at c then Scanned b
      else
        let character_start := cur_at c in
        match advance c with
        | None => OutOfFuel
        | Some (x, c) =>
            if (x =? quote)%N && starts_with [quote; quote] (cur_rest c) then
              Rejected (misplaced_closing_delimiter character_start)
            else if (x =? backslash)%N && peeks c (ch "(") then
              let% (path, span, c) := hole character_start c in
              line_loop fuel start stop (push_hole b path span) c
            else if (x =? backslash)%N && (cur_at c =? stop) then
              Rejected (diagnostic "K0003"
                "invalid string escape: a line of a text block cannot end with `\`"
                (mkSpan character_start (cur_at c)))
            else if (x =? backslash)%N then
              let% (escaped, c) := escape start c in
              line_loop fuel start stop (push_text b escaped (mkSpan character_start (cur_at c))) c
            else line_loop fuel start stop (push_text b x (mkSpan character_start (cur_at c))) c
        end
  end.

(** The content lines in order; [previous] is the line before. *)
Fixpoint content_lines (start : Z) (indentation : chars) (previous : option Line) (lines : list Line)
    (b : PartsBuilder) (raw : list string) : Scan (PartsBuilder * list string) :=
  match lines with
  | [] => Scanned (b, raw)
  | l :: lines =>
      let b := match previous with
               | Some before => push_text b newline (mkSpan (line_stop before) (line_start l))
               | None => b
               end in
      let% content := content_of indentation l in
      let kept := take (length (line_text l) - (length (cur_rest (line_cursor l)) - length (cur_rest content)))
                    (cur_rest content) in
      let% b := line_loop (S (length (cur_rest content))) start (line_stop l) b content in
      content_lines start indentation (Some l) lines b (raw ++ [text_from kept])
  end.

(** A text block; [c] is after the first quote of its opening delimiter. *)
Definition text_block (start : Z) (c : Cursor) : Scan (Token * Cursor) :=
  let opening := mkSpan start (start + 3) in
  let c := skip_many 2 c in
  match line_break_at (cur_rest c) with
  | None =>
      match cur_rest c with
      | [] => Rejected (unterminated_text_block opening)
      | _ :: _ =>
          Rejected (with_note
            (diagnostic "K0004" ("a text block's opening `" +:+ q3 +:+ "` must end its line") opening)
            ("end the line right after the opening `" +:+ q3
             +:+ "`, without trailing spaces, and start the text on the next line; a one-line string is written `"
             +:+ q1 +:+ "..." +:+ q1 +:+ "`"))
      end
  | Some length_of_break =>
      let% (lines, indentation, close) :=
        block_lines (S (length (cur_rest c))) opening [] (skip_many length_of_break c) in
      let% (b, raw) := content_lines start indentation None lines no_parts [] in
      let after := skip_many 3 close in
      Scanned (mkToken (TTemplate (mkTemplate (finish b) (Some raw))) (mkSpan start (cur_at after)), after)
  end.

(** ** The scanner *)

(** Punctuation by its first character; a second one is taken where it makes
    a longer token. *)
Definition punctuation (x : char) (c : Cursor) : option (TokenKind * Cursor) :=
  let one kind := Some (kind, c) in
  let longer second kind other :=
    match consume c (ch second) with Some c => Some (kind, c) | None => other end in
  if (x =? ch "(")%N then one TLeftParen
  else if (x =? ch ")")%N then one TRightParen
  else if (x =? ch "{")%N then one TLeftBrace
  else if (x =? ch "}")%N then one TRightBrace
  else if (x =? ch "[")%N then one TLeftBracket
  else if (x =? ch "]")%N then one TRightBracket
  else if (x =? ch ",")%N then one TComma
  else if (x =? ch ":")%N then one TColon
  else if (x =? ch ";")%N then one TSemicolon
  else if (x =? ch "?")%N then one TQuestion
  else if (x =? ch "+")%N then one TPlus
  else if (x =? ch "-")%N then longer ">"%char TThinArrow (one TMinus)
  else if (x =? ch "*")%N then one TStar
  else if (x =? ch "%")%N then one TPercent
  else if (x =? ch "/")%N then one TSlash
  else if (x =? ch "=")%N then longer "="%char TEqualEqual (longer ">"%char TFatArrow (one TEqual))
  else if (x =? ch "!")%N then longer "="%char TBangEqual (one TBang)
  else if (x =? ch "<")%N then longer "="%char TLessEqual (one TLess)
  else if (x =? ch ">")%N then longer "="%char TGreaterEqual (one TGreater)
  else if (x =? ch "&")%N then longer "&"%char TAndAnd None
  else if (x =? ch "|")%N then longer "|"%char TOrOr None
  else if (x =? ch ".")%N then longer "."%char TDotDot (one TDot)
  else None.

(** The token whose first character [x], at [start], was just read. *)
Definition token_from (start : Z) (x : char) (c : Cursor) : Scan (Token * Cursor) :=
  if name_start x then Scanned (identifier start x c)
  else if is_digit x then integer start x c
  else if (x =? quote)%N then
    if starts_with [quote; quote] (cur_rest c) then text_block start c else string_token start c
  else
    match punctuation x c with
    | Some (kind, c) => Scanned (mkToken kind (mkSpan start (cur_at c)), c)
    | None =>
        Rejected (diagnostic "K0001" ("invalid source character `" +:+ text_from [x] +:+ "`")
                    (mkSpan start (cur_at c)))
    end.

Fixpoint scan_loop (fuel : nat) (c : Cursor) (tokens : list Token) (comments : list Comment)
  : Scan LexedSource :=
  match fuel with
  | O => OutOfFuel
  | S fuel =>
      let% (c, comments) := skip_trivia (S (length (cur_rest c))) c comments in
      match advance c with
      | None => Scanned (mkLexedSource (tokens ++ [mkToken TEof (mkSpan (cur_at c) (cur_at c))]) comments)
      | Some (x, c') =>
          let% (token, c) := token_from (cur_at c) x c' in
          scan_loop fuel c (tokens ++ [token]) comments
      end
  end.

Definition lex_with_comments (text : chars) : Scan LexedSource :=
  scan_loop (S (length text)) (cursor_at_start text) [] [].

Definition lex (text : chars) : Scan (list Token) :=
  let% lexed := lex_with_comments text in
  Scanned (lexed_tokens lexed).

#[global] Arguments advance_while : simpl never.
#[global] Arguments is_name : simpl never.
#[global] Arguments simple_escape : simpl never.
#[global] Arguments is_char : simpl never.
#[global] Arguments from_hex : simpl never.
