(* ===== verification/LexerFacts.v ===== *)
(** * The lexer reads the lexical grammar

    The lexical grammar as relations on characters; that the lexer always
    ends, and that what it accepts is a sequence of trivia and spellings of
    the tokens it answers, which cover the text. *)

From S2P Require Import Prelude Utf8 Syntax Tokens Lexer.

(** ** Cursors *)

(** [c'] is [c] after reading [read]. *)
Definition moved (c c' : Cursor) (read : chars) : Prop :=
  cur_rest c = read ++ cur_rest c' /\ cur_at c' = cur_at c + width read
  /\ cur_before c' = reverse read ++ cur_before c.

Lemma moved_refl c : moved c c [].
Proof. unfold moved. simpl. split_and!; [done|lia|done]. Qed.

Lemma moved_trans c1 c2 c3 r1 r2 : moved c1 c2 r1 -> moved c2 c3 r2 -> moved c1 c3 (r1 ++ r2).
Proof.
  intros (R1 & A1 & B1) (R2 & A2 & B2). split_and!.
  - by rewrite R1, R2, app_assoc.
  - rewrite A2, A1, width_app. lia.
  - by rewrite B2, B1, reverse_app, app_assoc.
Qed.

Lemma moved_step c x rest : cur_rest c = x :: rest -> moved c (step c x rest) [x].
Proof. intros R. unfold moved. simpl. split_and!; [done|lia|done]. Qed.

Lemma moved_length c c' read : moved c c' read ->
  (length (cur_rest c) = length read + length (cur_rest c'))%nat.
Proof. intros (R & _). by rewrite R, length_app. Qed.

Lemma advance_Some c x c' : advance c = Some (x, c') -> moved c c' [x].
Proof.
  unfold advance. destruct (cur_rest c) as [|y rest] eqn:R; [done|]. intros [= <- <-].
  by apply moved_step.
Qed.

Lemma advance_None c : advance c = None -> cur_rest c = [].
Proof. unfold advance. by destruct (cur_rest c). Qed.

Lemma skip_moved c x rest : cur_rest c = x :: rest -> moved c (skip c) [x].
Proof. intros R. unfold skip, advance. rewrite R. by apply moved_step. Qed.

Lemma skip_many_moved n c : (n <= length (cur_rest c))%nat ->
  moved c (skip_many n c) (take n (cur_rest c)).
Proof.
  revert c. induction n as [|n IH]; intros c Hn; [apply moved_refl|].
  destruct (cur_rest c) as [|x rest] eqn:R; simpl in Hn; [lia|]. cbn [skip_many take].
  pose proof (skip_moved c x rest R) as M. pose proof (moved_length _ _ _ M) as L.
  rewrite R in L. simpl in L. change (x :: take n rest) with ([x] ++ take n rest).
  eapply moved_trans; [exact M|]. destruct M as (R' & _). rewrite R in R'. injection R' as ->.
  apply IH. lia.
Qed.

Lemma skip_many_app c read rest : cur_rest c = read ++ rest ->
  moved c (skip_many (length read) c) read /\ cur_rest (skip_many (length read) c) = rest.
Proof.
  intros R. assert (moved c (skip_many (length read) c) read) as M.
  { rewrite <- (take_app_length read rest) at 2. rewrite <- R. apply skip_many_moved.
    rewrite R, length_app. lia. }
  split; [done|]. destruct M as (R' & _). rewrite R in R'. by apply app_inv_head in R'.
Qed.

Lemma take_while_prefix (p : char -> bool) l : take_while p l ++ drop_while p l = l.
Proof. induction l as [|x l IH]; simpl; [done|]. destruct (p x); simpl; [by rewrite IH|done]. Qed.

Lemma take_while_all (p : char -> bool) l : forallb p (take_while p l) = true.
Proof. induction l as [|x l IH]; simpl; [done|]. destruct (p x) eqn:E; simpl; [by rewrite E|done]. Qed.

Lemma take_while_app (p : char -> bool) a b : forallb p a = true ->
  match b with [] => true | x :: _ => negb (p x) end = true -> take_while p (a ++ b) = a.
Proof.
  intros Ha Hb. induction a as [|x a IH]; simpl in *.
  - destruct b; [done|]. simpl. by destruct (p n).
  - apply andb_true_iff in Ha as [-> Ha]. by rewrite IH.
Qed.

Lemma drop_while_stops (p : char -> bool) l :
  match drop_while p l with [] => true | x :: _ => negb (p x) end = true.
Proof. induction l as [|x l IH]; simpl; [done|]. destruct (p x) eqn:E; [done|]. simpl. by rewrite E. Qed.

Lemma advance_while_moved p c read c' : advance_while p c = (read, c') ->
  moved c c' read /\ read = take_while p (cur_rest c) /\ cur_rest c' = drop_while p (cur_rest c).
Proof.
  unfold advance_while. intros [= <- <-].
  destruct (skip_many_app c (take_while p (cur_rest c)) (drop_while p (cur_rest c))) as [M R];
    [by rewrite take_while_prefix|done].
Qed.

Lemma consume_moved c x c' : consume c x = Some c' -> moved c c' [x].
Proof.
  unfold consume, peeks, peek. destruct (cur_rest c) as [|y rest] eqn:R; simpl; [done|].
  destruct (N.eqb_spec y x) as [->|]; [|done]. intros [= <-]. by eapply skip_moved.
Qed.

Lemma peeks_true c x : peeks c x = true -> exists rest, cur_rest c = x :: rest.
Proof.
  unfold peeks, peek. destruct (cur_rest c) as [|y rest]; simpl; [done|]. intros ->%N.eqb_eq. eauto.
Qed.

(** ** Scans that end *)

(** [m] does not run out, and what it answers satisfies [Q]. *)
Definition sound {A} (m : Scan A) (Q : A -> Prop) : Prop :=
  match m with Scanned a => Q a | Rejected _ => True | OutOfFuel => False end.

Lemma sound_bind {A B} (m : Scan A) (k : A -> Scan B) P Q :
  sound m P -> (forall a, P a -> sound (k a) Q) -> sound (scan_bind m k) Q.
Proof. destruct m; simpl; auto. Qed.

Lemma sound_mono {A} (m : Scan A) (P Q : A -> Prop) : sound m P -> (forall a, P a -> Q a) -> sound m Q.
Proof. destruct m; simpl; auto. Qed.

(** ** Trivia *)

(** [Trivia read rest]: whitespace and comments, before [rest]. *)
Inductive Trivia : chars -> chars -> Prop :=
| trivia_none rest : Trivia [] rest
| trivia_space x read rest : is_whitespace x = true -> Trivia read rest -> Trivia (x :: read) rest
| trivia_comment body read rest :
    forallb (fun x => negb (is_break x)) body = true ->
    match read ++ rest with [] => True | x :: _ => is_break x = true end ->
    Trivia read rest -> Trivia (ch "/" :: ch "/" :: body ++ read) rest.

Lemma trivia_spaces spaces read rest :
  forallb is_whitespace spaces = true -> Trivia read rest -> Trivia (spaces ++ read) rest.
Proof.
  induction spaces as [|x spaces IH]; simpl; [done|]. intros [Hx Hs]%andb_true_iff Ht.
  constructor; auto.
Qed.

Lemma skip_trivia_sound fuel : forall c comments, (length (cur_rest c) < fuel)%nat ->
  sound (skip_trivia fuel c comments) (fun '(c', _) =>
    exists read, moved c c' read /\ Trivia read (cur_rest c')).
Proof.
  induction fuel as [|fuel IH]; intros c comments Hf; [lia|]. cbn [skip_trivia].
  destruct (advance_while is_whitespace c) as [spaces c1] eqn:E1.
  pose proof (take_while_all is_whitespace (cur_rest c)) as Hs.
  apply advance_while_moved in E1 as (M1 & E1 & R1). rewrite <- E1 in Hs.
  destruct (_ && _) eqn:Ec.
  - apply andb_true_iff in Ec as [[rest Rc]%peeks_true Hn].
    destruct (advance_while _ c1) as [text c2] eqn:E2.
    apply advance_while_moved in E2 as (M2 & E2 & R2).
    unfold peek_next in Hn. rewrite Rc in Hn. simpl in Hn. destruct rest as [|y rest]; [done|].
    simpl in Hn. apply N.eqb_eq in Hn as ->. rewrite Rc in E2. cbn in E2.
    pose proof (moved_length _ _ _ M1) as L1. pose proof (moved_length _ _ _ M2) as L2.
    eapply sound_mono; [apply IH; rewrite E2 in L2; simpl in L2; lia|].
    intros [c3 k] (read & M3 & T). exists (spaces ++ text ++ read).
    split; [by eapply moved_trans, moved_trans|]. apply trivia_spaces; [done|]. rewrite E2. simpl.
    apply trivia_comment; [apply take_while_all| |done].
    destruct M3 as (R3 & _). rewrite <- R3, R2.
    pose proof (drop_while_stops (fun x => negb (is_break x)) (cur_rest c1)) as Hd.
    destruct (drop_while (fun x => negb (is_break x)) (cur_rest c1)); [done|].
    by rewrite negb_involutive in Hd.
  - exists spaces. split; [done|]. rewrite <- (app_nil_r spaces). apply trivia_spaces; [done|constructor].
Qed.

(** ** Integers *)

(** Digits with single separators between them, after a digit or, with
    [separated], after a separator. *)
Fixpoint digits_after (separated : bool) (read : chars) : bool :=
  match read with
  | [] => negb separated
  | x :: read =>
      if is_digit x then digits_after false read
      else (x =? ch "_")%N && negb separated && digits_after true read
  end.

Lemma integer_loop_sound rest : forall start previous c, cur_rest c = rest ->
  sound (integer_loop rest start previous c) (fun '(read, last, c') =>
    moved c c' read /\ (last = false -> digits_after previous read = true)
    /\ match cur_rest c' with [] => True | x :: _ => name_char x = false end).
Proof.
  induction rest as [|x rest IH]; intros start previous c R; simpl.
  - rewrite R. split_and!; [apply moved_refl|by intros ->|done].
  - destruct (is_digit x) eqn:D.
    + eapply sound_bind; [by apply (IH start false (step c x rest))|].
      intros [[read last] c'] (M & Hd & Hn). split_and!; [|simpl; by rewrite D|done].
      by apply (moved_trans _ _ _ [x] read (moved_step c x rest R)).
    + destruct (x =? ch "_")%N eqn:U.
      * destruct previous; [done|]. eapply sound_bind; [by apply (IH start true (step c x rest))|].
        intros [[read last] c'] (M & Hd & Hn). split_and!; [|simpl; by rewrite D, U|done].
        by apply (moved_trans _ _ _ [x] read (moved_step c x rest R)).
      * destruct (is_alphabetic x) eqn:A; [done|]. simpl. rewrite R.
        split_and!; [apply moved_refl|by intros ->|]. unfold name_char, is_alphanumeric. by rewrite A, D, U.
Qed.

(** ** Escapes and holes *)

Definition unicode_digits (digits : chars) : Prop :=
  digits <> [] /\ (length digits <= 6)%nat /\ forallb is_hexdigit digits = true
  /\ is_char (from_hex digits) = true.

(** The escapes of a string: what follows the backslash, and the character. *)
Inductive Escapes : chars -> char -> Prop :=
| escapes_simple x y : simple_escape x = Some y -> Escapes [x] y
| escapes_unicode digits : unicode_digits digits ->
    Escapes (ch "u" :: ch "{" :: digits ++ [ch "}"]) (from_hex digits).

Lemma forallb_take {A} (p : A -> bool) n l : forallb p l = true -> forallb p (take n l) = true.
Proof.
  revert l. induction n as [|n IH]; intros [|x l]; simpl; try done.
  intros [-> H]%andb_true_iff. by apply IH.
Qed.

Lemma take_while_length (p : char -> bool) l : (length (take_while p l) <= length l)%nat.
Proof. induction l as [|x l IH]; simpl; [lia|]. destruct (p x); simpl; lia. Qed.

Lemma unicode_escape_sound escape_start c :
  sound (unicode_escape escape_start c) (fun '(x, c') =>
    exists read, moved c c' read /\ Escapes (ch "u" :: read) x).
Proof.
  unfold unicode_escape. destruct (consume c (ch "{")) as [c1|] eqn:E1; [|done].
  apply consume_moved in E1. set (digits := take_while is_hexdigit (take 6 (cur_rest c1))).
  assert (exists rest, cur_rest c1 = digits ++ rest) as [rest R].
  { exists (drop_while is_hexdigit (take 6 (cur_rest c1)) ++ drop 6 (cur_rest c1)).
    unfold digits. by rewrite app_assoc, take_while_prefix, take_drop. }
  destruct (skip_many_app c1 digits rest R) as [M2 R2].
  assert (length digits <= 6)%nat as Hl.
  { unfold digits. etrans; [apply take_while_length|]. rewrite length_take. lia. }
  assert (forallb is_hexdigit digits = true) as Hd by apply take_while_all.
  clearbody digits. destruct digits as [|d digits]; [done|].
  destruct (consume _ (ch "}")) as [c3|] eqn:E3; [|done]. apply consume_moved in E3.
  destruct (is_char (from_hex (d :: digits))) eqn:S; [|done]. simpl.
  exists ([ch "{"] ++ (d :: digits) ++ [ch "}"]). split; [by eapply moved_trans, moved_trans|].
  by apply (escapes_unicode (d :: digits)).
Qed.

Lemma escape_sound string_start c :
  sound (escape string_start c) (fun '(x, c') => exists read, moved c c' read /\ Escapes read x).
Proof.
  unfold escape. destruct (advance c) as [[x c1]|] eqn:E; [|done]. apply advance_Some in E.
  destruct (simple_escape x) as [y|] eqn:S; [exists [x]; by split; [|constructor]|].
  destruct (N.eqb_spec x (ch "u")) as [->|]; [|done].
  eapply sound_mono; [apply unicode_escape_sound|]. intros [y c2] (read & M & Hr).
  exists ([ch "u"] ++ read). by split; [eapply moved_trans|].
Qed.

Lemma path_names_spec parts at_ :
  match path_names parts at_ with
  | Some path => forallb is_name parts = true /\ map fst path = map text_from parts
  | None => forallb is_name parts = false
  end.
Proof.
  revert at_. induction parts as [|part parts IH]; intros at_; simpl; [done|].
  destruct (is_name part); [|done]. specialize (IH (at_ + width part + 1)).
  destruct (path_names _ _) as [path|]; simpl; [|done]. destruct IH as [-> ->]. done.
Qed.

(** [hole_path] accepts exactly the contents [accepts_path] describes. *)
Lemma hole_path_accepts content start :
  is_ok (hole_path content start) = accepts_path content.
Proof.
  unfold hole_path, accepts_path. case_bool_decide; [done|]. simpl.
  pose proof (path_names_spec (segments content) start) as P.
  destruct (path_names _ _); [by destruct P as [-> _]|by rewrite P].
Qed.

Lemma skip_quoted_sound fuel : forall c, (length (cur_rest c) < fuel)%nat ->
  sound (skip_quoted fuel c) (fun o =>
    match o with Some c' => exists read, read <> [] /\ moved c c' read | None => True end).
Proof.
  induction fuel as [|fuel IH]; intros c Hf; [lia|]. cbn [skip_quoted].
  destruct (advance c) as [[x c1]|] eqn:E; [|done]. apply advance_Some in E.
  pose proof (moved_length _ _ _ E) as L1. simpl in L1.
  assert (forall c2 read, moved c1 c2 read -> sound (skip_quoted fuel c2) (fun o =>
    match o with Some c' => exists read, read <> [] /\ moved c c' read | None => True end)) as Go.
  { intros c2 read M. pose proof (moved_length _ _ _ M). eapply sound_mono; [apply IH; lia|].
    intros [c3|]; [|done]. intros (r & _ & M3). exists ([x] ++ read ++ r).
    split; [done|]. by eapply moved_trans, moved_trans. }
  destruct (is_break x); [done|]. destruct (x =? quote)%N; [exists [x]; by split|].
  destruct (x =? backslash)%N; [|by eapply Go, moved_refl].
  unfold peek. destruct (cur_rest c1) as [|y rest] eqn:R; cbn [head]; [by eapply Go, moved_refl|].
  destruct (is_break y); [by eapply Go, moved_refl|by eapply Go, skip_moved].
Qed.

Lemma hole_end_sound fuel : forall depth c, (length (cur_rest c) < fuel)%nat ->
  sound (hole_end fuel depth c) (fun o =>
    match o with
    | Some c' => exists read rest, moved c c' read /\ cur_rest c' = ch ")" :: rest
    | None => True
    end).
Proof.
  induction fuel as [|fuel IH]; intros depth c Hf; [lia|]. cbn [hole_end]. unfold peek.
  destruct (cur_rest c) as [|x rest] eqn:R; cbn [head]; [done|]. simpl in Hf.
  pose proof (skip_moved c x rest R) as M. pose proof (moved_length _ _ _ M) as L. rewrite R in L. simpl in L.
  assert (forall d c2 read, moved c c2 (x :: read) -> sound (hole_end fuel d c2) (fun o =>
    match o with
    | Some c' => exists read rest, moved c c' read /\ cur_rest c' = ch ")" :: rest
    | None => True
    end)) as Go.
  { intros d c2 read M2. pose proof (moved_length _ _ _ M2) as L2. rewrite R in L2. simpl in L2.
    eapply sound_mono; [apply IH; lia|]. intros [c3|]; [|done]. intros (r & s & M3 & R3).
    exists ((x :: read) ++ r), s. by split; [eapply moved_trans|]. }
  destruct (is_break x); [done|]. destruct (_ && _) eqn:E.
  { apply andb_true_iff in E as [->%N.eqb_eq _]. exists [], rest. by split; [apply moved_refl|]. }
  destruct (x =? quote)%N; [|by eapply Go].
  eapply sound_bind; [apply skip_quoted_sound; cbn [length]; lia|]. intros [c2|]; [|done].
  intros (read & _ & M2). apply (Go depth c2 read). by apply (moved_trans c (skip c) c2 [x] read).
Qed.

Lemma join_segments content : join_dots (segments content) = content.
Proof.
  unfold segments. induction content as [|x content IH]; [done|]. simpl.
  pose proof (split_by_nonempty (fun x => (x =? ch ".")%N) content) as Hn.
  destruct (N.eqb_spec x (ch ".")) as [->|]; destruct (split_by _ content) as [|p ps]; try done; simpl.
  - by rewrite <- IH.
  - rewrite <- IH. by destruct ps.
Qed.

(** A hole: the names between its parentheses. *)
Definition hole_names (names : list chars) : Prop := names <> [] /\ forallb is_name names = true.

Lemma hole_sound hole_start c rest : cur_rest c = ch "(" :: rest ->
  sound (hole hole_start c) (fun '(path, _, c') =>
    exists names, hole_names names /\ map fst path = map text_from names
      /\ moved c c' (ch "(" :: join_dots names ++ [ch ")"])).
Proof.
  intros R. unfold hole. pose proof (skip_moved c _ _ R) as M.
  eapply sound_bind; [apply hole_end_sound; lia|]. intros [close|]; [|done].
  intros (read & after & M2 & R2). pose proof (skip_moved close _ _ R2) as M3.
  assert (between (skip c) close = read) as ->.
  { unfold between. rewrite (moved_length _ _ _ M2). destruct M2 as (-> & _).
    replace (_ + _ - _)%nat with (length read) by lia. by rewrite take_app_length. }
  destruct (hole_path read _) as [path|] eqn:P; [|done]. exists (segments read). simpl.
  unfold hole_path in P. case_bool_decide; [done|].
  pose proof (path_names_spec (segments read) (cur_at (skip c))) as S.
  destruct (path_names _ _) as [path'|]; [|done]. injection P as ->. destruct S as [Hn Hm].
  split; [split; [apply split_by_nonempty|done]|]. split; [done|]. rewrite join_segments.
  apply (moved_trans c (skip c) (skip close) [ch "("] (read ++ [ch ")"])); [done|].
  by eapply moved_trans.
Qed.

(** ** Strings *)

Inductive Piece : Type := PieceChar (c : char) | PieceHole (names : list string).

(** [Decodes plain body pieces]: the body of a string, whose unescaped
    characters are [plain], and what it stands for. *)
Inductive Decodes (plain : char -> bool) : chars -> list Piece -> Prop :=
| decodes_end : Decodes plain [] []
| decodes_plain x body pieces :
    plain x = true -> Decodes plain body pieces -> Decodes plain (x :: body) (PieceChar x :: pieces)
| decodes_escape read y body pieces :
    Escapes read y -> Decodes plain body pieces ->
    Decodes plain (backslash :: read ++ body) (PieceChar y :: pieces)
| decodes_hole names body pieces :
    hole_names names -> Decodes plain body pieces ->
    Decodes plain (backslash :: (ch "(" :: join_dots names ++ [ch ")"]) ++ body)
      (PieceHole (map text_from names) :: pieces).

Definition plain_in_string (x : char) : bool :=
  negb (x =? quote)%N && negb (is_break x) && negb (x =? backslash)%N.

(** A part without its spans. *)
Definition erase_part (p : TemplatePart) : string + list string :=
  match p with TextPart value _ => inl value | HolePart path _ => inr (map fst path) end.

Definition flushed (text : chars) : list (string + list string) :=
  match text with [] => [] | _ => [inl (text_from text)] end.

(** The parts of a string that stands for [pieces], after [text]. *)
Fixpoint grouped (text : chars) (pieces : list Piece) : list (string + list string) :=
  match pieces with
  | [] => flushed text
  | PieceChar c :: pieces => grouped (text ++ [c]) pieces
  | PieceHole names :: pieces => flushed text ++ inr names :: grouped [] pieces
  end.

Definition has_hole (pieces : list Piece) : bool :=
  existsb (fun p => match p with PieceHole _ => true | _ => false end) pieces.
Definition piece_chars (pieces : list Piece) : chars :=
  omap (fun p => match p with PieceChar c => Some c | _ => None end) pieces.

(** The text of a builder is empty exactly when it has no span. *)
Definition builder_ok (b : PartsBuilder) : Prop := built_text b = [] <-> built_span b = None.

(** [b'] is [b] after [pieces]. *)
Definition built (b b' : PartsBuilder) (pieces : list Piece) : Prop :=
  builder_ok b' /\
  (forall more, map erase_part (built_parts b') ++ grouped (built_text b') more
     = map erase_part (built_parts b) ++ grouped (built_text b) (pieces ++ more))
  /\ has_holes b' = has_holes b || has_hole pieces
  /\ (has_hole pieces = false -> built_text b' = built_text b ++ piece_chars pieces).

Lemma built_refl b : builder_ok b -> built b b [].
Proof. intros Hb. split_and!; [done|done|by rewrite orb_false_r|by rewrite app_nil_r]. Qed.

Lemma built_trans b1 b2 b3 p1 p2 : built b1 b2 p1 -> built b2 b3 p2 -> built b1 b3 (p1 ++ p2).
Proof.
  intros (_ & P1 & H1 & T1) (O & P2 & H2 & T2). split_and!; [done| | |].
  - intros more. by rewrite P2, P1, app_assoc.
  - unfold has_hole in *. rewrite existsb_app. by rewrite H2, H1, orb_assoc.
  - unfold has_hole in *. rewrite existsb_app. intros [F1 F2]%orb_false_iff.
    rewrite T2, T1 by done. unfold piece_chars. by rewrite omap_app, app_assoc.
Qed.

Lemma built_char b x span : builder_ok b -> built b (push_text b x span) [PieceChar x].
Proof.
  intros Hb. split_and!; [|done|by rewrite orb_false_r|done].
  unfold builder_ok. simpl. by destruct (built_text b).
Qed.

Lemma built_hole b path span : builder_ok b -> built b (push_hole b path span) [PieceHole (map fst path)].
Proof.
  unfold builder_ok, push_hole, flush_text, built, has_holes. intros Hb.
  destruct (built_span b) as [s|] eqn:S; simpl.
  - assert (built_text b <> []) as Hn by (intros E; by apply Hb in E).
    split_and!; [done| | |done].
    + intros more. rewrite !map_app, <- !app_assoc. simpl. by destruct (built_text b).
    + destruct (built_parts b); simpl; done.
  - assert (built_text b = []) as Hn by by apply Hb. rewrite Hn, S.
    split_and!; [done| | |done].
    + intros more. rewrite !map_app, <- !app_assoc. done.
    + by destruct (built_parts b).
Qed.

Lemma moved_nonempty_length c c' x read fuel : moved c c' (x :: read) ->
  (length (cur_rest c) < S fuel)%nat -> (length (cur_rest c') < fuel)%nat.
Proof. intros M%moved_length. simpl in M. lia. Qed.

Lemma string_loop_sound fuel : forall start b c, (length (cur_rest c) < fuel)%nat -> builder_ok b ->
  sound (string_loop fuel start b c) (fun '(b', c') =>
    exists body pieces, moved c c' (body ++ [quote]) /\ Decodes plain_in_string body pieces
      /\ built b b' pieces).
Proof.
  induction fuel as [|fuel IH]; intros start b c Hf Hb; [lia|]. cbn [string_loop].
  destruct (advance c) as [[x c1]|] eqn:E; [|done]. apply advance_Some in E.
  destruct (N.eqb_spec x quote) as [->|Hq].
  { exists [], []. by split_and!; [|constructor|apply built_refl]. }
  destruct (is_break x) eqn:Hk; [done|].
  assert (forall read c2 b2 ps, moved c1 c2 read -> built b b2 ps ->
    (forall body pieces, Decodes plain_in_string body pieces ->
       Decodes plain_in_string ((x :: read) ++ body) (ps ++ pieces)) ->
    sound (string_loop fuel start b2 c2) (fun '(b', c') =>
      exists body pieces, moved c c' (body ++ [quote]) /\ Decodes plain_in_string body pieces
        /\ built b b' pieces)) as Go.
  { intros read c2 b2 ps M B D. pose proof (moved_trans _ _ _ [x] read E M) as M2.
    eapply sound_mono; [apply IH; [by eapply moved_nonempty_length|by destruct B]|].
    intros [b3 c3] (body & pieces & M3 & D3 & B3). exists ((x :: read) ++ body), (ps ++ pieces).
    split_and!; [rewrite <- app_assoc; by eapply moved_trans|by apply D|by eapply built_trans]. }
  destruct (N.eqb_spec x backslash) as [->|Hs].
  - destruct (peeks c1 (ch "(")) eqn:P.
    + apply peeks_true in P as [rest R]. eapply sound_bind; [by eapply hole_sound|].
      intros [[path span] c2] (names & Hn & Hp & M2). eapply Go; [exact M2|by apply built_hole|].
      intros body pieces D. rewrite Hp. by apply decodes_hole.
    + eapply sound_bind; [apply escape_sound|]. intros [y c2] (read & M2 & He).
      eapply Go; [exact M2|by apply built_char|]. intros body pieces D. by apply decodes_escape.
  - eapply (Go []); [apply moved_refl|by apply built_char|]. intros body pieces D.
    apply decodes_plain; [|done]. unfold plain_in_string. rewrite Hk.
    by destruct (N.eqb_spec x quote), (N.eqb_spec x backslash).
Qed.

(** ** Text blocks *)

Definition no_break (cs : chars) : Prop := forallb (fun x => negb (is_break x)) cs = true.
Definition plain_in_block (x : char) : bool := negb (is_break x) && negb (x =? backslash)%N.

Lemma no_break_app a b : no_break (a ++ b) <-> no_break a /\ no_break b.
Proof. unfold no_break. rewrite forallb_app. apply andb_true_iff. Qed.

Lemma name_no_break x : name_char x = true -> negb (is_break x) = true.
Proof.
  unfold name_char, is_alphanumeric, is_alphabetic, is_digit, is_break, char_in.
  intros Hx. apply negb_true_iff, orb_false_iff. rewrite !N.eqb_neq.
  unfold newline, carriage_return, ch in *. cbn in Hx. rewrite !orb_true_iff, !andb_true_iff, !N.leb_le, N.eqb_eq in Hx. lia.
Qed.

Lemma hexdigit_no_break x : is_hexdigit x = true -> negb (is_break x) = true.
Proof.
  unfold is_hexdigit, is_digit, is_break, char_in. intros Hx.
  apply negb_true_iff, orb_false_iff. rewrite !N.eqb_neq. unfold newline, carriage_return.
  rewrite !orb_true_iff, !andb_true_iff, !N.leb_le in Hx. lia.
Qed.

Lemma forallb_weaken {A} (p q : A -> bool) l :
  (forall x, p x = true -> q x = true) -> forallb p l = true -> forallb q l = true.
Proof. rewrite !forallb_forall. auto. Qed.

Lemma name_segment_no_break segment : is_name segment = true -> no_break segment.
Proof.
  unfold is_name. intros [[_ Hs]%andb_true_iff _]%andb_true_iff.
  by eapply forallb_weaken, Hs; apply name_no_break.
Qed.

Lemma join_no_break names : forallb is_name names = true -> no_break (join_dots names).
Proof.
  induction names as [|n names IH]; [done|]. simpl. intros [Hn%name_segment_no_break Hs]%andb_true_iff.
  destruct names as [|m names]; [done|]. apply no_break_app. split; [done|]. by apply IH.
Qed.

Lemma escapes_no_break read y : Escapes read y -> no_break read.
Proof.
  destruct 1 as [x y Hs|digits (_ & _ & Hd & _)].
  - unfold simple_escape in Hs. unfold no_break. simpl. rewrite andb_true_r.
    repeat (case_match; [match goal with H : (_ =? _)%N = true |- _ => apply N.eqb_eq in H as -> end; done|]).
    done.
  - change (ch "u" :: ch "{" :: digits ++ [ch "}"]) with ([ch "u"; ch "{"] ++ digits ++ [ch "}"]).
    rewrite !no_break_app. split; [done|]. split; [|done]. by eapply forallb_weaken, Hd; apply hexdigit_no_break.
Qed.

(** What is read without a break stays within the line. *)
Lemma read_within_line read rest line after :
  read ++ rest = line ++ after -> no_break read ->
  match after with [] => False | x :: _ => is_break x = true end ->
  exists line', line = read ++ line' /\ rest = line' ++ after.
Proof.
  revert line. induction read as [|x read IH]; intros line E Hn Ha; [by exists line|].
  unfold no_break in Hn. simpl in Hn. apply andb_true_iff in Hn as [Hx Hn].
  destruct line as [|y line]; simpl in *.
  - destruct after as [|z after]; [done|]. injection E as -> _. by rewrite Ha in Hx.
  - injection E as -> E. destruct (IH line E Hn Ha) as (line' & -> & ->). by exists line'.
Qed.

(** A line of a text block and what it stands for: no three quotes in a row but
    escaped ones. *)
Inductive DecodesLine : chars -> list Piece -> Prop :=
| line_end : DecodesLine [] []
| line_plain x body pieces :
    plain_in_block x = true -> starts_with quotes3 (x :: body) = false -> DecodesLine body pieces ->
    DecodesLine (x :: body) (PieceChar x :: pieces)
| line_escape read y body pieces :
    Escapes read y -> DecodesLine body pieces -> DecodesLine (backslash :: read ++ body) (PieceChar y :: pieces)
| line_hole names body pieces :
    hole_names names -> DecodesLine body pieces ->
    DecodesLine (backslash :: (ch "(" :: join_dots names ++ [ch ")"]) ++ body)
      (PieceHole (map text_from names) :: pieces).

(** Quotes ahead are the line's own. *)
Lemma quotes_within_line line after : match after with [] => False | x :: _ => is_break x = true end ->
  starts_with [quote; quote] (line ++ after) = starts_with [quote; quote] line.
Proof.
  intros Ha. assert (forall l, starts_with (quote :: l) after = false) as Hq.
  { intros l. destruct after as [|z after]; [done|]. cbn [starts_with]. rewrite bool_decide_false; [done|]. by intros <-. }
  destruct line as [|x [|y line]]; cbn [app]; [apply Hq| |done].
  change (bool_decide (quote = x) && starts_with [quote] after = bool_decide (quote = x) && false). by rewrite Hq.
Qed.

Lemma line_loop_sound fuel : forall start stop b c line after,
  (length (cur_rest c) < fuel)%nat -> builder_ok b -> cur_rest c = line ++ after -> no_break line ->
  match after with [] => False | x :: _ => is_break x = true end -> stop = cur_at c + width line ->
  sound (line_loop fuel start stop b c) (fun b' =>
    exists pieces, DecodesLine line pieces /\ built b b' pieces).
Proof.
  induction fuel as [|fuel IH]; intros start stop b c line after Hf Hb R Hl Ha Hs; [lia|].
  cbn [line_loop]. destruct line as [|x line].
  { rewrite (proj2 (Z.leb_le stop (cur_at c))) by (simpl in Hs; lia).
    exists []. by split; [constructor|apply built_refl]. }
  pose proof (len_utf8_pos x). pose proof (width_nonneg line). cbn [width foldr] in Hs.
  fold (width line) in Hs. rewrite (proj2 (Z.leb_gt stop (cur_at c))) by lia.
  unfold advance. rewrite R. cbn [app]. set (c1 := step c x (line ++ after)).
  pose proof (moved_step c x _ R) as M. fold c1 in M.
  apply andb_true_iff in Hl as [Hx Hl]. fold (no_break line) in Hl.
  assert (forall read c2 b2 ps, moved c1 c2 read -> no_break read -> built b b2 ps ->
    (forall body pieces, line = read ++ body -> DecodesLine body pieces ->
       DecodesLine ((x :: read) ++ body) (ps ++ pieces)) ->
    sound (line_loop fuel start stop b2 c2) (fun b' =>
      exists pieces, DecodesLine (x :: line) pieces /\ built b b' pieces)) as Go.
  { intros read c2 b2 ps M2 Hr B D. destruct (read_within_line read (cur_rest c2) line after) as (line' & -> & R2).
    { destruct M2 as (E & _). by rewrite <- E. } { done. } { done. }
    pose proof (moved_trans _ _ _ [x] read M M2) as M3. apply no_break_app in Hl as [_ Hl'].
    eapply sound_mono; [apply (IH start stop b2 c2 line' after)|].
    - by eapply moved_nonempty_length.
    - by destruct B.
    - done.
    - done.
    - done.
    - destruct M3 as (_ & A3 & _). rewrite A3. rewrite width_app in Hs. simpl. unfold width in *. lia.
    - intros b' (pieces & D' & B'). exists (ps ++ pieces).
      split; [by apply (D line' pieces)|by eapply built_trans]. }
  change (cur_rest c1) with (line ++ after). rewrite quotes_within_line by done.
  destruct (_ && starts_with _ _) eqn:Q; [done|].
  destruct (N.eqb_spec x backslash) as [->|Hb']; cbn [andb].
  - destruct (peeks c1 (ch "(")) eqn:P.
    + apply peeks_true in P as [rest Rp]. eapply sound_bind; [by eapply hole_sound|].
      intros [[path span] c2] (names & Hn & Hp & M2). eapply Go; [exact M2| |by apply built_hole|].
      * change (ch "(" :: join_dots names ++ [ch ")"]) with ([ch "("] ++ join_dots names ++ [ch ")"]).
        rewrite !no_break_app. split; [done|]. split; [|done]. by apply join_no_break; destruct Hn.
      * intros body pieces _ D. rewrite Hp. by apply line_hole.
    + destruct (_ =? _); [done|]. eapply sound_bind; [apply escape_sound|].
      intros [y c2] (read & M2 & He). eapply Go; [exact M2|by eapply escapes_no_break|by apply built_char|].
      intros body pieces _ D. by apply line_escape.
  - eapply (Go []); [apply moved_refl|done|by apply built_char|]. intros body pieces E D. cbn [app] in E. subst body.
    apply line_plain; [|by rewrite N.eqb_sym in Q; unfold quotes3; cbn [starts_with] in *; case_bool_decide; subst|done].
    unfold plain_in_block. rewrite Hx. by destruct (N.eqb_spec x backslash).
Qed.

Definition is_line_break (brk : chars) : Prop :=
  brk = [newline] \/ brk = [carriage_return] \/ brk = [carriage_return; newline].

Lemma line_break_at_spec rest n : line_break_at rest = Some n ->
  exists brk after, rest = brk ++ after /\ length brk = n /\ is_line_break brk.
Proof.
  unfold line_break_at, is_break, is_line_break. destruct rest as [|x [|y rest]]; [done| |].
  - destruct (N.eqb_spec x newline) as [->|]; [intros [= <-]; exists [newline], []; by auto|].
    destruct (N.eqb_spec x carriage_return) as [->|]; [|done]. intros [= <-].
    exists [carriage_return], []. by auto.
  - destruct (N.eqb_spec x carriage_return) as [->|Hx], (N.eqb_spec y newline) as [->|Hy]; cbn [andb].
    + intros [= <-]. exists [carriage_return; newline], rest. by auto.
    + rewrite orb_true_r. intros [= <-]. exists [carriage_return], (y :: rest). by auto.
    + destruct (N.eqb_spec x newline) as [->|]; [|done]. intros [= <-]. exists [newline], (newline :: rest). by auto.
    + destruct (N.eqb_spec x newline) as [->|]; [|done]. intros [= <-]. exists [newline], (y :: rest). by auto.
Qed.

(** The content of a block's line: what follows the closing indentation, or
    nothing when the line is blank. *)
Definition line_content (indentation line raw : chars) : Prop :=
  line = indentation ++ raw
  \/ starts_with indentation line = false /\ forallb is_indent line = true /\ raw = [].

(** The content lines of a block with their breaks, what is kept of them, and
    what they stand for: the lines joined by line feeds. *)
Inductive BlockLines (indentation : chars) : bool -> chars -> list chars -> list Piece -> Prop :=
| block_end first : BlockLines indentation first [] [] []
| block_line first line brk raw pieces rest raws more :
    no_break line -> line_content indentation line raw -> DecodesLine raw pieces ->
    is_line_break brk -> BlockLines indentation false rest raws more ->
    BlockLines indentation first (line ++ brk ++ rest) (raw :: raws)
      ((if first then [] else [PieceChar newline]) ++ pieces ++ more).

(** Lines as [block_lines] collects them, from one cursor to another. *)
Inductive Collected : Cursor -> list Line -> Cursor -> chars -> Prop :=
| collected_end c : Collected c [] c []
| collected_line c line brk c1 lines c2 body :
    no_break line -> is_line_break brk -> moved c c1 (line ++ brk) -> Collected c1 lines c2 body ->
    Collected c (mkLine c line :: lines) c2 (line ++ brk ++ body).

Lemma collected_snoc c lines c1 body line brk c2 :
  Collected c lines c1 body -> no_break line -> is_line_break brk -> moved c1 c2 (line ++ brk) ->
  Collected c (lines ++ [mkLine c1 line]) c2 (body ++ line ++ brk).
Proof.
  induction 1 as [c|c l k c1 lines c3 body Hl Hk M C IH]; intros Hline Hbrk M2; cbn [app].
  - rewrite <- (app_nil_r (line ++ brk)), <- app_assoc. econstructor; [done|done|done|constructor].
  - rewrite <- !app_assoc. econstructor; [done|done|done|by apply IH].
Qed.

Lemma collected_moved c lines c' body : Collected c lines c' body -> moved c c' body.
Proof.
  induction 1 as [c|c line brk c1 lines c2 body Hl Hk M C IH]; [apply moved_refl|].
  rewrite app_assoc. by eapply moved_trans.
Qed.

Lemma starts_with_app_spec (p l : chars) : starts_with p l = true -> exists rest, l = p ++ rest.
Proof. intros H%starts_with_spec. exact H. Qed.

Lemma block_lines_sound fuel : forall opening c0 lines c body,
  (length (cur_rest c) < fuel)%nat -> Collected c0 lines c body ->
  sound (block_lines fuel opening lines c) (fun '(lines', indentation, close) =>
    exists c' body' rest, Collected c0 lines' c' body' /\ moved c' close indentation
      /\ forallb is_indent indentation = true /\ cur_rest close = quotes3 ++ rest).
Proof.
  induction fuel as [|fuel IH]; intros opening c0 lines c body Hf C; [lia|]. cbn [block_lines].
  set (line := line_of c). assert (cur_rest c = line ++ drop_while (fun x => negb (is_break x)) (cur_rest c)) as R
    by (unfold line, line_of; by rewrite take_while_prefix).
  set (indentation := take_while is_indent line).
  assert (line = indentation ++ drop_while is_indent line) as I
    by (unfold indentation; by rewrite take_while_prefix).
  assert (drop (length indentation) line = drop_while is_indent line) as ->
    by (rewrite I at 1; by rewrite drop_app_length).
  destruct (starts_with quotes3 _) eqn:Q.
  - apply starts_with_app_spec in Q as [q Q].
    destruct (skip_many_app c indentation (quotes3 ++ q ++ drop_while (fun x => negb (is_break x)) (cur_rest c)))
      as [M R']; [rewrite R at 1; by rewrite I at 1; rewrite Q, <- !app_assoc|].
    exists c, body, (q ++ drop_while (fun x => negb (is_break x)) (cur_rest c)).
    split_and!; [done|done|apply take_while_all|done].
  - destruct (skip_many_app c line _ R) as [M R'].
    destruct (line_break_at _) as [n|] eqn:B; [|done].
    apply line_break_at_spec in B as (brk & after & E & <- & Hk). rewrite R' in E.
    destruct (skip_many_app (skip_many (length line) c) brk after) as [M2 R2]; [by rewrite R'|].
    pose proof (moved_trans _ _ _ _ _ M M2) as M3. pose proof (moved_length _ _ _ M3) as L.
    assert (0 < length brk)%nat by (destruct Hk as [->|[->| ->]]; simpl; lia).
    rewrite length_app in L.
    eapply IH; [lia|]. eapply collected_snoc; [exact C|apply take_while_all|exact Hk|exact M3].
Qed.

Lemma break_head brk after : is_line_break brk ->
  match brk ++ after with [] => False | x :: _ => is_break x = true end.
Proof. by intros [->|[->| ->]]. Qed.

(** Where the content of a line starts and what is kept of the line. *)
Lemma content_of_sound indentation c line after : cur_rest c = line ++ after ->
  sound (content_of indentation (mkLine c line)) (fun content =>
    exists read raw, line = read ++ raw /\ moved c content read /\ cur_rest content = raw ++ after
      /\ line_content indentation line raw).
Proof.
  intros R. unfold content_of. cbn [line_text line_cursor].
  destruct (starts_with indentation line) eqn:S.
  - pose proof S as [raw ->]%starts_with_app_spec.
    destruct (skip_many_app c indentation (raw ++ after)) as [M R']; [by rewrite app_assoc|].
    exists indentation, raw. by split_and!; [| | |left].
  - destruct (forallb is_indent line) eqn:I; [|done].
    destruct (skip_many_app c line after R) as [M R'].
    exists line, []. rewrite app_nil_r. by split_and!; [| | |right].
Qed.

Lemma content_lines_sound start indentation c lines c' body : Collected c lines c' body ->
  forall previous b raw, builder_ok b ->
  sound (content_lines start indentation previous lines b raw) (fun '(b', raw') =>
    exists raws pieces,
      BlockLines indentation (bool_decide (previous = None)) body raws pieces
      /\ raw' = raw ++ map text_from raws /\ built b b' pieces).
Proof.
  induction 1 as [c|c line brk c1 lines c2 body Hl Hk M C IH]; intros previous b raw Hb; cbn [content_lines].
  { exists [], []. split; [constructor|]. by rewrite app_nil_r; split; [|apply built_refl]. }
  set (b1 := match previous with Some _ => _ | None => b end).
  assert (built b b1 (if bool_decide (previous = None) then [] else [PieceChar newline])) as B1.
  { unfold b1. destruct previous; [by rewrite bool_decide_false; [apply built_char|]|].
    rewrite bool_decide_true by done. by apply built_refl. }
  pose proof M as (R & _). rewrite <- app_assoc in R.
  eapply sound_bind; [by apply content_of_sound|].
  intros content (read & kept & El & Mc & Rc & Hc). cbn [line_text line_cursor].
  assert (take (length line - (length (cur_rest c) - length (cur_rest content))) (cur_rest content) = kept) as ->.
  { rewrite R, Rc, El, !length_app. replace (_ - _)%nat with (length kept) by lia. by rewrite take_app_length. }
  pose proof Hl as Hl'. rewrite El in Hl'. apply no_break_app in Hl' as [_ Hkept].
  eapply sound_bind.
  { eapply (line_loop_sound _ _ _ _ _ kept); [lia|by destruct B1|exact Rc|done|by apply break_head|].
    destruct Mc as (_ & -> & _). unfold line_stop, line_start. cbn [line_text line_cursor]. rewrite El, width_app. lia. }
  intros b2 (pieces & D & B2).
  eapply sound_mono; [apply IH; by destruct B2|]. intros [b3 raw'] (raws & more & HB & -> & B3).
  exists (kept :: raws), ((if bool_decide (previous = None) then [] else [PieceChar newline]) ++ pieces ++ more).
  split; [|split].
  - econstructor; [done|done|done|done|]. by rewrite bool_decide_false in HB.
  - cbn [map]. by rewrite <- app_assoc.
  - eapply built_trans; [exact B1|]. by eapply built_trans.
Qed.

(** ** The spelling of a token *)

(** The fixed spelling of a token that has one. *)
Definition fixed_spelling (kind : TokenKind) : option string :=
  match kind with
  | TLet => Some "let" | TFn => Some "fn" | TWebhook => Some "webhook" | TIf => Some "if"
  | TElse => Some "else" | TMatch => Some "match" | TRecord => Some "record" | TTrue => Some "true"
  | TFalse => Some "false" | TLeftParen => Some "(" | TRightParen => Some ")" | TLeftBrace => Some "{"
  | TRightBrace => Some "}" | TLeftBracket => Some "[" | TRightBracket => Some "]" | TComma => Some ","
  | TColon => Some ":" | TSemicolon => Some ";" | TQuestion => Some "?" | TDot => Some "."
  | TEqual => Some "=" | TEqualEqual => Some "==" | TBang => Some "!" | TBangEqual => Some "!="
  | TLess => Some "<" | TLessEqual => Some "<=" | TGreater => Some ">" | TGreaterEqual => Some ">="
  | TPlus => Some "+" | TMinus => Some "-" | TStar => Some "*" | TSlash => Some "/"
  | TPercent => Some "%" | TAndAnd => Some "&&" | TOrOr => Some "||" | TDotDot => Some ".."
  | TFatArrow => Some "=>" | TThinArrow => Some "->"
  | TIdentifier _ | TInteger _ | TString _ | TTemplate _ | TEof => None
  end.

Definition without_separators (cs : chars) : chars := List.filter (fun x => negb (x =? ch "_")%N) cs.

Inductive Spells : TokenKind -> chars -> Prop :=
| spells_fixed kind text : fixed_spelling kind = Some text -> Spells kind (ascii_chars text)
| spells_identifier cs : is_name cs = true -> Spells (TIdentifier (text_from cs)) cs
| spells_integer first read :
    is_digit first = true -> digits_after false read = true ->
    Spells (TInteger (text_from (without_separators (first :: read)))) (first :: read)
| spells_string body pieces :
    Decodes plain_in_string body pieces -> has_hole pieces = false ->
    Spells (TString (text_from (piece_chars pieces))) (quote :: body ++ [quote])
| spells_template body pieces parts :
    Decodes plain_in_string body pieces -> has_hole pieces = true ->
    map erase_part parts = grouped [] pieces ->
    Spells (TTemplate (mkTemplate parts None)) (quote :: body ++ [quote])
| spells_block brk indentation body raws pieces parts :
    is_line_break brk -> forallb is_indent indentation = true ->
    BlockLines indentation true body raws pieces -> map erase_part parts = grouped [] pieces ->
    Spells (TTemplate (mkTemplate parts (Some (map text_from raws))))
      (quotes3 ++ brk ++ body ++ indentation ++ quotes3).

Lemma built_finish b pieces : built no_parts b pieces -> map erase_part (finish b) = grouped [] pieces.
Proof.
  intros (Hok & P & _). specialize (P []). rewrite app_nil_r in P. cbn in P. rewrite <- P.
  unfold finish, flush_text. unfold builder_ok in Hok. destruct (built_span b) as [s|] eqn:S; cbn.
  - rewrite map_app. f_equal. cbn. destruct (built_text b) eqn:T; [|done]. by destruct Hok as [Hok _]; specialize (Hok eq_refl).
  - assert (built_text b = []) as -> by by apply Hok. by rewrite app_nil_r.
Qed.

Lemma no_parts_ok : builder_ok no_parts.
Proof. done. Qed.

Lemma string_token_sound start c :
  sound (string_token start c) (fun '(token, c') =>
    exists read, moved c c' read /\ Spells (token_kind token) (quote :: read)
      /\ token_span token = mkSpan start (cur_at c')).
Proof.
  unfold string_token. eapply sound_bind; [apply string_loop_sound; [lia|apply no_parts_ok]|].
  intros [b c'] (body & pieces & M & D & B). exists (body ++ [quote]). split; [done|]. split; [|done].
  pose proof B as (_ & _ & Hh & Ht). cbn in Hh, Ht. cbn [token_kind]. rewrite Hh.
  destruct (has_hole pieces) eqn:E.
  - eapply spells_template; [exact D|done|by apply built_finish].
  - rewrite Ht by done. by apply spells_string.
Qed.

Lemma text_block_sound start c rest : cur_rest c = quote :: quote :: rest ->
  sound (text_block start c) (fun '(token, c') =>
    exists read, moved c c' read /\ Spells (token_kind token) (quote :: read)
      /\ token_span token = mkSpan start (cur_at c')).
Proof.
  intros R. unfold text_block.
  destruct (skip_many_app c [quote; quote] rest R) as [M1 R1]. cbn [length] in M1, R1.
  destruct (line_break_at _) as [n|] eqn:B; [|by destruct (cur_rest (skip_many 2 c))].
  apply line_break_at_spec in B as (brk & after & E & <- & Hk).
  destruct (skip_many_app _ brk after E) as [M2 R2].
  eapply sound_bind; [eapply block_lines_sound; [|constructor]|].
  { pose proof (moved_length _ _ _ M2). lia. }
  intros [[lines indentation] close] (c2 & body & rest2 & C & M3 & Hi & R3).
  eapply sound_bind; [apply (content_lines_sound _ _ _ _ _ _ C), no_parts_ok|].
  intros [b raw] (raws & pieces & HB & -> & B). simpl app.
  destruct (skip_many_app close quotes3 rest2 R3) as [M4 _]. cbn [length quotes3] in M4.
  apply collected_moved in C.
  exists ([quote; quote] ++ brk ++ body ++ indentation ++ quotes3). split; [|split; [|done]].
  - eapply moved_trans; [exact M1|]. eapply moved_trans; [exact M2|]. eapply moved_trans; [exact C|].
    by eapply moved_trans.
  - cbn [token_kind]. change (quote :: [quote; quote] ++ ?l) with (quotes3 ++ l).
    eapply spells_block; [done|done|exact HB|by apply built_finish].
Qed.
