(* ===== verification/LexComplete.v ===== *)
(** * Lexing covers the text

    Every text is lexed or refused, never left undecided; an accepted text is
    exactly the spellings of its tokens with trivia between them, at the spans
    the tokens carry. *)

From S2P Require Import Prelude Utf8 Syntax Tokens Lexer LexerFacts.

(** ** One token *)

Lemma utf8_ascii c : (c < 0x80)%N -> utf8_char c = [byte_of c].
Proof. intros H. unfold utf8_char. by rewrite (proj2 (N.ltb_lt c 0x80)). Qed.

Lemma ascii_chars_text cs : Forall (fun c => (c < 0x80)%N) cs -> ascii_chars (text_from cs) = cs.
Proof.
  unfold ascii_chars, text_from. rewrite bytes_of_str_of. induction 1 as [|c cs Hc _ IH]; [done|].
  change (utf8 (c :: cs)) with (utf8_char c ++ utf8 cs). rewrite utf8_ascii by done. cbn [app map].
  rewrite IH, byte_val_of by lia. done.
Qed.

Lemma name_char_ascii c : name_char c = true -> (c < 0x80)%N.
Proof.
  unfold name_char, is_alphanumeric, is_alphabetic, is_digit, char_in, ch. cbn.
  rewrite !orb_true_iff, !andb_true_iff, !N.leb_le, N.eqb_eq. lia.
Qed.

Lemma name_start_char c : name_start c = true -> name_char c = true.
Proof. unfold name_start, name_char, is_alphanumeric. intros [->| ->]%orb_true_iff; [done|by rewrite orb_true_r]. Qed.

Lemma names_ascii cs : forallb name_char cs = true -> Forall (fun c => (c < 0x80)%N) cs.
Proof. rewrite forallb_forall, List.Forall_forall. auto using name_char_ascii. Qed.

Lemma keyword_spelling word kind : keyword word = Some kind -> fixed_spelling kind = Some word.
Proof. unfold keyword. repeat case_bool_decide; intros [= <-]; subst; done. Qed.

Lemma identifier_sound start x c : name_start x = true ->
  let '(token, c') := identifier start x c in
  exists read, moved c c' read /\ Spells (token_kind token) (x :: read)
    /\ token_span token = mkSpan start (cur_at c').
Proof.
  intros Hx. unfold identifier. destruct (advance_while name_char c) as [read c'] eqn:E.
  pose proof (take_while_all name_char (cur_rest c)) as Ha.
  apply advance_while_moved in E as (M & E & _). rewrite <- E in Ha. exists read.
  split; [done|]. split; [|done]. cbn [token_kind].
  assert (forallb name_char (x :: read) = true) as Hn by (simpl; by rewrite name_start_char).
  destruct (keyword (text_from (x :: read))) as [kind|] eqn:K; simpl default.
  - apply keyword_spelling in K. rewrite <- (ascii_chars_text (x :: read)) by by apply names_ascii.
    by apply spells_fixed.
  - apply spells_identifier. unfold is_name. by rewrite Hx, Hn, K.
Qed.

Lemma integer_sound start x c : is_digit x = true ->
  sound (integer start x c) (fun '(token, c') =>
    exists read, moved c c' read /\ Spells (token_kind token) (x :: read)
      /\ token_span token = mkSpan start (cur_at c')).
Proof.
  intros Hx. unfold integer. eapply sound_bind; [by apply integer_loop_sound|].
  intros [[read last] c'] (M & Hd & _). destruct last; [done|]. exists read.
  split; [done|]. split; [|done]. apply spells_integer; auto.
Qed.

Lemma longer_sound x c second kind other kind' c' :
  fixed_spelling kind = Some (String (ascii_of_N x) (String second EmptyString)) -> (x < 0x80)%N ->
  match consume c (ch second) with Some c => Some (kind, c) | None => other end = Some (kind', c') ->
  (other = Some (kind', c') -> exists read, moved c c' read /\ Spells kind' (x :: read)) ->
  exists read, moved c c' read /\ Spells kind' (x :: read).
Proof.
  intros Hk Hx E Ho. destruct (consume c (ch second)) as [c1|] eqn:C; [|auto].
  injection E as <- <-. apply consume_moved in C. exists [ch second]. split; [done|].
  apply spells_fixed in Hk. unfold ascii_chars in Hk. cbn in Hk. unfold byte_val in Hk at 1.
  by rewrite N_ascii_embedding in Hk by lia.
Qed.

Lemma one_sound x c kind kind' c' :
  fixed_spelling kind = Some (String (ascii_of_N x) EmptyString) -> (x < 0x80)%N ->
  Some (kind, c) = Some (kind', c') -> exists read, moved c c' read /\ Spells kind' (x :: read).
Proof.
  intros Hk Hx [= <- <-]. exists []. split; [apply moved_refl|].
  apply spells_fixed in Hk. unfold ascii_chars in Hk. cbn in Hk. unfold byte_val in Hk.
  by rewrite N_ascii_embedding in Hk by lia.
Qed.

Lemma punctuation_sound x c kind c' : punctuation x c = Some (kind, c') ->
  exists read, moved c c' read /\ Spells kind (x :: read).
Proof.
  unfold punctuation.
  repeat (case_match; [match goal with H : (_ =? _)%N = true |- _ => apply N.eqb_eq in H as -> end;
    repeat (intros ?; first
      [ by eapply one_sound; [| |eassumption]
      | done
      | eapply longer_sound; [| |eassumption|]; [done|done|] ]) |]).
  done.
Qed.

Lemma token_from_sound start x c :
  sound (token_from start x c) (fun '(token, c') =>
    exists read, moved c c' read /\ Spells (token_kind token) (x :: read)
      /\ token_span token = mkSpan start (cur_at c')).
Proof.
  unfold token_from. destruct (name_start x) eqn:Hn; [by apply identifier_sound|].
  destruct (is_digit x) eqn:Hd; [by apply integer_sound|].
  destruct (N.eqb_spec x quote) as [->|].
  - destruct (starts_with _ _) eqn:S; [|apply string_token_sound].
    apply starts_with_app_spec in S as [rest R]. exact (text_block_sound start c rest R).
  - destruct (punctuation x c) as [[kind c']|] eqn:P; [|done].
    apply punctuation_sound in P as (read & M & S). by exists read.
Qed.

(** ** Whole texts *)

(** [Lexed text at_ tokens]: [text], found at byte [at_], is trivia and the
    spellings of [tokens], at their spans. *)
Inductive Lexed : chars -> Z -> list Token -> Prop :=
| lexed_end trivia at_ :
    Trivia trivia [] ->
    Lexed trivia at_ [mkToken TEof (mkSpan (at_ + width trivia) (at_ + width trivia))]
| lexed_token trivia spelling rest at_ kind tokens :
    Trivia trivia (spelling ++ rest) -> Spells kind spelling -> spelling <> [] ->
    Lexed rest (at_ + width trivia + width spelling) tokens ->
    Lexed (trivia ++ spelling ++ rest) at_
      (mkToken kind (mkSpan (at_ + width trivia) (at_ + width trivia + width spelling)) :: tokens).

Lemma scan_loop_sound fuel : forall c tokens comments, (length (cur_rest c) < fuel)%nat ->
  sound (scan_loop fuel c tokens comments) (fun lexed =>
    exists more, lexed_tokens lexed = tokens ++ more /\ Lexed (cur_rest c) (cur_at c) more).
Proof.
  induction fuel as [|fuel IH]; intros c tokens comments Hf; [lia|]. cbn [scan_loop].
  eapply sound_bind; [apply skip_trivia_sound; lia|]. intros [c1 comments1] (trivia & M1 & T).
  destruct (advance c1) as [[x c2]|] eqn:E.
  - apply advance_Some in E. eapply sound_bind; [apply token_from_sound|].
    intros [token c3] (read & M3 & S & Hs). pose proof (moved_trans _ _ _ [x] read E M3) as M2.
    eapply sound_mono; [apply IH|].
    { apply moved_length in M1. apply moved_length in M2. cbn in M2. lia. }
    intros lexed (more & -> & L). exists (token :: more). split; [by rewrite <- app_assoc|].
    destruct token as [kind span]. cbn in S, Hs. subst span.
    pose proof M1 as (R1 & A1 & _). pose proof M2 as (R2 & A2 & _). rewrite R1, R2.
    rewrite A2, A1 in L |- *. apply lexed_token; [by rewrite R2 in T|done|done|done].
  - apply advance_None in E. exists [mkToken TEof (mkSpan (cur_at c1) (cur_at c1))]. split; [done|].
    destruct M1 as (R1 & A1 & _). rewrite R1, A1, E, app_nil_r. rewrite E in T. by constructor.
Qed.

(** ** Claims *)

(** C8: Lexing is total and covers the text.  The lexer accepts or refuses
    every text, and when it accepts, the text is exactly a sequence of trivia
    (whitespace and line comments) and token spellings, each token carrying
    the byte span of its spelling and the meaning the lexical grammar gives it:
    keywords and punctuation their fixed text, identifiers a name that is no
    keyword, integers their digits without single inner separators, strings
    and text blocks their escapes decoded, indentation removed, breaks
    normalized and holes split into names; the last token is the end of file
    at the text's length. *)
Theorem lex_covers (text : chars) :
  match lex text with
  | Scanned tokens => Lexed text 0 tokens
  | Rejected _ => True
  | OutOfFuel => False
  end.
Proof.
  unfold lex, lex_with_comments.
  pose proof (scan_loop_sound (S (length text)) (cursor_at_start text) [] [] ltac:(simpl; lia)) as H.
  destruct (scan_loop _ _ _ _) as [lexed|d|]; [|done|done]. simpl in *.
  destruct H as (more & -> & L). done.
Qed.

(** * The lexer accepts the lexical grammar

    The converse of [LexerFacts] for one-line tokens: a spelling of a token
    that is followed by a space or the end of the text is read as that token. *)

(** [m] accepts [read], starting at [c], and answers a value in [Q]. *)
Definition accepts {A} (m : Scan (A * Cursor)) (c : Cursor) (read : chars) (Q : A -> Prop) : Prop :=
  exists a c', m = Scanned (a, c') /\ moved c c' read /\ Q a.

Lemma moved_rest c c' read rest : moved c c' read -> cur_rest c = read ++ rest -> cur_rest c' = rest.
Proof. intros (R & _) E. rewrite E in R. by apply app_inv_head in R. Qed.

Lemma advance_cons c x rest : cur_rest c = x :: rest -> advance c = Some (x, step c x rest).
Proof. intros R. unfold advance. by rewrite R. Qed.

Lemma consume_cons c x rest : cur_rest c = x :: rest -> consume c x = Some (step c x rest).
Proof.
  intros R. unfold consume, peeks, peek, skip, advance. rewrite R. cbn [head].
  by rewrite N.eqb_refl.
Qed.

(** ** Escapes *)

Lemma unicode_escape_complete escape_start c digits rest : unicode_digits digits ->
  cur_rest c = ch "{" :: digits ++ ch "}" :: rest ->
  accepts (unicode_escape escape_start c) c (ch "{" :: digits ++ [ch "}"]) (eq (from_hex digits)).
Proof.
  intros (Hn & Hl & Hd & Hs) R. unfold accepts, unicode_escape. rewrite (consume_cons _ _ _ R).
  set (c1 := step c _ _). assert (moved c c1 [ch "{"]) as M1 by by apply moved_step.
  change (cur_rest c1) with (digits ++ ch "}" :: rest).
  assert (take_while is_hexdigit (take 6 (digits ++ ch "}" :: rest)) = digits) as ->.
  { rewrite take_app, (take_ge digits 6) by done. apply take_while_app; [done|].
    by destruct (6 - length digits)%nat. }
  destruct (skip_many_app c1 digits (ch "}" :: rest) eq_refl) as [M2 R2].
  rewrite (consume_cons _ _ _ R2). destruct digits as [|d digits]; [done|]. rewrite Hs.
  do 2 eexists. split; [done|]. split; [|done].
  eapply (moved_trans _ _ _ [ch "{"]); [done|]. eapply moved_trans; [done|]. by apply moved_step.
Qed.

Lemma escape_complete string_start c read y rest : Escapes read y -> cur_rest c = read ++ rest ->
  accepts (escape string_start c) c read (eq y).
Proof.
  intros He R. unfold escape. destruct He as [x y Hs|digits Hd].
  - rewrite (advance_cons _ _ _ R), Hs. do 2 eexists. split; [done|]. split; [by apply moved_step|done].
  - cbn [app] in R. rewrite <- app_assoc in R. cbn [app] in R.
    rewrite (advance_cons _ _ _ R). change (simple_escape (ch "u")) with (@None char). rewrite N.eqb_refl.
    destruct (unicode_escape_complete (usize_saturating_sub (cur_at c) 1)
      (step c (ch "u") (ch "{" :: digits ++ ch "}" :: rest)) digits rest Hd eq_refl)
      as (y & c' & -> & M & ->).
    do 2 eexists. split; [done|]. split; [|done]. by apply (moved_trans _ _ _ [ch "u"] _ (moved_step _ _ _ R)).
Qed.

Lemma escapes_head read y : Escapes read y -> exists x read', read = x :: read' /\ x <> ch "(".
Proof.
  destruct 1 as [x y Hs|digits _].
  - exists x, []. split; [done|]. by intros ->.
  - by exists (ch "u"), (ch "{" :: digits ++ [ch "}"]).
Qed.

(** ** Holes *)

(** The characters of a path. *)
Definition path_char (x : char) : bool := name_char x || (x =? ch ".")%N.

Lemma path_char_plain x : path_char x = true ->
  is_break x = false /\ (x =? ch ")")%N = false /\ (x =? quote)%N = false /\ (x =? ch "(")%N = false
  /\ is_whitespace x = false.
Proof.
  unfold path_char, name_char, is_alphanumeric, is_alphabetic, is_digit, is_break, char_in,
    is_whitespace, newline, carriage_return, quote.
  intros Hx. unfold ch in *. cbn in Hx |- *.
  rewrite !orb_true_iff, !andb_true_iff, !N.leb_le, !N.eqb_eq in Hx.
  rewrite !orb_false_iff, !andb_false_iff, !N.eqb_neq, !N.leb_gt. lia.
Qed.

Lemma hole_end_complete content : forall fuel c rest, (length content < fuel)%nat ->
  forallb path_char content = true -> cur_rest c = content ++ ch ")" :: rest ->
  exists c', hole_end fuel 0 c = Scanned (Some c') /\ moved c c' content.
Proof.
  induction content as [|x content IH]; intros [|fuel] c rest Hf Hc R; cbn [length] in Hf; try lia; cbn [hole_end];
    unfold peek; rewrite R; cbn [head app].
  - exists c. split; [done|apply moved_refl].
  - cbn [forallb] in Hc. apply andb_true_iff in Hc as [(-> & H1 & -> & H2 & _)%path_char_plain Hc].
    rewrite H1, H2. cbn [andb]. pose proof (skip_moved c _ _ R) as M.
    destruct (IH fuel (skip c) rest) as (c' & -> & M'); [lia|done|by eapply (moved_rest _ _ [x])|].
    exists c'. split; [done|]. by apply (moved_trans _ _ _ [x] content M).
Qed.

Lemma join_cons n m names : join_dots (n :: m :: names) = n ++ ch "." :: join_dots (m :: names).
Proof. done. Qed.

Lemma join_path_chars names : forallb is_name names = true -> forallb path_char (join_dots names) = true.
Proof.
  assert (forall n, is_name n = true -> forallb path_char n = true) as Hn.
  { intros n [[_ Hs]%andb_true_iff _]%andb_true_iff. eapply forallb_weaken, Hs.
    intros x Hx. unfold path_char. by rewrite Hx. }
  induction names as [|n names IH]; [done|]. cbn [forallb]. intros [H Hs]%andb_true_iff.
  destruct names as [|m names]; [by apply Hn|].
  rewrite join_cons, forallb_app.
  apply andb_true_iff. split; [by apply Hn|]. cbn [forallb]. by rewrite IH.
Qed.

Lemma split_join_cons (p : char -> bool) part d rest :
  forallb (fun x => negb (p x)) part = true -> p d = true ->
  split_by p (part ++ d :: rest) = part :: split_by p rest.
Proof.
  intros Hp Hd. induction part as [|x part IH]; cbn.
  - by rewrite Hd.
  - cbn in Hp. apply andb_true_iff in Hp as [Hx%negb_true_iff Hp]. rewrite Hx, (IH Hp). done.
Qed.

Lemma split_join_last (p : char -> bool) part :
  forallb (fun x => negb (p x)) part = true -> split_by p part = [part].
Proof.
  induction part as [|x part IH]; cbn; [done|]. intros [Hx%negb_true_iff Hp]%andb_true_iff.
  by rewrite Hx, (IH Hp).
Qed.

Lemma name_no_dot n : is_name n = true -> forallb (fun x => negb (x =? ch ".")%N) n = true.
Proof.
  intros [[_ Hs]%andb_true_iff _]%andb_true_iff. eapply forallb_weaken, Hs. intros x Hx.
  apply negb_true_iff, N.eqb_neq. by intros ->.
Qed.

Lemma segments_join names : hole_names names -> segments (join_dots names) = names.
Proof.
  intros [Hn Hs]. unfold segments. induction names as [|n names IH]; [done|]. cbn in Hs.
  apply andb_true_iff in Hs as [H Hs]. apply name_no_dot in H. destruct names as [|m names].
  - by apply split_join_last.
  - rewrite join_cons, split_join_cons by done. by rewrite (IH ltac:(done) Hs).
Qed.

Lemma drop_while_all (p : char -> bool) l : drop_while p l = [] -> forallb p l = true.
Proof. induction l as [|x l IH]; cbn; [done|]. by destruct (p x). Qed.

Lemma trim_nonempty x cs : is_whitespace x = false -> trim (x :: cs) <> [].
Proof.
  intros Hx E. unfold trim in E.
  replace (drop_while is_whitespace (x :: cs)) with (x :: cs) in E by (cbn; by rewrite Hx).
  apply (f_equal reverse) in E. rewrite reverse_involutive in E. apply drop_while_all in E.
  rewrite forallb_forall in E. specialize (E x).
  rewrite E in Hx; [done|]. apply list_elem_of_In, elem_of_reverse. by left.
Qed.

Lemma join_head names : hole_names names ->
  exists x cs, join_dots names = x :: cs /\ is_whitespace x = false.
Proof.
  intros [Hn Hs]. pose proof (join_path_chars names Hs) as Hp. destruct names as [|n names]; [done|].
  cbn [forallb] in Hs. apply andb_true_iff in Hs as [H _]. destruct n as [|x n]; [done|].
  destruct names as [|m names]; cbn [join_dots] in Hp |- *; exists x; eexists; (split; [done|]);
    cbn [forallb app] in Hp; by apply andb_true_iff in Hp as [(_ & _ & _ & _ & ?)%path_char_plain _].
Qed.

Lemma hole_complete hole_start c names rest : hole_names names ->
  cur_rest c = (ch "(" :: join_dots names ++ [ch ")"]) ++ rest ->
  exists path span c', hole hole_start c = Scanned (path, span, c')
    /\ moved c c' (ch "(" :: join_dots names ++ [ch ")"]) /\ map fst path = map text_from names.
Proof.
  intros Hn R. cbn [app] in R. rewrite <- app_assoc in R. cbn [app] in R. unfold hole.
  pose proof (skip_moved c _ _ R) as M1. pose proof (moved_rest _ _ [ch "("] _ M1 R) as R1.
  destruct (hole_end_complete (join_dots names) (S (length (cur_rest (skip c)))) (skip c) rest)
    as (close & -> & M2).
  { rewrite R1, length_app. lia. } { by apply join_path_chars; destruct Hn. } { done. }
  cbn [scan_bind]. pose proof (moved_rest _ _ _ _ M2 R1) as R2.
  assert (between (skip c) close = join_dots names) as ->.
  { unfold between. rewrite R1, R2, !length_app. replace (_ + _ - _)%nat with (length (join_dots names)) by lia.
    by rewrite take_app_length. }
  unfold hole_path. destruct (join_head names Hn) as (x & cs & Ej & Hx).
  rewrite bool_decide_false by (rewrite Ej; by apply trim_nonempty).
  rewrite segments_join by done. pose proof (path_names_spec names (cur_at (skip c))) as P.
  destruct (path_names _ _) as [path|]; [|by destruct Hn as [_ Hs]; rewrite Hs in P].
  exists path. do 2 eexists. split; [done|]. split; [|by destruct P].
  apply (moved_trans _ _ _ [ch "("] _ M1). eapply moved_trans; [exact M2|]. by eapply skip_moved.
Qed.

(** ** Strings *)

Lemma string_loop_complete body pieces : Decodes plain_in_string body pieces ->
  forall fuel start b c rest, (length body < fuel)%nat -> builder_ok b ->
  cur_rest c = body ++ quote :: rest ->
  accepts (string_loop fuel start b c) c (body ++ [quote]) (fun b' => built b b' pieces).
Proof.
  induction 1 as [|x body pieces Hx D IH|read y body pieces He D IH|names body pieces Hn D IH];
    intros [|fuel] start b c rest Hf Hb R; cbn [length] in Hf; try lia;
    cbn [string_loop]; cbn [app] in R; rewrite <- ?app_assoc in R; cbn [app] in R;
    rewrite (advance_cons _ _ _ R); pose proof (moved_step _ _ _ R) as M.
  - rewrite N.eqb_refl. do 2 eexists. split; [done|]. split; [done|by apply built_refl].
  - unfold plain_in_string in Hx. apply andb_true_iff in Hx as [[->%negb_true_iff ->%negb_true_iff]%andb_true_iff
      ->%negb_true_iff].
    edestruct (IH fuel start) as (b' & c' & -> & M' & B'); [lia|by apply (built_char b x)|done|].
    do 2 eexists. split; [done|]. split; [by apply (moved_trans _ _ _ [x] _ M)|].
    by eapply (built_trans _ _ _ [_]); [apply built_char|].
  - change (backslash =? quote)%N with false. change (is_break backslash) with false.
    rewrite N.eqb_refl. set (c1 := step c _ _) in *. destruct (escapes_head _ _ He) as (x & read' & Er & Hx).
    assert (cur_rest c1 = read ++ body ++ quote :: rest) as R1 by (unfold c1; cbn [step cur_rest app]; by rewrite <- ?app_assoc).
    assert (peeks c1 (ch "(") = false) as ->.
    { unfold peeks, peek. rewrite R1, Er. cbn [app head]. by apply N.eqb_neq. }
    destruct (escape_complete start c1 read y (body ++ quote :: rest) He R1) as (y' & c2 & -> & M2 & <-).
    cbn [scan_bind]. rewrite length_app in Hf.
    edestruct (IH fuel start) as (b' & c' & -> & M' & B');
      [lia|by apply (built_char b y)|by eapply moved_rest|].
    do 2 eexists. split; [done|]. split.
    + cbn [app]. rewrite <- app_assoc. apply (moved_trans _ _ _ [backslash] _ M). by eapply moved_trans.
    + by eapply (built_trans _ _ _ [_]); [apply built_char|].
  - change (backslash =? quote)%N with false. change (is_break backslash) with false.
    rewrite N.eqb_refl. set (c1 := step c _ _) in *.
    assert (cur_rest c1 = (ch "(" :: join_dots names ++ [ch ")"]) ++ body ++ quote :: rest) as R1 by (unfold c1; cbn [step cur_rest app]; by rewrite <- ?app_assoc).
    assert (peeks c1 (ch "(") = true) as -> by (unfold peeks, peek; by rewrite R1).
    destruct (hole_complete (cur_at c) c1 names _ Hn R1) as (path & span & c2 & -> & M2 & Hp).
    cbn [scan_bind]. rewrite length_app in Hf.
    edestruct (IH fuel start) as (b' & c' & -> & M' & B');
      [lia|by apply (built_hole b path span)|by eapply moved_rest|].
    do 2 eexists. split; [done|]. split.
    + cbn [app]. rewrite <- app_assoc. apply (moved_trans _ _ _ [backslash] _ M).
      apply (moved_trans _ _ _ _ _ M2 M').
    + rewrite <- Hp. by eapply (built_trans _ _ _ [_]); [apply built_hole|].
Qed.

(** ** Text blocks *)

(** The content lines of a block joined by line feeds, and what they stand for. *)
Inductive Joined : bool -> list chars -> list Piece -> Prop :=
| joined_end first : Joined first [] []
| joined_line first raw pieces raws more :
    no_break raw -> DecodesLine raw pieces -> Joined false raws more ->
    Joined first (raw :: raws) ((if first then [] else [PieceChar newline]) ++ pieces ++ more).

Lemma block_joined indentation first body raws pieces :
  BlockLines indentation first body raws pieces -> Joined first raws pieces.
Proof.
  induction 1 as [|first line brk raw pieces rest raws more Hl Hc D _ _ IH]; constructor; [|done..].
  destruct Hc as [->|(_ & _ & ->)]; [|done]. by apply no_break_app in Hl as [_ ?].
Qed.

(** A line of a block at an indentation; an empty one stays empty. *)
Definition indented (indentation raw : chars) : chars := match raw with [] => [] | _ :: _ => indentation ++ raw end.
(** A block with its lines at an indentation, ended by line feeds. *)
Definition indented_lines (indentation : chars) (raws : list chars) : chars :=
  flat_map (fun raw => indented indentation raw ++ [newline]) raws.
Definition block_at (indentation : chars) (raws : list chars) : chars :=
  quotes3 ++ [newline] ++ indented_lines indentation raws ++ indentation ++ quotes3.

(** A content line never reads as the closing delimiter. *)
Lemma line_not_closing raw pieces : DecodesLine raw pieces -> starts_with quotes3 (drop_while is_indent raw) = false.
Proof.
  induction 1 as [|x body pieces Hx Hq D IH|read y body pieces He D IH|names body pieces Hn D IH]; [done| |done|done].
  cbn [drop_while]. by destruct (is_indent x).
Qed.

Lemma line_loop_step c x line after : cur_rest c = (x :: line) ++ after ->
  moved c (step c x (line ++ after)) [x] /\ cur_at c < cur_at c + width (x :: line)
  /\ advance c = Some (x, step c x (line ++ after)).
Proof.
  intros R. split; [by apply moved_step|]. split; [|by apply advance_cons].
  rewrite len_utf8_width. pose proof (len_utf8_pos x). pose proof (width_nonneg line). lia.
Qed.

Lemma line_loop_complete line pieces : DecodesLine line pieces ->
  forall fuel start b c after, (length line < fuel)%nat -> builder_ok b -> cur_rest c = line ++ newline :: after ->
  exists b', line_loop fuel start (cur_at c + width line) b c = Scanned b' /\ built b b' pieces.
Proof.
  induction 1 as [|x body pieces Hx Hq D IH|read y body pieces He D IH|names body pieces Hn D IH];
    intros [|fuel] start b c after Hf Hb R; cbn [length] in Hf; try lia; cbn [line_loop].
  { exists b. rewrite (proj2 (Z.leb_le _ _)) by (cbn; lia). by split; [|apply built_refl]. }
  - destruct (line_loop_step _ _ _ _ R) as (M & Hw & A). rewrite (proj2 (Z.leb_gt _ _) Hw), A.
    set (c1 := step c _ _) in *.
    assert ((x =? quote)%N && starts_with [quote; quote] (cur_rest c1) = false) as ->.
    { unfold c1. cbn [step cur_rest]. rewrite quotes_within_line by done. unfold quotes3 in Hq. cbn [starts_with] in Hq |- *.
      destruct (N.eqb_spec x quote) as [->|]; [|done]. by rewrite bool_decide_true in Hq. }
    unfold plain_in_block in Hx. apply andb_true_iff in Hx as [_ ->%negb_true_iff]. cbn [andb].
    edestruct (IH fuel start (push_text b x (mkSpan (cur_at c) (cur_at c1))) c1 after) as (b' & E & B');
      [lia|by apply built_char|done|].
    exists b'. split; [|by eapply (built_trans _ _ _ [_]); [apply built_char|]].
    rewrite <- E. f_equal. destruct M as (_ & -> & _). by rewrite <- !Z.add_assoc, <- !width_app.
  - destruct (line_loop_step _ _ _ _ R) as (M & Hw & A). rewrite (proj2 (Z.leb_gt _ _) Hw), A.
    set (c1 := step c _ _) in *.
    change (backslash =? quote)%N with false. rewrite N.eqb_refl. cbn [andb].
    destruct (escapes_head _ _ He) as (x & read' & Er & Hx).
    assert (cur_rest c1 = read ++ body ++ newline :: after) as R1 by (unfold c1; cbn [step cur_rest app]; by rewrite <- ?app_assoc).
    assert (peeks c1 (ch "(") = false) as ->.
    { unfold peeks, peek. rewrite R1, Er. cbn [app head]. by apply N.eqb_neq. }
    destruct M as (_ & A1 & _). rewrite (proj2 (Z.eqb_neq _ _)).
    2: { rewrite A1, Er. cbn [app width foldr]. fold (width (read' ++ body)). pose proof (len_utf8_pos x).
         pose proof (width_nonneg (read' ++ body)). lia. }
    destruct (escape_complete start c1 read y (body ++ newline :: after) He R1) as (y' & c2 & -> & M2 & <-).
    cbn [scan_bind]. rewrite length_app in Hf.
    edestruct (IH fuel start (push_text b y (mkSpan (cur_at c) (cur_at c2))) c2 after) as (b' & E & B');
      [lia|by apply built_char|by eapply moved_rest|].
    exists b'. split; [|by eapply (built_trans _ _ _ [_]); [apply built_char|]].
    rewrite <- E. f_equal. destruct M2 as (_ & -> & _). rewrite A1. by rewrite <- !Z.add_assoc, <- !width_app.
  - destruct (line_loop_step _ _ _ _ R) as (M & Hw & A). rewrite (proj2 (Z.leb_gt _ _) Hw), A.
    set (c1 := step c _ _) in *.
    change (backslash =? quote)%N with false. rewrite N.eqb_refl. cbn [andb].
    assert (cur_rest c1 = (ch "(" :: join_dots names ++ [ch ")"]) ++ body ++ newline :: after) as R1
      by (unfold c1; cbn [step cur_rest app]; by rewrite <- ?app_assoc).
    assert (peeks c1 (ch "(") = true) as -> by (unfold peeks, peek; by rewrite R1).
    destruct (hole_complete (cur_at c) c1 names _ Hn R1) as (path & span & c2 & -> & M2 & Hp).
    cbn [scan_bind]. cbn [length app] in Hf. rewrite !length_app in Hf.
    edestruct (IH fuel start (push_hole b path span) c2 after) as (b' & E & B');
      [lia|by apply built_hole|by eapply moved_rest|].
    exists b'. split; [|rewrite <- Hp; by eapply (built_trans _ _ _ [_]); [apply built_hole|]].
    rewrite <- E. f_equal. destruct M as (_ & A1 & _). destruct M2 as (_ & -> & _). rewrite A1.
    by rewrite <- !Z.add_assoc, <- !width_app.
Qed.

(** The lines of a block from one cursor to another. *)
Inductive Placed (indentation : chars) : Cursor -> list Line -> Cursor -> list chars -> Prop :=
| placed_end c : Placed indentation c [] c []
| placed_line c raw c1 lines c2 raws :
    moved c c1 (indented indentation raw ++ [newline]) -> Placed indentation c1 lines c2 raws ->
    Placed indentation c (mkLine c (indented indentation raw) :: lines) c2 (raw :: raws).

Lemma indent_no_break l : forallb is_indent l = true -> no_break l.
Proof.
  apply forallb_weaken. intros x. unfold is_indent, is_break. rewrite negb_true_iff, orb_true_iff, orb_false_iff.
  rewrite !N.eqb_eq, !N.eqb_neq. intros [->| ->]; done.
Qed.

Lemma indented_no_break indentation raw : forallb is_indent indentation = true -> no_break raw ->
  no_break (indented indentation raw).
Proof. intros Hi%indent_no_break Hr. destruct raw; [done|]. by apply no_break_app. Qed.

Lemma take_while_over (p : char -> bool) a b : forallb p a = true -> take_while p (a ++ b) = a ++ take_while p b.
Proof. induction a as [|x a IH]; [done|]. cbn. intros [-> Ha]%andb_true_iff. by rewrite IH. Qed.

(** A content line at the indentation does not close the block. *)
Lemma indented_not_closing indentation raw pieces : forallb is_indent indentation = true -> DecodesLine raw pieces ->
  let line := indented indentation raw in
  starts_with quotes3 (drop (length (take_while is_indent line)) line) = false.
Proof.
  intros Hi D. cbv zeta. destruct raw as [|x raw]; [done|]. unfold indented. rewrite take_while_over by done.
  rewrite length_app, <- drop_drop, drop_app_length.
  rewrite <- (take_while_prefix is_indent (x :: raw)) at 2. rewrite drop_app_length. by eapply line_not_closing.
Qed.

Lemma block_lines_complete indentation : forallb is_indent indentation = true ->
  forall first raws pieces, Joined first raws pieces -> forall fuel opening lines c rest,
  (length raws < fuel)%nat -> cur_rest c = indented_lines indentation raws ++ indentation ++ quotes3 ++ rest ->
  exists more c' close, block_lines fuel opening lines c = Scanned (lines ++ more, indentation, close)
    /\ Placed indentation c more c' raws /\ moved c close (indented_lines indentation raws ++ indentation)
    /\ cur_rest close = quotes3 ++ rest.
Proof.
  intros Hi first raws pieces J. induction J as [first|first raw pieces raws more Hn D J IH];
    intros [|fuel] opening lines c rest Hf R; cbn [length] in Hf; try lia; cbn [block_lines].
  - cbn [indented_lines flat_map app] in R. set (tail := take_while (fun x => negb (is_break x)) rest).
    assert (line_of c = indentation ++ quotes3 ++ tail) as ->.
    { unfold line_of. rewrite R, take_while_over by by apply indent_no_break. f_equal. }
    rewrite take_while_over by done. change (take_while is_indent (quotes3 ++ tail)) with (@nil char).
    rewrite app_nil_r, drop_app_length, starts_with_app.
    destruct (skip_many_app c indentation (quotes3 ++ rest) R) as [M R'].
    exists [], c, (skip_many (length indentation) c). rewrite app_nil_r. by split_and!; [|constructor| |].
  - cbn [indented_lines flat_map] in R. fold (indented_lines indentation raws) in R. rewrite <- !app_assoc in R.
    pose proof (indented_no_break indentation raw Hi Hn) as Hl. cbn [app] in R.
    assert (line_of c = indented indentation raw) as EL.
    { unfold line_of. rewrite R. by apply take_while_app. }
    rewrite EL, (indented_not_closing indentation raw pieces Hi D).
    destruct (skip_many_app c (indented indentation raw) _ R) as [M R1]. rewrite R1.
    assert (line_break_at (newline :: indented_lines indentation raws ++ indentation ++ quotes3 ++ rest) = Some 1%nat) as ->.
    { by destruct (indented_lines indentation raws ++ indentation ++ quotes3 ++ rest). }
    destruct (skip_many_app _ [newline] _ R1) as [M1 R2]. cbn [length] in M1, R2.
    destruct (IH fuel opening (lines ++ [mkLine c (indented indentation raw)]) _ rest ltac:(lia) R2)
      as (more' & c' & close & -> & P & M2 & R3).
    exists (mkLine c (indented indentation raw) :: more'), c', close. split_and!.
    + by rewrite <- app_assoc.
    + econstructor; [|exact P]. by eapply moved_trans.
    + cbn [indented_lines flat_map]. fold (indented_lines indentation raws). rewrite <- !app_assoc.
      eapply moved_trans; [exact M|]. by eapply moved_trans.
    + done.
Qed.

Lemma content_of_complete indentation c raw after : cur_rest c = indented indentation raw ++ newline :: after ->
  exists content read, content_of indentation (mkLine c (indented indentation raw)) = Scanned content
    /\ moved c content read /\ indented indentation raw = read ++ raw /\ cur_rest content = raw ++ newline :: after.
Proof.
  intros R. unfold content_of. cbn [line_text line_cursor]. destruct raw as [|x raw].
  - cbn [indented] in *. destruct (starts_with indentation []) eqn:S.
    + destruct indentation; [|done]. exists c, []. by split_and!; [|apply moved_refl| |].
    + exists c, []. by split_and!; [|apply moved_refl| |].
  - cbn [indented] in *. rewrite starts_with_app. rewrite <- app_assoc in R.
    destruct (skip_many_app c indentation _ R) as [M R']. eexists _, indentation. by split_and!.
Qed.

Lemma content_lines_complete start indentation first raws pieces : Joined first raws pieces ->
  forall previous lines c c' b raw, first = bool_decide (previous = None) -> Placed indentation c lines c' raws ->
  builder_ok b ->
  exists b', content_lines start indentation previous lines b raw = Scanned (b', raw ++ map text_from raws)
    /\ built b b' pieces.
Proof.
  induction 1 as [first|first line pieces raws more Hn D J IH]; intros previous lines c c' b raw Hp P Hb.
  { inversion P; subst. exists b. rewrite app_nil_r. by split; [|apply built_refl]. }
  inversion P as [|? ? c1 lines' ? ? M P']; subst. cbn [content_lines].
  set (b1 := match previous with Some _ => _ | None => b end).
  assert (built b b1 (if bool_decide (previous = None) then [] else [PieceChar newline])) as B1.
  { unfold b1. destruct previous; [by rewrite bool_decide_false; [apply built_char|]|].
    rewrite bool_decide_true by done. by apply built_refl. }
  pose proof M as (R & _). rewrite <- app_assoc in R.
  destruct (content_of_complete indentation c line (cur_rest c1) R) as (content & read & -> & Mc & El & Rc).
  cbn [scan_bind line_text line_cursor].
  assert (take (length (indented indentation line) - (length (cur_rest c) - length (cur_rest content))) (cur_rest content)
    = line) as ->.
  { rewrite R, Rc, El, !length_app. cbn [length app]. replace (_ - _)%nat with (length line) by lia. by rewrite take_app_length. }
  assert (line_stop (mkLine c (indented indentation line)) = cur_at content + width line) as ->.
  { unfold line_stop, line_start. cbn [line_text line_cursor]. destruct Mc as (_ & -> & _). rewrite El, width_app. lia. }
  destruct (line_loop_complete line pieces D (S (length (cur_rest content))) start b1 content (cur_rest c1))
    as (b2 & -> & B2); [rewrite Rc, length_app; lia|by destruct B1|exact Rc|]. cbn [scan_bind].
  destruct (IH (Some (mkLine c (indented indentation line))) lines' c1 c' b2 (raw ++ [text_from line]))
    as (b3 & -> & B3); [by rewrite bool_decide_false|done|by destruct B2|].
  exists b3. split; [cbn [map]; by rewrite <- app_assoc|].
  eapply built_trans; [exact B1|]. by eapply built_trans.
Qed.

Lemma text_block_complete start c indentation raws pieces rest : forallb is_indent indentation = true ->
  Joined true raws pieces ->
  cur_rest c = [quote; quote] ++ [newline] ++ indented_lines indentation raws ++ indentation ++ quotes3 ++ rest ->
  accepts (text_block start c) c ([quote; quote] ++ [newline] ++ indented_lines indentation raws ++ indentation ++ quotes3)
    (fun token => exists b, built no_parts b pieces
       /\ token_kind token = TTemplate (mkTemplate (finish b) (Some (map text_from raws)))).
Proof.
  intros Hi J R. unfold text_block, accepts.
  destruct (skip_many_app c [quote; quote] _ R) as [M1 R1]. cbn [length] in M1, R1. rewrite R1.
  assert (forall l, line_break_at ([newline] ++ l) = Some 1%nat) as Hlb by (by intros []). rewrite Hlb.
  destruct (skip_many_app _ [newline] _ R1) as [M2 R2]. cbn [length] in M2, R2.
  assert (length raws < S (length (cur_rest (skip_many 2 c))))%nat as Hf.
  { rewrite R1, !length_app. assert (length raws <= length (indented_lines indentation raws))%nat; [|lia].
    clear. unfold indented_lines. induction raws as [|raw raws IH]; cbn [flat_map length]; [lia|].
    rewrite !length_app. cbn. lia. }
  destruct (block_lines_complete indentation Hi true raws pieces J _ (mkSpan start (start + 3)) [] _ rest Hf R2)
    as (lines & c' & close & E & P & M3 & R3).
  rewrite R1 in E. rewrite E. cbn [scan_bind app].
  destruct (content_lines_complete start indentation true raws pieces J None lines _ c' no_parts [] eq_refl P)
    as (b & -> & B); [apply no_parts_ok|]. cbn [scan_bind app].
  destruct (skip_many_app close quotes3 rest R3) as [M4 _]. cbn [length quotes3] in M4.
  do 2 eexists. split; [done|]. split; [|by exists b].
  apply (moved_trans _ _ _ [quote; quote] _ M1), (moved_trans _ _ _ [newline] _ M2). rewrite app_assoc.
  by eapply moved_trans.
Qed.

(** ** Tokens *)

(** The token kinds up to the spans inside a template. *)
Definition same_kind (a b : TokenKind) : Prop :=
  match a, b with
  | TTemplate s, TTemplate t =>
      map erase_part (template_parts s) = map erase_part (template_parts t)
      /\ text_block_lines s = text_block_lines t
  | _, _ => a = b
  end.

#[export] Instance same_kind_equiv : Equivalence same_kind.
Proof.
  split.
  - intros []; done.
  - intros [] []; cbn; try congruence. by intros [-> ->].
  - intros [] [] []; cbn; try congruence. by intros [-> ->] [-> ->].
Qed.

(** A kind whose spelling stays on its line. *)
Definition one_line (kind : TokenKind) : bool :=
  match kind with TTemplate t => negb (is_some (text_block_lines t)) | _ => true end.

(** The spellings a formatter writes: any on one line, and text blocks at an
    indentation of their own, with line feeds and no blanks on empty lines. *)
Inductive Writes : TokenKind -> chars -> Prop :=
| writes_line kind spelling : Spells kind spelling -> one_line kind = true -> Writes kind spelling
| writes_block indentation raws pieces parts :
    forallb is_indent indentation = true -> Joined true raws pieces -> map erase_part parts = grouped [] pieces ->
    Writes (TTemplate (mkTemplate parts (Some (map text_from raws)))) (block_at indentation raws).

(** The end of the text, or a space. *)
Definition separated (rest : chars) : Prop := match rest with [] => True | x :: _ => x = 32%N end.

Lemma separated_head (p : char -> bool) rest : separated rest -> p 32%N = false ->
  match rest with [] => true | x :: _ => negb (p x) end = true.
Proof. destruct rest; cbn; [done|]. by intros -> ->. Qed.

Lemma string_token_complete start c body pieces rest : Decodes plain_in_string body pieces ->
  cur_rest c = body ++ quote :: rest ->
  accepts (string_token start c) c (body ++ [quote]) (fun token =>
    exists b, built no_parts b pieces
      /\ token_kind token = if has_hole pieces then TTemplate (mkTemplate (finish b) None)
                            else TString (text_from (piece_chars pieces))).
Proof.
  intros D R. unfold string_token, accepts.
  destruct (string_loop_complete _ _ D (S (length (cur_rest c))) start no_parts c rest)
    as (b & c' & -> & M & B); [rewrite R, length_app; lia|done|done|].
  do 2 eexists. split; [done|]. split; [done|]. exists b. split; [done|].
  destruct B as (_ & _ & Hh & Ht). cbn in Hh, Ht. cbn [token_kind]. rewrite Hh.
  destruct (has_hole pieces); [done|]. by rewrite Ht.
Qed.

Lemma not_text_block body pieces rest : Decodes plain_in_string body pieces -> separated rest ->
  starts_with [quote; quote] (body ++ quote :: rest) = false.
Proof.
  intros D Hr. destruct D as [|x body pieces Hx D| |]; cbn [app starts_with].
  - destruct rest; cbn in *; [done|]. by subst.
  - rewrite bool_decide_false; [done|]. by intros <-.
  - done.
  - done.
Qed.

Lemma identifier_complete start x c read rest : forallb name_char read = true ->
  cur_rest c = read ++ rest -> separated rest ->
  exists c', identifier start x c
    = (mkToken (default (TIdentifier (text_from (x :: read))) (keyword (text_from (x :: read))))
         (mkSpan start (cur_at c')), c') /\ moved c c' read.
Proof.
  intros Hn R Hr. unfold identifier. destruct (advance_while name_char c) as [read' c'] eqn:E.
  apply advance_while_moved in E as (M & E & _). rewrite R in E.
  rewrite take_while_app in E by (done || by apply separated_head). subst read'. by exists c'.
Qed.

Lemma digit_class x : is_digit x = true -> is_alphabetic x = false /\ (x =? ch "_")%N = false
  /\ name_start x = false.
Proof.
  unfold name_start, is_alphabetic, is_digit, char_in, ch. cbn.
  rewrite andb_true_iff, !N.leb_le. intros Hx.
  rewrite !orb_false_iff, !andb_false_iff, N.eqb_neq, !N.leb_gt. lia.
Qed.

Lemma integer_loop_complete read : forall start previous c rest,
  digits_after previous read = true -> cur_rest c = read ++ rest -> separated rest ->
  exists c', integer_loop (cur_rest c) start previous c = Scanned (read, false, c') /\ moved c c' read.
Proof.
  induction read as [|x read IH]; intros start previous c rest Hd R Hr; rewrite R; cbn [app].
  - exists c. split; [|apply moved_refl]. cbn in Hd. apply negb_true_iff in Hd as ->.
    destruct rest as [|y rest]; [done|]. cbn in Hr. by subst.
  - cbn [digits_after] in Hd. cbn [integer_loop].
    assert (forall p, digits_after p read = true -> exists c',
      integer_loop (read ++ rest) start p (step c x (read ++ rest)) = Scanned (read, false, c')
      /\ moved c c' (x :: read)) as Go.
    { intros p Hp. destruct (IH start p (step c x (read ++ rest)) rest Hp eq_refl Hr) as (c' & E & M).
      exists c'. split; [done|]. by apply (moved_trans _ _ _ [x] read (moved_step _ _ _ R)). }
    destruct (is_digit x) eqn:D; [destruct (Go _ Hd) as (c' & -> & M); by exists c'|].
    apply andb_true_iff in Hd as [[-> Hp%negb_true_iff]%andb_true_iff Hd]. rewrite Hp.
    destruct (Go _ Hd) as (c' & -> & M). by exists c'.
Qed.

Lemma keyword_kind kind word : fixed_spelling kind = Some word ->
  match ascii_chars word with
  | [] => False
  | x :: read =>
      is_whitespace x = false
      /\ if name_start x then forallb name_char read = true /\ keyword (text_from (x :: read)) = Some kind
         else is_digit x = false /\ (x =? quote)%N = false
           /\ forall c rest, cur_rest c = read ++ rest -> separated rest ->
                exists c', punctuation x c = Some (kind, c') /\ moved c c' read
  end.
Proof.
  destruct kind; intros [= <-]; cbn [ascii_chars bytes_of map];
    (split; [done|]); (match goal with |- if ?b then _ else _ =>
      let v := eval vm_compute in b in change b with v end; cbv iota);
    (split; [done|]); try done; (split; [done|]);
    intros [before r at_] rest R Hr; cbn [cur_rest] in R; subst r;
    (destruct rest as [|y rest]; [|cbn in Hr; subst y]);
    (eexists; split; [done|]); (split_and!; [done|cbn; lia|done]).
Qed.

(** A spelling on one line is not empty and not read as trivia. *)
Lemma spelling_start kind spelling : Spells kind spelling ->
  exists x read, spelling = x :: read /\ is_whitespace x = false
    /\ (x = ch "/" -> kind = TSlash /\ read = []).
Proof.
  destruct 1 as [kind text Hk|cs Hn|first read Hd Hr|body pieces D Hh|body pieces parts D Hh Hp|
    brk indentation body raws pieces parts Hb Hi HB Hp].
  - pose proof (keyword_kind _ _ Hk) as K. destruct (ascii_chars text) as [|x read] eqn:E; [done|].
    exists x, read. split; [done|]. split; [by destruct K|]. intros ->.
    destruct kind; try discriminate Hk; injection Hk as <-; try discriminate E.
    injection E as <-. done.
  - destruct cs as [|x read]; [done|]. exists x, read. split; [done|].
    apply andb_true_iff in Hn as [[Hx _]%andb_true_iff _]. split.
    + assert (path_char x = true) as Hp by (unfold path_char; by rewrite name_start_char).
      by apply path_char_plain in Hp as (_ & _ & _ & _ & ?).
    + by intros ->.
  - exists first, read. split; [done|]. split; [|by intros ->].
    assert (path_char first = true) as Hp.
    { unfold path_char, name_char, is_alphanumeric. rewrite Hd. by destruct (is_alphabetic first). }
    by apply path_char_plain in Hp as (_ & _ & _ & _ & ?).
  - by exists quote, (body ++ [quote]).
  - by exists quote, (body ++ [quote]).
  - by exists quote, ([quote; quote] ++ brk ++ body ++ indentation ++ quotes3).
Qed.

Lemma line_token_complete kind x read start c rest : Spells kind (x :: read) -> one_line kind = true ->
  cur_rest c = read ++ rest -> separated rest ->
  accepts (token_from start x c) c read (fun token => same_kind kind (token_kind token)).
Proof.
  intros S Hk R Hr. unfold token_from, accepts. remember (x :: read) as spelling eqn:E.
  assert (forall body pieces, Decodes plain_in_string body pieces -> quote :: body ++ [quote] = x :: read ->
    cur_rest c = body ++ quote :: rest) as Hq.
  { intros body pieces D [= <- <-]. rewrite R, <- app_assoc. done. }
  destruct S as [kind text Hf|cs Hn|first digits Hd Hs|body pieces D Hh|body pieces parts D Hh Hp|].
  - pose proof (keyword_kind _ _ Hf) as K. rewrite E in K. destruct K as [_ K].
    destruct (name_start x).
    + destruct K as [Hn Hw]. destruct (identifier_complete start x c read rest Hn R Hr) as (c' & -> & M).
      rewrite Hw. by do 2 eexists.
    + destruct K as (-> & -> & Hp). destruct (Hp c rest R Hr) as (c' & -> & M). by do 2 eexists.
  - subst cs. apply andb_true_iff in Hn as [[Hx Hn]%andb_true_iff Hw]. rewrite Hx.
    cbn [forallb] in Hn. apply andb_true_iff in Hn as [_ Hn].
    destruct (identifier_complete start x c read rest Hn R Hr) as (c' & -> & M).
    do 2 eexists. split; [done|]. split; [done|]. cbn [token_kind]. by destruct (keyword _).
  - injection E as -> ->. rewrite Hd. destruct (digit_class x Hd) as (_ & _ & ->). unfold integer.
    destruct (integer_loop_complete read start false c rest Hs R Hr) as (c' & -> & M).
    by do 2 eexists.
  - rewrite (Hq _ _ D E). injection E as <- <-. cbn [name_start].
    change (name_start quote) with false. change (is_digit quote) with false. rewrite N.eqb_refl.
    rewrite (not_text_block _ _ _ D Hr).
    destruct (string_token_complete start c body pieces rest D) as (t & c' & -> & M & b & B & Ht);
      [by apply Hq with pieces|]. do 2 eexists. split; [done|]. split; [done|]. rewrite Ht, Hh. done.
  - rewrite (Hq _ _ D E). injection E as <- <-.
    change (name_start quote) with false. change (is_digit quote) with false. rewrite N.eqb_refl.
    rewrite (not_text_block _ _ _ D Hr).
    destruct (string_token_complete start c body pieces rest D) as (t & c' & -> & M & b & B & Ht);
      [by apply Hq with pieces|]. do 2 eexists. split; [done|]. split; [done|]. rewrite Ht, Hh. cbn.
    split; [|done]. by rewrite Hp, (built_finish _ _ B).
  - done.
Qed.

(** What is written is not empty, is not read as trivia, and reads as its token. *)
Lemma writes_start kind spelling : Writes kind spelling ->
  exists x read, spelling = x :: read /\ is_whitespace x = false /\ (x = ch "/" -> kind = TSlash /\ read = []).
Proof.
  destruct 1 as [kind spelling S _|indentation raws pieces parts _ _ _]; [by apply spelling_start|].
  by eexists quote, _.
Qed.

Lemma token_from_complete kind x read start c rest : Writes kind (x :: read) ->
  cur_rest c = read ++ rest -> separated rest ->
  accepts (token_from start x c) c read (fun token => same_kind kind (token_kind token)).
Proof.
  intros W R Hr. remember (x :: read) as spelling eqn:E.
  destruct W as [kind spelling S Hk|indentation raws pieces parts Hi J Hp]; subst.
  { by eapply line_token_complete. }
  unfold block_at in E. cbn [quotes3 app] in E. injection E as <- <-. unfold token_from.
  change (name_start quote) with false. change (is_digit quote) with false. rewrite N.eqb_refl.
  assert (starts_with [quote; quote] (cur_rest c) = true) as -> by (by rewrite R).
  destruct (text_block_complete start c indentation raws pieces rest Hi J) as (token & c' & -> & M & b & B & Ht).
  { rewrite R. cbn [app]. by rewrite <- !app_assoc. }
  do 2 eexists. split; [done|]. split; [done|]. rewrite Ht. cbn. by rewrite Hp, (built_finish _ _ B).
Qed.

Lemma skip_trivia_spaces spaces c comments rest : forallb is_whitespace spaces = true ->
  cur_rest c = spaces ++ rest ->
  match rest with [] => True | x :: rest => is_whitespace x = false /\ (x = ch "/" -> head rest <> Some (ch "/")) end ->
  exists c', skip_trivia (S (length (cur_rest c))) c comments = Scanned (c', comments) /\ moved c c' spaces.
Proof.
  intros Hs R Hr. cbn [skip_trivia]. destruct (advance_while is_whitespace c) as [taken c'] eqn:E.
  apply advance_while_moved in E as (M & E & _). rewrite R, take_while_app in E; [|done|].
  2: { destruct rest; [done|]. by destruct Hr as [-> _]. }
  subst taken. exists c'. pose proof (moved_rest _ _ _ _ M R) as R'. split; [|done].
  unfold peeks, peek, peek_next. rewrite R'. destruct rest as [|x rest]; [done|]. cbn [head tail].
  destruct (N.eqb_spec x (ch "/")) as [->|]; [|done]. cbn [andb]. destruct Hr as [_ Hr].
  destruct rest as [|y rest]; [done|]. cbn [head] in Hr |- *.
  destruct (N.eqb_spec y (ch "/")) as [->|]; [|done]. by destruct Hr.
Qed.

(** ** Sequences of spellings *)

(** The spellings, each followed by a space. *)
Definition spaced (spellings : list chars) : chars := flat_map (fun s => s ++ [32%N]) spellings.

Lemma scan_loop_complete kinds spellings : Forall2 Writes kinds spellings ->
  forall fuel c tokens comments spaces, forallb is_whitespace spaces = true ->
  cur_rest c = spaces ++ spaced spellings -> (length spellings < fuel)%nat ->
  exists more eof, scan_loop fuel c tokens comments = Scanned (mkLexedSource (tokens ++ more ++ [eof]) comments)
    /\ Forall2 same_kind kinds (map token_kind more) /\ token_kind eof = TEof.
Proof.
  induction 1 as [|kind spelling kinds spellings S _ IH]; intros [|fuel] c tokens comments spaces Hs R Hf;
    cbn [length] in Hf; try lia; cbn [scan_loop].
  - destruct (skip_trivia_spaces spaces c comments [] Hs R I) as (c' & -> & M). cbn [scan_bind].
    unfold advance. rewrite (moved_rest _ _ _ _ M R). exists []. eexists. by split.
  - destruct (writes_start _ _ S) as (x & read & -> & Hx & Hslash).
    cbn [spaced flat_map] in R. fold (spaced spellings) in R.
    destruct (skip_trivia_spaces spaces c comments ((x :: read) ++ 32%N :: spaced spellings)) as (c' & -> & M);
      [done|by rewrite R, <- app_assoc|split; [done|]|].
    { intros E. destruct (Hslash E) as [_ ->]. done. }
    cbn [scan_bind]. assert (cur_rest c' = x :: read ++ 32%N :: spaced spellings) as R'.
    { apply (moved_rest _ _ _ _ M). by rewrite R, <- app_assoc. }
    rewrite (advance_cons _ _ _ R').
    destruct (token_from_complete kind x read (cur_at c') (step c' x (read ++ 32%N :: spaced spellings))
      (32%N :: spaced spellings) S eq_refl eq_refl) as (token & c2 & -> & M2 & Ht).
    cbn [scan_bind].
    destruct (IH fuel c2 (tokens ++ [token]) comments [32%N]) as (more & eof & -> & HF & He);
      [done|by eapply moved_rest|lia|].
    exists (token :: more), eof. split; [by rewrite <- app_assoc|]. split; [by constructor|done].
Qed.

Lemma spaced_length kinds spellings : Forall2 Writes kinds spellings ->
  (length spellings <= length (spaced spellings))%nat.
Proof.
  induction 1 as [|kind spelling kinds spellings _ _ IH]; cbn [length spaced flat_map]; [lia|].
  rewrite !length_app. cbn. unfold spaced in IH. lia.
Qed.

(** Spellings with a space after each are lexed as their tokens. *)
Lemma lex_spaced kinds spellings : Forall2 Writes kinds spellings ->
  exists tokens, lex (spaced spellings) = Scanned tokens
    /\ Forall2 same_kind (kinds ++ [TEof]) (map token_kind tokens).
Proof.
  intros H. unfold lex, lex_with_comments.
  destruct (scan_loop_complete _ _ H (S (length (spaced spellings))) (cursor_at_start (spaced spellings)) [] [] [])
    as (more & eof & -> & HF & He); [done|done|pose proof (spaced_length _ _ H); lia|].
  exists (more ++ [eof]). split; [done|]. rewrite map_app. apply Forall2_app; [done|].
  constructor; [by rewrite He|constructor].
Qed.
