(* ===== verification/Canonical.v ===== *)
(** * Canonical token text

    Models the spelling of tokens in [krit/src/formatter.rs]:
    [canonical_token_text], [canonical_string], [canonical_template],
    [push_canonical_text] and [Writer::write_text_block], and shows that lexing
    what the formatter writes for the tokens of a text gives those tokens back. *)

From S2P Require Import Prelude Utf8 Syntax Tokens Lexer LexerFacts LexComplete.

(** ** The characters of a text ([str::chars]) *)

Fixpoint utf8_decode (b : bytes) : chars :=
  match b with
  | [] => []
  | a :: rest =>
      let x := byte_val a in
      if (x <? 0x80)%N then x :: utf8_decode rest
      else if (x <? 0xE0)%N then
        match rest with
        | b :: rest => ((x - 0xC0) * 64 + (byte_val b - 0x80))%N :: utf8_decode rest
        | _ => []
        end
      else if (x <? 0xF0)%N then
        match rest with
        | b :: c :: rest =>
            ((x - 0xE0) * 4096 + (byte_val b - 0x80) * 64 + (byte_val c - 0x80))%N :: utf8_decode rest
        | _ => []
        end
      else
        match rest with
        | b :: c :: d :: rest =>
            ((x - 0xF0) * 262144 + (byte_val b - 0x80) * 4096 + (byte_val c - 0x80) * 64
             + (byte_val d - 0x80))%N :: utf8_decode rest
        | _ => []
        end
  end.

Definition chars_of (s : string) : chars := utf8_decode (bytes_of s).

Lemma utf8_decode_char c rest : is_char c = true ->
  utf8_decode (utf8_char c ++ rest) = c :: utf8_decode rest.
Proof.
  intros Hb%is_char_bound. unfold utf8_char.
  destruct (N.ltb_spec c 0x80); [|destruct (N.ltb_spec c 0x800);
    [|destruct (N.ltb_spec c 0x10000)]]; cbn [app utf8_decode]; rewrite !byte_val_of by divlia.
  - by rewrite (proj2 (N.ltb_lt c 0x80)).
  - rewrite (proj2 (N.ltb_ge _ _)) by divlia. rewrite (proj2 (N.ltb_lt _ _)) by divlia. f_equal. divlia.
  - rewrite !(proj2 (N.ltb_ge _ _)) by divlia. rewrite (proj2 (N.ltb_lt _ _)) by divlia. f_equal. divlia.
  - rewrite !(proj2 (N.ltb_ge _ _)) by divlia. f_equal. divlia.
Qed.

Definition valid_chars (cs : chars) : Prop := Forall (fun c => is_char c = true) cs.

Lemma chars_of_text cs : valid_chars cs -> chars_of (text_from cs) = cs.
Proof.
  unfold chars_of, text_from. rewrite bytes_of_str_of. induction 1 as [|c cs Hc _ IH]; [done|].
  change (utf8 (c :: cs)) with (utf8_char c ++ utf8 cs). by rewrite utf8_decode_char, IH.
Qed.

(** ** The formatter's spellings *)

Definition lower_hex (n : N) : char := (if n <? 10 then 48 + n else 87 + n)%N.
(** [{:x}] of a control character, which has at most two digits. *)
Definition hex_of (n : N) : chars :=
  if (n <? 16)%N then [lower_hex n] else [lower_hex (n / 16)%N; lower_hex (n mod 16)%N].

Definition canonical_char (c : char) : chars :=
  if (c =? quote)%N then [backslash; quote]
  else if (c =? backslash)%N then [backslash; backslash]
  else if (c =? newline)%N then [backslash; ch "n"]
  else if (c =? carriage_return)%N then [backslash; ch "r"]
  else if (c =? tab)%N then [backslash; ch "t"]
  else if (c =? 0)%N then [backslash; ch "0"]
  else if (c <? 0x20)%N then backslash :: ch "u" :: ch "{" :: hex_of c ++ [ch "}"]
  else [c].

Definition push_canonical_text (value : chars) : chars := flat_map canonical_char value.

Definition canonical_string (value : string) : chars :=
  quote :: push_canonical_text (chars_of value) ++ [quote].

Definition canonical_part (part : TemplatePart) : chars :=
  match part with
  | TextPart value _ => push_canonical_text (chars_of value)
  | HolePart path _ => backslash :: ch "(" :: join_dots (map (fun '(name, _) => chars_of name) path) ++ [ch ")"]
  end.

Definition canonical_template (parts : list TemplatePart) : chars :=
  quote :: flat_map canonical_part parts ++ [quote].

Definition canonical_token_text (token : Token) (text : chars) : chars :=
  match token_kind token with
  | TIdentifier value => chars_of value
  | TInteger _ => slice text (token_span token)
  | TString value => canonical_string value
  | TTemplate template =>
      if is_some (text_block_lines template) then quotes3 else canonical_template (template_parts template)
  | TLet => ascii_chars "let" | TFn => ascii_chars "fn" | TWebhook => ascii_chars "webhook"
  | TIf => ascii_chars "if" | TElse => ascii_chars "else" | TMatch => ascii_chars "match"
  | TRecord => ascii_chars "record" | TTrue => ascii_chars "true" | TFalse => ascii_chars "false"
  | TLeftParen => ascii_chars "(" | TRightParen => ascii_chars ")" | TLeftBrace => ascii_chars "{"
  | TRightBrace => ascii_chars "}" | TLeftBracket => ascii_chars "[" | TRightBracket => ascii_chars "]"
  | TComma => ascii_chars "," | TColon => ascii_chars ":" | TSemicolon => ascii_chars ";"
  | TQuestion => ascii_chars "?" | TDot => ascii_chars "." | TEqual => ascii_chars "="
  | TEqualEqual => ascii_chars "==" | TBang => ascii_chars "!" | TBangEqual => ascii_chars "!="
  | TLess => ascii_chars "<" | TLessEqual => ascii_chars "<=" | TGreater => ascii_chars ">"
  | TGreaterEqual => ascii_chars ">=" | TPlus => ascii_chars "+" | TMinus => ascii_chars "-"
  | TStar => ascii_chars "*" | TSlash => ascii_chars "/" | TPercent => ascii_chars "%"
  | TAndAnd => ascii_chars "&&" | TOrOr => ascii_chars "||" | TDotDot => ascii_chars ".."
  | TFatArrow => ascii_chars "=>" | TThinArrow => ascii_chars "->" | TEof => []
  end.

(** What [Writer::write_text_block] writes after its line's own indentation;
    the level is the one it takes from the line. *)
Definition write_text_block (level : nat) (lines : list string) : chars :=
  let indentation := repeat 32%N (level * 4) in
  quotes3
  ++ flat_map (fun line => newline :: if bool_decide (line = "") then [] else indentation ++ chars_of line) lines
  ++ [newline] ++ indentation ++ quotes3.

(** What [emit_token] writes of a token. *)
Definition emit_token (level : nat) (token : Token) (text : chars) : chars :=
  match token_kind token with
  | TTemplate template =>
      match text_block_lines template with
      | Some lines => write_text_block level lines
      | None => canonical_token_text token text
      end
  | _ => canonical_token_text token text
  end.

Lemma canonical_fixed token text spelling :
  fixed_spelling (token_kind token) = Some spelling ->
  canonical_token_text token text = ascii_chars spelling.
Proof. unfold canonical_token_text. destruct (token_kind token); intros [= <-]; done. Qed.

(** ** What the canonical text of a string stands for *)

Lemma decodes_app plain a p b q : Decodes plain a p -> Decodes plain b q -> Decodes plain (a ++ b) (p ++ q).
Proof.
  intros Ha Hb. induction Ha; [done| | |].
  - by apply decodes_plain.
  - cbn [app]. rewrite <- app_assoc. by apply decodes_escape.
  - rewrite <- app_comm_cons, <- app_assoc. by apply decodes_hole.
Qed.

Lemma lower_hex_digit n : (n < 16)%N -> is_hexdigit (lower_hex n) = true /\ hex_value (lower_hex n) = n.
Proof.
  intros Hn. unfold lower_hex, is_hexdigit, hex_value, is_digit, char_in.
  destruct (N.ltb_spec n 10).
  - rewrite (proj2 (N.leb_le 48 (48 + n))), (proj2 (N.leb_le (48 + n) 57)) by lia. cbn. split; [done|lia].
  - rewrite (proj2 (N.leb_gt (87 + n) 57)) by lia. rewrite andb_false_r.
    rewrite (proj2 (N.leb_le 97 (87 + n))), (proj2 (N.leb_le (87 + n) 102)) by lia. cbn. split; [done|lia].
Qed.

Lemma hex_of_digits n : (n < 32)%N -> unicode_digits (hex_of n) /\ from_hex (hex_of n) = n.
Proof.
  intros Hn. assert (is_char n = true) as Hc.
  { unfold is_char. apply orb_true_iff. left. apply N.ltb_lt. lia. }
  unfold unicode_digits, hex_of. destruct (N.ltb_spec n 16).
  - destruct (lower_hex_digit n) as [Hd Hv]; [done|]. unfold from_hex. cbn [foldl]. rewrite Hv.
    replace (16 * 0 + n)%N with n by lia. cbn [forallb length]. rewrite Hd. split_and!; [done|lia|done|done|done].
  - destruct (lower_hex_digit (n / 16)) as [Hd1 Hv1]; [divlia|].
    destruct (lower_hex_digit (n mod 16)) as [Hd2 Hv2]; [divlia|]. unfold from_hex. cbn [foldl].
    rewrite Hv1, Hv2. replace (16 * (16 * 0 + n / 16) + n mod 16)%N with n by divlia.
    cbn [forallb length]. rewrite Hd1, Hd2. split_and!; [done|lia|done|done|done].
Qed.

Lemma canonical_char_decodes c : Decodes plain_in_string (canonical_char c) [PieceChar c].
Proof.
  assert (forall x, simple_escape x = Some c -> Decodes plain_in_string [backslash; x] [PieceChar c]) as Hs.
  { intros x Hx. apply (decodes_escape plain_in_string [x] c [] []); [by constructor|constructor]. }
  unfold canonical_char. repeat (case_match; [match goal with H : (c =? _)%N = true |- _ =>
    apply N.eqb_eq in H as -> end; by apply Hs|]).
  destruct (N.ltb_spec c 0x20).
  - destruct (hex_of_digits c) as [Hd Hv]; [done|]. pose proof (escapes_unicode _ Hd) as He. rewrite Hv in He.
    pose proof (decodes_escape plain_in_string _ c [] [] He (decodes_end _)) as Hd'.
    by rewrite app_nil_r in Hd'.
  - apply decodes_plain; [|constructor]. unfold plain_in_string, is_break.
    repeat match goal with H : (c =? _)%N = false |- _ => rewrite H; clear H end. done.
Qed.

Lemma canonical_text_decodes cs : Decodes plain_in_string (push_canonical_text cs) (map PieceChar cs).
Proof.
  induction cs as [|c cs IH]; [constructor|]. apply (decodes_app _ _ [PieceChar c]); [|done].
  apply canonical_char_decodes.
Qed.

(** ** The pieces of a string are characters and names *)

Definition piece_ok (p : Piece) : Prop :=
  match p with
  | PieceChar c => is_char c = true
  | PieceHole names => exists parts, hole_names parts /\ names = map text_from parts
  end.

Lemma escapes_char read y : Escapes read y -> is_char y = true.
Proof.
  destruct 1 as [x y Hs|digits (_ & _ & _ & Hc)]; [|done]. unfold simple_escape in Hs.
  by repeat (case_match; [injection Hs as <-; done|]).
Qed.

Lemma decodes_pieces plain body pieces : Decodes plain body pieces -> valid_chars body -> Forall piece_ok pieces.
Proof.
  unfold valid_chars. induction 1 as [|x body pieces Hx D IH|read y body pieces He D IH|names body pieces Hn D IH];
    intros V; [done| | |].
  - inversion V; subst. constructor; auto.
  - apply Forall_cons in V as [_ V]. apply Forall_app in V as [_ V]. constructor; [by eapply escapes_char|auto].
  - apply Forall_cons in V as [_ V]. apply Forall_app in V as [_ V]. constructor; [by exists names|auto].
Qed.

Lemma ascii_valid cs : Forall (fun c => (c < 0x80)%N) cs -> valid_chars cs.
Proof.
  intros H. eapply Forall_impl; [exact H|]. intros c Hc. cbn beta in Hc. unfold is_char. apply orb_true_iff. left. apply N.ltb_lt. lia.
Qed.

Lemma name_chars_of n : is_name n = true -> chars_of (text_from n) = n.
Proof.
  intros [[_ Hn]%andb_true_iff _]%andb_true_iff. apply chars_of_text, ascii_valid. by apply names_ascii.
Qed.

Lemma names_chars_of names : forallb is_name names = true -> map (fun n => chars_of (text_from n)) names = names.
Proof.
  induction names as [|n names IH]; [done|]. cbn. intros [Hn Hs]%andb_true_iff. by rewrite name_chars_of, IH.
Qed.

Lemma piece_chars_map cs : piece_chars (map PieceChar cs) = cs.
Proof. unfold piece_chars. induction cs as [|c cs IH]; cbn; [done|]. by rewrite IH. Qed.

Lemma no_hole_map cs : has_hole (map PieceChar cs) = false.
Proof. unfold has_hole. by induction cs. Qed.

Lemma pieces_without_holes pieces : has_hole pieces = false -> pieces = map PieceChar (piece_chars pieces).
Proof.
  induction pieces as [|[c|names] pieces IH]; [done| |done]. cbn. intros H. f_equal. by apply IH.
Qed.

(** The canonical text of a part without its spans. *)
Definition canonical_erased (part : string + list string) : chars :=
  match part with
  | inl value => push_canonical_text (chars_of value)
  | inr names => backslash :: ch "(" :: join_dots (map chars_of names) ++ [ch ")"]
  end.

Lemma canonical_part_erased part : canonical_part part = canonical_erased (erase_part part).
Proof.
  destruct part as [value span|path span]; [done|]. cbn. rewrite map_map.
  do 4 f_equal. apply map_ext. by intros [name s].
Qed.

Lemma canonical_grouped_decodes pieces : forall text, Forall piece_ok pieces -> valid_chars text ->
  Decodes plain_in_string (flat_map canonical_erased (grouped text pieces)) (map PieceChar text ++ pieces).
Proof.
  assert (forall text, valid_chars text ->
    Decodes plain_in_string (flat_map canonical_erased (flushed text)) (map PieceChar text)) as Hf.
  { intros [|c text] V; [constructor|]. cbn [flushed flat_map canonical_erased].
    rewrite chars_of_text, app_nil_r by done. apply canonical_text_decodes. }
  induction pieces as [|[c|names] pieces IH]; intros text Hp V; cbn [grouped].
  - rewrite app_nil_r. auto.
  - apply Forall_cons in Hp as [Hc Hp]. specialize (IH (text ++ [c]) Hp).
    rewrite map_app, <- app_assoc in IH. apply IH. apply Forall_app. split; [done|by constructor].
  - apply Forall_cons in Hp as [(parts & Hn & ->) Hp]. rewrite flat_map_app.
    apply decodes_app; [auto|]. cbn [flat_map canonical_erased]. rewrite map_map.
    rewrite names_chars_of by by destruct Hn. apply (decodes_hole plain_in_string parts _ pieces Hn). apply (IH []); [done|constructor].
Qed.

(** ** Slices *)

Lemma slice_outside cs at_ span : (at_ + width cs <= span_start span \/ span_end span <= at_) ->
  slice_from cs at_ span = [].
Proof.
  revert at_. induction cs as [|c cs IH]; intros at_ H; [done|]. cbn [slice_from].
  pose proof (len_utf8_pos c). pose proof (width_nonneg cs). cbn [width foldr] in H. fold (width cs) in H.
  rewrite IH by lia. by rewrite (proj2 (andb_false_iff _ _)) by (rewrite Z.leb_gt, Z.ltb_ge; lia).
Qed.

Lemma slice_app a b at_ span : slice_from (a ++ b) at_ span = slice_from a at_ span ++ slice_from b (at_ + width a) span.
Proof.
  revert at_. induction a as [|c a IH]; intros at_; [cbn; by rewrite Z.add_0_r|]. cbn [app slice_from].
  rewrite IH. replace (at_ + len_utf8 c + width a) with (at_ + width (c :: a)) by (cbn; unfold width; lia).
  by destruct (_ && _).
Qed.

Lemma slice_all cs at_ span : span_start span <= at_ -> at_ + width cs <= span_end span ->
  slice_from cs at_ span = cs.
Proof.
  revert at_. induction cs as [|c cs IH]; intros at_ H1 H2; [done|]. cbn [slice_from].
  pose proof (len_utf8_pos c). pose proof (width_nonneg cs). cbn [width foldr] in H2. fold (width cs) in H2.
  rewrite IH by lia. by rewrite (proj2 (andb_true_iff _ _)) by (rewrite Z.leb_le, Z.ltb_lt; lia).
Qed.

Lemma slice_middle before spelling after :
  slice (before ++ spelling ++ after) (mkSpan (width before) (width before + width spelling)) = spelling.
Proof.
  unfold slice. rewrite !slice_app, slice_outside, slice_all, slice_outside, app_nil_r; cbn; [done|lia..].
Qed.

(** ** Canonical spellings *)

Lemma canonical_spells kind spelling text span : Spells kind spelling -> one_line kind = true ->
  valid_chars spelling -> slice text span = spelling ->
  Spells kind (canonical_token_text (mkToken kind span) text).
Proof.
  intros S Hk V Hs. unfold canonical_token_text. cbn [token_kind token_span].
  assert (forall body pieces, Decodes plain_in_string body pieces -> valid_chars (quote :: body ++ [quote]) ->
    Forall piece_ok pieces) as Hp.
  { intros body pieces D [_ [Vb _]%Forall_app]%Forall_cons. by eapply decodes_pieces. }
  destruct S as [kind word Hf|cs Hn|first read Hd Hr|body pieces D Hh|body pieces parts D Hh Hparts|].
  - pose proof (canonical_fixed (mkToken kind span) text word Hf) as E. unfold canonical_token_text in E.
    cbn [token_kind token_span] in E. rewrite E. by apply spells_fixed.
  - rewrite name_chars_of by done. by apply spells_identifier.
  - rewrite Hs. by apply spells_integer.
  - apply Hp in D; [|done]. unfold canonical_string.
    assert (valid_chars (piece_chars pieces)) as Vp.
    { rewrite (pieces_without_holes _ Hh) in D. clear -D. unfold valid_chars.
      exact (proj1 (List.Forall_map _ _ _) D). }
    rewrite chars_of_text by done. rewrite <- (piece_chars_map (piece_chars pieces)) at 1.
    apply spells_string; [apply canonical_text_decodes|apply no_hole_map].
  - apply Hp in D; [|done]. cbn [text_block_lines is_some template_parts]. unfold canonical_template.
    eapply spells_template; [|exact Hh|exact Hparts].
    rewrite (flat_map_ext canonical_part _ canonical_part_erased), flat_map_concat_map, <- map_map, Hparts,
      <- flat_map_concat_map.
    apply (canonical_grouped_decodes pieces []); [done|constructor].
  - done.
Qed.

(** ** Text blocks *)

Lemma block_raws_valid indentation first body raws pieces : BlockLines indentation first body raws pieces ->
  valid_chars body -> Forall valid_chars raws.
Proof.
  induction 1 as [|first line brk raw pieces rest raws more Hl Hc D Hk B IH]; intros V; [constructor|].
  apply Forall_app in V as [Vl [_ Vr]%Forall_app]. constructor; [|by apply IH].
  destruct Hc as [->|(_ & _ & ->)]; [|constructor]. by apply Forall_app in Vl as [_ ?].
Qed.

(** The writer's order of line feeds, before each line, makes the same block. *)
Lemma write_text_block_at level raws : Forall valid_chars raws ->
  write_text_block level (map text_from raws) = block_at (repeat 32%N (level * 4)) raws.
Proof.
  intros V. unfold write_text_block, block_at. f_equal. set (indentation := repeat 32%N (level * 4)).
  induction V as [|raw raws Vr V IH]; [done|]. cbn [map flat_map indented_lines].
  fold (indented_lines indentation raws). rewrite <- !app_assoc, IH. cbn [app]. f_equal. f_equal.
  unfold indented. destruct raw as [|c raw]; [done|]. rewrite chars_of_text by done.
  rewrite bool_decide_false; [done|]. intros E. pose proof (chars_of_text _ Vr) as N. by rewrite E in N.
Qed.

Lemma spaces_indent n : forallb is_indent (repeat 32%N n) = true.
Proof. by induction n. Qed.

(** What the formatter writes for a token is a spelling of it. *)
Lemma emit_token_writes level kind spelling text span : Spells kind spelling -> valid_chars spelling ->
  slice text span = spelling -> Writes kind (emit_token level (mkToken kind span) text).
Proof.
  intros S V Hs. destruct (one_line kind) eqn:Hk.
  - pose proof (canonical_spells kind spelling text span S Hk V Hs) as C.
    assert (emit_token level (mkToken kind span) text = canonical_token_text (mkToken kind span) text) as ->;
      [|by constructor].
    unfold emit_token. cbn [token_kind]. destruct kind; try done. cbn [one_line] in Hk.
    by destruct (text_block_lines template).
  - destruct S as [kind text' Hf|cs Hn|first read Hd Hr|body pieces D Hh|body pieces parts D Hh Hp
      |brk indentation body raws pieces parts Hb Hi HB Hp]; try done; [by destruct kind|].
    unfold emit_token. cbn [token_kind text_block_lines].
    rewrite write_text_block_at.
    + eapply writes_block; [apply spaces_indent|by eapply block_joined|done].
    + eapply block_raws_valid; [exact HB|]. unfold valid_chars in V. rewrite !Forall_app in V. by destruct V as (_ & _ & ? & _).
Qed.

Definition ends_file (token : Token) : bool := bool_decide (token_kind token = TEof).

(** The tokens of a text before its end. *)
Definition before_end (tokens : list Token) : list Token := List.filter (fun t => negb (ends_file t)) tokens.

(** What the formatter writes for the tokens of a text, each followed by a
    space; every text block at a level of its own. *)
Definition emitted_line (level : Token -> nat) (tokens : list Token) (text : chars) : chars :=
  spaced (map (fun token => emit_token (level token) token text) (before_end tokens)).

Lemma spells_not_end kind spelling : Spells kind spelling -> kind <> TEof.
Proof. destruct 1 as [kind text Hk| | | | |]; [|done..]. by intros ->. Qed.

Lemma before_end_cons kind span tokens : kind <> TEof ->
  before_end (mkToken kind span :: tokens) = mkToken kind span :: before_end tokens.
Proof.
  intros Hk. unfold before_end. cbn [List.filter]. unfold ends_file at 1. cbn [token_kind].
  by rewrite bool_decide_false.
Qed.

Lemma lexed_emitted level rest at_ tokens : Lexed rest at_ tokens -> forall before,
  at_ = width before -> valid_chars (before ++ rest) ->
  map token_kind tokens = map token_kind (before_end tokens) ++ [TEof]
  /\ Forall2 Writes (map token_kind (before_end tokens))
       (map (fun token => emit_token (level token) token (before ++ rest)) (before_end tokens)).
Proof.
  induction 1 as [trivia at_ T|trivia spelling rest at_ kind tokens T S Hs L IH]; intros before Ha V; [done|]. subst at_.
  destruct (IH (before ++ trivia ++ spelling)) as [Hk HF].
  { rewrite !width_app. lia. } { by rewrite <- !app_assoc. }
  rewrite before_end_cons by by eapply spells_not_end. cbn [map token_kind].
  split; [by rewrite Hk|]. constructor.
  - apply emit_token_writes with spelling; [done| |].
    + unfold valid_chars in V. rewrite !Forall_app in V. by destruct V as (_ & _ & ? & _).
    + pose proof (slice_middle (before ++ trivia) spelling rest) as E.
      by rewrite width_app, <- app_assoc in E.
  - by rewrite <- !app_assoc in HF.
Qed.

Lemma lex_Lexed text tokens : lex text = Scanned tokens -> Lexed text 0 tokens.
Proof.
  unfold lex, lex_with_comments.
  pose proof (scan_loop_sound (S (length text)) (cursor_at_start text) [] [] ltac:(simpl; lia)) as H.
  destruct (scan_loop _ _ _ _) as [lexed|d|]; [|done|done]. simpl in *.
  destruct H as (more & -> & L). by intros [= <-].
Qed.

(** ** Claims *)

(** C15: The formatter's spelling of tokens is a round trip.  For a text of
    Unicode characters that lexes, lexing what the formatter writes for its
    tokens, with a space after each and every text block at whatever level of
    indentation, gives the same kinds of token in the same order, with the same
    names, digits, string contents, interpolated paths and content lines:
    escaping a string the canonical way, rewriting a control character as a
    Unicode escape, dropping needless escapes, copying an integer's digits and
    indenting a text block anew never changes what a program says. *)
Theorem canonical_tokens_relex (level : Token -> nat) (text : chars) (tokens : list Token) :
  valid_chars text -> lex text = Scanned tokens ->
  exists tokens', lex (emitted_line level tokens text) = Scanned tokens'
    /\ Forall2 same_kind (map token_kind tokens) (map token_kind tokens').
Proof.
  intros V L%lex_Lexed. destruct (lexed_emitted level _ _ _ L [] eq_refl V) as [-> HF].
  by apply lex_spaced.
Qed.

(** A text with a comment, separators in an integer, a needless Unicode escape,
    an interpolated path, and a text block with an empty line. *)
Definition sample_text : chars :=
  ascii_chars "let x1=1_000 ;// spaced" ++ [newline]
  ++ ascii_chars "f(" ++ [quote] ++ ascii_chars "\u{41}\u{1}\(r.path)\t" ++ [233%N; quote] ++ ascii_chars ", "
  ++ quotes3 ++ [newline] ++ ascii_chars "   one \(name)" ++ [newline; newline]
  ++ ascii_chars "     two" ++ [newline] ++ ascii_chars "  " ++ quotes3 ++ ascii_chars ")".

Lemma canonical_tokens_relex_witness : exists tokens tokens',
  lex sample_text = Scanned tokens
  /\ lex (emitted_line (fun _ => 2%nat) tokens sample_text) = Scanned tokens'
  /\ Forall2 same_kind (map token_kind tokens) (map token_kind tokens').
Proof.
  eexists. edestruct (canonical_tokens_relex (fun _ => 2%nat) sample_text) as (tokens' & H1 & H2).
  - unfold valid_chars, sample_text. repeat (apply List.Forall_cons; [vm_compute; reflexivity|]). apply List.Forall_nil.
  - vm_compute. reflexivity.
  - exists tokens'. split; [vm_compute; reflexivity|]. split; [exact H1|exact H2].
Defined.
