(* ===== verification/Habits.v ===== *)
(** * Constructs carried over from other languages

    Models the [Habit] of [krit/src/habits.rs]: the words that introduce a
    foreign construct, the code and fix of each, the diagnostics the parser
    reports with them, and the note of an undefined name. *)

From S2P Require Import Prelude Syntax Construction.

Inductive Habit : Type :=
| HReturn | HLoop | HMutation | HTypeDeclaration | HImport | HAsync | HException | HIndexing
| HArrowFunction | HTernary | HSwitch | HElseReturn.

Definition one_of (words : list string) (word : string) : bool := bool_decide (word ∈ words).

(** [Habit::of_word]. *)
Definition of_word (word : string) : option Habit :=
  if one_of ["return"] word then Some HReturn
  else if one_of ["for"; "while"; "loop"; "do"] word then Some HLoop
  else if one_of ["mut"; "var"; "const"] word then Some HMutation
  else if one_of ["struct"; "class"; "impl"; "trait"; "interface"] word then Some HTypeDeclaration
  else if one_of ["import"; "use"; "require"; "from"] word then Some HImport
  else if one_of ["async"; "await"] word then Some HAsync
  else if one_of ["try"; "catch"; "throw"; "raise"; "except"; "finally"] word then Some HException
  else if one_of ["switch"; "case"; "default"] word then Some HSwitch
  else None.

Definition of_undefined_name (name : string) : option Habit :=
  if one_of ["return"; "await"; "throw"; "raise"; "require"; "import"] name then of_word name
  else None.

Definition habit_code (habit : Habit) : string :=
  match habit with
  | HReturn => "K1101" | HLoop => "K1102" | HMutation => "K1103" | HTypeDeclaration => "K1104"
  | HImport => "K1105" | HAsync => "K1106" | HException => "K1107" | HIndexing => "K1108"
  | HArrowFunction => "K1109" | HTernary => "K1110" | HSwitch => "K1111" | HElseReturn => "K1112"
  end.

Definition habit_hint (habit : Habit) : string :=
  match habit with
  | HReturn =>
      "a block's value is its final expression, written without `return` or `;`; for early exit, use postfix `?` on a `Result` or `Option`, or let-else: `let Some(x) = value else None => fallback;`"
  | HLoop =>
      "Krit has no loops; write a recursive function that matches `[]` and `[head, ..tail]` (list functions arrive in Krit 0.4)"
  | HMutation =>
      "Krit values are immutable; bind each new value with `let` under a new name"
  | HTypeDeclaration =>
      "Krit has no classes, methods, or traits; use a `record { field: value }` value and plain functions"
  | HImport =>
      "modules are not available yet; a Krit program is one file, and built-in functions need no import"
  | HAsync =>
      "Krit has no async functions; host calls such as `http_request` finish before they return, so call them directly"
  | HException =>
      "Krit has no exceptions; return `Ok(value)` or `Err(error)`, then handle the `Result` with `match` or pass its error on with postfix `?`"
  | HIndexing =>
      "match the list with `[]` and `[head, ..tail]` patterns (`list_get` arrives in Krit 0.4)"
  | HArrowFunction => "write an anonymous function as `fn(x) { e }`"
  | HTernary => "`if` is an expression: write `if condition { a } else { b }`"
  | HSwitch =>
      "use `match` for `Option`, `Result`, and list values, or an `if ... else if ... else` chain"
  | HElseReturn =>
      "to exit early, use let-else, whose arm names the other variant: `let Some(x) = value else None => fallback;`"
  end.

Definition habit_diagnostic (habit : Habit) (message : string) (span : Span) : Diagnostic :=
  with_note (diagnostic (habit_code habit) message span) (habit_hint habit).

Definition word_diagnostic (habit : Habit) (word : string) (span : Span) : Diagnostic :=
  habit_diagnostic habit ("`" +:+ word +:+ "` is not Krit syntax") span.

(** The note of an undefined name, whose candidates are the names in scope. *)
Definition undefined_name_note (name : string) (candidates : list string) : option string :=
  if one_of ["null"; "NULL"; "Null"; "nil"; "Nil"; "NIL"; "undefined"; "nullptr"] name then
    Some ("Krit has no `" +:+ name +:+ "`; write `None` for an absent `Option` value")
  else
    match of_undefined_name name with
    | Some habit => Some (habit_hint habit)
    | None => (fun candidate => "did you mean `" +:+ candidate +:+ "`?") <$> closest_name name candidates
    end.

(** ** Method calls *)

Inductive MethodReceiver : Type := RString | RInt | RList | RVariant | ROther.

(** The fix for calling [method] on [receiver], written as [value]. *)
Definition method_hint (receiver : MethodReceiver) (method value : string) : string :=
  match receiver with
  | RString =>
      if one_of ["len"; "length"; "size"; "count"; "byte_len"] method then
        "call `string_byte_len(" +:+ value +:+ ")` instead; it counts UTF-8 bytes"
      else if one_of ["is_empty"; "isEmpty"; "empty"] method then
        "call `string_is_empty(" +:+ value +:+ ")` instead"
      else if one_of ["contains"; "includes"] method then
        "call `string_contains(" +:+ value +:+ ", part)` instead"
      else if one_of ["starts_with"; "startsWith"; "startswith"; "hasPrefix"] method then
        "call `string_starts_with(" +:+ value +:+ ", prefix)` instead"
      else if one_of ["ends_with"; "endsWith"; "endswith"; "hasSuffix"] method then
        "call `string_ends_with(" +:+ value +:+ ", suffix)` instead"
      else
        "pass the string to a function instead; the string functions are `string_byte_len`, `string_is_empty`, `string_contains`, `string_starts_with`, and `string_ends_with`"
  | RInt =>
      if one_of ["to_string"; "toString"; "string"; "str"] method then
        "call `int_to_string(" +:+ value +:+ ")` instead"
      else "pass the integer to a function instead, as in `f(" +:+ value +:+ ")`"
  | RList =>
      "match the list with `[]` and `[head, ..tail]` patterns instead (list functions arrive in Krit 0.4)"
  | RVariant =>
      "handle both outcomes with `match` instead, pass the failure on with postfix `?`, or bind the success with let-else"
  | ROther => "pass the value to a function instead, as in `f(" +:+ value +:+ ")`"
  end.
