(* ===== verification/Parser.v ===== *)
(** * The parser

    Models [krit/src/parser.rs].  The parser's mutable fields are a record
    threaded through its functions; an outcome is a value, a diagnostic, a
    panic (an index out of range, a subtraction below zero) or running out of
    fuel, none of which but the first two arises (see [ParserFacts]).

    A loop runs for at most one round more than there are tokens.  Where the
    code opens a nesting level, the recursive call spends one unit of fuel;
    [DEPTH_FUEL] is two more than [MAX_NESTING_DEPTH].  The parsers one level
    deeper are the section variables [expression'], [block'] and [unary']. *)

From S2P Require Import Prelude Utf8 Syntax Tokens Habits.

(** ** Limits ([limits.rs]) *)

Definition MAX_NESTING_DEPTH : Z := 256.
Definition MAX_STRUCTURAL_DEPTH : Z := 4096.
Definition DEPTH_FUEL : nat := 258.

Definition nesting_error (span : Span) : Diagnostic :=
  diagnostic "K1005"
    ("nesting depth limit exceeded: constructs may nest at most " +:+ pretty MAX_NESTING_DEPTH
     +:+ " levels") span.

Definition structural_error (span : Span) : Diagnostic :=
  diagnostic "K1005"
    ("nesting depth limit exceeded: nesting plus the `else if` continuations, operators, and call, field-access, or `?` links above any point may reach at most "
     +:+ pretty MAX_STRUCTURAL_DEPTH +:+ " levels") span.

(** ** The state and computations on it *)

Record Parser : Type := mkParser {
  cursor : nat;
  depth : Z;
  chain_depth : Z;
  peak : Z;
  speculations : Z;
  construction_allowed : bool;
}.

Definition set_cursor (p : Parser) (n : nat) : Parser :=
  mkParser n (depth p) (chain_depth p) (peak p) (speculations p) (construction_allowed p).
Definition set_depth (p : Parser) (n : Z) : Parser :=
  mkParser (cursor p) n (chain_depth p) (peak p) (speculations p) (construction_allowed p).
Definition set_chain_depth (p : Parser) (n : Z) : Parser :=
  mkParser (cursor p) (depth p) n (peak p) (speculations p) (construction_allowed p).
Definition set_peak (p : Parser) (n : Z) : Parser :=
  mkParser (cursor p) (depth p) (chain_depth p) n (speculations p) (construction_allowed p).
Definition set_speculations (p : Parser) (n : Z) : Parser :=
  mkParser (cursor p) (depth p) (chain_depth p) (peak p) n (construction_allowed p).
Definition set_construction_allowed (p : Parser) (b : bool) : Parser :=
  mkParser (cursor p) (depth p) (chain_depth p) (peak p) (speculations p) b.

Inductive Outcome (A : Type) : Type :=
| Parsed (a : A)
| Failed (d : Diagnostic)
| Panicked
| Exhausted.
Arguments Parsed {A} a.
Arguments Failed {A} d.
Arguments Panicked {A}.
Arguments Exhausted {A}.

Definition Parse (A : Type) : Type := Parser -> Parser * Outcome A.

Definition ret {A} (a : A) : Parse A := fun p => (p, Parsed a).
Definition fail {A} (d : Diagnostic) : Parse A := fun p => (p, Failed d).
Definition panic {A} : Parse A := fun p => (p, Panicked).
Definition exhausted {A} : Parse A := fun p => (p, Exhausted).
Definition bind {A B} (m : Parse A) (k : A -> Parse B) : Parse B :=
  fun p =>
    match m p with
    | (p, Parsed a) => k a p
    | (p, Failed d) => (p, Failed d)
    | (p, Panicked) => (p, Panicked)
    | (p, Exhausted) => (p, Exhausted)
    end.

Notation "'let!' x := c 'in' k" := (bind c (fun x => k))
  (at level 10, x pattern, c at level 100, k at level 200,
   format "'[v' 'let!'  x  :=  c  'in' '/' k ']'") : krit_scope.

Definition parser : Parse Parser := fun p => (p, Parsed p).
Definition modify (f : Parser -> Parser) : Parse unit := fun p => (f p, Parsed tt).

(** The [Result] of a computation, which goes on whether it failed or not. *)
Definition attempt {A} (m : Parse A) : Parse (result A Diagnostic) :=
  fun p =>
    match m p with
    | (p, Parsed a) => (p, Parsed (Ok a))
    | (p, Failed d) => (p, Parsed (Err d))
    | (p, Panicked) => (p, Panicked)
    | (p, Exhausted) => (p, Exhausted)
    end.
Definition lift {A} (r : result A Diagnostic) : Parse A :=
  match r with Ok a => ret a | Err d => fail d end.
(** [if let Some(d) = o { return Err(d); }]. *)
Definition refuse (o : option Diagnostic) : Parse unit :=
  match o with Some d => fail d | None => ret tt end.

(** [a - b] of [usize]. *)
Definition usize_sub (a b : Z) : Parse Z := if b <=? a then ret (a - b) else panic.

(** ** Tokens that start an expression *)

Definition starts_operand_only (kind : TokenKind) : bool :=
  match kind with
  | TIdentifier _ | TInteger _ | TString _ | TTemplate _ | TTrue | TFalse | TRecord | TIf | TMatch
  | TFn | TBang => true
  | _ => false
  end.

Definition starts_expression (kind : TokenKind) : bool :=
  starts_operand_only kind
  || match kind with TLeftParen | TLeftBracket | TLeftBrace | TMinus => true | _ => false end.

(** ** The colons of conditional operators *)

(** An open bracket: the [?] tokens looking for their [:], whether it is a
    list's, and whether a [:] would separate an entry's key from its value. *)
Record Level : Type := mkLevel {
  level_questions : list nat;
  level_list : bool;
  level_entry_key : bool;
}.

Definition no_questions (l : Level) : Level := mkLevel [] (level_list l) (level_entry_key l).

Definition kind_at (tokens : list Token) (n : nat) : option TokenKind := token_kind <$> tokens !! n.

(** The [?] to report: the last one an expression can follow. *)
Definition innermost_question (tokens : list Token) (pending : list nat) : option nat :=
  find (fun question => match kind_at tokens (S question) with
                        | Some kind => starts_expression kind
                        | None => false
                        end) (reverse pending).

Fixpoint ternary_scan (tokens rest : list Token) (index : nat) (outer : list Level) (level : Level)
    (colons : gmap nat (Span * Span)) : gmap nat (Span * Span) :=
  match rest with
  | [] => colons
  | token :: rest =>
      let next := ternary_scan tokens rest (S index) in
      match token_kind token with
      | TQuestion =>
          next outer (mkLevel (level_questions level ++ [index]) (level_list level) (level_entry_key level))
            colons
      | TLeftParen | TLeftBrace => next (level :: outer) (mkLevel [] false false) colons
      | TLeftBracket => next (level :: outer) (mkLevel [] true true) colons
      | TRightParen | TRightBracket | TRightBrace =>
          match outer with
          | enclosing :: outer => next outer enclosing colons
          | [] => next [] (no_questions level) colons
          end
      | TColon =>
          let pending := level_questions level in
          let level' := mkLevel [] (level_list level) false in
          if level_entry_key level then next outer level' colons
          else
            match innermost_question tokens pending ≫= (tokens !!.) with
            | None => next outer level' colons
            | Some innermost =>
                next outer level'
                  (foldl (fun colons question =>
                     <[question := (token_span innermost, token_span token)]> colons) colons pending)
            end
      | TComma => next outer (mkLevel [] (level_list level) (level_list level)) colons
      | TSemicolon | TLet => next outer (no_questions level) colons
      | TEof => colons
      | _ => next outer level colons
      end
  end.

Definition ternary_colons (tokens : list Token) : gmap nat (Span * Span) :=
  ternary_scan tokens tokens 0 [] (mkLevel [] false false) ∅.

(** ** Doc comments *)

Definition slash : char := ch "/".

(** [doc_line_text]: what follows [///], without one leading space. *)
Definition doc_line_text (comment : chars) : option chars :=
  match comment with
  | a :: b :: c :: rest =>
      if (a =? slash) && (b =? slash) && (c =? slash) && negb (starts_with [slash] rest) then
        Some (match rest with x :: after => if x =? 32 then after else rest | [] => rest end)
      else None
  | _ => None
  end%N.

(** The lines of [trivia] that a break ends, each with its offset. *)
Fixpoint trivia_lines (trivia : chars) (line_start : Z) (line : chars) : list (Z * chars) :=
  match trivia with
  | [] => []
  | x :: trivia =>
      if is_break x then
        (line_start, reverse line) :: trivia_lines trivia (line_start + width (reverse line) + 1) []
      else trivia_lines trivia line_start (x :: line)
  end.

(** The doc lines that end at the item, last first; [lines] is read upward. *)
Fixpoint doc_lines (lines : list (Z * chars)) : list (Span * chars) :=
  match lines with
  | [] => []
  | (start, line) :: lines =>
      let comment := trim_start line in
      match comment with
      | [] => doc_lines lines
      | _ :: _ =>
          match doc_line_text comment with
          | None => []
          | Some line_text =>
              let comment_start := start + (width line - width comment) in
              (mkSpan comment_start (comment_start + width (trim_end comment)), trim_end line_text)
                :: doc_lines lines
          end
      end
  end.

Fixpoint join_lines (lines : list chars) : chars :=
  match lines with
  | [] => []
  | [line] => line
  | line :: lines => line ++ newline :: join_lines lines
  end.

(** The doc comment in [trivia], the text from [trivia_start] to the item. *)
Definition doc_comment_before (trivia : chars) (trivia_start : Z) (after_token : bool) : option DocComment :=
  let lines := trivia_lines trivia trivia_start [] in
  let skipped := (if after_token then 1 else 0)%nat in
  if (length lines <? skipped)%nat then None
  else
    let found := doc_lines (reverse (drop skipped lines)) in
    match head found, last found with
    | Some (last, _), Some (first, _) =>
        Some (mkDocComment (text_from (join_lines (map snd (reverse found)))) (span_join first last))
    | _, _ => None
    end.

(** ** Integer literals *)

(** [str::parse::<i128>]: an optional sign and digits, within the range. *)
Definition I128_MIN : Z := - 2 ^ 127.
Definition I128_MAX : Z := 2 ^ 127 - 1.

Fixpoint digits_value (digits : bytes) (value : Z) : option Z :=
  match digits with
  | [] => Some value
  | d :: digits =>
      let n := Z.of_N (byte_val d) in
      if (48 <=? n) && (n <=? 57) then digits_value digits (10 * value + (n - 48)) else None
  end.

Definition parse_i128 (text : string) : option Z :=
  let unsigned digits :=
    match digits with [] => None | _ :: _ => digits_value digits 0 end in
  let value :=
    match bytes_of text with
    | "+"%char :: digits => unsigned digits
    | "-"%char :: digits => Z.opp <$> unsigned digits
    | digits => unsigned digits
    end in
  match value with
  | Some n => if (I128_MIN <=? n) && (n <=? I128_MAX) then Some n else None
  | None => None
  end.

(** ** Diagnostics *)

Definition mixed_list (span : Span) : Diagnostic :=
  with_note
    (diagnostic "K1001" "a list literal cannot mix `key: value` entries and plain elements" span)
    "write every element as `key: value` for a list of `record { name, value }` entries, or write none that way".

Definition arrow_function (span : Span) : Diagnostic :=
  habit_diagnostic HArrowFunction "arrow functions are not Krit syntax" span.

Definition ternary (span : Span) : Diagnostic :=
  habit_diagnostic HTernary "the conditional operator `? :` is not Krit syntax" span.

Definition is_settled (error : Diagnostic) : bool :=
  bool_decide (diag_code error = "K1005")
  || starts_with (bytes_of "K11") (bytes_of (diag_code error)).

Definition binary (left : Expression) (operator : BinaryOperator) (right : Expression) : Expression :=
  mkExpression (EBinary left operator right) (span_join (expression_span left) (expression_span right)).

(** ** Primitives *)

Section Parsing.
Context (text : chars) (tokens : list Token).

Definition current : Parse Token :=
  fun p => match tokens !! cursor p with Some token => (p, Parsed token) | None => (p, Panicked) end.

Definition previous : Parse Token :=
  fun p =>
    match cursor p with
    | O => (p, Panicked)
    | S n => match tokens !! n with Some token => (p, Parsed token) | None => (p, Panicked) end
    end.

Definition advance : Parse Token :=
  let! token := current in
  match token_kind token with
  | TEof => ret token
  | _ => let! _ := modify (fun p => set_cursor p (S (cursor p))) in ret token
  end.

(** [self.tokens.get(self.cursor + n).map(|token| &token.kind)]. *)
Definition ahead (n : nat) : Parse (option TokenKind) :=
  let! p := parser in ret (kind_at tokens (cursor p + n)).

Definition check (kind : TokenKind) : Parse bool :=
  let! token := current in ret (bool_decide (token_kind token = kind)).

Definition consume_span (kind : TokenKind) : Parse (option Span) :=
  let! found := check kind in
  if found then let! token := advance in ret (Some (token_span token)) else ret None.

Definition consume (kind : TokenKind) : Parse bool :=
  let! found := check kind in
  if found then let! _ := advance in ret true else ret false.

Definition expected {A} (what : string) : Parse A :=
  let! token := current in
  fail (diagnostic "K1002"
    ("expected " +:+ what +:+ ", found " +:+ token_description (token_kind token)) (token_span token)).

Definition expect (kind : TokenKind) : Parse Token :=
  let! found := check kind in
  if found then advance else expected (token_description kind).

Definition structural (p : Parser) : Z := depth p + chain_depth p.
Definition structural_depth : Parse Z := let! p := parser in ret (structural p).

Definition reach (level : Z) (span : Span) : Parse unit :=
  if MAX_STRUCTURAL_DEPTH <? level then fail (structural_error span)
  else modify (fun p => set_peak p (peak p `max` level)).

Definition enter (span : Span) : Parse unit :=
  let! _ := modify (fun p => set_depth p (depth p + 1)) in
  let! p := parser in
  if MAX_NESTING_DEPTH <? depth p then fail (nesting_error span)
  else reach (structural p) span.

Definition enter_chain_link (span : Span) : Parse unit :=
  let! _ := modify (fun p => set_chain_depth p (chain_depth p + 1)) in
  let! level := structural_depth in
  reach level span.

(** [self.depth -= n]. *)
Definition leave (n : Z) : Parse unit :=
  let! p := parser in
  let! open := usize_sub (depth p) n in
  modify (fun p => set_depth p open).

Definition nested {A} (span : Span) (parse : Parse A) : Parse A :=
  let! _ := enter span in
  let! r := attempt parse in
  let! _ := leave 1 in
  lift r.

(** The loop of [nested_levels]: the levels opened, and whether all were. *)
Fixpoint enter_levels (levels : nat) (span : Span) (opened : Z) : Parse (Z * result unit Diagnostic) :=
  match levels with
  | O => ret (opened, Ok tt)
  | S levels =>
      let! entered := attempt (enter span) in
      match entered with
      | Ok _ => enter_levels levels span (opened + 1)
      | Err d => ret (opened + 1, Err d)
      end
  end.

Definition nested_levels {A} (levels : Z) (span : Span) (parse : Parse A) : Parse A :=
  let! (opened, entered) := enter_levels (Z.to_nat levels) span 0 in
  let! r := attempt (let! _ := lift entered in parse) in
  let! _ := leave opened in
  lift r.

Definition with_construction {A} (allowed : bool) (parse : Parse A) : Parse A :=
  let! p := parser in
  let! _ := modify (fun p => set_construction_allowed p allowed) in
  let! r := attempt parse in
  let! _ := modify (fun q => set_construction_allowed q (construction_allowed p)) in
  lift r.

(** [std::mem::replace(&mut self.peak, value)]. *)
Definition replace_peak (value : Z) : Parse Z :=
  let! p := parser in
  let! _ := modify (fun p => set_peak p value) in
  ret (peak p).
Definition raise_peak (value : Z) : Parse unit := modify (fun p => set_peak p (peak p `max` value)).

(** A loop whose body goes on with a new state or ends. *)
Fixpoint loop_for {S A} (rounds : nat) (body : S -> Parse (S + A)) (s : S) : Parse A :=
  match rounds with
  | O => exhausted
  | Datatypes.S rounds =>
      let! next := body s in
      match next with inl s => loop_for rounds body s | inr a => ret a end
  end.
Definition loop {S A} (body : S -> Parse (S + A)) (s : S) : Parse A :=
  loop_for (Datatypes.S (length tokens)) body s.

(** The end of a round of a comma-separated list that [close] ends: whether
    another element follows. *)
Definition another (close : TokenKind) : Parse bool :=
  let! comma := consume TComma in
  if comma then let! closed := check close in ret (negb closed) else ret false.

Definition identifier : Parse (string * Span) :=
  let! token := advance in
  match token_kind token with
  | TIdentifier name => ret (name, token_span token)
  | kind => fail (diagnostic "K1002" ("expected identifier, found " +:+ token_description kind) (token_span token))
  end.

Definition reserved_names : list string :=
  ["print"; "println"; "ai_invoke"; "Some"; "None"; "Ok"; "Err"; "json_encode"; "json_decode";
   "config_string"; "http_request"; "log_info"; "log_error"; "secret"].

Definition is_identifier (kind : TokenKind) : bool :=
  match kind with TIdentifier _ => true | _ => false end.

Definition binding_name : Parse (string * Span) :=
  let! (name, span) := identifier in
  let! token := current in
  if bool_decide (name = "mut") && is_identifier (token_kind token) then
    fail (word_diagnostic HMutation name span)
  else if bool_decide (name ∈ reserved_names) then
    fail (diagnostic "K2002" ("`" +:+ name +:+ "` is a reserved built-in name") span)
  else ret (name, span).

(** ** Lookahead for other languages' constructs *)

(** Whether no line break separates two spans. *)
Definition same_line (before after : Span) : bool :=
  match text_get text (span_end before) (span_start after) with
  | Some between => negb (existsb is_break between)
  | None => false
  end.

Definition follows_as_operand (word : Span) (next : Token) : bool :=
  same_line word (token_span next)
  && (starts_operand_only (token_kind next)
      || bool_decide (token_kind next = TLeftBracket) && (span_end word <? span_start (token_span next))).

(** The [)] that closes the [(] the scan starts at. *)
Fixpoint matching_from (rest : list Token) (index : nat) (open : nat) (stop : TokenKind -> bool) : option nat :=
  match rest with
  | [] => None
  | token :: rest =>
      match token_kind token with
      | TLeftParen => matching_from rest (S index) (S open) stop
      | TRightParen =>
          match open with
          | O => None
          | S O => Some index
          | S open => matching_from rest (S index) open stop
          end
      | TEof => None
      | kind => if stop kind then None else matching_from rest (S index) open stop
      end
  end.

Definition matching_paren (open : nat) (stop : TokenKind -> bool) : option nat :=
  matching_from (drop open tokens) open 0 stop.

(** [self.tokens[open]] is in range when its parenthesis is matched. *)
Definition arrow_after_group (open : nat) : option Diagnostic :=
  match matching_paren open (fun kind => bool_decide (kind = TSemicolon)) with
  | None => None
  | Some close =>
      match tokens !! S close, tokens !! open with
      | Some arrow, Some group =>
          if bool_decide (token_kind arrow = TFatArrow)
          then Some (arrow_function (span_join (token_span group) (token_span arrow)))
          else None
      | _, _ => None
      end
  end.

Definition word_habit (word : string) (span : Span) : Parse (option Diagnostic) :=
  match of_word word with
  | None => ret None
  | Some habit =>
      let! next := current in
      let! p := parser in
      let foreign :=
        follows_as_operand span next
        || bool_decide (token_kind next = TLeftParen) && is_some (arrow_after_group (cursor p)) in
      ret (if foreign then Some (word_diagnostic habit word span) else None)
  end.

Definition statement_habit : Parse (option Diagnostic) :=
  let! word := current in
  let! p := parser in
  match token_kind word with
  | TIdentifier name =>
      match of_word name, kind_at tokens (S (cursor p)) with
      | Some habit, Some kind =>
          let foreign :=
            match kind with
            | TLeftBrace | TColon => true
            | TLeftParen =>
                match matching_paren (S (cursor p))
                        (fun kind => match kind with TLeftBrace | TRightBrace => true | _ => false end) with
                | Some close => bool_decide (kind_at tokens (S close) = Some TLeftBrace)
                | None => false
                end
            | _ => false
            end in
          ret (if foreign then Some (word_diagnostic habit name (token_span word)) else None)
      | _, _ => ret None
      end
  | _ => ret None
  end.

Definition assignment_after (target : Span) : Parse (option Diagnostic) :=
  let! token := current in
  ret (if bool_decide (token_kind token = TEqual)
       then Some (habit_diagnostic HMutation "assignment is not Krit syntax" (span_join target (token_span token)))
       else None).

(** The compound operator that ends at [unexpected], which was just read. *)
Definition mutation_operator (unexpected : Token) : Parse (option Diagnostic) :=
  let! p := parser in
  let! index :=
    match token_kind unexpected with
    | TEof => ret (cursor p)
    | _ => match cursor p with O => panic | S n => ret n end
    end in
  match index with
  | O => ret None
  | S before_index =>
      match tokens !! before_index with
      | None => panic
      | Some before =>
          let touching (first second : Token) (operator : string) :=
            ret (if span_end (token_span first) =? span_start (token_span second)
                 then Some (habit_diagnostic HMutation ("`" +:+ operator +:+ "` is not Krit syntax")
                              (span_join (token_span first) (token_span second)))
                 else None) in
          match token_kind before, token_kind unexpected with
          | TPlus, TEqual => touching before unexpected "+="
          | TMinus, TEqual => touching before unexpected "-="
          | TStar, TEqual => touching before unexpected "*="
          | TSlash, TEqual => touching before unexpected "/="
          | TPercent, TEqual => touching before unexpected "%="
          | TPlus, TPlus => touching before unexpected "++"
          | TMinus, _ =>
              match before_index with
              | O => ret None
              | S first_index =>
                  match tokens !! first_index with
                  | None => panic
                  | Some first =>
                      if bool_decide (token_kind first = TMinus) then touching first before "--" else ret None
                  end
              end
          | _, _ => ret None
          end
      end
  end.

Definition else_return (else_span : Span) : Parse (option Diagnostic) :=
  let! brace := check TLeftBrace in
  let! p := parser in
  let word := (cursor p + if brace then 1 else 0)%nat in
  ret (match tokens !! word, tokens !! S word with
       | Some word, Some next =>
           if bool_decide (token_kind word = TIdentifier "return") && follows_as_operand (token_span word) next
           then Some (habit_diagnostic HElseReturn "`return` in an `else` block is not Krit syntax"
                        (span_join else_span (token_span word)))
           else None
       | _, _ => None
       end).

Definition from_name (name : string) : option ContractRecord :=
  if bool_decide (name = "HttpRequest") then Some HttpRequest
  else if bool_decide (name = "HttpResponse") then Some HttpResponse
  else if bool_decide (name = "HttpHeader") then Some HttpHeader
  else if bool_decide (name = "LogField") then Some LogField
  else None.

Definition restricted_construction (contract : ContractRecord) (name : Span) : Parse (option Diagnostic) :=
  let! p := parser in
  match kind_at tokens (cursor p + 1), kind_at tokens (cursor p + 2) with
  | Some field, Some after =>
      if is_identifier field && match after with TColon | TComma => true | _ => false end then
        let! token := current in
        ret (Some (with_note
          (diagnostic "K1001"
             ("`" +:+ contract_name contract
              +:+ " { ... }` cannot be written directly as an `if` condition or a `match` subject")
             (span_join name (token_span token)))
          ("wrap the construction in parentheses: `(" +:+ contract_name contract +:+ " { ... })`")))
      else ret None
  | _, _ => ret None
  end.

Definition doc_comment : Parse (option DocComment) :=
  let! p := parser in
  let! token := current in
  let! before :=
    match cursor p with
    | O => ret None
    | S n => match tokens !! n with Some before => ret (Some (token_span before)) | None => panic end
    end in
  let trivia_start := match before with Some span => span_end span | None => 0 end in
  match text_get text trivia_start (span_start (token_span token)) with
  | Some trivia => ret (doc_comment_before trivia trivia_start (is_some before))
  | None => panic
  end.

Definition entrypoint_keyword : Parse (option string) :=
  let! token := current in
  let! p := parser in
  match token_kind token with
  | TIdentifier name =>
      if bool_decide (name = "queue") || bool_decide (name = "schedule") then
        let follows_literal :=
          match kind_at tokens (cursor p + 1) with Some (TString _ | TTemplate _) => true | _ => false end in
        let follows_fn := bool_decide (kind_at tokens (cursor p + 2) = Some TFn) in
        ret (if follows_literal && follows_fn then Some name else None)
      else ret None
  | _ => ret None
  end.

Definition nested_entrypoint_keyword : Parse (option string) :=
  let! webhook := check TWebhook in
  if webhook then ret (Some "webhook") else entrypoint_keyword.

Definition only_top_level {A} (keyword : string) : Parse A :=
  let! token := current in
  fail (diagnostic "K1004" ("`" +:+ keyword +:+ "` declarations are only allowed at the top level")
          (token_span token)).

(** ** Types *)

Definition span_of (t : TypeAnnotation) : Span := match t with mkTypeAnnotation _ span => span end.

(** The types without arguments. *)
Definition plain_type (name : string) : option TypeKind :=
  if bool_decide (name = "Int") then Some TyInt
  else if bool_decide (name = "Bool") then Some TyBool
  else if bool_decide (name = "String") then Some TyString
  else if bool_decide (name = "Unit") then Some TyUnit
  else if bool_decide (name = "HttpHeader") then Some TyHttpHeader
  else if bool_decide (name = "HttpRequest") then Some TyHttpRequest
  else if bool_decide (name = "HttpResponse") then Some TyHttpResponse
  else if bool_decide (name = "LogField") then Some TyLogField
  else if bool_decide (name = "QueueJob") then Some TyQueueJob
  else if bool_decide (name = "ScheduleEvent") then Some TyScheduleEvent
  else if bool_decide (name = "DatabaseTransaction") then Some TyDatabaseTransaction
  else if bool_decide (name = "Secret") then Some TySecret
  else None.

Section Types.
Variable type_annotation' : Parse TypeAnnotation.

Definition record_type_field_list : Parse (list RecordTypeField) :=
  let! closed := check TRightBrace in
  let! fields :=
    if closed then ret []
    else
      loop (fun '(fields, seen) =>
        let! (name, name_span) := identifier in
        if bool_decide (name ∈ seen) then
          fail (diagnostic "K2002" ("duplicate record type field `" +:+ name +:+ "`") name_span)
        else
          let! _ := expect TColon in
          let! annotation := type_annotation' in
          let fields := fields ++ [mkRecordTypeField name annotation (span_join name_span (span_of annotation))] in
          let! more := another TRightBrace in
          ret (if more then inl (fields, name :: seen) else inr fields)) ([], []) in
  let! _ := expect TRightBrace in
  ret fields.

Definition record_type_fields : Parse (list RecordTypeField) :=
  let! brace := expect TLeftBrace in
  nested (token_span brace) record_type_field_list.

(** One type in angle brackets. *)
Definition type_argument : Parse TypeAnnotation :=
  let! angle := expect TLess in
  let! element := nested (token_span angle) type_annotation' in
  let! _ := expect TGreater in
  ret element.

Definition type_kind (name : string) (span : Span) : Parse TypeKind :=
  match plain_type name with
  | Some kind => ret kind
  | None =>
      if bool_decide (name = "List") then let! element := type_argument in ret (TyList element)
      else if bool_decide (name = "Option") then let! element := type_argument in ret (TyOption element)
      else if bool_decide (name = "Result") then
        let! angle := expect TLess in
        let! (value, error) := nested (token_span angle)
          (let! value := type_annotation' in
           let! _ := expect TComma in
           let! error := type_annotation' in
           ret (value, error)) in
        let! _ := expect TGreater in
        ret (TyResult value error)
      else if bool_decide (name = "Record") then let! fields := record_type_fields in ret (TyRecord fields)
      else fail (diagnostic "K1002" ("unknown built-in type `" +:+ name +:+ "`") span)
  end.

Definition type_annotation_body : Parse TypeAnnotation :=
  let! first := current in
  let! token := advance in
  match token_kind token with
  | TIdentifier name =>
      let! kind := type_kind name (token_span token) in
      let! last := previous in
      ret (mkTypeAnnotation kind (span_join (token_span first) (token_span last)))
  | kind =>
      let error := diagnostic "K1002" ("expected built-in type, found " +:+ token_description kind)
        (token_span token) in
      let! closed := check TRightParen in
      fail (if bool_decide (kind = TLeftParen) && closed
            then with_note error "the unit type is spelled `Unit`; `()` is the unit value"
            else error)
  end.
End Types.

Fixpoint type_annotation_at (fuel : nat) : Parse TypeAnnotation :=
  match fuel with
  | O => exhausted
  | S fuel => type_annotation_body (type_annotation_at fuel)
  end.
Definition type_annotation : Parse TypeAnnotation := type_annotation_at DEPTH_FUEL.

(** [if self.consume(&token) { Some(self.type_annotation()?) } else { None }]. *)
Definition annotation_after (kind : TokenKind) : Parse (option TypeAnnotation) :=
  let! found := consume kind in
  if found then let! annotation := type_annotation in ret (Some annotation) else ret None.

Definition parameters : Parse (list FnParameter) :=
  let! _ := expect TLeftParen in
  let! closed := check TRightParen in
  let! parameters :=
    if closed then ret []
    else
      loop (fun '(parameters, seen) =>
        let! (name, span) := binding_name in
        if negb (bool_decide (name = "_")) && bool_decide (name ∈ seen) then
          fail (diagnostic "K2002" ("duplicate parameter `" +:+ name +:+ "`") span)
        else
          let! annotation := annotation_after TColon in
          let parameters := parameters ++ [mkFnParameter name annotation span] in
          let! more := another TRightParen in
          ret (if more then inl (parameters, name :: seen) else inr parameters)) ([], []) in
  let! _ := expect TRightParen in
  ret parameters.

(** ** Patterns *)

Definition variant_of (name : string) : option VariantName :=
  if bool_decide (name = "Some") then Some VSome
  else if bool_decide (name = "None") then Some VNone
  else if bool_decide (name = "Ok") then Some VOk
  else if bool_decide (name = "Err") then Some VErr
  else None.

Definition example_pattern (v : VariantName) : string :=
  match v with VSome => "Some(value)" | VNone => "None" | VOk => "Ok(value)" | VErr => "Err(error)" end.

Definition list_pattern_part : Parse Pattern :=
  let! token := current in
  let refused shown :=
    fail (diagnostic "K1003" ("the head and tail of a list pattern are names or `_`, found " +:+ shown)
            (token_span token)) in
  match token_kind token with
  | TIdentifier name =>
      if bool_decide (name = "_") then
        let! _ := advance in ret (mkPattern PWildcard (token_span token))
      else if is_some (variant_of name) then refused ("`" +:+ name +:+ "`")
      else let! (binding, span) := binding_name in ret (mkPattern (PBinder binding) span)
  | kind => refused (token_description kind)
  end.

Definition same_binder (head tail : Pattern) : option string :=
  match pattern_kind head, pattern_kind tail with
  | PBinder head, PBinder tail => if bool_decide (head = tail) then Some tail else None
  | _, _ => None
  end.

Definition list_shape {A} (start : Span) : Parse A :=
  let! token := current in
  fail (diagnostic "K1003" "a list pattern is `[]` or `[head, ..tail]`" (span_join start (token_span token))).

Definition list_pattern : Parse Pattern :=
  let! bracket := expect TLeftBracket in
  let start := token_span bracket in
  let! empty := consume_span TRightBracket in
  match empty with
  | Some stop => ret (mkPattern PEmptyList (span_join start stop))
  | None =>
      let! head := list_pattern_part in
      let! comma := consume TComma in
      let! dots := if comma then consume TDotDot else ret false in
      if negb dots then list_shape start
      else
        let! tail := list_pattern_part in
        match same_binder head tail with
        | Some name =>
            fail (diagnostic "K2002" ("duplicate match binding `" +:+ name +:+ "`")
                    (span_join (pattern_span head) (pattern_span tail)))
        | None =>
            let! closed := check TRightBracket in
            if negb closed then list_shape start
            else
              let! stop := advance in
              ret (mkPattern (PCons head tail) (span_join start (token_span stop)))
        end
  end.

Definition none_binds_nothing {A} : Parse A :=
  let! token := current in
  fail (diagnostic "K1003" "`None` does not bind a value" (token_span token)).

Definition must_bind {A} (variant : VariantName) (start : Span) : Parse A :=
  let! token := current in
  fail (diagnostic "K1003" ("`" +:+ variant_str variant +:+ "` must bind one value")
          (span_join start (token_span token))).

Definition unknown_variant (name : string) (span : Span) : Diagnostic :=
  diagnostic "K1003" ("unknown match variant `" +:+ name +:+ "`") span.

Section Patterns.
Variable pattern' : Parse Pattern.

Definition payload_pattern (variant : VariantName) (start : Span) : Parse Pattern :=
  let! paren := check TLeftParen in
  if negb paren then must_bind variant start
  else
    let! open := advance in
    let! payload := nested (token_span open) pattern' in
    let! stop := expect TRightParen in
    ret (mkPattern (PVariant variant (Some payload)) (span_join start (token_span stop))).

(** A pattern that starts with the name of a variant, which is current. *)
Definition variant_pattern_from (variant : VariantName) (start : Span) : Parse Pattern :=
  let! _ := advance in
  match variant with
  | VNone =>
      let! paren := check TLeftParen in
      if paren then none_binds_nothing else ret (mkPattern (PVariant VNone None) start)
  | _ => payload_pattern variant start
  end.

Definition pattern_body : Parse Pattern :=
  let! token := current in
  match token_kind token with
  | TLeftBracket => list_pattern
  | TIdentifier name =>
      let! next := ahead 1 in
      match variant_of name with
      | Some variant => variant_pattern_from variant (token_span token)
      | None =>
          if bool_decide (name = "_") then
            let! _ := advance in ret (mkPattern PWildcard (token_span token))
          else if bool_decide (next = Some TLeftParen) then fail (unknown_variant name (token_span token))
          else let! (binding, span) := binding_name in ret (mkPattern (PBinder binding) span)
      end
  | kind =>
      fail (with_note
        (diagnostic "K1003" ("expected a match pattern, found " +:+ token_description kind) (token_span token))
        "a pattern is a name, `_`, `Some(p)`, `None`, `Ok(p)`, `Err(p)`, `[]`, or `[head, ..tail]`; to compare values, use `if` and `==`")
  end.
End Patterns.

Fixpoint pattern_at (fuel : nat) : Parse Pattern :=
  match fuel with O => exhausted | S fuel => pattern_body (pattern_at fuel) end.
Definition pattern : Parse Pattern := pattern_at DEPTH_FUEL.

Definition at_variant_pattern : Parse bool :=
  let! token := current in
  let! next := ahead 1 in
  ret (match token_kind token with
       | TIdentifier name =>
           match variant_of name with
           | Some VNone => true
           | Some _ => bool_decide (next = Some TLeftParen)
           | None => false
           end
       | _ => false
       end).

Definition variant_name : Parse (VariantName * Span) :=
  let! token := advance in
  match token_kind token with
  | TIdentifier name =>
      match variant_of name with
      | Some variant => ret (variant, token_span token)
      | None => fail (unknown_variant name (token_span token))
      end
  | _ =>
      fail (diagnostic "K1003" "expected `Some(name)`, `None`, `Ok(name)`, or `Err(name)`" (token_span token))
  end.

Definition payload_binding (variant : VariantName) (name_span : Span) : Parse (option string) :=
  let! paren := consume TLeftParen in
  if negb paren then must_bind variant name_span
  else
    let! nests := at_variant_pattern in
    let! list_ := check TLeftBracket in
    if nests || list_ then
      let! token := current in
      fail (with_note
        (diagnostic "K3014"
           ("let-else patterns do not nest: `" +:+ variant_str variant
            +:+ "(...)` binds its payload to a name or `_`") (token_span token))
        "bind the payload with this let-else, then decide it with another let-else or a `match`, whose patterns nest")
    else
      let! (binding, _) := binding_name in
      let! _ := expect TRightParen in
      ret (Some binding).

Definition variant_binding (variant : VariantName) (name_span : Span) : Parse (option string) :=
  match variant with
  | VNone =>
      let! paren := check TLeftParen in
      if paren then none_binds_nothing else ret None
  | _ => payload_binding variant name_span
  end.

Definition variant_pattern : Parse VariantPattern :=
  let! (variant, name_span) := variant_name in
  let! binding := variant_binding variant name_span in
  let! last := previous in
  ret (mkVariantPattern variant binding (span_join name_span (token_span last))).

(** ** Operators *)

(** One left-associative precedence level. *)
Definition binary_chain (operand : Parse Expression) (operator : TokenKind -> option BinaryOperator)
  : Parse Expression :=
  let! base := structural_depth in
  let! outer_peak := replace_peak base in
  let! first := operand in
  let! p := parser in
  let! height := usize_sub (peak p) base in
  let! expression :=
    loop (fun '(expression, height) =>
      let! token := current in
      match operator (token_kind token) with
      | None => ret (inr expression)
      | Some operator =>
          let! token := advance in
          let! _ := modify (fun p => set_peak p base) in
          let! rhs := operand in
          let! p := parser in
          let! reached := usize_sub (peak p) base in
          let height := 1 + height `max` reached in
          let! _ := reach (base + height) (token_span token) in
          ret (inl (binary expression operator rhs, height))
      end) (first, height) in
  let! _ := raise_peak outer_peak in
  ret expression.

Definition or_operator (kind : TokenKind) : option BinaryOperator :=
  match kind with TOrOr => Some Or | _ => None end.
Definition and_operator (kind : TokenKind) : option BinaryOperator :=
  match kind with TAndAnd => Some And | _ => None end.
Definition equality_operator (kind : TokenKind) : option BinaryOperator :=
  match kind with TEqualEqual => Some Equal | TBangEqual => Some NotEqual | _ => None end.
Definition comparison_operator (kind : TokenKind) : option BinaryOperator :=
  match kind with
  | TLess => Some Less | TLessEqual => Some LessEqual
  | TGreater => Some Greater | TGreaterEqual => Some GreaterEqual
  | _ => None
  end.
Definition term_operator (kind : TokenKind) : option BinaryOperator :=
  match kind with TPlus => Some Add | TMinus => Some Subtract | _ => None end.
Definition factor_operator (kind : TokenKind) : option BinaryOperator :=
  match kind with TStar => Some Multiply | TSlash => Some Divide | TPercent => Some Remainder | _ => None end.

(** ** Expressions *)

Section Expressions.
Variable expression' : Parse Expression.
Variable block' : Parse Block.
Variable unary' : Parse Expression.

(** The value of a hole: a variable and its field accesses. *)
Fixpoint hole_fields (base height : Z) (value : Expression) (path : list (string * Span)) : Parse Expression :=
  match path with
  | [] => ret value
  | (field, field_span) :: path =>
      let dot := mkSpan (usize_saturating_sub (span_start field_span) 1) (span_start field_span) in
      let! _ := enter dot in
      let! _ := reach (base + height + 1) dot in
      hole_fields base (height + 1)
        (mkExpression (EFieldAccess value field) (span_join (expression_span value) field_span)) path
  end.

Definition hole_path (path : list (string * Span)) (hole : Span) : Parse Expression :=
  let! base := structural_depth in
  let! p := parser in
  match path with
  | [] =>
      fail (with_note (diagnostic "K3015" "interpolation hole is empty" hole)
              "write the name of a `String` value between `\(` and `)`")
  | (name, name_span) :: path =>
      let! value := hole_fields base 0 (mkExpression (EVariable name) name_span) path in
      let! _ := modify (fun q => set_depth q (depth p)) in
      ret value
  end.

Fixpoint string_parts (parts : list TemplatePart) : Parse (list StringPart) :=
  match parts with
  | [] => ret []
  | TextPart value span :: parts =>
      let! parts := string_parts parts in ret (PartText value span :: parts)
  | HolePart path span :: parts =>
      let! value := hole_path path span in
      let! parts := string_parts parts in
      ret (PartHole value span :: parts)
  end.

Definition interpolation (template : Template) (span : Span) : Parse Expression :=
  let! parts := nested span (string_parts (template_parts template)) in
  ret (mkExpression (EInterpolation parts) span).

(** A call's arguments, up to its parenthesis. *)
Definition arguments : Parse (list Expression) :=
  let! closed := check TRightParen in
  if closed then ret []
  else
    loop (fun arguments =>
      let! argument := expression' in
      let! more := another TRightParen in
      ret (if more then inl (arguments ++ [argument]) else inr (arguments ++ [argument]))) [].

(** [[:]], which is refused. *)
Definition empty_entry_list (start : Span) : Parse unit :=
  let! colon := check TColon in
  let! p := parser in
  match tokens !! S (cursor p) with
  | Some next =>
      if colon && bool_decide (token_kind next = TRightBracket) then
        fail (with_note
          (diagnostic "K1001" "`[:]` is not Krit syntax" (span_join start (token_span next)))
          "the empty list is `[]`, for entry lists too")
      else ret tt
  | None => ret tt
  end.

Definition list_elements (start : Span) : Parse Expression :=
  let! _ := empty_entry_list start in
  let! closed := check TRightBracket in
  let! (elements, entries) :=
    if closed then ret ([], [])
    else
      loop (fun '(elements, entries) =>
        let! element := expression' in
        let! token := current in
        let! (elements, entries) :=
          if bool_decide (token_kind token = TColon) then
            match elements with
            | _ :: _ => fail (mixed_list (span_join (expression_span element) (token_span token)))
            | [] =>
                let! _ := advance in
                let! value := expression' in
                ret ([], entries ++ [mkListEntry element value
                  (span_join (expression_span element) (expression_span value))])
            end
          else
            match entries with
            | _ :: _ => fail (mixed_list (expression_span element))
            | [] => ret (elements ++ [element], [])
            end in
        let! more := another TRightBracket in
        ret (if more then inl (elements, entries) else inr (elements, entries))) ([], []) in
  let! stop := expect TRightBracket in
  ret (mkExpression (match entries with [] => EList elements | _ :: _ => EEntryList entries end)
         (span_join start (token_span stop))).

Definition list_literal (start : Span) : Parse Expression :=
  nested start (with_construction true (list_elements start)).

Definition record_fields (start : Span) : Parse Expression :=
  let! _ := expect TLeftBrace in
  let! closed := check TRightBrace in
  let! fields :=
    if closed then ret []
    else
      loop (fun '(fields, seen) =>
        let! (name, name_span) := identifier in
        if bool_decide (name ∈ seen) then
          fail (diagnostic "K2002" ("duplicate record field `" +:+ name +:+ "`") name_span)
        else
          let! _ := expect TColon in
          let! value := expression' in
          let fields := fields ++ [mkRecordField name value (span_join name_span (expression_span value))] in
          let! more := another TRightBrace in
          ret (if more then inl (fields, name :: seen) else inr fields)) ([], []) in
  let! stop := expect TRightBrace in
  ret (mkExpression (ERecord fields) (span_join start (token_span stop))).

Definition record (start : Span) : Parse Expression :=
  nested start (with_construction true (record_fields start)).

(** The value of a construction's field, written or punned. *)
Definition construction_value (name : string) (name_span : Span) : Parse Expression :=
  let! colon := consume TColon in
  if colon then expression'
  else
    let! comma := check TComma in
    let! brace := check TRightBrace in
    if comma || brace then ret (mkExpression (EVariable name) name_span)
    else expected "`:`, `,`, or `}`".

Definition construction_fields (contract : ContractRecord) (start : Span) : Parse Expression :=
  let! closed := check TRightBrace in
  let! fields :=
    if closed then ret []
    else
      loop (fun fields =>
        let! (name, name_span) := identifier in
        let! value := construction_value name name_span in
        let fields := fields ++ [mkConstructField name name_span value
          (span_join name_span (expression_span value))] in
        let! more := another TRightBrace in
        ret (if more then inl fields else inr fields)) [] in
  let! stop := expect TRightBrace in
  ret (mkExpression (EConstruct contract start fields) (span_join start (token_span stop))).

Definition construction (contract : ContractRecord) (start : Span) : Parse Expression :=
  let! _ := expect TLeftBrace in
  nested start (with_construction true (construction_fields contract start)).

Definition parenthesized (open : Span) : Parse Expression :=
  let! p := parser in
  match cursor p with
  | O => panic
  | S open_index =>
      let! closed := check TRightParen in
      if closed then
        let! stop := advance in
        let! token := current in
        if bool_decide (token_kind token = TFatArrow) then
          fail (arrow_function (span_join open (token_span token)))
        else ret (mkExpression EUnit (span_join open (token_span stop)))
      else
        let! r := attempt (nested open (with_construction true expression')) in
        match r with
        | Err error =>
            fail (if is_settled error then error else default error (arrow_after_group open_index))
        | Ok expression =>
            let! closed := check TRightParen in
            if negb closed then
              match arrow_after_group open_index with
              | Some error => fail error
              | None => expected (token_description TRightParen)
              end
            else
              let! stop := advance in
              let! token := current in
              if bool_decide (token_kind token = TFatArrow) then
                fail (arrow_function (span_join open (token_span token)))
              else ret (mkExpression (expression_kind expression) (span_join open (token_span stop)))
        end
  end.

(** The conditional operator the [?] at [question], just read, starts. *)
Definition ternary_after (question : Span) : Parse (option Diagnostic) :=
  let! saved := parser in
  match cursor saved with
  | O => panic
  | S question_index =>
      let! _ := modify (fun p => set_speculations p (speculations p + 1)) in
      let! branch := attempt (nested question expression') in
      let! p := parser in
      let! left_over := usize_sub (speculations p) 1 in
      let! _ := modify (fun p => set_speculations p left_over) in
      let! token := current in
      let colon := if bool_decide (token_kind token = TColon) then Some (token_span token) else None in
      let! _ := modify (fun p => mkParser (cursor saved) (depth saved) (chain_depth saved) (peak saved)
                                   (speculations p) (construction_allowed p)) in
      let reported colon := ret ((fun colon => ternary (span_join question colon)) <$> colon) in
      match branch with
      | Ok _ => reported colon
      | Err error =>
          if bool_decide (diag_code error = "K1005") || bool_decide (diag_code error = habit_code HTernary)
          then ret (Some error)
          else if left_over =? 0 then reported (snd <$> ternary_colons tokens !! question_index)
          else ret None
      end
  end.

(** Why the [?] at [question], just read, is no postfix operator. *)
Definition question_misuse (question : Span) : Parse (option Diagnostic) :=
  let! next := current in
  let! p := parser in
  if negb (starts_expression (token_kind next)) then ret None
  else if negb (starts_operand_only (token_kind next)) then
    match cursor p with
    | O => panic
    | S question_index =>
        ret ((fun '(innermost, colon) => ternary (span_join innermost colon))
               <$> ternary_colons tokens !! question_index)
    end
  else
    let! error := ternary_after question in
    ret (match error with
         | Some error => Some error
         | None =>
             if same_line question (token_span next) then
               Some (with_note (diagnostic "K1001" "unexpected `?`" question)
                 "postfix `?` takes no operand after it; to choose between two values, write `if condition { a } else { b }`")
             else None
         end).

(** ** Blocks and statements *)

Definition is_fn_name (kind : TokenKind) (next : option TokenKind) : bool :=
  bool_decide (kind = TFn) && match next with Some (TIdentifier _) => true | _ => false end.

(** The parts of a function that follow its name. *)
Definition function_rest (block : Parse Block)
  : Parse (list FnParameter * option TypeAnnotation * Block) :=
  let! parameters := parameters in
  let! return_type := annotation_after TThinArrow in
  let! body := block in
  ret (parameters, return_type, body).

Section Statements.
Variables (expression : Parse Expression) (block : Parse Block).

Definition expected_else (pattern : VariantPattern) (complement : string) : Parse unit :=
  let! token := current in
  if bool_decide (token_kind token = TElse) then ret tt
  else
    let written :=
      match vp_binding pattern with
      | Some binding => variant_str (vp_variant pattern) +:+ "(" +:+ binding +:+ ")"
      | None => variant_str (vp_variant pattern)
      end in
    fail (with_note
      (diagnostic "K1002"
         ("expected `else` after the value of `let " +:+ written +:+ "`, found "
          +:+ token_description (token_kind token)) (token_span token))
      ("a `let` with a variant pattern names what happens otherwise: `let " +:+ written
       +:+ " = value else " +:+ complement +:+ " => fallback;`")).

Definition let_else_arm : Parse VariantArm :=
  let! arm_pattern := variant_pattern in
  let! _ := expect TFatArrow in
  let! value := expression in
  ret (mkVariantArm (vp_variant arm_pattern) (vp_binding arm_pattern) value
         (span_join (vp_span arm_pattern) (expression_span value))).

Definition let_else (start : Span) : Parse Statement :=
  let! pattern := variant_pattern in
  let! annotation := annotation_after TColon in
  let! _ := expect TEqual in
  let! value := expression in
  let! assignment := assignment_after (expression_span value) in
  let! _ := refuse assignment in
  let complement := example_pattern (variant_complement (vp_variant pattern)) in
  let! _ := expected_else pattern complement in
  let! before := previous in
  let! _ :=
    if bool_decide (token_kind before = TRightBrace) then
      fail (with_note
        (diagnostic "K3014" "the value of a let-else cannot end in `}`" (expression_span value))
        "bind the value with `let` first and use its name here, or wrap the value in parentheses, so its `}` cannot be read as part of the `else`")
    else ret tt in
  let! else_token := advance in
  let else_span := token_span else_token in
  let! habit := else_return else_span in
  let! _ := refuse habit in
  let! token := current in
  let! _ :=
    if bool_decide (token_kind token = TLeftBrace) then
      fail (with_note
        (diagnostic "K1003" "expected a let-else arm after `else`, found `{`" (token_span token))
        ("a let-else names its other variant like a `match` arm: `else " +:+ complement +:+ " => fallback;`"))
    else ret tt in
  let! arm := nested else_span let_else_arm in
  let! stop := expect TSemicolon in
  ret (mkStatement (SLetElse pattern annotation value else_span arm) (span_join start (token_span stop))).

Definition let_declaration : Parse Statement :=
  let! let_token := expect TLet in
  let start := token_span let_token in
  let! variant := at_variant_pattern in
  if variant then let_else start
  else
    let! (name, _) := binding_name in
    let! annotation := annotation_after TColon in
    let! _ := expect TEqual in
    let! value := expression in
    let! assignment := assignment_after (expression_span value) in
    let! _ := refuse assignment in
    let! stop := expect TSemicolon in
    ret (mkStatement (SLet name annotation value) (span_join start (token_span stop))).

Definition function_declaration : Parse Statement :=
  let! doc := doc_comment in
  let! start := expect TFn in
  let! (name, _) := binding_name in
  let! (parameters, return_type, body) := function_rest block in
  ret (mkStatement (SFunction name parameters return_type body doc)
         (span_join (token_span start) (block_span body))).

(** An expression where a statement starts, with the refusals around it. *)
Definition expression_statement : Parse Expression :=
  let! habit := statement_habit in
  let! _ := refuse habit in
  let! value := expression in
  let! assignment := assignment_after (expression_span value) in
  let! _ := refuse assignment in
  ret value.

Definition statement : Parse Statement :=
  let! keyword := nested_entrypoint_keyword in
  match keyword with
  | Some keyword => only_top_level keyword
  | None =>
      let! token := current in
      let! next := ahead 1 in
      if bool_decide (token_kind token = TLet) then let_declaration
      else if is_fn_name (token_kind token) next then function_declaration
      else
        let! value := expression_statement in
        let! semicolon := expect TSemicolon in
        ret (mkStatement (SExpression value) (span_join (expression_span value) (token_span semicolon)))
  end.

Definition block_contents (start : Span) : Parse Block :=
  let! (statements, tail) :=
    loop (fun statements =>
      let! token := current in
      let! next := ahead 1 in
      if bool_decide (token_kind token = TRightBrace) then ret (inr (statements, None))
      else if bool_decide (token_kind token = TEof) then expected "`}`"
      else
        let! keyword := nested_entrypoint_keyword in
        match keyword with
        | Some keyword => only_top_level keyword
        | None =>
            if bool_decide (token_kind token = TLet) || is_fn_name (token_kind token) next then
              let! s := statement in ret (inl (statements ++ [s]))
            else
              let! value := expression_statement in
              let! semicolon := consume TSemicolon in
              if semicolon then
                let! stop := previous in
                ret (inl (statements
                  ++ [mkStatement (SExpression value) (span_join (expression_span value) (token_span stop))]))
              else
                let! closed := check TRightBrace in
                if closed then ret (inr (statements, Some value)) else expected "`;` or `}`"
        end) [] in
  let! stop := expect TRightBrace in
  ret (mkBlock statements tail (span_join start (token_span stop))).
End Statements.

Definition block : Parse Block :=
  let! brace := expect TLeftBrace in
  nested (token_span brace)
    (with_construction true (block_contents expression' block' (token_span brace))).

(** ** Conditionals, functions and matches *)

(** The links of a chain, innermost last, around its final block. *)
Definition if_link (link : Span * Expression * Block) (alternative : Expression) : Expression :=
  let '(start, condition, consequent) := link in
  mkExpression (EIf condition consequent alternative) (span_join start (expression_span alternative)).

Definition if_expression (start : Span) : Parse Expression :=
  let! p := parser in
  let! (links, alternative) :=
    loop (fun '(links, link_start) =>
      let! condition := nested link_start (with_construction false expression') in
      let! consequent := block in
      let! else_token := expect TElse in
      let! habit := else_return (token_span else_token) in
      let! _ := refuse habit in
      let links := links ++ [(link_start, condition, consequent)] in
      let! chained := check TIf in
      if chained then
        let! if_token := advance in
        let! _ := enter_chain_link (token_span if_token) in
        ret (inl (links, token_span if_token))
      else
        let! braced := check TLeftBrace in
        if braced then
          let! alternative := block in
          ret (inr (links, mkExpression (EBlock alternative) (block_span alternative)))
        else expected "`if` or `{`") ([], start) in
  let! _ := modify (fun q => set_chain_depth q (chain_depth p)) in
  ret (foldr if_link alternative links).

Definition function_expression (start : Span) : Parse Expression :=
  let! paren := check TLeftParen in
  if negb paren then expected "`(` after `fn`"
  else
    let! (parameters, return_type, body) := function_rest block in
    ret (mkExpression (EFunction parameters return_type body) (span_join start (block_span body))).

Definition match_arms : Parse (list MatchArm) :=
  let! arms :=
    loop (fun arms =>
      let! token := current in
      if bool_decide (token_kind token = TRightBrace) then ret (inr arms)
      else if bool_decide (token_kind token = TEof) then expected "match arm or `}`"
      else
        let! arm := pattern in
        let! _ := expect TFatArrow in
        let levels := usize_saturating_sub (constructor_depth arm) 1 in
        let! value := nested_levels levels (pattern_span arm) expression' in
        let arms := arms ++ [mkMatchArm arm value (span_join (pattern_span arm) (expression_span value))] in
        let! comma := consume TComma in
        let! closed := check TRightBrace in
        if negb comma && negb closed then expected "`,` or `}`" else ret (inl arms)) [] in
  match arms with
  | [] =>
      let! token := current in
      fail (diagnostic "K1003" "a `match` needs an arm for each outcome, found `}`" (token_span token))
  | _ :: _ => ret arms
  end.

Definition match_expression (start : Span) : Parse Expression :=
  let! subject := nested start (with_construction false expression') in
  let! open := expect TLeftBrace in
  let! arms := nested (token_span open) (with_construction true match_arms) in
  let! stop := expect TRightBrace in
  ret (mkExpression (EMatch subject arms) (span_join start (token_span stop))).

(** ** Operands *)

Definition named (name : string) (span : Span) : Parse Expression :=
  let! token := current in
  let! _ :=
    if bool_decide (token_kind token = TFatArrow) then
      fail (arrow_function (span_join span (token_span token)))
    else ret tt in
  let! habit := word_habit name span in
  let! _ := refuse habit in
  let variable := ret (mkExpression (EVariable name) span) in
  match from_name name with
  | Some contract =>
      let! brace := check TLeftBrace in
      if brace then
        let! p := parser in
        if construction_allowed p then construction contract span
        else
          let! error := restricted_construction contract span in
          let! _ := refuse error in
          variable
      else variable
  | None => variable
  end.

Definition primary : Parse Expression :=
  let! token := advance in
  let span := token_span token in
  match token_kind token with
  | TInteger value =>
      match parse_i128 value with
      | Some n => ret (mkExpression (ELiteral (LInteger n)) span)
      | None => fail (diagnostic "K4005" "integer literal is out of range" span)
      end
  | TString value => ret (mkExpression (ELiteral (LString value)) span)
  | TTemplate template => interpolation template span
  | TTrue => ret (mkExpression (ELiteral (LBoolean true)) span)
  | TFalse => ret (mkExpression (ELiteral (LBoolean false)) span)
  | TIdentifier name => named name span
  | TLeftParen => parenthesized span
  | TLeftBracket => list_literal span
  | TRecord => record span
  | TLeftBrace =>
      let! p := parser in
      match cursor p with
      | O => panic
      | S n =>
          let! _ := modify (fun p => set_cursor p n) in
          let! body := block in
          ret (mkExpression (EBlock body) (block_span body))
      end
  | TIf => if_expression span
  | TMatch => match_expression span
  | TFn => function_expression span
  | kind =>
      let! mutation := mutation_operator token in
      fail (default (diagnostic "K1001" ("unexpected " +:+ token_description kind) span) mutation)
  end.

(** One link of a postfix chain; [height] is that of the tree so far. *)
Definition call_link (base : Z) (expression : Expression) (height : Z)
  : Parse ((Expression * Z) + Expression) :=
  let! token := current in
  match token_kind token with
  | TLeftParen =>
      let! open := advance in
      let! _ := enter (token_span open) in
      let! arguments_depth := structural_depth in
      let! callee_peak := replace_peak arguments_depth in
      let! arguments := with_construction true arguments in
      let! p := parser in
      let! reached := usize_sub (peak p) arguments_depth in
      let height := 1 + height `max` reached in
      let! _ := raise_peak callee_peak in
      let! _ := reach (base + height) (token_span open) in
      let! stop := expect TRightParen in
      ret (inl (mkExpression (ECall expression arguments)
                  (span_join (expression_span expression) (token_span stop)), height))
  | TDot =>
      let! dot := advance in
      let! _ := enter (token_span dot) in
      let height := height + 1 in
      let! _ := reach (base + height) (token_span dot) in
      let! (field, field_span) := identifier in
      ret (inl (mkExpression (EFieldAccess expression field)
                  (span_join (expression_span expression) field_span), height))
  | TLeftBracket =>
      let! before := previous in
      if span_end (token_span before) =? span_start (token_span token) then
        fail (habit_diagnostic HIndexing "indexing with `[...]` is not Krit syntax"
                (span_join (expression_span expression) (token_span token)))
      else ret (inr expression)
  | TQuestion =>
      let! question_token := advance in
      let question := token_span question_token in
      let! error := question_misuse question in
      let! _ := refuse error in
      let! _ := enter question in
      let height := height + 1 in
      let! _ := reach (base + height) question in
      ret (inl (mkExpression (EPropagate expression question)
                  (span_join (expression_span expression) question), height))
  | _ => ret (inr expression)
  end.

Definition call : Parse Expression :=
  let! base := structural_depth in
  let! outer_peak := replace_peak base in
  let! first := primary in
  let! p := parser in
  let! height := usize_sub (peak p) base in
  let! expression := loop (fun '(expression, height) => call_link base expression height) (first, height) in
  let! _ := modify (fun q => set_depth q (depth p)) in
  let! _ := raise_peak outer_peak in
  ret expression.

Definition unary : Parse Expression :=
  let! token := current in
  let prefixed operator :=
    let! start := advance in
    let! operand := nested (token_span start) unary' in
    ret (mkExpression (EUnary operator operand) (span_join (token_span start) (expression_span operand))) in
  match token_kind token with
  | TBang => prefixed Not
  | TMinus => prefixed Negate
  | _ => call
  end.

Definition factor : Parse Expression := binary_chain unary factor_operator.
Definition term : Parse Expression := binary_chain factor term_operator.
Definition comparison : Parse Expression := binary_chain term comparison_operator.
Definition equality : Parse Expression := binary_chain comparison equality_operator.
Definition logical_and : Parse Expression := binary_chain equality and_operator.
Definition logical_or : Parse Expression := binary_chain logical_and or_operator.
End Expressions.

(** The parsers of expressions, blocks and operands, together. *)
Record Grammar : Type := mkGrammar {
  grammar_expression : Parse Expression;
  grammar_block : Parse Block;
  grammar_unary : Parse Expression;
}.

Fixpoint grammar_at (fuel : nat) : Grammar :=
  match fuel with
  | O => mkGrammar exhausted exhausted exhausted
  | S fuel =>
      let '(mkGrammar expression' block' unary') := grammar_at fuel in
      mkGrammar (logical_or expression' block' unary') (block expression' block')
        (unary expression' block' unary')
  end.

Definition expression : Parse Expression := grammar_expression (grammar_at DEPTH_FUEL).
Definition block_of_program : Parse Block := grammar_block (grammar_at DEPTH_FUEL).

(** ** Programs *)

Definition webhook_declaration : Parse Statement :=
  let! doc := doc_comment in
  let! start := expect TWebhook in
  let! _ := expect TFn in
  let! (name, _) := binding_name in
  let! (parameters, return_type, body) := function_rest block_of_program in
  ret (mkStatement (SWebhook name parameters return_type body doc)
         (span_join (token_span start) (block_span body))).

Definition resource_entrypoint_declaration : Parse Statement :=
  let! keyword := entrypoint_keyword in
  match keyword with
  | None => expected "`queue` or `schedule`"
  | Some keyword =>
      let! doc := doc_comment in
      let! start := advance in
      let! token := advance in
      match token_kind token with
      | TString resource =>
          let! _ := expect TFn in
          let! (name, _) := binding_name in
          let! (parameters, return_type, body) := function_rest block_of_program in
          ret (mkStatement
                 ((if bool_decide (keyword = "queue") then SQueueConsumer else SScheduleHandler)
                    resource (token_span token) name parameters return_type body doc)
                 (span_join (token_span start) (block_span body)))
      | _ =>
          fail (diagnostic "K1002"
                  ("`" +:+ keyword +:+ "` declarations require a direct canonical `" +:+ keyword
                   +:+ "` name literal") (token_span token))
      end
  end.

Definition statement_span (s : Statement) : Span := match s with mkStatement _ span => span end.
Definition is_entrypoint (s : Statement) : bool :=
  match s with
  | mkStatement (SWebhook _ _ _ _ _ | SQueueConsumer _ _ _ _ _ _ _ | SScheduleHandler _ _ _ _ _ _ _) _ => true
  | _ => false
  end.

Definition top_statement : Parse Statement :=
  let! webhook := check TWebhook in
  if webhook then webhook_declaration
  else
    let! keyword := entrypoint_keyword in
    match keyword with
    | Some _ => resource_entrypoint_declaration
    | None => statement expression block_of_program
    end.

Definition program : Parse Program :=
  let! statements :=
    loop (fun '(statements, entrypoint) =>
      let! done := check TEof in
      if done then ret (inr statements)
      else
        let! s := top_statement in
        if is_entrypoint s && entrypoint then
          fail (diagnostic "K2002"
            "a source module may declare at most one `webhook`, `queue`, or `schedule` entrypoint"
            (statement_span s))
        else ret (inl (statements ++ [s], entrypoint || is_entrypoint s))) ([], false) in
  ret (mkProgram statements).
End Parsing.

Definition new_parser : Parser := mkParser 0 0 0 0 0 true.

(** [parse]: the program of [tokens], which were lexed from [text]. *)
Definition parse (text : chars) (tokens : list Token) : Outcome Program :=
  snd (program text tokens new_parser).
