(* ===== verification/ParserSpec.v ===== *)
(** * The grammar of Krit

    What a program is, as relations between tokens and syntax trees that know
    nothing of cursors, limits or lookahead: precedence and associativity are
    in [DerivesExpression], whose first argument is the level (0 for [||] to 5
    for [*], 6 for prefix operators, 7 for postfix links, 8 for operands).
    The span of every node runs from its first token to its last.

    And the levels of a tree: the recursion of analysis over it, which counts
    each expression and each block. *)

From S2P Require Import Prelude Utf8 Syntax Tokens Habits Parser.

(** ** Spans and lists *)

(** The span from the first token to the last. *)
Definition over (ts : list Token) : Span :=
  match head ts, last ts with
  | Some first, Some last => span_join (token_span first) (token_span last)
  | _, _ => mkSpan 0 0
  end.

Section CommaLists.
Context {A : Type} (R : list Token -> A -> Prop).

(** Elements with a comma after each. *)
Inductive Elements : list Token -> list A -> Prop :=
| elements_none : Elements [] []
| elements_more ts l us a c :
    Elements ts l -> R us a -> token_kind c = TComma -> Elements (ts ++ us ++ [c]) (l ++ [a]).

(** Elements with commas between them, and perhaps one after the last. *)
Inductive CommaList : list Token -> list A -> Prop :=
| comma_closed ts l : Elements ts l -> CommaList ts l
| comma_open ts l us a : Elements ts l -> R us a -> CommaList (ts ++ us) (l ++ [a]).
End CommaLists.

(** ** Types *)

Inductive DerivesType : list Token -> TypeAnnotation -> Prop :=
| derives_plain t name kind :
    token_kind t = TIdentifier name -> plain_type name = Some kind ->
    DerivesType [t] (mkTypeAnnotation kind (over [t]))
| derives_list t a ts u b :
    token_kind t = TIdentifier "List" -> token_kind a = TLess -> DerivesType ts u -> token_kind b = TGreater ->
    DerivesType ([t; a] ++ ts ++ [b]) (mkTypeAnnotation (TyList u) (over ([t; a] ++ ts ++ [b])))
| derives_option t a ts u b :
    token_kind t = TIdentifier "Option" -> token_kind a = TLess -> DerivesType ts u -> token_kind b = TGreater ->
    DerivesType ([t; a] ++ ts ++ [b]) (mkTypeAnnotation (TyOption u) (over ([t; a] ++ ts ++ [b])))
| derives_result t a ts u c us v b :
    token_kind t = TIdentifier "Result" -> token_kind a = TLess -> DerivesType ts u ->
    token_kind c = TComma -> DerivesType us v -> token_kind b = TGreater ->
    DerivesType ([t; a] ++ ts ++ [c] ++ us ++ [b])
      (mkTypeAnnotation (TyResult u v) (over ([t; a] ++ ts ++ [c] ++ us ++ [b])))
| derives_record_type t o ts fields b :
    token_kind t = TIdentifier "Record" -> token_kind o = TLeftBrace -> CommaList DerivesTypeField ts fields ->
    NoDup (map (fun '(mkRecordTypeField name _ _) => name) fields) -> token_kind b = TRightBrace ->
    DerivesType ([t; o] ++ ts ++ [b]) (mkTypeAnnotation (TyRecord fields) (over ([t; o] ++ ts ++ [b])))
with DerivesTypeField : list Token -> RecordTypeField -> Prop :=
| derives_type_field n name c ts u :
    token_kind n = TIdentifier name -> token_kind c = TColon -> DerivesType ts u ->
    DerivesTypeField ([n; c] ++ ts) (mkRecordTypeField name u (over ([n; c] ++ ts))).

(** An optional annotation after [mark]. *)
Inductive DerivesAnnotation (mark : TokenKind) : list Token -> option TypeAnnotation -> Prop :=
| derives_no_annotation : DerivesAnnotation mark [] None
| derives_annotation c ts u :
    token_kind c = mark -> DerivesType ts u -> DerivesAnnotation mark ([c] ++ ts) (Some u).

Inductive DerivesParameter : list Token -> FnParameter -> Prop :=
| derives_parameter n name ts annotation :
    token_kind n = TIdentifier name -> name ∉ reserved_names -> DerivesAnnotation TColon ts annotation ->
    DerivesParameter ([n] ++ ts) (mkFnParameter name annotation (token_span n)).

(** Parameters other than the discard have names of their own. *)
Definition distinct_parameters (parameters : list FnParameter) : Prop :=
  NoDup (filter (fun name => name <> "_") (map parameter_name parameters)).

Inductive DerivesParameters : list Token -> list FnParameter -> Prop :=
| derives_parameters o ts parameters c :
    token_kind o = TLeftParen -> CommaList DerivesParameter ts parameters ->
    distinct_parameters parameters -> token_kind c = TRightParen ->
    DerivesParameters ([o] ++ ts ++ [c]) parameters.

(** ** Patterns *)

(** A name or [_], which binds it or nothing. *)
Inductive DerivesBinder : list Token -> Pattern -> Prop :=
| derives_wildcard t :
    token_kind t = TIdentifier "_" -> DerivesBinder [t] (mkPattern PWildcard (token_span t))
| derives_binder t name :
    token_kind t = TIdentifier name -> name <> "_" -> name ∉ reserved_names ->
    DerivesBinder [t] (mkPattern (PBinder name) (token_span t)).

Inductive DerivesPattern : list Token -> Pattern -> Prop :=
| derives_pattern_binder ts p : DerivesBinder ts p -> DerivesPattern ts p
| derives_none t :
    token_kind t = TIdentifier "None" -> DerivesPattern [t] (mkPattern (PVariant VNone None) (token_span t))
| derives_payload t variant o ts p c :
    token_kind t = TIdentifier (variant_str variant) -> variant <> VNone -> token_kind o = TLeftParen ->
    DerivesPattern ts p -> token_kind c = TRightParen ->
    DerivesPattern ([t; o] ++ ts ++ [c]) (mkPattern (PVariant variant (Some p)) (over ([t; o] ++ ts ++ [c])))
| derives_empty_list o c :
    token_kind o = TLeftBracket -> token_kind c = TRightBracket ->
    DerivesPattern [o; c] (mkPattern PEmptyList (over [o; c]))
| derives_cons o ts head comma dots us tail c :
    token_kind o = TLeftBracket -> DerivesBinder ts head -> token_kind comma = TComma ->
    token_kind dots = TDotDot -> DerivesBinder us tail -> same_binder head tail = None ->
    token_kind c = TRightBracket ->
    DerivesPattern ([o] ++ ts ++ [comma; dots] ++ us ++ [c])
      (mkPattern (PCons head tail) (over ([o] ++ ts ++ [comma; dots] ++ us ++ [c]))).

(** The pattern of a let-else, which does not nest. *)
Inductive DerivesVariantPattern : list Token -> VariantPattern -> Prop :=
| derives_let_none t :
    token_kind t = TIdentifier "None" ->
    DerivesVariantPattern [t] (mkVariantPattern VNone None (over [t]))
| derives_let_some t variant o n name c :
    token_kind t = TIdentifier (variant_str variant) -> variant <> VNone -> token_kind o = TLeftParen ->
    token_kind n = TIdentifier name -> name ∉ reserved_names -> token_kind c = TRightParen ->
    DerivesVariantPattern [t; o; n; c] (mkVariantPattern variant (Some name) (over [t; o; n; c])).

(** ** Expressions *)

Definition operator_at (level : nat) : TokenKind -> option BinaryOperator :=
  match level with
  | 0%nat => or_operator | 1%nat => and_operator | 2%nat => equality_operator
  | 3%nat => comparison_operator | 4%nat => term_operator | 5%nat => factor_operator
  | _ => fun _ => None
  end.

Definition prefix_operator (kind : TokenKind) : option UnaryOperator :=
  match kind with TBang => Some Not | TMinus => Some Negate | _ => None end.

Definition literal_of (kind : TokenKind) : option ValueLiteral :=
  match kind with
  | TInteger digits => LInteger <$> parse_i128 digits
  | TString value => Some (LString value)
  | TTrue => Some (LBoolean true)
  | TFalse => Some (LBoolean false)
  | _ => None
  end.

(** The value of a hole: its first name, and a field access for each other. *)
Definition hole_value (path : list (string * Span)) : option Expression :=
  match path with
  | [] => None
  | (name, span) :: fields =>
      Some (foldl (fun value '(field, field_span) =>
              mkExpression (EFieldAccess value field) (span_join (expression_span value) field_span))
              (mkExpression (EVariable name) span) fields)
  end.

Inductive DerivesPart : TemplatePart -> StringPart -> Prop :=
| derives_text value span : DerivesPart (TextPart value span) (PartText value span)
| derives_hole path span value :
    hole_value path = Some value -> DerivesPart (HolePart path span) (PartHole value span).

Inductive DerivesExpression : nat -> list Token -> Expression -> Prop :=
| derives_operand level ts e : DerivesExpression (S level) ts e -> DerivesExpression level ts e
| derives_binary level ts e t operator us f :
    DerivesExpression level ts e -> operator_at level (token_kind t) = Some operator ->
    DerivesExpression (S level) us f ->
    DerivesExpression level (ts ++ [t] ++ us) (mkExpression (EBinary e operator f) (over (ts ++ [t] ++ us)))
| derives_unary t operator ts e :
    prefix_operator (token_kind t) = Some operator -> DerivesExpression 6 ts e ->
    DerivesExpression 6 ([t] ++ ts) (mkExpression (EUnary operator e) (over ([t] ++ ts)))
| derives_call ts e o us arguments c :
    DerivesExpression 7 ts e -> token_kind o = TLeftParen -> CommaList (DerivesExpression 0) us arguments ->
    token_kind c = TRightParen ->
    DerivesExpression 7 (ts ++ [o] ++ us ++ [c]) (mkExpression (ECall e arguments) (over (ts ++ [o] ++ us ++ [c])))
| derives_field ts e d n field :
    DerivesExpression 7 ts e -> token_kind d = TDot -> token_kind n = TIdentifier field ->
    DerivesExpression 7 (ts ++ [d; n]) (mkExpression (EFieldAccess e field) (over (ts ++ [d; n])))
| derives_propagate ts e q :
    DerivesExpression 7 ts e -> token_kind q = TQuestion ->
    DerivesExpression 7 (ts ++ [q]) (mkExpression (EPropagate e (token_span q)) (over (ts ++ [q])))
| derives_literal t literal :
    literal_of (token_kind t) = Some literal ->
    DerivesExpression 8 [t] (mkExpression (ELiteral literal) (over [t]))
| derives_interpolation t template parts :
    token_kind t = TTemplate template -> Forall2 DerivesPart (template_parts template) parts ->
    DerivesExpression 8 [t] (mkExpression (EInterpolation parts) (over [t]))
| derives_variable t name :
    token_kind t = TIdentifier name -> DerivesExpression 8 [t] (mkExpression (EVariable name) (over [t]))
| derives_unit o c :
    token_kind o = TLeftParen -> token_kind c = TRightParen ->
    DerivesExpression 8 [o; c] (mkExpression EUnit (over [o; c]))
| derives_parenthesized o ts e c :
    token_kind o = TLeftParen -> DerivesExpression 0 ts e -> token_kind c = TRightParen ->
    DerivesExpression 8 ([o] ++ ts ++ [c]) (mkExpression (expression_kind e) (over ([o] ++ ts ++ [c])))
| derives_list_literal o ts elements c :
    token_kind o = TLeftBracket -> CommaList (DerivesExpression 0) ts elements -> token_kind c = TRightBracket ->
    DerivesExpression 8 ([o] ++ ts ++ [c]) (mkExpression (EList elements) (over ([o] ++ ts ++ [c])))
| derives_entry_list o ts entries c :
    token_kind o = TLeftBracket -> CommaList DerivesEntry ts entries -> token_kind c = TRightBracket ->
    DerivesExpression 8 ([o] ++ ts ++ [c]) (mkExpression (EEntryList entries) (over ([o] ++ ts ++ [c])))
| derives_record r o ts fields c :
    token_kind r = TRecord -> token_kind o = TLeftBrace -> CommaList DerivesField ts fields ->
    NoDup (map (fun '(mkRecordField name _ _) => name) fields) -> token_kind c = TRightBrace ->
    DerivesExpression 8 ([r; o] ++ ts ++ [c]) (mkExpression (ERecord fields) (over ([r; o] ++ ts ++ [c])))
| derives_construction n name contract o ts fields c :
    token_kind n = TIdentifier name -> from_name name = Some contract -> token_kind o = TLeftBrace ->
    CommaList DerivesConstructField ts fields -> token_kind c = TRightBrace ->
    DerivesExpression 8 ([n; o] ++ ts ++ [c])
      (mkExpression (EConstruct contract (token_span n) fields) (over ([n; o] ++ ts ++ [c])))
| derives_block_expression ts b :
    DerivesBlock ts b -> DerivesExpression 8 ts (mkExpression (EBlock b) (block_span b))
| derives_if_expression ts e : DerivesIf ts e -> DerivesExpression 8 ts e
| derives_function f ts parameters us return_type vs body :
    token_kind f = TFn -> DerivesParameters ts parameters -> DerivesAnnotation TThinArrow us return_type ->
    DerivesBlock vs body ->
    DerivesExpression 8 ([f] ++ ts ++ us ++ vs)
      (mkExpression (EFunction parameters return_type body) (over ([f] ++ ts ++ us ++ vs)))
| derives_match m ts subject o us arms c :
    token_kind m = TMatch -> DerivesExpression 0 ts subject -> token_kind o = TLeftBrace ->
    CommaList DerivesArm us arms -> arms <> [] -> token_kind c = TRightBrace ->
    DerivesExpression 8 ([m] ++ ts ++ [o] ++ us ++ [c])
      (mkExpression (EMatch subject arms) (over ([m] ++ ts ++ [o] ++ us ++ [c])))
with DerivesIf : list Token -> Expression -> Prop :=
| derives_if i ts condition us consequent e vs alternative :
    token_kind i = TIf -> DerivesExpression 0 ts condition -> DerivesBlock us consequent ->
    token_kind e = TElse -> DerivesElse vs alternative ->
    DerivesIf ([i] ++ ts ++ us ++ [e] ++ vs)
      (mkExpression (EIf condition consequent alternative) (over ([i] ++ ts ++ us ++ [e] ++ vs)))
with DerivesElse : list Token -> Expression -> Prop :=
| derives_else_block ts b : DerivesBlock ts b -> DerivesElse ts (mkExpression (EBlock b) (block_span b))
| derives_else_if ts e : DerivesIf ts e -> DerivesElse ts e
with DerivesEntry : list Token -> ListEntry -> Prop :=
| derives_entry ts key c us value :
    DerivesExpression 0 ts key -> token_kind c = TColon -> DerivesExpression 0 us value ->
    DerivesEntry (ts ++ [c] ++ us) (mkListEntry key value (over (ts ++ [c] ++ us)))
with DerivesField : list Token -> RecordField -> Prop :=
| derives_record_field n name c ts value :
    token_kind n = TIdentifier name -> token_kind c = TColon -> DerivesExpression 0 ts value ->
    DerivesField ([n; c] ++ ts) (mkRecordField name value (over ([n; c] ++ ts)))
with DerivesConstructField : list Token -> ConstructField -> Prop :=
| derives_written n name c ts value :
    token_kind n = TIdentifier name -> token_kind c = TColon -> DerivesExpression 0 ts value ->
    DerivesConstructField ([n; c] ++ ts) (mkConstructField name (token_span n) value (over ([n; c] ++ ts)))
| derives_punned n name :
    token_kind n = TIdentifier name ->
    DerivesConstructField [n]
      (mkConstructField name (token_span n) (mkExpression (EVariable name) (token_span n)) (over [n]))
with DerivesArm : list Token -> MatchArm -> Prop :=
| derives_arm ts p a us value :
    DerivesPattern ts p -> token_kind a = TFatArrow -> DerivesExpression 0 us value ->
    DerivesArm (ts ++ [a] ++ us) (mkMatchArm p value (over (ts ++ [a] ++ us)))
with DerivesBlock : list Token -> Block -> Prop :=
| derives_block o ts statements us tail c :
    token_kind o = TLeftBrace -> DerivesStatements ts statements -> DerivesTail us tail ->
    token_kind c = TRightBrace ->
    DerivesBlock ([o] ++ ts ++ us ++ [c]) (mkBlock statements tail (over ([o] ++ ts ++ us ++ [c])))
with DerivesTail : list Token -> option Expression -> Prop :=
| derives_no_tail : DerivesTail [] None
| derives_tail ts e : DerivesExpression 0 ts e -> DerivesTail ts (Some e)
with DerivesStatements : list Token -> list Statement -> Prop :=
| derives_no_statements : DerivesStatements [] []
| derives_statements ts l us s :
    DerivesStatements ts l -> DerivesStatement us s -> DerivesStatements (ts ++ us) (l ++ [s])
with DerivesStatement : list Token -> Statement -> Prop :=
| derives_let t n name ts annotation q us value s :
    token_kind t = TLet -> token_kind n = TIdentifier name -> name ∉ reserved_names ->
    DerivesAnnotation TColon ts annotation -> token_kind q = TEqual -> DerivesExpression 0 us value ->
    token_kind s = TSemicolon ->
    DerivesStatement ([t; n] ++ ts ++ [q] ++ us ++ [s])
      (mkStatement (SLet name annotation value) (over ([t; n] ++ ts ++ [q] ++ us ++ [s])))
| derives_let_else t ps p ts annotation q us value e arm_ts arm s :
    token_kind t = TLet -> DerivesVariantPattern ps p -> DerivesAnnotation TColon ts annotation ->
    token_kind q = TEqual -> DerivesExpression 0 us value -> token_kind e = TElse ->
    DerivesLetElseArm arm_ts arm -> token_kind s = TSemicolon ->
    DerivesStatement ([t] ++ ps ++ ts ++ [q] ++ us ++ [e] ++ arm_ts ++ [s])
      (mkStatement (SLetElse p annotation value (token_span e) arm)
         (over ([t] ++ ps ++ ts ++ [q] ++ us ++ [e] ++ arm_ts ++ [s])))
| derives_function_declaration f n name ts parameters us return_type vs body doc :
    token_kind f = TFn -> token_kind n = TIdentifier name -> name ∉ reserved_names ->
    DerivesParameters ts parameters -> DerivesAnnotation TThinArrow us return_type -> DerivesBlock vs body ->
    DerivesStatement ([f; n] ++ ts ++ us ++ vs)
      (mkStatement (SFunction name parameters return_type body doc) (over ([f; n] ++ ts ++ us ++ vs)))
| derives_expression_statement ts e s :
    DerivesExpression 0 ts e -> token_kind s = TSemicolon ->
    DerivesStatement (ts ++ [s]) (mkStatement (SExpression e) (over (ts ++ [s])))
with DerivesLetElseArm : list Token -> VariantArm -> Prop :=
| derives_let_else_arm ps p a ts value :
    DerivesVariantPattern ps p -> token_kind a = TFatArrow -> DerivesExpression 0 ts value ->
    DerivesLetElseArm (ps ++ [a] ++ ts)
      (mkVariantArm (vp_variant p) (vp_binding p) value (over (ps ++ [a] ++ ts))).

(** ** Programs *)

(** A top-level statement, among them the entrypoints. *)
Inductive DerivesTop : list Token -> Statement -> Prop :=
| derives_top_statement ts s : DerivesStatement ts s -> DerivesTop ts s
| derives_webhook w f n name ts parameters us return_type vs body doc :
    token_kind w = TWebhook -> token_kind f = TFn -> token_kind n = TIdentifier name -> name ∉ reserved_names ->
    DerivesParameters ts parameters -> DerivesAnnotation TThinArrow us return_type -> DerivesBlock vs body ->
    DerivesTop ([w; f; n] ++ ts ++ us ++ vs)
      (mkStatement (SWebhook name parameters return_type body doc) (over ([w; f; n] ++ ts ++ us ++ vs)))
| derives_queue q r resource f n name ts parameters us return_type vs body doc :
    token_kind q = TIdentifier "queue" -> token_kind r = TString resource -> token_kind f = TFn ->
    token_kind n = TIdentifier name -> name ∉ reserved_names ->
    DerivesParameters ts parameters -> DerivesAnnotation TThinArrow us return_type -> DerivesBlock vs body ->
    DerivesTop ([q; r; f; n] ++ ts ++ us ++ vs)
      (mkStatement (SQueueConsumer resource (token_span r) name parameters return_type body doc)
         (over ([q; r; f; n] ++ ts ++ us ++ vs)))
| derives_schedule q r resource f n name ts parameters us return_type vs body doc :
    token_kind q = TIdentifier "schedule" -> token_kind r = TString resource -> token_kind f = TFn ->
    token_kind n = TIdentifier name -> name ∉ reserved_names ->
    DerivesParameters ts parameters -> DerivesAnnotation TThinArrow us return_type -> DerivesBlock vs body ->
    DerivesTop ([q; r; f; n] ++ ts ++ us ++ vs)
      (mkStatement (SScheduleHandler resource (token_span r) name parameters return_type body doc)
         (over ([q; r; f; n] ++ ts ++ us ++ vs))).

Inductive DerivesStatementsTop : list Token -> list Statement -> Prop :=
| derives_top_none : DerivesStatementsTop [] []
| derives_top_more ts l us s :
    DerivesStatementsTop ts l -> DerivesTop us s -> DerivesStatementsTop (ts ++ us) (l ++ [s]).

(** A program: statements, at most one entrypoint among them, and the end. *)
Inductive DerivesProgram : list Token -> Program -> Prop :=
| derives_program ts statements eof :
    DerivesStatementsTop ts statements -> (length (filter (fun s => is_entrypoint s = true) statements) <= 1)%nat ->
    token_kind eof = TEof -> DerivesProgram (ts ++ [eof]) (mkProgram statements).

(** ** The levels of a tree *)

Definition most (levels : list Z) : Z := foldr Z.max 0 levels.

Fixpoint levels_of (e : Expression) : Z :=
  match e with
  | mkExpression kind _ =>
      1 + match kind with
          | ELiteral _ | EUnit | EVariable _ => 0
          | EInterpolation parts =>
              most (map (fun part => match part with PartText _ _ => 0 | PartHole value _ => levels_of value end) parts)
          | EList elements => most (map levels_of elements)
          | EEntryList entries =>
              most (map (fun '(mkListEntry key value _) => levels_of key `max` levels_of value) entries)
          | ERecord fields => most (map (fun '(mkRecordField _ value _) => levels_of value) fields)
          | EConstruct _ _ fields => most (map (fun '(mkConstructField _ _ value _) => levels_of value) fields)
          | EFieldAccess value _ => levels_of value
          | EBlock block => block_levels block
          | EIf condition consequent alternative =>
              levels_of condition `max` block_levels consequent `max` levels_of alternative
          | EFunction _ _ body => block_levels body
          | ECall callee arguments => levels_of callee `max` most (map levels_of arguments)
          | EPropagate operand _ => levels_of operand
          | EMatch subject arms =>
              levels_of subject `max` most (map (fun '(mkMatchArm _ value _) => levels_of value) arms)
          | EUnary _ operand => levels_of operand
          | EBinary lhs _ rhs => levels_of lhs `max` levels_of rhs
          end
  end
with block_levels (b : Block) : Z :=
  match b with
  | mkBlock statements tail _ =>
      1 + most (map statement_levels statements) `max` match tail with Some e => levels_of e | None => 0 end
  end
with statement_levels (s : Statement) : Z :=
  match s with
  | mkStatement kind _ =>
      match kind with
      | SLet _ _ value => levels_of value
      | SLetElse _ _ value _ (mkVariantArm _ _ fallback _) => levels_of value `max` levels_of fallback
      | SFunction _ _ _ body _ | SWebhook _ _ _ body _ | SQueueConsumer _ _ _ _ _ body _
      | SScheduleHandler _ _ _ _ _ body _ => block_levels body
      | SExpression e => levels_of e
      end
  end.

Definition program_levels (p : Program) : Z := most (map statement_levels (program_statements p)).

(** The levels analysis and lowering allow ([limits.rs]). *)
Definition MAX_TREE_DEPTH : Z := MAX_STRUCTURAL_DEPTH + 2 * MAX_NESTING_DEPTH + 2.
