(* ===== verification/ParserLogic.v ===== *)
(** * A logic of parsing

    Weakest preconditions of the parser's computations, and the judgement
    [spec] the parser is verified with: from a well-formed state a computation
    neither panics nor runs out of fuel; when it answers, it has read some
    tokens and put everything but the cursor and the peak back; when it fails,
    what its callers still rely on holds. *)

From S2P Require Import Prelude Utf8 Syntax Tokens Habits Parser ParserSpec.

(** ** Weakest preconditions *)

Definition wp {A} (m : Parse A) (p : Parser) (Q : A -> Parser -> Prop) (E : Parser -> Prop) : Prop :=
  match m p with
  | (p', Parsed a) => Q a p'
  | (p', Failed _) => E p'
  | (_, Panicked) | (_, Exhausted) => False
  end.

Section Wp.
Context {A B : Type}.
Implicit Types (p : Parser) (E : Parser -> Prop).

Lemma wp_then (m : Parse A) (k : A -> Parse B) p Q E :
  wp m p (fun a p' => wp (k a) p' Q E) E -> wp (bind m k) p Q E.
Proof. unfold wp, bind. by destruct (m p) as [p' []]. Qed.

Lemma wp_weaken (m : Parse A) p (Q Q' : A -> Parser -> Prop) (E E' : Parser -> Prop) :
  wp m p Q E -> (forall a p', Q a p' -> Q' a p') -> (forall p', E p' -> E' p') -> wp m p Q' E'.
Proof. unfold wp. destruct (m p) as [p' []]; auto. Qed.

Lemma wp_attempt (m : Parse A) p (Q : result A Diagnostic -> Parser -> Prop) E :
  wp m p (fun a => Q (Ok a)) (fun p' => forall d, Q (Err d) p') -> wp (attempt m) p Q E.
Proof. unfold wp, attempt. by destruct (m p) as [p' []]. Qed.

Lemma wp_lifted (r : result A Diagnostic) p Q E :
  match r with Ok a => Q a p | Err _ => E p end -> wp (lift r) p Q E.
Proof. by destruct r. Qed.

Lemma wp_done (a : A) p (Q : A -> Parser -> Prop) E : Q a p -> wp (ret a) p Q E.
Proof. done. Qed.
Lemma wp_fail d p (Q : A -> Parser -> Prop) E : E p -> wp (fail d) p Q E.
Proof. done. Qed.
Lemma wp_parser p Q E : Q p p -> wp parser p Q E.
Proof. done. Qed.
Lemma wp_modify f p Q E : Q tt (f p) -> wp (modify f) p Q E.
Proof. done. Qed.
Lemma wp_usize_sub a b p Q E : b <= a -> Q (a - b) p -> wp (usize_sub a b) p Q E.
Proof. intros H HQ. unfold usize_sub. by rewrite (proj2 (Z.leb_le b a)). Qed.
End Wp.

(** ** Tokens and positions *)

Section Logic.
Context (text : chars) (tokens : list Token).

(** The tokens are those of a text: they end at the first end of file, and
    trivia of the text lies between them. *)
Definition end_before (k : nat) : Z :=
  match k with
  | O => 0
  | S n => match tokens !! n with Some before => span_end (token_span before) | None => 0 end
  end.

Record lexical : Prop := mkLexical {
  lexical_end : exists init eof, tokens = init ++ [eof] /\ token_kind eof = TEof
    /\ Forall (fun t => token_kind t <> TEof) init;
  lexical_trivia : forall k t, tokens !! k = Some t ->
    is_Some (text_get text (end_before k) (span_start (token_span t)));
}.

Context (Hlex : lexical).

Definition bound : nat := pred (length tokens).

Lemma token_at n : (n <= bound)%nat ->
  exists t, tokens !! n = Some t /\ (token_kind t <> TEof -> (S n <= bound)%nat).
Proof.
  unfold bound. destruct (lexical_end Hlex) as (init & eof & -> & He & Hi). rewrite length_app. cbn.
  intros Hn. destruct (decide (n < length init)%nat) as [Hl|Hl].
  - destruct (lookup_lt_is_Some_2 init n Hl) as [t Ht]. exists t. split; [by apply lookup_app_l_Some|].
    intros _. lia.
  - assert (n = length init) as -> by lia. exists eof. split; [by apply list_lookup_middle|]. by rewrite He.
Qed.

Lemma token_eof n t : tokens !! n = Some t -> token_kind t = TEof -> n = bound.
Proof.
  unfold bound. destruct (lexical_end Hlex) as (init & eof & -> & He & Hi). rewrite length_app. cbn.
  intros Ht Hk. destruct (decide (n < length init)%nat) as [Hl|Hl].
  - rewrite lookup_app_l in Ht by done. rewrite Forall_lookup in Hi. by destruct (Hi n t Ht).
  - apply lookup_lt_Some in Ht. rewrite length_app in Ht. cbn in Ht. lia.
Qed.

(** [ts] are the tokens from position [a] to position [b]. *)
Definition reads (a : nat) (ts : list Token) (b : nat) : Prop :=
  drop a tokens = ts ++ drop b tokens /\ b = (a + length ts)%nat.

Lemma reads_nil a : reads a [] a.
Proof. split; [done|]. cbn. lia. Qed.

Lemma reads_one a t : tokens !! a = Some t -> reads a [t] (S a).
Proof. intros H. split; [by apply drop_S|cbn; lia]. Qed.

Lemma reads_trans a b c ts us : reads a ts b -> reads b us c -> reads a (ts ++ us) c.
Proof.
  intros [H1 ->] [H2 ->]. split; [by rewrite H1, H2, app_assoc|]. rewrite length_app. lia.
Qed.

(** ** States *)

Record ok (p : Parser) : Prop := mkOk {
  ok_cursor : (cursor p <= bound)%nat;
  ok_depth : 0 <= depth p <= MAX_NESTING_DEPTH;
  ok_chain : 0 <= chain_depth p;
  ok_peak : structural p <= peak p <= MAX_STRUCTURAL_DEPTH;
  ok_speculations : 0 <= speculations p;
}.

Record after (p p' : Parser) (ts : list Token) : Prop := mkAfter {
  after_ok : ok p';
  after_depth : depth p' = depth p;
  after_chain : chain_depth p' = chain_depth p;
  after_speculations : speculations p' = speculations p;
  after_allowed : construction_allowed p' = construction_allowed p;
  after_peak : peak p <= peak p';
  after_reads : reads (cursor p) ts (cursor p');
}.

Lemma after_refl p : ok p -> after p p [].
Proof. intros H. split; [done|done|done|done|done|lia|apply reads_nil]. Qed.

Lemma after_trans p1 p2 p3 ts us : after p1 p2 ts -> after p2 p3 us -> after p1 p3 (ts ++ us).
Proof.
  intros [O1 D1 C1 S1 A1 P1 R1] [O2 D2 C2 S2 A2 P2 R2].
  split; [done|congruence|congruence|congruence|congruence|lia|by eapply reads_trans].
Qed.

Lemma after_structural p p' ts : after p p' ts -> structural p' = structural p.
Proof. intros [_ D C _ _ _ _]. unfold structural. congruence. Qed.

(** What holds after a failure. *)
Record failed_from (p p' : Parser) : Prop := mkFailedFrom {
  failed_cursor : (cursor p' <= bound)%nat;
  failed_depth : depth p <= depth p';
  failed_speculations : speculations p' = speculations p;
  failed_allowed : construction_allowed p' = construction_allowed p;
}.

Lemma failed_refl p : ok p -> failed_from p p.
Proof. intros H. split; [apply H|lia|done|done]. Qed.

Lemma failed_after p p' p'' ts : after p p' ts -> failed_from p' p'' -> failed_from p p''.
Proof.
  intros [O1 D1 C1 S1 A1 P1 R1] [C2 D2 S2 A2]. split; [done|lia|congruence|congruence].
Qed.

(** ** The judgement *)

Definition spec {A} (m : Parse A) (p : Parser) (Q : A -> list Token -> Z -> Prop) : Prop :=
  wp m p (fun a p' => exists ts, after p p' ts /\ Q a ts (peak p')) (failed_from p).

Lemma spec_mono {A} (m : Parse A) p (Q Q' : A -> list Token -> Z -> Prop) :
  spec m p Q -> (forall a ts pk, Q a ts pk -> Q' a ts pk) -> spec m p Q'.
Proof.
  intros H HQ. eapply wp_weaken; [exact H| |done]. intros a p' (ts & HA & HQa). exists ts. auto.
Qed.

Lemma spec_ret {A} (a : A) p (Q : A -> list Token -> Z -> Prop) : ok p -> Q a [] (peak p) -> spec (ret a) p Q.
Proof. intros H HQ. exists []. split; [by apply after_refl|done]. Qed.

Lemma spec_fail {A} d p (Q : A -> list Token -> Z -> Prop) : ok p -> spec (fail d) p Q.
Proof. intros H. by apply failed_refl. Qed.

(** Sequencing: the second part starts where the first ended. *)
Lemma spec_bind {A B} (m : Parse A) (k : A -> Parse B) p Q1 (Q : B -> list Token -> Z -> Prop) :
  spec m p Q1 ->
  (forall a ts p', after p p' ts -> Q1 a ts (peak p') ->
     spec (k a) p' (fun b us pk => Q b (ts ++ us) pk)) ->
  spec (bind m k) p Q.
Proof.
  intros Hm Hk. apply wp_then. eapply wp_weaken; [exact Hm| |done].
  intros a p' (ts & HA & HQ1). eapply wp_weaken; [by eapply Hk| |].
  - intros b p'' (us & HA' & HQ). exists (ts ++ us). split; [by eapply after_trans|done].
  - intros p'' HF. by eapply failed_after.
Qed.

(** Reading the state costs nothing. *)
Lemma spec_parser {B} (k : Parser -> Parse B) p Q : spec (k p) p Q -> spec (let! q := parser in k q) p Q.
Proof. done. Qed.

Lemma spec_structural {B} (k : Z -> Parse B) p Q :
  spec (k (structural p)) p Q -> spec (let! s := structural_depth in k s) p Q.
Proof. done. Qed.

Lemma spec_current {B} (k : Token -> Parse B) p Q : ok p ->
  (forall t, tokens !! cursor p = Some t -> spec (k t) p Q) -> spec (let! t := current tokens in k t) p Q.
Proof.
  intros H Hk. destruct (token_at (cursor p)) as (t & Ht & _); [apply H|].
  unfold spec, wp, bind, current. rewrite Ht. by apply Hk.
Qed.

Lemma spec_check {B} kind (k : bool -> Parse B) p Q : ok p ->
  (forall t, tokens !! cursor p = Some t -> spec (k (bool_decide (token_kind t = kind))) p Q) ->
  spec (let! b := check tokens kind in k b) p Q.
Proof.
  intros H Hk. destruct (token_at (cursor p)) as (t & Ht & _); [apply H|].
  unfold spec, wp, check, bind, current, ret. rewrite Ht. by apply Hk.
Qed.

Lemma spec_ahead {B} n (k : option TokenKind -> Parse B) p Q :
  spec (k (kind_at tokens (cursor p + n))) p Q -> spec (let! o := ahead tokens n in k o) p Q.
Proof. done. Qed.

(** One token on. *)
Lemma step_ok p t : ok p -> tokens !! cursor p = Some t -> token_kind t <> TEof ->
  after p (set_cursor p (S (cursor p))) [t].
Proof.
  intros [C D Ch P S] Ht Hk. destruct (token_at (cursor p)) as (t' & Ht' & Hb); [done|].
  simplify_eq. split; try done; [|cbn; by apply reads_one].
  split; [cbn; auto|done|done|done|done].
Qed.

(** A step that reads exactly [ts] and reaches no higher. *)
Lemma spec_step {A B} (m : Parse A) (k : A -> Parse B) p (R : A -> list Token -> Prop) Q :
  spec m p (fun a ts pk => R a ts /\ pk = peak p) ->
  (forall a ts p', after p p' ts -> peak p' = peak p -> R a ts ->
     spec (k a) p' (fun b us pk => Q b (ts ++ us) pk)) ->
  spec (bind m k) p Q.
Proof. intros Hm Hk. eapply spec_bind; [exact Hm|]. intros a ts p' HA [HR HP]. by eapply Hk. Qed.

Lemma advance_spec p t : ok p -> tokens !! cursor p = Some t -> token_kind t <> TEof ->
  spec (advance tokens) p (fun a ts pk => (a = t /\ ts = [t]) /\ pk = peak p).
Proof.
  intros H Ht Hk. apply spec_current; [done|]. intros t' Ht'. simplify_eq.
  pose proof (step_ok p t H Ht Hk) as HA.
  unfold spec, wp, bind, modify, ret. destruct (token_kind t) eqn:E; try done; exists [t]; by split.
Qed.

Lemma spec_advance {B} (k : Token -> Parse B) p Q t : ok p ->
  tokens !! cursor p = Some t -> token_kind t <> TEof ->
  (forall p', after p p' [t] -> peak p' = peak p -> spec (k t) p' (fun b us pk => Q b ([t] ++ us) pk)) ->
  spec (let! t := advance tokens in k t) p Q.
Proof.
  intros H Ht Hk HQ. eapply spec_step; [by apply (advance_spec p t)|].
  intros a ts p' HA HP [-> ->]. by apply HQ.
Qed.

(** [advance] where the end of the file may be current; it is not passed. *)
Lemma spec_advance_any {B} (k : Token -> Parse B) p (Q : B -> list Token -> Z -> Prop) : ok p ->
  (forall t, tokens !! cursor p = Some t -> token_kind t = TEof -> spec (k t) p Q) ->
  (forall t p', tokens !! cursor p = Some t -> token_kind t <> TEof -> after p p' [t] -> peak p' = peak p ->
     spec (k t) p' (fun b us pk => Q b ([t] ++ us) pk)) ->
  spec (let! t := advance tokens in k t) p Q.
Proof.
  intros H Heof Hk. destruct (token_at (cursor p)) as (t & Ht & _); [apply H|].
  destruct (decide (token_kind t = TEof)) as [Eo|Eo].
  - specialize (Heof t Ht Eo). unfold spec, wp, bind, advance, current. cbn. unfold bind. by rewrite Ht, Eo.
  - apply (spec_advance _ _ _ t); [done|done|done|]. intros p' HA HP. by apply (Hk t).
Qed.

(** The token before the cursor is the last one read. *)
Lemma reads_last a ts b t : reads a ts b -> last ts = Some t -> exists n, b = S n /\ tokens !! n = Some t.
Proof.
  intros [E ->] Hl. apply last_Some in Hl as [us ->]. rewrite length_app. cbn.
  exists (a + length us)%nat. split; [lia|]. rewrite <- lookup_drop, E, <- app_assoc.
  by apply list_lookup_middle.
Qed.

Lemma spec_previous {B} (k : Token -> Parse B) p0 p ts t Q : after p0 p ts -> last ts = Some t ->
  spec (k t) p Q -> spec (let! t := previous tokens in k t) p Q.
Proof.
  intros HA Hl Hk. destruct (reads_last _ _ _ _ (after_reads _ _ _ HA) Hl) as (n & E & Ht).
  unfold spec, wp, bind, previous. by rewrite E, Ht.
Qed.

Lemma expected_spec {A} what p (Q : A -> list Token -> Z -> Prop) : ok p -> spec (expected tokens what) p Q.
Proof. intros H. apply spec_current; [done|]. intros t _. by apply spec_fail. Qed.

Lemma spec_expect {B} kind (k : Token -> Parse B) p Q : ok p -> kind <> TEof ->
  (forall t p', token_kind t = kind -> after p p' [t] -> peak p' = peak p ->
     spec (k t) p' (fun b us pk => Q b ([t] ++ us) pk)) ->
  spec (let! t := expect tokens kind in k t) p Q.
Proof.
  intros H Hk HQ. eapply (spec_step _ _ _ (fun t ts => token_kind t = kind /\ ts = [t])).
  - unfold expect. apply spec_check; [done|]. intros t Ht. case_bool_decide as E; [|by apply expected_spec].
    eapply spec_mono; [apply (advance_spec p t); [done|done|by rewrite E]|]. by intros a ts pk [[-> ->] ->].
  - intros t ts p' HA HP [Ht ->]. by apply HQ.
Qed.

Lemma reads_none a b : reads a [] b -> b = a.
Proof. intros [_ ->]. cbn. lia. Qed.

Lemma spec_consume {B} kind (k : bool -> Parse B) p (Q : B -> list Token -> Z -> Prop) : ok p -> kind <> TEof ->
  (forall t p', token_kind t = kind -> after p p' [t] -> peak p' = peak p ->
     spec (k true) p' (fun b us pk => Q b ([t] ++ us) pk)) ->
  (forall t p', tokens !! cursor p' = Some t -> token_kind t <> kind -> after p p' [] -> peak p' = peak p ->
     spec (k false) p' Q) ->
  spec (let! b := consume tokens kind in k b) p Q.
Proof.
  intros H Hk Htrue Hfalse.
  eapply (spec_step _ _ _ (fun b ts =>
    if b : bool then exists t, token_kind t = kind /\ ts = [t]
    else ts = [] /\ exists t, tokens !! cursor p = Some t /\ token_kind t <> kind)).
  - unfold consume. apply spec_check; [done|]. intros t Ht. case_bool_decide as E.
    + eapply (spec_advance _ _ _ t); [done|done|by rewrite E|]. intros p' HA HP.
      apply spec_ret; [apply HA|]. rewrite app_nil_r, HP. by eauto.
    + apply spec_ret; [done|]. by eauto.
  - intros [] ts p' HA HP HQ.
    + destruct HQ as (t & Ht & ->). by apply (Htrue t).
    + destruct HQ as (-> & t & Ht & Hne). apply (Hfalse t); [|done|done|done].
      by rewrite (reads_none _ _ (after_reads _ _ _ HA)).
Qed.

(** Opening a level and closing it again. *)
Record entered (p q : Parser) : Prop := mkEntered {
  entered_cursor : cursor q = cursor p;
  entered_depth : depth q = depth p + 1;
  entered_chain : chain_depth q = chain_depth p;
  entered_speculations : speculations q = speculations p;
  entered_allowed : construction_allowed q = construction_allowed p;
  entered_peak : peak q = peak p `max` (structural p + 1);
}.

Lemma entered_structural p q : entered p q -> structural q = structural p + 1.
Proof. intros [_ D C _ _ _]. unfold structural. lia. Qed.

Lemma enter_wp span p (Q : unit -> Parser -> Prop) E : ok p ->
  (forall q, entered p q -> ok q -> Q tt q) ->
  (forall q, failed_from p q -> depth q = depth p + 1 -> E q) ->
  wp (enter span) p Q E.
Proof.
  intros [C D Ch P S] HQ HE. unfold enter, reach, wp, bind, modify, parser. cbn.
  unfold structural in *. cbn. destruct (Z.ltb_spec MAX_NESTING_DEPTH (depth p + 1)).
  { apply HE; [split; [done|cbn; lia|done|done]|done]. }
  destruct (Z.ltb_spec MAX_STRUCTURAL_DEPTH (depth p + 1 + chain_depth p)).
  { apply HE; [split; [done|cbn; lia|done|done]|done]. }
  apply HQ; cbn.
  - split; [done|done|done|done|done|]. cbn. unfold structural. lia.
  - split; [done|cbn; lia|done|unfold structural; cbn; lia|done].
Qed.

Lemma leave_wp n p (Q : unit -> Parser -> Prop) E : n <= depth p -> Q tt (set_depth p (depth p - n)) ->
  wp (leave n) p Q E.
Proof.
  intros H HQ. unfold leave, wp, bind, parser, usize_sub. by rewrite (proj2 (Z.leb_le n (depth p))).
Qed.

(** A state between [p] and its parse inside opened levels, back at [p]. *)
Lemma after_leave p q q' ts n : ok p -> ok q -> cursor q = cursor p -> depth q = depth p + n -> 0 <= n ->
  chain_depth q = chain_depth p -> speculations q = speculations p ->
  construction_allowed q = construction_allowed p -> peak p <= peak q -> after q q' ts ->
  after p (set_depth q' (depth q' - n)) ts.
Proof.
  intros Hp Hq C D Hn Ch S A P [[OC OD OCh OP OS] AD ACh AS AA AP AR].
  assert (depth q' - n = depth p) as E by lia.
  split; cbn; [|lia|congruence|congruence|congruence|lia|by rewrite <- C].
  destruct Hp. split; cbn; [done|lia|done| |done]. unfold structural in *. cbn. lia.
Qed.

Lemma spec_nested {A} span (m : Parse A) p (Q : A -> list Token -> Z -> Prop) : ok p ->
  (forall q, entered p q -> ok q -> spec m q (fun a ts pk => structural p + 1 <= pk -> Q a ts pk)) ->
  spec (nested span m) p Q.
Proof.
  intros H Hm. apply wp_then, enter_wp; [done| |done]. intros q HE Hq.
  specialize (Hm q HE Hq). apply wp_then, wp_attempt.
  eapply wp_weaken; [exact Hm| |].
  - intros a q' (ts & HA & HQ). apply wp_then, leave_wp.
    + pose proof (after_depth _ _ _ HA). pose proof (entered_depth _ _ HE). destruct (ok_depth _ H). lia.
    + apply wp_lifted. exists ts. split.
      * destruct HE as [E1 E2 E3 E4 E5 E6]. apply (after_leave p q q' ts 1); try done; lia.
      * apply HQ. pose proof (after_peak _ _ _ HA). pose proof (entered_peak _ _ HE). cbn. lia.
  - intros q' HF d. destruct HE as [E1 E2 E3 E4 E5 E6]. destruct HF as [F1 F2 F3 F4].
    destruct (ok_depth _ H). apply wp_then, leave_wp; [lia|]. apply wp_lifted.
    split; [done|cbn; lia|cbn; congruence|cbn; congruence].
Qed.

Lemma enter_levels_wp span n : forall p0 p opened (Q : Z * result unit Diagnostic -> Parser -> Prop) E,
  ok p0 -> ok p -> cursor p = cursor p0 -> 0 <= opened -> depth p = depth p0 + opened ->
  chain_depth p = chain_depth p0 -> speculations p = speculations p0 ->
  construction_allowed p = construction_allowed p0 -> peak p0 <= peak p ->
  (forall k q, ok q -> cursor q = cursor p0 -> 0 <= k -> depth q = depth p0 + k ->
     chain_depth q = chain_depth p0 -> speculations q = speculations p0 ->
     construction_allowed q = construction_allowed p0 -> peak p0 <= peak q -> Q (k, Ok tt) q) ->
  (forall k q d, failed_from p0 q -> 0 <= k -> depth q = depth p0 + k -> Q (k, Err d) q) ->
  wp (enter_levels n span opened) p Q E.
Proof.
  induction n as [|n IH]; intros p0 p opened Q E H0 H C Ho D Ch S A P Hok Herr; cbn [enter_levels].
  { by apply Hok. }
  apply wp_then, wp_attempt, enter_wp; [done| |].
  - intros q [E1 E2 E3 E4 E5 E6] Hq. apply (IH p0 q); try done; try congruence; try lia.
  - intros q [F1 F2 F3 F4] Fd d. apply Herr; [split; [done|lia|congruence|congruence]|lia|lia].
Qed.

Lemma spec_nested_levels {A} levels span (m : Parse A) p (Q : A -> list Token -> Z -> Prop) : ok p ->
  (forall q, ok q -> depth p <= depth q -> structural p <= structural q -> cursor q = cursor p ->
     speculations q = speculations p -> spec m q Q) ->
  spec (nested_levels levels span m) p Q.
Proof.
  intros H Hm. apply wp_then. apply (enter_levels_wp span _ p p 0); try done; try lia.
  - intros k q Hq C Hk D Ch S A' P. apply wp_then, wp_attempt, wp_then, wp_lifted.
    eapply wp_weaken; [apply Hm; [done|lia|unfold structural; lia|done|done]| |].
    + intros a q' (ts & HA & HQ). pose proof (after_depth _ _ _ HA). destruct (ok_depth _ H).
      apply wp_then, leave_wp; [lia|]. apply wp_lifted. exists ts. split; [|done].
      apply (after_leave p q q' ts k); try done; lia.
    + intros q' [F1 F2 F3 F4] d. destruct (ok_depth _ H). apply wp_then, leave_wp; [lia|]. apply wp_lifted.
      split; [done|cbn; lia|cbn; congruence|cbn; congruence].
  - intros k q d [F1 F2 F3 F4] Hk D. apply wp_then, wp_attempt, wp_then, wp_lifted.
    intros d'. destruct (ok_depth _ H). apply wp_then, leave_wp; [lia|]. apply wp_lifted.
    split; [done|cbn; lia|done|done].
Qed.

Lemma spec_with_construction {A} allowed (m : Parse A) p (Q : A -> list Token -> Z -> Prop) : ok p ->
  (forall q, ok q -> depth q = depth p -> structural q = structural p -> cursor q = cursor p -> peak q = peak p ->
     spec m q Q) ->
  spec (with_construction allowed m) p Q.
Proof.
  intros H Hm. apply wp_then, wp_parser, wp_then, wp_modify, wp_then, wp_attempt.
  eapply wp_weaken; [apply Hm; try done; destruct H; by split| |].
  - intros a q' (ts & [AO AD ACh AS AA AP AR] & HQ). apply wp_then, wp_modify, wp_lifted. exists ts. split; [|done].
    cbn in *. split; cbn; try done. destruct AO. by split.
  - intros q' [F1 F2 F3 F4] d. apply wp_then, wp_modify, wp_lifted. cbn in *. by split.
Qed.

(** ** Loops *)

Lemma loop_for_wp {S A} (body : S -> Parse (S + A)) (I : S -> Parser -> Prop) Q E rounds : forall s p,
  (forall s p, I s p -> wp (body s) p (fun r p' => match r with
     | inl s' => I s' p' /\ (cursor p < cursor p' <= bound)%nat | inr a => Q a p' end) E) ->
  I s p -> (bound < cursor p + rounds)%nat -> (cursor p <= bound)%nat -> wp (loop_for rounds body s) p Q E.
Proof.
  induction rounds as [|rounds IH]; intros s p Hb HI Hr Hc; [lia|]. cbn [loop_for].
  apply wp_then. eapply wp_weaken; [by apply Hb| |done]. intros [s'|a] p'; [|done].
  intros [HI' Hl]. apply IH; [done|done|lia|lia].
Qed.

Lemma loop_wp {S A} (body : S -> Parse (S + A)) (I : S -> Parser -> Prop) Q E s p :
  (forall s p, I s p -> wp (body s) p (fun r p' => match r with
     | inl s' => I s' p' /\ (cursor p < cursor p' <= bound)%nat | inr a => Q a p' end) E) ->
  I s p -> (cursor p <= bound)%nat -> wp (loop tokens body s) p Q E.
Proof. intros Hb HI Hc. eapply loop_for_wp; [exact Hb|done|unfold bound; lia|done]. Qed.

Lemma after_progress p p' t ts : after p p' (t :: ts) -> (cursor p < cursor p' <= bound)%nat.
Proof.
  intros HA. pose proof (ok_cursor _ (after_ok _ _ _ HA)). destruct (after_reads _ _ _ HA) as [_ E]. cbn in E. lia.
Qed.

(** A loop that keeps its frame. *)
Lemma spec_loop {S A} (body : S -> Parse (S + A)) (I : S -> list Token -> Z -> Prop) Q s p : ok p ->
  I s [] (peak p) ->
  (forall s ts p', after p p' ts -> I s ts (peak p') ->
     spec (body s) p' (fun r us pk => match r with
       | inl s' => us <> [] /\ I s' (ts ++ us) pk | inr a => Q a (ts ++ us) pk end)) ->
  spec (loop tokens body s) p Q.
Proof.
  intros H HI Hb. apply (loop_wp body (fun s p' => exists ts, after p p' ts /\ I s ts (peak p'))).
  - intros s' p' (ts & HA & HI'). eapply wp_weaken; [by eapply Hb| |].
    + intros [s''|a] p'' (us & HA' & HQ).
      * destruct HQ as [Hu HI'']. destruct us as [|u us]; [done|].
        split; [|by eapply after_progress]. exists (ts ++ u :: us). split; [by eapply after_trans|done].
      * exists (ts ++ us). split; [by eapply after_trans|done].
    + intros p'' HF. by eapply failed_after.
  - exists []. split; [by apply after_refl|done].
  - apply H.
Qed.

(** The end of an element of a comma-separated list. *)
Lemma spec_another {A B} (R : list Token -> A -> Prop) close (k : bool -> Parse B) p Q ts l us a :
  ok p -> Elements R ts l -> R us a ->
  (forall p' vs, after p p' vs -> peak p' = peak p -> Elements R (ts ++ us ++ vs) (l ++ [a]) ->
     spec (k true) p' (fun b ws pk => Q b (vs ++ ws) pk)) ->
  (forall p' vs, after p p' vs -> peak p' = peak p -> CommaList R (ts ++ us ++ vs) (l ++ [a]) ->
     spec (k false) p' (fun b ws pk => Q b (vs ++ ws) pk)) ->
  spec (let! more := another tokens close in k more) p Q.
Proof.
  intros H HE HR Htrue Hfalse.
  eapply (spec_step _ _ _ (fun (b : bool) vs =>
    if b then Elements R (ts ++ us ++ vs) (l ++ [a]) else CommaList R (ts ++ us ++ vs) (l ++ [a]))).
  - unfold another. apply spec_consume; [done|done| |].
    + intros t p' Ht HA HP. apply spec_check; [apply HA|]. intros t' Ht'. apply spec_ret; [apply HA|].
      split; [|done]. cbn [app]. assert (Elements R (ts ++ us ++ [t]) (l ++ [a])) by by econstructor.
      case_bool_decide; [by apply comma_closed|done].
    + intros t p' Ht Hne HA HP. apply spec_ret; [apply HA|]. split; [|done].
      rewrite app_nil_r. by apply comma_open.
  - intros [] vs p' HA HP HR'; [by apply Htrue|by apply Hfalse].
Qed.

(** ** Names *)

Lemma spec_identifier {B} (k : string * Span -> Parse B) p (Q : B -> list Token -> Z -> Prop) : ok p ->
  (forall t name p', token_kind t = TIdentifier name -> after p p' [t] -> peak p' = peak p ->
     spec (k (name, token_span t)) p' (fun b us pk => Q b ([t] ++ us) pk)) ->
  spec (let! x := identifier tokens in k x) p Q.
Proof.
  intros H Hk.
  eapply (spec_step _ _ _ (fun x ts => exists t name, token_kind t = TIdentifier name /\ x = (name, token_span t) /\ ts = [t])).
  - unfold identifier. apply spec_advance_any; [done| |].
    + intros t _ ->. by apply spec_fail.
    + intros t p' _ _ HA HP. destruct (token_kind t) eqn:Ek; try (apply spec_fail; apply HA).
      apply spec_ret; [apply HA|]. split; [by eauto|done].
  - intros x ts p' HA HP (t & name & Hn & -> & ->). by eapply Hk.
Qed.

Lemma spec_binding_name {B} (k : string * Span -> Parse B) p (Q : B -> list Token -> Z -> Prop) : ok p ->
  (forall t name p', token_kind t = TIdentifier name -> name ∉ reserved_names -> after p p' [t] ->
     peak p' = peak p -> spec (k (name, token_span t)) p' (fun b us pk => Q b ([t] ++ us) pk)) ->
  spec (let! x := binding_name tokens in k x) p Q.
Proof.
  intros H Hk.
  eapply (spec_step _ _ _ (fun x ts => exists t name, token_kind t = TIdentifier name /\ name ∉ reserved_names
    /\ x = (name, token_span t) /\ ts = [t])).
  - unfold binding_name. apply spec_identifier; [done|]. intros t name p' Ht HA HP.
    apply spec_current; [apply HA|]. intros t' _. destruct (_ && _); [apply spec_fail, HA|].
    case_bool_decide; [apply spec_fail, HA|]. apply spec_ret; [apply HA|]. split; [by eauto 10|done].
  - intros x ts p' HA HP (t & name & Hn & Hr & -> & ->). by eapply Hk.
Qed.
End Logic.

#[global] Arguments wp : simpl never.
#[global] Arguments spec : simpl never.
#[global] Arguments over : simpl never.
