(* ===== verification/ParserTypes.v ===== *)
(** * Types, parameters and patterns are parsed by their grammar *)

From S2P Require Import Prelude Utf8 Syntax Tokens Habits Parser ParserSpec ParserLogic.

(** ** Spans over tokens *)

Lemma over_one t : over [t] = token_span t.
Proof. unfold over, span_join. cbn. by destruct (token_span t). Qed.

Lemma over_app ts us : ts <> [] -> us <> [] -> over (ts ++ us) = span_join (over ts) (over us).
Proof.
  intros Ht Hu. destruct ts as [|t ts]; [done|]. destruct us as [|u us]; [done|].
  unfold over. rewrite last_app. cbn [app head].
  destruct (last (t :: ts)) as [l|] eqn:E1; [|by apply last_None in E1].
  destruct (last (u :: us)) as [l'|] eqn:E2; [|by apply last_None in E2]. done.
Qed.

Lemma over_cons t us : us <> [] -> over (t :: us) = span_join (token_span t) (over us).
Proof. intros H. change (t :: us) with ([t] ++ us). by rewrite over_app, over_one. Qed.

Lemma over_snoc ts t : ts <> [] -> over (ts ++ [t]) = span_join (over ts) (token_span t).
Proof. intros H. by rewrite over_app, over_one. Qed.

Lemma span_join_assoc a b c : span_join (span_join a b) c = span_join a c.
Proof. done. Qed.
Lemma span_join_assoc' a b c : span_join a (span_join b c) = span_join a c.
Proof. done. Qed.

Lemma NoDup_snoc {A B} (f : A -> B) l a : NoDup (map f l) -> f a ∉ map f l -> NoDup (map f (l ++ [a])).
Proof.
  intros HN Hf. rewrite map_app. apply NoDup_app. split_and!; [done| |by apply NoDup_singleton].
  intros x Hx ->%list_elem_of_singleton. done.
Qed.

Ltac nonempty := by (intros ?%(f_equal length); rewrite ?length_app in *; cbn in *; lia).

Ltac spans :=
  rewrite ?over_one; repeat (first
    [ rewrite over_cons by (done || nonempty) | rewrite over_snoc by (done || nonempty)
    | rewrite over_app by (done || nonempty) ]);
  rewrite ?over_one, ?span_join_assoc, ?span_join_assoc'.

Ltac side := first [done | by eauto using after_ok].

Section Types.
Context (text : chars) (tokens : list Token) (Hlex : lexical text tokens).
Local Notation spec := (spec tokens).
Local Notation ok := (ok tokens).

Lemma derives_type_span ts u : DerivesType ts u -> span_of u = over ts /\ ts <> [].
Proof. destruct 1; done. Qed.

Lemma variant_of_str name variant : variant_of name = Some variant -> name = variant_str variant.
Proof. unfold variant_of. repeat case_bool_decide; intros [= <-]; by subst. Qed.

(** The parser of types one level deeper. *)
Section Deeper.
Context (type' : Parse TypeAnnotation) (p0 : Parser).
Hypothesis Htype : forall q, ok q -> depth p0 < depth q -> spec type' q (fun u ts _ => DerivesType ts u).

Lemma type_argument_spec p : ok p -> depth p = depth p0 ->
  spec (type_argument tokens type') p (fun u ts _ =>
    exists a us b, ts = [a] ++ us ++ [b] /\ token_kind a = TLess /\ DerivesType us u /\ token_kind b = TGreater).
Proof.
  intros H D. unfold type_argument. eapply spec_expect; [side..|]. intros a p1 Ha A1 _.
  eapply spec_bind; [eapply spec_nested; [side..|]; intros q E Hq; eapply spec_mono; [apply Htype; [done|]|]|].
  - pose proof (after_depth _ _ _ _ A1). pose proof (entered_depth _ _ E). lia.
  - intros u ts pk HD _. exact HD.
  - cbn. intros u us p2 A2 HD. eapply spec_expect; [side..|]. intros b p3 Hb A3 _.
    apply spec_ret; [side|]. by exists a, us, b.
Qed.

Lemma record_type_field_list_spec p : ok p -> depth p0 < depth p ->
  spec (record_type_field_list tokens type') p (fun fields ts _ =>
    exists us b, ts = us ++ [b] /\ CommaList DerivesTypeField us fields
      /\ NoDup (map (fun '(mkRecordTypeField name _ _) => name) fields) /\ token_kind b = TRightBrace).
Proof.
  intros H D. unfold record_type_field_list. eapply spec_check; [side..|]. intros t0 _.
  eapply spec_bind with (Q1 := fun fields ts _ => CommaList DerivesTypeField ts fields
    /\ NoDup (map (fun '(mkRecordTypeField name _ _) => name) fields)).
  - case_bool_decide; [apply spec_ret; [side|]; split; [apply comma_closed|]; constructor|].
    eapply spec_loop with (I := fun '(fields, seen) ts _ => Elements DerivesTypeField ts fields
      /\ NoDup (map (fun '(mkRecordTypeField name _ _) => name) fields)
      /\ forall name : string, name ∈ seen <-> name ∈ map (fun '(mkRecordTypeField name _ _) => name) fields).
    { side. } { split_and!; [constructor|constructor|]. intros name. set_solver. }
    intros [fields seen] ts p1 A1 (HE & HN & Hs).
    eapply spec_identifier; [side..|]. intros n name p2 Hn A2 _.
    case_bool_decide as Hd; [eapply spec_fail; side|].
    eapply spec_expect; [side..|]. intros c p3 Hc A3 _.
    eapply spec_bind; [apply Htype; [side|]|].
    { pose proof (after_depth _ _ _ _ A1). pose proof (after_depth _ _ _ _ A2). pose proof (after_depth _ _ _ _ A3). lia. }
    cbn. intros u us p4 A4 HD.
    assert (DerivesTypeField ([n; c] ++ us) (mkRecordTypeField name u (span_join (token_span n) (span_of u)))) as HF.
    { destruct (derives_type_span _ _ HD) as [-> Hne].
      replace (span_join _ _) with (over ([n; c] ++ us)) by (cbn [app]; by spans). by constructor. }
    assert (NoDup (map (fun '(mkRecordTypeField name _ _) => name)
      (fields ++ [mkRecordTypeField name u (span_join (token_span n) (span_of u))]))) as HN'.
    { apply NoDup_snoc; [done|]. by rewrite <- Hs. }
    eapply spec_another with (R := DerivesTypeField); [side|side|exact HE|exact HF| |].
    + intros p5 vs A5 _ HE'. apply spec_ret; [side|]. split; [done|]. rewrite app_nil_r.
      split_and!; [by rewrite <- app_assoc in HE'|done|].
      intros x. rewrite map_app. set_solver.
    + intros p5 vs A5 _ HC. apply spec_ret; [side|]. rewrite app_nil_r. split; [|done].
      by rewrite <- app_assoc in HC.
  - cbn. intros fields ts p1 A1 [HC HN]. eapply spec_expect; [side..|]. intros b p2 Hb A2 _.
    apply spec_ret; [side|]. exists ts, b. by rewrite app_nil_r.
Qed.

Lemma record_type_fields_spec p : ok p -> depth p = depth p0 ->
  spec (record_type_fields tokens type') p (fun fields ts _ =>
    exists o us b, ts = [o] ++ us ++ [b] /\ token_kind o = TLeftBrace /\ CommaList DerivesTypeField us fields
      /\ NoDup (map (fun '(mkRecordTypeField name _ _) => name) fields) /\ token_kind b = TRightBrace).
Proof.
  intros H D. unfold record_type_fields. eapply spec_expect; [side..|]. intros o p1 Ho A1 _.
  eapply spec_nested; [side..|]. intros q E Hq. eapply spec_mono; [apply record_type_field_list_spec; [done|]|].
  - pose proof (after_depth _ _ _ _ A1). pose proof (entered_depth _ _ E). lia.
  - intros fields ts pk (us & b & -> & HF & HN & Hb) _. by exists o, us, b.
Qed.

(** What follows the name of a type. *)
Definition type_after (name : string) (kind : TypeKind) (ts : list Token) : Prop :=
  forall t, token_kind t = TIdentifier name -> DerivesType ([t] ++ ts) (mkTypeAnnotation kind (over ([t] ++ ts))).

Lemma type_kind_spec name span p : ok p -> depth p = depth p0 ->
  spec (type_kind tokens type' name span) p (fun kind ts _ => type_after name kind ts).
Proof.
  intros H D. unfold type_kind. destruct (plain_type name) as [kind|] eqn:Hp.
  { apply spec_ret; [side|]. intros t Ht. by eapply derives_plain. }
  case_bool_decide as Hl; [subst|case_bool_decide as Ho; [subst|case_bool_decide as Hr;
    [subst|case_bool_decide as Hd; [subst|by eapply spec_fail]]]].
  - eapply spec_bind; [by apply type_argument_spec|]. cbn. intros u ts p1 A1 (a & us & b & -> & Ha & HD & Hb).
    apply spec_ret; [side|]. rewrite app_nil_r. intros t Ht. by apply derives_list.
  - eapply spec_bind; [by apply type_argument_spec|]. cbn. intros u ts p1 A1 (a & us & b & -> & Ha & HD & Hb).
    apply spec_ret; [side|]. rewrite app_nil_r. intros t Ht. by apply derives_option.
  - eapply spec_expect; [side..|]. intros a p1 Ha A1 _.
    eapply spec_bind with (Q1 := fun '(u, v) ts _ => exists us c vs, ts = us ++ [c] ++ vs
      /\ DerivesType us u /\ token_kind c = TComma /\ DerivesType vs v).
    { eapply spec_nested; [side..|]. intros q E Hq.
      assert (depth p0 < depth q) as Hd.
      { pose proof (after_depth _ _ _ _ A1). pose proof (entered_depth _ _ E). lia. }
      eapply spec_bind; [by apply Htype|]. cbn. intros u us p2 A2 HU.
      eapply spec_expect; [side..|]. intros c p3 Hc A3 _.
      eapply spec_bind; [apply Htype; [side|]|].
      { pose proof (after_depth _ _ _ _ A2). pose proof (after_depth _ _ _ _ A3). lia. }
      cbn. intros v vs p4 A4 HV. apply spec_ret; [side|]. intros _. exists us, c, vs. by rewrite app_nil_r. }
    cbn. intros [u v] ts p2 A2 (us & c & vs & -> & HU & Hc & HV).
    eapply spec_expect; [side..|]. intros b p3 Hb A3 _. apply spec_ret; [side|].
    intros t Ht. rewrite app_nil_r, <- !app_assoc. by apply derives_result.
  - eapply spec_bind; [by apply record_type_fields_spec|].
    cbn. intros fields ts p1 A1 (o & us & b & -> & Ho' & HF & HN & Hb).
    apply spec_ret; [side|]. rewrite app_nil_r. intros t Ht. by apply derives_record_type.
Qed.

Lemma type_body_spec p : ok p -> depth p = depth p0 ->
  spec (type_annotation_body tokens type') p (fun u ts _ => DerivesType ts u).
Proof.
  intros H D. unfold type_annotation_body. eapply spec_current; [side..|]. intros t Ht.
  eapply spec_advance_any; [side..| |].
  - intros t' Ht' Ek. rewrite Ek. eapply spec_check; [side..|]. intros t'' _. eapply spec_fail. side.
  - intros t' p1 Ht' Hk A1 _. simplify_eq.
    destruct (token_kind t) eqn:Ek; try (eapply spec_check; [side..|]; intros t'' _; eapply spec_fail; side).
    eapply spec_bind; [apply type_kind_spec; [side|]|].
    { pose proof (after_depth _ _ _ _ A1). lia. }
    cbn. intros kind ts p2 A2 HT. specialize (HT t Ek).
    destruct (last ([t] ++ ts)) as [l|] eqn:El; [|by apply last_None in El].
    eapply spec_previous; [exact (after_trans _ _ _ _ _ _ A1 A2)|exact El|].
    apply spec_ret; [side|]. cbn [app]. rewrite app_nil_r. unfold over in HT. cbn [app head] in HT, El.
    by rewrite El in HT.
Qed.
End Deeper.

Lemma type_spec fuel : forall p, ok p -> MAX_NESTING_DEPTH - depth p < Z.of_nat fuel ->
  spec (type_annotation_at tokens fuel) p (fun u ts _ => DerivesType ts u).
Proof.
  induction fuel as [|fuel IH]; intros p H Hf; [destruct (ok_depth _ _ H); lia|].
  apply (type_body_spec _ p); [|done|done]. intros q Hq D. apply IH; [done|lia].
Qed.

Lemma type_annotation_spec p : ok p -> spec (type_annotation tokens) p (fun u ts _ => DerivesType ts u).
Proof. intros H. apply type_spec; [done|]. destruct (ok_depth _ _ H). unfold DEPTH_FUEL, MAX_NESTING_DEPTH. lia. Qed.

Lemma annotation_after_spec kind p : ok p -> kind <> TEof ->
  spec (annotation_after tokens kind) p (fun o ts _ => DerivesAnnotation kind ts o).
Proof.
  intros H Hk. unfold annotation_after. eapply spec_consume; [side..| |].
  - intros c p1 Hc A1 _. eapply spec_bind; [apply type_annotation_spec; side|].
    cbn. intros u ts p2 A2 HD. apply spec_ret; [side|]. rewrite app_nil_r. by apply (derives_annotation kind c ts u).
  - intros t p1 Ht Hne A1 _. apply spec_ret; [side|constructor].
Qed.

Lemma distinct_snoc parameters parameter : distinct_parameters parameters ->
  (parameter_name parameter <> "_" -> parameter_name parameter ∉ map parameter_name parameters) ->
  distinct_parameters (parameters ++ [parameter]).
Proof.
  unfold distinct_parameters. intros HN Hf. rewrite map_app, filter_app. cbn [map].
  destruct (decide (parameter_name parameter <> "_")) as [Hd|Hd].
  - rewrite filter_cons_True by done. apply NoDup_app. split_and!; [done| |by apply NoDup_singleton].
    intros x [_ Hx]%list_elem_of_filter ->%list_elem_of_singleton. by apply (Hf Hd).
  - rewrite filter_cons_False by done. by rewrite app_nil_r.
Qed.

Lemma parameters_spec p : ok p ->
  spec (parameters tokens) p (fun parameters ts _ => DerivesParameters ts parameters).
Proof.
  intros H. unfold parameters. eapply spec_expect; [side..|]. intros o p1 Ho A1 _.
  eapply spec_check; [side..|]. intros t0 _.
  eapply spec_bind with (Q1 := fun parameters ts _ => CommaList DerivesParameter ts parameters
    /\ distinct_parameters parameters).
  - case_bool_decide; [apply spec_ret; [side|]; split; [apply comma_closed|]; constructor|].
    eapply spec_loop with (I := fun '(parameters, seen) ts _ => Elements DerivesParameter ts parameters
      /\ distinct_parameters parameters
      /\ forall name, name ∈ seen <-> name ∈ map parameter_name parameters).
    { side. } { split_and!; [constructor|constructor|]. intros name. set_solver. }
    intros [parameters seen] ts p2 A2 (HE & HN & Hs).
    eapply spec_binding_name; [side..|]. intros n name p3 Hn Hr A3 _.
    destruct (_ && _) eqn:Hd; [eapply spec_fail; side|].
    eapply spec_bind; [apply annotation_after_spec; [side|done]|]. cbn. intros annotation us p4 A4 HA.
    pose proof (derives_parameter n name us annotation Hn Hr HA) as HP.
    assert (distinct_parameters (parameters ++ [mkFnParameter name annotation (token_span n)])) as HN'.
    { apply distinct_snoc; [done|]. cbn. intros Hu. rewrite <- Hs. apply andb_false_iff in Hd as [Hd|Hd].
      - by rewrite bool_decide_false in Hd.
      - by apply bool_decide_eq_false in Hd. }
    eapply spec_another with (R := DerivesParameter); [side|side|exact HE|exact HP| |].
    + intros p5 vs A5 _ HE'. apply spec_ret; [side|]. split; [done|]. rewrite app_nil_r.
      split_and!; [by rewrite <- app_assoc in HE'|done|]. intros x. rewrite map_app. set_solver.
    + intros p5 vs A5 _ HC. apply spec_ret; [side|]. rewrite app_nil_r. split; [|done].
      by rewrite <- app_assoc in HC.
  - cbn. intros parameters ts p2 A2 [HC HN]. eapply spec_expect; [side..|]. intros c p3 Hc A3 _.
    apply spec_ret; [side|]. rewrite app_nil_r. by apply (derives_parameters o ts parameters c).
Qed.
End Types.

(** ** Patterns *)

Section Patterns.
Context (text : chars) (tokens : list Token) (Hlex : lexical text tokens).
Local Notation spec := (spec tokens).
Local Notation ok := (ok tokens).

Lemma not_reserved_variant name : name ∉ reserved_names -> variant_of name = None.
Proof.
  intros H. unfold variant_of. repeat (case_bool_decide; [subst; exfalso; apply H; unfold reserved_names; set_solver|]).
  done.
Qed.

Lemma wildcard_spec t p : ok p -> tokens !! cursor p = Some t -> token_kind t = TIdentifier "_" ->
  spec (let! _ := advance tokens in ret (mkPattern PWildcard (token_span t))) p
    (fun pat ts _ => DerivesBinder ts pat).
Proof.
  intros H Ht Hk. eapply spec_advance with (t := t); [side..|by rewrite Hk|]. intros p1 A1 _.
  apply spec_ret; [side|]. by apply derives_wildcard.
Qed.

Lemma binder_spec t name p : ok p -> tokens !! cursor p = Some t -> token_kind t = TIdentifier name -> name <> "_" ->
  spec (let! (binding, span) := binding_name tokens in ret (mkPattern (PBinder binding) span)) p
    (fun pat ts _ => DerivesBinder ts pat).
Proof.
  intros H Ht Hk Hn. eapply spec_binding_name; [side..|]. intros t' name' p1 Hk' Hr A1 _.
  assert (t' = t) as ->.
  { destruct (after_reads _ _ _ _ A1) as [E _]. rewrite (drop_S _ _ _ Ht) in E. by injection E. }
  rewrite Hk in Hk'. injection Hk' as <-. apply spec_ret; [side|]. by apply derives_binder.
Qed.

Lemma list_pattern_part_spec p : ok p ->
  spec (list_pattern_part tokens) p (fun pat ts _ => DerivesBinder ts pat).
Proof.
  intros H. unfold list_pattern_part. eapply spec_current; [side..|]. intros t Ht.
  destruct (token_kind t) eqn:Hk; try (by eapply spec_fail). case_bool_decide as Hd; [subst; by apply wildcard_spec|].
  destruct (variant_of value); [by eapply spec_fail|]. by eapply binder_spec.
Qed.

Lemma list_shape_spec {A} start p (Q : A -> list Token -> Z -> Prop) : ok p -> spec (list_shape tokens start) p Q.
Proof. intros H. eapply spec_current; [side..|]. intros t _. by eapply spec_fail. Qed.

Lemma derives_binder_span ts p : DerivesBinder ts p -> pattern_span p = over ts /\ ts <> [].
Proof. destruct 1; cbn; by rewrite over_one. Qed.

Lemma derives_pattern_span ts p : DerivesPattern ts p -> pattern_span p = over ts /\ ts <> [].
Proof. destruct 1 as [ts p HB| | | |]; [by apply derives_binder_span|cbn; by rewrite ?over_one..]. Qed.

Lemma list_pattern_spec p : ok p ->
  spec (list_pattern tokens) p (fun pat ts _ => DerivesPattern ts pat).
Proof.
  intros H. unfold list_pattern. eapply spec_expect; [side..|]. intros o p1 Ho A1 _.
  unfold consume_span. eapply spec_bind with (Q1 := fun e ts _ =>
    match e with Some span => exists c, ts = [c] /\ token_kind c = TRightBracket /\ span = token_span c
               | None => ts = [] end).
  { eapply spec_check; [side..|]. intros t Ht. case_bool_decide as Hk.
    - eapply spec_advance with (t := t); [side..|by rewrite Hk|]. intros p2 A2 _. apply spec_ret; [side|]. by exists t.
    - by apply spec_ret; [side|]. }
  intros [span|] ts p2 A2 HE.
  { destruct HE as (c & -> & Hc & ->). apply spec_ret; [side|]. cbn [app].
    replace (span_join _ _) with (over [o; c]) by done. by apply derives_empty_list. }
  subst ts. cbn [app]. eapply spec_bind; [apply list_pattern_part_spec; side|].
  cbn. intros head hs p3 A3 HB.
  eapply spec_consume; [side..| |]; cbn iota.
  2: { intros t p4 _ _ A4 _. apply list_shape_spec. side. }
  intros comma p4 Hc A4 _. eapply spec_consume; [side..| |]; cbn [negb]; cbn iota.
  2: { intros t p5 _ _ A5 _. apply list_shape_spec. side. }
  intros dots p4' Hd A4' _. eapply spec_bind; [apply list_pattern_part_spec; side|].
  cbn. intros tail us p5 A5 HT. destruct (same_binder head tail) eqn:Hs; [eapply spec_fail; side|].
  eapply spec_check; [side..|]. intros t Ht. case_bool_decide as Hk; cbn [negb]; [|apply list_shape_spec; side].
  eapply spec_advance with (t := t); [side..|by rewrite Hk|]. intros p6 A6 _. apply spec_ret; [side|].
  pose proof (derives_cons o hs head comma dots us tail t Ho HB Hc Hd HT Hs Hk) as HP. cbn in HP |- *.
  rewrite over_cons in HP by nonempty.
  assert (forall ts, over (ts ++ comma :: dots :: us ++ [t]) = span_join (over (ts ++ comma :: dots :: us)) (token_span t)) as E.
  { intros l. rewrite app_comm_cons, app_comm_cons, app_assoc. apply over_snoc. nonempty. }
  rewrite E, span_join_assoc' in HP. exact HP.
Qed.

Lemma fails_at_current {A} (f : Token -> Diagnostic) p (Q : A -> list Token -> Z -> Prop) : ok p ->
  spec (let! token := current tokens in fail (f token)) p Q.
Proof. intros H. eapply spec_current; [side..|]. intros t _. by eapply spec_fail. Qed.

Section Deeper.
Context (pattern' : Parse Pattern) (p0 : Parser).
Hypothesis Hpattern : forall q, ok q -> depth p0 < depth q -> spec pattern' q (fun pat ts _ => DerivesPattern ts pat).

Lemma payload_spec variant t p1 : token_kind t = TIdentifier (variant_str variant) -> variant <> VNone ->
  ok p1 -> depth p1 = depth p0 ->
  spec (payload_pattern tokens pattern' variant (token_span t)) p1
    (fun pat ts _ => DerivesPattern ([t] ++ ts) pat).
Proof.
  intros Hk Hv H D. unfold payload_pattern. eapply spec_check; [side..|]. intros o Ho.
  case_bool_decide as Hp; cbn [negb]; [|by apply fails_at_current].
  eapply spec_advance with (t := o); [side..|by rewrite Hp|]. intros p2 A2 _.
  eapply spec_bind; [eapply spec_nested; [side..|]; intros q E Hq; eapply spec_mono; [apply Hpattern; [done|]|]|].
  - pose proof (after_depth _ _ _ _ A2). pose proof (entered_depth _ _ E). lia.
  - intros pat ts pk HD _. exact HD.
  - cbn. intros pat ts p3 A3 HD. eapply spec_expect; [side..|]. intros c p4 Hc A4 _. apply spec_ret; [side|].
    pose proof (derives_payload t variant o ts pat c Hk Hv Hp HD Hc) as HP. cbn in HP |- *.
    rewrite over_cons in HP by done. rewrite app_comm_cons, over_snoc in HP by done.
    by rewrite span_join_assoc' in HP.
Qed.

Lemma variant_pattern_from_spec variant t p : ok p -> depth p = depth p0 ->
  tokens !! cursor p = Some t -> token_kind t = TIdentifier (variant_str variant) ->
  spec (variant_pattern_from tokens pattern' variant (token_span t)) p (fun pat ts _ => DerivesPattern ts pat).
Proof.
  intros H D Ht Hk. unfold variant_pattern_from. eapply spec_advance with (t := t); [side..|by rewrite Hk|].
  intros p1 A1 _. assert (depth p1 = depth p0) by (pose proof (after_depth _ _ _ _ A1); lia).
  destruct variant; [by apply payload_spec; [..|side|]| |by apply payload_spec; [..|side|]|by apply payload_spec; [..|side|]].
  eapply spec_check; [side..|]. intros o Ho. case_bool_decide; [apply fails_at_current; side|].
  apply spec_ret; [side|]. by apply derives_none.
Qed.

Lemma pattern_body_spec p : ok p -> depth p = depth p0 ->
  spec (pattern_body tokens pattern') p (fun pat ts _ => DerivesPattern ts pat).
Proof.
  intros H D. unfold pattern_body. eapply spec_current; [side..|]. intros t Ht.
  destruct (token_kind t) eqn:Hk; try (by eapply spec_fail); [|by apply list_pattern_spec].
  eapply spec_ahead. destruct (variant_of value) as [variant|] eqn:Hv.
  { apply variant_pattern_from_spec; [done|done|done|]. by rewrite Hk, (variant_of_str _ _ Hv). }
  case_bool_decide as Hd; [subst|case_bool_decide; [by eapply spec_fail|]].
  - eapply spec_mono; [by apply wildcard_spec|]. intros pat ts pk. apply derives_pattern_binder.
  - eapply spec_mono; [by eapply binder_spec|]. intros pat ts pk. apply derives_pattern_binder.
Qed.
End Deeper.

Lemma pattern_at_spec fuel : forall p, ok p -> MAX_NESTING_DEPTH - depth p < Z.of_nat fuel ->
  spec (pattern_at tokens fuel) p (fun pat ts _ => DerivesPattern ts pat).
Proof.
  induction fuel as [|fuel IH]; intros p H Hf; [destruct (ok_depth _ _ H); lia|].
  apply (pattern_body_spec _ p); [|done|done]. intros q Hq D. apply IH; [done|lia].
Qed.

Lemma pattern_spec p : ok p -> spec (pattern tokens) p (fun pat ts _ => DerivesPattern ts pat).
Proof. intros H. apply pattern_at_spec; [done|]. destruct (ok_depth _ _ H). unfold DEPTH_FUEL, MAX_NESTING_DEPTH. lia. Qed.

Lemma spec_at_variant {B} (k : bool -> Parse B) p (Q : B -> list Token -> Z -> Prop) : ok p ->
  (forall b, spec (k b) p Q) -> spec (let! b := at_variant_pattern tokens in k b) p Q.
Proof.
  intros H Hk. destruct (token_at _ _ Hlex (cursor p)) as (t & Ht & _); [apply H|].
  unfold ParserLogic.spec, wp, bind, at_variant_pattern, current, ahead, parser, ret. cbn. unfold bind. rewrite Ht. apply Hk.
Qed.

(** What follows the name of a variant after [let]. *)
Lemma payload_binding_spec variant t p : token_kind t = TIdentifier (variant_str variant) -> variant <> VNone -> ok p ->
  spec (payload_binding tokens variant (token_span t)) p (fun binding ts _ =>
    DerivesVariantPattern ([t] ++ ts) (mkVariantPattern variant binding (over ([t] ++ ts)))).
Proof.
  intros Hk Hv H. unfold payload_binding. eapply spec_consume; [side..| |]; cbn [negb]; cbn iota.
  2: { intros t' p1 _ _ A1 _. apply fails_at_current. side. }
  intros o p1 Ho A1 _. apply spec_at_variant; [side|]. intros b. eapply spec_check; [side..|]. intros t' _.
  destruct (b || _); [apply fails_at_current; side|].
  eapply spec_binding_name; [side..|]. intros n name p2 Hn Hr A2 _. cbn iota.
  eapply spec_expect; [side..|]. intros c p3 Hc A3 _. apply spec_ret; [side|]. by apply derives_let_some.
Qed.

Lemma variant_binding_spec variant t p : token_kind t = TIdentifier (variant_str variant) -> ok p ->
  spec (variant_binding tokens variant (token_span t)) p (fun binding ts _ =>
    DerivesVariantPattern ([t] ++ ts) (mkVariantPattern variant binding (over ([t] ++ ts)))).
Proof.
  intros Hk H. destruct variant; [by apply payload_binding_spec| |by apply payload_binding_spec..].
  eapply spec_check; [side..|]. intros o _. case_bool_decide; [by apply fails_at_current|].
  apply spec_ret; [done|]. by apply derives_let_none.
Qed.

Lemma variant_pattern_spec p : ok p ->
  spec (variant_pattern tokens) p (fun pat ts _ => DerivesVariantPattern ts pat).
Proof.
  intros H. unfold variant_pattern.
  eapply spec_bind with (Q1 := fun '(variant, span) ts _ => exists t, ts = [t]
    /\ token_kind t = TIdentifier (variant_str variant) /\ span = token_span t).
  { unfold variant_name. eapply spec_advance_any; [side..| |].
    - intros t _ Ek. rewrite Ek. by eapply spec_fail.
    - intros t p1 Ht _ A1 _. destruct (token_kind t) eqn:Hk; try (eapply spec_fail; side).
      destruct (variant_of value) eqn:Hv; [|eapply spec_fail; side]. apply spec_ret; [side|].
      exists t. by rewrite Hk, (variant_of_str _ _ Hv). }
  cbn. intros [variant span] ts p1 A1 (t & -> & Hk & ->).
  eapply spec_bind; [apply variant_binding_spec; [done|side]|]. cbn. intros binding us p2 A2 HD.
  destruct (last ([t] ++ us)) as [l|] eqn:El; [|by apply last_None in El].
  eapply spec_previous; [exact (after_trans _ _ _ _ _ _ A1 A2)|exact El|]. apply spec_ret; [side|].
  cbn [app]. rewrite app_nil_r. unfold over in HD. cbn [app head] in HD, El. by rewrite El in HD.
Qed.
End Patterns.
