(* ===== verification/ParserExprs.v ===== *)
(** * Expressions, blocks and statements are parsed by their grammar

    Every parser of [Parser] satisfies [spec]: what it answers is derived from
    the tokens it read, and its levels fit in the room its depth and the peak
    it reached leave ([room]). *)

From S2P Require Import Prelude Utf8 Syntax Tokens Habits Parser ParserSpec ParserLogic ParserTypes.

(** ** Levels *)

Lemma most_nil : most [] = 0.
Proof. done. Qed.

Lemma most_cons x l : most (x :: l) = x `max` most l.
Proof. done. Qed.

Lemma most_nonneg l : 0 <= most l.
Proof. induction l as [|x l IH]; [done|]. rewrite most_cons. lia. Qed.

Lemma most_snoc l x : most (l ++ [x]) = most l `max` x.
Proof. induction l as [|y l IH]; cbn [app]; rewrite ?most_cons; [cbn; lia|]. rewrite IH. lia. Qed.

#[global] Arguments most : simpl never.

(** The levels a tree built at [p] may have when it reached the peak [pk]. *)
Definition room (p : Parser) (pk : Z) : Z := pk - structural p + 2 * (MAX_NESTING_DEPTH - depth p).

(** What the parsers of expressions, blocks and statements answer at [p]. *)
Definition expression_post (level : nat) (p : Parser) (e : Expression) (ts : list Token) (pk : Z) : Prop :=
  DerivesExpression level ts e /\ levels_of e <= 1 + room p pk.
Definition block_post (p : Parser) (b : Block) (ts : list Token) (pk : Z) : Prop :=
  DerivesBlock ts b /\ block_levels b + 1 <= room p pk.
Definition statement_post (p : Parser) (s : Statement) (ts : list Token) (pk : Z) : Prop :=
  DerivesStatement ts s /\ statement_levels s <= 1 + room p pk.

Ltac learn t := let T := type of t in lazymatch goal with H : T |- _ => fail | _ => pose proof t end.
(** What the frames of the hypotheses say about depths and peaks. *)
Ltac frames := repeat match goal with
  | H : after _ _ _ _ |- _ => learn (after_depth _ _ _ _ H)
  | H : after _ _ _ _ |- _ => learn (after_structural _ _ _ _ H)
  | H : after _ _ _ _ |- _ => learn (after_peak _ _ _ _ H)
  | H : entered _ _ |- _ => learn (entered_depth _ _ H)
  | H : entered _ _ |- _ => learn (entered_structural _ _ H)
  | H : entered _ _ |- _ => learn (entered_peak _ _ H)
  end.
Ltac rooms := frames; unfold room in *; lia.

Lemma room_nonneg tokens p pk : ok tokens p -> peak p <= pk -> 0 <= room p pk.
Proof. intros [_ D _ P _] H. unfold room. lia. Qed.

Lemma room_now tokens p : ok tokens p -> 0 <= room p (peak p).
Proof. intros H. by eapply room_nonneg. Qed.

(** ** Spans *)

Lemma over_ends t ts c : over (t :: ts ++ [c]) = span_join (token_span t) (token_span c).
Proof. unfold over. by rewrite app_comm_cons, last_snoc. Qed.

Lemma derives_block_span ts b : DerivesBlock ts b -> block_span b = over ts /\ ts <> [].
Proof. by destruct 1. Qed.

Lemma derives_if_span ts e : DerivesIf ts e -> expression_span e = over ts /\ ts <> [].
Proof. by destruct 1. Qed.

Lemma derives_else_span ts e : DerivesElse ts e -> expression_span e = over ts /\ ts <> [].
Proof. destruct 1; [by apply derives_block_span|by apply derives_if_span]. Qed.

Lemma derives_expression_span level ts e : DerivesExpression level ts e -> expression_span e = over ts /\ ts <> [].
Proof.
  induction 1; try done; try (by split; [|nonempty]); [by apply derives_block_span|by apply derives_if_span].
Qed.

(** ** Frames that stay inside opened levels *)

Section Within.
Context (tokens : list Token).

(** Like [after], but with levels still open. *)
Record within (p q : Parser) (ts : list Token) : Prop := mkWithin {
  within_ok : ok tokens q;
  within_depth : depth p <= depth q;
  within_chain : chain_depth q = chain_depth p;
  within_speculations : speculations q = speculations p;
  within_allowed : construction_allowed q = construction_allowed p;
  within_peak : peak p <= peak q;
  within_reads : reads tokens (cursor p) ts (cursor q);
}.

Lemma within_after p q r ts us : within p q ts -> after tokens q r us -> within p r (ts ++ us).
Proof.
  intros [O D C S A P R] [AO AD AC AS AA AP AR].
  split; [done|lia|congruence|congruence|congruence|lia|by eapply reads_trans].
Qed.

Lemma within_refl p : ok tokens p -> within p p [].
Proof. intros H. split; [done|lia|done|done|done|lia|apply reads_nil]. Qed.

Lemma after_within p q ts : after tokens p q ts -> within p q ts.
Proof. intros [AO AD AC AS AA AP AR]. split; [done|lia|done|done|done|done|done]. Qed.

Lemma within_failed p q r ts : within p q ts -> failed_from tokens q r -> failed_from tokens p r.
Proof. intros [O D C S A P R] [FC FD FS FA]. split; [done|lia|congruence|congruence]. Qed.

Lemma within_entered p q r ts : within p q ts -> entered q r -> ok tokens r -> within p r ts.
Proof.
  intros [O D C S A P R] [EC ED ECh ES EA EP] Hr.
  split; [done|lia|congruence|congruence|congruence|lia|by rewrite EC].
Qed.

Lemma within_structural p q ts : within p q ts -> structural p <= structural q.
Proof. intros []. unfold structural. lia. Qed.

Lemma ok_raise p n : ok tokens p -> n <= MAX_STRUCTURAL_DEPTH -> ok tokens (set_peak p (peak p `max` n)).
Proof. intros [C D Ch P S] H. unfold structural in *. split; unfold structural; cbn; [done|done|done|lia|done]. Qed.

Lemma within_raise p q ts n : within p q ts -> n <= MAX_STRUCTURAL_DEPTH -> within p (set_peak q (peak q `max` n)) ts.
Proof. intros [O D C S A P R] H. split; [by apply ok_raise|done|done|done|done|cbn; lia|done]. Qed.

(** Closing the levels. *)
Lemma within_close p q ts : ok tokens p -> within p q ts -> after tokens p (set_depth q (depth p)) ts.
Proof.
  intros Hp [O D C S A P R]. destruct Hp as [PC PD PCh PP PS], O as [OC OD OCh OP OS].
  unfold structural in *. split; cbn; try done. split; unfold structural; cbn; [done|lia|lia|lia|lia].
Qed.

(** The state with its peak taken away, and given back. *)
Lemma ok_lowered p : ok tokens p -> ok tokens (set_peak p (structural p)).
Proof. intros [C D Ch P S]. unfold structural in *. split; unfold structural; cbn; [done|done|done|lia|done]. Qed.

Lemma after_raise p q ts : ok tokens p -> after tokens (set_peak p (structural p)) q ts ->
  after tokens p (set_peak q (peak q `max` peak p)) ts.
Proof.
  intros Hp [AO AD AC AS AA AP AR]. split; [|done|done|done|done|cbn; lia|done].
  apply ok_raise; [done|]. apply (ok_peak _ _ Hp).
Qed.

Lemma failed_lowered p q : failed_from tokens (set_peak p (structural p)) q -> failed_from tokens p q.
Proof. intros []. by split. Qed.

Lemma reach_wp level span p (Q : unit -> Parser -> Prop) E :
  (level <= MAX_STRUCTURAL_DEPTH -> Q tt (set_peak p (peak p `max` level))) -> E p -> wp (reach level span) p Q E.
Proof.
  intros HQ HE. unfold reach. destruct (Z.ltb_spec MAX_STRUCTURAL_DEPTH level); [done|]. apply HQ. lia.
Qed.
End Within.

(** ** Interpolations *)

Section Holes.
Context (text : chars) (tokens : list Token) (Hlex : lexical text tokens).
Local Notation spec := (spec tokens).
Local Notation ok := (ok tokens).
Local Notation within := (within tokens).

Definition field_accesses (value : Expression) (path : list (string * Span)) : Expression :=
  foldl (fun value '(field, field_span) =>
    mkExpression (EFieldAccess value field) (span_join (expression_span value) field_span)) value path.

Lemma hole_fields_wp base path p : ok p -> forall height value q,
  within p q [] -> base + height <= peak q -> levels_of value <= 1 + height ->
  wp (hole_fields base height value path) q
    (fun v r => within p r [] /\ v = field_accesses value path /\ levels_of v <= 1 + (peak r - base))
    (failed_from tokens p).
Proof.
  intros Hp. induction path as [|[field span] path IH]; intros height value q W Hh Hl; cbn [hole_fields].
  { apply wp_done. split_and!; [done|done|lia]. }
  apply wp_then, (enter_wp tokens); [apply W| |by intros r HF _; eapply within_failed].
  intros r HE Hr. pose proof (within_entered _ _ _ _ _ W HE Hr) as W'.
  apply wp_then, reach_wp; [|eapply within_failed; [exact W'|by apply failed_refl]].
  intros Hm. apply IH; [by apply within_raise|cbn; lia|cbn; lia].
Qed.

Lemma hole_path_spec path hole p : ok p ->
  spec (hole_path path hole) p (fun v ts pk =>
    ts = [] /\ hole_value path = Some v /\ levels_of v <= 1 + (pk - structural p)).
Proof.
  intros H. unfold hole_path. apply spec_structural, spec_parser. destruct path as [|[name span] path].
  { by eapply spec_fail. }
  apply wp_then. eapply wp_weaken; [eapply (hole_fields_wp (structural p) path p H)| |done].
  - by apply within_refl.
  - destruct (ok_peak _ _ H). lia.
  - cbn. lia.
  - cbn beta. intros v q (W & Hv & Hl). apply wp_then, wp_modify, wp_done. exists [].
    split; [by apply within_close|]. split_and!; [done|by rewrite Hv|done].
Qed.

Definition part_levels (part : StringPart) : Z :=
  match part with PartText _ _ => 0 | PartHole value _ => levels_of value end.

Lemma string_parts_spec parts : forall p, ok p ->
  spec (string_parts parts) p (fun l ts pk =>
    ts = [] /\ Forall2 DerivesPart parts l /\ most (map part_levels l) <= 1 + (pk - structural p)).
Proof.
  induction parts as [|[value span|path span] parts IH]; intros p H; cbn [string_parts].
  - apply spec_ret; [done|]. destruct (ok_peak _ _ H). split_and!; [done|constructor|]. cbn [map]. rewrite most_nil. lia.
  - eapply spec_bind; [by apply IH|]. cbn beta. intros l ts p1 A1 (-> & HF & Hm).
    apply spec_ret; [side|]. split_and!; [done|by repeat constructor|].
    cbn [map part_levels]. rewrite most_cons. destruct (ok_peak _ _ H). frames. lia.
  - eapply spec_bind; [by apply hole_path_spec|]. cbn beta. intros v ts p1 A1 (-> & Hv & Hl).
    eapply spec_bind; [apply IH; side|]. cbn beta. intros l ts p2 A2 (-> & HF & Hm).
    apply spec_ret; [side|]. split_and!; [done|by repeat constructor|].
    cbn [map part_levels]. rewrite most_cons. frames. lia.
Qed.

Lemma interpolation_spec t template p : token_kind t = TTemplate template -> ok p ->
  spec (interpolation template (token_span t)) p (fun e ts pk => expression_post 8 p e ([t] ++ ts) pk).
Proof.
  intros Ht H. unfold interpolation.
  eapply spec_bind with (Q1 := fun l ts pk => ts = [] /\ Forall2 DerivesPart (template_parts template) l
    /\ most (map part_levels l) <= pk - structural p).
  - eapply spec_nested; [side|]. intros q E Hq. eapply spec_mono; [by apply string_parts_spec|].
    cbn beta. intros l ts pk (-> & HF & Hm) _. split_and!; [done|done|]. frames. lia.
  - cbn beta. intros l ts p1 A1 (-> & HF & Hm). apply spec_ret; [side|]. cbn [app]. split.
    + rewrite <- over_one. by eapply derives_interpolation.
    + cbn [levels_of]. fold part_levels. destruct (ok_depth _ _ H). rooms.
Qed.
End Holes.

(** ** What contains expressions *)

Definition entry_levels (entry : ListEntry) : Z :=
  match entry with mkListEntry key value _ => levels_of key `max` levels_of value end.
Definition field_levels (field : RecordField) : Z :=
  match field with mkRecordField _ value _ => levels_of value end.
Definition construct_levels (field : ConstructField) : Z :=
  match field with mkConstructField _ _ value _ => levels_of value end.
Definition arm_levels (arm : MatchArm) : Z :=
  match arm with mkMatchArm _ value _ => levels_of value end.

Ltac levels :=
  rewrite ?map_app; cbn [map entry_levels field_levels construct_levels arm_levels]; rewrite ?most_snoc, ?most_nil; rooms.

(** Tokens were read. *)
Ltac progress_made :=
  let E := fresh in intros E;
  repeat match goal with H : _ ++ _ = [] |- _ => apply app_eq_nil in H as [? ?] end; congruence.

Section Contents.
Context (text : chars) (tokens : list Token) (Hlex : lexical text tokens).
Local Notation spec := (spec tokens).
Local Notation ok := (ok tokens).
Context (d : Z) (expression' : Parse Expression).
Hypothesis He : forall q, ok q -> d < depth q -> spec expression' q (expression_post 0 q).

Ltac deeper := first [done | side | frames; lia].

Lemma arguments_spec p : ok p -> d < depth p ->
  spec (arguments tokens expression') p (fun l ts pk =>
    CommaList (DerivesExpression 0) ts l /\ most (map levels_of l) <= 1 + room p pk).
Proof.
  intros H D. unfold arguments. eapply spec_check; [side..|]. intros t _. case_bool_decide.
  { apply spec_ret; [done|]. split; [apply comma_closed; constructor|].
    pose proof (room_now _ p H). levels. }
  eapply spec_loop with (I := fun l ts pk => Elements (DerivesExpression 0) ts l
    /\ most (map levels_of l) <= 1 + room p pk); [done|split; [constructor|]|].
  { pose proof (room_now _ p H). levels. }
  intros l ts p1 A1 [HE Hm]. eapply spec_bind; [apply He; deeper|]. intros e us p2 A2 [HD Hl].
  eapply spec_another with (R := DerivesExpression 0); [side|side|exact HE|exact HD| |].
  - intros p3 vs A3 _ HE'. apply spec_ret; [side|]. destruct (derives_expression_span _ _ _ HD) as [_ Hne].
    rewrite app_nil_r. split_and!; [progress_made|done|levels].
  - intros p3 vs A3 _ HC. apply spec_ret; [side|]. rewrite app_nil_r. split; [done|levels].
Qed.

Lemma empty_entry_list_spec {B} start (k : unit -> Parse B) p Q : ok p -> spec (k tt) p Q ->
  spec (let! u := empty_entry_list tokens start in k u) p Q.
Proof.
  intros H Hk. destruct (token_at _ _ Hlex (cursor p)) as (t & Ht & _); [apply H|].
  apply wp_then. unfold empty_entry_list. apply wp_then. unfold check. apply wp_then.
  unfold wp, current. rewrite Ht. cbn. unfold bind, parser.
  destruct (tokens !! S (cursor p)); [|exact Hk]. destruct (_ && _); [by apply failed_refl|exact Hk].
Qed.

Lemma spec_fail_bind {A B} error (k : A -> Parse B) p Q : ok p -> spec (let! x := fail error in k x) p Q.
Proof. intros H. by apply failed_refl. Qed.

Lemma no_elements {A} (R : list Token -> A -> Prop) ts : Elements R ts [] -> ts = [].
Proof. intros HE. remember [] as l eqn:El. destruct HE as [|ts l us a c]; [done|]. by destruct l. Qed.

(** What a list literal holds so far, and in the end. *)
Definition list_of (L : forall A, (list Token -> A -> Prop) -> list Token -> list A -> Prop) (p : Parser)
    (contents : list Expression * list ListEntry) (ts : list Token) (pk : Z) : Prop :=
  let '(elements, entries) := contents in
  entries = [] /\ L _ (DerivesExpression 0) ts elements /\ most (map levels_of elements) <= 1 + room p pk
  \/ elements = [] /\ entries <> [] /\ L _ DerivesEntry ts entries /\ most (map entry_levels entries) <= 1 + room p pk.

Lemma list_round_spec p p1 s ts : ok p -> d < depth p -> after tokens p p1 ts ->
  list_of (@Elements) p s ts (peak p1) ->
  spec (let '(elements, entries) := s in
        let! element := expression' in
        let! token := current tokens in
        let! (elements, entries) :=
          if bool_decide (token_kind token = TColon) then
            match elements with
            | _ :: _ => fail (mixed_list (span_join (expression_span element) (token_span token)))
            | [] =>
                let! _ := advance tokens in
                let! value := expression' in
                ret ([], entries ++ [mkListEntry element value
                  (span_join (expression_span element) (expression_span value))])
            end
          else
            match entries with
            | _ :: _ => fail (mixed_list (expression_span element))
            | [] => ret (elements ++ [element], [])
            end in
        let! more := another tokens TRightBracket in
        ret (if more then inl (elements, entries) else inr (elements, entries))) p1
    (fun r us pk => match r with
       | inl s' => us <> [] /\ list_of (@Elements) p s' (ts ++ us) pk
       | inr s' => list_of (@CommaList) p s' (ts ++ us) pk end).
Proof.
  intros H D A1 HI. destruct s as [elements entries].
  eapply spec_bind; [apply He; deeper|]. intros e us p2 A2 [HD Hl].
  destruct (derives_expression_span _ _ _ HD) as [Hs Hne].
  eapply spec_current; [side..|]. intros t Ht. case_bool_decide as Hk.
  - destruct elements as [|x elements]; [|apply spec_fail_bind; side]. 
    assert (Elements DerivesEntry ts entries /\ most (map entry_levels entries) <= 1 + room p (peak p1)) as [HE Hm].
    { destruct HI as [(-> & HE & Hm)|(_ & _ & HE & Hm)]; [|done]. rewrite (no_elements _ _ HE). split; [constructor|].
      cbn [map] in *. by rewrite most_nil in Hm |- *. }
    eapply spec_bind with (Q1 := fun '(elements', entries') vs pk => elements' = [] /\ exists entry,
      entries' = entries ++ [entry] /\ DerivesEntry (us ++ vs) entry /\ entry_levels entry <= 1 + room p pk).
    + eapply spec_advance with (t := t); [side|side|side|by rewrite Hk|]. intros p3 A3 _.
      eapply spec_bind; [apply He; deeper|]. intros v vs p4 A4 [HV Hv]. apply spec_ret; [side|]. split; [done|].
      destruct (derives_expression_span _ _ _ HV) as [Hs' Hne']. eexists. split; [done|]. split; [|levels].
      rewrite Hs, Hs', app_nil_r. replace (span_join _ _) with (over (us ++ [t] ++ vs)) by (cbn [app]; by spans).
      by constructor.
    + intros [elements' entries'] vs p3 A3 (-> & entry & -> & HN & Hn).
      eapply spec_another with (R := DerivesEntry); [side|side|exact HE|exact HN| |].
      * intros p4 ws A4 _ HE'. apply spec_ret; [side|]. rewrite app_nil_r. rewrite <- app_assoc in HE'.
        split; [progress_made|]. right. split_and!; [done|progress_made|done|levels].
      * intros p4 ws A4 _ HC. apply spec_ret; [side|]. rewrite app_nil_r. rewrite <- app_assoc in HC.
        right. split_and!; [done|progress_made|done|levels].
  - destruct entries as [|x entries]; [|apply spec_fail_bind; side].
    destruct HI as [(_ & HE & Hm)|(_ & [] & _)]; [|done].
    eapply (spec_bind tokens (ret _)) with (Q1 := fun s vs _ => vs = [] /\ s = (elements ++ [e], [])).
    { by apply spec_ret; [side|]. }
    intros s vs p3 A3 [-> ->].
    eapply spec_another with (R := DerivesExpression 0); [side|side|exact HE|exact HD| |].
    + intros p4 ws A4 _ HE'. apply spec_ret; [side|]. rewrite app_nil_r.
      split; [progress_made|]. left. split_and!; [done|done|levels].
    + intros p4 ws A4 _ HC. apply spec_ret; [side|]. rewrite app_nil_r. left. split_and!; [done|done|levels].
Qed.

Lemma spec_bracketed {A} span allowed (m : Parse A) p (Q : A -> list Token -> Z -> Prop) : ok p ->
  (forall q, ok q -> depth q = depth p + 1 -> structural q = structural p + 1 ->
     spec m q (fun a ts pk => structural p + 1 <= pk -> Q a ts pk)) ->
  spec (nested span (with_construction allowed m)) p Q.
Proof.
  intros H Hm. apply spec_nested; [done|]. intros q E Hq. apply spec_with_construction; [done|].
  intros r Hr Dr Sr _ _. apply Hm; [done|rewrite Dr; apply E|]. rewrite Sr. by apply entered_structural.
Qed.

(** The kind of a list literal. *)
Definition list_kind (entries : list ListEntry) (elements : list Expression) : ExpressionKind :=
  match entries with [] => EList elements | _ :: _ => EEntryList entries end.

Lemma list_post o c p q contents ts : token_kind o = TLeftBracket -> token_kind c = TRightBracket ->
  depth q = depth p + 1 -> structural q = structural p + 1 -> ok q ->
  forall pk, structural p + 1 <= pk -> list_of (@CommaList) q contents ts pk ->
  expression_post 8 p (mkExpression (list_kind contents.2 contents.1) (over ([o] ++ ts ++ [c]))) ([o] ++ ts ++ [c]) pk.
Proof.
  intros Ho Hc Dq Sq Hq pk Hpk HL. pose proof (ok_depth _ _ Hq) as [_ Hd]. destruct contents as [elements entries].
  destruct HL as [(-> & HC & Hm)|(-> & Hne & HC & Hm)]; cbn [fst snd list_kind].
  - split; [by apply derives_list_literal|]. cbn [levels_of]. rooms.
  - unfold list_kind. destruct entries as [|x entries]; [done|].
    split; [by apply derives_entry_list|]. cbn [levels_of]. fold entry_levels. rooms.
Qed.

Lemma list_literal_spec o p : token_kind o = TLeftBracket -> ok p -> d <= depth p ->
  spec (list_literal tokens expression' (token_span o)) p (fun e ts pk => expression_post 8 p e ([o] ++ ts) pk).
Proof.
  intros Ho H D. apply spec_bracketed; [done|]. intros q Hq Dq Sq.
  unfold list_elements. apply empty_entry_list_spec; [done|]. eapply spec_check; [side..|]. intros t _.
  eapply spec_bind with (Q1 := list_of (@CommaList) q).
  - pose proof (room_now _ q Hq). case_bool_decide.
    + apply spec_ret; [done|]. left. split_and!; [done|apply comma_closed; constructor|levels].
    + eapply spec_loop with (I := list_of (@Elements) q); [done| |].
      * left. split_and!; [done|constructor|levels].
      * intros s ts p1 A1 HI. apply list_round_spec; [done|lia|done|done].
  - intros [elements entries] ts p1 A1 HL. eapply spec_expect; [side..|]. intros c p2 Hc A2 HP.
    apply spec_ret; [side|]. intros Hpk. rewrite app_nil_r.
    pose proof (list_post o c p q (elements, entries) ts Ho Hc Dq Sq Hq (peak p2) Hpk) as HX. rewrite HP in HX.
    specialize (HX HL). cbn [fst snd] in HX. unfold list_kind in HX. rewrite HP.
    replace (span_join _ _) with (over ([o] ++ ts ++ [c])) by apply over_ends. done.
Qed.

(** ** Records and constructions *)

Lemma record_spec r p : token_kind r = TRecord -> ok p -> d <= depth p ->
  spec (record tokens expression' (token_span r)) p (fun e ts pk => expression_post 8 p e ([r] ++ ts) pk).
Proof.
  intros Hr H D. apply spec_bracketed; [done|]. intros q Hq Dq Sq.
  unfold record_fields. eapply spec_expect; [side..|]. intros o p1 Ho A1 _.
  eapply spec_check; [side..|]. intros t0 _. pose proof (room_now _ q Hq).
  eapply spec_bind with (Q1 := fun fields ts pk => CommaList DerivesField ts fields
    /\ NoDup (map (fun '(mkRecordField name _ _) => name) fields) /\ most (map field_levels fields) <= 1 + room q pk).
  - case_bool_decide; [apply spec_ret; [side|]; split_and!; [apply comma_closed; constructor|constructor|levels]|].
    eapply spec_loop with (I := fun '(fields, seen) ts pk => Elements DerivesField ts fields
      /\ NoDup (map (fun '(mkRecordField name _ _) => name) fields) /\ most (map field_levels fields) <= 1 + room q pk
      /\ forall name : string, name ∈ seen <-> name ∈ map (fun '(mkRecordField name _ _) => name) fields).
    { side. } { split_and!; [constructor|constructor|levels|]. intros name. set_solver. }
    intros [fields seen] ts p2 A2 (HE & HN & Hm & Hs).
    eapply spec_identifier; [side..|]. intros n name p3 Hn A3 _.
    case_bool_decide as Hd; [eapply spec_fail; side|].
    eapply spec_expect; [side..|]. intros c p4 Hc A4 _.
    eapply spec_bind; [apply He; deeper|]. intros v us p5 A5 [HD Hl].
    assert (DerivesField ([n; c] ++ us) (mkRecordField name v (span_join (token_span n) (expression_span v)))) as HF.
    { destruct (derives_expression_span _ _ _ HD) as [-> Hne].
      replace (span_join _ _) with (over ([n; c] ++ us)) by (cbn [app]; by spans). by constructor. }
    assert (NoDup (map (fun '(mkRecordField name _ _) => name)
      (fields ++ [mkRecordField name v (span_join (token_span n) (expression_span v))]))) as HN'.
    { apply NoDup_snoc; [done|]. by rewrite <- Hs. }
    eapply spec_another with (R := DerivesField); [side|side|exact HE|exact HF| |].
    + intros p6 vs A6 _ HE'. apply spec_ret; [side|]. split; [done|]. rewrite app_nil_r.
      split_and!; [by rewrite <- app_assoc in HE'|done|levels|].
      intros x. rewrite map_app. set_solver.
    + intros p6 vs A6 _ HC. apply spec_ret; [side|]. rewrite app_nil_r.
      split_and!; [by rewrite <- app_assoc in HC|done|levels].
  - intros fields ts p2 A2 (HC & HN & Hm). eapply spec_expect; [side..|]. intros c p3 Hc A3 _.
    apply spec_ret; [side|]. intros Hpk. rewrite app_nil_r. split.
    + pose proof (derives_record r o ts fields c Hr Ho HC HN Hc) as HP.
      replace (span_join _ _) with (over ([r; o] ++ ts ++ [c])) by apply (over_ends r (o :: ts) c). done.
    + cbn [levels_of]. fold field_levels. destruct (ok_depth _ _ Hq). rooms.
Qed.

Lemma construction_value_spec n name p : token_kind n = TIdentifier name -> ok p -> d < depth p ->
  spec (construction_value tokens expression' name (token_span n)) p (fun v ts pk =>
    DerivesConstructField ([n] ++ ts)
      (mkConstructField name (token_span n) v (span_join (token_span n) (expression_span v)))
    /\ levels_of v <= 1 + room p pk).
Proof.
  intros Hn H D. unfold construction_value. eapply spec_consume; [side..| |]; cbn iota.
  - intros c p1 Hc A1 _. eapply spec_mono; [apply He; deeper|]. intros v ts pk [HD Hl]. split; [|rooms].
    destruct (derives_expression_span _ _ _ HD) as [-> Hne].
    replace (span_join _ _) with (over ([n; c] ++ ts)) by (cbn [app]; by spans). by constructor.
  - intros t p1 _ _ A1 HP. eapply spec_check; [side..|]. intros t1 _. eapply spec_check; [side..|]. intros t2 _.
    destruct (_ || _); [|eapply expected_spec; side]. apply spec_ret; [side|]. split.
    + cbn [app expression_span]. replace (span_join _ _) with (over [n]) by (by rewrite over_one; destruct (token_span n)).
      by apply derives_punned.
    + cbn [levels_of]. pose proof (room_now _ p H). rewrite HP. lia.
Qed.

Lemma construction_spec n name contract p : token_kind n = TIdentifier name -> from_name name = Some contract ->
  ok p -> d <= depth p ->
  spec (construction tokens expression' contract (token_span n)) p
    (fun e ts pk => expression_post 8 p e ([n] ++ ts) pk).
Proof.
  intros Hn Hf H D. unfold construction. eapply spec_expect; [side..|]. intros o p0 Ho A0 _.
  apply spec_bracketed; [side|]. intros q Hq Dq Sq.
  unfold construction_fields. eapply spec_check; [side..|]. intros t0 _. pose proof (room_now _ q Hq).
  eapply spec_bind with (Q1 := fun fields ts pk => CommaList DerivesConstructField ts fields
    /\ most (map construct_levels fields) <= 1 + room q pk).
  - case_bool_decide; [apply spec_ret; [side|]; split_and!; [apply comma_closed; constructor|levels]|].
    eapply spec_loop with (I := fun fields ts pk => Elements DerivesConstructField ts fields
      /\ most (map construct_levels fields) <= 1 + room q pk); [side|split; [constructor|levels]|].
    intros fields ts p2 A2 (HE & Hm).
    eapply spec_identifier; [side..|]. intros m field p3 Hm' A3 _.
    eapply spec_bind; [apply construction_value_spec; deeper|]. cbn beta. intros v us p4 A4 [HF Hl].
    eapply spec_another with (R := DerivesConstructField); [side|side|exact HE|exact HF| |].
    + intros p5 vs A5 _ HE'. apply spec_ret; [side|]. split; [done|]. rewrite app_nil_r.
      split_and!; [by rewrite <- app_assoc in HE'|levels].
    + intros p5 vs A5 _ HC. apply spec_ret; [side|]. rewrite app_nil_r.
      split_and!; [by rewrite <- app_assoc in HC|levels].
  - intros fields ts p2 A2 (HC & Hm). eapply spec_expect; [side..|]. intros c p3 Hc A3 _.
    apply spec_ret; [side|]. intros Hpk. rewrite app_nil_r. split.
    + pose proof (derives_construction n name contract o ts fields c Hn Hf Ho HC Hc) as HP.
      replace (span_join _ _) with (over ([n; o] ++ ts ++ [c])) by apply (over_ends n (o :: ts) c). done.
    + cbn [levels_of]. fold construct_levels. destruct (ok_depth _ _ Hq). rooms.
Qed.
End Contents.
