(* ===== verification/ParserBlocks.v ===== *)
(** * Looking ahead changes nothing

    The parser recognises other languages' constructs by looking at tokens it
    has not read, and for [? :] by parsing ahead and going back.  Each of these
    answers, without a panic, in the state it started in ([looks]). *)

From S2P Require Import Prelude Utf8 Syntax Tokens Habits Parser ParserSpec ParserLogic ParserTypes ParserExprs.

Definition looks {A} (m : Parse A) (p : Parser) : Prop := exists a, m p = (p, Parsed a).

Lemma looks_bind {A B} (m : Parse A) (k : A -> Parse B) p :
  looks m p -> (forall a, looks (k a) p) -> looks (bind m k) p.
Proof. intros [a Ha] Hk. destruct (Hk a) as [b Hb]. exists b. unfold bind. by rewrite Ha. Qed.

Lemma looks_ret {A} (a : A) p : looks (ret a) p.
Proof. by exists a. Qed.

Lemma looks_parser p : looks parser p.
Proof. by exists p. Qed.

Create HintDb looks.
#[export] Hint Resolve looks_ret looks_parser : looks.

Section Lookahead.
Context (text : chars) (tokens : list Token) (Hlex : lexical text tokens).
Local Notation spec := (spec tokens).
Local Notation ok := (ok tokens).
Local Notation bound := (bound tokens).

Lemma spec_looks {A B} (m : Parse A) (k : A -> Parse B) p Q :
  looks m p -> (forall a, spec (k a) p Q) -> spec (bind m k) p Q.
Proof. intros [a Ha] Hk. unfold ParserLogic.spec, wp, bind. rewrite Ha. apply Hk. Qed.

Lemma spec_refuse {B} o (k : unit -> Parse B) p Q : ok p -> spec (k tt) p Q -> spec (let! u := refuse o in k u) p Q.
Proof. intros H Hk. destruct o; [by apply failed_refl|exact Hk]. Qed.

Lemma looks_current p : (cursor p <= bound)%nat -> looks (current tokens) p.
Proof. intros H. destruct (token_at _ _ Hlex (cursor p) H) as (t & Ht & _). exists t. unfold current. by rewrite Ht. Qed.

Lemma looks_check kind p : (cursor p <= bound)%nat -> looks (check tokens kind) p.
Proof. intros H. apply looks_bind; [by apply looks_current|]. intros a. apply looks_ret. Qed.

Hint Resolve looks_current looks_check : looks.

Ltac look := repeat first
  [ progress intros | apply looks_bind; [by eauto with looks|] | progress case_match | by eauto with looks ].

Lemma looks_word_habit word span p : (cursor p <= bound)%nat -> looks (word_habit text tokens word span) p.
Proof. intros H. unfold word_habit. look. Qed.

Lemma looks_statement_habit p : (cursor p <= bound)%nat -> looks (statement_habit tokens) p.
Proof. intros H. unfold statement_habit. look. Qed.

Lemma looks_assignment_after target p : (cursor p <= bound)%nat -> looks (assignment_after tokens target) p.
Proof. intros H. unfold assignment_after. look. Qed.

Lemma looks_else_return else_span p : (cursor p <= bound)%nat -> looks (else_return text tokens else_span) p.
Proof. intros H. unfold else_return. look. Qed.

Lemma looks_restricted contract name p : (cursor p <= bound)%nat -> looks (restricted_construction tokens contract name) p.
Proof. intros H. unfold restricted_construction. look. Qed.

Lemma looks_entrypoint p : (cursor p <= bound)%nat -> looks (entrypoint_keyword tokens) p.
Proof. intros H. unfold entrypoint_keyword. look. Qed.

Lemma looks_nested_entrypoint p : (cursor p <= bound)%nat -> looks (nested_entrypoint_keyword tokens) p.
Proof. intros H. unfold nested_entrypoint_keyword. look. Qed.

Lemma token_before n : (n <= bound)%nat -> is_Some (tokens !! n).
Proof. intros H. destruct (token_at _ _ Hlex n H) as (t & -> & _). done. Qed.

Lemma looks_state {B} (k : Parser -> Parse B) p : looks (k p) p -> looks (let! q := parser in k q) p.
Proof. done. Qed.

Lemma looks_mutation t p : (cursor p <= bound)%nat -> (token_kind t <> TEof -> cursor p <> O) ->
  looks (mutation_operator tokens t) p.
Proof.
  intros H Ht. unfold mutation_operator. apply looks_state.
  assert (exists n, (match token_kind t with TEof => ret (cursor p)
    | _ => match cursor p with O => panic | S n => ret n end end) p = (p, Parsed n) /\ (n <= bound)%nat) as (n & En & Hn).
  { destruct (token_kind t), (cursor p) as [|n]; try (by destruct Ht); eexists; (split; [done|lia]). }
  unfold looks, bind. rewrite En. destruct n as [|before]; [by eexists|].
  destruct (token_before before ltac:(lia)) as [b ->].
  destruct (token_kind b), (token_kind t); try (by eexists); destruct before as [|first]; try (by eexists).
  all: destruct (token_before first ltac:(lia)) as [f ->]; case_bool_decide; by eexists.
Qed.

Lemma looks_doc_comment p : (cursor p <= bound)%nat -> looks (doc_comment text tokens) p.
Proof.
  intros H. destruct (token_at _ _ Hlex (cursor p) H) as (t & Ht & _).
  pose proof (lexical_trivia _ _ Hlex _ _ Ht) as [trivia Htr]. unfold looks, doc_comment, bind, parser, current, end_before in *.
  rewrite Ht. destruct (cursor p) as [|n]; cbn; [rewrite Htr; by eexists|].
  destruct (token_before n ltac:(lia)) as [b Hb]. rewrite Hb in *. cbn. rewrite Htr. by eexists.
Qed.

(** ** Parsing ahead *)

Context (d : Z) (expression' : Parse Expression).
Hypothesis He : forall q, ok q -> d < depth q -> spec expression' q (expression_post 0 q).

Lemma looks_ternary question n p : ok p -> d <= depth p -> cursor p = S n ->
  looks (ternary_after tokens expression' question) p.
Proof.
  intros H D Hn. unfold ternary_after. apply looks_state. rewrite Hn.
  set (p' := set_speculations p (speculations p + 1)).
  assert (ok p') as Hp'. { destruct H as [C Dp Ch P S]. split; [done|done|done|done|cbn; lia]. }
  assert (spec (nested question expression') p' (fun _ _ _ => True)) as Hspec.
  { apply spec_nested; [done|]. intros q E Hq. eapply spec_mono; [apply He; [done|]|done].
    pose proof (entered_depth _ _ E) as Ed. cbn in Ed. lia. }
  unfold looks, bind at 1, modify at 1. fold p'. unfold bind at 1, attempt. unfold ParserLogic.spec, wp in Hspec.
  destruct (nested question expression' p') as [q r].
  assert (match r with Parsed _ | Failed _ => (cursor q <= bound)%nat /\ speculations q = speculations p + 1
    /\ construction_allowed q = construction_allowed p | _ => False end) as HX.
  { destruct r; [destruct Hspec as (ts & [[] ? ? ? ? ? ?] & _)|destruct Hspec|done|done]; done. }
  assert (mkParser (S n) (depth p) (chain_depth p) (peak p) (speculations p) (construction_allowed p) = p)
    as Hp by (rewrite <- Hn; by destruct p).
  destruct r as [e|error| |]; [| |done|done]; destruct HX as (Hc & Hs & Ha); cbn; unfold usize_sub.
  all: rewrite (proj2 (Z.leb_le 1 (speculations q))) by (destruct H; lia); cbn; unfold bind, current; cbn.
  all: destruct (token_at _ _ Hlex (cursor q) Hc) as (t & -> & _); cbn.
  all: replace (speculations q - 1) with (speculations p) by lia; rewrite Ha, Hp.
  - by eexists.
  - case_match; [by eexists|]. case_match; by eexists.
Qed.

Lemma looks_question_misuse question n p : ok p -> d <= depth p -> cursor p = S n ->
  looks (question_misuse text tokens expression' question) p.
Proof.
  intros H D Hn. unfold question_misuse. apply looks_bind; [apply looks_current; apply H|]. intros t. apply looks_state.
  rewrite Hn. case_match; [by apply looks_ret|]. case_match; [by apply looks_ret|].
  apply looks_bind; [by eapply looks_ternary|]. intros o. by apply looks_ret.
Qed.

(** ** Parentheses *)

Lemma spec_attempt {A B} (m : Parse A) (k : result A Diagnostic -> Parse B) p Q1 Q : spec m p Q1 ->
  (forall a ts p', after tokens p p' ts -> Q1 a ts (peak p') -> spec (k (Ok a)) p' (fun b us pk => Q b (ts ++ us) pk)) ->
  (forall error, exists error', k (Err error) = fail error') ->
  spec (let! r := attempt m in k r) p Q.
Proof.
  intros Hm Hok Herr. apply wp_then, wp_attempt. eapply wp_weaken; [exact Hm| |].
  - intros a p' (ts & HA & HQ). eapply wp_weaken; [by apply Hok| |].
    + intros b p'' (us & HA' & HB). exists (ts ++ us). split; [by eapply after_trans|done].
    + intros p'' HF. by eapply failed_after.
  - intros p' HF error. destruct (Herr error) as [error' ->]. exact HF.
Qed.

Lemma parenthesized_spec o n p : token_kind o = TLeftParen -> ok p -> d <= depth p -> cursor p = S n ->
  spec (parenthesized tokens expression' (token_span o)) p (fun e ts pk => expression_post 8 p e ([o] ++ ts) pk).
Proof.
  intros Ho H D Hn. unfold parenthesized. apply spec_parser. rewrite Hn. eapply spec_check; [side..|]. intros t Ht.
  pose proof (room_now _ p H). case_bool_decide as Hk.
  - eapply spec_advance with (t := t); [side..|by rewrite Hk|]. intros p1 A1 HP. eapply spec_current; [side..|]. intros t' _.
    case_bool_decide; [eapply spec_fail; side|]. apply spec_ret; [side|]. split; [by apply derives_unit|]. cbn [levels_of]. rooms.
  - eapply spec_attempt with (Q1 := fun e ts pk => DerivesExpression 0 ts e /\ levels_of e <= 1 + room p pk).
    + apply spec_bracketed; [done|]. intros q Hq Dq Sq. eapply spec_mono; [apply He; [done|lia]|].
      intros e ts pk [HD Hl] _. split; [done|rooms].
    + intros e ts p1 A1 [HD Hl]. eapply spec_check; [side..|]. intros c Hc. case_bool_decide as Hk'; cbn [negb].
      2: { destruct (arrow_after_group tokens n); [eapply spec_fail; side|eapply expected_spec; side]. }
      eapply spec_advance with (t := c); [side..|by rewrite Hk'|]. intros p2 A2 HP. eapply spec_current; [side..|]. intros t' _.
      case_bool_decide; [eapply spec_fail; side|]. apply spec_ret; [side|]. rewrite app_nil_r. split.
      * replace (span_join _ _) with (over ([o] ++ ts ++ [c])) by apply over_ends. by apply derives_parenthesized.
      * destruct e as [kind span]. cbn [expression_kind]. cbn [levels_of] in *. rooms.
    + intros error. by eexists.
Qed.
End Lookahead.

(** * Statements and blocks are parsed by their grammar *)

Ltac deeper := first [done | side | frames; lia].

Lemma over_last t ts c : last ts = Some c -> over (t :: ts) = span_join (token_span t) (token_span c).
Proof. intros H. unfold over. rewrite last_cons, H. done. Qed.

Lemma over_suffix t ts us : us <> [] -> over (t :: ts ++ us) = span_join (token_span t) (over us).
Proof.
  intros H. rewrite app_comm_cons, over_app by done. unfold over at 1.
  destruct (last (t :: ts)) eqn:E; [done|by apply last_None in E].
Qed.

(** The span of tokens whose first and last are known. *)
Ltac ends := cbn [app]; apply over_last; repeat (rewrite last_app || rewrite last_cons); cbn; done.

Section Statements.
Context (text : chars) (tokens : list Token) (Hlex : lexical text tokens).
Local Notation spec := (spec tokens).
Local Notation ok := (ok tokens).
Context (d : Z) (expression : Parse Expression) (block : Parse Block).
Hypothesis He : forall q, ok q -> d < depth q -> spec expression q (expression_post 0 q).
Hypothesis Hb : forall q, ok q -> d < depth q -> spec block q (block_post q).

Lemma spec_unless {B} (b : bool) error (k : unit -> Parse B) p Q : ok p -> (b = false -> spec (k tt) p Q) ->
  spec (let! u := if b then fail error else ret tt in k u) p Q.
Proof. intros H Hk. destruct b; [by apply failed_refl|by apply Hk]. Qed.

Lemma spec_expected_else {B} pattern complement (k : unit -> Parse B) p Q : ok p ->
  (forall t, tokens !! cursor p = Some t -> token_kind t = TElse -> spec (k tt) p Q) ->
  spec (let! u := expected_else tokens pattern complement in k u) p Q.
Proof.
  intros H Hk. destruct (token_at _ _ Hlex (cursor p)) as (t & Ht & _); [apply H|].
  apply wp_then. unfold expected_else. apply wp_then. unfold wp, current. rewrite Ht.
  case_bool_decide; [by apply (Hk t)|by apply failed_refl].
Qed.

(** After an expression that a statement holds. *)
Lemma spec_assignment {B} target (k : unit -> Parse B) p Q : ok p -> spec (k tt) p Q ->
  spec (let! a := assignment_after tokens target in let! u := refuse a in k u) p Q.
Proof.
  intros H Hk. apply spec_looks; [eapply looks_assignment_after; [done|apply H]|]. intros a. by apply spec_refuse.
Qed.

Lemma derives_variant_span ts p : DerivesVariantPattern ts p -> vp_span p = over ts /\ ts <> [].
Proof. by destruct 1. Qed.

Lemma let_else_arm_spec p : ok p -> d < depth p ->
  spec (let_else_arm tokens expression) p (fun arm ts pk =>
    DerivesLetElseArm ts arm /\ (let '(mkVariantArm _ _ v _) := arm in levels_of v) <= 1 + room p pk).
Proof.
  intros H D. unfold let_else_arm. eapply spec_bind; [eapply variant_pattern_spec; side|].
  cbn beta. intros pat ps p1 A1 HP. eapply spec_expect; [side..|]. intros a p2 Ha A2 _.
  eapply spec_bind; [apply He; deeper|]. intros v ts p3 A3 [HD Hl]. apply spec_ret; [side|]. rewrite app_nil_r.
  split; [|rooms]. destruct (derives_expression_span _ _ _ HD) as [Hs Hne], (derives_variant_span _ _ HP) as [Hs' Hne'].
  rewrite Hs, Hs'. replace (span_join _ _) with (over (ps ++ [a] ++ ts)) by (cbn [app]; by spans). by constructor.
Qed.

Lemma let_else_spec t p : token_kind t = TLet -> ok p -> d < depth p ->
  spec (let_else text tokens expression (token_span t)) p (fun s ts pk => statement_post p s ([t] ++ ts) pk).
Proof.
  intros Ht H D. unfold let_else. eapply spec_bind; [eapply variant_pattern_spec; side|].
  cbn beta. intros pat ps p1 A1 HP. eapply spec_bind; [eapply annotation_after_spec; side|].
  cbn beta. intros annotation ts p2 A2 HA. eapply spec_expect; [side..|]. intros q p3 Hq A3 _.
  eapply spec_bind; [apply He; deeper|]. intros v us p4 A4 [HD Hl].
  destruct (derives_expression_span _ _ _ HD) as [Hs Hne].
  apply spec_assignment; [side|]. apply spec_expected_else; [side|]. intros e Hce Hke.
  destruct (last us) as [l|] eqn:El; [|by apply last_None in El].
  eapply spec_previous; [exact A4|exact El|]. apply spec_unless; [side|]. intros _.
  eapply spec_advance with (t := e); [side..|by rewrite Hke|]. intros p5 A5 _.
  apply spec_looks; [eapply looks_else_return; [done|apply A5]|]. intros habit. apply spec_refuse; [side|].
  eapply spec_current; [side..|]. intros t' _. apply spec_unless; [side|]. intros _.
  eapply spec_bind with (Q1 := fun arm ts pk =>
    DerivesLetElseArm ts arm /\ (let '(mkVariantArm _ _ v _) := arm in levels_of v) <= 1 + room p pk).
  { apply spec_nested; [side|]. intros q' E Hq'. eapply spec_mono; [apply let_else_arm_spec; deeper|].
    intros [var bi v' sp] ts' pk [HD' Hl'] _. split; [done|rooms]. }
  intros arm ws p6 A6 [HArm Hla]. eapply spec_expect; [side..|]. intros s p7 Hsc A7 _. apply spec_ret; [side|].
  pose proof (derives_let_else t ps pat ts annotation q us v e ws arm s Ht HP HA Hq HD Hke HArm Hsc) as HX.
  split.
  - rewrite app_nil_r. replace (span_join _ _) with (over ([t] ++ ps ++ ts ++ [q] ++ us ++ [e] ++ ws ++ [s])) by ends. done.
  - cbn [statement_levels]. destruct arm. rooms.
Qed.

Lemma let_declaration_spec p : ok p -> d < depth p ->
  spec (let_declaration text tokens expression) p (statement_post p).
Proof.
  intros H D. unfold let_declaration. eapply spec_expect; [side..|]. intros t p1 Ht A1 _.
  eapply spec_at_variant; [side..|]. intros []. 
  { eapply spec_mono; [apply let_else_spec; [done|side|frames; lia]|]. intros s ts pk [HD Hl]. split; [done|rooms]. }
  eapply spec_binding_name; [side..|]. intros n name p2 Hn Hr A2 _.
  eapply spec_bind; [eapply annotation_after_spec; side|]. cbn beta. intros annotation ts p3 A3 HA.
  eapply spec_expect; [side..|]. intros q p4 Hq A4 _.
  eapply spec_bind; [apply He; deeper|]. intros v us p5 A5 [HD Hl].
  apply spec_assignment; [side|]. eapply spec_expect; [side..|]. intros s p6 Hs A6 _. apply spec_ret; [side|].
  pose proof (derives_let t n name ts annotation q us v s Ht Hn Hr HA Hq HD Hs) as HX. split.
  - rewrite app_nil_r. replace (span_join _ _) with (over ([t; n] ++ ts ++ [q] ++ us ++ [s])) by ends. done.
  - cbn [statement_levels]. rooms.
Qed.

Lemma function_rest_spec p : ok p -> d < depth p ->
  spec (function_rest tokens block) p (fun '(parameters, return_type, body) ts pk => exists ps us vs,
    ts = ps ++ us ++ vs /\ DerivesParameters ps parameters /\ DerivesAnnotation TThinArrow us return_type
    /\ DerivesBlock vs body /\ block_levels body + 1 <= room p pk).
Proof.
  intros H D. unfold function_rest. eapply spec_bind; [eapply parameters_spec; side|].
  cbn beta. intros parameters ps p1 A1 HP. eapply spec_bind; [eapply annotation_after_spec; side|].
  cbn beta. intros return_type us p2 A2 HR. eapply spec_bind; [apply Hb; deeper|].
  intros body vs p3 A3 [HB Hl]. apply spec_ret; [side|]. exists ps, us, vs. rewrite app_nil_r.
  split_and!; [done|done|done|done|rooms].
Qed.

Lemma function_declaration_spec p : ok p -> d < depth p ->
  spec (function_declaration text tokens block) p (statement_post p).
Proof.
  intros H D. unfold function_declaration. apply spec_looks; [eapply looks_doc_comment; [done|apply H]|]. intros doc.
  eapply spec_expect; [side..|]. intros f p1 Hf A1 _. eapply spec_binding_name; [side..|]. intros n name p2 Hn Hr A2 _.
  eapply spec_bind; [apply function_rest_spec; deeper|]. intros [[parameters return_type] body] ts p3 A3.
  intros (ps & us & vs & -> & HP & HR & HB & Hl). apply spec_ret; [side|]. rewrite app_nil_r.
  pose proof (derives_function_declaration f n name ps parameters us return_type vs body doc Hf Hn Hr HP HR HB) as HX.
  split; [|cbn [statement_levels]; rooms]. destruct (derives_block_span _ _ HB) as [-> Hne].
  replace (span_join _ _) with (over ([f; n] ++ (ps ++ us) ++ vs)); [by rewrite <- app_assoc|].
  by apply (over_suffix f (n :: ps ++ us)).
Qed.

Lemma expression_statement_spec p : ok p -> d < depth p ->
  spec (expression_statement tokens expression) p (expression_post 0 p).
Proof.
  intros H D. unfold expression_statement. apply spec_looks; [eapply looks_statement_habit; [done|apply H]|].
  intros habit. apply spec_refuse; [side|]. eapply spec_bind; [by apply He|]. intros e ts p1 A1 HP.
  apply spec_assignment; [side|]. apply spec_ret; [side|]. by rewrite app_nil_r.
Qed.

Lemma only_top_level_spec {A} keyword p (Q : A -> list Token -> Z -> Prop) : ok p -> spec (only_top_level tokens keyword) p Q.
Proof. intros H. eapply spec_current; [side..|]. intros t _. eapply spec_fail. side. Qed.

Lemma statement_end_post p e ts s pk : token_kind s = TSemicolon -> expression_post 0 p e ts pk ->
  statement_post p (mkStatement (SExpression e) (span_join (expression_span e) (token_span s))) (ts ++ [s]) pk.
Proof.
  intros Hs [HD Hl]. split; [|done]. destruct (derives_expression_span _ _ _ HD) as [-> Hne].
  rewrite <- over_snoc by done. by constructor.
Qed.

Lemma statement_spec p : ok p -> d < depth p -> spec (statement text tokens expression block) p (statement_post p).
Proof.
  intros H D. unfold statement. apply spec_looks; [eapply looks_nested_entrypoint; [done|apply H]|].
  intros [keyword|]; [by apply only_top_level_spec|]. eapply spec_current; [side..|]. intros t Ht. apply spec_ahead.
  case_bool_decide; [by apply let_declaration_spec|]. destruct (is_fn_name _ _); [by apply function_declaration_spec|].
  eapply spec_bind; [by apply expression_statement_spec|]. intros e ts p1 A1 HP.
  eapply spec_expect; [side..|]. intros s p2 Hs A2 HP2. apply spec_ret; [side|]. rewrite app_nil_r, HP2.
  by apply statement_end_post.
Qed.

(** ** Blocks *)

Lemma derives_statement_span ts s : DerivesStatement ts s -> ts <> [].
Proof. destruct 1; try done. by intros [_ ?]%app_eq_nil. Qed.

Definition contents_post (p : Parser) (contents : list Statement * option Expression) (ts : list Token) (pk : Z) : Prop :=
  let '(statements, tail) := contents in
  exists us vs, ts = us ++ vs /\ DerivesStatements us statements /\ DerivesTail vs tail
    /\ most (map statement_levels statements) <= 1 + room p pk
    /\ match tail with Some e => levels_of e | None => 0 end <= 1 + room p pk.

Lemma statements_snoc p p1 p2 ts us l s : after tokens p p1 ts -> after tokens p1 p2 us ->
  DerivesStatements ts l /\ most (map statement_levels l) <= 1 + room p (peak p1) ->
  statement_post p1 s us (peak p2) ->
  us <> [] /\ DerivesStatements (ts ++ us) (l ++ [s]) /\ most (map statement_levels (l ++ [s])) <= 1 + room p (peak p2).
Proof.
  intros A1 A2 [HL Hm] [HD Hl]. split_and!; [by eapply derives_statement_span|by constructor|].
  rewrite map_app. cbn [map]. rewrite most_snoc. rooms.
Qed.

Lemma block_contents_spec o p : token_kind o = TLeftBrace -> ok p -> d < depth p ->
  spec (block_contents text tokens expression block (token_span o)) p (fun b ts pk =>
    DerivesBlock ([o] ++ ts) b /\ block_levels b <= 2 + room p pk).
Proof.
  intros Ho H D. unfold block_contents. pose proof (room_now _ p H) as Hr.
  eapply spec_bind with (Q1 := contents_post p).
  - eapply spec_loop with (I := fun l ts pk => DerivesStatements ts l /\ most (map statement_levels l) <= 1 + room p pk).
    { done. } { split; [constructor|]. cbn [map]. rewrite most_nil. lia. }
    intros l ts p1 A1 HI. eapply spec_current; [side..|]. intros t Ht. apply spec_ahead.
    case_bool_decide; [|case_bool_decide; [eapply expected_spec; side|]].
    { apply spec_ret; [side|]. destruct HI as [HL Hm]. exists ts, []. split_and!; [done|done|constructor|done|rooms]. }
    apply spec_looks; [eapply looks_nested_entrypoint; [done|apply A1]|].
    intros [keyword|]; [apply only_top_level_spec; side|]. destruct (_ || _).
    + eapply spec_bind; [apply statement_spec; deeper|]. intros s us p2 A2 HS. apply spec_ret; [side|].
      rewrite app_nil_r. by eapply statements_snoc.
    + eapply spec_bind; [apply expression_statement_spec; deeper|]. intros e us p2 A2 HE.
      eapply spec_consume; [side..| |]; cbn iota.
      * intros s p3 Hs A3 HP3. eapply spec_previous; [exact A3|done|]. apply spec_ret; [side|].
        rewrite app_nil_r. eapply statements_snoc; [exact A1|by eapply after_trans|done|].
        rewrite HP3. by apply statement_end_post.
      * intros t' p3 _ _ A3 HP3. eapply spec_check; [side..|]. intros t'' _. case_bool_decide; [|eapply expected_spec; side].
        apply spec_ret; [side|]. rewrite app_nil_r. destruct HI as [HL Hm], HE as [HD Hl].
        exists ts, us. split_and!; [done|done|by constructor|rooms|rooms].
  - intros [l tail] ts p1 A1 (us & vs & -> & HS & HT & Hm & Hl). eapply spec_expect; [side..|]. intros c p2 Hc A2 _.
    apply spec_ret; [side|]. rewrite app_nil_r. split.
    + replace (span_join _ _) with (over ([o] ++ us ++ vs ++ [c])) by ends. rewrite <- app_assoc. by constructor.
    + cbn [block_levels]. rooms.
Qed.
End Statements.

Section Blocks.
Context (text : chars) (tokens : list Token) (Hlex : lexical text tokens).
Local Notation spec := (spec tokens).
Local Notation ok := (ok tokens).
Context (d : Z) (expression' : Parse Expression) (block' : Parse Block).
Hypothesis He : forall q, ok q -> d < depth q -> spec expression' q (expression_post 0 q).
Hypothesis Hb : forall q, ok q -> d < depth q -> spec block' q (block_post q).

Lemma block_spec p : ok p -> d <= depth p -> spec (block text tokens expression' block') p (block_post p).
Proof.
  intros H D. unfold block. eapply spec_expect; [side..|]. intros o p1 Ho A1 _.
  apply spec_bracketed; [side|]. intros q Hq Dq Sq.
  eapply spec_mono; [eapply block_contents_spec; [done|done|done|done|done|frames; lia]|].
  intros b ts pk [HD Hl] Hpk. split; [done|]. rooms.
Qed.
End Blocks.
