(* ===== verification/ParserOperands.v ===== *)
(** * Conditionals, functions, matches and operands are parsed by their grammar *)

From S2P Require Import Prelude Utf8 Syntax Tokens Habits Parser ParserSpec ParserLogic ParserTypes ParserExprs ParserBlocks.

(** ** Frames of a chain of conditionals *)

Section Chained.
Context (tokens : list Token).

(** Like [after], but with [k] links of a chain open. *)
Record chained (p q : Parser) (ts : list Token) (k : Z) : Prop := mkChained {
  chained_ok : ok tokens q;
  chained_depth : depth q = depth p;
  chained_chain : chain_depth q = chain_depth p + k;
  chained_speculations : speculations q = speculations p;
  chained_allowed : construction_allowed q = construction_allowed p;
  chained_peak : peak p <= peak q;
  chained_reads : reads tokens (cursor p) ts (cursor q);
}.

Lemma chained_structural p q ts k : chained p q ts k -> structural q = structural p + k.
Proof. intros []. unfold structural. lia. Qed.

Lemma after_chained p q ts : after tokens p q ts -> chained p q ts 0.
Proof. intros [AO AD AC AS AA AP AR]. split; [done|done|lia|done|done|done|done]. Qed.

Lemma chained_trans p q r ts us k j : chained p q ts k -> chained q r us j -> chained p r (ts ++ us) (k + j).
Proof.
  intros [O D C S A P R] [O' D' C' S' A' P' R'].
  split; [done|congruence|lia|congruence|congruence|lia|by eapply reads_trans].
Qed.

Lemma chained_after p q r ts us k : chained p q ts k -> after tokens q r us -> chained p r (ts ++ us) k.
Proof. intros C A. rewrite <- (Z.add_0_r k). eapply chained_trans; [done|by apply after_chained]. Qed.

Lemma chained_failed p q r ts k : chained p q ts k -> failed_from tokens q r -> failed_from tokens p r.
Proof. intros [O D C S A P R] [FC FD FS FA]. split; [done|lia|congruence|congruence]. Qed.

Lemma chained_link p : ok tokens p -> structural p + 1 <= MAX_STRUCTURAL_DEPTH ->
  chained p (set_peak (set_chain_depth p (chain_depth p + 1)) (peak p `max` (structural p + 1))) [] 1.
Proof.
  intros [C D Ch P S] H. unfold structural in *. split; cbn; [|done|done|done|done|lia|apply reads_nil].
  split; unfold structural; cbn; [done|done|lia|lia|done].
Qed.

Lemma chained_close p q ts k : ok tokens p -> 0 <= k -> chained p q ts k ->
  after tokens p (set_chain_depth q (chain_depth p)) ts.
Proof.
  intros Hp Hk [O D C S A P R]. destruct Hp as [PC PD PCh PP PS], O as [OC OD OCh OP OS].
  unfold structural in *. split; cbn; try done. split; unfold structural; cbn; [done|lia|lia|lia|lia].
Qed.

Lemma enter_chain_link_wp span p (Q : unit -> Parser -> Prop) : ok tokens p ->
  (forall q, chained p q [] 1 -> Q tt q) -> wp (enter_chain_link span) p Q (failed_from tokens p).
Proof.
  intros H HQ. unfold enter_chain_link. apply wp_then, wp_modify, wp_then. unfold structural_depth.
  apply wp_then, wp_parser, wp_done. unfold structural at 1. cbn [depth chain_depth set_chain_depth].
  apply reach_wp; [|by destruct H; split].
  intros Hm. cbn [peak set_chain_depth]. replace (depth p + (chain_depth p + 1)) with (structural p + 1) in *
    by (unfold structural; lia). by apply HQ, chained_link.
Qed.
End Chained.

Section Operands.
Context (text : chars) (tokens : list Token) (Hlex : lexical text tokens).
Local Notation spec := (spec tokens).
Local Notation ok := (ok tokens).
Local Notation chained := (chained tokens).
Context (d : Z) (expression' : Parse Expression) (block' : Parse Block).
Hypothesis He : forall q, ok q -> d < depth q -> spec expression' q (expression_post 0 q).
Hypothesis Hb : forall q, ok q -> d < depth q -> spec block' q (block_post q).
Local Notation block := (block text tokens expression' block').

Lemma subject_spec start p : ok p -> d <= depth p ->
  spec (nested start (with_construction false expression')) p
    (fun e ts pk => DerivesExpression 0 ts e /\ levels_of e <= room p pk).
Proof.
  intros H D. apply spec_bracketed; [done|]. intros q Hq Dq Sq. eapply spec_mono; [apply He; deeper|].
  intros e ts pk [HD Hl] _. split; [done|rooms].
Qed.

(** ** Conditionals *)

(** One link, without its alternative. *)
Record link_read (q : Parser) (i : Token) (link : Span * Expression * Block) (us : list Token) (pk : Z) : Prop :=
  mkLinkRead {
  link_derives : forall vs alternative, DerivesElse vs alternative -> DerivesIf ([i] ++ us ++ vs) (if_link link alternative);
  link_levels : forall alternative pk', pk <= pk' -> levels_of alternative <= room q pk' ->
    levels_of (if_link link alternative) <= 1 + room q pk';
}.

Lemma link_post i condition consequent e q cs bs pk1 pk : token_kind i = TIf -> token_kind e = TElse ->
  DerivesExpression 0 cs condition -> levels_of condition <= room q pk1 -> pk1 <= pk ->
  DerivesBlock bs consequent -> block_levels consequent + 1 <= room q pk ->
  link_read q i (token_span i, condition, consequent) (cs ++ bs ++ [e]) pk.
Proof.
  intros Hi Hke HC Hlc Hpk HB Hlb. split.
  - intros vs alternative HE. unfold if_link. destruct (derives_else_span _ _ HE) as [-> Hne].
    pose proof (derives_if i cs condition bs consequent e vs alternative Hi HC HB Hke HE) as HX.
    replace (span_join _ _) with (over ([i] ++ cs ++ bs ++ [e] ++ vs)); [by rewrite <- !app_assoc|].
    rewrite !app_assoc. by apply (over_suffix i ((cs ++ bs) ++ [e])).
  - intros alternative pk' Hp Hla. unfold if_link. cbn [levels_of]. unfold room in *. lia.
Qed.

(** The state of the chain: the links behind, the [if] read last. *)
Record chain_read (p : Parser) (i0 : Token) (links : list (Span * Expression * Block)) (i : Token) (q : Parser) : Prop :=
  mkChainRead {
  chain_if : token_kind i = TIf;
  chain_frame : exists ts pre, chained p q ts (Z.of_nat (length links)) /\ [i0] ++ ts = pre ++ [i]
    /\ forall rest e, DerivesIf ([i] ++ rest) e -> DerivesIf (pre ++ [i] ++ rest) (foldr if_link e links);
  chain_levels : forall e pk, peak q <= pk -> levels_of e <= 1 + room q pk ->
    levels_of (foldr if_link e links) <= 1 + room p pk;
}.

Lemma chain_read_link p i0 links i q link us e i' r : chain_read p i0 links i q ->
  link_read q i link us e -> token_kind i' = TIf -> chained q r (us ++ [i']) 1 -> e <= peak r ->
  chain_read p i0 (links ++ [link]) i' r.
Proof.
  intros [Hi (ts & pre & C & E & HD) HL] [KD KL] Hi' C' He'. split; [done| |].
  - exists (ts ++ us ++ [i']), (pre ++ [i] ++ us). split_and!.
    + rewrite length_app. cbn. replace (Z.of_nat (length links + 1)) with (Z.of_nat (length links) + 1) by lia.
      by eapply chained_trans.
    + rewrite app_assoc, E, <- !app_assoc. done.
    + intros rest f HF. rewrite foldr_snoc, <- !app_assoc. apply HD. rewrite app_assoc. apply KD. by constructor.
  - intros f pk Hpk Hf. rewrite foldr_snoc. pose proof (chained_structural _ _ _ _ _ C'). destruct C'.
    apply HL; [lia|]. apply KL; [lia|]. unfold room in *. lia.
Qed.

Lemma chain_read_end p i0 links i q link us pk vs b r : ok p -> chain_read p i0 links i q ->
  link_read q i link us pk -> after tokens q r (us ++ vs) -> pk <= peak r -> block_post q b vs (peak r) ->
  exists ts, after tokens p (set_chain_depth r (chain_depth p)) ts
    /\ expression_post 8 p (foldr if_link (mkExpression (EBlock b) (block_span b)) (links ++ [link])) ([i0] ++ ts) (peak r).
Proof.
  intros Hp [Hi (ts & pre & C & E & HD) HL] [KD KL] A Hpk [HB Hl]. exists (ts ++ us ++ vs). split.
  - eapply chained_close; [done| |by eapply chained_after]. lia.
  - rewrite foldr_snoc. split.
    + apply derives_if_expression. rewrite app_assoc, E, <- !app_assoc. apply HD, KD. by constructor.
    + pose proof (after_peak _ _ _ _ A). apply HL; [done|]. apply KL; [done|]. cbn [levels_of]. lia.
Qed.

(** What one round of the chain does. *)
Definition chain_round (links : list (Span * Expression * Block)) (link_start : Span)
  : Parse ((list (Span * Expression * Block) * Span) + (list (Span * Expression * Block) * Expression)) :=
  let! condition := nested link_start (with_construction false expression') in
  let! consequent := block in
  let! else_token := expect tokens TElse in
  let! habit := else_return text tokens (token_span else_token) in
  let! _ := refuse habit in
  let links := links ++ [(link_start, condition, consequent)] in
  let! chained := check tokens TIf in
  if chained then
    let! if_token := advance tokens in
    let! _ := enter_chain_link (token_span if_token) in
    ret (inl (links, token_span if_token))
  else
    let! braced := check tokens TLeftBrace in
    if braced then
      let! alternative := block in
      ret (inr (links, mkExpression (EBlock alternative) (block_span alternative)))
    else expected tokens "`if` or `{`".

(** [wp] of a step that satisfies [spec] inside a frame. *)
Lemma step_wp {A B} (m : Parse A) (k : A -> Parse B) q q1 us Q1 Q :
  after tokens q q1 us -> spec m q1 Q1 ->
  (forall a vs q2, after tokens q q2 (us ++ vs) -> after tokens q1 q2 vs -> Q1 a vs (peak q2) -> wp (k a) q2 Q (failed_from tokens q)) ->
  wp (bind m k) q1 Q (failed_from tokens q).
Proof.
  intros A1 Hm Hk. apply wp_then. eapply wp_weaken; [exact Hm| |].
  - intros a q2 (vs & A2 & HQ). eapply Hk; [by eapply after_trans|done|done].
  - intros q2 HF. by eapply failed_after.
Qed.

Lemma looks_wp {A B} (m : Parse A) (k : A -> Parse B) p Q E :
  looks m p -> (forall a, wp (k a) p Q E) -> wp (bind m k) p Q E.
Proof. intros [a Ha] Hk. unfold wp, bind. rewrite Ha. apply Hk. Qed.

Lemma check_wp {B} kind (k : bool -> Parse B) p t Q E : tokens !! cursor p = Some t ->
  wp (k (bool_decide (token_kind t = kind))) p Q E -> wp (let! b := check tokens kind in k b) p Q E.
Proof. intros Ht Hk. unfold wp, bind, check, bind, current, ret. by rewrite Ht. Qed.

Lemma expect_spec kind p : ok p -> kind <> TEof ->
  spec (expect tokens kind) p (fun t ts pk => token_kind t = kind /\ ts = [t]).
Proof.
  intros H Hk. unfold expect. eapply spec_check; [side..|]. intros t Ht.
  case_bool_decide as E; [|eapply expected_spec; side].
  eapply spec_mono; [eapply (advance_spec _ _ Hlex p t); [done|done|by rewrite E]|]. by intros a ts pk [[-> ->] _].
Qed.

Lemma chain_round_wp p i0 links i q : ok p -> d <= depth p -> chain_read p i0 links i q ->
  wp (chain_round links (token_span i)) q
    (fun r q' => match r with
       | inl (links', start) => (exists i', start = token_span i' /\ chain_read p i0 links' i' q')
           /\ (cursor q < cursor q' <= bound tokens)%nat
       | inr (links', alternative) => exists ts, after tokens p (set_chain_depth q' (chain_depth p)) ts
           /\ expression_post 8 p (foldr if_link alternative links') ([i0] ++ ts) (peak q')
       end) (failed_from tokens q).
Proof.
  intros Hp D HC. assert (ok q /\ depth q = depth p) as [Hq Dq].
  { destruct HC as [_ (ts & pre & C & _) _]. split; apply C. }
  unfold chain_round. eapply (step_wp _ _ q q []); [by apply after_refl|apply subject_spec; [done|lia]|].
  intros condition cs q1 A1 A1' [HCo Hlc].
  eapply (step_wp _ _ q q1); [exact A1|eapply block_spec; [exact Hlex|exact He|exact Hb|side|frames; lia]|].
  intros consequent bs q2 A2 A2' [HB Hlb].
  eapply (step_wp _ _ q q2); [exact A2|apply expect_spec; side|]. intros e es q3 A3 A3' [Hke ->].
  assert (link_read q i (token_span i, condition, consequent) (cs ++ bs ++ [e]) (peak q3)) as HL.
  { eapply link_post; [apply HC|done|exact HCo|exact Hlc|frames; lia|done|rooms]. }
  apply looks_wp; [eapply looks_else_return; [done|apply A3]|]. intros habit.
  apply wp_then. destruct habit; [by eapply failed_after, failed_refl; [|apply A3]|apply wp_done].
  destruct (token_at _ _ Hlex (cursor q3)) as (t & Ht & _); [apply A3|]. apply (check_wp _ _ q3 t); [done|].
  case_bool_decide as Hi.
  - eapply (step_wp _ _ q q3); [exact A3|eapply (advance_spec _ _ Hlex q3 t); [apply A3|done|by rewrite Hi]|].
    intros t' ts q4 A4 A4' [[-> ->] _]. apply wp_then. eapply wp_weaken; [apply (enter_chain_link_wp tokens _ _ (fun _ q5 => chained q4 q5 [] 1)); [apply A4|done]| |].
    + cbn beta. intros [] q5 C5. apply wp_done.
      assert (chained q q5 ((cs ++ bs ++ [e]) ++ [t]) 1) as C.
      { pose proof (chained_trans _ _ _ _ _ _ _ _ (after_chained _ _ _ _ A4) C5) as C.
        rewrite app_nil_r in C. cbn [app] in C. by rewrite <- !app_assoc in C |- *. }
      split; [exists t; split; [done|]; eapply chain_read_link; [done|exact HL|done|exact C|]|].
      * destruct C5. frames. lia.
      * pose proof (ok_cursor _ _ (chained_ok _ _ _ _ _ C)). destruct (chained_reads _ _ _ _ _ C) as [_ EC].
        rewrite length_app in EC. cbn in EC. lia.
    + intros q5 HF. by eapply failed_after.
  - apply (check_wp _ _ q3 t); [done|]. case_bool_decide.
    + eapply (step_wp _ _ q q3); [exact A3|eapply block_spec; [exact Hlex|exact He|exact Hb|side|frames; lia]|].
      intros alternative vs q4 A4 A4' HP. apply wp_done. cbn beta iota.
      eapply chain_read_end; [done|done|exact HL| |frames; lia|].
      * cbn [app] in A4. rewrite <- !app_assoc in A4 |- *. exact A4.
      * destruct HP as [HD Hl]. split; [done|]. rooms.
    + eapply wp_weaken; [by eapply (expected_spec _ _ Hlex (A := list (Span * Expression * Block) * Span + list (Span * Expression * Block) * Expression) _ q3 (fun _ _ _ => False)); apply A3| |].
      * by intros ? ? (? & ? & ?).
      * intros q4 HF. by eapply failed_after.
Qed.

Lemma if_expression_spec i p : token_kind i = TIf -> ok p -> d <= depth p ->
  spec (if_expression text tokens expression' block' (token_span i)) p (fun e ts pk => expression_post 8 p e ([i] ++ ts) pk).
Proof.
  intros Hi H D. unfold if_expression. apply spec_parser. apply wp_then.
  eapply wp_weaken; [apply (loop_wp tokens _
    (fun '(links, start) q => exists i', start = token_span i' /\ chain_read p i links i' q)
    (fun '(links, alternative) q => exists ts, after tokens p (set_chain_depth q (chain_depth p)) ts
       /\ expression_post 8 p (foldr if_link alternative links) ([i] ++ ts) (peak q)) (failed_from tokens p))| |].
  - intros [links start] q (i' & -> & HC). eapply wp_weaken; [by apply (chain_round_wp p i links i' q)| |].
    + intros [[links' start']|[links' alternative]] q' HQ; [exact HQ|]. exact HQ.
    + intros q' HF. destruct HC as [_ (ts & pre & C & _) _]. by eapply chained_failed.
  - exists i. split; [done|]. split; [done| |].
    + exists [], []. split_and!; [by apply after_chained, after_refl|done|done].
    + done.
  - apply H.
  - intros [links alternative] q (ts & A & HP). apply wp_then, wp_modify, wp_done. by exists ts.
  - done.
Qed.

(** ** Functions and matches *)

Lemma block_here q : ok q -> d - 1 < depth q -> spec block q (block_post q).
Proof. intros H D. eapply block_spec; [exact Hlex|exact He|exact Hb|done|lia]. Qed.

Lemma function_expression_spec f p : token_kind f = TFn -> ok p -> d <= depth p ->
  spec (function_expression text tokens expression' block' (token_span f)) p
    (fun e ts pk => expression_post 8 p e ([f] ++ ts) pk).
Proof.
  intros Hf H D. unfold function_expression. eapply spec_check; [side..|]. intros t _.
  case_bool_decide; cbn [negb]; [|eapply expected_spec; side].
  eapply spec_bind; [eapply function_rest_spec; [exact Hlex|exact block_here|done|lia]|].
  intros [[parameters return_type] body] ts p3 A3 (ps & us & vs & -> & HP & HR & HB & Hl). apply spec_ret; [side|].
  rewrite app_nil_r. pose proof (derives_function f ps parameters us return_type vs body Hf HP HR HB) as HX.
  split; [|cbn [levels_of]; rooms]. destruct (derives_block_span _ _ HB) as [-> Hne].
  replace (span_join _ _) with (over ([f] ++ (ps ++ us) ++ vs)); [by rewrite <- app_assoc|].
  by apply (over_suffix f (ps ++ us)).
Qed.

Lemma derives_arm_post pat ps a us v : DerivesPattern ps pat -> token_kind a = TFatArrow -> DerivesExpression 0 us v ->
  DerivesArm (ps ++ [a] ++ us) (mkMatchArm pat v (span_join (pattern_span pat) (expression_span v))).
Proof.
  intros HP Ha HD. destruct (derives_expression_span _ _ _ HD) as [-> Hne], (derives_pattern_span _ _ HP) as [-> Hne'].
  replace (span_join _ _) with (over (ps ++ [a] ++ us)) by (cbn [app]; by spans). by constructor.
Qed.


(** The arms read so far: with a comma after the last unless [}] follows. *)
Definition arms_read (p : Parser) (arms : list MatchArm) (ts : list Token) (pk : Z) : Prop :=
  (Elements DerivesArm ts arms
   \/ CommaList DerivesArm ts arms /\ exists t, tokens !! (cursor p + length ts)%nat = Some t /\ token_kind t = TRightBrace)
  /\ most (map arm_levels arms) <= 1 + room p pk.

Lemma after_cursor p q ts : after tokens p q ts -> (cursor p + length ts)%nat = cursor q.
Proof. intros A. by destruct (after_reads _ _ _ _ A) as [_ ->]. Qed.

(** The end of an arm. *)
Lemma arm_end_spec p p0 p1 arms arm ts us : ok p -> after tokens p p0 ts -> Elements DerivesArm ts arms ->
  after tokens p0 p1 us -> DerivesArm us arm -> most (map arm_levels (arms ++ [arm])) <= 1 + room p (peak p1) ->
  spec (let! comma := consume tokens TComma in
        let! closed := check tokens TRightBrace in
        if negb comma && negb closed then expected tokens "`,` or `}`" else ret (inl (arms ++ [arm]))) p1
    (fun (r : list MatchArm + list MatchArm) vs pk => match r with
       | inl s => us ++ vs <> [] /\ arms_read p s (ts ++ us ++ vs) pk
       | inr _ => False end).
Proof.
  intros H A0 HE A1 HA Hm.
  assert (us <> []) as Hne by (destruct HA; intros [_ [? _]%app_eq_nil]%app_eq_nil; done).
  eapply spec_consume; [side..| |].
  - intros c p2 Hc A2 HP. eapply spec_check; [side..|]. intros t _. cbn [negb andb]. apply spec_ret; [side|].
    split; [progress_made|]. rewrite HP. split; [|done]. left. cbn [app]. by constructor.
  - intros t p2 Ht _ A2 HP. eapply spec_check; [side..|]. intros t' Ht'. cbn [negb andb].
    case_bool_decide; cbn [negb]; [|eapply expected_spec; side]. apply spec_ret; [side|].
    split; [progress_made|]. rewrite HP. split; [|done]. right. rewrite app_nil_r. split; [by constructor|].
    exists t'. split; [|done].
    pose proof (after_trans _ _ _ _ _ _ A0 (after_trans _ _ _ _ _ _ A1 A2)) as A. rewrite app_nil_r in A.
    by rewrite (after_cursor _ _ _ A).
Qed.

Lemma match_arms_spec p : ok p -> d < depth p ->
  spec (match_arms tokens expression') p (fun arms ts pk =>
    CommaList DerivesArm ts arms /\ arms <> [] /\ most (map arm_levels arms) <= 1 + room p pk).
Proof.
  intros H D. unfold match_arms. pose proof (room_now _ p H) as Hr.
  eapply spec_bind with (Q1 := fun arms ts pk => CommaList DerivesArm ts arms /\ most (map arm_levels arms) <= 1 + room p pk).
  - eapply spec_loop with (I := arms_read p); [done| |].
    { split; [left; constructor|]. cbn [map]. rewrite most_nil. lia. }
    intros arms ts p1 A1 [HI Hm]. eapply spec_current; [side..|]. intros t Ht. case_bool_decide as Hk.
    { apply spec_ret; [side|]. rewrite app_nil_r. split; [|done]. destruct HI as [HE|[HC _]]; [by apply comma_closed|done]. }
    assert (Elements DerivesArm ts arms) as HE.
    { destruct HI as [HE|[_ (t' & Ht' & Hk')]]; [done|]. rewrite (after_cursor _ _ _ A1) in Ht'. by simplify_eq. }
    case_bool_decide; [eapply expected_spec; side|]. eapply spec_bind; [eapply pattern_spec; side|].
    cbn beta. intros pat ps p2 A2 HP. eapply spec_expect; [side..|]. intros a p3 Ha A3 _.
    eapply spec_bind with (Q1 := fun v us pk => DerivesExpression 0 us v /\ levels_of v <= 1 + room p pk).
    { apply spec_nested_levels; [side|]. intros q Hq Dq Sq _ _. eapply spec_mono; [apply He; [done|frames; lia]|].
      intros v us pk [HD Hl]. split; [done|]. rooms. }
    intros v us p4 A4 [HD Hl]. pose proof (derives_arm_post pat ps a us v HP Ha HD) as HA.
    eapply spec_mono; [eapply (arm_end_spec p p1 p4); [done|exact A1|exact HE| |exact HA|]|].
    + pose proof (after_trans _ _ _ _ _ _ A2 (after_trans _ _ _ _ _ _ A3 A4)) as A. exact A.
    + levels.
    + intros [s|l] vs pk HQ; [|done]. by rewrite <- !app_assoc in HQ.
  - intros arms ts p1 A1 [HC Hm]. destruct arms as [|arm arms]; [eapply fails_at_current; side|].
    apply spec_ret; [side|]. by rewrite app_nil_r.
Qed.

Lemma match_expression_spec m p : token_kind m = TMatch -> ok p -> d <= depth p ->
  spec (match_expression tokens expression' (token_span m)) p (fun e ts pk => expression_post 8 p e ([m] ++ ts) pk).
Proof.
  intros Hm H D. unfold match_expression. eapply spec_bind; [by apply subject_spec|]. cbn beta.
  intros subject ts p1 A1 [HS Hls]. eapply spec_expect; [side..|]. intros o p2 Ho A2 _.
  eapply spec_bind with (Q1 := fun arms us pk =>
    CommaList DerivesArm us arms /\ arms <> [] /\ most (map arm_levels arms) <= room p pk).
  { apply spec_bracketed; [side|]. intros q Hq Dq Sq. eapply spec_mono; [apply match_arms_spec; [done|frames; lia]|].
    intros arms us pk (HC & Hne & Hl) _. split_and!; [done|done|rooms]. }
  intros arms us p3 A3 (HC & Hne & Hl). eapply spec_expect; [side..|]. intros c p4 Hc A4 _. apply spec_ret; [side|].
  rewrite app_nil_r. split.
  - replace (span_join _ _) with (over ([m] ++ ts ++ [o] ++ us ++ [c])) by ends. by apply derives_match.
  - cbn [levels_of]. fold arm_levels. rooms.
Qed.
End Operands.
