(* ===== verification/ParserGrammar.v ===== *)
(** * Expressions are parsed by their grammar

    Operands, postfix links, prefix operators and the precedence levels; then
    the recursion of expressions and blocks, by induction on its fuel: below
    [MAX_NESTING_DEPTH] levels there is always some left. *)

From S2P Require Import Prelude Utf8 Syntax Tokens Habits Parser ParserSpec ParserLogic ParserTypes ParserExprs ParserBlocks ParserOperands.

Lemma over_prefix ts us c : ts <> [] -> last us = Some c -> over (ts ++ us) = span_join (over ts) (token_span c).
Proof.
  intros Hne Hl. assert (us <> []) by (by intros ->). rewrite over_app by done.
  destruct us as [|u us]; [done|]. unfold over at 2. rewrite Hl. done.
Qed.

Section Grammar.
Context (text : chars) (tokens : list Token) (Hlex : lexical text tokens).
Local Notation spec := (spec tokens).
Local Notation ok := (ok tokens).
Local Notation within := (within tokens).
Context (d : Z) (expression' : Parse Expression) (block' : Parse Block) (unary' : Parse Expression).
Hypothesis He : forall q, ok q -> d < depth q -> spec expression' q (expression_post 0 q).
Hypothesis Hb : forall q, ok q -> d < depth q -> spec block' q (block_post q).
Hypothesis Hu : forall q, ok q -> d < depth q -> spec unary' q (expression_post 6 q).

(** ** Operands *)

Lemma named_spec n name p : token_kind n = TIdentifier name -> ok p -> d <= depth p ->
  spec (named text tokens expression' name (token_span n)) p (fun e ts pk => expression_post 8 p e ([n] ++ ts) pk).
Proof.
  intros Hn H D. unfold named. eapply spec_current; [side..|]. intros t _.
  apply spec_unless; [done|]. intros _. apply spec_looks; [eapply looks_word_habit; [done|apply H]|]. intros habit.
  apply spec_refuse; [done|].
  assert (spec (ret (mkExpression (EVariable name) (token_span n))) p
    (fun e ts pk => expression_post 8 p e ([n] ++ ts) pk)) as HV.
  { apply spec_ret; [done|]. split; [rewrite <- over_one; by apply derives_variable|].
    pose proof (room_now _ p H). cbn [levels_of]. lia. }
  destruct (from_name name) as [contract|] eqn:Hf; [|done].
  eapply spec_check; [side..|]. intros t' _. case_bool_decide; [|done]. apply spec_parser.
  destruct (construction_allowed p); [by eapply construction_spec|].
  apply spec_looks; [eapply looks_restricted; [done|apply H]|]. intros error. by apply spec_refuse.
Qed.

Lemma literal_post t literal p pk : literal_of (token_kind t) = Some literal -> ok p -> peak p <= pk ->
  expression_post 8 p (mkExpression (ELiteral literal) (token_span t)) [t] pk.
Proof.
  intros Hl H Hpk. split; [rewrite <- over_one; by apply derives_literal|].
  pose proof (room_nonneg _ p pk H Hpk). cbn [levels_of]. lia.
Qed.

Lemma spec_ext {A} (m m' : Parse A) p Q : m p = m' p -> spec m' p Q -> spec m p Q.
Proof. intros E. unfold ParserLogic.spec, wp. by rewrite E. Qed.

(** A block as an operand: the brace is given back. *)
Lemma primary_block t p : tokens !! cursor p = Some t -> token_kind t = TLeftBrace ->
  primary text tokens expression' block' p =
  (let! body := block text tokens expression' block' in ret (mkExpression (EBlock body) (block_span body))) p.
Proof.
  intros Ht Hk. unfold primary, bind at 1, advance, bind at 1, current. rewrite Ht, Hk. cbn. rewrite Hk.
  unfold bind at 1. cbn. destruct p. done.
Qed.

Lemma from_after p p1 t : after tokens p p1 [t] -> forall e ts pk,
  expression_post 8 p1 e ([t] ++ ts) pk -> expression_post 8 p e ([t] ++ ts) pk.
Proof. intros A e ts pk [HD Hl]. split; [done|]. rooms. Qed.

Lemma unexpected_spec t kind p : ok p -> (token_kind t <> TEof -> cursor p <> O) -> forall Q : Expression -> list Token -> Z -> Prop,
  spec (let! mutation := mutation_operator tokens t in
        fail (default (diagnostic "K1001" ("unexpected " +:+ token_description kind) (token_span t)) mutation)) p Q.
Proof.
  intros H Hc Q. apply spec_looks; [eapply looks_mutation; [done|apply H|done]|]. intros o. by eapply spec_fail.
Qed.

Lemma primary_spec p : ok p -> d <= depth p -> spec (primary text tokens expression' block') p (expression_post 8 p).
Proof.
  intros H D. destruct (token_at _ _ Hlex (cursor p)) as (t & Ht & _); [apply H|].
  destruct (decide (token_kind t = TLeftBrace)) as [Hk|Hk].
  { eapply spec_ext; [by eapply primary_block|]. eapply spec_bind; [by eapply block_spec|].
    intros b ts p1 A1 [HD Hl]. apply spec_ret; [side|]. rewrite app_nil_r. split; [by constructor|]. cbn [levels_of]. lia. }
  unfold primary. eapply spec_advance_any; [side..| |].
  { intros t' Ht' Eo. rewrite Eo. apply unexpected_spec; [done|]. by rewrite Eo. }
  intros t' p1 Ht' Hne A1 HP. simplify_eq. pose proof (after_cursor _ _ _ _ A1) as Hc. cbn in Hc.
  assert (ok p1) as H1 by apply A1. assert (d <= depth p1) as D1 by (frames; lia).
  assert (cursor p1 <> O) as Hc1 by lia. assert (cursor p1 = S (cursor p)) as Hc2 by lia.
  destruct (token_kind t) eqn:Ek; try (by apply unexpected_spec).
  all: try (apply spec_ret; [done|]; rewrite ?app_nil_r; apply literal_post; [by rewrite Ek|done|lia]).
  all: try (eapply spec_mono; [|by eapply from_after]).
  all: first [ by eapply named_spec | by eapply interpolation_spec | by eapply if_expression_spec
    | by eapply match_expression_spec | by eapply function_expression_spec | by eapply record_spec
    | by eapply parenthesized_spec | by eapply list_literal_spec | by destruct Hk | idtac ].
  destruct (parse_i128 _) eqn:Hi; [|by eapply spec_fail]. apply spec_ret; [done|]. rewrite ?app_nil_r.
  apply literal_post; [by rewrite Ek; cbn; rewrite Hi|done|lia].
Qed.

(** ** Postfix links *)

Lemma within_step {A B} (m : Parse A) (k : A -> Parse B) p q ts Q1 Q : within p q ts -> spec m q Q1 ->
  (forall a us r, within p r (ts ++ us) -> after tokens q r us -> Q1 a us (peak r) -> wp (k a) r Q (failed_from tokens p)) ->
  wp (bind m k) q Q (failed_from tokens p).
Proof.
  intros W Hm Hk. apply wp_then. eapply wp_weaken; [exact Hm| |].
  - intros a r (us & Ar & HQ). eapply Hk; [by eapply within_after|done|done].
  - intros r HF. by eapply within_failed.
Qed.

(** Opening a level for a link, and reaching its height. *)
Lemma within_enter {B} span (k : unit -> Parse B) p q ts Q : within p q ts ->
  (forall r, within p r ts -> entered q r -> wp (k tt) r Q (failed_from tokens p)) ->
  wp (let! u := enter span in k u) q Q (failed_from tokens p).
Proof.
  intros W Hk. apply wp_then, (enter_wp tokens); [apply W| |].
  - intros r E Hr. apply Hk; [by eapply within_entered|done].
  - intros r HF _. by eapply within_failed.
Qed.

Lemma within_reach {B} level span (k : unit -> Parse B) p q ts Q : within p q ts ->
  (forall r, within p r ts -> level <= peak r -> cursor r = cursor q -> wp (k tt) r Q (failed_from tokens p)) ->
  wp (let! u := reach level span in k u) q Q (failed_from tokens p).
Proof.
  intros W Hk. apply wp_then, reach_wp; [|eapply within_failed; [exact W|apply failed_refl, W]].
  intros Hm. apply Hk; [by apply within_raise|cbn; lia|done].
Qed.

Lemma bind_ret {A} (m : Parse A) p Q : spec (let! x := m in ret x) p Q -> spec m p Q.
Proof. unfold ParserLogic.spec, wp, bind. destruct (m p) as [q []]; done. Qed.

(** An expression of height [h] read from [p], whose peak was lowered. *)
Definition chain_post (level : nat) (p : Parser) (e : Expression) (h : Z) (ts : list Token) (pk : Z) : Prop :=
  DerivesExpression level ts e /\ levels_of e <= 1 + h + 2 * (MAX_NESTING_DEPTH - depth p) /\ structural p + h <= pk.

Definition link_result (p : Parser) (r : (Expression * Z) + Expression) (q q' : Parser) : Prop :=
  match r with
  | inl (e, h) => (exists ts, within p q' ts /\ chain_post 7 p e h ts (peak q'))
      /\ (cursor q < cursor q' <= bound tokens)%nat
  | inr e => exists ts h, within p q' ts /\ chain_post 7 p e h ts (peak q')
  end.

Lemma within_progress p q q' ts us : within p q ts -> within p q' (ts ++ us) -> us <> [] ->
  (cursor q < cursor q' <= bound tokens)%nat.
Proof.
  intros [_ _ _ _ _ _ [_ R]] [O _ _ _ _ _ [_ R']] Hne. pose proof (ok_cursor _ _ O). rewrite length_app in R'.
  destruct us; [done|]. cbn in R'. lia.
Qed.

Lemma call_arguments_spec p : ok p -> d < depth p ->
  spec (with_construction true (arguments tokens expression')) p (fun l ts pk =>
    CommaList (DerivesExpression 0) ts l /\ most (map levels_of l) <= 1 + room p pk).
Proof.
  intros H D. apply spec_with_construction; [done|]. intros q Hq Dq Sq _ _.
  eapply spec_mono; [eapply arguments_spec; [exact Hlex|exact He|done|lia]|].
  cbn beta. intros l ts pk [HC Hl]. split; [done|]. rooms.
Qed.

Ltac withins := repeat match goal with
  | H : within _ _ _ |- _ => learn (within_peak _ _ _ _ H)
  | H : within _ _ _ |- _ => learn (within_depth _ _ _ _ H)
  end; frames.

(** A call of [e]. *)
Lemma call_paren_wp p q ts e h t : ok p -> d <= depth p -> within p q ts -> chain_post 7 p e h ts (peak q) ->
  tokens !! cursor q = Some t -> token_kind t = TLeftParen ->
  wp (call_link text tokens expression' (structural p) e h) q (fun r q' => link_result p r q q') (failed_from tokens p).
Proof.
  intros H D W (HD & Hl & Hh) Ht Hk. unfold call_link. apply wp_then. unfold current at 1, wp at 1. rewrite Ht, Hk.
  eapply within_step; [exact W|eapply (advance_spec _ _ Hlex q t); [apply W|done|by rewrite Hk]|].
  intros o us q1 W1 A1 [[-> ->] _]. eapply within_enter; [exact W1|]. intros q2 W2 E2.
  apply wp_then. unfold structural_depth. apply wp_then, wp_parser, wp_done.
  apply wp_then. unfold replace_peak. apply wp_then, wp_parser, wp_then, wp_modify, wp_done.
  apply wp_then. pose proof (ok_lowered _ _ (within_ok _ _ _ _ W2)) as Ok2.
  eapply wp_weaken; [apply call_arguments_spec; [exact Ok2|cbn; withins; lia]| |].
  2: { intros r HF. eapply within_failed; [exact W2|by apply failed_lowered]. }
  cbn beta. intros l r (vs & A3 & HC & Hm). apply wp_then, wp_parser.
  pose proof (after_peak _ _ _ _ A3) as P3. cbn [peak set_peak] in P3.
  apply wp_then, wp_usize_sub; [done|]. apply wp_then, wp_modify.
  pose proof (after_raise _ _ _ _ (within_ok _ _ _ _ W2) A3) as A3'. pose proof (within_after _ _ _ _ _ _ W2 A3') as W3.
  eapply within_reach; [exact W3|]. intros q4 W4 Hp4 _.
  eapply within_step; [exact W4|eapply expect_spec; [exact Hlex|apply W4|done]|].
  intros c cs q5 W5 A5 [Hc ->]. apply wp_done. destruct (derives_expression_span _ _ _ HD) as [-> Hne].
  change (room (set_peak q2 (structural q2)) (peak r)) with (room q2 (peak r)) in Hm.
  pose proof (derives_call ts e t vs l c HD Hk HC Hc) as HX. rewrite (over_prefix ts _ c) in HX; [|done|].
  2: { rewrite !last_app. done. }
  rewrite <- !app_assoc in W5. split; [|eapply within_progress; [exact W|exact W5|done]].
  eexists. split; [exact W5|]. split_and!; [done| |withins; lia].
  cbn [levels_of]. withins. unfold room in *. lia.
Qed.

(** A field of [e]. *)
Lemma call_dot_wp p q ts e h t : ok p -> d <= depth p -> within p q ts -> chain_post 7 p e h ts (peak q) ->
  tokens !! cursor q = Some t -> token_kind t = TDot ->
  wp (call_link text tokens expression' (structural p) e h) q (fun r q' => link_result p r q q') (failed_from tokens p).
Proof.
  intros H D W (HD & Hl & Hh) Ht Hk. unfold call_link. apply wp_then. unfold current at 1, wp at 1. rewrite Ht, Hk.
  eapply within_step; [exact W|eapply (advance_spec _ _ Hlex q t); [apply W|done|by rewrite Hk]|].
  intros o us q1 W1 A1 [[-> ->] _]. eapply within_enter; [exact W1|]. intros q2 W2 E2.
  eapply within_reach; [exact W2|]. intros q3 W3 Hp3 _.
  eapply within_step with (Q1 := fun '(field, span) us _ => exists n, us = [n] /\ token_kind n = TIdentifier field
    /\ span = token_span n); [exact W3| |].
  { apply bind_ret. eapply spec_identifier; [done|apply W3|]. intros n field r Hn A _.
    apply spec_ret; [side|]. by exists n. }
  intros [field span] us q4 W4 A4 (n & -> & Hn & ->). apply wp_done.
  destruct (derives_expression_span _ _ _ HD) as [-> Hne].
  pose proof (derives_field ts e t n field HD Hk Hn) as HX. rewrite (over_prefix ts _ n) in HX by done.
  rewrite <- !app_assoc in W4. split; [|eapply within_progress; [exact W|exact W4|done]].
  eexists. split; [exact W4|]. split_and!; [done| |withins; lia]. cbn [levels_of]. lia.
Qed.

(** [e] propagated by a [?]. *)
Lemma call_question_wp p q ts e h t : ok p -> d <= depth p -> within p q ts -> chain_post 7 p e h ts (peak q) ->
  tokens !! cursor q = Some t -> token_kind t = TQuestion ->
  wp (call_link text tokens expression' (structural p) e h) q (fun r q' => link_result p r q q') (failed_from tokens p).
Proof.
  intros H D W (HD & Hl & Hh) Ht Hk. unfold call_link. apply wp_then. unfold current at 1, wp at 1. rewrite Ht, Hk.
  eapply within_step; [exact W|eapply (advance_spec _ _ Hlex q t); [apply W|done|by rewrite Hk]|].
  intros o us q1 W1 A1 [[-> ->] _]. pose proof (after_cursor _ _ _ _ A1) as Hc. cbn in Hc.
  apply looks_wp; [eapply (looks_question_misuse _ _ Hlex d expression' He _ (cursor q)); [apply W1|withins; lia|lia]|].
  intros error. apply wp_then. destruct error; [eapply within_failed; [exact W1|apply failed_refl, W1]|apply wp_done].
  eapply within_enter; [exact W1|]. intros q2 W2 E2. eapply within_reach; [exact W2|]. intros q3 W3 Hp3 _. apply wp_done.
  destruct (derives_expression_span _ _ _ HD) as [-> Hne].
  pose proof (derives_propagate ts e t HD Hk) as HX. rewrite (over_prefix ts _ t) in HX by done.
  split; [|eapply within_progress; [exact W|exact W3|done]].
  eexists. split; [exact W3|]. split_and!; [done| |withins; lia]. cbn [levels_of]. lia.
Qed.

Lemma call_link_wp p q ts e h : ok p -> d <= depth p -> within p q ts -> chain_post 7 p e h ts (peak q) ->
  wp (call_link text tokens expression' (structural p) e h) q (fun r q' => link_result p r q q') (failed_from tokens p).
Proof.
  intros H D W HC. destruct (token_at _ _ Hlex (cursor q)) as (t & Ht & _); [apply W|].
  assert (failed_from tokens p q) as HF by (eapply within_failed; [exact W|apply failed_refl, W]).
  destruct (token_kind t) eqn:Hk.
  all: try (by eapply call_paren_wp). all: try (by eapply call_dot_wp). all: try (by eapply call_question_wp).
  all: unfold call_link; apply wp_then; unfold current at 1, wp at 1; rewrite Ht, Hk; try (apply wp_done; by exists ts, h).
  destruct (last ts) as [l|] eqn:El.
  2: { apply last_None in El as ->. destruct HC as [HD _]. by apply derives_expression_span in HD as [_ []]. }
  destruct (reads_last _ _ _ _ _ (within_reads _ _ _ _ W) El) as (n & En & Hl).
  apply wp_then. unfold previous, wp at 1. rewrite En, Hl.
  destruct (_ =? _); [exact HF|apply wp_done; by exists ts, h].
Qed.

Lemma call_spec p : ok p -> d <= depth p -> spec (call text tokens expression' block') p (expression_post 7 p).
Proof.
  intros H D. unfold call. apply spec_structural. apply wp_then. unfold replace_peak.
  apply wp_then, wp_parser, wp_then, wp_modify, wp_done. pose proof (ok_lowered _ _ H) as H0.
  apply wp_then. eapply wp_weaken; [by apply primary_spec| |intros r HF; by apply failed_lowered].
  intros e q (ts & A & HD & Hl). apply wp_then, wp_parser. pose proof (after_peak _ _ _ _ A) as P. cbn [peak set_peak] in P.
  apply wp_then, wp_usize_sub; [done|]. set (p0 := set_peak p (structural p)) in *. apply wp_then.
  eapply wp_weaken; [apply (loop_wp tokens _ (fun '(e, h) q => exists ts, within p0 q ts /\ chain_post 7 p0 e h ts (peak q))
    (fun e q => exists ts h, within p0 q ts /\ chain_post 7 p0 e h ts (peak q)) (failed_from tokens p0))| |].
  - intros [e' h] q' (us & W & HC). eapply wp_weaken; [by apply (call_link_wp p0 q' us e' h)| |done].
    intros [[e'' h']|e''] r HP; exact HP.
  - exists ts. split; [by apply after_within|]. split_and!; [by apply derives_operand| |].
    + change (room p0 (peak q)) with (room p (peak q)) in Hl. change (depth p0) with (depth p). unfold room in Hl. lia.
    + change (structural p0) with (structural p). lia.
  - apply A.
  - intros e' r (us & h & W & HD' & Hl' & Hh). apply wp_then, wp_modify, wp_then, wp_modify, wp_done. exists us.
    rewrite (after_depth _ _ _ _ A). split; [apply after_raise; [done|]; by apply within_close|].
    split; [done|]. change (depth p0) with (depth p) in *. change (structural p0) with (structural p) in *.
    unfold room. cbn [peak set_peak set_depth]. lia.
  - intros r HF. by apply failed_lowered.
Qed.

Lemma unary_spec p : ok p -> d <= depth p -> spec (unary text tokens expression' block' unary') p (expression_post 6 p).
Proof.
  intros H D. unfold unary. eapply spec_current; [side..|]. intros t Ht.
  assert (forall operator, prefix_operator (token_kind t) = Some operator ->
    spec (let! start := advance tokens in let! operand := nested (token_span start) unary' in
      ret (mkExpression (EUnary operator operand) (span_join (token_span start) (expression_span operand)))) p
      (expression_post 6 p)) as HP.
  { intros operator Ho. eapply spec_advance with (t := t); [side..|by intros E; rewrite E in Ho|]. intros p1 A1 _.
    eapply spec_bind with (Q1 := fun e ts pk => DerivesExpression 6 ts e /\ levels_of e <= room p pk).
    - apply spec_nested; [side|]. intros q E Hq. eapply spec_mono; [apply Hu; deeper|].
      intros e ts pk [HD Hl] _. split; [done|]. rooms.
    - intros e ts p2 A2 [HD Hl]. apply spec_ret; [side|]. rewrite app_nil_r. split; [|cbn [levels_of]; lia].
      destruct (derives_expression_span _ _ _ HD) as [-> Hne].
      replace (span_join _ _) with (over ([t] ++ ts)) by (cbn [app]; by spans). by apply derives_unary. }
  destruct (token_kind t) eqn:Hk; try (by apply HP).
  all: eapply spec_mono; [by apply call_spec|]; intros e ts pk [HD Hl]; split; [by apply derives_operand|done].
Qed.

(** ** Precedence levels *)

Section Level.
Context (level : nat) (operand : Parse Expression).
Hypothesis Hop : forall q, ok q -> d <= depth q -> spec operand q (expression_post (S level) q).

Lemma operator_not_end kind operator : operator_at level kind = Some operator -> kind <> TEof.
Proof. intros H ->. unfold operator_at in H. by repeat case_match. Qed.

(** What the loop keeps, from the state [p] whose peak was lowered. *)
Definition binary_read (p : Parser) (eh : Expression * Z) (q : Parser) : Prop :=
  let '(e, h) := eh in exists ts, after tokens p q ts /\ chain_post level p e h ts (peak q).

Lemma binary_post p e h ts t operator f r us pk : DerivesExpression level ts e -> DerivesExpression (S level) us f ->
  operator_at level (token_kind t) = Some operator ->
  levels_of e <= 1 + h + 2 * (MAX_NESTING_DEPTH - depth p) -> levels_of f <= 1 + r + 2 * (MAX_NESTING_DEPTH - depth p) ->
  structural p + (1 + h `max` r) <= pk ->
  chain_post level p (binary e operator f) (1 + h `max` r) (ts ++ [t] ++ us) pk.
Proof.
  intros HD HF Ho Hl Hr Hp. split_and!; [|unfold binary; cbn [levels_of]; lia|done].
  unfold binary. destruct (derives_expression_span _ _ _ HD) as [-> Hne], (derives_expression_span _ _ _ HF) as [-> Hne'].
  replace (span_join _ _) with (over (ts ++ [t] ++ us)) by (cbn [app]; by spans). by constructor.
Qed.

Lemma binary_round_wp p e h q : ok p -> d <= depth p -> peak p = structural p -> binary_read p (e, h) q ->
  wp (let! token := current tokens in
      match operator_at level (token_kind token) with
      | None => ret (inr e)
      | Some operator =>
          let! token := advance tokens in
          let! _ := modify (fun q => set_peak q (structural p)) in
          let! rhs := operand in
          let! q := parser in
          let! reached := usize_sub (peak q) (structural p) in
          let height := 1 + h `max` reached in
          let! _ := reach (structural p + height) (token_span token) in
          ret (inl (binary e operator rhs, height))
      end) q
    (fun r q' => match r with
       | inl eh => binary_read p eh q' /\ (cursor q < cursor q' <= bound tokens)%nat
       | inr e' => exists h, binary_read p (e', h) q' end) (failed_from tokens p).
Proof.
  intros H D Hpk (ts & A & HD & Hl & Hh). destruct (token_at _ _ Hlex (cursor q)) as (t & Ht & _); [apply A|].
  apply wp_then. unfold current at 1, wp at 1. rewrite Ht. destruct (operator_at _ _) as [operator|] eqn:Ho.
  2: { apply wp_done. exists h, ts. done. }
  eapply (step_wp tokens _ _ p q); [exact A|eapply (advance_spec _ _ Hlex q t); [apply A|done|by eapply operator_not_end]|].
  intros t' us q1 A1 A1' [[-> ->] _]. apply wp_then, wp_modify.
  assert (structural p = structural q1) as Es by (frames; lia).
  assert (after tokens p (set_peak q1 (structural p)) (ts ++ [t])) as A2.
  { destruct A1 as [AO AD AC AS AA AP AR]. split; [rewrite Es; by apply ok_lowered|done|done|done|done|cbn; lia|done]. }
  eapply (step_wp tokens _ _ p); [exact A2|apply Hop; [apply A2|cbn; frames; lia]|].
  intros f us q2 A3 A3' [HF Hf]. apply wp_then, wp_parser. pose proof (after_peak _ _ _ _ A3') as P. cbn [peak set_peak] in P.
  apply wp_then, wp_usize_sub; [done|]. apply wp_then, reach_wp; [|eapply failed_after; [exact A3|apply failed_refl, A3]].
  intros Hm. apply wp_done.
  assert (after tokens p (set_peak q2 (peak q2 `max` (structural p + (1 + h `max` (peak q2 - structural p)))))
    (ts ++ [t] ++ us)) as A4.
  { rewrite <- app_assoc in A3. destruct A3 as [AO AD AC AS AA AP AR].
    split; [by apply ok_raise|done|done|done|done|cbn; lia|done]. }
  split.
  - exists (ts ++ [t] ++ us). split; [done|]. apply binary_post; [done|done|done|done| |cbn; lia].
    unfold room in Hf. cbn [depth set_peak] in Hf. change (structural (set_peak q1 (structural p))) with (structural q1) in Hf.
    frames. lia.
  - destruct (after_reads _ _ _ _ A) as [_ R], (after_reads _ _ _ _ A4) as [_ R']. pose proof (ok_cursor _ _ (after_ok _ _ _ _ A4)).
    rewrite !length_app in R'. cbn in *. lia.
Qed.

Lemma binary_chain_spec p : ok p -> d <= depth p ->
  spec (binary_chain tokens operand (operator_at level)) p (expression_post level p).
Proof.
  intros H D. unfold binary_chain. apply spec_structural. apply wp_then. unfold replace_peak.
  apply wp_then, wp_parser, wp_then, wp_modify, wp_done. pose proof (ok_lowered _ _ H) as H0.
  apply wp_then. eapply wp_weaken; [by apply Hop| |intros r HF; by apply failed_lowered].
  intros e q (ts & A & HD & Hl). apply wp_then, wp_parser. pose proof (after_peak _ _ _ _ A) as P. cbn [peak set_peak] in P.
  apply wp_then, wp_usize_sub; [done|]. set (p0 := set_peak p (structural p)) in *. apply wp_then.
  eapply wp_weaken; [apply (loop_wp tokens _ (binary_read p0) (fun e q => exists h, binary_read p0 (e, h) q) (failed_from tokens p0))| |].
  - intros [e' h] q' HR. by apply (binary_round_wp p0 e' h q').
  - exists ts. split; [done|]. split_and!; [by apply derives_operand| |].
    + change (room p0 (peak q)) with (room p (peak q)) in Hl. change (depth p0) with (depth p). unfold room in Hl. lia.
    + change (structural p0) with (structural p). lia.
  - apply A.
  - intros e' r (h & us & A' & HD' & Hl' & Hh). apply wp_then, wp_modify, wp_done. exists us.
    split; [by apply after_raise|]. split; [done|].
    change (depth p0) with (depth p) in *. change (structural p0) with (structural p) in *.
    unfold room. cbn [peak set_peak set_depth]. lia.
  - intros r HF. by apply failed_lowered.
Qed.
End Level.

Lemma logical_or_spec p : ok p -> d <= depth p ->
  spec (logical_or text tokens expression' block' unary') p (expression_post 0 p).
Proof.
  exact (binary_chain_spec 0 _ (binary_chain_spec 1 _ (binary_chain_spec 2 _
    (binary_chain_spec 3 _ (binary_chain_spec 4 _ (binary_chain_spec 5 _ unary_spec))))) p).
Qed.
End Grammar.

(** ** The recursion *)

Section Recursion.
Context (text : chars) (tokens : list Token) (Hlex : lexical text tokens).

Lemma grammar_spec fuel :
  (forall p, ok tokens p -> MAX_NESTING_DEPTH - depth p < Z.of_nat fuel ->
     spec tokens (grammar_expression (grammar_at text tokens fuel)) p (expression_post 0 p))
  /\ (forall p, ok tokens p -> MAX_NESTING_DEPTH - depth p < Z.of_nat fuel ->
     spec tokens (grammar_block (grammar_at text tokens fuel)) p (block_post p))
  /\ (forall p, ok tokens p -> MAX_NESTING_DEPTH - depth p < Z.of_nat fuel ->
     spec tokens (grammar_unary (grammar_at text tokens fuel)) p (expression_post 6 p)).
Proof.
  induction fuel as [|fuel (IHe & IHb & IHu)].
  { split_and!; intros p H Hf; destruct (ok_depth _ _ H); lia. }
  cbn [grammar_at]. destruct (grammar_at text tokens fuel) as [e' b' u']. cbn [grammar_expression grammar_block grammar_unary] in *.
  assert (forall q d, ok tokens q -> MAX_NESTING_DEPTH - d <= Z.of_nat fuel -> d < depth q ->
    MAX_NESTING_DEPTH - depth q < Z.of_nat fuel) as Hdeep by (intros; lia).
  split_and!; intros p H Hf.
  - eapply logical_or_spec with (d := depth p); [exact Hlex|..|done|lia]; intros q Hq Dq;
      [apply IHe|apply IHb|apply IHu]; [done|lia..|done|lia|done|lia].
  - eapply block_spec with (d := depth p); [exact Hlex|..|done|lia]; intros q Hq Dq;
      [apply IHe|apply IHb]; [done|lia..|done|lia].
  - eapply unary_spec with (d := depth p); [exact Hlex|..|done|lia]; intros q Hq Dq;
      [apply IHe|apply IHb|apply IHu]; [done|lia..|done|lia|done|lia].
Qed.

Lemma fuel_enough p : ok tokens p -> MAX_NESTING_DEPTH - depth p < Z.of_nat DEPTH_FUEL.
Proof. intros H. destruct (ok_depth _ _ H). unfold DEPTH_FUEL, MAX_NESTING_DEPTH. lia. Qed.

Lemma expression_spec p : ok tokens p -> spec tokens (expression text tokens) p (expression_post 0 p).
Proof. intros H. destruct (grammar_spec DEPTH_FUEL) as (HE & _). apply HE; [done|by apply fuel_enough]. Qed.

Lemma block_of_program_spec p : ok tokens p -> spec tokens (block_of_program text tokens) p (block_post p).
Proof. intros H. destruct (grammar_spec DEPTH_FUEL) as (_ & HB & _). apply HB; [done|by apply fuel_enough]. Qed.
End Recursion.
