(* ===== verification/ParserFacts.v ===== *)
(** * Parsing a program

    The declarations of the top level, whole programs, and the link to the
    lexer: the tokens of a lexed text are what the parser relies on. *)

From S2P Require Import Prelude Utf8 Syntax Tokens Lexer LexerFacts LexComplete Canonical Habits Parser ParserSpec ParserLogic ParserTypes ParserExprs ParserBlocks ParserOperands ParserGrammar.

(** ** Lexed tokens *)

Lemma lexed_ends text at_ tokens : Lexed text at_ tokens -> exists init eof, tokens = init ++ [eof]
  /\ token_kind eof = TEof /\ Forall (fun t => token_kind t <> TEof) init.
Proof.
  induction 1 as [trivia at_ HT|trivia spelling rest at_ kind tokens HT HS Hne HL IH].
  - by exists [], (mkToken TEof (mkSpan (at_ + width trivia) (at_ + width trivia))).
  - destruct IH as (init & eof & -> & He & Hi). exists (mkToken kind (mkSpan (at_ + width trivia)
      (at_ + width trivia + width spelling)) :: init), eof. split_and!; [done|done|].
    constructor; [by eapply spells_not_end|done].
Qed.

(** Where the trivia before the token at [k] starts. *)
Definition trivia_start (at_ : Z) (tokens : list Token) (k : nat) : Z :=
  match k with O => at_ | S n => match tokens !! n with Some before => span_end (token_span before) | None => 0 end end.

Lemma lexed_trivia whole text at_ tokens : Lexed text at_ tokens -> forall before, whole = before ++ text -> at_ = width before ->
  forall k t, tokens !! k = Some t -> is_Some (text_get whole (trivia_start at_ tokens k) (span_start (token_span t))).
Proof.
  induction 1 as [trivia at_ HT|trivia spelling rest at_ kind tokens HT HS Hne HL IH]; intros before -> -> k t Hk.
  - destruct k as [|k]; [|done]. injection Hk as <-. cbn. eexists. rewrite <- (app_nil_r trivia) at 1. apply text_get_app.
  - destruct k as [|k].
    + injection Hk as <-. cbn. eexists. apply text_get_app.
    + assert (before ++ trivia ++ spelling ++ rest = (before ++ trivia ++ spelling) ++ rest) as E by by rewrite <- !app_assoc.
      destruct (IH _ E ltac:(rewrite !width_app; lia) k t Hk) as [x Hx]. exists x. rewrite <- Hx. by destruct k.
Qed.

Lemma lexed_lexical text tokens : lex text = Scanned tokens -> lexical text tokens.
Proof.
  intros L%lex_Lexed. split; [by eapply lexed_ends|]. intros k t Hk.
  pose proof (lexed_trivia text text 0 tokens L [] eq_refl eq_refl k t Hk) as HT. by destruct k.
Qed.

(** ** The top level *)

Section Top.
Context (text : chars) (tokens : list Token) (Hlex : lexical text tokens).
Local Notation spec := (spec tokens).
Local Notation ok := (ok tokens).

Lemma ok_deep q : ok q -> -1 < depth q.
Proof. intros H. destruct (ok_depth _ _ H). lia. Qed.

Lemma rest_of_function p : ok p ->
  spec (function_rest tokens (block_of_program text tokens)) p (fun '(parameters, return_type, body) ts pk => exists ps us vs,
    ts = ps ++ us ++ vs /\ DerivesParameters ps parameters /\ DerivesAnnotation TThinArrow us return_type
    /\ DerivesBlock vs body /\ block_levels body + 1 <= room p pk).
Proof.
  intros H. eapply (function_rest_spec text tokens Hlex (-1)); [|done|by apply ok_deep].
  intros q Hq _. by apply block_of_program_spec.
Qed.

Definition top_post (p : Parser) (s : Statement) (ts : list Token) (pk : Z) : Prop :=
  DerivesTop ts s /\ statement_levels s <= 1 + room p pk.

Lemma webhook_spec p : ok p -> spec (webhook_declaration text tokens) p (top_post p).
Proof.
  intros H. unfold webhook_declaration. apply spec_looks; [eapply looks_doc_comment; [done|apply H]|]. intros doc.
  eapply spec_expect; [side..|]. intros w p1 Hw A1 _. eapply spec_expect; [side..|]. intros f p2 Hf A2 _.
  eapply spec_binding_name; [side..|]. intros n name p3 Hn Hr A3 _.
  eapply spec_bind; [apply rest_of_function; side|]. intros [[parameters return_type] body] ts p4 A4.
  intros (ps & us & vs & -> & HP & HR & HB & Hl). apply spec_ret; [side|]. rewrite app_nil_r.
  pose proof (derives_webhook w f n name ps parameters us return_type vs body doc Hw Hf Hn Hr HP HR HB) as HX.
  split; [|cbn [statement_levels]; rooms]. destruct (derives_block_span _ _ HB) as [-> Hne].
  replace (span_join _ _) with (over ([w; f; n] ++ (ps ++ us) ++ vs)); [by rewrite <- app_assoc|].
  by apply (over_suffix w (f :: n :: ps ++ us)).
Qed.

(** The keyword an entrypoint of a resource starts with. *)
Lemma entrypoint_reads p keyword q : entrypoint_keyword tokens p = (q, Parsed (Some keyword)) ->
  q = p /\ exists t, tokens !! cursor p = Some t /\ token_kind t = TIdentifier keyword
    /\ (keyword = "queue" \/ keyword = "schedule").
Proof.
  unfold entrypoint_keyword, bind at 1, current. destruct (tokens !! cursor p) as [t|]; [|done]. cbn. unfold bind, parser.
  destruct (token_kind t) eqn:Ek; try done. destruct (_ || _) eqn:Eq; [|done].
  destruct (_ && _); [|done]. intros [= -> <-]. split; [done|]. exists t. split_and!; [done|done|].
  apply orb_true_iff in Eq as [Eq|Eq]; apply bool_decide_eq_true in Eq; auto.
Qed.

Lemma resource_post p keyword q r resource f n name ps parameters us return_type vs body doc pk :
  token_kind q = TIdentifier keyword -> keyword = "queue" \/ keyword = "schedule" ->
  token_kind r = TString resource -> token_kind f = TFn -> token_kind n = TIdentifier name -> name ∉ reserved_names ->
  DerivesParameters ps parameters -> DerivesAnnotation TThinArrow us return_type -> DerivesBlock vs body ->
  block_levels body + 1 <= room p pk ->
  top_post p (mkStatement ((if bool_decide (keyword = "queue") then SQueueConsumer else SScheduleHandler)
    resource (token_span r) name parameters return_type body doc) (span_join (token_span q) (block_span body)))
    ([q; r; f; n] ++ ps ++ us ++ vs) pk.
Proof.
  intros Hq Hw Hr Hf Hn Hre HP HR HB Hl. destruct (derives_block_span _ _ HB) as [-> Hne].
  assert (span_join (token_span q) (over vs) = over ([q; r; f; n] ++ ps ++ us ++ vs)) as ->.
  { rewrite (app_assoc ps). symmetry. by apply (over_suffix q (r :: f :: n :: ps ++ us)). }
  destruct Hw as [-> | ->]; case_bool_decide; try done.
  - split; [by apply derives_queue|]. cbn [statement_levels]. lia.
  - split; [by apply derives_schedule|]. cbn [statement_levels]. lia.
Qed.

Lemma resource_spec p : ok p -> spec (resource_entrypoint_declaration text tokens) p (top_post p).
Proof.
  intros H. destruct (looks_entrypoint _ _ Hlex p (ok_cursor _ _ H)) as [o Ho]. unfold resource_entrypoint_declaration.
  apply wp_then. unfold wp at 1. rewrite Ho. destruct o as [keyword|]; [|by eapply expected_spec].
  apply entrypoint_reads in Ho as (_ & q & Hq & Hk & Hw).
  apply spec_looks; [eapply looks_doc_comment; [done|apply H]|]. intros doc.
  eapply spec_advance with (t := q); [side..|by rewrite Hk|]. intros p1 A1 _.
  eapply spec_advance_any; [side..| |].
  { intros t Ht Eo. rewrite Eo. eapply spec_fail. side. }
  intros r p2 Hr _ A2 _. destruct (token_kind r) eqn:Er; try (eapply spec_fail; side).
  eapply spec_expect; [side..|]. intros f p3 Hf A3 _.
  eapply spec_binding_name; [side..|]. intros n name p4 Hn Hre A4 _.
  eapply spec_bind; [apply rest_of_function; side|]. intros [[parameters return_type] body] ts p5 A5.
  intros (ps & us & vs & -> & HP & HR & HB & Hl). apply spec_ret; [side|]. rewrite app_nil_r.
  eapply resource_post; try done. rooms.
Qed.

Lemma top_statement_spec p : ok p -> spec (top_statement text tokens) p (top_post p).
Proof.
  intros H. unfold top_statement. eapply spec_check; [side..|]. intros t _. case_bool_decide; [by apply webhook_spec|].
  apply spec_looks; [eapply looks_entrypoint; [done|apply H]|]. intros [keyword|]; [by apply resource_spec|].
  eapply spec_mono; [eapply (statement_spec text tokens Hlex (-1)); [| |done|by apply ok_deep]|].
  - intros q Hq _. by apply expression_spec.
  - intros q Hq _. by apply block_of_program_spec.
  - intros s ts pk [HD Hl]. split; [by constructor|done].
Qed.

Lemma derives_top_some ts s : DerivesTop ts s -> ts <> [].
Proof. destruct 1; try done. by eapply derives_statement_span. Qed.

Definition entrypoints (statements : list Statement) : nat :=
  length (filter (fun s => is_entrypoint s = true) statements).

(** The statements read so far, and whether an entrypoint is among them. *)
Definition program_read (p : Parser) (read : list Statement * bool) (ts : list Token) (pk : Z) : Prop :=
  let '(statements, entrypoint) := read in
  DerivesStatementsTop ts statements /\ entrypoints statements = (if entrypoint then 1 else 0)%nat
  /\ most (map statement_levels statements) <= 1 + room p pk.

Lemma entrypoints_snoc l s : entrypoints (l ++ [s]) = (entrypoints l + if is_entrypoint s then 1 else 0)%nat.
Proof.
  unfold entrypoints. rewrite filter_app, length_app. destruct (is_entrypoint s) eqn:E.
  - by rewrite filter_cons_True.
  - rewrite filter_cons_False by by rewrite E. cbn. lia.
Qed.

Lemma program_read_snoc p p1 p2 ts us l entrypoint s : after tokens p p1 ts -> after tokens p1 p2 us ->
  program_read p (l, entrypoint) ts (peak p1) -> top_post p1 s us (peak p2) -> is_entrypoint s && entrypoint = false ->
  us <> [] /\ program_read p (l ++ [s], entrypoint || is_entrypoint s) (ts ++ us) (peak p2).
Proof.
  intros A1 A2 (HL & He & Hm) [HD Hl] Hn. split; [by eapply derives_top_some|]. split_and!; [by constructor| |].
  - rewrite entrypoints_snoc, He. by destruct (is_entrypoint s), entrypoint.
  - rewrite map_app. cbn [map]. rewrite most_snoc. rooms.
Qed.

Lemma ok_new : ok new_parser.
Proof. split; unfold structural, MAX_NESTING_DEPTH, MAX_STRUCTURAL_DEPTH; cbn; lia. Qed.

Lemma program_spec :
  spec (program text tokens) new_parser (fun program ts pk => DerivesProgram tokens program
    /\ program_levels program <= 1 + room new_parser pk).
Proof.
  pose proof ok_new as H. unfold program.
  eapply spec_bind with (Q1 := fun l ts pk => DerivesStatementsTop ts l /\ (entrypoints l <= 1)%nat
    /\ most (map statement_levels l) <= 1 + room new_parser pk
    /\ exists t, tokens !! length ts = Some t /\ token_kind t = TEof).
  - eapply spec_loop with (I := program_read new_parser); [done| |].
    { split_and!; [constructor|done|]. cbn [map]. rewrite most_nil. pose proof (room_now _ _ H). lia. }
    intros [l entrypoint] ts p1 A1 HI. eapply spec_check; [side..|]. intros t Ht. case_bool_decide.
    + apply spec_ret; [side|]. rewrite app_nil_r. destruct HI as (HL & He & Hm). rewrite He.
      split_and!; [done|destruct entrypoint; lia|done|]. exists t. split; [|done].
      by rewrite <- (after_cursor _ _ _ _ A1) in Ht.
    + eapply spec_bind; [apply top_statement_spec; side|]. intros s us p2 A2 HS.
      destruct (_ && _) eqn:En; [eapply spec_fail; side|]. apply spec_ret; [side|]. rewrite app_nil_r.
      by eapply program_read_snoc.
  - intros l ts p1 A1 (HL & He & Hm & t & Ht & Hk). apply spec_ret; [side|]. split; [|done].
    destruct (after_reads _ _ _ _ A1) as [E Ec]. cbn in E, Ec. rewrite drop_0, Ec, (drop_S _ _ _ Ht) in E.
    pose proof (token_eof _ _ Hlex _ _ Ht Hk) as Eb. unfold bound in Eb.
    rewrite (drop_ge tokens (S (length ts))) in E by lia. rewrite E. by constructor.
Qed.

Lemma parse_wp : match parse text tokens with
  | Parsed program => DerivesProgram tokens program /\ program_levels program < MAX_TREE_DEPTH
  | Failed _ => True
  | Panicked | Exhausted => False
  end.
Proof.
  pose proof program_spec as HP. unfold parse, ParserLogic.spec, wp in *. destruct (program text tokens new_parser) as [q []]; cbn.
  - destruct HP as (ts & A & HD & Hl). split; [done|]. pose proof (ok_peak _ _ (after_ok _ _ _ _ A)) as [_ P].
    unfold room, structural in Hl. cbn in Hl. unfold MAX_TREE_DEPTH. lia.
  - done.
  - done.
  - done.
Qed.
End Top.

(** ** Claims *)

(** C10: The front end always decides.  The parser, given the tokens of a text
    the lexer accepts, ends in a program or in a diagnostic: no index out of
    range, no subtraction below zero, no slice inside a character, and no loop
    or recursion without end, whatever the text. *)
Theorem parse_decides (text : chars) (tokens : list Token) : lex text = Scanned tokens ->
  (exists program, parse text tokens = Parsed program) \/ (exists d, parse text tokens = Failed d).
Proof.
  intros L%lexed_lexical. pose proof (parse_wp _ _ L) as HP. destruct (parse text tokens); [by left; eexists|by right; eexists|done|done].
Qed.

(** C9: A parsed program is one the grammar derives from all the tokens: each
    operator binds by its precedence and to the left, each node has the span
    from its first token to its last, parentheses and blocks group, commas
    separate and may trail, names that must differ do, reserved names are not
    bound, and at most one entrypoint is declared. *)
Theorem parse_sound (text : chars) (tokens : list Token) (program : Program) : lex text = Scanned tokens ->
  parse text tokens = Parsed program -> DerivesProgram tokens program.
Proof. intros L%lexed_lexical E. pose proof (parse_wp _ _ L) as HP. rewrite E in HP. apply HP. Qed.

(** C11: Bounded recursion.  The tree of an accepted program has fewer than
    [MAX_TREE_DEPTH] levels of expressions and blocks, the bound the passes
    that walk it rely on. *)
Theorem parsed_tree_depth (text : chars) (tokens : list Token) (program : Program) : lex text = Scanned tokens ->
  parse text tokens = Parsed program -> program_levels program < MAX_TREE_DEPTH.
Proof. intros L%lexed_lexical E. pose proof (parse_wp _ _ L) as HP. rewrite E in HP. apply HP. Qed.

(** ** Samples *)

(** A program with a doc comment, a chain of conditionals, operators of several
    levels, a match on a list, an interpolation and an entrypoint. *)
Definition program_text : chars :=
  ascii_chars "/// Weighs." ++ [newline]
  ++ ascii_chars "fn weigh(a: Int, b: Int) -> Int { a + b * -2 }" ++ [newline]
  ++ ascii_chars "let x = if weigh(1, 2) > 3 || false { [1, 2] } else if true { [] } else { [(3)] };" ++ [newline]
  ++ ascii_chars "let Some(y) = Some(record { a: x }) else None => record { a: [] };" ++ [newline]
  ++ ascii_chars "queue " ++ [quote] ++ ascii_chars "jobs" ++ [quote]
  ++ ascii_chars " fn handle(job: QueueJob) -> Unit { match y.a { [] => (), [h, ..t] => println("
  ++ [quote] ++ ascii_chars "id \(job.id)" ++ [quote] ++ ascii_chars ") } }".

Definition program_tokens : list Token := match lex program_text with Scanned tokens => tokens | _ => [] end.
Definition parsed_program : Program :=
  match parse program_text program_tokens with Parsed program => program | _ => mkProgram [] end.

Example program_parses : length program_tokens = 121%nat /\ length (program_statements parsed_program) = 4%nat
  /\ program_levels parsed_program = 6.
Proof. vm_compute. done. Qed.

Lemma program_lexes : lex program_text = Scanned program_tokens.
Proof. vm_compute. reflexivity. Qed.

Lemma program_is_parsed : parse program_text program_tokens = Parsed parsed_program.
Proof. vm_compute. reflexivity. Qed.

(** The decision on a text the parser refuses. *)
Definition refused_text : chars := ascii_chars "let x = a ? b : c;".
Definition refused_tokens : list Token := match lex refused_text with Scanned tokens => tokens | _ => [] end.

Lemma parse_decides_witness : lex refused_text = Scanned refused_tokens
  /\ ((exists program, parse refused_text refused_tokens = Parsed program)
      \/ (exists d, parse refused_text refused_tokens = Failed d)).
Proof.
  split; [vm_compute; reflexivity|]. apply (parse_decides refused_text refused_tokens). vm_compute. reflexivity.
Defined.

Lemma parse_sound_witness : DerivesProgram program_tokens parsed_program.
Proof. apply (parse_sound program_text); [exact program_lexes|exact program_is_parsed]. Defined.

Lemma parsed_tree_depth_witness : program_levels parsed_program < MAX_TREE_DEPTH.
Proof. apply (parsed_tree_depth program_text program_tokens); [exact program_lexes|exact program_is_parsed]. Defined.
