(* ===== verification/Positions.v ===== *)
(** * Positions and the rendering of diagnostics

    Models [Source] and its positions of [krit/src/source.rs], the renderings
    of [krit/src/diagnostic.rs], and the line index of
    [krit-lsp/src/position.rs], which counts UTF-16 units.  A slice that
    splits a character panics, and so do an index out of range and a
    subtraction below zero: these answer [None]. *)

From S2P Require Import Prelude Utf8 Syntax Tokens Lexer Canonical.

(** ** Sources *)

Record Position : Type := mkPosition {
  pos_line : Z;
  pos_column : Z;
  pos_byte : Z;
}.

Record Source : Type := mkSource {
  source_name : string;
  source_text : chars;
  line_starts : list Z;
}.

(** The offsets after each line feed of [text], which is found at [index]. *)
Fixpoint starts_after (text : bytes) (index : Z) : list Z :=
  match text with
  | [] => []
  | b :: text =>
      if (byte_val b =? 10)%N then (index + 1) :: starts_after text (index + 1) else starts_after text (index + 1)
  end.

Definition starts_of (text : chars) : list Z := 0 :: starts_after (utf8 text) 0.

Definition new_source (name : string) (text : chars) : Source := mkSource name text (starts_of text).

(** [starts.partition_point(|start| start <= byte)] of sorted starts. *)
Fixpoint partition_point (starts : list Z) (byte : Z) : nat :=
  match starts with
  | [] => 0
  | start :: starts => if start <=? byte then S (partition_point starts byte) else 0
  end.

(** The line [byte] is on, where it starts, and the text from there to [byte]. *)
Definition line_to (starts : list Z) (text : chars) (byte : Z) : option (nat * chars) :=
  match partition_point starts byte with
  | O => None
  | S line =>
      match starts !! line with
      | Some start => pair line <$> text_get text start byte
      | None => None
      end
  end.

Definition position (source : Source) (byte : Z) : option Position :=
  let byte := byte `min` width (source_text source) in
  match line_to (line_starts source) (source_text source) byte with
  | Some (line, before) => Some (mkPosition (Z.of_nat line + 1) (Z.of_nat (length before) + 1) byte)
  | None => None
  end.

(** ** Renderings *)

Definition severity_str (s : Severity) : string :=
  match s with SeverityError => "error" | SeverityWarning => "warning" end.

Definition warning (code message : string) (span : Span) : Diagnostic :=
  mkDiagnostic SeverityWarning code message span [].

Definition render_human (d : Diagnostic) (source : Source) : option string :=
  match position source (span_start (diag_span d)) with
  | Some p =>
      Some (source_name source +:+ ":" +:+ pretty (pos_line p) +:+ ":" +:+ pretty (pos_column p) +:+ ": "
            +:+ severity_str (diag_severity d) +:+ "[" +:+ diag_code d +:+ "]: " +:+ diag_message d
            +:+ foldr (fun note rest => text_from [newline] +:+ "help: " +:+ note +:+ rest) "" (diag_notes d))
  | None => None
  end.

Definition json_char (c : char) : chars :=
  if (c =? quote)%N then [backslash; quote]
  else if (c =? backslash)%N then [backslash; backslash]
  else if (c =? newline)%N then [backslash; ch "n"]
  else if (c =? carriage_return)%N then [backslash; ch "r"]
  else if (c =? tab)%N then [backslash; ch "t"]
  else if (c =? 8)%N then [backslash; ch "b"]
  else if (c =? 12)%N then [backslash; ch "f"]
  else if (c <? 0x20)%N then
    [backslash; ch "u"; ch "0"; ch "0"; lower_hex (c / 16)%N; lower_hex (c mod 16)%N]
  else [c].

Definition escape_json (value : chars) : chars := flat_map json_char value.

Definition json_text (value : string) : string := q1 +:+ text_from (escape_json (chars_of value)) +:+ q1.

Definition json_position (p : Position) : string :=
  "{" +:+ q1 +:+ "line" +:+ q1 +:+ ":" +:+ pretty (pos_line p)
  +:+ "," +:+ q1 +:+ "column" +:+ q1 +:+ ":" +:+ pretty (pos_column p)
  +:+ "," +:+ q1 +:+ "byte" +:+ q1 +:+ ":" +:+ pretty (pos_byte p) +:+ "}".

(** [key] quoted, with its colon. *)
Definition json_key (key : string) : string := q1 +:+ key +:+ q1 +:+ ":".

Fixpoint json_notes (notes : list string) : string :=
  match notes with
  | [] => ""
  | [note] => json_text note
  | note :: notes => json_text note +:+ "," +:+ json_notes notes
  end.

Definition render_json (d : Diagnostic) (source : Source) : option string :=
  match position source (span_start (diag_span d)), position source (span_end (diag_span d)) with
  | Some start, Some stop =>
      Some ("{" +:+ json_key "schema" +:+ "1," +:+ json_key "severity" +:+ q1 +:+ severity_str (diag_severity d) +:+ q1
            +:+ "," +:+ json_key "code" +:+ q1 +:+ diag_code d +:+ q1
            +:+ "," +:+ json_key "message" +:+ json_text (diag_message d)
            +:+ "," +:+ json_key "file" +:+ json_text (source_name source)
            +:+ "," +:+ json_key "span" +:+ "{" +:+ json_key "start" +:+ json_position start
            +:+ "," +:+ json_key "end" +:+ json_position stop +:+ "}"
            +:+ "," +:+ json_key "labels" +:+ "[]," +:+ json_key "notes" +:+ "[" +:+ json_notes (diag_notes d) +:+ "]}")
  | _, _ => None
  end.

(** ** The line index of the language server *)

Definition len_utf16 (c : char) : Z := if (c <? 0x10000)%N then 1 else 2.
Definition utf16_width (cs : chars) : Z := foldr (fun c n => len_utf16 c + n) 0 cs.

Definition U32 : Z := 2 ^ 32.

(** [lsp_types::Position]. *)
Record LspPosition : Type := mkLspPosition {
  lsp_line : Z;
  lsp_character : Z;
}.

Definition is_char_boundary (text : chars) (byte : Z) : bool := is_some (drop_bytes text byte).

(** [while !text.is_char_boundary(byte) { byte = byte.saturating_sub(1) }]:
    a character has at most four bytes. *)
Fixpoint char_floor (fuel : nat) (text : chars) (byte : Z) : option Z :=
  if is_char_boundary text byte then Some byte
  else match fuel with O => None | S fuel => char_floor fuel text (usize_saturating_sub byte 1) end.

Definition index_position (starts : list Z) (text : chars) (byte : Z) : option LspPosition :=
  match char_floor 3 text (byte `min` width text) with
  | None => None
  | Some byte =>
      match line_to starts text byte with
      | Some (line, before) => Some (mkLspPosition (Z.of_nat line mod U32) (utf16_width before mod U32))
      | None => None
      end
  end.

(** The bytes of [text] at [n], compared with [b]; an index out of range
    panics, and [end > 0 &&] guards each read. *)
Definition line_content_end (starts : list Z) (text : chars) (line : nat) : option Z :=
  match starts !! S line with
  | None => Some (width text)
  | Some stop =>
      let byte_before n := utf8 text !! Z.to_nat (n - 1) in
      if 0 <? stop then
        match byte_before stop with
        | None => None
        | Some b =>
            if (byte_val b =? 10)%N then
              let stop := stop - 1 in
              if 0 <? stop then
                match byte_before stop with
                | None => None
                | Some b => Some (if (byte_val b =? 13)%N then stop - 1 else stop)
                end
              else Some stop
            else Some stop
        end
      else Some stop
  end.

(** The characters of the line from byte [at_], with [utf16] units before. *)
Fixpoint offset_from (line : chars) (at_ utf16 target stop : Z) : result Z string :=
  match line with
  | [] => Ok stop
  | c :: line =>
      if utf16 =? target then Ok at_
      else
        let next := utf16 + len_utf16 c in
        if target <? next then Err ("UTF-16 character " +:+ pretty target +:+ " splits a surrogate pair")
        else offset_from line (at_ + len_utf8 c) next target stop
  end.

Definition index_offset (starts : list Z) (text : chars) (p : LspPosition) : option (result Z string) :=
  match starts !! Z.to_nat (lsp_line p) with
  | None => Some (Err ("line " +:+ pretty (lsp_line p) +:+ " is outside the document"))
  | Some start =>
      match line_content_end starts text (Z.to_nat (lsp_line p)) with
      | None => None
      | Some stop =>
          match text_get text start stop with
          | None => None
          | Some line => Some (offset_from line start 0 (lsp_character p) stop)
          end
      end
  end.

Definition index_range (starts : list Z) (text : chars) (span : Span) : option (LspPosition * LspPosition) :=
  match index_position starts text (span_start span), index_position starts text (span_end span) with
  | Some start, Some stop => Some (start, stop)
  | _, _ => None
  end.

Definition full_range (starts : list Z) (text : chars) : option (LspPosition * LspPosition) :=
  index_range starts text (mkSpan 0 (width text)).

(** * Positions count lines and characters, and come back *)

Definition valid_text (cs : chars) : Prop := Forall (fun c => is_char c = true) cs.

(** ** Where lines start *)

(** Whole lines: nothing, or a text that ends in a line feed. *)
Definition whole_lines (cs : chars) : Prop := cs = [] \/ last cs = Some newline.
Definition one_line_text (cs : chars) : Prop := newline ∉ cs.

Fixpoint feeds (cs : chars) : nat :=
  match cs with [] => 0 | c :: cs => if (c =? newline)%N then S (feeds cs) else feeds cs end.

Fixpoint line_starts_at (cs : chars) (at_ : Z) : list Z :=
  match cs with
  | [] => []
  | c :: cs =>
      if (c =? newline)%N then (at_ + 1) :: line_starts_at cs (at_ + 1) else line_starts_at cs (at_ + len_utf8 c)
  end.

Ltac byte_off := match goal with
  | |- context [(byte_val (byte_of ?n) =? ?m)%N] => rewrite (byte_val_of n) by divlia; rewrite (proj2 (N.eqb_neq n m)) by divlia
  end.

Lemma starts_after_char c rest at_ : is_char c = true ->
  starts_after (utf8_char c ++ rest) at_ =
    if (c =? newline)%N then (at_ + 1) :: starts_after rest (at_ + 1) else starts_after rest (at_ + len_utf8 c).
Proof.
  intros Hb%is_char_bound. unfold utf8_char, len_utf8, newline.
  destruct (N.ltb_spec c 0x80); [|destruct (N.ltb_spec c 0x800); [|destruct (N.ltb_spec c 0x10000)]]; cbn [app starts_after].
  - by rewrite byte_val_of by lia.
  - rewrite (proj2 (N.eqb_neq c 10)) by lia. repeat byte_off. f_equal. lia.
  - rewrite (proj2 (N.eqb_neq c 10)) by lia. repeat byte_off. f_equal. lia.
  - rewrite (proj2 (N.eqb_neq c 10)) by lia. repeat byte_off. f_equal. lia.
Qed.

Lemma starts_after_utf8 cs : valid_text cs -> forall at_, starts_after (utf8 cs) at_ = line_starts_at cs at_.
Proof.
  induction 1 as [|c cs Hc _ IH]; intros at_; [done|]. change (utf8 (c :: cs)) with (utf8_char c ++ utf8 cs).
  rewrite starts_after_char by done. cbn [line_starts_at]. by rewrite !IH.
Qed.

Lemma line_starts_app a b at_ : line_starts_at (a ++ b) at_ = line_starts_at a at_ ++ line_starts_at b (at_ + width a).
Proof.
  revert at_. induction a as [|c a IH]; intros at_; cbn [app line_starts_at]; [f_equal; cbn; lia|].
  rewrite len_utf8_width, !IH. destruct (N.eqb_spec c newline) as [->|]; cbn [app]; [|f_equal; f_equal; lia].
  change (len_utf8 newline) with 1. f_equal. f_equal. f_equal. lia.
Qed.

Lemma line_starts_one_line cs at_ : one_line_text cs -> line_starts_at cs at_ = [].
Proof.
  revert at_. induction cs as [|c cs IH]; intros at_ H; [done|]. cbn [line_starts_at].
  unfold one_line_text in *. rewrite (proj2 (N.eqb_neq c newline)) by set_solver. apply IH. set_solver.
Qed.

Lemma line_starts_length cs at_ : length (line_starts_at cs at_) = feeds cs.
Proof. revert at_. induction cs as [|c cs IH]; intros at_; [done|]. cbn. case_match; cbn; by rewrite IH. Qed.

Lemma line_starts_beyond cs at_ : Forall (fun s => at_ < s <= at_ + width cs) (line_starts_at cs at_).
Proof.
  revert at_. induction cs as [|c cs IH]; intros at_; [constructor|]. cbn [line_starts_at]. rewrite len_utf8_width.
  pose proof (width_nonneg cs). pose proof (len_utf8_pos c). destruct (N.eqb_spec c newline) as [->|].
  - change (len_utf8 newline) with 1. constructor; [lia|]. eapply Forall_impl; [apply IH|]. cbn. lia.
  - eapply Forall_impl; [apply IH|]. cbn. lia.
Qed.

Lemma partition_point_app a b byte : Forall (fun s => s <= byte) a -> Forall (fun s => byte < s) b ->
  partition_point (a ++ b) byte = length a.
Proof.
  induction 1 as [|s a Hs _ IH]; intros Hb; cbn [app partition_point length].
  - destruct Hb as [|s b Hs Hb]; [done|]. cbn. by rewrite (proj2 (Z.leb_gt s byte)).
  - rewrite (proj2 (Z.leb_le s byte)) by done. by rewrite IH.
Qed.

(** The starts of a text whose lines before a line are [lines]. *)
Lemma starts_of_lines lines line after : valid_text (lines ++ line ++ after) -> one_line_text line ->
  starts_of (lines ++ line ++ after)
  = (0 :: line_starts_at lines 0) ++ line_starts_at after (width lines + width line).
Proof.
  intros V H. unfold starts_of. rewrite starts_after_utf8 by done. rewrite !line_starts_app, (line_starts_one_line line) by done.
  cbn [app]. by rewrite Z.add_0_l.
Qed.

Lemma last_start lines : whole_lines lines -> last (0 :: line_starts_at lines 0) = Some (width lines).
Proof.
  intros [->|H]; [done|]. apply last_Some in H as [cs ->]. rewrite line_starts_app. cbn [line_starts_at].
  change (newline =? newline)%N with true. cbn iota. by rewrite app_comm_cons, last_snoc, width_app.
Qed.

(** The line of an offset and the text before it there. *)
Lemma line_to_spec lines line after : valid_text (lines ++ line ++ after) -> whole_lines lines -> one_line_text line ->
  line_to (starts_of (lines ++ line ++ after)) (lines ++ line ++ after) (width (lines ++ line)) = Some (feeds lines, line).
Proof.
  intros V HL H1. unfold line_to. rewrite starts_of_lines by done.
  rewrite width_app. pose proof (width_nonneg lines). pose proof (width_nonneg line).
  rewrite partition_point_app.
  - cbn [length]. rewrite line_starts_length.
    assert (((0 :: line_starts_at lines 0) ++ line_starts_at after (width lines + width line)) !! feeds lines
      = Some (width lines)) as ->.
    { rewrite lookup_app_l by (cbn [length]; rewrite line_starts_length; lia). rewrite <- (last_start lines HL), last_lookup.
      cbn [length]. by rewrite line_starts_length. }
    by rewrite text_get_app.
  - constructor; [lia|]. eapply Forall_impl; [apply line_starts_beyond|]. cbn. lia.
  - eapply Forall_impl; [apply line_starts_beyond|]. cbn. lia.
Qed.

(** ** Offsets *)

Lemma utf16_width_app a b : utf16_width (a ++ b) = utf16_width a + utf16_width b.
Proof. unfold utf16_width. induction a as [|c a IH]; cbn; [done|]. lia. Qed.

Lemma len_utf16_pos c : 0 < len_utf16 c.
Proof. unfold len_utf16. case_match; lia. Qed.

Lemma utf16_width_nonneg cs : 0 <= utf16_width cs.
Proof. induction cs as [|c cs IH]; cbn; [lia|]. pose proof (len_utf16_pos c). unfold utf16_width in IH. lia. Qed.

Lemma offset_from_line line rest : forall at_ utf16 stop, (rest = [] -> stop = at_ + width line) ->
  offset_from (line ++ rest) at_ utf16 (utf16 + utf16_width line) stop = Ok (at_ + width line).
Proof.
  induction line as [|c line IH]; intros at_ utf16 stop Hs; cbn [app offset_from].
  - destruct rest as [|c rest]; cbn [offset_from]; [by rewrite Hs|].
    rewrite (proj2 (Z.eqb_eq _ _)) by (cbn; lia). f_equal. cbn. lia.
  - pose proof (len_utf16_pos c). pose proof (utf16_width_nonneg line).
    change (utf16_width (c :: line)) with (len_utf16 c + utf16_width line). rewrite len_utf8_width in *.
    rewrite (proj2 (Z.eqb_neq _ _)), (proj2 (Z.ltb_ge _ _)) by lia. rewrite Z.add_assoc, IH; [f_equal; lia|].
    intros Hr. rewrite Hs by done. lia.
Qed.

(** ** The content of a line *)

Lemma utf8_app a b : utf8 (a ++ b) = utf8 a ++ utf8 b.
Proof. apply flat_map_app. Qed.

Lemma utf8_length cs : Z.of_nat (length (utf8 cs)) = width cs.
Proof.
  induction cs as [|c cs IH]; [done|]. change (utf8 (c :: cs)) with (utf8_char c ++ utf8 cs).
  rewrite length_app, len_utf8_width, <- IH. unfold utf8_char, len_utf8. repeat case_match; cbn [length]; lia.
Qed.

(** The byte at the end of a text. *)
Lemma byte_after a c b : (c < 0x80)%N -> utf8 (a ++ c :: b) !! Z.to_nat (width (a ++ [c]) - 1) = Some (byte_of c).
Proof.
  intros Hc. rewrite width_app, utf8_app. change (utf8 (c :: b)) with (utf8_char c ++ utf8 b).
  unfold utf8_char. rewrite (proj2 (N.ltb_lt c 0x80)) by done.
  replace (width [c]) with 1 by (unfold width, len_utf8; cbn; by rewrite (proj2 (N.ltb_lt c 0x80))).
  replace (Z.to_nat (width a + 1 - 1)) with (length (utf8 a)) by (rewrite <- utf8_length; lia).
  by apply list_lookup_middle.
Qed.

(** The byte before a position is a carriage return only if the character is. *)
Lemma byte_before_return a c b : is_char c = true -> c <> carriage_return ->
  exists x, utf8 (a ++ c :: b) !! Z.to_nat (width (a ++ [c]) - 1) = Some x /\ (byte_val x =? 13)%N = false.
Proof.
  intros Hb%is_char_bound Hc. assert (exists init x, utf8_char c = init ++ [x] /\ (byte_val x =? 13)%N = false
    /\ len_utf8 c = Z.of_nat (length init) + 1) as (init & x & Ex & Hx & Hl).
  { unfold utf8_char, len_utf8, carriage_return in *.
    destruct (N.ltb_spec c 0x80); [|destruct (N.ltb_spec c 0x800); [|destruct (N.ltb_spec c 0x10000)]].
    - exists [], (byte_of c). rewrite byte_val_of by lia. split_and!; [done|by apply N.eqb_neq|done].
    - eexists [_], _. split_and!; [done| |done]. by byte_off.
    - eexists [_; _], _. split_and!; [done| |done]. by byte_off.
    - eexists [_; _; _], _. split_and!; [done| |done]. by byte_off. }
  exists x. split; [|done]. rewrite width_app, utf8_app. change (utf8 (c :: b)) with (utf8_char c ++ utf8 b). rewrite Ex.
  replace (width [c]) with (len_utf8 c) by (cbn; lia).
  replace (Z.to_nat (width a + len_utf8 c - 1)) with (length (utf8 a ++ init))
    by (rewrite length_app; pose proof (utf8_length a); lia).
  rewrite <- app_assoc, app_assoc. by apply list_lookup_middle.
Qed.

Lemma split_line cs : exists rest tail, cs = rest ++ tail /\ one_line_text rest
  /\ (tail = [] \/ exists more, tail = newline :: more).
Proof.
  induction cs as [|c cs (rest & tail & -> & H1 & HT)]; [exists [], []; split_and!; [done|apply not_elem_of_nil|by left]|].
  destruct (decide (c = newline)) as [->|Hc].
  - exists [], (newline :: rest ++ tail). split_and!; [done|unfold one_line_text; set_solver|right; by eexists].
  - exists (c :: rest), tail. split_and!; [done|unfold one_line_text in *; set_solver|done].
Qed.

(** A position between [before] and [after] that does not split a line break. *)
Definition not_in_break (before after : chars) : Prop :=
  ~ (last before = Some carriage_return /\ head after = Some newline).

Lemma start_after_line lines line rest more : valid_text (lines ++ line ++ rest ++ newline :: more) ->
  one_line_text line -> one_line_text rest ->
  starts_of (lines ++ line ++ rest ++ newline :: more) !! S (feeds lines) = Some (width (lines ++ line ++ rest) + 1).
Proof.
  intros V H1 H2. rewrite starts_of_lines by done. rewrite lookup_app_r by (cbn [length]; rewrite line_starts_length; lia).
  cbn [length]. rewrite line_starts_length, Nat.sub_diag, line_starts_app, (line_starts_one_line rest) by done.
  cbn. rewrite !width_app. f_equal. lia.
Qed.

Lemma no_start_after lines line rest : valid_text (lines ++ line ++ rest) -> one_line_text line -> one_line_text rest ->
  starts_of (lines ++ line ++ rest) !! S (feeds lines) = None.
Proof.
  intros V H1 H2. rewrite starts_of_lines by done. rewrite (line_starts_one_line rest) by done.
  rewrite app_nil_r. apply lookup_ge_None. cbn [length]. rewrite line_starts_length. lia.
Qed.

(** The last character before a line feed decides where the content ends. *)
Lemma content_end_feed cs more : valid_text (cs ++ newline :: more) ->
  forall starts line, starts !! S line = Some (width cs + 1) ->
  line_content_end starts (cs ++ newline :: more) line =
    Some (if decide (last cs = Some carriage_return) then width cs - 1 else width cs).
Proof.
  intros V starts line Hs. unfold line_content_end. rewrite Hs. pose proof (width_nonneg cs).
  rewrite (proj2 (Z.ltb_lt _ _)) by lia.
  replace (width cs + 1) with (width (cs ++ [newline])) by (rewrite width_app; done).
  rewrite byte_after by done. replace (width (cs ++ [newline]) - 1) with (width cs) by (rewrite width_app; cbn; lia).
  change (byte_val (byte_of newline) =? 10)%N with true. cbn iota.
  destruct cs as [|c0 cs0 _] using rev_ind; [done|]. rewrite last_snoc, <- app_assoc. cbn [app].
  assert (0 < width (cs0 ++ [c0])) as Hw by (rewrite width_app, len_utf8_width; pose proof (len_utf8_pos c0); pose proof (width_nonneg cs0); cbn; lia).
  rewrite (proj2 (Z.ltb_lt _ _)) by done. destruct (decide (c0 = carriage_return)) as [->|Hc].
  - rewrite byte_after by done. by rewrite decide_True.
  - rewrite decide_False by congruence.
    destruct (byte_before_return cs0 c0 (newline :: more)) as (x & -> & ->); [|done|done].
    unfold valid_text in V. rewrite !Forall_app in V. destruct V as [[_ V] _]. by inversion V.
Qed.

Lemma last_app_some {A} (a b : list A) x : last (a ++ b) = Some x -> b <> [] -> last b = Some x.
Proof. rewrite last_app. destruct (last b) eqn:E; [done|]. by apply last_None in E. Qed.

Lemma content_of_line lines line after : valid_text (lines ++ line ++ after) -> whole_lines lines -> one_line_text line ->
  not_in_break line after -> exists rest tail, after = rest ++ tail
    /\ line_content_end (starts_of (lines ++ line ++ after)) (lines ++ line ++ after) (feeds lines)
       = Some (width lines + width (line ++ rest)).
Proof.
  intros V HL H1 HB. destruct (split_line after) as (rest & tail & -> & H2 & [->|[more ->]]).
  - exists rest, []. split; [done|]. rewrite app_nil_r in *. unfold line_content_end.
    rewrite no_start_after by done. by rewrite width_app.
  - pose proof (start_after_line lines line rest more V H1 H2) as Hs.
    assert (lines ++ line ++ rest ++ newline :: more = (lines ++ line ++ rest) ++ newline :: more) as E
      by (by rewrite <- !app_assoc).
    rewrite E in Hs, V |- *. rewrite (content_end_feed _ _ V _ _ Hs).
    destruct (decide _) as [Hr|_]; [|exists rest, (newline :: more); split; [done|]; by rewrite width_app].
    destruct rest as [|r0 rest _] using rev_ind.
    + rewrite app_nil_r in Hr. exfalso. destruct line as [|c line].
      * rewrite app_nil_r in Hr. destruct HL as [->|HL]; [done|]. rewrite HL in Hr. done.
      * apply HB. split; [|done]. by apply last_app_some in Hr.
    + rewrite !app_assoc, last_snoc in Hr. injection Hr as ->.
      exists rest, (carriage_return :: newline :: more). split; [by rewrite <- app_assoc|].
      rewrite !width_app. f_equal. cbn. lia.
Qed.

(** ** Positions of boundaries *)

Lemma boundary_floor before after : char_floor 3 (before ++ after) (width before) = Some (width before).
Proof. cbn [char_floor]. unfold is_char_boundary. by rewrite drop_bytes_app. Qed.

Lemma index_position_spec lines line after : valid_text (lines ++ line ++ after) -> whole_lines lines -> one_line_text line ->
  index_position (starts_of (lines ++ line ++ after)) (lines ++ line ++ after) (width (lines ++ line))
  = Some (mkLspPosition (Z.of_nat (feeds lines) mod U32) (utf16_width line mod U32)).
Proof.
  intros V HL H1. unfold index_position. pose proof (width_nonneg after).
  rewrite Z.min_l by (rewrite !width_app; lia). rewrite (app_assoc lines) at 1. rewrite boundary_floor.
  by rewrite line_to_spec.
Qed.

(** ** JSON texts *)

(** The text a JSON string literal stands for, between its quotes: escapes,
    and characters other than controls, quotes and backslashes. *)
Definition simple_json (e : char) : option char :=
  if (e =? quote)%N then Some quote
  else if (e =? backslash)%N then Some backslash
  else if (e =? ch "/")%N then Some (ch "/")
  else if (e =? ch "n")%N then Some newline
  else if (e =? ch "r")%N then Some carriage_return
  else if (e =? ch "t")%N then Some tab
  else if (e =? ch "b")%N then Some 8%N
  else if (e =? ch "f")%N then Some 12%N
  else None.

Fixpoint json_content (cs : chars) : option chars :=
  match cs with
  | [] => Some []
  | c :: cs =>
      if (c =? backslash)%N then
        match cs with
        | e :: cs =>
            match simple_json e with
            | Some x => cons x <$> json_content cs
            | None =>
                match cs with
                | a :: b :: c :: d :: cs =>
                    if (e =? ch "u")%N && forallb is_hexdigit [a; b; c; d]
                    then cons (from_hex [a; b; c; d]) <$> json_content cs
                    else None
                | _ => None
                end
            end
        | [] => None
        end
      else if (c =? quote)%N || (c <? 0x20)%N then None
      else cons c <$> json_content cs
  end.

Lemma json_char_content c rest : json_content (json_char c ++ rest) = cons c <$> json_content rest.
Proof.
  unfold json_char.
  repeat (case_match; [match goal with H : (c =? _)%N = true |- _ => apply N.eqb_eq in H as -> end; done|]).
  destruct (N.ltb_spec c 0x20).
  - cbn [app json_content]. change (backslash =? backslash)%N with true. cbn iota.
    change (simple_json (ch "u")) with (@None char). cbn iota.
    destruct (lower_hex_digit (c / 16)) as [Hd1 Hv1]; [divlia|]. destruct (lower_hex_digit (c mod 16)) as [Hd2 Hv2]; [divlia|].
    cbn [forallb]. rewrite Hd1, Hd2. change (ch "u" =? ch "u")%N with true. change (is_hexdigit (ch "0")) with true. cbn [andb].
    unfold from_hex. cbn [foldl]. rewrite Hv1, Hv2. change (hex_value (ch "0")) with 0%N. f_equal. f_equal. divlia.
  - cbn [app json_content]. repeat match goal with H : (c =? _)%N = false |- _ => rewrite H; clear H end.
    by rewrite (proj2 (N.ltb_ge c 0x20)).
Qed.

(** ** Claims *)

(** Positions of a source: at an offset between characters the position
    has the number of line feeds before it and the number of characters since
    the last, both counted from one, and nothing panics. *)
Theorem position_counts (name : string) (lines line after : chars) :
  valid_text (lines ++ line ++ after) -> whole_lines lines -> one_line_text line ->
  position (new_source name (lines ++ line ++ after)) (width (lines ++ line))
  = Some (mkPosition (Z.of_nat (feeds lines) + 1) (Z.of_nat (length line) + 1) (width (lines ++ line))).
Proof.
  intros V HL H1. unfold position. cbn [source_text line_starts new_source]. pose proof (width_nonneg after).
  rewrite Z.min_l by (rewrite !width_app; lia). by rewrite line_to_spec.
Qed.

(** C39: The editor's positions come back.  Between any two characters but the
    two of a line break, the language server's position of an offset, in lines
    and UTF-16 units, is one its offset is read from, when both fit 32 bits. *)
Theorem index_position_offset (lines line after : chars) :
  valid_text (lines ++ line ++ after) -> whole_lines lines -> one_line_text line -> not_in_break line after ->
  Z.of_nat (feeds lines) < U32 -> utf16_width line < U32 ->
  exists p, index_position (starts_of (lines ++ line ++ after)) (lines ++ line ++ after) (width (lines ++ line)) = Some p
    /\ index_offset (starts_of (lines ++ line ++ after)) (lines ++ line ++ after) p = Some (Ok (width (lines ++ line))).
Proof.
  intros V HL H1 HB HF HU. eexists. split; [by apply index_position_spec|]. unfold index_offset. cbn [lsp_line lsp_character].
  pose proof (utf16_width_nonneg line). rewrite !Z.mod_small by lia. rewrite Nat2Z.id.
  assert (starts_of (lines ++ line ++ after) !! feeds lines = Some (width lines)) as ->.
  { rewrite starts_of_lines by done. rewrite lookup_app_l by (cbn [length]; rewrite line_starts_length; lia).
    rewrite <- (last_start lines HL), last_lookup. cbn [length]. by rewrite line_starts_length. }
  destruct (content_of_line lines line after V HL H1 HB) as (rest & tail & -> & ->).
  rewrite (app_assoc line rest tail), text_get_app.
  pose proof (offset_from_line line rest (width lines) 0 (width lines + width (line ++ rest))) as HO.
  rewrite Z.add_0_l in HO. rewrite HO; [by rewrite width_app|]. intros ->. by rewrite app_nil_r.
Qed.

(** The texts of a rendered diagnostic survive JSON.  Every text it quotes
    is the content of a JSON string literal, and reading the literal gives the
    text back. *)
Theorem escape_json_content (value : chars) : json_content (escape_json value) = Some value.
Proof.
  induction value as [|c value IH]; [done|]. change (escape_json (c :: value)) with (json_char c ++ escape_json value).
  by rewrite json_char_content, IH.
Qed.

(** A text of two lines with a character outside the basic plane. *)
Lemma index_position_offset_witness :
  exists p, index_position (starts_of ([97; 10] ++ [0x1F916; 98] ++ [13; 10])%N) ([97; 10] ++ [0x1F916; 98] ++ [13; 10])%N 7 = Some p
    /\ index_offset (starts_of ([97; 10] ++ [0x1F916; 98] ++ [13; 10])%N) ([97; 10] ++ [0x1F916; 98] ++ [13; 10])%N p = Some (Ok 7).
Proof.
  apply (index_position_offset [97; 10]%N [0x1F916; 98]%N [13; 10]%N).
  - repeat constructor.
  - by right.
  - unfold one_line_text. apply (bool_decide_unpack _). vm_compute. exact I.
  - intros [? ?]. discriminate.
  - vm_compute. reflexivity.
  - vm_compute. reflexivity.
Defined.
