(* ===== verification/DurableOps.v ===== *)
(** * The durable operations of a program

    Models [krit/src/durable.rs]: the calls of durable operations in a
    program, found with an explicit stack of nodes and sorted by their spans;
    and that they are exactly the calls a walk over the tree finds. *)

From S2P Require Import Prelude Syntax.

(** ** Operations *)

Inductive DurableOperationKind : Type :=
| StateGet | StatePut | StateDelete | CheckpointGet | CheckpointPut | ReplayHttp | ReplayAi
| OpQueuePublish | ObjectGet | OpObjectPut | OpObjectDelete
| DatabaseBeginRead | DatabaseBeginWrite | DatabaseQuery | DatabaseExecute | DatabaseCommit | DatabaseRollback
| CacheGet | CachePut | CacheDelete | SearchQuery | VectorSearch.

Definition operation_str (kind : DurableOperationKind) : string :=
  match kind with
  | StateGet => "state-get" | StatePut => "state-put" | StateDelete => "state-delete"
  | CheckpointGet => "checkpoint-get" | CheckpointPut => "checkpoint-put"
  | ReplayHttp => "replay-http" | ReplayAi => "replay-ai" | OpQueuePublish => "queue-publish"
  | ObjectGet => "object-get" | OpObjectPut => "object-put" | OpObjectDelete => "object-delete"
  | DatabaseBeginRead => "database-begin-read" | DatabaseBeginWrite => "database-begin-write"
  | DatabaseQuery => "database-query" | DatabaseExecute => "database-execute"
  | DatabaseCommit => "database-commit" | DatabaseRollback => "database-rollback"
  | CacheGet => "cache-get" | CachePut => "cache-put" | CacheDelete => "cache-delete"
  | SearchQuery => "search-query" | VectorSearch => "vector-search"
  end.

Record DurableOperationFact : Type := mkDurableOperationFact {
  fact_kind : DurableOperationKind;
  fact_store : option string;
  fact_identity : option string;
  external_capability : option string;
  external_resource : option string;
  fact_span : Span;
}.

Definition transaction_operation_kind (name : string) : option DurableOperationKind :=
  if bool_decide (name = "db_query") then Some DatabaseQuery
  else if bool_decide (name = "db_execute") then Some DatabaseExecute
  else if bool_decide (name = "db_commit") then Some DatabaseCommit
  else if bool_decide (name = "db_rollback") then Some DatabaseRollback
  else None.

Definition string_argument (arguments : list Expression) (index : nat) : option string :=
  match arguments !! index with
  | Some (mkExpression (ELiteral (LString value)) _) => Some value
  | _ => None
  end.

(** Operations whose second argument names what they act on. *)
Definition identified_kind (name : string) : option DurableOperationKind :=
  if bool_decide (name = "state_get") then Some StateGet
  else if bool_decide (name = "state_put") then Some StatePut
  else if bool_decide (name = "state_delete") then Some StateDelete
  else if bool_decide (name = "checkpoint_get") then Some CheckpointGet
  else if bool_decide (name = "checkpoint_put") then Some CheckpointPut
  else if bool_decide (name = "object_get") then Some ObjectGet
  else if bool_decide (name = "object_put") then Some OpObjectPut
  else if bool_decide (name = "object_delete") then Some OpObjectDelete
  else if bool_decide (name = "cache_get") then Some CacheGet
  else if bool_decide (name = "cache_put") then Some CachePut
  else if bool_decide (name = "cache_delete") then Some CacheDelete
  else None.

(** Operations that call a capability of the host, recorded for replay. *)
Definition replay_kind (name : string) : option (DurableOperationKind * string) :=
  if bool_decide (name = "replay_http") then Some (ReplayHttp, "http.request")
  else if bool_decide (name = "replay_ai") then Some (ReplayAi, "ai.invoke")
  else None.

(** Operations of which only the resource is named. *)
Definition plain_kind (name : string) : option DurableOperationKind :=
  if bool_decide (name = "queue_publish") then Some OpQueuePublish
  else if bool_decide (name = "search_query") then Some SearchQuery
  else if bool_decide (name = "vector_search") then Some VectorSearch
  else if bool_decide (name = "db_begin_read") then Some DatabaseBeginRead
  else if bool_decide (name = "db_begin_write") then Some DatabaseBeginWrite
  else None.

Definition operation_fact (name : string) (arguments : list Expression) (span : Span)
  : option DurableOperationFact :=
  match transaction_operation_kind name with
  | Some kind => Some (mkDurableOperationFact kind None (string_argument arguments 1) None None span)
  | None =>
      match string_argument arguments 0 with
      | None => None
      | Some store =>
          match identified_kind name, replay_kind name, plain_kind name with
          | Some kind, _, _ =>
              Some (mkDurableOperationFact kind (Some store) (string_argument arguments 1) None None span)
          | None, Some (kind, capability), _ =>
              Some (mkDurableOperationFact kind (Some store) (string_argument arguments 1) (Some capability)
                      (string_argument arguments 2) span)
          | None, None, Some kind => Some (mkDurableOperationFact kind (Some store) None None None span)
          | None, None, None => None
          end
      end
  end.

(** ** Collecting *)

Inductive Pending : Type :=
| PendingStatement (s : Statement)
| PendingBlock (b : Block)
| PendingExpression (e : Expression).

(** The nodes below an expression, in the order they are pushed. *)
Definition expression_children (e : Expression) : list Pending :=
  match expression_kind e with
  | ELiteral _ | EUnit | EVariable _ => []
  | EInterpolation parts =>
      omap (fun part => match part with PartHole value _ => Some (PendingExpression value) | PartText _ _ => None end) parts
  | EList elements => map PendingExpression elements
  | ERecord fields => map (fun '(mkRecordField _ value _) => PendingExpression value) fields
  | EConstruct _ _ fields => map (fun '(mkConstructField _ _ value _) => PendingExpression value) fields
  | EEntryList entries =>
      flat_map (fun '(mkListEntry key value _) => [PendingExpression key; PendingExpression value]) entries
  | EFieldAccess value _ => [PendingExpression value]
  | EBlock block => [PendingBlock block]
  | EIf condition consequent alternative =>
      [PendingExpression condition; PendingBlock consequent; PendingExpression alternative]
  | EFunction _ _ body => [PendingBlock body]
  | ECall callee arguments => PendingExpression callee :: map PendingExpression arguments
  | EMatch subject arms =>
      PendingExpression subject :: map (fun '(mkMatchArm _ value _) => PendingExpression value) arms
  | EUnary _ operand | EPropagate operand _ => [PendingExpression operand]
  | EBinary lhs _ rhs => [PendingExpression lhs; PendingExpression rhs]
  end.

Definition children (node : Pending) : list Pending :=
  match node with
  | PendingStatement (mkStatement kind _) =>
      match kind with
      | SLet _ _ value => [PendingExpression value]
      | SLetElse _ _ value _ (mkVariantArm _ _ fallback _) => [PendingExpression value; PendingExpression fallback]
      | SFunction _ _ _ body _ | SWebhook _ _ _ body _ | SQueueConsumer _ _ _ _ _ body _
      | SScheduleHandler _ _ _ _ _ body _ => [PendingBlock body]
      | SExpression e => [PendingExpression e]
      end
  | PendingBlock (mkBlock statements tail _) =>
      map PendingStatement statements ++ match tail with Some e => [PendingExpression e] | None => [] end
  | PendingExpression e => expression_children e
  end.

(** The operation an expression calls itself. *)
Definition call_fact (e : Expression) : list DurableOperationFact :=
  match e with
  | mkExpression (ECall (mkExpression (EVariable name) _) arguments) span =>
      match operation_fact name arguments span with Some fact => [fact] | None => [] end
  | _ => []
  end.

Definition node_fact (node : Pending) : list DurableOperationFact :=
  match node with PendingExpression e => call_fact e | _ => [] end.

(** The loop over the stack, whose top is first: a popped node's children are
    pushed in order, so the last is popped next. *)
Fixpoint collect_loop (fuel : nat) (pending : list Pending) (facts : list DurableOperationFact)
  : option (list DurableOperationFact) :=
  match pending with
  | [] => Some facts
  | node :: pending =>
      match fuel with
      | O => None
      | S fuel => collect_loop fuel (reverse (children node) ++ pending) (facts ++ node_fact node)
      end
  end.

(** The derived order of spans. *)
Definition span_le (a b : Span) : Prop :=
  span_start a < span_start b \/ span_start a = span_start b /\ span_end a <= span_end b.
#[export] Instance span_le_dec a b : Decision (span_le a b).
Proof. unfold span_le. apply _. Defined.

(** [sort_by_key] by the span, which is stable. *)
Fixpoint insert_fact (fact : DurableOperationFact) (facts : list DurableOperationFact) : list DurableOperationFact :=
  match facts with
  | [] => [fact]
  | next :: facts =>
      if decide (span_le (fact_span fact) (fact_span next)) then fact :: next :: facts
      else next :: insert_fact fact facts
  end.
Definition sort_facts (facts : list DurableOperationFact) : list DurableOperationFact := foldr insert_fact [] facts.

Definition total (sizes : list nat) : nat := foldr Nat.add 0%nat sizes.

(** The nodes of a tree, as many as the loop pops. *)
Fixpoint expression_size (e : Expression) : nat :=
  match e with
  | mkExpression kind _ =>
      S match kind with
        | ELiteral _ | EUnit | EVariable _ => 0
        | EInterpolation parts =>
            total (map (fun part => match part with PartHole value _ => expression_size value | PartText _ _ => 0%nat end) parts)
        | EList elements => total (map expression_size elements)
        | ERecord fields => total (map (fun '(mkRecordField _ value _) => expression_size value) fields)
        | EConstruct _ _ fields => total (map (fun '(mkConstructField _ _ value _) => expression_size value) fields)
        | EEntryList entries =>
            total (map (fun '(mkListEntry key value _) => expression_size key + expression_size value)%nat entries)
        | EFieldAccess value _ => expression_size value
        | EBlock block => block_size block
        | EIf condition consequent alternative =>
            expression_size condition + block_size consequent + expression_size alternative
        | EFunction _ _ body => block_size body
        | ECall callee arguments => expression_size callee + total (map expression_size arguments)
        | EMatch subject arms =>
            expression_size subject + total (map (fun '(mkMatchArm _ value _) => expression_size value) arms)
        | EUnary _ operand | EPropagate operand _ => expression_size operand
        | EBinary lhs _ rhs => expression_size lhs + expression_size rhs
        end
  end
with block_size (b : Block) : nat :=
  match b with
  | mkBlock statements tail _ =>
      S (total (map statement_size statements) + match tail with Some e => expression_size e | None => 0 end)
  end
with statement_size (s : Statement) : nat :=
  match s with
  | mkStatement kind _ =>
      S match kind with
        | SLet _ _ value => expression_size value
        | SLetElse _ _ value _ (mkVariantArm _ _ fallback _) => expression_size value + expression_size fallback
        | SFunction _ _ _ body _ | SWebhook _ _ _ body _ | SQueueConsumer _ _ _ _ _ body _
        | SScheduleHandler _ _ _ _ _ body _ => block_size body
        | SExpression e => expression_size e
        end
  end.

Definition program_size (p : Program) : nat := total (map statement_size (program_statements p)).

Definition durable_operations (p : Program) : option (list DurableOperationFact) :=
  sort_facts <$> collect_loop (program_size p) (reverse (map PendingStatement (program_statements p))) [].

(** ** A walk over the tree *)

Fixpoint expression_calls (e : Expression) : list DurableOperationFact :=
  call_fact e ++
  match e with
  | mkExpression kind _ =>
      match kind with
      | ELiteral _ | EUnit | EVariable _ => []
      | EInterpolation parts =>
          flat_map (fun part => match part with PartHole value _ => expression_calls value | PartText _ _ => [] end) parts
      | EList elements => flat_map expression_calls elements
      | ERecord fields => flat_map (fun '(mkRecordField _ value _) => expression_calls value) fields
      | EConstruct _ _ fields => flat_map (fun '(mkConstructField _ _ value _) => expression_calls value) fields
      | EEntryList entries =>
          flat_map (fun '(mkListEntry key value _) => expression_calls key ++ expression_calls value) entries
      | EFieldAccess value _ => expression_calls value
      | EBlock block => block_calls block
      | EIf condition consequent alternative =>
          expression_calls condition ++ block_calls consequent ++ expression_calls alternative
      | EFunction _ _ body => block_calls body
      | ECall callee arguments => expression_calls callee ++ flat_map expression_calls arguments
      | EMatch subject arms =>
          expression_calls subject ++ flat_map (fun '(mkMatchArm _ value _) => expression_calls value) arms
      | EUnary _ operand | EPropagate operand _ => expression_calls operand
      | EBinary lhs _ rhs => expression_calls lhs ++ expression_calls rhs
      end
  end
with block_calls (b : Block) : list DurableOperationFact :=
  match b with
  | mkBlock statements tail _ =>
      flat_map statement_calls statements ++ match tail with Some e => expression_calls e | None => [] end
  end
with statement_calls (s : Statement) : list DurableOperationFact :=
  match s with
  | mkStatement kind _ =>
      match kind with
      | SLet _ _ value => expression_calls value
      | SLetElse _ _ value _ (mkVariantArm _ _ fallback _) => expression_calls value ++ expression_calls fallback
      | SFunction _ _ _ body _ | SWebhook _ _ _ body _ | SQueueConsumer _ _ _ _ _ body _
      | SScheduleHandler _ _ _ _ _ body _ => block_calls body
      | SExpression e => expression_calls e
      end
  end.

Definition program_calls (p : Program) : list DurableOperationFact := flat_map statement_calls (program_statements p).

Definition node_calls (node : Pending) : list DurableOperationFact :=
  match node with
  | PendingStatement s => statement_calls s
  | PendingBlock b => block_calls b
  | PendingExpression e => expression_calls e
  end.
Definition node_size (node : Pending) : nat :=
  match node with
  | PendingStatement s => statement_size s
  | PendingBlock b => block_size b
  | PendingExpression e => expression_size e
  end.

(** ** The loop finds what the walk finds *)

Lemma flat_map_map {A B C} (f : B -> list C) (g : A -> B) l : flat_map f (map g l) = flat_map (fun a => f (g a)) l.
Proof. induction l as [|a l IH]; [done|]. cbn. by rewrite IH. Qed.

Lemma node_calls_children node : node_calls node = node_fact node ++ flat_map node_calls (children node).
Proof.
  destruct node as [[kind span]|[statements tail span]|[kind span]]; cbn [node_calls node_fact children app].
  - destruct kind as [| ? ? ? ? []| | | | |]; cbn; by rewrite ?app_nil_r.
  - cbn [block_calls]. rewrite flat_map_app, flat_map_map. f_equal. destruct tail; cbn; by rewrite ?app_nil_r.
  - cbn [expression_calls]. f_equal. unfold expression_children. cbn [expression_kind].
    destruct kind; cbn [flat_map node_calls]; rewrite ?flat_map_map, ?app_nil_r; try done.
    + induction parts as [|[] parts IH]; cbn; [done|exact IH|]. by rewrite <- IH.
    + induction entries as [|[] entries IH]; cbn; [done|]. by rewrite <- IH, <- app_assoc.
    + induction fields as [|[] fields IH]; cbn; [done|]. by rewrite <- IH.
    + induction fields as [|[] fields IH]; cbn; [done|]. by rewrite <- IH.
    + f_equal. induction arms as [|[] arms IH]; cbn; [done|]. by rewrite <- IH.
Qed.

Lemma total_app a b : total (a ++ b) = (total a + total b)%nat.
Proof. unfold total. induction a as [|n a IH]; cbn; [done|]. rewrite IH. lia. Qed.

Lemma node_size_children node : node_size node = S (total (map node_size (children node))).
Proof.
  destruct node as [[kind span]|[statements tail span]|[kind span]]; cbn [node_size children].
  - destruct kind as [| ? ? ? ? []| | | | |]; cbn; lia.
  - cbn [block_size]. rewrite map_app, total_app, map_map. f_equal. f_equal. destruct tail; cbn; lia.
  - cbn [expression_size]. f_equal. unfold expression_children. cbn [expression_kind].
    destruct kind; cbn [map node_size]; rewrite ?map_map; try (cbn; lia); try done.
    + induction parts as [|[] parts IH]; [done|exact IH|exact (f_equal (Nat.add _) IH)].
    + induction entries as [|[] entries IH]; [done|].
      etransitivity; [exact (f_equal (Nat.add _) IH)|]. exact (eq_sym (Nat.add_assoc _ _ _)).
    + induction fields as [|[] fields IH]; [done|exact (f_equal (Nat.add _) IH)].
    + induction fields as [|[] fields IH]; [done|exact (f_equal (Nat.add _) IH)].
    + apply (f_equal (Nat.add _)). induction arms as [|[] arms IH]; [done|exact (f_equal (Nat.add _) IH)].
Qed.

Lemma total_cons n sizes : total (n :: sizes) = (n + total sizes)%nat.
Proof. done. Qed.

Lemma total_perm a b : a ≡ₚ b -> total a = total b.
Proof. unfold total. induction 1; cbn; lia. Qed.

Lemma collect_loop_finds fuel : forall pending facts, (total (map node_size pending) <= fuel)%nat ->
  exists found, collect_loop fuel pending facts = Some found /\ found ≡ₚ facts ++ flat_map node_calls pending.
Proof.
  induction fuel as [|fuel IH]; intros [|node pending] facts Hf; cbn [collect_loop].
  1, 3: exists facts; split; [done|]; cbn; by rewrite app_nil_r.
  - cbn [map] in Hf. rewrite total_cons, node_size_children in Hf. lia.
  - destruct (IH (reverse (children node) ++ pending) (facts ++ node_fact node)) as (found & -> & HP).
    + rewrite map_app, total_app. rewrite (total_perm _ (map node_size (children node))) by by rewrite reverse_Permutation.
      cbn [map] in Hf. rewrite total_cons, node_size_children in Hf. lia.
    + exists found. split; [done|]. rewrite HP. cbn [flat_map]. rewrite node_calls_children, flat_map_app.
      rewrite (Permutation_flat_map _ (reverse_Permutation (children node))). by rewrite <- !app_assoc.
Qed.

Lemma insert_fact_perm fact facts : insert_fact fact facts ≡ₚ fact :: facts.
Proof.
  induction facts as [|next facts IH]; cbn; [done|]. case_decide; [done|]. rewrite IH. apply Permutation_swap.
Qed.

Lemma sort_facts_perm facts : sort_facts facts ≡ₚ facts.
Proof. induction facts as [|fact facts IH]; cbn; [done|]. by rewrite insert_fact_perm, IH. Qed.

Lemma insert_fact_sorted fact facts : StronglySorted span_le (map fact_span facts) ->
  StronglySorted span_le (map fact_span (insert_fact fact facts)).
Proof.
  induction facts as [|next facts IH]; cbn; intros HS; [by repeat constructor|]. inversion_clear HS as [|? ? HS' HF].
  case_decide as Hd; cbn.
  - constructor; [by constructor|]. constructor; [done|]. eapply Forall_impl; [exact HF|]. unfold span_le in *. cbn. lia.
  - constructor; [by apply IH|]. rewrite insert_fact_perm. cbn. constructor; [|done]. unfold span_le in *. lia.
Qed.

Lemma sort_facts_sorted facts : StronglySorted span_le (map fact_span (sort_facts facts)).
Proof. induction facts as [|fact facts IH]; cbn; [constructor|]. by apply insert_fact_sorted. Qed.

(** ** Claims *)

(** C38: The durable operations of a program.  The collection ends and reports
    each call of a durable operation anywhere in the program exactly once, and
    nothing else, in the order of their spans. *)
Theorem durable_operations_exact (p : Program) :
  exists facts, durable_operations p = Some facts /\ facts ≡ₚ program_calls p
    /\ StronglySorted span_le (map fact_span facts).
Proof.
  unfold durable_operations.
  destruct (collect_loop_finds (program_size p) (reverse (map PendingStatement (program_statements p))) []) as (found & -> & HP).
  - rewrite (total_perm _ (map node_size (map PendingStatement (program_statements p)))) by by rewrite reverse_Permutation.
    by rewrite map_map.
  - eexists. split; [done|]. split; [|apply sort_facts_sorted]. rewrite sort_facts_perm, HP. cbn [app].
    rewrite (Permutation_flat_map _ (reverse_Permutation _)). by rewrite flat_map_map.
Qed.
