(* ===== verification/Manifest.v ===== *)
(** * Package manifests

    Models [krit-package/src/lib.rs]: a manifest, its validation, the secrets
    it binds to origins, the permissions it requests, and their reports.  A
    manifest is what [toml] read: its dependencies are given by their names,
    the license by its characters and the entry path by its text.  Paths are
    those of Unix.  The URL parser and the version parser are parameters;
    reading the file and resolving the entry on disk are not modelled. *)

From S2P Require Import Prelude BTree Sorting Capability Syntax Tokens.

(** ** Data *)

Inductive SecretInjection : Type := Bearer.
Definition injection_str (inject : SecretInjection) : string := match inject with Bearer => "bearer" end.

Record SecretBinding : Type := mkSecretBinding {
  bound_origins : list string;
  bound_inject : SecretInjection;
}.

Inductive SecretBindingStatus : Type := Bound | Unbound.

Record SecretBindingFact : Type := mkSecretBindingFact {
  fact_secret : string;
  fact_inject : SecretInjection;
  fact_binding : SecretBindingStatus;
  fact_origins : list string;
}.

Definition UNBOUND_SECRET_LABEL : string := "UNBOUND (any granted origin)".

Record Package : Type := mkPackage {
  package_name : string;
  package_version : string;
  package_edition : string;
  package_entry : string;
  package_license : chars;
  package_target : string;
}.

Record Capabilities : Type := mkCapabilities {
  stdout : bool;
  config : list string;
  http : list string;
  secrets : list string;
  ai : list string;
  logs : bool;
  state : list string;
  queues : list string;
  consumes : list string;
  schedules : list string;
  buckets : list string;
  read_only_buckets : list string;
  databases : list string;
  read_only_databases : list string;
  cache_namespaces : list string;
  read_only_cache_namespaces : list string;
  search_indexes : list string;
  vector_indexes : list string;
}.

Record Manifest : Type := mkManifest {
  manifest_schema : Z;
  package : Package;
  dependencies : list string;
  capabilities : Capabilities;
  secret_tables : btree string SecretBinding;
}.

Record PermissionRequest : Type := mkPermission {
  capability : string;
  resource : option string;
}.

(** The derived order: by capability, then by resource, none first. *)
#[export] Instance Cmp_PermissionRequest : Cmp PermissionRequest :=
  fun a b => cmp (capability a, resource a) (capability b, resource b).
#[export] Instance CmpOk_PermissionRequest : CmpOk PermissionRequest.
Proof.
  split; unfold cmp, Cmp_PermissionRequest.
  - intros [c r] [c' r']. rewrite cmp_eq_iff. cbn. naive_solver.
  - intros a b. apply cmp_antisym.
  - intros a b c. apply cmp_trans.
Qed.
#[export] Instance PermissionRequest_eq_dec : EqDecision PermissionRequest.
Proof. solve_decision. Defined.

Record PermissionPlan : Type := mkPermissionPlan {
  plan_schema : Z;
  plan_package : string;
  plan_requested : list PermissionRequest;
  plan_secret_bindings : list SecretBindingFact;
  grant_status : string;
}.

Record ManifestError : Type := mkManifestError {
  manifest_code : string;
  manifest_message : string;
}.
Definition manifest_error (message : string) : ManifestError := mkManifestError "K6001" message.
Definition unsupported_dependencies : ManifestError :=
  mkManifestError "K6003" "dependency resolution is not supported; remove [dependencies]".

(** ** Checks *)

(** [for value in values { check(value)?; }]. *)
Fixpoint check_each {A E} (check : A -> result unit E) (values : list A) : result unit E :=
  match values with
  | [] => Ok tt
  | value :: values => let? _ := check value in check_each check values
  end.

Definition string_eqb (a b : string) : bool := bool_decide (a = b).
Definition string_ge (a b : string) : bool := match cmp a b with Lt => false | _ => true end.

Definition valid_name_segment (segment : bytes) : bool :=
  negb (starts_with ["-"%char] segment) && negb (ends_with ["-"%char] segment)
  && forallb (fun b => is_ascii_lowercase b || is_ascii_digit b || byte_eqb b "-") segment.

Definition validate_package_name (name : string) : result unit ManifestError :=
  match split_by (byte_eqb "/") (bytes_of name) with
  | [] => Err (manifest_error ("package name `" +:+ name +:+ "` must be `namespace/name`"))
  | namespace :: segments =>
      let package := hd [] segments in
      if bool_decide (namespace = []) || bool_decide (package = []) || bool_decide (tl segments <> []) then
        Err (manifest_error ("package name `" +:+ name +:+ "` must be `namespace/name`"))
      else if negb (valid_name_segment namespace) || negb (valid_name_segment package) then
        Err (manifest_error ("package name `" +:+ name
               +:+ "` may contain lowercase ASCII letters, digits, and `-`"))
      else Ok tt
  end.

(** The components of a path: empty pieces are skipped, and so is a [.] that
    is not the first. *)
Inductive Component : Type := RootDir | CurDir | ParentDir | NormalName (name : bytes).

#[export] Instance Component_eq_dec : EqDecision Component.
Proof. solve_decision. Defined.

Definition piece_component (first : bool) (piece : bytes) : option Component :=
  if bool_decide (piece = []) then (if first then Some RootDir else None)
  else if bool_decide (piece = bytes_of ".") then (if first then Some CurDir else None)
  else if bool_decide (piece = bytes_of "..") then Some ParentDir
  else Some (NormalName piece).

Definition components (path : string) : list Component :=
  match bytes_of path with
  | [] => []
  | text =>
      match split_by (byte_eqb "/") text with
      | [] => []
      | first :: pieces =>
          from_option (fun c => [c]) [] (piece_component true first) ++ omap (piece_component false) pieces
      end
  end.

Definition is_normal (c : Component) : bool := match c with NormalName _ => true | _ => false end.

(** The part of a file name after its last dot, unless that dot is first. *)
Definition file_extension (name : bytes) : option bytes :=
  let other b := negb (byte_eqb b ".") in
  match drop_while other (reverse name) with
  | [] => None
  | _ :: before => if bool_decide (before = []) then None else Some (reverse (take_while other (reverse name)))
  end.

Definition path_extension (path : string) : option bytes :=
  match last (components path) with
  | Some (NormalName name) => file_extension name
  | _ => None
  end.

Definition validate_entry_path (path : string) : result unit ManifestError :=
  if bool_decide (path = "") || existsb (byte_eqb "\") (bytes_of path)
     || starts_with ["/"%char] (bytes_of path)
     || existsb (fun c => negb (is_normal c)) (components path) then
    Err (manifest_error "package entry must be a package-relative path without `.` or `..`")
  else if negb (bool_decide (path_extension path = Some (bytes_of "krit"))) then
    Err (manifest_error "package entry must have the `.krit` extension")
  else Ok tt.

Definition validate_unique_names (kind : string) (values : list string) : result unit ManifestError :=
  match find_pair string_eqb (sort values) with
  | Some (duplicate, _) => Err (manifest_error ("duplicate " +:+ kind +:+ " `" +:+ duplicate +:+ "`"))
  | None => Ok tt
  end.

Definition validate_sorted_unique_names (kind : string) (values : list string) : result unit ManifestError :=
  match find_pair string_ge values with
  | Some (first, second) =>
      Err (manifest_error
             (if string_eqb first second then "duplicate " +:+ kind +:+ " `" +:+ first +:+ "`"
              else kind +:+ " entries must be sorted and unique"))
  | None => Ok tt
  end.

Definition validate_capability_count (kind : string) (values : list string) : result unit ManifestError :=
  if 256 <? Z.of_nat (length values) then
    Err (manifest_error ("too many " +:+ kind +:+ " entries; maximum is 256"))
  else Ok tt.

Definition validate_manifest_name (kind name : string) : result unit ManifestError :=
  if negb (is_valid_resource_name (bytes_of name)) then
    Err (manifest_error (kind +:+ " `" +:+ name
           +:+ "` must use 1-64 lowercase letters, digits, `.` or `-`, without leading/trailing punctuation or `..`/`--`"))
  else Ok tt.

Definition validate_config_key (name : string) : result unit ManifestError :=
  if negb (is_valid_config_key (bytes_of name)) then
    Err (manifest_error ("configuration key `" +:+ name
           +:+ "` must use 1-64 lowercase letters, digits, `.`, `-`, or `_`, without leading/trailing punctuation or `..`/`--`/`__`"))
  else Ok tt.

(** ** Secrets and permissions *)

Definition secret_names (m : Manifest) : list string :=
  dedup string_eqb (sort (secrets (capabilities m) ++ bt_keys (secret_tables m))).

Definition secret_fact (m : Manifest) (secret : string) : SecretBindingFact :=
  match bt_get secret (secret_tables m) with
  | Some binding => mkSecretBindingFact secret (bound_inject binding) Bound (sort (bound_origins binding))
  | None => mkSecretBindingFact secret Bearer Unbound []
  end.

Definition secret_bindings (m : Manifest) : list SecretBindingFact := map (secret_fact m) (secret_names m).

Definition requests (capability : string) (names : list string) : list PermissionRequest :=
  map (fun resource => mkPermission capability (Some resource)) names.

Definition plan_requests (m : Manifest) : list PermissionRequest :=
  let c := capabilities m in
  (if stdout c then [mkPermission "io.stdout" None] else [])
  ++ requests "config.read" (config c)
  ++ requests "http.request" (http c)
  ++ requests "secret.read" (secret_names m)
  ++ requests "ai.invoke" (ai c)
  ++ (if logs c then [mkPermission "observe.log" None] else [])
  ++ requests "state.transaction" (state c)
  ++ flat_map (fun '(capability, names) => requests capability names)
       [("queue.publish", queues c); ("queue.consume", consumes c); ("schedule.trigger", schedules c);
        ("object.write", buckets c); ("database.write", databases c); ("cache.write", cache_namespaces c);
        ("search.query", search_indexes c); ("search.vector", vector_indexes c)]
  ++ requests "object.read" (buckets c ++ read_only_buckets c)
  ++ requests "database.read" (databases c ++ read_only_databases c)
  ++ requests "cache.read" (cache_namespaces c ++ read_only_cache_namespaces c).

Definition permission_plan (m : Manifest) : PermissionPlan :=
  mkPermissionPlan 1 (package_name (package m)) (sort (plan_requests m)) (secret_bindings m) "not-evaluated".

(** [resource.is_some_and(|resource| names.iter().any(|granted| granted == resource))]. *)
Definition names_resource (resource : option string) (names : list string) : bool :=
  match resource with Some resource => existsb (string_eqb resource) names | None => false end.

Definition grants_permission (m : Manifest) (capability : string) (resource : option string) : bool :=
  let c := capabilities m in
  let on name := string_eqb capability name in
  if on "io.stdout" then negb (is_some resource) && stdout c
  else if on "config.read" then names_resource resource (config c)
  else if on "http.request" then names_resource resource (http c)
  else if on "secret.read" then
    match resource with
    | Some resource =>
        existsb (string_eqb resource) (secrets c) || is_some (bt_get resource (secret_tables m))
    | None => false
    end
  else if on "ai.invoke" then names_resource resource (ai c)
  else if on "observe.log" then negb (is_some resource) && logs c
  else if on "state.transaction" then names_resource resource (state c)
  else if on "queue.publish" then names_resource resource (queues c)
  else if on "queue.consume" then names_resource resource (consumes c)
  else if on "schedule.trigger" then names_resource resource (schedules c)
  else if on "object.write" then names_resource resource (buckets c)
  else if on "object.read" then names_resource resource (buckets c ++ read_only_buckets c)
  else if on "database.write" then names_resource resource (databases c)
  else if on "database.read" then names_resource resource (databases c ++ read_only_databases c)
  else if on "cache.write" then names_resource resource (cache_namespaces c)
  else if on "cache.read" then names_resource resource (cache_namespaces c ++ read_only_cache_namespaces c)
  else if on "search.query" then names_resource resource (search_indexes c)
  else if on "search.vector" then names_resource resource (vector_indexes c)
  else false.

Definition manifest_permits_bearer (m : Manifest) (secret origin : string) : bool :=
  grants_permission m "secret.read" (Some secret) && grants_permission m "http.request" (Some origin)
  && match bt_get secret (secret_tables m) with
     | None => true
     | Some binding => existsb (string_eqb origin) (bound_origins binding)
     end.

(** ** Reports *)

Definition newline_text : string := String "010" EmptyString.
Definition resource_text (resource : option string) : string :=
  match resource with Some resource => ": " +:+ resource | None => "" end.
Definition request_line (request : PermissionRequest) : string :=
  "  " +:+ capability request +:+ resource_text (resource request) +:+ newline_text.

Definition binding_line (binding : SecretBindingFact) : string :=
  "  " +:+ fact_secret binding +:+ " (" +:+ injection_str (fact_inject binding) +:+ "): "
  +:+ match fact_binding binding with
      | Bound => String.concat ", " (fact_origins binding)
      | Unbound => UNBOUND_SECRET_LABEL
      end +:+ newline_text.

Definition render_secret_bindings (output : string) (bindings : list SecretBindingFact) : string :=
  match bindings with
  | [] => output
  | _ => output +:+ "Secret bindings:" +:+ newline_text +:+ String.concat "" (map binding_line bindings)
  end.

Definition render_plan (plan : PermissionPlan) : string :=
  let output := "Requested capabilities for " +:+ plan_package plan +:+ ":" +:+ newline_text in
  let output := output +:+ match plan_requested plan with
                           | [] => "  (none)" +:+ newline_text
                           | requested => String.concat "" (map request_line requested)
                           end in
  render_secret_bindings output (plan_secret_bindings plan)
  +:+ "Deployment grants: not evaluated" +:+ newline_text.

(** ** Validation *)

Section Validation.
Context (url_parse : string -> option Url).
(** What [semver::Version::parse] reports of a text it refuses. *)
Context (version_error : string -> option string).

Definition validate_http_origin (origin : string) : result unit ManifestError :=
  match parse_exact url_parse origin with
  | Ok _ => Ok tt
  | Err error => Err (manifest_error ("invalid HTTP origin `" +:+ origin +:+ "`: " +:+ origin_message error))
  end.

(** The origins of one binding, with those already [seen]. *)
Fixpoint validate_binding (m : Manifest) (name : string) (seen origins : list string) : result unit ManifestError :=
  match origins with
  | [] => Ok tt
  | origin :: origins =>
      let? _ := validate_http_origin origin in
      if existsb (string_eqb origin) seen then
        Err (manifest_error ("secret `" +:+ name +:+ "` binds origin `" +:+ origin +:+ "` more than once"))
      else if negb (existsb (string_eqb origin) (http (capabilities m))) then
        Err (manifest_error ("secret `" +:+ name +:+ "` is bound to origin `" +:+ origin
               +:+ "`, which is not a granted `http` origin"))
      else validate_binding m name (seen ++ [origin]) origins
  end.

Definition validate_secret_bindings (m : Manifest) : result unit ManifestError :=
  let? _ := validate_capability_count "secret name" (secret_names m) in
  check_each (fun '(name, binding) =>
    let? _ := validate_manifest_name "secret name" name in
    if bool_decide (bound_origins binding = []) then
      Err (manifest_error ("secret `" +:+ name +:+ "` must bind at least one origin"))
    else validate_binding m name [] (bound_origins binding)) (secret_tables m).

Definition validate_sorted_resources (label : string) (names : list string) : result unit ManifestError :=
  let? _ := validate_sorted_unique_names label names in
  let? _ := validate_capability_count label names in
  check_each (validate_manifest_name label) names.

(** A name of the first list may not be in the second. *)
Definition validate_authority (label : string) (read_only names : list string) : result unit ManifestError :=
  check_each (fun name =>
    if existsb (string_eqb name) names then
      Err (manifest_error (label +:+ " `" +:+ name +:+ "` cannot request both read-only and write authority"))
    else Ok tt) read_only.

Definition validate_package (m : Manifest) : result unit ManifestError :=
  let p := package m in
  if negb (manifest_schema m =? 1) then
    Err (manifest_error ("unsupported manifest schema " +:+ decimal (manifest_schema m) +:+ "; expected 1"))
  else
    let? _ := validate_package_name (package_name p) in
    match version_error (package_version p) with
    | Some error =>
        Err (manifest_error ("invalid package version `" +:+ package_version p +:+ "`: " +:+ error))
    | None =>
        if negb (string_eqb (package_edition p) "2026") then
          Err (manifest_error ("unsupported Krit edition `" +:+ package_edition p +:+ "`; expected `2026`"))
        else
          let? _ := validate_entry_path (package_entry p) in
          if negb (string_eqb (package_target p) "wasm-component") then
            Err (manifest_error ("unsupported package target `" +:+ package_target p
                   +:+ "`; expected `wasm-component`"))
          else if bool_decide (trim_end (trim_start (package_license p)) = []) then
            Err (manifest_error "package license cannot be empty")
          else if negb (bool_decide (dependencies m = [])) then Err unsupported_dependencies
          else Ok tt
    end.

Definition validate_manifest (m : Manifest) : result unit ManifestError :=
  let c := capabilities m in
  let? _ := validate_package m in
  let? _ := validate_unique_names "configuration key" (config c) in
  let? _ := validate_capability_count "configuration key" (config c) in
  let? _ := check_each validate_config_key (config c) in
  let? _ := validate_unique_names "HTTP origin" (http c) in
  let? _ := validate_capability_count "HTTP origin" (http c) in
  let? _ := check_each validate_http_origin (http c) in
  let? _ := validate_unique_names "secret name" (secrets c) in
  let? _ := validate_capability_count "secret name" (secrets c) in
  let? _ := check_each (validate_manifest_name "secret name") (secrets c) in
  let? _ := validate_secret_bindings m in
  let? _ := validate_sorted_resources "AI adapter" (ai c) in
  let? _ := validate_sorted_resources "durable state store" (state c) in
  let? _ := check_each (fun '(label, names) => validate_sorted_resources label names)
    [("durable queue", queues c); ("durable queue consumer", consumes c); ("durable schedule", schedules c);
     ("object bucket", buckets c); ("read-only object bucket", read_only_buckets c);
     ("application database", databases c); ("read-only application database", read_only_databases c);
     ("cache namespace", cache_namespaces c); ("read-only cache namespace", read_only_cache_namespaces c);
     ("search index", search_indexes c); ("vector index", vector_indexes c)] in
  let? _ := validate_authority "object bucket" (read_only_buckets c) (buckets c) in
  let? _ := validate_authority "application database" (read_only_databases c) (databases c) in
  validate_authority "cache namespace" (read_only_cache_namespaces c) (cache_namespaces c).
End Validation.

(** * What a validated manifest is

    The checks of [validate_manifest] are exactly the conditions
    [manifest_ok]: unique or sorted names of the grammar, at most 256 of a
    kind, exact origins, secrets bound to granted origins, and no resource
    requested both read-only and writable. *)

Lemma string_eqb_iff a b : string_eqb a b = true <-> a = b.
Proof. apply bool_decide_eq_true. Qed.

Lemma existsb_string_eqb s l : existsb (string_eqb s) l = true <-> s ∈ l.
Proof.
  rewrite existsb_exists. setoid_rewrite string_eqb_iff. setoid_rewrite <- list_elem_of_In. naive_solver.
Qed.

Lemma existsb_string_eqb_false s l : existsb (string_eqb s) l = false <-> s ∉ l.
Proof. rewrite <- existsb_string_eqb. by rewrite not_true_iff_false. Qed.

(** ** What each check decides *)

Definition string_lt (a b : string) : Prop := cmp a b = Lt.

#[export] Instance string_lt_trans : Transitive string_lt.
Proof. intros a b c. apply cmp_trans. Qed.

Section Checks.
Context {A E : Type}.

Lemma bind_unit_Ok (r : result unit E) (k : result A E) a :
  result_bind r (fun _ => k) = Ok a <-> r = Ok tt /\ k = Ok a.
Proof. destruct r as [[]|]; cbn; naive_solver. Qed.

Lemma check_each_Ok (check : A -> result unit E) l :
  check_each check l = Ok tt <-> Forall (fun x => check x = Ok tt) l.
Proof.
  induction l as [|x l IH]; cbn; [done|]. rewrite Forall_cons, <- IH.
  destruct (check x) as [[]|]; cbn; naive_solver.
Qed.

Lemma unless_Ok (b : bool) (e : E) : (if b then Err e else Ok tt) = Ok tt <-> b = false.
Proof. destruct b; naive_solver. Qed.

Lemma unless_then_Ok (b : bool) (e : E) (r : result unit E) :
  (if b then Err e else r) = Ok tt <-> b = false /\ r = Ok tt.
Proof. destruct b; naive_solver. Qed.
End Checks.

Lemma neighbours_NoDup (l : list string) : StronglySorted cmp_le l ->
  (forall i a b, l !! i = Some a -> l !! S i = Some b -> string_eqb a b = false) <-> NoDup l.
Proof.
  intros HS. split.
  - intros Hn. induction HS as [|a l HS IH HF]; [constructor|]. constructor.
    + intros Hin. destruct l as [|b l]; [by apply not_elem_of_nil in Hin|].
      assert (a <> b) as Hab.
      { intros ->. specialize (Hn 0%nat b b eq_refl eq_refl). by rewrite (proj2 (string_eqb_iff b b)) in Hn. }
      apply elem_of_cons in Hin as [|Hin]; [done|]. inversion_clear HS as [|? ? _ HF'].
      rewrite Forall_forall in HF'. inversion_clear HF as [|? ? Hle _].
      apply Hab, (anti_symm cmp_le); [done|]. by apply HF'.
    + apply IH. intros i x y. apply (Hn (S i)).
  - intros HN i a b Ha Hb. destruct (string_eqb a b) eqn:E; [|done]. apply string_eqb_iff in E as ->.
    pose proof (NoDup_lookup _ _ _ _ HN Ha Hb). lia.
Qed.

Lemma validate_unique_Ok kind values : validate_unique_names kind values = Ok tt <-> NoDup values.
Proof.
  unfold validate_unique_names. transitivity (find_pair string_eqb (sort values) = None).
  - destruct (find_pair string_eqb (sort values)) as [[? ?]|]; naive_solver.
  - rewrite find_pair_None, neighbours_NoDup by apply sort_sorted. by rewrite sort_perm.
Qed.

Lemma validate_sorted_Ok kind values :
  validate_sorted_unique_names kind values = Ok tt <-> StronglySorted string_lt values.
Proof.
  unfold validate_sorted_unique_names. transitivity (find_pair string_ge values = None).
  { destruct (find_pair string_ge values) as [[? ?]|]; naive_solver. }
  induction values as [|a [|b values] IH].
  - split; [constructor|done].
  - split; [by repeat constructor|done].
  - cbn [find_pair]. fold (find_pair string_ge (b :: values)). unfold string_ge at 1.
    destruct (cmp a b) eqn:E.
    1, 3: split; [done|]; intros HS; inversion_clear HS as [|? ? _ HF]; inversion_clear HF; unfold string_lt in *; congruence.
    rewrite IH. split.
    + intros HS. constructor; [done|]. inversion_clear HS as [|? ? _ HF]. constructor; [done|].
      eapply Forall_impl; [exact HF|]. intros c Hc. by apply (cmp_trans a b c).
    + intros HS. by inversion_clear HS.
Qed.

Lemma validate_count_Ok kind values :
  validate_capability_count kind values = Ok tt <-> (length values <= 256)%nat.
Proof. unfold validate_capability_count. rewrite unless_Ok, Z.ltb_ge. lia. Qed.

Lemma validate_name_Ok kind name :
  validate_manifest_name kind name = Ok tt <-> is_valid_resource_name (bytes_of name) = true.
Proof. unfold validate_manifest_name. by rewrite unless_Ok, negb_false_iff. Qed.

Lemma validate_key_Ok name : validate_config_key name = Ok tt <-> is_valid_config_key (bytes_of name) = true.
Proof. unfold validate_config_key. by rewrite unless_Ok, negb_false_iff. Qed.

Lemma validate_authority_Ok label read_only names :
  validate_authority label read_only names = Ok tt <-> Forall (fun name => name ∉ names) read_only.
Proof.
  unfold validate_authority. rewrite check_each_Ok. apply Forall_iff. intros name.
  by rewrite unless_Ok, existsb_string_eqb_false.
Qed.

Lemma trim_nil cs : trim_end (trim_start cs) = [] <-> Forall (fun c => is_whitespace c = true) cs.
Proof.
  assert (forall cs : chars, drop_while is_whitespace cs = [] <-> Forall (fun c => is_whitespace c = true) cs) as Hd.
  { clear. induction cs as [|c cs IH]; cbn; [done|]. rewrite Forall_cons.
    destruct (is_whitespace c); [rewrite IH|]; naive_solver. }
  unfold trim_end. transitivity (drop_while is_whitespace (reverse (trim_start cs)) = []).
  { split; [intros H; apply (f_equal reverse) in H; by rewrite reverse_involutive in H|by intros ->]. }
  rewrite Hd, Forall_reverse. unfold trim_start. clear.
  induction cs as [|c cs IH]; cbn; [done|]. rewrite (Forall_cons _ c cs).
  destruct (is_whitespace c) eqn:E; [rewrite IH; naive_solver|]. rewrite Forall_cons. naive_solver.
Qed.

(** ** The conditions *)

Definition resources_ok (names : list string) : Prop :=
  StronglySorted string_lt names /\ (length names <= 256)%nat
  /\ Forall (fun name => is_valid_resource_name (bytes_of name) = true) names.

Definition names_ok (valid : string -> Prop) (names : list string) : Prop :=
  NoDup names /\ (length names <= 256)%nat /\ Forall valid names.

Section Validated.
Context (url_parse : string -> option Url) (version_error : string -> option string).

Definition origin_ok (origin : string) : Prop := is_ok (parse_exact url_parse origin) = true.

Definition package_ok (m : Manifest) : Prop :=
  manifest_schema m = 1 /\ validate_package_name (package_name (package m)) = Ok tt
  /\ version_error (package_version (package m)) = None /\ package_edition (package m) = "2026"
  /\ validate_entry_path (package_entry (package m)) = Ok tt /\ package_target (package m) = "wasm-component"
  /\ Exists (fun c => is_whitespace c = false) (package_license (package m)) /\ dependencies m = [].

Definition binding_ok (m : Manifest) (table : string * SecretBinding) : Prop :=
  is_valid_resource_name (bytes_of (fst table)) = true /\ bound_origins (snd table) <> []
  /\ NoDup (bound_origins (snd table))
  /\ Forall (fun origin => origin_ok origin /\ origin ∈ http (capabilities m)) (bound_origins (snd table)).

Record manifest_ok (m : Manifest) : Prop := mkManifestOk {
  ok_package : package_ok m;
  ok_config : names_ok (fun name => is_valid_config_key (bytes_of name) = true) (config (capabilities m));
  ok_http : names_ok origin_ok (http (capabilities m));
  ok_secrets : names_ok (fun name => is_valid_resource_name (bytes_of name) = true) (secrets (capabilities m));
  ok_secret_count : (length (secret_names m) <= 256)%nat;
  ok_tables : Forall (binding_ok m) (secret_tables m);
  ok_resources : let c := capabilities m in Forall resources_ok
    [ai c; state c; queues c; consumes c; schedules c; buckets c; read_only_buckets c; databases c;
     read_only_databases c; cache_namespaces c; read_only_cache_namespaces c; search_indexes c; vector_indexes c];
  ok_buckets : Forall (fun name => name ∉ buckets (capabilities m)) (read_only_buckets (capabilities m));
  ok_databases : Forall (fun name => name ∉ databases (capabilities m)) (read_only_databases (capabilities m));
  ok_caches : Forall (fun name => name ∉ cache_namespaces (capabilities m))
                (read_only_cache_namespaces (capabilities m));
}.

Lemma validate_origin_Ok origin : validate_http_origin url_parse origin = Ok tt <-> origin_ok origin.
Proof. unfold validate_http_origin, origin_ok. destruct (parse_exact url_parse origin); cbn; naive_solver. Qed.

Lemma validate_resources_Ok label names : validate_sorted_resources label names = Ok tt <-> resources_ok names.
Proof.
  unfold validate_sorted_resources, resources_ok. rewrite !bind_unit_Ok, validate_sorted_Ok, validate_count_Ok, check_each_Ok.
  by setoid_rewrite validate_name_Ok.
Qed.

Lemma validate_binding_Ok m name origins : forall seen, validate_binding url_parse m name seen origins = Ok tt <->
  NoDup origins /\ Forall (fun origin => origin ∉ seen) origins
  /\ Forall (fun origin => origin_ok origin /\ origin ∈ http (capabilities m)) origins.
Proof.
  induction origins as [|origin origins IH]; intros seen; cbn [validate_binding].
  { split; [repeat constructor|done]. }
  rewrite bind_unit_Ok, validate_origin_Ok, !unless_then_Ok, existsb_string_eqb_false, negb_false_iff,
    existsb_string_eqb, IH, !Forall_cons, NoDup_cons.
  setoid_rewrite not_elem_of_app. setoid_rewrite list_elem_of_singleton. rewrite Forall_and.
  assert (Forall (fun x => x <> origin) origins <-> origin ∉ origins) as ->; [|naive_solver].
  rewrite Forall_forall. naive_solver.
Qed.

Lemma validate_secrets_Ok m : validate_secret_bindings url_parse m = Ok tt <->
  (length (secret_names m) <= 256)%nat /\ Forall (binding_ok m) (secret_tables m).
Proof.
  unfold validate_secret_bindings. rewrite bind_unit_Ok, validate_count_Ok, check_each_Ok.
  apply and_iff_compat_l, Forall_iff. intros [name binding]. unfold binding_ok. cbn [fst snd].
  rewrite bind_unit_Ok, validate_name_Ok, unless_then_Ok, bool_decide_eq_false, validate_binding_Ok.
  assert (Forall (fun origin => origin ∉ []) (bound_origins binding)) by (apply Forall_true; apply not_elem_of_nil).
  naive_solver.
Qed.

Lemma validate_package_Ok m : validate_package version_error m = Ok tt <-> package_ok m.
Proof.
  unfold validate_package, package_ok. rewrite unless_then_Ok, negb_false_iff, Z.eqb_eq, bind_unit_Ok.
  destruct (version_error (package_version (package m))); [naive_solver|].
  rewrite unless_then_Ok, negb_false_iff, string_eqb_iff, bind_unit_Ok, unless_then_Ok, negb_false_iff,
    string_eqb_iff, unless_then_Ok, unless_Ok, bool_decide_eq_false, negb_false_iff, bool_decide_eq_true, trim_nil.
  assert (~ Forall (fun c => is_whitespace c = true) (package_license (package m)) <->
          Exists (fun c => is_whitespace c = false) (package_license (package m))) as ->; [|naive_solver].
  split.
  - intros HN. apply not_Forall_Exists in HN; [|intros c; apply _]. eapply Exists_impl; [exact HN|].
    intros c. apply not_true_is_false.
  - rewrite Exists_exists, Forall_forall. intros (c & Hc & E) HF. apply HF in Hc. congruence.
Qed.

Lemma validate_Ok (m : Manifest) : validate_manifest url_parse version_error m = Ok tt <-> manifest_ok m.
Proof.
  unfold validate_manifest. rewrite !bind_unit_Ok, validate_package_Ok, !validate_unique_Ok, !validate_count_Ok,
    validate_secrets_Ok, !validate_resources_Ok, !validate_authority_Ok, !check_each_Ok.
  setoid_rewrite validate_key_Ok. setoid_rewrite validate_origin_Ok. setoid_rewrite validate_name_Ok.
  rewrite !Forall_cons, Forall_nil. rewrite !validate_resources_Ok. split.
  - intros. destruct_and!. constructor; unfold names_ok; cbv zeta; rewrite ?Forall_cons, ?Forall_nil; tauto.
  - intros [HP (?&?&?) (?&?&?) (?&?&?) HC HT HR HB HD HQ]. cbn in HR. rewrite !Forall_cons in HR.
    tauto.
Qed.
(** [validate] accepts exactly the manifests whose package is of this
    edition, target and schema and without dependencies, whose names are
    unique or strictly sorted, within the grammar and at most 256 of a kind,
    whose origins are exact, whose secret tables bind each secret to at least
    one granted origin and to none twice, and which request nothing both
    read-only and writable. *)
Theorem validate_manifest_iff (m : Manifest) :
  validate_manifest url_parse version_error m = Ok tt <-> manifest_ok m.
Proof. apply validate_Ok. Qed.
End Validated.
