(* ===== verification/Permissions.v ===== *)
(** * Grants and authorization

    Models [krit-runtime/src/permissions.rs]: the grants a manifest gives, the
    authorization of an artifact by its metadata ([krit-wasm/src/metadata.rs]),
    the report of effective permissions and the binding of a secret to one
    origin.  Sets of names are [gset]s. *)

From S2P Require Import Prelude BTree Sorting Capability RuntimeErrors Manifest.

(** ** Interfaces and worlds ([krit-wasm/src/wit.rs]) *)

Definition AI_INTERFACE : string := "krit:runtime/ai@0.2.0".
Definition STDOUT_INTERFACE : string := "krit:runtime/stdout@0.2.0".
Definition CONFIG_INTERFACE : string := "krit:runtime/config@0.2.0".
Definition HTTP_INTERFACE : string := "krit:runtime/http@0.2.0".
Definition HTTP_ANONYMOUS_INTERFACE : string := "krit:runtime/http-anonymous@0.2.0".
Definition SECRETS_INTERFACE : string := "krit:runtime/secrets@0.2.0".
Definition LOGGING_INTERFACE : string := "krit:runtime/logging@0.2.0".
Definition STATE_INTERFACE : string := "krit:runtime/state@0.2.0".
Definition QUEUE_INTERFACE : string := "krit:runtime/queue@0.2.0".
Definition OBJECTS_READ_INTERFACE : string := "krit:runtime/objects-read@0.2.0".
Definition OBJECTS_WRITE_INTERFACE : string := "krit:runtime/objects-write@0.2.0".
Definition DATABASE_INTERFACE : string := "krit:runtime/database@0.2.0".
Definition CACHE_READ_INTERFACE : string := "krit:runtime/cache-read@0.2.0".
Definition CACHE_WRITE_INTERFACE : string := "krit:runtime/cache-write@0.2.0".
Definition SEARCH_QUERY_INTERFACE : string := "krit:runtime/search-query@0.2.0".
Definition SEARCH_VECTOR_INTERFACE : string := "krit:runtime/search-vector@0.2.0".
Definition PROGRAM_WORLD : string := "krit:runtime/program@0.2.0".
Definition PURE_PROGRAM_WORLD : string := "krit:runtime/pure-program@0.2.0".
Definition WEBHOOK_PROGRAM_WORLD : string := "krit:runtime/webhook-program@0.2.0".

(** ** Metadata of an artifact *)

Record ResourceRequirement : Type := mkRequirement {
  requirement_capability : string;
  requirement_resource : string;
}.

Record ApprovalFact : Type := mkApprovalFact {
  approval_operation : string;
  approval_resource : string;
}.

Record ArtifactMetadata : Type := mkArtifactMetadata {
  metadata_schema : Z;
  metadata_compiler : string * string;
  metadata_language : string * string;
  metadata_edition : string;
  metadata_package : string * string;
  metadata_target : string;
  metadata_world : string;
  metadata_entry : string;
  metadata_digest : string;
  metadata_byte_size : Z;
  metadata_effects : list string;
  metadata_requirements : list ResourceRequirement;
  metadata_approvals : list ApprovalFact;
  metadata_imports : list string;
  metadata_build_profile : string;
  metadata_policy_version : Z;
}.

(** ** Grants *)

Record GrantSet : Type := mkGrantSet {
  grant_package_name : string;
  grant_package_version : string;
  grant_edition : string;
  grant_target : string;
  grant_entry : string;
  grant_requested : list PermissionRequest;
  grant_effects : gset string;
  grant_imports : gset string;
  grant_secret_bindings : list SecretBindingFact;
}.

Definition any_listed (names : list string) : bool := negb (bool_decide (names = [])).
Definition when {A} (condition : bool) (l : list A) : list A := if condition then l else [].

Definition manifest_effects (m : Manifest) : list string :=
  let c := capabilities m in
  when (stdout c) ["io.stdout"]
  ++ when (any_listed (config c)) ["config.read"]
  ++ when (any_listed (http c)) ["http.request"]
  ++ when (negb (bool_decide (secret_bindings m = []))) ["secret.read"]
  ++ when (any_listed (ai c)) ["ai.invoke"]
  ++ when (logs c) ["observe.log"]
  ++ when (any_listed (state c)) ["state.transaction"]
  ++ when (any_listed (queues c)) ["queue.publish"]
  ++ when (any_listed (consumes c)) ["queue.consume"]
  ++ when (any_listed (schedules c)) ["schedule.trigger"]
  ++ when (any_listed (buckets c)) ["object.write"]
  ++ when (any_listed (buckets c) || any_listed (read_only_buckets c)) ["object.read"]
  ++ when (any_listed (databases c)) ["database.write"]
  ++ when (any_listed (databases c) || any_listed (read_only_databases c)) ["database.read"]
  ++ when (any_listed (cache_namespaces c)) ["cache.write"]
  ++ when (any_listed (cache_namespaces c) || any_listed (read_only_cache_namespaces c)) ["cache.read"]
  ++ when (any_listed (search_indexes c)) ["search.query"]
  ++ when (any_listed (vector_indexes c)) ["search.vector"].

Definition manifest_imports (m : Manifest) : list string :=
  let c := capabilities m in
  when (stdout c) [STDOUT_INTERFACE]
  ++ when (any_listed (config c)) [CONFIG_INTERFACE]
  ++ when (any_listed (http c)) [HTTP_INTERFACE; HTTP_ANONYMOUS_INTERFACE]
  ++ when (negb (bool_decide (secret_bindings m = []))) [SECRETS_INTERFACE]
  ++ when (any_listed (ai c)) [AI_INTERFACE]
  ++ when (logs c) [LOGGING_INTERFACE]
  ++ when (any_listed (state c)) [STATE_INTERFACE]
  ++ when (any_listed (queues c)) [QUEUE_INTERFACE]
  ++ when (any_listed (buckets c)) [OBJECTS_WRITE_INTERFACE]
  ++ when (any_listed (buckets c) || any_listed (read_only_buckets c)) [OBJECTS_READ_INTERFACE]
  ++ when (any_listed (databases c)) [DATABASE_INTERFACE]
  ++ when (any_listed (databases c) || any_listed (read_only_databases c)) [DATABASE_INTERFACE]
  ++ when (any_listed (cache_namespaces c)) [CACHE_WRITE_INTERFACE]
  ++ when (any_listed (cache_namespaces c) || any_listed (read_only_cache_namespaces c)) [CACHE_READ_INTERFACE]
  ++ when (any_listed (search_indexes c)) [SEARCH_QUERY_INTERFACE]
  ++ when (any_listed (vector_indexes c)) [SEARCH_VECTOR_INTERFACE].

Definition grant_requests (m : Manifest) : list PermissionRequest :=
  let c := capabilities m in
  when (stdout c) [mkPermission "io.stdout" None]
  ++ when (logs c) [mkPermission "observe.log" None]
  ++ requests "cache.write" (cache_namespaces c)
  ++ requests "cache.read" (cache_namespaces c ++ read_only_cache_namespaces c)
  ++ requests "database.write" (databases c)
  ++ requests "database.read" (databases c ++ read_only_databases c)
  ++ flat_map (fun '(capability, names) => requests capability names)
       [("queue.publish", queues c); ("queue.consume", consumes c); ("schedule.trigger", schedules c);
        ("object.write", buckets c); ("search.query", search_indexes c); ("search.vector", vector_indexes c)]
  ++ requests "object.read" (buckets c ++ read_only_buckets c)
  ++ requests "config.read" (config c)
  ++ requests "state.transaction" (state c)
  ++ requests "ai.invoke" (ai c)
  ++ requests "http.request" (http c)
  ++ map (fun binding => mkPermission "secret.read" (Some (fact_secret binding))) (secret_bindings m).

Definition forward_slashes (path : string) : string :=
  str_of (map (fun b => if byte_eqb b "\" then "/"%char else b) (bytes_of path)).

Definition from_manifest (m : Manifest) : GrantSet :=
  let p := package m in
  mkGrantSet (package_name p) (package_version p) (package_edition p) (package_target p)
    (forward_slashes (package_entry p)) (sort (grant_requests m))
    (list_to_set (manifest_effects m)) (list_to_set (manifest_imports m)) (secret_bindings m).

Definition grants (g : GrantSet) (cap : string) (res : option string) : bool :=
  existsb (fun fact => string_eqb (capability fact) cap && bool_decide (resource fact = res)) (grant_requested g).

(** ** Authorization *)

Definition identity_denials (g : GrantSet) (md : ArtifactMetadata) : list string :=
  flat_map (fun '(name, expected, actual) =>
    when (negb (string_eqb expected actual))
      ["artifact " +:+ name +:+ " `" +:+ actual +:+ "` does not match manifest `" +:+ expected +:+ "`"])
    [("package name", grant_package_name g, fst (metadata_package md));
     ("package version", grant_package_version g, snd (metadata_package md));
     ("edition", grant_edition g, metadata_edition md);
     ("target", grant_target g, metadata_target md);
     ("entry", grant_entry g, metadata_entry md)].

(** The interface an effect is imported through. *)
Definition effect_interface (md : ArtifactMetadata) (effect : string) : option string :=
  let on name := string_eqb effect name in
  if on "io.stdout" then Some STDOUT_INTERFACE
  else if on "config.read" then Some CONFIG_INTERFACE
  else if on "secret.read" then Some SECRETS_INTERFACE
  else if on "http.request" then
    Some (if existsb (string_eqb "secret.read") (metadata_effects md) then HTTP_INTERFACE
          else HTTP_ANONYMOUS_INTERFACE)
  else if on "ai.invoke" then Some AI_INTERFACE
  else if on "observe.log" then Some LOGGING_INTERFACE
  else if on "state.transaction" then Some STATE_INTERFACE
  else if on "queue.publish" then Some QUEUE_INTERFACE
  else if on "object.read" then Some OBJECTS_READ_INTERFACE
  else if on "cache.read" then Some CACHE_READ_INTERFACE
  else if on "cache.write" then Some CACHE_WRITE_INTERFACE
  else if on "search.query" then Some SEARCH_QUERY_INTERFACE
  else if on "search.vector" then Some SEARCH_VECTOR_INTERFACE
  else if on "object.write" then Some OBJECTS_WRITE_INTERFACE
  else if on "database.read" || on "database.write" then Some DATABASE_INTERFACE
  else None.

Definition expected_imports (md : ArtifactMetadata) : list string :=
  dedup string_eqb (sort (omap (effect_interface md) (metadata_effects md))).

Definition agent_world (world : string) : bool :=
  existsb (fun prefix => starts_with (bytes_of prefix) (bytes_of world))
    ["krit:runtime/webhook-"; "krit:runtime/job"; "krit:runtime/schedule"]
  && ends_with (bytes_of "-program@0.2.0") (bytes_of world).

Definition valid_policy_world (md : ArtifactMetadata) : bool :=
  if negb (bool_decide (expected_imports md = metadata_imports md)) then false
  else if string_eqb (metadata_world md) PURE_PROGRAM_WORLD then bool_decide (metadata_effects md = [])
  else if string_eqb (metadata_world md) PROGRAM_WORLD then bool_decide (metadata_effects md = ["io.stdout"])
  else if string_eqb (metadata_world md) WEBHOOK_PROGRAM_WORLD then bool_decide (metadata_effects md = [])
  else agent_world (metadata_world md) && negb (bool_decide (metadata_effects md = [])).

Record EffectivePermissions : Type := mkEffectivePermissions {
  report_schema : Z;
  report_package : string;
  report_world : string;
  report_requested : list PermissionRequest;
  report_secret_bindings : list SecretBindingFact;
  report_required : list PermissionRequest;
  report_effective : list PermissionRequest;
  report_denied : list PermissionRequest;
  report_imports : list string;
  approval_required : list ApprovalFact;
  approval_status : string;
  denial_reasons : list string;
  local_grant_status : string;
  deployment_grant_status : string;
}.

(** What an artifact requires: its requirements, and each effect of which no
    requirement names a resource. *)
Definition required_permissions (md : ArtifactMetadata) : list PermissionRequest :=
  sort (map (fun r => mkPermission (requirement_capability r) (Some (requirement_resource r)))
          (metadata_requirements md)
        ++ map (fun effect => mkPermission effect None)
             (List.filter (fun effect => negb (existsb (fun r => string_eqb (requirement_capability r) effect)
                                                 (metadata_requirements md))) (metadata_effects md))).

Definition granted (g : GrantSet) (fact : PermissionRequest) : bool :=
  bool_decide (capability fact ∈ grant_effects g) && grants g (capability fact) (resource fact).

Definition evaluate (g : GrantSet) (md : ArtifactMetadata) : EffectivePermissions :=
  let required := required_permissions md in
  let effective := List.filter (granted g) required in
  let denied := List.filter (fun fact => negb (bool_decide (capability fact ∈ grant_effects g))
                                         || negb (grants g (capability fact) (resource fact))) required in
  let reasons := identity_denials g md
    ++ when (negb (valid_policy_world md))
         ["artifact world, effects, and imports do not form an authorized policy 1 world"] in
  let status := if bool_decide (denied = []) && bool_decide (reasons = []) then "allowed" else "denied" in
  mkEffectivePermissions 1 (fst (metadata_package md)) (metadata_world md) (grant_requested g)
    (grant_secret_bindings g) required effective denied (metadata_imports md) (metadata_approvals md)
    "not-evaluated" reasons status "not-evaluated".

Definition allowed (p : EffectivePermissions) : bool := string_eqb (local_grant_status p) "allowed".

Definition authorize (g : GrantSet) (md : ArtifactMetadata) : result unit RuntimeError :=
  match identity_denials g md with
  | (_ :: _) as denials => Err (authorization (String.concat "; " denials))
  | [] =>
      match report_denied (evaluate g md) with
      | denied :: _ =>
          Err (authorization
                 ("required capability `" +:+ capability denied +:+ "`"
                  +:+ match resource denied with Some res => " for resource `" +:+ res +:+ "`" | None => "" end
                  +:+ " is not granted by the manifest"))
      | [] =>
          if negb (valid_policy_world md)
             || existsb (fun import => negb (bool_decide (import ∈ grant_imports g))) (metadata_imports md) then
            Err (import_mismatch
                   "artifact imports are not exactly authorized by the manifest-derived grant set")
          else Ok tt
      end
  end.

(** ** Bearer credentials *)

Definition permits_bearer (g : GrantSet) (secret origin : string) : bool :=
  grants g "http.request" (Some origin)
  && match find (fun binding => string_eqb (fact_secret binding) secret) (grant_secret_bindings g) with
     | Some binding =>
         match fact_binding binding with
         | Bound => existsb (string_eqb origin) (fact_origins binding)
         | Unbound => true
         end
     | None => false
     end.

Record AuthorizedBearer : Type := mkAuthorizedBearer {
  bearer_origin : string;
  bearer_secret : bytes;
}.

Definition authorize_bearer (g : GrantSet) (secret_name : string) (origin : HttpOrigin) (secret : bytes)
  : result AuthorizedBearer RuntimeError :=
  if negb (permits_bearer g secret_name (origin_normalized origin)) then
    Err (unbound_secret secret_name (origin_normalized origin))
  else Ok (mkAuthorizedBearer (origin_normalized origin) secret).

(** ** The human report *)

Definition line (text : string) : string := text +:+ newline_text.

Definition render_facts (heading : string) (facts : list PermissionRequest) : string :=
  line (heading +:+ ":")
  +:+ match facts with [] => line "  (none)" | _ => String.concat "" (map request_line facts) end.

Definition or_none (lines : list string) : string :=
  match lines with [] => line "  (none)" | _ => String.concat "" (map (fun text => line ("  " +:+ text)) lines) end.

(** What must be approved is any_listed under the denials only. *)
Definition render_denials (p : EffectivePermissions) : string :=
  match denial_reasons p with
  | [] => ""
  | reasons =>
      line "Denial reasons:" +:+ String.concat "" (map (fun reason => line ("  " +:+ reason)) reasons)
      +:+ line "Approval required:"
      +:+ or_none (map (fun approval => approval_operation approval +:+ ": " +:+ approval_resource approval)
                     (approval_required p))
      +:+ line ("Approval policy: " +:+ approval_status p)
  end.

Definition render_permissions (p : EffectivePermissions) : string :=
  line ("Effective permissions for " +:+ report_package p +:+ " (schema " +:+ decimal (report_schema p) +:+ "):")
  +:+ render_facts "Requested" (report_requested p)
  +:+ render_secret_bindings "" (report_secret_bindings p)
  +:+ render_facts "Required" (report_required p)
  +:+ render_facts "Effective" (report_effective p)
  +:+ render_facts "Denied" (report_denied p)
  +:+ line "Imports:" +:+ or_none (report_imports p)
  +:+ render_denials p
  +:+ line ("Local manifest grants: " +:+ local_grant_status p)
  +:+ line "Deployment grants: not evaluated".
