(* ===== verification/PermissionFacts.v ===== *)
(** * What a manifest grants

    The grants the host derives from a manifest are the permissions of its
    plan; the report of effective permissions and the authorization of an
    artifact agree; a validated manifest confines each secret. *)

From S2P Require Import Prelude BTree Sorting Capability RuntimeErrors Syntax Tokens Manifest Permissions.

(** ** Names and requests *)

Lemma names_resource_iff res names : names_resource res names = true <-> exists r, res = Some r /\ r ∈ names.
Proof. destruct res as [r|]; cbn; [rewrite existsb_string_eqb|]; naive_solver. Qed.

Lemma elem_of_requests fact cap names :
  fact ∈ requests cap names <-> capability fact = cap /\ names_resource (resource fact) names = true.
Proof.
  unfold requests. rewrite list_elem_of_fmap, names_resource_iff. destruct fact as [c r]; cbn. naive_solver.
Qed.

Lemma elem_of_when {A} (b : bool) (x : A) l : x ∈ when b l <-> b = true /\ x ∈ l.
Proof. destruct b; cbn; [naive_solver|]. rewrite elem_of_nil. naive_solver. Qed.

Lemma fact_secret_fact m s : fact_secret (secret_fact m s) = s.
Proof. unfold secret_fact. by destruct (bt_get s (secret_tables m)). Qed.

Lemma elem_of_secret_names m s : bt_sorted (secret_tables m) ->
  s ∈ secret_names m <-> s ∈ secrets (capabilities m) \/ is_some (bt_get s (secret_tables m)) = true.
Proof.
  intros HS. unfold secret_names. rewrite elem_of_dedup by apply string_eqb_iff.
  rewrite elem_of_sort, elem_of_app. apply or_iff_compat_l. unfold bt_keys. rewrite list_elem_of_fmap.
  setoid_rewrite list_elem_of_In. split.
  - intros ([k v] & -> & Hin). apply (bt_get_In _ _ _ HS) in Hin. cbn. by rewrite Hin.
  - destruct (bt_get s (secret_tables m)) as [v|] eqn:E; [|done]. intros _. exists (s, v).
    split; [done|]. by apply bt_get_In.
Qed.

Lemma secret_names_NoDup m : NoDup (secret_names m).
Proof. apply dedup_NoDup; [apply string_eqb_iff|apply sort_sorted]. Qed.

(** The plan and the grants list the same requests. *)
Lemma grant_requests_perm m : grant_requests m ≡ₚ plan_requests m.
Proof.
  unfold grant_requests, plan_requests, secret_bindings. rewrite map_map.
  rewrite (map_ext _ (fun s => mkPermission "secret.read" (Some s))) by (intros s; by rewrite fact_secret_fact).
  fold (requests "secret.read" (secret_names m)). cbn [flat_map]. rewrite !app_nil_r. unfold when.
  apply (Permutation_count_occ PermissionRequest_eq_dec). intros x. rewrite !count_occ_app. lia.
Qed.

Lemma plan_grants m fact : bt_sorted (secret_tables m) ->
  fact ∈ plan_requests m <-> grants_permission m (capability fact) (resource fact) = true.
Proof.
  intros HS. destruct fact as [cap res]. unfold plan_requests. cbn [flat_map].
  rewrite !elem_of_app, !elem_of_requests. cbn [capability resource].
  assert (names_resource res (secret_names m) = true <->
          match res with
          | Some r => existsb (string_eqb r) (secrets (capabilities m)) || is_some (bt_get r (secret_tables m))
          | None => false end = true) as ->.
  { destruct res as [r|]; [|done]. cbn. rewrite existsb_string_eqb, elem_of_secret_names by done.
    by rewrite orb_true_iff, existsb_string_eqb. }
  assert (forall (b : bool) c, mkPermission cap res ∈ (if b then [mkPermission c None] else []) <->
          cap = c /\ negb (is_some res) && b = true) as Hone.
  { intros b c. destruct b, res; cbn; rewrite ?list_elem_of_singleton, ?elem_of_nil; naive_solver. }
  rewrite !Hone, elem_of_nil. unfold grants_permission, string_eqb.
  repeat (match goal with |- context [bool_decide (cap = ?c)] => destruct (decide (cap = c)) as [->|?] end;
    [rewrite bool_decide_true by done; intuition discriminate|rewrite (bool_decide_false (cap = _)) by done]).
  intuition congruence.
Qed.

Lemma grants_iff g cap res : grants g cap res = true <-> mkPermission cap res ∈ grant_requested g.
Proof.
  unfold grants. rewrite existsb_exists. split.
  - intros ([c r] & Hin & Hf). unfold string_eqb in Hf. bool_facts. cbn in *. subst. by apply list_elem_of_In.
  - intros Hin. exists (mkPermission cap res). split; [by apply list_elem_of_In|]. cbn.
    unfold string_eqb. by rewrite !bool_decide_true.
Qed.

Lemma grants_from_manifest m cap res : bt_sorted (secret_tables m) ->
  grants (from_manifest m) cap res = grants_permission m cap res.
Proof.
  intros HS. apply eq_true_iff_eq. rewrite grants_iff. cbn [grant_requested from_manifest].
  rewrite elem_of_sort, grant_requests_perm. by apply (plan_grants m (mkPermission cap res)).
Qed.

Lemma find_secret m s names :
  find (fun binding => string_eqb (fact_secret binding) s) (map (secret_fact m) names)
  = if decide (s ∈ names) then Some (secret_fact m s) else None.
Proof.
  induction names as [|name names IH]; cbn; [by rewrite decide_False by apply not_elem_of_nil|].
  rewrite fact_secret_fact. destruct (string_eqb name s) eqn:E.
  - apply string_eqb_iff in E as ->. by rewrite decide_True by left.
  - assert (name <> s) as Hne by (intros ->; by rewrite (proj2 (string_eqb_iff s s)) in E).
    rewrite IH. apply decide_ext. rewrite elem_of_cons. naive_solver.
Qed.

Lemma existsb_sort s l : existsb (string_eqb s) (sort l) = existsb (string_eqb s) l.
Proof. apply eq_true_iff_eq. by rewrite !existsb_string_eqb, elem_of_sort. Qed.

Lemma bearer_from_manifest m s o : bt_sorted (secret_tables m) ->
  permits_bearer (from_manifest m) s o = manifest_permits_bearer m s o.
Proof.
  intros HS. unfold permits_bearer, manifest_permits_bearer. rewrite grants_from_manifest by done.
  cbn [grant_secret_bindings from_manifest]. unfold secret_bindings. rewrite find_secret.
  rewrite (andb_comm (grants_permission m "secret.read" _)), <- andb_assoc. f_equal.
  change (grants_permission m "secret.read" (Some s))
    with (existsb (string_eqb s) (secrets (capabilities m)) || is_some (bt_get s (secret_tables m))).
  assert (s ∈ secret_names m <->
    existsb (string_eqb s) (secrets (capabilities m)) || is_some (bt_get s (secret_tables m)) = true) as Hn.
  { rewrite orb_true_iff, existsb_string_eqb. by apply elem_of_secret_names. }
  case_decide as Hd.
  - rewrite (proj1 Hn Hd). unfold secret_fact.
    destruct (bt_get s (secret_tables m)); cbn; [|done]. by rewrite existsb_sort.
  - destruct (existsb (string_eqb s) (secrets (capabilities m)) || is_some (bt_get s (secret_tables m))); [|done].
    by destruct Hd; apply Hn.
Qed.

(** ** The report and the authorization *)

(** An effect a manifest grants brings the interface it is imported through. *)
Lemma granted_interface m md effect import : effect ∈ manifest_effects m ->
  effect_interface md effect = Some import -> import ∈ manifest_imports m.
Proof.
  unfold manifest_effects, manifest_imports. rewrite !elem_of_app, !elem_of_when, !list_elem_of_singleton.
  rewrite ?elem_of_cons, ?elem_of_nil.
  intros Hin Hi. repeat (destruct Hin as [[Hc ->]|Hin]); [..|destruct Hin as [Hc ->]]; vm_compute in Hi;
    try discriminate; injection Hi as <-;
    repeat first [left; split; [exact Hc|try case_match; auto; done]|right]; auto.
Qed.

Lemma filter_nil {A} (f : A -> bool) l : List.filter f l = [] <-> Forall (fun x => f x = false) l.
Proof.
  induction l as [|x l IH]; cbn; [done|]. rewrite Forall_cons, <- IH. destruct (f x); naive_solver.
Qed.

Lemma denied_nil g md :
  report_denied (evaluate g md) = [] <-> Forall (fun fact => granted g fact = true) (required_permissions md).
Proof.
  cbn. rewrite filter_nil. apply Forall_iff. intros fact. unfold granted.
  by rewrite andb_true_iff, orb_false_iff, !negb_false_iff.
Qed.

(** Each effect of an artifact is the capability of something it requires. *)
Lemma effect_required md effect : effect ∈ metadata_effects md ->
  exists fact, fact ∈ required_permissions md /\ capability fact = effect.
Proof.
  intros Hin. unfold required_permissions. setoid_rewrite elem_of_sort. setoid_rewrite elem_of_app.
  setoid_rewrite list_elem_of_fmap.
  destruct (existsb (fun r => string_eqb (requirement_capability r) effect) (metadata_requirements md)) eqn:E.
  - apply existsb_exists in E as (r & Hr%list_elem_of_In & Hc%string_eqb_iff).
    exists (mkPermission (requirement_capability r) (Some (requirement_resource r))). split; [left|done]. by exists r.
  - exists (mkPermission effect None). split; [right|done]. exists effect. split; [done|].
    rewrite list_elem_of_In, filter_In, <- list_elem_of_In. by rewrite E.
Qed.

Lemma expected_granted m md : Forall (fun fact => granted (from_manifest m) fact = true) (required_permissions md) ->
  Forall (fun import => import ∈ manifest_imports m) (expected_imports md).
Proof.
  rewrite !Forall_forall. intros Hall import. unfold expected_imports.
  rewrite elem_of_dedup by apply string_eqb_iff. rewrite elem_of_sort, list_elem_of_omap.
  intros (effect & Hin & Hi). destruct (effect_required md effect Hin) as (fact & Hf & <-).
  apply Hall in Hf. unfold granted in Hf. bool_facts. cbn in *.
  eapply granted_interface; [|exact Hi]. by apply elem_of_list_to_set in H.
Qed.

Lemma world_imports md : valid_policy_world md = true -> metadata_imports md = expected_imports md.
Proof. unfold valid_policy_world. case_bool_decide; [done|]. by cbn. Qed.

Lemma identity_nil g md : identity_denials g md = [] <->
  grant_package_name g = fst (metadata_package md) /\ grant_package_version g = snd (metadata_package md)
  /\ grant_edition g = metadata_edition md /\ grant_target g = metadata_target md
  /\ grant_entry g = metadata_entry md.
Proof.
  unfold identity_denials. cbn [flat_map]. unfold string_eqb.
  repeat case_bool_decide; cbn; naive_solver.
Qed.

Lemma authorize_Ok m md : authorize (from_manifest m) md = Ok tt <->
  identity_denials (from_manifest m) md = []
  /\ Forall (fun fact => granted (from_manifest m) fact = true) (required_permissions md)
  /\ valid_policy_world md = true.
Proof.
  unfold authorize. destruct (identity_denials (from_manifest m) md) as [|d ds]; [|naive_solver].
  destruct (report_denied (evaluate (from_manifest m) md)) as [|fact facts] eqn:E.
  - apply denied_nil in E. destruct (valid_policy_world md) eqn:HW; [|naive_solver]. cbn [negb orb].
    replace (existsb _ _) with false; [naive_solver|]. symmetry. apply existsb_False.
    rewrite (world_imports _ HW). eapply Forall_impl; [by apply expected_granted|].
    intros import Hin. cbn. rewrite bool_decide_true; [done|]. by apply elem_of_list_to_set.
  - split; [done|]. intros (_ & HF & _). apply denied_nil in HF. congruence.
Qed.

Lemma allowed_iff g md : allowed (evaluate g md) = true <->
  report_denied (evaluate g md) = [] /\ identity_denials g md = [] /\ valid_policy_world md = true.
Proof.
  unfold allowed. cbn [local_grant_status evaluate]. rewrite string_eqb_iff.
  change (List.filter _ (required_permissions md)) with (report_denied (evaluate g md)).
  destruct (bool_decide (report_denied (evaluate g md) = [])) eqn:E1; cbn [andb].
  - apply bool_decide_eq_true in E1. case_bool_decide as E2.
    + apply app_eq_nil in E2 as [-> E2]. unfold when in E2. destruct (valid_policy_world md); naive_solver.
    + split; [done|]. intros (_ & Hi & Hw). destruct E2. by rewrite Hi, Hw.
  - apply bool_decide_eq_false in E1. naive_solver.
Qed.

(** What is granted is an effect the manifest grants. *)
Lemma granted_effect m cap res : bt_sorted (secret_tables m) ->
  grants_permission m cap res = true -> cap ∈ manifest_effects m.
Proof.
  intros HS Hg. apply (plan_grants m (mkPermission cap res) HS) in Hg. unfold plan_requests in Hg. cbn [flat_map] in Hg.
  assert (forall names, names_resource res names = true -> any_listed names = true) as Hl.
  { intros names (r & _ & Hin)%names_resource_iff. unfold any_listed. case_bool_decide; [subst; by apply not_elem_of_nil in Hin|done]. }
  assert (names_resource res (secret_names m) = true -> negb (bool_decide (secret_bindings m = [])) = true) as Hs.
  { intros HN%Hl. unfold any_listed in HN. unfold secret_bindings. by destruct (secret_names m). }
  assert (forall a b, names_resource res (a ++ b) = true -> any_listed a || any_listed b = true) as Ha.
  { intros a b HN%Hl. unfold any_listed in *. by destruct a. }
  rewrite !elem_of_app, !elem_of_requests in Hg. cbn [capability resource] in Hg.
  unfold manifest_effects. rewrite !elem_of_app, !elem_of_when, !list_elem_of_singleton.
  repeat match type of Hg with _ \/ _ => destruct Hg as [Hg|Hg] end; try (destruct Hg as [-> Hg]).
  all: try (by apply elem_of_nil in Hg).
  all: try (match type of Hg with context [if ?b then _ else _] => destruct b eqn:E end;
    [apply list_elem_of_singleton in Hg as [= -> ->]; rename E into Hg|by apply elem_of_nil in Hg]).
  all: try (apply Hs in Hg); try (apply Ha in Hg); try (apply Hl in Hg).
  all: repeat first [left; split; [first [exact Hg|reflexivity]|done]|right]; by split.
Qed.

Lemma granted_iff m fact : bt_sorted (secret_tables m) ->
  granted (from_manifest m) fact = true <-> grants_permission m (capability fact) (resource fact) = true.
Proof.
  intros HS. unfold granted. rewrite andb_true_iff, grants_from_manifest, bool_decide_eq_true by done.
  split; [naive_solver|]. intros Hg. split; [|done]. cbn. apply elem_of_list_to_set. by eapply granted_effect.
Qed.

Lemma required_granted m md : bt_sorted (secret_tables m) ->
  Forall (fun fact => granted (from_manifest m) fact = true) (required_permissions md) <->
  Forall (fun r => grants_permission m (requirement_capability r) (Some (requirement_resource r)) = true)
    (metadata_requirements md)
  /\ Forall (fun effect => Exists (fun r => requirement_capability r = effect) (metadata_requirements md)
                           \/ grants_permission m effect None = true) (metadata_effects md).
Proof.
  intros HS. unfold required_permissions. rewrite sort_perm, Forall_app, !Forall_map.
  setoid_rewrite (granted_iff m _ HS). cbn [capability resource]. apply and_iff_compat_l.
  assert (forall effect, existsb (fun r => string_eqb (requirement_capability r) effect) (metadata_requirements md) = true
    <-> Exists (fun r => requirement_capability r = effect) (metadata_requirements md)) as Hx.
  { intros effect. rewrite existsb_exists, Exists_exists. setoid_rewrite string_eqb_iff.
    by setoid_rewrite <- list_elem_of_In. }
  induction (metadata_effects md) as [|effect effects IH]; cbn [List.filter]; [done|].
  rewrite Forall_cons, <- IH, <- Hx.
  destruct (existsb (fun r => string_eqb (requirement_capability r) effect) (metadata_requirements md));
    cbn [negb]; rewrite ?Forall_cons; naive_solver.
Qed.

(** ** Where a secret may be sent *)

Definition secret_reach (m : Manifest) (name origin : string) : Prop :=
  match bt_get name (secret_tables m) with
  | Some binding => origin ∈ bound_origins binding
  | None => name ∈ secrets (capabilities m) /\ origin ∈ http (capabilities m)
  end.
#[export] Instance secret_reach_dec m name origin : Decision (secret_reach m name origin).
Proof. unfold secret_reach. destruct (bt_get name (secret_tables m)); apply _. Defined.

Lemma bearer_reach url_parse version_error m name origin : bt_sorted (secret_tables m) ->
  validate_manifest url_parse version_error m = Ok tt ->
  manifest_permits_bearer m name origin = true <-> secret_reach m name origin.
Proof.
  intros HS HV%validate_Ok. unfold manifest_permits_bearer, secret_reach.
  change (grants_permission m "secret.read" (Some name))
    with (existsb (string_eqb name) (secrets (capabilities m)) || is_some (bt_get name (secret_tables m))).
  change (grants_permission m "http.request" (Some origin)) with (existsb (string_eqb origin) (http (capabilities m))).
  rewrite !andb_true_iff, orb_true_iff, !existsb_string_eqb.
  destruct (bt_get name (secret_tables m)) as [binding|] eqn:E; cbn; [|intuition done].
  rewrite existsb_string_eqb. split; [naive_solver|]. intros Hin. split; [split; [by right|]|done].
  apply (bt_get_In _ _ _ HS), list_elem_of_In in E. pose proof (ok_tables _ _ _ HV) as HT. rewrite Forall_forall in HT.
  destruct (HT _ E) as (_ & _ & _ & HF). rewrite Forall_forall in HF. by apply HF.
Qed.

(** ** A package *)

Definition sample_version (version : string) : option string :=
  if string_eqb version "1.2.3" then None else Some "unexpected end of input".

Definition sample_manifest : Manifest :=
  mkManifest 1
    (mkPackage "test/program" "1.2.3" "2026" "src/main.krit" (ascii_chars "Apache-2.0") "wasm-component")
    []
    (mkCapabilities true [] ["https://api.example.com"; "http://[::1]:8080"] ["legacy-token"] [] false ["work"]
       [] [] [] [] [] [] [] [] [] [] [])
    [("bound-token", mkSecretBinding ["https://api.example.com"] Bearer)].

Definition sample_artifact : ArtifactMetadata :=
  mkArtifactMetadata 1 ("krit", "0.3.0") ("Krit", "0.3.0") "2026" ("test/program", "1.2.3") "wasm-component"
    "krit:runtime/webhook-state-program@0.2.0" "src/main.krit" "blake3:0" 0 ["state.transaction"]
    [mkRequirement "state.transaction" "work"] [] [STATE_INTERFACE] "default" 1.

(** ** Claims *)

(** C23: The permissions the host derives from a manifest are, in the same
    order, the ones its permission plan shows; a capability is granted for a
    resource exactly when the manifest's own rule grants it; and a secret may
    be sent to an origin by the host's rule exactly when by the manifest's. *)
Theorem grants_exact (m : Manifest) (HS : bt_sorted (secret_tables m)) :
  grant_requested (from_manifest m) = plan_requested (permission_plan m)
  /\ (forall cap res, grants (from_manifest m) cap res = grants_permission m cap res)
  /\ (forall secret origin, permits_bearer (from_manifest m) secret origin = manifest_permits_bearer m secret origin).
Proof.
  split; [|split].
  - apply sort_unique, grant_requests_perm.
  - intros cap res. by apply grants_from_manifest.
  - intros secret origin. by apply bearer_from_manifest.
Qed.

(** C22: The report of effective permissions says an artifact is allowed
    exactly when the runtime authorizes it: an artifact whose world and
    required permissions are in order imports nothing the manifest does not
    bring. *)
Theorem report_decides_authorization (m : Manifest) (md : ArtifactMetadata) :
  allowed (evaluate (from_manifest m) md) = is_ok (authorize (from_manifest m) md).
Proof.
  apply eq_true_iff_eq. rewrite allowed_iff, denied_nil.
  transitivity (authorize (from_manifest m) md = Ok tt); [rewrite authorize_Ok; tauto|].
  destruct (authorize (from_manifest m) md) as [[]|]; cbn; naive_solver.
Qed.

(** C20: An artifact is authorized exactly when its package, edition, target
    and entry are the manifest's, the manifest grants each resource it
    requires and each effect of which no resource is required, and its world
    and imports are those of its effects. *)
Theorem authorize_exact (m : Manifest) (md : ArtifactMetadata) (HS : bt_sorted (secret_tables m)) :
  authorize (from_manifest m) md = Ok tt <->
  metadata_package md = (package_name (package m), package_version (package m))
  /\ metadata_edition md = package_edition (package m) /\ metadata_target md = package_target (package m)
  /\ metadata_entry md = forward_slashes (package_entry (package m))
  /\ Forall (fun r => grants_permission m (requirement_capability r) (Some (requirement_resource r)) = true)
       (metadata_requirements md)
  /\ Forall (fun effect => Exists (fun r => requirement_capability r = effect) (metadata_requirements md)
                           \/ grants_permission m effect None = true) (metadata_effects md)
  /\ valid_policy_world md = true.
Proof.
  rewrite authorize_Ok, identity_nil. cbn [grant_package_name grant_package_version grant_edition grant_target
    grant_entry from_manifest]. destruct (metadata_package md) as [name version]. cbn [fst snd].
  rewrite (required_granted m md HS). naive_solver.
Qed.

(** C21: Under a validated manifest a secret with a table may be sent to
    exactly the origins of the table, all of them granted, and a secret of
    the legacy list to exactly the granted origins; a credential is pinned to
    the origin it was authorized for. *)
Theorem bearer_confined url_parse version_error (m : Manifest) (name : string) (origin : HttpOrigin) (secret : bytes)
  (HS : bt_sorted (secret_tables m)) (HV : validate_manifest url_parse version_error m = Ok tt) :
  authorize_bearer (from_manifest m) name origin secret
  = if decide (secret_reach m name (origin_normalized origin))
    then Ok (mkAuthorizedBearer (origin_normalized origin) secret)
    else Err (unbound_secret name (origin_normalized origin)).
Proof.
  unfold authorize_bearer. rewrite bearer_from_manifest by done.
  destruct (manifest_permits_bearer m name (origin_normalized origin)) eqn:E; cbn [negb].
  - rewrite decide_True; [done|]. by apply (bearer_reach url_parse version_error).
  - rewrite decide_False; [done|]. intros Hr. apply (bearer_reach url_parse version_error) in Hr; congruence.
Qed.

Lemma grants_exact_witness :
  grants (from_manifest sample_manifest) "state.transaction" (Some "work")
  = grants_permission sample_manifest "state.transaction" (Some "work")
  /\ grants_permission sample_manifest "state.transaction" (Some "work") = true.
Proof.
  assert (bt_sorted (secret_tables sample_manifest)) as HS by (cbn; auto).
  split; [apply (grants_exact sample_manifest HS)|vm_compute; reflexivity].
Defined.

Lemma authorize_exact_witness : authorize (from_manifest sample_manifest) sample_artifact = Ok tt.
Proof.
  apply (authorize_exact sample_manifest sample_artifact); [cbn; auto|].
  repeat split.
  - constructor; [vm_compute; reflexivity|constructor].
  - constructor; [left; by left|constructor].
Defined.

Lemma bearer_confined_witness :
  validate_manifest example_url_parse sample_version sample_manifest = Ok tt
  /\ (forall secret, authorize_bearer (from_manifest sample_manifest) "bound-token"
       (mkHttpOrigin Http "[::1]" 8080 "http://[::1]:8080") secret
       = Err (unbound_secret "bound-token" "http://[::1]:8080")).
Proof.
  assert (validate_manifest example_url_parse sample_version sample_manifest = Ok tt) as HV
    by (vm_compute; reflexivity).
  assert (bt_sorted (secret_tables sample_manifest)) as HS by (cbn; auto).
  split; [exact HV|]. intros secret.
  rewrite (bearer_confined example_url_parse sample_version sample_manifest "bound-token"
    (mkHttpOrigin Http "[::1]" 8080 "http://[::1]:8080") secret HS HV).
  reflexivity.
Defined.

(** ** Findings *)

(** A manifest accepts an entry with a [.] inside its path, which its message
    says it may not have and the build refuses. *)
Example entry_dot_accepted :
  map (fun path => is_ok (validate_entry_path path)) ["src/main.krit"; "./main.krit"; "src/./main.krit"; "../main.krit"]
  = [true; false; true; false].
Proof. reflexivity. Qed.

(** The human report of an artifact without denial reasons says nothing of the
    approvals it requires. *)
Theorem allowed_report_hides_approvals (g : GrantSet) (md : ArtifactMetadata) (approvals : list ApprovalFact) :
  denial_reasons (evaluate g md) = [] ->
  render_permissions (evaluate g md)
  = render_permissions (evaluate g
      (mkArtifactMetadata (metadata_schema md) (metadata_compiler md) (metadata_language md) (metadata_edition md)
         (metadata_package md) (metadata_target md) (metadata_world md) (metadata_entry md) (metadata_digest md)
         (metadata_byte_size md) (metadata_effects md) (metadata_requirements md) approvals (metadata_imports md)
         (metadata_build_profile md) (metadata_policy_version md))).
Proof.
  intros HR. set (changed := evaluate g (mkArtifactMetadata _ _ _ _ _ _ _ _ _ _ _ _ _ _ _ _)).
  assert (denial_reasons changed = denial_reasons (evaluate g md)) as HC by reflexivity.
  unfold render_permissions, render_denials. by rewrite HC, HR.
Qed.
