(* ===== verification/HostLimits.v ===== *)
(** * Limits of the runtime

    Models [krit-runtime/src/limits.rs].  The struct [RuntimeLimits] has one
    number for each of its thirty fields: a field is a constructor of [Limit]
    and the struct a function of it.  Durations are nanoseconds. *)

From S2P Require Import Prelude Capability RuntimeErrors.

Inductive Limit : Type :=
| ComponentBytes | MetadataBytes | MemoryBytes | TableElements | Instances | TableCount | Memories
| WasmStackBytes | Fuel | Deadline | HostCalls | OutputBytes | RequestBodyBytes | ResponseBodyBytes
| HeaderCount | HeaderBytes | HttpCalls | AiCalls | AiInputBytes | AiResponseBytes | AiTimeout
| LogEvents | LogFields | LogValueBytes | LogBytes | ConnectTimeout | ReadTimeout | HttpTimeout
| HostConfigBytes | SecretBytes.

#[export] Instance Limit_eq_dec : EqDecision Limit.
Proof. solve_decision. Defined.

Definition all_limits : list Limit :=
  [ComponentBytes; MetadataBytes; MemoryBytes; TableElements; Instances; TableCount; Memories;
   WasmStackBytes; Fuel; Deadline; HostCalls; OutputBytes; RequestBodyBytes; ResponseBodyBytes;
   HeaderCount; HeaderBytes; HttpCalls; AiCalls; AiInputBytes; AiResponseBytes; AiTimeout; LogEvents;
   LogFields; LogValueBytes; LogBytes; ConnectTimeout; ReadTimeout; HttpTimeout; HostConfigBytes;
   SecretBytes].

Definition RuntimeLimits : Type := Limit -> Z.

Definition HARD_MAX_LIMITS : RuntimeLimits := fun limit =>
  match limit with
  | ComponentBytes => 16 * 1024 * 1024
  | MetadataBytes => 1024 * 1024
  | MemoryBytes => 64 * 1024 * 1024
  | TableElements => 65536
  | Instances => 64
  | TableCount => 32
  | Memories => 8
  | WasmStackBytes => 8 * 1024 * 1024
  | Fuel => 1000000000
  | Deadline => 30 * 1000000000
  | HostCalls => 1000000
  | OutputBytes => 16 * 1024 * 1024
  | RequestBodyBytes => 16 * 1024 * 1024
  | ResponseBodyBytes => 16 * 1024 * 1024
  | HeaderCount => 1024
  | HeaderBytes => 1024 * 1024
  | HttpCalls => 1024
  | AiCalls => 256
  | AiInputBytes => 1024 * 1024
  | AiResponseBytes => 1024 * 1024
  | AiTimeout => 20 * 1000000000
  | LogEvents => 1024
  | LogFields => 128
  | LogValueBytes => 64 * 1024
  | LogBytes => 1024 * 1024
  | ConnectTimeout => 5 * 1000000000
  | ReadTimeout => 10 * 1000000000
  | HttpTimeout => 20 * 1000000000
  | HostConfigBytes => 1024 * 1024
  | SecretBytes => 1024 * 1024
  end.

Definition DEFAULT_LIMITS : RuntimeLimits := fun limit =>
  match limit with
  | ComponentBytes => 4 * 1024 * 1024
  | MetadataBytes => 64 * 1024
  | MemoryBytes => 16 * 1024 * 1024
  | TableElements => 4096
  | Instances => 16
  | TableCount => 8
  | Memories => 1
  | WasmStackBytes => 512 * 1024
  | Fuel => 10000000
  | Deadline => 1 * 1000000000
  | HostCalls => 1024
  | OutputBytes => 1024 * 1024
  | RequestBodyBytes => 1024 * 1024
  | ResponseBodyBytes => 1024 * 1024
  | HeaderCount => 128
  | HeaderBytes => 64 * 1024
  | HttpCalls => 16
  | AiCalls => 8
  | AiInputBytes => 64 * 1024
  | AiResponseBytes => 64 * 1024
  | AiTimeout => 750 * 1000000
  | LogEvents => 128
  | LogFields => 32
  | LogValueBytes => 4 * 1024
  | LogBytes => 64 * 1024
  | ConnectTimeout => 250 * 1000000
  | ReadTimeout => 500 * 1000000
  | HttpTimeout => 750 * 1000000
  | HostConfigBytes => 64 * 1024
  | SecretBytes => 64 * 1024
  end.

Definition limit_label (limit : Limit) : string :=
  match limit with
  | ComponentBytes => "component byte"
  | MetadataBytes => "metadata byte"
  | MemoryBytes => "memory byte"
  | TableElements => "table element"
  | Instances => "instance"
  | TableCount => "table"
  | Memories => "memory count"
  | WasmStackBytes => "Wasm stack byte"
  | Fuel => "fuel"
  | Deadline => "deadline"
  | HostCalls => "host-call"
  | OutputBytes => "output byte"
  | RequestBodyBytes => "request body byte"
  | ResponseBodyBytes => "response body byte"
  | HeaderCount => "header count"
  | HeaderBytes => "header byte"
  | HttpCalls => "HTTP call"
  | AiCalls => "AI call"
  | AiInputBytes => "AI input byte"
  | AiResponseBytes => "AI response byte"
  | AiTimeout => "AI timeout"
  | LogEvents => "log event"
  | LogFields => "log field"
  | LogValueBytes => "log value byte"
  | LogBytes => "log byte"
  | ConnectTimeout => "connect timeout"
  | ReadTimeout => "read timeout"
  | HttpTimeout => "HTTP timeout"
  | HostConfigBytes => "host config byte"
  | SecretBytes => "secret byte"
  end.

(** The fields that are durations, and those that may not become zero. *)
Definition is_duration (limit : Limit) : bool :=
  match limit with Deadline | AiTimeout | ConnectTimeout | ReadTimeout | HttpTimeout => true | _ => false end.
Definition is_nonzero (limit : Limit) : bool :=
  is_duration limit || match limit with WasmStackBytes | Fuel => true | _ => false end.

(** A value as an error shows it: durations in milliseconds. *)
Definition limit_text (limit : Limit) (value : Z) : string :=
  decimal (if is_duration limit then value `div` 1000000 else value).

Definition raise_error (limit : Limit) (requested current : Z) : RuntimeError :=
  resource_error (limit_label limit +:+ " limit " +:+ limit_text limit requested
                  +:+ " cannot raise the host limit " +:+ limit_text limit current).

Definition set_limit (limits : RuntimeLimits) (limit : Limit) (value : Z) : RuntimeLimits :=
  fun other => if decide (other = limit) then value else limits other.

(** [narrow], [narrow_nonzero] and [narrow_duration], and the method of each
    field that calls one of them. *)
Definition narrow (limits : RuntimeLimits) (limit : Limit) (value : Z) : result RuntimeLimits RuntimeError :=
  if is_nonzero limit && (value =? 0) || (limits limit <? value) then Err (raise_error limit value (limits limit))
  else Ok (set_limit limits limit value).

Definition exceeds (limits : RuntimeLimits) (limit : Limit) : bool :=
  is_nonzero limit && (limits limit =? 0) || (HARD_MAX_LIMITS limit <? limits limit).

Definition limits_check (limits : RuntimeLimits) : result unit RuntimeError :=
  if existsb (exceeds limits) all_limits then Err (resource_error "runtime limits exceed host policy 1 maxima")
  else Ok tt.

(** ** Facts *)

Lemma elem_of_all_limits limit : limit ∈ all_limits.
Proof. destruct limit; set_solver. Qed.

Lemma limits_check_Ok limits : limits_check limits = Ok tt <-> forall limit,
  limits limit <= HARD_MAX_LIMITS limit /\ (is_nonzero limit = true -> limits limit <> 0).
Proof.
  unfold limits_check. transitivity (existsb (exceeds limits) all_limits = false).
  { destruct (existsb _ _); naive_solver. }
  rewrite existsb_False, Forall_forall. split.
  - intros Hall limit. specialize (Hall limit (elem_of_all_limits limit)). unfold exceeds in Hall.
    apply orb_false_iff in Hall as [H1 H2%Z.ltb_ge]. split; [done|]. intros HN. rewrite HN in H1. by apply Z.eqb_neq.
  - intros Hall limit _. destruct (Hall limit) as [H1 H2]. unfold exceeds.
    apply orb_false_iff. rewrite Z.ltb_ge. split; [|done].
    destruct (is_nonzero limit); [by apply Z.eqb_neq, H2|done].
Qed.

Lemma set_limit_at limits limit value other :
  set_limit limits limit value other = if decide (other = limit) then value else limits other.
Proof. done. Qed.

(** Narrowing a limit changes it alone, to a value no higher and, where that
    would make no sense, not zero. *)
Lemma narrow_Ok limits limit value narrowed : narrow limits limit value = Ok narrowed <->
  narrowed = set_limit limits limit value /\ value <= limits limit /\ (is_nonzero limit = true -> value <> 0).
Proof.
  unfold narrow. destruct (is_nonzero limit && (value =? 0) || (limits limit <? value)) eqn:E.
  - split; [done|]. intros (_ & Hle & Hz). apply orb_true_iff in E as [E|E%Z.ltb_lt]; [|lia].
    apply andb_true_iff in E as [E1 E2%Z.eqb_eq]. by destruct (Hz E1).
  - apply orb_false_iff in E as [E1 E2%Z.ltb_ge]. split.
    + intros [= <-]. split; [done|]. split; [done|]. intros HN. rewrite HN in E1. by apply Z.eqb_neq.
    + by intros [-> _].
Qed.

(** A sequence of requests to narrow, of which some may be refused. *)
Fixpoint narrow_all (limits : RuntimeLimits) (requests : list (Limit * Z)) : RuntimeLimits :=
  match requests with
  | [] => limits
  | (limit, value) :: requests =>
      narrow_all (match narrow limits limit value with Ok narrowed => narrowed | Err _ => limits end) requests
  end.

(** However a configuration is narrowed, it stays within the hard maxima and
    no limit is raised. *)
Theorem narrowing_lowers (limits : RuntimeLimits) (requests : list (Limit * Z)) :
  limits_check limits = Ok tt ->
  limits_check (narrow_all limits requests) = Ok tt /\ forall limit, narrow_all limits requests limit <= limits limit.
Proof.
  revert limits. induction requests as [|[limit value] requests IH]; intros limits HC; [done|].
  cbn [narrow_all]. destruct (narrow limits limit value) as [narrowed|] eqn:E; [|by apply IH].
  apply narrow_Ok in E as (-> & Hle & Hz). rewrite limits_check_Ok in HC.
  destruct (IH (set_limit limits limit value)) as [H1 H2].
  - apply limits_check_Ok. intros other. rewrite set_limit_at. destruct (HC other). case_decide; [subst; split; [lia|done]|done].
  - split; [done|]. intros other. specialize (H2 other). rewrite set_limit_at in H2. case_decide; subst; lia.
Qed.
