(* ===== verification/Webhook.v ===== *)
(** * HTTP requests and responses

    Models [krit-runtime/src/webhook.rs]: the validation every inbound and
    outbound request and response passes.  The [http] crate is a parameter,
    the record [HttpCrate] of the three parsers the code calls. *)

From S2P Require Import Prelude Utf8 RequestTarget Capability RuntimeErrors HostLimits.

(** ** Data *)

Record HttpHeader : Type := mkHttpHeader {
  header_name : string;
  header_value : string;
}.

Record HttpRequest : Type := mkHttpRequest {
  request_method : string;
  request_path : string;
  request_query : string;
  request_headers : list HttpHeader;
  request_body : string;
}.

Record HttpResponse : Type := mkHttpResponse {
  response_status : Z;
  response_headers : list HttpHeader;
  response_body : string;
}.

#[export] Instance HttpHeader_eq_dec : EqDecision HttpHeader.
Proof. solve_decision. Defined.
#[export] Instance HttpResponse_eq_dec : EqDecision HttpResponse.
Proof. solve_decision. Defined.

(** [Method::from_bytes], [HeaderName::from_bytes] with the name it keeps, and
    [HeaderValue::from_str]. *)
Record HttpCrate : Type := mkHttpCrate {
  method_from_bytes : string -> bool;
  header_name_from_bytes : string -> option string;
  header_value_from_str : string -> bool;
}.

(** ** Checks *)

Definition FORBIDDEN_HEADERS : list string :=
  ["authorization"; "connection"; "content-length"; "host"; "keep-alive"; "proxy-authenticate";
   "proxy-authorization"; "proxy-connection"; "te"; "trailer"; "transfer-encoding"; "upgrade"].

Definition forbidden_header (name : string) : bool := bool_decide (name ∈ FORBIDDEN_HEADERS).

Definition TRAVERSAL_MESSAGE : string :=
  "HTTP request path must not contain a dot segment, a percent-encoded `.`, `/`, `\`, or control byte, a double-encoded or overlong UTF-8 escape, or a malformed percent escape".

Definition validate_path_query (path query : string) : result unit RuntimeError :=
  if negb (has_origin_form_shape (bytes_of path)) then
    Err (guest_error "K4001" "HTTP request path must be a safe origin-form absolute path")
  else if has_traversal_form (bytes_of path) then Err (guest_error "K4001" TRAVERSAL_MESSAGE)
  else if negb (is_valid_query (bytes_of query)) then
    Err (guest_error "K4001"
           "HTTP request query must not contain a leading `?`, fragment, control byte, space, or backslash")
  else Ok tt.

Section Checks.
Context (crate : HttpCrate) (limits : RuntimeLimits).

Fixpoint check_headers (bytes : Z) (headers : list HttpHeader) : result unit RuntimeError :=
  match headers with
  | [] => Ok tt
  | header :: headers =>
      match header_name_from_bytes crate (header_name header) with
      | None => Err (guest_error "K4001" "HTTP header name is invalid")
      | Some name =>
          if negb (header_value_from_str crate (header_value header)) then
            Err (guest_error "K4001" "HTTP header value is invalid")
          else if forbidden_header name then
            Err (guest_error "K4001" ("HTTP header `" +:+ name +:+ "` is not permitted"))
          else
            match usize_checked (bytes + str_len (header_name header)) ≫= fun value =>
                  usize_checked (value + str_len (header_value header)) with
            | None => Err (resource_error "HTTP header byte count overflowed")
            | Some bytes =>
                if limits HeaderBytes <? bytes then
                  Err (resource_error ("HTTP headers exceed the " +:+ decimal (limits HeaderBytes) +:+ "-byte limit"))
                else check_headers bytes headers
            end
      end
  end.

Definition validate_headers (headers : list HttpHeader) : result unit RuntimeError :=
  if limits HeaderCount <? Z.of_nat (length headers) then
    Err (resource_error ("HTTP header count exceeds the " +:+ decimal (limits HeaderCount) +:+ "-header limit"))
  else check_headers 0 headers.

Definition request_validate (request : HttpRequest) : result unit RuntimeError :=
  if negb (method_from_bytes crate (request_method request)) then
    Err (guest_error "K4001" "HTTP request method is not a valid token")
  else if bool_decide (request_method request = "CONNECT") then
    Err (guest_error "K4001" "HTTP CONNECT is not permitted")
  else
    let? _ := validate_path_query (request_path request) (request_query request) in
    let? _ := validate_headers (request_headers request) in
    if limits RequestBodyBytes <? str_len (request_body request) then
      Err (resource_error ("HTTP request body exceeds the " +:+ decimal (limits RequestBodyBytes) +:+ "-byte limit"))
    else Ok tt.

Definition response_validate (response : HttpResponse) : result unit RuntimeError :=
  if negb ((100 <=? response_status response) && (response_status response <=? 599)) then
    Err (guest_error "K4001" "HTTP response status must be in 100..=599")
  else
    let? _ := validate_headers (response_headers response) in
    if limits ResponseBodyBytes <? str_len (response_body response) then
      Err (resource_error ("HTTP response body exceeds the " +:+ decimal (limits ResponseBodyBytes) +:+ "-byte limit"))
    else Ok tt.

(** ** What is accepted *)

Definition header_size (header : HttpHeader) : Z := str_len (header_name header) + str_len (header_value header).
Definition headers_size (headers : list HttpHeader) : Z := foldr (fun header n => header_size header + n) 0 headers.

Definition header_ok (header : HttpHeader) : Prop :=
  exists name, header_name_from_bytes crate (header_name header) = Some name
  /\ header_value_from_str crate (header_value header) = true /\ name ∉ FORBIDDEN_HEADERS.

Definition headers_ok (headers : list HttpHeader) : Prop :=
  Z.of_nat (length headers) <= limits HeaderCount /\ headers_size headers <= limits HeaderBytes
  /\ Forall header_ok headers.

Lemma text_len_nonneg s : 0 <= str_len s.
Proof. unfold str_len. lia. Qed.

Lemma headers_size_nonneg headers : 0 <= headers_size headers.
Proof.
  induction headers as [|header headers IH]; [done|].
  change (0 <= header_size header + headers_size headers). unfold header_size.
  pose proof (text_len_nonneg (header_name header)). pose proof (text_len_nonneg (header_value header)). lia.
Qed.

Lemma add_header bytes header : 0 <= bytes -> bytes + header_size header <= usize_max ->
  (usize_checked (bytes + str_len (header_name header)) ≫= fun value => usize_checked (value + str_len (header_value header)))
  = Some (bytes + header_size header).
Proof.
  intros H0 Hm. unfold header_size in *.
  pose proof (text_len_nonneg (header_name header)). pose proof (text_len_nonneg (header_value header)).
  apply bind_Some. exists (bytes + str_len (header_name header)).
  split; apply usize_checked_Some; (split; [ring|lia]).
Qed.

Lemma check_headers_Ok (HL : limits HeaderBytes <= usize_max) headers : forall bytes, 0 <= bytes <= limits HeaderBytes ->
  check_headers bytes headers = Ok tt <-> bytes + headers_size headers <= limits HeaderBytes /\ Forall header_ok headers.
Proof.
  induction headers as [|header headers IH]; intros bytes Hb; cbn [check_headers headers_size foldr].
  { split; [split; [lia|constructor]|done]. }
  rewrite Forall_cons. fold (headers_size headers). pose proof (headers_size_nonneg headers) as Hn.
  assert (0 <= header_size header) as Hh.
  { unfold header_size. pose proof (text_len_nonneg (header_name header)). pose proof (text_len_nonneg (header_value header)). lia. }
  unfold header_ok at 1. destruct (header_name_from_bytes crate (header_name header)) as [name|]; [|naive_solver].
  destruct (header_value_from_str crate (header_value header)); cbn [negb]; [|naive_solver].
  unfold forbidden_header. case_bool_decide as HF; [naive_solver|].
  destruct (usize_checked _ ≫= _) as [bytes'|] eqn:E.
  - apply bind_Some in E as (v & [-> ?]%usize_checked_Some & [-> ?]%usize_checked_Some).
    replace (bytes + str_len (header_name header) + str_len (header_value header)) with (bytes + header_size header)
      by (unfold header_size; ring).
    destruct (limits HeaderBytes <? bytes + header_size header) eqn:EL; z_facts.
    + split; [done|]. lia.
    + rewrite IH by lia. split; [intros [? ?]; split; [lia|naive_solver]|intros [? [_ ?]]; split; [lia|done]].
  - split; [done|]. intros [Hle _]. rewrite add_header in E by lia. done.
Qed.

Lemma validate_headers_Ok (HL : 0 <= limits HeaderBytes <= usize_max) headers :
  validate_headers headers = Ok tt <-> headers_ok headers.
Proof.
  unfold validate_headers, headers_ok. destruct (limits HeaderCount <? Z.of_nat (length headers)) eqn:E; z_facts.
  - split; [done|lia].
  - rewrite check_headers_Ok by lia. rewrite Z.add_0_l. naive_solver.
Qed.

(** A request is accepted exactly when its method is a token other than
    [CONNECT], its path and query are of the safe forms, and its headers and
    body are allowed and within the limits. *)
Theorem request_validate_iff (HL : 0 <= limits HeaderBytes <= usize_max) (request : HttpRequest) :
  request_validate request = Ok tt <->
  method_from_bytes crate (request_method request) = true /\ request_method request <> "CONNECT"
  /\ is_origin_form_path (bytes_of (request_path request)) = true
  /\ is_valid_query (bytes_of (request_query request)) = true
  /\ headers_ok (request_headers request)
  /\ str_len (request_body request) <= limits RequestBodyBytes.
Proof.
  rewrite <- (validate_headers_Ok HL). unfold request_validate, validate_path_query, is_origin_form_path.
  destruct (method_from_bytes crate (request_method request)); [|naive_solver]. cbn [negb].
  case_bool_decide; [naive_solver|].
  destruct (has_origin_form_shape (bytes_of (request_path request))); [|naive_solver]. cbn [negb].
  destruct (has_traversal_form (bytes_of (request_path request))); [naive_solver|].
  destruct (is_valid_query (bytes_of (request_query request))); [|naive_solver]. cbn.
  destruct (validate_headers (request_headers request)) as [[]|]; [|naive_solver]. cbn.
  destruct (limits RequestBodyBytes <? str_len (request_body request)) eqn:E; z_facts; [|naive_solver].
  split; [done|]. lia.
Qed.

Theorem response_validate_iff (HL : 0 <= limits HeaderBytes <= usize_max) (response : HttpResponse) :
  response_validate response = Ok tt <->
  100 <= response_status response <= 599 /\ headers_ok (response_headers response)
  /\ str_len (response_body response) <= limits ResponseBodyBytes.
Proof.
  rewrite <- (validate_headers_Ok HL). unfold response_validate.
  destruct ((100 <=? response_status response) && (response_status response <=? 599)) eqn:E; cbn [negb].
  - apply andb_true_iff in E as [? ?]. z_facts.
    destruct (validate_headers (response_headers response)) as [[]|]; [|naive_solver]. cbn.
    destruct (limits ResponseBodyBytes <? str_len (response_body response)) eqn:EB; z_facts; [|naive_solver].
    split; [done|]. lia.
  - split; [done|]. intros [[? ?] _]. apply andb_false_iff in E as [E|E]; z_facts; lia.
Qed.
End Checks.
