(* ===== verification/HostPolicy.v ===== *)
(** * The policy of the host

    Models [krit-runtime/src/policy.rs] but for idempotency: approvals,
    retries, rate limits and the validation of a host policy.  An [Instant]
    is its nanoseconds since some moment; the readings of the clock are
    arguments.  [RateState] keeps its poison flag. *)

From S2P Require Import Prelude BTree Sorting RequestTarget Capability RuntimeErrors HostLimits Store.

Definition MAX_POLICY_RESOURCES : Z := 256.
Definition MAX_RETRY_ATTEMPTS : Z := 4.
Definition MAX_RETRY_DELAY : Duration := from_secs 2.
Definition MAX_RATE_CAPACITY : Z := 10000.
Definition MAX_RATE_WINDOW : Duration := from_secs (60 * 60).
Definition MAX_IDEMPOTENCY_ENTRIES : Z := 1024.
Definition MAX_IDEMPOTENCY_BYTES : Z := 64 * 1024 * 1024.
Definition MAX_IDEMPOTENCY_TTL : Duration := from_secs (60 * 60).
Definition MAX_IDEMPOTENCY_KEY_BYTES : Z := 128.

(** ** Approvals *)

Inductive ApprovalOperation : Type := AiInvoke | HttpBearer.
Definition approval_str (operation : ApprovalOperation) : string :=
  match operation with AiInvoke => "ai.invoke" | HttpBearer => "http.bearer" end.

#[export] Instance ApprovalOperation_eq_dec : EqDecision ApprovalOperation.
Proof. solve_decision. Defined.
#[export] Instance Cmp_ApprovalOperation : Cmp ApprovalOperation :=
  fun a b => match a, b with AiInvoke, HttpBearer => Lt | HttpBearer, AiInvoke => Gt | _, _ => Eq end.
#[export] Instance CmpOk_ApprovalOperation : CmpOk ApprovalOperation.
Proof. split; [intros [] []|intros [] []|intros [] [] []]; done. Qed.

(** The keys of a [BTreeSet] are those of a map to nothing. *)
Definition ExplicitApprovalPolicy : Type := btree (ApprovalOperation * string) unit.

Definition approve (policy : ExplicitApprovalPolicy) (operation : ApprovalOperation) (resource : string) : bool :=
  is_some (bt_get (operation, resource) policy).

Section Approvals.
Context (url_parse : string -> option Url).

Definition valid_approval (operation : ApprovalOperation) (resource : string) : bool :=
  match operation with
  | AiInvoke => is_valid_resource_name (bytes_of resource)
  | HttpBearer => is_ok (parse_exact url_parse resource)
  end.

Fixpoint add_approvals (entries : list (ApprovalOperation * string)) (allowed : ExplicitApprovalPolicy)
  : result ExplicitApprovalPolicy RuntimeError :=
  match entries with
  | [] => Ok allowed
  | (operation, resource) :: entries =>
      if negb (valid_approval operation resource) then
        Err (setup_error ("invalid approval resource `" +:+ resource +:+ "` for `" +:+ approval_str operation +:+ "`"))
      else if is_some (bt_get (operation, resource) allowed) then
        Err (setup_error ("duplicate approval entry for `" +:+ approval_str operation +:+ "` resource `"
               +:+ resource +:+ "`"))
      else add_approvals entries (bt_insert (operation, resource) tt allowed)
  end.

Definition new_approvals (entries : list (ApprovalOperation * string)) : result ExplicitApprovalPolicy RuntimeError :=
  let? allowed := add_approvals entries [] in
  if MAX_POLICY_RESOURCES <? Z.of_nat (length allowed) then
    Err (resource_error ("approval entries exceed the " +:+ decimal MAX_POLICY_RESOURCES +:+ "-entry limit"))
  else Ok allowed.
End Approvals.

(** ** Retries *)

Record RetryPolicy : Type := mkRetryPolicy {
  max_attempts : Z;
  base_delay : Duration;
  max_delay : Duration;
}.
Definition default_retry : RetryPolicy := mkRetryPolicy 1 (from_millis 25) (from_millis 200).

Definition retry_validate (retry : RetryPolicy) : result unit RuntimeError :=
  if negb ((1 <=? max_attempts retry) && (max_attempts retry <=? MAX_RETRY_ATTEMPTS))
     || (max_delay retry <? base_delay retry) || (MAX_RETRY_DELAY <? max_delay retry) then
    Err (setup_error ("retry policy must use 1..=" +:+ decimal MAX_RETRY_ATTEMPTS
           +:+ " attempts and delays no greater than " +:+ decimal (as_millis MAX_RETRY_DELAY) +:+ " ms"))
  else Ok tt.

Definition u32_max : Z := 2 ^ 32 - 1.

Definition retry_delay (retry : RetryPolicy) (completed_attempts : Z) : Duration :=
  let exponent := Z.max (completed_attempts - 1) 0 in
  Z.min (duration_saturating_mul (base_delay retry) (Z.min (2 ^ exponent) u32_max)) (max_delay retry).

(** ** Rate limits *)

Record RateLimitPolicy : Type := mkRateLimitPolicy {
  capacity : Z;
  window : Duration;
}.

Definition rate_validate (rate : RateLimitPolicy) : result unit RuntimeError :=
  if (capacity rate =? 0) || (MAX_RATE_CAPACITY <? capacity rate) || (window rate <? from_millis 1)
     || (MAX_RATE_WINDOW <? window rate) then
    Err (setup_error ("rate policy must use capacity 1..=" +:+ decimal MAX_RATE_CAPACITY +:+ " and a 1..="
           +:+ decimal (as_millis MAX_RATE_WINDOW) +:+ " ms window"))
  else Ok tt.

Inductive RateResource : Type := RateAi (name : string) | RateHttp (origin : string).

#[export] Instance RateResource_eq_dec : EqDecision RateResource.
Proof. solve_decision. Defined.
#[export] Instance RateResource_countable : Countable RateResource.
Proof.
  refine (inj_countable' (fun r => match r with RateAi s => inl s | RateHttp s => inr s end)
            (fun r => match r with inl s => RateAi s | inr s => RateHttp s end) _).
  by intros [].
Defined.
#[export] Instance Cmp_RateResource : Cmp RateResource :=
  fun a b => match a, b with
  | RateAi a, RateAi b => cmp a b
  | RateAi _, RateHttp _ => Lt
  | RateHttp _, RateAi _ => Gt
  | RateHttp a, RateHttp b => cmp a b
  end.
#[export] Instance CmpOk_RateResource : CmpOk RateResource.
Proof.
  split.
  - intros [a|a] [b|b]; try done; (transitivity (a = b); [exact (cmp_eq_iff a b)|naive_solver]).
  - intros [a|a] [b|b]; try done; exact (cmp_antisym a b).
  - intros [a|a] [b|b] [c|c]; try done; exact (cmp_trans a b c).
Qed.

Record RateEntry : Type := mkRateEntry {
  window_started : Z;
  rate_count : Z;
  rate_last_used : Z;
}.

Record RateState : Type := mkRateState {
  rate_entries : btree RateResource RateEntry;
  rate_sequence : Z;
  rate_poisoned : bool;
}.
Definition new_rates : RateState := mkRateState [] 0 false.

(** [iter().min_by_key(|(_, entry)| entry.last_used)]: the first of the least. *)
Definition least_by {K V} (used : V -> Z) (entries : btree K V) : option K :=
  fst <$> fold_left (fun best entry =>
    match best with
    | None => Some entry
    | Some kept => if used (snd entry) <? used (snd kept) then Some entry else Some kept
    end) entries None.

(** A place for the resource, when there is one. *)
Definition tracked (max_tracked : Z) (entries : btree RateResource RateEntry) (resource : RateResource)
    (sequence inserted_at : Z) : result (btree RateResource RateEntry) string :=
  match bt_get resource entries with
  | Some _ => Ok entries
  | None =>
      let? entries :=
        if max_tracked <=? Z.of_nat (length entries) then
          match least_by rate_last_used entries with
          | None => Err "rate policy resource tracking is disabled"
          | Some evicted => Ok (bt_remove evicted entries)
          end
        else Ok entries in
      Ok (bt_insert resource (mkRateEntry inserted_at 0 sequence) entries)
  end.

(** The entry of a resource in the window of [now]. *)
Definition current_window (policy : RateLimitPolicy) (entry : RateEntry) (sequence now : Z) : RateEntry :=
  if window policy <=? Z.max (now - window_started entry) 0 then mkRateEntry now 0 sequence
  else mkRateEntry (window_started entry) (rate_count entry) sequence.

(** [inserted_at] and [now] are the two readings of the clock; a missing entry
    is a panic, the outcome [None], which poisons the lock. *)
Definition check_rate (max_tracked : Z) (state : RateState) (resource : RateResource) (policy : RateLimitPolicy)
    (label : string) (inserted_at now : Z) : RateState * option (result unit string) :=
  if rate_poisoned state then (state, Some (Err "rate policy state is unavailable"))
  else
    let sequence := u64_saturating_add (rate_sequence state) 1 in
    match tracked max_tracked (rate_entries state) resource sequence inserted_at with
    | Err message => (mkRateState (rate_entries state) sequence false, Some (Err message))
    | Ok entries =>
        match bt_get resource entries with
        | None => (mkRateState entries sequence true, None)
        | Some entry =>
            let entry := current_window policy entry sequence now in
            if capacity policy <=? rate_count entry then
              (mkRateState (bt_insert resource entry entries) sequence false,
               Some (Err ("rate limit exceeded for `" +:+ label +:+ "`")))
            else
              (mkRateState (bt_insert resource
                 (mkRateEntry (window_started entry) (rate_count entry + 1) (rate_last_used entry)) entries)
                 sequence false, Some (Ok tt))
        end
    end.

Definition tracked_rate_resource_count (state : RateState) : Z :=
  if rate_poisoned state then 0 else Z.of_nat (length (rate_entries state)).

(** ** The whole policy *)

Record IdempotencyPolicy : Type := mkIdempotencyPolicy {
  ip_max_entries : Z;
  ip_max_bytes : Z;
  ip_ttl : Duration;
  ip_max_key_bytes : Z;
}.
Definition default_idempotency : IdempotencyPolicy :=
  mkIdempotencyPolicy 128 (16 * 1024 * 1024) (from_secs (5 * 60)) MAX_IDEMPOTENCY_KEY_BYTES.

Definition idempotency_validate (policy : IdempotencyPolicy) : result unit RuntimeError :=
  if (MAX_IDEMPOTENCY_ENTRIES <? ip_max_entries policy) || (MAX_IDEMPOTENCY_BYTES <? ip_max_bytes policy)
     || (ip_ttl policy =? 0) || (MAX_IDEMPOTENCY_TTL <? ip_ttl policy) || (ip_max_key_bytes policy =? 0)
     || (MAX_IDEMPOTENCY_KEY_BYTES <? ip_max_key_bytes policy) then
    Err (setup_error "idempotency policy exceeds host hard maxima")
  else Ok tt.

(** [AiAdapterConfig] has the one variant [HttpJson]. *)
Record HttpJsonAdapterConfig : Type := mkHttpJsonAdapter {
  adapter_origin : string;
  adapter_path : string;
  adapter_model : string;
  adapter_secret : option string;
  max_input_bytes : Z;
  max_response_bytes : Z;
  adapter_timeout : Duration;
}.

Record AgentHostPolicy : Type := mkAgentHostPolicy {
  ai_adapters : btree string HttpJsonAdapterConfig;
  default_http_retry : RetryPolicy;
  default_ai_retry : RetryPolicy;
  http_retries : btree string RetryPolicy;
  ai_retries : btree string RetryPolicy;
  default_http_rate : RateLimitPolicy;
  default_ai_rate : RateLimitPolicy;
  http_rates : btree string RateLimitPolicy;
  ai_rates : btree string RateLimitPolicy;
  max_tracked_resources : Z;
  idempotency : IdempotencyPolicy;
}.
Definition default_policy : AgentHostPolicy :=
  mkAgentHostPolicy [] default_retry default_retry [] [] (mkRateLimitPolicy 64 (from_secs 60))
    (mkRateLimitPolicy 16 (from_secs 60)) [] [] 128 default_idempotency.

Definition validate_for_limits (policy : AgentHostPolicy) (limits : RuntimeLimits) : result unit RuntimeError :=
  match find (fun '(name, adapter) =>
    (limits AiInputBytes <? max_input_bytes adapter) || (limits AiResponseBytes <? max_response_bytes adapter)
    || (limits AiTimeout <? adapter_timeout adapter)) (ai_adapters policy) with
  | Some (name, _) => Err (resource_error ("AI adapter `" +:+ name +:+ "` exceeds selected runtime limits"))
  | None => Ok tt
  end.

Section Validation.
Context (url_parse : string -> option Url).

Definition validate_http_json_adapter (name : string) (adapter : HttpJsonAdapterConfig) : result unit RuntimeError :=
  let complain text := setup_error ("AI adapter `" +:+ name +:+ text) in
  match parse_exact url_parse (adapter_origin adapter) with
  | Err error => Err (complain ("` has invalid origin: " +:+ origin_message error))
  | Ok _ =>
      if negb (is_origin_form_path (bytes_of (adapter_path adapter))) then
        Err (complain "` has an invalid relative path")
      else if bool_decide (adapter_model adapter = "") || (128 <? str_len (adapter_model adapter))
              || existsb (fun b => (128 <=? byte_val b)%N || is_ascii_control b) (bytes_of (adapter_model adapter)) then
        Err (complain "` has an invalid model identifier")
      else if match adapter_secret adapter with
              | Some secret => negb (is_valid_resource_name (bytes_of secret))
              | None => false
              end then Err (complain "` has an invalid secret name")
      else if (max_input_bytes adapter =? 0) || (HARD_MAX_LIMITS AiInputBytes <? max_input_bytes adapter)
              || (max_response_bytes adapter =? 0) || (HARD_MAX_LIMITS AiResponseBytes <? max_response_bytes adapter)
              || (adapter_timeout adapter =? 0) || (HARD_MAX_LIMITS AiTimeout <? adapter_timeout adapter) then
        Err (complain "` exceeds hard input, response, or timeout bounds")
      else Ok tt
  end.

(** [for value in values { check(value)?; }]. *)
Fixpoint for_each {A} (check : A -> result unit RuntimeError) (values : list A) : result unit RuntimeError :=
  match values with [] => Ok tt | value :: values => let? _ := check value in for_each check values end.

Definition validate_policy (policy : AgentHostPolicy) : result unit RuntimeError :=
  let? _ := for_each (fun count =>
    if MAX_POLICY_RESOURCES <? count then
      Err (resource_error ("host policy map exceeds the " +:+ decimal MAX_POLICY_RESOURCES +:+ "-entry limit"))
    else Ok tt)
    [Z.of_nat (length (ai_adapters policy)); Z.of_nat (length (http_retries policy));
     Z.of_nat (length (ai_retries policy)); Z.of_nat (length (http_rates policy));
     Z.of_nat (length (ai_rates policy))] in
  let? _ := retry_validate (default_http_retry policy) in
  let? _ := retry_validate (default_ai_retry policy) in
  let? _ := for_each retry_validate (map snd (http_retries policy) ++ map snd (ai_retries policy)) in
  let? _ := rate_validate (default_http_rate policy) in
  let? _ := rate_validate (default_ai_rate policy) in
  let? _ := for_each rate_validate (map snd (http_rates policy) ++ map snd (ai_rates policy)) in
  let? _ := idempotency_validate (idempotency policy) in
  if (max_tracked_resources policy =? 0) || (MAX_POLICY_RESOURCES <? max_tracked_resources policy) then
    Err (setup_error ("max tracked rate resources must be 1..=" +:+ decimal MAX_POLICY_RESOURCES))
  else
    let? _ := for_each (fun origin =>
      match parse_exact url_parse origin with
      | Ok _ => Ok tt
      | Err error => Err (setup_error ("invalid HTTP policy origin `" +:+ origin +:+ "`: " +:+ origin_message error))
      end) (bt_keys (http_retries policy) ++ bt_keys (http_rates policy)) in
    let? _ := for_each (fun adapter =>
      if negb (is_valid_resource_name (bytes_of adapter)) || negb (is_some (bt_get adapter (ai_adapters policy))) then
        Err (setup_error ("AI policy references unknown adapter `" +:+ adapter +:+ "`"))
      else Ok tt) (bt_keys (ai_retries policy) ++ bt_keys (ai_rates policy)) in
    for_each (fun '(name, adapter) =>
      if negb (is_valid_resource_name (bytes_of name)) then
        Err (setup_error ("invalid AI adapter name `" +:+ name +:+ "`"))
      else validate_http_json_adapter name adapter) (ai_adapters policy).
End Validation.

(** ** Facts of approvals and retries *)

Lemma add_approvals_Ok url_parse entries : forall allowed policy, bt_sorted allowed ->
  add_approvals url_parse entries allowed = Ok policy ->
  bt_sorted policy /\ forall key, is_some (bt_get key policy) = true <-> is_some (bt_get key allowed) = true \/ key ∈ entries.
Proof.
  induction entries as [|[operation resource] entries IH]; intros allowed policy HS; cbn [add_approvals].
  { intros [= <-]. split; [done|]. intros key. rewrite elem_of_nil. tauto. }
  destruct (valid_approval url_parse operation resource); [|done]. cbn [negb].
  destruct (is_some (bt_get (operation, resource) allowed)) eqn:E; [done|]. intros HA.
  apply IH in HA as [HP Hk]; [|by apply bt_insert_sorted]. split; [done|]. intros key. rewrite Hk, elem_of_cons.
  destruct (decide (key = (operation, resource))) as [->|Hne].
  - rewrite bt_get_insert_eq by done. cbn. tauto.
  - rewrite bt_get_insert_ne by done. tauto.
Qed.

(** An accepted list approves exactly its entries. *)
Theorem approvals_exact url_parse (entries : list (ApprovalOperation * string)) (policy : ExplicitApprovalPolicy)
    (operation : ApprovalOperation) (resource : string) :
  new_approvals url_parse entries = Ok policy ->
  approve policy operation resource = true <-> (operation, resource) ∈ entries.
Proof.
  intros (allowed & HA & Hlen)%result_bind_Ok. destruct (_ <? _); [done|]. injection Hlen as <-.
  apply add_approvals_Ok in HA as [_ Hk]; [|done]. unfold approve. rewrite Hk. cbn. naive_solver.
Qed.

(** A retry waits at least the base delay and never more than the largest. *)
Theorem retry_delay_bounded (retry : RetryPolicy) (completed : Z) :
  retry_validate retry = Ok tt -> 0 <= base_delay retry -> 0 <= completed ->
  base_delay retry <= retry_delay retry completed <= max_delay retry.
Proof.
  unfold retry_validate. destruct (_ || _) eqn:E; [done|]. intros _ Hb Hc.
  repeat (apply orb_false_iff in E as [E ?]). z_facts. unfold retry_delay, duration_saturating_mul.
  assert (1 <= 2 ^ Z.max (completed - 1) 0) by (pose proof (Z.pow_pos_nonneg 2 (Z.max (completed - 1) 0)); lia).
  unfold MAX_RETRY_DELAY, from_secs, DURATION_MAX, u64_max, u32_max in *. nia.
Qed.
