(* ===== verification/RateFacts.v ===== *)
(** * Rate limits hold

    Runs of [check_rate]: the number of tracked resources stays bounded, and
    while no more resources are called than are tracked, a resource is admitted
    at most twice its capacity in any span as long as its window. *)

From S2P Require Import Prelude BTree Capability RuntimeErrors HostLimits Store HostPolicy.

(** ** Runs *)

Record RateCall : Type := mkRateCall {
  call_resource : RateResource;
  call_policy : RateLimitPolicy;
  call_label : string;
  call_inserted_at : Z;
  call_now : Z;
}.

Fixpoint rate_run (max_tracked : Z) (state : RateState) (calls : list RateCall)
  : RateState * list (RateCall * option (result unit string)) :=
  match calls with
  | [] => (state, [])
  | call :: calls =>
      let (state, outcome) := check_rate max_tracked state (call_resource call) (call_policy call) (call_label call)
                                (call_inserted_at call) (call_now call) in
      let (state, outcomes) := rate_run max_tracked state calls in
      (state, (call, outcome) :: outcomes)
  end.

(** The clock does not run backwards. *)
Fixpoint clock_runs (since : Z) (calls : list RateCall) : Prop :=
  match calls with
  | [] => True
  | call :: calls =>
      since <= call_inserted_at call /\ call_inserted_at call <= call_now call /\ clock_runs (call_now call) calls
  end.

Definition admitted (r : RateResource) (entry : RateCall * option (result unit string)) : bool :=
  bool_decide (call_resource (fst entry) = r)
  && match snd entry with Some (Ok _) => true | _ => false end.

(** When a resource was admitted. *)
Definition admissions (r : RateResource) (outcomes : list (RateCall * option (result unit string))) : list Z :=
  map (fun entry => call_now (fst entry)) (List.filter (admitted r) outcomes).

(** How many of the moments are at least [low] and below [high]. *)
Definition within_span (low high : Z) (moments : list Z) : Z :=
  Z.of_nat (length (List.filter (fun moment => (low <=? moment) && (moment <? high)) moments)).

(** ** Counting *)

Definition since (low : Z) (moments : list Z) : Z :=
  Z.of_nat (length (List.filter (fun moment => low <=? moment) moments)).

Lemma within_span_cons low high moment moments :
  within_span low high (moment :: moments)
  = (if (low <=? moment) && (moment <? high) then 1 else 0) + within_span low high moments.
Proof. unfold within_span. cbn [List.filter]. destruct ((low <=? moment) && (moment <? high)); cbn [length]; lia. Qed.

Lemma since_cons low moment moments :
  since low (moment :: moments) = (if low <=? moment then 1 else 0) + since low moments.
Proof. unfold since. cbn [List.filter]. destruct (low <=? moment); cbn [length]; lia. Qed.

Lemma within_span_app low high a b : within_span low high (a ++ b) = within_span low high a + within_span low high b.
Proof. unfold within_span. rewrite List.filter_app, length_app. lia. Qed.

Lemma since_app low a b : since low (a ++ b) = since low a + since low b.
Proof. unfold since. rewrite List.filter_app, length_app. lia. Qed.

Lemma within_span_nonneg low high moments : 0 <= within_span low high moments.
Proof. unfold within_span. lia. Qed.

Ltac span_cases :=
  repeat match goal with
  | |- context [?a <=? ?b] => destruct (a <=? b) eqn:?
  | |- context [?a <? ?b] => destruct (a <? b) eqn:?
  end; z_facts; cbn [andb]; lia.

(** A span splits at any moment, and its end counts at most what came since. *)
Lemma within_span_split low mid high moments :
  within_span low high moments <= within_span low mid moments + since mid moments.
Proof.
  induction moments as [|moment moments IH]; [done|]. rewrite !within_span_cons, since_cons. span_cases.
Qed.

Lemma within_span_since low high moments : within_span low high moments <= since low moments.
Proof.
  induction moments as [|moment moments IH]; [done|]. rewrite within_span_cons, since_cons. span_cases.
Qed.

Lemma within_span_late low high moments : Forall (fun moment => moment < low) moments -> within_span low high moments = 0.
Proof.
  induction 1 as [|moment moments Hm _ IH]; [done|]. rewrite within_span_cons, IH. span_cases.
Qed.

Lemma since_late low moments : Forall (fun moment => moment < low) moments -> since low moments = 0.
Proof. induction 1 as [|moment moments Hm _ IH]; [done|]. rewrite since_cons, IH. span_cases. Qed.

Lemma since_mono low low' moments : low <= low' -> since low' moments <= since low moments.
Proof.
  intros Hl. induction moments as [|moment moments IH]; [done|]. rewrite !since_cons. span_cases.
Qed.

(** ** One window *)

Section Window.
Context (policy : RateLimitPolicy) (Hspan : 0 < window policy) (Hlimit : 0 <= capacity policy).

(** What an entry says of the moments its resource was admitted at. *)
Record window_ok (entry : RateEntry) (moments : list Z) : Prop := mkWindowOk {
  wo_count : rate_count entry = since (window_started entry) moments;
  wo_limit : rate_count entry <= capacity policy;
  wo_before : forall low, window_started entry - window policy < low ->
    within_span low (window_started entry) moments <= capacity policy;
  wo_end : Forall (fun moment => moment < window_started entry + window policy) moments;
}.

Definition spans_ok (moments : list Z) : Prop :=
  forall low, within_span low (low + window policy) moments <= 2 * capacity policy.

Lemma fresh_window_ok started sequence : window_ok (mkRateEntry started 0 sequence) [].
Proof. constructor; cbn; [done|done|intros; exact Hlimit|constructor]. Qed.

Lemma current_window_ok entry moments sequence now : window_ok entry moments -> window_started entry <= now ->
  let entry' := current_window policy entry sequence now in
  window_ok entry' moments /\ window_started entry' <= now < window_started entry' + window policy.
Proof.
  intros [Hc Hl Hb He] Hs. unfold current_window.
  destruct (window policy <=? Z.max (now - window_started entry) 0) eqn:E; z_facts; cbn.
  - split; [|lia]. assert (Forall (fun moment => moment < now) moments) as Hlate
      by (eapply Forall_impl; [exact He|]; cbn; lia).
    constructor; cbn; [by rewrite since_late|done| |eapply Forall_impl; [exact Hlate|]; cbn; lia].
    intros low Hlow. pose proof (within_span_since low now moments).
    pose proof (since_mono (window_started entry) low moments). lia.
  - split; [by constructor|lia].
Qed.

Lemma admit_ok entry moments now : window_ok entry moments -> spans_ok moments ->
  window_started entry <= now < window_started entry + window policy -> rate_count entry < capacity policy ->
  window_ok (mkRateEntry (window_started entry) (rate_count entry + 1) (rate_last_used entry)) (moments ++ [now])
  /\ spans_ok (moments ++ [now]).
Proof.
  intros [Hc Hl Hb He] HS Hn Hr. split; [constructor; cbn [rate_count window_started]|].
  - rewrite since_app, since_cons. unfold since at 2. cbn. span_cases.
  - lia.
  - intros low Hlow. rewrite within_span_app, within_span_cons. specialize (Hb low Hlow).
    unfold within_span at 2. cbn. span_cases.
  - apply Forall_app. split; [done|]. constructor; [lia|constructor].
  - intros low. rewrite within_span_app, within_span_cons. specialize (HS low). unfold within_span at 2. cbn.
    destruct ((low <=? now) && (now <? low + window policy)) eqn:E; [|lia].
    apply andb_true_iff in E as [? ?]. z_facts.
    pose proof (within_span_split low (window_started entry) (low + window policy) moments).
    specialize (Hb low ltac:(lia)). lia.
Qed.
End Window.

(** ** One call *)

Section Calls.
Context (max_tracked : Z) (seen : gset RateResource) (Hseen : Z.of_nat (size seen) <= max_tracked).

(** The tracked resources are among those that are called. *)
Record rates_ok (state : RateState) : Prop := mkRatesOk {
  ro_lock : rate_poisoned state = false;
  ro_sorted : bt_sorted (rate_entries state);
  ro_seen : forall r, is_Some (bt_get r (rate_entries state)) -> r ∈ seen;
}.

Lemma room state r : rates_ok state -> r ∈ seen -> bt_get r (rate_entries state) = None ->
  Z.of_nat (length (rate_entries state)) < max_tracked.
Proof using Hseen.
  intros [_ HS HK] Hr Hg.
  assert (size (list_to_set (bt_keys (rate_entries state)) : gset RateResource) = length (rate_entries state)) as Hlen.
  { rewrite size_list_to_set by by apply bt_sorted_NoDup. unfold bt_keys. by rewrite length_map. }
  assert ((list_to_set (bt_keys (rate_entries state)) : gset RateResource) ⊆ seen ∖ {[r]}) as Hsub.
  { intros k Hk. apply elem_of_list_to_set, list_elem_of_fmap in Hk as ([k' e] & -> & Hin).
    apply list_elem_of_In, (bt_get_In _ _ _ HS) in Hin. cbn in *. apply elem_of_difference. split.
    - apply HK. by rewrite Hin.
    - rewrite elem_of_singleton. intros ->. congruence. }
  apply subseteq_size in Hsub. rewrite size_difference in Hsub by (apply singleton_subseteq_l; exact Hr).
  rewrite size_singleton in Hsub. assert (size seen <> 0%nat) by (intros ?%size_empty_inv; set_solver). lia.
Qed.

Definition entry_of (state : RateState) (r : RateResource) (sequence inserted_at : Z) : RateEntry :=
  default (mkRateEntry inserted_at 0 sequence) (bt_get r (rate_entries state)).

(** While there is room, a call keeps the entries of the other resources and
    admits exactly when the window of its own has capacity left. *)
Lemma check_rate_step state r policy label inserted_at now (sequence := u64_saturating_add (rate_sequence state) 1)
    (entry := current_window policy (entry_of state r sequence inserted_at) sequence now) :
  rates_ok state -> r ∈ seen ->
  exists state', rates_ok state'
  /\ (forall k, k <> r -> bt_get k (rate_entries state') = bt_get k (rate_entries state))
  /\ if capacity policy <=? rate_count entry
     then check_rate max_tracked state r policy label inserted_at now
          = (state', Some (Err ("rate limit exceeded for `" +:+ label +:+ "`")))
          /\ bt_get r (rate_entries state') = Some entry
     else check_rate max_tracked state r policy label inserted_at now = (state', Some (Ok tt))
          /\ bt_get r (rate_entries state')
             = Some (mkRateEntry (window_started entry) (rate_count entry + 1) (rate_last_used entry)).
Proof using Hseen.
  intros HR Hr. pose proof HR as [HL HS HK].
  assert (exists entries, tracked max_tracked (rate_entries state) r sequence inserted_at = Ok entries
    /\ bt_sorted entries /\ bt_get r entries = Some (entry_of state r sequence inserted_at)
    /\ forall k, k <> r -> bt_get k entries = bt_get k (rate_entries state)) as (entries & Ht & HS' & Hg & Ho).
  { unfold tracked, entry_of. destruct (bt_get r (rate_entries state)) as [e|] eqn:E; [by eexists|].
    pose proof (room _ _ HR Hr E). rewrite (proj2 (Z.leb_gt _ _)) by lia. cbn. eexists. split; [done|].
    split; [by apply bt_insert_sorted|]. split; [by rewrite bt_get_insert_eq|]. intros k Hk. by apply bt_get_insert_ne. }
  unfold check_rate. rewrite HL. fold sequence. rewrite Ht, Hg. fold entry.
  assert (forall e, rates_ok (mkRateState (bt_insert r e entries) sequence false)
    /\ (forall k, k <> r -> bt_get k (bt_insert r e entries) = bt_get k (rate_entries state))
    /\ bt_get r (bt_insert r e entries) = Some e) as Hput.
  { intros e. split; [|split].
    - constructor; cbn [rate_poisoned rate_entries]; [done|by apply bt_insert_sorted|]. intros k Hk.
      destruct (decide (k = r)) as [->|Hne]; [done|]. rewrite bt_get_insert_ne in Hk by done. rewrite Ho in Hk by done.
      by apply HK.
    - intros k Hk. rewrite bt_get_insert_ne by done. by apply Ho.
    - by apply bt_get_insert_eq. }
  destruct (capacity policy <=? rate_count entry) eqn:E.
  - destruct (Hput entry) as (H1 & H2 & H3). eexists. split; [exact H1|]. by split.
  - destruct (Hput (mkRateEntry (window_started entry) (rate_count entry + 1) (rate_last_used entry))) as (H1 & H2 & H3).
    eexists. split; [exact H1|]. by split.
Qed.

Context (r : RateResource) (policy : RateLimitPolicy) (Hspan : 0 < window policy) (Hlimit : 0 <= capacity policy).

(** What the state says of the moments [r] was admitted at until [time]. *)
Definition tracks (state : RateState) (time : Z) (moments : list Z) : Prop :=
  spans_ok policy moments
  /\ match bt_get r (rate_entries state) with
     | Some entry => window_ok policy entry moments /\ window_started entry <= time
     | None => moments = []
     end.

Lemma tracks_step state time moments call state' outcome : rates_ok state -> tracks state time moments ->
  call_resource call ∈ seen -> (call_resource call = r -> call_policy call = policy) ->
  time <= call_inserted_at call <= call_now call ->
  check_rate max_tracked state (call_resource call) (call_policy call) (call_label call) (call_inserted_at call)
    (call_now call) = (state', outcome) ->
  rates_ok state' /\ is_Some outcome
  /\ tracks state' (call_now call) (moments ++ admissions r [(call, outcome)]).
Proof using Hseen Hspan Hlimit.
  intros HR [HSp HT] Hin Hpol Ht Hcall.
  destruct (check_rate_step state (call_resource call) (call_policy call) (call_label call) (call_inserted_at call)
    (call_now call) HR Hin) as (state1 & HR' & Hother & Hcase).
  unfold admissions, tracks. cbn [List.filter]. unfold admitted. cbn [fst snd].
  destruct (decide (call_resource call = r)) as [Heq|Hne].
  - rewrite Heq, Hpol in * by done. rewrite (bool_decide_true (r = r)) by done. cbn [andb].
    set (sequence := u64_saturating_add (rate_sequence state) 1) in *.
    assert (window_ok policy (entry_of state r sequence (call_inserted_at call)) moments
            /\ window_started (entry_of state r sequence (call_inserted_at call)) <= call_now call) as [HW0 HS0].
    { unfold entry_of. destruct (bt_get r (rate_entries state)); cbn; [split; [apply HT|lia]|].
      subst moments. split; [by apply fresh_window_ok|lia]. }
    destruct (current_window_ok policy Hspan Hlimit _ _ sequence (call_now call) HW0 HS0) as [HW HS].
    set (entry := current_window policy _ sequence (call_now call)) in *.
    destruct (capacity policy <=? rate_count entry) eqn:E; z_facts; destruct Hcase as [Hc Hg];
      rewrite Hc in Hcall; injection Hcall as <- <-; (split; [done|]); (split; [done|]).
    + cbn [map]. rewrite app_nil_r, Hg. split; [done|]. split; [done|lia].
    + cbn. rewrite Hg. destruct (admit_ok policy entry moments (call_now call) HW HSp HS E) as [H1 H2].
      split; [done|]. split; [done|cbn; lia].
  - rewrite (bool_decide_false (call_resource call = r)) by done. cbn [andb map]. rewrite app_nil_r.
    assert (state' = state1 /\ is_Some outcome) as [-> Hs].
    { destruct (_ <=? _); destruct Hcase as [Hc _]; rewrite Hc in Hcall; by injection Hcall as <- <-. }
    split; [done|]. split; [done|]. split; [done|]. rewrite Hother by done.
    destruct (bt_get r (rate_entries state)); [split; [apply HT|]; lia|done].
Qed.

Lemma run_tracks calls : forall state time moments, rates_ok state -> tracks state time moments ->
  Forall (fun call => call_resource call ∈ seen /\ (call_resource call = r -> call_policy call = policy)) calls ->
  clock_runs time calls ->
  spans_ok policy (moments ++ admissions r (snd (rate_run max_tracked state calls)))
  /\ Forall (fun entry => is_Some (snd entry)) (snd (rate_run max_tracked state calls)).
Proof using Hseen Hspan Hlimit.
  induction calls as [|call calls IH]; intros state time moments HR HT HF HC; cbn [rate_run snd].
  { cbn. rewrite app_nil_r. split; [apply HT|constructor]. }
  inversion_clear HF as [|? ? [Hin Hpol] HF']. destruct HC as (H1 & H2 & HC).
  destruct (check_rate max_tracked state (call_resource call) (call_policy call) (call_label call)
    (call_inserted_at call) (call_now call)) as [state' outcome] eqn:E.
  destruct (tracks_step state time moments call state' outcome HR HT Hin Hpol (conj H1 H2) E) as (HR' & Hs & HT').
  destruct (IH _ _ _ HR' HT' HF' HC) as [H3 H4].
  destruct (rate_run max_tracked state' calls) as [final outcomes]. cbn [snd] in *. split; [|by constructor].
  rewrite <- app_assoc in H3. unfold admissions in *. cbn [List.filter] in *.
  destruct (admitted r (call, outcome)); exact H3.
Qed.
End Calls.

(** ** How many resources are tracked *)

Lemma bt_remove_length {K V} `{CmpOk K} (k : K) (m : btree K V) v : bt_get k m = Some v ->
  S (length (bt_remove k m)) = length m.
Proof.
  induction m as [|[k' v'] m IH]; [done|]. cbn. destruct (cmp k k'); [done|done|]. intros Hg. cbn. by rewrite IH.
Qed.

Lemma bt_insert_length {K V} `{CmpOk K} (k : K) (v : V) (m : btree K V) :
  length (bt_insert k v m) = if bt_get k m then length m else S (length m).
Proof.
  induction m as [|[k' v'] m IH]; [done|]. cbn. destruct (cmp k k'); [done|done|]. cbn. rewrite IH. by destruct (bt_get k m).
Qed.

Lemma least_by_In {K V} (used : V -> Z) (entries : btree K V) k : least_by used entries = Some k ->
  exists v, In (k, v) entries.
Proof.
  unfold least_by. intros ([k' v'] & Hf & ->)%fmap_Some. exists v'. cbn.
  assert (forall best, fold_left (fun best entry => match best with None => Some entry
    | Some kept => if used (snd entry) <? used (snd kept) then Some entry else Some kept end) entries best = Some (k', v') ->
    best = Some (k', v') \/ In (k', v') entries) as Hgen.
  { clear. induction entries as [|e entries IH]; intros best; cbn; [by left|]. intros [Heq|Hin]%IH; [|by auto].
    destruct best as [kept|]; [destruct (_ <? _)|]; injection Heq as ->; auto. }
  by destruct (Hgen None Hf).
Qed.

Lemma least_by_None {K V} (used : V -> Z) (entries : btree K V) : least_by used entries = None -> entries = [].
Proof.
  unfold least_by. rewrite fmap_None. destruct entries as [|e entries]; [done|]. cbn [fold_left].
  assert (forall best, fold_left (fun best entry => match best with None => Some entry
    | Some kept => if used (snd entry) <? used (snd kept) then Some entry else Some kept end) entries (Some best) <> None) as Hne.
  { induction entries as [|e' entries IH]; intros best; cbn; [done|]. destruct (_ <? _); apply IH. }
  intros H. by apply Hne in H.
Qed.

Lemma tracked_length max_tracked entries r sequence inserted_at entries' : 1 <= max_tracked ->
  bt_sorted entries -> Z.of_nat (length entries) <= max_tracked ->
  tracked max_tracked entries r sequence inserted_at = Ok entries' ->
  Z.of_nat (length entries') <= max_tracked /\ bt_sorted entries' /\ is_Some (bt_get r entries').
Proof.
  intros Hm HS HL Ht. unfold tracked in Ht. destruct (bt_get r entries) as [e|] eqn:E.
  { injection Ht as <-. rewrite E. by eauto. }
  apply result_bind_Ok in Ht as (kept & Hk & [= <-]).
  assert (bt_sorted kept /\ Z.of_nat (length kept) < max_tracked) as [HS' HL'].
  { destruct (max_tracked <=? Z.of_nat (length entries)) eqn:EL; z_facts; [|by injection Hk as <-].
    destruct (least_by rate_last_used entries) as [k|] eqn:EB; [|done]. injection Hk as <-.
    apply least_by_In in EB as (v & Hv%(bt_get_In _ _ _ HS)). apply bt_remove_length in Hv.
    split; [by apply bt_remove_sorted|lia]. }
  split; [|split; [by apply bt_insert_sorted|by rewrite bt_get_insert_eq]].
  rewrite bt_insert_length. destruct (bt_get r kept); lia.
Qed.

Record tracking_ok (max_tracked : Z) (state : RateState) : Prop := mkTrackingOk {
  to_lock : rate_poisoned state = false;
  to_sorted : bt_sorted (rate_entries state);
  to_length : Z.of_nat (length (rate_entries state)) <= max_tracked;
}.

Lemma check_rate_tracking max_tracked state r policy label inserted_at now state' outcome : 1 <= max_tracked ->
  tracking_ok max_tracked state ->
  check_rate max_tracked state r policy label inserted_at now = (state', outcome) ->
  tracking_ok max_tracked state' /\ is_Some outcome.
Proof.
  intros Hm [HL HS Hn]. unfold check_rate. rewrite HL.
  destruct (tracked max_tracked (rate_entries state) r _ inserted_at) as [entries|message] eqn:E.
  - apply tracked_length in E as (Hn' & HS' & [e He]); [|done..]. rewrite He.
    assert (forall e', tracking_ok max_tracked (mkRateState (bt_insert r e' entries)
      (u64_saturating_add (rate_sequence state) 1) false)) as Hput.
    { intros e'. constructor; cbn; [done|by apply bt_insert_sorted|]. rewrite bt_insert_length, He. lia. }
    destruct (_ <=? _); intros [= <- <-]; by split.
  - intros [= <- <-]. by split.
Qed.

(** ** Claims *)

(** However many resources are called, at most [max_tracked] are tracked, and
    no call panics. *)
Theorem rates_tracked (max_tracked : Z) (calls : list RateCall) : 1 <= max_tracked ->
  tracked_rate_resource_count (fst (rate_run max_tracked new_rates calls)) <= max_tracked
  /\ Forall (fun entry => is_Some (snd entry)) (snd (rate_run max_tracked new_rates calls)).
Proof.
  intros Hm. assert (tracking_ok max_tracked new_rates) as HT by (constructor; cbn; [done|done|lia]). revert HT.
  generalize new_rates. induction calls as [|call calls IH]; intros state HT; cbn [rate_run].
  - unfold tracked_rate_resource_count. cbn. rewrite (to_lock _ _ HT). split; [by apply to_length|constructor].
  - destruct (check_rate _ _ _ _ _ _ _) as [state' outcome] eqn:E.
    apply check_rate_tracking in E as [HT' Hs]; [|done..]. specialize (IH _ HT').
    destruct (rate_run max_tracked state' calls). cbn in *. split; [apply IH|]. constructor; [done|apply IH].
Qed.

(** C24: Rate limits hold.  While no more resources are called than the host
    tracks, a resource with capacity [c] and window [w] is admitted at most
    [2c] times in any span of length [w], whatever calls on other resources
    come between; and no call panics. *)
Theorem rate_limit_holds (max_tracked : Z) (calls : list RateCall) (r : RateResource) (policy : RateLimitPolicy) (start : Z)
  (HR : Z.of_nat (size (list_to_set (map call_resource calls) : gset RateResource)) <= max_tracked)
  (HP : Forall (fun call => call_resource call = r -> call_policy call = policy) calls)
  (HW : 0 < window policy) (HC : 0 <= capacity policy) (HT : clock_runs start calls) :
  (forall low, within_span low (low + window policy) (admissions r (snd (rate_run max_tracked new_rates calls)))
               <= 2 * capacity policy)
  /\ Forall (fun entry => is_Some (snd entry)) (snd (rate_run max_tracked new_rates calls)).
Proof.
  assert (rates_ok (list_to_set (map call_resource calls)) new_rates) as H0.
  { constructor; cbn; [done|done|]. intros k [? ?]. done. }
  assert (tracks r policy new_rates start []) as H1.
  { split; [|done]. intros low. change (0 <= 2 * capacity policy). lia. }
  destruct (run_tracks max_tracked _ HR r policy HW HC calls new_rates start [] H0 H1) as [H2 H3]; [|done|by split].
  apply Forall_forall. intros call Hin. rewrite Forall_forall in HP. split; [|by apply HP].
  apply elem_of_list_to_set, list_elem_of_fmap. by exists call.
Qed.

Definition sample_policy : RateLimitPolicy := mkRateLimitPolicy 2 1000.
Definition sample_calls : list RateCall :=
  map (fun '(name, now) => mkRateCall (RateAi name) sample_policy name now now)
    [("reviewer", 0); ("reviewer", 10); ("writer", 20); ("reviewer", 30); ("reviewer", 1000); ("reviewer", 1010)].

Example sample_admissions :
  admissions (RateAi "reviewer") (snd (rate_run 2 new_rates sample_calls)) = [0; 10; 1000; 1010].
Proof. vm_compute. reflexivity. Qed.

Lemma rate_limit_holds_witness :
  within_span 5 1005 (admissions (RateAi "reviewer") (snd (rate_run 2 new_rates sample_calls))) <= 4.
Proof.
  apply (rate_limit_holds 2 sample_calls (RateAi "reviewer") sample_policy 0).
  - vm_compute. discriminate.
  - repeat constructor.
  - reflexivity.
  - vm_compute. discriminate.
  - cbn. lia.
Defined.
