(* ===== verification/Idempotency.v ===== *)
(** * Idempotent requests

    Models the idempotency of [krit-runtime/src/policy.rs]: which requests
    carry a key, the digest of a request, the records kept in memory or in the
    configured durable store, and their decision, completion and abort.

    The hash and the JSON form of a response are parameters; a clock reading is
    an argument.  A computation acts on the state of the host and on the
    sessions of its database files. *)

From S2P Require Import Prelude BTree Capability RuntimeErrors HostLimits Sql Store Replay Invocation Webhook HostPolicy Permissions.

(** ** Digests *)

Fixpoint le_bytes (count : nat) (n : Z) : bytes :=
  match count with
  | O => []
  | S count => ascii_of_N (Z.to_N (n `mod` 256)) :: le_bytes count (n `div` 256)
  end.
Definition u64_le_bytes (n : Z) : bytes := le_bytes 8 n.

(** What [hash_part] feeds the hasher. *)
Definition hash_part (text : string) : bytes := u64_le_bytes (str_len text) ++ bytes_of text.

Definition ascii_lower (b : byte) : byte := if is_ascii_uppercase b then ascii_of_N (byte_val b + 32) else b.
Definition to_ascii_lowercase (text : string) : string := str_of (map ascii_lower (bytes_of text)).
Definition eq_ignore_ascii_case (a b : string) : bool := bool_decide (to_ascii_lowercase a = to_ascii_lowercase b).

(** The headers a digest covers, with their names in lower case. *)
Definition hashed_headers (omit_idempotency_key : bool) (headers : list HttpHeader) : list (string * string) :=
  List.filter (fun '(name, _) => negb (omit_idempotency_key && bool_decide (name = "idempotency-key")))
    (map (fun header => (to_ascii_lowercase (header_name header), header_value header)) headers).

Definition request_parts (request : HttpRequest) (omit_idempotency_key : bool) : list string :=
  [request_method request; request_path request; request_query request]
  ++ flat_map (fun '(name, value) => [name; value]) (hashed_headers omit_idempotency_key (request_headers request))
  ++ [request_body request].

(** Everything [hash_request] feeds the hasher. *)
Definition request_preimage (request : HttpRequest) (omit_idempotency_key : bool) : bytes :=
  flat_map hash_part (request_parts request omit_idempotency_key).

Definition identity_preimage (md : ArtifactMetadata) : bytes :=
  flat_map hash_part [fst (metadata_package md); snd (metadata_package md); metadata_world md; metadata_digest md].

Definition valid_idempotency_key (value : string) (maximum : Z) : bool :=
  negb (bool_decide (value = "")) && (str_len value <=? maximum)
  && forallb (fun b => is_ascii_alphanumeric b || bool_decide (b ∈ ["."; "_"; ":"; "-"]%char)) (bytes_of value).

(** [size_of] a response and a header: a number and three-word strings. *)
Definition SIZE_OF_RESPONSE : Z := 56.
Definition SIZE_OF_HEADER : Z := 48.

Definition cached_response_size (response : HttpResponse) : option Z :=
  let headers := Z.of_nat (length (response_headers response)) in
  usize_checked (SIZE_OF_RESPONSE + str_len (response_body response)) ≫= fun bytes =>
  usize_checked (SIZE_OF_HEADER * headers) ≫= fun more =>
  usize_checked (bytes + more) ≫= fun bytes =>
  foldl (fun total header => total ≫= fun bytes =>
    usize_checked (bytes + str_len (header_name header)) ≫= fun bytes =>
    usize_checked (bytes + str_len (header_value header))) (Some bytes) (response_headers response).

(** ** State *)

Record IdempotencyEntry : Type := mkIdempotencyEntry {
  ie_digest : string;
  ie_response : HttpResponse;
  ie_size : Z;
  ie_expires : Z;
  ie_last_used : Z;
}.

(** Records are kept under the artifact's identity and the key. *)
Record IdempotencyState : Type := mkIdempotencyState {
  idem_entries : btree (string * string) IdempotencyEntry;
  idem_bytes : Z;
  idem_sequence : Z;
}.
Definition new_idempotency : IdempotencyState := mkIdempotencyState [] 0 0.

Inductive IdempotencyToken : Type :=
| MemoryToken (key : string * string) (digest : string)
| DurableToken (binding : StoreBinding) (lease : IdempotencyLease).

Inductive HostDecision : Type :=
| HostExecute (token : option IdempotencyToken)
| HostReplay (response : HttpResponse)
| HostConflict
| HostReject (message : string).

Definition total_size (entries : btree (string * string) IdempotencyEntry) : Z :=
  foldl (fun total '(_, entry) => usize_saturating_add total (ie_size entry)) 0 entries.

(** ** Records in memory *)

Section Memory.
Context (crate : HttpCrate) (limits : RuntimeLimits).

Definition memory_decision (key : string * string) (digest : string) (now : Z) (state : IdempotencyState)
  : IdempotencyState * result HostDecision RuntimeError :=
  let entries := List.filter (fun '(_, entry) => now <? ie_expires entry) (idem_entries state) in
  let sequence := u64_saturating_add (idem_sequence state) 1 in
  match bt_get key entries with
  | Some entry =>
      let entry' := mkIdempotencyEntry (ie_digest entry) (ie_response entry) (ie_size entry) (ie_expires entry) sequence in
      (mkIdempotencyState (bt_insert key entry' entries) (total_size entries) sequence,
       if bool_decide (ie_digest entry = digest) then
         let? _ := response_validate crate limits (ie_response entry) in Ok (HostReplay (ie_response entry))
       else Ok HostConflict)
  | None => (mkIdempotencyState entries (total_size entries) sequence, Ok (HostExecute (Some (MemoryToken key digest))))
  end.
End Memory.

Definition over_budget (policy : IdempotencyPolicy) (response_bytes : Z) (state : IdempotencyState) : bool :=
  (ip_max_entries policy <=? Z.of_nat (length (idem_entries state)))
  || match usize_checked (idem_bytes state + response_bytes) with
     | None => true
     | Some bytes => ip_max_bytes policy <? bytes
     end.

Definition drop_record (key : string * string) (state : IdempotencyState) : IdempotencyState :=
  match bt_get key (idem_entries state) with
  | Some entry => mkIdempotencyState (bt_remove key (idem_entries state))
                    (usize_saturating_sub (idem_bytes state) (ie_size entry)) (idem_sequence state)
  | None => state
  end.

(** The loop that makes room; [None] is no fuel left. *)
Fixpoint evict_records (fuel : nat) (policy : IdempotencyPolicy) (response_bytes : Z) (state : IdempotencyState)
  : option IdempotencyState :=
  if over_budget policy response_bytes state then
    match least_by ie_last_used (idem_entries state) with
    | None => Some state
    | Some evicted =>
        match fuel with
        | O => None
        | S fuel => evict_records fuel policy response_bytes (drop_record evicted state)
        end
    end
  else Some state.

Definition memory_complete (policy : IdempotencyPolicy) (key : string * string) (digest : string)
    (response : HttpResponse) (now : Z) (state : IdempotencyState)
  : option (IdempotencyState * result unit RuntimeError) :=
  if (ip_max_entries policy =? 0) || (ip_max_bytes policy =? 0) then Some (state, Ok tt)
  else
    match cached_response_size response with
    | None => Some (state, Ok tt)
    | Some response_bytes =>
        if ip_max_bytes policy <? response_bytes then Some (state, Ok tt)
        else
          let state := drop_record key state in
          match evict_records (length (idem_entries state)) policy response_bytes state with
          | None => None
          | Some state =>
              let sequence := u64_saturating_add (idem_sequence state) 1 in
              let entries := bt_insert key (mkIdempotencyEntry digest response response_bytes (now + ip_ttl policy) sequence)
                               (idem_entries state) in
              Some (match usize_checked (idem_bytes state + response_bytes) with
                    | Some bytes => (mkIdempotencyState entries bytes sequence, Ok tt)
                    | None => (mkIdempotencyState entries (idem_bytes state) sequence,
                               Err (resource_error "idempotency cache byte count overflowed"))
                    end)
          end
    end.

(** ** Decisions and completions *)

Definition durable_idempotency_policy (policy : IdempotencyPolicy) (lease : Duration) (limits : StoreLimits)
  : RetentionPolicy :=
  mkRetentionPolicy (Z.min (ip_max_entries policy) (max_replay_entries limits))
    (Z.min (ip_max_bytes policy) (max_replay_bytes limits)) (ip_ttl policy) lease.

(** The parts of the host an idempotent request changes. *)
Record HostState : Type := mkHostState {
  operation_sequence : Z;
  host_idempotency : IdempotencyState;
  idempotency_poisoned : bool;
}.

Definition set_idempotency_state (h : HostState) (state : IdempotencyState) : HostState :=
  mkHostState (operation_sequence h) state (idempotency_poisoned h).

Definition Policy (A : Type) : Type := HostState -> World -> HostState * World * result A RuntimeError.

(** An operation of a store on its connection, under the code of this part. *)
Definition on_binding {A} (b : StoreBinding) (m : Sql Tables StateError A) : Policy A :=
  fun h w =>
    let '(s, r) := m (session w (binding_database b)) in
    (h, <[binding_database b := s]> w, map_err (fun e => durable_idempotency (error_message e)) r).

Definition policy_bind {A B} (m : Policy A) (k : A -> Policy B) : Policy B :=
  fun h w => match m h w with (h, w, Ok a) => k a h w | (h, w, Err e) => (h, w, Err e) end.
Definition policy_lift {A} (r : result A RuntimeError) : Policy A := fun h w => (h, w, r).

Section Requests.
Context `{Faults} (crate : HttpCrate) (blake3 : bytes -> string).
Context (encode_response : HttpResponse -> option string) (decode_response : string -> option HttpResponse).
Context (durable : DurableState) (policy : IdempotencyPolicy) (instance_nonce : bytes).

Definition request_digest (request : HttpRequest) : string := blake3 (request_preimage request true).
Definition exact_request_digest (request : HttpRequest) : string := blake3 (request_preimage request false).
Definition artifact_identity (md : ArtifactMetadata) : string := blake3 (identity_preimage md).

Definition u64_wrapping_add (a b : Z) : Z := (a + b) `mod` 2 ^ 64.

Definition next_lease_owner : Policy string :=
  fun h w =>
    (mkHostState (u64_wrapping_add (operation_sequence h) 1) (host_idempotency h) (idempotency_poisoned h), w,
     Ok (str_of (take 16 (bytes_of (blake3 (instance_nonce ++ u64_le_bytes (operation_sequence h)
                                            ++ bytes_of "durable-lease")))))).

Definition SAFE_METHODS : list string := ["GET"; "HEAD"; "OPTIONS"; "TRACE"].

Definition binding_policy (b : StoreBinding) : RetentionPolicy :=
  durable_idempotency_policy policy (retention_lease (binding_replay b)) (limits (binding_store b)).

Definition durable_decision (b : StoreBinding) (runtime : RuntimeLimits) (identity key digest : string)
    (wall : result Z RuntimeError) : Policy HostDecision :=
  policy_bind next_lease_owner (fun owner =>
  policy_bind (policy_lift wall) (fun now_millis =>
  policy_bind (on_binding b (idempotency_decision (binding_store b) identity key digest owner now_millis (binding_policy b)))
    (fun decision => policy_lift
      match decision with
      | IdempotencyExecute lease => Ok (HostExecute (Some (DurableToken b lease)))
      | IdempotencyReplay bytes =>
          let? response := ok_or (decode_response bytes)
            (durable_idempotency "durable idempotency response is invalid") in
          let? _ := response_validate crate runtime response in
          Ok (HostReplay response)
      | IdempotencyConflict => Ok HostConflict
      | IdempotencyInProgress => Ok (HostReject "request with Idempotency-Key is already in progress")
      end))).

Definition host_memory_decision (runtime : RuntimeLimits) (key : string * string) (digest : string) (now : Z)
  : Policy HostDecision :=
  fun h w =>
    if idempotency_poisoned h then (h, w, Err (setup_error "idempotency state is unavailable"))
    else
      let (state, decision) := memory_decision crate runtime key digest now (host_idempotency h) in
      (set_idempotency_state h state, w, decision).

Definition host_decision (md : ArtifactMetadata) (request : HttpRequest) (runtime : RuntimeLimits) (now : Z)
    (wall : result Z RuntimeError) : Policy HostDecision :=
  if bool_decide (request_method request ∈ SAFE_METHODS) then policy_lift (Ok (HostExecute None))
  else
    match List.filter (fun header => eq_ignore_ascii_case (header_name header) "idempotency-key") (request_headers request) with
    | [] => policy_lift (Ok (HostExecute None))
    | _ :: _ :: _ => policy_lift (Ok (HostReject "Idempotency-Key may appear only once"))
    | [header] =>
        let bound := idempotency_binding durable in
        let maximum := match bound with
          | None => ip_max_key_bytes policy
          | Some b => Z.min (ip_max_key_bytes policy) (max_key_bytes (limits (binding_store b)))
          end in
        if negb (valid_idempotency_key (header_value header) maximum) then
          policy_lift (Ok (HostReject "Idempotency-Key is invalid or exceeds the configured bound"))
        else
          let identity := artifact_identity md in
          let digest := request_digest request in
          match bound with
          | Some b =>
              if (0 <? ip_max_entries policy) && (0 <? ip_max_bytes policy) then
                durable_decision b runtime identity (header_value header) digest wall
              else host_memory_decision runtime (identity, header_value header) digest now
          | None => host_memory_decision runtime (identity, header_value header) digest now
          end
    end.

(** [error.with_cleanup_failure(cleanup)]. *)
Definition with_cleanup_failure (error cleanup : RuntimeError) : RuntimeError :=
  mkRuntimeError (runtime_code error) (runtime_kind error)
    (runtime_message error +:+ "; durable reservation cleanup also failed: " +:+ runtime_message cleanup).

Definition abort_lease (b : StoreBinding) (lease : IdempotencyLease) : Policy unit :=
  on_binding b (abort_idempotency (binding_store b) lease).

Definition fail_after_abort (b : StoreBinding) (lease : IdempotencyLease) (error : RuntimeError) : Policy unit :=
  fun h w =>
    match abort_lease b lease h w with
    | (h, w, Ok _) => (h, w, Err error)
    | (h, w, Err cleanup) => (h, w, Err (with_cleanup_failure error cleanup))
    end.

Definition durable_complete (b : StoreBinding) (lease : IdempotencyLease) (response : HttpResponse)
    (wall : result Z RuntimeError) : Policy unit :=
  if (ip_max_entries policy =? 0) || (ip_max_bytes policy =? 0) then abort_lease b lease
  else
    match encode_response response with
    | None => fail_after_abort b lease (durable_idempotency "could not encode durable idempotency response")
    | Some bytes =>
        if max_bytes (binding_policy b) <? str_len bytes then abort_lease b lease
        else
          match wall with
          | Err error => fail_after_abort b lease error
          | Ok now_millis =>
              fun h w =>
                match on_binding b (complete_idempotency (binding_store b) lease bytes now_millis (binding_policy b)) h w with
                | (h, w, Ok _) => (h, w, Ok tt)
                | (h, w, Err error) => fail_after_abort b lease error h w
                end
          end
    end.

(** The completion of a request; [None] is an eviction loop without end. *)
Definition host_complete (token : option IdempotencyToken) (response : HttpResponse) (now : Z)
    (wall : result Z RuntimeError) (h : HostState) (w : World) : option (HostState * World * result unit RuntimeError) :=
  match token with
  | None => Some (h, w, Ok tt)
  | Some (DurableToken b lease) => Some (durable_complete b lease response wall h w)
  | Some (MemoryToken key digest) =>
      if (ip_max_entries policy =? 0) || (ip_max_bytes policy =? 0) then Some (h, w, Ok tt)
      else
        match cached_response_size response with
        | None => Some (h, w, Ok tt)
        | Some bytes =>
            if ip_max_bytes policy <? bytes then Some (h, w, Ok tt)
            else if idempotency_poisoned h then Some (h, w, Err (setup_error "idempotency state is unavailable"))
            else
              match memory_complete policy key digest response now (host_idempotency h) with
              | None => None
              | Some (state, r) => Some (set_idempotency_state h state, w, r)
              end
        end
  end.

Definition host_abort (token : option IdempotencyToken) : Policy unit :=
  match token with
  | Some (DurableToken b lease) => abort_lease b lease
  | _ => policy_lift (Ok tt)
  end.
End Requests.
