(* ===== verification/IdempotencyFacts.v ===== *)
(** * Idempotent requests are answered once

    What is hashed determines the request; the records in memory keep their
    budgets, and behave as a list in order of use. *)

From S2P Require Import Prelude Utf8 BTree Capability RuntimeErrors HostLimits Webhook HostPolicy RateFacts Permissions Idempotency.

(** ** What is hashed *)

Lemma le_bytes_length count n : length (le_bytes count n) = count.
Proof. revert n. induction count as [|count IH]; intros n; cbn; [done|]. by rewrite IH. Qed.

Lemma le_bytes_inj count : forall a b, 0 <= a < 256 ^ Z.of_nat count -> 0 <= b < 256 ^ Z.of_nat count ->
  le_bytes count a = le_bytes count b -> a = b.
Proof.
  induction count as [|count IH]; intros a b Ha Hb; [cbn in *; lia|]. cbn [le_bytes]. intros [= Hd Hr].
  rewrite Nat2Z.inj_succ, Z.pow_succ_r in Ha, Hb by lia.
  apply IH in Hr; [|split; [apply Z.div_pos; lia|apply Z.div_lt_upper_bound; lia]..].
  assert (forall x, 0 <= x mod 256 < 256) as Hm by (intros x; apply Z.mod_pos_bound; lia).
  apply (f_equal N_of_ascii) in Hd. rewrite !N_ascii_embedding in Hd by (pose proof (Hm a); pose proof (Hm b); lia).
  assert (a mod 256 = b mod 256) by (pose proof (Hm a); pose proof (Hm b); lia).
  rewrite (Z.div_mod a 256), (Z.div_mod b 256) by lia. congruence.
Qed.

Definition short (text : string) : Prop := str_len text <= u64_max.

Lemma bytes_of_length text : Z.of_nat (length (bytes_of text)) = str_len text.
Proof. unfold str_len, bytes_of. induction text; cbn; lia. Qed.

Lemma bytes_of_inj a b : bytes_of a = bytes_of b -> a = b.
Proof. intros H. rewrite <- (str_of_bytes_of a), <- (str_of_bytes_of b). by rewrite H. Qed.

Lemma hash_part_inj a b rest rest' : short a -> short b -> hash_part a ++ rest = hash_part b ++ rest' ->
  a = b /\ rest = rest'.
Proof.
  unfold hash_part, short. intros Ha Hb H. rewrite <- !app_assoc in H.
  apply app_inj_1 in H as [HL H]; [|by unfold u64_le_bytes; rewrite !le_bytes_length].
  pose proof (bytes_of_length a). pose proof (bytes_of_length b).
  apply le_bytes_inj in HL; [|unfold u64_max in *; change (256 ^ Z.of_nat 8) with (2 ^ 64); lia..].
  apply app_inj_1 in H as [HB HR]; [|lia]. split; [by apply bytes_of_inj|done].
Qed.

Lemma hash_part_nonempty a : hash_part a <> [].
Proof. unfold hash_part, u64_le_bytes. by cbn. Qed.

Lemma hash_parts_inj parts : forall parts', Forall short parts -> Forall short parts' ->
  flat_map hash_part parts = flat_map hash_part parts' -> parts = parts'.
Proof.
  induction parts as [|a parts IH]; intros [|b parts'] Ha Hb; cbn [flat_map]; intros H.
  - done.
  - symmetry in H. apply app_eq_nil in H as [H _]. by apply hash_part_nonempty in H.
  - apply app_eq_nil in H as [H _]. by apply hash_part_nonempty in H.
  - inversion_clear Ha. inversion_clear Hb. apply hash_part_inj in H as [-> H]; [|done..]. f_equal. by apply IH.
Qed.

Lemma pairs_inj {A} (l l' : list (A * A)) :
  flat_map (fun '(a, b) => [a; b]) l = flat_map (fun '(a, b) => [a; b]) l' -> l = l'.
Proof.
  revert l'. induction l as [|[a b] l IH]; intros [|[a' b'] l']; cbn; [done..|]. intros [= -> -> H]. f_equal. by apply IH.
Qed.

Lemma request_parts_inj a b omit : request_parts a omit = request_parts b omit <->
  request_method a = request_method b /\ request_path a = request_path b /\ request_query a = request_query b
  /\ hashed_headers omit (request_headers a) = hashed_headers omit (request_headers b)
  /\ request_body a = request_body b.
Proof.
  unfold request_parts. split.
  - cbn [app]. intros [= H1 H2 H3 H4]. apply app_inj_tail in H4 as [H4 H5]. apply pairs_inj in H4. done.
  - intros (-> & -> & -> & -> & ->). done.
Qed.

(** Every part of a request fits a 64-bit length. *)
Definition request_fits (request : HttpRequest) (omit : bool) : Prop := Forall short (request_parts request omit).

(** ** Sizes of the records *)

Notation records := (btree (string * string) IdempotencyEntry) (only parsing).

Definition sizes (entries : records) : Z := foldr (fun '(_, entry) n => ie_size entry + n) 0 entries.
Definition sized (entries : records) : Prop := Forall (fun '(_, entry) => 0 <= ie_size entry) entries.

Lemma sizes_nonneg entries : sized entries -> 0 <= sizes entries.
Proof.
  induction 1 as [|[k e] entries He _ IH]; [done|]. change (0 <= ie_size e + sizes entries). lia.
Qed.

Lemma total_size_sizes entries : sized entries -> sizes entries <= usize_max -> total_size entries = sizes entries.
Proof.
  intros HS HM. unfold total_size.
  assert (forall acc, 0 <= acc -> acc + sizes entries <= usize_max ->
    foldl (fun total '(_, entry) => usize_saturating_add total (ie_size entry)) acc entries = acc + sizes entries) as Hgen.
  { clear HM. induction HS as [|[k e] entries He HS IH]; intros acc Ha Hm; [cbn; lia|].
    change (sizes ((k, e) :: entries)) with (ie_size e + sizes entries) in *. cbn [foldl].
    pose proof (sizes_nonneg _ HS). unfold usize_saturating_add at 2. rewrite Z.min_l by lia. rewrite IH by lia. lia. }
  rewrite Hgen by lia. lia.
Qed.

Lemma sizes_remove k e entries : bt_get k entries = Some e -> sizes (bt_remove k entries) = sizes entries - ie_size e.
Proof.
  induction entries as [|[k' e'] entries IH]; [done|]. cbn [bt_get bt_remove].
  change (sizes ((k', e') :: entries)) with (ie_size e' + sizes entries). destruct (cmp k k'); [|done|].
  - intros [= ->]. lia.
  - intros Hg. change (sizes ((k', e') :: bt_remove k entries)) with (ie_size e' + sizes (bt_remove k entries)).
    rewrite IH by done. lia.
Qed.

Lemma sizes_insert k e entries : sizes (bt_insert k e entries)
  = ie_size e + sizes entries - match bt_get k entries with Some old => ie_size old | None => 0 end.
Proof.
  induction entries as [|[k' e'] entries IH]; [cbn; lia|]. cbn [bt_get bt_insert].
  change (sizes ((k', e') :: entries)) with (ie_size e' + sizes entries). destruct (cmp k k').
  - change (sizes ((k, e) :: entries)) with (ie_size e + sizes entries). lia.
  - change (sizes ((k, e) :: (k', e') :: entries)) with (ie_size e + (ie_size e' + sizes entries)). lia.
  - change (sizes ((k', e') :: bt_insert k e entries)) with (ie_size e' + sizes (bt_insert k e entries)). rewrite IH. lia.
Qed.

Lemma sizes_filter f entries : sized entries -> sizes (List.filter f entries) <= sizes entries.
Proof.
  induction 1 as [|[k e] entries He HS IH]; [done|]. cbn [List.filter].
  change (sizes ((k, e) :: entries)) with (ie_size e + sizes entries).
  destruct (f (k, e)); [change (sizes ((k, e) :: List.filter f entries)) with (ie_size e + sizes (List.filter f entries))|]; lia.
Qed.

Lemma insert_Forall {K V} `{CmpOk K} (P : K * V -> Prop) k v (m : btree K V) : P (k, v) -> Forall P m -> Forall P (bt_insert k v m).
Proof.
  rewrite !Forall_forall. intros Hv Hm kv Hin. apply list_elem_of_In, bt_insert_In in Hin as [->|Hin]; [done|].
  by apply Hm, list_elem_of_In.
Qed.
Lemma remove_Forall {K V} `{CmpOk K} (P : K * V -> Prop) k (m : btree K V) : Forall P m -> Forall P (bt_remove k m).
Proof. rewrite !Forall_forall. intros Hm kv Hin. apply list_elem_of_In, bt_remove_In, list_elem_of_In in Hin. by apply Hm. Qed.
Lemma Forall_list_filter {A} (P : A -> Prop) f l : Forall P l -> Forall P (List.filter f l).
Proof. induction 1; cbn; [done|]. destruct (f x); by try constructor. Qed.

Lemma bt_sorted_filter {K V} `{CmpOk K} f (m : btree K V) : bt_sorted m -> bt_sorted (List.filter f m).
Proof.
  induction m as [|[k v] m IH]; [done|]. intros [HF HS]. cbn. destruct (f (k, v)); [|by apply IH].
  split; [by apply Forall_list_filter|by apply IH].
Qed.

Lemma cached_size_nonneg response bytes : cached_response_size response = Some bytes -> 0 <= bytes.
Proof.
  unfold cached_response_size. intros (b1 & _ & (b2 & _ & (b3 & [-> Hb]%usize_checked_Some & H)%bind_Some)%bind_Some)%bind_Some.
  revert H. assert (0 <= b1 + b2) as H0 by lia. revert H0. generalize (b1 + b2).
  induction (response_headers response) as [|header headers IH]; intros start H0; cbn [foldl]; [by intros [= <-]|].
  cbn [mbind option_bind]. destruct (usize_checked (start + _)) as [s1|] eqn:E1; cbn.
  2: { clear. intros H. exfalso. revert H. by induction headers. }
  destruct (usize_checked (s1 + _)) as [s2|] eqn:E2.
  2: { clear. intros H. exfalso. revert H. by induction headers. }
  apply usize_checked_Some in E2 as [-> E2]. apply IH. lia.
Qed.

(** ** Budgets of the records *)

Section Budgets.
Context (policy : IdempotencyPolicy) (HP : idempotency_validate policy = Ok tt)
  (HU : 0 <= ip_max_entries policy /\ 0 <= ip_max_bytes policy).

Record memory_ok (state : IdempotencyState) : Prop := mkMemoryOk {
  mo_sorted : bt_sorted (idem_entries state);
  mo_sized : sized (idem_entries state);
  mo_bytes : idem_bytes state = sizes (idem_entries state);
  mo_entries : Z.of_nat (length (idem_entries state)) <= ip_max_entries policy;
  mo_budget : sizes (idem_entries state) <= ip_max_bytes policy;
}.

Lemma max_bytes_usize : ip_max_bytes policy <= usize_max.
Proof using HP.
  unfold idempotency_validate in HP. destruct (_ || _) eqn:E; [done|].
  repeat (apply orb_false_iff in E as [E ?]). z_facts. unfold MAX_IDEMPOTENCY_BYTES, usize_max in *. lia.
Qed.

Lemma memory_decision_ok crate limits key digest now state state' decision : memory_ok state ->
  memory_decision crate limits key digest now state = (state', decision) -> memory_ok state'.
Proof using HP HU.
  intros [HS HZ HB HE HM]. unfold memory_decision.
  set (entries := List.filter _ (idem_entries state)).
  assert (bt_sorted entries) as HS' by by apply bt_sorted_filter.
  assert (sized entries) as HZ' by by apply Forall_list_filter.
  assert (sizes entries <= ip_max_bytes policy) as HM'.
  { etransitivity; [by apply sizes_filter|done]. }
  assert (Z.of_nat (length entries) <= ip_max_entries policy) as HE'.
  { pose proof (filter_length_le (fun '(_, entry) => now <? ie_expires entry) (idem_entries state)). unfold entries. lia. }
  rewrite (total_size_sizes entries HZ') by (pose proof max_bytes_usize; lia).
  destruct (bt_get key entries) as [entry|] eqn:E; intros [= <- _].
  - assert (0 <= ie_size entry) as He.
    { apply (bt_get_In _ _ _ HS'), list_elem_of_In in E. unfold sized in HZ'. rewrite Forall_forall in HZ'. by apply (HZ' _ E). }
    constructor; cbn [idem_entries idem_bytes].
    + by apply bt_insert_sorted.
    + by apply insert_Forall.
    + rewrite sizes_insert, E. cbn. lia.
    + rewrite bt_insert_length, E. done.
    + rewrite sizes_insert, E. cbn. lia.
  - by constructor.
Qed.

Lemma drop_record_ok key state : memory_ok state -> memory_ok (drop_record key state)
  /\ bt_get key (idem_entries (drop_record key state)) = None.
Proof using HU.
  intros HO. unfold drop_record. destruct (bt_get key (idem_entries state)) as [entry|] eqn:E; [|by split].
  destruct HO as [HS HZ HB HE HM]. pose proof (sizes_remove _ _ _ E) as Hr. pose proof (bt_remove_length _ _ _ E) as Hl.
  assert (sized (bt_remove key (idem_entries state))) as HZ' by by apply remove_Forall.
  pose proof (sizes_nonneg _ HZ'). assert (0 <= ie_size entry) as He.
  { apply (bt_get_In _ _ _ HS), list_elem_of_In in E. unfold sized in HZ. rewrite Forall_forall in HZ. by apply (HZ _ E). }
  split.
  - constructor; cbn [idem_entries idem_bytes]; [by apply bt_remove_sorted|done| |lia|lia].
    unfold usize_saturating_sub. lia.
  - cbn. rewrite bt_get_remove by done. by rewrite decide_True by apply cmp_refl.
Qed.

(** The loop ends within as many rounds as there are records, with room. *)
Lemma evict_records_ok response_bytes : 0 <= response_bytes <= ip_max_bytes policy -> 0 < ip_max_entries policy ->
  forall fuel state, (length (idem_entries state) <= fuel)%nat -> memory_ok state ->
  exists state', evict_records fuel policy response_bytes state = Some state' /\ memory_ok state'
  /\ over_budget policy response_bytes state' = false
  /\ forall k, bt_get k (idem_entries state) = None -> bt_get k (idem_entries state') = None.
Proof using HP HU.
  intros Hr He. induction fuel as [|fuel IH]; intros state Hf HO; unfold evict_records; fold evict_records.
  all: destruct (over_budget policy response_bytes state) eqn:EO; [|by exists state].
  all: destruct (least_by ie_last_used (idem_entries state)) as [k|] eqn:EL.
  - apply least_by_In in EL as [v Hv]. destruct (idem_entries state); cbn in *; [done|lia].
  - apply least_by_None in EL. exfalso. unfold over_budget in EO. rewrite (mo_bytes _ HO), EL in EO. cbn in EO.
    pose proof max_bytes_usize. rewrite (proj2 (usize_checked_Some _ _)) in EO by (split; [reflexivity|lia]).
    apply orb_true_iff in EO as [EO|EO]; z_facts; lia.
  - apply least_by_In in EL as [v Hv]. apply (bt_get_In _ _ _ (mo_sorted _ HO)) in Hv.
    destruct (drop_record_ok k state HO) as [HO' _].
    destruct (IH (drop_record k state)) as (state' & H1 & H2 & H3 & H4); [|done|].
    { unfold drop_record. rewrite Hv. cbn. pose proof (bt_remove_length _ _ _ Hv). lia. }
    exists state'. split; [done|]. split; [done|]. split; [done|]. intros k' Hk'. apply H4. unfold drop_record. rewrite Hv. cbn.
    rewrite bt_get_remove by apply HO. by case_decide.
  - apply least_by_None in EL. exfalso. unfold over_budget in EO. rewrite (mo_bytes _ HO), EL in EO. cbn in EO.
    pose proof max_bytes_usize. rewrite (proj2 (usize_checked_Some _ _)) in EO by (split; [reflexivity|lia]).
    apply orb_true_iff in EO as [EO|EO]; z_facts; lia.
Qed.

(** A completion ends, keeps the budgets, and leaves the record it made. *)
Lemma memory_complete_ok key digest response now state : memory_ok state ->
  exists state' r, memory_complete policy key digest response now state = Some (state', r) /\ r = Ok tt /\ memory_ok state'
  /\ (0 < ip_max_entries policy -> forall bytes, cached_response_size response = Some bytes ->
      0 < bytes <= ip_max_bytes policy ->
      exists used, bt_get key (idem_entries state')
      = Some (mkIdempotencyEntry digest response bytes (now + ip_ttl policy) used)).
Proof using HP HU.
  intros HO. unfold memory_complete.
  destruct ((ip_max_entries policy =? 0) || (ip_max_bytes policy =? 0)) eqn:E0.
  { exists state, (Ok tt). split; [done|]. split; [done|]. split; [done|].
    apply orb_true_iff in E0 as [E0|E0]; z_facts; lia. }
  apply orb_false_iff in E0 as [E1 E2]. z_facts.
  destruct (cached_response_size response) as [bytes|] eqn:ES; [|by exists state, (Ok tt)].
  pose proof (cached_size_nonneg _ _ ES) as Hn.
  destruct (ip_max_bytes policy <? bytes) eqn:EB; z_facts.
  { exists state, (Ok tt). split; [done|]. split; [done|]. split; [done|]. intros _ b [= <-]. lia. }
  destruct (drop_record_ok key state HO) as [HO1 Hk].
  destruct (evict_records_ok bytes (conj Hn EB) ltac:(lia) _ _ (le_n _) HO1) as (room & -> & HO2 & HB & Hnone).
  specialize (Hnone _ Hk). unfold over_budget in HB. apply orb_false_iff in HB as [HB1 HB2]. z_facts.
  destruct (usize_checked (idem_bytes room + bytes)) as [total|] eqn:EU; [|done]. z_facts.
  apply usize_checked_Some in EU as [-> EU]. rewrite (mo_bytes _ HO2) in *.
  eexists _, (Ok tt). split; [done|]. split; [done|]. split.
  - constructor; cbn [idem_entries idem_bytes].
    + apply bt_insert_sorted, HO2.
    + apply insert_Forall; [done|apply HO2].
    + rewrite sizes_insert, Hnone. cbn. lia.
    + rewrite bt_insert_length, Hnone. lia.
    + rewrite sizes_insert, Hnone. cbn. lia.
  - intros _ b [= <-] _. eexists. cbn. apply bt_get_insert_eq, HO2.
Qed.
End Budgets.

(** ** Histories *)

Inductive MemoryOperation : Type :=
| OpDecide (limits : RuntimeLimits) (key : string * string) (digest : string) (now : Z)
| OpComplete (key : string * string) (digest : string) (response : HttpResponse) (now : Z).

Fixpoint memory_run (crate : HttpCrate) (policy : IdempotencyPolicy) (operations : list MemoryOperation)
    (state : IdempotencyState) : option IdempotencyState :=
  match operations with
  | [] => Some state
  | OpDecide limits key digest now :: operations =>
      memory_run crate policy operations (fst (memory_decision crate limits key digest now state))
  | OpComplete key digest response now :: operations =>
      match memory_complete policy key digest response now state with
      | Some (state, _) => memory_run crate policy operations state
      | None => None
      end
  end.

Lemma memory_run_ok crate policy operations : idempotency_validate policy = Ok tt ->
  0 <= ip_max_entries policy /\ 0 <= ip_max_bytes policy -> forall state, memory_ok policy state ->
  exists state', memory_run crate policy operations state = Some state' /\ memory_ok policy state'.
Proof.
  intros HP HU. induction operations as [|[limits key digest now|key digest response now] operations IH];
    intros state HO; cbn [memory_run]; [by exists state|..].
  - destruct (memory_decision crate limits key digest now state) as [state' decision] eqn:E.
    apply IH. cbn. by eapply memory_decision_ok.
  - destruct (memory_complete_ok policy HP HU key digest response now state HO) as (state' & r & -> & _ & HO' & _).
    by apply IH.
Qed.

(** ** The records as a recency list

    The reference: the answers to completed requests, the most recently used
    first.  A decision forgets the expired ones and moves the one it finds to
    the front; a completion puts its answer in front and keeps as many of the
    others, from the front, as the policy has room for. *)

Record Answered : Type := mkAnswered {
  an_digest : string;
  an_response : HttpResponse;
  an_size : Z;
  an_expires : Z;
}.

Notation recency := (list ((string * string) * Answered)) (only parsing).

(** Whether a record is kept under another key. *)
Definition elsewhere {V} (key : string * string) (r : (string * string) * V) : bool :=
  negb (bool_decide (r.1 = key)).

Definition recency_decide (crate : HttpCrate) (limits : RuntimeLimits) (key : string * string) (digest : string)
    (now : Z) (l : recency) : recency * result HostDecision RuntimeError :=
  let live := List.filter (fun r => now <? an_expires r.2) l in
  match find (fun r => negb (elsewhere key r)) live with
  | Some (_, a) =>
      ((key, a) :: List.filter (elsewhere key) live,
       if bool_decide (an_digest a = digest) then
         let? _ := response_validate crate limits (an_response a) in Ok (HostReplay (an_response a))
       else Ok HostConflict)
  | None => (live, Ok (HostExecute (Some (MemoryToken key digest))))
  end.

(** The records from the front that a number of entries and bytes has room for. *)
Fixpoint fitting (entries bytes : Z) (l : recency) : recency :=
  match l with
  | [] => []
  | r :: l =>
      if (1 <=? entries) && (an_size r.2 <=? bytes) then r :: fitting (entries - 1) (bytes - an_size r.2) l else []
  end.

Definition recency_complete (policy : IdempotencyPolicy) (key : string * string) (digest : string)
    (response : HttpResponse) (now : Z) (l : recency) : recency :=
  match cached_response_size response with
  | Some bytes =>
      if (0 <? ip_max_entries policy) && (0 <? ip_max_bytes policy) && (bytes <=? ip_max_bytes policy) then
        (key, mkAnswered digest response bytes (now + ip_ttl policy))
        :: fitting (ip_max_entries policy - 1) (ip_max_bytes policy - bytes) (List.filter (elsewhere key) l)
      else l
  | None => l
  end.

(** What the operations of a history answer. *)
Inductive Reply : Type :=
| Decision (decision : result HostDecision RuntimeError)
| Completion (r : result unit RuntimeError).

Fixpoint memory_replies (crate : HttpCrate) (policy : IdempotencyPolicy) (operations : list MemoryOperation)
    (state : IdempotencyState) : option (list Reply) :=
  match operations with
  | [] => Some []
  | OpDecide limits key digest now :: operations =>
      let (state, decision) := memory_decision crate limits key digest now state in
      cons (Decision decision) <$> memory_replies crate policy operations state
  | OpComplete key digest response now :: operations =>
      match memory_complete policy key digest response now state with
      | Some (state, r) => cons (Completion r) <$> memory_replies crate policy operations state
      | None => None
      end
  end.

Fixpoint recency_replies (crate : HttpCrate) (policy : IdempotencyPolicy) (operations : list MemoryOperation)
    (l : recency) : list Reply :=
  match operations with
  | [] => []
  | OpDecide limits key digest now :: operations =>
      let (l, decision) := recency_decide crate limits key digest now l in
      Decision decision :: recency_replies crate policy operations l
  | OpComplete key digest response now :: operations =>
      Completion (Ok tt) :: recency_replies crate policy operations (recency_complete policy key digest response now l)
  end.

(** *** Room *)

Definition room_for (entries bytes : Z) (l : recency) : Prop :=
  Z.of_nat (length l) <= entries /\ foldr (fun r n => an_size r.2 + n) 0 l <= bytes.

Lemma fitting_all l : forall entries bytes, Forall (fun r : (string * string) * Answered => 0 <= an_size r.2) l ->
  room_for entries bytes l -> fitting entries bytes l = l.
Proof.
  induction l as [|r l IH]; intros entries bytes Hs [Hn Hb]; [done|]. apply Forall_cons in Hs as [Hr Hs].
  cbn [length foldr fitting] in *.
  assert (0 <= foldr (fun r n => an_size r.2 + n) 0 l).
  { clear -Hs. induction Hs; cbn [foldr]; lia. }
  rewrite (proj2 (Z.leb_le 1 entries)), (proj2 (Z.leb_le (an_size r.2) bytes)) by lia. cbn [andb].
  f_equal. apply IH; [done|]. split; lia.
Qed.

Lemma fitting_snoc l r : forall entries bytes, ~ room_for entries bytes (l ++ [r]) ->
  fitting entries bytes (l ++ [r]) = fitting entries bytes l.
Proof.
  induction l as [|x l IH]; intros entries bytes Hno; cbn [app fitting].
  - unfold room_for in Hno. cbn [app length foldr] in Hno.
    destruct (Z.leb_spec 1 entries), (Z.leb_spec (an_size r.2) bytes); cbn [andb]; try done. lia.
  - destruct (Z.leb_spec 1 entries), (Z.leb_spec (an_size x.2) bytes); cbn [andb]; try done.
    f_equal. apply IH. intros [Hn Hb]. apply Hno. unfold room_for. cbn [app length foldr]. split; lia.
Qed.

(** *** The simulation *)

Definition answered (entry : IdempotencyEntry) : Answered :=
  mkAnswered (ie_digest entry) (ie_response entry) (ie_size entry) (ie_expires entry).

Notation "'strip' m" := (map (fun r => (r.1, answered r.2)) m) (at level 10, only parsing).

Notation later := (fun a b : (string * string) * IdempotencyEntry => ie_last_used b.2 < ie_last_used a.2) (only parsing).

(** The list is the records by their last use, each used at a moment of its own. *)
Definition recent (state : IdempotencyState) (l : recency) : Prop :=
  Forall (fun r => ie_last_used r.2 <= idem_sequence state) (idem_entries state)
  /\ exists order, order ≡ₚ idem_entries state /\ StronglySorted later order /\ l = strip order.

Section Perm.
Context {V : Type}.
Implicit Types (m : btree (string * string) V) (key : string * string).

Lemma list_filter_perm {A} (f : A -> bool) (l l' : list A) : l ≡ₚ l' -> List.filter f l ≡ₚ List.filter f l'.
Proof.
  induction 1 as [|x l l' _ IH|x y l|l l' l'' _ IH1 _ IH2]; cbn [List.filter]; [done| | |by etransitivity].
  - destruct (f x); [by rewrite IH|done].
  - destruct (f x), (f y); [apply Permutation_swap|done..].
Qed.

Lemma elsewhere_spec key (r : (string * string) * V) : elsewhere key r = true <-> r.1 <> key.
Proof. unfold elsewhere. rewrite negb_true_iff. apply bool_decide_eq_false. Qed.

Lemma bt_NoDup m : bt_sorted m -> NoDup m.
Proof. intros H%bt_sorted_NoDup. by eapply NoDup_fmap_1. Qed.

Lemma bt_remove_perm key m : bt_sorted m -> bt_remove key m ≡ₚ List.filter (elsewhere key) m.
Proof.
  intros HS. apply NoDup_Permutation; [by apply bt_NoDup, bt_remove_sorted|apply NoDup_ListNoDup, List.NoDup_filter, NoDup_ListNoDup; by apply bt_NoDup|].
  intros [k v]. rewrite !list_elem_of_In, filter_In, elsewhere_spec, <- (bt_get_In k v m HS).
  rewrite <- (bt_get_In k v) by (by apply bt_remove_sorted). rewrite bt_get_remove by done. cbn [fst].
  case_decide as D; rewrite cmp_eq_iff in D; naive_solver.
Qed.

Lemma bt_insert_perm key v m : bt_sorted m -> bt_insert key v m ≡ₚ (key, v) :: List.filter (elsewhere key) m.
Proof.
  intros HS. apply NoDup_Permutation; [by apply bt_NoDup, bt_insert_sorted| |].
  - constructor; [|apply NoDup_ListNoDup, List.NoDup_filter, NoDup_ListNoDup; by apply bt_NoDup].
    rewrite list_elem_of_In, filter_In, elsewhere_spec. by intros [_ []].
  - intros [k x]. rewrite elem_of_cons, !list_elem_of_In, filter_In, elsewhere_spec, <- (bt_get_In k x m HS).
    rewrite <- (bt_get_In k x) by (by apply bt_insert_sorted). rewrite bt_get_insert by done. cbn [fst].
    case_decide as D; rewrite cmp_eq_iff in D; naive_solver.
Qed.
End Perm.

Lemma sorted_filter {A} (R : A -> A -> Prop) (f : A -> bool) l : StronglySorted R l -> StronglySorted R (List.filter f l).
Proof.
  induction 1 as [|x l _ IH Hx]; cbn [List.filter]; [constructor|]. destruct (f x); [|done].
  constructor; [done|]. by apply Forall_list_filter.
Qed.

Lemma filter_strip f (g : (string * string) * Answered -> bool) (order : records) :
  (forall r, g (r.1, answered r.2) = f r) -> List.filter g (strip order) = strip (List.filter f order).
Proof.
  intros Hf. induction order as [|r order IH]; [done|]. cbn [map List.filter]. rewrite Hf, IH. by destruct (f r).
Qed.

Lemma find_strip key (order : records) m : order ≡ₚ m -> bt_sorted m ->
  find (fun r => negb (elsewhere key r)) (strip order) = (fun entry => (key, answered entry)) <$> bt_get key m.
Proof.
  intros HP HS. destruct (find _ _) as [[k a]|] eqn:F.
  - apply find_some in F as [Hin Hk]. apply in_map_iff in Hin as ([k' e] & [= <- <-] & Hin).
    apply negb_true_iff, not_true_iff_false in Hk. rewrite elsewhere_spec in Hk. cbn [fst] in Hk.
    apply dec_stable in Hk as ->. rewrite (proj2 (bt_get_In key e m HS)); [done|].
    apply list_elem_of_In. rewrite <- HP. by apply list_elem_of_In.
  - destruct (bt_get key m) as [e|] eqn:G; [|done]. apply (bt_get_In key e m HS), list_elem_of_In in G.
    rewrite <- HP in G. apply list_elem_of_In in G.
    apply (in_map (fun r => (r.1, answered r.2))) in G. pose proof (find_none _ _ F _ G) as N. cbn [fst] in N.
    unfold elsewhere in N. by rewrite bool_decide_true in N.
Qed.

(** A record goes to the front when it is used. *)
Lemma recent_front state state' key entry l : bt_sorted (idem_entries state) ->
  recent state l -> idem_entries state' = bt_insert key entry (idem_entries state) ->
  ie_last_used entry = idem_sequence state' -> idem_sequence state < idem_sequence state' ->
  recent state' ((key, answered entry) :: List.filter (elsewhere key) l).
Proof.
  intros HS (HB & order & HP & Hsort & ->) HE Hu Hlt.
  assert (Forall (fun r => ie_last_used r.2 <= idem_sequence state) order) as HO by by rewrite HP.
  assert ((key, entry) :: List.filter (elsewhere key) order ≡ₚ idem_entries state') as HP'.
  { rewrite HE, bt_insert_perm by done. f_equiv. by apply list_filter_perm. }
  split.
  - rewrite <- HP'. constructor; [cbn; lia|]. apply Forall_list_filter. eapply Forall_impl; [exact HO|]. intros r; cbn; lia.
  - exists ((key, entry) :: List.filter (elsewhere key) order). split; [done|]. split.
    + constructor; [by apply sorted_filter|]. apply Forall_list_filter. eapply Forall_impl; [exact HO|].
      intros r; cbn; lia.
    + cbn [map fst snd]. f_equal. by apply filter_strip.
Qed.

Lemma recent_decide crate limits policy key digest now state state' decision l : memory_ok policy state -> recent state l ->
  idem_sequence state < u64_max -> memory_decision crate limits key digest now state = (state', decision) ->
  (recency_decide crate limits key digest now l).2 = decision
  /\ recent state' (recency_decide crate limits key digest now l).1
  /\ idem_sequence state' = idem_sequence state + 1.
Proof.
  intros HO HR Hseq. unfold memory_decision, recency_decide.
  set (live := fun '(_, entry) => now <? ie_expires entry).
  assert (u64_saturating_add (idem_sequence state) 1 = idem_sequence state + 1) as -> by (unfold u64_saturating_add; lia).
  set (entries := List.filter live (idem_entries state)).
  assert (bt_sorted entries) as HS by (apply bt_sorted_filter, HO).
  pose proof HR as (HB & order & HP & Hsort & Hl).
  assert (List.filter (fun r => now <? an_expires r.2) l = strip (List.filter live order)) as HL.
  { rewrite Hl. apply filter_strip. by intros [k e]. }
  assert (List.filter live order ≡ₚ entries) as HP' by by apply list_filter_perm.
  assert (forall total, recent (mkIdempotencyState entries total (idem_sequence state)) (strip (List.filter live order))) as HR'.
  { intros total. split; [by apply Forall_list_filter|]. exists (List.filter live order).
    split; [done|]. split; [by apply sorted_filter|done]. }
  rewrite HL, (find_strip key _ _ HP' HS). destruct (bt_get key entries) as [entry|] eqn:G; cbn [fmap option_fmap option_map].
  - intros [= <- <-]. split; [done|]. split; [|done].
    set (entry' := mkIdempotencyEntry _ _ _ _ (idem_sequence state + 1)).
    change (answered entry) with (answered entry').
    eapply (recent_front (mkIdempotencyState entries 0 (idem_sequence state))); [done|apply HR'|done|done|cbn; lia].
  - intros [= <- <-]. split; [done|]. split; [|done]. cbn [fst].
    destruct (HR' 0) as (HB' & Hrest). split; [|exact Hrest]. cbn [idem_entries idem_sequence] in *.
    eapply Forall_impl; [exact HB'|]. intros r; cbn; lia.
Qed.

(** *** Eviction *)

Lemma least_by_min {K V} (used : V -> Z) (entries : btree K V) k : least_by used entries = Some k ->
  exists v, In (k, v) entries /\ forall r, In r entries -> used v <= used r.2.
Proof.
  unfold least_by. intros ([k' v'] & Hf & ->)%fmap_Some. exists v'. cbn [fst].
  assert (forall best, fold_left (fun best entry => match best with None => Some entry
    | Some kept => if used (snd entry) <? used (snd kept) then Some entry else Some kept end) entries best = Some (k', v') ->
    (best = Some (k', v') \/ In (k', v') entries)
    /\ (forall r, In r entries -> used v' <= used r.2) /\ (forall kept, best = Some kept -> used v' <= used kept.2)) as Hgen.
  { clear. induction entries as [|e entries IH]; intros best; cbn [fold_left].
    - intros ->. split; [by left|]. split; [done|]. by intros kept [= <-].
    - intros Hf. destruct (IH _ Hf) as (Hin & Hall & Hbest). destruct best as [kept|].
      + destruct (Z.ltb_spec (used e.2) (used kept.2)); specialize (Hbest _ eq_refl).
        * split; [destruct Hin as [[= ->]|]; right; by auto using in_eq, in_cons|].
          split; [intros r [<-|Hr]; auto|]. intros ? [= <-]. lia.
        * split; [destruct Hin as [[= ->]|]; auto using in_cons|].
          split; [intros r [<-|Hr]; [lia|auto]|]. by intros ? [= <-].
      + specialize (Hbest _ eq_refl). split; [destruct Hin as [[= ->]|]; right; by auto using in_eq, in_cons|].
        split; [intros r [<-|Hr]; auto|done]. }
  destruct (Hgen None Hf) as ([?|Hin] & Hall & _); [done|]. by split.
Qed.

Lemma strip_sizes (order : records) : foldr (fun r n => an_size r.2 + n) 0 (strip order) = sizes order.
Proof. induction order as [|[k e] order IH]; [done|]. cbn [map foldr]. rewrite IH. done. Qed.

Lemma sizes_perm (m m' : records) : m ≡ₚ m' -> sizes m = sizes m'.
Proof. induction 1 as [|[k e] l l' _ IH|[k e] [k' e'] l|]; cbn; unfold sizes in *; lia. Qed.

(** The last of the list is the record the code evicts. *)
Lemma least_is_last (order : records) r entries k : order ++ [r] ≡ₚ entries -> StronglySorted later (order ++ [r]) ->
  least_by ie_last_used entries = Some k -> k = r.1.
Proof.
  intros HP Hsort (v & Hin & Hmin)%least_by_min.
  apply list_elem_of_In in Hin. rewrite <- HP in Hin. apply elem_of_app in Hin as [Hin|Hin%list_elem_of_singleton].
  - assert (ie_last_used r.2 < ie_last_used v).
    { clear -Hsort Hin. induction order as [|x order IH]; [by apply elem_of_nil in Hin|]. cbn [app] in Hsort.
      inversion_clear Hsort as [|? ? Hs Hx]. apply elem_of_cons in Hin as [E|Hin]; [|by apply IH].
      subst x. rewrite Forall_app in Hx. destruct Hx as [_ Hx]. exact (proj1 (Forall_singleton _ _) Hx). }
    specialize (Hmin r ltac:(apply list_elem_of_In; rewrite <- HP; apply elem_of_app; right; by apply list_elem_of_singleton)). lia.
  - by subst r.
Qed.

Section Evicting.
Context (policy : IdempotencyPolicy) (HP : idempotency_validate policy = Ok tt)
  (HU : 0 <= ip_max_entries policy /\ 0 <= ip_max_bytes policy) (bytes : Z) (HB : 0 <= bytes <= ip_max_bytes policy).

Lemma over_budget_room state (order : records) : memory_ok policy state -> order ≡ₚ idem_entries state ->
  over_budget policy bytes state = false
  <-> room_for (ip_max_entries policy - 1) (ip_max_bytes policy - bytes) (strip order).
Proof using HP HU HB.
  intros HO Hperm. unfold over_budget, room_for. rewrite length_map, strip_sizes, (sizes_perm _ _ Hperm), (Permutation_length Hperm).
  rewrite (mo_bytes _ _ HO), orb_false_iff, Z.leb_gt. pose proof (mo_budget _ _ HO). pose proof (sizes_nonneg _ (mo_sized _ _ HO)).
  pose proof (max_bytes_usize policy HP). destruct (usize_checked _) as [total|] eqn:EU.
  - apply usize_checked_Some in EU as [-> _]. rewrite Z.ltb_ge. lia.
  - assert (~ 0 <= sizes (idem_entries state) + bytes <= usize_max) as Hno.
    { intros Hb. rewrite (proj2 (usize_checked_Some _ _) (conj eq_refl Hb)) in EU. done. }
    split; [by intros [_ ?]|lia].
Qed.

(** What the loop keeps is what fits, from the front. *)
Lemma evict_fitting fuel : forall state state' (order : records), memory_ok policy state ->
  order ≡ₚ idem_entries state -> StronglySorted later order -> evict_records fuel policy bytes state = Some state' ->
  idem_sequence state' = idem_sequence state
  /\ exists kept, kept ≡ₚ idem_entries state' /\ StronglySorted later kept
     /\ (forall r, In r kept -> In r order)
     /\ fitting (ip_max_entries policy - 1) (ip_max_bytes policy - bytes) (strip order) = strip kept.
Proof using HP HU HB.
  induction fuel as [|fuel IH]; intros state state' order HO Hperm Hsort; unfold evict_records; fold evict_records.
  all: destruct (over_budget policy bytes state) eqn:EO.
  2,4: intros [= <-]; split; [done|]; exists order; split_and!; [done..|];
    apply fitting_all; [|by apply (over_budget_room _ _ HO Hperm)];
    rewrite Forall_map; pose proof (mo_sized _ _ HO) as HZ; unfold sized in HZ; rewrite <- Hperm in HZ;
    eapply Forall_impl; [exact HZ|by intros [k e]].
  all: destruct (least_by ie_last_used (idem_entries state)) as [k|] eqn:EL.
  1: done.
  1,3: intros [= <-]; apply least_by_None in EL; rewrite EL in Hperm; apply Permutation_nil_r in Hperm as ->;
    split; [done|]; exists []; by rewrite EL.
  intros Hev. destruct order as [|r order _] using rev_ind.
  { apply Permutation_nil in Hperm. by rewrite Hperm in EL. }
  pose proof (least_is_last _ _ _ _ Hperm Hsort EL) as ->.
  assert (bt_get r.1 (idem_entries state) = Some r.2) as Hg.
  { apply (bt_get_In _ _ _ (mo_sorted _ _ HO)), list_elem_of_In. rewrite <- Hperm.
    apply elem_of_app. right. destruct r. by apply list_elem_of_singleton. }
  destruct (drop_record_ok policy HU r.1 state HO) as [HO' _].
  assert (order ≡ₚ idem_entries (drop_record r.1 state)) as Hperm'.
  { unfold drop_record. rewrite Hg. cbn [idem_entries]. rewrite (bt_remove_perm _ _ (mo_sorted _ _ HO)).
    rewrite <- (list_filter_perm _ _ _ Hperm), List.filter_app. cbn [List.filter].
    assert (elsewhere r.1 r = false) as -> by (unfold elsewhere; by rewrite bool_decide_true).
    rewrite app_nil_r. apply reflexive_eq. symmetry. apply forallb_filter_id, forallb_forall. intros x Hx.
    apply elsewhere_spec. intros E. pose proof (bt_sorted_NoDup _ (mo_sorted _ _ HO)) as Hnd. unfold bt_keys in Hnd.
    rewrite <- Hperm, map_app in Hnd. apply NoDup_app in Hnd as (_ & Hnd & _).
    apply (Hnd x.1); [apply list_elem_of_In; by apply in_map|rewrite E; by apply list_elem_of_singleton]. }
  assert (StronglySorted later order) as Hsort' by (by apply StronglySorted_app_1_l in Hsort).
  destruct (IH _ _ _ HO' Hperm' Hsort' Hev) as (Hseq & kept & K1 & K2 & K3 & K4).
  split; [rewrite Hseq; unfold drop_record; by rewrite Hg|]. exists kept. split_and!; [done|done| |].
  - intros x Hx. apply in_app_iff. auto.
  - rewrite map_app. cbn [map]. rewrite fitting_snoc; [done|].
    pose proof (over_budget_room _ _ HO Hperm) as HR. rewrite map_app in HR. cbn [map] in HR. rewrite <- HR, EO. done.
Qed.
End Evicting.

Lemma recent_complete policy key digest response now state state' r l : idempotency_validate policy = Ok tt ->
  0 <= ip_max_entries policy /\ 0 <= ip_max_bytes policy -> memory_ok policy state -> recent state l ->
  idem_sequence state < u64_max -> memory_complete policy key digest response now state = Some (state', r) ->
  recent state' (recency_complete policy key digest response now l)
  /\ idem_sequence state <= idem_sequence state' <= idem_sequence state + 1.
Proof.
  intros HP HU HO HR Hseq. unfold memory_complete, recency_complete.
  destruct (Z.eqb_spec (ip_max_entries policy) 0) as [E|E1]; cbn [orb].
  { rewrite (proj2 (Z.ltb_ge 0 (ip_max_entries policy))) by lia. cbn [andb].
    intros [= <- _]. destruct (cached_response_size response); (split; [done|lia]). }
  destruct (Z.eqb_spec (ip_max_bytes policy) 0) as [E|E2].
  { rewrite (proj2 (Z.ltb_ge 0 (ip_max_bytes policy))) by lia. rewrite andb_false_r. cbn [andb].
    intros [= <- _]. destruct (cached_response_size response); (split; [done|lia]). }
  destruct (cached_response_size response) as [bytes|] eqn:ES; [|intros [= <- _]; split; [done|lia]].
  pose proof (cached_size_nonneg _ _ ES) as Hn.
  rewrite (proj2 (Z.ltb_lt 0 (ip_max_entries policy))), (proj2 (Z.ltb_lt 0 (ip_max_bytes policy))) by lia. cbn [andb].
  destruct (Z.ltb_spec (ip_max_bytes policy) bytes).
  { rewrite (proj2 (Z.leb_gt _ _)) by lia. intros [= <- _]. split; [done|lia]. }
  rewrite (proj2 (Z.leb_le _ _)) by lia.
  destruct (drop_record_ok policy HU key state HO) as [HO1 Hk1].
  destruct (evict_records _ _ _ _) as [room|] eqn:EV; [|done].
  pose proof HR as (HB & order & Hperm & Hsort & ->).
  assert (List.filter (elsewhere key) order ≡ₚ idem_entries (drop_record key state)) as Hperm1.
  { rewrite (list_filter_perm _ _ _ Hperm), <- bt_remove_perm by apply HO. unfold drop_record.
    destruct (bt_get key (idem_entries state)) as [old|] eqn:G; [done|].
    rewrite bt_remove_perm by apply HO. apply reflexive_eq, forallb_filter_id, forallb_forall. intros [k e] Hin.
    apply elsewhere_spec. cbn [fst]. intros ->. apply (bt_get_In _ _ _ (mo_sorted _ _ HO)) in Hin. congruence. }
  destruct (evict_fitting policy HP HU bytes ltac:(lia) _ _ _ _ HO1 Hperm1 (sorted_filter _ _ _ Hsort) EV)
    as (Hs & kept & K1 & K2 & K3 & K4).
  assert (idem_sequence (drop_record key state) = idem_sequence state) as Hd
    by (unfold drop_record; by destruct (bt_get key (idem_entries state))).
  rewrite Hs, Hd in *. assert (u64_saturating_add (idem_sequence state) 1 = idem_sequence state + 1) as ->
    by (unfold u64_saturating_add; lia).
  destruct (evict_records_ok policy HP HU bytes ltac:(lia) ltac:(lia) _ _ (le_n _) HO1)
    as (room' & EV' & HO2 & _ & Hnone). rewrite EV in EV'. injection EV' as <-. specialize (Hnone _ Hk1).
  assert (recent room (strip kept)) as HR2.
  { split; [|by exists kept]. rewrite Hs, <- K1. rewrite <- Hperm in HB. apply Forall_forall. intros x Hx.
    apply list_elem_of_In, K3, filter_In in Hx as [Hx _]. rewrite Forall_forall in HB. by apply HB, list_elem_of_In. }
  rewrite (filter_strip (elsewhere key) (elsewhere key)) by done. rewrite K4.
  set (entry := mkIdempotencyEntry digest response bytes (now + ip_ttl policy) (idem_sequence state + 1)).
  assert (strip kept = List.filter (elsewhere key) (strip kept)) as ->.
  { rewrite (filter_strip (elsewhere key) (elsewhere key)) by done. f_equal. symmetry.
    apply forallb_filter_id, forallb_forall. intros x Hx. by apply K3, filter_In in Hx as [_ ?]. }
  change (mkAnswered digest response bytes (now + ip_ttl policy)) with (answered entry).
  destruct (usize_checked _); intros [= <- _]; cbn [idem_sequence]; (split; [|lia]);
    (eapply (recent_front room); [apply HO2|done|done|done|cbn; lia]).
Qed.

(** The code and the list answer alike, along every history. *)
Lemma recent_replies crate policy operations : idempotency_validate policy = Ok tt ->
  0 <= ip_max_entries policy /\ 0 <= ip_max_bytes policy -> forall state l, memory_ok policy state -> recent state l ->
  idem_sequence state + Z.of_nat (length operations) <= u64_max ->
  memory_replies crate policy operations state = Some (recency_replies crate policy operations l).
Proof.
  intros HP HU. induction operations as [|[limits key digest now|key digest response now] operations IH];
    intros state l HO HR Hlen; cbn [memory_replies recency_replies length] in *; [done|..].
  - destruct (memory_decision crate limits key digest now state) as [state' decision] eqn:E.
    destruct (recent_decide crate limits policy key digest now state state' decision l HO HR ltac:(lia) E) as (HD & HR' & Hs).
    destruct (recency_decide crate limits key digest now l) as [l' d]. cbn [fst snd] in *. subst d.
    rewrite (IH state' l'); [done|by eapply memory_decision_ok|done|lia].
  - destruct (memory_complete_ok policy HP HU key digest response now state HO) as (state' & r & E & -> & HO' & _).
    rewrite E. destruct (recent_complete policy key digest response now state state' _ l HP HU HO HR ltac:(lia) E) as [HR' Hs].
    rewrite (IH state' _ HO' HR'); [done|lia].
Qed.

Definition sample_request (body : string) : HttpRequest :=
  mkHttpRequest "POST" "/orders" "" [mkHttpHeader "Idempotency-Key" "order-1"; mkHttpHeader "Accept" "text/plain"] body.
Definition sample_response : HttpResponse := mkHttpResponse 201 [] "created".
Definition sample_crate : HttpCrate :=
  mkHttpCrate (fun _ => true) (fun name => Some (to_ascii_lowercase name)) (fun _ => true).

(** ** Claims *)

(** Two requests of lengths a machine can hold are hashed alike exactly
    when they agree in method, path, query, body and every header the digest
    covers, names compared in lower case: no two texts run together. *)
Theorem digest_covers_request (a b : HttpRequest) (omit : bool)
  (Ha : request_fits a omit) (Hb : request_fits b omit) :
  request_preimage a omit = request_preimage b omit <->
  request_method a = request_method b /\ request_path a = request_path b /\ request_query a = request_query b
  /\ hashed_headers omit (request_headers a) = hashed_headers omit (request_headers b)
  /\ request_body a = request_body b.
Proof.
  rewrite <- request_parts_inj. split; [by apply hash_parts_inj|]. unfold request_preimage. by intros ->.
Qed.

Lemma digest_covers_request_witness :
  request_preimage (sample_request "one") true <> request_preimage (sample_request "two") true.
Proof.
  intros H. apply digest_covers_request in H as (_ & _ & _ & _ & H); [discriminate|..];
    repeat constructor; vm_compute; discriminate.
Defined.

(** Under a validated policy every history of decisions and completions in
    memory ends, with at most the configured number of records and bytes, and
    with the bytes accounted exactly. *)
Theorem idempotency_memory_bounded (crate : HttpCrate) (policy : IdempotencyPolicy) (operations : list MemoryOperation)
  (HP : idempotency_validate policy = Ok tt) (HU : 0 <= ip_max_entries policy /\ 0 <= ip_max_bytes policy) :
  exists state, memory_run crate policy operations new_idempotency = Some state
  /\ Z.of_nat (length (idem_entries state)) <= ip_max_entries policy
  /\ idem_bytes state = sizes (idem_entries state) /\ idem_bytes state <= ip_max_bytes policy.
Proof.
  assert (memory_ok policy new_idempotency) as H0.
  { constructor; cbn; [done|constructor|done|lia|lia]. }
  destruct (memory_run_ok crate policy operations HP HU _ H0) as (state & HR & HO).
  exists state. split; [done|]. split; [apply HO|]. split; [apply HO|]. rewrite (mo_bytes _ _ HO). apply HO.
Qed.

Lemma idempotency_memory_bounded_witness :
  exists state, memory_run sample_crate default_idempotency
    [OpDecide DEFAULT_LIMITS ("a", "k") "d" 0; OpComplete ("a", "k") "d" sample_response 1] new_idempotency = Some state
  /\ Z.of_nat (length (idem_entries state)) <= 128.
Proof.
  destruct (idempotency_memory_bounded sample_crate default_idempotency
    [OpDecide DEFAULT_LIMITS ("a", "k") "d" 0; OpComplete ("a", "k") "d" sample_response 1]) as (state & H1 & H2 & _).
  - reflexivity.
  - split; vm_compute; discriminate.
  - exists state. exact (conj H1 H2).
Defined.

(** C25: The records in memory are a recency list.  In every history of
    decisions and completions under a validated policy, shorter than the use
    counter can count, each operation answers as the reference list does: a
    decision forgets the expired records; the live record under its key is
    replayed to the same request, if the limits still allow the response, and
    is a conflict for another, and becomes the most recently used; without one
    the request executes.  A completion whose response fits the policy is
    recorded in front until its time ends, and displaces, from the least
    recently used on, exactly the records there is no room for; one that does
    not fit records nothing. *)
Theorem records_are_recency_list (crate : HttpCrate) (policy : IdempotencyPolicy) (operations : list MemoryOperation)
  (HP : idempotency_validate policy = Ok tt) (HU : 0 <= ip_max_entries policy /\ 0 <= ip_max_bytes policy)
  (HL : Z.of_nat (length operations) <= u64_max) :
  memory_replies crate policy operations new_idempotency = Some (recency_replies crate policy operations []).
Proof.
  apply recent_replies; [done|done| | |done].
  - constructor; cbn; [done|constructor|done|lia|lia].
  - split; [constructor|]. exists []. split; [done|]. by split; [constructor|].
Qed.

(** With room for one record: the second completion displaces the first, which
    executes again; the second answers until it expires, and not after. *)
Definition one_record : IdempotencyPolicy :=
  mkIdempotencyPolicy 1 (ip_max_bytes default_idempotency) (ip_ttl default_idempotency) (ip_max_key_bytes default_idempotency).
Definition sample_history : list MemoryOperation :=
  [OpComplete ("a", "k") "d" sample_response 1; OpDecide DEFAULT_LIMITS ("a", "k") "d" 2;
   OpComplete ("a", "j") "e" sample_response 3; OpDecide DEFAULT_LIMITS ("a", "k") "d" 4;
   OpDecide DEFAULT_LIMITS ("a", "j") "e" (2 + ip_ttl one_record);
   OpDecide DEFAULT_LIMITS ("a", "j") "e" (3 + ip_ttl one_record)].

Lemma records_are_recency_list_witness :
  memory_replies sample_crate one_record sample_history new_idempotency
  = Some [Completion (Ok tt); Decision (Ok (HostReplay sample_response)); Completion (Ok tt);
          Decision (Ok (HostExecute (Some (MemoryToken ("a", "k") "d"))));
          Decision (Ok (HostReplay sample_response));
          Decision (Ok (HostExecute (Some (MemoryToken ("a", "j") "e"))))].
Proof.
  rewrite (records_are_recency_list sample_crate one_record sample_history).
  - vm_compute. reflexivity.
  - vm_compute. reflexivity.
  - split; vm_compute; discriminate.
  - vm_compute. discriminate.
Defined.
