(* ===== verification/Types.v ===== *)
(** * Types and effects

    The types of [krit/src/analysis.rs]: the public [Type] with its effects
    and requirements and the text it is rendered as, the [InferType] that
    inference computes with, and the record contracts of the built-in nominal
    types.  A constructor of [Type] carries the prefix [Ty_], one of
    [InferType] the prefix [I].  [Arc] and [Box] are transparent; a
    [BTreeMap] of fields is the ordered association list of [BTree], a
    [BTreeSet] an ordered list without repetitions; type and effect variables
    are indices.  The debug form of a string is a parameter, as in [Values]. *)

From S2P Require Import Prelude BTree Syntax Sorting.

(** ** Ordered sets *)

#[export] Instance Cmp_nat : Cmp nat := Nat.compare.
#[export] Instance CmpOk_nat : CmpOk nat.
Proof.
  split; unfold cmp, Cmp_nat.
  - apply Nat.compare_eq_iff.
  - apply Nat.compare_antisym.
  - intros a b c. rewrite !Nat.compare_lt_iff. lia.
Qed.

(** [BTreeSet::insert] and [BTreeSet::extend]. *)
Fixpoint oset_insert {A} `{Cmp A} (x : A) (l : list A) : list A :=
  match l with
  | [] => [x]
  | y :: l' =>
      match cmp x y with Lt => x :: l | Eq => l | Gt => y :: oset_insert x l' end
  end.

Definition oset_extend {A} `{Cmp A} (l : list A) (xs : list A) : list A :=
  fold_left (fun l x => oset_insert x l) xs l.

Lemma oset_insert_elem {A} `{CmpOk A} (x y : A) l : y ∈ oset_insert x l <-> y = x \/ y ∈ l.
Proof.
  induction l as [|z l IH]; simpl; [set_solver|].
  destruct (cmp x z) eqn:E; [apply cmp_eq_iff in E as ->| |]; set_solver.
Qed.

Lemma oset_extend_elem {A} `{CmpOk A} (y : A) l xs : y ∈ oset_extend l xs <-> y ∈ l \/ y ∈ xs.
Proof.
  unfold oset_extend. revert l; induction xs as [|x xs IH]; intros l; simpl; [set_solver|].
  rewrite IH, oset_insert_elem. set_solver.
Qed.

(** ** Effects and requirements *)

Inductive Effect : Type :=
| EffAiInvoke | EffCacheRead | EffCacheWrite | EffConfigRead | EffDatabaseRead | EffDatabaseWrite
| EffHttpRequest | EffIoStdout | EffObjectRead | EffObjectWrite | EffObserveLog | EffQueueConsume
| EffQueuePublish | EffScheduleTrigger | EffSearchQuery | EffSearchVector | EffSecretRead
| EffStateTransaction.

#[export] Instance Effect_eq_dec : EqDecision Effect.
Proof. solve_decision. Defined.

Definition ALL_EFFECTS : list Effect :=
  [EffAiInvoke; EffCacheRead; EffCacheWrite; EffConfigRead; EffDatabaseRead; EffDatabaseWrite;
   EffHttpRequest; EffIoStdout; EffObjectRead; EffObjectWrite; EffObserveLog; EffQueueConsume;
   EffQueuePublish; EffScheduleTrigger; EffSearchQuery; EffSearchVector; EffSecretRead;
   EffStateTransaction].

(** [Effect::as_str]. *)
Definition effect_str (e : Effect) : string :=
  match e with
  | EffAiInvoke => "ai.invoke"
  | EffCacheRead => "cache.read"
  | EffCacheWrite => "cache.write"
  | EffConfigRead => "config.read"
  | EffDatabaseRead => "database.read"
  | EffDatabaseWrite => "database.write"
  | EffHttpRequest => "http.request"
  | EffIoStdout => "io.stdout"
  | EffObjectRead => "object.read"
  | EffObjectWrite => "object.write"
  | EffObserveLog => "observe.log"
  | EffQueueConsume => "queue.consume"
  | EffQueuePublish => "queue.publish"
  | EffScheduleTrigger => "schedule.trigger"
  | EffSearchQuery => "search.query"
  | EffSearchVector => "search.vector"
  | EffSecretRead => "secret.read"
  | EffStateTransaction => "state.transaction"
  end.

(** The derived order is the order of declaration. *)
Definition effect_index (e : Effect) : nat :=
  match e with
  | EffAiInvoke => 0 | EffCacheRead => 1 | EffCacheWrite => 2 | EffConfigRead => 3
  | EffDatabaseRead => 4 | EffDatabaseWrite => 5 | EffHttpRequest => 6 | EffIoStdout => 7
  | EffObjectRead => 8 | EffObjectWrite => 9 | EffObserveLog => 10 | EffQueueConsume => 11
  | EffQueuePublish => 12 | EffScheduleTrigger => 13 | EffSearchQuery => 14
  | EffSearchVector => 15 | EffSecretRead => 16 | EffStateTransaction => 17
  end%nat.

#[export] Instance Cmp_Effect : Cmp Effect := fun a b => cmp (effect_index a) (effect_index b).

Lemma effect_index_lookup e : ALL_EFFECTS !! effect_index e = Some e.
Proof. by destruct e. Qed.

Lemma effect_index_inj a b : effect_index a = effect_index b -> a = b.
Proof.
  intros E. pose proof (effect_index_lookup a) as Ha. rewrite E, effect_index_lookup in Ha. congruence.
Qed.

#[export] Instance CmpOk_Effect : CmpOk Effect.
Proof.
  split; unfold cmp, Cmp_Effect.
  - intros a b. rewrite cmp_eq_iff. split; [apply effect_index_inj|congruence].
  - intros a b. apply cmp_antisym.
  - intros a b c. apply cmp_trans.
Qed.

#[export] Instance Effect_countable : Countable Effect.
Proof.
  apply (inj_countable effect_index (fun n => ALL_EFFECTS !! n)). apply effect_index_lookup.
Defined.

Record CapabilityRequirement : Type := mkRequirement {
  requirement_capability : Effect;
  requirement_resource : string;
}.

#[export] Instance CapabilityRequirement_eq_dec : EqDecision CapabilityRequirement.
Proof. solve_decision. Defined.

Definition requirement_pair (r : CapabilityRequirement) : Effect * string :=
  (requirement_capability r, requirement_resource r).

#[export] Instance Cmp_CapabilityRequirement : Cmp CapabilityRequirement :=
  fun a b => cmp (requirement_pair a) (requirement_pair b).

#[export] Instance CmpOk_CapabilityRequirement : CmpOk CapabilityRequirement.
Proof.
  split; unfold cmp, Cmp_CapabilityRequirement.
  - intros [a1 a2] [b1 b2]. rewrite cmp_eq_iff. unfold requirement_pair; simpl. split; congruence.
  - intros a b. apply cmp_antisym.
  - intros a b c. apply cmp_trans.
Qed.

#[export] Instance CapabilityRequirement_countable : Countable CapabilityRequirement.
Proof.
  apply (inj_countable requirement_pair (fun p => Some (mkRequirement (fst p) (snd p)))).
  by intros [].
Defined.

(** ** Public types *)

Inductive KritType : Type :=
| Ty_Int | Ty_Bool | Ty_String | Ty_Unit
| Ty_HttpHeader | Ty_HttpRequest | Ty_HttpResponse | Ty_LogField
| Ty_QueueJob | Ty_ScheduleEvent | Ty_DatabaseTransaction | Ty_Secret
| Ty_List (element : KritType)
| Ty_Record (fields : list (string * KritType))
| Ty_Option (element : KritType)
| Ty_Result (value error : KritType)
| Ty_Function (parameters : list KritType) (return_type : KritType)
    (effects : list Effect) (requirements : list CapabilityRequirement)
| Ty_Variable (id : nat).

(** [type_variable_name]. *)
Definition type_variable_name (id : nat) : string :=
  let letter := String (ascii_of_nat (97 + id mod 26)%nat) EmptyString in
  if (id <? 26)%nat then letter else letter +:+ pretty (N.of_nat (id / 26)).

(** The loops that write [", "] before every item but the first. *)
Definition comma_separated (items : list string) : string := String.concat ", " items.

Section Rendering.
Context (str_debug : string -> string).

(** [Display] of [EffectSet], [CapabilityRequirement] and [RequirementSet]. *)
Definition effect_set_str (effects : list Effect) : string :=
  "{" +:+ comma_separated (map effect_str effects) +:+ "}".

Definition requirement_str (r : CapabilityRequirement) : string :=
  effect_str (requirement_capability r) +:+ "(" +:+ str_debug (requirement_resource r) +:+ ")".

Definition requirement_set_str (requirements : list CapabilityRequirement) : string :=
  "{" +:+ comma_separated (map requirement_str requirements) +:+ "}".

(** [Display] of [Type] and [FunctionType]. *)
Fixpoint type_str (ty : KritType) : string :=
  match ty with
  | Ty_Int => "Int"
  | Ty_Bool => "Bool"
  | Ty_String => "String"
  | Ty_Unit => "Unit"
  | Ty_HttpHeader => "HttpHeader"
  | Ty_HttpRequest => "HttpRequest"
  | Ty_HttpResponse => "HttpResponse"
  | Ty_LogField => "LogField"
  | Ty_QueueJob => "QueueJob"
  | Ty_ScheduleEvent => "ScheduleEvent"
  | Ty_DatabaseTransaction => "DatabaseTransaction"
  | Ty_Secret => "Secret"
  | Ty_List element => "List<" +:+ type_str element +:+ ">"
  | Ty_Record fields =>
      "Record { "
      +:+ comma_separated (map (fun f => fst f +:+ ": " +:+ type_str (snd f)) fields) +:+ " }"
  | Ty_Option element => "Option<" +:+ type_str element +:+ ">"
  | Ty_Result value error => "Result<" +:+ type_str value +:+ ", " +:+ type_str error +:+ ">"
  | Ty_Function parameters return_type effects requirements =>
      "fn(" +:+ comma_separated (map type_str parameters) +:+ ") -> " +:+ type_str return_type
      +:+ " effects " +:+ effect_set_str effects
      +:+ match requirements with
          | [] => ""
          | _ => " requirements " +:+ requirement_set_str requirements
          end
  | Ty_Variable id => "'" +:+ type_variable_name id
  end.
End Rendering.

(** ** Inferred types *)

Inductive InferType : Type :=
| IInt | IBool | IString | IUnit
| IHttpHeader | IHttpRequest | IHttpResponse | ILogField
| IQueueJob | IScheduleEvent | IDatabaseTransaction | ISecret
| IList (element : InferType)
| IRecord (fields : list (string * InferType)) (is_open : bool)
| IOption (element : InferType)
| IResult (value error : InferType)
| IFunction (parameters : list InferType) (return_type : InferType) (effect : nat)
| IVariable (variable : nat).

Section InferTypeInd.
Variable P : InferType -> Prop.
Hypothesis HInt : P IInt.
Hypothesis HBool : P IBool.
Hypothesis HString : P IString.
Hypothesis HUnit : P IUnit.
Hypothesis HHeader : P IHttpHeader.
Hypothesis HRequest : P IHttpRequest.
Hypothesis HResponse : P IHttpResponse.
Hypothesis HLog : P ILogField.
Hypothesis HQueue : P IQueueJob.
Hypothesis HSchedule : P IScheduleEvent.
Hypothesis HTransaction : P IDatabaseTransaction.
Hypothesis HSecret : P ISecret.
Hypothesis HList : forall t, P t -> P (IList t).
Hypothesis HRecord : forall fs o, Forall (fun f => P (snd f)) fs -> P (IRecord fs o).
Hypothesis HOption : forall t, P t -> P (IOption t).
Hypothesis HResult : forall t u, P t -> P u -> P (IResult t u).
Hypothesis HFunction : forall ps r e, Forall P ps -> P r -> P (IFunction ps r e).
Hypothesis HVariable : forall v, P (IVariable v).

Fixpoint infer_type_ind' (t : InferType) : P t :=
  match t with
  | IInt => HInt | IBool => HBool | IString => HString | IUnit => HUnit
  | IHttpHeader => HHeader | IHttpRequest => HRequest | IHttpResponse => HResponse
  | ILogField => HLog | IQueueJob => HQueue | IScheduleEvent => HSchedule
  | IDatabaseTransaction => HTransaction | ISecret => HSecret
  | IList t => HList t (infer_type_ind' t)
  | IRecord fs o =>
      HRecord fs o
        ((fix go l : Forall (fun f => P (snd f)) l :=
            match l with
            | [] => Forall_nil_2 _
            | f :: l' => Forall_cons_2 _ f l' (infer_type_ind' (snd f)) (go l')
            end) fs)
  | IOption t => HOption t (infer_type_ind' t)
  | IResult t u => HResult t u (infer_type_ind' t) (infer_type_ind' u)
  | IFunction ps r e =>
      HFunction ps r e
        ((fix go l : Forall P l :=
            match l with
            | [] => Forall_nil_2 _
            | p :: l' => Forall_cons_2 _ p l' (infer_type_ind' p) (go l')
            end) ps)
        (infer_type_ind' r)
  | IVariable v => HVariable v
  end.
End InferTypeInd.

(** [contract_record]; its last arm is unreachable, since every caller passes
    one of the six nominal types. *)
Definition contract_record (nominal : InferType) : InferType :=
  IRecord
    match nominal with
    | IHttpHeader | ILogField => [("name", IString); ("value", IString)]
    | IHttpRequest =>
        [("body", IString); ("headers", IList IHttpHeader); ("method", IString);
         ("path", IString); ("query", IString)]
    | IHttpResponse => [("body", IString); ("headers", IList IHttpHeader); ("status", IInt)]
    | IQueueJob =>
        [("attempt", IInt); ("body", IString); ("id", IString); ("maxAttempts", IInt);
         ("queue", IString)]
    | IScheduleEvent =>
        [("attempt", IInt); ("firedAtMillis", IInt); ("id", IString); ("maxAttempts", IInt);
         ("schedule", IString); ("scheduledAtMillis", IInt)]
    | _ => []
    end
    false.

(** [contract_nominal]. *)
Definition contract_nominal (contract : ContractRecord) : InferType :=
  match contract with
  | HttpRequest => IHttpRequest
  | HttpResponse => IHttpResponse
  | HttpHeader => IHttpHeader
  | LogField => ILogField
  end.

(** [Analyzer::annotation]; collecting the fields keeps the last of a
    repeated name. *)
Fixpoint annotation_type (annotation : TypeAnnotation) : InferType :=
  match annotation with
  | mkTypeAnnotation kind _ =>
      match kind with
      | TyInt => IInt
      | TyBool => IBool
      | TyString => IString
      | TyUnit => IUnit
      | TyHttpHeader => IHttpHeader
      | TyHttpRequest => IHttpRequest
      | TyHttpResponse => IHttpResponse
      | TyLogField => ILogField
      | TyQueueJob => IQueueJob
      | TyScheduleEvent => IScheduleEvent
      | TyDatabaseTransaction => IDatabaseTransaction
      | TySecret => ISecret
      | TyList element => IList (annotation_type element)
      | TyOption element => IOption (annotation_type element)
      | TyResult value error => IResult (annotation_type value) (annotation_type error)
      | TyRecord fields =>
          IRecord
            (bt_extend
               (map (fun f => match f with
                              | mkRecordTypeField name annotation _ =>
                                  (name, annotation_type annotation)
                              end) fields) [])
            false
      end
  end.

(** [Type::record_fields] with [public_contract_fields] and
    [public_contract_type]. *)
Fixpoint public_contract_type (ty : InferType) : option KritType :=
  match ty with
  | IInt => Some Ty_Int
  | IString => Some Ty_String
  | IHttpHeader => Some Ty_HttpHeader
  | IList element => Ty_List <$> public_contract_type element
  | _ => None
  end.

Definition public_contract_fields (nominal : InferType) : option (list (string * KritType)) :=
  match contract_record nominal with
  | IRecord fields _ => mapM (fun f => pair (fst f) <$> public_contract_type (snd f)) fields
  | _ => None
  end.

Definition record_fields (ty : KritType) : option (list (string * KritType)) :=
  match ty with
  | Ty_Record fields => Some fields
  | Ty_HttpHeader => public_contract_fields IHttpHeader
  | Ty_HttpRequest => public_contract_fields IHttpRequest
  | Ty_HttpResponse => public_contract_fields IHttpResponse
  | Ty_LogField => public_contract_fields ILogField
  | Ty_QueueJob => public_contract_fields IQueueJob
  | Ty_ScheduleEvent => public_contract_fields IScheduleEvent
  | _ => None
  end.
