(* ===== verification/Infer.v ===== *)
(** * Inference state and unification

    The part of the [Analyzer] of [krit/src/analysis.rs] that inferred types
    live in: the parents of type variables, their bindings, the cached heights
    with the variables that depend on each, and the effect definitions; and
    the unifier over it.

    An operation that fails leaves the state it has reached, as the code does
    after an error, so an operation is a function to an optional result and a
    state; [None] is a loop that the given fuel does not end.  A lookup of a
    variable that was never allocated, which would panic, reads a default;
    well-formed states ([InferWf]) exclude it.

    [bind_variable] builds a diagnostic that unification discards
    ([map_err(|_| ())]); the model returns the discarded error as [tt]. *)

From S2P Require Import Prelude BTree Syntax Sorting Types Parser.

(** ** State *)

Record InferEffects : Type := mkInferEffects {
  direct : list Effect;
  direct_requirements : list CapabilityRequirement;
  dependencies : list nat;
}.

(** [InferEffects::default] and [InferEffects::union]. *)
Definition no_effects : InferEffects := mkInferEffects [] [] [].

Definition effects_union (a b : InferEffects) : InferEffects :=
  mkInferEffects (oset_extend (direct a) (direct b))
    (oset_extend (direct_requirements a) (direct_requirements b))
    (oset_extend (dependencies a) (dependencies b)).

Record Inference : Type := mkInference {
  type_parents : list nat;
  substitutions : gmap nat InferType;
  effect_definitions : list InferEffects;
  type_heights : list nat;
  type_dependents : list (list nat);
  type_depth_error : option Diagnostic;
}.

(** The fields [Analyzer::new] starts with; [next_type_variable] is the
    length of [type_parents]. *)
Definition no_inference : Inference := mkInference [] ∅ [] [] [] None.

Definition with_parents (p : list nat) (s : Inference) : Inference :=
  mkInference p (substitutions s) (effect_definitions s) (type_heights s) (type_dependents s)
    (type_depth_error s).
Definition with_substitutions (m : gmap nat InferType) (s : Inference) : Inference :=
  mkInference (type_parents s) m (effect_definitions s) (type_heights s) (type_dependents s)
    (type_depth_error s).
Definition with_effects (e : list InferEffects) (s : Inference) : Inference :=
  mkInference (type_parents s) (substitutions s) e (type_heights s) (type_dependents s)
    (type_depth_error s).
Definition with_heights (h : list nat) (s : Inference) : Inference :=
  mkInference (type_parents s) (substitutions s) (effect_definitions s) h (type_dependents s)
    (type_depth_error s).
Definition with_dependents (d : list (list nat)) (s : Inference) : Inference :=
  mkInference (type_parents s) (substitutions s) (effect_definitions s) (type_heights s) d
    (type_depth_error s).
Definition with_depth_error (e : option Diagnostic) (s : Inference) : Inference :=
  mkInference (type_parents s) (substitutions s) (effect_definitions s) (type_heights s)
    (type_dependents s) e.

Definition height (s : Inference) (v : nat) : nat := default 0%nat (type_heights s !! v).
Definition dependents (s : Inference) (v : nat) : list nat := default [] (type_dependents s !! v).

(** ** Computations *)

Definition infer (E A : Type) : Type := Inference -> option (result A E * Inference).

Definition infer_ret {E A} (a : A) : infer E A := fun s => Some (Ok a, s).
Definition infer_fail {E A} (e : E) : infer E A := fun s => Some (Err e, s).

Definition infer_bind {E A B} (m : infer E A) (k : A -> infer E B) : infer E B :=
  fun s =>
    match m s with
    | None => None
    | Some (Ok a, s') => k a s'
    | Some (Err e, s') => Some (Err e, s')
    end.

Definition infer_map_err {E F A} (f : E -> F) (m : infer E A) : infer F A :=
  fun s =>
    match m s with
    | None => None
    | Some (Ok a, s') => Some (Ok a, s')
    | Some (Err e, s') => Some (Err (f e), s')
    end.

Notation "'let*' x := c 'in' k" := (infer_bind c (fun x => k))
  (at level 10, x pattern, c at level 100, k at level 200,
   format "'[v' 'let*'  x  :=  c  'in' '/' k ']'") : krit_scope.

(** ** Variables *)

(** [fresh_type]: the new variable is its own root, unbound and of height 0. *)
Definition fresh_type (s : Inference) : InferType * Inference :=
  let variable := length (type_parents s) in
  (IVariable variable,
   mkInference (type_parents s ++ [variable]) (substitutions s) (effect_definitions s)
     (type_heights s ++ [0%nat]) (type_dependents s ++ [[]]) (type_depth_error s)).

(** [fresh_effect]. *)
Definition fresh_effect (s : Inference) : nat * Inference :=
  (length (effect_definitions s), with_effects (effect_definitions s ++ [no_effects]) s).

(** The loop of [root_variable]. *)
Fixpoint climb (fuel : nat) (parents : list nat) (current : nat) : option nat :=
  match fuel with
  | O => None
  | S fuel' =>
      match parents !! current with
      | None => None
      | Some parent =>
          if Nat.eqb parent current then Some current else climb fuel' parents parent
      end
  end.

Definition root_variable (s : Inference) (variable : nat) : nat :=
  default variable (climb (S (length (type_parents s))) (type_parents s) variable).

#[global] Arguments root_variable : simpl never.

(** [resolve_head]. *)
Definition resolve_head (s : Inference) (ty : InferType) : InferType :=
  match ty with
  | IVariable variable =>
      let variable := root_variable s variable in
      default (IVariable variable) (substitutions s !! variable)
  | _ => ty
  end.

(** ** Walks over types *)

(** [occurs_inner]: [fuel] bounds the bindings entered one inside another,
    each of which adds a variable to [visited]. *)
Fixpoint occurs_inner (s : Inference) (fuel : nat) (variable : nat) (ty : InferType)
    (visited : list nat) {struct fuel} : bool * list nat :=
  (fix go (ty : InferType) (visited : list nat) {struct ty} : bool * list nat :=
     match ty with
     | IVariable other =>
         let other := root_variable s other in
         if Nat.eqb variable other then (true, visited)
         else if bool_decide (other ∈ visited) then (false, visited)
         else
           match substitutions s !! other with
           | None => (false, oset_insert other visited)
           | Some ty' =>
               match fuel with
               | O => (false, oset_insert other visited)
               | S fuel' => occurs_inner s fuel' variable ty' (oset_insert other visited)
               end
           end
     | IList element | IOption element => go element visited
     | IResult value error =>
         match go value visited with
         | (true, visited) => (true, visited)
         | (false, visited) => go error visited
         end
     | IRecord fields _ =>
         (fix any l visited :=
            match l with
            | [] => (false, visited)
            | f :: l' =>
                match go (snd f) visited with
                | (true, visited) => (true, visited)
                | (false, visited) => any l' visited
                end
            end) fields visited
     | IFunction parameters return_type _ =>
         match
           (fix any l visited :=
              match l with
              | [] => (false, visited)
              | p :: l' =>
                  match go p visited with
                  | (true, visited) => (true, visited)
                  | (false, visited) => any l' visited
                  end
              end) parameters visited
         with
         | (true, visited) => (true, visited)
         | (false, visited) => go return_type visited
         end
     | _ => (false, visited)
     end) ty visited.

Definition occurs (s : Inference) (variable : nat) (ty : InferType) : bool :=
  fst (occurs_inner s (S (length (type_parents s))) (root_variable s variable) ty []).

(** [mentioned_roots]: the set does not depend on the order of the walk. *)
Fixpoint type_variables (ty : InferType) : list nat :=
  match ty with
  | IVariable variable => [variable]
  | IList element | IOption element => type_variables element
  | IResult value error => type_variables value ++ type_variables error
  | IRecord fields _ => concat (map (fun f => type_variables (snd f)) fields)
  | IFunction parameters return_type _ =>
      concat (map type_variables parameters) ++ type_variables return_type
  | _ => []
  end.

Definition mentioned_roots (s : Inference) (ty : InferType) : list nat :=
  oset_extend [] (map (root_variable s) (type_variables ty)).

Definition max_list (l : list nat) : nat := foldr Nat.max 0%nat l.

Definition TYPE_DEPTH : nat := 256.

(** [resolved_height]. *)
Fixpoint resolved_height (s : Inference) (ty : InferType) (depth : nat) : nat :=
  if (S TYPE_DEPTH <=? depth)%nat then S TYPE_DEPTH
  else
    match ty with
    | IVariable variable => height s (root_variable s variable)
    | IList element | IOption element => S (resolved_height s element (S depth))
    | IResult value error =>
        S (Nat.max (resolved_height s value (S depth)) (resolved_height s error (S depth)))
    | IRecord fields _ =>
        S (max_list (map (fun f => resolved_height s (snd f) (S depth)) fields))
    | IFunction parameters return_type _ =>
        S (Nat.max (max_list (map (fun p => resolved_height s p (S depth)) parameters))
             (resolved_height s return_type (S depth)))
    | _ => 0%nat
    end.

(** ** Bindings *)

Definition height_error (span : Span) : Diagnostic :=
  diagnostic "K1005"
    ("nesting depth limit exceeded: inferred types may nest at most " +:+ pretty MAX_NESTING_DEPTH
     +:+ " levels") span.

(** [refresh_type_heights]; [pending] holds the top of the stack first, so
    extending it puts the last dependent on top. *)
Fixpoint refresh (fuel : nat) (pending : list nat) (span : Span) (s : Inference)
  : option (result unit Diagnostic * Inference) :=
  match fuel with
  | O => None
  | S fuel' =>
      match pending with
      | [] => Some (Ok tt, s)
      | variable :: pending' =>
          let root := root_variable s variable in
          match substitutions s !! root with
          | None => refresh fuel' pending' span s
          | Some binding =>
              let h := resolved_height s binding 0 in
              if (h <=? height s root)%nat then refresh fuel' pending' span s
              else if (TYPE_DEPTH <? h)%nat then
                Some (Err (height_error span), with_depth_error (Some (height_error span)) s)
              else
                let s' := with_heights (<[root := h]> (type_heights s)) s in
                refresh fuel' (reverse (dependents s' root) ++ pending') span s'
          end
      end
  end.

(** A bound on the turns of that loop: every turn takes one variable off the
    stack, and each of at most [256] growths of each variable puts at most all
    dependents of it there. *)
Definition refresh_bound (s : Inference) (pending : list nat) : nat :=
  (S (length pending)
   + length (type_parents s) * TYPE_DEPTH * length (concat (type_dependents s)))%nat.

Definition refresh_type_heights (pending : list nat) (span : Span) : infer Diagnostic unit :=
  fun s => refresh (refresh_bound s pending) pending span s.

Definition add_dependent (variable mentioned : nat) (s : Inference) : Inference :=
  with_dependents
    (<[mentioned := oset_insert variable (dependents s mentioned)]> (type_dependents s)) s.

(** [set_binding]. *)
Definition set_binding (variable : nat) (ty : InferType) (span : Span) : infer Diagnostic unit :=
  fun s =>
    let s := fold_left (fun s mentioned => add_dependent variable mentioned s)
               (mentioned_roots s ty) s in
    refresh_type_heights [variable] span
      (with_substitutions (<[variable := ty]> (substitutions s)) s).

(** [alias_variable]; [pending] is the code's vector, whose end is the top. *)
Definition alias_variable (alias root : nat) (span : Span) : infer Diagnostic unit :=
  fun s =>
    let s := with_parents (<[alias := root]> (type_parents s)) s in
    let alias_height := height s alias in
    let '(s, pending) :=
      if (height s root <? alias_height)%nat
      then (with_heights (<[root := alias_height]> (type_heights s)) s, dependents s root)
      else (s, []) in
    let moved := dependents s alias in
    let s := with_dependents (<[alias := []]> (type_dependents s)) s in
    let s := with_dependents
               (<[root := oset_extend (dependents s root) moved]> (type_dependents s)) s in
    refresh_type_heights (reverse (pending ++ moved)) span s.

(** [link_effects]. *)
Definition add_dependency (left right : nat) (effects : list InferEffects) : list InferEffects :=
  alter (fun e => mkInferEffects (direct e) (direct_requirements e)
                    (oset_insert right (dependencies e))) left effects.

Definition link_effects (left right : nat) (s : Inference) : Inference :=
  if Nat.eqb left right then s
  else with_effects (add_dependency right left (add_dependency left right (effect_definitions s))) s.

(** ** Unification *)

Definition discard {E A} (m : infer E A) : infer unit A := infer_map_err (fun _ => tt) m.

Definition is_nominal (ty : InferType) : bool :=
  match ty with IHttpHeader | IHttpRequest | IHttpResponse | ILogField => true | _ => false end.

Definition detach (left right : nat) (s : Inference) : Inference :=
  with_substitutions (delete right (delete left (substitutions s))) s.

Definition reattach (left right : nat) (lb rb : InferType) (s : Inference) : Inference :=
  with_substitutions (<[right := rb]> (<[left := lb]> (substitutions s))) s.

Section Unification.
Variable span : Span.
Variable unify_inner : InferType -> InferType -> infer unit InferType.

(** [unify_variables]. *)
Definition unify_variables (left right : nat) : infer unit InferType :=
  fun s =>
    let left := root_variable s left in
    let right := root_variable s right in
    if Nat.eqb left right then Some (Ok (IVariable left), s)
    else
      let root := Nat.min left right in
      let alias := Nat.max left right in
      match substitutions s !! left, substitutions s !! right with
      | None, None =>
          (let* _ := discard (alias_variable alias root span) in infer_ret (IVariable root)) s
      | Some binding, None =>
          if occurs s right binding then Some (Err tt, s)
          else (let* _ := discard (alias_variable right left span) in
                infer_ret (IVariable left)) s
      | None, Some binding =>
          if occurs s left binding then Some (Err tt, s)
          else (let* _ := discard (alias_variable left right span) in
                infer_ret (IVariable right)) s
      | Some left_binding, Some right_binding =>
          if occurs s left right_binding || occurs s right left_binding then Some (Err tt, s)
          else
            match unify_inner left_binding right_binding (detach left right s) with
            | None => None
            | Some (Err _, s1) => Some (Err tt, reattach left right left_binding right_binding s1)
            | Some (Ok unified, s1) =>
                if occurs s1 left unified || occurs s1 right unified
                then Some (Err tt, reattach left right left_binding right_binding s1)
                else
                  (let* _ := discard (alias_variable alias root span) in
                   let* _ := discard (set_binding root unified span) in
                   infer_ret (IVariable root)) s1
            end
      end.

(** [bind_variable]. *)
Definition bind_variable (variable : nat) (ty : InferType) : infer unit InferType :=
  fun s =>
    let variable := root_variable s variable in
    match ty with
    | IVariable other => unify_variables variable other s
    | _ =>
        match substitutions s !! variable with
        | Some existing =>
            (let* unified := unify_inner existing ty in
             let* _ := discard (set_binding variable unified span) in
             infer_ret (IVariable variable)) s
        | None =>
            if occurs s variable ty then Some (Err tt, s)
            else (let* _ := discard (set_binding variable ty span) in
                  infer_ret (IVariable variable)) s
        end
    end.

(** The loop of [unify_records] over the chained keys. *)
Fixpoint unify_fields (left right : list (string * InferType)) (names : list string)
    (fields : list (string * InferType)) : infer unit (list (string * InferType)) :=
  match names with
  | [] => infer_ret fields
  | name :: names' =>
      match bt_get name fields with
      | Some _ => unify_fields left right names' fields
      | None =>
          let* ty :=
            match bt_get name left, bt_get name right with
            | Some l, Some r => unify_inner l r
            | Some l, None => infer_ret l
            | None, Some r => infer_ret r
            | None, None => infer_fail tt
            end in
          unify_fields left right names' (bt_insert name ty fields)
      end
  end.

Definition has_field (fields : list (string * InferType)) (name : string) : bool :=
  is_some (bt_get name fields).

(** [unify_records]. *)
Definition unify_records (left : list (string * InferType)) (left_open : bool)
    (right : list (string * InferType)) (right_open : bool) : infer unit InferType :=
  if (negb left_open && negb right_open && bool_decide (bt_keys left <> bt_keys right))
     || (negb left_open && existsb (fun name => negb (has_field left name)) (bt_keys right))
     || (negb right_open && existsb (fun name => negb (has_field right name)) (bt_keys left))
  then infer_fail tt
  else
    let* fields := unify_fields left right (bt_keys left ++ bt_keys right) [] in
    infer_ret (IRecord fields (left_open && right_open)).

(** The parameters of two function types, collected up to the first error. *)
Fixpoint unify_parameters (left right : list InferType) : infer unit (list InferType) :=
  match left, right with
  | l :: left', r :: right' =>
      let* ty := unify_inner l r in
      let* tys := unify_parameters left' right' in
      infer_ret (ty :: tys)
  | _, _ => infer_ret []
  end.

(** The body of [unify_inner]. *)
Definition unify_step (left right : InferType) : infer unit InferType :=
  match left, right with
  | IVariable l, IVariable r => unify_variables l r
  | IVariable v, other => bind_variable v other
  | other, IVariable v => bind_variable v other
  | IInt, IInt => infer_ret IInt
  | IBool, IBool => infer_ret IBool
  | IString, IString => infer_ret IString
  | IUnit, IUnit => infer_ret IUnit
  | IHttpHeader, IHttpHeader => infer_ret IHttpHeader
  | IHttpRequest, IHttpRequest => infer_ret IHttpRequest
  | IHttpResponse, IHttpResponse => infer_ret IHttpResponse
  | ILogField, ILogField => infer_ret ILogField
  | ISecret, ISecret => infer_ret ISecret
  | IDatabaseTransaction, IDatabaseTransaction => infer_ret IDatabaseTransaction
  | (IHttpHeader | IHttpRequest | IHttpResponse | ILogField) as nominal, IRecord _ _ =>
      let* _ := unify_inner (contract_record nominal) right in infer_ret nominal
  | IRecord _ _, (IHttpHeader | IHttpRequest | IHttpResponse | ILogField) as nominal =>
      let* _ := unify_inner left (contract_record nominal) in infer_ret nominal
  | IList l, IList r => let* element := unify_inner l r in infer_ret (IList element)
  | IOption l, IOption r => let* element := unify_inner l r in infer_ret (IOption element)
  | IResult lv le, IResult rv re =>
      let* value := unify_inner lv rv in
      let* error := unify_inner le re in
      infer_ret (IResult value error)
  | IRecord l left_open, IRecord r right_open => unify_records l left_open r right_open
  | IFunction lps lr left_effect, IFunction rps rr right_effect =>
      if Nat.eqb (length lps) (length rps) then
        let* parameters := unify_parameters lps rps in
        let* return_type := unify_inner lr rr in
        fun s => Some (Ok (IFunction parameters return_type left_effect),
                       link_effects left_effect right_effect s)
      else infer_fail tt
  | _, _ => infer_fail tt
  end.
End Unification.

(** [unify_inner]: [fuel] bounds the calls open at once. *)
Fixpoint unify_inner (span : Span) (fuel : nat) (left right : InferType) : infer unit InferType :=
  match fuel with
  | O => fun _ => None
  | S fuel' => unify_step span (unify_inner span fuel') left right
  end.
