(* ===== verification/InferWf.v ===== *)
(** * Well-formed inference states

    The invariant of the inference state of [Infer]: parents lead to roots,
    bindings belong to roots and are types over allocated variables, and the
    cached heights are current, bounded, and reach every type that depends on
    them.  The heights make the bindings acyclic.  The operations below the
    unifier ([refresh_type_heights], [set_binding], [alias_variable],
    [fresh_type]) keep it. *)

From S2P Require Import Prelude BTree Syntax Sorting Types Parser Infer.

#[local] Open Scope nat_scope.

(** ** Parents *)

Inductive climbs (ps : list nat) : nat -> nat -> nat -> Prop :=
| climbs_root v : ps !! v = Some v -> climbs ps 0 v v
| climbs_step k v p r : ps !! v = Some p -> p <> v -> climbs ps k p r -> climbs ps (S k) v r.

Definition rooted (ps : list nat) : Prop :=
  forall v, v < length ps -> exists k r, climbs ps k v r.

Section Climbing.
Context (ps : list nat).

Lemma climbs_det k v r : climbs ps k v r -> forall k' r', climbs ps k' v r' -> k = k' /\ r = r'.
Proof.
  induction 1 as [v Hv|k v p r Hv Hne Hc IH]; intros k' r' H'; inversion H'; simplify_eq; try done.
  apply IH in H1 as [-> ->]. done.
Qed.

Lemma climbs_is_root k v r : climbs ps k v r -> ps !! r = Some r.
Proof. induction 1; done. Qed.

Lemma climbs_lt k v r : climbs ps k v r -> v < length ps.
Proof. destruct 1; by eapply lookup_lt_Some. Qed.

Lemma climbs_path k v r :
  climbs ps k v r ->
  exists l, length l = S k /\ NoDup l /\ Forall (fun w => exists j, j <= k /\ climbs ps j w r) l.
Proof.
  induction 1 as [v Hv|k v p r Hv Hne Hc (l & Hl & Hd & Hf)].
  - exists [v]. split; [done|]. split; [apply NoDup_singleton|].
    repeat constructor. exists 0. split; [lia|by constructor].
  - exists (v :: l). split; [simpl; lia|]. split.
    + apply NoDup_cons. split; [|done]. intros Hin. rewrite Forall_forall in Hf.
      destruct (Hf _ Hin) as (j & Hj & Hcj).
      destruct (climbs_det _ _ _ Hcj (S k) r) as [-> _]; [by econstructor|lia].
    + constructor; [exists (S k); split; [lia|by econstructor]|].
      eapply Forall_impl; [exact Hf|]. intros w (j & Hj & Hcj). exists j. split; [lia|done].
Qed.

Lemma climbs_short k v r : climbs ps k v r -> k < length ps.
Proof.
  intros (l & Hl & Hd & Hf)%climbs_path.
  assert (l ⊆+ seq 0 (length ps)) as Hs.
  { apply NoDup_submseteq; [done|]. intros w Hw. rewrite Forall_forall in Hf.
    destruct (Hf _ Hw) as (j & _ & Hc%climbs_lt). apply elem_of_seq. lia. }
  apply submseteq_length in Hs. rewrite length_seq in Hs. lia.
Qed.

Lemma climb_climbs fuel v r : climb fuel ps v = Some r <-> exists k, k < fuel /\ climbs ps k v r.
Proof.
  revert v; induction fuel as [|fuel IH]; intros v; simpl.
  { split; [done|]. intros (k & Hk & _). lia. }
  destruct (ps !! v) as [p|] eqn:Hv.
  - destruct (Nat.eqb_spec p v) as [->|Hne].
    + split; [intros [= <-]; exists 0; split; [lia|by constructor]|].
      intros (k & _ & Hc). by inversion Hc; simplify_eq.
    + rewrite IH. split.
      * intros (k & Hk & Hc). exists (S k). split; [lia|by econstructor].
      * intros (k & Hk & Hc). inversion Hc; simplify_eq. exists k0. split; [lia|done].
  - split; [done|]. intros (k & _ & Hc). inversion Hc; simplify_eq.
Qed.
End Climbing.

(** Making the root [a] an alias of the root [b]. *)
Lemma climbs_alias ps a b k v r :
  a <> b -> ps !! a = Some a -> ps !! b = Some b -> climbs ps k v r ->
  exists k', climbs (<[a := b]> ps) k' v (if Nat.eqb r a then b else r).
Proof.
  intros Hab Ha Hb. pose proof (lookup_lt_Some _ _ _ Ha) as Hlt.
  assert (climbs (<[a := b]> ps) 0 b b) as Hb'.
  { constructor. by rewrite list_lookup_insert_ne by done. }
  induction 1 as [v Hv|k v p r Hv Hne Hc IH].
  - destruct (Nat.eqb_spec v a) as [->|Hva].
    + exists 1. eapply climbs_step; [by apply list_lookup_insert_eq|done|done].
    + exists 0. constructor. by rewrite list_lookup_insert_ne by done.
  - destruct IH as (k' & IH). assert (v <> a) by (intros ->; congruence).
    exists (S k'). eapply climbs_step; [|exact Hne|exact IH]. by rewrite list_lookup_insert_ne by done.
Qed.

(** ** Shapes of types *)

(** No open record anywhere, and fields in order. *)
Fixpoint solid (ty : InferType) : Prop :=
  match ty with
  | IList t | IOption t => solid t
  | IResult t u => solid t /\ solid u
  | IRecord fs o =>
      o = false /\ bt_sorted fs
      /\ (fix all l := match l with [] => True | f :: l' => solid (snd f) /\ all l' end) fs
  | IFunction ps r _ =>
      (fix all l := match l with [] => True | p :: l' => solid p /\ all l' end) ps /\ solid r
  | _ => True
  end.

Lemma solid_record fs o :
  solid (IRecord fs o) <-> o = false /\ bt_sorted fs /\ Forall (fun f => solid (snd f)) fs.
Proof.
  simpl. apply and_iff_compat_l, and_iff_compat_l.
  induction fs as [|f fs IH]; [naive_solver constructor|]. rewrite Forall_cons. by rewrite <- IH.
Qed.

Lemma solid_function ps r e : solid (IFunction ps r e) <-> Forall solid ps /\ solid r.
Proof.
  simpl. apply and_iff_compat_r.
  induction ps as [|p ps IH]; [naive_solver constructor|]. rewrite Forall_cons. by rewrite <- IH.
Qed.

Definition is_variable (ty : InferType) : bool :=
  match ty with IVariable _ => true | _ => false end.

(** Only the head may be an open record. *)
Definition headed (ty : InferType) : Prop :=
  match ty with
  | IRecord fs _ => bt_sorted fs /\ Forall (fun f => solid (snd f)) fs
  | _ => solid ty
  end.

Lemma solid_headed t : solid t -> headed t.
Proof. destruct t as [| | | | | | | | | | | | |fs o| | | |]; try done. intros H%solid_record. naive_solver. Qed.

(** Effect variables of a type. *)
Fixpoint type_effects (ty : InferType) : list nat :=
  match ty with
  | IList t | IOption t => type_effects t
  | IResult t u => type_effects t ++ type_effects u
  | IRecord fs _ => concat (map (fun f => type_effects (snd f)) fs)
  | IFunction ps r e => e :: concat (map type_effects ps) ++ type_effects r
  | _ => []
  end.

Definition in_scope (s : Inference) (ty : InferType) : Prop :=
  (forall v, v ∈ type_variables ty -> v < length (type_parents s))
  /\ (forall e, e ∈ type_effects ty -> e < length (effect_definitions s)).

(** ** The invariant *)

Definition is_root (s : Inference) (v : nat) : Prop := type_parents s !! v = Some v.

Record wf_core (s : Inference) : Prop := {
  wf_rooted : rooted (type_parents s);
  wf_heights_length : length (type_heights s) = length (type_parents s);
  wf_dependents_length : length (type_dependents s) = length (type_parents s);
  wf_key : forall v t, substitutions s !! v = Some t -> is_root s v;
  wf_binding : forall v t, substitutions s !! v = Some t ->
                 is_variable t = false /\ headed t /\ in_scope s t;
  wf_bounded : forall v, height s v <= TYPE_DEPTH;
  wf_dependents : forall v t y, substitutions s !! v = Some t -> y ∈ type_variables t ->
                    exists w, w ∈ dependents s (root_variable s y) /\ root_variable s w = v;
}.

(** Heights are current but for the bindings of the variables on a stack. *)
Definition heights_current (s : Inference) (pending : list nat) : Prop :=
  forall v t, substitutions s !! v = Some t ->
    resolved_height s t 0 <= height s v \/ exists w, w ∈ pending /\ root_variable s w = v.

Record wf (s : Inference) : Prop := {
  wf_wf_core : wf_core s;
  wf_current : heights_current s [];
}.

Lemma wf_height s v t : wf s -> substitutions s !! v = Some t -> resolved_height s t 0 <= height s v.
Proof. intros [_ Hc] Hv. destruct (Hc _ _ Hv) as [|(w & Hw & _)]; [done|set_solver]. Qed.

(** ** Roots *)

Section Roots.
Context (s : Inference) (Hr : rooted (type_parents s)).

Lemma root_climbs v :
  v < length (type_parents s) -> exists k, climbs (type_parents s) k v (root_variable s v).
Proof.
  intros Hv. destruct (Hr v Hv) as (k & r & Hc). unfold root_variable.
  assert (climb (S (length (type_parents s))) (type_parents s) v = Some r) as ->.
  { apply climb_climbs. exists k. split; [|done]. apply climbs_short in Hc. lia. }
  simpl. eauto.
Qed.

Lemma root_out v : length (type_parents s) <= v -> root_variable s v = v.
Proof. intros Hv. unfold root_variable; simpl. by rewrite lookup_ge_None_2. Qed.

Lemma root_is_root v : v < length (type_parents s) -> is_root s (root_variable s v).
Proof. intros [k Hc]%root_climbs. by eapply climbs_is_root. Qed.

Lemma root_lt v : v < length (type_parents s) -> root_variable s v < length (type_parents s).
Proof. intros Hv%root_is_root. by eapply lookup_lt_Some. Qed.

Lemma root_of_climbs k v r : climbs (type_parents s) k v r -> root_variable s v = r.
Proof.
  intros Hc. destruct (root_climbs v) as [k' Hc']; [by eapply climbs_lt|].
  by destruct (climbs_det _ _ _ _ Hc' _ _ Hc) as [_ ->].
Qed.

Lemma root_of_root v : is_root s v -> root_variable s v = v.
Proof. intros Hv. eapply root_of_climbs. by constructor. Qed.

Lemma root_idem v : root_variable s (root_variable s v) = root_variable s v.
Proof.
  destruct (decide (v < length (type_parents s))).
  - by apply root_of_root, root_is_root.
  - rewrite !(root_out v) by lia. done.
Qed.

Lemma root_iff v : v < length (type_parents s) -> is_root s v <-> root_variable s v = v.
Proof.
  intros Hv. split; [apply root_of_root|]. intros E. rewrite <- E. by apply root_is_root.
Qed.
End Roots.

Lemma root_same_parents s s' v :
  type_parents s' = type_parents s -> root_variable s' v = root_variable s v.
Proof. unfold root_variable. by intros ->. Qed.

Lemma rooted_alias ps a b :
  a <> b -> ps !! a = Some a -> ps !! b = Some b -> rooted ps -> rooted (<[a := b]> ps).
Proof.
  intros Hab Ha Hb Hr v Hv. rewrite length_insert in Hv. destruct (Hr v Hv) as (k & r & Hc).
  destruct (climbs_alias ps a b k v r) as [k' Hc']; eauto.
Qed.

Lemma root_alias s s' a b v :
  rooted (type_parents s) -> a <> b -> is_root s a -> is_root s b ->
  type_parents s' = <[a := b]> (type_parents s) ->
  root_variable s' v = if Nat.eqb (root_variable s v) a then b else root_variable s v.
Proof.
  intros Hr Hab Ha Hb Hp.
  assert (rooted (type_parents s')) as Hr' by (rewrite Hp; by apply rooted_alias).
  destruct (decide (v < length (type_parents s))) as [Hv|Hv].
  - destruct (root_climbs s Hr v Hv) as [k Hc].
    destruct (climbs_alias _ a b _ _ _ Hab Ha Hb Hc) as [k' Hc'].
    eapply root_of_climbs; [done|]. rewrite Hp. exact Hc'.
  - rewrite (root_out s v), (root_out s' v) by (rewrite ?Hp, ?length_insert; lia).
    destruct (Nat.eqb_spec v a) as [->|]; [|done]. apply lookup_lt_Some in Ha. lia.
Qed.

(** ** Heights *)

Lemma max_list_le l b : max_list l <= b <-> Forall (fun x => x <= b) l.
Proof.
  induction l as [|x l IH]; [simpl; split; [constructor|lia]|].
  rewrite Forall_cons, <- IH. unfold max_list. simpl. lia.
Qed.

Lemma max_list_elem x l : x ∈ l -> x <= max_list l.
Proof.
  intros Hx. assert (max_list l <= max_list l) as H%max_list_le by done.
  rewrite Forall_forall in H. by apply H.
Qed.

Lemma max_list_mono {A} (f g : A -> nat) l :
  Forall (fun a => f a <= g a) l -> max_list (map f l) <= max_list (map g l).
Proof.
  induction 1 as [|a l Ha _ IH]; [done|]. unfold max_list in *. simpl. lia.
Qed.

Section VariablesOf.
Lemma elem_of_record_vars v fs o :
  v ∈ type_variables (IRecord fs o) <-> exists f, f ∈ fs /\ v ∈ type_variables (snd f).
Proof.
  simpl. rewrite list_elem_of_In, in_concat. setoid_rewrite in_map_iff. split.
  - intros (l & (f & <- & Hf) & Hv). exists f. by rewrite !list_elem_of_In.
  - intros (f & Hf%list_elem_of_In & Hv%list_elem_of_In). eauto.
Qed.

Lemma elem_of_function_vars v ps r e :
  v ∈ type_variables (IFunction ps r e)
  <-> (exists p, p ∈ ps /\ v ∈ type_variables p) \/ v ∈ type_variables r.
Proof.
  simpl. rewrite elem_of_app. apply or_iff_compat_r.
  rewrite list_elem_of_In, in_concat. setoid_rewrite in_map_iff. split.
  - intros (l & (f & <- & Hf) & Hv). exists f. by rewrite !list_elem_of_In.
  - intros (f & Hf%list_elem_of_In & Hv%list_elem_of_In). eauto.
Qed.

Lemma elem_of_record_effects v fs o :
  v ∈ type_effects (IRecord fs o) <-> exists f, f ∈ fs /\ v ∈ type_effects (snd f).
Proof.
  simpl. rewrite list_elem_of_In, in_concat. setoid_rewrite in_map_iff. split.
  - intros (l & (f & <- & Hf) & Hv). exists f. by rewrite !list_elem_of_In.
  - intros (f & Hf%list_elem_of_In & Hv%list_elem_of_In). eauto.
Qed.

Lemma elem_of_function_effects v ps r e :
  v ∈ type_effects (IFunction ps r e)
  <-> v = e \/ (exists p, p ∈ ps /\ v ∈ type_effects p) \/ v ∈ type_effects r.
Proof.
  simpl. rewrite elem_of_cons, elem_of_app. apply or_iff_compat_l, or_iff_compat_r.
  rewrite list_elem_of_In, in_concat. setoid_rewrite in_map_iff. split.
  - intros (l & (f & <- & Hf) & Hv). exists f. by rewrite !list_elem_of_In.
  - intros (f & Hf%list_elem_of_In & Hv%list_elem_of_In). eauto.
Qed.
End VariablesOf.

Lemma resolved_height_mono s s' t d :
  (forall y, y ∈ type_variables t -> height s (root_variable s y) <= height s' (root_variable s' y)) ->
  resolved_height s t d <= resolved_height s' t d.
Proof.
  revert d; induction t as [| | | | | | | | | | | |t IH|fs o IH|t IH|t u IHt IHu|ps r e IHp IHr|v]
    using infer_type_ind'; intros d Hy; try (simpl; case_match; lia).
  - simpl. case_match; [lia|]. apply le_n_S, IH. set_solver.
  - simpl. case_match; [lia|]. apply le_n_S, max_list_mono. rewrite Forall_forall in IH |- *.
    intros f Hf. apply IH; [done|]. intros y Hin. apply Hy. apply elem_of_record_vars. eauto.
  - simpl. case_match; [lia|]. apply le_n_S, IH. set_solver.
  - simpl. case_match; [lia|]. apply le_n_S, Nat.max_le_compat; [apply IHt|apply IHu]; set_solver.
  - simpl. case_match; [lia|]. apply le_n_S, Nat.max_le_compat.
    + apply max_list_mono. rewrite Forall_forall in IHp |- *. intros p Hp. apply IHp; [done|].
      intros y Hin. apply Hy. apply elem_of_function_vars. eauto.
    + apply IHr. intros y Hin. apply Hy. apply elem_of_function_vars. eauto.
  - simpl. case_match; [lia|]. apply Hy. by apply list_elem_of_singleton.
Qed.

Lemma resolved_height_same s s' t d :
  (forall y, y ∈ type_variables t -> height s (root_variable s y) = height s' (root_variable s' y)) ->
  resolved_height s t d = resolved_height s' t d.
Proof.
  intros Hy. apply Nat.le_antisymm; apply resolved_height_mono; intros y Hin; by rewrite (Hy y Hin).
Qed.

Lemma resolved_height_fields s s' t d :
  type_parents s = type_parents s' -> type_heights s = type_heights s' ->
  resolved_height s t d = resolved_height s' t d.
Proof.
  intros Hp Hh. apply resolved_height_same. intros y _. unfold height.
  by rewrite (root_same_parents s' s y Hp), Hh.
Qed.

(** Below the cutoff a type is higher than the variables it mentions. *)
Lemma resolved_height_variable s t d y :
  y ∈ type_variables t -> resolved_height s t d + d <= TYPE_DEPTH ->
  height s (root_variable s y) + (if is_variable t then 0 else 1) <= resolved_height s t d.
Proof.
  assert (forall t d, resolved_height s t d + d <= TYPE_DEPTH -> (S TYPE_DEPTH <=? d) = false) as Hcut.
  { intros t' d' H. apply Nat.leb_gt. lia. }
  assert (forall t d h, resolved_height s t d <= h -> h + d <= TYPE_DEPTH ->
            (forall d', resolved_height s t d' + d' <= TYPE_DEPTH ->
              height s (root_variable s y) + (if is_variable t then 0 else 1) <= resolved_height s t d') ->
            height s (root_variable s y) <= h) as Hsub.
  { intros t' d' h Hh Hd H. specialize (H d'). destruct (is_variable t'); lia. }
  revert d; induction t as [| | | | | | | | | | | |t IH|fs o IH|t IH|t u IHt IHu|ps r e IHp IHr|v]
    using infer_type_ind'; intros d Hy Hd; try (by apply elem_of_nil in Hy);
    pose proof (Hcut _ _ Hd) as Hc; cbn -[Nat.leb TYPE_DEPTH] in Hd |- *; rewrite Hc in Hd |- *.
  - pose proof (Hsub t (S d) (resolved_height s t (S d))). specialize (H ltac:(lia) ltac:(lia)).
    specialize (H (fun d' => IH d' Hy)). lia.
  - apply elem_of_record_vars in Hy as (f & Hf & Hy). rewrite Forall_forall in IH.
    assert (resolved_height s (snd f) (S d)
            <= max_list (map (fun f => resolved_height s (snd f) (S d)) fs)) as Hm.
    { apply max_list_elem, list_elem_of_fmap. eauto. }
    pose proof (Hsub (snd f) (S d) _ Hm) as H. specialize (H ltac:(lia) (fun d' => IH f Hf d' Hy)). lia.
  - pose proof (Hsub t (S d) (resolved_height s t (S d))). specialize (H ltac:(lia) ltac:(lia)).
    specialize (H (fun d' => IH d' Hy)). lia.
  - apply elem_of_app in Hy as [Hy|Hy].
    + pose proof (Hsub t (S d) _ (Nat.le_max_l _ (resolved_height s u (S d)))) as H.
      specialize (H ltac:(lia) (fun d' => IHt d' Hy)). lia.
    + pose proof (Hsub u (S d) _ (Nat.le_max_r (resolved_height s t (S d)) _)) as H.
      specialize (H ltac:(lia) (fun d' => IHu d' Hy)). lia.
  - apply elem_of_function_vars in Hy as [(p & Hp & Hy)|Hy].
    + rewrite Forall_forall in IHp.
      assert (resolved_height s p (S d)
              <= max_list (map (fun p => resolved_height s p (S d)) ps)) as Hm.
      { apply max_list_elem, list_elem_of_fmap. eauto. }
      pose proof (Hsub p (S d) _ Hm) as H. specialize (H ltac:(lia) (fun d' => IHp p Hp d' Hy)). lia.
    + pose proof (Hsub r (S d) _ (Nat.le_max_r
        (max_list (map (fun p => resolved_height s p (S d)) ps)) _)) as H.
      specialize (H ltac:(lia) (fun d' => IHr d' Hy)). lia.
  - apply list_elem_of_singleton in Hy as ->. lia.
Qed.

(** Heights decrease along bindings. *)
Lemma wf_height_lt s v t y :
  wf s -> substitutions s !! v = Some t -> y ∈ type_variables t ->
  height s (root_variable s y) < height s v.
Proof.
  intros Hwf Hv Hy. pose proof (wf_height _ _ _ Hwf Hv) as Hh.
  pose proof (wf_bounded _ (wf_wf_core _ Hwf) v) as Hb.
  destruct (wf_binding _ (wf_wf_core _ Hwf) _ _ Hv) as (Hn & _ & _).
  pose proof (resolved_height_variable s t 0 y Hy). rewrite Hn in H. lia.
Qed.

(** ** Refreshing heights *)

Lemma height_insert s r h v :
  height (with_heights (<[r := h]> (type_heights s)) s) v
  = if decide (v = r /\ r < length (type_heights s)) then h else height s v.
Proof.
  unfold height; simpl. case_decide as D.
  - destruct D as [-> D]. by rewrite list_lookup_insert_eq.
  - destruct (decide (v = r)) as [->|]; [|by rewrite list_lookup_insert_ne by done].
    rewrite list_insert_ge; [done|lia].
Qed.

Lemma key_lt s v t : wf_core s -> substitutions s !! v = Some t -> v < length (type_parents s).
Proof. intros Hwf Hv. eapply lookup_lt_Some, (wf_key _ Hwf), Hv. Qed.

Lemma wf_core_heights s h :
  wf_core s -> length h = length (type_heights s) ->
  (forall v, height (with_heights h s) v <= TYPE_DEPTH) -> wf_core (with_heights h s).
Proof.
  intros [H1 H2 H3 H4 H5 H6 H7] Hl Hb. constructor; simpl; try done. by rewrite Hl.
Qed.

(** The states [refresh] goes through differ in the heights, which grow. *)
Definition grows (s s' : Inference) : Prop :=
  s' = with_heights (type_heights s') s /\ length (type_heights s') = length (type_heights s)
  /\ forall v, height s v <= height s' v.

Lemma grows_refl s : grows s s.
Proof. split; [by destruct s|]. split; [done|]. intros v. done. Qed.

Lemma grows_trans s1 s2 s3 : grows s1 s2 -> grows s2 s3 -> grows s1 s3.
Proof.
  intros (E1 & L1 & H1) (E2 & L2 & H2). split; [by rewrite E2, E1|]. split; [lia|].
  intros v. specialize (H1 v); specialize (H2 v). lia.
Qed.

Section Refresh.
Context (span : Span).

Lemma refresh_grow_step s v root t pending :
  wf_core s -> heights_current s (v :: pending) -> root = root_variable s v ->
  substitutions s !! root = Some t ->
  height s root < resolved_height s t 0 -> resolved_height s t 0 <= TYPE_DEPTH ->
  let s' := with_heights (<[root := resolved_height s t 0]> (type_heights s)) s in
  grows s s' /\ wf_core s' /\ heights_current s' (reverse (dependents s' root) ++ pending).
Proof.
  intros Hwf Hcur -> Ht Hlt Hle s'. set (r := root_variable s v) in *.
  pose proof (key_lt _ _ _ Hwf Ht) as Hin. rewrite <- (wf_heights_length _ Hwf) in Hin.
  assert (forall w, height s w <= height s' w) as Hmono.
  { intros w. unfold s'. rewrite height_insert. case_decide as D; [|done]. destruct D as [-> _]. lia. }
  split; [|split].
  - split; [done|]. split; [|done]. apply length_insert.
  - apply wf_core_heights; [done|apply length_insert|].
    intros w. fold s'. unfold s'. rewrite height_insert. case_decide; [done|apply Hwf].
  - intros w u Hw. change (substitutions s !! w = Some u) in Hw.
    destruct (decide (r ∈ map (root_variable s) (type_variables u))) as [Hm|Hm].
    + apply list_elem_of_fmap in Hm as (y & Hy & Hyu).
      destruct (wf_dependents _ Hwf _ _ _ Hw Hyu) as (x & Hx & Hroot). right. exists x.
      split; [|exact Hroot]. rewrite elem_of_app, elem_of_reverse. left. by rewrite Hy.
    + assert (resolved_height s' u 0 = resolved_height s u 0) as ->.
      { apply resolved_height_same. intros y Hy. change (root_variable s' y) with (root_variable s y).
        unfold s'. rewrite height_insert, decide_False; [done|]. intros [E _]. apply Hm.
        rewrite <- E. by apply list_elem_of_fmap_2. }
      destruct (decide (w = r)) as [->|Hwr].
      * assert (u = t) as -> by congruence. left. unfold s'. by rewrite height_insert, decide_True.
      * destruct (Hcur w u Hw) as [Hc|(x & Hx & Hroot)].
        { left. etrans; [exact Hc|apply Hmono]. }
        apply elem_of_cons in Hx as [->|Hx]; [done|]. right. exists x. rewrite elem_of_app. eauto.
Qed.

Lemma current_pop s v t pending :
  heights_current s (v :: pending) ->
  (substitutions s !! root_variable s v = Some t -> resolved_height s t 0 <= height s (root_variable s v)) ->
  (substitutions s !! root_variable s v = Some t \/ substitutions s !! root_variable s v = None) ->
  heights_current s pending.
Proof.
  intros Hcur Hle Ho w u Hw. destruct (Hcur w u Hw) as [|(x & Hx & Hroot)]; [by left|].
  apply elem_of_cons in Hx as [->|Hx]; [|by eauto]. left. rewrite Hroot in *.
  destruct Ho as [Ho|Ho]; [|congruence]. assert (u = t) as -> by congruence. auto.
Qed.

Lemma refresh_keeps fuel pending s s' :
  wf_core s -> heights_current s pending -> refresh fuel pending span s = Some (Ok tt, s') ->
  grows s s' /\ wf s'.
Proof.
  revert pending s; induction fuel as [|fuel IH]; intros pending s Hwf Hcur; [done|].
  cbn -[resolved_height TYPE_DEPTH Nat.leb Nat.ltb].
  destruct pending as [|v pending].
  { intros [= <-]. split; [apply grows_refl|by split]. }
  destruct (substitutions s !! root_variable s v) as [t|] eqn:Ht.
  - destruct (Nat.leb_spec (resolved_height s t 0) (height s (root_variable s v))).
    { apply IH; [done|]. eapply current_pop; [done| |left; exact Ht]. done. }
    destruct (Nat.ltb_spec TYPE_DEPTH (resolved_height s t 0)); [done|].
    destruct (refresh_grow_step s v _ t pending Hwf Hcur eq_refl Ht) as (Hg & Hwf' & Hcur'); [done|done|].
    intros Hr. destruct (IH _ _ Hwf' Hcur' Hr) as [Hg' Hf]. split; [|done]. by eapply grows_trans.
  - apply IH; [done|]. eapply (current_pop s v IUnit); [done| |by right]. congruence.
Qed.

Lemma refresh_error fuel pending s e s' :
  refresh fuel pending span s = Some (Err e, s') -> type_depth_error s' = Some e.
Proof.
  revert pending s; induction fuel as [|fuel IH]; intros pending s; [done|].
  cbn -[resolved_height TYPE_DEPTH Nat.leb Nat.ltb]. destruct pending as [|v pending]; [done|].
  repeat case_match; try apply IH. by intros [= <- <-].
Qed.

Definition height_room (s : Inference) : nat := sum_list (map (fun h => TYPE_DEPTH - h) (type_heights s)).

Lemma sum_list_insert (f : nat -> nat) l i x y :
  l !! i = Some x -> sum_list (map f (<[i := y]> l)) + f x = sum_list (map f l) + f y.
Proof.
  revert i; induction l as [|a l IH]; intros [|i]; simpl; [done|done| |].
  - intros [= ->]. lia.
  - intros H%IH. lia.
Qed.

Lemma dependents_length s v : length (dependents s v) <= length (concat (type_dependents s)).
Proof.
  unfold dependents. destruct (type_dependents s !! v) as [l|] eqn:E; simpl; [|lia].
  apply list_elem_of_lookup_2 in E. induction E as [|x l' E IH]; simpl; rewrite length_app; lia.
Qed.

Lemma refresh_decides fuel pending s :
  wf_core s -> length pending + height_room s * length (concat (type_dependents s)) < fuel ->
  is_Some (refresh fuel pending span s).
Proof.
  revert pending s; induction fuel as [|fuel IH]; intros pending s Hwf Hf; [lia|].
  cbn -[resolved_height TYPE_DEPTH Nat.leb Nat.ltb].
  destruct pending as [|v pending]; [eauto|]. simpl in Hf.
  destruct (substitutions s !! root_variable s v) as [t|] eqn:Ht; [|apply IH; [done|lia]].
  destruct (Nat.leb_spec (resolved_height s t 0) (height s (root_variable s v))) as [|Hlt];
    [apply IH; [done|lia]|].
  destruct (Nat.ltb_spec TYPE_DEPTH (resolved_height s t 0)); [eauto|].
  pose proof (key_lt _ _ _ Hwf Ht) as Hin. rewrite <- (wf_heights_length _ Hwf) in Hin.
  set (r := root_variable s v) in *. set (h := resolved_height s t 0) in *.
  apply IH.
  - apply wf_core_heights; [done|apply length_insert|]. intros w. rewrite height_insert.
    case_decide; [done|apply Hwf].
  - rewrite length_app, length_reverse.
    change (dependents _ r) with (dependents s r). change (type_dependents (with_heights _ s)) with (type_dependents s).
    pose proof (dependents_length s r).
    destruct (lookup_lt_is_Some_2 _ _ Hin) as [x Hx].
    pose proof (sum_list_insert (fun h => TYPE_DEPTH - h) _ _ _ h Hx) as Hs.
    unfold height_room in *; simpl. unfold height in Hlt. rewrite Hx in Hlt. simpl in Hlt.
    set (before := sum_list (map _ (type_heights s))) in *.
    set (after := sum_list (map _ (<[r := h]> _))) in *.
    assert (S after <= before) as Hdrop by lia. clear Hs. nia.
Qed.

Lemma height_room_bound s : wf_core s -> height_room s <= length (type_parents s) * TYPE_DEPTH.
Proof.
  intros Hwf. rewrite <- (wf_heights_length _ Hwf). unfold height_room.
  induction (type_heights s) as [|h l IH]; cbn [map sum_list length id] in *; lia.
Qed.

Lemma refresh_heights_decides pending s :
  wf_core s -> is_Some (refresh_type_heights pending span s).
Proof.
  intros Hwf. apply refresh_decides; [done|]. pose proof (height_room_bound s Hwf).
  unfold refresh_bound. nia.
Qed.
End Refresh.

(** ** Binding a root *)

Lemma add_dependents_spec v ms s :
  exists d, fold_left (fun s m => add_dependent v m s) ms s = with_dependents d s
    /\ length d = length (type_dependents s)
    /\ (forall m x, x ∈ dependents s m -> x ∈ dependents (with_dependents d s) m)
    /\ (forall m, m ∈ ms -> m < length (type_dependents s) -> v ∈ dependents (with_dependents d s) m).
Proof.
  revert s; induction ms as [|m ms IH]; intros s; simpl.
  { exists (type_dependents s). split; [by destruct s|]. split; [done|]. split; [done|].
    intros m Hm. by apply elem_of_nil in Hm. }
  destruct (IH (add_dependent v m s)) as (d & E & Hl & Hk & Hn). exists d.
  assert (forall m', dependents (with_dependents d (add_dependent v m s)) m'
                     = dependents (with_dependents d s) m') as Hd by done.
  assert (length (type_dependents (add_dependent v m s)) = length (type_dependents s)) as Hl'
    by apply length_insert.
  assert (forall m' x, x ∈ dependents s m' -> x ∈ dependents (add_dependent v m s) m') as Hk'.
  { intros m' x Hx. unfold add_dependent, dependents in *; simpl.
    destruct (decide (m' = m)) as [->|]; [|by rewrite list_lookup_insert_ne by done].
    destruct (type_dependents s !! m) as [l|] eqn:El; [|set_solver].
    rewrite list_lookup_insert_eq by (by eapply lookup_lt_Some). simpl in *.
    apply oset_insert_elem. by right. }
  split; [exact E|]. split; [lia|]. split; [intros m' x Hx; by apply Hk, Hk'|].
  intros m' [->|Hm']%elem_of_cons Hlt; [|apply Hn; [done|lia]].
  apply Hk. unfold add_dependent, dependents; simpl.
  rewrite list_lookup_insert_eq by done. simpl. apply oset_insert_elem. by left.
Qed.

Record bindable (s : Inference) (t : InferType) : Prop := {
  bindable_head : is_variable t = false;
  bindable_headed : headed t;
  bindable_scope : in_scope s t;
}.

Lemma wf_core_bind s d v t :
  wf_core s -> is_root s v -> bindable s t -> length d = length (type_dependents s) ->
  (forall m x, x ∈ dependents s m -> x ∈ dependents (with_dependents d s) m) ->
  (forall y, y ∈ type_variables t -> v ∈ dependents (with_dependents d s) (root_variable s y)) ->
  wf_core (with_substitutions (<[v := t]> (substitutions s)) (with_dependents d s)).
Proof.
  intros [H1 H2 H3 H4 H5 H6 H7] Hv [B1 B2 B3] Hl Hk Hn. constructor; simpl; try done.
  - lia.
  - intros w u. rewrite lookup_insert_Some. intros [[<- <-]|[_ Hw]]; [done|by eapply H4].
  - intros w u. rewrite lookup_insert_Some. intros [[<- <-]|[_ Hw]]; [done|by eapply H5].
  - intros w u y. rewrite lookup_insert_Some. intros [[<- <-]|[_ Hw]] Hy.
    + exists v. split; [by apply Hn|]. by apply (root_of_root s).
    + destruct (H7 w u y Hw Hy) as (x & Hx & Hr). exists x. split; [by apply Hk|done].
Qed.

(** What binding or aliasing leaves as it is. *)
Record updates (s s' : Inference) : Prop := {
  updates_length : length (type_parents s') = length (type_parents s);
  updates_effects : effect_definitions s' = effect_definitions s;
  updates_error : type_depth_error s' = type_depth_error s;
  updates_heights : forall v, height s v <= height s' v;
}.

Lemma updates_of_grows s s' : grows s s' -> updates s s'.
Proof. intros (E & Hl & Hh). rewrite E. by split. Qed.

Lemma updates_trans s1 s2 s3 : updates s1 s2 -> updates s2 s3 -> updates s1 s3.
Proof.
  intros [A1 A2 A3 A4] [B1 B2 B3 B4]. split; [congruence..|].
  intros v. specialize (A4 v); specialize (B4 v). lia.
Qed.

Lemma mentioned_roots_elem s t m :
  m ∈ mentioned_roots s t <-> exists y, y ∈ type_variables t /\ m = root_variable s y.
Proof.
  unfold mentioned_roots. rewrite oset_extend_elem, list_elem_of_fmap. set_solver.
Qed.

Section Binding.
Context (span : Span).

Lemma set_binding_unfold v t s :
  wf s -> is_root s v -> bindable s t ->
  exists s2, set_binding v t span s = refresh_type_heights [v] span s2
    /\ wf_core s2 /\ heights_current s2 [v] /\ updates s s2
    /\ type_parents s2 = type_parents s /\ substitutions s2 = <[v := t]> (substitutions s).
Proof.
  intros Hwf Hv Hb. unfold set_binding.
  destruct (add_dependents_spec v (mentioned_roots s t) s) as (d & E & Hl & Hk & Hn).
  rewrite E. eexists. split; [done|].
  assert (forall y, y ∈ type_variables t -> v ∈ dependents (with_dependents d s) (root_variable s y)) as Hn'.
  { intros y Hy. apply Hn; [apply mentioned_roots_elem; eauto|].
    rewrite (wf_dependents_length _ (wf_wf_core _ Hwf)). apply root_lt; [apply Hwf|].
    by apply (bindable_scope _ _ Hb). }
  split; [by apply (wf_core_bind s d v t); [apply Hwf|..]|]. split; [|done].
  intros w u. simpl. rewrite lookup_insert_Some. intros [[<- <-]|[_ Hw]].
  - right. exists v. split; [by left|]. by apply (root_of_root s); [apply Hwf|].
  - left. rewrite (resolved_height_fields _ s) by done. apply (wf_height s w u Hwf Hw).
Qed.

Lemma set_binding_keeps v t s s' :
  wf s -> is_root s v -> bindable s t -> set_binding v t span s = Some (Ok tt, s') ->
  wf s' /\ updates s s' /\ type_parents s' = type_parents s
  /\ substitutions s' = <[v := t]> (substitutions s).
Proof.
  intros Hwf Hv Hb. destruct (set_binding_unfold v t s Hwf Hv Hb) as (s2 & -> & Hc & Hcur & Hu & Hp & Hs).
  intros Hr. destruct (refresh_keeps _ _ _ _ _ Hc Hcur Hr) as [Hg Hwf'].
  split; [done|]. split; [by eapply updates_trans, updates_of_grows|].
  destruct Hg as (E & _ & _). rewrite E. done.
Qed.

Lemma set_binding_decides v t s :
  wf s -> is_root s v -> bindable s t -> is_Some (set_binding v t span s).
Proof.
  intros Hwf Hv Hb. destruct (set_binding_unfold v t s Hwf Hv Hb) as (s2 & -> & Hc & _).
  by apply refresh_heights_decides.
Qed.

(** ** Aliasing a root *)

Lemma alias_unfold a b s :
  exists s2 pending, alias_variable a b span s = refresh_type_heights pending span s2
    /\ type_parents s2 = <[a := b]> (type_parents s) /\ substitutions s2 = substitutions s
    /\ effect_definitions s2 = effect_definitions s /\ type_depth_error s2 = type_depth_error s
    /\ length (type_heights s2) = length (type_heights s)
    /\ length (type_dependents s2) = length (type_dependents s)
    /\ (forall v, v <> b -> height s2 v = height s v)
    /\ (b < length (type_heights s) -> height s2 b = Nat.max (height s a) (height s b))
    /\ (height s b < height s a -> forall w, w ∈ dependents s b -> w ∈ pending)
    /\ (forall w, w ∈ dependents s a -> w ∈ pending)
    /\ (a <> b -> b < length (type_dependents s) ->
        forall w, w ∈ dependents s a \/ w ∈ dependents s b -> w ∈ dependents s2 b)
    /\ (forall v, v <> a -> v <> b -> dependents s2 v = dependents s v).
Proof.
  unfold alias_variable.
  set (s1 := with_parents _ s). change (height s1 a) with (height s a). change (height s1 b) with (height s b).
  assert (forall d1 s0, d1 = type_dependents s0 -> a <> b -> b < length d1 ->
    let s2 := with_dependents (<[a := []]> d1) s0 in
    forall w, w ∈ dependents s0 a \/ w ∈ dependents s0 b ->
      w ∈ dependents (with_dependents (<[b := oset_extend (dependents s2 b) (dependents s0 a)]>
        (type_dependents s2)) s2) b) as Hmove.
  { intros d1 s0 -> Hab Hb s2 w Hw. unfold dependents at 1; simpl.
    rewrite list_lookup_insert_eq by (rewrite length_insert; done). simpl.
    apply oset_extend_elem. unfold s2, dependents at 1; simpl. rewrite list_lookup_insert_ne by done.
    fold (dependents s0 b). tauto. }
  assert (forall s0 v, v <> a -> v <> b ->
    let s2 := with_dependents (<[a := []]> (type_dependents s0)) s0 in
    dependents (with_dependents (<[b := oset_extend (dependents s2 b) (dependents s0 a)]>
        (type_dependents s2)) s2) v = dependents s0 v) as Hkeep.
  { intros s0 v Hva Hvb s2. unfold dependents, s2; simpl. by rewrite !list_lookup_insert_ne by done. }
  destruct (Nat.ltb_spec (height s b) (height s a)) as [Hlt|Hge].
  - eexists _, _. split; [done|]. simpl.
    do 4 (split; [done|]). split; [apply length_insert|]. split; [by rewrite !length_insert|].
    split. { intros v Hv. change (height (with_heights (<[b := height s a]> (type_heights s1)) s1) v = height s v).
             rewrite height_insert, decide_False by naive_solver. done. }
    split. { intros Hb. change (height (with_heights (<[b := height s a]> (type_heights s1)) s1) b
               = Nat.max (height s a) (height s b)).
             rewrite height_insert, decide_True by done. lia. }
    split. { intros _ w Hw. rewrite elem_of_reverse, elem_of_app. by left. }
    split. { intros w Hw. rewrite elem_of_reverse, elem_of_app. by right. }
    split. { intros Hab Hb w Hw. by apply (Hmove _ (with_heights (<[b := height s a]> (type_heights s1)) s1)). }
    intros v Hva Hvb. by apply (Hkeep (with_heights (<[b := height s a]> (type_heights s1)) s1)).
  - eexists _, _. split; [done|]. simpl.
    do 4 (split; [done|]). split; [done|]. split; [by rewrite !length_insert|].
    split; [done|].
    split. { intros _. change (height s b = Nat.max (height s a) (height s b)). lia. }
    split; [lia|].
    split. { intros w Hw. by rewrite elem_of_reverse. }
    split. { intros Hab Hb w Hw. by apply (Hmove _ s1). }
    intros v Hva Hvb. by apply (Hkeep s1).
Qed.

Lemma alias_core a b s :
  wf s -> is_root s a -> is_root s b -> a <> b -> substitutions s !! a = None ->
  exists s2 pending, alias_variable a b span s = refresh_type_heights pending span s2
    /\ wf_core s2 /\ heights_current s2 pending /\ updates s s2
    /\ type_parents s2 = <[a := b]> (type_parents s) /\ substitutions s2 = substitutions s.
Proof.
  intros Hwf Ha Hb Hab Hna.
  destruct (alias_unfold a b s)
    as (s2 & pending & E & Hp & Hs & He & Hde & Hlh & Hld & Hh & Hhb & Hpb & Hpa & Hdb & Hd).
  exists s2, pending. split; [done|]. pose proof (wf_wf_core _ Hwf) as [W1 W2 W3 W4 W5 W6 W7].
  pose proof (lookup_lt_Some _ _ _ Hb) as Hblt.
  assert (length (type_parents s2) = length (type_parents s)) as Hlp by (rewrite Hp; apply length_insert).
  assert (height s2 b = Nat.max (height s a) (height s b)) as Hb2 by (apply Hhb; lia).
  assert (forall v, height s v <= height s2 v) as Hmono.
  { intros v. destruct (decide (v = b)) as [->|]; [lia|]. by rewrite Hh. }
  assert (forall v, root_variable s2 v = if Nat.eqb (root_variable s v) a then b else root_variable s v)
    as Hroot by (intros v; by apply root_alias).
  assert (forall v t w, substitutions s !! v = Some t -> root_variable s w = v -> root_variable s2 w = v)
    as Hkeep.
  { intros v t w Hv Hw. rewrite Hroot, Hw. destruct (Nat.eqb_spec v a); [congruence|done]. }
  split; [|split; [|split; [|done]]].
  - constructor; try lia.
    + rewrite Hp. by apply rooted_alias.
    + intros v t. rewrite Hs. intros Hv. unfold is_root. rewrite Hp, list_lookup_insert_ne by congruence.
      by eapply W4.
    + intros v t. rewrite Hs. intros Hv. destruct (W5 v t Hv) as (? & ? & Hsc). split; [done|].
      split; [done|]. destruct Hsc as [Hsc1 Hsc2]. split; [by rewrite Hlp|by rewrite He].
    + intros v. destruct (decide (v = b)) as [->|]; [|rewrite Hh by done; apply W6].
      rewrite Hb2. pose proof (W6 a). pose proof (W6 b). lia.
    + intros v t y. rewrite Hs. intros Hv Hy. destruct (W7 v t y Hv Hy) as (w & Hw & Hwr).
      exists w. split; [|by eapply Hkeep]. rewrite Hroot.
      destruct (Nat.eqb_spec (root_variable s y) a) as [Ey|Ny].
      * apply Hdb; [done|lia|]. left. by rewrite <- Ey.
      * destruct (decide (root_variable s y = b)) as [Ey|Nb].
        -- rewrite Ey. apply Hdb; [done|lia|]. right. by rewrite <- Ey.
        -- by rewrite Hd.
  - intros v t. rewrite Hs. intros Hv.
    destruct (decide (Exists (fun y => root_variable s y = a
                \/ root_variable s y = b /\ height s b < height s a) (type_variables t))) as [He'|Hne].
    + right. apply Exists_exists in He' as (y & Hy & Hor).
      destruct (W7 v t y Hv Hy) as (w & Hw & Hwr). exists w. split; [|by eapply Hkeep].
      destruct Hor as [Ey|[Ey Hlt]]; rewrite Ey in Hw; eauto.
    + left. etrans; [|apply Hmono]. etrans; [|by apply (wf_height s v t)].
      apply Nat.eq_le_incl, resolved_height_same. intros y Hy.
      assert (~ (root_variable s y = a \/ root_variable s y = b /\ height s b < height s a)) as Hno.
      { intros Hor. apply Hne, Exists_exists. eauto. }
      rewrite Hroot. destruct (Nat.eqb_spec (root_variable s y) a) as [Ey|Ny]; [tauto|].
      destruct (decide (root_variable s y = b)) as [Ey|Nb]; [|by rewrite Hh].
      rewrite Ey, Hb2. assert (~ height s b < height s a) by tauto. lia.
  - by split.
Qed.

Lemma alias_variable_keeps a b s s' :
  wf s -> is_root s a -> is_root s b -> a <> b -> substitutions s !! a = None ->
  alias_variable a b span s = Some (Ok tt, s') ->
  wf s' /\ updates s s' /\ type_parents s' = <[a := b]> (type_parents s)
  /\ substitutions s' = substitutions s.
Proof.
  intros Hwf Ha Hb Hab Hna.
  destruct (alias_core a b s Hwf Ha Hb Hab Hna) as (s2 & pending & -> & Hc & Hcur & Hu & Hp & Hs).
  intros Hr. destruct (refresh_keeps _ _ _ _ _ Hc Hcur Hr) as [Hg Hwf'].
  split; [done|]. split; [by eapply updates_trans, updates_of_grows|].
  destruct Hg as (E & _ & _). rewrite E. done.
Qed.

Lemma alias_variable_decides a b s :
  wf s -> is_root s a -> is_root s b -> a <> b -> substitutions s !! a = None ->
  is_Some (alias_variable a b span s).
Proof.
  intros Hwf Ha Hb Hab Hna.
  destruct (alias_core a b s Hwf Ha Hb Hab Hna) as (s2 & pending & -> & Hc & _).
  by apply refresh_heights_decides.
Qed.

(** An error of either is the depth limit, and is recorded. *)
Lemma set_binding_error v t s e s' :
  set_binding v t span s = Some (Err e, s') -> is_Some (type_depth_error s').
Proof. unfold set_binding, refresh_type_heights. intros ->%refresh_error. eauto. Qed.

Lemma alias_variable_error a b s e s' :
  alias_variable a b span s = Some (Err e, s') -> is_Some (type_depth_error s').
Proof.
  destruct (alias_unfold a b s) as (s2 & pending & -> & _).
  unfold refresh_type_heights. intros ->%refresh_error. eauto.
Qed.
End Binding.

(** ** New variables and detached bindings *)

Lemma fewer_bindings_wf s m :
  wf s -> (forall v t, m !! v = Some t -> substitutions s !! v = Some t) ->
  wf (with_substitutions m s).
Proof.
  intros [[W1 W2 W3 W4 W5 W6 W7] Hc] Hm. split.
  - constructor; simpl; try done.
    + intros v t Hv%Hm. by eapply W4.
    + intros v t Hv%Hm. by eapply W5.
    + intros v t y Hv%Hm. by eapply W7.
  - intros v t Hv%Hm. simpl in *. rewrite (resolved_height_fields _ s) by done. by apply Hc.
Qed.
