(* ===== verification/OccursFacts.v ===== *)
(** * The occurs check

    [occurs] decides whether a variable is reachable from a type through the
    bindings: its walk visits every binding once, and the set it has visited
    when it fails is closed.  In a well-formed state heights decrease along
    bindings, so no variable is reachable from its own binding. *)

From S2P Require Import Prelude BTree Syntax Sorting Types Parser Infer InferWf.

#[local] Open Scope nat_scope.

(** The binding of the root [x] mentions a variable whose root is [y]. *)
Definition child (s : Inference) (x y : nat) : Prop :=
  exists t z, substitutions s !! x = Some t /\ z ∈ type_variables t /\ y = root_variable s z.

Definition reaches (s : Inference) (t : InferType) (v : nat) : Prop :=
  exists y, y ∈ type_variables t /\ rtc (child s) (root_variable s y) v.

(** ** Equations of the walk *)

Section Walk.
Context (s : Inference).

Fixpoint occurs_any (fuel variable : nat) (l : list InferType) (visited : list nat) : bool * list nat :=
  match l with
  | [] => (false, visited)
  | t :: l' =>
      match occurs_inner s fuel variable t visited with
      | (true, visited) => (true, visited)
      | (false, visited) => occurs_any fuel variable l' visited
      end
  end.

Lemma occurs_record fuel v fs o vis :
  occurs_inner s fuel v (IRecord fs o) vis = occurs_any fuel v (map snd fs) vis.
Proof.
  assert (forall l vis, (fix any l visited := match l with
    | [] => (false, visited)
    | f :: l' => match occurs_inner s fuel v (snd f) visited with
                 | (true, visited) => (true, visited)
                 | (false, visited) => any l' visited
                 end end) l vis = occurs_any fuel v (map (@snd string InferType) l) vis) as H.
  { clear vis. intros l; induction l as [|f l IH]; intros vis; [done|]. simpl.
    destruct (occurs_inner s fuel v (snd f) vis) as [[] vis']; [done|]. apply IH. }
  rewrite <- H. by destruct fuel.
Qed.

Lemma occurs_function fuel v ps r e vis :
  occurs_inner s fuel v (IFunction ps r e) vis = occurs_any fuel v (ps ++ [r]) vis.
Proof.
  assert (forall l vis, match (fix any l visited := match l with
    | [] => (false, visited)
    | p :: l' => match occurs_inner s fuel v p visited with
                 | (true, visited) => (true, visited)
                 | (false, visited) => any l' visited
                 end end) l vis
    with (true, vis') => (true, vis') | (false, vis') => occurs_inner s fuel v r vis' end
    = occurs_any fuel v (l ++ [r]) vis) as H.
  { clear vis. intros l; induction l as [|p l IH]; intros vis; simpl.
    - by destruct (occurs_inner s fuel v r vis) as [[] vis'].
    - destruct (occurs_inner s fuel v p vis) as [[] vis']; [done|]. apply IH. }
  rewrite <- H. by destruct fuel.
Qed.

Lemma occurs_result fuel v t u vis :
  occurs_inner s fuel v (IResult t u) vis = occurs_any fuel v [t; u] vis.
Proof.
  assert (occurs_inner s fuel v (IResult t u) vis
          = match occurs_inner s fuel v t vis with
            | (true, vis') => (true, vis') | (false, vis') => occurs_inner s fuel v u vis' end) as ->
    by (by destruct fuel).
  simpl. destruct (occurs_inner s fuel v t vis) as [[] vis']; [done|].
  by destruct (occurs_inner s fuel v u vis') as [[] vis''].
Qed.

Lemma occurs_list fuel v t vis : occurs_inner s fuel v (IList t) vis = occurs_inner s fuel v t vis.
Proof. by destruct fuel. Qed.

Lemma occurs_option fuel v t vis : occurs_inner s fuel v (IOption t) vis = occurs_inner s fuel v t vis.
Proof. by destruct fuel. Qed.

Lemma occurs_variable fuel v x vis :
  occurs_inner s fuel v (IVariable x) vis
  = let other := root_variable s x in
    if Nat.eqb v other then (true, vis)
    else if bool_decide (other ∈ vis) then (false, vis)
    else match substitutions s !! other with
         | None => (false, oset_insert other vis)
         | Some t =>
             match fuel with
             | O => (false, oset_insert other vis)
             | S fuel' => occurs_inner s fuel' v t (oset_insert other vis)
             end
         end.
Proof. by destruct fuel. Qed.

(** ** What the walk decides *)

Definition unvisited (vis : list nat) : nat :=
  length (filter (fun x => x ∉ vis) (seq 0 (length (type_parents s)))).

Lemma unvisited_mono vis vis' : vis ⊆ vis' -> unvisited vis' <= unvisited vis.
Proof.
  intros H. unfold unvisited. apply submseteq_length, NoDup_submseteq.
  { apply NoDup_filter, NoDup_seq. }
  intros x. rewrite !list_elem_of_filter. set_solver.
Qed.

Lemma unvisited_insert x vis :
  x < length (type_parents s) -> x ∉ vis -> unvisited (oset_insert x vis) < unvisited vis.
Proof.
  intros Hx Hn. unfold unvisited.
  assert (x :: filter (fun y => y ∉ oset_insert x vis) (seq 0 (length (type_parents s)))
          ⊆+ filter (fun y => y ∉ vis) (seq 0 (length (type_parents s)))) as H%submseteq_length;
    [|simpl in H; lia].
  apply NoDup_submseteq.
  - apply NoDup_cons. split; [|apply NoDup_filter, NoDup_seq]. rewrite list_elem_of_filter.
    intros [H _]. apply H, oset_insert_elem. by left.
  - intros y. rewrite elem_of_cons, !list_elem_of_filter, oset_insert_elem, elem_of_seq.
    intros [->|[H1 H2]]; split; [done|lia|naive_solver|lia].
Qed.

(** The walk over [roots] left [vis'], not having met [v]. *)
Record misses (v : nat) (roots vis vis' : list nat) : Prop := {
  misses_grows : vis ⊆ vis';
  misses_roots : roots ⊆ vis';
  misses_not : v ∉ vis -> v ∉ vis';
  misses_closed : forall x y, x ∈ vis' -> x ∉ vis -> child s x y -> y ∈ vis';
}.

Lemma misses_app v r1 r2 vis1 vis2 vis3 :
  misses v r1 vis1 vis2 -> misses v r2 vis2 vis3 -> misses v (r1 ++ r2) vis1 vis3.
Proof.
  intros [A1 A2 A3 A4] [B1 B2 B3 B4]. split; [set_solver|set_solver|auto|].
  intros x y Hx Hn Hc. destruct (decide (x ∈ vis2)) as [|Hn2]; [apply B1; eauto|eauto].
Qed.

Lemma misses_sub v r1 r2 vis vis' : r2 ⊆ r1 -> misses v r1 vis vis' -> misses v r2 vis vis'.
Proof. intros H [A1 A2 A3 A4]. split; try done. set_solver. Qed.

Definition type_roots (t : InferType) : list nat := map (root_variable s) (type_variables t).

Definition walk_ok (fuel v : nat) (t : InferType) : Prop :=
  forall vis, unvisited vis <= fuel ->
    match occurs_inner s fuel v t vis with
    | (true, _) => reaches s t v
    | (false, vis') => misses v (type_roots t) vis vis'
    end.

Lemma walk_any fuel v l :
  Forall (walk_ok fuel v) l ->
  forall vis, unvisited vis <= fuel ->
    match occurs_any fuel v l vis with
    | (true, _) => exists t, t ∈ l /\ reaches s t v
    | (false, vis') => misses v (concat (map type_roots l)) vis vis'
    end.
Proof.
  induction 1 as [|t l Ht _ IH]; intros vis Hvis; simpl; [by split; set_solver|].
  specialize (Ht vis Hvis). destruct (occurs_inner s fuel v t vis) as [[] vis1].
  { exists t. set_solver. }
  assert (unvisited vis1 <= fuel) as H1.
  { etrans; [|exact Hvis]. apply unvisited_mono, (misses_grows _ _ _ _ Ht). }
  specialize (IH vis1 H1). destruct (occurs_any fuel v l vis1) as [[] vis2].
  { set_solver. }
  by eapply misses_app.
Qed.

Lemma type_roots_any l x t :
  x ∈ type_roots t -> t ∈ l -> x ∈ concat (map type_roots l).
Proof.
  rewrite !list_elem_of_In, in_concat. intros Hx Ht. exists (type_roots t).
  split; [|done]. by apply in_map.
Qed.

Lemma reaches_sub t u v : type_variables t ⊆ type_variables u -> reaches s t v -> reaches s u v.
Proof. intros H (y & Hy & Hr). exists y. set_solver. Qed.

Context (Hwf : wf_core s).

Lemma walk_decides fuel v t : walk_ok fuel v t.
Proof.
  revert t; induction fuel as [fuel IHf] using lt_wf_ind; intros t.
  induction t as [| | | | | | | | | | | |t IH|fs o IH|t IH|t u IHt IHu|ps r e IHp IHr|x]
    using infer_type_ind'; intros vis Hvis;
    try (assert (forall u, occurs_inner s fuel v u vis = occurs_inner s fuel v u vis) by done;
         by destruct fuel; simpl; split; set_solver).
  - rewrite occurs_list. by apply IH.
  - rewrite occurs_record. pose proof (walk_any fuel v (map snd fs)) as Hany.
    rewrite Forall_map in Hany. specialize (Hany IH vis Hvis).
    destruct (occurs_any fuel v (map snd fs) vis) as [[] vis'].
    + destruct Hany as (t & Ht & Hr). apply list_elem_of_fmap in Ht as (f & -> & Hf).
      eapply reaches_sub; [|exact Hr]. intros y Hy. apply elem_of_record_vars. eauto.
    + eapply misses_sub; [|exact Hany]. intros y Hy. apply list_elem_of_fmap in Hy as (z & -> & Hz).
      apply elem_of_record_vars in Hz as (f & Hf & Hz). eapply (type_roots_any _ _ (snd f)).
      { by apply list_elem_of_fmap_2. } by apply list_elem_of_fmap_2.
  - rewrite occurs_option. by apply IH.
  - rewrite occurs_result. pose proof (walk_any fuel v [t; u]) as Hany.
    specialize (Hany ltac:(by repeat constructor) vis Hvis).
    destruct (occurs_any fuel v [t; u] vis) as [[] vis'].
    + destruct Hany as (t' & Ht & Hr). eapply reaches_sub; [|exact Hr]. simpl. set_solver.
    + eapply misses_sub; [|exact Hany]. intros y Hy. apply list_elem_of_fmap in Hy as (z & -> & Hz).
      simpl. rewrite app_nil_r. apply elem_of_app in Hz as [Hz|Hz]; apply elem_of_app;
        [left|right]; by apply list_elem_of_fmap_2.
  - rewrite occurs_function. pose proof (walk_any fuel v (ps ++ [r])) as Hany.
    specialize (Hany ltac:(apply Forall_app; split; [done|by repeat constructor]) vis Hvis).
    destruct (occurs_any fuel v (ps ++ [r]) vis) as [[] vis'].
    + destruct Hany as (t' & Ht & Hr). eapply reaches_sub; [|exact Hr].
      intros y Hy. apply elem_of_function_vars.
      apply elem_of_app in Ht as [Ht|Ht%list_elem_of_singleton]; [eauto|subst; eauto].
    + eapply misses_sub; [|exact Hany]. intros y Hy. apply list_elem_of_fmap in Hy as (z & -> & Hz).
      apply elem_of_function_vars in Hz as [(p & Hp & Hz)|Hz].
      * eapply (type_roots_any _ _ p); [by apply list_elem_of_fmap_2|set_solver].
      * eapply (type_roots_any _ _ r); [by apply list_elem_of_fmap_2|set_solver].
  - rewrite occurs_variable. simpl. set (other := root_variable s x) in *.
    destruct (Nat.eqb_spec v other) as [->|Hne].
    { exists x. split; [by apply list_elem_of_singleton|]. apply rtc_refl. }
    case_bool_decide as Hin.
    { split; [done|set_solver|done|]. intros; done. }
    destruct (substitutions s !! other) as [t|] eqn:Ht.
    + pose proof (key_lt _ _ _ Hwf Ht) as Hlt. pose proof (unvisited_insert _ _ Hlt Hin) as Hu.
      destruct fuel as [|fuel]; [lia|].
      specialize (IHf fuel (Nat.lt_succ_diag_r fuel) t (oset_insert other vis)).
      specialize (IHf ltac:(lia)).
      destruct (occurs_inner s fuel v t (oset_insert other vis)) as [[] vis'].
      * destruct IHf as (y & Hy & Hr). exists x. split; [by apply list_elem_of_singleton|].
        eapply rtc_l; [|exact Hr]. exists t, y. done.
      * destruct IHf as [A1 A2 A3 A4]. split.
        -- intros y Hy. apply A1, oset_insert_elem. by right.
        -- intros y Hy. apply list_elem_of_singleton in Hy as ->. apply A1, oset_insert_elem. by left.
        -- intros Hv. apply A3. rewrite oset_insert_elem. naive_solver.
        -- intros y z Hy Hn Hc. destruct (decide (y = other)) as [->|Hyo].
           ++ destruct Hc as (t' & w & Ht' & Hw & ->). simplify_eq. apply A2. by apply list_elem_of_fmap_2.
           ++ eapply A4; [exact Hy| |exact Hc]. rewrite oset_insert_elem. naive_solver.
    + split.
      * intros y Hy. apply oset_insert_elem. by right.
      * intros y Hy. apply list_elem_of_singleton in Hy as ->. apply oset_insert_elem. by left.
      * rewrite oset_insert_elem. naive_solver.
      * intros y z [->|Hy]%oset_insert_elem Hn Hc; [|done].
        destruct Hc as (t' & w & Ht' & _). congruence.
Qed.

(** [occurs] is reachability. *)
Lemma occurs_reaches v t : occurs s v t = true <-> reaches s t (root_variable s v).
Proof.
  pose proof (walk_decides (S (length (type_parents s))) (root_variable s v) t []) as H.
  assert (unvisited [] <= S (length (type_parents s))) as Hu.
  { unfold unvisited. etrans; [apply length_filter|]. rewrite length_seq. lia. }
  specialize (H Hu). unfold occurs.
  destruct (occurs_inner s (S (length (type_parents s))) (root_variable s v) t []) as [[] vis']; simpl.
  - done.
  - split; [done|]. intros (y & Hy & Hr). exfalso. destruct H as [A1 A2 A3 A4].
    assert (root_variable s y ∈ vis') as Hin by (apply A2; by apply list_elem_of_fmap_2).
    assert (root_variable s v ∈ vis') as Hv.
    { clear Hy. induction Hr as [|a b c Hab Hbc IH]; [done|].
      apply IH; [done|]. eapply A4; [exact Hin|set_solver|exact Hab]. }
    apply A3 in Hv; set_solver.
Qed.

Lemma occurs_false v t : occurs s v t = false <-> ~ reaches s t (root_variable s v).
Proof. rewrite <- occurs_reaches. by destruct (occurs s v t). Qed.
End Walk.

(** ** Acyclicity *)

Section Acyclic.
Context (s : Inference) (Hwf : wf s).

Lemma child_height x y : child s x y -> height s y < height s x.
Proof. intros (t & z & Ht & Hz & ->). by eapply wf_height_lt. Qed.

Lemma reach_height x y : rtc (child s) x y -> height s y <= height s x.
Proof. induction 1 as [|x y z H%child_height _ IH]; lia. Qed.

Lemma not_in_own_binding v t : substitutions s !! v = Some t -> ~ reaches s t v.
Proof.
  intros Ht (y & Hy & Hr%reach_height). pose proof (wf_height_lt s v t y Hwf Ht Hy). lia.
Qed.
End Acyclic.
