(* ===== verification/TypeTrees.v ===== *)
(** * What inferred types stand for

    A ground type is a finite tree; a nominal type stands for the tree of its
    record contract, as the unifier lets it.  A valuation gives every type
    variable a tree and every effect variable its effects and requirements.
    An open record stands for every record that has its fields, any other
    type for one tree.  A valuation solves a state when it respects aliases,
    bindings and effect definitions.  Every well-formed state has a
    solution. *)

From S2P Require Import Prelude BTree Syntax Sorting Types Parser Infer InferWf OccursFacts.

#[local] Open Scope nat_scope.

Inductive Leaf : Type := LeafInt | LeafBool | LeafString | LeafUnit | LeafTransaction | LeafSecret.

Definition effect_value : Type := gset Effect * gset CapabilityRequirement.

Inductive Tree : Type :=
| TLeaf (leaf : Leaf)
| TList (element : Tree)
| TOption (element : Tree)
| TResult (value error : Tree)
| TRecord (fields : list (string * Tree))
| TFunction (parameters : list Tree) (return_type : Tree) (effect : effect_value).

Fixpoint tree_size (d : Tree) : nat :=
  match d with
  | TLeaf _ => 1
  | TList d | TOption d => S (tree_size d)
  | TResult d e => S (tree_size d + tree_size e)
  | TRecord fs => S (sum_list (map (fun f => tree_size (snd f)) fs))
  | TFunction ps r _ => S (sum_list (map tree_size ps) + tree_size r)
  end.

Record Valuation : Type := mkValuation {
  type_value : nat -> Tree;
  effects_value : nat -> effect_value;
}.

Definition str_tree : Tree := TLeaf LeafString.
Definition int_tree : Tree := TLeaf LeafInt.
Definition header_tree : Tree := TRecord [("name", str_tree); ("value", str_tree)].

Fixpoint tree_of (rho : Valuation) (ty : InferType) : Tree :=
  match ty with
  | IInt => int_tree
  | IBool => TLeaf LeafBool
  | IString => str_tree
  | IUnit => TLeaf LeafUnit
  | IHttpHeader | ILogField => header_tree
  | IHttpRequest =>
      TRecord [("body", str_tree); ("headers", TList header_tree); ("method", str_tree);
               ("path", str_tree); ("query", str_tree)]
  | IHttpResponse =>
      TRecord [("body", str_tree); ("headers", TList header_tree); ("status", int_tree)]
  | IQueueJob =>
      TRecord [("attempt", int_tree); ("body", str_tree); ("id", str_tree);
               ("maxAttempts", int_tree); ("queue", str_tree)]
  | IScheduleEvent =>
      TRecord [("attempt", int_tree); ("firedAtMillis", int_tree); ("id", str_tree);
               ("maxAttempts", int_tree); ("schedule", str_tree); ("scheduledAtMillis", int_tree)]
  | IDatabaseTransaction => TLeaf LeafTransaction
  | ISecret => TLeaf LeafSecret
  | IList t => TList (tree_of rho t)
  | IRecord fs _ => TRecord (map (fun f => (fst f, tree_of rho (snd f))) fs)
  | IOption t => TOption (tree_of rho t)
  | IResult t u => TResult (tree_of rho t) (tree_of rho u)
  | IFunction ps r e => TFunction (map (tree_of rho) ps) (tree_of rho r) (effects_value rho e)
  | IVariable v => type_value rho v
  end.

(** The trees a type stands for. *)
Definition instance (rho : Valuation) (ty : InferType) (d : Tree) : Prop :=
  match ty with
  | IRecord fs true =>
      exists gs, d = TRecord gs /\ bt_sorted gs
        /\ forall n t, bt_get n fs = Some t -> bt_get n gs = Some (tree_of rho t)
  | _ => d = tree_of rho ty
  end.

Definition effects_ok (s : Inference) (rho : Valuation) : Prop :=
  forall e def, effect_definitions s !! e = Some def ->
    (forall x, x ∈ direct def -> x ∈ (effects_value rho e).1)
    /\ (forall x, x ∈ direct_requirements def -> x ∈ (effects_value rho e).2)
    /\ (forall d, d ∈ dependencies def ->
          (effects_value rho d).1 ⊆ (effects_value rho e).1
          /\ (effects_value rho d).2 ⊆ (effects_value rho e).2).

(** The constraints of a state on the variables with roots in [P]. *)
Definition binding_ok (s : Inference) (rho : Valuation) (x : nat) : Prop :=
  forall t, substitutions s !! x = Some t -> instance rho t (type_value rho x).

Definition solves_in (P : nat -> bool) (s : Inference) (rho : Valuation) : Prop :=
  (forall z, P (root_variable s z) = true -> type_value rho z = type_value rho (root_variable s z))
  /\ (forall x, P x = true -> binding_ok s rho x)
  /\ effects_ok s rho.

Definition everywhere : nat -> bool := fun _ => true.

Definition solves (s : Inference) (rho : Valuation) : Prop := solves_in everywhere s rho.

(** ** Records *)

Section RecordMaps.
Context {V W : Type}.

Lemma bt_map_sorted (f : V -> W) (m : list (string * V)) :
  bt_sorted m -> bt_sorted (map (fun kv => (fst kv, f (snd kv))) m).
Proof.
  induction m as [|[k v] m IH]; simpl; [done|]. intros [Hlt Hs]. split; [|by apply IH].
  apply Forall_map. eapply Forall_impl; [exact Hlt|]. by intros [].
Qed.

Lemma bt_get_map (f : V -> W) (m : list (string * V)) k :
  bt_get k (map (fun kv => (fst kv, f (snd kv))) m) = f <$> bt_get k m.
Proof. induction m as [|[k' v] m IH]; simpl; [done|]. by destruct (cmp k k'). Qed.

Lemma bt_ext (m1 m2 : list (string * V)) :
  bt_sorted m1 -> bt_sorted m2 -> (forall k, bt_get k m1 = bt_get k m2) -> m1 = m2.
Proof.
  intros H1 H2 Hg. apply bt_sorted_perm; [done|done|].
  apply NoDup_Permutation.
  - apply (NoDup_fmap_1 fst). by apply bt_sorted_NoDup.
  - apply (NoDup_fmap_1 fst). by apply bt_sorted_NoDup.
  - intros [k v]. rewrite !list_elem_of_In, <- !bt_get_In by done. by rewrite Hg.
Qed.
End RecordMaps.

Lemma bt_get_elem {V} (n : string) (t : V) fs : bt_get n fs = Some t -> (n, t) ∈ fs.
Proof.
  induction fs as [|[k v] fs IH]; simpl; [done|]. destruct (cmp n k) eqn:E; [|done|].
  - apply cmp_eq_iff in E as ->. intros [= ->]. by left.
  - intros H%IH. by right.
Qed.

Lemma bt_elem_get {V} (n : string) (t : V) fs : bt_sorted fs -> (n, t) ∈ fs -> bt_get n fs = Some t.
Proof. intros Hs Hin. apply bt_get_In; [done|]. by apply list_elem_of_In. Qed.

(** Both kinds of record at once. *)
Lemma instance_record rho fs o d :
  bt_sorted fs ->
  instance rho (IRecord fs o) d
  <-> exists gs, d = TRecord gs /\ bt_sorted gs
        /\ (forall n t, bt_get n fs = Some t -> bt_get n gs = Some (tree_of rho t))
        /\ (o = false -> forall n, bt_get n fs = None -> bt_get n gs = None).
Proof.
  intros Hs. destruct o; [simpl; naive_solver|]. cbn [instance tree_of]. split.
  - intros ->. eexists. split; [done|]. split; [by apply bt_map_sorted|].
    setoid_rewrite (bt_get_map (tree_of rho) fs). split; [by intros n t ->|by intros _ n ->].
  - intros (gs & -> & Hgs & Hsome & Hnone). f_equal. apply bt_ext; [done|by apply bt_map_sorted|].
    intros n. rewrite bt_get_map. destruct (bt_get n fs) as [t|] eqn:E; simpl; eauto.
Qed.

Lemma instance_solid rho t d : solid t -> instance rho t d <-> d = tree_of rho t.
Proof. destruct t as [| | | | | | | | | | | | |fs o| | | |]; try done. by intros [-> _]. Qed.

Lemma instance_cases rho t d :
  instance rho t d -> (exists fs, t = IRecord fs true) \/ d = tree_of rho t.
Proof. destruct t as [| | | | | | | | | | | | |fs []| | | |]; simpl; eauto. Qed.

Lemma instance_tree_of rho t : headed t -> instance rho t (tree_of rho t).
Proof.
  intros Ht. destruct t as [| | | | | | | | | | | | |fs o| | | |]; try done. destruct Ht as [Hs _].
  apply instance_record; [done|]. eexists. split; [done|]. split; [by apply bt_map_sorted|].
  setoid_rewrite (bt_get_map (tree_of rho) fs). split; [by intros n t ->|by intros _ n ->].
Qed.

Lemma tree_of_contract rho t : is_nominal t = true -> tree_of rho (contract_record t) = tree_of rho t.
Proof. by destruct t. Qed.

(** ** Sizes *)

Lemma sum_list_elem {A} (f : A -> nat) l a : a ∈ l -> f a <= sum_list (map f l).
Proof.
  induction 1 as [a l|a b l _ IH]; cbn [map sum_list sum_list_with id] in *; unfold id in *; lia.
Qed.

Lemma tree_size_variable rho t y :
  y ∈ type_variables t ->
  tree_size (type_value rho y) + (if is_variable t then 0 else 1) <= tree_size (tree_of rho t).
Proof.
  induction t as [| | | | | | | | | | | |t IH|fs o IH|t IH|t u IHt IHu|ps r e IHp IHr|v]
    using infer_type_ind'; intros Hy; try (by apply elem_of_nil in Hy).
  - specialize (IH Hy). simpl. lia.
  - apply elem_of_record_vars in Hy as (f & Hf & Hy). rewrite Forall_forall in IH.
    specialize (IH f Hf Hy). simpl. rewrite map_map. simpl.
    pose proof (sum_list_elem (fun f => tree_size (tree_of rho (snd f))) fs f Hf). simpl in *. lia.
  - specialize (IH Hy). simpl. lia.
  - apply elem_of_app in Hy as [Hy|Hy]; [specialize (IHt Hy)|specialize (IHu Hy)]; simpl; lia.
  - apply elem_of_function_vars in Hy as [(p & Hp & Hy)|Hy].
    + rewrite Forall_forall in IHp. specialize (IHp p Hp Hy). simpl. rewrite map_map.
      pose proof (sum_list_elem (fun p => tree_size (tree_of rho p)) ps p Hp). simpl in *. lia.
    + specialize (IHr Hy). simpl. lia.
  - apply list_elem_of_singleton in Hy as ->. simpl. lia.
Qed.

Lemma tree_size_field (gs : list (string * Tree)) n d : bt_get n gs = Some d -> tree_size d < tree_size (TRecord gs).
Proof.
  intros H. assert (exists f, f ∈ gs /\ snd f = d) as (f & Hf & <-).
  { induction gs as [|[k v] gs IH]; simpl in H; [done|]. destruct (cmp n k); [|done|].
    - simplify_eq. exists (k, d). split; [by left|done].
    - destruct (IH H) as (f & Hf & E). exists f. split; [by right|done]. }
  simpl. pose proof (sum_list_elem (fun f => tree_size (snd f)) gs f Hf). simpl in *. lia.
Qed.

Lemma instance_size rho t d y :
  headed t -> is_variable t = false -> y ∈ type_variables t -> instance rho t d ->
  tree_size (type_value rho y) < tree_size d.
Proof.
  intros Ht Hn Hy Hi.
  destruct (instance_cases _ _ _ Hi) as [(fs & ->)| ->].
  - destruct Hi as (gs & -> & _ & Hg). apply elem_of_record_vars in Hy as ([n u] & Hf & Hy).
    destruct Ht as [Hs _]. apply (bt_elem_get n u) in Hf; [|done]. apply Hg, tree_size_field in Hf.
    pose proof (tree_size_variable rho u y Hy). lia.
  - pose proof (tree_size_variable rho t y Hy) as H. rewrite Hn in H. lia.
Qed.

Lemma reach_size s rho x v :
  wf_core s -> solves s rho -> rtc (child s) x v ->
  tree_size (type_value rho v) <= tree_size (type_value rho x).
Proof.
  intros Hwf (Hr & Hb & _). induction 1 as [|x y v (t & z & Ht & Hz & ->) _ IH]; [done|].
  destruct (wf_binding _ Hwf _ _ Ht) as (Hn & Hh & _).
  pose proof (instance_size rho t _ z Hh Hn Hz (Hb x eq_refl t Ht)) as Hlt.
  rewrite <- (Hr z eq_refl) in IH. lia.
Qed.

Lemma reaches_size s rho t v :
  wf_core s -> solves s rho -> reaches s t v ->
  tree_size (type_value rho v) + (if is_variable t then 0 else 1) <= tree_size (tree_of rho t).
Proof.
  intros Hwf Hs (y & Hy & Hr). pose proof (reach_size _ _ _ _ Hwf Hs Hr).
  destruct Hs as (He & _). rewrite <- (He y eq_refl) in H.
  pose proof (tree_size_variable rho t y Hy). lia.
Qed.

(** ** Well-formed states have solutions *)

Lemma tree_of_ext rho rho' t :
  (forall y, y ∈ type_variables t -> type_value rho y = type_value rho' y) ->
  (forall e, effects_value rho e = effects_value rho' e) ->
  tree_of rho t = tree_of rho' t.
Proof.
  intros Hy He. revert Hy.
  induction t as [| | | | | | | | | | | |t IH|fs o IH|t IH|t u IHt IHu|ps r e IHp IHr|v]
    using infer_type_ind'; intros Hy; try done; simpl.
  - f_equal. by apply IH.
  - f_equal. apply map_ext_in. intros f Hf. f_equal. rewrite Forall_forall in IH. apply IH.
    { by apply list_elem_of_In. }
    intros y Hin. apply Hy, elem_of_record_vars. exists f. by rewrite list_elem_of_In.
  - f_equal. by apply IH.
  - f_equal; [apply IHt|apply IHu]; intros y Hin; apply Hy; simpl; set_solver.
  - f_equal; [|apply IHr|apply He].
    + apply map_ext_in. intros p Hp. rewrite Forall_forall in IHp. apply IHp.
      { by apply list_elem_of_In. }
      intros y Hin. apply Hy, elem_of_function_vars. left. exists p. by rewrite list_elem_of_In.
    + intros y Hin. apply Hy, elem_of_function_vars. by right.
  - apply Hy. by apply list_elem_of_singleton.
Qed.

(** Every effect variable gets all effects and requirements of the state. *)
Definition all_effects (s : Inference) : effect_value :=
  (list_to_set (concat (map direct (effect_definitions s))),
   list_to_set (concat (map direct_requirements (effect_definitions s)))).

(** Unbound variables stand for integers, and effects are given. *)
Fixpoint expand (s : Inference) (effects : nat -> effect_value) (fuel : nat) (z : nat) : Tree :=
  match fuel with
  | O => int_tree
  | S fuel' =>
      match substitutions s !! root_variable s z with
      | None => int_tree
      | Some t => tree_of (mkValuation (expand s effects fuel') effects) t
      end
  end.

Definition solution_with (s : Inference) (effects : nat -> effect_value) : Valuation :=
  mkValuation (expand s effects (S TYPE_DEPTH)) effects.

Definition solution (s : Inference) : Valuation := solution_with s (fun _ => all_effects s).

#[local] Opaque TYPE_DEPTH.

Section Solution.
Context (s : Inference) (Hwf : wf s).

Section Effects.
Context (effects : nat -> effect_value).
Abbreviation expand := (expand s effects).

Lemma expand_stable f f' z :
  height s (root_variable s z) < f -> height s (root_variable s z) < f' -> expand f z = expand f' z.
Proof.
  revert f' z; induction f as [|f IH]; intros f' z Hf Hf'; [lia|]. destruct f' as [|f']; [lia|]. simpl.
  destruct (substitutions s !! root_variable s z) as [t|] eqn:Ht; [|done].
  apply tree_of_ext; [|done]. intros y Hy. simpl.
  pose proof (wf_height_lt s _ t y Hwf Ht Hy). apply IH; lia.
Qed.

Lemma expand_unfold z :
  type_value (solution_with s effects) z
  = match substitutions s !! root_variable s z with
    | None => int_tree
    | Some t => tree_of (solution_with s effects) t
    end.
Proof.
  cbn. destruct (substitutions s !! root_variable s z) as [t|] eqn:Ht; [|done].
  apply tree_of_ext; [intros y Hy|intros e]; cbn [type_value effects_value solution_with]; [|reflexivity].
  pose proof (wf_height_lt s _ t y Hwf Ht Hy). pose proof (wf_bounded _ (wf_wf_core _ Hwf) (root_variable s z)).
  apply expand_stable; lia.
Qed.

Lemma solution_with_solves :
  effects_ok s (solution_with s effects) -> solves s (solution_with s effects).
Proof.
  intros He. pose proof (wf_wf_core _ Hwf) as Hc. split; [|split; [|done]].
  - intros z _. cbn. by rewrite root_idem by apply Hc.
  - intros x _ t Ht. pose proof (wf_key _ Hc _ _ Ht) as Hx. destruct (wf_binding _ Hc _ _ Ht) as (_ & Hh & _).
    rewrite expand_unfold, (root_of_root s) by (done || apply Hc). rewrite Ht. by apply instance_tree_of.
Qed.
End Effects.

Lemma solution_solves : solves s (solution s).
Proof.
  apply solution_with_solves. intros e def He. apply list_elem_of_lookup_2 in He. simpl. split; [|split; [|done]].
  - intros x Hx. apply elem_of_list_to_set. rewrite list_elem_of_In, in_concat.
    exists (direct def). split; [apply in_map|]; by apply list_elem_of_In.
  - intros x Hx. apply elem_of_list_to_set. rewrite list_elem_of_In, in_concat.
    exists (direct_requirements def). split; [apply in_map|]; by apply list_elem_of_In.
Qed.
End Solution.
