(* ===== verification/UnifyParts.v ===== *)
(** * Local changes of an inference state

    A step of unification works within a closed set of variables: it keeps
    the roots and bindings outside, and what it means can be stated for the
    constraints of that set alone ([solves_in]).  A local statement gives the
    statement for any larger set. *)

From S2P Require Import Prelude BTree Syntax Sorting Types Parser Infer InferWf OccursFacts TypeTrees.

#[local] Open Scope nat_scope.

Implicit Types (P Q : nat -> bool) (s : Inference) (rho : Valuation).

Definition closed P s : Prop := forall x y, P x = true -> child s x y -> P y = true.

Definition inside P s (t : InferType) : Prop :=
  forall y, y ∈ type_variables t -> P (root_variable s y) = true.

(** What an effect performs itself, without its dependencies. *)
Definition own_effects (e : InferEffects) : list Effect * list CapabilityRequirement :=
  (direct e, direct_requirements e).

(** The lengths and the cached heights only grow, and unification changes no
    more of the effects than what they depend on. *)
Record extends (s s' : Inference) : Prop := {
  extends_length : length (type_parents s') = length (type_parents s);
  extends_own : map own_effects (effect_definitions s') = map own_effects (effect_definitions s);
  extends_error : type_depth_error s' = type_depth_error s;
  extends_heights : forall v, height s v <= height s' v;
}.

Lemma extends_effects s s' :
  extends s s' -> length (effect_definitions s') = length (effect_definitions s).
Proof. intros [_ H _ _]. by rewrite <- (length_map own_effects), H, length_map. Qed.

Lemma extends_refl s : extends s s.
Proof. by split. Qed.

Lemma extends_trans s1 s2 s3 : extends s1 s2 -> extends s2 s3 -> extends s1 s3.
Proof.
  intros [A1 A2 A3 A4] [B1 B2 B3 B4]. split; [congruence..|].
  intros v. specialize (A4 v); specialize (B4 v). lia.
Qed.

Lemma extends_updates s s' : updates s s' -> extends s s'.
Proof. intros [A1 A2 A3 A4]. split; try done. by rewrite A2. Qed.

Lemma extends_scope s s' t : extends s s' -> in_scope s t -> in_scope s' t.
Proof.
  intros He [H1 H2]. pose proof (extends_effects _ _ He) as A2. destruct He as [A1 _ _ _].
  split; [by rewrite A1|by rewrite A2].
Qed.

Record frame P s s' : Prop := {
  frame_out : forall z, P (root_variable s z) = false -> root_variable s' z = root_variable s z;
  frame_in : forall z, P (root_variable s z) = true -> P (root_variable s' z) = true;
  frame_binding : forall x, root_variable s x = x -> P x = false ->
                    substitutions s' !! x = substitutions s !! x;
}.

Lemma frame_refl P s : frame P s s.
Proof. by split. Qed.

Lemma frame_root_out P s s' x :
  frame P s s' -> root_variable s x = x -> P x = false -> root_variable s' x = x.
Proof. intros Hf Hx HP. rewrite (frame_out _ _ _ Hf) by (by rewrite Hx). done. Qed.

Lemma frame_trans P s1 s2 s3 : frame P s1 s2 -> frame P s2 s3 -> frame P s1 s3.
Proof.
  intros F1 F2. split.
  - intros z Hz. pose proof (frame_out _ _ _ F1 z Hz) as E. rewrite <- E.
    apply (frame_out _ _ _ F2). by rewrite E.
  - intros z Hz. by apply (frame_in _ _ _ F2), (frame_in _ _ _ F1).
  - intros x Hx HP. rewrite (frame_binding _ _ _ F2 x); [by apply (frame_binding _ _ _ F1)| |done].
    by eapply frame_root_out.
Qed.

Definition subset Q P : Prop := forall x, Q x = true -> P x = true.

Lemma subset_false Q P x : subset Q P -> P x = false -> Q x = false.
Proof. intros H HP. destruct (Q x) eqn:E; [|done]. apply H in E. congruence. Qed.

Lemma frame_weaken Q P s s' : subset Q P -> frame Q s s' -> frame P s s'.
Proof.
  intros HQP F. split.
  - intros z Hz. apply (frame_out _ _ _ F). by eapply subset_false.
  - intros z Hz. destruct (Q (root_variable s z)) eqn:E.
    + by apply HQP, (frame_in _ _ _ F).
    + by rewrite (frame_out _ _ _ F z E).
  - intros x Hx HP. apply (frame_binding _ _ _ F); [done|]. by eapply subset_false.
Qed.

Lemma frame_inside P s s' t : frame P s s' -> inside P s t -> inside P s' t.
Proof. intros F H y Hy. by apply (frame_in _ _ _ F), H. Qed.

(** A root of the new state outside the set was the root of its variable. *)
Lemma frame_root_back Q s s' x :
  frame Q s s' -> root_variable s' x = x -> Q x = false -> root_variable s x = x.
Proof.
  intros F Hx HQ. destruct (Q (root_variable s x)) eqn:E.
  - apply (frame_in _ _ _ F) in E. rewrite Hx in E. congruence.
  - by rewrite <- (frame_out _ _ _ F x E).
Qed.

Lemma key_root s x t : wf_core s -> substitutions s !! x = Some t -> root_variable s x = x.
Proof. intros Hwf Hx. apply root_of_root; [apply Hwf|]. by eapply wf_key. Qed.

Lemma closed_weaken Q P s s' :
  wf_core s' -> subset Q P -> frame Q s s' -> closed P s -> closed Q s' -> closed P s'.
Proof.
  intros Hwf HQP F HP HQ x y Hx Hc. destruct (Q x) eqn:E; [by eapply HQP, HQ|].
  destruct Hc as (t & z & Ht & Hz & ->). pose proof (key_root _ _ _ Hwf Ht) as Hr.
  pose proof (frame_root_back _ _ _ _ F Hr E) as Hrs.
  rewrite (frame_binding _ _ _ F x Hrs E) in Ht.
  apply (frame_in _ _ _ (frame_weaken _ _ _ _ HQP F)). eapply HP; [exact Hx|]. by exists t, z.
Qed.

(** ** Exactness *)

(** The trees [ty] and the state [s'] allow are those that [left], [right]
    and [s] allow together. *)
Definition exact_in P s (left right ty : InferType) s' : Prop :=
  forall rho d, solves_in P s' rho /\ instance rho ty d
                <-> solves_in P s rho /\ instance rho left d /\ instance rho right d.

(** The constraints of [P] outside [Q], which a step within [Q] keeps. *)
Definition solves_rest Q P s rho : Prop :=
  (forall z, P (root_variable s z) = true -> Q (root_variable s z) = false ->
     type_value rho z = type_value rho (root_variable s z))
  /\ (forall x, root_variable s x = x -> P x = true -> Q x = false -> binding_ok s rho x).

Lemma solves_split Q P s s' rho :
  wf_core s -> wf_core s' -> subset Q P -> frame Q s s' ->
  solves_in P s' rho <-> solves_in Q s' rho /\ solves_rest Q P s rho.
Proof.
  intros Hwf Hwf' HQP F. pose proof (frame_weaken _ _ _ _ HQP F) as FP. split.
  - intros (H1 & H2 & H3). split; [split; [|split; [|done]]|split].
    + intros z Hz. by apply H1, HQP.
    + intros x Hx. by apply H2, HQP.
    + intros z HzP HzQ. rewrite <- (frame_out _ _ _ F z HzQ). apply H1. by apply (frame_in _ _ _ FP).
    + intros x Hx HP HQ t Ht. apply (H2 x HP). by rewrite (frame_binding _ _ _ F x Hx HQ).
  - intros ((H1 & H2 & H3) & (H4 & H5)). split; [|split; [|done]].
    + intros z Hz. destruct (Q (root_variable s z)) eqn:E.
      * by apply H1, (frame_in _ _ _ F).
      * rewrite (frame_out _ _ _ F z E) in *. by apply H4.
    + intros x Hx t Ht. destruct (Q x) eqn:E; [by apply H2|].
      pose proof (key_root _ _ _ Hwf' Ht) as Hr. pose proof (frame_root_back _ _ _ _ F Hr E) as Hrs.
      rewrite (frame_binding _ _ _ F x Hrs E) in Ht. by apply (H5 x Hrs Hx E).
Qed.

Lemma exact_weaken Q P s s' l r t :
  wf_core s -> wf_core s' -> subset Q P -> frame Q s s' ->
  exact_in Q s l r t s' -> exact_in P s l r t s'.
Proof.
  intros Hwf Hwf' HQP F He rho d.
  rewrite (solves_split Q P s s') by done. rewrite (solves_split Q P s s) by (done || apply frame_refl).
  specialize (He rho d). tauto.
Qed.

(** ** The constraints at one root *)

Definition without (v : nat) P : nat -> bool := fun x => negb (Nat.eqb x v) && P x.

Lemma without_spec v P x : without v P x = true <-> x <> v /\ P x = true.
Proof. unfold without. rewrite andb_true_iff, negb_true_iff, Nat.eqb_neq. done. Qed.

Lemma without_same v P : without v P v = false.
Proof. unfold without. by rewrite Nat.eqb_refl. Qed.

Lemma solves_at v P s rho :
  P v = true ->
  solves_in P s rho
  <-> solves_in (without v P) s rho
      /\ (forall z, root_variable s z = v -> type_value rho z = type_value rho v)
      /\ binding_ok s rho v.
Proof.
  intros Hv. split.
  - intros (H1 & H2 & H3). split; [split; [|split; [|done]]|split].
    + intros z [_ Hz]%without_spec. by apply H1.
    + intros x [_ Hx]%without_spec. by apply H2.
    + intros z <-. by apply H1.
    + by apply H2.
  - intros ((H1 & H2 & H3) & H4 & H5). split; [|split; [|done]].
    + intros z Hz. destruct (decide (root_variable s z = v)) as [E|]; [rewrite E; by apply H4|].
      apply H1, without_spec. done.
    + intros x Hx. destruct (decide (x = v)) as [->|]; [done|]. apply H2, without_spec. done.
Qed.

(** Binding [v] changes the constraint at [v] only. *)
Lemma solves_bind v t P s s' rho :
  P v = true -> type_parents s' = type_parents s -> effect_definitions s' = effect_definitions s ->
  substitutions s' = <[v := t]> (substitutions s) ->
  solves_in P s' rho
  <-> solves_in (without v P) s rho
      /\ (forall z, root_variable s z = v -> type_value rho z = type_value rho v)
      /\ instance rho t (type_value rho v).
Proof.
  intros Hv Hp He Hs. rewrite (solves_at v P s') by done.
  assert (forall z, root_variable s' z = root_variable s z) as Hr by (intros z; by apply root_same_parents).
  assert (solves_in (without v P) s' rho <-> solves_in (without v P) s rho) as Hw.
  { unfold solves_in, effects_ok, binding_ok. rewrite He, Hs. setoid_rewrite Hr.
    apply and_iff_compat_l, and_iff_compat_r. apply forall_proper. intros x.
    split; intros H Hx u Hu.
    - apply H; [done|]. apply without_spec in Hx as [Hx _]. by rewrite lookup_insert_ne by done.
    - apply H; [done|]. apply without_spec in Hx as [Hx _]. by rewrite lookup_insert_ne in Hu by done. }
  rewrite Hw. setoid_rewrite Hr.
  assert (binding_ok s' rho v <-> instance rho t (type_value rho v)) as Hb.
  { unfold binding_ok. rewrite Hs, lookup_insert_eq. naive_solver. }
  by rewrite Hb.
Qed.

(** Aliasing the unbound root [a] to [b] adds one equation. *)
Lemma solves_alias a b P s s' rho :
  rooted (type_parents s) -> is_root s a -> is_root s b -> a <> b -> P a = true -> P b = true ->
  type_parents s' = <[a := b]> (type_parents s) -> effect_definitions s' = effect_definitions s ->
  substitutions s' = substitutions s ->
  solves_in P s' rho <-> solves_in P s rho /\ type_value rho a = type_value rho b.
Proof.
  intros Hro Ha Hb Hab HPa HPb Hp He Hs.
  assert (forall z, root_variable s' z = if Nat.eqb (root_variable s z) a then b else root_variable s z)
    as Hr by (intros z; by apply root_alias).
  unfold solves_in, effects_ok, binding_ok. rewrite He, Hs. setoid_rewrite Hr. split.
  - intros (H1 & H2 & H3). assert (type_value rho a = type_value rho b) as E.
    { specialize (H1 a). rewrite (root_of_root s Hro a Ha), Nat.eqb_refl in H1. auto. }
    split; [|done]. split; [|done]. intros z Hz. specialize (H1 z).
    destruct (Nat.eqb_spec (root_variable s z) a) as [Ez|]; [rewrite Ez; rewrite H1 by done; congruence|auto].
  - intros ((H1 & H2 & H3) & E). split; [|done]. intros z Hz. specialize (H1 z).
    destruct (Nat.eqb_spec (root_variable s z) a) as [Ez|]; [|auto]. rewrite Ez in H1. rewrite H1 by done. done.
Qed.

(** ** Frames of the operations *)

Lemma frame_bind v P s s' :
  P v = true -> type_parents s' = type_parents s ->
  (forall x, x <> v -> substitutions s' !! x = substitutions s !! x) -> frame P s s'.
Proof.
  intros Hv Hp Hs.
  assert (forall z, root_variable s' z = root_variable s z) as Hr by (intros z; by apply root_same_parents).
  split.
  - done.
  - intros z. by rewrite Hr.
  - intros x _ HP. apply Hs. congruence.
Qed.

Lemma frame_alias a b P s s' :
  rooted (type_parents s) -> is_root s a -> is_root s b -> a <> b -> P a = true -> P b = true ->
  type_parents s' = <[a := b]> (type_parents s) -> substitutions s' = substitutions s -> frame P s s'.
Proof.
  intros Hro Ha Hb Hab HPa HPb Hp Hs.
  assert (forall z, root_variable s' z = if Nat.eqb (root_variable s z) a then b else root_variable s z)
    as Hr by (intros z; by apply root_alias).
  split.
  - intros z Hz. rewrite Hr. destruct (Nat.eqb_spec (root_variable s z) a); [congruence|done].
  - intros z Hz. rewrite Hr. by destruct (Nat.eqb_spec (root_variable s z) a).
  - intros x _ _. by rewrite Hs.
Qed.

Lemma closed_alias a b P s s' :
  rooted (type_parents s) -> is_root s a -> is_root s b -> a <> b -> P a = true -> P b = true ->
  type_parents s' = <[a := b]> (type_parents s) -> substitutions s' = substitutions s ->
  closed P s -> closed P s'.
Proof.
  intros Hro Ha Hb Hab HPa HPb Hp Hs Hc x y Hx (t & z & Ht & Hz & ->).
  rewrite Hs in Ht. apply (frame_in P s s'); [by apply (frame_alias a b)|].
  eapply Hc; [exact Hx|]. by exists t, z.
Qed.

Lemma closed_bind v t P s s' :
  type_parents s' = type_parents s -> substitutions s' = <[v := t]> (substitutions s) ->
  inside P s t -> closed P s -> closed P s'.
Proof.
  intros Hp Hs Ht Hc x y Hx (u & z & Hu & Hz & ->). rewrite (root_same_parents s s' z Hp).
  rewrite Hs in Hu. apply lookup_insert_Some in Hu as [[<- <-]|[Hne Hu]]; [by apply Ht|].
  eapply Hc; [exact Hx|]. by exists u, z.
Qed.

(** ** Sets that do not reach a variable *)

Definition avoids s (v : nat) : nat -> bool := fun x => negb (occurs s v (IVariable x)).

Lemma avoids_false s v x :
  wf_core s -> avoids s v x = false <-> rtc (child s) (root_variable s x) (root_variable s v).
Proof.
  intros Hwf. unfold avoids. rewrite negb_false_iff, occurs_reaches by done. split.
  - intros (y & Hy & Hr). by apply list_elem_of_singleton in Hy as ->.
  - intros Hr. exists x. split; [by apply list_elem_of_singleton|done].
Qed.

Lemma avoids_closed s v : wf_core s -> closed (avoids s v) s.
Proof.
  intros Hwf x y Hx Hc. destruct (avoids s v y) eqn:E; [done|]. apply avoids_false in E; [|done].
  assert (avoids s v x = false) as Hx'; [|congruence]. apply avoids_false; [done|].
  destruct Hc as (t & z & Ht & Hz & ->). rewrite (root_idem s (wf_rooted _ Hwf)) in E.
  rewrite (key_root _ _ _ Hwf Ht). eapply rtc_l; [|exact E]. by exists t, z.
Qed.

Lemma avoids_inside s v t :
  wf_core s -> is_root s v -> ~ reaches s t v -> inside (avoids s v) s t.
Proof.
  intros Hwf Hv Hn y Hy. destruct (avoids s v _) eqn:E; [done|]. exfalso. apply Hn.
  apply avoids_false in E; [|done]. rewrite (root_idem s (wf_rooted _ Hwf)), (root_of_root s (wf_rooted _ Hwf) v Hv) in E.
  by exists y.
Qed.

Lemma avoids_self s v : wf_core s -> is_root s v -> avoids s v v = false.
Proof. intros Hwf Hv. by apply avoids_false. Qed.

Definition both P Q : nat -> bool := fun x => P x && Q x.

Lemma both_spec P Q x : both P Q x = true <-> P x = true /\ Q x = true.
Proof. apply andb_true_iff. Qed.

Lemma both_closed P Q s : closed P s -> closed Q s -> closed (both P Q) s.
Proof. intros HP HQ x y [Hx1 Hx2]%both_spec Hc. apply both_spec. eauto. Qed.

Lemma both_inside P Q s t : inside P s t -> inside Q s t -> inside (both P Q) s t.
Proof. intros HP HQ y Hy. apply both_spec. eauto. Qed.

Lemma both_left P Q : subset (both P Q) P.
Proof. by intros x [Hx _]%both_spec. Qed.

Lemma both_right_false P Q x : Q x = false -> both P Q x = false.
Proof. intros H. unfold both. rewrite H. apply andb_false_r. Qed.

(** * Unification below the head

    What the unifier promises ([unifier_ok]), and that unifying the unified_children
    of two types and the fields of two records keeps the promise, given a
    unifier that keeps it on them. *)

(** ** Computations *)

Lemma infer_bind_Ok {E A B} (m : infer E A) (k : A -> infer E B) s b s' :
  infer_bind m k s = Some (Ok b, s')
  <-> exists a s1, m s = Some (Ok a, s1) /\ k a s1 = Some (Ok b, s').
Proof. unfold infer_bind. destruct (m s) as [[[a|e] s1]|]; naive_solver. Qed.

Lemma discard_Ok {E A} (m : infer E A) s a s' :
  discard m s = Some (Ok a, s') <-> m s = Some (Ok a, s').
Proof. unfold discard, infer_map_err. destruct (m s) as [[[b|e] s1]|]; naive_solver. Qed.

Ltac infer_ok H :=
  repeat match type of H with
  | infer_bind _ _ _ = Some (Ok _, _) =>
      let a := fresh "a" in let s1 := fresh "s1" in let E := fresh "E" in
      apply infer_bind_Ok in H as (a & s1 & E & H)
  end.

(** ** The promise *)

(** Two records are unified field by field, so only the common fields need to
    be inside. *)
Definition pair_inside P s (l r : InferType) : Prop :=
  match l, r with
  | IRecord fl _, IRecord fr _ =>
      forall n a b, bt_get n fl = Some a -> bt_get n fr = Some b -> inside P s a /\ inside P s b
  | _, _ => inside P s l /\ inside P s r
  end.

Definition pairable (l r : InferType) : Prop :=
  solid l /\ solid r \/ is_variable l = false /\ is_variable r = false.

Record unified_in P s l r t s' : Prop := {
  ui_frame : frame P s s';
  ui_closed : closed P s';
  ui_inside : inside P s l -> inside P s r -> inside P s' t;
  ui_exact : exact_in P s l r t s';
}.

Record unified s l r t s' : Prop := {
  un_wf : wf s';
  un_extends : extends s s';
  un_headed : headed t;
  un_scope : in_scope s' t;
  un_solid : solid l -> solid r -> solid t;
  un_head : is_variable l = false -> is_variable r = false -> is_variable t = false;
  un_in : forall P, closed P s -> pair_inside P s l r -> unified_in P s l r t s';
}.

Record unifiable s l r : Prop := {
  ua_wf : wf s;
  ua_left : headed l;
  ua_right : headed r;
  ua_pair : pairable l r;
  ua_left_scope : in_scope s l;
  ua_right_scope : in_scope s r;
}.

Definition unifier_ok (rec : InferType -> InferType -> infer unit InferType) : Prop :=
  forall s l r t s', unifiable s l r -> rec l r s = Some (Ok t, s') -> unified s l r t s'.

Lemma inside_field P s fs o n a : inside P s (IRecord fs o) -> bt_get n fs = Some a -> inside P s a.
Proof.
  intros H Ha y Hy. apply H, elem_of_record_vars. exists (n, a). split; [by apply bt_get_elem|done].
Qed.

Lemma inside_pair P s l r : inside P s l -> inside P s r -> pair_inside P s l r.
Proof.
  intros Hl Hr. destruct l, r; try done. intros n a b Ha Hb.
  split; [exact (inside_field _ _ _ _ _ _ Hl Ha)|exact (inside_field _ _ _ _ _ _ Hr Hb)].
Qed.

Lemma pair_inside_everywhere s l r : pair_inside everywhere s l r.
Proof. by apply inside_pair. Qed.

Lemma closed_everywhere s : closed everywhere s.
Proof. done. Qed.

Lemma scope_field s fs o n a : in_scope s (IRecord fs o) -> bt_get n fs = Some a -> in_scope s a.
Proof.
  intros [H1 H2] Ha%bt_get_elem. split; intros y Hy.
  - apply H1, elem_of_record_vars. by exists (n, a).
  - apply H2, elem_of_record_effects. by exists (n, a).
Qed.

Lemma scope_record s fs o : (forall f, f ∈ fs -> in_scope s (snd f)) -> in_scope s (IRecord fs o).
Proof.
  intros H. split; intros y Hy.
  - apply elem_of_record_vars in Hy as (f & Hf & Hy). by apply (H f Hf).
  - apply elem_of_record_effects in Hy as (f & Hf & Hy). by apply (H f Hf).
Qed.

(** Exactness when both sides stand for one tree. *)
Lemma exact_solid P s l r t s' :
  solid l -> solid r -> solid t ->
  exact_in P s l r t s'
  <-> (forall rho, solves_in P s' rho <-> solves_in P s rho /\ tree_of rho l = tree_of rho r)
      /\ (forall rho, solves_in P s' rho -> tree_of rho t = tree_of rho l).
Proof.
  intros Hl Hr Ht. unfold exact_in. setoid_rewrite instance_solid; [|done..]. split.
  - intros H. split.
    + intros rho. split.
      * intros Hs. destruct (proj1 (H rho (tree_of rho t)) (conj Hs eq_refl)) as (Hs' & E1 & E2).
        split; [done|congruence].
      * intros [Hs E]. by apply (proj2 (H rho (tree_of rho l))).
    + intros rho Hs. by apply (proj1 (H rho (tree_of rho t)) (conj Hs eq_refl)).
  - intros [H1 H2] rho d. split.
    + intros [Hs ->]. rewrite H2 by done. apply H1 in Hs as [Hs E]. naive_solver.
    + intros (Hs & -> & E). assert (solves_in P s' rho) as Hs' by (by apply H1).
      split; [done|]. symmetry. by apply H2.
Qed.

(** ** Children *)

Section Parts.
Context (rec : InferType -> InferType -> infer unit InferType) (Hrec : unifier_ok rec).

Record children_in P s (ls rs ts : list InferType) s' : Prop := {
  ci_frame : frame P s s';
  ci_closed : closed P s';
  ci_inside : Forall (inside P s') ts;
  ci_solves : forall rho, solves_in P s' rho
                <-> solves_in P s rho /\ map (tree_of rho) ls = map (tree_of rho) rs;
  ci_trees : forall rho, solves_in P s' rho -> map (tree_of rho) ts = map (tree_of rho) ls;
}.

Record unified_children s (ls rs ts : list InferType) s' : Prop := {
  ch_wf : wf s';
  ch_extends : extends s s';
  ch_solid : Forall solid ts;
  ch_scope : Forall (in_scope s') ts;
  ch_length : length ts = length ls;
  ch_in : forall P, closed P s -> Forall (inside P s) ls -> Forall (inside P s) rs ->
            children_in P s ls rs ts s';
}.

Lemma solid_unifiable s l r :
  wf s -> solid l -> solid r -> in_scope s l -> in_scope s r -> unifiable s l r.
Proof.
  intros. split; try done; [by apply solid_headed..|]. by left.
Qed.

Lemma children_ok ls : forall rs ts s s',
  length ls = length rs -> wf s -> Forall solid ls -> Forall solid rs ->
  Forall (in_scope s) ls -> Forall (in_scope s) rs ->
  unify_parameters rec ls rs s = Some (Ok ts, s') -> unified_children s ls rs ts s'.
Proof.
  induction ls as [|l ls IH]; intros [|r rs] ts s s' Hlen Hwf Hls Hrs Hsl Hsr H; try done.
  - injection H as <- <-. split; try done.
    intros P HP _ _. split; try done. naive_solver.
  - simpl in H. infer_ok H. injection H as <- <-.
    apply Forall_cons in Hls as [Hl Hls], Hrs as [Hr Hrs], Hsl as [Hsl1 Hsl], Hsr as [Hsr1 Hsr].
    pose proof (Hrec _ _ _ _ _ (solid_unifiable _ _ _ Hwf Hl Hr Hsl1 Hsr1) E) as U.
    assert (unified_children s1 ls rs a0 s0) as C.
    { pose proof (un_extends _ _ _ _ _ U) as Hext.
      apply (IH rs a0 s1 s0); [by injection Hlen|apply U|done|done| | |done];
        (eapply Forall_impl; [eassumption|]; intros x Hx; by eapply extends_scope). }
    clear IH. destruct U as [U1 U2 U3 U4 U5 _ U7], C as [C1 C2 C3 C4 C5 C6].
    specialize (U5 Hl Hr).
    split; try done.
    + by eapply extends_trans.
    + by constructor.
    + constructor; [|done]. by eapply extends_scope.
    + simpl. lia.
    + intros P HP Hil Hir. apply Forall_cons in Hil as [Hil1 Hil], Hir as [Hir1 Hir].
      destruct (U7 P HP (inside_pair _ _ _ _ Hil1 Hir1)) as [V1 V2 V3 V4].
      apply exact_solid in V4 as [V4 V5]; [|done..].
      assert (children_in P s1 ls rs a0 s0) as [W1 W2 W3 W4 W5].
      { apply C6; [done|..]; (eapply Forall_impl; [eassumption|]; intros x Hx; by eapply frame_inside). }
      split; [by eapply frame_trans|done| | |].
      * constructor; [|done]. eapply frame_inside; [done|]. by apply V3.
      * intros rho. rewrite W4, V4. simpl. split; [intros [[? ->] ->]; done|].
        intros [? [= -> ->]]. done.
      * intros rho Hs. simpl. rewrite W5 by done. apply W4 in Hs as [Hs _]. by rewrite V5.
Qed.

(** ** Fields *)

Section Fields.
Context (fl fr : list (string * InferType)).

(** What the loop has put at [n]. *)
Definition merged_value rho (n : string) (t : InferType) : Prop :=
  match bt_get n fl, bt_get n fr with
  | Some a, Some b => tree_of rho t = tree_of rho a
  | Some a, None => t = a
  | None, Some b => t = b
  | None, None => False
  end.

Definition fields_agree rho (names : list string) (fields : list (string * InferType)) : Prop :=
  forall n a b, n ∈ names -> bt_get n fields = None ->
    bt_get n fl = Some a -> bt_get n fr = Some b -> tree_of rho a = tree_of rho b.

Record fields_in P s (names : list string) (fields fields' : list (string * InferType)) s' : Prop := {
  fi_frame : frame P s s';
  fi_closed : closed P s';
  fi_inside : (forall n a, bt_get n fl = Some a -> inside P s a) ->
              (forall n b, bt_get n fr = Some b -> inside P s b) ->
              (forall n t, bt_get n fields = Some t -> inside P s t) ->
              forall n t, bt_get n fields' = Some t -> inside P s' t;
  fi_solves : forall rho, solves_in P s' rho <-> solves_in P s rho /\ fields_agree rho names fields;
  fi_values : forall rho n t, solves_in P s' rho -> bt_get n fields = None ->
                bt_get n fields' = Some t -> n ∈ names /\ merged_value rho n t;
}.

Record fields_ok s (names : list string) (fields fields' : list (string * InferType)) s' : Prop := {
  fo_wf : wf s';
  fo_extends : extends s s';
  fo_sorted : bt_sorted fields';
  fo_kept : forall n t, bt_get n fields = Some t -> bt_get n fields' = Some t;
  fo_names : forall n, bt_get n fields' <> None <-> bt_get n fields <> None \/ n ∈ names;
  fo_types : forall n t, bt_get n fields' = Some t -> solid t /\ in_scope s' t;
  fo_in : forall P, closed P s ->
            (forall n a b, bt_get n fl = Some a -> bt_get n fr = Some b ->
               inside P s a /\ inside P s b) ->
            fields_in P s names fields fields' s';
}.

Definition fields_typed s (fs : list (string * InferType)) : Prop :=
  forall n t, bt_get n fs = Some t -> solid t /\ in_scope s t.

Lemma fields_typed_extends s s' fs : extends s s' -> fields_typed s fs -> fields_typed s' fs.
Proof. intros He H n t Ht. destruct (H n t Ht). split; [done|]. by eapply extends_scope. Qed.

(** One turn of the loop at a new name. *)
Lemma field_step n s ty s1 :
  wf s -> fields_typed s fl -> fields_typed s fr ->
  match bt_get n fl, bt_get n fr with
  | Some l, Some r => rec l r
  | Some l, None => infer_ret l
  | None, Some r => infer_ret r
  | None, None => infer_fail tt
  end s = Some (Ok ty, s1) ->
  wf s1 /\ extends s s1 /\ solid ty /\ in_scope s1 ty
  /\ forall P, closed P s ->
       (forall a b, bt_get n fl = Some a -> bt_get n fr = Some b -> inside P s a /\ inside P s b) ->
       frame P s s1 /\ closed P s1
       /\ ((forall a, bt_get n fl = Some a -> inside P s a) ->
           (forall b, bt_get n fr = Some b -> inside P s b) -> inside P s1 ty)
       /\ (forall rho, solves_in P s1 rho <-> solves_in P s rho
             /\ forall a b, bt_get n fl = Some a -> bt_get n fr = Some b -> tree_of rho a = tree_of rho b)
       /\ (forall rho, solves_in P s1 rho -> merged_value rho n ty).
Proof.
  intros Hwf Hfl Hfr H. unfold merged_value.
  destruct (bt_get n fl) as [a|] eqn:Ea, (bt_get n fr) as [b|] eqn:Eb; [|injection H as <- <-..|done].
  - destruct (Hfl _ _ Ea) as [Ha Hsa], (Hfr _ _ Eb) as [Hb Hsb].
    destruct (Hrec _ _ _ _ _ (solid_unifiable _ _ _ Hwf Ha Hb Hsa Hsb) H) as [U1 U2 U3 U4 U5 _ U7].
    do 2 (split; [done|]). split; [by apply U5|]. split; [done|]. intros P HP Hin.
    destruct (Hin a b eq_refl eq_refl) as [Hia Hib].
    destruct (U7 P HP (inside_pair _ _ _ _ Hia Hib)) as [V1 V2 V3 V4].
    apply exact_solid in V4 as [V4 V5]; [|auto..].
    do 2 (split; [done|]). split; [auto|]. split; [|done].
    intros rho. rewrite V4. naive_solver.
  - destruct (Hfl _ _ Ea) as [Ha Hsa]. split; [done|]. split; [apply extends_refl|].
    do 2 (split; [done|]). intros P HP _. split; [apply frame_refl|]. naive_solver.
  - destruct (Hfr _ _ Eb) as [Hb Hsb]. split; [done|]. split; [apply extends_refl|].
    do 2 (split; [done|]). intros P HP _. split; [apply frame_refl|]. naive_solver.
Qed.

Lemma fields_skip s name names fields fields' s' :
  bt_get name fields <> None ->
  fields_ok s names fields fields' s' -> fields_ok s (name :: names) fields fields' s'.
Proof.
  intros Hname [F1 F2 F3 F4 F5 F6 F7]. split; try done.
  - intros n. rewrite F5, elem_of_cons. naive_solver.
  - intros P HP Hin. destruct (F7 P HP Hin) as [G1 G2 G3 G4 G5]. split; try done.
    + intros rho. rewrite G4. unfold fields_agree. setoid_rewrite elem_of_cons. naive_solver.
    + intros rho n t Hs Hn Ht. destruct (G5 rho n t Hs Hn Ht). split; [by right|done].
Qed.

Lemma unify_fields_ok names : forall fields s fields' s',
  wf s -> fields_typed s fl -> fields_typed s fr -> fields_typed s fields -> bt_sorted fields ->
  unify_fields rec fl fr names fields s = Some (Ok fields', s') -> fields_ok s names fields fields' s'.
Proof.
  induction names as [|name names IH]; intros fields s fields' s' Hwf Hfl Hfr Hfs Hso H; simpl in H.
  - injection H as <- <-. split; try done.
    + intros n. split; [by left|]. intros [|Hn]; [done|]. by apply elem_of_nil in Hn.
    + intros P HP Hin. split; try done.
      * intros rho. split; [|naive_solver]. intros Hs. split; [done|].
        intros n a b Hn. by apply elem_of_nil in Hn.
      * intros rho n t _ Hn Ht. congruence.
  - destruct (bt_get name fields) as [t0|] eqn:Ename.
    { apply fields_skip; [congruence|]. by apply IH. }
    apply infer_bind_Ok in H as (ty & s1 & Hty & H).
    destruct (field_step name s ty s1 Hwf Hfl Hfr Hty) as (S1 & S2 & S3 & S4 & S5). clear Hty.
    assert (forall n, n <> name -> bt_get n (bt_insert name ty fields) = bt_get n fields) as Hne
      by (intros n Hn; by apply bt_get_insert_ne).
    pose proof (bt_get_insert_eq name ty fields Hso) as Heq.
    assert (fields_typed s1 (bt_insert name ty fields)) as Hfs1.
    { intros n t Ht. destruct (decide (n = name)) as [->|Hn].
      - rewrite Heq in Ht. by simplify_eq.
      - rewrite Hne in Ht by done. by apply (fields_typed_extends s s1 fields S2 Hfs n t). }
    destruct (IH (bt_insert name ty fields) s1 fields' s') as [F1 F2 F3 F4 F5 F6 F7]; try done;
      [by eapply fields_typed_extends..|by apply bt_insert_sorted|].
    assert (bt_get name fields' = Some ty) as Hname by (by apply F4).
    split; try done.
    + by eapply extends_trans.
    + intros n t Ht. apply F4. rewrite Hne; [done|]. congruence.
    + intros n. rewrite F5, elem_of_cons. destruct (decide (n = name)) as [->|Hn].
      * rewrite Heq. naive_solver.
      * rewrite Hne by done. naive_solver.
    + intros P HP Hin. destruct (S5 P HP) as (T1 & T2 & T3 & T4 & T5); [by apply Hin|].
      assert (fields_in P s1 names (bt_insert name ty fields) fields' s') as [G1 G2 G3 G4 G5].
      { apply F7; [done|]. intros n a b Ha Hb. destruct (Hin n a b Ha Hb).
        split; by eapply frame_inside. }
      split; [by eapply frame_trans|done| | |].
      * intros H1 H2 H3. apply G3.
        -- intros n a Ha. eapply frame_inside; [done|by eapply H1].
        -- intros n a Ha. eapply frame_inside; [done|by eapply H2].
        -- intros n t Ht. destruct (decide (n = name)) as [->|Hn].
           ++ rewrite Heq in Ht. simplify_eq. apply T3; eauto.
           ++ rewrite Hne in Ht by done. eapply frame_inside; [done|by eapply H3].
      * intros rho. rewrite G4, T4. unfold fields_agree. setoid_rewrite elem_of_cons. split.
        -- intros [[Hs Ha] Hrest]. split; [done|]. intros n a b Hn Hf.
           destruct (decide (n = name)) as [->|Hnn]; [apply Ha|].
           apply Hrest; [naive_solver|by rewrite Hne].
        -- intros [Hs Hall]. split; [split; [done|]|].
           ++ intros a b. apply Hall; [by left|done].
           ++ intros n a b Hn Hf. apply Hall; [by right|]. rewrite Hne in Hf; [done|congruence].
      * intros rho n t Hs Hn Ht. destruct (decide (n = name)) as [->|Hnn].
        -- rewrite Hname in Ht. simplify_eq. split; [by left|]. apply T5. by apply G4.
        -- destruct (G5 rho n t Hs) as [G6 G7]; [by rewrite Hne|done|]. split; [by right|done].
Qed.
End Fields.
End Parts.
