(* ===== verification/UnifyVars.v ===== *)
(** * Unification of heads

    Records, compound types, leaves and nominal types: each case of
    [unify_step] but those of a variable keeps the promise of [UnifyParts]. *)

From S2P Require Import Prelude BTree Syntax Sorting Types Parser Infer InferWf OccursFacts TypeTrees UnifyParts.

#[local] Open Scope nat_scope.

Implicit Types (P Q : nat -> bool) (s : Inference) (rho : Valuation).

Lemma keys_get (n : string) (fs : list (string * InferType)) :
  bt_sorted fs -> n ∈ bt_keys fs <-> bt_get n fs <> None.
Proof.
  intros Hs. unfold bt_keys. rewrite list_elem_of_fmap. split.
  - intros ([k t] & -> & Hin). simpl. by rewrite (bt_elem_get k t).
  - intros H. destruct (bt_get n fs) as [t|] eqn:E; [|done]. exists (n, t).
    split; [done|by apply bt_get_elem].
Qed.

Lemma headed_record fs o :
  bt_sorted fs -> (forall n t, bt_get n fs = Some t -> solid t) -> headed (IRecord fs o).
Proof.
  intros Hs H. split; [done|]. apply Forall_forall. intros [n t] Hin. by eapply H, bt_elem_get.
Qed.

Lemma record_typed s fs o : headed (IRecord fs o) -> in_scope s (IRecord fs o) -> fields_typed s fs.
Proof.
  intros [Hs Hf] Hsc n t Ht. split; [|by eapply scope_field].
  rewrite Forall_forall in Hf. apply (Hf (n, t)). by apply bt_get_elem.
Qed.

(** Outside the common fields the keys of a closed side cover the other's. *)
Lemma closed_covers (o : bool) (fs gs : list (string * InferType)) (n : string) :
  bt_sorted gs -> negb o && existsb (fun name => negb (has_field fs name)) (bt_keys gs) = false ->
  o = false -> bt_get n fs = None -> bt_get n gs = None.
Proof.
  intros Hs H -> Hn. simpl in H. destruct (bt_get n gs) as [t|] eqn:E; [|done].
  rewrite existsb_False, Forall_forall in H.
  assert (n ∈ bt_keys gs) as Hin by (apply keys_get; congruence).
  specialize (H n Hin). unfold has_field in H. by rewrite Hn in H.
Qed.

(** ** Compound types *)

(** [us] are the children of [u], which adds no variable of its own. *)
Record node (u : InferType) (us : list InferType) : Prop := {
  node_head : is_variable u = false;
  node_not_record : match u with IRecord _ _ => False | _ => True end;
  node_variables : forall y, y ∈ type_variables u <-> exists x, x ∈ us /\ y ∈ type_variables x;
  node_effects : forall x e, x ∈ us -> e ∈ type_effects x -> e ∈ type_effects u;
  node_solid : solid u <-> Forall solid us;
}.

Lemma node_inside P s u us : node u us -> inside P s u <-> Forall (inside P s) us.
Proof.
  intros [_ _ Hv _ _]. rewrite Forall_forall. split.
  - intros H x Hx y Hy. apply H, Hv. eauto.
  - intros H y (x & Hx & Hy)%Hv. by apply (H x Hx).
Qed.

Lemma node_scope s u us : node u us -> in_scope s u -> Forall (in_scope s) us.
Proof.
  intros [_ _ Hv He _] [H1 H2]. apply Forall_forall. intros x Hx. split; intros y Hy.
  - apply H1, Hv. eauto.
  - by apply H2, (He x).
Qed.

Lemma node_list t : node (IList t) [t].
Proof.
  split; try done; simpl.
  - intros y. split; [intros Hy; exists t; set_solver|]. intros (x & Hx%list_elem_of_singleton & Hy). by subst.
  - intros x e Hx%list_elem_of_singleton. by subst.
  - rewrite Forall_singleton. done.
Qed.

Lemma node_option t : node (IOption t) [t].
Proof.
  split; try done; simpl.
  - intros y. split; [intros Hy; exists t; set_solver|]. intros (x & Hx%list_elem_of_singleton & Hy). by subst.
  - intros x e Hx%list_elem_of_singleton. by subst.
  - rewrite Forall_singleton. done.
Qed.

Lemma node_result t u : node (IResult t u) [t; u].
Proof.
  split; try done; simpl.
  - intros y. rewrite elem_of_app. split; [intros [Hy|Hy]; [exists t|exists u]; set_solver|].
    intros (x & Hx & Hy). apply elem_of_cons in Hx as [->|Hx%list_elem_of_singleton]; [by left|subst; by right].
  - intros x e Hx He. apply elem_of_app.
    apply elem_of_cons in Hx as [->|Hx%list_elem_of_singleton]; [by left|subst; by right].
  - rewrite Forall_cons, Forall_singleton. done.
Qed.

Lemma node_function ps r e : node (IFunction ps r e) (ps ++ [r]).
Proof.
  split; try done.
  - intros y. rewrite elem_of_function_vars. setoid_rewrite elem_of_app. setoid_rewrite list_elem_of_singleton.
    naive_solver.
  - intros x f. rewrite elem_of_app, list_elem_of_singleton, elem_of_function_effects. naive_solver.
  - rewrite solid_function, Forall_app, Forall_singleton. done.
Qed.

Lemma compound_ok l r t ls rs ts s s' :
  unified_children s ls rs ts s' -> node l ls -> node r rs -> node t ts -> in_scope s' t ->
  solid l -> solid r ->
  (forall rho, tree_of rho l = tree_of rho r <-> map (tree_of rho) ls = map (tree_of rho) rs) ->
  (forall rho, map (tree_of rho) ts = map (tree_of rho) ls -> tree_of rho t = tree_of rho l) ->
  unified s l r t s'.
Proof.
  intros [C1 C2 C3 C4 C5 C6] Nl Nr Nt Hsc Hl Hr Hlr Htl.
  assert (solid t) as Ht by (by apply (node_solid _ _ Nt)).
  split; try done; [by apply solid_headed|intros _ _; apply Nt|].
  intros P HP Hin. assert (inside P s l /\ inside P s r) as [Hil Hir].
  { pose proof (node_not_record _ _ Nl). destruct l; done || exact Hin. }
  apply (node_inside _ _ _ _ Nl) in Hil. apply (node_inside _ _ _ _ Nr) in Hir.
  destruct (C6 P HP Hil Hir) as [W1 W2 W3 W4 W5]. split; try done.
  - intros _ _. by apply (node_inside _ _ _ _ Nt).
  - apply exact_solid; [done..|]. split; intros rho; [rewrite W4, Hlr; done|]. eauto.
Qed.

(** ** Effects *)

Lemma add_dependency_lookup left right defs e :
  add_dependency left right defs !! e
  = if decide (e = left)
    then (fun d => mkInferEffects (direct d) (direct_requirements d) (oset_insert right (dependencies d)))
           <$> defs !! e
    else defs !! e.
Proof.
  unfold add_dependency. case_decide as D; [subst; apply list_lookup_alter_eq|].
  by rewrite list_lookup_alter_ne.
Qed.

Definition effects_within (rho : Valuation) (a b : nat) : Prop :=
  (effects_value rho a).1 ⊆ (effects_value rho b).1 /\ (effects_value rho a).2 ⊆ (effects_value rho b).2.

Lemma add_dependency_ok left right s rho :
  left < length (effect_definitions s) ->
  effects_ok (with_effects (add_dependency left right (effect_definitions s)) s) rho
  <-> effects_ok s rho /\ effects_within rho right left.
Proof.
  intros Hlt. destruct (lookup_lt_is_Some_2 _ _ Hlt) as [d Hd].
  unfold effects_ok; simpl. setoid_rewrite add_dependency_lookup. split.
  - intros H. split.
    + intros e def He. specialize (H e). case_decide as D; [|by apply H]. subst.
      rewrite He in H. destruct (H _ eq_refl) as (H1 & H2 & H3). simpl in *. split; [done|]. split; [done|].
      intros x Hx. apply H3, oset_insert_elem. by right.
    + specialize (H left). rewrite decide_True, Hd in H by done. destruct (H _ eq_refl) as (_ & _ & H3).
      apply H3, oset_insert_elem. by left.
  - intros [H Hw] e def. case_decide as D; [|apply H]. subst. rewrite Hd. intros [= <-]. simpl.
    destruct (H left d Hd) as (H1 & H2 & H3). split; [done|]. split; [done|].
    intros x [->|Hx]%oset_insert_elem; [done|by apply H3].
Qed.

Lemma link_effects_ok left right s rho :
  left < length (effect_definitions s) -> right < length (effect_definitions s) ->
  effects_ok (link_effects left right s) rho
  <-> effects_ok s rho /\ effects_value rho left = effects_value rho right.
Proof.
  intros Hl Hr. unfold link_effects. destruct (Nat.eqb_spec left right) as [->|Hne]; [naive_solver|].
  set (s1 := with_effects (add_dependency left right (effect_definitions s)) s).
  change (effects_ok (with_effects (add_dependency right left (effect_definitions s1)) s1) rho
          <-> effects_ok s rho /\ effects_value rho left = effects_value rho right).
  assert (length (effect_definitions s1) = length (effect_definitions s)) as Hlen by apply length_alter.
  rewrite add_dependency_ok by lia. unfold s1. rewrite add_dependency_ok by done.
  unfold effects_within. split.
  - intros [[Hs [A1 A2]] [B1 B2]]. split; [done|].
    destruct (effects_value rho left) as [a1 a2], (effects_value rho right) as [b1 b2]. simpl in *.
    f_equal; set_solver.
  - intros [Hs ->]. done.
Qed.

Lemma link_effects_fields left right s :
  type_parents (link_effects left right s) = type_parents s
  /\ substitutions (link_effects left right s) = substitutions s
  /\ type_heights (link_effects left right s) = type_heights s
  /\ type_dependents (link_effects left right s) = type_dependents s
  /\ type_depth_error (link_effects left right s) = type_depth_error s
  /\ length (effect_definitions (link_effects left right s)) = length (effect_definitions s).
Proof.
  unfold link_effects. destruct (Nat.eqb left right); [done|]. simpl. unfold add_dependency.
  by rewrite !length_alter.
Qed.

Lemma add_dependency_own left right effects :
  map own_effects (add_dependency left right effects) = map own_effects effects.
Proof. revert left. induction effects as [|e effects IH]; intros [|left]; simpl; [done..|]. by rewrite IH. Qed.

Lemma link_effects_own left right s :
  map own_effects (effect_definitions (link_effects left right s)) = map own_effects (effect_definitions s).
Proof. unfold link_effects. destruct (Nat.eqb left right); [done|]. simpl. by rewrite !add_dependency_own. Qed.

(** States that differ in the effect definitions only. *)
Lemma wf_same_types s s' :
  type_parents s' = type_parents s -> substitutions s' = substitutions s ->
  type_heights s' = type_heights s -> type_dependents s' = type_dependents s ->
  length (effect_definitions s') = length (effect_definitions s) -> wf s -> wf s'.
Proof.
  intros E1 E2 E3 E4 E5 [[W1 W2 W3 W4 W5 W6 W7] Hc].
  assert (forall z, root_variable s' z = root_variable s z) as Hr by (intros z; by apply root_same_parents).
  assert (forall v, height s' v = height s v) as Hh by (intros v; unfold height; by rewrite E3).
  split; [constructor|].
  - by rewrite E1.
  - by rewrite E1, E3.
  - by rewrite E1, E4.
  - intros v t. rewrite E2. unfold is_root. rewrite E1. apply W4.
  - intros v t. rewrite E2. intros Hv. destruct (W5 v t Hv) as (? & ? & H1 & H2).
    split; [done|]. split; [done|]. split; [by rewrite E1|by rewrite E5].
  - intros v. by rewrite Hh.
  - intros v t y. rewrite E2. unfold dependents. rewrite E4, Hr. setoid_rewrite Hr. apply W7.
  - intros v t. rewrite E2, Hh. rewrite (resolved_height_fields s' s) by done. setoid_rewrite Hr. apply Hc.
Qed.

Lemma same_types_in P s s' t :
  type_parents s' = type_parents s -> substitutions s' = substitutions s ->
  frame P s s' /\ (closed P s -> closed P s') /\ (inside P s t -> inside P s' t).
Proof.
  intros E1 E2.
  assert (forall z, root_variable s' z = root_variable s z) as Hr by (intros z; by apply root_same_parents).
  split; [|split].
  - split; [done| |]; intros z; [by rewrite Hr|by rewrite E2].
  - intros Hc x y Hx (u & z & Hu & Hz & ->). eapply Hc; [exact Hx|]. exists u, z. by rewrite <- E2.
  - intros Hi y Hy. rewrite Hr. by apply Hi.
Qed.

Section Heads.
Context (rec : InferType -> InferType -> infer unit InferType) (Hrec : unifier_ok rec).

Lemma records_exact fl ol fr orr fields s s' P :
  bt_sorted fl -> bt_sorted fr ->
  (ol = false -> forall n, bt_get n fl = None -> bt_get n fr = None) ->
  (orr = false -> forall n, bt_get n fr = None -> bt_get n fl = None) ->
  bt_sorted fields ->
  (forall n, bt_get n fields <> None <-> bt_get n fl <> None \/ bt_get n fr <> None) ->
  fields_in fl fr P s (bt_keys fl ++ bt_keys fr) [] fields s' ->
  exact_in P s (IRecord fl ol) (IRecord fr orr) (IRecord fields (ol && orr)) s'.
Proof.
  intros Hsl Hsr Hcl Hcr Hsf Hnames [_ _ _ Hsol Hval] rho d.
  rewrite !instance_record by done. split.
  - intros (Hs & gs & -> & Hgs & Hg & Hc).
    assert (forall n t, bt_get n fields = Some t -> merged_value fl fr rho n t) as Hv.
    { intros n t Ht. by destruct (Hval rho n t Hs eq_refl Ht). }
    apply Hsol in Hs as [Hs Hagree]. split; [done|].
    assert (forall n, bt_get n fl <> None \/ bt_get n fr <> None -> exists t, bt_get n fields = Some t
              /\ bt_get n gs = Some (tree_of rho t) /\ merged_value fl fr rho n t) as Hget.
    { intros n Hn%Hnames. destruct (bt_get n fields) as [t|] eqn:E; [|done]. exists t. eauto. }
    split; exists gs; (split; [done|]); (split; [done|]); split.
    + intros n a Ha. destruct (Hget n) as (t & Ht & -> & Hf); [left; congruence|].
      unfold merged_value in Hf. rewrite Ha in Hf. destruct (bt_get n fr); congruence.
    + intros Ho n Hn. apply Hc; [by rewrite Ho|]. destruct (bt_get n fields) eqn:E; [|done].
      assert (bt_get n fields <> None) as Hf%Hnames by congruence. rewrite (Hcl Ho n Hn), Hn in Hf. naive_solver.
    + intros n b Hb. destruct (Hget n) as (t & Ht & -> & Hf); [right; congruence|].
      unfold merged_value in Hf. rewrite Hb in Hf. destruct (bt_get n fl) as [a|] eqn:Ha; [|congruence].
      rewrite Hf. f_equal. apply (Hagree n); try done. apply elem_of_app. left. apply keys_get; congruence.
    + intros Ho n Hn. apply Hc; [by rewrite Ho, andb_false_r|]. destruct (bt_get n fields) eqn:E; [|done].
      assert (bt_get n fields <> None) as Hf%Hnames by congruence. rewrite (Hcr Ho n Hn), Hn in Hf. naive_solver.
  - intros (Hs & (gs & -> & Hgs & Hgl & Hol) & (gs' & [= <-] & _ & Hgr & Hor)).
    assert (solves_in P s' rho) as Hs'.
    { apply Hsol. split; [done|]. intros n a b _ _ Ha Hb. apply Hgl in Ha. apply Hgr in Hb. congruence. }
    split; [done|]. exists gs. do 2 (split; [done|]). split.
    + intros n t Ht. destruct (Hval rho n t Hs' eq_refl Ht) as [_ Hf]. unfold merged_value in Hf.
      destruct (bt_get n fl) as [a|] eqn:Ha, (bt_get n fr) as [b|] eqn:Hb; try done; subst; auto.
      rewrite Hf. auto.
    + intros Ho n Hn. pose proof (Hnames n) as Hx. rewrite Hn in Hx.
      assert (bt_get n fl = None /\ bt_get n fr = None) as [N1 N2].
      { destruct (bt_get n fl), (bt_get n fr); naive_solver. }
      apply andb_false_iff in Ho as [Ho|Ho]; [by apply Hol|by apply Hor].
Qed.

Lemma records_ok fl ol fr orr s t s' :
  unifiable s (IRecord fl ol) (IRecord fr orr) ->
  unify_records rec fl ol fr orr s = Some (Ok t, s') ->
  unified s (IRecord fl ol) (IRecord fr orr) t s'.
Proof.
  intros [Hwf [Hsl Hl] [Hsr Hr] _ Hscl Hscr]. unfold unify_records.
  destruct (negb ol && negb orr && bool_decide (bt_keys fl <> bt_keys fr)) eqn:G1; [done|].
  destruct (negb ol && existsb (fun name => negb (has_field fl name)) (bt_keys fr)) eqn:G2; [done|].
  destruct (negb orr && existsb (fun name => negb (has_field fr name)) (bt_keys fl)) eqn:G3; [done|].
  cbn [orb]. intros H. apply infer_bind_Ok in H as (fields & s1 & Hf & [= <- <-]).
  assert (fields_typed s fl) as Tl by (by apply (record_typed s fl ol)).
  assert (fields_typed s fr) as Tr by (by apply (record_typed s fr orr)).
  destruct (unify_fields_ok rec Hrec fl fr (bt_keys fl ++ bt_keys fr) [] s fields s1 Hwf Tl Tr) as [F1 F2 F3 F4 F5 F6 F7];
    [done|done|done|].
  assert (forall n, bt_get n fields <> None <-> bt_get n fl <> None \/ bt_get n fr <> None) as Hnames.
  { intros n. rewrite F5, elem_of_app, !keys_get by done. simpl. naive_solver. }
  assert (headed (IRecord fields (ol && orr))) as Hh.
  { apply headed_record; [done|]. intros n t Ht. by apply (F6 n t). }
  split; try done.
  - apply scope_record. intros [n t] Hin. by apply (F6 n t), bt_elem_get.
  - intros [-> _]%solid_record [-> _]%solid_record. apply solid_record. destruct Hh. done.
  - intros P HP Hin. pose proof (F7 P HP Hin) as Fi. split; [apply Fi|apply Fi| |].
    + intros Hil Hir y Hy. apply elem_of_record_vars in Hy as ([n t] & Hin' & Hy).
      revert y Hy. apply (fi_inside _ _ _ _ _ _ _ _ Fi) with n.
      * intros m a. by apply inside_field with ol.
      * intros m a. by apply inside_field with orr.
      * done.
      * by apply bt_elem_get.
    + apply records_exact; try done.
      * intros Ho n. by apply (closed_covers ol).
      * intros Ho n. by apply (closed_covers orr).
Qed.

(** ** The other cases *)

Lemma unify_parameters_snoc ls rs l r ts t s s1 s2 :
  length ls = length rs ->
  unify_parameters rec ls rs s = Some (Ok ts, s1) -> rec l r s1 = Some (Ok t, s2) ->
  unify_parameters rec (ls ++ [l]) (rs ++ [r]) s = Some (Ok (ts ++ [t]), s2).
Proof.
  revert rs ts s. induction ls as [|l0 ls IH]; intros [|r0 rs] ts s Hlen Hp Ht; try done.
  - injection Hp as <- <-. simpl. unfold infer_bind at 1. by rewrite Ht.
  - simpl in *. infer_ok Hp. injection Hp as <- <-. unfold infer_bind at 1. rewrite E.
    unfold infer_bind at 1. erewrite IH; [done|by injection Hlen|done|done].
Qed.

Lemma map_snoc_inj {A B} (f : A -> B) ls rs l r :
  map f (ls ++ [l]) = map f (rs ++ [r]) <-> map f ls = map f rs /\ f l = f r.
Proof.
  rewrite !map_app. simpl. split; [apply app_inj_tail|]. by intros [-> ->].
Qed.

Lemma solid_pair s l r : unifiable s l r -> headed l = solid l -> headed r = solid r -> solid l /\ solid r.
Proof. intros [_ Hl Hr _ _ _] El Er. by rewrite El in Hl; rewrite Er in Hr. Qed.

Lemma scope_function s ps r e :
  Forall (in_scope s) (ps ++ [r]) -> e < length (effect_definitions s) -> in_scope s (IFunction ps r e).
Proof.
  rewrite Forall_app, Forall_singleton, Forall_forall. intros [Hp [Hr1 Hr2]] He. split; intros y Hy.
  - apply elem_of_function_vars in Hy as [(p & Hin & Hy)|Hy]; [by apply (Hp p Hin)|by apply Hr1].
  - apply elem_of_function_effects in Hy as [->|[(p & Hin & Hy)|Hy]]; [done|by apply (Hp p Hin)|by apply Hr2].
Qed.

Lemma function_ok lps lr le rps rr re s ts t s1 s2 :
  unifiable s (IFunction lps lr le) (IFunction rps rr re) -> length lps = length rps ->
  unify_parameters rec lps rps s = Some (Ok ts, s1) -> rec lr rr s1 = Some (Ok t, s2) ->
  unified s (IFunction lps lr le) (IFunction rps rr re) (IFunction ts t le) (link_effects le re s2).
Proof.
  intros U Hlen Hp Ht. pose proof (ua_wf _ _ _ U) as Hwf.
  destruct (solid_pair _ _ _ U eq_refl eq_refl) as [Hl Hr]. destruct U as [_ _ _ _ Hscl Hscr].
  pose proof (unify_parameters_snoc _ _ _ _ _ _ _ _ _ Hlen Hp Ht) as Hall.
  assert (unified_children s (lps ++ [lr]) (rps ++ [rr]) (ts ++ [t]) s2) as [C1 C2 C3 C4 C5 C6].
  { eapply children_ok; try done; [by rewrite !length_app, Hlen|..].
    - by apply (node_solid _ _ (node_function lps lr le)).
    - by apply (node_solid _ _ (node_function rps rr re)).
    - by eapply node_scope, Hscl; apply node_function.
    - by eapply node_scope, Hscr; apply node_function. }
  assert (le < length (effect_definitions s2)) as Hle.
  { rewrite (extends_effects _ _ C2). apply Hscl, elem_of_function_effects. by left. }
  assert (re < length (effect_definitions s2)) as Hre.
  { rewrite (extends_effects _ _ C2). apply Hscr, elem_of_function_effects. by left. }
  destruct (link_effects_fields le re s2) as (L1 & L2 & L3 & L4 & L5 & L6).
  assert (solid (IFunction ts t le)) as Hts by (by apply (node_solid _ _ (node_function ts t le))).
  split; try done.
  - by eapply wf_same_types.
  - destruct C2 as [X1 X2 X3 X4]. split; [by rewrite L1|by rewrite link_effects_own|by rewrite L5|].
    intros v. unfold height at 2. rewrite L3. apply X4.
  - apply (extends_scope s2); [|by apply scope_function]. split; [by rewrite L1|by rewrite link_effects_own|done|].
    intros v. unfold height. by rewrite L3.
  - intros P HP [Hil Hir].
    apply (node_inside _ _ _ _ (node_function lps lr le)) in Hil.
    apply (node_inside _ _ _ _ (node_function rps rr re)) in Hir.
    destruct (C6 P HP Hil Hir) as [W1 W2 W3 W4 W5].
    destruct (same_types_in P s2 (link_effects le re s2) (IFunction ts t le) L1 L2) as (X1 & X2 & X3).
    assert (forall rho, solves_in P (link_effects le re s2) rho
              <-> solves_in P s2 rho /\ effects_value rho le = effects_value rho re) as Hsol.
    { intros rho. unfold solves_in, binding_ok. rewrite link_effects_ok, L2 by done.
      setoid_rewrite (root_same_parents s2 (link_effects le re s2) _ L1). tauto. }
    split; [by eapply frame_trans|by apply X2| |].
    + intros _ _. apply X3. by apply (node_inside _ _ _ _ (node_function ts t le)).
    + apply exact_solid; [done..|]. split; intros rho; rewrite Hsol.
      * rewrite W4, map_snoc_inj. simpl. split; [by intros [[? [-> ->]] ->]|].
        by intros [? [= -> -> ->]].
      * intros [Hs _]. apply W5, map_snoc_inj in Hs as [E1 E2]. simpl. by rewrite E1, E2.
Qed.

Lemma leaf_ok s l r t :
  wf s -> solid t -> type_variables l = [] -> type_variables t = [] -> type_effects t = [] ->
  is_variable t = false -> (forall rho d, instance rho t d <-> instance rho l d /\ instance rho r d) ->
  unified s l r t s.
Proof.
  intros Hwf Ht Hl Hv He Hn Hi. split; try done; [by apply solid_headed|..].
  - split; [rewrite Hv|rewrite He]; intros y Hy; by apply elem_of_nil in Hy.
  - intros P HP _. split; try done.
    + intros _ _ y. rewrite Hv. intros Hy. by apply elem_of_nil in Hy.
    + intros rho d. rewrite Hi. tauto.
Qed.

Lemma contract_scope s t : in_scope s (contract_record t).
Proof. destruct t; split; intros y Hy; by apply elem_of_nil in Hy. Qed.

Lemma contract_solid t : solid (contract_record t).
Proof. destruct t; repeat split; repeat constructor. Qed.

Lemma nominal_instance rho t d :
  is_nominal t = true -> instance rho t d <-> instance rho (contract_record t) d.
Proof. by destruct t. Qed.

Lemma contract_inside P s t : inside P s (contract_record t).
Proof. intros y Hy. destruct t; by apply elem_of_nil in Hy. Qed.

(** A nominal type against a record, on either side. *)
Lemma nominal_exact P s s' nominal l r t u :
  is_nominal nominal = true -> headed t ->
  (forall rho d, instance rho l d /\ instance rho r d
                 <-> instance rho (contract_record nominal) d /\ instance rho u d) ->
  exact_in P s l r t s' ->
  forall rho d, solves_in P s' rho /\ instance rho nominal d
                <-> solves_in P s rho /\ instance rho nominal d /\ instance rho u d.
Proof.
  intros Hn Ht Hlr He rho d. rewrite (nominal_instance _ _ _ Hn). split.
  - intros [Hs Hd]. pose proof (instance_tree_of rho t Ht) as Hi.
    destruct (proj1 (He rho _) (conj Hs Hi)) as [Hs' [Hc Hu]%Hlr].
    assert (d = tree_of rho t) as ->; [|done].
    apply instance_solid in Hc, Hd; [congruence|apply contract_solid..].
  - intros (Hs & Hc%Hlr). destruct (proj2 (He rho d) (conj Hs Hc)) as [Hs' _]. split; [done|].
    by apply Hlr in Hc as [Hc _].
Qed.

Lemma nominal_unified s s' nominal l r l' r' t :
  is_nominal nominal = true -> unified s l r t s' ->
  (l = contract_record nominal /\ l' = nominal /\ r' = r
   \/ r = contract_record nominal /\ r' = nominal /\ l' = l) ->
  unified s l' r' nominal s'.
Proof.
  intros Hn U Hor.
  assert (solid nominal /\ type_variables nominal = [] /\ type_effects nominal = []
          /\ is_variable nominal = false) as (N1 & N2 & N3 & N4) by (by destruct nominal).
  split; try done; [apply U|apply U|by apply solid_headed|..].
  - split; [rewrite N2|rewrite N3]; intros y Hy; by apply elem_of_nil in Hy.
  - intros P HP Hin.
    assert (pair_inside P s l r) as Hin'.
    { apply inside_pair.
      - destruct Hor as [(-> & _)|(-> & -> & ->)]; [apply contract_inside|].
        destruct l; try apply Hin; destruct nominal; try done; apply Hin.
      - destruct Hor as [(-> & -> & ->)|(-> & _)]; [|apply contract_inside].
        destruct nominal; try done; apply Hin. }
    destruct (un_in _ _ _ _ _ U P HP Hin') as [V1 V2 V3 V4]. split; try done.
    + intros _ _ y. rewrite N2. intros Hy. by apply elem_of_nil in Hy.
    + intros rho d. destruct Hor as [(-> & -> & ->)|(-> & -> & ->)].
      * apply (nominal_exact P s s' nominal (contract_record nominal) r t); [done|apply U|done|done].
      * rewrite (nominal_exact P s s' nominal l (contract_record nominal) t l); [tauto|done|apply U| |done].
        intros; tauto.
Qed.
End Heads.

(** * Unification of two variables

    Two roots become one.  When both are bound, their bindings are detached
    while they are unified; the occurs checks before it make the two roots
    unreachable from either binding, so the nested unification leaves them
    alone. *)

Lemma solves_bind_unbound v t P s s' rho :
  P v = true -> type_parents s' = type_parents s -> effect_definitions s' = effect_definitions s ->
  substitutions s !! v = None -> substitutions s' = <[v := t]> (substitutions s) ->
  solves_in P s' rho <-> solves_in P s rho /\ instance rho t (type_value rho v).
Proof.
  intros Hv Hp He Hn Hs. rewrite (solves_bind v t P s s') by done. rewrite (solves_at v P s) by done.
  assert (binding_ok s rho v) by (intros u Hu; congruence). tauto.
Qed.

Lemma solves_detach left right lb rb P s rho :
  P left = true -> P right = true ->
  substitutions s !! left = Some lb -> substitutions s !! right = Some rb ->
  solves_in P s rho
  <-> solves_in P (detach left right s) rho
      /\ instance rho lb (type_value rho left) /\ instance rho rb (type_value rho right).
Proof.
  intros HPl HPr Hl Hr. unfold solves_in, effects_ok, binding_ok, detach. simpl.
  change (root_variable (with_substitutions _ s)) with (root_variable s). split.
  - intros (H1 & H2 & H3). split; [split; [done|split; [|done]]|].
    + intros x Hx t. rewrite !lookup_delete_Some. intros (_ & _ & Ht). eauto.
    + eauto.
  - intros ((H1 & H2 & H3) & H4 & H5). split; [done|]. split; [|done]. intros x Hx t Ht.
    destruct (decide (x = left)) as [->|]; [congruence|].
    destruct (decide (x = right)) as [->|]; [congruence|].
    apply (H2 x Hx). by rewrite !lookup_delete_ne by done.
Qed.

Lemma frame_detach left right P s :
  P left = true -> P right = true -> frame P s (detach left right s).
Proof.
  intros HPl HPr. split; [done|done|]. intros x _ HP. unfold detach; simpl.
  by rewrite !lookup_delete_ne by congruence.
Qed.

Lemma closed_detach left right P s : closed P s -> closed P (detach left right s).
Proof.
  intros Hc x y Hx (t & z & Ht & Hz & ->). eapply Hc; [exact Hx|]. exists t, z.
  unfold detach in Ht; simpl in Ht. rewrite !lookup_delete_Some in Ht. by destruct Ht as (_ & _ & ->).
Qed.

Lemma wf_detach left right s : wf s -> wf (detach left right s).
Proof.
  intros Hwf. apply fewer_bindings_wf; [done|]. intros v t. rewrite !lookup_delete_Some. tauto.
Qed.

Lemma variable_scope s v : v < length (type_parents s) -> in_scope s (IVariable v).
Proof.
  intros Hv. split; intros y Hy; [|by apply elem_of_nil in Hy]. by apply list_elem_of_singleton in Hy as ->.
Qed.

Lemma scope_variable s v : in_scope s (IVariable v) -> v < length (type_parents s).
Proof. intros [H _]. apply H. by apply list_elem_of_singleton. Qed.

Lemma inside_variable P s v : inside P s (IVariable v) <-> P (root_variable s v) = true.
Proof.
  split; [intros H; apply H; by apply list_elem_of_singleton|].
  intros H y Hy. by apply list_elem_of_singleton in Hy as ->.
Qed.

Section Variables.
Context (span : Span) (rec : InferType -> InferType -> infer unit InferType) (Hrec : unifier_ok rec).

Section Pair.
Context (s : Inference) (l0 r0 left right : nat) (Hwf : wf s).
Context (Hl0 : l0 < length (type_parents s)) (Hr0 : r0 < length (type_parents s)).
Context (El : left = root_variable s l0) (Er : right = root_variable s r0) (Hne : left <> right).

Lemma left_root : is_root s left.
Proof. rewrite El. apply root_is_root; [apply Hwf|done]. Qed.

Lemma right_root : is_root s right.
Proof. rewrite Er. apply root_is_root; [apply Hwf|done]. Qed.

(** [a] and [b] are the two roots in some order. *)
Definition the_two (a b : nat) : Prop := a = left /\ b = right \/ a = right /\ b = left.

Lemma the_two_roots a b : the_two a b -> is_root s a /\ is_root s b /\ a <> b.
Proof. pose proof left_root. pose proof right_root. intros [[-> ->]|[-> ->]]; done. Qed.

Lemma the_two_inside a b P :
  the_two a b -> inside P s (IVariable l0) -> inside P s (IVariable r0) -> P a = true /\ P b = true.
Proof. rewrite !inside_variable, <- El, <- Er. by intros [[-> ->]|[-> ->]]. Qed.

Lemma the_two_values a b P rho d :
  the_two a b -> inside P s (IVariable l0) -> inside P s (IVariable r0) -> solves_in P s rho ->
  type_value rho a = type_value rho b ->
  d = type_value rho b <-> d = type_value rho l0 /\ d = type_value rho r0.
Proof.
  rewrite !inside_variable. intros Hab HPl HPr (H1 & _ & _) E.
  pose proof (H1 l0 HPl) as V1. pose proof (H1 r0 HPr) as V2. rewrite <- El in V1. rewrite <- Er in V2.
  destruct Hab as [[-> ->]|[-> ->]]; naive_solver congruence.
Qed.

Lemma the_two_equal a b P rho d :
  the_two a b -> inside P s (IVariable l0) -> inside P s (IVariable r0) -> solves_in P s rho ->
  d = type_value rho l0 -> d = type_value rho r0 -> type_value rho a = type_value rho b.
Proof.
  rewrite !inside_variable. intros Hab HPl HPr (H1 & _ & _) E1 E2.
  pose proof (H1 l0 HPl) as V1. pose proof (H1 r0 HPr) as V2. rewrite <- El in V1. rewrite <- Er in V2.
  destruct Hab as [[-> ->]|[-> ->]]; congruence.
Qed.

Lemma alias_unified a b s' :
  the_two a b -> substitutions s !! a = None -> alias_variable a b span s = Some (Ok tt, s') ->
  unified s (IVariable l0) (IVariable r0) (IVariable b) s'.
Proof.
  intros Hab Hn H. destruct (the_two_roots a b Hab) as (Ha & Hb & Hd).
  destruct (alias_variable_keeps span a b s s' Hwf Ha Hb Hd Hn H) as (W & U & Ep & Es).
  pose proof (wf_rooted _ (wf_wf_core _ Hwf)) as Hr.
  assert (root_variable s' b = b) as Hrb.
  { rewrite (root_alias s s' a b b Hr Hd Ha Hb Ep), (root_of_root s Hr b Hb).
    destruct (Nat.eqb_spec b a); [congruence|done]. }
  split; try done.
  - by apply extends_updates.
  - apply variable_scope. rewrite (updates_length _ _ U). by eapply lookup_lt_Some.
  - intros P HP [Hil Hir]. destruct (the_two_inside a b P Hab Hil Hir) as [HPa HPb].
    split.
    + by apply (frame_alias a b).
    + by apply (closed_alias a b P s).
    + intros _ _. apply inside_variable. by rewrite Hrb.
    + intros rho d. rewrite (solves_alias a b P s s') by (done || apply U). simpl. split.
      * intros [[Hs E] Hd']. split; [done|]. by apply (the_two_values a b P).
      * intros (Hs & E1 & E2). pose proof (the_two_equal a b P rho d Hab Hil Hir Hs E1 E2) as E.
        split; [done|]. by apply (the_two_values a b P).
Qed.

(** ** Both bound *)

Context (lb rb : InferType).
Context (Hlb : substitutions s !! left = Some lb) (Hrb : substitutions s !! right = Some rb).
Context (Hol : occurs s left rb = false) (Hor : occurs s right lb = false).

Definition away : nat -> bool := both (avoids s left) (avoids s right).

Lemma away_closed : closed away (detach left right s).
Proof. apply closed_detach, both_closed; apply avoids_closed, Hwf. Qed.

Lemma away_left : away left = false.
Proof.
  unfold away, both. rewrite avoids_self; [done|apply Hwf|apply left_root].
Qed.

Lemma away_right : away right = false.
Proof. apply both_right_false, avoids_self; [apply Hwf|apply right_root]. Qed.

Lemma away_bindings : inside away s lb /\ inside away s rb.
Proof.
  pose proof left_root as Hl. pose proof right_root as Hr. pose proof (wf_wf_core _ Hwf) as Hc.
  assert (~ reaches s rb left) as N1.
  { apply occurs_false in Hol; [|done]. by rewrite (root_of_root s (wf_rooted _ Hc) left Hl) in Hol. }
  assert (~ reaches s lb right) as N2.
  { apply occurs_false in Hor; [|done]. by rewrite (root_of_root s (wf_rooted _ Hc) right Hr) in Hor. }
  pose proof (not_in_own_binding s Hwf left lb Hlb) as N3.
  pose proof (not_in_own_binding s Hwf right rb Hrb) as N4.
  split; apply both_inside; by apply avoids_inside.
Qed.

Lemma bindings_unifiable : unifiable (detach left right s) lb rb.
Proof.
  pose proof (wf_wf_core _ Hwf) as Hc.
  destruct (wf_binding _ Hc _ _ Hlb) as (? & ? & ?), (wf_binding _ Hc _ _ Hrb) as (? & ? & ?).
  split; try done; [by apply wf_detach|by right].
Qed.

Lemma closed_binding P x t : closed P s -> P x = true -> substitutions s !! x = Some t -> inside P s t.
Proof. intros HP Hx Ht y Hy. eapply HP; [exact Hx|]. by exists t, y. Qed.

Section Merged.
Context (u : InferType) (s1 : Inference).
Context (HU : unified (detach left right s) lb rb u s1).

Lemma merged_frame : frame away (detach left right s) s1.
Proof.
  destruct away_bindings as [I1 I2].
  apply (un_in _ _ _ _ _ HU away away_closed). by apply inside_pair.
Qed.

Lemma merged_roots x : the_two x left \/ the_two x right ->
  is_root s1 x /\ substitutions s1 !! x = None.
Proof.
  intros Hx.
  assert (is_root s x /\ away x = false /\ (x = left \/ x = right)) as (Hr & Ha & Hor').
  { pose proof left_root. pose proof right_root. pose proof away_left. pose proof away_right.
    destruct Hx as [[[-> _]|[-> _]]|[[-> _]|[-> _]]]; auto. }
  assert (x < length (type_parents s)) as Hlt by (by eapply lookup_lt_Some).
  pose proof merged_frame as F. pose proof (root_of_root s (wf_rooted _ (wf_wf_core _ Hwf)) x Hr) as Hrx.
  split.
  - apply root_iff; [apply (un_wf _ _ _ _ _ HU)| |].
    + by rewrite (extends_length _ _ (un_extends _ _ _ _ _ HU)).
    + by apply (frame_root_out _ _ _ _ F).
  - rewrite (frame_binding _ _ _ F x Hrx Ha). unfold detach; simpl.
    destruct Hor' as [->| ->]; [rewrite lookup_delete_ne by done|]; by rewrite lookup_delete_eq.
Qed.

(** The nested unification, seen from a set that holds both roots. *)
Lemma merged_in P :
  closed P s -> P left = true -> P right = true ->
  frame P (detach left right s) s1 /\ closed P s1 /\ inside P s1 u
  /\ exact_in P (detach left right s) lb rb u s1.
Proof.
  intros HP HPl HPr. destruct away_bindings as [I1 I2].
  set (Q := both P away). assert (closed Q (detach left right s)) as HQ.
  { apply both_closed; [by apply closed_detach|apply away_closed]. }
  assert (inside Q (detach left right s) lb /\ inside Q (detach left right s) rb) as [J1 J2].
  { split; apply both_inside; try done; (eapply closed_binding; [exact HP| |]; [|eassumption]; done). }
  destruct (un_in _ _ _ _ _ HU Q HQ (inside_pair _ _ _ _ J1 J2)) as [V1 V2 V3 V4].
  pose proof (both_left P away) as Hsub.
  pose proof (wf_wf_core _ (un_wf _ _ _ _ _ HU)) as Hc1.
  pose proof (wf_wf_core _ (wf_detach left right s Hwf)) as Hcd.
  split; [by apply (frame_weaken Q)|]. split; [|split].
  - apply (closed_weaken Q P (detach left right s)); try done. by apply closed_detach.
  - intros y Hy. apply Hsub. by apply (V3 J1 J2).
  - by apply (exact_weaken Q P).
Qed.

Lemma merge_unified a b s2 s' :
  the_two a b -> alias_variable a b span s1 = Some (Ok tt, s2) ->
  set_binding b u span s2 = Some (Ok tt, s') ->
  unified s (IVariable l0) (IVariable r0) (IVariable b) s'.
Proof.
  intros Hab Ha Hs. destruct (the_two_roots a b Hab) as (Hra & Hrb' & Hd).
  assert (is_root s1 a /\ substitutions s1 !! a = None) as [A1 A2].
  { apply merged_roots. destruct Hab as [[-> ->]|[-> ->]]; unfold the_two; tauto. }
  assert (is_root s1 b /\ substitutions s1 !! b = None) as [B1 B2].
  { apply merged_roots. destruct Hab as [[-> ->]|[-> ->]]; unfold the_two; tauto. }
  pose proof (un_wf _ _ _ _ _ HU) as W1.
  destruct (alias_variable_keeps span a b s1 s2 W1 A1 B1 Hd A2 Ha) as (W2 & U2 & Ep2 & Es2).
  assert (is_root s2 b) as B3 by (unfold is_root; rewrite Ep2; by rewrite list_lookup_insert_ne).
  destruct bindings_unifiable as [_ _ _ Hp _ _].
  pose proof (wf_wf_core _ Hwf) as Hc.
  assert (bindable s2 u) as Hbind.
  { split; [|apply HU|].
    - apply (un_head _ _ _ _ _ HU); eapply (wf_binding _ Hc); eassumption.
    - apply (extends_scope s1); [by apply extends_updates|apply HU]. }
  destruct (set_binding_keeps span b u s2 s' W2 B3 Hbind Hs) as (W3 & U3 & Ep3 & Es3).
  assert (extends s s') as Hext.
  { apply (extends_trans s (detach left right s)); [by split|].
    eapply extends_trans; [apply (un_extends _ _ _ _ _ HU)|].
    eapply extends_trans; [by apply extends_updates|by apply extends_updates]. }
  split; try done.
  - apply variable_scope. rewrite (extends_length _ _ Hext). by eapply lookup_lt_Some.
  - intros P HP [Hil Hir]. destruct (the_two_inside a b P Hab Hil Hir) as [HPa HPb].
    assert (P left = true /\ P right = true) as [HPl HPr] by (destruct Hab as [[-> ->]|[-> ->]]; done).
    destruct (merged_in P HP HPl HPr) as (F1 & C1 & I1 & E1).
    pose proof (wf_rooted _ (wf_wf_core _ W1)) as R1.
    assert (frame P s1 s2) as F2 by (by apply (frame_alias a b)).
    assert (frame P s2 s') as F3.
    { apply (frame_bind b); [done|done|]. intros x Hx. by rewrite Es3, lookup_insert_ne. }
    split.
    + eapply frame_trans; [by apply (frame_detach left right)|].
      eapply frame_trans; [exact F1|]. by eapply frame_trans.
    + apply (closed_bind b u P s2); [done|done|by eapply frame_inside|]. by apply (closed_alias a b P s1).
    + intros _ _. apply inside_variable. rewrite (root_of_root s'); [done|apply W3|].
      unfold is_root. by rewrite Ep3.
    + intros rho d.
      rewrite (solves_bind_unbound b u P s2 s') by (done || apply U3 || by rewrite Es2).
      rewrite (solves_alias a b P s1 s2) by (done || apply U2).
      rewrite (solves_detach left right lb rb P s) by done. simpl.
      specialize (E1 rho (type_value rho b)).
      pose proof (solves_detach left right lb rb P s rho HPl HPr Hlb Hrb) as Hdet. split.
      * intros [[[Hs1 E] Hu] Hd']. destruct (proj1 E1 (conj Hs1 Hu)) as (Hsd & Hl & Hr).
        assert (instance rho lb (type_value rho left) /\ instance rho rb (type_value rho right)) as [Hl' Hr'].
        { destruct Hab as [[-> ->]|[-> ->]]; [rewrite E in *|rewrite E in *]; done. }
        split; [done|]. apply (the_two_values a b P); try done. by apply Hdet.
      * intros ((Hsd & Hl & Hr) & D1 & D2).
        assert (solves_in P s rho) as Hss by (by apply Hdet).
        pose proof (the_two_equal a b P rho d Hab Hil Hir Hss D1 D2) as E.
        assert (instance rho lb (type_value rho b) /\ instance rho rb (type_value rho b)) as Hb.
        { destruct Hab as [[-> ->]|[-> ->]]; [rewrite <- E in *|rewrite <- E in *]; try done.
          all: by rewrite ?E in *. }
        destruct (proj2 E1 (conj Hsd Hb)) as [Hs1 Hu]. split; [done|]. by apply (the_two_values a b P).
Qed.
End Merged.
End Pair.
End Variables.
