(* ===== verification/UnifyFacts.v ===== *)
(** * Unification is exact

    Binding a variable to a type, and the unifier as a whole.  A bound
    variable is rebound to the unification of its binding with the type, which
    may mention the variable; the unifier then fails, because either no tree
    contains itself or the heights of the cycle exceed their bound. *)

From S2P Require Import Prelude BTree Syntax Sorting Types Parser Infer InferWf OccursFacts TypeTrees.
From S2P Require Import UnifyParts UnifyVars.

#[local] Open Scope nat_scope.

Implicit Types (P Q : nat -> bool) (s : Inference) (rho : Valuation).

Lemma pair_inside_sym P s l r : pair_inside P s l r -> pair_inside P s r l.
Proof.
  destruct l, r; simpl; try tauto. intros H n a b Ha Hb. destruct (H n b a Hb Ha). done.
Qed.

Lemma unified_sym s l r t s' : unified s l r t s' -> unified s r l t s'.
Proof.
  intros [U1 U2 U3 U4 U5 U6 U7]. split; try done; [auto..|]. intros P HP Hin.
  destruct (U7 P HP (pair_inside_sym _ _ _ _ Hin)) as [V1 V2 V3 V4]. split; try done; [auto|].
  intros rho d. rewrite (V4 rho d). tauto.
Qed.

Lemma solves_subset Q P s rho : subset Q P -> solves_in P s rho -> solves_in Q s rho.
Proof. intros Hsub (H1 & H2 & H3). split; [auto|]. split; [auto|done]. Qed.

(** ** A type that contains the variable *)

Section Infinite.
Context (span : Span) (s : Inference) (v : nat) (existing ty u : InferType) (s1 s' : Inference).
Context (Hwf : wf s) (Hv : is_root s v) (He : substitutions s !! v = Some existing).
Context (Hty : solid ty) (Hn : is_variable ty = false) (Hr : reaches s ty v).
Context (HU : unified s existing ty u s1).

Let Hcore : wf_core s := wf_wf_core _ Hwf.

Lemma solution_fits :
  exists rho, solves s rho /\ instance rho existing (tree_of rho ty)
    /\ instance rho existing (type_value rho v)
    /\ forall t, reaches s t v ->
         tree_size (type_value rho v) + (if is_variable t then 0 else 1) <= tree_size (tree_of rho t).
Proof.
  exists (solution s1). set (rho := solution s1).
  pose proof (solution_solves s1 (un_wf _ _ _ _ _ HU)) as Hs1.
  destruct (un_in _ _ _ _ _ HU everywhere (closed_everywhere s) (pair_inside_everywhere _ _ _)) as [_ _ _ Hex].
  destruct (proj1 (Hex rho (tree_of rho u))) as (Hs & H1 & H2).
  { split; [done|]. apply instance_tree_of, HU. }
  apply instance_solid in H2; [|done]. rewrite H2 in H1. split; [done|]. split; [done|].
  split; [by apply Hs|]. intros t. by apply reaches_size.
Qed.

Lemma existing_open : exists fl fr, existing = IRecord fl true /\ ty = IRecord fr false.
Proof.
  destruct solution_fits as (rho & _ & H1 & H2 & Hsize). specialize (Hsize ty Hr). rewrite Hn in Hsize.
  destruct (instance_cases _ _ _ H1) as [[fl ->]|E1].
  - exists fl. destruct H1 as (gs & E & _). destruct Hr as (y & Hy & _).
    destruct ty as [| | | | | | | | | | | | |fr o| | | |]; try done; try (by apply elem_of_nil in Hy).
    destruct Hty as [-> _]. eauto.
  - destruct (instance_cases _ _ _ H2) as [[fl ->]|E2].
    + exists fl. destruct H1 as (gs & E & _). destruct Hr as (y & Hy & _).
      destruct ty as [| | | | | | | | | | | | |fr o| | | |]; try done; try (by apply elem_of_nil in Hy).
      destruct Hty as [-> _]. eauto.
    + rewrite E1, E2 in Hsize. lia.
Qed.

Lemma common_avoid : pair_inside (avoids s v) s existing ty.
Proof.
  destruct existing_open as (fl & fr & E1 & E2).
  destruct solution_fits as (rho & _ & H1 & H2 & Hsize). rewrite E1, E2 in *.
  intros n a b Ha Hb. simpl in H1, H2. destruct H1 as (gs & [= <-] & _ & Hg), H2 as (gv & Ev & _ & Hgv).
  split; apply avoids_inside; try done.
  - intros (y & Hy & Hrea). apply (not_in_own_binding s Hwf v _ He). exists y. split; [|done].
    apply elem_of_record_vars. exists (n, a). split; [by apply bt_get_elem|done].
  - intros Hb'. apply Hsize in Hb'. pose proof (tree_size_field _ _ _ (Hgv n a Ha)) as Hlt.
    apply Hg in Ha. rewrite (bt_get_map (tree_of rho) fr), Hb in Ha. injection Ha as Ha.
    rewrite Ev, Ha in Hb'. lia.
Qed.

Lemma rebinding_untouched :
  frame (avoids s v) s s1 /\ is_root s1 v /\ substitutions s1 !! v = Some existing.
Proof.
  destruct (un_in _ _ _ _ _ HU _ (avoids_closed s v Hcore) common_avoid) as [F _ _ _].
  pose proof (avoids_self s v Hcore Hv) as Hself.
  pose proof (root_of_root s (wf_rooted _ Hcore) v Hv) as Hrv. split; [done|]. split.
  - apply root_iff; [apply (un_wf _ _ _ _ _ HU)| |by eapply frame_root_out].
    rewrite (extends_length _ _ (un_extends _ _ _ _ _ HU)). by eapply lookup_lt_Some.
  - by rewrite (frame_binding _ _ _ F v Hrv Hself).
Qed.

Lemma rebinding_bindable : bindable s1 u.
Proof.
  split; [|apply HU|apply HU]. apply (un_head _ _ _ _ _ HU); [|done]. by eapply (wf_binding _ Hcore).
Qed.

Lemma infinite_type_fails : set_binding v u span s1 <> Some (Ok tt, s').
Proof.
  intros Hset. destruct rebinding_untouched as (F & Hv1 & Hb1).
  destruct (set_binding_keeps span v u s1 s' (un_wf _ _ _ _ _ HU) Hv1 rebinding_bindable Hset)
    as (W & U & Ep & Es).
  pose proof (solution_solves s' W) as Hsol. set (rho := solution s') in *.
  assert (forall z, avoids s v (root_variable s z) = false ->
            type_value rho z = type_value rho (root_variable s z)) as Hout.
  { intros z Hz. destruct Hsol as (Heq & _). rewrite (Heq z eq_refl).
    by rewrite (root_same_parents s1 s' z Ep), (frame_out _ _ _ F z Hz). }
  assert (forall x, rtc (child s) x v -> avoids s v x = false \/ x = v) as Hav.
  { intros x Hx. inversion Hx as [|? y ? Hc _]; subst; [by right|left].
    apply avoids_false; [done|]. destruct Hc as (t & z & Ht & _).
    by rewrite (key_root s x t Hcore Ht), (root_of_root s (wf_rooted _ Hcore) v Hv). }
  assert (avoids s v v = false) as Hself by (by apply avoids_self).
  assert (forall x, rtc (child s) x v -> tree_size (type_value rho v) <= tree_size (type_value rho x)) as Hpath.
  { apply (rtc_ind_l (R := child s) (fun x => tree_size (type_value rho v) <= tree_size (type_value rho x)));
      [done|]. intros x y (t & z & Ht & Hz & ->) Hyw IH.
    destruct (decide (x = v)) as [->|Hne]; [done|].
    pose proof (key_root s x t Hcore Ht) as Hrx.
    assert (avoids s v x = false) as Hxq.
    { destruct (Hav x) as [|]; [|done|done]. eapply rtc_l; [|exact Hyw]. by exists t, z. }
    assert (instance rho t (type_value rho x)) as Hi.
    { apply Hsol; [done|]. rewrite Es, lookup_insert_ne by done.
      by rewrite (frame_binding _ _ _ F x Hrx Hxq). }
    destruct (wf_binding _ Hcore _ _ Ht) as (Htn & Hth & _).
    pose proof (instance_size rho t _ z Hth Htn Hz Hi) as Hlt.
    rewrite (Hout z) in Hlt; [lia|]. destruct (Hav _ Hyw) as [|E]; [done|by rewrite E]. }
  destruct (un_in _ _ _ _ _ HU _ (avoids_closed s v Hcore) common_avoid) as [_ _ _ Hex].
  apply (solves_bind v u everywhere s1 s' rho) in Hsol as (Hw & _ & Hu); [|done|done|apply U|done].
  destruct (proj1 (Hex rho (type_value rho v))) as (_ & _ & Hi).
  { split; [|done]. eapply solves_subset; [|exact Hw]. intros x Hx. apply without_spec.
    split; [|done]. congruence. }
  apply instance_solid in Hi; [|done]. destruct Hr as (y & Hy & Hyv).
  pose proof (Hpath _ Hyv) as Hle. pose proof (tree_size_variable rho ty y Hy) as Hlt.
  rewrite Hn, <- Hi in Hlt. rewrite <- (Hout y) in Hle; [lia|].
  destruct (Hav _ Hyv) as [|E]; [done|by rewrite E].
Qed.
End Infinite.

(** Whether or not the type contains the variable, unifying it with the
    binding leaves the variable alone. *)
Lemma rebound_untouched s v existing ty u s1 :
  wf s -> is_root s v -> substitutions s !! v = Some existing -> solid ty -> is_variable ty = false ->
  unified s existing ty u s1 ->
  is_root s1 v /\ substitutions s1 !! v = Some existing /\ bindable s1 u.
Proof.
  intros Hwf Hv He Hty Hn HU. pose proof (wf_wf_core _ Hwf) as Hc.
  pose proof (root_of_root s (wf_rooted _ Hc) v Hv) as Hrv.
  pose proof (rebinding_bindable s v existing ty u s1 Hwf He Hn HU) as Hb.
  destruct (occurs s v ty) eqn:O.
  - apply occurs_reaches in O; [|done]. rewrite Hrv in O.
    by destruct (rebinding_untouched s v existing ty u s1 Hwf Hv He Hty Hn O HU) as (_ & ? & ?).
  - apply occurs_false in O; [|done]. rewrite Hrv in O.
    assert (inside (avoids s v) s existing) as A1.
    { apply avoids_inside; [done|done|]. by apply (not_in_own_binding s Hwf v). }
    assert (inside (avoids s v) s ty) as A2 by (by apply avoids_inside).
    destruct (un_in _ _ _ _ _ HU _ (avoids_closed s v Hc) (inside_pair _ _ _ _ A1 A2)) as [F _ _ _].
    pose proof (avoids_self s v Hc Hv) as Hself. split; [|split; [|done]].
    + apply root_iff; [apply (un_wf _ _ _ _ _ HU)| |by eapply frame_root_out].
      rewrite (extends_length _ _ (un_extends _ _ _ _ _ HU)). by eapply lookup_lt_Some.
    + by rewrite (frame_binding _ _ _ F v Hrv Hself).
Qed.

Section Step.
Context (span : Span) (rec : InferType -> InferType -> infer unit InferType) (Hrec : unifier_ok rec).

(** ** Binding a variable *)

Section Bind.
Context (s : Inference) (v0 v : nat) (ty : InferType).
Context (Hwf : wf s) (Hv0 : v0 < length (type_parents s)) (Ev : v = root_variable s v0).
Context (Hty : solid ty) (Hn : is_variable ty = false) (Hsc : in_scope s ty).

Let Hcore : wf_core s := wf_wf_core _ Hwf.

Lemma bound_root : is_root s v.
Proof. rewrite Ev. apply root_is_root; [apply Hcore|done]. Qed.

Lemma bound_inside P : pair_inside P s (IVariable v0) ty -> P v = true /\ inside P s ty.
Proof. intros [H1 H2]. rewrite inside_variable, <- Ev in H1. done. Qed.

Lemma bound_value P rho : P v = true -> solves_in P s rho -> type_value rho v0 = type_value rho v.
Proof. intros HP (H1 & _). rewrite Ev. apply H1. by rewrite <- Ev. Qed.

Lemma bind_unbound s' :
  substitutions s !! v = None -> set_binding v ty span s = Some (Ok tt, s') ->
  unified s (IVariable v0) ty (IVariable v) s'.
Proof.
  intros Hnone Hset. pose proof bound_root as Hv.
  destruct (set_binding_keeps span v ty s s' Hwf Hv) as (W & U & Ep & Es); [|done|].
  { split; [done|by apply solid_headed|done]. }
  split; try done.
  - by apply extends_updates.
  - apply variable_scope. rewrite Ep. by eapply lookup_lt_Some.
  - intros P HP [HPv Hin]%bound_inside. split.
    + apply (frame_bind v); [done|done|]. intros x Hx. by rewrite Es, lookup_insert_ne.
    + by apply (closed_bind v ty P s).
    + intros _ _. apply inside_variable. rewrite (root_of_root s'); [done|apply W|].
      unfold is_root. by rewrite Ep.
    + intros rho d. rewrite (solves_bind_unbound v ty P s s') by (done || apply U). simpl. split.
      * intros [[Hs Hi] ->]. by rewrite (bound_value P).
      * intros (Hs & -> & Hi). rewrite (bound_value P) in * by done. done.
Qed.

Section Rebind.
Context (existing u : InferType) (s1 s' : Inference).
Context (He : substitutions s !! v = Some existing).
Context (HU : unified s existing ty u s1) (Hset : set_binding v u span s1 = Some (Ok tt, s')).

Lemma rebind_avoids : inside (avoids s v) s existing /\ inside (avoids s v) s ty.
Proof.
  pose proof bound_root as Hv. split; apply avoids_inside; try done.
  - by apply (not_in_own_binding s Hwf v).
  - intros Hr. by eapply (infinite_type_fails span s v existing ty u s1 s').
Qed.

Lemma rebind_root P : P v = true -> frame (both P (avoids s v)) s s1 ->
  forall z, root_variable s1 z = v <-> root_variable s z = v.
Proof.
  intros HPv F z. assert (both P (avoids s v) v = false) as Hb.
  { apply both_right_false, avoids_self; [done|apply bound_root]. }
  split; intros E.
  - destruct (both P (avoids s v) (root_variable s z)) eqn:Eq.
    + apply (frame_in _ _ _ F) in Eq. rewrite E in Eq. congruence.
    + by rewrite <- (frame_out _ _ _ F z Eq).
  - rewrite (frame_out _ _ _ F z); [done|by rewrite E].
Qed.

Lemma rebind_unified : unified s (IVariable v0) ty (IVariable v) s'.
Proof.
  pose proof bound_root as Hv. destruct rebind_avoids as [A1 A2].
  pose proof (wf_wf_core _ (un_wf _ _ _ _ _ HU)) as Hc1.
  destruct (rebound_untouched s v existing ty u s1 Hwf Hv He Hty Hn HU) as (Hv1 & _ & Hb).
  destruct (set_binding_keeps span v u s1 s' (un_wf _ _ _ _ _ HU) Hv1 Hb Hset) as (W & U & Ep & Es).
  assert (extends s s') as Hext.
  { eapply extends_trans; [apply HU|by apply extends_updates]. }
  split; try done.
  - apply variable_scope. rewrite (extends_length _ _ Hext). by eapply lookup_lt_Some.
  - intros P HP [HPv Hin]%bound_inside. set (Q := both P (avoids s v)).
    assert (closed Q s) as HQ by (apply both_closed; [done|by apply avoids_closed]).
    assert (inside P s existing) as Hie by (by eapply closed_binding).
    assert (inside Q s existing /\ inside Q s ty) as [J1 J2] by (split; by apply both_inside).
    destruct (un_in _ _ _ _ _ HU Q HQ (inside_pair _ _ _ _ J1 J2)) as [V1 V2 V3 V4].
    pose proof (both_left P (avoids s v)) as Hsub.
    assert (subset Q (without v P)) as Hsubv.
    { intros x Hx. apply without_spec. split; [|by apply Hsub]. intros ->. apply both_spec in Hx as [_ Hx].
      rewrite avoids_self in Hx; done. }
    assert (frame P s1 s') as F2.
    { apply (frame_bind v); [done|done|]. intros x Hx. by rewrite Es, lookup_insert_ne. }
    split.
    + eapply frame_trans; [by apply (frame_weaken Q)|done].
    + apply (closed_bind v u P s1); [done|done| |by apply (closed_weaken Q P s)].
      intros y Hy. apply Hsub. by apply (V3 J1 J2).
    + intros _ _. apply inside_variable. rewrite (root_of_root s'); [done|apply W|].
      unfold is_root. by rewrite Ep.
    + pose proof (exact_weaken Q (without v P) s s1 existing ty u Hcore Hc1 Hsubv V1 V4) as Hex.
      intros rho d. rewrite (solves_bind v u P s1 s') by (done || apply U).
      setoid_rewrite (rebind_root P HPv V1). specialize (Hex rho (type_value rho v)).
      pose proof (solves_at v P s rho HPv) as Hat.
      assert (binding_ok s rho v <-> instance rho existing (type_value rho v)) as Hbo.
      { unfold binding_ok. rewrite He. naive_solver. }
      simpl. split.
      * intros [(Hw & Heq & Hi) ->]. destruct (proj1 Hex (conj Hw Hi)) as (Hs & He' & Ht).
        assert (solves_in P s rho) as Hss by tauto. by rewrite (bound_value P).
      * intros (Hs & -> & Hi). rewrite (bound_value P) in * by done. apply Hat in Hs as (Hs & Heq & Hbs).
        destruct (proj2 Hex (conj Hs (conj (proj1 Hbo Hbs) Hi))). done.
Qed.
End Rebind.

Lemma bind_ok t s' :
  bind_variable span rec v0 ty s = Some (Ok t, s') -> unified s (IVariable v0) ty t s'.
Proof.
  unfold bind_variable. rewrite <- Ev. intros H.
  assert (match substitutions s !! v with
          | Some existing =>
              (let* unified := rec existing ty in
               let* _ := discard (set_binding v unified span) in infer_ret (IVariable v)) s
          | None =>
              if occurs s v ty then Some (Err tt, s)
              else (let* _ := discard (set_binding v ty span) in infer_ret (IVariable v)) s
          end = Some (Ok t, s')) as H' by (by destruct ty). clear H.
  destruct (substitutions s !! v) as [existing|] eqn:He.
  - infer_ok H'. injection H' as <- <-. destruct a0. rewrite discard_Ok in E0.
    destruct (wf_binding _ Hcore _ _ He) as (X1 & X2 & X3).
    eapply rebind_unified; [done| |exact E0]. eapply Hrec; [|exact E].
    split; try done; [by apply solid_headed|by right].
  - destruct (occurs s v ty); [done|]. infer_ok H'. injection H' as <- <-. destruct a.
    rewrite discard_Ok in E. by apply bind_unbound.
Qed.
End Bind.

(** ** Two variables *)

Lemma variables_ok s l0 r0 t s' :
  unifiable s (IVariable l0) (IVariable r0) ->
  unify_variables span rec l0 r0 s = Some (Ok t, s') ->
  unified s (IVariable l0) (IVariable r0) t s'.
Proof.
  intros [Hwf _ _ _ Hl%scope_variable Hr%scope_variable]. unfold unify_variables.
  destruct (Nat.eqb_spec (root_variable s l0) (root_variable s r0)) as [E|Hne].
  { intros [= <- <-]. split; try done.
    - apply variable_scope, root_lt; [apply Hwf|done].
    - intros P HP [Hil Hir]. rewrite inside_variable in Hil, Hir. split; try done.
      + intros _ _. apply inside_variable. by rewrite root_idem by apply Hwf.
      + intros rho d. simpl. split; (intros [Hs Hd]; split; [done|]).
        * destruct Hs as (H1 & _). rewrite (H1 l0 Hil), (H1 r0 Hir), <- E. done.
        * destruct Hs as (H1 & _). destruct Hd as [-> _]. by rewrite (H1 l0 Hil). }
  set (left := root_variable s l0) in *. set (right := root_variable s r0) in *.
  assert (the_two left right (Nat.max left right) (Nat.min left right)) as Hmm.
  { unfold the_two. lia. }
  destruct (substitutions s !! left) as [lb|] eqn:Hlb, (substitutions s !! right) as [rb|] eqn:Hrb.
  - destruct (occurs s left rb) eqn:O1; [done|]. destruct (occurs s right lb) eqn:O2; [done|]. simpl.
    destruct (rec lb rb (detach left right s)) as [[[u|] s1]|] eqn:Eu; [|done|done].
    destruct (occurs s1 left u || occurs s1 right u); [done|]. intros H. infer_ok H.
    injection H as <- <-. destruct a, a0. rewrite discard_Ok in E, E0.
    eapply (merge_unified span s l0 r0 left right Hwf Hl Hr eq_refl eq_refl Hne lb rb Hlb Hrb O1 O2 u s1);
      [|exact Hmm|exact E|exact E0].
    eapply Hrec; [|exact Eu]. by apply bindings_unifiable.
  - destruct (occurs s right lb); [done|]. intros H. infer_ok H. injection H as <- <-. destruct a.
    rewrite discard_Ok in E.
    eapply (alias_unified span s l0 r0 left right Hwf Hl Hr eq_refl eq_refl Hne right left); [by right|done|done].
  - destruct (occurs s left rb); [done|]. intros H. infer_ok H. injection H as <- <-. destruct a.
    rewrite discard_Ok in E.
    eapply (alias_unified span s l0 r0 left right Hwf Hl Hr eq_refl eq_refl Hne left right); [by left|done|done].
  - intros H. infer_ok H. injection H as <- <-. destruct a. rewrite discard_Ok in E.
    eapply (alias_unified span s l0 r0 left right Hwf Hl Hr eq_refl eq_refl Hne (Nat.max left right));
      [exact Hmm| |done].
    destruct (Nat.max_spec left right) as [[_ ->]|[_ ->]]; done.
Qed.

(** ** The body of the unifier *)

Lemma bind_left_ok s v ty t s' :
  is_variable ty = false -> unifiable s (IVariable v) ty ->
  bind_variable span rec v ty s = Some (Ok t, s') -> unified s (IVariable v) ty t s'.
Proof.
  intros Hn [U1 _ _ [[_ Hs]|[U4 _]] U5%scope_variable U6]; [|done]. by apply (bind_ok s v (root_variable s v) ty).
Qed.

Lemma unifiable_sym s l r : unifiable s l r -> unifiable s r l.
Proof. intros [U1 U2 U3 U4 U5 U6]. split; try done. destruct U4; [left|right]; tauto. Qed.

Lemma one_child_ok (mk : InferType -> InferType) (mkt : Tree -> Tree) s l r t s' :
  (forall u, node (mk u) [u]) -> (forall rho u, tree_of rho (mk u) = mkt (tree_of rho u)) ->
  (forall d e, mkt d = mkt e -> d = e) -> (forall s u, in_scope s (mk u) <-> in_scope s u) ->
  solid (mk l) -> solid (mk r) -> unifiable s (mk l) (mk r) -> rec l r s = Some (Ok t, s') ->
  unified s (mk l) (mk r) (mk t) s'.
Proof.
  intros Hnode Htree Hinj Hscope Hl Hr [U1 _ _ _ U5 U6] H.
  assert (unified_children s [l] [r] [t] s') as C.
  { eapply (children_ok rec Hrec); [done|done|by apply (node_solid _ _ (Hnode l))|
      by apply (node_solid _ _ (Hnode r))|exact (node_scope s _ _ (Hnode l) U5)|
      exact (node_scope s _ _ (Hnode r) U6)|]. simpl. unfold infer_bind. by rewrite H. }
  eapply compound_ok; try done; try apply Hnode.
  - apply Hscope. pose proof (ch_scope _ _ _ _ _ C) as Hs. by rewrite Forall_singleton in Hs.
  - intros rho. rewrite !Htree. simpl. split; [by intros ->%Hinj|by intros [= ->]].
  - intros rho. rewrite !Htree. by intros [= ->].
Qed.

Lemma result_ok s lv le rv re v e s1 s' :
  unifiable s (IResult lv le) (IResult rv re) ->
  rec lv rv s = Some (Ok v, s1) -> rec le re s1 = Some (Ok e, s') ->
  unified s (IResult lv le) (IResult rv re) (IResult v e) s'.
Proof.
  intros U H1 H2. destruct (solid_pair _ _ _ U eq_refl eq_refl) as [Hl Hr]. destruct U as [U1 _ _ _ U5 U6].
  assert (unified_children s [lv; le] [rv; re] [v; e] s') as C.
  { eapply (children_ok rec Hrec); [done|done|by apply (node_solid _ _ (node_result lv le))|
      by apply (node_solid _ _ (node_result rv re))|exact (node_scope s _ _ (node_result lv le) U5)|
      exact (node_scope s _ _ (node_result rv re) U6)|].
    simpl. unfold infer_bind. by rewrite H1, H2. }
  pose proof (ch_scope _ _ _ _ _ C) as Hs. rewrite Forall_cons, Forall_singleton in Hs.
  destruct Hs as [[S1 S2] [S3 S4]].
  eapply compound_ok; try done; try apply node_result.
  - split; intros y Hy; simpl in Hy; apply elem_of_app in Hy as [Hy|Hy]; auto.
  - intros rho. simpl. split; [by intros [= -> ->]|by intros [= -> ->]].
  - intros rho. simpl. by intros [= -> ->].
Qed.

Lemma unify_step_ok : unifier_ok (unify_step span rec).
Proof.
  intros s l r t s' U H. pose proof (ua_wf _ _ _ U) as Hwf.
  destruct (is_variable l) eqn:Vl.
  { destruct l; try done. destruct (is_variable r) eqn:Vr.
    - destruct r; try done. by apply variables_ok.
    - apply bind_left_ok; [done|done|]. by destruct r. }
  destruct (is_variable r) eqn:Vr.
  { destruct r; try done. apply unified_sym, bind_left_ok; [done|by apply unifiable_sym|]. by destruct l. }
  destruct l, r; try discriminate; simpl in H;
    try (injection H as <- <-; apply leaf_ok; try done; simpl; tauto).
  all: try (apply infer_bind_Ok in H as (u & s1 & Hu & [= <- <-]);
            (eapply nominal_unified; [reflexivity|eapply Hrec; [|exact Hu]|by left]) ||
            (eapply nominal_unified; [reflexivity|eapply Hrec; [|exact Hu]|by right]);
            destruct U as [_ U2 U3 _ U5 U6]; split;
            [done|try done; apply solid_headed, contract_solid|try done; apply solid_headed, contract_solid|
             by right|try done; apply contract_scope|try done; apply contract_scope]).
  - apply infer_bind_Ok in H as (u & s1 & Hu & [= <- <-]).
    destruct (solid_pair _ _ _ U eq_refl eq_refl). eapply (one_child_ok IList TList);
      [apply node_list|done|by intros d e [= ->]|done|done|done|done|exact Hu].
  - by apply records_ok with rec.
  - apply infer_bind_Ok in H as (u & s1 & Hu & [= <- <-]).
    destruct (solid_pair _ _ _ U eq_refl eq_refl). eapply (one_child_ok IOption TOption);
      [apply node_option|done|by intros d e [= ->]|done|done|done|done|exact Hu].
  - infer_ok H. injection H as <- <-. by eapply result_ok.
  - destruct (Nat.eqb_spec (length parameters) (length parameters0)) as [Hlen|]; [|done].
    infer_ok H. injection H as <- <-. by eapply function_ok.
Qed.
End Step.

Lemma unify_inner_ok span fuel : unifier_ok (unify_inner span fuel).
Proof.
  induction fuel as [|fuel IH]; [by intros s l r t s' _ H|]. simpl. by apply unify_step_ok.
Qed.
