(* ===== verification/UnifyComplete.v ===== *)
(** * Unification fails only where it must

    On types without nominal types, an error that is not the depth limit
    means that no valuation gives both types one tree.  (Nominal types are
    left out because the code tells them apart by name, and because two
    [QueueJob]s or two [ScheduleEvent]s do not unify; see [UnifyResults].) *)

From S2P Require Import Prelude BTree Syntax Sorting Types Parser Infer InferWf OccursFacts TypeTrees.
From S2P Require Import UnifyParts UnifyVars UnifyFacts.

#[local] Open Scope nat_scope.

Implicit Types (P Q : nat -> bool) (s : Inference) (rho : Valuation).

(** ** Types without nominal types *)

Fixpoint plain (ty : InferType) : bool :=
  match ty with
  | IHttpHeader | IHttpRequest | IHttpResponse | ILogField | IQueueJob | IScheduleEvent => false
  | IList t | IOption t => plain t
  | IResult t u => plain t && plain u
  | IRecord fs _ => forallb (fun f => plain (snd f)) fs
  | IFunction ps r _ => forallb plain ps && plain r
  | _ => true
  end.

Definition plain_state s : Prop := forall v t, substitutions s !! v = Some t -> plain t = true.

Lemma plain_record fs o :
  bt_sorted fs ->
  plain (IRecord fs o) = true <-> forall n t, bt_get n fs = Some t -> plain t = true.
Proof.
  intros Hs. simpl. rewrite forallb_forall. split.
  - intros H n t Ht%bt_get_elem. apply (H (n, t)). by apply list_elem_of_In.
  - intros H [n t] Hin. eapply H, bt_elem_get; [done|]. by apply list_elem_of_In.
Qed.

Lemma plain_bind s s' v t :
  plain_state s -> plain t = true -> substitutions s' = <[v := t]> (substitutions s) -> plain_state s'.
Proof.
  intros Hs Ht E w u. rewrite E. intros [[<- <-]|[_ Hw]]%lookup_insert_Some; [done|]. by eapply Hs.
Qed.

Lemma plain_detach left right s : plain_state s -> plain_state (detach left right s).
Proof.
  intros Hs v t. unfold detach; simpl. rewrite !lookup_delete_Some. intros (_ & _ & H). by eapply Hs.
Qed.

Definition plain_keeper (rec : InferType -> InferType -> infer unit InferType) : Prop :=
  forall s l r t s', unifiable s l r -> plain_state s -> plain l = true -> plain r = true ->
    rec l r s = Some (Ok t, s') -> plain_state s' /\ plain t = true.

(** No tree is common to the two types. *)
Definition refutes s (l r : InferType) : Prop :=
  forall rho d, solves s rho -> instance rho l d -> instance rho r d -> False.

Definition completes (rec : InferType -> InferType -> infer unit InferType) : Prop :=
  forall s l r s', unifiable s l r -> plain_state s -> plain l = true -> plain r = true ->
    rec l r s = Some (Err tt, s') -> type_depth_error s' = None -> refutes s l r.

Lemma infer_bind_Err {E A B} (m : infer E A) (k : A -> infer E B) s e s' :
  infer_bind m k s = Some (Err e, s')
  <-> m s = Some (Err e, s') \/ exists a s1, m s = Some (Ok a, s1) /\ k a s1 = Some (Err e, s').
Proof. unfold infer_bind. destruct (m s) as [[[a|e'] s1]|]; naive_solver. Qed.

Lemma discard_Err {E A} (m : infer E A) s e s' :
  discard m s = Some (Err e, s') <-> exists e', m s = Some (Err e', s').
Proof. destruct e. unfold discard, infer_map_err. destruct (m s) as [[[b|e] s1]|]; naive_solver. Qed.

Lemma set_binding_no_error span v t s e s' :
  discard (set_binding v t span) s = Some (Err e, s') -> type_depth_error s' = None -> False.
Proof. rewrite discard_Err. intros (e' & H%set_binding_error) Hn. rewrite Hn in H. by destruct H. Qed.

Lemma alias_no_error span a b s e s' :
  discard (alias_variable a b span) s = Some (Err e, s') -> type_depth_error s' = None -> False.
Proof. rewrite discard_Err. intros (e' & H%alias_variable_error) Hn. rewrite Hn in H. by destruct H. Qed.

(** What the operations do to the bindings, whatever they return. *)
Lemma refresh_substitutions span fuel pending s r s' :
  refresh fuel pending span s = Some (r, s') -> substitutions s' = substitutions s.
Proof.
  revert pending s; induction fuel as [|fuel IH]; intros pending s; [done|].
  cbn -[resolved_height TYPE_DEPTH Nat.leb Nat.ltb].
  repeat case_match; try (by intros [= <- <-]); try apply IH. intros Hr%IH. by rewrite Hr.
Qed.

Lemma alias_substitutions span a b s r s' :
  alias_variable a b span s = Some (r, s') -> substitutions s' = substitutions s.
Proof.
  destruct (alias_unfold span a b s) as (s2 & pending & -> & _ & E & _).
  intros H%refresh_substitutions. congruence.
Qed.

Lemma set_binding_substitutions span v t s r s' :
  set_binding v t span s = Some (r, s') -> substitutions s' = <[v := t]> (substitutions s).
Proof.
  unfold set_binding. destruct (add_dependents_spec v (mentioned_roots s t) s) as (d & E & _). rewrite E.
  unfold refresh_type_heights. intros H%refresh_substitutions. by rewrite H.
Qed.

Section Complete.
Context (span : Span) (rec : InferType -> InferType -> infer unit InferType).
Context (Hrec : unifier_ok rec) (Hplain : plain_keeper rec) (Hcomp : completes rec).

(** ** What stays plain *)

Lemma fields_plain fl fr names : forall fields s fields' s',
  wf s -> fields_typed s fl -> fields_typed s fr -> plain_state s -> bt_sorted fields ->
  (forall n t, bt_get n fl = Some t -> plain t = true) ->
  (forall n t, bt_get n fr = Some t -> plain t = true) ->
  (forall n t, bt_get n fields = Some t -> plain t = true) ->
  unify_fields rec fl fr names fields s = Some (Ok fields', s') ->
  plain_state s' /\ forall n t, bt_get n fields' = Some t -> plain t = true.
Proof.
  induction names as [|name names IH]; intros fields s fields' s' Hwf Tl Tr Hs Hso Pl Pr Pf H; simpl in H.
  { by injection H as <- <-. }
  destruct (bt_get name fields) as [t0|] eqn:Ename; [by eapply (IH fields s)|].
  apply infer_bind_Ok in H as (ty & s1 & Hty & H).
  destruct (field_step rec Hrec fl fr name s ty s1 Hwf Tl Tr Hty) as (S1 & S2 & S3 & S4 & _).
  assert (plain_state s1 /\ plain ty = true) as [P1 P2].
  { destruct (bt_get name fl) as [a|] eqn:Ea, (bt_get name fr) as [b|] eqn:Eb;
      [|injection Hty as <- <-; split; [done|by eauto]..|done].
    eapply Hplain; [|done|by eapply Pl|by eapply Pr|exact Hty].
    destruct (Tl _ _ Ea), (Tr _ _ Eb). by apply solid_unifiable. }
  eapply (IH (bt_insert name ty fields) s1); try done;
    [by eapply fields_typed_extends..|by apply bt_insert_sorted|].
  intros n t. rewrite bt_get_insert by done. case_decide; [by intros [= <-]|apply Pf].
Qed.

Lemma parameters_plain ls : forall rs ts s s',
  length ls = length rs -> wf s -> Forall solid ls -> Forall solid rs ->
  Forall (in_scope s) ls -> Forall (in_scope s) rs -> plain_state s ->
  forallb plain ls = true -> forallb plain rs = true ->
  unify_parameters rec ls rs s = Some (Ok ts, s') -> plain_state s' /\ forallb plain ts = true.
Proof.
  induction ls as [|l ls IH]; intros [|r rs] ts s s' Hlen Hwf Hls Hrs Hsl Hsr Hs Pl Pr H; try done.
  { by injection H as <- <-. }
  simpl in *. bool_facts. infer_ok H. injection H as <- <-.
  apply Forall_cons in Hls as [Hl Hls], Hrs as [Hr Hrs], Hsl as [Hsl1 Hsl], Hsr as [Hsr1 Hsr].
  pose proof (solid_unifiable _ _ _ Hwf Hl Hr Hsl1 Hsr1) as U.
  destruct (Hplain _ _ _ _ _ U Hs ltac:(done) ltac:(done) E) as [P1 P2].
  pose proof (Hrec _ _ _ _ _ U E) as V. pose proof (un_extends _ _ _ _ _ V) as Hext.
  destruct (IH rs a0 s1 s0) as [Q1 Q2]; [by injection Hlen|apply V|done|done| | |done|done|done|done|].
  1,2: eapply Forall_impl; [eassumption|]; intros x Hx; by eapply extends_scope.
  split; [done|]. simpl. by apply andb_true_iff.
Qed.

Lemma variables_plain s l r t s' :
  unifiable s (IVariable l) (IVariable r) -> plain_state s ->
  unify_variables span rec l r s = Some (Ok t, s') -> plain_state s' /\ plain t = true.
Proof.
  intros [Hwf _ _ _ Hl%scope_variable Hr%scope_variable] Hs. unfold unify_variables.
  destruct (Nat.eqb_spec (root_variable s l) (root_variable s r)) as [_|Hne]; [by intros [= <- <-]|].
  set (left := root_variable s l) in *. set (right := root_variable s r) in *.
  assert (forall a b (s0 s1 : Inference) r0, plain_state s0 -> discard (alias_variable a b span) s0 = Some (Ok r0, s1) ->
            plain_state s1) as Halias.
  { intros a b s0 s1 r0 H0. rewrite discard_Ok. intros E%alias_substitutions. intros v u. rewrite E. apply H0. }
  destruct (substitutions s !! left) as [lb|] eqn:Hlb, (substitutions s !! right) as [rb|] eqn:Hrb.
  - destruct (occurs s left rb) eqn:O1; [done|]. destruct (occurs s right lb) eqn:O2; [done|]. simpl.
    destruct (rec lb rb (detach left right s)) as [[[u|] s1]|] eqn:Eu; [|done|done].
    destruct (occurs s1 left u || occurs s1 right u); [done|]. intros H. infer_ok H.
    injection H as <- <-. split; [|done].
    destruct (Hplain _ _ _ _ _ (bindings_unifiable s left right Hwf lb rb Hlb Hrb)
                (plain_detach _ _ _ Hs) (Hs _ _ Hlb) (Hs _ _ Hrb) Eu) as [P1 P2].
    apply Halias in E; [|done]. rewrite discard_Ok in E0. apply set_binding_substitutions in E0.
    exact (plain_bind _ _ _ _ E P2 E0).
  - destruct (occurs s right lb); [done|]. intros H. infer_ok H. injection H as <- <-.
    split; [by eapply Halias|done].
  - destruct (occurs s left rb); [done|]. intros H. infer_ok H. injection H as <- <-.
    split; [by eapply Halias|done].
  - intros H. infer_ok H. injection H as <- <-. split; [by eapply Halias|done].
Qed.

(** The non-variable cases of [bind_variable]. *)
Lemma bind_unfold v ty s :
  is_variable ty = false ->
  bind_variable span rec v ty s
  = match substitutions s !! root_variable s v with
    | Some existing =>
        (let* unified := rec existing ty in
         let* _ := discard (set_binding (root_variable s v) unified span) in
         infer_ret (IVariable (root_variable s v))) s
    | None =>
        if occurs s (root_variable s v) ty then Some (Err tt, s)
        else (let* _ := discard (set_binding (root_variable s v) ty span) in
              infer_ret (IVariable (root_variable s v))) s
    end.
Proof. by destruct ty. Qed.

Lemma binding_unifiable s v existing ty :
  wf s -> substitutions s !! v = Some existing -> solid ty -> is_variable ty = false -> in_scope s ty ->
  unifiable s existing ty.
Proof.
  intros Hwf He Hty Hn Hsc. destruct (wf_binding _ (wf_wf_core _ Hwf) _ _ He) as (? & ? & ?).
  split; try done; [by apply solid_headed|by right].
Qed.

Lemma bind_plain s v ty t s' :
  wf s -> solid ty -> is_variable ty = false -> in_scope s ty -> plain_state s -> plain ty = true ->
  bind_variable span rec v ty s = Some (Ok t, s') -> plain_state s' /\ plain t = true.
Proof.
  intros Hwf Hty Hn Hsc Hs Hp. rewrite bind_unfold by done.
  destruct (substitutions s !! root_variable s v) as [existing|] eqn:He.
  - intros H. infer_ok H. injection H as <- <-. split; [|done].
    destruct (Hplain _ _ _ _ _ (binding_unifiable _ _ _ _ Hwf He Hty Hn Hsc) Hs (Hs _ _ He) Hp E) as [P1 P2].
    rewrite discard_Ok in E0. apply set_binding_substitutions in E0.
    exact (plain_bind _ _ _ _ P1 P2 E0).
  - destruct (occurs s (root_variable s v) ty); [done|]. intros H. infer_ok H. injection H as <- <-.
    split; [|done]. rewrite discard_Ok in E. apply set_binding_substitutions in E.
    exact (plain_bind _ _ _ _ Hs Hp E).
Qed.

Lemma step_plain : plain_keeper (unify_step span rec).
Proof.
  intros s l r t s' U Hs Pl Pr H. pose proof (ua_wf _ _ _ U) as Hwf.
  destruct (is_variable l) eqn:Vl.
  { destruct l; try done. destruct (is_variable r) eqn:Vr.
    - destruct r; try done. by eapply variables_plain.
    - destruct U as [_ _ _ [[_ Hr]|[? _]] _ U6]; [|done].
      eapply (bind_plain s variable r); try done. by destruct r. }
  destruct (is_variable r) eqn:Vr.
  { destruct r; try done. destruct U as [_ _ _ [[Hl _]|[_ ?]] U5 _]; [|done].
    eapply (bind_plain s variable l); try done. by destruct l. }
  destruct l, r; try discriminate; simpl in H; try (by injection H as <- <-).
  - apply infer_bind_Ok in H as (u & s1 & Hu & [= <- <-]).
    destruct (solid_pair _ _ _ U eq_refl eq_refl) as [Hl Hr]. destruct U as [_ _ _ _ U5 U6].
    apply (Hplain s l r u s1); [|done|exact Pl|exact Pr|exact Hu]. by apply solid_unifiable.
  - destruct U as [_ U2 U3 _ U5 U6]. destruct (U2) as [Sl _], (U3) as [Sr _].
    rewrite (plain_record _ _ Sl) in Pl. rewrite (plain_record _ _ Sr) in Pr.
    unfold unify_records in H. destruct (_ || _ || _); [done|].
    apply infer_bind_Ok in H as (fields' & s1 & Hf & [= <- <-]).
    pose proof (record_typed s fields is_open U2 U5) as Tl. pose proof (record_typed s fields0 is_open0 U3 U6) as Tr.
    destruct (unify_fields_ok rec Hrec fields fields0 (bt_keys fields ++ bt_keys fields0) [] s fields' s1 Hwf Tl Tr) as [_ _ F3 _ _ _ _];
      [done|done|exact Hf|].
    destruct (fields_plain fields fields0 (bt_keys fields ++ bt_keys fields0) [] s fields' s1 Hwf Tl Tr Hs) as [P1 P2]; try done.
    split; [done|]. by apply plain_record.
  - apply infer_bind_Ok in H as (u & s1 & Hu & [= <- <-]).
    destruct (solid_pair _ _ _ U eq_refl eq_refl) as [Hl Hr]. destruct U as [_ _ _ _ U5 U6].
    apply (Hplain s l r u s1); [|done|exact Pl|exact Pr|exact Hu]. by apply solid_unifiable.
  - infer_ok H. injection H as <- <-. destruct (solid_pair _ _ _ U eq_refl eq_refl) as [Hl Hr].
    destruct U as [_ _ _ _ U5 U6]. simpl in Pl, Pr. bool_facts.
    destruct (parameters_plain [l1; l2] [r1; r2] [a; a0] s s0) as [P1 P2]; try done.
    + by apply (node_solid _ _ (node_result l1 l2)).
    + by apply (node_solid _ _ (node_result r1 r2)).
    + exact (node_scope s _ _ (node_result l1 l2) U5).
    + exact (node_scope s _ _ (node_result r1 r2) U6).
    + simpl. by rewrite !andb_true_r, andb_true_iff.
    + simpl. by rewrite !andb_true_r, andb_true_iff.
    + simpl. unfold infer_bind. by rewrite E, E0.
    + split; [done|]. simpl in *. by rewrite !andb_true_r in P2.
  - destruct (Nat.eqb_spec (length parameters) (length parameters0)) as [Hlen|]; [|done].
    infer_ok H. injection H as <- <-. destruct (solid_pair _ _ _ U eq_refl eq_refl) as [Hl Hr].
    destruct U as [_ _ _ _ U5 U6]. simpl in Pl, Pr. bool_facts.
    pose proof (unify_parameters_snoc _ _ _ _ _ _ _ _ _ _ Hlen E E0) as Hall.
    destruct (parameters_plain (parameters ++ [l]) (parameters0 ++ [r]) (a ++ [a0]) s s0) as [P1 P2]; try done.
    + by rewrite !length_app, Hlen.
    + by apply (node_solid _ _ (node_function parameters l effect)).
    + by apply (node_solid _ _ (node_function parameters0 r effect0)).
    + exact (node_scope s _ _ (node_function parameters l effect) U5).
    + exact (node_scope s _ _ (node_function parameters0 r effect0) U6).
    + rewrite forallb_app. simpl. by rewrite andb_true_r, andb_true_iff.
    + rewrite forallb_app. simpl. by rewrite andb_true_r, andb_true_iff.
    + rewrite forallb_app in P2. simpl in P2. rewrite andb_true_r in P2. split; [|done].
      destruct (link_effects_fields effect effect0 s0) as (_ & L2 & _). intros v u. rewrite L2. apply P1.
Qed.

(** ** Errors *)

Lemma solves_everywhere s l r t s' rho :
  unified s l r t s' -> solid l -> solid r -> solves s rho -> tree_of rho l = tree_of rho r -> solves s' rho.
Proof.
  intros U Hl Hr Hs E.
  destruct (un_in _ _ _ _ _ U everywhere (closed_everywhere s) (pair_inside_everywhere _ _ _)) as [_ _ _ Hex].
  apply exact_solid in Hex as [Hex _]; [|done|done|by apply U]. by apply Hex.
Qed.

Lemma fields_refuted fl fr names : forall fields s s' rho,
  wf s -> fields_typed s fl -> fields_typed s fr -> plain_state s -> bt_sorted fields ->
  (forall n t, bt_get n fl = Some t -> plain t = true) ->
  (forall n t, bt_get n fr = Some t -> plain t = true) ->
  (forall n, n ∈ names -> bt_get n fl <> None \/ bt_get n fr <> None) ->
  unify_fields rec fl fr names fields s = Some (Err tt, s') -> type_depth_error s' = None ->
  solves s rho -> fields_agree fl fr rho names fields -> False.
Proof.
  induction names as [|name names IH]; intros fields s s' rho Hwf Tl Tr Hs Hso Pl Pr Hnames H Hd Hsol Hag; simpl in H.
  { done. }
  assert (forall n, n ∈ names -> bt_get n fl <> None \/ bt_get n fr <> None) as Hnames'
    by (intros n Hn; apply Hnames; by right).
  destruct (bt_get name fields) as [t0|] eqn:Ename.
  { eapply (IH fields s s' rho); try done. intros n a b Hn. apply Hag. by right. }
  apply infer_bind_Err in H as [H|(ty & s1 & Hty & H)].
  - specialize (Hnames name ltac:(by left)).
    destruct (bt_get name fl) as [a|] eqn:Ea, (bt_get name fr) as [b|] eqn:Eb; [|done|done|naive_solver].
    destruct (Tl _ _ Ea) as [Ha Hsa], (Tr _ _ Eb) as [Hb Hsb].
    eapply (Hcomp s a b s' (solid_unifiable _ _ _ Hwf Ha Hb Hsa Hsb) Hs (Pl _ _ Ea) (Pr _ _ Eb) H Hd rho); [done|..];
      apply instance_solid; [done|reflexivity|done|]. apply (Hag name); try done. by left.
  - destruct (field_step rec Hrec fl fr name s ty s1 Hwf Tl Tr Hty) as (S1 & S2 & S3 & S4 & S5).
    destruct (S5 everywhere (closed_everywhere s)) as (_ & _ & _ & Hsol1 & _); [done|].
    assert (plain_state s1) as P1.
    { destruct (bt_get name fl) as [a|] eqn:Ea, (bt_get name fr) as [b|] eqn:Eb;
        [|injection Hty as <- <-; done..|done].
      destruct (Tl _ _ Ea), (Tr _ _ Eb).
      eapply (Hplain s a b ty s1); [by apply solid_unifiable|done|by eapply Pl|by eapply Pr|exact Hty]. }
    eapply (IH (bt_insert name ty fields) s1 s' rho); try done;
      [by eapply fields_typed_extends..|by apply bt_insert_sorted| |].
    + apply Hsol1. split; [done|]. intros a b Ha Hb. apply (Hag name); try done. by left.
    + intros n a b Hn. rewrite bt_get_insert by done. case_decide; [done|]. apply Hag. by right.
Qed.

Lemma parameters_refuted ls : forall rs s s' rho,
  length ls = length rs -> wf s -> Forall solid ls -> Forall solid rs ->
  Forall (in_scope s) ls -> Forall (in_scope s) rs -> plain_state s ->
  forallb plain ls = true -> forallb plain rs = true ->
  unify_parameters rec ls rs s = Some (Err tt, s') -> type_depth_error s' = None ->
  solves s rho -> map (tree_of rho) ls = map (tree_of rho) rs -> False.
Proof.
  induction ls as [|l ls IH]; intros [|r rs] s s' rho Hlen Hwf Hls Hrs Hsl Hsr Hs Pl Pr H Hd Hsol E; try done.
  simpl in *. bool_facts. injection E as El Els.
  apply Forall_cons in Hls as [Hl Hls], Hrs as [Hr Hrs], Hsl as [Hsl1 Hsl], Hsr as [Hsr1 Hsr].
  pose proof (solid_unifiable _ _ _ Hwf Hl Hr Hsl1 Hsr1) as U.
  apply infer_bind_Err in H as [H|(t & s1 & Ht & H)].
  - eapply (Hcomp s l r s' U Hs ltac:(done) ltac:(done) H Hd rho); [done|..];
      apply instance_solid; [done|reflexivity|done|done].
  - apply infer_bind_Err in H as [H|(ts & s2 & _ & H)]; [|done].
    pose proof (Hrec _ _ _ _ _ U Ht) as V. pose proof (un_extends _ _ _ _ _ V) as Hext.
    destruct (Hplain _ _ _ _ _ U Hs ltac:(done) ltac:(done) Ht) as [P1 P2].
    apply (IH rs s1 s' rho); try done; [by injection Hlen|apply V| | |by eapply solves_everywhere].
    1,2: eapply Forall_impl; [eassumption|]; intros x Hx; by eapply extends_scope.
Qed.

Lemma reaches_binding_size s rho v t x :
  wf s -> solves s rho -> substitutions s !! v = Some t -> reaches s t x ->
  tree_size (type_value rho x) < tree_size (type_value rho v).
Proof.
  intros Hwf Hsol Ht (y & Hy & Hr). pose proof (wf_wf_core _ Hwf) as Hc.
  destruct (wf_binding _ Hc _ _ Ht) as (Hn & Hh & _).
  assert (instance rho t (type_value rho v)) as Hi by (by apply Hsol).
  pose proof (instance_size rho t _ y Hh Hn Hy Hi) as Hlt.
  pose proof (reach_size s rho _ _ Hc Hsol Hr) as Hle. destruct Hsol as (He & _).
  rewrite <- (He y eq_refl) in Hle. lia.
Qed.

Lemma variables_refuted s l r s' :
  unifiable s (IVariable l) (IVariable r) -> plain_state s ->
  unify_variables span rec l r s = Some (Err tt, s') -> type_depth_error s' = None ->
  refutes s (IVariable l) (IVariable r).
Proof.
  intros [Hwf _ _ _ Hl%scope_variable Hr%scope_variable] Hs H Hd rho d Hsol D1 D2. simpl in D1, D2.
  pose proof (wf_wf_core _ Hwf) as Hc. unfold unify_variables in H.
  destruct (Nat.eqb_spec (root_variable s l) (root_variable s r)) as [_|Hne]; [done|].
  assert (forall x, type_value rho x = type_value rho (root_variable s x)) as Hroot.
  { intros x. destruct Hsol as (He & _). by apply He. }
  assert (forall x t, occurs s x t = true -> reaches s t (root_variable s x)) as Hocc.
  { intros x t. by apply occurs_reaches. }
  pose proof (Hroot l) as Vl. pose proof (Hroot r) as Vr.
  pose proof (root_idem s (wf_rooted _ Hc) l) as Il. pose proof (root_idem s (wf_rooted _ Hc) r) as Ir.
  set (left := root_variable s l) in *. set (right := root_variable s r) in *.
  assert (type_value rho left = type_value rho right) as Heq by congruence.
  destruct (substitutions s !! left) as [lb|] eqn:Hlb, (substitutions s !! right) as [rb|] eqn:Hrb.
  - destruct (occurs s left rb) eqn:O1.
    { apply Hocc in O1. rewrite Il in O1. apply (reaches_binding_size s rho right) in O1; try done.
      rewrite Heq in O1. lia. }
    destruct (occurs s right lb) eqn:O2.
    { apply Hocc in O2. rewrite Ir in O2. apply (reaches_binding_size s rho left) in O2; try done.
      rewrite Heq in O2. lia. }
    cbn [orb] in H. pose proof (bindings_unifiable s left right Hwf lb rb Hlb Hrb) as U.
    destruct (rec lb rb (detach left right s)) as [[[u|[]] s1]|] eqn:Eu; [| |done].
    + pose proof (Hrec _ _ _ _ _ U Eu) as HU.
      assert (forall x, away s left right x = false -> root_variable s1 x = x -> occurs s1 x u = false) as Hnever.
      { intros x Hx Hrx. destruct (occurs s1 x u) eqn:E; [|done]. exfalso.
        pose proof (wf_wf_core _ (un_wf _ _ _ _ _ HU)) as Hc1.
        apply occurs_reaches in E; [|done]. rewrite Hrx in E. destruct E as (y & Hy & Hyx).
        destruct (away_bindings s l r left right Hwf Hl Hr eq_refl eq_refl lb rb Hlb Hrb O1 O2) as [J1 J2].
        destruct (un_in _ _ _ _ _ HU _ (away_closed s left right Hwf) (inside_pair _ _ _ _ J1 J2)) as [_ C I _].
        specialize (I J1 J2 y Hy). clear Hy. induction Hyx as [z|z w x' Hzw _ IH]; [congruence|].
        apply IH; try done. by eapply C. }
      assert (forall x, x = left \/ x = right -> root_variable s1 x = x) as Hsame.
      { intros x Hx. apply root_of_root; [apply (un_wf _ _ _ _ _ HU)|].
        apply (merged_roots s l r left right Hwf Hl Hr eq_refl eq_refl Hne lb rb Hlb Hrb O1 O2 u s1 HU).
        unfold the_two. naive_solver. }
      rewrite (Hnever left), (Hnever right) in H.
      * cbn [orb] in H. apply infer_bind_Err in H as [H|(x & s2 & _ & H)]; [by eapply alias_no_error|].
        apply infer_bind_Err in H as [H|(y & s3 & _ & H)]; [by eapply set_binding_no_error|done].
      * by apply (away_right s r left right Hwf Hr eq_refl).
      * apply Hsame. by right.
      * by apply (away_left s l left right Hwf Hl eq_refl).
      * apply Hsame. by left.
    + injection H as <-.
      assert (solves (detach left right s) rho /\ instance rho lb (type_value rho left)
              /\ instance rho rb (type_value rho right)) as (Hsd & Hi1 & Hi2).
      { by apply (solves_detach left right lb rb everywhere s rho). }
      rewrite <- Heq in Hi2.
      exact (Hcomp _ _ _ _ U (plain_detach _ _ _ Hs) (Hs _ _ Hlb) (Hs _ _ Hrb) Eu Hd rho _ Hsd Hi1 Hi2).
  - destruct (occurs s right lb) eqn:O2.
    { apply Hocc in O2. rewrite Ir in O2. apply (reaches_binding_size s rho left) in O2; try done.
      rewrite Heq in O2. lia. }
    apply infer_bind_Err in H as [H|(x & s2 & _ & H)]; [by eapply alias_no_error|done].
  - destruct (occurs s left rb) eqn:O1.
    { apply Hocc in O1. rewrite Il in O1. apply (reaches_binding_size s rho right) in O1; try done.
      rewrite Heq in O1. lia. }
    apply infer_bind_Err in H as [H|(x & s2 & _ & H)]; [by eapply alias_no_error|done].
  - apply infer_bind_Err in H as [H|(x & s2 & _ & H)]; [by eapply alias_no_error|done].
Qed.

Lemma bind_refuted s v ty s' :
  wf s -> v < length (type_parents s) -> solid ty -> is_variable ty = false -> in_scope s ty ->
  plain_state s -> plain ty = true ->
  bind_variable span rec v ty s = Some (Err tt, s') -> type_depth_error s' = None ->
  refutes s (IVariable v) ty.
Proof.
  intros Hwf Hv Hty Hn Hsc Hs Hp. rewrite bind_unfold by done. intros H Hd rho d Hsol D1 D2.
  pose proof (wf_wf_core _ Hwf) as Hc. simpl in D1.
  assert (type_value rho v = type_value rho (root_variable s v)) as Hroot.
  { destruct Hsol as (He & _). by apply He. }
  destruct (substitutions s !! root_variable s v) as [existing|] eqn:He.
  - apply infer_bind_Err in H as [H|(u & s1 & _ & H)].
    + pose proof (binding_unifiable _ _ _ _ Hwf He Hty Hn Hsc) as U.
      apply (Hcomp _ _ _ _ U Hs (Hs _ _ He) Hp H Hd rho d); [done| |done].
      rewrite D1, Hroot. by apply Hsol.
    + apply infer_bind_Err in H as [H|(y & s3 & _ & H)]; [by eapply set_binding_no_error|done].
  - destruct (occurs s (root_variable s v) ty) eqn:O.
    + apply occurs_reaches in O; [|done]. rewrite (root_idem s (wf_rooted _ Hc)) in O.
      apply (reaches_size s rho) in O; [|done|done]. apply instance_solid in D2; [|done].
      rewrite Hn, <- D2, D1, Hroot in O. lia.
    + apply infer_bind_Err in H as [H|(y & s3 & _ & H)]; [by eapply set_binding_no_error|done].
Qed.

Lemma records_refuted fl ol fr orr s s' :
  unifiable s (IRecord fl ol) (IRecord fr orr) -> plain_state s ->
  plain (IRecord fl ol) = true -> plain (IRecord fr orr) = true ->
  unify_records rec fl ol fr orr s = Some (Err tt, s') -> type_depth_error s' = None ->
  refutes s (IRecord fl ol) (IRecord fr orr).
Proof.
  intros [Hwf U2 U3 _ U5 U6] Hs Pl Pr H Hd rho d Hsol D1 D2.
  destruct (U2) as [Sl _], (U3) as [Sr _].
  rewrite (plain_record _ _ Sl) in Pl. rewrite (plain_record _ _ Sr) in Pr.
  pose proof D1 as D1'. pose proof D2 as D2'.
  apply instance_record in D1 as (gs & -> & _ & Gl & Cl); [|done].
  apply instance_record in D2 as (gs' & [= <-] & _ & Gr & Cr); [|done].
  unfold unify_records in H.
  destruct (negb ol && negb orr && bool_decide (bt_keys fl <> bt_keys fr)) eqn:G1.
  { apply andb_true_iff in G1 as [[G1 G2]%andb_true_iff G3%bool_decide_eq_true].
    apply negb_true_iff in G1, G2. subst. simpl in D1', D2'. apply G3. rewrite D1' in D2'.
    injection D2' as E. apply (f_equal (map fst)) in E. rewrite !map_map in E. exact E. }
  assert (forall (o : bool) (fs gs0 : list (string * InferType)), bt_sorted gs0 ->
            (o = false -> forall n, bt_get n fs = None -> bt_get n gs = None) ->
            (forall n t, bt_get n gs0 = Some t -> bt_get n gs = Some (tree_of rho t)) ->
            negb o && existsb (fun name => negb (has_field fs name)) (bt_keys gs0) = true -> False) as Hcov.
  { intros o fs gs0 Hso Hc Hg Hex. apply andb_true_iff in Hex as [Ho Hex]. apply negb_true_iff in Ho.
    apply existsb_exists in Hex as (n & Hin%list_elem_of_In & Hno). apply keys_get in Hin; [|done].
    unfold has_field in Hno. destruct (bt_get n fs) eqn:En; [done|].
    destruct (bt_get n gs0) as [t|] eqn:Eg; [|done]. apply Hg in Eg. rewrite (Hc Ho n En) in Eg. done. }
  destruct (negb ol && existsb (fun name => negb (has_field fl name)) (bt_keys fr)) eqn:G2.
  { by apply (Hcov ol fl fr). }
  destruct (negb orr && existsb (fun name => negb (has_field fr name)) (bt_keys fl)) eqn:G3.
  { by apply (Hcov orr fr fl). }
  cbn [orb] in H. apply infer_bind_Err in H as [H|(fields & s1 & _ & H)]; [|done].
  apply (fields_refuted fl fr (bt_keys fl ++ bt_keys fr) [] s s' rho); try done.
  - by apply (record_typed s fl ol).
  - by apply (record_typed s fr orr).
  - intros n. rewrite elem_of_app, !keys_get by done. done.
  - intros n a b _ _ Ha%Gl Hb%Gr. congruence.
Qed.

Lemma step_completes : completes (unify_step span rec).
Proof.
  intros s l r s' U Hs Pl Pr H Hd. pose proof (ua_wf _ _ _ U) as Hwf.
  destruct (is_variable l) eqn:Vl.
  { destruct l; try done. destruct (is_variable r) eqn:Vr.
    - destruct r; try done. by eapply variables_refuted.
    - destruct U as [_ _ _ [[_ Hr]|[? _]] U5%scope_variable U6]; [|done].
      eapply bind_refuted; try done. by destruct r. }
  destruct (is_variable r) eqn:Vr.
  { destruct r; try done. destruct U as [_ _ _ [[Hl _]|[_ ?]] U5 U6%scope_variable]; [|done].
    intros rho d Hsol D1 D2. eapply (bind_refuted s variable l); try done. by destruct l. }
  destruct l, r; try discriminate; simpl in H; try discriminate;
    try (intros rho d _ D1 D2;
      try (destruct is_open; [first [destruct D1 as (gs & D1 & _)|destruct D2 as (gs & D2 & _)]|]);
      simpl in D1, D2; unfold int_tree, str_tree in *; congruence).
  - apply infer_bind_Err in H as [H|(u & s1 & _ & H)]; [|done].
    destruct (solid_pair _ _ _ U eq_refl eq_refl) as [Hl Hr]. destruct U as [_ _ _ _ U5 U6].
    intros rho d Hsol -> [= E].
    eapply (Hcomp s l r s' (solid_unifiable s l r Hwf Hl Hr U5 U6) Hs Pl Pr H Hd rho); [done|..];
      apply instance_solid; [done|reflexivity|done|done].
  - by eapply records_refuted.
  - apply infer_bind_Err in H as [H|(u & s1 & _ & H)]; [|done].
    destruct (solid_pair _ _ _ U eq_refl eq_refl) as [Hl Hr]. destruct U as [_ _ _ _ U5 U6].
    intros rho d Hsol -> [= E].
    eapply (Hcomp s l r s' (solid_unifiable s l r Hwf Hl Hr U5 U6) Hs Pl Pr H Hd rho); [done|..];
      apply instance_solid; [done|reflexivity|done|done].
  - destruct (solid_pair _ _ _ U eq_refl eq_refl) as [Hl Hr]. destruct U as [_ _ _ _ U5 U6].
    simpl in Pl, Pr. bool_facts. intros rho d Hsol -> [= E1 E2].
    apply (parameters_refuted [l1; l2] [r1; r2] s s' rho); try done.
    + by apply (node_solid _ _ (node_result l1 l2)).
    + by apply (node_solid _ _ (node_result r1 r2)).
    + exact (node_scope s _ _ (node_result l1 l2) U5).
    + exact (node_scope s _ _ (node_result r1 r2) U6).
    + simpl. by rewrite !andb_true_r, andb_true_iff.
    + simpl. by rewrite !andb_true_r, andb_true_iff.
    + revert H. simpl. unfold infer_bind, infer_ret. destruct (rec l1 r1 s) as [[[x|e] s1]|]; [|by intros [= -> ->]|done].
      destruct (rec l2 r2 s1) as [[[y|e] s2]|]; [done|by intros [= -> ->]|done].
    + simpl. by rewrite E1, E2.
  - intros rho d Hsol -> [= E1 E2 E3].
    destruct (Nat.eqb_spec (length parameters) (length parameters0)) as [Hlen|Hlen].
    2: { apply (f_equal length) in E1. rewrite !length_map in E1. congruence. }
    destruct (solid_pair _ _ _ U eq_refl eq_refl) as [Hl Hr]. destruct U as [_ _ _ _ U5 U6].
    apply solid_function in Hl as [Hlp Hlr], Hr as [Hrp Hrr].
    simpl in Pl, Pr. apply andb_true_iff in Pl as [Pl1 Pl2], Pr as [Pr1 Pr2].
    pose proof (node_scope s _ _ (node_function parameters l effect) U5) as Nl.
    pose proof (node_scope s _ _ (node_function parameters0 r effect0) U6) as Nr.
    rewrite Forall_app, Forall_singleton in Nl, Nr. destruct Nl as [Nl1 Nl2], Nr as [Nr1 Nr2].
    apply infer_bind_Err in H as [H|(ts & s1 & Hts & H)].
    { by apply (parameters_refuted parameters parameters0 s s' rho). }
    apply infer_bind_Err in H as [H|(t & s2 & _ & H)]; [|done].
    destruct (children_ok rec Hrec parameters parameters0 ts s s1) as [C1 C2 _ _ _ C6]; try done.
    destruct (C6 everywhere (closed_everywhere s)) as [_ _ _ Hsol1 _]; [by apply Forall_true..|].
    destruct (parameters_plain parameters parameters0 ts s s1) as [P1 _]; try done.
    eapply (Hcomp s1 l r s'); try done.
    + apply solid_unifiable; try done; by eapply extends_scope.
    + by apply Hsol1.
    + by apply instance_solid.
    + by apply instance_solid.
Qed.
End Complete.

Lemma unify_inner_plain span fuel : plain_keeper (unify_inner span fuel).
Proof.
  induction fuel as [|fuel IH]; [by intros s l r t s' _ _ _ _ H|]. simpl.
  apply step_plain; [apply unify_inner_ok|done].
Qed.

Lemma unify_inner_complete span fuel : completes (unify_inner span fuel).
Proof.
  induction fuel as [|fuel IH]; [by intros s l r s' _ _ _ _ H|]. simpl.
  apply step_completes; [apply unify_inner_ok|apply unify_inner_plain|done].
Qed.
