(* ===== verification/UnifyTotal.v ===== *)
(** * What unification uses up

    Every change of the state within a set of variables uses up something: a
    root that becomes an alias, an unbound root that is bound, an open record
    that is closed, or room below the bound of the cached heights.  A step
    that uses up nothing leaves roots and heights as they are. *)

From S2P Require Import Prelude BTree Syntax Sorting Types Parser Infer InferWf OccursFacts TypeTrees UnifyParts UnifyVars UnifyFacts UnifyComplete.

#[local] Open Scope nat_scope.

Implicit Types (P Q : nat -> bool) (s : Inference).

(** ** Sums *)

Lemma sum_cons a l : sum_list (a :: l) = a + sum_list l.
Proof. done. Qed.

Section Sums.
Context {A : Type} (f g : A -> nat).

Lemma sum_le l : (forall x, x ∈ l -> f x <= g x) -> sum_list (map f l) <= sum_list (map g l).
Proof.
  induction l as [|a l IH]; intros H; [done|]. rewrite !map_cons, !sum_cons.
  assert (f a <= g a) by (apply H; by left).
  assert (sum_list (map f l) <= sum_list (map g l)) by (apply IH; intros x Hx; apply H; by right). lia.
Qed.

Lemma sum_add l (h : A -> nat) :
  (forall x, x ∈ l -> h x = f x + g x) ->
  sum_list (map h l) = sum_list (map f l) + sum_list (map g l).
Proof.
  induction l as [|a l IH]; intros H; [done|]. rewrite !map_cons, !sum_cons.
  assert (h a = f a + g a) by (apply H; by left).
  assert (sum_list (map h l) = sum_list (map f l) + sum_list (map g l)) by (apply IH; intros x Hx; apply H; by right).
  lia.
Qed.
End Sums.

Lemma sum_same {A} (f g : A -> nat) l :
  (forall x, x ∈ l -> f x = g x) -> sum_list (map f l) = sum_list (map g l).
Proof. intros H. apply Nat.le_antisymm; apply sum_le; intros x Hx; by rewrite H. Qed.

Lemma sum_single (f : nat -> nat) l x :
  NoDup l -> x ∈ l -> (forall y, y ∈ l -> y <> x -> f y = 0) -> sum_list (map f l) = f x.
Proof.
  induction 1 as [|a l Ha Hd IH]; [by intros H%elem_of_nil|].
  intros Hx Hz. rewrite map_cons, sum_cons.
  apply elem_of_cons in Hx as [->|Hx].
  - assert (sum_list (map f l) = 0) as ->; [|lia].
    rewrite (sum_same f (fun _ => 0)).
    + clear. induction l as [|b l IH]; [done|]. exact IH.
    + intros y Hy. apply Hz; [by right|]. by intros ->.
  - rewrite IH; [|done|intros y Hy; apply Hz; by right]. rewrite (Hz a); [done|by left|]. by intros ->.
Qed.

(** ** Weights *)

Definition is_open_record (ty : InferType) : bool := match ty with IRecord _ o => o | _ => false end.

(** A root weighs 1, and 1 more while it may still be bound or closed. *)
Definition weight s (x : nat) : nat :=
  if Nat.eqb (root_variable s x) x then
    match substitutions s !! x with
    | None => 2
    | Some t => if is_open_record t then 2 else 1
    end
  else 0.

Definition weight_in P s (x : nat) : nat := if P x then weight s x else 0.

Definition classes P s : nat := sum_list (map (weight_in P s) (seq 0 (length (type_parents s)))).

Definition supply P s : nat := classes P s + height_room s.

Lemma classes_same P s s' :
  length (type_parents s') = length (type_parents s) ->
  (forall x, P x = true -> x < length (type_parents s) -> weight s' x = weight s x) ->
  classes P s' = classes P s.
Proof.
  intros Hl Hw. unfold classes. rewrite Hl. apply sum_same. intros x Hx%elem_of_seq.
  unfold weight_in. destruct (P x) eqn:E; [|done]. apply Hw; [done|lia].
Qed.

Lemma classes_without v P s :
  P v = true -> v < length (type_parents s) -> classes P s = classes (without v P) s + weight s v.
Proof.
  intros HP Hv. unfold classes.
  rewrite (sum_add (weight_in (without v P) s) (fun x => if Nat.eqb x v then weight s x else 0)).
  - f_equal. rewrite (sum_single _ _ v).
    + by rewrite Nat.eqb_refl.
    + apply NoDup_seq.
    + apply elem_of_seq. lia.
    + intros y _ Hne. by apply Nat.eqb_neq in Hne as ->.
  - intros x _. unfold weight_in, without. destruct (Nat.eqb_spec x v) as [->|]; simpl; [by rewrite HP|lia].
Qed.

Lemma classes_split Q P s :
  subset Q P -> classes P s = classes Q s + classes (fun x => P x && negb (Q x)) s.
Proof.
  intros Hsub. unfold classes. apply sum_add. intros x _. unfold weight_in.
  destruct (Q x) eqn:E; [rewrite (Hsub x E)|]; simpl; [lia|]. by rewrite andb_true_r.
Qed.

Lemma classes_subset Q P s : subset Q P -> classes Q s <= classes P s.
Proof. intros H. rewrite (classes_split Q P s H). lia. Qed.

Lemma weight_root s x : is_root s x -> rooted (type_parents s) ->
  weight s x = match substitutions s !! x with
               | None => 2
               | Some t => if is_open_record t then 2 else 1
               end.
Proof. intros Hx Hr. unfold weight. by rewrite (root_of_root s Hr x Hx), Nat.eqb_refl. Qed.

(** ** Room below the bound *)

Lemma height_lookup s v h : type_heights s !! v = Some h -> height s v = h.
Proof. unfold height. by intros ->. Qed.

Lemma sum_list_lookup_le (l l' : list nat) (f : nat -> nat) :
  length l = length l' -> (forall i x y, l !! i = Some x -> l' !! i = Some y -> f x <= f y) ->
  sum_list (map f l) <= sum_list (map f l').
Proof.
  revert l'; induction l as [|x l IH]; intros [|y l'] Hl H; try done.
  rewrite !map_cons, !sum_cons.
  pose proof (H 0 x y eq_refl eq_refl).
  assert (sum_list (map f l) <= sum_list (map f l')); [|lia].
  apply IH; [by injection Hl|]. intros i a b. apply (H (S i)).
Qed.

Lemma height_room_mono s s' :
  wf_core s -> wf_core s' -> extends s s' -> height_room s' <= height_room s.
Proof.
  intros W W' [E _ _ Hh]. unfold height_room. apply sum_list_lookup_le.
  { rewrite (wf_heights_length _ W), (wf_heights_length _ W'). done. }
  intros i x y Hx%height_lookup Hy%height_lookup. specialize (Hh i). lia.
Qed.

Lemma height_room_equal s s' :
  wf_core s -> wf_core s' -> extends s s' -> height_room s' = height_room s ->
  forall v, height s' v = height s v.
Proof.
  intros W W' [E _ _ Hh] Heq v.
  destruct (decide (height s' v = height s v)) as [|Hne]; [done|]. exfalso.
  specialize (Hh v) as Hv. assert (height s v < height s' v) as Hlt by lia.
  assert (v < length (type_heights s)) as Hin.
  { destruct (decide (v < length (type_heights s))) as [|Hge]; [done|]. exfalso.
    unfold height in Hne. rewrite !lookup_ge_None_2 in Hne; [done|lia|].
    rewrite (wf_heights_length _ W'), E, <- (wf_heights_length _ W). lia. }
  destruct (lookup_lt_is_Some_2 _ _ Hin) as [x Hx]. pose proof (height_lookup _ _ _ Hx) as Hhx.
  pose proof (sum_list_insert (fun h => TYPE_DEPTH - h) _ _ _ (height s' v) Hx) as Hs.
  assert (height_room s' <= sum_list (map (fun h => TYPE_DEPTH - h) (<[v := height s' v]> (type_heights s)))) as Hle.
  { unfold height_room. apply sum_list_lookup_le.
    { by rewrite length_insert, (wf_heights_length _ W), (wf_heights_length _ W'). }
    intros i a b Ha%height_lookup Hb. destruct (decide (i = v)) as [->|].
    - rewrite list_lookup_insert_eq in Hb by done. injection Hb as <-. by rewrite Ha.
    - rewrite list_lookup_insert_ne in Hb by done. apply height_lookup in Hb. specialize (Hh i). lia. }
  pose proof (wf_bounded _ W' v). unfold height_room in *. lia.
Qed.

(** ** Using up *)

Record shrinks P s s' : Prop := {
  shrinks_le : supply P s' <= supply P s;
  shrinks_same : supply P s' = supply P s ->
    (forall z, root_variable s' z = root_variable s z) /\ (forall v, height s' v = height s v);
}.

Lemma shrinks_refl P s : shrinks P s s.
Proof. by split. Qed.

Lemma shrinks_trans P s1 s2 s3 : shrinks P s1 s2 -> shrinks P s2 s3 -> shrinks P s1 s3.
Proof.
  intros [A1 A2] [B1 B2]. split; [lia|]. intros E.
  destruct A2 as [A2 A3]; [lia|]. destruct B2 as [B2 B3]; [lia|].
  split; [intros z; by rewrite B2, A2|intros v; by rewrite B3, A3].
Qed.

Lemma shrinks_lt P s s' : supply P s' < supply P s -> shrinks P s s'.
Proof. intros H. split; lia. Qed.

Lemma frame_weight Q s s' x :
  frame Q s s' -> Q x = false -> weight s' x = weight s x.
Proof.
  intros F HQ. unfold weight.
  destruct (Nat.eqb_spec (root_variable s x) x) as [E|E].
  - rewrite (frame_root_out _ _ _ _ F E HQ), Nat.eqb_refl. by rewrite (frame_binding _ _ _ F x E HQ).
  - destruct (Nat.eqb_spec (root_variable s' x) x) as [E'|]; [|done].
    by apply (frame_root_back _ _ _ _ F) in E'.
Qed.

Lemma shrinks_weaken Q P s s' :
  length (type_parents s') = length (type_parents s) -> subset Q P -> frame Q s s' ->
  shrinks Q s s' -> shrinks P s s'.
Proof.
  intros Hl Hsub F [H1 H2].
  assert (classes (fun x => P x && negb (Q x)) s' = classes (fun x => P x && negb (Q x)) s) as E.
  { apply classes_same; [done|]. intros x [_ Hx%negb_true_iff]%andb_true_iff _. by eapply frame_weight. }
  pose proof (classes_split Q P s Hsub). pose proof (classes_split Q P s' Hsub).
  split; unfold supply in *; [lia|]. intros Heq. apply H2. lia.
Qed.

Lemma bind_shrinks v t P s s' :
  wf_core s -> wf_core s' -> is_root s v -> P v = true -> updates s s' ->
  type_parents s' = type_parents s -> substitutions s' = <[v := t]> (substitutions s) ->
  (is_open_record t = true -> exists e, substitutions s !! v = Some e /\ is_open_record e = true) ->
  shrinks P s s'.
Proof.
  intros W W' Hv HP U Ep Es Ho. pose proof (extends_updates _ _ U) as Hext.
  assert (v < length (type_parents s)) as Hlt by (by eapply lookup_lt_Some).
  assert (forall z, root_variable s' z = root_variable s z) as Hr by (intros z; by apply root_same_parents).
  assert (classes (without v P) s' = classes (without v P) s) as Hc.
  { apply classes_same; [by rewrite Ep|]. intros x [Hx _]%without_spec _. unfold weight.
    by rewrite Hr, Es, lookup_insert_ne by done. }
  assert (weight s' v <= weight s v) as Hw.
  { rewrite (weight_root s v Hv (wf_rooted _ W)).
    rewrite (weight_root s' v); [|unfold is_root; by rewrite Ep|apply W']. rewrite Es, lookup_insert_eq.
    destruct (is_open_record t); [destruct (Ho eq_refl) as (e & -> & ->); done|].
    destruct (substitutions s !! v) as [e|]; [destruct (is_open_record e)|]; lia. }
  pose proof (height_room_mono s s' W W' Hext) as Hm.
  assert (classes P s' <= classes P s) as Hcl.
  { rewrite (classes_without v P s), (classes_without v P s') by (done || by rewrite Ep). lia. }
  split; unfold supply; [lia|]. intros E. split; [done|]. apply height_room_equal; try done. lia.
Qed.

Lemma classes_two a b P s :
  P a = true -> P b = true -> a <> b -> a < length (type_parents s) -> b < length (type_parents s) ->
  classes P s = classes (without a (without b P)) s + weight s a + weight s b.
Proof.
  intros Ha Hb Hne Hla Hlb. rewrite (classes_without b P) by done.
  rewrite (classes_without a (without b P)) by (done || by apply without_spec). done.
Qed.

(** The weights after the root [a] becomes an alias of [b]. *)
Lemma alias_weights a b s s' :
  rooted (type_parents s) -> is_root s a -> is_root s b -> a <> b ->
  type_parents s' = <[a := b]> (type_parents s) -> substitutions s' = substitutions s ->
  weight s' a = 0 /\ forall x, x <> a -> weight s' x = weight s x.
Proof.
  intros Hr Ha Hb Hne Ep Es.
  assert (forall z, root_variable s' z = if Nat.eqb (root_variable s z) a then b else root_variable s z)
    as Hroot by (intros z; by apply root_alias).
  split.
  - unfold weight. rewrite Hroot, (root_of_root s Hr a Ha), Nat.eqb_refl.
    destruct (Nat.eqb_spec b a); [congruence|done].
  - intros x Hx. unfold weight. rewrite Hroot, Es.
    destruct (Nat.eqb_spec (root_variable s x) a) as [E|E]; [|done]. rewrite E.
    destruct (Nat.eqb_spec b x) as [<-|]; [rewrite (root_of_root s Hr b Hb) in E; congruence|].
    destruct (Nat.eqb_spec a x); [congruence|done].
Qed.

Lemma alias_shrinks a b P s s' :
  wf_core s -> wf_core s' -> is_root s a -> is_root s b -> a <> b -> P a = true -> P b = true ->
  updates s s' -> type_parents s' = <[a := b]> (type_parents s) -> substitutions s' = substitutions s ->
  shrinks P s s'.
Proof.
  intros W W' Ha Hb Hne HPa HPb U Ep Es. apply shrinks_lt. unfold supply.
  pose proof (height_room_mono s s' W W' (extends_updates _ _ U)) as Hm.
  destruct (alias_weights a b s s' (wf_rooted _ W) Ha Hb Hne Ep Es) as [Wa Wx].
  assert (a < length (type_parents s)) as Hla by (by eapply lookup_lt_Some).
  assert (b < length (type_parents s)) as Hlb by (by eapply lookup_lt_Some).
  pose proof (updates_length _ _ U) as Hlen.
  rewrite (classes_two a b P s), (classes_two a b P s') by (done || lia).
  assert (classes (without a (without b P)) s' = classes (without a (without b P)) s) as ->.
  { apply classes_same; [done|]. intros x [Hx _]%without_spec _. by apply Wx. }
  rewrite Wa, (Wx b) by done. assert (1 <= weight s a); [|lia].
  rewrite (weight_root s a Ha (wf_rooted _ W)). destruct (substitutions s !! a) as [t|]; [destruct (is_open_record t)|]; lia.
Qed.

(** Merging two bound roots [a] and [b] of [s], whose bindings were unified
    from the state without them to [s1]. *)
Lemma merge_shrinks a b P s s1 s2 s' ea eb u :
  wf_core s -> wf_core s1 -> wf_core s2 -> wf_core s' ->
  is_root s a -> is_root s b -> a <> b -> P a = true -> P b = true ->
  substitutions s !! a = Some ea -> substitutions s !! b = Some eb ->
  (is_open_record u = true -> is_open_record ea = true) ->
  shrinks (without a (without b P)) (detach a b s) s1 -> extends s s1 ->
  is_root s1 a -> is_root s1 b ->
  updates s1 s2 -> type_parents s2 = <[a := b]> (type_parents s1) -> substitutions s2 = substitutions s1 ->
  updates s2 s' -> type_parents s' = type_parents s2 -> substitutions s' = <[b := u]> (substitutions s2) ->
  shrinks P s s'.
Proof.
  intros W W1 W2 W' Ha Hb Hne HPa HPb Ea Eb Ho Hsh Hx1 Ha1 Hb1 U2 Ep2 Es2 U3 Ep3 Es3.
  apply shrinks_lt.
  set (R := without a (without b P)) in *.
  assert (a < length (type_parents s)) as Hla by (by eapply lookup_lt_Some).
  assert (b < length (type_parents s)) as Hlb by (by eapply lookup_lt_Some).
  pose proof (extends_length _ _ Hx1) as L1. pose proof (updates_length _ _ U2) as L2.
  pose proof (updates_length _ _ U3) as L3.
  pose proof (height_room_mono _ _ W1 W2 (extends_updates _ _ U2)) as M2.
  pose proof (height_room_mono _ _ W2 W' (extends_updates _ _ U3)) as M3.
  assert (forall z, root_variable s' z = root_variable s2 z) as Hr3 by (intros z; by apply root_same_parents).
  assert (is_root s2 b) as Hb2 by (unfold is_root; rewrite Ep2; by rewrite list_lookup_insert_ne).
  destruct (alias_weights a b s1 s2 (wf_rooted _ W1) Ha1 Hb1 Hne Ep2 Es2) as [Wa Wx].
  assert (classes R (detach a b s) = classes R s) as C0.
  { apply classes_same; [done|]. intros x [Hx1' [Hx2' _]%without_spec]%without_spec _. unfold weight, detach; simpl.
    change (root_variable (with_substitutions _ s) x) with (root_variable s x).
    by rewrite !lookup_delete_ne by done. }
  assert (classes R s2 = classes R s1) as C2.
  { apply classes_same; [done|]. intros x [Hx _]%without_spec _. by apply Wx. }
  assert (classes R s' = classes R s2) as C3.
  { apply classes_same; [done|]. intros x [_ [Hx _]%without_spec]%without_spec _. unfold weight.
    by rewrite Hr3, Es3, lookup_insert_ne by done. }
  assert (weight s' a = 0) as Wa'.
  { unfold weight in *. rewrite Hr3, Es3, lookup_insert_ne by done. done. }
  assert (weight s' b <= weight s a) as Wb'.
  { rewrite (weight_root s a Ha (wf_rooted _ W)), Ea.
    rewrite (weight_root s' b); [|unfold is_root; by rewrite Ep3|apply W']. rewrite Es3, lookup_insert_eq.
    destruct (is_open_record u); [rewrite Ho by done; done|]. destruct (is_open_record ea); lia. }
  assert (1 <= weight s b) as Wb.
  { rewrite (weight_root s b Hb (wf_rooted _ W)), Eb. destruct (is_open_record eb); lia. }
  pose proof (shrinks_le _ _ _ Hsh) as Hle. unfold supply in *.
  change (height_room (detach a b s)) with (height_room s) in Hle.
  rewrite (classes_two a b P s), (classes_two a b P s') by (done || lia). fold R. lia.
Qed.

(** ** The unifier *)

Definition open_keeper (rec : InferType -> InferType -> infer unit InferType) : Prop :=
  forall s l r t s', rec l r s = Some (Ok t, s') -> is_open_record t = true ->
    is_open_record l = true /\ is_open_record r = true.

Lemma unify_variables_variable span rec l r s t s' :
  unify_variables span rec l r s = Some (Ok t, s') -> is_variable t = true.
Proof.
  unfold unify_variables. intros H.
  repeat case_match; simplify_eq; try done; infer_ok H; by injection H as <- <-.
Qed.

Lemma bind_variable_variable span rec v ty s t s' :
  bind_variable span rec v ty s = Some (Ok t, s') -> is_variable t = true.
Proof.
  unfold bind_variable. intros H.
  destruct ty; try (by apply unify_variables_variable in H);
    (destruct (substitutions s !! root_variable s v); [|destruct (occurs s _ _); [done|]]);
    infer_ok H; by injection H as <- <-.
Qed.

Lemma unify_step_open span rec : open_keeper (unify_step span rec).
Proof.
  intros s l r t s' H Ho.
  assert (is_variable t = true -> False) as Hv by (by destruct t).
  destruct (is_variable l) eqn:Vl.
  { destruct l; try done. exfalso. apply Hv. destruct (is_variable r) eqn:Vr.
    - destruct r; try done. by apply unify_variables_variable in H.
    - apply (bind_variable_variable span rec variable r s t s'). by destruct r. }
  destruct (is_variable r) eqn:Vr.
  { destruct r; try done. exfalso. apply Hv, (bind_variable_variable span rec variable l s t s'). by destruct l. }
  destruct l, r; try discriminate; simpl in H; try (injection H as <- <-; done);
    try (by apply infer_bind_Ok in H as (u & s1 & _ & [= <- <-])).
  - unfold unify_records in H. destruct (_ || _ || _); [done|].
    apply infer_bind_Ok in H as (fs & s1 & _ & [= <- <-]). simpl in Ho. by apply andb_true_iff in Ho.
  - infer_ok H. injection H as <- <-. done.
  - destruct (Nat.eqb _ _); [|done]. infer_ok H. injection H as <- <-. done.
Qed.

Lemma unify_inner_open span fuel : open_keeper (unify_inner span fuel).
Proof. destruct fuel; [by intros s l r t s' H|]. apply unify_step_open. Qed.

(** * Unification ends

    The calls of the unifier that are open at once are bounded: a nested call
    either works on smaller types in a state with the same roots and heights,
    or in a state that has used something up ([UnifyMeasure]). *)

Definition shrinker (rec : InferType -> InferType -> infer unit InferType) : Prop :=
  forall s l r t s' P, unifiable s l r -> closed P s -> inside P s l -> inside P s r ->
    rec l r s = Some (Ok t, s') -> shrinks P s s'.

Lemma fields_inside P s fs o :
  inside P s (IRecord fs o) -> forall n t, bt_get n fs = Some t -> inside P s t.
Proof. intros H n t Ht. exact (inside_field _ _ _ _ _ _ H Ht). Qed.

Section Shrinking.
Context (span : Span) (rec : InferType -> InferType -> infer unit InferType).
Context (Hrec : unifier_ok rec) (Hopen : open_keeper rec) (Hshrink : shrinker rec).

Lemma parameters_shrink P ls : forall rs ts s s',
  length ls = length rs -> wf s -> Forall solid ls -> Forall solid rs ->
  Forall (in_scope s) ls -> Forall (in_scope s) rs ->
  closed P s -> Forall (inside P s) ls -> Forall (inside P s) rs ->
  unify_parameters rec ls rs s = Some (Ok ts, s') -> shrinks P s s'.
Proof.
  induction ls as [|l ls IH]; intros [|r rs] ts s s' Hlen Hwf Hls Hrs Hsl Hsr HP Hil Hir H; try done.
  { injection H as <- <-. apply shrinks_refl. }
  simpl in H. infer_ok H. injection H as <- <-.
  apply Forall_cons in Hls as [Hl Hls], Hrs as [Hr Hrs], Hsl as [Hsl1 Hsl], Hsr as [Hsr1 Hsr],
    Hil as [Hil1 Hil], Hir as [Hir1 Hir].
  pose proof (solid_unifiable _ _ _ Hwf Hl Hr Hsl1 Hsr1) as U.
  pose proof (Hrec _ _ _ _ _ U E) as V. pose proof (un_extends _ _ _ _ _ V) as Hext.
  destruct (un_in _ _ _ _ _ V P HP (inside_pair _ _ _ _ Hil1 Hir1)) as [F C _ _].
  eapply shrinks_trans; [by eapply Hshrink|].
  apply (IH rs a0 s1 s0); [by injection Hlen|apply V|done|done| | |done| | |done].
  - eapply Forall_impl; [exact Hsl|]. intros x Hx. by eapply extends_scope.
  - eapply Forall_impl; [exact Hsr|]. intros x Hx. by eapply extends_scope.
  - eapply Forall_impl; [exact Hil|]. intros x Hx. by eapply frame_inside.
  - eapply Forall_impl; [exact Hir|]. intros x Hx. by eapply frame_inside.
Qed.

Lemma fields_shrink P fl fr names : forall fields s fields' s',
  wf s -> fields_typed s fl -> fields_typed s fr -> closed P s ->
  (forall n t, bt_get n fl = Some t -> inside P s t) ->
  (forall n t, bt_get n fr = Some t -> inside P s t) ->
  unify_fields rec fl fr names fields s = Some (Ok fields', s') -> shrinks P s s'.
Proof.
  induction names as [|name names IH]; intros fields s fields' s' Hwf Tl Tr HP Il Ir H; simpl in H.
  { injection H as <- <-. apply shrinks_refl. }
  destruct (bt_get name fields) as [t0|] eqn:Ename; [by eapply (IH fields s)|].
  apply infer_bind_Ok in H as (ty & s1 & Hty & H).
  destruct (field_step rec Hrec fl fr name s ty s1 Hwf Tl Tr Hty) as (S1 & S2 & _ & _ & S5).
  destruct (S5 P HP) as (F & C & _); [eauto|].
  assert (shrinks P s s1) as Hs1.
  { destruct (bt_get name fl) as [a|] eqn:Ea, (bt_get name fr) as [b|] eqn:Eb;
      [|injection Hty as <- <-; apply shrinks_refl..|done].
    destruct (Tl _ _ Ea), (Tr _ _ Eb). eapply Hshrink; [|done|by eapply Il|by eapply Ir|exact Hty].
    by apply solid_unifiable. }
  eapply shrinks_trans; [exact Hs1|]. eapply (IH (bt_insert name ty fields) s1); try done;
    [by eapply fields_typed_extends..| |].
  - intros n t Ht. eapply frame_inside; [done|by eapply Il].
  - intros n t Ht. eapply frame_inside; [done|by eapply Ir].
Qed.

Lemma variables_shrink P s l r t s' :
  unifiable s (IVariable l) (IVariable r) -> closed P s ->
  inside P s (IVariable l) -> inside P s (IVariable r) ->
  unify_variables span rec l r s = Some (Ok t, s') -> shrinks P s s'.
Proof.
  intros [Hwf _ _ _ Hl%scope_variable Hr%scope_variable] HP Il Ir. unfold unify_variables.
  destruct (Nat.eqb_spec (root_variable s l) (root_variable s r)) as [_|Hne].
  { intros [= <- <-]. apply shrinks_refl. }
  pose proof (root_is_root s (wf_rooted _ (wf_wf_core _ Hwf)) l Hl) as Rl.
  pose proof (root_is_root s (wf_rooted _ (wf_wf_core _ Hwf)) r Hr) as Rr.
  apply inside_variable in Il, Ir.
  set (left := root_variable s l) in *. set (right := root_variable s r) in *.
  assert (forall a b s', is_root s a -> is_root s b -> a <> b -> P a = true -> P b = true ->
            substitutions s !! a = None -> alias_variable a b span s = Some (Ok tt, s') -> shrinks P s s') as Halias.
  { intros a b s0 Ha Hb Hab HPa HPb Hn E.
    destruct (alias_variable_keeps span a b s s0 Hwf Ha Hb Hab Hn E) as (W & U & Ep & Es).
    by apply (alias_shrinks a b); [apply Hwf|apply W|..]. }
  assert (the_two left right (Nat.max left right) (Nat.min left right)) as Hmm by (unfold the_two; lia).
  destruct (substitutions s !! left) as [lb|] eqn:Hlb, (substitutions s !! right) as [rb|] eqn:Hrb.
  - destruct (occurs s left rb) eqn:O1; [done|]. destruct (occurs s right lb) eqn:O2; [done|]. simpl.
    destruct (rec lb rb (detach left right s)) as [[[u|] s1]|] eqn:Eu; [|done|done].
    destruct (occurs s1 left u || occurs s1 right u); [done|]. intros H. infer_ok H.
    injection H as <- <-. destruct a, a0. rewrite discard_Ok in E, E0.
    pose proof (bindings_unifiable s left right Hwf lb rb Hlb Hrb) as U.
    pose proof (Hrec _ _ _ _ _ U Eu) as HU. pose proof (un_wf _ _ _ _ _ HU) as W1.
    pose proof (merged_roots s l r left right Hwf Hl Hr eq_refl eq_refl Hne lb rb Hlb Hrb O1 O2 u s1 HU) as Hmr.
    assert (extends s s1) as Hx1.
    { apply (extends_trans s (detach left right s)); [by split|apply HU]. }
    destruct (away_bindings s l r left right Hwf Hl Hr eq_refl eq_refl lb rb Hlb Hrb O1 O2) as [J1 J2].
    set (Q := both P (away s left right)).
    assert (closed Q (detach left right s)) as HQ.
    { apply both_closed; [by apply closed_detach|by apply away_closed]. }
    assert (inside Q (detach left right s) lb /\ inside Q (detach left right s) rb) as [K1 K2].
    { split; apply both_inside; try done; [by apply (closed_binding s P left)|by apply (closed_binding s P right)]. }
    pose proof (Hshrink _ _ _ _ _ Q U HQ K1 K2 Eu) as Hsh.
    destruct (un_in _ _ _ _ _ HU Q HQ (inside_pair _ _ _ _ K1 K2)) as [F _ _ _].
    assert (forall a b, the_two left right a b -> subset Q (without a (without b P))) as Hsub.
    { pose proof (away_left s l left right Hwf Hl eq_refl) as Al.
      pose proof (away_right s r left right Hwf Hr eq_refl) as Ar.
      intros a b Hab x [Hx1' Hx2']%both_spec. apply without_spec. rewrite without_spec.
      assert (x <> left) by congruence. assert (x <> right) by congruence.
      destruct Hab as [[-> ->]|[-> ->]]; done. }
    set (a := Nat.max left right) in *. set (b := Nat.min left right) in *.
    assert (is_root s a /\ is_root s b /\ a <> b /\ P a = true /\ P b = true) as (Ra & Rb & Rab & Pa & Pb).
    { destruct Hmm as [[-> ->]|[-> ->]]; done. }
    assert (is_root s1 a /\ substitutions s1 !! a = None) as [A1 A2].
    { apply Hmr. destruct Hmm as [[-> ->]|[-> ->]]; unfold the_two; tauto. }
    assert (is_root s1 b /\ substitutions s1 !! b = None) as [B1 B2].
    { apply Hmr. destruct Hmm as [[-> ->]|[-> ->]]; unfold the_two; tauto. }
    destruct (alias_variable_keeps span a b s1 _ W1 A1 B1 Rab A2 E) as (W2 & U2 & Ep2 & Es2).
    assert (is_root s0 b) as B3 by (unfold is_root; rewrite Ep2; by rewrite list_lookup_insert_ne).
    assert (bindable s0 u) as Hbind.
    { split; [|apply HU|].
      - apply (un_head _ _ _ _ _ HU); eapply (wf_binding _ (wf_wf_core _ Hwf)); eassumption.
      - apply (extends_scope s1); [by apply extends_updates|apply HU]. }
    destruct (set_binding_keeps span b u s0 _ W2 B3 Hbind E0) as (W3 & U3 & Ep3 & Es3).
    assert (shrinks (without a (without b P)) (detach a b s) s1) as Hsh'.
    { assert (detach a b s = detach left right s) as ->.
      { destruct Hmm as [[-> ->]|[-> ->]]; [done|]. unfold detach. by rewrite delete_delete. }
      apply (shrinks_weaken Q); try done; [apply (extends_length _ _ (un_extends _ _ _ _ _ HU))|by apply Hsub]. }
    destruct Hmm as [[Ea Eb]|[Ea Eb]]; rewrite Ea, Eb in *.
    + apply (merge_shrinks left right P s s1 s0 s2 lb rb u); try done; try apply Hwf; try apply W1; try apply W2; try apply W3.
      intros Ho. by apply (Hopen _ _ _ _ _ Eu).
    + apply (merge_shrinks right left P s s1 s0 s2 rb lb u); try done; try apply Hwf; try apply W1; try apply W2; try apply W3.
      intros Ho. by apply (Hopen _ _ _ _ _ Eu).
  - destruct (occurs s right lb); [done|]. intros H. infer_ok H. injection H as <- <-. destruct a.
    rewrite discard_Ok in E. by apply (Halias right left).
  - destruct (occurs s left rb); [done|]. intros H. infer_ok H. injection H as <- <-. destruct a.
    rewrite discard_Ok in E. by apply (Halias left right).
  - intros H. infer_ok H. injection H as <- <-. destruct a. rewrite discard_Ok in E.
    destruct Hmm as [[Ea Eb]|[Ea Eb]]; rewrite Ea, Eb in E;
      [apply (Halias left right)|apply (Halias right left)]; done || congruence.
Qed.

Lemma bind_variable_shrink P s v ty t s' :
  wf s -> v < length (type_parents s) -> solid ty -> is_variable ty = false -> in_scope s ty ->
  closed P s -> P (root_variable s v) = true -> inside P s ty ->
  bind_variable span rec v ty s = Some (Ok t, s') -> shrinks P s s'.
Proof.
  intros Hwf Hv Hty Hn Hsc HP HPv Hin. rewrite bind_unfold by done.
  pose proof (wf_wf_core _ Hwf) as Hc. pose proof (root_is_root s (wf_rooted _ Hc) v Hv) as Rv.
  set (x := root_variable s v) in *.
  assert (is_open_record ty = false) as Hno.
  { destruct ty as [| | | | | | | | | | | | |fs o| | | |]; try done. by destruct Hty as [-> _]. }
  destruct (substitutions s !! x) as [existing|] eqn:He.
  - intros H. infer_ok H. injection H as <- <-. destruct a0. rewrite discard_Ok in E0.
    pose proof (binding_unifiable _ _ _ _ Hwf He Hty Hn Hsc) as U.
    pose proof (Hrec _ _ _ _ _ U E) as HU.
    destruct (rebound_untouched s x existing ty a s1 Hwf Rv He Hty Hn HU) as (R1 & B1 & Hb).
    assert (inside P s existing) as Hie by (by apply (closed_binding s P x)).
    pose proof (Hshrink _ _ _ _ _ P U HP Hie Hin E) as Hsh.
    destruct (set_binding_keeps span x a s1 _ (un_wf _ _ _ _ _ HU) R1 Hb E0) as (W & U' & Ep & Es).
    eapply shrinks_trans; [exact Hsh|].
    apply (bind_shrinks x a); try done; [apply (un_wf _ _ _ _ _ HU)|apply W|].
    intros Ho. destruct (Hopen _ _ _ _ _ E Ho) as [_ Hot]. congruence.
  - destruct (occurs s x ty); [done|]. intros H. infer_ok H. injection H as <- <-. destruct a.
    rewrite discard_Ok in E.
    assert (bindable s ty) as Hb by (split; [done|by apply solid_headed|done]).
    destruct (set_binding_keeps span x ty s s1 Hwf Rv Hb E) as (W & U' & Ep & Es).
    apply (bind_shrinks x ty); try done; [apply W|]. congruence.
Qed.

Lemma unify_step_shrink : shrinker (unify_step span rec).
Proof.
  intros s l r t s' P U HP Il Ir H. pose proof (ua_wf _ _ _ U) as Hwf.
  destruct (is_variable l) eqn:Vl.
  { destruct l; try done. destruct (is_variable r) eqn:Vr.
    - destruct r; try done. by eapply variables_shrink.
    - destruct U as [_ _ _ [[_ Hr]|[? _]] U5%scope_variable U6]; [|done]. apply inside_variable in Il.
      eapply (bind_variable_shrink P s variable r); try done. by destruct r. }
  destruct (is_variable r) eqn:Vr.
  { destruct r; try done. destruct U as [_ _ _ [[Hl _]|[_ ?]] U5 U6%scope_variable]; [|done].
    apply inside_variable in Ir. eapply (bind_variable_shrink P s variable l); try done. by destruct l. }
  assert (forall n u s1, is_nominal n = true -> rec (contract_record n) r s = Some (Ok u, s1) ->
            is_variable r = false -> shrinks P s s1) as Hnl.
  { intros n u s1 Hn Hu Hv. destruct U as [_ U2 U3 _ U5 U6].
    eapply Hshrink; [|done|by apply contract_inside|exact Ir|exact Hu].
    split; try done; [apply solid_headed, contract_solid|by right|apply contract_scope]. }
  assert (forall n u s1, is_nominal n = true -> rec l (contract_record n) s = Some (Ok u, s1) ->
            is_variable l = false -> shrinks P s s1) as Hnr.
  { intros n u s1 Hn Hu Hv. destruct U as [_ U2 U3 _ U5 U6].
    eapply Hshrink; [|done|exact Il|by apply contract_inside|exact Hu].
    split; try done; [apply solid_headed, contract_solid|by right|apply contract_scope]. }
  destruct l, r; try discriminate; simpl in H; try (injection H as <- <-; apply shrinks_refl);
    try (apply infer_bind_Ok in H as (u & s1 & Hu & [= <- <-]);
         first [by eapply Hnl; [| exact Hu|]|by eapply Hnr; [|exact Hu|]]).
  - apply infer_bind_Ok in H as (u & s1 & Hu & [= <- <-]).
    destruct (solid_pair _ _ _ U eq_refl eq_refl) as [Hl Hr]. destruct U as [_ _ _ _ U5 U6].
    apply (Hshrink s l r u s1 P); try done. by apply solid_unifiable.
  - destruct U as [_ U2 U3 _ U5 U6]. unfold unify_records in H. destruct (_ || _ || _); [done|].
    apply infer_bind_Ok in H as (fields' & s1 & Hf & [= <- <-]).
    eapply (fields_shrink P fields fields0); [done|..|exact Hf];
      [by apply (record_typed s fields is_open)|by apply (record_typed s fields0 is_open0)|done|
       exact (fields_inside _ _ _ _ Il)|exact (fields_inside _ _ _ _ Ir)].
  - apply infer_bind_Ok in H as (u & s1 & Hu & [= <- <-]).
    destruct (solid_pair _ _ _ U eq_refl eq_refl) as [Hl Hr]. destruct U as [_ _ _ _ U5 U6].
    apply (Hshrink s l r u s1 P); try done. by apply solid_unifiable.
  - infer_ok H. injection H as <- <-. destruct (solid_pair _ _ _ U eq_refl eq_refl) as [Hl Hr].
    destruct U as [_ _ _ _ U5 U6].
    apply (parameters_shrink P [l1; l2] [r1; r2] [a; a0] s s0); try done.
    + by apply (node_solid _ _ (node_result l1 l2)).
    + by apply (node_solid _ _ (node_result r1 r2)).
    + exact (node_scope s _ _ (node_result l1 l2) U5).
    + exact (node_scope s _ _ (node_result r1 r2) U6).
    + by apply (node_inside _ _ _ _ (node_result l1 l2)).
    + by apply (node_inside _ _ _ _ (node_result r1 r2)).
    + simpl. unfold infer_bind. by rewrite E, E0.
  - destruct (Nat.eqb_spec (length parameters) (length parameters0)) as [Hlen|]; [|done].
    infer_ok H. injection H as <- <-. destruct (solid_pair _ _ _ U eq_refl eq_refl) as [Hl Hr].
    destruct U as [_ _ _ _ U5 U6].
    pose proof (unify_parameters_snoc _ _ _ _ _ _ _ _ _ _ Hlen E E0) as Hall.
    assert (shrinks P s s0) as Hs0.
    { apply (parameters_shrink P (parameters ++ [l]) (parameters0 ++ [r]) (a ++ [a0]) s s0); try done.
      + by rewrite !length_app, Hlen.
      + by apply (node_solid _ _ (node_function parameters l effect)).
      + by apply (node_solid _ _ (node_function parameters0 r effect0)).
      + exact (node_scope s _ _ (node_function parameters l effect) U5).
      + exact (node_scope s _ _ (node_function parameters0 r effect0) U6).
      + by apply (node_inside _ _ _ _ (node_function parameters l effect)).
      + by apply (node_inside _ _ _ _ (node_function parameters0 r effect0)). }
    destruct (link_effects_fields effect effect0 s0) as (L1 & L2 & L3 & _).
    assert (forall z, root_variable (link_effects effect effect0 s0) z = root_variable s0 z) as Hr0
      by (intros z; by apply root_same_parents).
    assert (supply P (link_effects effect effect0 s0) = supply P s0) as Esup.
    { unfold supply, height_room, classes. rewrite L1, L3. f_equal. apply sum_same. intros x _.
      unfold weight_in, weight. by rewrite Hr0, L2. }
    destruct Hs0 as [H1 H2]. split; rewrite Esup; [done|]. intros Eq. destruct (H2 Eq) as [H3 H4].
    split; [intros z; by rewrite Hr0|]. intros v. unfold height. rewrite L3. apply H4.
Qed.
End Shrinking.

Lemma unify_inner_shrink span fuel : shrinker (unify_inner span fuel).
Proof.
  induction fuel as [|fuel IH]; [by intros s l r t s' P _ _ _ _ H|]. simpl.
  apply unify_step_shrink; [apply unify_inner_ok|apply unify_inner_open|done].
Qed.

(** ** The depth of the recursion *)

(** The height of a type as the recursion sees it: a nominal type stands for
    its contract, a variable for its binding. *)
Fixpoint depth_of s (ty : InferType) : nat :=
  match ty with
  | IVariable v => height s (root_variable s v) + 12
  | IHttpHeader | ILogField => 2
  | IHttpRequest | IHttpResponse => 5
  | IList t | IOption t => S (depth_of s t)
  | IResult t u => S (Nat.max (depth_of s t) (depth_of s u))
  | IRecord fs _ => S (max_list (map (fun f => depth_of s (snd f)) fs))
  | IFunction ps r _ => S (Nat.max (max_list (map (depth_of s) ps)) (depth_of s r))
  | _ => 0
  end.

(** The part of it that is in the syntax. *)
Fixpoint syntax_depth (ty : InferType) : nat :=
  match ty with
  | IHttpHeader | ILogField => 2
  | IHttpRequest | IHttpResponse => 5
  | IList t | IOption t => S (syntax_depth t)
  | IResult t u => S (Nat.max (syntax_depth t) (syntax_depth u))
  | IRecord fs _ => S (max_list (map (fun f => syntax_depth (snd f)) fs))
  | IFunction ps r _ => S (Nat.max (max_list (map syntax_depth ps)) (syntax_depth r))
  | _ => 0
  end.

#[local] Opaque TYPE_DEPTH.

Lemma max_list_add {A} (f g : A -> nat) c l :
  Forall (fun a => f a <= g a + c) l -> max_list (map f l) <= max_list (map g l) + c.
Proof.
  induction 1 as [|a l Ha _ IH]; [simpl; lia|]. unfold max_list in *. simpl. lia.
Qed.

Lemma depth_of_bound s t :
  (forall v, height s v <= TYPE_DEPTH) -> depth_of s t <= syntax_depth t + (TYPE_DEPTH + 12).
Proof.
  intros Hb. induction t as [| | | | | | | | | | | |t IH|fs o IH|t IH|t u IHt IHu|ps r e IHp IHr|v]
    using infer_type_ind'; simpl; try lia.
  - pose proof (max_list_add _ _ _ _ IH). lia.
  - pose proof (max_list_add _ _ _ _ IHp). lia.
  - specialize (Hb (root_variable s v)). lia.
Qed.

(** The walk that computes a height below the bound sees every part. *)
Lemma depth_of_resolved s t d :
  resolved_height s t d + d <= TYPE_DEPTH ->
  depth_of s t <= resolved_height s t d + 12 /\ syntax_depth t <= resolved_height s t d + 12.
Proof.
  assert (forall t d, resolved_height s t d + d <= TYPE_DEPTH -> (S TYPE_DEPTH <=? d) = false) as Hcut.
  { intros t' d' H. apply Nat.leb_gt. lia. }
  revert d; induction t as [| | | | | | | | | | | |t IH|fs o IH|t IH|t u IHt IHu|ps r e IHp IHr|v]
    using infer_type_ind'; intros d Hd; pose proof (Hcut _ _ Hd) as Hc;
    cbn -[Nat.leb] in Hd |- *; rewrite Hc in Hd |- *; try lia.
  - destruct (IH (S d)); lia.
  - assert (Forall (fun f => depth_of s (snd f) <= resolved_height s (snd f) (S d) + 12
                       /\ syntax_depth (snd f) <= resolved_height s (snd f) (S d) + 12) fs) as H.
    { apply Forall_forall. intros f Hf. rewrite Forall_forall in IH. apply IH; [done|].
      pose proof (max_list_elem (resolved_height s (snd f) (S d))
        (map (fun f => resolved_height s (snd f) (S d)) fs)) as Hm.
      specialize (Hm ltac:(apply list_elem_of_fmap; eauto)). lia. }
    apply Forall_and in H as [H1 H2]. apply max_list_add in H1, H2. lia.
  - destruct (IH (S d)); lia.
  - destruct (IHt (S d)), (IHu (S d)); lia.
  - assert (Forall (fun p => depth_of s p <= resolved_height s p (S d) + 12
                       /\ syntax_depth p <= resolved_height s p (S d) + 12) ps) as H.
    { apply Forall_forall. intros p Hp. rewrite Forall_forall in IHp. apply IHp; [done|].
      pose proof (max_list_elem (resolved_height s p (S d))
        (map (fun p => resolved_height s p (S d)) ps)) as Hm.
      specialize (Hm ltac:(apply list_elem_of_fmap; eauto)). lia. }
    apply Forall_and in H as [H1 H2]. apply max_list_add in H1, H2. destruct (IHr (S d)); lia.
Qed.

Lemma depth_of_binding s v t :
  wf s -> substitutions s !! v = Some t ->
  depth_of s t <= height s v + 12 /\ syntax_depth t <= TYPE_DEPTH + 12.
Proof.
  intros Hwf Hv. pose proof (wf_height s v t Hwf Hv) as Hh.
  pose proof (wf_bounded _ (wf_wf_core _ Hwf) v) as Hb.
  destruct (depth_of_resolved s t 0) as [H1 H2]; lia.
Qed.

Lemma depth_of_same s s' t :
  (forall z, root_variable s' z = root_variable s z) -> (forall v, height s' v = height s v) ->
  depth_of s' t = depth_of s t.
Proof.
  intros Hr Hh. induction t as [| | | | | | | | | | | |t IH|fs o IH|t IH|t u IHt IHu|ps r e IHp IHr|v]
    using infer_type_ind'; simpl; try congruence.
  - do 2 f_equal. apply map_ext_in. intros f Hf. rewrite Forall_forall in IH. by apply IH, list_elem_of_In.
  - do 2 f_equal; [|done]. f_equal. apply map_ext_in. intros p Hp. rewrite Forall_forall in IHp.
    by apply IHp, list_elem_of_In.
Qed.

Definition variable_heads (l r : InferType) : nat :=
  (if is_variable l then 1 else 0) + (if is_variable r then 1 else 0).

Section Total.
Context (span : Span) (bound : nat) (Hbound : TYPE_DEPTH + 12 <= bound).

Definition per_unit : nat := 4 * (bound + (TYPE_DEPTH + 12)) + 4.

(** The fuel for unifying [l] and [r]. *)
Definition need P s (l r : InferType) : nat :=
  per_unit * supply P s + 2 * (depth_of s l + depth_of s r) + variable_heads l r.

Definition shallow (t : InferType) : Prop := syntax_depth t <= bound.

Definition decides (fuel : nat) (rec : InferType -> InferType -> infer unit InferType) : Prop :=
  forall s l r P, unifiable s l r -> closed P s -> inside P s l -> inside P s r ->
    shallow l -> shallow r -> need P s l r < fuel -> is_Some (rec l r s).

(** Fuel for a pair of unified_children, whatever their heads. *)
Definition room_for P s (fuel : nat) (l r : InferType) : Prop :=
  per_unit * supply P s + 2 * (depth_of s l + depth_of s r) + 2 < fuel.

Lemma room_for_need P s fuel l r : room_for P s fuel l r -> need P s l r < fuel.
Proof.
  unfold room_for, need, variable_heads. destruct (is_variable l), (is_variable r); lia.
Qed.

Lemma room_for_kept P s s' fuel l r :
  wf_core s' -> shrinks P s s' -> shallow l -> shallow r ->
  room_for P s fuel l r -> room_for P s' fuel l r.
Proof.
  intros W [H1 H2] Hl Hr. unfold room_for, shallow in *. intros H.
  destruct (decide (supply P s' = supply P s)) as [E|Hne].
  - destruct (H2 E) as [Hroot Hh]. rewrite E, !(depth_of_same s s') by done. done.
  - pose proof (depth_of_bound s' l (wf_bounded _ W)). pose proof (depth_of_bound s' r (wf_bounded _ W)).
    assert (per_unit * supply P s' + per_unit <= per_unit * supply P s) by nia.
    unfold per_unit in *. lia.
Qed.

Section Step.
Context (fuel : nat) (rec : InferType -> InferType -> infer unit InferType).
Context (Hrec : unifier_ok rec) (Hshrink : shrinker rec) (Htotal : decides fuel rec).

Lemma infer_bind_decides {E A B} (m : infer E A) (k : A -> infer E B) s :
  is_Some (m s) -> (forall a s1, m s = Some (Ok a, s1) -> is_Some (k a s1)) -> is_Some (infer_bind m k s).
Proof.
  unfold infer_bind. intros [[[a|e] s1] H] Hk; rewrite H; [by apply Hk|eauto].
Qed.

Lemma discard_decides {E A} (m : infer E A) s : is_Some (m s) -> is_Some (discard m s).
Proof. unfold discard, infer_map_err. intros [[[a|e] s1] ->]; eauto. Qed.

Lemma parameters_decide P ls : forall rs s,
  length ls = length rs -> wf s -> Forall solid ls -> Forall solid rs ->
  Forall (in_scope s) ls -> Forall (in_scope s) rs ->
  closed P s -> Forall (inside P s) ls -> Forall (inside P s) rs ->
  Forall shallow ls -> Forall shallow rs -> Forall2 (room_for P s fuel) ls rs ->
  is_Some (unify_parameters rec ls rs s).
Proof.
  induction ls as [|l ls IH]; intros [|r rs] s Hlen Hwf Hls Hrs Hsl Hsr HP Hil Hir Hdl Hdr Hroom; try done; simpl.
  apply Forall_cons in Hls as [Hl Hls], Hrs as [Hr Hrs], Hsl as [Hsl1 Hsl], Hsr as [Hsr1 Hsr],
    Hil as [Hil1 Hil], Hir as [Hir1 Hir], Hdl as [Hdl1 Hdl], Hdr as [Hdr1 Hdr].
  apply Forall2_cons in Hroom as [Hroom1 Hroom].
  pose proof (solid_unifiable _ _ _ Hwf Hl Hr Hsl1 Hsr1) as U.
  apply infer_bind_decides.
  { eapply (Htotal s l r P); try done. by apply room_for_need. }
  intros t s1 Ht. apply infer_bind_decides; [|by intros ts s2 _; eexists].
  pose proof (Hrec _ _ _ _ _ U Ht) as V. pose proof (un_extends _ _ _ _ _ V) as Hext.
  destruct (un_in _ _ _ _ _ V P HP (inside_pair _ _ _ _ Hil1 Hir1)) as [F C _ _].
  pose proof (Hshrink _ _ _ _ _ P U HP Hil1 Hir1 Ht) as Hsh.
  apply IH; try done; [by injection Hlen|apply V|..].
  - eapply Forall_impl; [exact Hsl|]. intros x Hx. by eapply extends_scope.
  - eapply Forall_impl; [exact Hsr|]. intros x Hx. by eapply extends_scope.
  - eapply Forall_impl; [exact Hil|]. intros x Hx. by eapply frame_inside.
  - eapply Forall_impl; [exact Hir|]. intros x Hx. by eapply frame_inside.
  - pose proof (wf_wf_core _ (un_wf _ _ _ _ _ V)) as W. clear -Hbound W Hsh Hdl Hdr Hroom.
    induction Hroom as [|a b ls rs Hab _ IH]; [done|].
    apply Forall_cons in Hdl as [D1 D2], Hdr as [D3 D4].
    constructor; [by eapply room_for_kept|by apply IH].
Qed.

Lemma fields_decide P fl fr names : forall fields s,
  wf s -> fields_typed s fl -> fields_typed s fr -> closed P s ->
  (forall n t, bt_get n fl = Some t -> inside P s t /\ shallow t) ->
  (forall n t, bt_get n fr = Some t -> inside P s t /\ shallow t) ->
  (forall n a b, bt_get n fl = Some a -> bt_get n fr = Some b -> room_for P s fuel a b) ->
  is_Some (unify_fields rec fl fr names fields s).
Proof.
  induction names as [|name names IH]; intros fields s Hwf Tl Tr HP Il Ir Hroom; simpl; [by eexists|].
  destruct (bt_get name fields) as [t0|]; [by apply IH|].
  apply infer_bind_decides.
  { destruct (bt_get name fl) as [a|] eqn:Ea, (bt_get name fr) as [b|] eqn:Eb; [|by eexists..].
    destruct (Tl _ _ Ea), (Tr _ _ Eb), (Il _ _ Ea), (Ir _ _ Eb).
    eapply (Htotal s a b P); try done; [by apply solid_unifiable|]. by eapply room_for_need, Hroom. }
  intros ty s1 Hty.
  destruct (field_step rec Hrec fl fr name s ty s1 Hwf Tl Tr Hty) as (S1 & S2 & _ & _ & S5).
  destruct (S5 P HP) as (F & C & _).
  { intros a b Ha Hb. split; [by apply (Il _ _ Ha)|by apply (Ir _ _ Hb)]. }
  assert (shrinks P s s1) as Hsh.
  { destruct (bt_get name fl) as [a|] eqn:Ea, (bt_get name fr) as [b|] eqn:Eb;
      [|injection Hty as <- <-; apply shrinks_refl..|done].
    destruct (Tl _ _ Ea), (Tr _ _ Eb), (Il _ _ Ea), (Ir _ _ Eb).
    eapply Hshrink; [|done|..|exact Hty]; try done. by apply solid_unifiable. }
  apply IH; try done; [by eapply fields_typed_extends..| | |].
  - intros n t Ht. destruct (Il n t Ht). split; [by eapply frame_inside|done].
  - intros n t Ht. destruct (Ir n t Ht). split; [by eapply frame_inside|done].
  - intros n a b Ha Hb. destruct (Il n a Ha), (Ir n b Hb).
    eapply room_for_kept; [apply S1|exact Hsh|done|done|by eapply Hroom].
Qed.

Lemma detached_supply P s left right :
  wf_core s -> is_root s left -> is_root s right -> left <> right -> P left = true -> P right = true ->
  (exists lb, substitutions s !! left = Some lb) -> (exists rb, substitutions s !! right = Some rb) ->
  forall Q, subset Q (without left (without right P)) ->
    S (supply Q (detach left right s)) <= supply P s.
Proof.
  intros W Hl Hr Hne HPl HPr [lb Elb] [rb Erb] Q Hsub. unfold supply.
  change (height_room (detach left right s)) with (height_room s).
  pose proof (classes_subset Q _ (detach left right s) Hsub) as H1.
  assert (classes (without left (without right P)) (detach left right s)
          = classes (without left (without right P)) s) as H2.
  { apply classes_same; [done|]. intros x [Hx1 [Hx2 _]%without_spec]%without_spec _.
    unfold weight, detach; simpl.
    change (root_variable (with_substitutions _ s) x) with (root_variable s x).
    by rewrite !lookup_delete_ne by done. }
  rewrite (classes_two left right P s) by (done || by eapply lookup_lt_Some).
  assert (1 <= weight s left) as H3; [|lia].
  rewrite (weight_root s left Hl (wf_rooted _ W)), Elb. destruct (is_open_record lb); lia.
Qed.

Lemma variables_decide P s l r :
  unifiable s (IVariable l) (IVariable r) -> closed P s ->
  inside P s (IVariable l) -> inside P s (IVariable r) ->
  need P s (IVariable l) (IVariable r) < S fuel ->
  is_Some (unify_variables span rec l r s).
Proof.
  intros [Hwf _ _ _ Hl%scope_variable Hr%scope_variable] HP Il Ir Hneed. unfold unify_variables.
  destruct (Nat.eqb_spec (root_variable s l) (root_variable s r)) as [_|Hne]; [by eexists|].
  pose proof (wf_wf_core _ Hwf) as Hc.
  pose proof (root_is_root s (wf_rooted _ Hc) l Hl) as Rl.
  pose proof (root_is_root s (wf_rooted _ Hc) r Hr) as Rr.
  apply inside_variable in Il, Ir.
  set (left := root_variable s l) in *. set (right := root_variable s r) in *.
  assert (forall (s0 : Inference) a b (v : infer unit InferType), wf s0 -> is_root s0 a -> is_root s0 b -> a <> b ->
            substitutions s0 !! a = None ->
            (forall s2, alias_variable a b span s0 = Some (Ok tt, s2) -> is_Some (v s2)) ->
            is_Some ((let* _ := discard (alias_variable a b span) in v) s0)) as Halias.
  { intros s0 a b v W Ha Hb Hab Hn Hv. apply infer_bind_decides.
    - by apply discard_decides, alias_variable_decides.
    - intros [] s2. rewrite discard_Ok. apply Hv. }
  assert (the_two left right (Nat.max left right) (Nat.min left right)) as Hmm by (unfold the_two; lia).
  set (a := Nat.max left right) in *. set (b := Nat.min left right) in *.
  destruct (substitutions s !! left) as [lb|] eqn:Hlb, (substitutions s !! right) as [rb|] eqn:Hrb.
  - destruct (occurs s left rb) eqn:O1; [by eexists|]. destruct (occurs s right lb) eqn:O2; [by eexists|]. simpl.
    pose proof (bindings_unifiable s left right Hwf lb rb Hlb Hrb) as U.
    destruct (away_bindings s l r left right Hwf Hl Hr eq_refl eq_refl lb rb Hlb Hrb O1 O2) as [J1 J2].
    set (Q := both P (away s left right)).
    assert (closed Q (detach left right s)) as HQ.
    { apply both_closed; [by apply closed_detach|by apply away_closed]. }
    assert (inside Q (detach left right s) lb /\ inside Q (detach left right s) rb) as [K1 K2].
    { split; apply both_inside; try done; [by apply (closed_binding s P left)|by apply (closed_binding s P right)]. }
    assert (subset Q (without left (without right P))) as Hsub.
    { pose proof (away_left s l left right Hwf Hl eq_refl) as Al.
      pose proof (away_right s r left right Hwf Hr eq_refl) as Ar.
      intros x [Hx1' Hx2']%both_spec. apply without_spec. rewrite without_spec. split; [congruence|].
      split; [congruence|done]. }
    pose proof (detached_supply P s left right Hc Rl Rr Hne Il Ir (ex_intro _ lb Hlb) (ex_intro _ rb Hrb) Q Hsub) as Hsup.
    destruct (depth_of_binding s left lb Hwf Hlb) as [D1 S1], (depth_of_binding s right rb Hwf Hrb) as [D2 S2].
    pose proof (wf_bounded _ Hc left) as B1. pose proof (wf_bounded _ Hc right) as B2.
    assert (is_Some (rec lb rb (detach left right s))) as [[[u|[]] s1] Eu]; [|rewrite Eu|rewrite Eu; by eexists].
    { apply (Htotal _ _ _ Q U HQ K1 K2); [unfold shallow; lia..|].
      unfold need. rewrite !(depth_of_same s (detach left right s)) by done. unfold need in Hneed.
      assert (variable_heads lb rb = 0) as ->.
      { unfold variable_heads. by destruct (wf_binding _ Hc _ _ Hlb) as (-> & _), (wf_binding _ Hc _ _ Hrb) as (-> & _). }
      assert (per_unit * supply Q (detach left right s) + per_unit <= per_unit * supply P s) by nia.
      unfold per_unit in *. lia. }
    destruct (occurs s1 left u || occurs s1 right u); [by eexists|].
    pose proof (Hrec _ _ _ _ _ U Eu) as HU. pose proof (un_wf _ _ _ _ _ HU) as W1.
    pose proof (merged_roots s l r left right Hwf Hl Hr eq_refl eq_refl Hne lb rb Hlb Hrb O1 O2 u s1 HU) as Hmr.
    assert (is_root s1 a /\ substitutions s1 !! a = None) as [A1 A2].
    { apply Hmr. destruct Hmm as [[-> ->]|[-> ->]]; unfold the_two; tauto. }
    assert (is_root s1 b /\ substitutions s1 !! b = None) as [B1' B2'].
    { apply Hmr. destruct Hmm as [[-> ->]|[-> ->]]; unfold the_two; tauto. }
    assert (a <> b) as Hab by (destruct Hmm as [[-> ->]|[-> ->]]; done).
    apply Halias; try done. intros s2 E.
    destruct (alias_variable_keeps span a b s1 s2 W1 A1 B1' Hab A2 E) as (W2 & U2 & Ep2 & Es2).
    apply infer_bind_decides; [|by intros; eexists]. apply discard_decides, set_binding_decides; [done| |].
    + unfold is_root. rewrite Ep2. by rewrite list_lookup_insert_ne.
    + split; [|apply HU|].
      * apply (un_head _ _ _ _ _ HU); eapply (wf_binding _ Hc); eassumption.
      * apply (extends_scope s1); [by apply extends_updates|apply HU].
  - destruct (occurs s right lb); [by eexists|]. by apply Halias.
  - destruct (occurs s left rb); [by eexists|]. by apply Halias.
  - apply Halias; try done; destruct Hmm as [[-> ->]|[-> ->]]; done.
Qed.

Lemma bind_decides P s v ty :
  wf s -> v < length (type_parents s) -> solid ty -> is_variable ty = false -> in_scope s ty ->
  closed P s -> P (root_variable s v) = true -> inside P s ty -> shallow ty ->
  need P s (IVariable v) ty < S fuel -> is_Some (bind_variable span rec v ty s).
Proof.
  intros Hwf Hv Hty Hn Hsc HP HPv Hin Hsh Hneed. rewrite bind_unfold by done.
  pose proof (wf_wf_core _ Hwf) as Hc. pose proof (root_is_root s (wf_rooted _ Hc) v Hv) as Rv.
  set (x := root_variable s v) in *.
  destruct (substitutions s !! x) as [existing|] eqn:He.
  - pose proof (binding_unifiable _ _ _ _ Hwf He Hty Hn Hsc) as U.
    destruct (depth_of_binding s x existing Hwf He) as [D1 S1].
    apply infer_bind_decides.
    + apply (Htotal s existing ty P); try done; [by apply (closed_binding s P x)|unfold shallow; lia|].
      unfold need, variable_heads in *. rewrite Hn in *.
      destruct (wf_binding _ Hc _ _ He) as (-> & _). simpl in Hneed. fold x in Hneed. lia.
    + intros u s1 Eu. pose proof (Hrec _ _ _ _ _ U Eu) as HU.
      destruct (rebound_untouched s x existing ty u s1 Hwf Rv He Hty Hn HU) as (R1 & _ & Hb).
      apply infer_bind_decides; [|by intros; eexists].
      apply discard_decides, set_binding_decides; [apply HU|done|done].
  - destruct (occurs s x ty); [by eexists|]. apply infer_bind_decides; [|by intros; eexists].
    apply discard_decides, set_binding_decides; [done|done|]. split; [done|by apply solid_headed|done].
Qed.


Lemma contract_shallow n : is_nominal n = true -> shallow (contract_record n).
Proof. unfold shallow. intros Hn. destruct n; try done; cbn; lia. Qed.

Lemma contract_depth s n : is_nominal n = true -> depth_of s (contract_record n) < depth_of s n.
Proof. intros Hn. destruct n; try done; cbn; lia. Qed.

Lemma parts_room P s l r ls rs :
  need P s l r < S fuel ->
  Forall (fun x => S (depth_of s x) <= depth_of s l) ls ->
  Forall (fun x => S (depth_of s x) <= depth_of s r) rs -> length ls = length rs ->
  Forall2 (room_for P s fuel) ls rs.
Proof.
  intros Hneed Hl Hr Hlen. apply Forall2_same_length_lookup_2; [done|].
  intros i x y Hx%list_elem_of_lookup_2 Hy%list_elem_of_lookup_2.
  rewrite Forall_forall in Hl, Hr. specialize (Hl x Hx). specialize (Hr y Hy).
  unfold need, room_for in *. lia.
Qed.

Lemma node_shallow l ls :
  shallow l -> Forall (fun x => syntax_depth x <= syntax_depth l) ls -> Forall shallow ls.
Proof. intros Hl H. eapply Forall_impl; [exact H|]. unfold shallow in *. lia. Qed.

Lemma function_depths s ps r e :
  Forall (fun x => S (depth_of s x) <= depth_of s (IFunction ps r e)) (ps ++ [r])
  /\ Forall (fun x => syntax_depth x <= syntax_depth (IFunction ps r e)) (ps ++ [r]).
Proof.
  split; apply Forall_app; (split; [apply Forall_forall; intros p Hp|apply Forall_singleton; simpl; lia]).
  - pose proof (max_list_elem (depth_of s p) (map (depth_of s) ps)) as H.
    specialize (H ltac:(apply list_elem_of_fmap; eauto)). simpl. lia.
  - pose proof (max_list_elem (syntax_depth p) (map syntax_depth ps)) as H.
    specialize (H ltac:(apply list_elem_of_fmap; eauto)). simpl. lia.
Qed.

Lemma result_depths s t u :
  Forall (fun x => S (depth_of s x) <= depth_of s (IResult t u)) [t; u]
  /\ Forall (fun x => syntax_depth x <= syntax_depth (IResult t u)) [t; u].
Proof. rewrite !Forall_cons, !Forall_nil. simpl. lia. Qed.

Lemma record_depths s fs o n t :
  bt_get n fs = Some t ->
  S (depth_of s t) <= depth_of s (IRecord fs o) /\ syntax_depth t <= syntax_depth (IRecord fs o).
Proof.
  intros Ht%bt_get_elem. split; simpl.
  - apply le_n_S, max_list_elem, list_elem_of_fmap. by exists (n, t).
  - apply Nat.le_le_succ_r, max_list_elem, list_elem_of_fmap. by exists (n, t).
Qed.

(** The parameters and the return type as one list. *)
Lemma function_decides lps lr rps rr le re s :
  length lps = length rps -> is_Some (unify_parameters rec (lps ++ [lr]) (rps ++ [rr]) s) ->
  is_Some ((let* parameters := unify_parameters rec lps rps in
            let* return_type := rec lr rr in
            fun s => Some (Ok (IFunction parameters return_type le), link_effects le re s)) s).
Proof.
  intros Hlen Hall. apply infer_bind_decides.
  - revert rps s Hlen Hall. induction lps as [|l lps IH]; intros [|r rps] s Hlen Hall; try done.
    simpl in *. unfold infer_bind in *. destruct (rec l r s) as [[[t|e] s1]|]; [|by eexists|by destruct Hall].
    specialize (IH rps s1 ltac:(by injection Hlen)).
    destruct (unify_parameters rec (lps ++ [lr]) (rps ++ [rr]) s1) as [x|]; [|by destruct Hall].
    destruct (IH (mk_is_Some _ _ eq_refl)) as [[[ts|e] s2] ->]; by eexists.
  - intros ts s1 Hts. apply infer_bind_decides; [|by intros; eexists].
    revert rps s ts Hlen Hall Hts. induction lps as [|l lps IH]; intros [|r rps] s ts Hlen Hall Hts; try done.
    + injection Hts as <- <-. simpl in Hall. unfold infer_bind in Hall.
      destruct (rec lr rr s); [by eexists|by destruct Hall].
    + simpl in *. infer_ok Hts. injection Hts as <- <-. unfold infer_bind in Hall. rewrite E in Hall.
      eapply (IH rps s0 a0); [by injection Hlen| |exact E0].
      destruct (unify_parameters rec (lps ++ [lr]) (rps ++ [rr]) s0); [by eexists|by destruct Hall].
Qed.

Lemma step_decides : decides (S fuel) (unify_step span rec).
Proof.
  intros s l r P U HP Il Ir Sl Sr Hneed. pose proof (ua_wf _ _ _ U) as Hwf.
  destruct (is_variable l) eqn:Vl.
  { destruct l; try done. destruct (is_variable r) eqn:Vr.
    - destruct r; try done. by apply (variables_decide P).
    - destruct U as [_ _ _ [[_ Hr]|[? _]] U5%scope_variable U6]; [|done]. apply inside_variable in Il.
      assert (unify_step span rec (IVariable variable) r = bind_variable span rec variable r) as -> by (by destruct r).
      by apply (bind_decides P). }
  destruct (is_variable r) eqn:Vr.
  { destruct r; try done. destruct U as [_ _ _ [[Hl _]|[_ ?]] U5 U6%scope_variable]; [|done].
    apply inside_variable in Ir.
    assert (unify_step span rec l (IVariable variable) = bind_variable span rec variable l) as -> by (by destruct l).
    apply (bind_decides P); try done. unfold need, variable_heads in *. lia. }
  assert (forall n, is_nominal n = true -> l = n -> is_Some (rec (contract_record n) r s)) as Hnl.
  { intros n Hn ->. destruct U as [_ U2 U3 _ U5 U6]. apply (Htotal s _ _ P); try done.
    - split; try done; [apply solid_headed, contract_solid|by right|apply contract_scope].
    - apply contract_inside.
    - by apply contract_shallow.
    - pose proof (contract_depth s n Hn). unfold need, variable_heads in *. simpl in *. lia. }
  assert (forall n, is_nominal n = true -> r = n -> is_Some (rec l (contract_record n) s)) as Hnr.
  { intros n Hn ->. destruct U as [_ U2 U3 _ U5 U6]. apply (Htotal s _ _ P); try done.
    - split; try done; [apply solid_headed, contract_solid|by right|apply contract_scope].
    - apply contract_inside.
    - by apply contract_shallow.
    - pose proof (contract_depth s n Hn). unfold need, variable_heads in *. simpl in *. lia. }
  assert (forall x y, solid x -> solid y -> in_scope s x -> in_scope s y -> inside P s x -> inside P s y ->
            shallow x -> shallow y -> S (depth_of s x) <= depth_of s l -> S (depth_of s y) <= depth_of s r ->
            is_Some (rec x y s)) as Hchild.
  { intros x y Hx Hy X1 X2 X3 X4 X5 X6 X7 X8. apply (Htotal s x y P); try done; [by apply solid_unifiable|].
    apply room_for_need. unfold need, room_for in *. lia. }
  destruct l, r; try discriminate; simpl; try (by eexists);
    try (apply infer_bind_decides; [first [by apply Hnl|by apply Hnr]|by intros; eexists]).
  - destruct (solid_pair _ _ _ U eq_refl eq_refl) as [Hl Hr]. destruct U as [_ _ _ _ U5 U6].
    apply infer_bind_decides; [|by intros; eexists]. unfold shallow in *. simpl in Sl, Sr.
    apply Hchild; try done; simpl; lia.
  - destruct U as [_ U2 U3 _ U5 U6]. unfold unify_records. destruct (_ || _ || _); [by eexists|].
    apply infer_bind_decides; [|by intros; eexists].
    apply (fields_decide P); [done|by apply (record_typed s fields is_open)|
      by apply (record_typed s fields0 is_open0)|done|..].
    + intros n t Ht. split; [exact (fields_inside _ _ _ _ Il n t Ht)|].
      destruct (record_depths s fields is_open n t Ht). unfold shallow in *. lia.
    + intros n t Ht. split; [exact (fields_inside _ _ _ _ Ir n t Ht)|].
      destruct (record_depths s fields0 is_open0 n t Ht). unfold shallow in *. lia.
    + intros n a b Ha Hb. destruct (record_depths s fields is_open n a Ha), (record_depths s fields0 is_open0 n b Hb).
      unfold room_for, need in *. lia.
  - destruct (solid_pair _ _ _ U eq_refl eq_refl) as [Hl Hr]. destruct U as [_ _ _ _ U5 U6].
    apply infer_bind_decides; [|by intros; eexists]. unfold shallow in *. simpl in Sl, Sr.
    apply Hchild; try done; simpl; lia.
  - destruct (solid_pair _ _ _ U eq_refl eq_refl) as [Hl Hr]. destruct U as [_ _ _ _ U5 U6].
    assert (is_Some (unify_parameters rec [l1; l2] [r1; r2] s)) as Hall.
    { apply (parameters_decide P); try done.
      + by apply (node_solid _ _ (node_result l1 l2)).
      + by apply (node_solid _ _ (node_result r1 r2)).
      + exact (node_scope s _ _ (node_result l1 l2) U5).
      + exact (node_scope s _ _ (node_result r1 r2) U6).
      + by apply (node_inside _ _ _ _ (node_result l1 l2)).
      + by apply (node_inside _ _ _ _ (node_result r1 r2)).
      + apply (node_shallow (IResult l1 l2)); [done|apply (result_depths s)].
      + apply (node_shallow (IResult r1 r2)); [done|apply (result_depths s)].
      + apply (parts_room P s (IResult l1 l2) (IResult r1 r2)); [done|apply result_depths..|done]. }
    simpl in Hall. unfold infer_bind in *. destruct (rec l1 r1 s) as [[[t|e] s1]|]; [|by eexists|by destruct Hall].
    destruct (rec l2 r2 s1) as [[[u|e] s2]|]; [by eexists|by eexists|by destruct Hall].
  - destruct (Nat.eqb_spec (length parameters) (length parameters0)) as [Hlen|]; [|by eexists].
    destruct (solid_pair _ _ _ U eq_refl eq_refl) as [Hl Hr]. destruct U as [_ _ _ _ U5 U6].
    destruct (function_depths s parameters l effect) as [Dl Sl'], (function_depths s parameters0 r effect0) as [Dr Sr'].
    apply function_decides; [done|]. apply (parameters_decide P); try done.
    + by rewrite !length_app, Hlen.
    + by apply (node_solid _ _ (node_function parameters l effect)).
    + by apply (node_solid _ _ (node_function parameters0 r effect0)).
    + exact (node_scope s _ _ (node_function parameters l effect) U5).
    + exact (node_scope s _ _ (node_function parameters0 r effect0) U6).
    + by apply (node_inside _ _ _ _ (node_function parameters l effect)).
    + by apply (node_inside _ _ _ _ (node_function parameters0 r effect0)).
    + by apply (node_shallow (IFunction parameters l effect)).
    + by apply (node_shallow (IFunction parameters0 r effect0)).
    + apply (parts_room P s (IFunction parameters l effect) (IFunction parameters0 r effect0)); try done.
      by rewrite !length_app, Hlen.
Qed.
End Step.

Lemma unify_inner_decides fuel : decides fuel (unify_inner span fuel).
Proof.
  induction fuel as [|fuel IH]; [intros s l r P _ _ _ _ _ _ H; lia|]. simpl.
  apply step_decides; [apply unify_inner_ok|apply unify_inner_shrink|done].
Qed.
End Total.
