(* ===== verification/UnifyResults.v ===== *)
(** * The unifier of type inference

    The theorems about [unify_inner]: it is exact, it ends, and on types
    without nominal types it decides whether two types have a common tree. *)

From S2P Require Import Prelude BTree Syntax Sorting Types Parser Infer InferWf OccursFacts TypeTrees.
From S2P Require Import UnifyParts UnifyVars UnifyFacts UnifyComplete UnifyTotal.

#[local] Open Scope nat_scope.

Implicit Types (s : Inference) (rho : Valuation).

(** ** Initial states *)

Lemma wf_no_inference : wf no_inference.
Proof.
  split; [constructor|]; simpl; try done.
  - intros v Hv. simpl in Hv. lia.
  - intros v. assert (height no_inference v = 0) as ->; [by destruct v|lia].
Qed.

Lemma fresh_root s v :
  rooted (type_parents s) ->
  root_variable (snd (fresh_type s)) v = root_variable s v.
Proof.
  intros Hr. set (n := length (type_parents s)). set (ps := type_parents s ++ [n]).
  assert (forall k v r, climbs (type_parents s) k v r -> climbs ps k v r) as Hlift.
  { induction 1 as [w Hw|k w p r Hw Hne Hc IH].
    - constructor. unfold ps. by rewrite lookup_app_l by (by eapply lookup_lt_Some).
    - econstructor; [|exact Hne|exact IH]. unfold ps. by rewrite lookup_app_l by (by eapply lookup_lt_Some). }
  assert (climbs ps 0 n n) as Hn.
  { constructor. unfold ps, n. by rewrite lookup_app_r, Nat.sub_diag by done. }
  assert (rooted ps) as Hr'.
  { intros w Hw. unfold ps in Hw. rewrite length_app in Hw. simpl in Hw.
    destruct (decide (w = n)) as [->|]; [eauto|].
    destruct (Hr w) as (k & r & Hc); [unfold n in *; lia|]. eauto. }
  destruct (decide (v < n)) as [Hv|Hv].
  - destruct (root_climbs s Hr v Hv) as [k Hc]. eapply (root_of_climbs (snd (fresh_type s)) Hr'). by apply Hlift.
  - rewrite (root_out s v) by (unfold n in *; lia).
    destruct (decide (v = n)) as [->|].
    + by apply (root_of_climbs (snd (fresh_type s)) Hr' 0).
    + apply (root_out (snd (fresh_type s))). simpl. rewrite length_app. simpl. unfold n in *. lia.
Qed.

Lemma fresh_height s v : wf_core s -> height (snd (fresh_type s)) v = height s v.
Proof.
  intros W. unfold height; simpl. destruct (decide (v < length (type_heights s))).
  - by rewrite lookup_app_l.
  - rewrite (lookup_ge_None_2 (type_heights s)) by lia. rewrite lookup_app_r by lia.
    destruct (v - length (type_heights s)) as [|k]; [done|]. by destruct k.
Qed.

Lemma fresh_type_wf s : wf s -> wf (snd (fresh_type s)).
Proof.
  intros [W Hc]. pose proof W as [W1 W2 W3 W4 W5 W6 W7].
  assert (forall v, root_variable (snd (fresh_type s)) v = root_variable s v) as Hr by (intros v; by apply fresh_root).
  assert (forall v, height (snd (fresh_type s)) v = height s v) as Hh by (intros v; by apply fresh_height).
  split; [constructor|].
  - intros v Hv. simpl in Hv. rewrite length_app in Hv. simpl in Hv.
    destruct (decide (v < length (type_parents s))) as [Hlt|].
    + destruct (W1 v Hlt) as (k & r & Hcl). exists k, r. simpl.
      clear -Hcl. induction Hcl as [w Hw|k w p r Hw Hne Hc IH].
      * constructor. by rewrite lookup_app_l by (by eapply lookup_lt_Some).
      * econstructor; [|exact Hne|exact IH]. by rewrite lookup_app_l by (by eapply lookup_lt_Some).
    + exists 0, v. constructor. simpl. assert (v = length (type_parents s)) as -> by lia.
      by rewrite lookup_app_r, Nat.sub_diag by done.
  - simpl. rewrite !length_app. simpl. lia.
  - simpl. rewrite !length_app. simpl. lia.
  - intros v t Hv. pose proof (W4 v t Hv) as Hroot. unfold is_root in *. simpl.
    by rewrite lookup_app_l by (by eapply lookup_lt_Some).
  - intros v t Hv. destruct (W5 v t Hv) as (? & ? & H1 & H2). do 2 (split; [done|]).
    split; [|done]. intros y Hy. simpl. rewrite length_app. specialize (H1 y Hy). simpl. lia.
  - intros v. by rewrite Hh.
  - intros v t y Hv Hy. destruct (W7 v t y Hv Hy) as (w & Hw & Hwr). exists w. rewrite !Hr. split; [|done].
    unfold dependents in *. simpl. destruct (type_dependents s !! root_variable s y) as [l|] eqn:El.
    + by rewrite lookup_app_l, El by (by eapply lookup_lt_Some).
    + by apply elem_of_nil in Hw.
  - intros v t Hv. left. rewrite Hh. rewrite (resolved_height_same _ s); [|intros y _; by rewrite Hr, Hh].
    by apply (wf_height s).
Qed.

Lemma fresh_effect_wf s : wf s -> wf (snd (fresh_effect s)).
Proof.
  intros [W Hc]. pose proof W as [W1 W2 W3 W4 W5 W6 W7]. split; [constructor|]; simpl; try done.
  - intros v t Hv. destruct (W5 v t Hv) as (? & ? & H1 & H2). do 2 (split; [done|]).
    split; [done|]. intros e He. simpl. rewrite length_app. specialize (H2 e He). simpl. lia.
  - intros v t Hv. left. rewrite (resolved_height_fields _ s) by done. by apply (wf_height s).
Qed.

(** ** More fuel *)

Definition below {E A} (m m' : infer E A) : Prop :=
  forall s x, m s = Some x -> m' s = Some x.

Definition rec_below (f g : InferType -> InferType -> infer unit InferType) : Prop :=
  forall l r, below (f l r) (g l r).

Lemma below_refl {E A} (m : infer E A) : below m m.
Proof. by intros s x. Qed.

Lemma below_bind {E A B} (m m' : infer E A) (k k' : A -> infer E B) :
  below m m' -> (forall a, below (k a) (k' a)) -> below (infer_bind m k) (infer_bind m' k').
Proof.
  intros Hm Hk s x. unfold infer_bind. destruct (m s) as [[[a|e] s1]|] eqn:E1; [| |done].
  - rewrite (Hm _ _ E1). apply Hk.
  - by rewrite (Hm _ _ E1).
Qed.

Ltac below :=
  repeat match goal with
  | H : rec_below ?f ?g |- below (?f _ _) (?g _ _) => apply H
  | |- below (infer_bind _ _) (infer_bind _ _) => apply below_bind; [|intros ?]
  | |- below ?m ?m => apply below_refl
  end.

Section More.
Context (span : Span) (f g : InferType -> InferType -> infer unit InferType) (Hfg : rec_below f g).

Lemma unify_fields_below fl fr names fields : below (unify_fields f fl fr names fields) (unify_fields g fl fr names fields).
Proof.
  revert fields. induction names as [|n names IH]; intros fields; simpl; [below|].
  destruct (bt_get n fields); [apply IH|]. apply below_bind; [|intros t; apply IH].
  destruct (bt_get n fl), (bt_get n fr); below.
Qed.

Lemma unify_parameters_below ls rs : below (unify_parameters f ls rs) (unify_parameters g ls rs).
Proof.
  revert rs. induction ls as [|l ls IH]; intros [|r rs]; simpl; below. apply IH.
Qed.

Lemma unify_variables_below l r : below (unify_variables span f l r) (unify_variables span g l r).
Proof.
  intros s x. unfold unify_variables. destruct (Nat.eqb _ _); [done|].
  destruct (substitutions s !! root_variable s l) as [lb|], (substitutions s !! root_variable s r) as [rb|]; try done.
  destruct (_ || _); [done|].
  destruct (f lb rb _) as [[[u|e] s1]|] eqn:E; [| |done]; by rewrite (Hfg _ _ _ _ E).
Qed.

Lemma bind_variable_below v ty : below (bind_variable span f v ty) (bind_variable span g v ty).
Proof.
  intros s x. destruct (is_variable ty) eqn:V.
  - destruct ty; try done. apply unify_variables_below.
  - rewrite !bind_unfold by done. destruct (substitutions s !! _) as [e|]; [|done].
    apply (below_bind (f e ty) (g e ty)); [apply Hfg|intros u; apply below_refl].
Qed.

Lemma unify_step_below : rec_below (unify_step span f) (unify_step span g).
Proof.
  intros l r. destruct (is_variable l) eqn:Vl.
  { destruct l; try done. destruct r; try apply bind_variable_below. apply unify_variables_below. }
  destruct (is_variable r) eqn:Vr.
  { destruct r; try done. destruct l; try done; apply bind_variable_below. }
  destruct l, r; try discriminate; simpl; below.
  - unfold unify_records. destruct (_ || _ || _); below. apply unify_fields_below.
  - destruct (Nat.eqb _ _); below. apply unify_parameters_below.
Qed.
End More.

Lemma unify_inner_below span fuel fuel' :
  fuel <= fuel' -> rec_below (unify_inner span fuel) (unify_inner span fuel').
Proof.
  revert fuel'. induction fuel as [|fuel IH]; intros [|fuel'] Hle; try (by intros l r s x H); [lia|].
  simpl. apply unify_step_below, IH. lia.
Qed.

(** Fuel that is enough for two types in a state. *)
Definition unify_bound (left right : InferType) : nat :=
  Nat.max (TYPE_DEPTH + 12) (Nat.max (syntax_depth left) (syntax_depth right)).

Definition unify_fuel s (left right : InferType) : nat :=
  S (need (unify_bound left right) everywhere s left right).

Lemma unify_decides span s left right :
  wf s -> solid left -> solid right -> in_scope s left -> in_scope s right ->
  is_Some (unify_inner span (unify_fuel s left right) left right s).
Proof.
  intros Hwf Hl Hr Sl Sr.
  assert (TYPE_DEPTH + 12 <= unify_bound left right) as Hb by apply Nat.le_max_l.
  apply (unify_inner_decides span (unify_bound left right) Hb) with everywhere; try done.
  - by apply solid_unifiable.
  - unfold shallow, unify_bound. lia.
  - unfold shallow, unify_bound. lia.
  - apply Nat.lt_succ_diag_r.
Qed.

(** A well-formed state with two types to unify in it. *)
Record typed_pair s (left right : InferType) : Prop := {
  tp_wf : wf s;
  tp_left : solid left;
  tp_right : solid right;
  tp_left_scope : in_scope s left;
  tp_right_scope : in_scope s right;
}.

(** ** Theorems *)

(** C12: Unification is exact.  When [unify_inner] succeeds on two types of a
    well-formed inference state, the valuations that solve the new state are
    exactly those that solve the old one and give both types the same tree;
    the returned type has that tree too; the new state is well-formed, so no
    variable occurs in its own binding and no type nests deeper than the
    limit; and it has a solution. *)
Theorem unify_exact span fuel s left right ty s' :
  typed_pair s left right ->
  unify_inner span fuel left right s = Some (Ok ty, s') ->
  wf s'
  /\ (forall rho, solves s' rho <-> solves s rho /\ tree_of rho left = tree_of rho right)
  /\ (forall rho, solves s' rho -> tree_of rho ty = tree_of rho left)
  /\ solves s' (solution s').
Proof.
  intros [Hwf Hl Hr Sl Sr] H.
  pose proof (unify_inner_ok span fuel _ _ _ _ _ (solid_unifiable _ _ _ Hwf Hl Hr Sl Sr) H) as U.
  destruct (un_in _ _ _ _ _ U everywhere (closed_everywhere s) (pair_inside_everywhere _ _ _)) as [_ _ _ Hex].
  apply exact_solid in Hex as [H1 H2]; [|done|done|by apply U].
  split; [apply U|]. do 2 (split; [done|]). apply solution_solves, U.
Qed.

(** C13: Unification ends.  For two types of a well-formed inference state there
    is one outcome that every run with enough fuel returns; [unify_fuel] is
    enough. *)
Theorem unify_terminates span s left right :
  typed_pair s left right ->
  exists outcome, forall fuel, unify_fuel s left right <= fuel ->
    unify_inner span fuel left right s = Some outcome.
Proof.
  intros [Hwf Hl Hr Sl Sr]. destruct (unify_decides span s left right Hwf Hl Hr Sl Sr) as [outcome H].
  exists outcome. intros fuel Hle. by apply (unify_inner_below span _ fuel Hle).
Qed.

(** C14: Unification rejects only what it must.  On types without nominal types,
    with a state that has none and has recorded no depth error, an error is
    either the recorded depth limit ([K1005]) or the proof that no solution of
    the state gives the two types the same tree. *)
Theorem unify_complete span fuel s left right s' :
  typed_pair s left right -> plain_state s -> plain left = true -> plain right = true ->
  unify_inner span fuel left right s = Some (Err tt, s') ->
  is_Some (type_depth_error s')
  \/ forall rho, solves s rho -> tree_of rho left <> tree_of rho right.
Proof.
  intros [Hwf Hl Hr Sl Sr] Hs Pl Pr H.
  destruct (type_depth_error s') as [e|] eqn:E; [left; by eexists|right].
  intros rho Hsol Heq.
  apply (unify_inner_complete span fuel _ _ _ _ (solid_unifiable _ _ _ Hwf Hl Hr Sl Sr) Hs Pl Pr H E rho
           (tree_of rho left) Hsol); by apply instance_solid.
Qed.

(** ** Two jobs or two events do not unify *)

(** [unify_inner] has no case for [QueueJob] or [ScheduleEvent], so a type
    never unifies with itself there, though every other type does. *)
Theorem queue_job_mismatch span fuel s :
  unify_inner span (S fuel) IQueueJob IQueueJob s = Some (Err tt, s)
  /\ unify_inner span (S fuel) IScheduleEvent IScheduleEvent s = Some (Err tt, s)
  /\ unify_inner span (S fuel) IHttpRequest IHttpRequest s = Some (Ok IHttpRequest, s).
Proof. done. Qed.

(** ** Samples *)

Definition sample_span : Span := mkSpan 0 1.

(** [List<'a>] and [List<List<'b>>] in a state with two variables. *)
Definition two_variables : Inference := snd (fresh_type (snd (fresh_type no_inference))).
Definition sample_left : InferType := IList (IVariable 0).
Definition sample_right : InferType := IList (IList (IVariable 1)).

Lemma two_variables_pair left right :
  solid left -> solid right ->
  Forall (fun v => v < 2) (type_variables left ++ type_variables right) ->
  type_effects left = [] -> type_effects right = [] -> typed_pair two_variables left right.
Proof.
  intros Hl Hr Hv El Er. rewrite Forall_app, !Forall_forall in Hv. destruct Hv as [Vl Vr].
  split; [by apply fresh_type_wf, fresh_type_wf, wf_no_inference|done|done|..].
  - split; [exact Vl|]. rewrite El. intros e He. by apply elem_of_nil in He.
  - split; [exact Vr|]. rewrite Er. intros e He. by apply elem_of_nil in He.
Qed.

Lemma sample_pair : typed_pair two_variables sample_left sample_right.
Proof. apply two_variables_pair; try done. repeat constructor. Qed.

Definition sample_unified : Inference :=
  match unify_inner sample_span 9 sample_left sample_right two_variables with
  | Some (_, s) => s
  | None => no_inference
  end.

Lemma unify_exact_witness :
  substitutions sample_unified !! 0 = Some (IList (IVariable 1)) /\ wf sample_unified
  /\ forall rho, solves sample_unified rho
       -> type_value rho 0 = TList (type_value rho 1).
Proof.
  destruct (unify_exact sample_span 9 two_variables sample_left sample_right (IList (IVariable 0)) sample_unified)
    as (W & H & _); [apply sample_pair|by vm_compute|].
  split; [by vm_compute|]. split; [exact W|]. intros rho Hs. apply H in Hs as [_ E]. by injection E.
Defined.

Lemma unify_terminates_witness :
  exists outcome, forall fuel, unify_fuel two_variables sample_left sample_right <= fuel ->
    unify_inner sample_span fuel sample_left sample_right two_variables = Some outcome.
Proof. apply (unify_terminates sample_span), sample_pair. Defined.

(** ['a] against [List<'a>]: no finite tree contains itself. *)
Lemma unify_complete_witness :
  unify_inner sample_span 9 (IVariable 0) (IList (IVariable 0)) two_variables
  = Some (Err tt, two_variables)
  /\ forall rho, solves two_variables rho -> type_value rho 0 <> TList (type_value rho 0).
Proof.
  split; [by vm_compute|].
  destruct (unify_complete sample_span 9 two_variables (IVariable 0) (IList (IVariable 0)) two_variables)
    as [[e E]|H].
  - apply two_variables_pair; try done. repeat constructor.
  - by intros v t.
  - done.
  - done.
  - by vm_compute.
  - done.
  - exact H.
Defined.
