(* ===== verification/Builtins.v ===== *)
(** * The built-in names

    Models [krit/src/builtin.rs]: the built-in functions and values a program
    may name, their spelling, category and documented signature.  The
    documentation texts are not modelled.  [Bi] marks the constructors. *)

From S2P Require Import Prelude.

Inductive Builtin : Type :=
| BiAiInvoke | BiPrint | BiPrintln | BiSome | BiNone | BiOk | BiErr | BiJsonEncode
| BiJsonDecode | BiConfigString | BiSecret | BiHttpRequest | BiLogInfo | BiLogError | BiStateGet
| BiStatePut | BiStateDelete | BiCheckpointGet | BiCheckpointPut | BiReplayHttp | BiReplayAi
| BiQueuePublish | BiObjectGet | BiObjectPut | BiObjectDelete | BiDatabaseBeginRead
| BiDatabaseBeginWrite | BiDatabaseQuery | BiDatabaseExecute | BiDatabaseCommit
| BiDatabaseRollback | BiCacheGet | BiCachePut | BiCacheDelete | BiSearchQuery | BiVectorSearch
| BiIntToString | BiUrlPathSegment | BiUrlQuery | BiStringByteLen | BiStringIsEmpty
| BiStringContains | BiStringStartsWith | BiStringEndsWith.

#[export] Instance Builtin_eq_dec : EqDecision Builtin.
Proof. solve_decision. Defined.

(** [Builtin::ALL] and [Builtin::STANDARD_LIBRARY]. *)
Definition ALL_BUILTINS : list Builtin :=
  [
   BiAiInvoke; BiConfigString; BiErr; BiHttpRequest; BiJsonDecode; BiJsonEncode; BiLogError;
   BiLogInfo; BiNone; BiOk; BiPrint; BiPrintln; BiSecret; BiSome; BiStateDelete; BiStateGet;
   BiStatePut; BiCheckpointGet; BiCheckpointPut; BiReplayAi; BiReplayHttp; BiQueuePublish;
   BiObjectDelete; BiObjectGet; BiObjectPut; BiDatabaseBeginRead; BiDatabaseBeginWrite;
   BiDatabaseCommit; BiDatabaseExecute; BiDatabaseQuery; BiDatabaseRollback; BiCacheDelete;
   BiCacheGet; BiCachePut; BiSearchQuery; BiVectorSearch; BiIntToString; BiStringByteLen;
   BiStringContains; BiStringEndsWith; BiStringIsEmpty; BiStringStartsWith; BiUrlPathSegment;
   BiUrlQuery].

Definition STANDARD_LIBRARY : list Builtin :=
  [
   BiIntToString; BiStringByteLen; BiStringContains; BiStringEndsWith; BiStringIsEmpty;
   BiStringStartsWith; BiUrlPathSegment; BiUrlQuery].

(** The arms of [from_name]. *)
Definition builtin_names : list (string * Builtin) :=
  [
   ("ai_invoke", BiAiInvoke); ("print", BiPrint); ("println", BiPrintln); ("Some", BiSome);
   ("None", BiNone); ("Ok", BiOk); ("Err", BiErr); ("json_encode", BiJsonEncode);
   ("json_decode", BiJsonDecode); ("config_string", BiConfigString); ("secret", BiSecret);
   ("http_request", BiHttpRequest); ("log_info", BiLogInfo); ("log_error", BiLogError);
   ("state_get", BiStateGet); ("state_put", BiStatePut); ("state_delete", BiStateDelete);
   ("checkpoint_get", BiCheckpointGet); ("checkpoint_put", BiCheckpointPut);
   ("replay_http", BiReplayHttp); ("replay_ai", BiReplayAi); ("queue_publish", BiQueuePublish);
   ("object_get", BiObjectGet); ("object_put", BiObjectPut); ("object_delete", BiObjectDelete);
   ("db_begin_read", BiDatabaseBeginRead); ("db_begin_write", BiDatabaseBeginWrite);
   ("db_query", BiDatabaseQuery); ("db_execute", BiDatabaseExecute);
   ("db_commit", BiDatabaseCommit); ("db_rollback", BiDatabaseRollback);
   ("cache_get", BiCacheGet); ("cache_put", BiCachePut); ("cache_delete", BiCacheDelete);
   ("search_query", BiSearchQuery); ("vector_search", BiVectorSearch);
   ("int_to_string", BiIntToString); ("url_path_segment", BiUrlPathSegment);
   ("url_query", BiUrlQuery); ("string_byte_len", BiStringByteLen);
   ("string_is_empty", BiStringIsEmpty); ("string_contains", BiStringContains);
   ("string_starts_with", BiStringStartsWith); ("string_ends_with", BiStringEndsWith)].

(** [Builtin::from_name]. *)
Definition builtin_from_name (name : string) : option Builtin :=
  snd <$> find (fun '(reserved, _) => bool_decide (reserved = name)) builtin_names.

(** [Builtin::as_str]. *)
Definition builtin_str (b : Builtin) : string :=
  match b with
  | BiAiInvoke => "ai_invoke"
  | BiPrint => "print"
  | BiPrintln => "println"
  | BiSome => "Some"
  | BiNone => "None"
  | BiOk => "Ok"
  | BiErr => "Err"
  | BiJsonEncode => "json_encode"
  | BiJsonDecode => "json_decode"
  | BiConfigString => "config_string"
  | BiSecret => "secret"
  | BiHttpRequest => "http_request"
  | BiLogInfo => "log_info"
  | BiLogError => "log_error"
  | BiStateGet => "state_get"
  | BiStatePut => "state_put"
  | BiStateDelete => "state_delete"
  | BiCheckpointGet => "checkpoint_get"
  | BiCheckpointPut => "checkpoint_put"
  | BiReplayHttp => "replay_http"
  | BiReplayAi => "replay_ai"
  | BiQueuePublish => "queue_publish"
  | BiObjectGet => "object_get"
  | BiObjectPut => "object_put"
  | BiObjectDelete => "object_delete"
  | BiDatabaseBeginRead => "db_begin_read"
  | BiDatabaseBeginWrite => "db_begin_write"
  | BiDatabaseQuery => "db_query"
  | BiDatabaseExecute => "db_execute"
  | BiDatabaseCommit => "db_commit"
  | BiDatabaseRollback => "db_rollback"
  | BiCacheGet => "cache_get"
  | BiCachePut => "cache_put"
  | BiCacheDelete => "cache_delete"
  | BiSearchQuery => "search_query"
  | BiVectorSearch => "vector_search"
  | BiIntToString => "int_to_string"
  | BiUrlPathSegment => "url_path_segment"
  | BiUrlQuery => "url_query"
  | BiStringByteLen => "string_byte_len"
  | BiStringIsEmpty => "string_is_empty"
  | BiStringContains => "string_contains"
  | BiStringStartsWith => "string_starts_with"
  | BiStringEndsWith => "string_ends_with"
  end.

Inductive BuiltinCategory : Type := HostEffect | Constructor | Conversion | StandardLibrary.

#[export] Instance BuiltinCategory_eq_dec : EqDecision BuiltinCategory.
Proof. solve_decision. Defined.

Definition category_str (c : BuiltinCategory) : string :=
  match c with
  | HostEffect => "host-effect"
  | Constructor => "constructor"
  | Conversion => "conversion"
  | StandardLibrary => "standard-library"
  end.

(** [Builtin::category]. *)
Definition category (b : Builtin) : BuiltinCategory :=
  match b with
  | BiSome | BiNone | BiOk | BiErr => Constructor
  | BiJsonEncode | BiJsonDecode => Conversion
  | BiIntToString | BiUrlPathSegment | BiUrlQuery | BiStringByteLen | BiStringIsEmpty
  | BiStringContains | BiStringStartsWith | BiStringEndsWith => StandardLibrary
  | _ => HostEffect
  end.

(** [Builtin::signature]. *)
Definition signature (b : Builtin) : string :=
  match b with
  | BiAiInvoke =>
      "fn(String, String) -> Result<String, String> effects {ai.invoke}"
  | BiPrint | BiPrintln =>
      "fn('a) -> Unit effects {io.stdout}"
  | BiSome =>
      "fn('a) -> Option<'a> effects {}"
  | BiNone =>
      "Option<'a>"
  | BiOk =>
      "fn('a) -> Result<'a, 'b> effects {}"
  | BiErr =>
      "fn('b) -> Result<'a, 'b> effects {}"
  | BiJsonEncode =>
      "fn('a) -> String effects {}"
  | BiJsonDecode =>
      "fn(String) -> 'a effects {}"
  | BiConfigString =>
      "fn(String) -> Result<String, String> effects {config.read}"
  | BiSecret =>
      "fn(String) -> Result<Secret, String> effects {secret.read}"
  | BiHttpRequest =>
      "fn(String, HttpRequest, Option<Secret>) -> Result<HttpResponse, String> effects {http.request}"
  | BiLogInfo | BiLogError =>
      "fn(String, List<LogField>) -> Result<Unit, String> effects {observe.log}"
  | BiStateGet | BiCheckpointGet =>
      "fn(String, String) -> Result<Option<String>, String> effects {state.transaction}"
  | BiStatePut | BiCheckpointPut =>
      "fn(String, String, String) -> Result<Unit, String> effects {state.transaction}"
  | BiStateDelete =>
      "fn(String, String) -> Result<Unit, String> effects {state.transaction}"
  | BiReplayHttp =>
      "fn(String, String, String, HttpRequest) -> Result<HttpResponse, String> effects {state.transaction}"
  | BiReplayAi =>
      "fn(String, String, String, String) -> Result<String, String> effects {state.transaction}"
  | BiQueuePublish =>
      "fn(String, String) -> Result<String, String> effects {queue.publish}"
  | BiObjectGet =>
      "fn(String, String) -> Result<Option<String>, String> effects {object.read}"
  | BiObjectPut =>
      "fn(String, String, String) -> Result<Unit, String> effects {object.write}"
  | BiObjectDelete =>
      "fn(String, String) -> Result<Unit, String> effects {object.write}"
  | BiDatabaseBeginRead =>
      "fn(String) -> Result<DatabaseTransaction, String> effects {database.read}"
  | BiDatabaseBeginWrite =>
      "fn(String) -> Result<DatabaseTransaction, String> effects {database.write}"
  | BiDatabaseQuery =>
      "fn(DatabaseTransaction, String, List<String>) -> Result<String, String> effects {}"
  | BiDatabaseExecute =>
      "fn(DatabaseTransaction, String, List<String>) -> Result<Int, String> effects {}"
  | BiDatabaseCommit | BiDatabaseRollback =>
      "fn(DatabaseTransaction) -> Result<Unit, String> effects {}"
  | BiCacheGet =>
      "fn(String, String) -> Result<Option<String>, String> effects {cache.read}"
  | BiCachePut =>
      "fn(String, String, String, Int) -> Result<Unit, String> effects {cache.write}"
  | BiCacheDelete =>
      "fn(String, String) -> Result<Unit, String> effects {cache.write}"
  | BiSearchQuery =>
      "fn(String, String, Int) -> Result<String, String> effects {search.query}"
  | BiVectorSearch =>
      "fn(String, String, Int) -> Result<String, String> effects {search.vector}"
  | BiIntToString =>
      "fn(Int) -> String effects {}"
  | BiUrlPathSegment =>
      "fn(String) -> Result<String, String> effects {}"
  | BiUrlQuery =>
      "fn(List<Record { name: String, value: String }>) -> String effects {}"
  | BiStringByteLen =>
      "fn(String) -> Int effects {}"
  | BiStringIsEmpty =>
      "fn(String) -> Bool effects {}"
  | BiStringContains | BiStringStartsWith | BiStringEndsWith =>
      "fn(String, String) -> Bool effects {}"
  end.

(** The built-ins the host performs: a program names them only as the callee
    of a call, so that their resources stand in its text. *)
Definition is_host_builtin (b : Builtin) : bool :=
  match b with
  | BiAiInvoke | BiConfigString | BiSecret | BiHttpRequest | BiLogInfo | BiLogError | BiStateGet
  | BiStatePut | BiStateDelete | BiCheckpointGet | BiCheckpointPut | BiReplayHttp | BiReplayAi
  | BiQueuePublish | BiObjectGet | BiObjectPut | BiObjectDelete | BiDatabaseBeginRead
  | BiDatabaseBeginWrite | BiDatabaseQuery | BiDatabaseExecute | BiDatabaseCommit
  | BiDatabaseRollback | BiCacheGet | BiCachePut | BiCacheDelete | BiSearchQuery
  | BiVectorSearch => true
  | _ => false
  end.

(** ** Names *)

Lemma all_builtins_complete b : b ∈ ALL_BUILTINS.
Proof. apply (bool_decide_eq_true_1 (b ∈ ALL_BUILTINS)). by destruct b. Qed.

Lemma from_name_str b : builtin_from_name (builtin_str b) = Some b.
Proof. destruct b; vm_compute; reflexivity. Qed.

Lemma from_name_Some name b : builtin_from_name name = Some b -> name = builtin_str b.
Proof.
  unfold builtin_from_name. intros H. destruct (find _ _) as [[r b']|] eqn:E; [|done]. injection H as <-.
  apply find_some in E as [Hin E]. apply bool_decide_eq_true in E as <-.
  assert (Forall (fun p => fst p = builtin_str (snd p)) builtin_names) as HF.
  { apply (bool_decide_eq_true_1 (Forall _ _)). vm_compute. reflexivity. }
  rewrite Forall_forall in HF. apply list_elem_of_In in Hin. apply (HF _ Hin).
Qed.

Lemma from_name_iff name b : builtin_from_name name = Some b <-> name = builtin_str b.
Proof. split; [apply from_name_Some|]. intros ->. apply from_name_str. Qed.
