(* ===== verification/Normalize.v ===== *)
(** * Resolved effects and reported types

    What the [Analyzer] of [krit/src/analysis.rs] reads off a finished
    inference state: the effects and requirements of each effect variable, the
    types it reports, and the walks that look for opaque types or functions.

    The loop of [expanded_effects] runs until a round changes nothing.  Every
    other round adds an element to one of the sets, so the fuel given here is
    enough: [expand_sets_least] shows that the loop ends with the least sets
    that have what each definition performs itself and are closed under its
    dependencies.  The walks over types enter a binding for each variable they
    have not seen. *)

From S2P Require Import Prelude BTree Syntax Sorting Types Infer.

(** ** Effects and requirements *)

Section Expansion.
Context {A : Type} `{CmpOk A} `{EqDecision A}.

(** One round of the loop, over the dependencies of each definition. *)
Definition expand_round (deps : list (list nat)) (previous : list (list A)) : list (list A) :=
  zip_with
    (fun ds own => fold_left (fun own d => oset_extend own (default [] (previous !! d))) ds own)
    deps previous.

Fixpoint expand_loop (fuel : nat) (deps : list (list nat)) (previous : list (list A))
  : list (list A) :=
  match fuel with
  | O => previous
  | S fuel' =>
      let expanded := expand_round deps previous in
      if bool_decide (expanded = previous) then expanded else expand_loop fuel' deps expanded
  end.

Definition expand_fuel (sets : list (list A)) : nat := S (length sets * length (concat sets)).

Definition expand_sets (deps : list (list nat)) (direct : list (list A)) : list (list A) :=
  expand_loop (expand_fuel direct) deps direct.

(** [resolve_effects] and [resolve_requirements]. *)
Definition resolve_set (own : list A) (ds : list nat) (expanded : list (list A)) : list A :=
  fold_left (fun own d => oset_extend own (default [] (expanded !! d))) ds own.

(** Sets are lists in ascending order, without duplicates. *)
Definition ascending (l : list A) : Prop := StronglySorted (fun x y => cmp x y = Lt) l.

Lemma ascending_NoDup l : ascending l -> NoDup l.
Proof.
  induction 1 as [|x l _ IH Hx]; constructor; [|done]. intros Hin. rewrite Forall_forall in Hx.
  specialize (Hx x Hin). by rewrite (proj2 (cmp_eq_iff x x)) in Hx.
Qed.

Lemma cmp_gt (x y : A) : cmp x y = Gt -> cmp y x = Lt.
Proof. intros Hg. by rewrite cmp_antisym, Hg. Qed.

(** Inserting a present element changes nothing; a new one adds it. *)
Lemma insert_ascending x l :
  ascending l -> ascending (oset_insert x l)
  /\ (oset_insert x l = l \/ length (oset_insert x l) = S (length l)).
Proof.
  induction 1 as [|y l Hl [IH1 IH2] Hy]; simpl.
  - split; [repeat constructor|by right].
  - destruct (cmp x y) eqn:E.
    + split; [by constructor|by left].
    + split; [|by right]. constructor; [by constructor|]. constructor; [done|].
      eapply Forall_impl; [exact Hy|]. intros z. by apply cmp_trans.
    + split.
      * constructor; [done|]. apply Forall_forall. intros z [->|Hz]%oset_insert_elem; [by apply cmp_gt|].
        rewrite Forall_forall in Hy. by apply Hy.
      * destruct IH2 as [->|IH2]; [by left|right]. simpl. by rewrite IH2.
Qed.

Lemma extend_ascending l xs :
  ascending l -> ascending (oset_extend l xs)
  /\ (oset_extend l xs = l \/ (length l < length (oset_extend l xs))%nat).
Proof.
  unfold oset_extend. revert l. induction xs as [|x xs IH]; intros l Hl; simpl; [by auto|].
  destruct (insert_ascending x l Hl) as [Hi Hlen]. destruct (IH _ Hi) as [HI HL]. split; [done|].
  destruct Hlen as [E|E]; [by rewrite E in HL |- *|]. right. destruct HL as [->|HL]; lia.
Qed.

Lemma resolve_ascending own ds expanded :
  ascending own -> ascending (resolve_set own ds expanded)
  /\ (resolve_set own ds expanded = own \/ (length own < length (resolve_set own ds expanded))%nat).
Proof.
  unfold resolve_set. revert own. induction ds as [|d ds IH]; intros own Ho; simpl; [by auto|].
  destruct (extend_ascending own (default [] (expanded !! d)) Ho) as [Hi Hlen]. destruct (IH _ Hi) as [HI HL].
  split; [done|]. destruct Hlen as [E|E]; [by rewrite E in HL |- *|]. right. destruct HL as [->|HL]; lia.
Qed.

Lemma resolve_elem own ds expanded y :
  y ∈ resolve_set own ds expanded <-> y ∈ own \/ exists d, d ∈ ds /\ y ∈ default [] (expanded !! d).
Proof.
  unfold resolve_set. revert own. induction ds as [|d ds IH]; intros own; simpl; [set_solver|].
  rewrite IH, oset_extend_elem. set_solver.
Qed.

Lemma zip_grows deps sets expanded :
  length deps = length sets -> Forall ascending sets ->
  let sets' := zip_with (fun ds own => resolve_set own ds expanded) deps sets in
  length sets' = length sets /\ Forall ascending sets'
  /\ (sets' = sets \/ (length (concat sets) < length (concat sets'))%nat).
Proof.
  intros Hl Hs. revert deps Hl. induction Hs as [|own sets Ho Hs IH]; intros [|ds deps] Hl; try done; simpl; [auto|].
  destruct (IH deps) as (I1 & I2 & I3); [by injection Hl|].
  destruct (resolve_ascending own ds expanded Ho) as [R1 R2].
  split; [by rewrite I1|]. split; [by constructor|]. rewrite !length_app.
  destruct R2 as [->|R2], I3 as [->|I3]; [by left|right; lia..].
Qed.

(** A round changes nothing or adds an element. *)
Lemma round_grows deps sets :
  length deps = length sets -> Forall ascending sets ->
  let sets' := expand_round deps sets in
  length sets' = length sets /\ Forall ascending sets'
  /\ (sets' = sets \/ (length (concat sets) < length (concat sets'))%nat).
Proof. apply zip_grows. Qed.

Lemma round_lookup deps sets i ds own :
  deps !! i = Some ds -> sets !! i = Some own ->
  expand_round deps sets !! i = Some (resolve_set own ds sets).
Proof. intros Hd Ho. unfold expand_round. by rewrite lookup_zip_with, Hd, Ho. Qed.

(** A family of sets that has [sets] and is closed under the dependencies. *)
Definition closed_family (deps : list (list nat)) (sets : list (list A)) (family : nat -> A -> Prop) : Prop :=
  forall i ds own, deps !! i = Some ds -> sets !! i = Some own ->
    (forall y, y ∈ own -> family i y) /\ (forall d y, d ∈ ds -> family d y -> family i y).

Definition members (sets : list (list A)) (i : nat) (y : A) : Prop := y ∈ default [] (sets !! i).

(** A round stays within every closed family. *)
Lemma round_within deps sets (family : nat -> A -> Prop) :
  length deps = length sets -> (forall i y, members sets i y -> family i y) ->
  (forall i ds, deps !! i = Some ds -> forall d y, d ∈ ds -> family d y -> family i y) ->
  forall i y, members (expand_round deps sets) i y -> family i y.
Proof.
  intros Hl Hin Hcl i y Hy. unfold members in Hy. destruct (expand_round deps sets !! i) as [out|] eqn:E; simpl in Hy;
    [|by apply elem_of_nil in Hy].
  unfold expand_round in E. apply lookup_zip_with_Some in E as (ds & own & -> & Hd & Ho).
  apply resolve_elem in Hy as [Hy|(d & Hd' & Hy)].
  - apply Hin. unfold members. by rewrite Ho.
  - by eapply Hcl, Hin.
Qed.

Lemma concat_bound (sets : list (list A)) (bound : list A) :
  Forall (fun l => NoDup l /\ l ⊆ bound) sets -> (length (concat sets) <= length sets * length bound)%nat.
Proof.
  induction 1 as [|l sets [Hn Hs] _ IH]; simpl; [lia|]. rewrite length_app.
  pose proof (submseteq_length _ _ (NoDup_submseteq _ _ Hn Hs)). lia.
Qed.

(** With enough fuel the loop ends in sets a round does not change. *)
Lemma loop_fixed fuel deps sets bound :
  length deps = length sets -> Forall ascending sets -> (forall i y, members sets i y -> y ∈ bound) ->
  (length sets * length bound < fuel + length (concat sets))%nat ->
  expand_round deps (expand_loop fuel deps sets) = expand_loop fuel deps sets.
Proof.
  revert sets. induction fuel as [|fuel IH]; intros sets Hl Hs Hb Hf; simpl.
  - assert (length (concat sets) <= length sets * length bound)%nat; [|lia]. apply concat_bound.
    apply Forall_forall. intros l Hin. rewrite Forall_forall in Hs. split; [by apply ascending_NoDup, Hs|].
    intros y Hy. apply list_elem_of_lookup in Hin as [i Hi]. apply (Hb i). unfold members. by rewrite Hi.
  - destruct (round_grows deps sets Hl Hs) as (R1 & R2 & R3).
    case_bool_decide as E; [by rewrite !E|]. destruct R3 as [?|R3]; [done|].
    apply IH; [congruence|done| |rewrite R1; lia].
    apply round_within; [done|done|]. done.
Qed.

Lemma loop_invariant (P : list (list A) -> Prop) fuel deps sets :
  P sets -> (forall sets', P sets' -> P (expand_round deps sets')) -> P (expand_loop fuel deps sets).
Proof.
  intros Hstart HP. revert sets Hstart. induction fuel as [|fuel IH]; intros sets Hstart; simpl; [done|].
  case_bool_decide as E; auto.
Qed.

(** [expand_sets] gives the least closed family. *)
Lemma expand_sets_least deps sets :
  length deps = length sets -> Forall ascending sets ->
  closed_family deps sets (members (expand_sets deps sets))
  /\ forall family, closed_family deps sets family ->
       forall i y, members (expand_sets deps sets) i y -> family i y.
Proof.
  intros Hl Hs. unfold expand_sets. set (out := expand_loop _ deps sets).
  assert (length out = length sets /\ Forall ascending out /\ forall i y, members sets i y -> members out i y) as (L & _ & Hin).
  { apply (loop_invariant (fun o => length o = length sets /\ Forall ascending o /\ forall i y, members sets i y -> members o i y));
      [done|]. intros o (O1 & O2 & O3). destruct (round_grows deps o) as (R1 & R2 & _); [congruence|done|].
    split; [congruence|]. split; [done|]. intros i y Hy%O3. unfold members in *.
    destruct (o !! i) as [own|] eqn:Eo; simpl in Hy; [|by apply elem_of_nil in Hy].
    destruct (lookup_lt_is_Some_2 deps i) as [ds Hd]; [rewrite Hl, <- O1; by eapply lookup_lt_Some|].
    rewrite (round_lookup _ _ _ _ _ Hd Eo). apply resolve_elem. by left. }
  assert (expand_round deps out = out) as Hfix.
  { apply (loop_fixed _ _ _ (concat sets)); [done|done| |unfold expand_fuel; lia].
    intros i y Hy. unfold members in Hy. destruct (sets !! i) as [own|] eqn:E; simpl in Hy; [|by apply elem_of_nil in Hy].
    apply list_elem_of_In, in_concat. exists own. rewrite <- !list_elem_of_In. split; [|done]. by eapply list_elem_of_lookup_2. }
  split.
  - intros i ds own Hd Ho. split.
    + intros y Hy. apply Hin. unfold members. by rewrite Ho.
    + intros d y Hd' Hy. destruct (lookup_lt_is_Some_2 out i) as [o Eo]; [rewrite L; by eapply lookup_lt_Some|].
      pose proof (round_lookup _ _ _ _ _ Hd Eo) as ER. rewrite Hfix, Eo in ER. injection ER as ER.
      unfold members. rewrite Eo, ER. apply resolve_elem. right. by exists d.
  - intros family HF.
    assert (length out = length sets /\ forall i y, members out i y -> family i y) as [_ HO]; [|done].
    apply (loop_invariant (fun o => length o = length sets /\ forall i y, members o i y -> family i y)).
    + split; [done|]. intros i y Hy. unfold members in Hy.
      destruct (sets !! i) as [own|] eqn:E; simpl in Hy; [|by apply elem_of_nil in Hy].
      destruct (lookup_lt_is_Some_2 deps i) as [ds Hd]; [rewrite Hl; by eapply lookup_lt_Some|].
      destruct (HF i ds own Hd E) as [HF1 _]. auto.
    + intros o [O1 O2]. split; [unfold expand_round; rewrite length_zip_with; lia|].
      apply round_within; [congruence|done|]. intros i ds Hd.
      destruct (lookup_lt_is_Some_2 sets i) as [own Ho]; [rewrite <- Hl; by eapply lookup_lt_Some|].
      by destruct (HF i ds own Hd Ho).
Qed.
End Expansion.

(** [expanded_effects] and [expanded_requirements]. *)
Definition expanded_effects (s : Inference) : list (list Effect) :=
  expand_sets (map dependencies (effect_definitions s)) (map direct (effect_definitions s)).

Definition expanded_requirements (s : Inference) : list (list CapabilityRequirement) :=
  expand_sets (map dependencies (effect_definitions s))
    (map direct_requirements (effect_definitions s)).

Definition resolve_effects (effects : InferEffects) (expanded : list (list Effect)) : list Effect :=
  resolve_set (direct effects) (dependencies effects) expanded.

Definition resolve_requirements (effects : InferEffects)
    (expanded : list (list CapabilityRequirement)) : list CapabilityRequirement :=
  resolve_set (direct_requirements effects) (dependencies effects) expanded.

(** ** Reported types *)

(** [TypeNormalizer]: the numbers of unsolved variables and the types of
    solved ones, which later occurrences share. *)
Record TypeNormalizer : Type := mkTypeNormalizer {
  tn_variables : list (nat * nat);
  tn_normalized : gmap nat KritType;
}.

Definition new_normalizer : TypeNormalizer := mkTypeNormalizer [] ∅.

Section Normalize.
Context (s : Inference) (effects : list (list Effect))
  (requirements : list (list CapabilityRequirement)).

(** [normalize]: [fuel] bounds the bindings entered one inside another. *)
Fixpoint normalize (fuel : nat) (ty : InferType) (n : TypeNormalizer) {struct fuel}
  : KritType * TypeNormalizer :=
  (fix go (ty : InferType) (n : TypeNormalizer) {struct ty} : KritType * TypeNormalizer :=
     match ty with
     | IInt => (Ty_Int, n)
     | IBool => (Ty_Bool, n)
     | IString => (Ty_String, n)
     | IUnit => (Ty_Unit, n)
     | IHttpHeader => (Ty_HttpHeader, n)
     | IHttpRequest => (Ty_HttpRequest, n)
     | IHttpResponse => (Ty_HttpResponse, n)
     | ILogField => (Ty_LogField, n)
     | IQueueJob => (Ty_QueueJob, n)
     | IScheduleEvent => (Ty_ScheduleEvent, n)
     | IDatabaseTransaction => (Ty_DatabaseTransaction, n)
     | ISecret => (Ty_Secret, n)
     | IList element => let '(element, n) := go element n in (Ty_List element, n)
     | IRecord fields _ =>
         let '(fields, n) :=
           (fix each (l : list (string * InferType)) n :=
              match l with
              | [] => ([], n)
              | f :: l' =>
                  let '(ty, n) := go (snd f) n in
                  let '(fields, n) := each l' n in ((fst f, ty) :: fields, n)
              end) fields n in
         (Ty_Record fields, n)
     | IOption element => let '(element, n) := go element n in (Ty_Option element, n)
     | IResult value error =>
         let '(value, n) := go value n in
         let '(error, n) := go error n in (Ty_Result value error, n)
     | IFunction parameters return_type effect =>
         let '(parameters, n) :=
           (fix each (l : list InferType) n :=
              match l with
              | [] => ([], n)
              | p :: l' =>
                  let '(ty, n) := go p n in
                  let '(parameters, n) := each l' n in (ty :: parameters, n)
              end) parameters n in
         let '(return_type, n) := go return_type n in
         (Ty_Function parameters return_type (default [] (effects !! effect))
            (default [] (requirements !! effect)), n)
     | IVariable variable =>
         let variable := root_variable s variable in
         match tn_normalized n !! variable with
         | Some ty => (ty, n)
         | None =>
             match substitutions s !! variable, fuel with
             | Some ty, S fuel' =>
                 let '(normalized, n) := normalize fuel' ty n in
                 (normalized,
                  mkTypeNormalizer (tn_variables n) (<[variable := normalized]> (tn_normalized n)))
             | _, _ =>
                 match bt_get variable (tn_variables n) with
                 | Some id => (Ty_Variable id, n)
                 | None =>
                     let next := length (tn_variables n) in
                     (Ty_Variable next,
                      mkTypeNormalizer (bt_insert variable next (tn_variables n)) (tn_normalized n))
                 end
             end
         end
     end) ty n.

Definition normalize_type (ty : InferType) (n : TypeNormalizer) : KritType * TypeNormalizer :=
  normalize (S (length (type_parents s))) ty n.
End Normalize.

(** [render_type]. *)
Definition render_type (str_debug : string -> string) (s : Inference) (ty : InferType) : string :=
  type_str str_debug
    (fst (normalize_type s (expanded_effects s) (expanded_requirements s) ty new_normalizer)).

(** ** What a type contains *)

(** The walk shared by [contains_secret], [contains_transaction] and
    [contains_no_function]: whether a type for which [hit] holds is found,
    and the variables visited. *)
Fixpoint contains_inner (s : Inference) (hit : InferType -> bool) (fuel : nat) (ty : InferType)
    (visited : list nat) {struct fuel} : bool * list nat :=
  (fix go (ty : InferType) (visited : list nat) {struct ty} : bool * list nat :=
     if hit ty then (true, visited)
     else
       match ty with
       | IVariable variable =>
           let variable := root_variable s variable in
           if bool_decide (variable ∈ visited) then (false, visited)
           else
             match substitutions s !! variable, fuel with
             | Some ty', S fuel' => contains_inner s hit fuel' ty' (oset_insert variable visited)
             | _, _ => (false, oset_insert variable visited)
             end
       | IList element | IOption element => go element visited
       | IResult value error =>
           match go value visited with
           | (true, visited) => (true, visited)
           | (false, visited) => go error visited
           end
       | IRecord fields _ =>
           (fix any l visited :=
              match l with
              | [] => (false, visited)
              | f :: l' =>
                  match go (snd f) visited with
                  | (true, visited) => (true, visited)
                  | (false, visited) => any l' visited
                  end
              end) fields visited
       | IFunction parameters return_type _ =>
           match
             (fix any l visited :=
                match l with
                | [] => (false, visited)
                | p :: l' =>
                    match go p visited with
                    | (true, visited) => (true, visited)
                    | (false, visited) => any l' visited
                    end
                end) parameters visited
           with
           | (true, visited) => (true, visited)
           | (false, visited) => go return_type visited
           end
       | _ => (false, visited)
       end) ty visited.

Definition contains (s : Inference) (hit : InferType -> bool) (ty : InferType) : bool :=
  fst (contains_inner s hit (S (length (type_parents s))) ty []).

Definition is_secret (ty : InferType) : bool := match ty with ISecret => true | _ => false end.

Definition is_transaction (ty : InferType) : bool :=
  match ty with IDatabaseTransaction => true | _ => false end.

(** What [contains_no_function] refuses. *)
Definition is_not_data (ty : InferType) : bool :=
  match ty with IFunction _ _ _ | IDatabaseTransaction | ISecret => true | _ => false end.

Definition contains_secret (s : Inference) (ty : InferType) : bool := contains s is_secret ty.

Definition contains_transaction (s : Inference) (ty : InferType) : bool :=
  contains s is_transaction ty.

Definition contains_no_function (s : Inference) (ty : InferType) : bool :=
  negb (contains s is_not_data ty).

(** [is_comparable] and [is_json_value]. *)
Definition is_comparable (s : Inference) (ty : InferType) : bool := contains_no_function s ty.
Definition is_json_value (s : Inference) (ty : InferType) : bool := contains_no_function s ty.
