(* ===== verification/Analyzer.v ===== *)
(** * The analyzer: state, names and checks

    Models the [Analyzer] of [krit/src/analysis.rs] below its walk over a
    program: its state, scopes and symbols, the types of built-ins, unification
    with its diagnostics, field access, pattern positions and the final checks.
    The walk is in [Analysis].

    The state is a record whose part for type variables is [Inference].  An
    operation is a function from the state to a state and a verdict; a
    rejection keeps the state reached, as the code does.  [Panicking] stands
    for [expect], [unreachable!] and indexing outside a vector, [Exhausted]
    for a unification that [steps] calls open at once do not finish.
    Vectors used as stacks have their top at the head of a list, other vectors
    grow at the end; a set of spans is a list. *)

From S2P Require Import Prelude BTree Syntax Sorting Types Infer Normalize Builtins.
From S2P Require Import Patterns Capability Construction Habits Parser ParserSpec.

(** ** State *)

(** [SymbolId] is a number, [SymbolKind] and [ResolvedName] as in the code. *)
Inductive SymbolKind : Type :=
| KindLet | KindFunction | KindWebhook | KindQueueConsumer | KindScheduleHandler | KindParameter
| KindMatch.

#[export] Instance SymbolKind_eq_dec : EqDecision SymbolKind.
Proof. solve_decision. Defined.

Inductive ResolvedName : Type := ResolvedSymbol (id : nat) | ResolvedBuiltin (builtin : Builtin).

#[export] Instance ResolvedName_eq_dec : EqDecision ResolvedName.
Proof. solve_decision. Defined.

Record ExpressionInfo : Type := mkInfo { info_ty : InferType; info_effects : InferEffects }.

Record PendingBinding : Type := mkPendingBinding {
  pb_id : nat; pb_name : string; pb_ty : InferType; pb_span : Span; pb_top_level : bool }.

Record PendingSymbol : Type := mkPendingSymbol {
  ps_id : nat; ps_name : string; ps_kind : SymbolKind; ps_ty : InferType; ps_span : Span;
  ps_top_level : bool }.

Record PendingExpression : Type := mkPendingExpression {
  pe_span : Span; pe_ty : InferType; pe_effects : InferEffects; pe_resolved : option ResolvedName }.

Record PendingBlock : Type := mkPendingBlock {
  pk_span : Span; pk_ty : InferType; pk_effects : InferEffects }.

Inductive ConstraintKind : Type :=
| Addable | Comparable | Orderable | JsonValue | OpaqueArgument | Printable | StructuralValue.

Record TypeConstraint : Type := mkConstraint {
  tc_ty : InferType; tc_span : Span; tc_kind : ConstraintKind }.

Inductive LetElseBody : Type := LetElseNamed (block : Span) (result : InferType) | LetElseClosure.

Record Propagation : Type := mkPropagation {
  pr_name : string; pr_family : VariantFamily; pr_error : option InferType;
  pr_return_type : string }.

Inductive Refusal : Type :=
| RefusedTopLevel
| RefusedClosure
| RefusedWebhook
| RefusedUndeclared (name : string)
| RefusedOther (name return_type : string).

Inductive ExitContext : Type := Propagates (propagation : Propagation) | Refused (refusal : Refusal).

Record ScopeBinding : Type := mkScopeBinding { sb_id : nat; sb_ty : InferType }.

Record Analyzer : Type := mkAnalyzer {
  an_scopes : list (list (string * ScopeBinding));
  an_inference : Inference;
  an_next_symbol : nat;
  an_bindings : list PendingBinding;
  an_symbols : list PendingSymbol;
  an_expressions : list PendingExpression;
  an_blocks : list PendingBlock;
  an_constraints : list TypeConstraint;
  an_host_references : list (Span * Builtin);
  an_direct_references : list Span;
  an_secret_spans : list Span;
  an_depth : Z;
  an_warnings : list Diagnostic;
  an_method_callee : option Span;
  an_exits : list ExitContext;
  an_let_else_bodies : list LetElseBody;
}.

(** [Analyzer::new]. *)
Definition new_analyzer : Analyzer :=
  mkAnalyzer [[]] no_inference 0 [] [] [] [] [] [] [] [] 0 [] None [] [].

Definition set_scopes (x : list (list (string * ScopeBinding))) (a : Analyzer) : Analyzer :=
  mkAnalyzer x (an_inference a) (an_next_symbol a) (an_bindings a) (an_symbols a)
    (an_expressions a) (an_blocks a) (an_constraints a) (an_host_references a)
    (an_direct_references a) (an_secret_spans a) (an_depth a) (an_warnings a)
    (an_method_callee a) (an_exits a) (an_let_else_bodies a).
Definition set_inference (x : Inference) (a : Analyzer) : Analyzer :=
  mkAnalyzer (an_scopes a) x (an_next_symbol a) (an_bindings a) (an_symbols a)
    (an_expressions a) (an_blocks a) (an_constraints a) (an_host_references a)
    (an_direct_references a) (an_secret_spans a) (an_depth a) (an_warnings a)
    (an_method_callee a) (an_exits a) (an_let_else_bodies a).
Definition set_next_symbol (x : nat) (a : Analyzer) : Analyzer :=
  mkAnalyzer (an_scopes a) (an_inference a) x (an_bindings a) (an_symbols a) (an_expressions a)
    (an_blocks a) (an_constraints a) (an_host_references a) (an_direct_references a)
    (an_secret_spans a) (an_depth a) (an_warnings a) (an_method_callee a) (an_exits a)
    (an_let_else_bodies a).
Definition set_bindings (x : list PendingBinding) (a : Analyzer) : Analyzer :=
  mkAnalyzer (an_scopes a) (an_inference a) (an_next_symbol a) x (an_symbols a)
    (an_expressions a) (an_blocks a) (an_constraints a) (an_host_references a)
    (an_direct_references a) (an_secret_spans a) (an_depth a) (an_warnings a)
    (an_method_callee a) (an_exits a) (an_let_else_bodies a).
Definition set_symbols (x : list PendingSymbol) (a : Analyzer) : Analyzer :=
  mkAnalyzer (an_scopes a) (an_inference a) (an_next_symbol a) (an_bindings a) x
    (an_expressions a) (an_blocks a) (an_constraints a) (an_host_references a)
    (an_direct_references a) (an_secret_spans a) (an_depth a) (an_warnings a)
    (an_method_callee a) (an_exits a) (an_let_else_bodies a).
Definition set_expressions (x : list PendingExpression) (a : Analyzer) : Analyzer :=
  mkAnalyzer (an_scopes a) (an_inference a) (an_next_symbol a) (an_bindings a) (an_symbols a) x
    (an_blocks a) (an_constraints a) (an_host_references a) (an_direct_references a)
    (an_secret_spans a) (an_depth a) (an_warnings a) (an_method_callee a) (an_exits a)
    (an_let_else_bodies a).
Definition set_blocks (x : list PendingBlock) (a : Analyzer) : Analyzer :=
  mkAnalyzer (an_scopes a) (an_inference a) (an_next_symbol a) (an_bindings a) (an_symbols a)
    (an_expressions a) x (an_constraints a) (an_host_references a) (an_direct_references a)
    (an_secret_spans a) (an_depth a) (an_warnings a) (an_method_callee a) (an_exits a)
    (an_let_else_bodies a).
Definition set_constraints (x : list TypeConstraint) (a : Analyzer) : Analyzer :=
  mkAnalyzer (an_scopes a) (an_inference a) (an_next_symbol a) (an_bindings a) (an_symbols a)
    (an_expressions a) (an_blocks a) x (an_host_references a) (an_direct_references a)
    (an_secret_spans a) (an_depth a) (an_warnings a) (an_method_callee a) (an_exits a)
    (an_let_else_bodies a).
Definition set_host_references (x : list (Span * Builtin)) (a : Analyzer) : Analyzer :=
  mkAnalyzer (an_scopes a) (an_inference a) (an_next_symbol a) (an_bindings a) (an_symbols a)
    (an_expressions a) (an_blocks a) (an_constraints a) x (an_direct_references a)
    (an_secret_spans a) (an_depth a) (an_warnings a) (an_method_callee a) (an_exits a)
    (an_let_else_bodies a).
Definition set_direct_references (x : list Span) (a : Analyzer) : Analyzer :=
  mkAnalyzer (an_scopes a) (an_inference a) (an_next_symbol a) (an_bindings a) (an_symbols a)
    (an_expressions a) (an_blocks a) (an_constraints a) (an_host_references a) x
    (an_secret_spans a) (an_depth a) (an_warnings a) (an_method_callee a) (an_exits a)
    (an_let_else_bodies a).
Definition set_secret_spans (x : list Span) (a : Analyzer) : Analyzer :=
  mkAnalyzer (an_scopes a) (an_inference a) (an_next_symbol a) (an_bindings a) (an_symbols a)
    (an_expressions a) (an_blocks a) (an_constraints a) (an_host_references a)
    (an_direct_references a) x (an_depth a) (an_warnings a) (an_method_callee a) (an_exits a)
    (an_let_else_bodies a).
Definition set_depth (x : Z) (a : Analyzer) : Analyzer :=
  mkAnalyzer (an_scopes a) (an_inference a) (an_next_symbol a) (an_bindings a) (an_symbols a)
    (an_expressions a) (an_blocks a) (an_constraints a) (an_host_references a)
    (an_direct_references a) (an_secret_spans a) x (an_warnings a) (an_method_callee a)
    (an_exits a) (an_let_else_bodies a).
Definition set_warnings (x : list Diagnostic) (a : Analyzer) : Analyzer :=
  mkAnalyzer (an_scopes a) (an_inference a) (an_next_symbol a) (an_bindings a) (an_symbols a)
    (an_expressions a) (an_blocks a) (an_constraints a) (an_host_references a)
    (an_direct_references a) (an_secret_spans a) (an_depth a) x (an_method_callee a)
    (an_exits a) (an_let_else_bodies a).
Definition set_method_callee (x : option Span) (a : Analyzer) : Analyzer :=
  mkAnalyzer (an_scopes a) (an_inference a) (an_next_symbol a) (an_bindings a) (an_symbols a)
    (an_expressions a) (an_blocks a) (an_constraints a) (an_host_references a)
    (an_direct_references a) (an_secret_spans a) (an_depth a) (an_warnings a) x (an_exits a)
    (an_let_else_bodies a).
Definition set_exits (x : list ExitContext) (a : Analyzer) : Analyzer :=
  mkAnalyzer (an_scopes a) (an_inference a) (an_next_symbol a) (an_bindings a) (an_symbols a)
    (an_expressions a) (an_blocks a) (an_constraints a) (an_host_references a)
    (an_direct_references a) (an_secret_spans a) (an_depth a) (an_warnings a)
    (an_method_callee a) x (an_let_else_bodies a).
Definition set_let_else_bodies (x : list LetElseBody) (a : Analyzer) : Analyzer :=
  mkAnalyzer (an_scopes a) (an_inference a) (an_next_symbol a) (an_bindings a) (an_symbols a)
    (an_expressions a) (an_blocks a) (an_constraints a) (an_host_references a)
    (an_direct_references a) (an_secret_spans a) (an_depth a) (an_warnings a)
    (an_method_callee a) (an_exits a) x.

(** ** Computations *)

Inductive Verdict (A : Type) : Type :=
| Accepted (a : A)
| Rejected (error : Diagnostic)
| Panicking
| Exhausted.
Arguments Accepted {A} a.
Arguments Rejected {A} error.
Arguments Panicking {A}.
Arguments Exhausted {A}.

Definition check (A : Type) : Type := Analyzer -> Analyzer * Verdict A.

Definition accept {A} (x : A) : check A := fun a => (a, Accepted x).
Definition reject {A} (error : Diagnostic) : check A := fun a => (a, Rejected error).
Definition panicking {A} : check A := fun a => (a, Panicking).
Definition exhausted {A} : check A := fun a => (a, Exhausted).

Definition check_bind {A B} (m : check A) (k : A -> check B) : check B :=
  fun a =>
    match m a with
    | (a', Accepted x) => k x a'
    | (a', Rejected error) => (a', Rejected error)
    | (a', Panicking) => (a', Panicking)
    | (a', Exhausted) => (a', Exhausted)
    end.

Notation "'let^' x := c 'in' k" := (check_bind c (fun x => k))
  (at level 10, x pattern, c at level 100, k at level 200,
   format "'[v' 'let^'  x  :=  c  'in' '/' k ']'") : krit_scope.

Definition analyzer : check Analyzer := fun a => (a, Accepted a).
Definition update (f : Analyzer -> Analyzer) : check unit := fun a => (f a, Accepted tt).
Definition state : check Inference := fun a => (a, Accepted (an_inference a)).

Definition check_result {A} (r : result A Diagnostic) : check A :=
  match r with Ok x => accept x | Err error => reject error end.

(** An operation of the inference state. *)
Definition inferring {A} (m : infer Diagnostic A) : check A :=
  fun a =>
    match m (an_inference a) with
    | None => (a, Exhausted)
    | Some (Ok x, s) => (set_inference s a, Accepted x)
    | Some (Err error, s) => (set_inference s a, Rejected error)
    end.

Definition new_type : check InferType :=
  fun a => let '(ty, s) := fresh_type (an_inference a) in (set_inference s a, Accepted ty).

Definition new_effect : check nat :=
  fun a => let '(e, s) := fresh_effect (an_inference a) in (set_inference s a, Accepted e).

(** [self.effect_definitions[effect as usize].union(effects)]. *)
Definition define_effect (effect : nat) (effects : InferEffects) : check unit :=
  update (fun a =>
    let s := an_inference a in
    set_inference
      (with_effects (alter (fun def => effects_union def effects) effect (effect_definitions s)) s) a).

Definition direct_effect (e : Effect) : InferEffects := mkInferEffects [e] [] [].

Definition require (ty : InferType) (span : Span) (kind : ConstraintKind) : check unit :=
  update (fun a => set_constraints (an_constraints a ++ [mkConstraint ty span kind]) a).

(** ** Scopes and symbols *)

Definition DISCARD : string := "_".

Definition push_scope : check unit := update (fun a => set_scopes ([] :: an_scopes a) a).
Definition pop_scope : check unit := update (fun a => set_scopes (tail (an_scopes a)) a).

(** The search of [lookup], from the innermost scope. *)
Fixpoint lookup_scopes (name : string) (scopes : list (list (string * ScopeBinding)))
  : option ScopeBinding :=
  match scopes with
  | [] => None
  | scope :: scopes' =>
      match bt_get name scope with
      | Some binding => Some binding
      | None => lookup_scopes name scopes'
      end
  end.

Definition duplicate_declaration (name : string) (span : Span) : Diagnostic :=
  diagnostic "K2002" ("duplicate declaration `" +:+ name +:+ "`") span.

Definition name_taken (name : string) (scopes : list (list (string * ScopeBinding))) : bool :=
  match scopes with [] => false | scope :: _ => is_some (bt_get name scope) end.

(** [ensure_name_available]. *)
Definition ensure_name_available (name : string) (span : Span) : check unit :=
  let^ a := analyzer in
  if is_some (builtin_from_name name) || (negb (bool_decide (name = DISCARD)) && name_taken name (an_scopes a))
  then reject (duplicate_declaration name span)
  else accept tt.

(** [define_symbol]. *)
Definition define_symbol (name : string) (ty : InferType) (span : Span) (kind : SymbolKind)
    (top_level : bool) : check nat :=
  let^ a := analyzer in
  let id := an_next_symbol a in
  let^ _ := update (set_next_symbol (S id)) in
  let^ _ := update (set_symbols (an_symbols a ++ [mkPendingSymbol id name kind ty span top_level])) in
  match an_scopes a with
  | [] => panicking
  | scope :: scopes =>
      let^ _ := update (set_scopes (bt_insert name (mkScopeBinding id ty) scope :: scopes)) in
      accept id
  end.

Definition push_binding (id : nat) (name : string) (ty : InferType) (span : Span) (top_level : bool)
  : check unit :=
  update (fun a => set_bindings (an_bindings a ++ [mkPendingBinding id name ty span top_level]) a).

Definition record_expression (span : Span) (info : ExpressionInfo) (resolved : option ResolvedName)
  : check unit :=
  update (fun a =>
    set_expressions
      (an_expressions a ++ [mkPendingExpression span (info_ty info) (info_effects info) resolved]) a).

(** [define_parameters]. *)
Fixpoint define_parameters (parameters : list FnParameter) (types : list InferType) : check unit :=
  match parameters, types with
  | p :: parameters', ty :: types' =>
      let^ _ := ensure_name_available (parameter_name p) (parameter_span p) in
      let^ _ := define_symbol (parameter_name p) ty (parameter_span p) KindParameter false in
      define_parameters parameters' types'
  | _, _ => accept tt
  end.

(** The type of a parameter or a result: its annotation or a new variable. *)
Definition declared_type (annotation : option TypeAnnotation) : check InferType :=
  match annotation with
  | Some annotation => accept (annotation_type annotation)
  | None => new_type
  end.

Fixpoint declared_types (parameters : list FnParameter) : check (list InferType) :=
  match parameters with
  | [] => accept []
  | p :: parameters' =>
      let^ ty := declared_type (parameter_annotation p) in
      let^ types := declared_types parameters' in
      accept (ty :: types)
  end.

(** ** Built-ins *)

Definition string_result : InferType := IResult IString IString.
Definition unit_result : InferType := IResult IUnit IString.
Definition text_option_result : InferType := IResult (IOption IString) IString.
Definition entry_type : InferType := IRecord [("name", IString); ("value", IString)] false.

(** A function type with a new effect, which performs [effects]. *)
Definition function_type (parameters : list InferType) (return_type : InferType)
    (effects : list Effect) : check InferType :=
  let^ effect := new_effect in
  let^ _ := match effects with [] => accept tt | e :: _ => define_effect effect (direct_effect e) end in
  accept (IFunction parameters return_type effect).

(** A variable with a constraint, for the polymorphic built-ins. *)
Definition constrained_type (span : Span) (kind : ConstraintKind) : check InferType :=
  let^ value := new_type in
  let^ _ := require value span kind in
  accept value.

Definition builtin_type (builtin : Builtin) (span : Span) : check InferType :=
  match builtin with
  | BiAiInvoke => function_type [IString; IString] string_result [EffAiInvoke]
  | BiPrint | BiPrintln =>
      let^ value := constrained_type span Printable in
      function_type [value] IUnit [EffIoStdout]
  | BiSome =>
      let^ value := constrained_type span StructuralValue in
      function_type [value] (IOption value) []
  | BiNone => let^ value := new_type in accept (IOption value)
  | BiOk =>
      let^ value := constrained_type span StructuralValue in
      let^ error := new_type in
      function_type [value] (IResult value error) []
  | BiErr =>
      let^ error := constrained_type span StructuralValue in
      let^ value := new_type in
      function_type [error] (IResult value error) []
  | BiJsonEncode =>
      let^ value := constrained_type span JsonValue in
      function_type [value] IString []
  | BiJsonDecode =>
      let^ value := constrained_type span JsonValue in
      function_type [IString] value []
  | BiConfigString => function_type [IString] string_result [EffConfigRead]
  | BiSecret => function_type [IString] (IResult ISecret IString) [EffSecretRead]
  | BiHttpRequest =>
      function_type [IString; IHttpRequest; IOption ISecret] (IResult IHttpResponse IString)
        [EffHttpRequest]
  | BiLogInfo | BiLogError => function_type [IString; IList ILogField] unit_result [EffObserveLog]
  | BiStateGet | BiCheckpointGet =>
      function_type [IString; IString] text_option_result [EffStateTransaction]
  | BiStatePut | BiCheckpointPut =>
      function_type [IString; IString; IString] unit_result [EffStateTransaction]
  | BiStateDelete => function_type [IString; IString] unit_result [EffStateTransaction]
  | BiReplayHttp =>
      function_type [IString; IString; IString; IHttpRequest] (IResult IHttpResponse IString)
        [EffStateTransaction]
  | BiReplayAi =>
      function_type [IString; IString; IString; IString] string_result [EffStateTransaction]
  | BiQueuePublish => function_type [IString; IString] string_result [EffQueuePublish]
  | BiCacheGet => function_type [IString; IString] text_option_result [EffCacheRead]
  | BiCachePut => function_type [IString; IString; IString; IInt] unit_result [EffCacheWrite]
  | BiCacheDelete => function_type [IString; IString] unit_result [EffCacheWrite]
  | BiSearchQuery => function_type [IString; IString; IInt] string_result [EffSearchQuery]
  | BiVectorSearch => function_type [IString; IString; IInt] string_result [EffSearchVector]
  | BiObjectGet => function_type [IString; IString] text_option_result [EffObjectRead]
  | BiObjectPut => function_type [IString; IString; IString] unit_result [EffObjectWrite]
  | BiObjectDelete => function_type [IString; IString] unit_result [EffObjectWrite]
  | BiDatabaseBeginRead =>
      function_type [IString] (IResult IDatabaseTransaction IString) [EffDatabaseRead]
  | BiDatabaseBeginWrite =>
      function_type [IString] (IResult IDatabaseTransaction IString) [EffDatabaseWrite]
  | BiDatabaseQuery =>
      function_type [IDatabaseTransaction; IString; IList IString] string_result []
  | BiDatabaseExecute =>
      function_type [IDatabaseTransaction; IString; IList IString] (IResult IInt IString) []
  | BiDatabaseCommit | BiDatabaseRollback => function_type [IDatabaseTransaction] unit_result []
  | BiIntToString => function_type [IInt] IString []
  | BiUrlPathSegment => function_type [IString] string_result []
  | BiUrlQuery => function_type [IList entry_type] IString []
  | BiStringByteLen => function_type [IString] IInt []
  | BiStringIsEmpty => function_type [IString] IBool []
  | BiStringContains | BiStringStartsWith | BiStringEndsWith =>
      function_type [IString; IString] IBool []
  end.

(** [lookup] with [builtin]. *)
Definition undefined_name (name : string) (scopes : list (list (string * ScopeBinding))) (span : Span)
  : Diagnostic :=
  let error := diagnostic "K2001" ("undefined name `" +:+ name +:+ "`") span in
  let candidates :=
    concat (map bt_keys (reverse scopes)) ++ map builtin_str ALL_BUILTINS ++ ["true"; "false"] in
  match undefined_name_note name candidates with
  | Some note => with_note error note
  | None => error
  end.

Definition lookup_name (name : string) (span : Span) : check (InferType * ResolvedName) :=
  let^ a := analyzer in
  match lookup_scopes name (an_scopes a) with
  | Some binding => accept (sb_ty binding, ResolvedSymbol (sb_id binding))
  | None =>
      match builtin_from_name name with
      | Some builtin => let^ ty := builtin_type builtin span in accept (ty, ResolvedBuiltin builtin)
      | None => reject (undefined_name name (an_scopes a) span)
      end
  end.

Section Analyzer.
Context (str_debug : string -> string) (url_parse : string -> option Url) (steps : nat).

Definition render (s : Inference) (ty : InferType) : string := render_type str_debug s ty.

Definition tree_depth_error (span : Span) : Diagnostic :=
  diagnostic "K1005"
    ("nesting depth limit exceeded: the syntax tree nests deeper than " +:+ pretty MAX_TREE_DEPTH
     +:+ " levels") span.

(** ** Unification *)

(** [self.type_depth_error.take().unwrap_or_else(..)]. *)
Definition mismatch_error (a : Analyzer) (error : Diagnostic) : Analyzer * Diagnostic :=
  let s := an_inference a in
  (set_inference (with_depth_error None s) a, default error (type_depth_error s)).

Definition type_mismatch (s : Inference) (context : string) (expected actual : InferType)
    (span : Span) : Diagnostic :=
  diagnostic "K3001"
    (context +:+ " type mismatch: expected `" +:+ render s expected +:+ "`, found `"
     +:+ render s actual +:+ "`") span.

(** [unify]; the error is built in the state unification has left. *)
Definition unify (expected actual : InferType) (span : Span) (context : string)
  : check InferType :=
  fun a =>
    match unify_inner span steps expected actual (an_inference a) with
    | None => (a, Exhausted)
    | Some (Ok unified, s) => (set_inference s a, Accepted unified)
    | Some (Err _, s) =>
        let '(a, error) :=
          mismatch_error (set_inference s a) (type_mismatch s context expected actual span) in
        (a, Rejected error)
    end.

(** The direct call of [bind_variable] in [call], whose type is a function
    type. *)
Definition bind_target (variable : nat) (ty : InferType) (span : Span) (context : string)
  : check unit :=
  fun a =>
    let s := an_inference a in
    let variable := root_variable s variable in
    match substitutions s !! variable with
    | Some existing =>
        match unify_inner span steps existing ty s with
        | None => (a, Exhausted)
        | Some (Ok unified, s) => inferring (set_binding variable unified span) (set_inference s a)
        | Some (Err _, s) =>
            (set_inference s a,
             Rejected
               (default
                  (diagnostic "K3001"
                     (context +:+ " type mismatch: incompatible with `" +:+ render s ty +:+ "`") span)
                  (type_depth_error s)))
        end
    | None =>
        if occurs s variable ty then
          (a, Rejected (diagnostic "K3001" (context +:+ " would create an infinite type") span))
        else inferring (set_binding variable ty span) a
    end.

(** ** Fields *)

Definition missing_field (field : string) (span : Span) : Diagnostic :=
  diagnostic "K3004" ("record type has no field `" +:+ field +:+ "`") span.

Definition not_a_record (s : Inference) (ty : InferType) (span : Span) : Diagnostic :=
  diagnostic "K3004" ("field access requires a record, found `" +:+ render s ty +:+ "`") span.

(** [require_field_and_widen] on a type that is not a variable. *)
Definition record_field (fields : list (string * InferType)) (is_open : bool) (field : string)
    (span : Span) : check (InferType * InferType) :=
  match bt_get field fields with
  | Some field_type => accept (field_type, IRecord fields is_open)
  | None =>
      if is_open then
        let^ field_type := new_type in
        accept (field_type, IRecord (bt_insert field field_type fields) is_open)
      else reject (missing_field field span)
  end.

Definition widen_field (ty : InferType) (field : string) (span : Span)
  : check (InferType * InferType) :=
  match ty with
  | IHttpHeader | IHttpRequest | IHttpResponse | ILogField | IQueueJob | IScheduleEvent =>
      match contract_record ty with
      | IRecord fields is_open =>
          let^ (field_type, _) := record_field fields is_open field span in accept (field_type, ty)
      | _ => panicking
      end
  | IRecord fields is_open => record_field fields is_open field span
  | other => let^ s := state in reject (not_a_record s other span)
  end.

(** [require_field].  [require_field_and_widen] calls it back when a binding is
    a variable, which the fuel bounds; in a well-formed state none is. *)
Fixpoint require_field_from (fuel : nat) (ty : InferType) (field : string) (span : Span)
  : check InferType :=
  match ty with
  | IVariable variable =>
      let^ s := state in
      let variable := root_variable s variable in
      match substitutions s !! variable with
      | Some existing =>
          let^ (field_type, widened) :=
            match existing, fuel with
            | IVariable inner, S fuel' =>
                let inner := root_variable s inner in
                let^ field_type := require_field_from fuel' (IVariable inner) field span in
                accept (field_type, IVariable inner)
            | IVariable _, O => exhausted
            | _, _ => widen_field existing field span
            end in
          let^ _ := inferring (set_binding variable widened span) in
          accept field_type
      | None =>
          let^ field_type := new_type in
          let^ _ := inferring (set_binding variable (IRecord [(field, field_type)] true) span) in
          accept field_type
      end
  | _ => let^ (field_type, _) := widen_field ty field span in accept field_type
  end.

Definition require_field (ty : InferType) (field : string) (span : Span) : check InferType :=
  let^ s := state in require_field_from (length (type_parents s)) ty field span.

(** [receiver_path]; [left] is how many fields may still be pushed. *)
Fixpoint receiver_path (left : nat) (receiver : Expression) : option (list string) :=
  match expression_kind receiver with
  | EVariable name => Some [name]
  | EFieldAccess value field =>
      match left with
      | O => None
      | S left' => (fun path => path ++ [field]) <$> receiver_path left' value
      end
  | _ => None
  end.

Definition MAX_FIELDS : nat := 4.

Definition receiver_text (receiver : Expression) : option string :=
  str_join "." <$> receiver_path MAX_FIELDS receiver.

(** [method_call_error]. *)
Definition method_call_error (s : Inference) (receiver_type : InferType) (receiver : Expression)
    (method : string) (span : Span) : Diagnostic :=
  let head := resolve_head s receiver_type in
  let rendered := render s head in
  let '(receiver_kind, message) :=
    match head with
    | IRecord _ _ | IHttpHeader | IHttpRequest | IHttpResponse | ILogField | IQueueJob
    | IScheduleEvent =>
        (ROther,
         "cannot call `." +:+ method +:+ "()`: `" +:+ rendered +:+ "` has no field `" +:+ method
         +:+ "`, and Krit values have no methods")
    | _ =>
        (match head with
         | IString => RString
         | IInt => RInt
         | IList _ => RList
         | IOption _ | IResult _ _ => RVariant
         | _ => ROther
         end,
         "cannot call `." +:+ method +:+ "()` on a value of type `" +:+ rendered
         +:+ "`: Krit values have no methods")
    end in
  let value := default "value" (receiver_text receiver) in
  with_note (diagnostic "K3011" message span) (method_hint receiver_kind method value).

(** The error of a field access that is the callee of a call. *)
Definition field_error (called : option InferType) (receiver : Expression) (field : string)
    (span : Span) (access : check InferType) : check InferType :=
  fun a =>
    match access a with
    | (a', Rejected error) =>
        (a', Rejected
               match called with
               | Some receiver_type =>
                   if bool_decide (diag_code error = "K3004") then
                     method_call_error (an_inference a') receiver_type receiver field span
                   else error
               | None => error
               end)
    | outcome => outcome
    end.

(** ** Patterns *)

(** [PositionPayloads] and [PatternPositions]. *)
Inductive PositionPayloads : Type :=
| PayloadOption (some : nat)
| PayloadResult (ok err : nat)
| PayloadList (element list : InferType).

Definition payloads_family (p : PositionPayloads) : Family :=
  match p with PayloadOption _ => FOption | PayloadResult _ _ => FResult | PayloadList _ _ => FList end.

Record PatternPositions : Type := mkPositions {
  pp_types : list InferType;
  pp_payloads : list (option PositionPayloads);
}.

Definition new_positions (subject : InferType) : PatternPositions := mkPositions [subject] [None].

Definition add_position (ty : InferType) (p : PatternPositions) : PatternPositions * nat :=
  (mkPositions (pp_types p ++ [ty]) (pp_payloads p ++ [None]), length (pp_types p)).

Record PatternBinding : Type := mkPatternBinding {
  bound_name : string; bound_span : Span; bound_ty : InferType }.

(** The heads a pattern of the expected type accepts. *)
Definition accepts_head (found expected : InferType) : bool :=
  match found, expected with
  | IVariable _, _ | IList _, IList _ | IOption _, IOption _ | IResult _ _, IResult _ _ => true
  | _, _ => false
  end.

(** [expect_match_type]. *)
Definition expect_match_type (actual expected : InferType) (span : Span) (family : string)
  : check unit :=
  let^ s := state in
  let found := resolve_head s actual in
  if accepts_head found expected then
    let^ _ := unify expected actual span "match subject" in accept tt
  else
    reject (diagnostic "K3005"
              (family +:+ " match requires `" +:+ family +:+ "` subject, found `" +:+ render s found
               +:+ "`") span).

(** [expect_pattern_type]. *)
Definition expect_pattern_type (actual expected : InferType) (family : string)
    (nested : option Pattern) (span : Span) : check unit :=
  match nested with
  | None => expect_match_type actual expected span family
  | Some pattern =>
      let^ s := state in
      let found := resolve_head s actual in
      if accepts_head found expected then
        let^ _ := unify expected actual (pattern_span pattern) "match pattern" in accept tt
      else
        let article := if bool_decide (family = "Option") then "an" else "a" in
        reject (diagnostic "K3005"
                  ("the pattern `" +:+ pattern_display pattern +:+ "` requires " +:+ article +:+ " `"
                   +:+ family +:+ "` value, found `" +:+ render s found +:+ "`")
                  (pattern_span pattern))
  end.

(** What [type_position] gives a position of each family. *)
Definition position_payloads (family : Family) (positions : PatternPositions)
  : check (InferType * PositionPayloads * string * PatternPositions) :=
  match family with
  | FOption =>
      let^ some := new_type in
      let '(positions, some_position) := add_position some positions in
      accept (IOption some, PayloadOption some_position, "Option", positions)
  | FResult =>
      let^ ok := new_type in
      let^ err := new_type in
      let '(positions, ok_position) := add_position ok positions in
      let '(positions, err_position) := add_position err positions in
      accept (IResult ok err, PayloadResult ok_position err_position, "Result", positions)
  | FList =>
      let^ element := new_type in
      accept (IList element, PayloadList element (IList element), "List", positions)
  end.

(** The payloads an earlier pattern of the family left at the position. *)
Definition reused_payloads (typed : option PositionPayloads) (family : Family)
  : option PositionPayloads :=
  match typed with
  | Some payloads => if bool_decide (payloads_family payloads = family) then Some payloads else None
  | None => None
  end.

(** [type_position]. *)
Definition type_position (positions : PatternPositions) (position : nat) (family : Family)
    (pattern : Pattern) (nested : bool) (span : Span)
  : check (PositionPayloads * PatternPositions) :=
  match pp_payloads positions !! position, pp_types positions !! position with
  | Some typed, Some ty =>
      match reused_payloads typed family with
      | Some payloads => accept (payloads, positions)
      | None =>
          let^ (expected, payloads, name, positions) := position_payloads family positions in
          let^ _ :=
            expect_pattern_type ty expected name (if nested then Some pattern else None) span in
          accept (payloads,
                  mkPositions (pp_types positions)
                    (<[position := Some payloads]> (pp_payloads positions)))
      end
  | _, _ => panicking
  end.

Definition part_binding (part : Pattern) (ty : InferType) : PatternBinding :=
  mkPatternBinding
    match pattern_kind part with PBinder name => name | _ => DISCARD end (pattern_span part) ty.

Definition same_binder (head tail : Pattern) : option string :=
  match pattern_kind head, pattern_kind tail with
  | PBinder head_name, PBinder tail_name =>
      if bool_decide (head_name = tail_name) then Some tail_name else None
  | _, _ => None
  end.

Definition variant_family_of (variant : VariantName) : Family :=
  match variant_family variant with FamilyOption => FOption | FamilyResult => FResult end.

Definition payload_position (payloads : PositionPayloads) (variant : VariantName) : option nat :=
  match payloads, variant with
  | PayloadOption some, VSome => Some some
  | PayloadResult ok _, VOk => Some ok
  | PayloadResult _ err, VErr => Some err
  | _, _ => None
  end.

(** [pattern_bindings], from a pattern at a position. *)
Fixpoint pattern_bindings_from (pattern : Pattern) (position : nat) (nested : bool)
    (positions : PatternPositions) (span : Span) : check (list PatternBinding * PatternPositions) :=
  match pattern with
  | mkPattern kind pattern_span =>
      match kind with
      | PBinder name =>
          match pp_types positions !! position with
          | Some ty => accept ([mkPatternBinding name pattern_span ty], positions)
          | None => panicking
          end
      | PWildcard =>
          match pp_types positions !! position with
          | Some ty => accept ([mkPatternBinding DISCARD pattern_span ty], positions)
          | None => panicking
          end
      | PEmptyList =>
          let^ (_, positions) := type_position positions position FList pattern nested span in
          accept ([], positions)
      | PCons head tail =>
          let^ (payloads, positions) := type_position positions position FList pattern nested span in
          match payloads with
          | PayloadList element list =>
              match same_binder head tail with
              | Some name =>
                  reject (diagnostic "K2002" ("duplicate match binding `" +:+ name +:+ "`") pattern_span)
              | None => accept ([part_binding head element; part_binding tail list], positions)
              end
          | _ => panicking
          end
      | PVariant variant payload =>
          let^ (payloads, positions) :=
            type_position positions position (variant_family_of variant) pattern nested span in
          match payload with
          | None => accept ([], positions)
          | Some payload =>
              match payload_position payloads variant with
              | Some position => pattern_bindings_from payload position true positions span
              | None => panicking
              end
          end
      end
  end.

Definition pattern_bindings (pattern : Pattern) (positions : PatternPositions) (span : Span)
  : check (list PatternBinding * PatternPositions) :=
  pattern_bindings_from pattern 0 false positions span.

(** ** Operators *)

(** [binary]. *)
Definition binary (lhs : ExpressionInfo) (operator : BinaryOperator) (rhs : ExpressionInfo)
    (span : Span) : check ExpressionInfo :=
  let effects := effects_union (info_effects lhs) (info_effects rhs) in
  let^ ty :=
    match operator with
    | Add =>
        let^ ty := unify (info_ty lhs) (info_ty rhs) span "`+` operands" in
        let^ _ := require ty span Addable in accept ty
    | Subtract | Multiply | Divide | Remainder =>
        let^ _ := unify IInt (info_ty lhs) span "arithmetic operand" in
        let^ _ := unify IInt (info_ty rhs) span "arithmetic operand" in accept IInt
    | Equal | NotEqual =>
        let^ ty := unify (info_ty lhs) (info_ty rhs) span "equality operands" in
        let^ _ := require ty span Comparable in accept IBool
    | Less | LessEqual | Greater | GreaterEqual =>
        let^ ty := unify (info_ty lhs) (info_ty rhs) span "comparison operands" in
        let^ _ := require ty span Orderable in accept IBool
    | And | Or =>
        let^ _ := unify IBool (info_ty lhs) span "boolean operand" in
        let^ _ := unify IBool (info_ty rhs) span "boolean operand" in accept IBool
    end in
  accept (mkInfo ty effects).

(** ** [?] *)

(** [Display] of a written type. *)
Fixpoint annotation_str (annotation : TypeAnnotation) : string :=
  match annotation with
  | mkTypeAnnotation kind _ =>
      match kind with
      | TyInt => "Int"
      | TyBool => "Bool"
      | TyString => "String"
      | TyUnit => "Unit"
      | TyHttpHeader => "HttpHeader"
      | TyHttpRequest => "HttpRequest"
      | TyHttpResponse => "HttpResponse"
      | TyLogField => "LogField"
      | TyQueueJob => "QueueJob"
      | TyScheduleEvent => "ScheduleEvent"
      | TyDatabaseTransaction => "DatabaseTransaction"
      | TySecret => "Secret"
      | TyList element => "List<" +:+ annotation_str element +:+ ">"
      | TyOption element => "Option<" +:+ annotation_str element +:+ ">"
      | TyResult value error =>
          "Result<" +:+ annotation_str value +:+ ", " +:+ annotation_str error +:+ ">"
      | TyRecord fields =>
          "Record { "
          +:+ comma_separated
                (map (fun f => match f with
                               | mkRecordTypeField name annotation _ =>
                                   name +:+ ": " +:+ annotation_str annotation
                               end) fields)
          +:+ " }"
      end
  end.

(** [named_exit_context]. *)
Definition named_exit_context (name : string) (return_type : option TypeAnnotation)
    (declared : InferType) : ExitContext :=
  match return_type with
  | None => Refused (RefusedUndeclared name)
  | Some annotation =>
      match declared with
      | IResult _ error =>
          Propagates (mkPropagation name FamilyResult (Some error) (annotation_str annotation))
      | IOption _ => Propagates (mkPropagation name FamilyOption None (annotation_str annotation))
      | _ => Refused (RefusedOther name (annotation_str annotation))
      end
  end.

(** [propagation_refused]. *)
Definition propagation_refused (refusal : Refusal) (question : Span) : Diagnostic :=
  let '(message, note) :=
    match refusal with
    | RefusedTopLevel =>
        ("`?` is not allowed at the top level",
         "`?` returns early from the enclosing named function; at the top level, handle the value with `match`")
    | RefusedClosure =>
        ("`?` is not allowed in an anonymous function",
         "`?` returns only from a named function; handle the value with `match` here, or move the code into a named `fn` that returns `Result` or `Option`")
    | RefusedWebhook =>
        ("`?` is not allowed in a webhook entrypoint, which returns `HttpResponse`",
         "bind each fallible step with let-else here, as in `let Ok(value) = step else Err(error) => response;`, or move the steps into a helper `fn` that returns `Result<HttpResponse, String>` and use `?` there")
    | RefusedUndeclared name =>
        ("`?` is not allowed in `" +:+ name +:+ "`, which has no declared return type",
         "declare the return type of `" +:+ name
         +:+ "`, as in `-> Result<T, E>` or `-> Option<T>`; `?` returns its `Err` or `None` from there")
    | RefusedOther name return_type =>
        ("`?` is not allowed in `" +:+ name +:+ "`, which returns `" +:+ return_type +:+ "`",
         "`?` returns an `Err` or `None` early, so `" +:+ name
         +:+ "` must return `Result<_, E>` or `Option<_>`; otherwise handle the value with `match`")
    end in
  with_note (diagnostic "K3012" message question) note.

Definition current_exit (exits : list ExitContext) : result Propagation Refusal :=
  match exits with
  | Propagates propagation :: _ => Ok propagation
  | Refused refusal :: _ => Err refusal
  | [] => Err RefusedTopLevel
  end.

(** The error of a [?] whose error type differs. *)
Definition error_type_differs (p : Propagation) (question : Span) (mismatch : Diagnostic)
  : Diagnostic :=
  if negb (bool_decide (diag_code mismatch = "K3001")) then mismatch
  else
    with_note
      (diagnostic "K3013"
         ("`?` cannot return this `Err` from `" +:+ pr_name p
          +:+ "`: its error type differs from the declared `" +:+ pr_return_type p +:+ "`") question)
      "`?` passes the error on unchanged, so both error types must be identical; `match` the value to convert the error".

Definition map_rejection {A} (f : Diagnostic -> Diagnostic) (m : check A) : check A :=
  fun a =>
    match m a with
    | (a', Rejected error) => (a', Rejected (f error))
    | outcome => outcome
    end.

(** [propagate], after its operand. *)
Definition propagate_type (operand : InferType) (question : Span) : check InferType :=
  let^ a := analyzer in
  match current_exit (an_exits a) with
  | Err refusal => reject (propagation_refused refusal question)
  | Ok p =>
      let s := an_inference a in
      match pr_family p, resolve_head s operand, pr_error p with
      | FamilyOption, IOption value, _ => accept value
      | FamilyResult, IResult value found_error, Some error =>
          let^ _ := require error question StructuralValue in
          let^ _ :=
            map_rejection (error_type_differs p question)
              (unify error found_error question "`?` error") in
          accept value
      | family, IVariable _, error =>
          let^ value := new_type in
          let^ expected :=
            match family, error with
            | FamilyResult, Some error =>
                let^ _ := require error question StructuralValue in accept (IResult value error)
            | _, _ => accept (IOption value)
            end in
          let^ _ := unify expected operand question "`?` operand" in
          accept value
      | family, (IOption _ | IResult _ _) as found, _ =>
          let '(found_family, expected_family) :=
            match family with
            | FamilyOption => ("a `Result`", "an `Option`")
            | FamilyResult => ("an `Option`", "a `Result`")
            end in
          reject
            (with_note
               (diagnostic "K3013"
                  ("`?` on " +:+ found_family +:+ " value cannot return from `" +:+ pr_name p
                   +:+ "`, which returns `" +:+ pr_return_type p +:+ "`") question)
               ("`?` returns the family it unwraps; `match` the `" +:+ render s found
                +:+ "` to build " +:+ expected_family +:+ ", or declare " +:+ found_family
                +:+ " return type"))
      | _, found, _ =>
          reject (diagnostic "K3001"
                    ("`?` applies to a `Result` or `Option` value, found `" +:+ render s found +:+ "`")
                    question)
      end
  end.
End Analyzer.
