(* ===== verification/Requirements.v ===== *)
(** * Capability requirements of calls and entrypoints

    Models the parts of [krit/src/analysis.rs] that read resources off the
    text of a program: a host built-in is called by name with its resources as
    string literals ([direct_host_builtin], [require_canonical_literal], the
    first part of [call]), and an entrypoint names its queue or schedule
    ([entrypoint_declaration]). *)

From S2P Require Import Prelude BTree Syntax Sorting Types Infer Builtins Capability Analyzer.

(** [direct_host_builtin]. *)
Definition direct_host_builtin (callee : Expression) : option Builtin :=
  match expression_kind callee with
  | EVariable name =>
      match builtin_from_name name with
      | Some builtin => if is_host_builtin builtin then Some builtin else None
      | None => None
      end
  | _ => None
  end.

Definition name_rule : string :=
  " must use 1-64 lowercase letters, digits, `.` or `-`, without leading/trailing punctuation or `..`/`--`".

(** [require_canonical_literal]. *)
Definition require_canonical_literal (e : Expression) (builtin : Builtin) (kind : string)
  : result string Diagnostic :=
  match expression_kind e with
  | ELiteral (LString value) =>
      if is_valid_resource_name (bytes_of value) then Ok value
      else Err (diagnostic "K3008" (kind +:+ name_rule) (expression_span e))
  | _ =>
      Err (diagnostic "K3008"
             ("`" +:+ builtin_str builtin +:+ "` requires a direct string-literal " +:+ kind)
             (expression_span e))
  end.

(** A string literal, or the error that asks for one. *)
Definition string_literal (e : Expression) (message : string) : result string Diagnostic :=
  match expression_kind e with
  | ELiteral (LString value) => Ok value
  | _ => Err (diagnostic "K3008" message (expression_span e))
  end.

Definition checked_name (valid : bytes -> bool) (value message : string) (span : Span)
  : result unit Diagnostic :=
  if valid (bytes_of value) then Ok tt else Err (diagnostic "K3008" message span).

Section Requirements.
Context (url_parse : string -> option Url).

(** The literal origin of an HTTP built-in, normalized. *)
Definition literal_origin (builtin : Builtin) (origin : Expression) : result string Diagnostic :=
  let name := builtin_str builtin in
  let? value :=
    string_literal origin ("`" +:+ name +:+ "` requires a direct normalized exact-origin literal") in
  match parse_exact url_parse value with
  | Ok normalized => Ok (origin_normalized normalized)
  | Err error =>
      Err (diagnostic "K3008"
             ("invalid `" +:+ name +:+ "` origin: " +:+ origin_message error) (expression_span origin))
  end.

(** The bearer of [http_request]: [None], or [Some] of a secret, whose span is
    then an approved use. *)
Definition bearer_constructor (bearer : Expression) : result (list Span) Diagnostic :=
  let refused :=
    Err (diagnostic "K3008" "`http_request` bearer must be directly `None` or `Some(secret)`"
           (expression_span bearer)) in
  match expression_kind bearer with
  | EVariable name => if bool_decide (name = "None") then Ok [] else refused
  | ECall constructor [_] =>
      match expression_kind constructor with
      | EVariable name =>
          if bool_decide (name = "Some") then Ok [expression_span constructor] else refused
      | _ => refused
      end
  | _ => refused
  end.

Definition one_requirement (e : Effect) (resource : result string Diagnostic)
  : result (list CapabilityRequirement * list Span) Diagnostic :=
  let? resource := resource in Ok ([mkRequirement e resource], []).

(** The requirements of a direct call of a host built-in, with the spans of
    secret constructors it approves. *)
Definition direct_requirements_of (builtin : Builtin) (arguments : list Expression)
  : result (list CapabilityRequirement * list Span) Diagnostic :=
  match builtin, arguments with
  | BiAiInvoke, [adapter; _] =>
      let? resource :=
        string_literal adapter "`ai_invoke` requires a direct string-literal adapter name" in
      let? _ :=
        checked_name is_valid_resource_name resource ("AI adapter name" +:+ name_rule)
          (expression_span adapter) in
      Ok ([mkRequirement EffAiInvoke resource], [])
  | BiConfigString, [argument] =>
      let? resource :=
        string_literal argument "`config_string` requires a direct string-literal resource" in
      let? _ :=
        checked_name is_valid_config_key resource
          "configuration key must use 1-64 lowercase letters, digits, `.`, `-`, or `_`, without leading/trailing punctuation or `..`/`--`/`__`"
          (expression_span argument) in
      Ok ([mkRequirement EffConfigRead resource], [])
  | BiSecret, [argument] =>
      let? resource := string_literal argument "`secret` requires a direct string-literal resource" in
      let? _ :=
        checked_name is_valid_resource_name resource ("capability resource" +:+ name_rule)
          (expression_span argument) in
      Ok ([mkRequirement EffSecretRead resource], [])
  | BiHttpRequest, [origin; _; bearer] =>
      let? normalized := literal_origin builtin origin in
      let? spans := bearer_constructor bearer in
      Ok ([mkRequirement EffHttpRequest normalized], spans)
  | (BiLogInfo | BiLogError), [event; _] =>
      let? name :=
        string_literal event
          ("`" +:+ builtin_str builtin +:+ "` requires a direct string-literal event name") in
      let? _ :=
        checked_name is_valid_resource_name name ("log event name" +:+ name_rule)
          (expression_span event) in
      Ok ([], [])
  | (BiStateGet | BiStateDelete), [store; _] | BiStatePut, [store; _; _] =>
      one_requirement EffStateTransaction
        (require_canonical_literal store builtin "durable state store")
  | BiCheckpointGet, [store; checkpoint] | BiCheckpointPut, [store; checkpoint; _] =>
      let? store := require_canonical_literal store builtin "durable state store" in
      let? _ := require_canonical_literal checkpoint builtin "workflow checkpoint" in
      Ok ([mkRequirement EffStateTransaction store], [])
  | BiReplayHttp, [store; operation; origin; _] =>
      let? store := require_canonical_literal store builtin "durable state store" in
      let? _ := require_canonical_literal operation builtin "replay operation" in
      let? normalized := literal_origin builtin origin in
      Ok ([mkRequirement EffStateTransaction store; mkRequirement EffHttpRequest normalized], [])
  | BiQueuePublish, [queue; _] =>
      one_requirement EffQueuePublish (require_canonical_literal queue builtin "durable queue")
  | BiObjectGet, [bucket; _] =>
      one_requirement EffObjectRead (require_canonical_literal bucket builtin "object bucket")
  | BiObjectDelete, [bucket; _] | BiObjectPut, [bucket; _; _] =>
      one_requirement EffObjectWrite (require_canonical_literal bucket builtin "object bucket")
  | BiCacheGet, [namespace; _] =>
      one_requirement EffCacheRead (require_canonical_literal namespace builtin "cache namespace")
  | BiCacheDelete, [namespace; _] | BiCachePut, [namespace; _; _; _] =>
      one_requirement EffCacheWrite (require_canonical_literal namespace builtin "cache namespace")
  | BiSearchQuery, [index; _; _] =>
      one_requirement EffSearchQuery (require_canonical_literal index builtin "search index")
  | BiVectorSearch, [index; _; _] =>
      one_requirement EffSearchVector (require_canonical_literal index builtin "search index")
  | BiDatabaseBeginRead, [database] =>
      one_requirement EffDatabaseRead
        (require_canonical_literal database builtin "application database")
  | BiDatabaseBeginWrite, [database] =>
      one_requirement EffDatabaseWrite
        (require_canonical_literal database builtin "application database")
  | (BiDatabaseQuery | BiDatabaseExecute), [_; statement; _] =>
      let? _ := require_canonical_literal statement builtin "database statement" in Ok ([], [])
  | BiReplayAi, [store; operation; adapter; _] =>
      let? store := require_canonical_literal store builtin "durable state store" in
      let? _ := require_canonical_literal operation builtin "replay operation" in
      let? adapter := require_canonical_literal adapter builtin "AI adapter" in
      Ok ([mkRequirement EffStateTransaction store; mkRequirement EffAiInvoke adapter], [])
  | _, _ => Ok ([], [])
  end.

(** The first part of [call]. *)
Definition direct_call (callee : Expression) (arguments : list Expression)
  : check (option Builtin * list CapabilityRequirement) :=
  match direct_host_builtin callee with
  | None => accept (None, [])
  | Some builtin =>
      let^ _ :=
        update (fun a => set_direct_references (expression_span callee :: an_direct_references a) a) in
      let^ (requirements, spans) := check_result (direct_requirements_of builtin arguments) in
      let^ _ := update (fun a => set_secret_spans (spans ++ an_secret_spans a) a) in
      accept (Some builtin, requirements)
  end.
End Requirements.

(** The requirements of a call added to its effects: a replayed operation
    performs only the transaction itself. *)
Definition add_requirements (builtin : option Builtin) (requirements : list CapabilityRequirement)
    (effects : InferEffects) : InferEffects :=
  let replay := match builtin with Some (BiReplayHttp | BiReplayAi) => true | _ => false end in
  fold_left
    (fun effects r =>
       mkInferEffects
         (if negb replay || bool_decide (requirement_capability r = EffStateTransaction)
          then oset_insert (requirement_capability r) (direct effects) else direct effects)
         (oset_insert r (direct_requirements effects)) (dependencies effects))
    requirements effects.

(** ** Entrypoints *)

Inductive EntrypointParameter : Type := ParameterRequest | ParameterQueueJob | ParameterScheduleEvent.

Definition annotation_kind (annotation : TypeAnnotation) : TypeKind :=
  match annotation with mkTypeAnnotation kind _ => kind end.

(** [EntrypointParameter::matches], [matches_return] and [signature]. *)
Definition parameter_matches (p : EntrypointParameter) (kind : TypeKind) : bool :=
  match p, kind with
  | ParameterRequest, TyHttpRequest
  | ParameterQueueJob, TyQueueJob
  | ParameterScheduleEvent, TyScheduleEvent => true
  | _, _ => false
  end.

Definition is_string_type (kind : TypeKind) : bool := match kind with TyString => true | _ => false end.

Definition matches_return (p : EntrypointParameter) (annotation : TypeAnnotation) : bool :=
  match p, annotation_kind annotation with
  | ParameterRequest, TyHttpResponse => true
  | (ParameterQueueJob | ParameterScheduleEvent), TyResult value error =>
      is_string_type (annotation_kind value) && is_string_type (annotation_kind error)
  | _, _ => false
  end.

Definition parameter_signature (p : EntrypointParameter) : string :=
  match p with
  | ParameterRequest => "(request: HttpRequest) -> HttpResponse"
  | ParameterQueueJob => "(job: QueueJob) -> Result<String, String>"
  | ParameterScheduleEvent => "(event: ScheduleEvent) -> Result<String, String>"
  end.

Definition entrypoint_of (kind : StatementKind)
  : option (string * SymbolKind * EntrypointParameter * option (Effect * string * Span)) :=
  match kind with
  | SWebhook _ _ _ _ _ => Some ("webhook", KindWebhook, ParameterRequest, None)
  | SQueueConsumer queue queue_span _ _ _ _ _ =>
      Some ("queue", KindQueueConsumer, ParameterQueueJob, Some (EffQueueConsume, queue, queue_span))
  | SScheduleHandler schedule schedule_span _ _ _ _ _ =>
      Some ("schedule", KindScheduleHandler, ParameterScheduleEvent,
            Some (EffScheduleTrigger, schedule, schedule_span))
  | _ => None
  end.

(** [entrypoint_declaration]. *)
Definition entrypoint_declaration (kind : StatementKind) (span : Span) (parameters : list FnParameter)
    (return_type : option TypeAnnotation) (top_level : bool)
  : result (option (SymbolKind * option CapabilityRequirement)) Diagnostic :=
  match entrypoint_of kind with
  | None => Ok None
  | Some (keyword, symbol_kind, parameter_kind, resource) =>
      if negb top_level then
        Err (diagnostic "K1004"
               ("`" +:+ keyword +:+ "` declarations are only allowed at the top level") span)
      else
        let valid_parameter :=
          match parameters with
          | [p] =>
              match parameter_annotation p with
              | Some annotation => parameter_matches parameter_kind (annotation_kind annotation)
              | None => false
              end
          | _ => false
          end in
        let valid_return :=
          match return_type with
          | Some annotation => matches_return parameter_kind annotation
          | None => false
          end in
        if negb valid_parameter || negb valid_return then
          Err (diagnostic "K3007"
                 (keyword +:+ " signature must be exactly `" +:+ parameter_signature parameter_kind
                  +:+ "`") span)
        else
          match resource with
          | Some (effect, name, name_span) =>
              if is_valid_resource_name (bytes_of name)
              then Ok (Some (symbol_kind, Some (mkRequirement effect name)))
              else Err (diagnostic "K3008" (keyword +:+ " name" +:+ name_rule) name_span)
          | None => Ok (Some (symbol_kind, None))
          end
  end.
