(* ===== verification/Analysis.v ===== *)
(** * The analyzer: the walk over a program

    Models [Analyzer::program] of [krit/src/analysis.rs] and what it calls on
    statements, blocks and expressions, down to the [Analysis] it returns.

    The functions recurse through [expression] and [block] only, both of
    which count their depth and refuse past [MAX_TREE_DEPTH]; the fuel is
    spent at exactly those two, and every function between them is defined
    once, over the two recursive calls it is given. *)

From S2P Require Import Prelude BTree Syntax Sorting Types Infer Normalize Builtins.
From S2P Require Import Patterns Capability Construction Habits ParserSpec Analyzer Requirements.

Section Analysis.
Context (str_debug : string -> string) (url_parse : string -> option Url) (steps : nat).

Abbreviation render := (render str_debug).
Abbreviation unify := (unify str_debug steps).

(** ** Depth and bodies *)

Definition enter (span : Span) : check unit :=
  fun a =>
    if MAX_TREE_DEPTH <=? an_depth a then (a, Rejected (tree_depth_error span))
    else (set_depth (an_depth a + 1) a, Accepted tt).

(** [self.enter(span)?; let info = contents; self.depth -= 1; info]. *)
Definition nested {A} (span : Span) (contents : check A) : check A :=
  let^ _ := enter span in
  fun a => let '(a', info) := contents a in (set_depth (an_depth a' - 1) a', info).

(** A body analyzed with what [?] and let-else may exit, which are popped
    however it ends. *)
Definition in_body {A} (exit : ExitContext) (body : LetElseBody) (contents : check A) : check A :=
  let^ _ :=
    update (fun a => set_let_else_bodies (body :: an_let_else_bodies a)
                       (set_exits (exit :: an_exits a) a)) in
  fun a =>
    let '(a', info) := contents a in
    (set_exits (tail (an_exits a')) (set_let_else_bodies (tail (an_let_else_bodies a')) a'), info).

(** A scope that is popped however its contents end. *)
Definition scoped {A} (contents : check A) : check A :=
  let^ _ := push_scope in
  fun a => let '(a', info) := contents a in (set_scopes (tail (an_scopes a')) a', info).

Definition pure (ty : InferType) : ExpressionInfo := mkInfo ty no_effects.

(** [let_else_result]. *)
Definition let_else_result (head : Span) (block : option Span) : check InferType :=
  let refuse message note := reject (with_note (diagnostic "K3014" message head) note) in
  let^ a := analyzer in
  match an_let_else_bodies a with
  | LetElseNamed body result :: _ =>
      if bool_decide (block = Some body) then accept result
      else
        refuse "let-else must be a statement of the function body itself, not of a nested block"
          "let-else returns from the enclosing function, so it may only appear at the top level of a named function's body; handle the value with `match` here"
  | LetElseClosure :: _ =>
      refuse "let-else is not allowed in an anonymous function"
        "let-else returns only from a named function; handle the value with `match` here, or move the code into a named `fn`"
  | [] =>
      refuse "let-else is not allowed at the top level"
        "let-else returns early from the enclosing named function; at the top level, handle the value with `match`"
  end.

(** [hole_type_error]. *)
Definition hole_type_error (s : Inference) (value : Expression) (ty : InferType) (span : Span)
  : Diagnostic :=
  let path := receiver_text value in
  let subject :=
    match path with
    | None => "this interpolation hole"
    | Some path => "interpolation hole `" +:+ path +:+ "`"
    end in
  let note :=
    match resolve_head s ty with
    | IInt =>
        let path := default "value" path in
        let name := match receiver_path MAX_FIELDS value with
                    | Some names => default path (last names)
                    | None => path
                    end in
        "convert it first, as in `let " +:+ name +:+ "_text = int_to_string(" +:+ path
        +:+ ");`, then write `\(" +:+ name +:+ "_text)`"
    | ISecret => "a `Secret` is opaque and never becomes text"
    | IOption _ | IResult _ _ => "match the value first and interpolate the `String` it holds"
    | _ => "a hole inserts text: bind a `String` to a name and interpolate that name"
    end in
  with_note
    (diagnostic "K3015"
       (subject +:+ " has type `" +:+ render s ty +:+ "`, but a hole must be a `String`") span)
    note.

Definition unify_hole (value : Expression) (ty : InferType) (span : Span) : check unit :=
  fun a =>
    match unify_inner span steps IString ty (an_inference a) with
    | None => (a, Exhausted)
    | Some (Ok _, s) => (set_inference s a, Accepted tt)
    | Some (Err _, s) =>
        let '(a, error) := mismatch_error (set_inference s a) (hole_type_error s value ty span) in
        (a, Rejected error)
    end.

(** ** The functions between [expression] and [block] *)

Section Contents.
Variable expression : Expression -> check ExpressionInfo.
Variable block : Block -> check ExpressionInfo.

(** An operand that must have a structural type. *)
Definition structural_operand (e : Expression) : check ExpressionInfo :=
  let^ info := expression e in
  let^ _ := require (info_ty info) (expression_span e) StructuralValue in
  accept info.

Fixpoint list_elements (element_type : InferType) (elements : list Expression)
    (effects : InferEffects) : check InferEffects :=
  match elements with
  | [] => accept effects
  | e :: elements' =>
      let^ info := structural_operand e in
      let^ _ := unify element_type (info_ty info) (expression_span e) "list element" in
      list_elements element_type elements' (effects_union effects (info_effects info))
  end.

Definition list_expression (elements : list Expression) : check ExpressionInfo :=
  let^ element_type := new_type in
  let^ effects := list_elements element_type elements no_effects in
  accept (mkInfo (IList element_type) effects).

Fixpoint interpolation (parts : list StringPart) (effects : InferEffects) : check ExpressionInfo :=
  match parts with
  | [] => accept (mkInfo IString effects)
  | PartText _ _ :: parts' => interpolation parts' effects
  | PartHole value span :: parts' =>
      let^ info := expression value in
      let^ _ := unify_hole value (info_ty info) span in
      interpolation parts' (effects_union effects (info_effects info))
  end.

Definition entry_part (part : Expression) (context : string) (effects : InferEffects)
  : check InferEffects :=
  let^ info := structural_operand part in
  let^ _ := unify IString (info_ty info) (expression_span part) context in
  accept (effects_union effects (info_effects info)).

Fixpoint entry_list (entries : list ListEntry) (effects : InferEffects) : check ExpressionInfo :=
  match entries with
  | [] => accept (mkInfo (IList entry_type) effects)
  | mkListEntry key value _ :: entries' =>
      let^ effects := entry_part key "entry key" effects in
      let^ effects := entry_part value "entry value" effects in
      entry_list entries' effects
  end.

Fixpoint record_fields (fields : list RecordField) (types : list (string * InferType))
    (effects : InferEffects) : check ExpressionInfo :=
  match fields with
  | [] => accept (mkInfo (IRecord types false) effects)
  | mkRecordField name value span :: fields' =>
      let^ info := structural_operand value in
      if is_some (bt_get name types) then
        reject (diagnostic "K2002" ("duplicate record field `" +:+ name +:+ "`") span)
      else
        record_fields fields' (bt_insert name (info_ty info) types)
          (effects_union effects (info_effects info))
  end.

Fixpoint construct_fields (contract : ContractRecord) (types : list (string * InferType))
    (fields : list ConstructField) (effects : InferEffects) : check InferEffects :=
  match fields with
  | [] => accept effects
  | mkConstructField name _ value _ :: fields' =>
      let^ info := structural_operand value in
      match bt_get name types with
      | None => panicking
      | Some expected =>
          let^ _ :=
            unify expected (info_ty info) (expression_span value)
              ("`" +:+ contract_name contract +:+ "` field `" +:+ name +:+ "`") in
          construct_fields contract types fields' (effects_union effects (info_effects info))
      end
  end.

Definition construction (contract : ContractRecord) (contract_span : Span)
    (fields : list ConstructField) : check ExpressionInfo :=
  let^ _ := check_result (check_construction_fields contract contract_span fields) in
  match contract_record (contract_nominal contract) with
  | IRecord types _ =>
      let^ effects := construct_fields contract types fields no_effects in
      accept (mkInfo (IRecord types false) effects)
  | _ => panicking
  end.

(** The chain of an [if]: its links, innermost first, and the last branch. *)
Abbreviation if_link := (Span * InferEffects * ExpressionInfo)%type.

Fixpoint if_links (current : Expression) (links : list if_link)
  : check (ExpressionInfo * list if_link) :=
  match current with
  | mkExpression (EIf condition consequent alternative) span =>
      let^ info := expression condition in
      let^ _ := unify IBool (info_ty info) (expression_span condition) "if condition" in
      let^ branch := block consequent in
      if_links alternative ((span, info_effects info, branch) :: links)
  | _ => let^ info := expression current in accept (info, links)
  end.

Fixpoint if_unwind (links : list if_link) (info : ExpressionInfo) : check ExpressionInfo :=
  match links with
  | [] => accept info
  | (span, condition_effects, branch) :: links' =>
      let^ ty := unify (info_ty branch) (info_ty info) span "if branches" in
      let info :=
        mkInfo ty
          (effects_union (effects_union condition_effects (info_effects branch)) (info_effects info)) in
      let^ _ :=
        match links' with [] => accept tt | _ => record_expression span info None end in
      if_unwind links' info
  end.

Definition if_chain (e : Expression) : check ExpressionInfo :=
  let^ (info, links) := if_links e [] in if_unwind links info.

(** The left spine of a chain of binary operators, lowest first. *)
Fixpoint left_spine (current : Expression) (spine : list Expression)
  : Expression * list Expression :=
  match current with
  | mkExpression (EBinary lhs _ _) _ => left_spine lhs (current :: spine)
  | _ => (current, spine)
  end.

Fixpoint spine_unwind (spine : list Expression) (info : ExpressionInfo) : check ExpressionInfo :=
  match spine with
  | [] => accept info
  | mkExpression (EBinary _ operator rhs) span :: spine' =>
      let^ rhs := expression rhs in
      let^ info := binary str_debug steps info operator rhs span in
      let^ _ :=
        match spine' with [] => accept tt | _ => record_expression span info None end in
      spine_unwind spine' info
  | _ :: _ => panicking
  end.

Definition binary_chain (e : Expression) : check ExpressionInfo :=
  let '(lowest, spine) := left_spine e [] in
  let^ info := expression lowest in
  spine_unwind spine info.

(** [function]: an anonymous function. *)
Definition function (parameters : list FnParameter) (return_type : option TypeAnnotation)
    (body : Block) : check ExpressionInfo :=
  let^ parameter_types := declared_types parameters in
  let^ declared_return := declared_type return_type in
  let^ effect := new_effect in
  let^ _ := push_scope in
  let^ _ := define_parameters parameters parameter_types in
  let^ info := in_body (Refused RefusedClosure) LetElseClosure (block body) in
  let^ _ := pop_scope in
  let^ _ :=
    unify declared_return (info_ty info)
      match return_type with Some (mkTypeAnnotation _ span) => span | None => block_span body end
      "function return type" in
  let^ _ := define_effect effect (info_effects info) in
  accept (pure (IFunction parameter_types declared_return effect)).

Fixpoint call_arguments (arguments : list Expression) (effects : InferEffects)
  : check (list InferType * InferEffects) :=
  match arguments with
  | [] => accept ([], effects)
  | e :: arguments' =>
      let^ info := expression e in
      let^ (types, effects) := call_arguments arguments' (effects_union effects (info_effects info)) in
      accept (info_ty info :: types, effects)
  end.

Fixpoint new_types (count : nat) : check (list InferType) :=
  match count with
  | O => accept []
  | S count' => let^ ty := new_type in let^ types := new_types count' in accept (ty :: types)
  end.

Definition not_callable (s : Inference) (callee : Expression) (found : InferType) : Diagnostic :=
  let error :=
    diagnostic "K3002" ("cannot call value of type `" +:+ render s found +:+ "`")
      (expression_span callee) in
  match expression_kind callee with
  | EVariable name =>
      if bool_decide (name = "None") then
        with_note error
          "`None` is a value, not a function: write `None` without parentheses, or `Some(value)` for a present value"
      else error
  | _ => error
  end.

(** The type called: its parameters, result and effect. *)
Definition call_target (callee : Expression) (callee_type : InferType) (count : nat) (span : Span)
  : check (list InferType * InferType * nat) :=
  let^ s := state in
  match resolve_head s callee_type with
  | IFunction parameters return_type effect => accept (parameters, return_type, effect)
  | IVariable variable =>
      let^ parameters := new_types count in
      let^ return_type := new_type in
      let^ effect := new_effect in
      let^ _ :=
        bind_target str_debug steps variable (IFunction parameters return_type effect) span
          "call target" in
      accept (parameters, return_type, effect)
  | other => reject (not_callable s callee other)
  end.

Definition is_log (builtin : option Builtin) : bool :=
  match builtin with Some (BiLogInfo | BiLogError) => true | _ => false end.

(** Positions where a secret or a transaction may stand. *)
Definition approved_use (builtin : option Builtin) (callee_span : Span) (secret_spans : list Span)
    (index : nat) : bool :=
  match builtin, index with
  | Some BiHttpRequest, 2%nat => true
  | Some (BiDatabaseQuery | BiDatabaseExecute | BiDatabaseCommit | BiDatabaseRollback), 0%nat => true
  | _, _ => bool_decide (callee_span ∈ secret_spans)
  end.

Fixpoint match_arguments (builtin : option Builtin) (callee_span span : Span) (index : nat)
    (parameters types : list InferType) (arguments : list Expression) : check unit :=
  match parameters, types, arguments with
  | parameter :: parameters', ty :: types', argument :: arguments' =>
      let^ a := analyzer in
      if is_log builtin && contains_secret (an_inference a) ty then
        reject (diagnostic "K3009"
                  "opaque `Secret` values cannot be placed into structured log fields"
                  (expression_span argument))
      else
        let^ _ :=
          (if approved_use builtin callee_span (an_secret_spans a) index then accept tt
           else require ty (expression_span argument) OpaqueArgument) in
        let^ _ := unify parameter ty span "function argument" in
        match_arguments builtin callee_span span (S index) parameters' types' arguments'
  | _, _, _ => accept tt
  end.

Definition arity_mismatch (expected found : nat) (span : Span) : Diagnostic :=
  diagnostic "K3003"
    ("function expects " +:+ pretty (N.of_nat expected) +:+ " argument(s), found "
     +:+ pretty (N.of_nat found)) span.

Definition is_field_access (e : Expression) : bool :=
  match expression_kind e with EFieldAccess _ _ => true | _ => false end.

(** [call]. *)
Definition call (callee : Expression) (arguments : list Expression) (span : Span)
  : check ExpressionInfo :=
  let^ (builtin, requirements) := direct_call url_parse callee arguments in
  let^ _ :=
    (if is_field_access callee then update (set_method_callee (Some (expression_span callee)))
     else accept tt) in
  let^ callee_info := expression callee in
  let^ (types, effects) := call_arguments arguments (info_effects callee_info) in
  let^ (parameters, return_type, effect) :=
    call_target callee (info_ty callee_info) (length arguments) span in
  if negb (Nat.eqb (length parameters) (length types)) then
    reject (arity_mismatch (length parameters) (length types) span)
  else
    let effects := add_requirements builtin requirements effects in
    let^ _ := match_arguments builtin (expression_span callee) span 0 parameters types arguments in
    accept (mkInfo return_type
              (mkInferEffects (direct effects) (direct_requirements effects)
                 (oset_insert effect (dependencies effects)))).

Definition propagate (operand : Expression) (question : Span) : check ExpressionInfo :=
  let^ info := expression operand in
  let^ ty := propagate_type str_debug steps (info_ty info) question in
  accept (mkInfo ty (info_effects info)).

(** [match_expression]. *)
Definition known_family (ty : InferType) : option Family :=
  match ty with
  | IOption _ => Some FOption
  | IResult _ _ => Some FResult
  | IList _ => Some FList
  | _ => None
  end.

Fixpoint arms_bindings (arms : list MatchArm) (positions : PatternPositions) (span : Span)
  : check (list (list PatternBinding)) :=
  match arms with
  | [] => accept []
  | arm :: arms' =>
      let^ (bindings, positions) :=
        pattern_bindings str_debug steps (arm_pattern arm) positions span in
      let^ all := arms_bindings arms' positions span in
      accept (bindings :: all)
  end.

Fixpoint define_bindings (bindings : list PatternBinding) : check unit :=
  match bindings with
  | [] => accept tt
  | b :: bindings' =>
      let^ _ := define_symbol (bound_name b) (bound_ty b) (bound_span b) KindMatch false in
      define_bindings bindings'
  end.

Fixpoint match_arms (arms : list MatchArm) (bindings : list (list PatternBinding))
    (result_type : option InferType) (effects : InferEffects)
  : check (option InferType * InferEffects) :=
  match arms, bindings with
  | mkMatchArm _ value arm_span :: arms', bound :: bindings' =>
      let^ info :=
        scoped (let^ _ := define_bindings bound in expression value) in
      let effects := effects_union effects (info_effects info) in
      let^ ty :=
        match result_type with
        | Some result_type => unify result_type (info_ty info) arm_span "match arms"
        | None => accept (info_ty info)
        end in
      match_arms arms' bindings' (Some ty) effects
  | _, _ => accept (result_type, effects)
  end.

Definition match_expression (subject : Expression) (arms : list MatchArm) (span : Span)
  : check ExpressionInfo :=
  let^ info := expression subject in
  let^ s := state in
  let^ _ := check_result (check_arms arms (known_family (resolve_head s (info_ty info)))) in
  let^ bindings := arms_bindings arms (new_positions (info_ty info)) span in
  let^ _ := check_result (check_exhaustive arms span) in
  let^ (result_type, effects) := match_arms arms bindings None (info_effects info) in
  let^ ty := match result_type with Some ty => accept ty | None => new_type end in
  accept (mkInfo ty effects).

Definition unary (operator : UnaryOperator) (operand : Expression) (span : Span)
  : check ExpressionInfo :=
  let^ info := expression operand in
  let expected := match operator with Not => IBool | Negate => IInt end in
  let^ ty := unify expected (info_ty info) span "unary operator" in
  accept (mkInfo ty (info_effects info)).

Definition field_access (value : Expression) (field : string) (span : Span)
  : check ExpressionInfo :=
  let^ a := analyzer in
  let called := bool_decide (an_method_callee a = Some span) in
  let^ _ := update (set_method_callee None) in
  let^ info := expression value in
  let^ ty :=
    field_error str_debug (if called then Some (info_ty info) else None) value field span
      (require_field str_debug (info_ty info) field span) in
  accept (mkInfo ty (info_effects info)).

(** A name, with what it resolves to. *)
Definition variable (name : string) (span : Span) : check (ExpressionInfo * option ResolvedName) :=
  let^ (ty, resolution) := lookup_name name span in
  let^ _ :=
    match resolution with
    | ResolvedSymbol _ =>
        if bool_decide (name = DISCARD) then
          update (fun a =>
            set_warnings
              (an_warnings a
               ++ [mkDiagnostic SeverityWarning "K2003"
                     "`_` is a discard; reading it will be an error in edition 2027" span []]) a)
        else accept tt
    | ResolvedBuiltin builtin =>
        if is_host_builtin builtin
        then update (fun a => set_host_references (an_host_references a ++ [(span, builtin)]) a)
        else accept tt
    end in
  accept (pure ty, Some resolution).

Definition unresolved (m : check ExpressionInfo) : check (ExpressionInfo * option ResolvedName) :=
  let^ info := m in accept (info, None).

Definition literal_type (l : ValueLiteral) : InferType :=
  match l with LInteger _ => IInt | LBoolean _ => IBool | LString _ => IString end.

Definition expression_contents (e : Expression) : check ExpressionInfo :=
  match e with
  | mkExpression ekind span =>
      let^ (info, resolved) :=
        match ekind with
        | ELiteral l => unresolved (accept (pure (literal_type l)))
        | EInterpolation parts => unresolved (interpolation parts no_effects)
        | EVariable name => variable name span
        | EUnit => unresolved (accept (pure IUnit))
        | EList elements => unresolved (list_expression elements)
        | EEntryList entries => unresolved (entry_list entries no_effects)
        | ERecord fields => unresolved (record_fields fields [] no_effects)
        | EConstruct contract contract_span fields =>
            unresolved (construction contract contract_span fields)
        | EFieldAccess value field => unresolved (field_access value field span)
        | EBlock b => unresolved (block b)
        | EIf _ _ _ => unresolved (if_chain e)
        | EFunction parameters return_type body => unresolved (function parameters return_type body)
        | ECall callee arguments => unresolved (call callee arguments span)
        | EPropagate operand question => unresolved (propagate operand question)
        | EMatch subject arms => unresolved (match_expression subject arms span)
        | EUnary operator operand => unresolved (unary operator operand span)
        | EBinary _ _ _ => unresolved (binary_chain e)
        end in
      let^ _ := record_expression span info resolved in
      accept info
  end.

(** ** Statements *)

Definition annotated (annotation : option TypeAnnotation) (ty : InferType) (context : string)
  : check InferType :=
  match annotation with
  | Some (mkTypeAnnotation kind span as annotation) =>
      let^ _ := unify (annotation_type annotation) ty span context in
      accept (annotation_type annotation)
  | None => accept ty
  end.

Definition top_level : check bool :=
  let^ a := analyzer in accept (bool_decide (length (an_scopes a) = 1%nat)).

Definition let_statement (name : string) (annotation : option TypeAnnotation) (value : Expression)
    (span : Span) : check InferEffects :=
  let^ _ := ensure_name_available name span in
  let^ info := expression value in
  let^ ty := annotated annotation (info_ty info) "let binding annotation" in
  let^ binding_type := new_type in
  let^ _ := unify binding_type ty span "let binding" in
  let^ top := top_level in
  let^ id := define_symbol name binding_type span KindLet top in
  let^ _ := push_binding id name binding_type span top in
  accept (info_effects info).

Definition example_pattern (v : VariantName) : string :=
  match v with
  | VSome => "Some(value)"
  | VNone => "None"
  | VOk => "Ok(value)"
  | VErr => "Err(error)"
  end.

Definition wrong_complement (pattern arm : VariantName) (span : Span) : Diagnostic :=
  let complement := variant_complement pattern in
  with_note
    (diagnostic "K3014"
       ("the arm of a let-else on `" +:+ variant_str pattern +:+ "` must match `"
        +:+ variant_str complement +:+ "`, found `" +:+ variant_str arm +:+ "`") span)
    ("the two patterns of a let-else are the two variants of one family, `Ok` and `Err` or `Some` and `None`: write `else "
     +:+ example_pattern complement +:+ " => ...`").

(** A variant binds a payload exactly when it is not [None]. *)
Definition check_binder (variant : VariantName) (binding : option string) (span : Span)
  : result unit Diagnostic :=
  if bool_decide (variant = VNone) && is_some binding
     || negb (bool_decide (variant = VNone)) && negb (is_some binding)
  then Err (diagnostic "K3005" ("invalid `" +:+ variant_str variant +:+ "` let-else binding") span)
  else Ok tt.

Definition let_else_head (family : VariantFamily) (found : InferType) : bool :=
  match found, family with
  | IVariable _, _ | IOption _, FamilyOption | IResult _ _, FamilyResult => true
  | _, _ => false
  end.

Definition payload_of (payload error : InferType) (variant : VariantName) : InferType :=
  match variant with VErr => error | _ => payload end.

Definition let_else_subject (variant : VariantName) (subject : InferType) (span : Span)
  : check (InferType * InferType) :=
  let family := variant_family variant in
  let^ s := state in
  let found := resolve_head s subject in
  if let_else_head family found then
    let^ payload := new_type in
    let^ error := new_type in
    let expected :=
      match family with FamilyOption => IOption payload | FamilyResult => IResult payload error end in
    let^ _ := unify expected subject span "let-else value" in
    accept (payload, error)
  else
    reject (diagnostic "K3005"
              ("let-else on `" +:+ variant_str variant +:+ "` requires "
               +:+ match family with FamilyOption => "an `Option`" | FamilyResult => "a `Result`" end
               +:+ " value, found `" +:+ render s found +:+ "`") span).

Definition let_else (span : Span) (block_at : option Span) (pattern : VariantPattern)
    (annotation : option TypeAnnotation) (value : Expression) (arm : VariantArm)
  : check InferEffects :=
  match arm with
  | mkVariantArm arm_variant arm_binding arm_value arm_span =>
      let^ result :=
        let_else_result (mkSpan (span_start span) (span_end (vp_span pattern))) block_at in
      let variant := vp_variant pattern in
      if negb (bool_decide (arm_variant = variant_complement variant)) then
        reject (wrong_complement variant arm_variant arm_span)
      else
        let^ _ := check_result (check_binder variant (vp_binding pattern) (vp_span pattern)) in
        let^ _ := check_result (check_binder arm_variant arm_binding arm_span) in
        let^ _ :=
          match vp_binding pattern with
          | Some name => ensure_name_available name span
          | None => accept tt
          end in
        let^ info := expression value in
        let^ subject := annotated annotation (info_ty info) "let-else annotation" in
        let^ (payload, error) := let_else_subject variant subject (expression_span value) in
        let^ _ := push_scope in
        let^ _ :=
          match arm_binding with
          | Some binding =>
              let^ _ := define_symbol binding (payload_of payload error arm_variant) arm_span KindMatch false in
              accept tt
          | None => accept tt
          end in
        let^ arm_info := expression arm_value in
        let^ _ := pop_scope in
        let^ _ := unify result (info_ty arm_info) (expression_span arm_value) "let-else arm" in
        let^ _ :=
          match vp_binding pattern with
          | Some name =>
              let^ binding_type := new_type in
              let^ _ :=
                unify binding_type (payload_of payload error variant) span "let-else binding" in
              let^ id := define_symbol name binding_type span KindLet false in
              push_binding id name binding_type span false
          | None => accept tt
          end in
        accept (effects_union (info_effects info) (info_effects arm_info))
  end.

Definition requirement_effects (r : CapabilityRequirement) : InferEffects :=
  mkInferEffects [requirement_capability r] [r] [].

(** A named function or an entrypoint. *)
Definition declaration (kind : StatementKind) (name : string) (parameters : list FnParameter)
    (return_type : option TypeAnnotation) (body : Block) (span : Span) : check InferEffects :=
  let^ top := top_level in
  let^ entrypoint :=
    check_result (entrypoint_declaration kind span parameters return_type top) in
  let symbol_kind := match entrypoint with Some (kind, _) => kind | None => KindFunction end in
  let^ _ := ensure_name_available name span in
  let^ parameter_types := declared_types parameters in
  let^ declared_return := declared_type return_type in
  let exit :=
    match kind with
    | SWebhook _ _ _ _ _ => Refused RefusedWebhook
    | _ => named_exit_context name return_type declared_return
    end in
  let^ effect := new_effect in
  let function_type := IFunction parameter_types declared_return effect in
  let^ id := define_symbol name function_type span symbol_kind top in
  let^ _ := push_scope in
  let^ _ := define_parameters parameters parameter_types in
  let^ info := in_body exit (LetElseNamed (block_span body) declared_return) (block body) in
  let^ _ := pop_scope in
  let^ _ :=
    unify declared_return (info_ty info)
      match return_type with Some (mkTypeAnnotation _ span) => span | None => block_span body end
      "function return type" in
  let^ _ := define_effect effect (info_effects info) in
  let^ _ :=
    match entrypoint with
    | Some (_, Some requirement) => define_effect effect (requirement_effects requirement)
    | _ => accept tt
    end in
  let^ _ := push_binding id name function_type span top in
  accept no_effects.

Definition statement (st : Statement) (block_at : option Span) : check InferEffects :=
  match st with
  | mkStatement kind span =>
      match kind with
      | SLet name annotation value => let_statement name annotation value span
      | SLetElse pattern annotation value _ arm => let_else span block_at pattern annotation value arm
      | SFunction name parameters return_type body _
      | SWebhook name parameters return_type body _
      | SQueueConsumer _ _ name parameters return_type body _
      | SScheduleHandler _ _ name parameters return_type body _ =>
          declaration kind name parameters return_type body span
      | SExpression e => let^ info := expression e in accept (info_effects info)
      end
  end.

Fixpoint statements (sts : list Statement) (block_at : option Span) (effects : InferEffects)
  : check InferEffects :=
  match sts with
  | [] => accept effects
  | st :: sts' =>
      let^ own := statement st block_at in
      statements sts' block_at (effects_union effects own)
  end.

Definition block_contents (b : Block) : check ExpressionInfo :=
  match b with
  | mkBlock sts tail span =>
      let^ _ := push_scope in
      let^ effects := statements sts (Some span) no_effects in
      let^ info :=
        match tail with
        | Some tail =>
            let^ info := expression tail in
            accept (mkInfo (info_ty info) (effects_union effects (info_effects info)))
        | None => accept (mkInfo IUnit effects)
        end in
      let^ _ := pop_scope in
      let^ _ :=
        update (fun a =>
          set_blocks (an_blocks a ++ [mkPendingBlock span (info_ty info) (info_effects info)]) a) in
      accept info
  end.
End Contents.

(** ** The recursion *)

(** [Analyzer::expression] and [Analyzer::block]. *)
Fixpoint expression (fuel : nat) (e : Expression) : check ExpressionInfo :=
  match fuel with
  | O => exhausted
  | S fuel => nested (expression_span e) (expression_contents (expression fuel) (block fuel) e)
  end
with block (fuel : nat) (b : Block) : check ExpressionInfo :=
  match fuel with
  | O => exhausted
  | S fuel =>
      nested (block_span b) (block_contents (expression fuel) (block fuel) b)
  end.

(** Enough for every tree: [enter] refuses before it is spent. *)
Definition analysis_fuel : nat := Z.to_nat (MAX_TREE_DEPTH + 1).

(** ** The checks after the walk *)

(** [validate_host_builtin_references]. *)
Definition validate_host_builtin_references (a : Analyzer) : result unit Diagnostic :=
  match find (fun '(span, _) => negb (bool_decide (span ∈ an_direct_references a)))
          (an_host_references a) with
  | Some (span, builtin) =>
      Err (diagnostic "K3008"
             ("`" +:+ builtin_str builtin
              +:+ "` must be called directly with a string-literal resource") span)
  | None => Ok tt
  end.

Definition constraint_valid (a : Analyzer) (c : TypeConstraint) : bool :=
  let s := an_inference a in
  let opaque := contains_secret s (tc_ty c) || contains_transaction s (tc_ty c) in
  match tc_kind c with
  | Addable | Orderable =>
      match resolve_head s (tc_ty c) with IInt | IString | IVariable _ => true | _ => false end
  | Comparable => is_comparable s (tc_ty c)
  | JsonValue => is_json_value s (tc_ty c)
  | OpaqueArgument | Printable => negb opaque
  | StructuralValue =>
      if bool_decide (tc_span c ∈ an_secret_spans a)
      then is_secret (resolve_head s (tc_ty c))
      else negb opaque
  end.

Definition opaque_operation (kind : ConstraintKind) (argument : string) : string :=
  match kind with
  | Comparable => "compared"
  | JsonValue => "encoded as JSON"
  | OpaqueArgument => argument
  | Printable => "printed"
  | StructuralValue => "placed into ordinary structural data"
  | Addable => "used by `+`"
  | Orderable => "ordered"
  end.

(** The error of a constraint that does not hold; [None] is the
    [unreachable!] of the kinds that refuse only opaque types. *)
Definition constraint_error (s : Inference) (c : TypeConstraint) : option Diagnostic :=
  let ty := tc_ty c in
  if contains_transaction s ty then
    Some (diagnostic "K3010"
            ("opaque `DatabaseTransaction` values cannot be "
             +:+ opaque_operation (tc_kind c) "passed outside the first argument of a database operation")
            (tc_span c))
  else if contains_secret s ty then
    Some (diagnostic "K3009"
            ("opaque `Secret` values cannot be "
             +:+ opaque_operation (tc_kind c) "passed outside the approved HTTP bearer position")
            (tc_span c))
  else
    match tc_kind c with
    | Addable =>
        Some (diagnostic "K3001"
                ("`+` requires two integers or two strings, found `" +:+ render s ty +:+ "`") (tc_span c))
    | Orderable =>
        Some (diagnostic "K3001"
                ("`<`, `<=`, `>`, and `>=` require two integers or two strings, found `"
                 +:+ render s ty +:+ "`") (tc_span c))
    | Comparable =>
        Some (diagnostic "K3006"
                ("values of type `" +:+ render s ty +:+ "` cannot be compared") (tc_span c))
    | JsonValue =>
        Some (diagnostic "K3006"
                ("values of type `" +:+ render s ty +:+ "` cannot be encoded as JSON") (tc_span c))
    | OpaqueArgument | Printable | StructuralValue => None
    end.

(** [validate_constraints]. *)
Definition validate_constraints : check unit :=
  fun a =>
    match find (fun c => negb (constraint_valid a c)) (an_constraints a) with
    | None => (a, Accepted tt)
    | Some c =>
        (a, match constraint_error (an_inference a) c with
            | Some error => Rejected error
            | None => Panicking
            end)
    end.

(** ** What is reported *)

Record BindingAnalysis : Type := mkBindingAnalysis {
  ba_id : nat; ba_name : string; ba_ty : KritType; ba_span : Span; ba_top_level : bool }.

Record SymbolAnalysis : Type := mkSymbolAnalysis {
  sa_id : nat; sa_name : string; sa_kind : SymbolKind; sa_ty : KritType; sa_span : Span;
  sa_top_level : bool }.

Record ExpressionAnalysis : Type := mkExpressionAnalysis {
  ea_span : Span; ea_ty : KritType; ea_effects : list Effect;
  ea_requirements : list CapabilityRequirement; ea_resolved : option ResolvedName }.

Record BlockAnalysis : Type := mkBlockAnalysis {
  ka_span : Span; ka_ty : KritType; ka_effects : list Effect;
  ka_requirements : list CapabilityRequirement }.

Record ProgramAnalysis : Type := mkAnalysis {
  pa_bindings : list BindingAnalysis;
  pa_effects : list Effect;
  pa_requirements : list CapabilityRequirement;
  pa_symbols : list SymbolAnalysis;
  pa_symbol_index : list nat;
  pa_expressions : list ExpressionAnalysis;
  pa_blocks : list BlockAnalysis;
}.

(** A pass of the normalizer over a vector. *)
Fixpoint normalize_each {A B} (normalized : InferType -> TypeNormalizer -> KritType * TypeNormalizer)
    (ty : A -> InferType) (make : A -> KritType -> B) (l : list A) (n : TypeNormalizer)
  : list B * TypeNormalizer :=
  match l with
  | [] => ([], n)
  | x :: l' =>
      let '(t, n) := normalized (ty x) n in
      let '(rest, n) := normalize_each normalized ty make l' n in (make x t :: rest, n)
  end.

(** The derived orders of [Span] and [SymbolKind]. *)
Definition span_key (span : Span) : Z * Z := (span_start span, span_end span).

Definition kind_index (kind : SymbolKind) : nat :=
  match kind with
  | KindLet => 0 | KindFunction => 1 | KindWebhook => 2 | KindQueueConsumer => 3
  | KindScheduleHandler => 4 | KindParameter => 5 | KindMatch => 6
  end.

(** [symbol_key_order], as the order of keys. *)
Definition symbol_key (symbol : SymbolAnalysis) : (Z * Z) * (string * nat) :=
  (span_key (sa_span symbol), (sa_name symbol, kind_index (sa_kind symbol))).

Definition sort_by_span {A} (span : A -> Span) (l : list A) : list A :=
  merge_sort (fun x y => cmp_le (span_key (span x)) (span_key (span y))) l.

(** [windows(2).all(|window| window[0].span != window[1].span)]. *)
Definition distinct_neighbours {A K} `{EqDecision K} (key : A -> K) (l : list A) : bool :=
  negb (is_some (find_pair (fun x y => bool_decide (key x = key y)) l)).

Definition symbol_order (symbols : list SymbolAnalysis) : list nat :=
  map snd
    (merge_sort (fun x y => cmp_le (fst x) (fst y))
       (zip (map symbol_key symbols) (seq 0 (length symbols)))).

Definition symbol_keys (symbols : list SymbolAnalysis) (index : list nat)
  : list (option ((Z * Z) * (string * nat))) :=
  map (fun i => symbol_key <$> symbols !! i) index.

(** The end of [Analyzer::program]: [effects] are those of its statements. *)
Definition report (effects : InferEffects) (a : Analyzer) : Verdict ProgramAnalysis :=
  let s := an_inference a in
  let effect_sets := expanded_effects s in
  let requirement_sets := expanded_requirements s in
  let normalized := normalize_type s effect_sets requirement_sets in
  let '(bindings, n) :=
    normalize_each normalized pb_ty
      (fun b ty => mkBindingAnalysis (pb_id b) (pb_name b) ty (pb_span b) (pb_top_level b))
      (an_bindings a) new_normalizer in
  let '(symbols, n) :=
    normalize_each normalized ps_ty
      (fun b ty => mkSymbolAnalysis (ps_id b) (ps_name b) (ps_kind b) ty (ps_span b) (ps_top_level b))
      (an_symbols a) n in
  let symbol_index := symbol_order symbols in
  let '(expressions, n) :=
    normalize_each normalized pe_ty
      (fun e ty =>
         mkExpressionAnalysis (pe_span e) ty (resolve_effects (pe_effects e) effect_sets)
           (resolve_requirements (pe_effects e) requirement_sets) (pe_resolved e))
      (an_expressions a) n in
  let expressions := sort_by_span ea_span expressions in
  let '(blocks, _) :=
    normalize_each normalized pk_ty
      (fun b ty =>
         mkBlockAnalysis (pk_span b) ty (resolve_effects (pk_effects b) effect_sets)
           (resolve_requirements (pk_effects b) requirement_sets))
      (an_blocks a) n in
  let blocks := sort_by_span ka_span blocks in
  if distinct_neighbours id (symbol_keys symbols symbol_index)
     && distinct_neighbours ea_span expressions && distinct_neighbours ka_span blocks
  then
    Accepted
      (mkAnalysis bindings (resolve_effects effects effect_sets)
         (resolve_requirements effects requirement_sets) symbols symbol_index expressions blocks)
  else Panicking.

(** [Analyzer::program]. *)
Definition program (p : Program) : check ProgramAnalysis :=
  let^ effects :=
    statements (expression analysis_fuel) (block analysis_fuel) (program_statements p) None no_effects in
  let^ a := analyzer in
  let^ _ := check_result (validate_host_builtin_references a) in
  let^ _ := validate_constraints in
  fun a => (a, report effects a).

(** [analyze]. *)
Definition analyze (p : Program) : Verdict ProgramAnalysis := snd (program p new_analyzer).
End Analysis.
