(* ===== verification/Typing.v ===== *)
(** * The type system

    The rules [spec/TYPES-AND-EFFECTS.md] describes, as relations between
    syntax trees and type trees ([TypeTrees]).  A context gives names their
    types, innermost first; [exit] is the result type of the named function a
    [?] or a let-else returns from; [effects] bounds what evaluation may do.
    Effects of a function are those its body may perform, and a call may
    perform them.  Annotations, when written, are the types.

    [Accepted] shows that what analysis accepts is typed by these rules, and
    [TypeSafety] that what they type does not go wrong. *)

From S2P Require Import Prelude BTree Syntax Sorting Types Infer Builtins Patterns Construction TypeTrees.

Abbreviation Context := (list (string * Tree)).

Fixpoint ctx_get (gamma : Context) (name : string) : option Tree :=
  match gamma with
  | [] => None
  | (bound, d) :: gamma' => if bool_decide (bound = name) then Some d else ctx_get gamma' name
  end.

(** Trees of values that can be compared and encoded. *)
Fixpoint data_tree (d : Tree) : bool :=
  match d with
  | TLeaf (LeafTransaction | LeafSecret) => false
  | TLeaf _ => true
  | TList d | TOption d => data_tree d
  | TResult d e => data_tree d && data_tree e
  | TRecord fields => forallb (fun f => data_tree (snd f)) fields
  | TFunction _ _ _ => false
  end.

Definition bool_tree : Tree := TLeaf LeafBool.
Definition unit_tree : Tree := TLeaf LeafUnit.
Definition ordered_tree (d : Tree) : Prop := d = int_tree \/ d = str_tree.

(** A written type has no variables, so every valuation reads it alike. *)
Definition closed_valuation : Valuation := mkValuation (fun _ => unit_tree) (fun _ => (∅, ∅)).
Definition annotation_tree (annotation : TypeAnnotation) : Tree :=
  tree_of closed_valuation (annotation_type annotation).

Definition respects (annotation : option TypeAnnotation) (d : Tree) : Prop :=
  match annotation with Some annotation => d = annotation_tree annotation | None => True end.

(** ** Built-ins *)

Definition request_tree : Tree := tree_of closed_valuation IHttpRequest.
Definition response_tree : Tree := tree_of closed_valuation IHttpResponse.
Definition secret_tree : Tree := TLeaf LeafSecret.
Definition transaction_tree : Tree := TLeaf LeafTransaction.
Definition text_result (d : Tree) : Tree := TResult d str_tree.

(** Parameters, result and effects of a built-in function; [d] and [e] are the
    types it is used at. *)
Definition builtin_function_tree (b : Builtin) (d e : Tree) : list Tree * Tree * list Effect :=
  match b with
  | BiAiInvoke => ([str_tree; str_tree], text_result str_tree, [EffAiInvoke])
  | BiPrint | BiPrintln => ([d], unit_tree, [EffIoStdout])
  | BiSome => ([d], TOption d, [])
  | BiNone => ([], TOption d, [])
  | BiOk => ([d], TResult d e, [])
  | BiErr => ([e], TResult d e, [])
  | BiJsonEncode => ([d], str_tree, [])
  | BiJsonDecode => ([str_tree], d, [])
  | BiConfigString => ([str_tree], text_result str_tree, [EffConfigRead])
  | BiSecret => ([str_tree], text_result secret_tree, [EffSecretRead])
  | BiHttpRequest =>
      ([str_tree; request_tree; TOption secret_tree], text_result response_tree, [EffHttpRequest])
  | BiLogInfo | BiLogError =>
      ([str_tree; TList header_tree], text_result unit_tree, [EffObserveLog])
  | BiStateGet | BiCheckpointGet =>
      ([str_tree; str_tree], text_result (TOption str_tree), [EffStateTransaction])
  | BiStatePut | BiCheckpointPut =>
      ([str_tree; str_tree; str_tree], text_result unit_tree, [EffStateTransaction])
  | BiStateDelete => ([str_tree; str_tree], text_result unit_tree, [EffStateTransaction])
  | BiReplayHttp =>
      ([str_tree; str_tree; str_tree; request_tree], text_result response_tree, [EffStateTransaction])
  | BiReplayAi =>
      ([str_tree; str_tree; str_tree; str_tree], text_result str_tree, [EffStateTransaction])
  | BiQueuePublish => ([str_tree; str_tree], text_result str_tree, [EffQueuePublish])
  | BiCacheGet => ([str_tree; str_tree], text_result (TOption str_tree), [EffCacheRead])
  | BiCachePut => ([str_tree; str_tree; str_tree; int_tree], text_result unit_tree, [EffCacheWrite])
  | BiCacheDelete => ([str_tree; str_tree], text_result unit_tree, [EffCacheWrite])
  | BiSearchQuery => ([str_tree; str_tree; int_tree], text_result str_tree, [EffSearchQuery])
  | BiVectorSearch => ([str_tree; str_tree; int_tree], text_result str_tree, [EffSearchVector])
  | BiObjectGet => ([str_tree; str_tree], text_result (TOption str_tree), [EffObjectRead])
  | BiObjectPut => ([str_tree; str_tree; str_tree], text_result unit_tree, [EffObjectWrite])
  | BiObjectDelete => ([str_tree; str_tree], text_result unit_tree, [EffObjectWrite])
  | BiDatabaseBeginRead => ([str_tree], text_result transaction_tree, [EffDatabaseRead])
  | BiDatabaseBeginWrite => ([str_tree], text_result transaction_tree, [EffDatabaseWrite])
  | BiDatabaseQuery => ([transaction_tree; str_tree; TList str_tree], text_result str_tree, [])
  | BiDatabaseExecute => ([transaction_tree; str_tree; TList str_tree], text_result int_tree, [])
  | BiDatabaseCommit | BiDatabaseRollback => ([transaction_tree], text_result unit_tree, [])
  | BiIntToString => ([int_tree], str_tree, [])
  | BiUrlPathSegment => ([str_tree], text_result str_tree, [])
  | BiUrlQuery => ([TList header_tree], str_tree, [])
  | BiStringByteLen => ([str_tree], int_tree, [])
  | BiStringIsEmpty => ([str_tree], bool_tree, [])
  | BiStringContains | BiStringStartsWith | BiStringEndsWith => ([str_tree; str_tree], bool_tree, [])
  end.

(** The types of a built-in name. *)
Definition builtin_has (b : Builtin) (t : Tree) : Prop :=
  exists d e,
    let '(parameters, result, effects) := builtin_function_tree b d e in
    match b with
    | BiNone => t = TOption d
    | BiJsonDecode => False
    | _ =>
        exists fs qs, t = TFunction parameters result (fs, qs) /\ (forall x, x ∈ effects -> x ∈ fs)
          /\ (b = BiJsonEncode -> data_tree d = true)
    end.

(** ** Patterns *)

Definition binder_of (p : Pattern) : string :=
  match pattern_kind p with PBinder name => name | _ => "_" end.

(** The names a pattern binds when it matches a value of the type. *)
Inductive pattern_types : Tree -> Pattern -> Context -> Prop :=
| pt_binder d name span : pattern_types d (mkPattern (PBinder name) span) [(name, d)]
| pt_wildcard d span : pattern_types d (mkPattern PWildcard span) [("_", d)]
| pt_empty d span : pattern_types (TList d) (mkPattern PEmptyList span) []
| pt_cons d head tail span :
    pattern_types (TList d) (mkPattern (PCons head tail) span)
      [(binder_of tail, TList d); (binder_of head, d)]
| pt_none d span : pattern_types (TOption d) (mkPattern (PVariant VNone None) span) []
| pt_some d p bs span :
    pattern_types d p bs -> pattern_types (TOption d) (mkPattern (PVariant VSome (Some p)) span) bs
| pt_ok d e p bs span :
    pattern_types d p bs -> pattern_types (TResult d e) (mkPattern (PVariant VOk (Some p)) span) bs
| pt_err d e p bs span :
    pattern_types e p bs -> pattern_types (TResult d e) (mkPattern (PVariant VErr (Some p)) span) bs.

(** The payload of a variant in a type of its family. *)
Definition variant_payload (d : Tree) (v : VariantName) : option (option Tree) :=
  match d, v with
  | TOption d, VSome => Some (Some d)
  | TOption _, VNone => Some None
  | TResult d _, VOk => Some (Some d)
  | TResult _ e, VErr => Some (Some e)
  | _, _ => None
  end.

(** A binder is written exactly where there is a payload. *)
Definition bind_payload (binding : option string) (payload : option Tree) (gamma : Context)
  : option Context :=
  match binding, payload with
  | Some name, Some d => Some ((name, d) :: gamma)
  | None, None => Some gamma
  | _, _ => None
  end.

(** ** Expressions, statements and blocks *)

(** Parameters are bound in order, the last innermost. *)
Definition bind_types (gamma : Context) (bound : list (string * Tree)) : Context :=
  fold_left (fun gamma b => b :: gamma) bound gamma.

Definition parameter_types_ok (parameters : list FnParameter) (types : list Tree) : Prop :=
  Forall2 (fun p d => respects (parameter_annotation p) d) parameters types.

Definition bind_parameter_types (gamma : Context) (parameters : list FnParameter) (types : list Tree)
  : Context :=
  bind_types gamma (zip (map parameter_name parameters) types).

Definition contract_tree (c : ContractRecord) : list (string * Tree) :=
  match tree_of closed_valuation (contract_nominal c) with TRecord fields => fields | _ => [] end.

Definition record_field_name (f : RecordField) : string :=
  match f with mkRecordField name _ _ => name end.
Definition record_field_value (f : RecordField) : Expression :=
  match f with mkRecordField _ value _ => value end.

(** The function a statement declares. *)
Definition declares (kind : StatementKind)
  : option (string * list FnParameter * option TypeAnnotation * Block) :=
  match kind with
  | SFunction name parameters return_type body _
  | SWebhook name parameters return_type body _
  | SQueueConsumer _ _ name parameters return_type body _
  | SScheduleHandler _ _ name parameters return_type body _ =>
      Some (name, parameters, return_type, body)
  | _ => None
  end.

(** The types of an operator's operands and of its result. *)
Definition operator_types (operator : BinaryOperator) (left right result : Tree) : Prop :=
  match operator with
  | Add => ordered_tree left /\ right = left /\ result = left
  | Subtract | Multiply | Divide | Remainder =>
      left = int_tree /\ right = int_tree /\ result = int_tree
  | Equal | NotEqual => data_tree left = true /\ right = left /\ result = bool_tree
  | Less | LessEqual | Greater | GreaterEqual =>
      ordered_tree left /\ right = left /\ result = bool_tree
  | And | Or => left = bool_tree /\ right = bool_tree /\ result = bool_tree
  end.

Inductive typed : Context -> option Tree -> gset Effect -> Expression -> Tree -> Prop :=
| t_integer gamma x fs z span : typed gamma x fs (mkExpression (ELiteral (LInteger z)) span) int_tree
| t_boolean gamma x fs b span :
    typed gamma x fs (mkExpression (ELiteral (LBoolean b)) span) bool_tree
| t_string gamma x fs text span :
    typed gamma x fs (mkExpression (ELiteral (LString text)) span) str_tree
| t_unit gamma x fs span : typed gamma x fs (mkExpression EUnit span) unit_tree
| t_interpolation gamma x fs parts span :
    Forall (fun p => forall e at_span, p = PartHole e at_span -> typed gamma x fs e str_tree) parts ->
    typed gamma x fs (mkExpression (EInterpolation parts) span) str_tree
| t_local gamma x fs name span d :
    ctx_get gamma name = Some d -> typed gamma x fs (mkExpression (EVariable name) span) d
| t_builtin gamma x fs name span b d :
    ctx_get gamma name = None -> builtin_from_name name = Some b -> builtin_has b d ->
    typed gamma x fs (mkExpression (EVariable name) span) d
| t_list gamma x fs es span d :
    Forall (fun e => typed gamma x fs e d) es ->
    typed gamma x fs (mkExpression (EList es) span) (TList d)
| t_entries gamma x fs entries span :
    Forall (fun entry => forall key value at_span, entry = mkListEntry key value at_span ->
              typed gamma x fs key str_tree /\ typed gamma x fs value str_tree) entries ->
    typed gamma x fs (mkExpression (EEntryList entries) span) (TList header_tree)
| t_record gamma x fs fields types gs span :
    Forall2 (fun f d => typed gamma x fs (record_field_value f) d) fields types ->
    NoDup (map record_field_name fields) -> bt_sorted gs ->
    gs ≡ₚ zip (map record_field_name fields) types ->
    typed gamma x fs (mkExpression (ERecord fields) span) (TRecord gs)
| t_construct gamma x fs contract contract_span fields span :
    check_construction_fields contract contract_span fields = Ok tt ->
    Forall (fun f => exists d, bt_get (construct_field_name f) (contract_tree contract) = Some d
              /\ typed gamma x fs (construct_field_value f) d) fields ->
    typed gamma x fs (mkExpression (EConstruct contract contract_span fields) span)
      (TRecord (contract_tree contract))
| t_field gamma x fs value field gs d span :
    typed gamma x fs value (TRecord gs) -> bt_get field gs = Some d ->
    typed gamma x fs (mkExpression (EFieldAccess value field) span) d
| t_block gamma x fs b span d :
    typed_block gamma x fs b d -> typed gamma x fs (mkExpression (EBlock b) span) d
| t_if gamma x fs condition consequent alternative span d :
    typed gamma x fs condition bool_tree -> typed_block gamma x fs consequent d ->
    typed gamma x fs alternative d ->
    typed gamma x fs (mkExpression (EIf condition consequent alternative) span) d
| t_function gamma x fs parameters return_type body types d gs qs span :
    parameter_types_ok parameters types -> respects return_type d ->
    typed_block (bind_parameter_types gamma parameters types) None gs body d ->
    typed gamma x fs (mkExpression (EFunction parameters return_type body) span)
      (TFunction types d (gs, qs))
| t_call gamma x fs callee arguments types d gs qs span :
    typed gamma x fs callee (TFunction types d (gs, qs)) -> gs ⊆ fs ->
    Forall2 (fun e t => typed gamma x fs e t) arguments types ->
    typed gamma x fs (mkExpression (ECall callee arguments) span) d
| t_question_option gamma fs operand question span d r :
    typed gamma (Some (TOption r)) fs operand (TOption d) ->
    typed gamma (Some (TOption r)) fs (mkExpression (EPropagate operand question) span) d
| t_question_result gamma fs operand question span d e r :
    typed gamma (Some (TResult r e)) fs operand (TResult d e) ->
    typed gamma (Some (TResult r e)) fs (mkExpression (EPropagate operand question) span) d
| t_match gamma x fs subject arms family span d t :
    typed gamma x fs subject d -> arms <> [] ->
    check_arms arms family = Ok tt -> check_exhaustive arms span = Ok tt ->
    Forall (fun arm => exists bs, pattern_types d (arm_pattern arm) bs
              /\ typed (bs ++ gamma) x fs (arm_value arm) t) arms ->
    typed gamma x fs (mkExpression (EMatch subject arms) span) t
| t_not gamma x fs operand span :
    typed gamma x fs operand bool_tree ->
    typed gamma x fs (mkExpression (EUnary Not operand) span) bool_tree
| t_negate gamma x fs operand span :
    typed gamma x fs operand int_tree ->
    typed gamma x fs (mkExpression (EUnary Negate operand) span) int_tree
| t_binary gamma x fs lhs operator rhs span d e t :
    typed gamma x fs lhs d -> typed gamma x fs rhs e -> operator_types operator d e t ->
    typed gamma x fs (mkExpression (EBinary lhs operator rhs) span) t

with typed_statement : Context -> option Tree -> gset Effect -> Statement -> Context -> Prop :=
| t_let gamma x fs name annotation value span d :
    typed gamma x fs value d -> respects annotation d ->
    typed_statement gamma x fs (mkStatement (SLet name annotation value) span) ((name, d) :: gamma)
| t_let_else gamma r fs pattern annotation value else_span arm_variant arm_binding arm_value arm_span
    span d kept taken gamma_kept gamma_taken :
    typed gamma (Some r) fs value d -> respects annotation d ->
    arm_variant = variant_complement (vp_variant pattern) ->
    variant_payload d (vp_variant pattern) = Some kept ->
    variant_payload d arm_variant = Some taken ->
    bind_payload (vp_binding pattern) kept gamma = Some gamma_kept ->
    bind_payload arm_binding taken gamma = Some gamma_taken ->
    typed gamma_taken (Some r) fs arm_value r ->
    typed_statement gamma (Some r) fs
      (mkStatement
         (SLetElse pattern annotation value else_span
            (mkVariantArm arm_variant arm_binding arm_value arm_span)) span) gamma_kept
| t_declaration gamma x fs kind name parameters return_type body span types d gs qs :
    declares kind = Some (name, parameters, return_type, body) ->
    parameter_types_ok parameters types -> respects return_type d ->
    typed_block (bind_parameter_types ((name, TFunction types d (gs, qs)) :: gamma) parameters types)
      (Some d) gs body d ->
    typed_statement gamma x fs (mkStatement kind span) ((name, TFunction types d (gs, qs)) :: gamma)
| t_expression gamma x fs e span d :
    typed gamma x fs e d -> typed_statement gamma x fs (mkStatement (SExpression e) span) gamma

with typed_statements : Context -> option Tree -> gset Effect -> list Statement -> Context -> Prop :=
| t_nil gamma x fs : typed_statements gamma x fs [] gamma
| t_next gamma gamma1 gamma2 x fs st sts :
    typed_statement gamma x fs st gamma1 -> typed_statements gamma1 x fs sts gamma2 ->
    typed_statements gamma x fs (st :: sts) gamma2

with typed_block : Context -> option Tree -> gset Effect -> Block -> Tree -> Prop :=
| t_body_unit gamma gamma' x fs sts span :
    typed_statements gamma x fs sts gamma' ->
    typed_block gamma x fs (mkBlock sts None span) unit_tree
| t_body gamma gamma' x fs sts e span d :
    typed_statements gamma x fs sts gamma' -> typed gamma' x fs e d ->
    typed_block gamma x fs (mkBlock sts (Some e) span) d.

(** A program: its statements at the top level, where nothing may be exited. *)
Definition typed_program (p : Program) (fs : gset Effect) : Prop :=
  exists gamma, typed_statements [] None fs (program_statements p) gamma.
