(* ===== verification/ValueTypes.v ===== *)
(** * Typed values

    When a value of the evaluator has a type, and what the evaluator's pure
    helpers do with typed values: they give typed values or one of the errors
    that no typing can exclude ([runtime_failure]). *)

From S2P Require Import Prelude BTree Syntax Sorting Patterns RequestTarget Values ValueFacts Types Infer.
From S2P Require Import Builtins Construction PatternFacts ValueFacts TypeTrees Typing.

(** ** Typed values *)

Inductive has_type : Value -> Tree -> Prop :=
| h_integer z : has_type (VInteger z) int_tree
| h_boolean b : has_type (VBoolean b) bool_tree
| h_string text : has_type (VString text) str_tree
| h_unit : has_type VUnit unit_tree
| h_list vs depth d : Forall (fun v => has_type v d) vs -> has_type (VList vs depth) (TList d)
| h_record fields depth gs :
    Forall (fun f => exists d, bt_get (fst f) gs = Some d /\ has_type (snd f) d) fields ->
    (forall n, is_Some (bt_get n gs) -> n ∈ map fst fields) ->
    has_type (VRecord fields depth) (TRecord gs)
| h_none d : has_type (VVariant VNone None) (TOption d)
| h_some v depth d : has_type v d -> has_type (VVariant VSome (Some (v, depth))) (TOption d)
| h_ok v depth d e : has_type v d -> has_type (VVariant VOk (Some (v, depth))) (TResult d e)
| h_err v depth d e : has_type v e -> has_type (VVariant VErr (Some (v, depth))) (TResult d e)
| h_function name parameters body environment gamma types d fs qs :
    Forall2 (fun b g => fst b = fst g /\ has_type (snd b) (snd g)) environment gamma ->
    length parameters = length types ->
    typed_block
      (bind_types
         match name with Some name => (name, TFunction types d (fs, qs)) :: gamma | None => gamma end
         (zip parameters types))
      (match name with Some _ => Some d | None => None end) fs body d ->
    has_type (VFunction name parameters body environment) (TFunction types d (fs, qs))
| h_builtin b f t :
    builtin_value (builtin_str b) = Some (VBuiltin f) -> builtin_has b t -> has_type (VBuiltin f) t.

Definition env_typed (environment : Environment) (gamma : Context) : Prop :=
  Forall2 (fun b g => fst b = fst g /\ has_type (snd b) (snd g)) environment gamma.

(** ** What may still fail *)

(** Division by zero, integer overflow, the depth limits, and an encoder or
    a sink that fails; an operation of the host, which direct execution does
    not have.  The last two need their effect. *)
Definition runtime_failure (fs : gset Effect) (d : Diagnostic) : Prop :=
  diag_code d = "K4004" \/ diag_code d = "K4005" \/ diag_code d = "K4010"
  \/ (diag_code d = "K4008" /\ exists error, diag_message d = "JSON encoding failed: " +:+ error)
  \/ (diag_code d = "K4007" /\ EffIoStdout ∈ fs)
  \/ (diag_code d = "K5003" /\ exists e, e ∈ fs /\ e <> EffIoStdout).

(** A result that is typed or fails so. *)
Definition result_typed (fs : gset Effect) {A} (r : result A Diagnostic) (P : A -> Prop) : Prop :=
  match r with Ok a => P a | Err d => runtime_failure fs d end.

Ltac failure :=
  unfold runtime_failure; simpl;
  first [by left | by right; left | by right; right; left | by right; right; right; left; eauto].

(** ** Contexts *)

Lemma env_typed_cons environment gamma name v d :
  has_type v d -> env_typed environment gamma ->
  env_typed (env_extend environment name v) ((name, d) :: gamma).
Proof. intros Hv He. by constructor. Qed.

Lemma env_typed_get environment gamma name :
  env_typed environment gamma ->
  match ctx_get gamma name with
  | Some d => exists v, env_lookup environment name = Some v /\ has_type v d
  | None => env_lookup environment name = None
  end.
Proof.
  induction 1 as [|[n v] [n' d] environment gamma [E Hv] _ IH]; simpl in *; [done|]. subst n'.
  case_bool_decide; [by eexists|done].
Qed.

(** ** Shapes of typed values *)

Lemma typed_boolean v : has_type v bool_tree -> exists b, v = VBoolean b.
Proof.
  inversion 1; subst; try done; [by eexists|].
  destruct H1 as (? & ? & HB). destruct b; simpl in HB; naive_solver.
Qed.

Lemma typed_string v : has_type v str_tree -> exists s, v = VString s.
Proof.
  inversion 1; subst; try done; [by eexists|].
  destruct H1 as (? & ? & HB). destruct b; simpl in HB; naive_solver.
Qed.

Lemma typed_integer v : has_type v int_tree -> exists z, v = VInteger z.
Proof.
  inversion 1; subst; try done; [by eexists|].
  destruct H1 as (? & ? & HB). destruct b; simpl in HB; naive_solver.
Qed.

Lemma builtin_function b f t :
  builtin_value (builtin_str b) = Some (VBuiltin f) -> builtin_has b t ->
  exists ps r e, t = TFunction ps r e.
Proof. intros Hv (d & e & HB). destruct b; simpl in HB; naive_solver. Qed.

Lemma typed_list v d : has_type v (TList d) -> exists vs depth, v = VList vs depth /\ Forall (fun v => has_type v d) vs.
Proof.
  inversion 1; subst; try done; [by eexists _, _|].
  destruct (builtin_function _ _ _ H0 H1) as (? & ? & ? & ?). done.
Qed.

Lemma typed_record v gs :
  has_type v (TRecord gs) -> exists fields depth, v = VRecord fields depth
    /\ Forall (fun f => exists d, bt_get (fst f) gs = Some d /\ has_type (snd f) d) fields
    /\ (forall n, is_Some (bt_get n gs) -> n ∈ map fst fields).
Proof.
  inversion 1; subst; try done; [by eexists _, _|].
  destruct (builtin_function _ _ _ H0 H1) as (? & ? & ? & ?). done.
Qed.

Lemma typed_option v d :
  has_type v (TOption d) ->
  v = VVariant VNone None \/ exists p depth, v = VVariant VSome (Some (p, depth)) /\ has_type p d.
Proof.
  inversion 1; subst; try done; [by left|right; by eexists _, _|].
  destruct (builtin_function _ _ _ H0 H1) as (? & ? & ? & ?). done.
Qed.

Lemma typed_result v d e :
  has_type v (TResult d e) ->
  exists p depth, (v = VVariant VOk (Some (p, depth)) /\ has_type p d)
    \/ (v = VVariant VErr (Some (p, depth)) /\ has_type p e).
Proof.
  inversion 1; subst; try done; [eexists _, _; by left|eexists _, _; by right|].
  destruct (builtin_function _ _ _ H0 H1) as (? & ? & ? & ?). done.
Qed.

Lemma opaque_uninhabited v leaf :
  has_type v (TLeaf leaf) -> leaf <> LeafSecret /\ leaf <> LeafTransaction.
Proof.
  inversion 1; subst; try done.
  destruct (builtin_function _ _ _ H0 H1) as (? & ? & ? & ?). done.
Qed.

(** ** Data *)

Lemma existsb_Forall_false {A} (f : A -> bool) l : existsb f l = false <-> Forall (fun x => f x = false) l.
Proof.
  induction l as [|a l IH]; simpl; [by split|]. rewrite orb_false_iff, IH, Forall_cons. done.
Qed.

Lemma data_typed_no_function v d : has_type v d -> data_tree d = true -> contains_function v = false.
Proof.
  revert d. induction v as [| | | |vs dp IH|fs dp IH| |n p dp IH|n ps b env _|b] using value_ind';
    intros d Hv Hd; simpl; try done.
  - inversion Hv; subst. apply existsb_Forall_false. rewrite Forall_forall in *. naive_solver.
  - inversion Hv as [| | | | |? ? ? HF| | | | | |]; subst. apply existsb_Forall_false.
    simpl in Hd. rewrite forallb_forall in Hd. rewrite Forall_forall in *. intros [k v] Hin.
    destruct (HF _ Hin) as (d & Hg & Ht). apply (IH _ Hin _ Ht).
    apply bt_get_elem, list_elem_of_In in Hg. apply (Hd _ Hg).
  - inversion Hv; subst; simpl in Hd; try apply andb_true_iff in Hd as [? ?]; eauto.
  - inversion Hv; subst; done.
  - inversion Hv; subst. destruct (builtin_function _ _ _ H0 H1) as (? & ? & ? & ->). done.
Qed.

Lemma value_equal_total v w span :
  contains_function v = false -> contains_function w = false -> exists b, value_equal v w span = Ok b.
Proof.
  revert w. induction v as [| | | |vs dp IH|fs dp IH|n|n p dp IH| |] using value_ind';
    intros w Hv Hw; try done; cbn [value_equal]; rewrite ?Hv, ?Hw; cbn [orb];
    try (destruct w as [| | | | | |? [[? ?]|]| |]; try case_bool_decide; simpl; by eexists).
  - destruct w as [| | | |ws dw| | | |]; try (by eexists). destruct (negb _); [by eexists|].
    simpl in Hv, Hw. apply existsb_Forall_false in Hv, Hw. clear dp dw. revert ws Hw.
    induction IH as [|v vs Hx _ IHvs]; intros [|w ws] Hw; simpl; try (by eexists).
    apply Forall_cons in Hv as [Hv1 Hv2], Hw as [Hw1 Hw2].
    destruct (Hx w Hv1 Hw1) as [b ->]. simpl. destruct b; simpl; [by apply IHvs|by eexists].
  - destruct w as [| | | | |gs dw| | |]; try (by eexists). destruct (negb _); [by eexists|].
    simpl in Hv, Hw. apply existsb_Forall_false in Hv, Hw. clear dp dw.
    induction IH as [|[k v] fs Hx _ IHfs]; simpl; [by eexists|].
    apply Forall_cons in Hv as [Hv1 Hv2].
    destruct (find_field k gs) as [w|] eqn:E; [|by eexists].
    assert (contains_function w = false) as Hw1.
    { clear -Hw E. induction Hw as [|[k' w'] gs Hw' _ IH]; simpl in E; [done|].
      case_bool_decide; [by simplify_eq|by apply IH]. }
    destruct (Hx w Hv1 Hw1) as [b Hb]. simpl in Hb. rewrite Hb. simpl.
    destruct b; simpl; [by apply IHfs|by eexists].
  - destruct w as [| | | | | |m [[q dq]|]| |]; try (by eexists); case_bool_decide; simpl; try (by eexists).
    by apply IH.
Qed.

Section Json.
Context `{Platform}.

Lemma try_map_total {A B} (f : A -> result B Diagnostic) l :
  Forall (fun a => exists b, f a = Ok b) l -> exists bs, try_map f l = Ok bs.
Proof.
  induction 1 as [|a l [b Hb] _ [bs Hbs]]; simpl; [by eexists|]. rewrite Hb. simpl. rewrite Hbs. by eexists.
Qed.

Lemma object_of_total {A} (fields : list (string * result A Diagnostic)) object :
  Forall (fun f => exists a, snd f = Ok a) fields -> exists o, object_of fields object = Ok o.
Proof.
  intros HF. revert object. induction HF as [|[k r] fields [a Ha] _ IH]; intros object; simpl; [by eexists|].
  simpl in Ha. subst r. simpl. apply IH.
Qed.

Lemma value_to_json_total v span : contains_function v = false -> exists j, value_to_json v span = Ok j.
Proof.
  induction v as [| | | |vs dp IH|fs dp IH|n|n p dp IH| |] using value_ind'; intros Hv; try done; simpl; try (by eexists).
  - simpl in Hv. apply existsb_Forall_false in Hv.
    destruct (try_map_total (fun v => value_to_json v span) vs) as [bs ->]; [|by eexists].
    rewrite Forall_forall in *. auto.
  - simpl in Hv. apply existsb_Forall_false in Hv.
    destruct (object_of_total (sort_fields (map (fun '(name, v) => (name, value_to_json v span)) fs)) []) as [o ->];
      [|by eexists].
    unfold sort_fields. rewrite merge_sort_Permutation. apply Forall_map. rewrite Forall_forall in *.
    intros [k v] Hin. simpl. apply (IH (k, v) Hin). apply (Hv (k, v) Hin).
  - simpl in Hv. destruct (IH Hv) as [j ->]. by eexists.
Qed.

Lemma json_encode_typed fs v d span :
  has_type v d -> data_tree d = true ->
  result_typed fs (json_encode v span) (fun w => has_type w str_tree).
Proof.
  intros Hv Hd. unfold json_encode.
  destruct (value_to_json_total v span) as [j ->]; [by eapply data_typed_no_function|]. simpl.
  destruct (json_to_string j); simpl; [constructor|]. failure.
Qed.
End Json.

(** ** Construction *)

Lemma container_depth_typed fs children span : result_typed fs (container_depth children span) (fun _ => True).
Proof. unfold container_depth. destruct (_ <? _); simpl; [failure|done]. Qed.

Lemma result_typed_bind {A B} fs (r : result A Diagnostic) (k : A -> result B Diagnostic) (P : A -> Prop) (Q : B -> Prop) :
  result_typed fs r P -> (forall a, P a -> result_typed fs (k a) Q) -> result_typed fs (result_bind r k) Q.
Proof. destruct r; simpl; auto. Qed.

Lemma value_list_typed fs vs span d :
  Forall (fun v => has_type v d) vs ->
  result_typed fs (value_list vs span) (fun v => has_type v (TList d)).
Proof.
  intros Hv. eapply result_typed_bind; [apply container_depth_typed|]. intros depth _. by constructor.
Qed.

Lemma value_record_typed fs fields span gs :
  Forall (fun f => exists d, bt_get (fst f) gs = Some d /\ has_type (snd f) d) fields ->
  (forall n, is_Some (bt_get n gs) -> n ∈ map fst fields) ->
  result_typed fs (value_record fields span) (fun v => has_type v (TRecord gs)).
Proof.
  intros H1 H2. eapply result_typed_bind; [apply container_depth_typed|]. intros depth _. by constructor.
Qed.

Lemma value_variant_typed fs n v span d t :
  has_type v d -> variant_payload t n = Some (Some d) ->
  result_typed fs (value_variant n v span) (fun v => has_type v t).
Proof.
  intros Hv Ht. eapply result_typed_bind; [apply container_depth_typed|]. intros depth _. simpl.
  destruct t, n; simplify_eq/=; by constructor.
Qed.

(** ** Reading values *)

Lemma find_field_typed fields gs n d :
  Forall (fun f => exists d, bt_get (fst f) gs = Some d /\ has_type (snd f) d) fields ->
  n ∈ map fst fields -> bt_get n gs = Some d ->
  exists v, find_field n fields = Some v /\ has_type v d.
Proof.
  intros HF Hin Hg. induction HF as [|[k v] fields (e & He & Hv) _ IH]; simpl in *; [by apply elem_of_nil in Hin|].
  case_bool_decide as Hk; [subst k; rewrite Hg in He; injection He as <-; by eexists|].
  apply IH. by apply elem_of_cons in Hin as [->|].
Qed.

Lemma field_value_typed v gs field d span :
  has_type v (TRecord gs) -> bt_get field gs = Some d ->
  exists w, field_value v field span = Ok w /\ has_type w d.
Proof.
  intros (fields & depth & -> & HF & Hn)%typed_record Hg. simpl.
  destruct (find_field_typed fields gs field d HF) as (w & -> & Hw); [by apply Hn|done|]. by exists w.
Qed.

Lemma header_entry v span :
  has_type v header_tree -> exists p, url_query_entry span v = Ok p.
Proof.
  intros Hv. unfold url_query_entry.
  destruct (field_value_typed v _ "name" str_tree span Hv eq_refl) as (n & -> & (s & ->)%typed_string). simpl.
  destruct (field_value_typed v _ "value" str_tree span Hv eq_refl) as (w & -> & (t & ->)%typed_string). simpl.
  by eexists.
Qed.

Lemma url_query_typed fs v span :
  has_type v (TList header_tree) -> result_typed fs (url_query v span) (fun w => has_type w str_tree).
Proof.
  intros (vs & depth & -> & HF)%typed_list. simpl.
  destruct (try_map_total (url_query_entry span) vs) as [ps ->]; [|constructor].
  eapply Forall_impl; [exact HF|]. intros v Hv. by apply header_entry.
Qed.

Lemma url_path_segment_typed fs v span :
  has_type v str_tree -> result_typed fs (url_path_segment v span) (fun w => has_type w (text_result str_tree)).
Proof.
  intros (s & ->)%typed_string. unfold url_path_segment. simpl.
  destruct (encode_path_segment (bytes_of s)); eapply value_variant_typed; try done; constructor.
Qed.

(** ** Operators *)

Lemma literal_typed fs l span :
  result_typed fs (literal l span)
    (fun v => has_type v match l with LInteger _ => int_tree | LBoolean _ => bool_tree | LString _ => str_tree end).
Proof. destruct l; simpl; try constructor. destruct (i64_checked value); simpl; [constructor|failure]. Qed.

Lemma negate_literal_typed fs z span : result_typed fs (negate_literal z span) (fun v => has_type v int_tree).
Proof.
  unfold negate_literal. destruct (_ && _); simpl; [|failure].
  destruct (i64_checked (- z)); simpl; [constructor|failure].
Qed.

Lemma apply_unary_typed fs operator v d span :
  has_type v d -> d = (match operator with Not => bool_tree | Negate => int_tree end) ->
  result_typed fs (apply_unary operator v span) (fun w => has_type w d).
Proof.
  intros Hv ->. destruct operator; simpl.
  - apply typed_boolean in Hv as [b ->]. constructor.
  - apply typed_integer in Hv as [z ->]. simpl. destruct (i64_checked (- z)); simpl; [constructor|failure].
Qed.

Lemma apply_binary_typed fs operator v w d e t span :
  has_type v d -> has_type w e -> operator_types operator d e t -> operator <> And -> operator <> Or ->
  exists r, apply_binary operator v w span = Some r /\ result_typed fs r (fun u => has_type u t).
Proof.
  intros Hv Hw Ht Ha Ho.
  destruct operator; simpl in Ht; try done; (eexists; split; [reflexivity|]).
  - destruct Ht as ([->| ->] & -> & ->).
    + apply typed_integer in Hv as [x ->], Hw as [y ->]. destruct (i64_checked (x + y)); simpl; [constructor|failure].
    + apply typed_string in Hv as [x ->], Hw as [y ->]. constructor.
  - destruct Ht as (-> & -> & ->). apply typed_integer in Hv as [x ->], Hw as [y ->]. simpl.
    destruct (i64_checked (x - y)); simpl; [constructor|failure].
  - destruct Ht as (-> & -> & ->). apply typed_integer in Hv as [x ->], Hw as [y ->]. simpl.
    destruct (i64_checked (x * y)); simpl; [constructor|failure].
  - destruct Ht as (-> & -> & ->). apply typed_integer in Hv as [x ->], Hw as [y ->]. simpl.
    destruct (y =? 0); simpl; [failure|]. destruct (i64_checked_div x y); simpl; [constructor|failure].
  - destruct Ht as (-> & -> & ->). apply typed_integer in Hv as [x ->], Hw as [y ->]. simpl.
    destruct (y =? 0); simpl; [failure|]. destruct (i64_checked_rem x y); simpl; [constructor|failure].
  - destruct Ht as (Hd & -> & ->). destruct (value_equal_total v w span) as [b ->];
      [by eapply data_typed_no_function..|]. constructor.
  - destruct Ht as (Hd & -> & ->). destruct (value_equal_total v w span) as [b ->];
      [by eapply data_typed_no_function..|]. constructor.
  - destruct Ht as ([->| ->] & -> & ->);
      [apply typed_integer in Hv as [x ->], Hw as [y ->]|apply typed_string in Hv as [x ->], Hw as [y ->]]; constructor.
  - destruct Ht as ([->| ->] & -> & ->);
      [apply typed_integer in Hv as [x ->], Hw as [y ->]|apply typed_string in Hv as [x ->], Hw as [y ->]]; constructor.
  - destruct Ht as ([->| ->] & -> & ->);
      [apply typed_integer in Hv as [x ->], Hw as [y ->]|apply typed_string in Hv as [x ->], Hw as [y ->]]; constructor.
  - destruct Ht as ([->| ->] & -> & ->);
      [apply typed_integer in Hv as [x ->], Hw as [y ->]|apply typed_string in Hv as [x ->], Hw as [y ->]]; constructor.
Qed.

(** ** Patterns *)

Lemma fits_cons c own w :
  (exists d w', w = d :: w' /\ constructor_family d = constructor_family c) ->
  (forall w', w = c :: w' -> fits [own] w') -> fits [c :: own] w.
Proof.
  intros (d & w' & -> & Hd) Ht p pre c' Hp Hpre Hw. apply list_elem_of_singleton in Hp as ->.
  destruct pre as [|c0 pre]; simpl in Hpre.
  - apply prefix_cons_inv_1 in Hpre as ->. exists d. split; [done|]. apply prefix_cons, prefix_nil.
  - pose proof (prefix_cons_inv_1 _ _ _ _ Hpre) as ->. apply prefix_cons_inv_2 in Hpre.
    pose proof (prefix_cons_inv_1 _ _ _ _ Hw) as ->. apply prefix_cons_inv_2 in Hw.
    destruct (Ht w' eq_refl own pre c') as (e & He & Hpe); [by left|done|done|].
    exists e. split; [done|]. simpl. by apply prefix_cons.
Qed.

Lemma fits_nil w : fits [[]] w.
Proof.
  intros p pre c Hp Hpre _. apply list_elem_of_singleton in Hp as ->.
  apply prefix_nil_inv in Hpre. by destruct pre.
Qed.

(** A value of a pattern's type goes on with constructors of its families. *)
Lemma typed_fits d p bs steps v :
  pattern_types d p bs -> pattern_path p = Ok steps -> has_type v d ->
  fits [constructors steps] (value_path v).
Proof.
  intros Hp. revert steps v. induction Hp as [| | | |d span|d p bs span Hp IH|d e p bs span Hp IH|d e p bs span Hp IH];
    intros steps v Hs Hv; simpl in Hs.
  - injection Hs as <-. apply fits_nil.
  - injection Hs as <-. apply fits_nil.
  - injection Hs as <-. apply typed_list in Hv as (vs & depth & -> & _).
    apply fits_cons; [|intros; apply fits_nil]. destruct vs; by eexists _, _.
  - destruct (_ || _); [done|]. injection Hs as <-. apply typed_list in Hv as (vs & depth & -> & _).
    apply fits_cons; [|intros; apply fits_nil]. destruct vs; by eexists _, _.
  - injection Hs as <-. apply typed_option in Hv as [->|(q & depth & -> & Hq)];
      (apply fits_cons; [by eexists _, _|intros; apply fits_nil]).
  - apply result_map_Ok in Hs as (s' & Hs' & ->). apply typed_option in Hv as [->|(q & depth & -> & Hq)].
    + apply fits_cons; [by eexists _, _|]. intros w' E. by injection E.
    + apply fits_cons; [by eexists _, _|]. intros w' E. injection E as <-. by eapply IH.
  - apply result_map_Ok in Hs as (s' & Hs' & ->). apply typed_result in Hv as (q & depth & [[-> Hq]|[-> Hq]]).
    + apply fits_cons; [by eexists _, _|]. intros w' E. injection E as <-. by eapply IH.
    + apply fits_cons; [by eexists _, _|]. intros w' E. by injection E.
  - apply result_map_Ok in Hs as (s' & Hs' & ->). apply typed_result in Hv as (q & depth & [[-> Hq]|[-> Hq]]).
    + apply fits_cons; [by eexists _, _|]. intros w' E. by injection E.
    + apply fits_cons; [by eexists _, _|]. intros w' E. injection E as <-. by eapply IH.
Qed.

(** Matching: a typed environment, or a path that does not lead into the
    value, or the depth limit. *)
Definition match_typed (fs : gset Effect) (own : path) (v : Value) (gamma : Context)
    (r : result (option Environment) Diagnostic) : Prop :=
  match r with
  | Ok (Some environment) => env_typed environment gamma
  | Ok None => ~ own `prefix_of` value_path v
  | Err d => runtime_failure fs d
  end.

Lemma match_deeper fs c own v p gamma r :
  value_path v = c :: value_path p -> match_typed fs own p gamma r -> match_typed fs (c :: own) v gamma r.
Proof. intros E. destruct r as [[|]|]; simpl; try done. rewrite E. intros Hn Hc. by apply prefix_cons_inv_2 in Hc. Qed.

Lemma match_pattern_typed fs d p bs steps v span environment gamma :
  pattern_types d p bs -> pattern_path p = Ok steps -> has_type v d -> env_typed environment gamma ->
  match_typed fs (constructors steps) v (bs ++ gamma) (match_pattern p v span environment).
Proof.
  intros Hp. revert steps v. induction Hp as [| | |d h t sp|d sp|d p bs sp Hp IH|d e p bs sp Hp IH|d e p bs sp Hp IH];
    intros steps v Hs Hv He; simpl in Hs.
  - by apply env_typed_cons.
  - by apply env_typed_cons.
  - injection Hs as <-. apply typed_list in Hv as (vs & depth & -> & _). simpl.
    destruct vs; simpl; [done|]. by rewrite prefix_singleton.
  - destruct (_ || _); [done|]. injection Hs as <-. apply typed_list in Hv as (vs & depth & -> & HF).
    cbn [match_pattern]. destruct vs as [|v vs]; simpl; [by rewrite prefix_singleton|].
    apply Forall_cons in HF as [Hv HF].
    pose proof (value_list_typed fs vs span d HF) as HL. destruct (value_list vs span) as [rest|err]; simpl in *; [|done].
    apply env_typed_cons; [done|]. by apply env_typed_cons.
  - injection Hs as <-. apply typed_option in Hv as [->|(q & depth & -> & Hq)]; simpl; [done|].
    by rewrite prefix_singleton.
  - apply result_map_Ok in Hs as (s' & Hs' & ->). apply typed_option in Hv as [->|(q & depth & -> & Hq)]; simpl.
    + by intros ?%prefix_cons_inv_1.
    + eapply match_deeper; [done|]. by apply IH.
  - apply result_map_Ok in Hs as (s' & Hs' & ->). apply typed_result in Hv as (q & depth & [[-> Hq]|[-> Hq]]); simpl.
    + eapply match_deeper; [done|]. by apply IH.
    + by intros ?%prefix_cons_inv_1.
  - apply result_map_Ok in Hs as (s' & Hs' & ->). apply typed_result in Hv as (q & depth & [[-> Hq]|[-> Hq]]); simpl.
    + by intros ?%prefix_cons_inv_1.
    + eapply match_deeper; [done|]. by apply IH.
Qed.

(** Selection among arms that pass both checks. *)
Lemma select_typed fs arms family at_span d v span environment gamma x t :
  arms <> [] -> check_arms arms family = Ok tt -> check_exhaustive arms at_span = Ok tt ->
  Forall (fun arm => exists bs, pattern_types d (arm_pattern arm) bs
            /\ typed (bs ++ gamma) x fs (arm_value arm) t) arms ->
  has_type v d -> env_typed environment gamma ->
  result_typed fs (select_match_arm v span arms environment)
    (fun '(e, bound) => exists gamma', env_typed bound gamma' /\ typed gamma' x fs e t).
Proof.
  intros Hne HC HE HF Hv He. pose proof HC as (_ & paths & HP & _)%check_arms_accepted.
  pose proof (proj1 (try_map_Ok _ _ _) HP) as H2.
  assert (exists p, p ∈ paths /\ p `prefix_of` value_path v) as (p & Hp & Hpre).
  { apply (exhaustive_matches arms family at_span paths HC Hne HP HE).
    intros q pre c Hq. apply list_elem_of_lookup_1 in Hq as [i Hq].
    destruct (Forall2_lookup_r _ _ _ _ _ H2 Hq) as (a & Ha & Hpath).
    apply result_map_Ok in Hpath as (steps & Hs & ->).
    rewrite Forall_lookup in HF. destruct (HF _ _ Ha) as (bs & Hbs & _).
    apply (typed_fits d (arm_pattern a) bs steps v Hbs Hs Hv). by left. }
  clear HC HE HP Hne. induction H2 as [|a p' arms paths Ha H2 IH]; [by apply elem_of_nil in Hp|].
  apply Forall_cons in HF as [(bs & Hbs & Ht) HF]. apply result_map_Ok in Ha as (steps & Hs & ->). simpl.
  pose proof (match_pattern_typed fs d (arm_pattern a) bs steps v span environment gamma Hbs Hs Hv He) as HM.
  destruct (match_pattern _ _ _ _) as [[bound|]|err]; simpl in *; [by exists (bs ++ gamma)| |done].
  apply IH; [done|]. by apply elem_of_cons in Hp as [->|].
Qed.
