(* ===== verification/TypeSafety.v ===== *)
(** * Typed programs do not go wrong

    Evaluation of what the rules of [Typing] accept.  The judgement [runs]
    says of a computation that it gives a typed value, exits with a value of
    the enclosing function's result type, or stops with an error no typing
    excludes, and that without the effect of printing it leaves the output
    alone.  It is proved of every function of the evaluator, by induction on
    the fuel of [Evaluator.expression]. *)

From S2P Require Import Prelude BTree Syntax Sorting Types Infer Builtins Patterns RequestTarget Values.
From S2P Require Import ValueFacts Construction TypeTrees Typing ValueTypes Evaluator Samples EvaluatorFacts.

Section Safety.
Context `{Platform}.

Definition outcome_typed {A} (x : option Tree) (fs : gset Effect) (P : A -> Prop) (o : Outcome A) : Prop :=
  match o with
  | Done a => P a
  | Stopped (IError d) => runtime_failure fs d
  | Stopped (IExit v _) => exists r, x = Some r /\ has_type v r
  | Panicked | NoFuel => True
  end.

Definition runs {A} (x : option Tree) (fs : gset Effect) (m : M A) (P : A -> Prop) : Prop :=
  forall s, (EffIoStdout ∉ fs -> ev_output (fst (m s)) = ev_output s)
    /\ outcome_typed x fs P (snd (m s)).

(** ** Rules of the judgement *)

Lemma runs_ret {A} x fs (a : A) (P : A -> Prop) : P a -> runs x fs (ret a) P.
Proof. by intros HP s. Qed.

Lemma runs_fail {A} x fs d (P : A -> Prop) : runtime_failure fs d -> runs x fs (fail d) P.
Proof. by intros Hd s. Qed.

Lemma runs_panic {A} x fs (P : A -> Prop) : runs x fs panic P.
Proof. by intros s. Qed.

Lemma runs_exit {A} r fs v exit (P : A -> Prop) : has_type v r -> runs (Some r) fs (stop (IExit v exit)) P.
Proof. intros Hv s. split; [done|]. simpl. eauto. Qed.

Lemma runs_lift {A} x fs (r : result A Diagnostic) (P : A -> Prop) :
  result_typed fs r P -> runs x fs (lift r) P.
Proof. destruct r; simpl; intros; [by apply runs_ret|by apply runs_fail]. Qed.

Lemma runs_bind {A B} x fs (m : M A) (k : A -> M B) (P : A -> Prop) (Q : B -> Prop) :
  runs x fs m P -> (forall a, P a -> runs x fs (k a) Q) -> runs x fs (bind m k) Q.
Proof.
  intros Hm Hk s. destruct (Hm s) as [Ho Hp]. unfold bind. destruct (m s) as [s' o]. simpl in *.
  destruct o as [a|i| |]; simpl in *; try done.
  destruct (Hk a Hp s') as [Ho' Hp']. split; [|done]. intros Hn. rewrite Ho', Ho; done.
Qed.

Lemma runs_bind_ret {A B} x fs (a : A) (k : A -> M B) (Q : B -> Prop) :
  runs x fs (k a) Q -> runs x fs (bind (ret a) k) Q.
Proof. done. Qed.

Lemma runs_bind_lift {A B} x fs (r : result A Diagnostic) (k : A -> M B) (P : A -> Prop) (Q : B -> Prop) :
  result_typed fs r P -> (forall a, P a -> runs x fs (k a) Q) -> runs x fs (bind (lift r) k) Q.
Proof. intros Hr. apply runs_bind. by apply runs_lift. Qed.

Lemma runs_weaken {A} x fs (m : M A) (P Q : A -> Prop) :
  (forall a, P a -> Q a) -> runs x fs m P -> runs x fs m Q.
Proof.
  intros HP Hm s. destruct (Hm s) as [Ho Hp]. split; [done|]. destruct (snd (m s)); simpl in *; auto.
Qed.

Lemma runs_nested {A} x fs span (m : M A) (P : A -> Prop) : runs x fs m P -> runs x fs (nested span m) P.
Proof.
  intros Hm s. unfold nested, bind, enter. destruct (_ <=? _); simpl.
  { split; [done|]. failure. }
  destruct (Hm (set_depth s (ev_depth s + 1))) as [Ho Hp]. destruct (m _) as [s' o]. simpl in *. by split.
Qed.

Lemma runs_write x fs text span : EffIoStdout ∈ fs -> runs x fs (write text span) (fun _ => True).
Proof.
  intros Hin s. unfold write. destruct (write_all _ _) as [o [e|]]; simpl; (split; [done|]); [|done].
  unfold runtime_failure. simpl. tauto.
Qed.

(** ** Built-ins *)

Definition builtin_of (b : Builtin) (f : BuiltinFunction) : Prop :=
  builtin_value (builtin_str b) = Some (VBuiltin f).

Lemma typed_arguments_1 vs (d : Tree) : Forall2 has_type vs [d] -> exists v, vs = [v] /\ has_type v d.
Proof. inversion 1 as [|v ? vs' ? Hv HF]; subst. inversion HF; subst. by exists v. Qed.

Lemma typed_arguments_2 vs (d e : Tree) :
  Forall2 has_type vs [d; e] -> exists v w, vs = [v; w] /\ has_type v d /\ has_type w e.
Proof.
  inversion 1 as [|v ? vs' ? Hv HF]; subst. apply typed_arguments_1 in HF as (w & -> & Hw). by exists v, w.
Qed.

(** A built-in that direct execution performs, on typed arguments. *)
Lemma apply_builtin_runs x b f d e ps r es fs gs vs span :
  builtin_of b f -> builtin_function_tree b d e = (ps, r, es) -> b <> BiNone -> b <> BiJsonDecode ->
  (b = BiJsonEncode -> data_tree d = true) -> (forall y, y ∈ es -> y ∈ gs) -> gs ⊆ fs ->
  unavailable_builtin_message f = None -> Forall2 has_type vs ps ->
  runs x fs (apply_builtin f vs span) (fun v => has_type v r).
Proof.
  intros Hf Ht Hn Hj Hd He Hsub Hu Hvs.
  destruct b; try done; vm_compute in Hf; injection Hf as <-; simpl in Hu; try done;
    simpl in Ht; injection Ht as <- <- <-;
    first [apply typed_arguments_1 in Hvs as (v & -> & Hv)
          |apply typed_arguments_2 in Hvs as (v & w & -> & Hv & Hw)];
    cbn [apply_builtin argument]; apply runs_bind_ret; cbn beta iota.
  - assert (EffIoStdout ∈ fs) as Hin by (apply Hsub, He; by left).
    eapply runs_bind; [by apply runs_write|]. intros _ _.
    apply runs_bind_ret, runs_ret. constructor.
  - assert (EffIoStdout ∈ fs) as Hin by (apply Hsub, He; by left).
    eapply runs_bind; [by apply runs_write|]. intros _ _.
    eapply runs_bind; [by apply runs_write|]. intros _ _. apply runs_ret. constructor.
  - apply runs_lift. by eapply value_variant_typed.
  - apply runs_lift. by eapply value_variant_typed.
  - apply runs_lift. by eapply value_variant_typed.
  - apply runs_lift. eapply json_encode_typed; [done|]. by apply Hd.
  - apply typed_integer in Hv as [z ->]. apply runs_ret. constructor.
  - apply runs_lift. by apply url_path_segment_typed.
  - apply runs_lift. by apply url_query_typed.
  - apply typed_string in Hv as [text ->]. simpl. apply runs_lift.
    destruct (i64_checked (str_len text)); simpl; [constructor|failure].
  - apply typed_string in Hv as [text ->]. apply runs_ret. constructor.
  - apply typed_string in Hv as [text ->], Hw as [part ->]. apply runs_ret. constructor.
  - apply typed_string in Hv as [text ->], Hw as [part ->]. apply runs_ret. constructor.
  - apply typed_string in Hv as [text ->], Hw as [part ->]. apply runs_ret. constructor.
Qed.

(** A built-in that only the host performs has an effect of its own, or takes
    a transaction, which no value is. *)
Lemma unavailable_failure b f d e ps r es fs vs message span :
  builtin_of b f -> builtin_function_tree b d e = (ps, r, es) -> (forall y, y ∈ es -> y ∈ fs) ->
  unavailable_builtin_message f = Some message -> Forall2 has_type vs ps ->
  runtime_failure fs (diagnostic "K5003" message span).
Proof.
  intros Hf Ht He Hu Hvs.
  assert ((exists y, y ∈ es /\ y <> EffIoStdout) \/ exists ps', ps = transaction_tree :: ps') as [(y & Hy & Hne)|(ps' & ->)].
  { destruct b; vm_compute in Hf; try discriminate Hf; injection Hf as <-; simpl in Hu; try done;
      simpl in Ht; injection Ht as <- <- <-; first [left; eexists; split; [by left|done]|right; by eexists]. }
  - unfold runtime_failure. simpl. do 5 right. split; [done|]. exists y. auto.
  - inversion Hvs as [|v ? ? ? Hv]; subst. apply opaque_uninhabited in Hv as [_ Hv]. done.
Qed.

(** ** The functions between [expression] and [block] *)

Section Contents.
Variables (expr : Expression -> Environment -> M Value) (blk : Block -> Environment -> M Value).
Hypothesis expr_runs : forall gamma x fs e d environment,
  typed gamma x fs e d -> env_typed environment gamma ->
  runs x fs (expr e environment) (fun v => has_type v d).
Hypothesis blk_runs : forall gamma x fs b d environment,
  typed_block gamma x fs b d -> env_typed environment gamma ->
  runs x fs (blk b environment) (fun v => has_type v d).

Lemma runs_operand {B} gamma x fs e d environment (k : Value -> M B) (Q : B -> Prop) :
  typed gamma x fs e d -> env_typed environment gamma ->
  (forall v, has_type v d -> runs x fs (k v) Q) -> runs x fs (bind (expr e environment) k) Q.
Proof. intros He Hg Hk. eapply runs_bind; [by eapply expr_runs|done]. Qed.

Ltac operand := eapply runs_operand; [eassumption|eassumption|intros ? ?].

Lemma expressions_runs gamma x fs es ds environment :
  Forall2 (fun e d => typed gamma x fs e d) es ds -> env_typed environment gamma ->
  runs x fs (expressions expr es environment) (fun vs => Forall2 has_type vs ds).
Proof.
  intros HF Hg. induction HF as [|e d es ds He _ IH]; simpl; [by apply runs_ret; constructor|].
  operand. eapply runs_bind; [exact IH|]. intros vs Hvs. apply runs_ret. by constructor.
Qed.

Lemma list_runs gamma x fs es d environment span :
  Forall (fun e => typed gamma x fs e d) es -> env_typed environment gamma ->
  runs x fs (bind (expressions expr es environment) (fun vs => lift (value_list vs span)))
    (fun v => has_type v (TList d)).
Proof.
  intros HF Hg. eapply runs_bind.
  { eapply expressions_runs with (ds := repeat d (length es)); [|done].
    induction HF; simpl; by constructor. }
  intros vs Hvs. apply runs_lift, value_list_typed. apply Forall2_length in Hvs as Hl. rewrite repeat_length in Hl.
  revert Hvs Hl. generalize (length es) as n. induction vs as [|v vs IH]; intros [|n] Hvs Hl; try done; [constructor..|].
  simpl in Hvs. apply Forall2_cons in Hvs as [Hv Hvs]. constructor; [done|]. apply (IH n); [done|]. simpl in Hl. lia.
Qed.

Lemma record_fields_runs gamma x fs fields types environment :
  Forall2 (fun f d => typed gamma x fs (record_field_value f) d) fields types -> env_typed environment gamma ->
  runs x fs (record_fields expr fields environment)
    (fun vs => map fst vs = map record_field_name fields /\ Forall2 has_type (map snd vs) types).
Proof.
  intros HF Hg. induction HF as [|[name e sp] d fields types He _ IH]; simpl; [by apply runs_ret; split; constructor|].
  simpl in He. operand. eapply runs_bind; [exact IH|]. intros vs [Hn Hvs]. apply runs_ret. simpl.
  split; [by f_equal|by constructor].
Qed.

(** The fields of a record, against the sorted fields of its type. *)
Lemma written_record_typed (vs : list (string * Value)) names types gs :
  map fst vs = names -> Forall2 has_type (map snd vs) types -> bt_sorted gs -> gs ≡ₚ zip names types ->
  Forall (fun f => exists d, bt_get (fst f) gs = Some d /\ has_type (snd f) d) vs
  /\ (forall n, is_Some (bt_get n gs) -> n ∈ map fst vs).
Proof.
  intros Hn HF Hs HP. split.
  - apply Forall_forall. intros f Hf. apply list_elem_of_lookup_1 in Hf as [i Hi].
    destruct (Forall2_lookup_l _ _ _ _ (snd f) HF (ltac:(by rewrite list_lookup_fmap, Hi))) as (d & Hd & Hv).
    exists d. split; [|done]. apply bt_elem_get; [done|]. rewrite HP. apply list_elem_of_lookup. exists i.
    rewrite lookup_zip_with. rewrite <- Hn, list_lookup_fmap, Hi, Hd. done.
  - intros n [d Hd%bt_get_elem]. rewrite HP in Hd. rewrite Hn. by apply elem_of_zip_l in Hd.
Qed.

Lemma entries_runs gamma x fs es environment :
  Forall (fun entry => forall key value at_span, entry = mkListEntry key value at_span ->
            typed gamma x fs key str_tree /\ typed gamma x fs value str_tree) es ->
  env_typed environment gamma ->
  runs x fs (entries expr es environment) (Forall (fun v => has_type v header_tree)).
Proof.
  intros HF Hg. induction HF as [|[key value sp] es He _ IH]; simpl; [by apply runs_ret|].
  destruct (He _ _ _ eq_refl) as [Hk Hv]. operand. operand.
  eapply runs_bind_lift.
  { apply value_record_typed with (gs := [("name", str_tree); ("value", str_tree)]).
    - constructor; [by exists str_tree|]. constructor; [by exists str_tree|constructor].
    - intros n [d Hd%bt_get_elem]. simpl. set_solver. }
  intros entry Hentry. eapply runs_bind; [exact IH|]. intros vs Hvs. apply runs_ret. by constructor.
Qed.

Lemma interpolation_runs gamma x fs parts environment :
  Forall (fun p => forall e at_span, p = PartHole e at_span -> typed gamma x fs e str_tree) parts ->
  env_typed environment gamma ->
  runs x fs (interpolation expr parts environment) (fun v => has_type v str_tree).
Proof.
  intros HF Hg. unfold interpolation. generalize "". induction HF as [|[text sp|hole sp] parts Hp _ IH]; intros t; simpl.
  - apply runs_ret. constructor.
  - apply IH.
  - pose proof (Hp _ _ eq_refl). operand. apply typed_string in H1 as [u ->]. apply IH.
Qed.

(** ** Named construction *)

Definition written_typed (gs : list (string * Tree)) (written : list (string * option Value)) : Prop :=
  Forall (fun f => forall v, snd f = Some v -> exists d, bt_get (fst f) gs = Some d /\ has_type v d) written.

Lemma written_values_runs gamma x fs fields gs environment :
  Forall (fun f => exists d, bt_get (construct_field_name f) gs = Some d
            /\ typed gamma x fs (construct_field_value f) d) fields ->
  env_typed environment gamma ->
  runs x fs (written_values expr fields environment) (written_typed gs).
Proof.
  intros HF Hg. induction HF as [|[name ns e sp] fields (d & Hd & He) _ IH]; simpl; [by apply runs_ret; constructor|].
  simpl in Hd, He. operand. eapply runs_bind; [exact IH|]. intros vs Hvs. apply runs_ret.
  constructor; [|done]. intros w [= <-]. by exists d.
Qed.

Lemma take_written_typed gs name written taken written' :
  take_written name written = (taken, written') -> written_typed gs written ->
  written_typed gs written'
  /\ (forall v, taken = Some v -> exists d, bt_get name gs = Some d /\ has_type v d).
Proof.
  revert taken written'. induction written as [|[m v] written IH]; intros taken written' E Hw; simpl in E.
  { by injection E as <- <-. }
  apply Forall_cons in Hw as [Hv Hw]. case_bool_decide as Hm; simpl in E.
  - injection E as <- <-. subst m. split; [by constructor|]. intros w ->. by apply Hv.
  - destruct (take_written name written) as [t w]. injection E as <- <-.
    destruct (IH t w eq_refl Hw) as (? & ?). split; [by constructor|done].
Qed.

(** The default of a field has the type of the field. *)
Definition default_typed (gs : list (string * Tree)) (field : ContractField) : Prop :=
  exists d, bt_get (contract_field_name field) gs = Some d
    /\ match contract_field_default field with
       | Some EmptyStringDefault => d = str_tree
       | Some EmptyListDefault => exists e, d = TList e
       | None => True
       end.

Lemma fill_fields_runs x fs gs fields written span :
  Forall (default_typed gs) fields -> written_typed gs written ->
  runs x fs (fill_fields fields written span)
    (fun vs => Forall (fun f => exists d, bt_get (fst f) gs = Some d /\ has_type (snd f) d) vs
               /\ map fst vs = map contract_field_name fields).
Proof.
  intros HF. revert written. induction HF as [|field fields (d & Hd & Hdef) _ IH]; intros written Hw;
    cbn [fill_fields]; [by apply runs_ret|].
  destruct (take_written _ written) as [taken written'] eqn:E.
  destruct (take_written_typed gs _ _ _ _ E Hw) as [Hw' Ht].
  eapply (runs_bind _ _ _ _ (fun v => has_type v d)).
  - destruct taken as [v|].
    + apply runs_ret. destruct (Ht v eq_refl) as (d' & Hd' & Hv). rewrite Hd in Hd'. by injection Hd' as <-.
    + destruct (contract_field_default field) as [[]|].
      * apply runs_ret. subst d. constructor.
      * destruct Hdef as [e ->]. apply runs_lift. by apply value_list_typed.
      * apply runs_panic.
  - intros v Hv. eapply runs_bind; [by apply IH|]. intros vs [Hvs Hn]. apply runs_ret. simpl.
    split; [|by f_equal]. constructor; [by exists d|done].
Qed.

Lemma contract_defaults contract : Forall (default_typed (contract_tree contract)) (contract_fields contract).
Proof. destruct contract; repeat (constructor; [eexists; split; [reflexivity|]; simpl; eauto|]); constructor. Qed.

Lemma contract_names contract n :
  is_Some (bt_get n (contract_tree contract)) -> n ∈ map contract_field_name (contract_fields contract).
Proof. intros [d Hd%bt_get_elem]. destruct contract; vm_compute in Hd; simpl; set_solver. Qed.

Lemma construction_runs gamma x fs contract cs fields environment span :
  Forall (fun f => exists d, bt_get (construct_field_name f) (contract_tree contract) = Some d
            /\ typed gamma x fs (construct_field_value f) d) fields ->
  check_construction_fields contract cs fields = Ok tt -> env_typed environment gamma ->
  runs x fs (construction expr contract cs fields environment span)
    (fun v => has_type v (TRecord (contract_tree contract))).
Proof.
  intros HF HC Hg. unfold construction. rewrite HC. apply runs_bind_ret.
  eapply runs_bind; [by eapply written_values_runs|]. intros written Hw.
  eapply runs_bind; [by apply fill_fields_runs; [apply contract_defaults|]|]. intros vs [Hvs Hn].
  apply runs_lift, value_record_typed; [done|]. intros n Hin. rewrite Hn. by apply contract_names.
Qed.

(** ** Control *)

Lemma match_expression_runs gamma x fs subject arms environment span d :
  typed gamma x fs (mkExpression (EMatch subject arms) span) d -> env_typed environment gamma ->
  runs x fs (match_expression expr subject arms environment) (fun v => has_type v d).
Proof.
  intros Ht Hg. inversion Ht; subst. unfold match_expression. operand.
  eapply runs_bind_lift; [by eapply select_typed|]. intros [arm bound] (gamma' & Hb & Ha). by eapply expr_runs.
Qed.

Lemma if_chain_runs gamma x fs e d environment :
  typed gamma x fs e d -> env_typed environment gamma ->
  runs x fs (if_chain expr blk e environment) (fun v => has_type v d).
Proof.
  intros Ht Hg. revert e Ht. fix IH 1. intros [[] sp] Ht; simpl; try by eapply expr_runs.
  inversion Ht; subst. operand. apply typed_boolean in H0 as [b ->]. apply runs_bind_ret.
  destruct b; [by eapply blk_runs|by apply IH].
Qed.

Lemma binary_runs gamma x fs operator v d rhs e t environment span :
  has_type v d -> typed gamma x fs rhs e -> operator_types operator d e t -> env_typed environment gamma ->
  runs x fs (binary expr operator v rhs environment span) (fun u => has_type u t).
Proof.
  intros Hv Hr Ho Hg. unfold binary.
  assert (operator <> And -> operator <> Or ->
    runs x fs (bind (expr rhs environment) (fun w => lift_reachable (apply_binary operator v w span)))
      (fun u => has_type u t)) as HB.
  { intros Ha Hor. operand. destruct (apply_binary_typed fs operator v v0 d e t span) as (r & -> & Hres); try done.
    by apply runs_lift. }
  assert (d = bool_tree -> e = bool_tree -> t = bool_tree ->
    runs x fs (let! w := expr rhs environment in let! c := lift (expect_boolean w span) in ret (VBoolean c))
      (fun u => has_type u t)) as HS.
  { intros -> -> ->. operand. apply typed_boolean in H0 as [c ->]. apply runs_bind_ret, runs_ret. constructor. }
  destruct operator; try (by apply HB); destruct Ho as (Ed & Ee & Et); subst d;
    apply typed_boolean in Hv as [b ->]; apply runs_bind_ret; destruct b; try (by apply HS);
    apply runs_ret; subst t; constructor.
Qed.

(** What the binary nodes above a value of type [d] make of it. *)
Fixpoint spine_typed (gamma : Context) (x : option Tree) (fs : gset Effect) (d : Tree)
    (spine : list Expression) (t : Tree) : Prop :=
  match spine with
  | [] => d = t
  | mkExpression (EBinary _ operator rhs) _ :: spine' =>
      exists e u, typed gamma x fs rhs e /\ operator_types operator d e u
        /\ spine_typed gamma x fs u spine' t
  | _ :: _ => False
  end.

Lemma binary_spine_typed gamma x fs e d spine t :
  typed gamma x fs e d -> spine_typed gamma x fs d spine t ->
  exists d0, typed gamma x fs (fst (binary_spine e spine)) d0
    /\ spine_typed gamma x fs d0 (snd (binary_spine e spine)) t.
Proof.
  revert e d spine. fix IH 1. intros [k sp] d spine He Hs. destruct k; simpl; try (by exists d).
  inversion He; subst. eapply IH; [done|]. simpl. by eexists _, _.
Qed.

Lemma binary_unwind_runs gamma x fs spine v d t environment :
  has_type v d -> spine_typed gamma x fs d spine t -> env_typed environment gamma ->
  runs x fs (binary_unwind expr spine v environment) (fun u => has_type u t).
Proof.
  intros Hv Hs Hg. revert v d Hv Hs. induction spine as [|[[] sp] spine IH]; intros v d Hv Hs; simpl in *; try done.
  - subst d. by apply runs_ret.
  - destruct Hs as (e & u & He & Ho & Hs). eapply runs_bind; [by eapply binary_runs|].
    intros w Hw. apply (IH w u Hw Hs).
Qed.

Lemma binary_chain_runs gamma x fs e d environment :
  typed gamma x fs e d -> env_typed environment gamma ->
  runs x fs (binary_chain expr e environment) (fun v => has_type v d).
Proof.
  intros He Hg. destruct (binary_spine_typed gamma x fs e d [] d He eq_refl) as (d0 & Hl & Hs).
  unfold binary_chain. destruct (binary_spine e []) as [lowest spine]. simpl in *. operand.
  by eapply binary_unwind_runs.
Qed.

Lemma unary_runs gamma x fs operator arg environment span d :
  typed gamma x fs (mkExpression (EUnary operator arg) span) d -> env_typed environment gamma ->
  runs x fs (unary expr operator arg environment span) (fun v => has_type v d).
Proof.
  intros Ht Hg.
  assert (runs x fs (bind (expr arg environment) (fun v => lift (apply_unary operator v span)))
    (fun v => has_type v d)) as HU.
  { inversion Ht; subst; operand; apply runs_lift; by apply apply_unary_typed. }
  unfold unary. destruct operator; [done|].
  destruct (expression_kind arg) as [[]| | | | | | | | | | | | | | | |] eqn:E; try done.
  inversion Ht; subst. apply runs_lift, negate_literal_typed.
Qed.

Lemma propagate_runs x fs v question d r :
  (v = VVariant VNone None \/ exists p n, v = VVariant VSome (Some (p, n)) /\ has_type p d) ->
  x = Some (TOption r) -> runs x fs (propagate v question) (fun w => has_type w d).
Proof.
  intros [->|(p & n & -> & Hp)] ->; simpl; [apply runs_exit; constructor|by apply runs_ret].
Qed.

Lemma propagate_result_runs fs v question d e r :
  has_type v (TResult d e) ->
  runs (Some (TResult r e)) fs (propagate v question) (fun w => has_type w d).
Proof.
  intros (p & n & [[-> Hp]|[-> Hp]])%typed_result; simpl; [by apply runs_ret|apply runs_exit; by constructor].
Qed.

(** ** Calls *)

Lemma bind_parameters_typed names vs types environment gamma :
  Forall2 has_type vs types -> env_typed environment gamma ->
  env_typed (bind_parameters environment (zip names vs)) (bind_types gamma (zip names types)).
Proof.
  intros HF. revert names environment gamma. induction HF as [|v d vs types Hv _ IH];
    intros [|n names] environment gamma Hg; simpl; try done.
  apply IH. by apply env_typed_cons.
Qed.

Lemma call_body_runs x gamma y fs gs body d environment span :
  typed_block gamma y gs body d -> (forall r, y = Some r -> r = d) -> gs ⊆ fs -> env_typed environment gamma ->
  runs x fs (call_body blk body environment span) (fun v => has_type v d).
Proof.
  intros Hb Hy Hsub Hg s. unfold call_body. destruct (_ <=? _); simpl; [split; [done|]; failure|].
  destruct (blk_runs _ _ _ _ _ _ Hb Hg (set_calls s (ev_calls s + 1))) as [Ho Hp].
  destruct (blk body environment _) as [s' o]. simpl in *. split; [intros Hn; apply Ho; auto|].
  destruct o as [v|[e|v exit]| |]; simpl in *; try done.
  - destruct Hp as [Hp|[Hp|[Hp|[Hp|[[Hp Hin]|(Hp & y' & Hin & Hne)]]]]]; unfold runtime_failure; eauto 15.
  - destruct Hp as (r & E & Hv). by rewrite <- (Hy r E).
Qed.

Lemma call_function_runs gamma x fs name parameters body closed arguments environment types d gs qs span :
  has_type (VFunction name parameters body closed) (TFunction types d (gs, qs)) -> gs ⊆ fs ->
  Forall2 (fun e t => typed gamma x fs e t) arguments types -> env_typed environment gamma ->
  runs x fs (call_function expr blk (mkFunctionValue name parameters body closed) arguments environment span)
    (fun v => has_type v d).
Proof.
  intros Hf Hsub HF Hg. inversion Hf as [| | | | | | | | | |? ? ? ? gamma' ? ? ? ? Henv Hl Hb|]; subst.
  unfold call_function. simpl. rewrite Hl, (Forall2_length _ _ _ HF), Nat.eqb_refl. simpl.
  eapply runs_bind; [by eapply expressions_runs|]. intros vs Hvs.
  eapply call_body_runs; [exact Hb| |done|].
  - destruct name; [by intros r [= <-]|done].
  - apply bind_parameters_typed; [done|]. destruct name; [|done]. by apply env_typed_cons.
Qed.

Lemma builtin_arity_typed b f d e ps r es :
  builtin_of b f -> builtin_function_tree b d e = (ps, r, es) -> length ps = builtin_arity f.
Proof.
  intros Hf Ht. destruct b; vm_compute in Hf; try discriminate Hf; injection Hf as <-; simpl in *;
    by injection Ht as <- _ _.
Qed.

Lemma call_builtin_runs gamma x fs f arguments environment types d gs qs span :
  has_type (VBuiltin f) (TFunction types d (gs, qs)) -> gs ⊆ fs ->
  Forall2 (fun e t => typed gamma x fs e t) arguments types -> env_typed environment gamma ->
  runs x fs (call_builtin expr f arguments environment span) (fun v => has_type v d).
Proof.
  intros Hf Hsub HF Hg. inversion Hf as [| | | | | | | | | | |b ? ? Hb Ht]; subst.
  destruct Ht as (d0 & e0 & Ht). destruct (builtin_function_tree b d0 e0) as [[ps r] es] eqn:E.
  assert (b <> BiNone /\ b <> BiJsonDecode /\ types = ps /\ d = r /\ (forall y, y ∈ es -> y ∈ gs)
    /\ (b = BiJsonEncode -> data_tree d0 = true)) as (Hn & Hj & -> & -> & Hes & Hd).
  { destruct b; try done; destruct Ht as (gs' & qs' & [= <- <- <- <-] & Hes & Hd); done. }
  pose proof (builtin_arity_typed b f d0 e0 ps r es Hb E) as Hl.
  unfold call_builtin. rewrite (Forall2_length _ _ _ HF), Hl, Nat.eqb_refl. simpl.
  destruct (unavailable_builtin_message f) as [message|] eqn:Eu.
  - eapply runs_bind; [by eapply expressions_runs|]. intros vs Hvs. apply runs_fail.
    eapply (unavailable_failure b f d0 e0 ps r es); [exact Hb|exact E| |exact Eu|exact Hvs].
    intros y Hy. by apply Hsub, Hes.
  - eapply runs_bind; [by eapply expressions_runs|]. intros vs Hvs.
    by eapply (apply_builtin_runs x b f d0 e0 ps r es fs gs).
Qed.

Lemma call_runs gamma x fs callee arguments environment types d gs qs span :
  typed gamma x fs callee (TFunction types d (gs, qs)) -> gs ⊆ fs ->
  Forall2 (fun e t => typed gamma x fs e t) arguments types -> env_typed environment gamma ->
  runs x fs (call expr blk callee arguments environment span) (fun v => has_type v d).
Proof.
  intros Hc Hsub HF Hg. unfold call. operand.
  inversion H0; subst; [by eapply call_function_runs|by eapply call_builtin_runs].
Qed.

(** ** Statements *)

Lemma bind_payload_typed environment gamma gamma' binding payload n v d :
  env_typed environment gamma -> has_type v d -> variant_payload d n = Some payload ->
  bind_payload binding payload gamma = Some gamma' -> (exists carried, v = VVariant n carried) ->
  env_typed
    match binding, match v with VVariant _ carried => carried | _ => None end with
    | Some name, Some (p, _) => env_extend environment name p
    | _, _ => environment
    end gamma'.
Proof.
  intros Hg Hv Hd Hb [carried ->]. inversion Hv; subst; simplify_eq/=;
    destruct binding; simplify_eq/=; try done; by apply env_typed_cons.
Qed.

Lemma variant_families d n payload : variant_payload d n = Some payload ->
  match variant_family n with
  | FamilyOption => exists e, d = TOption e
  | FamilyResult => exists e f, d = TResult e f
  end.
Proof. destruct d, n; simpl; intros; simplify_eq/=; eauto. Qed.

Lemma typed_variant v d n payload :
  has_type v d -> variant_payload d n = Some payload ->
  exists m carried, v = VVariant m carried /\ (m = n \/ m = variant_complement n).
Proof.
  intros Hv Hd. pose proof (variant_families _ _ _ Hd) as HF. destruct n; simpl in HF; destruct HF as (e & HF).
  - subst d. apply typed_option in Hv as [->|(p & k & -> & _)]; eauto 10.
  - subst d. apply typed_option in Hv as [->|(p & k & -> & _)]; eauto 10.
  - destruct HF as [f ->]. apply typed_result in Hv as (p & k & [[-> _]|[-> _]]); eauto 10.
  - destruct HF as [f ->]. apply typed_result in Hv as (p & k & [[-> _]|[-> _]]); eauto 10.
Qed.

Lemma complement_different n : variant_complement n <> n.
Proof. by destruct n. Qed.

Lemma let_else_runs gamma x fs head pattern annotation value else_span arm gamma' span environment :
  typed_statement gamma x fs (mkStatement (SLetElse pattern annotation value else_span arm) span) gamma' ->
  env_typed environment gamma ->
  runs x fs (let_else expr head pattern value arm environment) (fun local => env_typed local gamma').
Proof.
  intros Ht Hg. inversion Ht as [|? r ? ? ? ? ? av ab ae ? ? d kept taken ? gt He Ha Hc Hk Hta Hbk Hbt Harm| |]; subst;
    [|by match goal with HD : declares _ = _ |- _ => discriminate HD end].
  unfold let_else. operand. destruct (typed_variant v d _ _ H0 Hk) as (m & carried & -> & Hm).
  case_bool_decide as Em.
  - subst m. apply runs_ret.
    apply (bind_payload_typed _ _ _ _ _ (vp_variant pattern) _ d Hg H0 Hk Hbk). by eexists.
  - destruct Hm as [->| ->]; [done|]. rewrite bool_decide_eq_true_2 by done. cbn [negb].
    eapply (runs_bind _ _ _ _ (fun w => has_type w r)).
    + eapply expr_runs; [exact Harm|].
      apply (bind_payload_typed _ _ _ _ _ (variant_complement (vp_variant pattern)) _ d Hg H0 Hta Hbt). by eexists.
    + intros w Hw. by apply runs_exit.
Qed.

Lemma closure_typed gamma name parameters body environment types d gs qs :
  env_typed environment gamma -> length parameters = length types ->
  typed_block
    (bind_types
       match name with Some name => (name, TFunction types d (gs, qs)) :: gamma | None => gamma end
       (zip (map parameter_name parameters) types))
    (match name with Some _ => Some d | None => None end) gs body d ->
  has_type (closure name parameters body environment) (TFunction types d (gs, qs)).
Proof. intros Hg Hl Hb. eapply h_function; [exact Hg|by rewrite length_map|exact Hb]. Qed.

Lemma statement_runs gamma x fs st gamma' environment :
  typed_statement gamma x fs st gamma' -> env_typed environment gamma ->
  runs x fs (statement expr st environment) (fun local => env_typed local gamma').
Proof.
  intros Ht Hg. pose proof Ht as Ht0.
  inversion Ht as [? ? ? name an value sp d He Hr| |? ? ? kind name ps rt body sp types d gs qs HD Hps Hr Hb|? ? ? e sp d He]; subst; simpl.
  - operand. apply runs_ret. by apply env_typed_cons.
  - by eapply let_else_runs.
  - assert (has_type (closure (Some name) ps body environment) (TFunction types d (gs, qs))) as Hf.
    { apply closure_typed with (gamma := gamma); [done|by apply Forall2_length in Hps|done]. }
    destruct kind; simpl in HD; try discriminate HD; injection HD as <- <- <- <-;
      apply runs_ret; by apply env_typed_cons.
  - operand. by apply runs_ret.
Qed.

Lemma statements_runs gamma x fs sts gamma' environment :
  typed_statements gamma x fs sts gamma' -> env_typed environment gamma ->
  runs x fs (statements expr sts environment) (fun local => env_typed local gamma').
Proof.
  revert gamma environment. induction sts as [|st sts IH]; intros gamma environment Ht Hg; inversion Ht; subst; simpl.
  - by apply runs_ret.
  - eapply runs_bind; [by eapply statement_runs|]. intros local Hl. by eapply IH.
Qed.

Lemma block_contents_runs gamma x fs b d environment :
  typed_block gamma x fs b d -> env_typed environment gamma ->
  runs x fs (block_contents expr b environment) (fun v => has_type v d).
Proof.
  intros Ht Hg. inversion Ht; subst; simpl.
  - eapply runs_bind; [by eapply statements_runs|]. intros local Hl. apply runs_ret. constructor.
  - eapply runs_bind; [by eapply statements_runs|]. intros local Hl. by eapply expr_runs.
Qed.

(** Every built-in but [None] is a function. *)
Lemma builtin_names_value b : b <> BiNone -> exists f, builtin_value (builtin_str b) = Some (VBuiltin f).
Proof. intros Hn. destruct b; [..|]; try (by destruct Hn); eexists; vm_compute; reflexivity. Qed.

Lemma builtin_has_function b d : builtin_has b d -> b <> BiNone -> exists ps r es, d = TFunction ps r es.
Proof.
  intros (d0 & e0 & HB) Hn. destruct (builtin_function_tree b d0 e0) as [[ps r] es] eqn:E.
  assert (exists gs qs, d = TFunction ps r (gs, qs)) as (gs & qs & ->); [|by eauto].
  destruct b; try (by destruct Hn); try (by destruct HB); destruct HB as (gs & qs & -> & _); by eauto.
Qed.

Lemma variable_typed gamma x fs name d environment span sp :
  typed gamma x fs (mkExpression (EVariable name) sp) d -> env_typed environment gamma ->
  result_typed fs (variable name environment span) (fun v => has_type v d).
Proof.
  intros Ht Hg. pose proof (env_typed_get environment gamma name Hg) as HG. unfold variable.
  inversion Ht as [| | | | |? ? ? ? ? ? Hc|? ? ? ? ? b ? Hc Hb HB| | | | | | | | | | | | | | |]; subst;
    rewrite Hc in HG.
  - destruct HG as (v & -> & Hv). done.
  - rewrite HG. apply from_name_Some in Hb as ->. destruct (decide (b = BiNone)) as [->|Hn].
    { destruct HB as (d0 & e0 & HB). simpl in HB. subst d. constructor. }
    destruct (builtin_names_value b Hn) as [f Hf]. rewrite Hf.
    destruct (builtin_has_function b d HB Hn) as (ps & r & es & ->). by eapply h_builtin.
Qed.

Lemma expression_contents_runs gamma x fs e d environment :
  typed gamma x fs e d -> env_typed environment gamma ->
  runs x fs (expression_contents expr blk e environment) (fun v => has_type v d).
Proof.
  intros Ht Hg. pose proof Ht as Ht0. inversion Ht; subst; cbn [expression_contents].
  - apply runs_lift, literal_typed.
  - apply runs_lift, literal_typed.
  - apply runs_lift, literal_typed.
  - apply runs_ret. constructor.
  - by eapply interpolation_runs.
  - apply runs_lift. by eapply variable_typed.
  - apply runs_lift. by eapply variable_typed.
  - by eapply list_runs.
  - eapply runs_bind; [by eapply entries_runs|]. intros vs Hvs. by apply runs_lift, value_list_typed.
  - eapply runs_bind; [by eapply record_fields_runs|]. intros vs [Hn Hvs].
    destruct (written_record_typed vs _ types gs Hn Hvs) as [Hf Hk]; [done|done|]. by apply runs_lift, value_record_typed.
  - by eapply construction_runs.
  - operand. apply runs_lift. match goal with Hv : has_type ?v (TRecord _) |- _ =>
      destruct (field_value_typed v gs field d span Hv) as (w & -> & Hw); [done|] end. done.
  - by eapply blk_runs.
  - by eapply if_chain_runs.
  - apply runs_ret. apply closure_typed with (gamma := gamma); [done|by eapply Forall2_length|done].
  - by eapply call_runs.
  - operand. eapply propagate_runs; [|done]. by apply typed_option.
  - operand. by apply propagate_result_runs.
  - by eapply match_expression_runs.
  - by eapply unary_runs.
  - by eapply unary_runs.
  - by eapply binary_chain_runs.
Qed.
End Contents.

(** ** The recursion *)

Lemma evaluation_runs fuel :
  (forall gamma x fs e d environment, typed gamma x fs e d -> env_typed environment gamma ->
     runs x fs (expression fuel e environment) (fun v => has_type v d))
  /\ (forall gamma x fs b d environment, typed_block gamma x fs b d -> env_typed environment gamma ->
        runs x fs (block fuel b environment) (fun v => has_type v d)).
Proof.
  induction fuel as [|fuel [IHe IHb]]; [split; by intros|].
  split; intros; simpl; apply runs_nested.
  - by eapply expression_contents_runs.
  - by eapply block_contents_runs.
Qed.

(** Statements at the top level, where nothing is exited. *)
Lemma run_statements_runs fuel fs sts gamma gamma' environment :
  typed_statements gamma None fs sts gamma' -> env_typed environment gamma ->
  runs None fs (run_statements fuel sts environment) (fun _ => True).
Proof.
  destruct (evaluation_runs fuel) as [He Hb].
  revert gamma environment. induction sts as [|st sts IH]; intros gamma environment Ht Hg; inversion Ht; subst; simpl.
  - by apply runs_ret.
  - intros s. destruct (statement_runs (expression fuel) He gamma None fs st gamma1 environment) with (s := s) as [Ho Hp];
      [done|done|].
    destruct (statement (expression fuel) st environment s) as [s' [local|[d|v exit]| |]]; simpl in *; try done.
    + destruct (IH _ local ltac:(eassumption) Hp s') as [Ho' Hp']. split; [|done]. intros Hn. rewrite Ho', Ho; done.
    + destruct Hp as (r & Hr & _). done.
Qed.

(** How a typed program ends. *)
Lemma typed_program_runs p fs output :
  typed_program p fs ->
  (EffIoStdout ∉ fs -> ev_output (fst (execute p output)) = output)
  /\ outcome_typed None fs (fun _ => True) (snd (execute p output)).
Proof.
  intros [gamma Ht]. apply (run_statements_runs execute_fuel fs _ [] gamma [] Ht (List.Forall2_nil _) (initial output)).
Qed.

End Safety.

(** ** A typed program *)

Definition printing : gset Effect := {[ EffIoStdout ]}.
Definition sum_tree : Tree := TFunction [int_tree] int_tree (∅, ∅).

Lemma sum_body_typed (gamma : Context) (x : option Tree) :
  typed_block (("n", int_tree) :: ("sum", sum_tree) :: gamma) x ∅
    (body (ex (EIf (bin (var "n") Equal (int 0)) (body (int 0))
             (ex (EBlock (body (bin (var "n") Add
                (app (var "sum") [bin (var "n") Subtract (int 1)]))))))))
    int_tree.
Proof.
  assert (Hn : typed (("n", int_tree) :: ("sum", sum_tree) :: gamma) x ∅ (var "n") int_tree) by by constructor.
  eapply t_body; [constructor|]. apply t_if.
  - eapply t_binary; [exact Hn|constructor|done].
  - eapply t_body; constructor.
  - apply t_block. eapply t_body; [constructor|]. eapply t_binary; [exact Hn| |by split; [left|]].
    eapply t_call; [by constructor|done|]. constructor; [|constructor].
    eapply t_binary; [exact Hn|constructor|done].
Qed.

Lemma sum_program_typed : typed_program sum_program printing.
Proof.
  exists [("sum", sum_tree)]. eapply t_next; [|eapply t_next; [|constructor]].
  - eapply (t_declaration _ _ _ _ _ _ _ _ _ [int_tree] int_tree ∅ ∅); [done|by repeat constructor|done|].
    apply sum_body_typed.
  - eapply t_expression, (t_call _ _ _ _ _ [int_tree] unit_tree printing ∅).
    + eapply (t_builtin _ _ _ _ _ BiPrintln); [done|by vm_compute|].
      exists int_tree, int_tree. exists printing, ∅. split; [done|]. split; [|done].
      intros y ->%list_elem_of_singleton. by apply elem_of_singleton.
    + done.
    + constructor; [|constructor]. eapply (t_call _ _ _ _ _ [int_tree] int_tree ∅ ∅); [by constructor|set_solver|].
      by repeat constructor.
Qed.
