(* ===== verification/AnalyzerFacts.v ===== *)
(** * What the analyzer's steps mean

    Analysis is sound when what it accepts is typed by the rules of [Typing].
    The types it computes contain variables, so the statement is relative to a
    valuation [rho] of the variables: a state is [good] when [rho] solves its
    inference state, satisfies its constraints, and no name has been resolved
    to [json_decode], whose result type only its use determines.  Every step
    keeps the invariant [inv] and only adds to what [good] asks, so a valuation
    that is good at the end was good all along.  [holds] says what is true of
    a computation when it accepts.

    This file has the steps below the walk: variables, unification, fields,
    names, built-ins and patterns. *)

From S2P Require Import Prelude BTree Syntax Sorting Types Parser Infer InferWf OccursFacts TypeTrees.
From S2P Require Import UnifyParts UnifyVars UnifyFacts UnifyResults.
From S2P Require Import Patterns Construction Capability Builtins Normalize Analyzer Typing.

(** ** Computations *)

Definition holds {A} (m : check A) (a : Analyzer) (Q : A -> Analyzer -> Prop) : Prop :=
  match m a with (a', Accepted x) => Q x a' | _ => True end.

Lemma holds_bind {A B} (m : check A) (k : A -> check B) a Q :
  holds m a (fun x a' => holds (k x) a' Q) -> holds (check_bind m k) a Q.
Proof. unfold holds, check_bind. by destruct (m a) as [a' []]. Qed.

Lemma holds_accept {A} (x : A) a (Q : A -> Analyzer -> Prop) : Q x a -> holds (accept x) a Q.
Proof. done. Qed.

Lemma holds_reject {A} error a (Q : A -> Analyzer -> Prop) : holds (reject error) a Q.
Proof. done. Qed.

Lemma holds_panicking {A} a (Q : A -> Analyzer -> Prop) : holds panicking a Q.
Proof. done. Qed.

Lemma holds_exhausted {A} a (Q : A -> Analyzer -> Prop) : holds exhausted a Q.
Proof. done. Qed.

Lemma holds_result {A} (r : result A Diagnostic) a (Q : A -> Analyzer -> Prop) :
  (forall x, r = Ok x -> Q x a) -> holds (check_result r) a Q.
Proof. destruct r; unfold holds; simpl; eauto. Qed.

Lemma holds_weaken {A} (m : check A) a (P Q : A -> Analyzer -> Prop) :
  holds m a P -> (forall x a', P x a' -> Q x a') -> holds m a Q.
Proof. unfold holds. intros H HQ. destruct (m a) as [a' []]; auto. Qed.

Lemma holds_map_rejection {A} f (m : check A) a Q : holds m a Q -> holds (map_rejection f m) a Q.
Proof. unfold holds, map_rejection. by destruct (m a) as [a' []]. Qed.

(** ** Types of a state *)

Definition ty_ok (a : Analyzer) (t : InferType) : Prop := solid t /\ in_scope (an_inference a) t.

(** What each effect performs itself is a set. *)
Definition effects_ascending (s : Inference) : Prop :=
  Forall (fun own => ascending (fst own) /\ ascending (snd own)) (map own_effects (effect_definitions s)).

(** No variable or effect is forgotten. *)
Record grown (s s' : Inference) : Prop := {
  grown_types : (length (type_parents s) <= length (type_parents s'))%nat;
  grown_effects : (length (effect_definitions s) <= length (effect_definitions s'))%nat;
  grown_ascending : effects_ascending s -> effects_ascending s';
}.

Lemma grown_refl s : grown s s.
Proof. by split. Qed.

Lemma grown_trans s1 s2 s3 : grown s1 s2 -> grown s2 s3 -> grown s1 s3.
Proof. intros [] []. split; [lia|lia|auto]. Qed.

Lemma grown_extends s s' : extends s s' -> grown s s'.
Proof.
  intros He. pose proof (extends_effects _ _ He) as E2. destruct He as [E1 E3 _ _]. split; [lia|lia|].
  unfold effects_ascending. by rewrite E3.
Qed.

Lemma grown_same s s' :
  (length (type_parents s) <= length (type_parents s'))%nat -> effect_definitions s' = effect_definitions s -> grown s s'.
Proof. intros H1 H2. unfold effects_ascending. split; [done|by rewrite H2|]. unfold effects_ascending. by rewrite H2. Qed.

Lemma grown_scope s s' t : grown s s' -> in_scope s t -> in_scope s' t.
Proof. intros [G1 G2 _] [H1 H2]. split; [intros v Hv%H1|intros e He%H2]; lia. Qed.

Definition exit_ok (a : Analyzer) (exit : ExitContext) : Prop :=
  match exit with
  | Propagates p =>
      match pr_family p, pr_error p with
      | FamilyOption, _ => True
      | FamilyResult, Some error => ty_ok a error
      | FamilyResult, None => False
      end
  | Refused _ => True
  end.

Definition body_ok (a : Analyzer) (body : LetElseBody) : Prop :=
  match body with LetElseNamed _ result => ty_ok a result | LetElseClosure => True end.

Definition scope_ok (a : Analyzer) (scope : list (string * ScopeBinding)) : Prop :=
  bt_sorted scope /\ Forall (fun b => ty_ok a (sb_ty (snd b))) scope.

Record inv (a : Analyzer) : Prop := {
  inv_wf : wf (an_inference a);
  inv_ascending : effects_ascending (an_inference a);
  inv_scopes : Forall (scope_ok a) (an_scopes a);
  inv_exits : Forall (exit_ok a) (an_exits a);
  inv_bodies : Forall (body_ok a) (an_let_else_bodies a);
}.

Lemma ty_ok_grown a a' t : grown (an_inference a) (an_inference a') -> ty_ok a t -> ty_ok a' t.
Proof. intros G [H1 H2]. split; [done|]. by eapply grown_scope. Qed.

(** An analyzer whose inference state has grown keeps the types of the old. *)
Lemma inv_grown a a' :
  inv a -> wf (an_inference a') -> grown (an_inference a) (an_inference a') ->
  an_scopes a' = an_scopes a -> an_exits a' = an_exits a -> an_let_else_bodies a' = an_let_else_bodies a ->
  inv a'.
Proof.
  intros [W A S E B] W' G HS HE HB. split; [done|by apply G|rewrite HS|rewrite HE|rewrite HB].
  - eapply Forall_impl; [exact S|]. intros scope [H1 H2]. split; [done|].
    eapply Forall_impl; [exact H2|]. intros b. by apply ty_ok_grown.
  - eapply Forall_impl; [exact E|]. intros [p|r]; simpl; [|done].
    destruct (pr_family p), (pr_error p); try done. by apply ty_ok_grown.
  - eapply Forall_impl; [exact B|]. intros [b t|]; simpl; [|done]. by apply ty_ok_grown.
Qed.

(** ** Closed types *)

Definition closed_type (t : InferType) : Prop :=
  solid t /\ type_variables t = [] /\ type_effects t = [].

Lemma closed_ok a t : closed_type t -> ty_ok a t.
Proof. intros (H1 & H2 & H3). split; [done|]. split; [rewrite H2|rewrite H3]; by intros v Hv%elem_of_nil. Qed.

Lemma list_no_elem {A} (l : list A) : (forall x, x ∉ l) -> l = [].
Proof. destruct l as [|x l]; [done|]. intros H. destruct (H x). by left. Qed.

Lemma concat_map_nil {A B} (f : A -> list B) l x : concat (map f l) = [] -> x ∈ l -> f x = [].
Proof. intros H Hx. induction Hx; simpl in H; apply app_eq_nil in H as []; auto. Qed.

(** Every valuation reads a closed type alike. *)
Lemma closed_tree r1 r2 t : type_variables t = [] -> type_effects t = [] -> tree_of r1 t = tree_of r2 t.
Proof.
  induction t as [| | | | | | | | | | | |t IH|fs o IH|t IH|t u IHt IHu|ps r e IHp IHr|v]
    using infer_type_ind'; intros Hv He; try done; simpl in *.
  - by rewrite IH.
  - f_equal. apply map_ext_in. intros f Hf%list_elem_of_In. f_equal. rewrite Forall_forall in IH. apply IH; [done|..].
    + exact (concat_map_nil (fun f => type_variables (snd f)) fs f Hv Hf).
    + exact (concat_map_nil (fun f => type_effects (snd f)) fs f He Hf).
  - by rewrite IH.
  - apply app_eq_nil in Hv as [], He as []. by rewrite IHt, IHu.
Qed.

Lemma closed_record (fs : list (string * InferType)) :
  Forall (fun f => closed_type (snd f)) fs -> closed_type (IRecord (bt_extend fs []) false).
Proof.
  intros HF. assert (forall kv, kv ∈ bt_extend fs [] -> kv ∈ fs) as Hin.
  { unfold bt_extend. assert (forall m kv, kv ∈ fold_left (fun m '(k, v) => bt_insert k v m) fs m -> kv ∈ fs \/ kv ∈ m) as H.
    { clear HF. induction fs as [|[k v] fs IH]; intros m kv; simpl; [by right|].
      intros [H|H]%IH; [left; by right|]. apply list_elem_of_In, bt_insert_In in H as [->|H%list_elem_of_In]; [left; by left|by right]. }
    intros kv [Hk|Hk%elem_of_nil]%H; done. }
  rewrite Forall_forall in HF. split; [|split].
  - apply solid_record. split; [done|]. split; [by apply bt_extend_sorted|]. apply Forall_forall. intros f Hf. apply (HF f), Hin, Hf.
  - apply list_no_elem. intros v (f & Hf & Hv)%elem_of_record_vars. destruct (HF f (Hin f Hf)) as (_ & E & _).
    rewrite E in Hv. by apply elem_of_nil in Hv.
  - apply list_no_elem. intros v (f & Hf & Hv)%elem_of_record_effects. destruct (HF f (Hin f Hf)) as (_ & _ & E).
    rewrite E in Hv. by apply elem_of_nil in Hv.
Qed.

Lemma annotation_closed : forall an, closed_type (annotation_type an).
Proof.
  fix IH 1. intros [[| | | | | | | | | | | |element|element|value error|fields] span];
    [solve [repeat split]..|exact (IH element)|exact (IH element)| |]; simpl annotation_type.
  - destruct (IH value) as (A1 & A2 & A3), (IH error) as (B1 & B2 & B3).
    split; [split; [exact A1|exact B1]|]. simpl. rewrite A2, A3, B2, B3. split; reflexivity.
  - apply closed_record. induction fields as [|[name an sp] fields IHf]; constructor; [exact (IH an)|exact IHf].
Qed.

(** ** Valuations *)

Section Valuation.
Context (rho : Valuation).

Abbreviation tr := (tree_of rho).

Definition constraint_holds (c : TypeConstraint) : Prop :=
  match tc_kind c with
  | Addable | Orderable => ordered_tree (tr (tc_ty c))
  | Comparable | JsonValue => data_tree (tr (tc_ty c)) = true
  | OpaqueArgument | Printable | StructuralValue => True
  end.

Definition not_decoding (e : PendingExpression) : Prop :=
  pe_resolved e <> Some (ResolvedBuiltin BiJsonDecode).

Record good (a : Analyzer) : Prop := {
  good_solves : solves (an_inference a) rho;
  good_constraints : Forall constraint_holds (an_constraints a);
  good_expressions : Forall not_decoding (an_expressions a);
}.

(** A step that leaves the scopes below the innermost one alone. *)
Record moves (a a' : Analyzer) : Prop := {
  mv_inv : inv a';
  mv_grown : grown (an_inference a) (an_inference a');
  mv_good : good a' -> good a;
  mv_exits : an_exits a' = an_exits a;
  mv_bodies : an_let_else_bodies a' = an_let_else_bodies a;
  mv_tail : tail (an_scopes a') = tail (an_scopes a);
}.

(** A step that leaves all scopes alone. *)
Definition step (a a' : Analyzer) : Prop := moves a a' /\ an_scopes a' = an_scopes a.

Lemma moves_refl a : inv a -> moves a a.
Proof. intros Ha. by split. Qed.

Lemma moves_trans a1 a2 a3 : moves a1 a2 -> moves a2 a3 -> moves a1 a3.
Proof.
  intros [A1 A2 A3 A4 A5 A6] [B1 B2 B3 B4 B5 B6]. split; [done|by eapply grown_trans|auto|congruence..].
Qed.

Lemma step_refl a : inv a -> step a a.
Proof. intros Ha. split; [by apply moves_refl|done]. Qed.

Lemma step_trans a1 a2 a3 : step a1 a2 -> step a2 a3 -> step a1 a3.
Proof. intros [A1 A2] [B1 B2]. split; [by eapply moves_trans|congruence]. Qed.

Lemma step_inv a a' : step a a' -> inv a'.
Proof. by intros [[]]. Qed.

Lemma step_moves a a' : step a a' -> moves a a'.
Proof. by intros []. Qed.

Lemma step_good a a' : step a a' -> good a' -> good a.
Proof. by intros [[]]. Qed.

Lemma step_ty_ok a a' t : step a a' -> ty_ok a t -> ty_ok a' t.
Proof. intros [M _]. apply ty_ok_grown, M. Qed.

Lemma moves_ty_ok a a' t : moves a a' -> ty_ok a t -> ty_ok a' t.
Proof. intros M. apply ty_ok_grown, M. Qed.

(** What a step keeps, found by following steps back to where it was known. *)
Ltac known := eauto using step_refl, step_trans, step_inv, step_ty_ok, step_good.

(** ** Changes analysis does not look at *)

Record quiet (a a' : Analyzer) : Prop := {
  quiet_inference : an_inference a' = an_inference a;
  quiet_constraints : an_constraints a' = an_constraints a;
  quiet_expressions : an_expressions a' = an_expressions a;
  quiet_scopes : an_scopes a' = an_scopes a;
  quiet_exits : an_exits a' = an_exits a;
  quiet_bodies : an_let_else_bodies a' = an_let_else_bodies a;
}.

(** A step of the inference state, or of what is recorded beside it. *)
Lemma later_step a a' :
  inv a -> wf (an_inference a') -> grown (an_inference a) (an_inference a') -> (good a' -> good a) ->
  an_scopes a' = an_scopes a -> an_exits a' = an_exits a -> an_let_else_bodies a' = an_let_else_bodies a ->
  step a a'.
Proof.
  intros Ha W G Hg Q4 Q5 Q6. split; [|done]. split; try done; [by apply (inv_grown a)|by rewrite Q4].
Qed.

Lemma quiet_step a a' : quiet a a' -> inv a -> step a a'.
Proof.
  intros [Q1 Q2 Q3 Q4 Q5 Q6] Ha. apply later_step; try done.
  - rewrite Q1. apply Ha.
  - rewrite Q1. apply grown_refl.
  - intros [G1 G2 G3]. split; congruence.
Qed.

Lemma holds_update f a (Q : unit -> Analyzer -> Prop) : Q tt (f a) -> holds (update f) a Q.
Proof. done. Qed.

Lemma holds_quiet f a (Q : unit -> Analyzer -> Prop) :
  quiet a (f a) -> inv a -> (forall a', step a a' -> Q tt a') -> holds (update f) a Q.
Proof. intros Hq Ha HQ. apply holds_update, HQ. by apply quiet_step. Qed.

Lemma holds_state a (Q : Inference -> Analyzer -> Prop) : Q (an_inference a) a -> holds state a Q.
Proof. done. Qed.

Lemma holds_analyzer a (Q : Analyzer -> Analyzer -> Prop) : Q a a -> holds analyzer a Q.
Proof. done. Qed.

(** ** Steps of the inference state *)

(** An analyzer with a later inference state. *)
Lemma inference_step a s :
  inv a -> wf s -> grown (an_inference a) s -> (solves s rho -> solves (an_inference a) rho) ->
  step a (set_inference s a).
Proof. intros Ha W G Hs. apply later_step; try done. intros [G1 G2 G3]. split; [by apply Hs|done|done]. Qed.

Lemma fresh_solves s : wf s -> solves (snd (fresh_type s)) rho -> solves s rho.
Proof.
  intros W (H1 & H2 & H3). split; [|split; [|done]].
  - intros z _. rewrite <- (fresh_root s z) by apply W. by apply H1.
  - intros x _. by apply (H2 x).
Qed.

Lemma fresh_effect_solves s : solves (snd (fresh_effect s)) rho -> solves s rho.
Proof.
  intros (H1 & H2 & H3). split; [done|]. split; [done|].
  intros e def He. apply H3. simpl. by apply lookup_app_l_Some.
Qed.

Lemma holds_new_type a (Q : InferType -> Analyzer -> Prop) :
  inv a -> (forall t a', step a a' -> ty_ok a' t -> Q t a') -> holds new_type a Q.
Proof.
  intros Ha HQ. unfold holds, new_type. simpl. apply HQ.
  - apply inference_step; [done|by apply fresh_type_wf, Ha| |by apply fresh_solves, Ha].
    apply grown_same; [simpl; rewrite length_app; lia|done].
  - split; [done|]. split; [|by intros e He%elem_of_nil].
    intros v ->%list_elem_of_singleton. simpl. rewrite length_app. simpl. lia.
Qed.

Lemma holds_new_effect a (Q : nat -> Analyzer -> Prop) :
  inv a ->
  (forall e a', step a a' -> (e < length (effect_definitions (an_inference a')))%nat -> Q e a') ->
  holds new_effect a Q.
Proof.
  intros Ha HQ. unfold holds, new_effect. simpl. apply HQ.
  - apply inference_step; [done|by apply fresh_effect_wf, Ha| |by apply fresh_effect_solves].
    split; simpl; [done|rewrite length_app; lia|]. unfold effects_ascending. simpl. rewrite map_app.
    intros Hs. apply Forall_app. split; [done|]. repeat constructor.
  - simpl. rewrite length_app. simpl. lia.
Qed.

(** ** Effects *)

(** The effects of a definition under the valuation are among [fs]. *)
Definition within (effects : InferEffects) (fs : gset Effect) : Prop :=
  (forall x, x ∈ direct effects -> x ∈ fs)
  /\ (forall d, d ∈ dependencies effects -> (effects_value rho d).1 ⊆ fs).

Lemma within_union e1 e2 fs : within (effects_union e1 e2) fs <-> within e1 fs /\ within e2 fs.
Proof.
  unfold within; simpl. setoid_rewrite oset_extend_elem. split.
  - intros [H1 H2]. split; (split; [intros x Hx; apply H1|intros d Hd; apply H2]); tauto.
  - intros [[A1 A2] [B1 B2]]. split; [intros x []|intros d []]; auto.
Qed.

Lemma within_none fs : within no_effects fs.
Proof. split; by intros x Hx%elem_of_nil. Qed.

Lemma define_effect_solves s e effects :
  (e < length (effect_definitions s))%nat ->
  solves (with_effects (alter (fun def => effects_union def effects) e (effect_definitions s)) s) rho ->
  solves s rho /\ within effects (effects_value rho e).1.
Proof.
  intros He (H1 & H2 & H3). destruct (lookup_lt_is_Some_2 _ _ He) as [own Hown]. split.
  - split; [done|]. split; [done|]. intros e' def He'. destruct (decide (e' = e)) as [->|Hne].
    + simplify_eq. destruct (H3 e (effects_union own effects)) as (A1 & A2 & A3).
      { simpl. by rewrite list_lookup_alter_eq, Hown. }
      simpl in *. setoid_rewrite oset_extend_elem in A1. setoid_rewrite oset_extend_elem in A2.
      setoid_rewrite oset_extend_elem in A3. auto.
    + apply (H3 e' def). simpl. by rewrite list_lookup_alter_ne.
  - destruct (H3 e (effects_union own effects)) as (A1 & _ & A3).
    { simpl. by rewrite list_lookup_alter_eq, Hown. }
    simpl in *. split; [intros x Hx; apply A1|intros d Hd; apply A3]; apply oset_extend_elem; by right.
Qed.

Lemma define_effect_ascending s e effects :
  effects_ascending s ->
  effects_ascending (with_effects (alter (fun def => effects_union def effects) e (effect_definitions s)) s).
Proof.
  unfold effects_ascending. simpl. generalize (effect_definitions s). clear s. intros defs. revert e.
  induction defs as [|def defs IH]; intros [|e] Hd; simpl in *; [done|done|apply Forall_cons in Hd as [[H1 H2] Hd]..];
    apply Forall_cons.
  - split; [|done]. split; by apply extend_ascending.
  - split; [done|by apply IH].
Qed.

Lemma holds_define_effect e effects a (Q : unit -> Analyzer -> Prop) :
  inv a -> (e < length (effect_definitions (an_inference a)))%nat ->
  (forall a', step a a' -> (good a' -> within effects (effects_value rho e).1) -> Q tt a') ->
  holds (define_effect e effects) a Q.
Proof.
  intros Ha He HQ. apply holds_update, HQ.
  - apply inference_step; [done| | |by intros []%define_effect_solves].
    + apply (wf_same_types (an_inference a)); try done; [apply length_alter|apply Ha].
    + split; simpl; [lia|rewrite length_alter; lia|by apply define_effect_ascending].
  - intros [Hs _ _]. by apply define_effect_solves in Hs as [].
Qed.

(** ** Constraints and recorded expressions *)

Lemma holds_require t span kind a (Q : unit -> Analyzer -> Prop) :
  inv a ->
  (forall a', step a a' -> (good a' -> constraint_holds (mkConstraint t span kind)) -> Q tt a') ->
  holds (require t span kind) a Q.
Proof.
  intros Ha HQ. apply holds_update, HQ.
  - apply later_step; try done; [apply Ha|].
    intros [G1 G2 G3]. split; [done| |done]. simpl in G2. by apply Forall_app in G2 as [].
  - intros [_ G2 _]. simpl in G2. apply Forall_app in G2 as [_ G2]. by inversion G2.
Qed.

Lemma holds_record span info resolved a (Q : unit -> Analyzer -> Prop) :
  inv a ->
  (forall a', step a a' -> (good a' -> resolved <> Some (ResolvedBuiltin BiJsonDecode)) -> Q tt a') ->
  holds (record_expression span info resolved) a Q.
Proof.
  intros Ha HQ. apply holds_update, HQ.
  - apply later_step; try done; [apply Ha|].
    intros [G1 G2 G3]. split; [done|done|]. simpl in G3. by apply Forall_app in G3 as [].
  - intros [_ _ G3]. simpl in G3. apply Forall_app in G3 as [_ G3]. by inversion G3.
Qed.

(** ** Unification *)

Section Unification.
Context (str_debug : string -> string) (steps : nat).

Lemma unified_step a l r t s :
  inv a -> ty_ok a l -> ty_ok a r -> unified (an_inference a) l r t s ->
  step a (set_inference s a) /\ ty_ok (set_inference s a) t
  /\ (good (set_inference s a) -> tr l = tr t /\ tr r = tr t).
Proof.
  intros Ha [Sl Cl] [Sr Cr] [U1 U2 U3 U4 U5 U6 U7]. specialize (U5 Sl Sr).
  pose proof (ui_exact _ _ _ _ _ _ (U7 everywhere (closed_everywhere _) (pair_inside_everywhere _ _ _)) rho (tr t)) as HX.
  rewrite !instance_solid in HX by done. unfold solves in *. split; [|split; [done|]].
  - apply inference_step; [done|done|by apply grown_extends|]. intros Hs. apply HX. done.
  - intros [Hs _ _]. simpl in Hs. destruct (proj1 HX (conj Hs eq_refl)) as (_ & -> & ->). done.
Qed.

Lemma unifiable_ok a l r : inv a -> ty_ok a l -> ty_ok a r -> unifiable (an_inference a) l r.
Proof.
  intros Ha [Sl Cl] [Sr Cr]. split; try done; [apply Ha|by apply solid_headed|by apply solid_headed|by left].
Qed.

Lemma holds_unify l r span context a (Q : InferType -> Analyzer -> Prop) :
  inv a -> ty_ok a l -> ty_ok a r ->
  (forall t a', step a a' -> ty_ok a' t -> (good a' -> tr l = tr t /\ tr r = tr t) -> Q t a') ->
  holds (unify str_debug steps l r span context) a Q.
Proof.
  intros Ha Hl Hr HQ. unfold holds, unify.
  destruct (unify_inner span steps l r (an_inference a)) as [[[t|e] s]|] eqn:E; [|done|done].
  apply unify_inner_ok in E; [|by apply unifiable_ok]. destruct (unified_step a l r t s Ha Hl Hr E) as (H1 & H2 & H3).
  by apply HQ.
Qed.

(** The variable of a call's target is bound to a function type. *)
Lemma holds_bind_target v ty span context a (Q : unit -> Analyzer -> Prop) :
  inv a -> ty_ok a (IVariable v) -> ty_ok a ty -> is_variable ty = false ->
  (forall a', step a a' -> (good a' -> type_value rho v = tr ty) -> Q tt a') ->
  holds (bind_target str_debug steps v ty span context) a Q.
Proof.
  intros Ha Hv Hty Hn HQ.
  assert (forall s, bind_variable span (unify_inner span steps) v ty (an_inference a) = Some (Ok (IVariable (root_variable (an_inference a) v)), s) ->
            Q tt (set_inference s a)) as HB.
  { intros s E. apply (bind_ok span _ (unify_inner_ok span steps) _ _ (root_variable (an_inference a) v)) in E;
      [|apply Ha|by apply scope_variable, Hv|done|apply Hty|done|apply Hty].
    destruct (unified_step a _ _ _ s Ha Hv Hty E) as (H1 & H2 & H3). apply HQ; [done|].
    intros Hg. destruct (H3 Hg) as [E1 E2]. rewrite E2, <- E1. done. }
  unfold holds, bind_target. unfold bind_variable in HB.
  destruct (substitutions (an_inference a) !! root_variable (an_inference a) v) as [existing|] eqn:Es.
  - destruct (unify_inner span steps existing ty (an_inference a)) as [[[u|e] s1]|] eqn:Eu; [|done|done].
    unfold inferring. simpl. destruct (set_binding _ u span s1) as [[[[]|e] s2]|] eqn:Eb; [|done|done].
    apply (HB s2). destruct ty; try done; unfold infer_bind; rewrite Eu; unfold discard, infer_map_err; by rewrite Eb.
  - destruct (occurs _ _ ty) eqn:Eo; [done|]. unfold inferring.
    destruct (set_binding _ ty span (an_inference a)) as [[[[]|e] s2]|] eqn:Eb; [|done|done].
    apply (HB s2). destruct ty; try done; unfold infer_bind, discard, infer_map_err; by rewrite Eb.
Qed.

(** ** Fields *)

(** A record that has the field, with its type. *)
Definition tree_field (d : Tree) (field : string) (t : InferType) : Prop :=
  exists gs, d = TRecord gs /\ bt_get field gs = Some (tr t).

(** A binding that may replace [t], and that has the field. *)
Definition widens (a : Analyzer) (t w : InferType) (field : string) (ft : InferType) : Prop :=
  bindable (an_inference a) w
  /\ forall d, instance rho w d -> instance rho t d /\ tree_field d field ft.

(** No variable was bound. *)
Definition same_bindings (a a' : Analyzer) : Prop :=
  substitutions (an_inference a') = substitutions (an_inference a)
  /\ forall v, is_root (an_inference a) v -> is_root (an_inference a') v.

Lemma holds_new_field a (Q : InferType -> Analyzer -> Prop) :
  inv a -> (forall t a', step a a' -> same_bindings a a' -> ty_ok a' t -> Q t a') -> holds new_type a Q.
Proof.
  intros Ha HQ. assert (holds new_type a (fun t a' => step a a' /\ ty_ok a' t)) as H by by apply holds_new_type.
  unfold holds, new_type in *. simpl in *. destruct H as [H1 H2]. apply HQ; [done| |done]. split; [done|].
  intros v Hv. unfold is_root. simpl. by apply lookup_app_l_Some.
Qed.

Lemma field_ok a fs o field ft : headed (IRecord fs o) -> in_scope (an_inference a) (IRecord fs o) ->
  bt_get field fs = Some ft -> ty_ok a ft.
Proof.
  intros [_ Hf] Hs E. split; [|by eapply scope_field]. apply bt_get_elem in E.
  rewrite Forall_forall in Hf. exact (Hf _ E).
Qed.

Lemma instance_field fs o d field ft : headed (IRecord fs o) -> instance rho (IRecord fs o) d ->
  bt_get field fs = Some ft -> tree_field d field ft.
Proof.
  intros [Hs _] (gs & -> & _ & Hg & _)%instance_record E; [|done]. exists gs. eauto.
Qed.

Lemma headed_insert fs o field t :
  headed (IRecord fs o) -> solid t -> headed (IRecord (bt_insert field t fs) o).
Proof.
  intros [Hs Hf] Ht. split; [by apply bt_insert_sorted|]. rewrite Forall_forall in *.
  intros [n u] Hin%list_elem_of_In%bt_insert_In. destruct Hin as [[= -> ->]|Hin]; [done|].
  apply (Hf (n, u)). by rewrite list_elem_of_In.
Qed.

Lemma scope_insert s fs o field t :
  in_scope s (IRecord fs o) -> in_scope s t -> in_scope s (IRecord (bt_insert field t fs) o).
Proof.
  intros [F1 F2] [T1 T2]. split.
  - intros v ([n u] & Hin%list_elem_of_In%bt_insert_In & Hv)%elem_of_record_vars.
    destruct Hin as [[= -> ->]|Hin]; [by apply T1|]. apply F1, elem_of_record_vars. exists (n, u). by rewrite list_elem_of_In.
  - intros v ([n u] & Hin%list_elem_of_In%bt_insert_In & Hv)%elem_of_record_effects.
    destruct Hin as [[= -> ->]|Hin]; [by apply T2|]. apply F2, elem_of_record_effects. exists (n, u). by rewrite list_elem_of_In.
Qed.

Lemma holds_record_field fs o field span a (Q : InferType * InferType -> Analyzer -> Prop) :
  inv a -> headed (IRecord fs o) -> in_scope (an_inference a) (IRecord fs o) ->
  (forall ft w a', step a a' -> same_bindings a a' -> ty_ok a' ft -> widens a' (IRecord fs o) w field ft ->
     Q (ft, w) a') ->
  holds (record_field fs o field span) a Q.
Proof.
  intros Ha Hh Hs HQ. unfold record_field. destruct (bt_get field fs) as [ft|] eqn:E.
  - apply holds_accept, HQ; [by apply step_refl|done|by eapply field_ok|]. split; [by split|].
    intros d Hd. split; [done|]. by eapply instance_field.
  - destruct o; [|done]. apply holds_bind, holds_new_field; [done|]. intros ft a' St Hsb Hft.
    assert (in_scope (an_inference a') (IRecord fs true)) as Hs' by (eapply grown_scope; [apply St|done]).
    assert (headed (IRecord (bt_insert field ft fs) true)) as Hh' by (apply headed_insert; [done|apply Hft]).
    apply holds_accept, HQ; [done|done|done|]. split.
    + split; [done|done|apply scope_insert; [done|apply Hft]].
    + intros d Hd. destruct Hh as [Hsort _]. split.
      * destruct Hd as (gs & -> & Hgs & Hg). exists gs. split; [done|]. split; [done|]. intros n t Hn. apply Hg.
        rewrite bt_get_insert by done. case_decide as D; [|done]. apply cmp_eq_iff in D as ->. congruence.
      * eapply instance_field; [exact Hh'|exact Hd|]. rewrite bt_get_insert by done.
        rewrite decide_True; [done|]. by apply cmp_eq_iff.
Qed.

(** The record a nominal type stands for. *)
Lemma nominal_record t :
  match t with
  | IHttpHeader | IHttpRequest | IHttpResponse | ILogField | IQueueJob | IScheduleEvent =>
      solid (contract_record t) /\ tr (contract_record t) = tr t
      /\ type_variables (contract_record t) = [] /\ type_effects (contract_record t) = []
      /\ exists fs, contract_record t = IRecord fs false
  | _ => True
  end.
Proof.
  pose proof (contract_solid t) as Hs. pose proof (tree_of_contract rho t) as Ht.
  destruct t; try done; (split; [exact Hs|split; [first [exact (Ht eq_refl) | reflexivity]|split; [reflexivity|split; [reflexivity|]]]]);
    eexists; reflexivity.
Qed.

Lemma holds_widen t field span a (Q : InferType * InferType -> Analyzer -> Prop) :
  inv a -> bindable (an_inference a) t ->
  (forall ft w a', step a a' -> same_bindings a a' -> ty_ok a' ft -> widens a' t w field ft -> Q (ft, w) a') ->
  holds (widen_field str_debug t field span) a Q.
Proof.
  intros Ha Hb HQ. pose proof (nominal_record t) as HN.
  assert (forall fs, contract_record t = IRecord fs false -> solid (contract_record t) ->
    tr (contract_record t) = tr t -> type_variables (contract_record t) = [] ->
    type_effects (contract_record t) = [] -> (forall d, instance rho t d <-> d = tr t) ->
    holds (let^ (field_type, _) := record_field fs false field span in accept (field_type, t)) a Q) as HC.
  { intros fs E H1 H2 H3 H4 H5. rewrite E in *. unfold record_field.
    destruct (bt_get field fs) as [ft|] eqn:Ef; [|done]. apply HQ; [by apply step_refl|done| |split; [done|]].
    - eapply field_ok; [by apply solid_headed| |done]. split; [rewrite H3|rewrite H4]; by intros v Hv%elem_of_nil.
    - intros d Hd. split; [done|]. apply H5 in Hd as ->. eapply instance_field; [by apply solid_headed| |done].
      apply instance_solid; [done|by rewrite H2]. }
  destruct t; try done; cbn [widen_field contract_record];
    try (destruct HN as (H1 & H2 & H3 & H4 & _); by apply (HC _ eq_refl H1 H2 H3 H4)).
  destruct Hb as [B1 B2 B3]. by apply holds_record_field.
Qed.

(** Binding a root to what implies its binding so far. *)
Lemma holds_set_binding v w span a (Q : unit -> Analyzer -> Prop) :
  inv a -> is_root (an_inference a) v -> bindable (an_inference a) w ->
  (forall t d, substitutions (an_inference a) !! v = Some t -> instance rho w d -> instance rho t d) ->
  (forall a', step a a' -> (good a' -> instance rho w (type_value rho v)) -> Q tt a') ->
  holds (inferring (set_binding v w span)) a Q.
Proof.
  intros Ha Hv Hb Hi HQ. unfold holds, inferring.
  destruct (set_binding v w span (an_inference a)) as [[[[]|e] s]|] eqn:E; [|done|done].
  destruct (set_binding_keeps span v w _ s (inv_wf _ Ha) Hv Hb E) as (W & [U1 U2 U3 U4] & Ep & Es).
  assert (forall r, solves s r <-> _) as HS
    by (intros r; apply (solves_bind v w everywhere (an_inference a) s r eq_refl Ep U2 Es)).
  apply HQ.
  - apply inference_step; [done|done|apply grown_same; [lia|done]|]. intros (S1 & S2 & S3)%HS.
    apply (solves_at v everywhere (an_inference a) rho eq_refl). split; [done|]. split; [done|].
    intros t Ht. by apply (Hi t).
  - intros [Hs _ _]. simpl in Hs. by apply HS in Hs as (_ & _ & S3).
Qed.

Lemma holds_require_field_from fuel t field span a (Q : InferType -> Analyzer -> Prop) :
  inv a -> ty_ok a t ->
  (forall ft a', step a a' -> ty_ok a' ft -> (good a' -> tree_field (tr t) field ft) -> Q ft a') ->
  holds (require_field_from str_debug fuel t field span) a Q.
Proof.
  intros Ha Ht HQ.
  assert (is_variable t = false ->
    holds (let^ (field_type, _) := widen_field str_debug t field span in accept field_type) a Q) as HN.
  { intros Hn. apply holds_bind, holds_widen; [done|split; [done|by apply solid_headed, Ht|apply Ht]|].
    intros ft w a' St _ Hft [HB HW]. apply holds_accept, HQ; [done|done|]. intros _.
    destruct (HW (tr w)) as [Hi Hf]; [apply instance_tree_of, HB|].
    apply instance_solid in Hi; [by rewrite <- Hi|apply Ht]. }
  destruct t as [| | | | | | | | | | | | | | | | |v]; try (by destruct fuel; apply HN). clear HN.
  assert (root_variable (an_inference a) v < length (type_parents (an_inference a)))%nat as Hlt
    by (apply root_lt; [apply Ha|by apply scope_variable, Ht]).
  assert (is_root (an_inference a) (root_variable (an_inference a) v)) as Hv
    by (apply root_is_root; [apply Ha|by apply scope_variable, Ht]).
  assert (forall a', step a a' -> good a' -> tr (IVariable v) = type_value rho (root_variable (an_inference a) v)) as Hroot.
  { intros a' St Hg. destruct (step_good _ _ St Hg) as [(Hs & _) _ _]. by apply Hs. }
  set (root := root_variable (an_inference a) v) in *.
  assert (holds (match substitutions (an_inference a) !! root with
    | Some existing =>
        let^ (field_type, widened) := widen_field str_debug existing field span in
        let^ _ := inferring (set_binding root widened span) in accept field_type
    | None =>
        let^ field_type := new_type in
        let^ _ := inferring (set_binding root (IRecord [(field, field_type)] true) span) in accept field_type
    end) a Q) as HG.
  { destruct (substitutions (an_inference a) !! root) as [existing|] eqn:Es.
    - destruct (wf_binding _ (wf_wf_core _ (inv_wf _ Ha)) _ _ Es) as (X1 & X2 & X3).
      apply holds_bind, holds_widen; [done|by split|]. intros ft w a1 St [Sb Sr] Hft [HB HW].
      apply holds_bind, holds_set_binding; [known|by apply Sr|done| |].
      { intros t d. rewrite Sb, Es. intros [= <-] Hd. by apply HW. }
      intros a2 St2 HI. apply holds_accept, HQ; [known|known|]. intros Hg.
      rewrite (Hroot a2) by known. apply HW. by apply HI.
    - apply holds_bind, holds_new_field; [done|]. intros ft a1 St [Sb Sr] Hft.
      assert (headed (IRecord [(field, ft)] true)) as Hh by (split; [done|by repeat constructor; apply Hft]).
      apply holds_bind, holds_set_binding; [known|by apply Sr| | |].
      { split; [done|done|]. destruct Hft as [_ [F1 F2]].
        split; simpl; rewrite app_nil_r; [apply F1|apply F2]. }
      { intros t d. rewrite Sb, Es. done. }
      intros a2 St2 HI. apply holds_accept, HQ; [known|known|]. intros Hg.
      rewrite (Hroot a2) by known. eapply instance_field; [exact Hh|by apply HI|]. simpl.
      by rewrite (proj2 (cmp_eq_iff field field) eq_refl). }
  destruct fuel; cbn [require_field_from]; apply holds_bind, holds_state; fold root;
    (destruct (substitutions (an_inference a) !! root) as [existing|] eqn:Es; [|exact HG]);
    destruct (wf_binding _ (wf_wf_core _ (inv_wf _ Ha)) _ _ Es) as (X1 & _); by destruct existing.
Qed.

Lemma holds_require_field t field span a (Q : InferType -> Analyzer -> Prop) :
  inv a -> ty_ok a t ->
  (forall ft a', step a a' -> ty_ok a' ft -> (good a' -> tree_field (tr t) field ft) -> Q ft a') ->
  holds (require_field str_debug t field span) a Q.
Proof. intros Ha Ht HQ. by apply holds_bind, holds_state, holds_require_field_from. Qed.

Lemma holds_field_error called receiver field span access a (Q : InferType -> Analyzer -> Prop) :
  holds access a Q -> holds (field_error str_debug called receiver field span access) a Q.
Proof. unfold holds, field_error. by destruct (access a) as [a' []]. Qed.
End Unification.

(** ** Contexts *)

(** [x] is the result type of the function [?] and let-else may exit. *)
Definition exit_agrees (x : option Tree) (a : Analyzer) : Prop :=
  match an_exits a with
  | Propagates p :: _ =>
      match pr_family p, pr_error p with
      | FamilyOption, _ => exists r, x = Some (TOption r)
      | FamilyResult, Some error => exists r, x = Some (TResult r (tr error))
      | FamilyResult, None => False
      end
  | _ => True
  end
  /\ match an_let_else_bodies a with
     | LetElseNamed _ result :: _ => x = Some (tr result)
     | _ => True
     end.

Definition binding_tree (b : ScopeBinding) : Tree := tr (sb_ty b).

Definition agrees (gamma : Context) (x : option Tree) (a : Analyzer) : Prop :=
  (forall name, ctx_get gamma name = binding_tree <$> lookup_scopes name (an_scopes a))
  /\ exit_agrees x a.

Lemma agrees_step gamma x a a' : step a a' -> agrees gamma x a' <-> agrees gamma x a.
Proof. intros [[] E]. unfold agrees, exit_agrees. by rewrite E, mv_exits0, mv_bodies0. Qed.

(** A new scope. *)
Record pushed (a a' : Analyzer) : Prop := {
  ps_inv : inv a';
  ps_inference : an_inference a' = an_inference a;
  ps_constraints : an_constraints a' = an_constraints a;
  ps_expressions : an_expressions a' = an_expressions a;
  ps_scopes : an_scopes a' = [] :: an_scopes a;
  ps_exits : an_exits a' = an_exits a;
  ps_bodies : an_let_else_bodies a' = an_let_else_bodies a;
}.

Lemma push_pushed a : inv a -> pushed a (set_scopes ([] :: an_scopes a) a).
Proof.
  intros Ha. split; try done. destruct Ha as [W A S E B]. split; try done. simpl. by constructor; [split|].
Qed.

Lemma holds_push a (Q : unit -> Analyzer -> Prop) :
  inv a -> (forall a', pushed a a' -> Q tt a') -> holds push_scope a Q.
Proof. intros Ha HQ. apply holds_update, HQ. by apply push_pushed. Qed.

Lemma pushed_agrees gamma x a a' : pushed a a' -> agrees gamma x a' <-> agrees gamma x a.
Proof. intros [_ _ _ _ E1 E2 E3]. unfold agrees, exit_agrees. by rewrite E1, E2, E3. Qed.

Lemma pushed_ty_ok a a' t : pushed a a' -> ty_ok a t -> ty_ok a' t.
Proof. intros Hp. apply ty_ok_grown. rewrite (ps_inference _ _ Hp). apply grown_refl. Qed.

(** The scope is left again. *)
Lemma popped_step a a1 a2 a3 :
  pushed a a1 -> moves a1 a2 -> quiet (set_scopes (tail (an_scopes a2)) a2) a3 ->
  step a a3 /\ (good a3 -> good a2) /\ (forall t, ty_ok a2 t -> ty_ok a3 t).
Proof.
  intros [P1 P2 P3 P4 P5 P6 P7] [M1 M2 M3 M4 M5 M6] [Q1 Q2 Q3 Q4 Q5 Q6]. simpl in *.
  assert (good a3 -> good a2) as Hg by (intros [G1 G2 G3]; split; congruence).
  assert (an_scopes a3 = an_scopes a) as Es by (by rewrite Q4, M6, P5).
  rewrite P2 in M2. split; [split; [|done]|split; [done|]].
  - split; [| | |congruence|congruence|by rewrite Es].
    + destruct M1 as [W A S E B]. split; [by rewrite Q1|by rewrite Q1| | |].
      * rewrite Q4. unfold scope_ok, ty_ok in *. rewrite Q1. destruct (an_scopes a2); [done|by inversion S].
      * rewrite Q5. unfold exit_ok, ty_ok in *. by rewrite Q1.
      * rewrite Q6. unfold body_ok, ty_ok in *. by rewrite Q1.
    + by rewrite Q1.
    + intros H. apply Hg, M3 in H as [G1 G2 G3]. split; congruence.
  - intros t. apply ty_ok_grown. rewrite Q1. apply grown_refl.
Qed.

Lemma holds_pop a a1 a2 (Q : unit -> Analyzer -> Prop) :
  pushed a a1 -> moves a1 a2 ->
  (forall a3, step a a3 -> (good a3 -> good a2) -> (forall t, ty_ok a2 t -> ty_ok a3 t) -> Q tt a3) ->
  holds pop_scope a2 Q.
Proof.
  intros Hp Hm HQ. apply holds_update.
  destruct (popped_step a a1 a2 (set_scopes (tail (an_scopes a2)) a2) Hp Hm) as (H1 & H2 & H3); [done|by apply HQ].
Qed.

(** A name is defined in the innermost scope. *)
Lemma lookup_define name b scope scopes n :
  bt_sorted scope ->
  lookup_scopes n (bt_insert name b scope :: scopes)
  = if bool_decide (name = n) then Some b else lookup_scopes n (scope :: scopes).
Proof.
  intros Hs. simpl. rewrite bt_get_insert by done. case_bool_decide as D; case_decide as C.
  - done.
  - subst. destruct C. by apply cmp_eq_iff.
  - apply cmp_eq_iff in C. congruence.
  - done.
Qed.

Lemma holds_define name t span kind top a (Q : nat -> Analyzer -> Prop) :
  inv a -> ty_ok a t ->
  (forall id a', moves a a' -> (forall gamma x, agrees gamma x a -> agrees ((name, tr t) :: gamma) x a') -> Q id a') ->
  holds (define_symbol name t span kind top) a Q.
Proof.
  intros Ha Ht HQ. apply holds_bind, holds_analyzer, holds_bind, holds_update, holds_bind, holds_update. simpl.
  destruct (an_scopes a) as [|scope scopes] eqn:Es; [done|].
  apply holds_bind, holds_update, holds_accept, HQ.
  - destruct Ha as [W A S E B]. rewrite Es in S. inversion S as [|? ? [S1 S2] S']; subst. split; [|done|intros [G1 G2 G3]; by split|done|done|simpl; by rewrite Es].
    split; try done. simpl. constructor; [|done]. split; [by apply bt_insert_sorted|].
    apply Forall_forall. intros [n u] [[= -> ->]|Hin]%list_elem_of_In%bt_insert_In; [done|].
    rewrite Forall_forall in S2. apply (S2 (n, u)). by rewrite list_elem_of_In.
  - intros gamma x [Hc Hx]. split; [|done]. intros n. cbn [an_scopes set_scopes].
    destruct Ha as [W A S E B]. rewrite Es in S. inversion S as [|? ? [S1 S2] S']; subst.
    rewrite lookup_define by done. simpl. case_bool_decide; [done|]. rewrite Hc, Es. done.
Qed.

(** ** Declared types *)

Lemma annotation_tr an : tr (annotation_type an) = annotation_tree an.
Proof. destruct (annotation_closed an) as (_ & H1 & H2). by apply closed_tree. Qed.

Lemma holds_declared annotation a (Q : InferType -> Analyzer -> Prop) :
  inv a -> (forall t a', step a a' -> ty_ok a' t -> respects annotation (tr t) -> Q t a') ->
  holds (declared_type annotation) a Q.
Proof.
  intros Ha HQ. destruct annotation as [an|]; simpl.
  - apply holds_accept, HQ; [known|by apply closed_ok, annotation_closed|apply annotation_tr].
  - apply holds_new_type; [done|]. intros t a' St Ht. by apply HQ.
Qed.

Lemma holds_declareds parameters a (Q : list InferType -> Analyzer -> Prop) :
  inv a ->
  (forall ts a', step a a' -> Forall (ty_ok a') ts -> parameter_types_ok parameters (map tr ts) -> Q ts a') ->
  holds (declared_types parameters) a Q.
Proof.
  revert a Q. induction parameters as [|p ps IH]; intros a Q Ha HQ; simpl.
  - apply holds_accept, HQ; [known|done|constructor].
  - apply holds_bind, holds_declared; [done|]. intros t a1 S1 Ht Hr. apply holds_bind, IH; [known|].
    intros ts a2 S2 Hts Hps. apply holds_accept, HQ; [known|by constructor; [known|]|by constructor].
Qed.

(** ** Names *)

Definition first_effect (effects : list Effect) : list Effect := match effects with [] => [] | e :: _ => [e] end.

Lemma function_type_ok a ps r e :
  Forall (ty_ok a) ps -> ty_ok a r -> (e < length (effect_definitions (an_inference a)))%nat ->
  ty_ok a (IFunction ps r e).
Proof.
  intros Hps Hr He. rewrite Forall_forall in Hps. split.
  - apply solid_function. split; [|apply Hr]. apply Forall_forall. intros p Hp. by apply Hps.
  - split.
    + intros v [(p & Hp & Hv)|Hv]%elem_of_function_vars; [by apply (Hps p Hp)|by apply Hr].
    + intros v Hv. apply elem_of_function_effects in Hv as [->|[(p & Hp & Hv)|Hv]];
        [done|by apply (Hps p Hp)|by apply Hr].
Qed.

Lemma holds_function_type ps r effects a (Q : InferType -> Analyzer -> Prop) :
  inv a -> Forall (ty_ok a) ps -> ty_ok a r ->
  (forall e a', step a a' -> ty_ok a' (IFunction ps r e) ->
     (good a' -> forall x, x ∈ first_effect effects -> x ∈ (effects_value rho e).1) -> Q (IFunction ps r e) a') ->
  holds (function_type ps r effects) a Q.
Proof.
  intros Ha Hps Hr HQ. apply holds_bind, holds_new_effect; [done|]. intros e a1 S1 He.
  assert (ty_ok a1 (IFunction ps r e)) as Hf.
  { apply function_type_ok; [eapply Forall_impl; [exact Hps|intros; known]|known|done]. }
  apply holds_bind. destruct effects as [|y effects]; simpl.
  - apply holds_accept, holds_accept, HQ; [done|done|]. by intros _ x Hx%elem_of_nil.
  - apply holds_define_effect; [known|done|]. intros a2 S2 Hw. apply holds_accept, HQ; [known|known|].
    intros Hg x Hx. apply (Hw Hg). done.
Qed.

Lemma holds_constrained span kind a (Q : InferType -> Analyzer -> Prop) :
  inv a ->
  (forall t a', step a a' -> ty_ok a' t -> (good a' -> constraint_holds (mkConstraint t span kind)) -> Q t a') ->
  holds (constrained_type span kind) a Q.
Proof.
  intros Ha HQ. apply holds_bind, holds_new_type; [done|]. intros t a1 S1 Ht.
  apply holds_bind, holds_require; [known|]. intros a2 S2 HC. apply holds_accept, HQ; known.
Qed.

Lemma closed_ground t : solid t -> type_variables t = [] -> type_effects t = [] -> forall a, ty_ok a t.
Proof. intros. by apply closed_ok. Qed.

(** Types without variables, and types made of known ones. *)
Ltac ground :=
  repeat match goal with
  | |- Forall _ [] => constructor
  | |- Forall _ (_ :: _) => constructor
  | |- ty_ok _ _ => first [solve [known] | apply closed_ground; [vm_compute; repeat (split || constructor)|reflexivity|reflexivity]]
  end.

Lemma option_ok a t : ty_ok a t -> ty_ok a (IOption t).
Proof. done. Qed.

Lemma list_ok a t : ty_ok a t -> ty_ok a (IList t).
Proof. done. Qed.

Lemma result_ok_type a t u : ty_ok a t -> ty_ok a u -> ty_ok a (IResult t u).
Proof.
  intros [S1 [A1 A2]] [S2 [B1 B2]]. split; [done|].
  split; simpl; intros v [Hv|Hv]%elem_of_app; auto.
Qed.

Lemma function_has b d e ps r effects ev :
  builtin_function_tree b d e = (ps, r, effects) -> b <> BiNone -> b <> BiJsonDecode ->
  (forall x, x ∈ effects -> x ∈ ev.1) -> (b = BiJsonEncode -> data_tree d = true) ->
  builtin_has b (TFunction ps r ev).
Proof.
  intros E Hn Hd He Hj. exists d, e. rewrite E. destruct b; try done; exists ev.1, ev.2; by destruct ev.
Qed.

Lemma holds_builtin b span a (Q : InferType -> Analyzer -> Prop) :
  inv a ->
  (forall t a', step a a' -> ty_ok a' t -> (good a' -> b <> BiJsonDecode -> builtin_has b (tr t)) -> Q t a') ->
  holds (builtin_type b span) a Q.
Proof.
  intros Ha HQ.
  assert (forall a1 d e ps r effects, step a a1 -> Forall (ty_ok a1) ps -> ty_ok a1 r ->
            builtin_function_tree b d e = (map tr ps, tr r, first_effect effects) -> b <> BiNone ->
            (good a1 -> b = BiJsonEncode -> data_tree d = true) -> holds (function_type ps r effects) a1 Q) as HF.
  { intros a1 d e ps r effects S1 Hps Hr Ht Hn Hj. apply holds_function_type; [known|done|done|].
    intros f a2 S2 Hok He. apply HQ; [known|done|]. intros Hg Hd.
    eapply function_has; [exact Ht|done|done|by apply He|]. apply Hj. known. }
  destruct b; cbn [builtin_type];
    try (apply (HF a unit_tree unit_tree); [known|ground|ground|reflexivity|done|done]).
  - apply holds_bind, holds_constrained; [done|]. intros t a1 S1 Ht HC. apply (HF a1 (tr t) unit_tree); [done|ground|ground|reflexivity|done|done].
  - apply holds_bind, holds_constrained; [done|]. intros t a1 S1 Ht HC. apply (HF a1 (tr t) unit_tree); [done|ground|ground|reflexivity|done|done].
  - apply holds_bind, holds_constrained; [done|]. intros t a1 S1 Ht HC. apply (HF a1 (tr t) unit_tree); [done|ground|by apply option_ok|reflexivity|done|done].
  - apply holds_bind, holds_new_type; [done|]. intros t a1 S1 Ht. apply holds_accept, HQ; [done|done|].
    intros _ _. by exists (tr t), unit_tree.
  - apply holds_bind, holds_constrained; [done|]. intros t a1 S1 Ht HC. apply holds_bind, holds_new_type; [known|].
    intros u a2 S2 Hu. apply (HF a2 (tr t) (tr u)); [known|ground|apply result_ok_type; known|reflexivity|done|done].
  - apply holds_bind, holds_constrained; [done|]. intros u a1 S1 Hu HC. apply holds_bind, holds_new_type; [known|].
    intros t a2 S2 Ht. apply (HF a2 (tr t) (tr u)); [known|ground|apply result_ok_type; known|reflexivity|done|done].
  - apply holds_bind, holds_constrained; [done|]. intros t a1 S1 Ht HC. apply (HF a1 (tr t) unit_tree); [done|ground|ground|reflexivity|done|by intros Hg _; apply HC].
  - apply holds_bind, holds_constrained; [done|]. intros t a1 S1 Ht HC. apply holds_function_type; [known|ground|ground|].
    intros f a2 S2 Hok He. by apply HQ; [known| |].
Qed.

(** A name in scope, or a built-in. *)
Lemma lookup_scopes_ok a name b : inv a -> lookup_scopes name (an_scopes a) = Some b -> ty_ok a (sb_ty b).
Proof.
  intros [_ _ HS _ _]. induction HS as [|scope scopes [Hs Hf] _ IH]; simpl; [done|].
  destruct (bt_get name scope) as [b'|] eqn:E; [|done]. intros [= <-].
  apply bt_get_elem in E. rewrite Forall_forall in Hf. exact (Hf _ E).
Qed.

Lemma holds_lookup name span a (Q : InferType * ResolvedName -> Analyzer -> Prop) :
  inv a ->
  (forall t resolved a', step a a' -> ty_ok a' t ->
     (good a' -> resolved <> ResolvedBuiltin BiJsonDecode -> forall gamma x fs, agrees gamma x a' ->
        typed gamma x fs (mkExpression (EVariable name) span) (tr t)) ->
     Q (t, resolved) a') ->
  holds (lookup_name name span) a Q.
Proof.
  intros Ha HQ. apply holds_bind, holds_analyzer.
  destruct (lookup_scopes name (an_scopes a)) as [b|] eqn:E.
  - apply holds_accept, HQ; [known|by eapply lookup_scopes_ok|]. intros _ _ gamma x fs [Hc _].
    apply t_local. by rewrite Hc, E.
  - destruct (builtin_from_name name) as [b|] eqn:Eb; [|done].
    apply holds_bind, holds_builtin; [done|]. intros t a1 S1 Ht Hb. apply holds_accept, HQ; [done|done|].
    intros Hg Hr gamma x fs Ha1. eapply t_builtin; [|exact Eb|apply Hb; [done|congruence]].
    apply (agrees_step _ _ _ _ S1) in Ha1 as [Hc _]. by rewrite Hc, E.
Qed.

(** ** Patterns *)

Section Patterns.
Context (str_debug : string -> string) (steps : nat).

(** The type at a position has the family its payloads were made for. *)
Definition payloads_ok (types : list InferType) (t : InferType) (payloads : PositionPayloads) : Prop :=
  match payloads with
  | PayloadOption some => exists u, types !! some = Some u /\ tr t = TOption (tr u)
  | PayloadResult ok err =>
      exists u w, types !! ok = Some u /\ types !! err = Some w /\ tr t = TResult (tr u) (tr w)
  | PayloadList element list => tr t = TList (tr element) /\ tr list = TList (tr element)
  end.

Definition payload_types_ok (a : Analyzer) (payloads : option PositionPayloads) : Prop :=
  match payloads with
  | Some (PayloadList element list) => ty_ok a element /\ ty_ok a list
  | _ => True
  end.

Record positions_ok (a : Analyzer) (pp : PatternPositions) : Prop := {
  pos_length : length (pp_payloads pp) = length (pp_types pp);
  pos_types : Forall (ty_ok a) (pp_types pp);
  pos_lists : Forall (payload_types_ok a) (pp_payloads pp);
  pos_trees : good a -> forall i payloads t,
    pp_payloads pp !! i = Some (Some payloads) -> pp_types pp !! i = Some t -> payloads_ok (pp_types pp) t payloads;
}.

Lemma payloads_ok_app types more t payloads : payloads_ok types t payloads -> payloads_ok (types ++ more) t payloads.
Proof.
  destruct payloads; simpl; [intros (u & H1 & H2)|intros (u & w & H1 & H2 & H3)|done].
  - exists u. split; [by apply lookup_app_l_Some|done].
  - exists u, w. split; [by apply lookup_app_l_Some|]. split; [by apply lookup_app_l_Some|done].
Qed.

Lemma positions_step a a' pp : step a a' -> positions_ok a pp -> positions_ok a' pp.
Proof.
  intros St [P1 P2 P3 P4]. split; [done| | |].
  - eapply Forall_impl; [exact P2|]. intros; known.
  - eapply Forall_impl; [exact P3|]. intros [[]|]; simpl; [done|done|intros []; split; known|done].
  - intros Hg. apply P4. known.
Qed.

(** A position without payloads is added. *)
Lemma positions_add a pp t :
  ty_ok a t -> positions_ok a pp -> positions_ok a (fst (add_position t pp)).
Proof.
  intros Ht [P1 P2 P3 P4]. unfold add_position. split; simpl.
  - rewrite !length_app. simpl. lia.
  - apply Forall_app. split; [done|by apply Forall_singleton].
  - apply Forall_app. split; [done|by apply Forall_singleton].
  - intros Hg i payloads u Hi Hu. apply payloads_ok_app. apply lookup_app_Some in Hi as [Hi|[Hl Hi]].
    + apply (P4 Hg i); [done|]. rewrite lookup_app_l in Hu; [done|]. rewrite <- P1. by eapply lookup_lt_Some.
    + by apply list_lookup_singleton_Some in Hi as [_ ?].
Qed.

Lemma positions_new a t : ty_ok a t -> positions_ok a (new_positions t).
Proof.
  intros Ht. split; simpl; [done|by apply Forall_singleton|by apply Forall_singleton|].
  intros _ i payloads u Hi. by apply list_lookup_singleton_Some in Hi as [_ ?].
Qed.

(** The payloads of a position are set. *)
Lemma positions_set a pp i t payloads :
  pp_types pp !! i = Some t -> payload_types_ok a (Some payloads) ->
  (good a -> payloads_ok (pp_types pp) t payloads) -> positions_ok a pp ->
  positions_ok a (mkPositions (pp_types pp) (<[i := Some payloads]> (pp_payloads pp))).
Proof.
  intros Ht Hl Hp [P1 P2 P3 P4]. split; simpl; [by rewrite length_insert|done|by apply Forall_insert|].
  intros Hg j own u Hj Hu. destruct (decide (j = i)) as [->|Hne].
  - apply list_lookup_insert_Some in Hj as [(_ & [= ->] & _)|(? & _)]; [|done]. simplify_eq. by apply Hp.
  - rewrite list_lookup_insert_ne in Hj by done. by apply (P4 Hg j).
Qed.

Lemma holds_expect_match l r span family a (Q : unit -> Analyzer -> Prop) :
  inv a -> ty_ok a l -> ty_ok a r -> (forall a', step a a' -> (good a' -> tr l = tr r) -> Q tt a') ->
  holds (expect_match_type str_debug steps l r span family) a Q.
Proof.
  intros Ha Hl Hr HQ. apply holds_bind, holds_state. cbn beta zeta. case_match; [|done].
  apply holds_bind, holds_unify; [done|done|done|]. intros t a' St Ht HE. apply HQ; [done|].
  intros Hg. destruct (HE Hg). congruence.
Qed.

Lemma holds_expect_pattern l r family nested span a (Q : unit -> Analyzer -> Prop) :
  inv a -> ty_ok a l -> ty_ok a r -> (forall a', step a a' -> (good a' -> tr l = tr r) -> Q tt a') ->
  holds (expect_pattern_type str_debug steps l r family nested span) a Q.
Proof.
  intros Ha Hl Hr HQ. destruct nested as [p|]; [|by apply holds_expect_match].
  apply holds_bind, holds_state. cbn beta zeta. case_match; [|done].
  apply holds_bind, holds_unify; [done|done|done|]. intros t a' St Ht HE. apply HQ; [done|].
  intros Hg. destruct (HE Hg). congruence.
Qed.

(** New positions with the type they stand for. *)
Lemma holds_position_payloads family pp a (Q : InferType * PositionPayloads * string * PatternPositions -> Analyzer -> Prop) :
  inv a -> positions_ok a pp ->
  (forall expected payloads name pp' a', step a a' -> positions_ok a' pp' -> ty_ok a' expected ->
     payloads_family payloads = family -> payload_types_ok a' (Some payloads) ->
     (forall t, tr t = tr expected -> payloads_ok (pp_types pp') t payloads) ->
     pp_types pp `prefix_of` pp_types pp' -> Q (expected, payloads, name, pp') a') ->
  holds (position_payloads family pp) a Q.
Proof.
  intros Ha Hp HQ. destruct family; simpl.
  - apply holds_bind, holds_new_type; [done|]. intros u a1 S1 Hu. apply holds_accept, HQ; try done.
    + apply (positions_add a1 pp u Hu). by eapply positions_step.
    + intros t Ht. exists u. split; [|done]. simpl. by rewrite lookup_app_r, Nat.sub_diag by done.
    + by eexists.
  - apply holds_bind, holds_new_type; [done|]. intros u a1 S1 Hu. apply holds_bind, holds_new_type; [known|].
    intros w a2 S2 Hw. apply holds_accept, HQ; try done.
    + known.
    + apply (positions_add a2 (fst (add_position u pp)) w Hw), (positions_add a2 pp u); [known|]. eapply positions_step; [|exact Hp]. known.
    + apply result_ok_type; known.
    + intros t Ht. exists u, w. simpl. rewrite length_app. simpl. split; [|split; [|done]].
      * apply lookup_app_l_Some. by rewrite lookup_app_r, Nat.sub_diag by done.
      * rewrite lookup_app_r by (rewrite length_app; simpl; lia).
        by rewrite length_app, Nat.sub_diag.
    + simpl. exists ([u] ++ [w]). by rewrite app_assoc.
  - apply holds_bind, holds_new_type; [done|]. intros u a1 S1 Hu. apply holds_accept, HQ; try done.
    by eapply positions_step.
Qed.

Lemma holds_type_position pp i family p nested span a (Q : PositionPayloads * PatternPositions -> Analyzer -> Prop) :
  inv a -> positions_ok a pp ->
  (forall payloads pp' t a', step a a' -> positions_ok a' pp' -> pp_types pp `prefix_of` pp_types pp' ->
     payloads_family payloads = family -> pp_types pp !! i = Some t -> payload_types_ok a' (Some payloads) ->
     (good a' -> payloads_ok (pp_types pp') t payloads) -> Q (payloads, pp') a') ->
  holds (type_position str_debug steps pp i family p nested span) a Q.
Proof.
  intros Ha Hp HQ. unfold type_position.
  destruct (pp_payloads pp !! i) as [typed|] eqn:Ei, (pp_types pp !! i) as [t|] eqn:Et; try done.
  destruct (reused_payloads typed family) as [payloads|] eqn:Er.
  - unfold reused_payloads in Er. destruct typed as [own|]; [|done]. case_bool_decide; [|done]. injection Er as ->.
    eapply holds_accept, HQ; [known|done|done|done|done| |].
    + pose proof (pos_lists _ _ Hp) as HL. rewrite Forall_forall in HL. by apply (HL (Some payloads)), list_elem_of_lookup_2 with i.
    + intros Hg. by apply (pos_trees _ _ Hp Hg i).
  - apply holds_bind, holds_position_payloads; [done|done|].
    intros expected payloads name pp1 a1 S1 Hp1 He Hf Hl Hpay Hpre.
    assert (pp_types pp1 !! i = Some t) as Et1 by (by eapply prefix_lookup_Some).
    assert (ty_ok a1 t) as Ht by (pose proof (pos_types _ _ Hp1) as HT; rewrite Forall_forall in HT; by apply HT, list_elem_of_lookup_2 with i).
    apply holds_bind, holds_expect_pattern; [known|done|done|]. intros a2 S2 HE.
    assert (payload_types_ok a2 (Some payloads)) as Hl2.
    { destruct payloads; simpl in *; [done|done|]. destruct Hl. split; known. }
    assert (good a2 -> payloads_ok (pp_types pp1) t payloads) as Hok by (intros Hg; by apply Hpay, HE).
    eapply holds_accept, HQ; [known| |done|done|done|done|done].
    apply (positions_set a2 pp1 i t payloads); [done|done|done|]. by eapply positions_step.
Qed.

(** The names a pattern binds, innermost first. *)
Definition bound_context (bs : list PatternBinding) : Context :=
  rev (map (fun b => (bound_name b, tr (bound_ty b))) bs).

Lemma binder_name part : match pattern_kind part with PBinder name => name | _ => DISCARD end = binder_of part.
Proof. by destruct part as [[]]. Qed.

Lemma holds_pattern p i nested pp span a (Q : list PatternBinding * PatternPositions -> Analyzer -> Prop) :
  inv a -> positions_ok a pp -> (exists path, pattern_path p = Ok path) ->
  (forall bs pp' t a', step a a' -> positions_ok a' pp' -> pp_types pp `prefix_of` pp_types pp' ->
     pp_types pp !! i = Some t -> Forall (fun b => ty_ok a' (bound_ty b)) bs ->
     (good a' -> pattern_types (tr t) p (bound_context bs)) -> Q (bs, pp') a') ->
  holds (pattern_bindings_from str_debug steps p i nested pp span) a Q.
Proof.
  revert i nested pp a Q. induction p as [k sp IH] using pattern_path_ind.
  intros i nested pp a Q Ha Hp [path Hpath] HQ. destruct k as [name| |v payload| |head tail]; cbn [pattern_bindings_from].
  - destruct (pp_types pp !! i) as [t|] eqn:Et; [|done]. eapply holds_accept, HQ; [known|done|done|done| |intros _; constructor].
    apply Forall_singleton. pose proof (pos_types _ _ Hp) as HT. rewrite Forall_forall in HT. by apply HT, list_elem_of_lookup_2 with i.
  - destruct (pp_types pp !! i) as [t|] eqn:Et; [|done]. eapply holds_accept, HQ; [known|done|done|done| |intros _; constructor].
    apply Forall_singleton. pose proof (pos_types _ _ Hp) as HT. rewrite Forall_forall in HT. by apply HT, list_elem_of_lookup_2 with i.
  - apply holds_bind, holds_type_position; [done|done|]. intros payloads pp1 t a1 S1 Hp1 Hpre Hf Ht Hl Hpay. cbn beta iota.
    destruct payload as [q|].
    + destruct (payload_position payloads v) as [j|] eqn:Ej; [|done]. simpl in Hpath.
      assert (exists path, pattern_path q = Ok path) as Hq.
      { destruct v; try done; destruct (pattern_path q) as [path'|]; try done; by exists path'. }
      eapply (IH v q eq_refl); [known|done|done|].
      intros bs pp2 u a2 S2 Hp2 Hpre2 Hu Hbs Hpt. apply (HQ bs pp2 t); [known|done|by etrans|done|done|].
      intros Hg. specialize (Hpt Hg). specialize (Hpay (step_good _ _ S2 Hg)).
      destruct payloads, v; simplify_eq/=.
      * destruct Hpay as (w & Hw & ->). simplify_eq. by constructor.
      * destruct Hpay as (w & w' & Hw & Hw' & ->). simplify_eq. by constructor.
      * destruct Hpay as (w & w' & Hw & Hw' & ->). simplify_eq. by constructor.
    + eapply holds_accept, HQ; [known|done|done|done|done|]. intros Hg. specialize (Hpay Hg). destruct v; try done.
      destruct payloads; try done. destruct Hpay as (w & Hw & ->). constructor.
  - apply holds_bind, holds_type_position; [done|done|]. intros payloads pp1 t a1 S1 Hp1 Hpre Hf Ht Hl Hpay.
    eapply holds_accept, HQ; [known|done|done|done|done|]. intros Hg. specialize (Hpay Hg).
    destruct payloads; try done. destruct Hpay as [-> _]. constructor.
  - apply holds_bind, holds_type_position; [done|done|]. intros payloads pp1 t a1 S1 Hp1 Hpre Hf Ht Hl Hpay. cbn beta iota.
    destruct payloads as [| |element list]; try done. destruct (same_binder head tail); [done|].
    eapply holds_accept, HQ; [known|done|done|done| |].
    + destruct Hl. by repeat (apply Forall_cons; split).
    + intros Hg. destruct (Hpay Hg) as [-> Ht2]. unfold bound_context, part_binding. simpl.
      rewrite !binder_name, Ht2. constructor.
Qed.
End Patterns.
End Valuation.
