(* ===== verification/Soundness.v ===== *)
(** * What analysis accepts is typed

    The walk of [Analysis] over a program against the rules of [Typing], by
    induction on its fuel: what an expression, block or statement is given
    types it under every valuation that is good at the end. *)

From S2P Require Import Prelude BTree Syntax Sorting Types Parser Infer InferWf OccursFacts TypeTrees.
From S2P Require Import Patterns PatternFacts Construction Capability Builtins Normalize Analyzer Requirements Analysis.
From S2P Require Import UnifyParts UnifyVars Typing AnalyzerFacts.

(** ** Matches with arms *)

(** The parser accepts no match without arms, which analysis would give any
    type. *)
Fixpoint armed (e : Expression) : bool :=
  match e with
  | mkExpression kind _ =>
      match kind with
      | ELiteral _ | EUnit | EVariable _ => true
      | EInterpolation parts =>
          forallb (fun part => match part with PartText _ _ => true | PartHole value _ => armed value end) parts
      | EList elements => forallb armed elements
      | EEntryList entries => forallb (fun '(mkListEntry key value _) => armed key && armed value) entries
      | ERecord fields => forallb (fun '(mkRecordField _ value _) => armed value) fields
      | EConstruct _ _ fields => forallb (fun '(mkConstructField _ _ value _) => armed value) fields
      | EFieldAccess value _ => armed value
      | EBlock block => armed_block block
      | EIf condition consequent alternative => armed condition && armed_block consequent && armed alternative
      | EFunction _ _ body => armed_block body
      | ECall callee arguments => armed callee && forallb armed arguments
      | EPropagate operand _ => armed operand
      | EMatch subject arms =>
          armed subject && negb (Nat.eqb (length arms) 0)
          && forallb (fun '(mkMatchArm _ value _) => armed value) arms
      | EUnary _ operand => armed operand
      | EBinary lhs _ rhs => armed lhs && armed rhs
      end
  end
with armed_block (b : Block) : bool :=
  match b with
  | mkBlock statements tail _ =>
      forallb armed_statement statements && match tail with Some e => armed e | None => true end
  end
with armed_statement (s : Statement) : bool :=
  match s with
  | mkStatement kind _ =>
      match kind with
      | SLet _ _ value => armed value
      | SLetElse _ _ value _ (mkVariantArm _ _ fallback _) => armed value && armed fallback
      | SFunction _ _ _ body _ | SWebhook _ _ _ body _ | SQueueConsumer _ _ _ _ _ body _
      | SScheduleHandler _ _ _ _ _ body _ => armed_block body
      | SExpression e => armed e
      end
  end.

Section Soundness.
Context (rho : Valuation).
Context (str_debug : string -> string) (url_parse : string -> option Url) (steps : nat).

Abbreviation tr := (tree_of rho).
Abbreviation good := (good rho).
Abbreviation step := (step rho).
Abbreviation moves := (moves rho).
Abbreviation agrees := (agrees rho).
Abbreviation within := (within rho).
Abbreviation unify := (unify str_debug steps).
Abbreviation holds_new_type := (AnalyzerFacts.holds_new_type rho).
Abbreviation holds_new_effect := (AnalyzerFacts.holds_new_effect rho).
Abbreviation holds_require := (AnalyzerFacts.holds_require rho).
Abbreviation holds_define_effect := (AnalyzerFacts.holds_define_effect rho).
Abbreviation holds_record := (AnalyzerFacts.holds_record rho).
Abbreviation holds_quiet := (AnalyzerFacts.holds_quiet rho).
Abbreviation holds_declared := (AnalyzerFacts.holds_declared rho).
Abbreviation holds_declareds := (AnalyzerFacts.holds_declareds rho).
Abbreviation holds_builtin := (AnalyzerFacts.holds_builtin rho).
Abbreviation holds_lookup := (AnalyzerFacts.holds_lookup rho).
Abbreviation holds_pop := (AnalyzerFacts.holds_pop rho).
Abbreviation holds_define := (AnalyzerFacts.holds_define rho).
Abbreviation holds_unify := (AnalyzerFacts.holds_unify rho str_debug steps).
Abbreviation holds_bind_target := (AnalyzerFacts.holds_bind_target rho str_debug steps).
Abbreviation holds_require_field := (AnalyzerFacts.holds_require_field rho str_debug).
Abbreviation holds_pattern := (AnalyzerFacts.holds_pattern rho str_debug steps).

(** ** Accepted expressions and blocks *)

Definition gives (a : Analyzer) (e : Expression) (info : ExpressionInfo) : Prop :=
  ty_ok a (info_ty info)
  /\ (good a -> forall gamma x fs, agrees gamma x a -> within (info_effects info) fs ->
        typed gamma x fs e (tr (info_ty info))).

Definition gives_block (a : Analyzer) (b : Block) (info : ExpressionInfo) : Prop :=
  ty_ok a (info_ty info)
  /\ (good a -> forall gamma x fs, agrees gamma x a -> within (info_effects info) fs ->
        typed_block gamma x fs b (tr (info_ty info))).

Definition sound (m : check ExpressionInfo) (e : Expression) : Prop :=
  forall a Q, inv a -> (forall info a', step a a' -> gives a' e info -> Q info a') -> holds m a Q.

Definition sound_block (m : check ExpressionInfo) (b : Block) : Prop :=
  forall a Q, inv a -> (forall info a', step a a' -> gives_block a' b info -> Q info a') -> holds m a Q.

Lemma gives_step a a' e info : step a a' -> gives a e info -> gives a' e info.
Proof.
  intros St [H1 H2]. split; [by eapply step_ty_ok|]. intros Hg gamma x fs Ha Hw.
  apply H2; [by eapply step_good|by apply (agrees_step rho gamma x a a' St)|done].
Qed.

Lemma gives_block_step a a' b info : step a a' -> gives_block a b info -> gives_block a' b info.
Proof.
  intros St [H1 H2]. split; [by eapply step_ty_ok|]. intros Hg gamma x fs Ha Hw.
  apply H2; [by eapply step_good|by apply (agrees_step rho gamma x a a' St)|done].
Qed.

Ltac known := eauto using step_refl, step_trans, step_inv, step_ty_ok, step_good, gives_step, gives_block_step.

(** ** The question operator *)

Lemma resolve_solid a t : inv a -> ty_ok a t ->
  match resolve_head (an_inference a) t with
  | IOption u => ty_ok a u /\ (good a -> tr t = TOption (tr u))
  | IResult u w => ty_ok a u /\ ty_ok a w /\ (good a -> tr t = TResult (tr u) (tr w))
  | IFunction ps r e =>
      Forall (ty_ok a) ps /\ ty_ok a r /\ (good a -> tr t = TFunction (map tr ps) (tr r) (effects_value rho e))
  | IVariable v => ty_ok a (IVariable v) /\ (good a -> tr t = tr (IVariable v))
  | _ => True
  end.
Proof.
  intros Ha Ht. pose proof (wf_wf_core _ (inv_wf _ Ha)) as Hc.
  assert (forall ps r e, ty_ok a (IFunction ps r e) -> Forall (ty_ok a) ps /\ ty_ok a r) as HF.
  { intros ps r e [[S1 S2]%solid_function [C1 C2]]. split.
    - apply Forall_forall. intros p Hp. rewrite Forall_forall in S1. split; [by apply S1|].
      split; intros v Hv; [apply C1, elem_of_function_vars|apply C2, elem_of_function_effects]; eauto.
    - split; [done|]. split; intros v Hv; [apply C1, elem_of_function_vars|apply C2, elem_of_function_effects]; eauto. }
  assert (forall u w, ty_ok a (IResult u w) -> ty_ok a u /\ ty_ok a w) as HR.
  { intros u w [[S1 S2] [C1 C2]]. split; (split; [done|]); split; intros v Hv;
      (apply C1 || apply C2); simpl; apply elem_of_app; auto. }
  destruct t as [| | | | | | | | | | | | | |u|u w|ps r e|v]; try done; cbn [resolve_head].
  - destruct (HR u w Ht). done.
  - destruct (HF ps r e Ht). done.
  - set (root := root_variable (an_inference a) v).
    assert (good a -> tr (IVariable v) = type_value rho root) as Hr by (intros [(Hs & _) _ _]; by apply Hs).
    destruct (substitutions (an_inference a) !! root) as [t|] eqn:Es; simpl default.
    + destruct (wf_binding _ Hc _ _ Es) as (X1 & X2 & X3).
      assert (good a -> instance rho t (type_value rho root)) as Hi by (intros [(_ & Hb & _) _ _]; by apply (Hb root)).
      destruct t as [| | | | | | | | | | | | | |u|u w|ps r e|]; try done.
      * split; [done|]. intros Hg. rewrite Hr by done. by apply Hi.
      * destruct (HR u w); [done|]. split; [done|]. split; [done|]. intros Hg. rewrite Hr by done. by apply Hi.
      * destruct (HF ps r e); [done|]. split; [done|]. split; [done|]. intros Hg. rewrite Hr by done. by apply Hi.
    + split; [|done]. split; [done|]. apply variable_scope, root_lt; [apply Hc|by apply scope_variable, Ht].
Qed.

(** What [?] exits with and what it gives. *)
Definition question_tree (x : option Tree) (operand value : Tree) : Prop :=
  (exists r, x = Some (TOption r) /\ operand = TOption value)
  \/ (exists r e, x = Some (TResult r e) /\ operand = TResult value e).

Lemma holds_propagate_type t question a (Q : InferType -> Analyzer -> Prop) :
  inv a -> ty_ok a t ->
  (forall u a', step a a' -> ty_ok a' u ->
     (good a' -> forall x, exit_agrees rho x a -> question_tree x (tr t) (tr u)) -> Q u a') ->
  holds (propagate_type str_debug steps t question) a Q.
Proof.
  intros Ha Ht HQ. apply holds_bind, holds_analyzer. unfold current_exit.
  destruct (an_exits a) as [|[p|refusal] exits] eqn:Ex; [done| |done].
  assert (exit_ok a (Propagates p)) as Hok by (destruct Ha as [_ _ _ E _]; rewrite Ex in E; by inversion E).
  assert (forall x, exit_agrees rho x a -> match pr_family p, pr_error p with
    | FamilyOption, _ => exists r, x = Some (TOption r)
    | FamilyResult, Some error => exists r, x = Some (TResult r (tr error))
    | FamilyResult, None => False end) as HX by (intros x [HX _]; by rewrite Ex in HX).
  pose proof (resolve_solid a t Ha Ht) as HR. simpl in Hok.
  destruct (pr_family p) eqn:Ef.
  - destruct (resolve_head (an_inference a) t) as [| | | | | | | | | | | | | |u|u w|ps r e|v] eqn:Er; try done.
    + destruct HR as [Hu Htr]. apply holds_accept, HQ; [known|done|]. intros Hg x Hx. left.
      destruct (HX x Hx) as [r ->]. exists r. split; [done|by apply Htr].
    + destruct (pr_error p); apply holds_bind, holds_new_type; try done; intros u a1 S1 Hu;
        (apply holds_bind, holds_accept, holds_bind, holds_unify; [known|done|known|]); intros w a2 S2 Hw HE;
        (apply holds_accept, HQ; [known|known|]); intros Hg x Hx; left; destruct (HX x Hx) as [r ->]; exists r;
        (split; [done|]); destruct (HE Hg) as [E1 E2]; rewrite E2, <- E1; done.
  - destruct (pr_error p) as [error|] eqn:Ee; [|done].
    destruct (resolve_head (an_inference a) t) as [| | | | | | | | | | | | | |u|u w|ps r e|v] eqn:Er; try done.
    + destruct HR as (Hu & Hw & Htr). apply holds_bind, holds_require; [done|]. intros a1 S1 _.
      apply holds_bind, holds_map_rejection, holds_unify; [known|known|known|]. intros w' a2 S2 Hw' HE.
      apply holds_accept, HQ; [known|known|]. intros Hg x Hx. right. destruct (HX x Hx) as [r ->].
      exists r, (tr error). split; [done|]. destruct (HE Hg) as [E1 E2]. rewrite Htr by known. congruence.
    + apply holds_bind, holds_new_type; [done|]. intros u a1 S1 Hu.
      apply holds_bind, holds_bind, holds_require; [known|]. intros a2 S2 _. apply holds_accept.
      apply holds_bind, holds_unify; [known|apply result_ok_type; known|known|]. intros w a3 S3 Hw HE.
      apply holds_accept, HQ; [known|known|]. intros Hg x Hx. right. destruct (HX x Hx) as [r ->].
      exists r, (tr error). split; [done|]. destruct (HE Hg) as [E1 E2]. rewrite E2, <- E1. done.
Qed.

(** ** The functions between [expression] and [block] *)

Section Contents.
Context (expression : Expression -> check ExpressionInfo) (block : Block -> check ExpressionInfo).
Context (He : forall e, armed e = true -> sound (expression e) e).
Context (Hb : forall b, armed_block b = true -> sound_block (block b) b).

Lemma structural_sound e : armed e = true -> sound (structural_operand expression e) e.
Proof.
  intros Harm a Q Ha HQ. apply holds_bind, (He e Harm); [done|]. intros info a1 S1 Hi.
  apply holds_bind, holds_require; [known|]. intros a2 S2 _. apply holds_accept, HQ; known.
Qed.

Lemma list_elements_sound t es effects a (Q : InferEffects -> Analyzer -> Prop) :
  forallb armed es = true -> inv a -> ty_ok a t ->
  (forall effects' a', step a a' ->
     (good a' -> forall gamma x fs, agrees gamma x a' -> within effects' fs ->
        within effects fs /\ Forall (fun e => typed gamma x fs e (tr t)) es) -> Q effects' a') ->
  holds (Analysis.list_elements str_debug steps expression t es effects) a Q.
Proof.
  revert effects a Q. induction es as [|e es IH]; intros effects a Q Harm Ha Ht HQ; simpl.
  - apply holds_accept, HQ; [known|]. intros _ gamma x fs _ Hw. by split.
  - apply andb_prop in Harm as [He1 Hes].
    apply holds_bind, structural_sound; [done|done|]. intros info a1 S1 Hi.
    apply holds_bind, holds_unify; [known|known|apply Hi|]. intros u a2 S2 Hu HE.
    apply IH; [done|known|known|]. intros effects' a3 S3 HT. apply HQ; [known|].
    intros Hg gamma x fs Hag Hw. destruct (HT Hg gamma x fs Hag Hw) as [[Hw1 Hw2]%within_union Hts].
    split; [done|]. constructor; [|done]. assert (gives a3 e info) as [_ HI] by known.
    assert (good a2) as Hg2 by known. destruct (HE Hg2) as [E1 E2]. rewrite E1, <- E2. by apply HI.
Qed.

Lemma list_sound es span : forallb armed es = true ->
  sound (list_expression str_debug steps expression es) (mkExpression (EList es) span).
Proof.
  intros Harm a Q Ha HQ. apply holds_bind, holds_new_type; [done|]. intros t a1 S1 Ht.
  apply holds_bind, list_elements_sound; [done|known|done|]. intros effects a2 S2 HT.
  apply holds_accept, HQ; [known|]. split; [simpl; known|]. intros Hg gamma x fs Hag Hw. apply t_list. by apply HT.
Qed.

Lemma holds_hole value t span a (Q : unit -> Analyzer -> Prop) :
  inv a -> ty_ok a t -> (forall a', step a a' -> (good a' -> tr t = str_tree) -> Q tt a') ->
  holds (unify_hole str_debug steps value t span) a Q.
Proof.
  intros Ha Ht HQ.
  assert (holds (unify IString t span "") a (fun _ => Q tt)) as H.
  { apply holds_unify; [done|by apply closed_ok|done|]. intros u a' St Hu HE. apply HQ; [done|]. intros Hg. destruct (HE Hg) as [E1 E2]. simpl in E1; congruence. }
  unfold holds, unify_hole, Analyzer.unify in *. by destruct (unify_inner span steps IString t (an_inference a)) as [[[] ?]|].
Qed.

Lemma interpolation_loop parts effects a (Q : ExpressionInfo -> Analyzer -> Prop) :
  forallb (fun part => match part with PartText _ _ => true | PartHole value _ => armed value end) parts = true ->
  inv a ->
  (forall effects' a', step a a' ->
     (good a' -> forall gamma x fs, agrees gamma x a' -> within effects' fs -> within effects fs
        /\ Forall (fun p => forall e sp, p = PartHole e sp -> typed gamma x fs e str_tree) parts) ->
     Q (mkInfo IString effects') a') ->
  holds (Analysis.interpolation str_debug steps expression parts effects) a Q.
Proof.
  revert effects a Q. induction parts as [|[text sp|value sp] parts IH]; intros effects a Q Harm Ha HQ; simpl in *.
  - apply holds_accept, HQ; [known|]. intros _ gamma x fs _ Hw. by split.
  - apply IH; [done|done|]. intros effects' a' St HT. apply HQ; [done|]. intros Hg gamma x fs Hag Hw.
    destruct (HT Hg gamma x fs Hag Hw). split; [done|]. by constructor.
  - apply andb_prop in Harm as [Hv Hparts]. apply holds_bind, (He value Hv); [done|]. intros info a1 S1 Hi.
    apply holds_bind, holds_hole; [known|apply Hi|]. intros a2 S2 HE. apply IH; [done|known|].
    intros effects' a3 S3 HT. apply HQ; [known|]. intros Hg gamma x fs Hag Hw.
    destruct (HT Hg gamma x fs Hag Hw) as [[Hw1 Hw2]%within_union Hts]. split; [done|]. constructor; [|done].
    intros e sp' [= <- <-]. assert (gives a3 value info) as [_ HI] by known. rewrite <- HE by known. by apply HI.
Qed.

Lemma interpolation_sound parts span :
  forallb (fun part => match part with PartText _ _ => true | PartHole value _ => armed value end) parts = true ->
  sound (Analysis.interpolation str_debug steps expression parts no_effects) (mkExpression (EInterpolation parts) span).
Proof.
  intros Harm a Q Ha HQ. apply interpolation_loop; [done|done|]. intros effects a1 S1 HT. apply HQ; [done|].
  split; [by apply closed_ok|]. intros Hg gamma x fs Hag Hw. apply t_interpolation. by apply HT.
Qed.

(** A part of an entry is a text. *)
Lemma entry_part_sound e context effects a (Q : InferEffects -> Analyzer -> Prop) :
  armed e = true -> inv a ->
  (forall effects' a', step a a' ->
     (good a' -> forall gamma x fs, agrees gamma x a' -> within effects' fs ->
        within effects fs /\ typed gamma x fs e str_tree) -> Q effects' a') ->
  holds (entry_part str_debug steps expression e context effects) a Q.
Proof.
  intros Harm Ha HQ. apply holds_bind, structural_sound; [done|done|]. intros info a1 S1 Hi.
  apply holds_bind, holds_unify; [known|by apply closed_ok|apply Hi|]. intros u a2 S2 Hu HE.
  apply holds_accept, HQ; [known|]. intros Hg gamma x fs Hag [Hw1 Hw2]%within_union. split; [done|].
  assert (gives a2 e info) as [_ HI] by known. destruct (HE Hg) as [E1 E2]. simpl in E1.
  rewrite E1, <- E2. by apply HI.
Qed.

Lemma entry_list_loop entries effects a (Q : ExpressionInfo -> Analyzer -> Prop) :
  forallb (fun '(mkListEntry key value _) => armed key && armed value) entries = true -> inv a ->
  (forall effects' a', step a a' ->
     (good a' -> forall gamma x fs, agrees gamma x a' -> within effects' fs -> within effects fs
        /\ Forall (fun entry => forall key value sp, entry = mkListEntry key value sp ->
             typed gamma x fs key str_tree /\ typed gamma x fs value str_tree) entries) ->
     Q (mkInfo (IList entry_type) effects') a') ->
  holds (Analysis.entry_list str_debug steps expression entries effects) a Q.
Proof.
  revert effects a Q. induction entries as [|[key value sp] entries IH]; intros effects a Q Harm Ha HQ; simpl in *.
  - apply holds_accept, HQ; [known|]. intros _ gamma x fs _ Hw. by split.
  - apply andb_prop in Harm as [[Hk Hv]%andb_prop Hrest].
    apply holds_bind, entry_part_sound; [done|done|]. intros effects1 a1 S1 H1.
    apply holds_bind, entry_part_sound; [done|known|]. intros effects2 a2 S2 H2.
    apply IH; [done|known|]. intros effects' a3 S3 HT. apply HQ; [known|]. intros Hg gamma x fs Hag Hw.
    destruct (HT Hg gamma x fs Hag Hw) as [Hw2 Hts].
    assert (agrees gamma x a2) as Hag2 by (by apply (agrees_step rho _ _ a2 a3)).
    assert (agrees gamma x a1) as Hag1 by (by apply (agrees_step rho _ _ a1 a2)).
    destruct (H2 ltac:(known) gamma x fs Hag2 Hw2) as [Hw1 Hv2]. destruct (H1 ltac:(known) gamma x fs Hag1 Hw1) as [Hw0 Hk1].
    split; [done|]. constructor; [|done]. by intros k v s [= <- <- <-].
Qed.

Lemma entry_list_sound entries span :
  forallb (fun '(mkListEntry key value _) => armed key && armed value) entries = true ->
  sound (Analysis.entry_list str_debug steps expression entries no_effects) (mkExpression (EEntryList entries) span).
Proof.
  intros Harm a Q Ha HQ. apply entry_list_loop; [done|done|]. intros effects a1 S1 HT. apply HQ; [done|].
  split; [apply closed_ok; repeat (split || constructor)|]. intros Hg gamma x fs Hag Hw. apply t_entries. by apply HT.
Qed.

(** ** Records *)

Lemma zip_map_snd {A B C} (f : B -> C) (l : list A) (k : list B) :
  map (fun x => (fst x, f (snd x))) (zip l k) = zip l (map f k).
Proof. revert k. induction l as [|a l IH]; intros [|b k]; simpl; [done..|]. by rewrite IH. Qed.

Lemma record_loop fields types effects a (Q : ExpressionInfo -> Analyzer -> Prop) :
  forallb (fun '(mkRecordField _ value _) => armed value) fields = true -> inv a ->
  bt_sorted types -> Forall (fun f => ty_ok a (snd f)) types ->
  (forall own all effects' a', step a a' -> bt_sorted all -> Forall (fun f => ty_ok a' (snd f)) all ->
     all ≡ₚ zip (map record_field_name fields) own ++ types -> length own = length fields ->
     NoDup (map record_field_name fields) -> (forall n, n ∈ map record_field_name fields -> bt_get n types = None) ->
     (good a' -> forall gamma x fs, agrees gamma x a' -> within effects' fs -> within effects fs
        /\ Forall2 (fun f d => typed gamma x fs (record_field_value f) d) fields (map tr own)) ->
     Q (mkInfo (IRecord all false) effects') a') ->
  holds (Analysis.record_fields expression fields types effects) a Q.
Proof.
  revert types effects a Q. induction fields as [|[name value sp] fields IH];
    intros types effects a Q Harm Ha Hs Hty HQ; simpl in *.
  - apply (holds_accept _ a), (HQ [] types effects a); [known|done|done|done|done|constructor|by intros n Hn%elem_of_nil|].
    intros _ gamma x fs _ Hw. by split.
  - apply andb_prop in Harm as [Hv Hrest]. apply holds_bind, structural_sound; [done|done|]. intros info a1 S1 Hi.
    destruct (bt_get name types) as [t|] eqn:En; [done|]. cbn [is_some].
    apply IH; [done|known|by apply bt_insert_sorted| |].
    { apply Forall_forall. intros [n u] [[= -> ->]|Hin]%list_elem_of_In%bt_insert_In; [apply Hi|].
      rewrite Forall_forall in Hty. eapply step_ty_ok; [exact S1|]. apply (Hty (n, u)). by rewrite list_elem_of_In. }
    intros own all effects' a2 S2 Hsa Hta Hp Hl Hnd Hfr HT.
    assert (name ∉ map record_field_name fields) as Hnn.
    { intros Hin%Hfr. rewrite bt_get_insert in Hin by done. rewrite decide_True in Hin; [done|by apply cmp_eq_iff]. }
    apply (HQ (info_ty info :: own) all effects' a2); try done.
    + known.
    + rewrite Hp, bt_insert_fresh by done. simpl. by rewrite Permutation_middle.
    + simpl. by rewrite Hl.
    + by constructor.
    + intros n [->|Hin]%elem_of_cons; [done|]. specialize (Hfr n Hin). rewrite bt_get_insert in Hfr by done.
      case_decide; done.
    + intros Hg gamma x fs Hag Hw. destruct (HT Hg gamma x fs Hag Hw) as [[Hw1 Hw2]%within_union Hts].
      split; [done|]. simpl. constructor; [|done]. assert (gives a2 value info) as [_ HI] by known. by apply HI.
Qed.

Lemma record_sound fields span :
  forallb (fun '(mkRecordField _ value _) => armed value) fields = true ->
  sound (Analysis.record_fields expression fields [] no_effects) (mkExpression (ERecord fields) span).
Proof.
  intros Harm a Q Ha HQ. apply record_loop; [done|done|done|done|].
  intros own all effects a1 S1 Hs Ht Hp Hl Hnd _ HT. apply HQ; [done|]. split.
  - rewrite Forall_forall in Ht. split.
    + apply solid_record. split; [done|]. split; [done|]. apply Forall_forall. intros f Hf. by apply Ht.
    + split; [intros v (f & Hf & Hv)%elem_of_record_vars|intros v (f & Hf & Hv)%elem_of_record_effects];
        by apply (Ht f Hf).
  - intros Hg gamma x fs Hag Hw. simpl. destruct (HT Hg gamma x fs Hag Hw) as [_ Hts].
    eapply t_record; [exact Hts|done|by apply (bt_map_sorted tr)|].
    rewrite app_nil_r in Hp. rewrite Hp. by rewrite zip_map_snd.
Qed.

(** ** Named construction *)

Lemma construct_loop contract types fields effects a (Q : InferEffects -> Analyzer -> Prop) :
  forallb (fun '(mkConstructField _ _ value _) => armed value) fields = true -> inv a ->
  Forall (fun f => closed_type (snd f)) types ->
  (forall effects' a', step a a' ->
     (good a' -> forall gamma x fs, agrees gamma x a' -> within effects' fs -> within effects fs
        /\ Forall (fun f => exists t, bt_get (construct_field_name f) types = Some t
             /\ typed gamma x fs (construct_field_value f) (tr t)) fields) ->
     Q effects' a') ->
  holds (construct_fields str_debug steps expression contract types fields effects) a Q.
Proof.
  revert effects a Q. induction fields as [|[name name_span value sp] fields IH]; intros effects a Q Harm Ha Hc HQ; simpl in *.
  - apply holds_accept, HQ; [known|]. intros _ gamma x fs _ Hw. by split.
  - apply andb_prop in Harm as [Hv Hrest]. apply holds_bind, structural_sound; [done|done|]. intros info a1 S1 Hi.
    destruct (bt_get name types) as [t|] eqn:En; [|done].
    assert (ty_ok a1 t) as Ht.
    { apply closed_ok. apply bt_get_elem in En. rewrite Forall_forall in Hc. exact (Hc _ En). }
    apply holds_bind, holds_unify; [known|done|apply Hi|]. intros u a2 S2 Hu HE.
    apply IH; [done|known|done|]. intros effects' a3 S3 HT. apply HQ; [known|]. intros Hg gamma x fs Hag Hw.
    destruct (HT Hg gamma x fs Hag Hw) as [[Hw1 Hw2]%within_union Hts]. split; [done|]. constructor; [|done].
    exists t. split; [done|]. assert (gives a3 value info) as [_ HI] by known.
    assert (good a2) as Hg2 by known. destruct (HE Hg2) as [E1 E2]. simpl. rewrite E1, <- E2. by apply HI.
Qed.

(** The fields of a contract, and the trees they have in every valuation. *)
Lemma contract_fields contract : exists types,
  contract_record (contract_nominal contract) = IRecord types false
  /\ Forall (fun f => closed_type (snd f)) types /\ closed_type (IRecord types false)
  /\ map (fun f => (fst f, tr (snd f))) types = contract_tree contract.
Proof.
  destruct contract; (eexists; split; [reflexivity|split; [|split; [|reflexivity]]]);
    repeat (split || constructor || reflexivity).
Qed.

Lemma construction_sound contract contract_span fields span :
  forallb (fun '(mkConstructField _ _ value _) => armed value) fields = true ->
  sound (construction str_debug steps expression contract contract_span fields)
    (mkExpression (EConstruct contract contract_span fields) span).
Proof.
  intros Harm a Q Ha HQ. apply holds_bind, holds_result. intros [] Hcheck.
  destruct (contract_fields contract) as (types & -> & Hc & Hr & Ht).
  apply holds_bind, construct_loop; [done|done|done|]. intros effects a1 S1 HT.
  apply holds_accept, HQ; [done|]. split; [by apply closed_ok|]. intros Hg gamma x fs Hag Hw. simpl. rewrite Ht.
  apply t_construct; [done|]. destruct (HT Hg gamma x fs Hag Hw) as [_ HF].
  eapply Forall_impl; [exact HF|]. intros f (t & Hget & Hty). exists (tr t). by rewrite <- Ht, bt_get_map, Hget.
Qed.

(** ** Chains of [if] *)

(** The links of a chain, innermost first, and its last branch. *)
Inductive links_of (a : Analyzer) : Expression -> ExpressionInfo -> list (Span * InferEffects * ExpressionInfo) -> Prop :=
| links_last e info : gives a e info -> links_of a e info []
| links_if condition consequent alternative span test branch info links :
    gives a condition test -> (good a -> tr (info_ty test) = bool_tree) -> gives_block a consequent branch ->
    links_of a alternative info links ->
    links_of a (mkExpression (EIf condition consequent alternative) span) info
      (links ++ [(span, info_effects test, branch)]).

Lemma if_links_sound : forall e links a (Q : ExpressionInfo * list (Span * InferEffects * ExpressionInfo) -> Analyzer -> Prop),
  armed e = true -> inv a ->
  (forall info own a', step a a' -> links_of a' e info own -> Q (info, own ++ links) a') ->
  holds (if_links str_debug steps expression block e links) a Q.
Proof.
  fix IH 1. intros [kind span] links a Q Harm Ha HQ.
  assert (holds (let^ info := expression (mkExpression kind span) in accept (info, links)) a Q) as HL.
  { apply holds_bind, He; [done|done|]. intros info a1 S1 Hi. apply holds_accept, (HQ info []); [done|]. by constructor. }
  destruct kind; try exact HL. clear HL. cbn [if_links].
  cbn [armed] in Harm. apply andb_prop in Harm as [[H1 H2]%andb_prop H3].
  apply holds_bind, (He _ H1); [done|]. intros test a1 S1 Ht.
  apply holds_bind, holds_unify; [known|by apply closed_ok|apply Ht|]. intros u a2 S2 Hu HE.
  apply holds_bind, (Hb _ H2); [known|]. intros branch a3 S3 Hbr.
  apply (IH alternative); [exact H3|known|]. intros info own a4 S4 HL.
  rewrite (assoc_L _ own [_] links : own ++ (_ :: links) = (own ++ [_]) ++ links). apply HQ; [known|].
  constructor; [known| |known|done]. intros Hg. assert (good a2) as Hg2 by known. destruct (HE Hg2) as [E1 E2].
  by rewrite E2, <- E1.
Qed.

Lemma if_unwind_sound a0 e info links : links_of a0 e info links ->
  forall rest a (Q : ExpressionInfo -> Analyzer -> Prop), step a0 a ->
  (forall info' a', step a a' -> gives a' e info' -> holds (if_unwind str_debug steps rest info') a' Q) ->
  holds (if_unwind str_debug steps (links ++ rest) info) a Q.
Proof.
  induction 1 as [e info Hi|condition consequent alternative span test branch info links Ht HT Hbr _ IH];
    intros rest a Q S0 HQ.
  - apply HQ; known.
  - rewrite <- app_assoc. apply IH; [done|]. intros info' a1 S1 Hi. cbn [app if_unwind].
    assert (gives_block a1 consequent branch) as Hbr1 by known.
    apply holds_bind, holds_unify; [known|apply Hbr1|apply Hi|]. intros t a2 S2 Hu HE. cbn beta zeta.
    set (chosen := mkInfo t _).
    assert (forall a3, step a2 a3 -> gives a3 (mkExpression (EIf condition consequent alternative) span) chosen) as HG.
    { intros a3 S3. split; [simpl; known|]. intros Hg gamma x fs Hag [[Hw1 Hw2]%within_union Hw3]%within_union.
      assert (good a2) as Hg2 by known. destruct (HE Hg2) as [E1 E2].
      assert (gives a3 condition test) as [_ HC] by known. assert (gives_block a3 consequent branch) as [_ HB] by known.
      assert (gives a3 alternative info') as [_ HA] by known.
      assert (good a0) as Hg0 by known. apply t_if.
      - rewrite <- (HT Hg0). by apply HC.
      - simpl. rewrite <- E1. by apply HB.
      - simpl. rewrite <- E2. by apply HA. }
    apply holds_bind. destruct rest as [|l rest].
    + apply holds_accept, HQ; [known|]. apply HG. known.
    + apply holds_record; [known|]. intros a3 S3 _. apply HQ; [known|]. by apply HG.
Qed.

Lemma if_sound e : armed e = true -> sound (if_chain str_debug steps expression block e) e.
Proof.
  intros Harm a Q Ha HQ. apply holds_bind, if_links_sound; [done|done|]. intros info own a1 S1 HL.
  apply (if_unwind_sound a1 e info own HL); [known|]. intros info' a2 S2 Hi. apply holds_accept, HQ; known.
Qed.

(** ** Chains of operators *)

Lemma holds_binary lhs operator rhs span a (Q : ExpressionInfo -> Analyzer -> Prop) :
  inv a -> ty_ok a (info_ty lhs) -> ty_ok a (info_ty rhs) ->
  (forall t a', step a a' -> ty_ok a' t ->
     (good a' -> operator_types operator (tr (info_ty lhs)) (tr (info_ty rhs)) (tr t)) ->
     Q (mkInfo t (effects_union (info_effects lhs) (info_effects rhs))) a') ->
  holds (binary str_debug steps lhs operator rhs span) a Q.
Proof.
  intros Ha Hl Hr HQ.
  assert (forall kind, holds (unify (info_ty lhs) (info_ty rhs) span kind) a (fun t a' => step a a' /\ ty_ok a' t
    /\ (good a' -> tr (info_ty lhs) = tr t /\ tr (info_ty rhs) = tr t))) as HU by (intros kind; by apply holds_unify).
  assert (forall t kind, closed_type t -> (t = IInt \/ t = IBool) ->
    (forall a', step a a' -> (good a' -> tr (info_ty lhs) = tr t /\ tr (info_ty rhs) = tr t) -> Q (mkInfo t (effects_union (info_effects lhs) (info_effects rhs))) a') ->
    holds (let^ ty := (let^ _ := unify t (info_ty lhs) span kind in let^ _ := unify t (info_ty rhs) span kind in accept t) in
           accept (mkInfo ty (effects_union (info_effects lhs) (info_effects rhs)))) a Q) as HC.
  { intros t kind Hc _ HQ'. apply holds_bind, holds_bind, holds_unify; [done|by apply closed_ok|done|]. intros u a1 S1 Hu HE1.
    apply holds_bind, holds_unify; [known|by apply closed_ok|known|]. intros w a2 S2 Hw HE2.
    apply holds_accept, holds_accept, HQ'; [known|]. intros Hg. assert (good a1) as Hg1 by known.
    destruct (HE1 Hg1), (HE2 Hg). split; congruence. }
  destruct operator; cbn [binary];
    try (apply HC; [done|auto|]; intros a' St HE; apply HQ; [done|by apply closed_ok|]; intros Hg; destruct (HE Hg); done);
    apply holds_bind, holds_bind; (eapply holds_weaken; [apply HU|]); intros t a1 (S1 & Ht & HE); cbn beta;
    (apply holds_bind, holds_require; [known|]); intros a2 S2 HK;
    (apply holds_accept, holds_accept, HQ; [known|first [solve [known] | by apply closed_ok]|]);
    intros Hg; assert (good a1) as Hg1 by known; destruct (HE Hg1) as [E1 E2]; specialize (HK Hg);
    unfold constraint_holds in HK; simpl in HK; unfold operator_types; rewrite E1, E2; done.
Qed.

(** The operators from the lowest operand of [e] up to [e]. *)
Inductive spine_of (low : Expression) : Expression -> list Expression -> Prop :=
| spine_low : spine_of low low []
| spine_operator lhs operator rhs span spine :
    spine_of low lhs spine ->
    spine_of low (mkExpression (EBinary lhs operator rhs) span)
      (spine ++ [mkExpression (EBinary lhs operator rhs) span]).

Lemma left_spine_of : forall e acc, armed e = true -> exists low spine,
  left_spine e acc = (low, spine ++ acc) /\ spine_of low e spine /\ armed low = true.
Proof.
  fix IH 1. intros [kind span] acc Harm.
  assert (exists low spine, (mkExpression kind span, acc) = (low, spine ++ acc)
    /\ spine_of low (mkExpression kind span) spine /\ armed low = true) as HL.
  { exists (mkExpression kind span), []. split; [done|]. split; [constructor|done]. }
  destruct kind as [| | | | | | | | | | | | | | | |lhs operator rhs]; try exact HL. clear HL. cbn [armed] in Harm. apply andb_prop in Harm as [H1 H2]. cbn [left_spine].
  destruct (IH _ (mkExpression (EBinary lhs operator rhs) span :: acc) H1) as (low & spine & -> & Hs & Hl).
  exists low, (spine ++ [mkExpression (EBinary lhs operator rhs) span]). rewrite <- app_assoc. split; [done|].
  split; [by constructor|done].
Qed.

Lemma spine_unwind_sound low e spine : spine_of low e spine -> armed e = true ->
  forall rest info a (Q : ExpressionInfo -> Analyzer -> Prop), inv a -> gives a low info ->
  (forall info' a', step a a' -> gives a' e info' -> holds (spine_unwind str_debug steps expression rest info') a' Q) ->
  holds (spine_unwind str_debug steps expression (spine ++ rest) info) a Q.
Proof.
  induction 1 as [|lhs operator rhs span spine _ IH]; intros Harm rest info a Q Ha Hi HQ.
  - apply HQ; known.
  - cbn [armed] in Harm. apply andb_prop in Harm as [H1 H2]. rewrite <- app_assoc. apply IH; [done|done|done|].
    intros left a1 S1 Hl. cbn [app spine_unwind]. apply holds_bind, (He rhs H2); [known|]. intros right a2 S2 Hr.
    apply holds_bind, holds_binary; [known|eapply step_ty_ok; [exact S2|apply Hl]|apply Hr|]. intros t a3 S3 Ht HO.
    set (both := mkInfo t _).
    assert (forall a4, step a3 a4 -> gives a4 (mkExpression (EBinary lhs operator rhs) span) both) as HG.
    { intros a4 S4. split; [simpl; known|]. intros Hg gamma x fs Hag [Hw1 Hw2]%within_union.
      assert (gives a4 lhs left) as [_ HL] by known. assert (gives a4 rhs right) as [_ HR] by known.
      eapply t_binary; [by apply HL|by apply HR|]. apply HO. known. }
    apply holds_bind. destruct rest as [|l rest].
    + apply holds_accept, HQ; [known|]. apply HG. known.
    + apply holds_record; [known|]. intros a4 S4 _. apply HQ; [known|]. by apply HG.
Qed.

Lemma binary_sound e : armed e = true -> sound (binary_chain str_debug steps expression e) e.
Proof.
  intros Harm a Q Ha HQ. unfold binary_chain. destruct (left_spine_of e [] Harm) as (low & spine & -> & Hs & Hl).
  apply holds_bind, (He low Hl); [done|]. intros info a1 S1 Hi. apply (spine_unwind_sound low e spine Hs Harm); [known|done|].
  intros info' a2 S2 Hi'. apply holds_accept, HQ; known.
Qed.

(** ** Functions *)

Lemma holds_ensure name span a (Q : unit -> Analyzer -> Prop) : Q tt a -> holds (ensure_name_available name span) a Q.
Proof. intros HQ. apply holds_bind, holds_analyzer. by case_match. Qed.

Lemma holds_parameters ps ts a (Q : unit -> Analyzer -> Prop) :
  inv a -> Forall (ty_ok a) ts -> length ps = length ts ->
  (forall a', moves a a' ->
     (forall gamma x, agrees gamma x a -> agrees (bind_parameter_types gamma ps (map tr ts)) x a') -> Q tt a') ->
  holds (define_parameters ps ts) a Q.
Proof.
  revert ts a. induction ps as [|p ps IH]; intros [|t ts] a Ha Hts Hl HQ; try done; simpl.
  - apply holds_accept, HQ; [by apply moves_refl|done].
  - apply Forall_cons in Hts as [Ht Hts]. apply holds_bind, holds_ensure, holds_bind, holds_define; [done|done|].
    intros id a1 M1 Hd. apply IH; [apply M1| |by injection Hl|].
    + eapply Forall_impl; [exact Hts|]. intros u. by apply moves_ty_ok with (1 := M1).
    + intros a2 M2 Hp. apply HQ; [by eapply moves_trans|]. intros gamma x Hag. by apply Hp, Hd.
Qed.

(** What may be exited from inside a body. *)
Definition frame_agrees (exit : ExitContext) (body : LetElseBody) (x : option Tree) : Prop :=
  exit_agrees rho x (set_let_else_bodies [body] (set_exits [exit] new_analyzer)).

Lemma holds_in_body exit body b a (Q : ExpressionInfo -> Analyzer -> Prop) :
  armed_block b = true -> inv a -> exit_ok a exit -> body_ok a body ->
  (forall info a', step a a' -> ty_ok a' (info_ty info) ->
     (good a' -> forall gamma x x' fs, agrees gamma x a' -> frame_agrees exit body x' ->
        within (info_effects info) fs -> typed_block gamma x' fs b (tr (info_ty info))) ->
     Q info a') ->
  holds (in_body exit body (block b)) a Q.
Proof.
  intros Harm Ha Hex Hbo HQ. apply holds_bind, holds_update.
  set (a1 := set_let_else_bodies _ _).
  assert (inv a1) as Ha1 by (destruct Ha; by split; try done; constructor).
  assert (holds (block b) a1 (fun info a2 => step a1 a2 /\ gives_block a2 b info)) as HB by (apply (Hb b Harm); auto).
  unfold holds in *. destruct (block b a1) as [a2 [info| | |]]; try done. destruct HB as [[M1 M2] [Hok HT]].
  set (a3 := set_exits _ _).
  assert (good a3 -> good a2) as Hg by (intros []; by split).
  assert (inv a3) as Ha3.
  { destruct M1 as [[W A S E B] _ _ M4 M5 _]. split; try done; simpl.
    - destruct (an_exits a2); [done|by inversion E].
    - destruct (an_let_else_bodies a2); [done|by inversion B]. }
  apply HQ; [|done|].
  - split; [|done]. destruct M1 as [_ G Hgood M4 M5 M6]. split; try done.
    + intros H. apply Hg, Hgood in H as []. by split.
    + simpl. by rewrite M4.
    + simpl. by rewrite M5.
  - intros H3 gamma x x' fs [Hc _] Hf Hw. apply HT; [by apply Hg| |done]. split; [done|].
    destruct M1 as [_ _ _ M4 M5 _]. unfold frame_agrees, exit_agrees in *. by rewrite M4, M5.
Qed.

Lemma body_sound {A} exit body ps ts r e b span (k : ExpressionInfo -> check A) a Q :
  armed_block b = true -> inv a -> exit_ok a exit -> body_ok a body ->
  Forall (ty_ok a) ts -> length ps = length ts -> ty_ok a r ->
  (e < length (effect_definitions (an_inference a)))%nat ->
  (forall info a', step a a' ->
     (good a' -> forall gamma x x', agrees gamma x a' -> frame_agrees exit body x' ->
        typed_block (bind_parameter_types gamma ps (map tr ts)) x' (effects_value rho e).1 b (tr r)) ->
     holds (k info) a' Q) ->
  holds
    (let^ _ := push_scope in
     let^ _ := define_parameters ps ts in
     let^ info := in_body exit body (block b) in
     let^ _ := pop_scope in
     let^ _ := unify r (info_ty info) span "function return type" in
     let^ _ := define_effect e (info_effects info) in
     k info) a Q.
Proof.
  intros Harm Ha Hex Hbo Hts Hl Hr Hle HQ. apply holds_bind, holds_push; [done|]. intros a1 P1.
  assert (Forall (ty_ok a1) ts) as Hts1 by (eapply Forall_impl; [exact Hts|]; intros t; by apply pushed_ty_ok).
  apply holds_bind, holds_parameters; [apply P1|done|done|]. intros a2 M2 Hp.
  assert (forall t, ty_ok a t -> ty_ok a2 t) as Hk by (intros t Ht; by eapply moves_ty_ok, pushed_ty_ok).
  apply holds_bind, holds_in_body; [done|apply M2| | |].
  { destruct exit as [p|]; [|done]. simpl in *. destruct (pr_family p), (pr_error p); auto. }
  { destruct body; [by apply Hk|done]. }
  intros info a3 S3 Hi HT. apply holds_bind, (holds_pop a a1 a3); [done|eapply moves_trans; [exact M2|apply S3]|].
  intros a4 S4 Hg4 Hk4. apply holds_bind, holds_unify; [known|known|by apply Hk4|]. intros u a5 S5 Hu HE.
  apply holds_bind, holds_define_effect; [known| |].
  { destruct (mv_grown _ _ _ (step_moves _ _ _ (step_trans _ _ _ _ S4 S5))) as [_ G _]. lia. }
  intros a6 S6 Hw. apply HQ; [known|]. intros Hg gamma x x' Hag Hf.
  assert (good a5) as Hg5 by known. destruct (HE Hg5) as [E1 E2]. rewrite E1, <- E2. 
  assert (step a a6) as S by known. apply (agrees_step rho _ _ _ _ S) in Hag.
  eapply HT; [apply Hg4; known| |exact Hf|by apply Hw].
  apply (agrees_step rho _ _ _ _ S3), Hp, (pushed_agrees rho gamma x a a1 P1), Hag.
Qed.

Lemma function_sound ps return_type body span : armed_block body = true ->
  sound (function str_debug steps block ps return_type body) (mkExpression (EFunction ps return_type body) span).
Proof.
  intros Harm a Q Ha HQ. apply holds_bind, holds_declareds; [done|]. intros ts a1 S1 Hts Hps.
  apply holds_bind, holds_declared; [known|]. intros r a2 S2 Hr Hres.
  apply holds_bind, holds_new_effect; [known|]. intros e a3 S3 Hlt.
  assert (Forall (ty_ok a3) ts) as Hts3 by (eapply Forall_impl; [exact Hts|]; intros; known).
  assert (length ps = length ts) as Hl by (apply Forall2_length in Hps; by rewrite length_map in Hps).
  apply body_sound; [done|known|done|done|done|done|known|done|]. intros info a4 S4 HT.
  apply holds_accept, HQ; [known|]. split.
  - simpl. eapply step_ty_ok; [exact S4|]. apply function_type_ok; [done|known|done].
  - intros Hg gamma x fs Hag _. simpl. destruct (effects_value rho e) as [gs qs] eqn:Ee.
    apply t_function; [done|done|]. eapply (HT Hg gamma x None Hag). done.
Qed.

(** ** Calls *)

Lemma call_arguments_sound es effects a (Q : list InferType * InferEffects -> Analyzer -> Prop) :
  forallb armed es = true -> inv a ->
  (forall ts effects' a', step a a' -> Forall (ty_ok a') ts -> length ts = length es ->
     (good a' -> forall gamma x fs, agrees gamma x a' -> within effects' fs ->
        within effects fs /\ Forall2 (fun e t => typed gamma x fs e (tr t)) es ts) -> Q (ts, effects') a') ->
  holds (call_arguments expression es effects) a Q.
Proof.
  revert effects a Q. induction es as [|e es IH]; intros effects a Q Harm Ha HQ; simpl in *.
  - apply holds_accept, HQ; [known|done|done|]. intros _ gamma x fs _ Hw. by split.
  - apply andb_prop in Harm as [H1 H2]. apply holds_bind, (He e H1); [done|]. intros info a1 S1 Hi.
    apply holds_bind, IH; [done|known|]. intros ts effects' a2 S2 Hts Hl HT.
    assert (gives a2 e info) as [Hok HI] by known. apply holds_accept, HQ; [known|by constructor|by simpl; rewrite Hl|].
    intros Hg gamma x fs Hag Hw. destruct (HT Hg gamma x fs Hag Hw) as [[Hw1 Hw2]%within_union Hes].
    split; [done|]. constructor; [|done]. by apply HI.
Qed.

Lemma holds_new_types n a (Q : list InferType -> Analyzer -> Prop) :
  inv a -> (forall ts a', step a a' -> Forall (ty_ok a') ts -> Q ts a') -> holds (new_types n) a Q.
Proof.
  revert a Q. induction n as [|n IH]; intros a Q Ha HQ; simpl; [apply holds_accept, HQ; [known|done]|].
  apply holds_bind, holds_new_type; [done|]. intros t a1 S1 Ht. apply holds_bind, IH; [known|].
  intros ts a2 S2 Hts. apply holds_accept, HQ; [known|]. constructor; [known|done].
Qed.

Lemma holds_call_target callee t count span a (Q : list InferType * InferType * nat -> Analyzer -> Prop) :
  inv a -> ty_ok a t ->
  (forall ps r e a', step a a' -> Forall (ty_ok a') ps -> ty_ok a' r ->
     (good a' -> tr t = TFunction (map tr ps) (tr r) (effects_value rho e)) -> Q (ps, r, e) a') ->
  holds (call_target str_debug steps callee t count span) a Q.
Proof.
  intros Ha Ht HQ. apply holds_bind, holds_state. cbn beta. pose proof (resolve_solid a t Ha Ht) as HR.
  destruct (resolve_head (an_inference a) t) as [| | | | | | | | | | | | | | | |ps r e|v]; try done.
  - destruct HR as (H1 & H2 & H3). apply holds_accept, HQ; known.
  - destruct HR as [Hv Htr]. apply holds_bind, holds_new_types; [done|]. intros ps a1 S1 Hps.
    apply holds_bind, holds_new_type; [known|]. intros r a2 S2 Hr.
    apply holds_bind, holds_new_effect; [known|]. intros e a3 S3 Hlt.
    assert (Forall (ty_ok a3) ps) as Hps3 by (eapply Forall_impl; [exact Hps|]; intros; known).
    apply holds_bind, holds_bind_target; [known|known|apply function_type_ok; [done|known|done]|done|].
    intros a4 S4 HE. apply holds_accept, HQ; [known| |known|].
    + eapply Forall_impl; [exact Hps3|]. intros; known.
    + intros Hg. rewrite Htr by known. apply (HE Hg).
Qed.

Lemma match_arguments_sound builtin callee_span span index ps ts es a (Q : unit -> Analyzer -> Prop) :
  inv a -> Forall (ty_ok a) ps -> Forall (ty_ok a) ts -> length ps = length ts -> length ts = length es ->
  (forall a', step a a' -> (good a' -> map tr ps = map tr ts) -> Q tt a') ->
  holds (match_arguments str_debug steps builtin callee_span span index ps ts es) a Q.
Proof.
  revert index ts es a Q. induction ps as [|p ps IH]; intros index [|t ts] [|e es] a Q Ha Hps Hts H1 H2 HQ; try done; simpl.
  { apply holds_accept, HQ; [known|done]. }
  apply Forall_cons in Hps as [Hp Hps], Hts as [Ht Hts]. apply holds_bind, holds_analyzer. cbn beta. case_match; [done|].
  assert (holds (if approved_use builtin callee_span (an_secret_spans a) index then accept tt
    else require t (expression_span e) OpaqueArgument) a (fun _ a1 => step a a1)) as HA.
  { case_match; [by apply holds_accept, step_refl|]. apply holds_require; [done|]. by intros. }
  apply holds_bind. eapply holds_weaken; [exact HA|]. intros [] a1 S1. cbn beta.
  apply holds_bind, holds_unify; [known|known|known|]. intros u a2 S2 Hu HE. apply IH.
  - known.
  - eapply Forall_impl; [exact Hps|]. intros; known.
  - eapply Forall_impl; [exact Hts|]. intros; known.
  - by injection H1.
  - by injection H2.
  - intros a3 S3 HM. apply HQ; [known|]. intros Hg. assert (good a2) as Hg2 by known. destruct (HE Hg2) as [E1 E2].
    simpl. rewrite HM by done. congruence.
Qed.

Lemma holds_direct_call callee es a (Q : option Builtin * list CapabilityRequirement -> Analyzer -> Prop) :
  inv a -> (forall r a', step a a' -> Q r a') -> holds (direct_call url_parse callee es) a Q.
Proof.
  intros Ha HQ. unfold direct_call. destruct (direct_host_builtin callee) as [b|]; [|apply holds_accept, HQ; known].
  apply holds_bind, holds_quiet; [done|done|]. intros a1 S1. apply holds_bind, holds_result. intros [rs spans] _.
  apply holds_bind, holds_quiet; [done|known|]. intros a2 S2. apply holds_accept, HQ; known.
Qed.

(** What a call requires is added to what it does. *)
Lemma within_requirements builtin rs effects fs :
  within (add_requirements builtin rs effects) fs -> within effects fs.
Proof.
  revert effects. induction rs as [|r rs IH]; intros effects; [done|]. intros [H1 H2]%IH. split; [|done].
  intros y Hy. apply H1. simpl. case_match; [|done]. apply oset_insert_elem. by right.
Qed.

Lemma call_sound callee es span : armed callee = true -> forallb armed es = true ->
  sound (call str_debug url_parse steps expression callee es span) (mkExpression (ECall callee es) span).
Proof.
  intros Hc Hes a Q Ha HQ. apply holds_bind, holds_direct_call; [done|]. intros [builtin rs] a1 S1. cbn beta iota.
  assert (holds (if is_field_access callee then update (set_method_callee (Some (expression_span callee))) else accept tt)
    a1 (fun _ a2 => step a1 a2)) as HM.
  { assert (inv a1) by known. case_match; [|by apply holds_accept, step_refl]. by apply holds_quiet. }
  apply holds_bind. eapply holds_weaken; [exact HM|]. intros [] a2 S2. cbn beta.
  apply holds_bind, (He callee Hc); [known|]. intros info a3 S3 Hi.
  apply holds_bind, call_arguments_sound; [done|known|]. intros ts effects a4 S4 Hts Hl HT. cbn beta iota.
  apply holds_bind, holds_call_target; [known|eapply step_ty_ok; [exact S4|apply Hi]|].
  intros ps r e a5 S5 Hps Hr HF. cbn beta iota. destruct (Nat.eqb_spec (length ps) (length ts)) as [El|]; [|done].
  cbn [negb]. cbv zeta. apply holds_bind, match_arguments_sound; [known|done| |done|done|].
  { eapply Forall_impl; [exact Hts|]. intros; known. }
  intros a6 S6 HE. assert (step a a3) as S03 by known. assert (step a3 a6) as S36 by known.
  apply holds_accept, HQ; [known|]. split; [simpl; known|].
  intros Hg gamma x fs Hag [Hw1 Hw2]. simpl in Hw1, Hw2.
  assert (within (add_requirements builtin rs effects) fs) as Hw.
  { split; [done|]. intros d Hd. apply Hw2, oset_insert_elem. by right. }
  apply within_requirements in Hw. assert (agrees gamma x a4) as Hag4.
  { assert (step a4 a6) as S by known. by apply (agrees_step rho _ _ _ _ S). }
  assert (good a4) as Hg4 by known. destruct (HT Hg4 gamma x fs Hag4 Hw) as [Hwi Hargs].
  assert (gives a6 callee info) as [_ HI] by known.
  specialize (HI Hg gamma x fs Hag Hwi). rewrite (HF ltac:(known)) in HI.
  destruct (effects_value rho e) as [gs qs] eqn:Ee. eapply t_call; [exact HI| |].
  - specialize (Hw2 e). rewrite Ee in Hw2. apply Hw2, oset_insert_elem. by left.
  - rewrite (HE Hg). by apply Forall2_fmap_r.
Qed.

Lemma propagate_sound operand question span : armed operand = true ->
  sound (propagate str_debug steps expression operand question) (mkExpression (EPropagate operand question) span).
Proof.
  intros Harm a Q Ha HQ. apply holds_bind, (He operand Harm); [done|]. intros info a1 S1 Hi.
  apply holds_bind, holds_propagate_type; [known|apply Hi|]. intros u a2 S2 Hu HT. apply holds_accept, HQ; [known|].
  split; [done|]. intros Hg gamma x fs Hag Hw. assert (gives a2 operand info) as [_ HI] by known.
  specialize (HI Hg gamma x fs Hag Hw). apply (agrees_step rho _ _ _ _ S2) in Hag as [_ Hx].
  destruct (HT Hg x Hx) as [(r & -> & E)|(r & e & -> & E)]; rewrite E in HI;
    [by eapply t_question_option|by eapply t_question_result].
Qed.

(** ** Matches *)

Lemma arms_bindings_sound arms pp subject span a (Q : list (list PatternBinding) -> Analyzer -> Prop) :
  Forall (fun arm => exists path, pattern_path (arm_pattern arm) = Ok path) arms ->
  inv a -> positions_ok rho a pp -> pp_types pp !! 0%nat = Some subject ->
  (forall bss a', step a a' -> Forall (Forall (fun b => ty_ok a' (bound_ty b))) bss ->
     length bss = length arms ->
     (good a' -> Forall2 (fun arm bs => pattern_types (tr subject) (arm_pattern arm) (bound_context rho bs)) arms bss) ->
     Q bss a') ->
  holds (arms_bindings str_debug steps arms pp span) a Q.
Proof.
  revert pp a Q. induction arms as [|arm arms IH]; intros pp a Q Hpath Ha Hp H0 HQ; cbn [arms_bindings].
  - apply holds_accept, HQ; [known|done|done|done].
  - apply Forall_cons in Hpath as [Hp1 Hps]. apply holds_bind, holds_pattern; [done|done|done|].
    intros bs pp1 t a1 S1 Hp1' Hpre Ht Hbs HT. cbn beta iota.
    assert (t = subject) as -> by congruence.
    apply holds_bind, IH; [done|known|done|by eapply prefix_lookup_Some|]. intros bss a2 S2 Hbss Hl HTs.
    apply holds_accept, HQ; [known| |by simpl; rewrite Hl|].
    + constructor; [|done]. eapply Forall_impl; [exact Hbs|]. intros; known.
    + intros Hg. constructor; [apply HT; known|by apply HTs].
Qed.

Lemma holds_bindings bs a (Q : unit -> Analyzer -> Prop) :
  inv a -> Forall (fun b => ty_ok a (bound_ty b)) bs ->
  (forall a', moves a a' -> (forall gamma x, agrees gamma x a -> agrees (bound_context rho bs ++ gamma) x a') -> Q tt a') ->
  holds (define_bindings bs) a Q.
Proof.
  revert a. induction bs as [|b bs IH]; intros a Ha Hbs HQ; cbn [define_bindings].
  - apply holds_accept, HQ; [by apply moves_refl|done].
  - apply Forall_cons in Hbs as [Hb1 Hbs]. apply holds_bind, holds_define; [done|done|]. intros id a1 M1 Hd.
    apply IH; [apply M1| |].
    + eapply Forall_impl; [exact Hbs|]. intros c. by apply moves_ty_ok with (1 := M1).
    + intros a2 M2 Hp. apply HQ; [by eapply moves_trans|]. intros gamma x Hag.
      unfold bound_context. simpl. rewrite <- app_assoc. by apply Hp, Hd.
Qed.

Lemma holds_scoped {A} (m : check A) a (Q : A -> Analyzer -> Prop) :
  inv a ->
  (forall a1, pushed a a1 -> holds m a1 (fun x a2 => moves a1 a2
     /\ forall a3, step a a3 -> (good a3 -> good a2) -> (forall t, ty_ok a2 t -> ty_ok a3 t) -> Q x a3)) ->
  holds (scoped m) a Q.
Proof.
  intros Ha HQ. apply holds_bind, holds_push; [done|]. intros a1 P1. specialize (HQ a1 P1). unfold holds in *.
  destruct (m a1) as [a2 [x| | |]]; try done. destruct HQ as [M HQ].
  destruct (popped_step rho a a1 a2 (set_scopes (tail (an_scopes a2)) a2) P1 M) as (H1 & H2 & H3); [done|by apply HQ].
Qed.

(** An arm whose pattern's names are bound. *)
Definition gives_arm (a : Analyzer) (bs : list PatternBinding) (e : Expression) (info : ExpressionInfo) : Prop :=
  ty_ok a (info_ty info)
  /\ (good a -> forall gamma x fs, agrees gamma x a -> within (info_effects info) fs ->
        typed (bound_context rho bs ++ gamma) x fs e (tr (info_ty info))).

Lemma gives_arm_step a a' bs e info : step a a' -> gives_arm a bs e info -> gives_arm a' bs e info.
Proof.
  intros St [H1 H2]. split; [by eapply step_ty_ok|]. intros Hg gamma x fs Ha Hw.
  apply H2; [by eapply step_good|by apply (agrees_step rho gamma x a a' St)|done].
Qed.

Lemma arm_sound bs value a (Q : ExpressionInfo -> Analyzer -> Prop) :
  armed value = true -> inv a -> Forall (fun b => ty_ok a (bound_ty b)) bs ->
  (forall info a', step a a' -> gives_arm a' bs value info -> Q info a') ->
  holds (scoped (let^ _ := define_bindings bs in expression value)) a Q.
Proof.
  intros Harm Ha Hbs HQ. apply holds_scoped; [done|]. intros a1 P1. apply holds_bind, holds_bindings; [apply P1| |].
  { eapply Forall_impl; [exact Hbs|]. intros b. by apply pushed_ty_ok. }
  intros a2 M2 Hp. apply (He value Harm); [apply M2|]. intros info a3 S3 [Hok HT].
  split; [eapply moves_trans; [exact M2|apply S3]|]. intros a4 S4 Hg4 Hk4. apply HQ; [done|]. split; [by apply Hk4|].
  intros Hg gamma x fs Hag Hw. apply HT; [by apply Hg4| |done].
  apply (agrees_step rho _ _ _ _ S3), Hp, (pushed_agrees rho _ _ _ _ P1), (agrees_step rho _ _ _ _ S4), Hag.
Qed.

Lemma match_arms_sound arms bss t effects a (Q : option InferType * InferEffects -> Analyzer -> Prop) :
  forallb (fun '(mkMatchArm _ value _) => armed value) arms = true -> inv a -> ty_ok a t ->
  Forall (Forall (fun b => ty_ok a (bound_ty b))) bss -> length bss = length arms ->
  (forall t' effects' a', step a a' -> ty_ok a' t' ->
     (good a' -> tr t = tr t') ->
     (good a' -> forall gamma x fs, agrees gamma x a' -> within effects' fs -> within effects fs
        /\ Forall2 (fun arm bs => typed (bound_context rho bs ++ gamma) x fs (arm_value arm) (tr t')) arms bss) ->
     Q (Some t', effects') a') ->
  holds (match_arms str_debug steps expression arms bss (Some t) effects) a Q.
Proof.
  revert bss t effects a Q. induction arms as [|[pattern value sp] arms IH];
    intros [|bs bss] t effects a Q Harm Ha Ht Hbss Hl HQ; try done; cbn [match_arms].
  - apply holds_accept, HQ; [known|done|done|]. intros _ gamma x fs _ Hw. by split.
  - cbn [forallb] in Harm. apply andb_prop in Harm as [H1 H2]. apply Forall_cons in Hbss as [Hb1 Hbss].
    apply holds_bind, arm_sound; [done|done|done|]. intros info a1 S1 Hi. cbv zeta.
    apply holds_bind, holds_unify; [known|known|apply Hi|]. intros u a2 S2 Hu HE.
    apply IH; [done|known|done| |by injection Hl|].
    { eapply Forall_impl; [exact Hbss|]. intros l Hl'. eapply Forall_impl; [exact Hl'|]. intros; known. }
    intros t' effects' a3 S3 Ht' Htt HT. apply HQ; [known|done| |].
    { intros Hg. rewrite <- (Htt Hg). apply HE. known. }
    intros Hg gamma x fs Hag Hw. destruct (HT Hg gamma x fs Hag Hw) as [[Hw1 Hw2]%within_union Harms].
    split; [done|]. constructor; [|done]. assert (step a1 a3) as S13 by known.
    destruct (gives_arm_step _ _ _ _ _ S13 Hi) as [_ HI]. assert (good a2) as Hg2 by known.
    destruct (HE Hg2) as [E1 E2]. simpl. rewrite <- (Htt Hg), <- E2. by apply HI.
Qed.

Lemma checked_paths arms family : check_arms arms family = Ok tt ->
  Forall (fun arm => exists path, pattern_path (arm_pattern arm) = Ok path) arms.
Proof.
  intros (_ & paths & Hp & _)%check_arms_accepted. revert paths Hp.
  induction arms as [|arm arms IH]; intros paths Hp; [done|]. simpl in Hp. unfold arm_path in Hp at 1.
  destruct (pattern_path (arm_pattern arm)) as [path|] eqn:E; [|done]. simpl in Hp.
  destruct (try_map arm_path arms) as [rest|]; [|done]. constructor; [by eexists|by eapply IH].
Qed.

Lemma match_sound subject arms span :
  armed subject = true -> negb (Nat.eqb (length arms) 0) = true ->
  forallb (fun '(mkMatchArm _ value _) => armed value) arms = true ->
  sound (match_expression str_debug steps expression subject arms span) (mkExpression (EMatch subject arms) span).
Proof.
  intros Hs Hne Harms a Q Ha HQ. apply holds_bind, (He subject Hs); [done|]. intros info a1 S1 Hi.
  apply holds_bind, holds_state, holds_bind, holds_result. intros [] Hchecked.
  apply holds_bind, (arms_bindings_sound arms _ (info_ty info)); [by eapply checked_paths|known|apply positions_new, Hi|done|].
  intros bss a2 S2 Hbss Hl HP. apply holds_bind, holds_result. intros [] Hexh.
  destruct arms as [|[pattern value sp] arms]; [done|]. destruct bss as [|bs bss]; [done|].
  cbn [forallb] in Harms. apply andb_prop in Harms as [Hv Harms]. apply Forall_cons in Hbss as [Hbs Hbss].
  apply holds_bind. cbn [match_arms]. apply holds_bind, arm_sound; [done|known|done|]. intros first a3 S3 Hf.
  apply holds_bind, holds_accept, match_arms_sound; [done|known|apply Hf| |by injection Hl|].
  { eapply Forall_impl; [exact Hbss|]. intros l Hl'. eapply Forall_impl; [exact Hl'|]. intros; known. }
  intros t effects a4 S4 Ht HE HT. apply holds_bind, holds_accept, holds_accept, HQ; [known|]. split; [done|].
  intros Hg gamma x fs Hag Hw. destruct (HT Hg gamma x fs Hag Hw) as [[Hw1 Hw2]%within_union Hrest].
  assert (gives a4 subject info) as [_ HI] by known. destruct (gives_arm_step _ _ _ _ _ S4 Hf) as [_ HF].
  eapply t_match; [by apply HI|done|exact Hchecked|exact Hexh|].
  assert (good a2) as Hg2 by known. apply HP in Hg2 as HP2. inversion HP2 as [|? ? ? ? P1 P2]; subst.
  constructor.
  - exists (bound_context rho bs). split; [done|]. simpl. rewrite <- (HE Hg). by apply HF.
  - clear -P2 Hrest. induction P2 as [|arm bs' arms bss Hp _ IH]; [done|].
    inversion Hrest; subst. constructor; [by exists (bound_context rho bs')|by apply IH].
Qed.

(** ** The other expressions *)

Lemma unary_sound operator operand span : armed operand = true ->
  sound (unary str_debug steps expression operator operand span) (mkExpression (EUnary operator operand) span).
Proof.
  intros Harm a Q Ha HQ. apply holds_bind, (He operand Harm); [done|]. intros info a1 S1 Hi. cbv zeta.
  apply holds_bind, holds_unify; [known|destruct operator; by apply closed_ok|apply Hi|]. intros t a2 S2 Ht HE.
  apply holds_accept, HQ; [known|]. split; [done|]. intros Hg gamma x fs Hag Hw.
  assert (gives a2 operand info) as [_ HI] by known. destruct (HE Hg) as [E1 E2]. simpl. rewrite <- E1.
  specialize (HI Hg gamma x fs Hag Hw). rewrite E2, <- E1 in HI.
  destruct operator; [by apply t_not|by apply t_negate].
Qed.

Lemma field_sound value field span : armed value = true ->
  sound (field_access str_debug expression value field span) (mkExpression (EFieldAccess value field) span).
Proof.
  intros Harm a Q Ha HQ. apply holds_bind, holds_analyzer. cbv zeta. apply holds_bind, holds_quiet; [done|done|].
  intros a1 S1. apply holds_bind, (He value Harm); [known|]. intros info a2 S2 Hi.
  apply holds_bind, holds_field_error, holds_require_field; [known|apply Hi|]. intros t a3 S3 Ht HF.
  apply holds_accept, HQ; [known|]. split; [done|]. intros Hg gamma x fs Hag Hw.
  assert (gives a3 value info) as [_ HI] by known. destruct (HF Hg) as (gs & E & Hget).
  specialize (HI Hg gamma x fs Hag Hw). rewrite E in HI. by eapply t_field.
Qed.

(** A name is typed unless it has been resolved to [json_decode]. *)
Definition gives_name (a : Analyzer) (e : Expression) (info : ExpressionInfo) (resolved : option ResolvedName) : Prop :=
  ty_ok a (info_ty info)
  /\ (good a -> resolved <> Some (ResolvedBuiltin BiJsonDecode) -> forall gamma x fs, agrees gamma x a ->
        within (info_effects info) fs -> typed gamma x fs e (tr (info_ty info))).

Definition sound_name (m : check (ExpressionInfo * option ResolvedName)) (e : Expression) : Prop :=
  forall a (Q : ExpressionInfo * option ResolvedName -> Analyzer -> Prop), inv a ->
  (forall info resolved a', step a a' -> gives_name a' e info resolved -> Q (info, resolved) a') -> holds m a Q.

Lemma unresolved_sound m e : sound m e -> sound_name (unresolved m) e.
Proof.
  intros Hm a Q Ha HQ. apply holds_bind, Hm; [done|]. intros info a1 S1 [Hok HT]. apply holds_accept, HQ; [done|].
  split; [done|]. intros Hg _. by apply HT.
Qed.

Lemma variable_sound name span : sound_name (variable name span) (mkExpression (EVariable name) span).
Proof.
  intros a Q Ha HQ. apply holds_bind, holds_lookup; [done|]. intros t resolved a1 S1 Ht HT. cbn beta iota.
  apply holds_bind.
  match goal with |- holds ?m a1 ?Q' => assert (holds m a1 (fun _ a2 => step a1 a2)) as HU end.
  { assert (inv a1) by known. destruct resolved as [id|b]; case_match; try (by apply holds_accept, step_refl);
      by apply holds_quiet. }
  eapply holds_weaken; [exact HU|]. intros [] a2 S2. cbn beta. apply holds_accept, HQ; [known|].
  split; [simpl; known|]. intros Hg Hr gamma x fs Hag _. apply HT; [known|congruence|].
  by apply (agrees_step rho _ _ _ _ S2).
Qed.

Lemma closed_sound t e : closed_type t ->
  (forall gamma x fs, typed gamma x fs e (tr t)) -> sound (accept (pure t)) e.
Proof. intros Hc HT a Q Ha HQ. apply holds_accept, HQ; [known|]. split; [by apply closed_ok|]. intros; apply HT. Qed.

Lemma contents_sound e : armed e = true ->
  sound (expression_contents str_debug url_parse steps expression block e) e.
Proof.
  intros Harm. destruct e as [kind span]. intros a Q Ha HQ. unfold expression_contents. apply holds_bind.
  match goal with |- holds ?m a _ => assert (sound_name m (mkExpression kind span)) as HS end.
  { pose proof Harm as Hparts. cbn [armed] in Hparts.
    destruct kind; repeat (apply andb_prop in Hparts as [Hparts ?Hpart]); try apply unresolved_sound.
    - destruct literal; apply closed_sound; try done; constructor.
    - by apply interpolation_sound.
    - apply closed_sound; [done|constructor].
    - apply variable_sound.
    - by apply list_sound.
    - by apply entry_list_sound.
    - by apply record_sound.
    - by apply construction_sound.
    - by apply field_sound.
    - intros a1 Q1 Ha1 HQ1. apply (Hb _ Hparts); [done|]. intros info a2 S2 [Hok HT]. apply HQ1; [done|].
      split; [done|]. intros Hg gamma x fs Hag Hw. by apply t_block, HT.
    - by apply if_sound.
    - by apply function_sound.
    - by apply call_sound.
    - by apply propagate_sound.
    - by apply match_sound.
    - by apply unary_sound.
    - by apply binary_sound. }
  apply HS; [done|]. intros info resolved a1 S1 [Hok HT]. cbn beta iota. apply holds_bind, holds_record; [known|].
  intros a2 S2 HR. apply holds_accept, HQ; [known|]. split; [known|]. intros Hg gamma x fs Hag Hw.
  apply HT; [known|by apply HR|by apply (agrees_step rho _ _ _ _ S2)|done].
Qed.

(** ** Statements *)

Definition gives_statement (a a' : Analyzer) (st : Statement) (effects : InferEffects) : Prop :=
  good a' -> forall gamma x fs, agrees gamma x a -> within effects fs ->
    exists gamma', typed_statement gamma x fs st gamma' /\ agrees gamma' x a'.

Definition sound_statement (m : check InferEffects) (st : Statement) : Prop :=
  forall a (Q : InferEffects -> Analyzer -> Prop), inv a ->
  (forall effects a', moves a a' -> gives_statement a a' st effects -> Q effects a') -> holds m a Q.

Lemma holds_annotated annotation t context a (Q : InferType -> Analyzer -> Prop) :
  inv a -> ty_ok a t ->
  (forall u a', step a a' -> ty_ok a' u -> (good a' -> tr t = tr u /\ respects annotation (tr u)) -> Q u a') ->
  holds (annotated str_debug steps annotation t context) a Q.
Proof.
  intros Ha Ht HQ. destruct annotation as [[kind span]|]; cbn [annotated]; [|by apply holds_accept, HQ; [known| |]].
  assert (closed_type (annotation_type (mkTypeAnnotation kind span))) as Hc by apply annotation_closed.
  apply holds_bind, holds_unify; [done|by apply closed_ok|done|]. intros w a1 S1 Hw HE.
  apply holds_accept, HQ; [done|by apply closed_ok|]. intros Hg. destruct (HE Hg). split; [congruence|apply annotation_tr].
Qed.

Lemma holds_top a (Q : bool -> Analyzer -> Prop) : (forall top, Q top a) -> holds top_level a Q.
Proof. intros HQ. by apply holds_bind, holds_analyzer, holds_accept. Qed.

Lemma holds_push_binding id name t span top a (Q : unit -> Analyzer -> Prop) :
  inv a -> (forall a', step a a' -> Q tt a') -> holds (push_binding id name t span top) a Q.
Proof. intros Ha HQ. by apply holds_quiet. Qed.

Lemma let_sound name annotation value span : armed value = true ->
  sound_statement (let_statement str_debug steps expression name annotation value span)
    (mkStatement (SLet name annotation value) span).
Proof.
  intros Harm a Q Ha HQ. apply holds_bind, holds_ensure, holds_bind, (He value Harm); [done|]. intros info a1 S1 Hi.
  apply holds_bind, holds_annotated; [known|apply Hi|]. intros u a2 S2 Hu HA.
  apply holds_bind, holds_new_type; [known|]. intros t a3 S3 Ht.
  apply holds_bind, holds_unify; [known|known|known|]. intros w a4 S4 Hw HE.
  apply holds_bind, holds_top. intros top. apply holds_bind, holds_define; [known|known|]. intros id a5 M5 Hd.
  apply holds_bind, holds_push_binding; [apply M5|]. intros a6 S6. assert (step a a4) as S04 by known.
  apply holds_accept, HQ; [eauto using moves_trans, step_moves|]. intros Hg gamma x fs Hag Hw'.
  assert (good a5) as Hg5 by known. assert (good a4) as Hg4 by (by apply M5).
  assert (good a2) as Hg2 by known. destruct (HE Hg4), (HA Hg2) as [E HR].
  apply (agrees_step rho _ _ _ _ S04) in Hag. exists ((name, tr t) :: gamma). split.
  - assert (gives a4 value info) as [_ HI] by known. assert (tr t = tr u) as -> by congruence.
    apply t_let; [rewrite <- E; by apply HI|done].
  - by apply (agrees_step rho _ _ _ _ S6), Hd.
Qed.

(** The payload of a variant of the subject. *)
Lemma payload_tree d payload error v :
  d = match variant_family v with FamilyOption => TOption (tr payload) | FamilyResult => TResult (tr payload) (tr error) end ->
  variant_payload d v = Some (if bool_decide (v = VNone) then None else Some (tr (payload_of payload error v))).
Proof. intros ->. by destruct v. Qed.

Definition bind_option (binding : option string) (d : Tree) (gamma : Context) : Context :=
  match binding with Some name => (name, d) :: gamma | None => gamma end.

Lemma bind_payload_option v binding span d gamma : check_binder v binding span = Ok tt ->
  bind_payload binding (if bool_decide (v = VNone) then None else Some d) gamma = Some (bind_option binding d gamma).
Proof. unfold check_binder. by destruct v, binding. Qed.

Lemma holds_let_else_subject v t span a (Q : InferType * InferType -> Analyzer -> Prop) :
  inv a -> ty_ok a t ->
  (forall payload error a', step a a' -> ty_ok a' payload -> ty_ok a' error ->
     (good a' -> tr t = match variant_family v with
                        | FamilyOption => TOption (tr payload) | FamilyResult => TResult (tr payload) (tr error) end) ->
     Q (payload, error) a') ->
  holds (let_else_subject str_debug steps v t span) a Q.
Proof.
  intros Ha Ht HQ. unfold let_else_subject. apply holds_bind, holds_state. cbv beta zeta. destruct (let_else_head _ _); [|done].
  apply holds_bind, holds_new_type; [done|]. intros payload a1 S1 Hp.
  apply holds_bind, holds_new_type; [known|]. intros error a2 S2 Her. cbv zeta.
  apply holds_bind, holds_unify; [known| |known|].
  { destruct (variant_family v); [simpl; known|apply result_ok_type; known]. }
  intros u a3 S3 Hu HE. apply holds_accept, HQ; [known|known|known|]. intros Hg. destruct (HE Hg) as [E1 E2].
  rewrite E2, <- E1. by destruct (variant_family v).
Qed.

Lemma holds_let_else_result head at_block a (Q : InferType -> Analyzer -> Prop) :
  inv a ->
  (forall r, ty_ok a r -> (forall gamma x, agrees gamma x a -> x = Some (tr r)) -> Q r a) ->
  holds (let_else_result head at_block) a Q.
Proof.
  intros Ha HQ. unfold let_else_result. cbv zeta. apply holds_bind, holds_analyzer.
  destruct (an_let_else_bodies a) as [|[body r|] bodies] eqn:E; [done| |done].
  cbv beta. case_match; [|done]. apply holds_accept, HQ.
  - destruct Ha as [_ _ _ _ B]. rewrite E in B. by inversion B.
  - intros gamma x (_ & _ & Hx). by rewrite E in Hx.
Qed.

Lemma holds_arm_binding binding t span a (Q : unit -> Analyzer -> Prop) :
  inv a -> ty_ok a t ->
  (forall a', moves a a' -> (forall gamma x, agrees gamma x a -> agrees (bind_option binding (tr t) gamma) x a') -> Q tt a') ->
  holds (match binding with
         | Some name => let^ _ := define_symbol name t span KindMatch false in accept tt
         | None => accept tt
         end) a Q.
Proof.
  intros Ha Ht HQ. destruct binding as [name|]; [|apply holds_accept, HQ; [by apply moves_refl|done]].
  apply holds_bind, holds_define; [done|done|]. intros id a1 M1 Hd. by apply holds_accept, HQ.
Qed.

Lemma holds_kept_binding binding t span a (Q : unit -> Analyzer -> Prop) :
  inv a -> ty_ok a t ->
  (forall a', moves a a' ->
     (good a' -> forall gamma x, agrees gamma x a -> agrees (bind_option binding (tr t) gamma) x a') -> Q tt a') ->
  holds (match binding with
         | Some name =>
             let^ binding_type := new_type in
             let^ _ := unify binding_type t span "let-else binding" in
             let^ id := define_symbol name binding_type span KindLet false in
             push_binding id name binding_type span false
         | None => accept tt
         end) a Q.
Proof.
  intros Ha Ht HQ. destruct binding as [name|]; [|apply holds_accept, HQ; [by apply moves_refl|done]].
  apply holds_bind, holds_new_type; [done|]. intros u a1 S1 Hu.
  apply holds_bind, holds_unify; [known|done|known|]. intros w a2 S2 Hw HE. assert (step a a2) as S02 by known.
  apply holds_bind, holds_define; [known|known|]. intros id a3 M3 Hd. apply holds_push_binding; [apply M3|].
  intros a4 S4. apply HQ; [eauto using moves_trans, step_moves|]. intros Hg gamma x Hag.
  assert (good a3) as Hg3 by known. assert (good a2) as Hg2 by (by apply M3). destruct (HE Hg2) as [E1 E2].
  apply (agrees_step rho _ _ _ _ S4). simpl. rewrite E2, <- E1. by apply Hd, (agrees_step rho _ _ _ _ S02).
Qed.

Lemma let_else_sound pattern annotation value else_span arm at_block span :
  armed_statement (mkStatement (SLetElse pattern annotation value else_span arm) span) = true ->
  sound_statement (let_else str_debug steps expression span at_block pattern annotation value arm)
    (mkStatement (SLetElse pattern annotation value else_span arm) span).
Proof.
  destruct arm as [variant binding fallback arm_span]. cbn [armed_statement]. intros [Hv Hf]%andb_prop a Q Ha HQ.
  apply holds_bind, holds_let_else_result; [done|]. intros r Hr HX. cbv zeta.
  case_bool_decide as Hcomp; [|done]. cbn [negb].
  apply holds_bind, holds_result. intros [] Hkept. apply holds_bind, holds_result. intros [] Htaken.
  apply holds_bind. eapply (holds_weaken _ _ (fun _ a1 => a1 = a)); [destruct (vp_binding pattern); [by apply holds_ensure|done]|].
  intros [] _ ->. apply holds_bind, (He value Hv); [done|]. intros info a1 S1 Hi.
  apply holds_bind, holds_annotated; [known|apply Hi|]. intros u a2 S2 Hu HA.
  apply holds_bind, holds_let_else_subject; [known|done|]. intros payload error a3 S3 Hp Her HS. cbn beta iota.
  assert (forall b w, ty_ok b payload -> ty_ok b error -> ty_ok b (payload_of payload error w)) as Hpay by (by intros b []).
  apply holds_bind, holds_push; [known|]. intros a4 P4.
  apply holds_bind, holds_arm_binding; [apply P4|eapply pushed_ty_ok; [exact P4|by apply Hpay]|]. intros a5 M5 Hd5.
  apply holds_bind, (He fallback Hf); [apply M5|]. intros taken a6 S6 [Hok6 HT6].
  apply holds_bind, (holds_pop a3 a4 a6); [done|eapply moves_trans; [exact M5|apply S6]|]. intros a7 S7 Hg7 Hk7.
  assert (step a a3) as S03 by known. assert (step a a7) as S07 by known.
  apply holds_bind, holds_unify; [known|known|by apply Hk7|]. intros w a8 S8 Hw HE.
  apply holds_bind, holds_kept_binding; [known|apply Hpay; known|]. intros a9 M9 Hd9.
  apply holds_accept, HQ; [eauto using moves_trans, step_moves|]. intros Hg gamma x fs Hag [Hw1 Hw2]%within_union.
  assert (good a8) as Hg8 by (by apply M9). destruct (HE Hg8) as [E1 E2]. assert (good a2) as Hg2 by known.
  destruct (HA Hg2) as [EA HR]. assert (good a3) as Hg3 by known. specialize (HS Hg3).
  pose proof (HX gamma x Hag) as Hx. assert (agrees gamma x a3) as Hag3 by (by apply (agrees_step rho _ _ _ _ S03)).
  assert (agrees gamma x a8) as Hag8 by (by apply (agrees_step rho _ _ _ _ S8), (agrees_step rho _ _ _ _ S07)).
  exists (bind_option (vp_binding pattern) (tr (payload_of payload error (vp_variant pattern))) gamma).
  split; [|by apply Hd9]. subst x.
  eapply (t_let_else gamma (tr r) fs pattern annotation value else_span variant binding fallback arm_span span (tr u)
            _ _ _ (bind_option binding (tr (payload_of payload error variant)) gamma)).
  - assert (gives a3 value info) as [_ HI] by known. rewrite <- EA. by apply HI.
  - done.
  - done.
  - by apply payload_tree.
  - apply (payload_tree _ payload error). subst variant. rewrite HS. by destruct (vp_variant pattern).
  - by eapply bind_payload_option.
  - by eapply bind_payload_option.
  - assert (tr (info_ty taken) = tr r) as Er by congruence. rewrite <- Er at 2.
    apply HT6; [apply Hg7; known| |done].
    by apply (agrees_step rho _ _ _ _ S6), Hd5, (pushed_agrees rho _ _ _ _ P4).
Qed.

(** What [?] may exit from a named function. *)
Lemma named_exit name return_type r a body :
  ty_ok a r -> exit_ok a (named_exit_context name return_type r)
  /\ frame_agrees (named_exit_context name return_type r) (LetElseNamed body r) (Some (tr r)).
Proof.
  intros Hr. unfold named_exit_context, frame_agrees, exit_agrees.
  destruct return_type as [an|]; [|done]. destruct r; try done; simpl.
  - split; [done|]. split; [by eexists|done].
  - split; [|split; [by eexists|done]].
    destruct Hr as [[S1 S2] [C1 C2]]. split; [done|]. split; intros v Hv; (apply C1 || apply C2); simpl; apply elem_of_app; auto.
Qed.

Lemma declaration_sound kind name ps return_type body span :
  declares kind = Some (name, ps, return_type, body) -> armed_block body = true ->
  sound_statement (declaration str_debug steps block kind name ps return_type body span) (mkStatement kind span).
Proof.
  intros Hkind Harm a Q Ha HQ. apply holds_bind, holds_top. intros top. apply holds_bind, holds_result.
  intros entrypoint _. cbv zeta. apply holds_bind, holds_ensure, holds_bind, holds_declareds; [done|].
  intros ts a1 S1 Hts Hps. apply holds_bind, holds_declared; [known|]. intros r a2 S2 Hr Hres.
  apply holds_bind, holds_new_effect; [known|]. intros e a3 S3 Hlt. assert (step a a3) as S03 by known.
  assert (Forall (ty_ok a3) ts) as Hts3 by (eapply Forall_impl; [exact Hts|]; intros; known).
  assert (length ps = length ts) as Hl by (apply Forall2_length in Hps; by rewrite length_map in Hps).
  assert (ty_ok a3 (IFunction ts r e)) as Hf by (apply function_type_ok; [done|known|done]).
  apply holds_bind, holds_define; [known|done|]. intros id a4 M4 Hd.
  set (exit := match kind with SWebhook _ _ _ _ _ => _ | _ => _ end).
  assert (exit_ok a4 exit /\ frame_agrees exit (LetElseNamed (block_span body) r) (Some (tr r))) as [Hex Hfr].
  { assert (ty_ok a4 r) as Hr4 by (eapply moves_ty_ok; [exact M4|known]).
    destruct (named_exit name return_type r a4 (block_span body) Hr4). destruct kind; try done. }
  apply body_sound; [done|apply M4|done| | |done| | |].
  { simpl. eapply moves_ty_ok; [exact M4|known]. }
  { eapply Forall_impl; [exact Hts3|]. intros t. by apply moves_ty_ok with (1 := M4). }
  { eapply moves_ty_ok; [exact M4|known]. }
  { destruct (mv_grown _ _ _ M4) as [_ G _]. lia. }
  intros info a5 S5 HT. apply holds_bind.
  match goal with |- holds ?m a5 _ => assert (holds m a5 (fun _ a6 => step a5 a6)) as HU end.
  { assert (inv a5) by known. destruct entrypoint as [[k [requirement|]]|]; try by apply holds_accept, step_refl.
    apply holds_define_effect; [done| |by intros]. destruct (mv_grown _ _ _ M4), (mv_grown _ _ _ (step_moves _ _ _ S5)). lia. }
  eapply holds_weaken; [exact HU|]. intros [] a6 S6. cbn beta. apply holds_bind, holds_push_binding; [known|].
  intros a7 S7. assert (step a4 a7) as S47 by known.
  apply holds_accept, HQ; [eauto using moves_trans, step_moves|]. intros Hg gamma x fs Hag _.
  apply (agrees_step rho _ _ _ _ S03), Hd in Hag. exists ((name, tr (IFunction ts r e)) :: gamma).
  split; [|by apply (agrees_step rho _ _ _ _ S47)]. assert (good a5) as Hg5 by known.
  apply (agrees_step rho _ _ _ _ S5) in Hag. specialize (HT Hg5 _ x _ Hag Hfr). simpl in HT |- *.
  destruct (effects_value rho e) as [gs qs]. by eapply t_declaration.
Qed.

Lemma statement_sound st at_block : armed_statement st = true ->
  sound_statement (statement str_debug steps expression block st at_block) st.
Proof.
  destruct st as [kind span]. intros Harm. destruct kind; cbn [statement]; try (by apply declaration_sound).
  - by apply let_sound.
  - by apply let_else_sound.
  - intros a Q Ha HQ. apply holds_bind, (He _ Harm); [done|]. intros info a1 S1 [_ HT].
    apply holds_accept, HQ; [apply S1|]. intros Hg gamma x fs Hag Hw. apply (agrees_step rho _ _ _ _ S1) in Hag.
    exists gamma. split; [by eapply t_expression, HT|done].
Qed.

Lemma statements_sound sts at_block effects a (Q : InferEffects -> Analyzer -> Prop) :
  forallb armed_statement sts = true -> inv a ->
  (forall effects' a', moves a a' -> (forall fs, within effects' fs -> within effects fs) ->
     (good a' -> forall gamma x fs, agrees gamma x a -> within effects' fs ->
        exists gamma', typed_statements gamma x fs sts gamma' /\ agrees gamma' x a') -> Q effects' a') ->
  holds (statements str_debug steps expression block sts at_block effects) a Q.
Proof.
  revert effects a Q. induction sts as [|st sts IH]; intros effects a Q Harm Ha HQ; cbn [statements].
  - apply holds_accept, HQ; [by apply moves_refl|done|]. intros _ gamma x fs Hag Hw. exists gamma.
    split; [constructor|done].
  - cbn [forallb] in Harm. apply andb_prop in Harm as [H1 H2]. apply holds_bind, statement_sound; [done|done|].
    intros own a1 M1 HS. apply IH; [done|apply M1|]. intros effects' a2 M2 HW HT. apply HQ; [by eapply moves_trans| |].
    { intros fs Hw. by apply HW, within_union in Hw as []. }
    intros Hg gamma x fs Hag Hw. pose proof (HW fs Hw) as [Hw1 Hw2]%within_union.
    destruct (HS ltac:(by apply M2) gamma x fs Hag Hw2) as (gamma1 & Hty & Hag1).
    destruct (HT Hg gamma1 x fs Hag1 Hw) as (gamma2 & Htys & Hag2). exists gamma2. split; [by econstructor|done].
Qed.

Lemma block_contents_sound b : armed_block b = true ->
  sound_block (block_contents str_debug steps expression block b) b.
Proof.
  destruct b as [sts tail span]. cbn [armed_block]. intros [Hsts Htail]%andb_prop a Q Ha HQ. unfold block_contents.
  apply holds_bind, holds_push; [done|]. intros a1 P1. apply holds_bind, statements_sound; [done|apply P1|].
  intros effects a2 M2 _ HT. apply holds_bind.
  match goal with |- holds ?m a2 _ => assert (holds m a2 (fun info a3 => step a2 a3 /\ ty_ok a3 (info_ty info)
    /\ (good a3 -> forall gamma x fs, agrees gamma x a1 -> within (info_effects info) fs ->
          typed_block gamma x fs (mkBlock sts tail span) (tr (info_ty info))))) as HB end.
  { assert (inv a2) as Ha2 by apply M2. destruct tail as [e|].
    - apply holds_bind, (He e Htail); [done|]. intros info a3 S3 [Hok HI]. apply holds_accept. split; [done|]. split; [done|].
      intros Hg gamma x fs Hag [Hw1 Hw2]%within_union. destruct (HT ltac:(known) gamma x fs Hag Hw1) as (gamma' & Htys & Hag2).
      eapply t_body; [exact Htys|]. apply HI; [done|by apply (agrees_step rho _ _ _ _ S3)|done].
    - apply holds_accept. split; [known|]. split; [by apply closed_ok|]. intros Hg gamma x fs Hag Hw.
      destruct (HT Hg gamma x fs Hag Hw) as (gamma' & Htys & _). by eapply t_body_unit. }
  eapply holds_weaken; [exact HB|]. intros info a3 (S3 & Hok & HI). cbn beta.
  apply holds_bind, (holds_pop a a1 a3); [done|eapply moves_trans; [exact M2|apply S3]|]. intros a4 S4 Hg4 Hk4.
  apply holds_bind, holds_quiet; [done|known|]. intros a5 S5. apply holds_accept, HQ; [known|].
  split; [eapply step_ty_ok; [exact S5|by apply Hk4]|]. intros Hg gamma x fs Hag Hw.
  apply HI; [apply Hg4; known| |done]. assert (step a a5) as S by known.
  by apply (pushed_agrees rho _ _ _ _ P1), (agrees_step rho _ _ _ _ S).
Qed.
End Contents.

(** ** The recursion *)

Lemma holds_nested {A} span (m : check A) a (Q : A -> Analyzer -> Prop) :
  inv a ->
  (forall a1, step a a1 -> holds m a1 (fun x a2 => inv a2 /\ forall a3, step a2 a3 -> Q x a3)) ->
  holds (nested span m) a Q.
Proof.
  intros Ha HQ. unfold holds, nested, check_bind, enter in *. destruct (_ <=? an_depth a); [done|].
  assert (step a (set_depth (an_depth a + 1) a)) as S1 by (by apply quiet_step).
  specialize (HQ _ S1). destruct (m (set_depth (an_depth a + 1) a)) as [a2 [x| | |]]; try done.
  destruct HQ as [Ha2 HQ]. apply HQ. by apply quiet_step.
Qed.

Lemma nested_sound span m e : sound m e -> sound (nested span m) e.
Proof.
  intros Hm a Q Ha HQ. apply holds_nested; [done|]. intros a1 S1. apply Hm; [known|]. intros info a2 S2 Hi.
  split; [known|]. intros a3 S3. apply HQ; known.
Qed.

Lemma nested_sound_block span m b : sound_block m b -> sound_block (nested span m) b.
Proof.
  intros Hm a Q Ha HQ. apply holds_nested; [done|]. intros a1 S1. apply Hm; [known|]. intros info a2 S2 Hi.
  split; [known|]. intros a3 S3. apply HQ; known.
Qed.

(** Everything [expression] and [block] accept is typed. *)
Lemma walk_sound fuel :
  (forall e, armed e = true -> sound (expression str_debug url_parse steps fuel e) e)
  /\ (forall b, armed_block b = true -> sound_block (block str_debug url_parse steps fuel b) b).
Proof.
  induction fuel as [|fuel [IHe IHb]]; [split; intros ? _ a Q _ _; apply holds_exhausted|].
  split; intros ? Harm; simpl.
  - by apply nested_sound, contents_sound.
  - by apply nested_sound_block, block_contents_sound.
Qed.
End Soundness.
