(* ===== verification/Accepted.v ===== *)
(** * Accepted programs do not go wrong

    The valuation that solves a finished analysis, and what acceptance means:
    unbound variables stand for integers, effects for the sets the analyzer
    expands.  The checks after the walk establish its constraints, so what the
    walk accepts is typed ([Soundness]), and what is typed runs ([TypeSafety]). *)

From S2P Require Import Prelude Utf8 Tokens Lexer ParserFacts Values ValueTypes Evaluator Samples EvaluatorFacts TypeSafety.
From S2P Require Import BTree Syntax Habits Sorting Types Parser ParserSpec Infer InferWf OccursFacts TypeTrees.
From S2P Require Import Patterns Construction Capability Builtins Normalize Analyzer Requirements Analysis.
From S2P Require Import UnifyParts UnifyVars UnifyResults Typing AnalyzerFacts Soundness.

(** ** Parsed matches have arms *)

(** What the grammar derives from some tokens. *)
Definition derived (e : Expression) : Prop := exists level ts, DerivesExpression level ts e.
Definition derived_block (b : Block) : Prop := exists ts, DerivesBlock ts b.

Definition derived_statement (s : Statement) : Prop :=
  match s with
  | mkStatement kind _ =>
      match kind with
      | SLet _ _ value => derived value
      | SLetElse _ _ value _ (mkVariantArm _ _ fallback _) => derived value /\ derived fallback
      | SFunction _ _ _ body _ | SWebhook _ _ _ body _ | SQueueConsumer _ _ _ _ _ body _
      | SScheduleHandler _ _ _ _ _ body _ => derived_block body
      | SExpression e => derived e
      end
  end.

(** The parts of a derived expression are derived, and a match has arms. *)
Definition derived_parts (kind : ExpressionKind) : Prop :=
  match kind with
  | ELiteral _ | EUnit | EVariable _ => True
  | EInterpolation parts =>
      Forall (fun part => match part with PartText _ _ => True | PartHole value _ => armed value = true end) parts
  | EList elements => Forall derived elements
  | EEntryList entries => Forall (fun '(mkListEntry key value _) => derived key /\ derived value) entries
  | ERecord fields => Forall (fun '(mkRecordField _ value _) => derived value) fields
  | EConstruct _ _ fields => Forall (fun '(mkConstructField _ _ value _) => derived value) fields
  | EFieldAccess value _ => derived value
  | EBlock block => derived_block block
  | EIf condition consequent alternative => derived condition /\ derived_block consequent /\ derived alternative
  | EFunction _ _ body => derived_block body
  | ECall callee arguments => derived callee /\ Forall derived arguments
  | EPropagate operand _ => derived operand
  | EMatch subject arms =>
      derived subject /\ arms <> [] /\ Forall (fun '(mkMatchArm _ value _) => derived value) arms
  | EUnary _ operand => derived operand
  | EBinary lhs _ rhs => derived lhs /\ derived rhs
  end.

Lemma commas_all {A} (R : list Token -> A -> Prop) (P : A -> Prop) ts l :
  (forall us a, R us a -> P a) -> CommaList R ts l -> Forall P l.
Proof.
  intros HR. assert (forall ts l, Elements R ts l -> Forall P l) as HE.
  { induction 1; [constructor|]. apply Forall_app. split; [done|]. apply Forall_singleton. by eapply HR. }
  intros [? ? E|? ? ? ? E Ha]; [by eapply HE|]. apply Forall_app. split; [by eapply HE|]. apply Forall_singleton. by eapply HR.
Qed.

Lemma hole_armed path value : hole_value path = Some value -> armed value = true.
Proof.
  destruct path as [|[name span] fields]; [done|]. simpl. intros [= <-].
  assert (forall e, armed e = true -> armed (foldl (fun value '(field, field_span) =>
    mkExpression (EFieldAccess value field) (span_join (expression_span value) field_span)) e fields) = true) as H.
  { induction fields as [|[field sp] fields IH]; intros e He; simpl; [done|]. by apply IH. }
  by apply H.
Qed.

Lemma derived_intro level ts e : DerivesExpression level ts e -> derived e.
Proof. intros D. by exists level, ts. Qed.

Lemma derived_block_intro ts b : DerivesBlock ts b -> derived_block b.
Proof. intros D. by exists ts. Qed.

Lemma if_derived ts e : DerivesIf ts e -> derived e.
Proof. intros D. by eapply derived_intro, derives_if_expression. Qed.

Lemma else_derived ts e : DerivesElse ts e -> derived e.
Proof.
  intros [ts' b D|ts' e' D]; [|by eapply if_derived]. by eapply derived_intro, derives_block_expression.
Qed.

Lemma expression_parts level ts e : DerivesExpression level ts e -> derived_parts (expression_kind e).
Proof.
  induction 1; try done; simpl; eauto using derived_intro, derived_block_intro, commas_all.
  - match goal with H : Forall2 _ _ _ |- _ => induction H as [|? ? ? ? Hp] end; constructor; [|done].
    destruct Hp; [done|]. by eapply hole_armed.
  - eapply commas_all; [|eassumption]. intros us a [ts' key colon us' value D1 _ D2]. eauto using derived_intro.
  - eapply commas_all; [|eassumption]. intros us a [n name colon ts' value _ _ D]. eauto using derived_intro.
  - eapply commas_all; [|eassumption].
    intros us a [m field colon ts' value _ _ D|m field Hm]; [by eapply derived_intro|].
    replace (token_span m) with (over [m]) by (unfold over; simpl; by destruct (token_span m)).
    by eapply derived_intro, derives_variable.
  - match goal with H : DerivesIf _ _ |- _ => destruct H as [i ts condition us consequent e vs alternative _ D1 D2 _ D3] end.
    simpl. split; [by eapply derived_intro|]. split; [by eapply derived_block_intro|by eapply else_derived].
  - split; [by eapply derived_intro|]. split; [done|]. eapply commas_all; [|eassumption].
    intros vs a [ts' p b us' value _ _ D]. eauto using derived_intro.
Qed.


Lemma statement_parts ts s : DerivesStatement ts s -> derived_statement s.
Proof.
  intros D. destruct D as [? ? ? ? ? ? ? ? ? _ _ _ _ _ D _|? ? ? ? ? ? ? ? ? ? arm ? _ _ _ _ D _ DA _|? ? ? ? ? ? ? ? ? ? _ _ _ _ _ D|? ? ? D _];
    simpl; [by eapply derived_intro| |by eapply derived_block_intro|by eapply derived_intro].
  destruct DA as [? ? ? ? fallback _ _ D2]. split; by eapply derived_intro.
Qed.

Lemma block_parts ts sts tail span : DerivesBlock ts (mkBlock sts tail span) ->
  Forall derived_statement sts /\ match tail with Some e => derived e | None => True end.
Proof.
  intros D. inversion D as [o ts1 sts1 us tail1 c _ D1 D2 _]; subst. split.
  - clear D D2. induction D1 as [|ts1 l us1 s D1 IH Ds]; [constructor|]. apply Forall_app.
    split; [done|]. apply Forall_singleton. by eapply statement_parts.
  - destruct D2; [done|]. by eapply derived_intro.
Qed.

Fixpoint all_parts {A} (f : A -> bool) (P : A -> Prop) (Hf : forall a, P a -> f a = true) (l : list A)
  : Forall P l -> forallb f l = true :=
  match l with
  | [] => fun _ => eq_refl
  | a :: l' => fun H => andb_true_intro (conj (Hf a (Forall_inv H)) (all_parts f P Hf l' (Forall_inv_tail H)))
  end.

Lemma derived_armed : forall e, derived e -> armed e = true
with derived_block_armed : forall b, derived_block b -> armed_block b = true
with derived_statement_armed : forall s, derived_statement s -> armed_statement s = true.
Proof.
  - intros [kind span] (level & ts & D%expression_parts). cbn [expression_kind] in D.
    destruct kind as [| | | |es|entries|fields|? ? fields|e|b|c b e|? ? b|e es|e|e arms|? e|l o r];
      cbn [armed derived_parts] in *; try reflexivity.
    + apply (all_parts _ _) with (2 := D). by intros [].
    + exact (all_parts _ _ derived_armed es D).
    + refine (all_parts _ _ _ entries D). intros [key value sp] [H1 H2].
      exact (andb_true_intro (conj (derived_armed key H1) (derived_armed value H2))).
    + refine (all_parts _ _ _ fields D). intros [name value sp] H. exact (derived_armed value H).
    + refine (all_parts _ _ _ fields D). intros [name name_span value sp] H. exact (derived_armed value H).
    + exact (derived_armed e D).
    + exact (derived_block_armed b D).
    + destruct D as (H1 & H2 & H3).
      exact (andb_true_intro (conj (andb_true_intro (conj (derived_armed c H1) (derived_block_armed b H2))) (derived_armed e H3))).
    + exact (derived_block_armed b D).
    + destruct D as [H1 H2]. exact (andb_true_intro (conj (derived_armed e H1) (all_parts _ _ derived_armed es H2))).
    + exact (derived_armed e D).
    + destruct D as (H1 & H2 & H3).
      refine (andb_true_intro (conj (andb_true_intro (conj (derived_armed e H1) _)) (all_parts _ _ _ arms H3))); [by destruct arms|].
      intros [pattern value sp] H. exact (derived_armed value H).
    + exact (derived_armed e D).
    + destruct D as [H1 H2]. exact (andb_true_intro (conj (derived_armed l H1) (derived_armed r H2))).
  - intros [sts tail span] (ts & [H1 H2]%block_parts). cbn [armed_block].
    refine (andb_true_intro (conj (all_parts _ _ derived_statement_armed sts H1) _)).
    destruct tail as [e|]; [exact (derived_armed e H2)|reflexivity].
  - intros [kind span] D. destruct kind as [? ? e|? ? e ? [? ? fallback ?]|? ? ? b|? ? ? b|? ? ? ? ? b|? ? ? ? ? b|e]; cbn [armed_statement derived_statement] in *.
    + exact (derived_armed e D).
    + destruct D as [H1 H2]. exact (andb_true_intro (conj (derived_armed e H1) (derived_armed fallback H2))).
    + exact (derived_block_armed b D).
    + exact (derived_block_armed b D).
    + exact (derived_block_armed b D).
    + exact (derived_block_armed b D).
    + exact (derived_armed e D).
Qed.

Lemma parsed_armed text tokens p :
  lex text = Scanned tokens -> parse text tokens = Parsed p -> forallb armed_statement (program_statements p) = true.
Proof.
  intros L%lexed_lexical E. pose proof (parse_wp _ _ L) as HP. rewrite E in HP. destruct HP as [[ts sts eof HD _ _] _]. simpl.
  induction HD as [|ts l us s _ IH Hs]; [done|]. rewrite forallb_app, IH. simpl. rewrite andb_true_r.
  apply derived_statement_armed. destruct Hs; [by eapply statement_parts|by eapply derived_block_intro..].
Qed.

(** ** Types of data *)

(** No function, secret or transaction outside the variables. *)
Fixpoint data_shape (t : InferType) : bool :=
  match t with
  | IDatabaseTransaction | ISecret | IFunction _ _ _ => false
  | IList t | IOption t => data_shape t
  | IResult t u => data_shape t && data_shape u
  | IRecord fs _ => forallb (fun f => data_shape (snd f)) fs
  | _ => true
  end.

Lemma shape_data rho t :
  data_shape t = true -> (forall v, v ∈ type_variables t -> data_tree (type_value rho v) = true) ->
  data_tree (tree_of rho t) = true.
Proof.
  induction t as [| | | | | | | | | | | |t IH|fs o IH|t IH|t u IHt IHu|ps r e IHp IHr|v]
    using infer_type_ind'; intros Hs Hv; try done.
  - by apply IH.
  - simpl in *. apply forallb_forall. intros g (f & <- & Hf)%in_map_iff. simpl.
    rewrite forallb_forall in Hs. rewrite Forall_forall in IH. apply list_elem_of_In in Hf as Hin. apply IH; [done|by apply Hs|].
    intros v Hin'. apply Hv, (elem_of_record_vars v fs o). by exists f.
  - by apply IH.
  - simpl in *. apply andb_prop in Hs as []. rewrite IHt, IHu; [done|done| |done|]; intros v Hin; apply Hv, elem_of_app; auto.
  - apply Hv. by apply list_elem_of_singleton.
Qed.

Lemma forallb_map_snd (fs : list (string * InferType)) :
  forallb data_shape (map snd fs) = forallb (fun f => data_shape (snd f)) fs.
Proof. induction fs as [|f fs IH]; simpl; [done|]. by rewrite IH. Qed.

Section Walk.
Context (s : Inference) (Hwf : wf s).

Fixpoint contains_any (hit : InferType -> bool) (fuel : nat) (l : list InferType) (visited : list nat)
  : bool * list nat :=
  match l with
  | [] => (false, visited)
  | t :: l' =>
      match contains_inner s hit fuel t visited with
      | (true, visited) => (true, visited)
      | (false, visited) => contains_any hit fuel l' visited
      end
  end.

Lemma contains_record hit fuel fs o vis :
  hit (IRecord fs o) = false ->
  contains_inner s hit fuel (IRecord fs o) vis = contains_any hit fuel (map snd fs) vis.
Proof.
  intros Hh. destruct fuel as [|fuel]; simpl; rewrite Hh; clear Hh; revert vis;
    (induction fs as [|f fs IH]; intros vis; simpl; [done|]);
    match goal with |- context [match ?x with _ => _ end] => destruct x as [[] vis'] end; auto.
Qed.

(** The walk has been over the roots, and over what is bound to each variable
    it has added. *)
Record seen (roots vis vis' : list nat) : Prop := {
  seen_grows : vis ⊆ vis';
  seen_roots : roots ⊆ vis';
  seen_closed : forall x t, x ∈ vis' -> x ∉ vis -> substitutions s !! x = Some t ->
    data_shape t = true /\ type_roots s t ⊆ vis';
}.

Lemma seen_app r1 r2 vis1 vis2 vis3 :
  seen r1 vis1 vis2 -> seen r2 vis2 vis3 -> seen (r1 ++ r2) vis1 vis3.
Proof.
  intros [A1 A2 A3] [B1 B2 B3]. split; [set_solver|set_solver|].
  intros x t Hx Hn Ht. destruct (decide (x ∈ vis2)) as [Hx2|Hn2]; [|eauto].
  destruct (A3 x t Hx2 Hn Ht). split; [done|set_solver].
Qed.

Lemma seen_none vis : seen [] vis vis.
Proof. split; [done|set_solver|done]. Qed.

Definition walked (fuel : nat) (t : InferType) : Prop :=
  forall vis vis', (unvisited s vis <= fuel)%nat -> contains_inner s is_not_data fuel t vis = (false, vis') ->
    data_shape t = true /\ seen (type_roots s t) vis vis'.

Lemma walked_any fuel l : Forall (walked fuel) l ->
  forall vis vis', (unvisited s vis <= fuel)%nat -> contains_any is_not_data fuel l vis = (false, vis') ->
    forallb data_shape l = true /\ seen (concat (map (type_roots s) l)) vis vis'.
Proof.
  induction 1 as [|t l Ht _ IH]; intros vis vis' Hvis; simpl.
  - intros [= <-]. split; [done|apply seen_none].
  - destruct (contains_inner s is_not_data fuel t vis) as [[] vis1] eqn:E; [done|]. intros E2.
    destruct (Ht vis vis1 Hvis E) as [H1 H2]. destruct (IH vis1 vis') as [H3 H4]; [|done|].
    { etrans; [|exact Hvis]. apply unvisited_mono, (seen_grows _ _ _ H2). }
    rewrite H1. split; [done|]. by eapply seen_app.
Qed.

Lemma walk_walked fuel t : walked fuel t.
Proof.
  revert t; induction fuel as [fuel IHf] using lt_wf_ind; intros t.
  induction t as [| | | | | | | | | | | |t IH|fs o IH|t IH|t u IHt IHu|ps r e IHp IHr|x]
    using infer_type_ind'; intros vis vis' Hvis E;
    try (by destruct fuel; simpl in E; injection E as <-; (split; [|apply seen_none])); try (by destruct fuel).
  - apply IH; [done|]. by destruct fuel.
  - rewrite contains_record in E by done. apply walked_any in E as [H1 H2]; [|by apply Forall_map|done].
    split; [simpl; by rewrite <- forallb_map_snd|]. destruct H2 as [A1 A2 A3]. split; [done| |done].
    intros y Hy. apply A2. apply list_elem_of_fmap in Hy as (z & -> & Hz).
    apply elem_of_record_vars in Hz as (f & Hf & Hz). apply (type_roots_any s _ _ (snd f)).
    { by apply list_elem_of_fmap_2. } by apply list_elem_of_fmap_2.
  - apply IH; [done|]. by destruct fuel.
  - assert (contains_any is_not_data fuel [t; u] vis = (false, vis')) as E2.
    { simpl. destruct fuel; simpl in E |- *; repeat case_match; simplify_eq; done. }
    apply walked_any in E2 as [H1 H2]; [|constructor; [exact IHt|constructor; [exact IHu|constructor]]|done]. simpl in H1, H2. rewrite andb_true_r in H1.
    split; [done|]. rewrite app_nil_r in H2. unfold type_roots. simpl. by rewrite map_app.
  - assert (contains_inner s is_not_data fuel (IVariable x) vis =
      let variable := root_variable s x in
      if bool_decide (variable ∈ vis) then (false, vis)
      else match substitutions s !! variable, fuel with
           | Some ty', S fuel' => contains_inner s is_not_data fuel' ty' (oset_insert variable vis)
           | _, _ => (false, oset_insert variable vis)
           end) as EV by (by destruct fuel).
    rewrite EV in E. cbv zeta in E. clear EV. split; [done|]. unfold type_roots. simpl. set (root := root_variable s x) in *.
    case_bool_decide as Hin; [injection E as <-; split; [done|set_solver|done]|].
    assert (forall roots, seen roots (oset_insert root vis) vis' -> (forall t, substitutions s !! root = Some t ->
      data_shape t = true /\ type_roots s t ⊆ vis') -> seen [root] vis vis') as HS.
    { intros roots [A1 A2 A3] Hr. assert (root ∈ vis') as Hroot by (apply A1, oset_insert_elem; by left). split.
      - intros y Hy. apply A1, oset_insert_elem. by right.
      - set_solver.
      - intros y t Hy Hn Ht. destruct (decide (y = root)) as [->|Hne]; [by apply Hr|].
        apply (A3 y); [done| |done]. rewrite oset_insert_elem. naive_solver. }
    destruct (substitutions s !! root) as [t|] eqn:Et.
    + pose proof (key_lt _ _ _ (wf_wf_core _ Hwf) Et) as Hlt. pose proof (unvisited_insert s _ _ Hlt Hin) as Hu.
      destruct fuel as [|fuel]; [lia|]. destruct (IHf fuel (Nat.lt_succ_diag_r fuel) t (oset_insert root vis) vis' ltac:(lia) E) as [H1 H2].
      apply (HS _ H2). intros u [= <-]. split; [done|apply H2].
    + apply (HS []); [|done]. destruct fuel; injection E as <-; by split; set_solver.
Qed.

(** A type without functions or opaque values has trees of data. *)
Lemma data_sound effects t :
  contains_no_function s t = true -> data_tree (tree_of (solution_with s effects) t) = true.
Proof.
  unfold contains_no_function, contains. intros Hc.
  destruct (contains_inner s is_not_data (S (length (type_parents s))) t []) as [[] vis] eqn:E; [done|].
  apply walk_walked in E as [H1 [_ H2 H3]].
  2:{ unfold unvisited. etrans; [apply length_filter|]. rewrite length_seq. lia. }
  assert (forall n z, (height s (root_variable s z) < n)%nat -> root_variable s z ∈ vis ->
    data_tree (type_value (solution_with s effects) z) = true) as HV.
  { induction n as [|n IH]; intros z Hn Hz; [lia|]. rewrite (expand_unfold s Hwf).
    destruct (substitutions s !! root_variable s z) as [u|] eqn:Eu; [|done].
    destruct (H3 _ u Hz) as [Hu1 Hu2]; [apply not_elem_of_nil|done|]. apply shape_data; [done|]. intros y Hy.
    apply IH; [pose proof (wf_height_lt s _ u y Hwf Eu Hy); lia|]. apply Hu2. by apply list_elem_of_fmap_2. }
  apply shape_data; [done|]. intros v Hv. apply (HV (S (height s (root_variable s v)))); [lia|].
  apply H2. by apply list_elem_of_fmap_2.
Qed.

(** A type whose head is an integer, a text or nothing yet has an order. *)
Lemma ordered_sound effects t :
  match resolve_head s t with IInt | IString | IVariable _ => true | _ => false end = true ->
  ordered_tree (tree_of (solution_with s effects) t).
Proof.
  destruct t as [| | | | | | | | | | | | | | | | |v]; try done; [by left|by right|]. cbn [resolve_head tree_of].
  rewrite (expand_unfold s Hwf). destruct (substitutions s !! root_variable s v) as [t|] eqn:Et; simpl default; [|by left].
  destruct (wf_binding _ (wf_wf_core _ Hwf) _ _ Et) as (Hn & _ & _).
  destruct t; try done; [by left|by right].
Qed.
End Walk.

(** ** The valuation of a finished analysis *)

Section Final.
Context (s : Inference) (Hwf : wf s) (Hasc : effects_ascending s).

Definition resolved_effects (e : nat) : effect_value :=
  (list_to_set (default [] (expanded_effects s !! e)), list_to_set (default [] (expanded_requirements s !! e))).

Definition final : Valuation := solution_with s resolved_effects.

Lemma expanded_closed {A} `{CmpOk A} `{EqDecision A} (own : InferEffects -> list A) :
  Forall (fun def => ascending (own def)) (effect_definitions s) ->
  forall e def, effect_definitions s !! e = Some def ->
    let sets := expand_sets (map dependencies (effect_definitions s)) (map own (effect_definitions s)) in
    (forall y, y ∈ own def -> members sets e y)
    /\ (forall d y, d ∈ dependencies def -> members sets d y -> members sets e y).
Proof.
  intros Ha e def He. destruct (expand_sets_least (map dependencies (effect_definitions s)) (map own (effect_definitions s))) as [HC _].
  - by rewrite !length_map.
  - by apply Forall_map.
  - apply (HC e (dependencies def) (own def)); rewrite list_lookup_fmap, He; done.
Qed.

Lemma final_effects : effects_ok s final.
Proof.
  unfold effects_ascending in Hasc. rewrite Forall_map in Hasc. intros e def He.
  destruct (expanded_closed direct) with (e := e) (def := def) as [D1 D2]; [by eapply Forall_impl; [exact Hasc|]; intros d []|done|].
  destruct (expanded_closed direct_requirements) with (e := e) (def := def) as [R1 R2]; [by eapply Forall_impl; [exact Hasc|]; intros d []|done|].
  unfold members in *. simpl. split; [|split].
  - intros y Hy. by apply elem_of_list_to_set, D1.
  - intros y Hy. by apply elem_of_list_to_set, R1.
  - intros d Hd. split; intros y Hy%elem_of_list_to_set; apply elem_of_list_to_set; [by eapply D2|by eapply R2].
Qed.

Lemma final_solves : solves s final.
Proof. apply solution_with_solves; [done|apply final_effects]. Qed.

Lemma final_within effects : within final effects (list_to_set (resolve_effects effects (expanded_effects s))).
Proof.
  split.
  - intros y Hy. apply elem_of_list_to_set, resolve_elem. by left.
  - intros d Hd y Hy%elem_of_list_to_set. apply elem_of_list_to_set, resolve_elem. right. by exists d.
Qed.

Lemma final_constraint a c :
  an_inference a = s -> constraint_valid a c = true -> constraint_holds final c.
Proof.
  unfold constraint_valid, constraint_holds. intros -> Hv.
  destruct (tc_kind c); try done; [by apply ordered_sound|by apply data_sound|by apply ordered_sound|by apply data_sound].
Qed.
End Final.

(** ** Reported expressions *)

Lemma normalized_elem {A B} normalized (ty : A -> InferType) (make : A -> KritType -> B) l n x :
  x ∈ l -> exists t, make x t ∈ fst (normalize_each normalized ty make l n).
Proof.
  intros Hx. revert n. induction Hx as [x l|x y l Hx IH]; intros n; simpl.
  - destruct (normalized (ty x) n) as [t n1]. destruct (normalize_each normalized ty make l n1) as [rest n2].
    exists t. by left.
  - destruct (normalized (ty y) n) as [t n1]. destruct (IH n1) as [u Hu].
    destruct (normalize_each normalized ty make l n1) as [rest n2]. exists u. by right.
Qed.

(** A name is resolved to [json_decode]. *)
Definition decodes (e : ExpressionAnalysis) : bool :=
  bool_decide (ea_resolved e = Some (ResolvedBuiltin BiJsonDecode)).

Lemma report_accepted effects a pa : report effects a = Accepted pa ->
  pa_effects pa = resolve_effects effects (expanded_effects (an_inference a))
  /\ forall e, e ∈ an_expressions a -> exists r, r ∈ pa_expressions pa /\ ea_resolved r = pe_resolved e.
Proof.
  unfold report.
  destruct (normalize_each _ pb_ty _ _ _) as [bindings n1].
  destruct (normalize_each _ ps_ty _ _ _) as [symbols n2].
  destruct (normalize_each _ pe_ty _ _ _) as [expressions n3] eqn:E.
  destruct (normalize_each _ pk_ty _ _ _) as [blocks n4].
  destruct (_ && _ && _); [|done]. intros [= <-]. split; [done|]. simpl. intros e He.
  match type of E with normalize_each ?norm ?ty ?make ?l ?n = _ =>
    destruct (normalized_elem norm ty make l n e He) as [t Ht] end.
  rewrite E in Ht. simpl in Ht. eexists. split; [unfold sort_by_span; rewrite merge_sort_Permutation; exact Ht|reflexivity].
Qed.

(** ** Accepted programs *)

Section Accepted.
Context (str_debug : string -> string) (url_parse : string -> option Url) (steps : nat).

Lemma inv_new : inv new_analyzer.
Proof. split; simpl; [apply wf_no_inference|constructor|by repeat constructor|constructor|constructor]. Qed.

(** What is left of an accepted program. *)
Lemma analyze_accepted p pa : analyze str_debug url_parse steps p = Accepted pa ->
  exists effects a,
    statements str_debug steps (expression str_debug url_parse steps analysis_fuel)
      (block str_debug url_parse steps analysis_fuel) (program_statements p) None no_effects new_analyzer
    = (a, Accepted effects)
    /\ forallb (constraint_valid a) (an_constraints a) = true /\ report effects a = Accepted pa.
Proof.
  unfold analyze, program, check_bind. destruct (statements _ _ _ _ _ _ _ new_analyzer) as [a [effects| | |]]; try done.
  simpl. destruct (validate_host_builtin_references a) as [[]|]; [|done]. simpl. unfold validate_constraints.
  destruct (find _ (an_constraints a)) as [c|] eqn:E; [by destruct (constraint_error _ _)|]. simpl. intros Hr.
  exists effects, a. split; [done|]. split; [|done]. apply forallb_forall. intros c Hc.
  pose proof (find_none _ _ E c Hc) as Hn. by apply negb_false_iff in Hn.
Qed.

Lemma accepted_typed p pa :
  forallb armed_statement (program_statements p) = true -> analyze str_debug url_parse steps p = Accepted pa ->
  existsb decodes (pa_expressions pa) = false -> typed_program p (list_to_set (pa_effects pa)).
Proof.
  intros Harm (effects & a & Hrun & Hvalid & Hreport)%analyze_accepted Hdec.
  set (s := an_inference a).
  assert (forall rho, inv a /\ (good rho a -> forall fs, within rho effects fs ->
    exists gamma, typed_statements [] None fs (program_statements p) gamma)) as HW.
  { intros rho. pose proof (walk_sound rho str_debug url_parse steps analysis_fuel) as [He Hb].
    assert (holds (statements str_debug steps (expression str_debug url_parse steps analysis_fuel)
      (block str_debug url_parse steps analysis_fuel) (program_statements p) None no_effects) new_analyzer
      (fun effects a => inv a /\ (good rho a -> forall fs, within rho effects fs ->
         exists gamma, typed_statements [] None fs (program_statements p) gamma))) as H.
    { apply (statements_sound rho); [done|done|done|apply inv_new|]. intros effects' a' M _ HT. split; [apply M|].
      intros Hg fs Hw. destruct (HT Hg [] None fs) as (gamma & Ht & _); [done|done|by exists gamma]. }
    unfold holds in H. by rewrite Hrun in H. }
  destruct (HW (final s)) as [[Hwf Hasc _ _ _] HT]. apply report_accepted in Hreport as [-> Hexp].
  apply HT; [|by apply final_within]. split.
  - by apply final_solves.
  - apply Forall_forall. intros c Hc. rewrite forallb_forall in Hvalid.
    apply (final_constraint s Hwf a); [done|]. by apply Hvalid, list_elem_of_In.
  - apply Forall_forall. intros e He Hd. destruct (Hexp e He) as (r & Hr & Er).
    assert (existsb decodes (pa_expressions pa) = true); [|congruence]. apply existsb_exists. exists r.
    rewrite <- list_elem_of_In. split; [done|]. apply bool_decide_eq_true. congruence.
Qed.

Context `{PlatformOk}.

(** C1: accepted programs do not go wrong.  A text the lexer, the parser and
    the analyzer accept, in which no name is [json_decode], runs to its end or
    stops with an error that types do not exclude: division by zero, integer
    overflow, a depth limit, a failing encoder, an operation of the host whose
    effect the analysis reports, a failing output when it reports printing.  No
    operation meets a value it is not defined on, and no match misses an arm.
    A program reported without the effect of printing leaves the output alone. *)
Theorem accepted_program_safe (text : chars) (tokens : list Token) (p : Program) (pa : ProgramAnalysis) (output : Sink) :
  lex text = Scanned tokens -> parse text tokens = Parsed p ->
  analyze str_debug url_parse steps p = Accepted pa -> existsb decodes (pa_expressions pa) = false ->
  let '(s, outcome) := execute p output in
  (outcome = Done VUnit
   \/ exists d, outcome = Stopped (IError d) /\ runtime_failure (list_to_set (pa_effects pa)) d)
  /\ (EffIoStdout ∉ pa_effects pa -> ev_output s = output).
Proof.
  intros Hlex Hparse Ha Hd. assert (typed_program p (list_to_set (pa_effects pa))) as Ht.
  { apply accepted_typed; [|done|done]. eapply parsed_armed; eassumption. }
  pose proof (execute_ends p output) as HE. destruct (typed_program_runs p _ output Ht) as [Ho Hp].
  destruct (execute p output) as [s o]. simpl in *. split.
  - destruct HE as [[->|[d ->]] _]; [by left|right; by exists d].
  - intros Hn. apply Ho. by rewrite elem_of_list_to_set.
Qed.
End Accepted.

(** ** An accepted program *)

(** Functions that return results, a let-else, [?], a match, a record, and a
    parameter whose type is inferred. *)
Definition quarter_text : chars :=
  ascii_chars "fn half(n: Int) -> Result<Int, String> { if n % 2 == 0 { Ok(n / 2) } else { Err(int_to_string(n)) } }"
  ++ ascii_chars "fn quarter(n) -> Result<Int, String> { let Ok(h) = half(n) else Err(e) => Err(e); let q = half(h)?; Ok(q) }"
  ++ ascii_chars "let shown = match quarter(12) { Ok(q) => int_to_string(q), Err(e) => e };"
  ++ ascii_chars "println(record { text: shown }.text);".

Definition quarter_tokens : list Token := match lex quarter_text with Scanned tokens => tokens | _ => [] end.
Definition quarter_program : Program :=
  match parse quarter_text quarter_tokens with Parsed program => program | _ => mkProgram [] end.
Definition quarter_analysis : ProgramAnalysis :=
  match analyze (fun text => text) (fun _ => None) 100 quarter_program with
  | Accepted analysis => analysis
  | _ => mkAnalysis [] [] [] [] [] [] []
  end.

Example quarter_prints :
  pa_effects quarter_analysis = [EffIoStdout] /\ length (pa_expressions quarter_analysis) = 43%nat
  /\ ev_output (fst (@execute SamplePlatform quarter_program "")) = "3" +:+ String (Ascii.ascii_of_nat 10) "".
Proof. vm_compute. done. Qed.

Lemma accepted_program_safe_witness :
  lex quarter_text = Scanned quarter_tokens /\ parse quarter_text quarter_tokens = Parsed quarter_program
  /\ analyze (fun text => text) (fun _ => None) 100 quarter_program = Accepted quarter_analysis
  /\ existsb decodes (pa_expressions quarter_analysis) = false
  /\ let '(s, outcome) := @execute SamplePlatform quarter_program "" in
     (outcome = Done VUnit
      \/ exists d, outcome = Stopped (IError d) /\ runtime_failure (list_to_set (pa_effects quarter_analysis)) d)
     /\ (EffIoStdout ∉ pa_effects quarter_analysis -> ev_output s = "").
Proof.
  assert (H1 : lex quarter_text = Scanned quarter_tokens) by (vm_compute; reflexivity).
  assert (H2 : parse quarter_text quarter_tokens = Parsed quarter_program) by (vm_compute; reflexivity).
  assert (H3 : analyze (fun text => text) (fun _ => None) 100 quarter_program = Accepted quarter_analysis)
    by (vm_compute; reflexivity).
  assert (H4 : existsb decodes (pa_expressions quarter_analysis) = false) by (vm_compute; reflexivity).
  split; [exact H1|split; [exact H2|split; [exact H3|split; [exact H4|]]]].
  apply (@accepted_program_safe (fun text => text) (fun _ => None) 100 SamplePlatform SamplePlatformOk
           quarter_text quarter_tokens quarter_program quarter_analysis "" H1 H2 H3 H4).
Defined.
